(* ===== verification/_CoqProject ===== *)
-Q . S2P
Prelude.v
Bitops.v
FindBit.v
Bitmap.v
BitmapMap.v
Memblock.v
MemblockList.v
MemblockArray.v
MemblockSpec.v
MemblockFree.v
MemblockThm.v
MemblockGrow.v
Strings.v
StringsThm.v
StringsCopy.v
Kstrtox.v
Vsprintf.v
VsprintfThm.v
Groups.v
PosixAcl.v
PosixAclThm.v
Kfifo.v
KfifoThm.v
Bcb.v
BcbThm.v
BcbCmd.v
Idme.v
IdmeThm.v
IdmeCmd.v
IdmeLife.v
LinkedList.v
LinkedListThm.v
LinkedListOps.v
ListSortThm.v
ListSortRun.v
Sort.v
SortThm.v
CapSet.v
Capability.v
Credsys.v
CapabilityThm.v
CredsysThm.v
CredsysCalls.v
CredsysExec.v
CredsysRun.v
CredsysSpec.v
ExecSpec.v
RbTree.v
RbTreeShape.v
RbTreeHeap.v
RbTreeBalance.v
RbTreeInsert.v
RbTreeErase.v
RbTreeRemove.v
RbTreeWalk.v
RbTreeThm.v
TimerQueue.v
TimerQueueThm.v
Cmdline.v
CmdlineThm.v
Parser.v
ParserThm.v
SecureBoot.v
SecureBootThm.v
SecureBootVerify.v
Unlock.v
UnlockThm.v
FosFlags.v
FosFlagsThm.v
Crc.v
CrcThm.v
Radix.v
RadixPath.v
RadixInv.v
RadixOps.v
RadixTags.v
RadixInsert.v
RadixStore.v
RadixDelete.v
RadixThm.v
