(* ===== verification/Prelude.v ===== *)
(** * Verified kernel core of the MStar T1 Fire TV tree

    The repository holds a Linux 3.10 kernel for the MStar T1 platform
    (src/kernel/mstar/t1/3.10, called K below), the bootloaders (u-boot under
    src/bootable/bootloader/uboot-mstar/t1/u-boot-2011.06, called UB), the boot features
    shared by them (src/bootable/bootloader/ufbl-features, called UF) and a few
    vendor libraries.  This development models sequential core routines of the
    kernel that much of the rest is built on, the rules of user ids and capabilities,
    and the features of the bootloader that decide what the device boots: boot slots,
    device identity, secure boot, unlocking and lockdown, and proves them correct.
    The modelled configuration of the kernel is the arm64 one the product ships
    (BITS_PER_LONG = 64, little endian, pages of 4096 bytes, unsigned char, memblock
    without node map unless a theorem says otherwise); the bootloader is the 32-bit one
    of the board margo.

    ** Parts, files and correspondence with the source

    - Prelude: machine integers ([wrap], [u8] .. [s64]), the [bits] rewrite database
      and the tactics [bitwise] and [dlia], the monad [prog] of partial programs with
      state and its weakest preconditions [wp], the loops [for_up], [for_down],
      [for_fold], arrays indexed by Z ([rd], [wr]) and heaps of arrays.
    - Bitops: K/include/asm-generic/bitops, K/lib/hweight.c.
    - FindBit: K/lib/find_next_bit.c, K/lib/find_last_bit.c.
    - Bitmap, BitmapMap: K/lib/bitmap.c.  A bitmap is an array of 64-bit words in a
      heap; pointers may alias.  BitmapMap has the region allocator (__reg_op) and
      the maps between bitmaps (bitmap_remap, bitmap_onto, bitmap_fold).
    - Memblock: K/mm/memblock.c, the boot-time physical memory allocator, with the
      growth of its arrays through memblock_double_array, which calls back into
      memblock_add_region.  MemblockList and MemblockArray hold the invariant of one
      region array, MemblockSpec the abstract owner map and the refinement lemmas,
      MemblockFree the free-range iterators and the search, MemblockThm queries, nodes
      and limits, MemblockGrow adding, removing and allocating with growing arrays.
    - Strings, StringsThm, StringsCopy: K/lib/string.c and K/lib/ctype.c over a flat
      byte memory in which an access to an unmapped byte goes wrong.
    - Kstrtox: K/lib/kstrtox.c and the simple_strto* functions of K/lib/vsprintf.c.
    - Vsprintf, VsprintfThm: put_dec, num_to_str, number and string of
      K/lib/vsprintf.c.
    - Cmdline, CmdlineThm: K/lib/cmdline.c, with the pointers of Kstrtox.
    - Parser, ParserThm: K/lib/parser.c, the mount option parser, over the memory of
      Strings; kmalloc enters through the class [kmem].
    - Groups: K/kernel/groups.c, the supplementary groups of a process.
    - PosixAcl, PosixAclThm: K/fs/posix_acl.c.
    - Kfifo, KfifoThm: K/lib/kfifo.c.
    - LinkedList, LinkedListThm, LinkedListOps: K/include/linux/list.h and the merge
      sort K/lib/list_sort.c over a heap of list nodes ([nodes], two pointers each).
      LinkedListThm has chains, rings and the links an operation writes,
      LinkedListOps the operations of list.h, ListSortThm and ListSortRun the sort.
    - Sort, SortThm: K/lib/sort.c (heap sort in a byte memory) and K/lib/bsearch.c.
    - RbTree: K/lib/rbtree.c with rbtree.h and rbtree_augmented.h over a heap of
      nodes ([rb_state]: nodes, roots, and the data of the user of the tree).
      RbTreeShape has the logical trees, places in them and the heap that holds a
      tree, RbTreeHeap the tactics that run straight-line code on exposed nodes,
      RbTreeBalance the red-black properties, RbTreeInsert, RbTreeErase, RbTreeRemove
      and RbTreeWalk the operations, RbTreeThm the theorems.
    - TimerQueue, TimerQueueThm: K/lib/timerqueue.c on these trees.
    - CapSet: capability sets of K/include/linux/capability.h.  Capability: the state
      of a task ([kcred], [task], [ksys]), the hooks of K/security/commoncap.c and the
      queries of K/kernel/capability.c.  Credsys: K/kernel/cred.c, the set*id and
      prctl calls of K/kernel/sys.c, capget and capset, setgroups, and the part of
      K/fs/exec.c that computes credentials; the references to credentials and group
      lists are counted and the BUG_ONs on them kept.  SELinux, the quota of processes and
      memory allocation enter through the class [cap_env].  CapabilityThm, CredsysThm,
      CredsysCalls and CredsysExec have the lemmas of each call, CredsysRun the
      sequences of calls of a task, CredsysSpec and ExecSpec exact specifications.
    - Bcb, BcbThm, BcbCmd: the boot control block of the A/B slots in
      UF/features/bcb, from its 32-byte disk image to the fastboot variables.
    - Idme, IdmeThm, IdmeCmd, IdmeLife: the device identity table in
      UF/features/idme: items in a byte image, the version table, the boot
      counters and the commands, with the number parsers of u-boot they use.  IdmeLife has the life of the table over boots.
    - SecureBoot, SecureBootThm, SecureBootVerify: UF/features/secure_boot, the check of
      an image certificate against a root certificate (image_verify_ltc.c).  The ASN.1
      decoder, RSA and SHA-256 of libtomcrypt and the allocator enter through classes.
    - Unlock, UnlockThm: UF/features/unlock and fastboot_lockdown, the policy of
      UF/features/secure_boot/image_verify.c, and what the board and u-boot do with
      them: UB/board/margo, bootm, is_lockdown, the dispatch of fastboot commands.
    - FosFlags, FosFlagsThm: fastboot oem flags and oem bootmode
      (UB/common/cmd_fastboot.c).
    - Crc, CrcThm: K/lib/crc32.c with the generator of its tables, crc16.c, crc-ccitt.c
      and bitrev.c.
    - Radix: K/lib/radix-tree.c over a heap of nodes, with the pool of preloaded nodes and
      the queue of call_rcu.  RadixPath has the paths through the nodes, RadixInv the
      invariant, RadixOps lookup, RadixTags the tags, RadixInsert and RadixStore insertion,
      preloading and deferred freeing, RadixDelete deletion, RadixThm the
      clients of a tree.  The slab and call_rcu enter through the class [rt_env],
      of which every operation of a client has its own instance.

    The parts meet where the code does: BitmapMap calls the searches of FindBit and
    the predicates of Bitmap; number is read back by the parsers of Kstrtox,
    on which the command line and mount options are built; the ACL
    check asks in_group_p of Groups; kfifo moves its data with memcpy of Strings.
    The boot control block is parsed and printed with Strings; the timer queue links
    its nodes with the insertion of RbTree and is proved against its lemmas; the
    capability check asks in_egroup_p of Groups, and setgroups installs what
    set_groups built.  memblock takes the slab allocator through the class
    [memblock_config].  The boot decision of Unlock runs the certificate check of
    SecureBoot and reads the unlock code from the identity table of Idme, which fastboot
    writes; the flags commands are programs on that table too, proved with the lemmas
    of IdmeThm.

    ** What the theorems show

    - Searching and counting: find_next_bit and its relatives return the least or
      greatest bit asked for and read nothing outside the bitmap; the parallel
      population counts are exact.
    - Bitmaps: the Boolean, shift, range and region operations change and observe
      exactly the bits they should, under aliasing; bitmap_pos_to_ord and
      bitmap_ord_to_pos are inverse; remap, onto and fold are the images their
      documentation describes.
    - memblock: each region array refines a partial map from addresses to nodes; the
      operations refine union, restriction and update of that map, keep it sorted,
      merged and accounted, and fail with -ENOMEM without adding or removing anything;
      a full array is doubled first, which keeps its regions, reserves the memory of the
      new array and frees that of the old one; the free-range iterators visit exactly the
      free addresses and memblock_alloc returns and reserves the highest free aligned area.
    - Strings: exact results of every search, comparison and copy, memmove under any
      overlap, and the bytes written.
    - Numbers: kstrto* decides its grammar with exact -ERANGE and -EINVAL, but for a
      negative zero; number and
      num_to_str print canonical digits in the layout the flags ask for, never write
      at or after the end, and kstrtoull and kstrtoll read a text without blanks back; memparse is
      exact modulo 2^64, and get_options reads back lists of numbers and ranges.
    - Mount options: match_token selects the first pattern that matches the whole
      string, for every string and pattern, with its arguments; an option with a
      number is read back by match_int; the number parsers are exact in every error and
      leave the memory as it was.
    - Access control: posix_acl_valid decides the ACL grammar, posix_acl_permission is
      the POSIX 1003.1e access check, creation and chmod keep ACL and mode bits
      consistent and references exact; after set_groups the binary search of
      in_group_p answers membership exactly.
    - kfifo: the stream operations refine a bounded queue of bytes and the record
      operations a queue of records, through every wrap-around.
    - Lists and sorting: the operations of list.h refine operations on sequences;
      list_sort returns a stable sorted permutation in a well-formed ring and calls
      the comparison on elements of the list only; sort returns a sorted permutation
      and bsearch finds an element whenever there is one.
    - Trees: rb_insert_color and rb_erase keep the red-black properties, the parent
      pointers and the order of the nodes, touch nothing outside of the tree and never
      go wrong; the walks follow the order; the height is logarithmic after any
      sequence of operations.  The timer queue refines a stable priority queue.
    - Radix trees: a client of a tree sees a map with a set of indices for each tag,
      whatever the slab hands out, and never meets a BUG; a full pool of preloaded nodes
      is enough for any insertion.
    - Privileges: every call runs to its end, meets no BUG_ON and keeps credentials and
      references well formed;
      along every sequence of calls the bounding set only shrinks and no capability
      outside of the ceiling of a task comes back; under no_new_privs no exec gains
      ids or capabilities; the permitted and effective sets after exec are the
      documented formula; capset accepts exactly what cap_capset allows, which with
      CAP_SETPCAP is more than its comment says, capget reads it back,
      and giving up root with setuid gives up the capabilities.
    - Boot control: the slot that boots is the one of the documented policy; a slot
      that keeps failing loses its tries and the other one is booted after finitely
      many boots; the partition holds exactly what the write attempts leave in it.
    - Device identity: the commands refine a map from item names to values, the
      tables are built with the items of the device, a damaged or missing table is
      replaced by the defaults, and the boot counter counts boots.
    - Secure boot: amzn_verify_image accepts only a certificate that is signed by the
      root asked for, names the product and holds the digest of the image, and accepts
      every such certificate that decodes and has the expected structure; bootm starts an Android image only with such a
      certificate or a signed unlock code in the identity table.
    - Unlocking: a signed code unlocks and oem relock locks again; in lockdown
      fastboot runs no command that writes anything but a signed code.  The flags
      commands change the bits they are told to, and no other item.
    - Checks: the sliced table-driven CRC routines compute the bitwise definition at
      every alignment, with the tables of the generator.
    - Some exact results are lemmas and not among the properties of the manifest: the
      searches and comparisons of strings, range and image operations on bitmaps, the
      queries and node assignment of memblock, creation of access control lists, the
      boot counter, the free regions of a bitmap, the words fastboot accepts, the
      construction of identity tables, memparse, the numbers of mount options, the layout
      of printed numbers, capget read back by capset, the grammar of access control lists,
      the free ranges of memblock, the records of kfifo, the population counts and the
      lists of numbers of get_options.
    - Findings of the proofs are lemmas of their own, next to the theorems: memblock
      accounting (memblock_accounting_defects), arrays that grow into the range to be
      reserved (growth_inside_range) or into each other (arrays_share_memory), unused bits in __bitmap_and,
      strncasecmp with count 0, kstrtoll of "-0", a precision that wraps in number, a
      range that get_options writes behind the array (without ranges it stays inside),
      texts match_int accepts that are no numbers or out of range,
      three defects of kfifo, the network groups of the calling task that decide about
      another task's capabilities, and the findings on bcb, idme, secure boot, unlock
      codes and flags the manifest lists.

    ** Conventions, bounds and fuel

    Definitions keep the names of the source, with a trailing underscore where the
    name is a keyword.  Pure code is a function; code that can go wrong returns an
    [option] or a [prog], [None] being an access outside an object, a BUG_ON or an
    undefined operation; error codes are ordinary values.  Unsigned arithmetic that
    may leave its width is wrapped where it happens.  Loops are structural where the
    code's bound is an array, and carry fuel otherwise; every theorem shows that the
    fuel given in the definition suffices in the states it is about: string loops run at most once per mapped
    byte, get_options and the flags parser once per character, match_one once per '%' of
    the pattern, merge and isolate loops once or twice per region, the growth of a memblock array
    twice at most in one call (for arrays of at least four regions), without a growth inside
    it when reserved has four entries left (RESIZE_DEPTH allows for reserved growing while
    memory grows, of which arrays_share_memory is an example), padding loops at most
    2^16 times (their counter is 16 bits wide), the search for an unlock code once per
    counter of its range, the loops of the table generator 256 and 9 times, the Shell sort at most 24 strides and
    the binary search of groups 33 halvings of a 32-bit interval, bsearch 65 of a
    64-bit one, the list loops once per node of the heap, list_sort over the 21
    levels of its array, the loops on red-black trees once per node of a path, which is
    at most the number of nodes of the heap, the loops on radix trees once per level, of
    which there are at most 11, and preloading 22 times, the walk over user namespaces once
    per level.  sort keeps its offsets in int, so its theorem asks for
    num * size to be at most INT_MAX; where offsets would overflow they wrap, as the kernel
    is compiled with -fno-strict-overflow.

    ** Not modelled

    Concurrency: locks, RCU, memory barriers and atomicity are outside of the
    sequential models; reference counts are plain integers, and those of users
    are left out.  The growth of memblock arrays is proved for the time before the slab
    allocator is up, and memblock_set_node and memblock_enforce_memory_limit for arrays with
    room.  Debug output, /proc and debugfs
    files, the text conversions of bitmaps, the format interpreter of vsprintf,
    scatterlists, user-space memory and id mapping (parameters), fork, keyrings and
    the policy of SELinux (its verdicts are a parameter), the generator macro of tree
    callbacks, the transport of fastboot and what it writes to partitions, the certificate
    check with OpenSSL (the product is built with libtomcrypt), and the other subsystems
    of the tree, which the manifest lists with the reasons.

    ** What could follow

    The iteration over radix trees, the callbacks of augmented trees and the text conversions of
    bitmaps would extend the parts above; the page allocator, the
    scheduler and the drivers need a model of concurrency first. *)

From stdpp Require Export base tactics list gmap numbers option fin_maps.
From Stdlib Require Export ZArith Lia Bool Btauto.

#[global] Open Scope Z_scope.

(** Linear arithmetic with division and remainder by constants. *)
Ltac dlia := Z.to_euclidean_division_equations; lia.

(** ** Machine integers

    An unsigned C integer of width [w] is a [Z] in [0, 2^w); every operation
    that may leave that range is followed by [wrap w].  Signed integers are
    kept as plain [Z]; the places where the code converts to [int] use [s32]. *)

Definition wrap (w x : Z) : Z := x `mod` 2 ^ w.
Definition u8 (x : Z) : Z := wrap 8 x.
Definition u16 (x : Z) : Z := wrap 16 x.
Definition u32 (x : Z) : Z := wrap 32 x.
Definition u64 (x : Z) : Z := wrap 64 x.
Definition s32 (x : Z) : Z := wrap 32 (x + 2 ^ 31) - 2 ^ 31.
Definition s64 (x : Z) : Z := wrap 64 (x + 2 ^ 63) - 2 ^ 63.

Definition INT_MAX : Z := 2 ^ 31 - 1.
Definition ULONG_MAX : Z := 2 ^ 64 - 1.

Declare Scope cint_scope.
Delimit Scope cint_scope with cint.
Notation "~64 x" := (u64 (Z.lnot x)) (at level 35, right associativity) : cint_scope.
Notation "x <<64 n" := (u64 (Z.shiftl x n)) (at level 40, left associativity) : cint_scope.
Notation "x >>u n" := (Z.shiftr x n) (at level 40, left associativity) : cint_scope.
Notation "x +64 y" := (u64 (x + y)) (at level 50, left associativity) : cint_scope.
Notation "x -64 y" := (u64 (x - y)) (at level 50, left associativity) : cint_scope.
Notation "x .& y" := (Z.land x y) (at level 42, left associativity) : cint_scope.
Notation "x .| y" := (Z.lor x y) (at level 44, left associativity) : cint_scope.
Notation "x .^ y" := (Z.lxor x y) (at level 43, left associativity) : cint_scope.
#[global] Open Scope cint_scope.

Notation is_u8 x := (0 ≤ x < 2 ^ 8).
Notation is_u32 x := (0 ≤ x < 2 ^ 32).
Notation is_u64 x := (0 ≤ x < 2 ^ 64).

Lemma wrap_range w x : 0 ≤ w → 0 ≤ wrap w x < 2 ^ w.
Proof. intros. apply Z.mod_pos_bound. lia. Qed.

Lemma wrap_small w x : 0 ≤ x < 2 ^ w → wrap w x = x.
Proof. apply Z.mod_small. Qed.

Lemma wrap_wrap w x : 0 ≤ w → wrap w (wrap w x) = wrap w x.
Proof. intros. apply wrap_small, wrap_range; done. Qed.

Lemma u64_range x : is_u64 (u64 x).
Proof. by apply wrap_range. Qed.
Lemma u64_small x : is_u64 x → u64 x = x.
Proof. apply wrap_small. Qed.
Lemma u64_add_l x y : u64 (u64 x + y) = u64 (x + y).
Proof. apply Zplus_mod_idemp_l. Qed.
Lemma u64_sub_l x y : u64 (u64 x - y) = u64 (x - y).
Proof. apply Zminus_mod_idemp_l. Qed.
Lemma u32_range x : is_u32 (u32 x).
Proof. by apply wrap_range. Qed.
Lemma u32_small x : is_u32 x → u32 x = x.
Proof. apply wrap_small. Qed.
Lemma u8_range x : is_u8 (u8 x).
Proof. by apply wrap_range. Qed.
Lemma u8_mod x : u8 x = x `mod` 2 ^ 8.
Proof. done. Qed.
Lemma u8_small x : is_u8 x → u8 x = x.
Proof. apply wrap_small. Qed.
Lemma s32_small x : - 2 ^ 31 ≤ x < 2 ^ 31 → s32 x = x.
Proof. intros. unfold s32. rewrite wrap_small; lia. Qed.

(** ** Bits of integers *)

Create HintDb bits.

Lemma testbit_wrap w x i : 0 ≤ w → Z.testbit (wrap w x) i = (i <? w) && Z.testbit x i.
Proof.
  intros. unfold wrap. destruct (Z.ltb_spec i w); simpl.
  - destruct (decide (0 ≤ i)).
    + by rewrite Z.mod_pow2_bits_low by lia.
    + rewrite !Z.testbit_neg_r by lia. done.
  - by rewrite Z.mod_pow2_bits_high by lia.
Qed.

Lemma testbit_u64 x i : Z.testbit (u64 x) i = (i <? 64) && Z.testbit x i.
Proof. by apply testbit_wrap. Qed.
Lemma testbit_u32 x i : Z.testbit (u32 x) i = (i <? 32) && Z.testbit x i.
Proof. by apply testbit_wrap. Qed.

Lemma testbit_ones n i : 0 ≤ n → Z.testbit (Z.ones n) i = (0 <=? i) && (i <? n).
Proof. apply Z.testbit_ones. Qed.

Lemma testbit_lnot x i : Z.testbit (Z.lnot x) i = (0 <=? i) && negb (Z.testbit x i).
Proof.
  destruct (Z.leb_spec 0 i); simpl.
  - by apply Z.lnot_spec.
  - by rewrite Z.testbit_neg_r by lia.
Qed.

Lemma testbit_shiftl x n i : Z.testbit (Z.shiftl x n) i = (0 <=? i) && Z.testbit x (i - n).
Proof.
  destruct (Z.leb_spec 0 i); simpl.
  - by apply Z.shiftl_spec.
  - by rewrite Z.testbit_neg_r by lia.
Qed.

Lemma testbit_shiftr x n i : Z.testbit (Z.shiftr x n) i = (0 <=? i) && Z.testbit x (i + n).
Proof.
  destruct (Z.leb_spec 0 i); simpl.
  - by apply Z.shiftr_spec.
  - by rewrite Z.testbit_neg_r by lia.
Qed.

(** A number below [2^w] has no bit at [w] or above. *)
Lemma testbit_high w x i : 0 ≤ x < 2 ^ w → w ≤ i → Z.testbit x i = false.
Proof.
  intros Hx Hi. destruct (decide (0 ≤ w)).
  - rewrite <- (wrap_small w x) by done. rewrite testbit_wrap by done.
    destruct (Z.ltb_spec i w); [lia | done].
  - rewrite Z.pow_neg_r in Hx by lia. lia.
Qed.

Lemma testbit_true_range w x i : 0 ≤ x < 2 ^ w → Z.testbit x i = true → 0 ≤ i < w.
Proof.
  intros Hx Hi. destruct (decide (0 ≤ i)).
  - destruct (decide (i < w)); [lia|].
    rewrite (testbit_high w) in Hi by lia. done.
  - rewrite Z.testbit_neg_r in Hi by lia. done.
Qed.

(** A nonnegative number all of whose high bits vanish is below [2^w]. *)
Lemma bits_bound w x :
  0 ≤ w → (∀ i, w ≤ i → Z.testbit x i = false) → 0 ≤ x < 2 ^ w.
Proof.
  intros Hw H. cut (x = wrap w x); [intros ->; by apply wrap_range|].
  apply Z.bits_inj'. intros i Hi. rewrite testbit_wrap by done.
  destruct (Z.ltb_spec i w); simpl; [done|]. by apply H.
Qed.

Lemma nonzero_bit w x : 0 ≤ x < 2 ^ w → x ≠ 0 → ∃ i, 0 ≤ i < w ∧ Z.testbit x i = true.
Proof.
  intros Hx Hne. exists (Z.log2 x).
  assert (Hb : Z.testbit x (Z.log2 x) = true) by (apply Z.bit_log2; lia).
  split; [|done]. by eapply testbit_true_range.
Qed.

Lemma zero_of_bits x : (∀ i, 0 ≤ i → Z.testbit x i = false) → x = 0.
Proof. intros H. apply Z.bits_inj'. intros i Hi. rewrite Z.bits_0. by apply H. Qed.

Lemma test_mask c k : 0 ≤ k → (c .& 2 ^ k =? 0) = negb (Z.testbit c k).
Proof.
  intros Hk. destruct (Z.testbit c k) eqn:E; cbn.
  - apply Z.eqb_neq. intros H. apply (f_equal (λ x, Z.testbit x k)) in H.
    by rewrite Z.land_spec, E, Z.pow2_bits_true, Z.bits_0 in H.
  - apply Z.eqb_eq, zero_of_bits. intros i Hi. rewrite Z.land_spec, Z.pow2_bits_eqb by done.
    destruct (Z.eqb_spec k i) as [<-|]; [by rewrite E|apply andb_false_r].
Qed.

Lemma testbit_1 i : Z.testbit 1 i = (i =? 0).
Proof.
  destruct (Z.eqb_spec i 0) as [->|Hne]; [done|].
  destruct (decide (0 ≤ i)).
  - apply (testbit_high 1); lia.
  - by rewrite Z.testbit_neg_r by lia.
Qed.

#[export] Hint Rewrite testbit_u64 testbit_u32 testbit_lnot testbit_shiftl testbit_shiftr
  Z.land_spec Z.lor_spec Z.lxor_spec Z.bits_0 testbit_1 : bits.
#[export] Hint Rewrite testbit_ones testbit_wrap using lia : bits.

Ltac bool_compare :=
  repeat match goal with
  | |- context [?x <? ?y] => destruct (Z.ltb_spec x y); try lia
  | |- context [?x <=? ?y] => destruct (Z.leb_spec x y); try lia
  | |- context [?x =? ?y] => destruct (Z.eqb_spec x y); try lia
  end.

(** [bitwise] proves an equation of integers bit by bit. *)
Ltac bitwise_core :=
  autorewrite with bits; bool_compare; simpl;
  rewrite ?andb_true_r, ?andb_false_r, ?orb_false_r, ?orb_true_r;
  try done; try btauto.
Ltac bitwise := apply Z.bits_inj'; intros ?i ?Hi; bitwise_core.

(** ** Partial programs with state

    [prog S A] is a C routine that works on a state of type [S], returns an
    [A], and may go wrong ([None]: an access outside an object, a [BUG_ON], an
    undefined shift or builtin).  Error codes are ordinary results. *)

Definition prog (S A : Type) : Type := S → option (A * S).

#[export] Instance prog_ret S : MRet (prog S) := λ A a s, Some (a, s).
#[export] Instance prog_bind S : MBind (prog S) :=
  λ A B f m s, match m s with Some (a, s') => f a s' | None => None end.

Definition wrong {S A} : prog S A := λ _, None.
Definition gets {S A} (f : S → A) : prog S A := λ s, Some (f s, s).
Definition modify {S} (f : S → S) : prog S unit := λ s, Some (tt, f s).
Definition lift {S A} (o : option A) : prog S A := λ s, a ← o; Some (a, s).

(** [wp m Q s]: run from [s], [m] does not go wrong and its result and final
    state satisfy [Q]. *)
Definition wp {S A} (m : prog S A) (Q : A → S → Prop) (s : S) : Prop :=
  match m s with Some (a, s') => Q a s' | None => False end.

Section wp.
Context {S : Type}.

Lemma wp_ret {A} (a : A) (Q : A → S → Prop) s : Q a s → wp (mret a) Q s.
Proof. done. Qed.

Lemma wp_bind {A B} (m : prog S A) (f : A → prog S B) Q s :
  wp m (λ a s', wp (f a) Q s') s → wp (m ≫= f) Q s.
Proof. unfold wp, mbind, prog_bind. by destruct (m s) as [[a s']|]. Qed.

Lemma wp_gets {A} (f : S → A) Q s : Q (f s) s → wp (gets f) Q s.
Proof. done. Qed.

Lemma wp_modify (f : S → S) (Q : unit → S → Prop) s : Q tt (f s) → wp (modify f) Q s.
Proof. done. Qed.

Lemma wp_lift {A} (o : option A) a (Q : A → S → Prop) s :
  o = Some a → Q a s → wp (lift o) Q s.
Proof. intros ->. done. Qed.

Lemma wp_mono {A} (m : prog S A) (Q R : A → S → Prop) s :
  wp m Q s → (∀ a s', Q a s' → R a s') → wp m R s.
Proof. unfold wp. destruct (m s) as [[a s']|]; eauto. Qed.

Lemma wp_elim {A} (m : prog S A) (Q : A → S → Prop) s :
  wp m Q s ↔ ∃ a s', m s = Some (a, s') ∧ Q a s'.
Proof.
  unfold wp. destruct (m s) as [[a s']|]; naive_solver.
Qed.
End wp.

(** [for_up n k body]: [for (i = k; i < k + n; i++) body(i)];
    [for_down n k body]: [for (i = k; i > k - n; i--) body(i)]. *)
Fixpoint for_up {S} (n : nat) (k : Z) (body : Z → prog S unit) : prog S unit :=
  match n with
  | O => mret tt
  | Datatypes.S n' => _ ← body k; for_up n' (k + 1) body
  end.

Fixpoint for_down {S} (n : nat) (k : Z) (body : Z → prog S unit) : prog S unit :=
  match n with
  | O => mret tt
  | Datatypes.S n' => _ ← body k; for_down n' (k - 1) body
  end.

Lemma wp_for_up {S} (I : Z → S → Prop) (Q : unit → S → Prop) n k (body : Z → prog S unit) s :
  I k s →
  (∀ i s', k ≤ i < k + Z.of_nat n → I i s' → wp (body i) (λ _, I (i + 1)) s') →
  (∀ s', I (k + Z.of_nat n) s' → Q tt s') →
  wp (for_up n k body) Q s.
Proof.
  revert k s. induction n as [|n IH]; intros k s HI Hbody HQ; cbn [for_up].
  - apply wp_ret, HQ. by rewrite Z.add_0_r.
  - apply wp_bind. eapply wp_mono; [apply Hbody; [lia|done]|].
    intros [] s' HI'. apply IH; [done| |].
    + intros i s'' Hi. apply Hbody. lia.
    + intros s'' HI''. apply HQ.
      by replace (k + Z.of_nat (Datatypes.S n)) with (k + 1 + Z.of_nat n) by lia.
Qed.

Lemma wp_for_down {S} (I : Z → S → Prop) (Q : unit → S → Prop) n k (body : Z → prog S unit) s :
  I k s →
  (∀ i s', k - Z.of_nat n < i ≤ k → I i s' → wp (body i) (λ _, I (i - 1)) s') →
  (∀ s', I (k - Z.of_nat n) s' → Q tt s') →
  wp (for_down n k body) Q s.
Proof.
  revert k s. induction n as [|n IH]; intros k s HI Hbody HQ; cbn [for_down].
  - apply wp_ret, HQ. by rewrite Z.sub_0_r.
  - apply wp_bind. eapply wp_mono; [apply Hbody; [lia|done]|].
    intros [] s' HI'. apply IH; [done| |].
    + intros i s'' Hi. apply Hbody. lia.
    + intros s'' HI''. apply HQ.
      by replace (k - Z.of_nat (Datatypes.S n)) with (k - 1 - Z.of_nat n) by lia.
Qed.

(** The same with an accumulator: [body i acc] returns the new accumulator. *)
Fixpoint for_fold {S A} (n : nat) (k : Z) (acc : A) (body : Z → A → prog S A) : prog S A :=
  match n with
  | O => mret acc
  | Datatypes.S n' => acc' ← body k acc; for_fold n' (k + 1) acc' body
  end.

Lemma wp_for_fold {S A} (I : Z → A → S → Prop) (Q : A → S → Prop) n k acc
    (body : Z → A → prog S A) s :
  I k acc s →
  (∀ i a s', k ≤ i < k + Z.of_nat n → I i a s' → wp (body i a) (I (i + 1)) s') →
  (∀ a s', I (k + Z.of_nat n) a s' → Q a s') →
  wp (for_fold n k acc body) Q s.
Proof.
  revert k acc s. induction n as [|n IH]; intros k acc s HI Hbody HQ; cbn [for_fold].
  - apply wp_ret, HQ. by rewrite Z.add_0_r.
  - apply wp_bind. eapply wp_mono; [apply Hbody; [lia|done]|].
    intros a s' HI'. apply IH; [done| |].
    + intros i a' s'' Hi. apply Hbody. lia.
    + intros a' s'' HI''. apply HQ.
      by replace (k + Z.of_nat (Datatypes.S n)) with (k + 1 + Z.of_nat n) by lia.
Qed.

(** ** Arrays indexed by [Z]

    Reads and writes outside the array go wrong. *)

Definition rd {A} (l : list A) (i : Z) : option A :=
  if 0 <=? i then l !! Z.to_nat i else None.
Definition wr {A} (l : list A) (i : Z) (x : A) : option (list A) :=
  if (0 <=? i) && (i <? Z.of_nat (length l)) then Some (<[Z.to_nat i := x]> l) else None.

Notation zlen l := (Z.of_nat (length l)).

Section arrays.
Context {A : Type}.
Implicit Types (l : list A) (x : A).

Lemma rd_in l i : 0 ≤ i < zlen l → ∃ x, rd l i = Some x.
Proof.
  intros Hi. unfold rd. destruct (Z.leb_spec 0 i); [|lia].
  apply lookup_lt_is_Some. lia.
Qed.

Lemma rd_Some l i x : rd l i = Some x → 0 ≤ i < zlen l.
Proof.
  unfold rd. destruct (Z.leb_spec 0 i); [|done].
  intros Hl%lookup_lt_Some. lia.
Qed.

Lemma rd_None l i : rd l i = None ↔ ¬ 0 ≤ i < zlen l.
Proof.
  split.
  - intros Hn Hi. destruct (rd_in l i Hi). congruence.
  - intros Hi. destruct (rd l i) eqn:E; [|done]. by apply rd_Some in E.
Qed.

Lemma rd_nat l (i : nat) : rd l (Z.of_nat i) = l !! i.
Proof. unfold rd. destruct (Z.leb_spec 0 (Z.of_nat i)); [|lia]. by rewrite Nat2Z.id. Qed.

Lemma wr_Some l i x : 0 ≤ i < zlen l → wr l i x = Some (<[Z.to_nat i := x]> l).
Proof.
  intros. unfold wr. destruct (Z.leb_spec 0 i), (Z.ltb_spec i (zlen l)); try lia. done.
Qed.

Lemma wr_inv l i x l' : wr l i x = Some l' → 0 ≤ i < zlen l ∧ l' = <[Z.to_nat i := x]> l.
Proof.
  unfold wr. destruct (Z.leb_spec 0 i), (Z.ltb_spec i (zlen l)); simpl; naive_solver.
Qed.

Lemma rd_insert l i j x :
  0 ≤ i < zlen l → rd (<[Z.to_nat i := x]> l) j = if j =? i then Some x else rd l j.
Proof.
  intros Hi. unfold rd. destruct (Z.eqb_spec j i) as [->|Hne].
  - destruct (Z.leb_spec 0 i); [|lia]. apply list_lookup_insert_eq. lia.
  - destruct (Z.leb_spec 0 j); [|done]. apply list_lookup_insert_ne. lia.
Qed.

Lemma rd_app_l l1 l2 i : i < zlen l1 → rd (l1 ++ l2) i = rd l1 i.
Proof.
  intros. unfold rd. destruct (Z.leb_spec 0 i); [|done]. apply lookup_app_l. lia.
Qed.

Lemma rd_app_r l1 l2 i : zlen l1 ≤ i → rd (l1 ++ l2) i = rd l2 (i - zlen l1).
Proof.
  intros. unfold rd. destruct (Z.leb_spec 0 i), (Z.leb_spec 0 (i - zlen l1)); try lia.
  rewrite lookup_app_r by lia. f_equal. lia.
Qed.

Lemma rd_mid l1 x l2 : rd (l1 ++ x :: l2) (zlen l1) = Some x.
Proof. rewrite rd_nat. by apply list_lookup_middle. Qed.

Lemma wr_mid l1 x y l2 : wr (l1 ++ x :: l2) (zlen l1) y = Some (l1 ++ y :: l2).
Proof.
  rewrite wr_Some by (rewrite length_app; simpl; lia). rewrite Nat2Z.id. f_equal.
  rewrite insert_app_r_alt, Nat.sub_diag by lia. done.
Qed.

Lemma rd_ext l1 l2 :
  length l1 = length l2 → (∀ i, 0 ≤ i < zlen l1 → rd l1 i = rd l2 i) → l1 = l2.
Proof.
  intros Hlen H. apply list_eq. intros i.
  destruct (decide (i < length l1)%nat).
  - rewrite <- !rd_nat. apply H. lia.
  - rewrite !lookup_ge_None_2 by lia. done.
Qed.

Lemma rd_elem l i x : rd l i = Some x → x ∈ l.
Proof.
  unfold rd. destruct (0 <=? i); [|done]. intros. apply list_elem_of_lookup. eauto.
Qed.

Lemma rd_Forall (P : A → Prop) l i x : Forall P l → rd l i = Some x → P x.
Proof. intros HP H%rd_elem. rewrite Forall_forall in HP. auto. Qed.
End arrays.

(** ** Memory: disjoint arrays of words

    Routines that take several pointers, which may be equal, work on a heap of
    arrays; a pointer is the name of an array. *)

Notation heap := (gmap nat (list Z)).

Definition block (b : nat) : prog heap (list Z) := λ h, w ← h !! b; Some (w, h).
Definition set_block (b : nat) (w : list Z) : prog heap unit := λ h, Some (tt, <[b := w]> h).
Definition load (b : nat) (i : Z) : prog heap Z := λ h, w ← h !! b; x ← rd w i; Some (x, h).
Definition store (b : nat) (i : Z) (x : Z) : prog heap unit :=
  λ h, w ← h !! b; w' ← wr w i x; Some (tt, <[b := w']> h).

Lemma wp_load b i w x (Q : Z → heap → Prop) h :
  h !! b = Some w → rd w i = Some x → Q x h → wp (load b i) Q h.
Proof. unfold wp, load. intros -> Hx. simpl. by rewrite Hx. Qed.

Lemma wp_store b i x w (Q : unit → heap → Prop) h :
  h !! b = Some w → 0 ≤ i < zlen w → Q tt (<[b := <[Z.to_nat i := x]> w]> h) →
  wp (store b i x) Q h.
Proof. unfold wp, store. intros -> Hi. simpl. by rewrite wr_Some by done. Qed.

Lemma wp_block b w (Q : list Z → heap → Prop) h :
  h !! b = Some w → Q w h → wp (block b) Q h.
Proof. unfold wp, block. by intros ->. Qed.

Lemma wp_set_block b w (Q : unit → heap → Prop) h :
  Q tt (<[b := w]> h) → wp (set_block b w) Q h.
Proof. done. Qed.

(** ** Counting

    [count P lo n] is the number of [i] in [lo, lo+n) with [P i = true]. *)
Fixpoint count (P : Z → bool) (lo : Z) (n : nat) : Z :=
  match n with
  | O => 0
  | Datatypes.S n' => Z.b2z (P lo) + count P (lo + 1) n'
  end.

Lemma count_ext P Q lo n :
  (∀ i, lo ≤ i < lo + Z.of_nat n → P i = Q i) → count P lo n = count Q lo n.
Proof.
  revert lo. induction n as [|n IH]; intros lo H; simpl; [done|].
  rewrite H by lia. f_equal. apply IH. intros. apply H. lia.
Qed.

Lemma count_app P lo n m : count P lo (n + m) = count P lo n + count P (lo + Z.of_nat n) m.
Proof.
  revert lo. induction n as [|n IH]; intros lo; simpl.
  - by rewrite Z.add_0_r.
  - rewrite IH. replace (lo + 1 + Z.of_nat n) with (lo + Z.of_nat (S n)) by lia. lia.
Qed.

Lemma count_shift P d lo n : count (λ i, P (i + d)) lo n = count P (lo + d) n.
Proof.
  revert lo. induction n as [|n IH]; intros lo; simpl; [done|].
  rewrite IH. do 2 f_equal. lia.
Qed.

Lemma count_bounds P lo n : 0 ≤ count P lo n ≤ Z.of_nat n.
Proof.
  revert lo. induction n as [|n IH]; intros lo; simpl; [lia|].
  specialize (IH (lo + 1)). destruct (P lo); simpl; lia.
Qed.

Lemma count_zero P lo n :
  count P lo n = 0 ↔ ∀ i, lo ≤ i < lo + Z.of_nat n → P i = false.
Proof.
  revert lo. induction n as [|n IH]; intros lo; simpl; [split; [intros; lia|done]|].
  pose proof (count_bounds P (lo + 1) n). split.
  - intros H0 i Hi. destruct (P lo) eqn:E; simpl in H0; [lia|].
    destruct (decide (i = lo)) as [->|]; [done|]. apply (IH (lo + 1)); lia.
  - intros H0. rewrite H0 by lia. simpl. apply IH. intros. apply H0. lia.
Qed.

(** [is_next P size off r]: [r] is the least index of [off, size) satisfying
    [P], or [size] when there is none. *)
Definition is_next (P : Z → bool) (size off r : Z) : Prop :=
  (off ≤ r < size ∧ P r = true ∧ ∀ i, off ≤ i < r → P i = false)
  ∨ (r = size ∧ ∀ i, off ≤ i < size → P i = false).

Lemma is_next_unique P size off r1 r2 : is_next P size off r1 → is_next P size off r2 → r1 = r2.
Proof.
  intros [(H1 & T1 & F1)|[-> F1]] [(H2 & T2 & F2)|[-> F2]].
  - destruct (Z.lt_trichotomy r1 r2) as [Hlt|[->|Hlt]]; [|done|].
    + rewrite F2 in T1; [done|lia].
    + rewrite F1 in T2; [done|lia].
  - rewrite F2 in T1; [done|lia].
  - rewrite F1 in T2; [done|lia].
  - done.
Qed.

Lemma is_next_ext P Q size off r :
  (∀ i, off ≤ i < size → P i = Q i) → is_next P size off r → is_next Q size off r.
Proof.
  intros HPQ [(H1 & T1 & F1)|[-> F1]]; [left|right].
  - split; [lia|]. split; [rewrite <- HPQ; [done|lia]|].
    intros i Hi. rewrite <- HPQ; [by apply F1|lia].
  - split; [done|]. intros i Hi. rewrite <- HPQ; [by apply F1|lia].
Qed.
