(* ===== verification/Bitops.v ===== *)
(** * Bitops: word-level bit operations

    [include/linux/bitops.h], [include/asm-generic/bitops/*.h] and
    [lib/hweight.c] for the arm64 configuration of the tree
    (64-bit little-endian [unsigned long], no [ARCH_HAS_FAST_MULTIPLIER]).
    The theorems relate every routine to [Z.testbit]; the population counts of
    [lib/hweight.c] are proved equal to the number of set bits. *)

From S2P Require Import Prelude.

Definition BITS_PER_LONG : Z := 64.
Definition BITS_TO_LONGS (nr : Z) : Z := (nr + BITS_PER_LONG - 1) / BITS_PER_LONG.
Definition BIT_MASK (nr : Z) : Z := 1 <<64 (nr `mod` BITS_PER_LONG).
Definition BIT_WORD (nr : Z) : Z := nr / BITS_PER_LONG.

(** [__builtin_ctzl] is undefined on 0. *)
Fixpoint pos_ctz (p : positive) : Z :=
  match p with
  | xO p' => 1 + pos_ctz p'
  | _ => 0
  end.
Definition __ffs (word : Z) : option Z :=
  match word with
  | Zpos p => Some (pos_ctz p)
  | _ => None
  end.
Definition ffz (x : Z) : option Z := __ffs (~64 x).
Definition __fls (word : Z) : option Z :=
  if word =? 0 then None else Some (Z.log2 word).
(** [fls(int x)], applied to the 32-bit pattern of [x]. *)
Definition fls (x : Z) : Z := if x =? 0 then 0 else Z.log2 x + 1.

(** ** Single-bit operations on a bitmap (an array of [unsigned long]) *)

Definition test_bit (nr : Z) (addr : list Z) : option bool :=
  w ← rd addr (BIT_WORD nr);
  Some (negb (Z.land 1 (w >>u (Z.land nr (BITS_PER_LONG - 1))) =? 0)).

Definition set_bit (nr : Z) (p : list Z) : option (list Z) :=
  w ← rd p (BIT_WORD nr); wr p (BIT_WORD nr) (w .| BIT_MASK nr).

Definition clear_bit (nr : Z) (p : list Z) : option (list Z) :=
  w ← rd p (BIT_WORD nr); wr p (BIT_WORD nr) (w .& ~64 (BIT_MASK nr)).

Definition __change_bit (nr : Z) (p : list Z) : option (list Z) :=
  w ← rd p (BIT_WORD nr); wr p (BIT_WORD nr) (w .^ BIT_MASK nr).

Definition __test_and_set_bit (nr : Z) (p : list Z) : option (bool * list Z) :=
  old ← rd p (BIT_WORD nr);
  p' ← wr p (BIT_WORD nr) (old .| BIT_MASK nr);
  Some (negb (old .& BIT_MASK nr =? 0), p').

Definition __test_and_clear_bit (nr : Z) (p : list Z) : option (bool * list Z) :=
  old ← rd p (BIT_WORD nr);
  p' ← wr p (BIT_WORD nr) (old .& ~64 (BIT_MASK nr));
  Some (negb (old .& BIT_MASK nr =? 0), p').

Definition __test_and_change_bit (nr : Z) (p : list Z) : option (bool * list Z) :=
  old ← rd p (BIT_WORD nr);
  p' ← wr p (BIT_WORD nr) (old .^ BIT_MASK nr);
  Some (negb (old .& BIT_MASK nr =? 0), p').

(** ** Population counts ([lib/hweight.c]) *)

Definition __sw_hweight32 (w : Z) : Z :=
  let res := u32 (w - ((w >>u 1) .& 0x55555555)) in
  let res := u32 ((res .& 0x33333333) + ((res >>u 2) .& 0x33333333)) in
  let res := u32 (res + (res >>u 4)) .& 0x0F0F0F0F in
  let res := u32 (res + (res >>u 8)) in
  u32 (res + (res >>u 16)) .& 0x000000FF.

Definition __sw_hweight16 (w : Z) : Z :=
  let res := u32 (w - ((w >>u 1) .& 0x5555)) in
  let res := u32 ((res .& 0x3333) + ((res >>u 2) .& 0x3333)) in
  let res := u32 (res + (res >>u 4)) .& 0x0F0F in
  u32 (res + (res >>u 8)) .& 0x00FF.

Definition __sw_hweight8 (w : Z) : Z :=
  let res := u32 (w - ((w >>u 1) .& 0x55)) in
  let res := u32 ((res .& 0x33) + ((res >>u 2) .& 0x33)) in
  u32 (res + (res >>u 4)) .& 0x0F.

Definition __sw_hweight64 (w : Z) : Z :=
  let res := u64 (w - ((w >>u 1) .& 0x5555555555555555)) in
  let res := u64 ((res .& 0x3333333333333333) + ((res >>u 2) .& 0x3333333333333333)) in
  let res := u64 (res + (res >>u 4)) .& 0x0F0F0F0F0F0F0F0F in
  let res := u64 (res + (res >>u 8)) in
  let res := u64 (res + (res >>u 16)) in
  u64 (res + (res >>u 32)) .& 0x00000000000000FF.

Definition hweight_long (w : Z) : Z := __sw_hweight64 w.

(** ** The bits of a bitmap *)

Notation wf_words p := (Forall (λ w : Z, is_u64 w) p).

(** Bit [i] of the bitmap [p]; bits outside the array read as 0. *)
Definition bm_bit (p : list Z) (i : Z) : bool :=
  match rd p (i / 64) with
  | Some w => Z.testbit w (i `mod` 64)
  | None => false
  end.

Lemma bm_bit_rd p i w : rd p (i / 64) = Some w → bm_bit p i = Z.testbit w (i `mod` 64).
Proof. unfold bm_bit. by intros ->. Qed.

(** The bit at offset [j] of word [k]. *)
Lemma bm_bit_word p k j w :
  rd p k = Some w → 0 ≤ j < 64 → bm_bit p (64 * k + j) = Z.testbit w j.
Proof.
  intros Hk Hj. unfold bm_bit.
  replace ((64 * k + j) / 64) with k by (apply Z.div_unique with j; lia).
  replace ((64 * k + j) `mod` 64) with j by (apply Z.mod_unique with k; lia).
  by rewrite Hk.
Qed.

Lemma words_range p i w : wf_words p → rd p i = Some w → is_u64 w.
Proof. intros Hp. by apply (rd_Forall (λ w : Z, is_u64 w)). Qed.

(** A bitmap is determined by its bits. *)
Lemma bm_bit_ext p q :
  wf_words p → wf_words q → length p = length q →
  (∀ i, 0 ≤ i < 64 * zlen p → bm_bit p i = bm_bit q i) → p = q.
Proof.
  intros Hp Hq Hlen H. apply rd_ext; [done|]. intros k Hk.
  destruct (rd_in p k Hk) as [w Hw], (rd_in q k) as [w' Hw']; [lia|].
  rewrite Hw, Hw'. f_equal. apply Z.bits_inj'. intros j Hj.
  pose proof (words_range _ _ _ Hp Hw). pose proof (words_range _ _ _ Hq Hw').
  destruct (decide (j < 64)).
  - rewrite <- (bm_bit_word p k j w), <- (bm_bit_word q k j w') by (done || lia).
    apply H. lia.
  - by rewrite !(testbit_high 64) by lia.
Qed.

Lemma bm_bit_insert p k w i :
  0 ≤ k < zlen p →
  bm_bit (<[Z.to_nat k := w]> p) i =
    if i / 64 =? k then Z.testbit w (i `mod` 64) else bm_bit p i.
Proof.
  intros Hk. unfold bm_bit. rewrite rd_insert by lia. by destruct (i / 64 =? k).
Qed.

Lemma wf_insert p k w : wf_words p → is_u64 w → wf_words (<[k := w]> p).
Proof. intros. by apply Forall_insert. Qed.
#[export] Hint Resolve wf_insert : bits.

Lemma land_range w x y : 0 ≤ w → 0 ≤ x < 2 ^ w → 0 ≤ Z.land x y < 2 ^ w.
Proof.
  intros. apply bits_bound; [lia|]. intros i Hi.
  by rewrite Z.land_spec, (testbit_high w) by lia.
Qed.
Lemma lor_range w x y : 0 ≤ w → 0 ≤ x < 2 ^ w → 0 ≤ y < 2 ^ w → 0 ≤ Z.lor x y < 2 ^ w.
Proof.
  intros. apply bits_bound; [lia|]. intros i Hi.
  by rewrite Z.lor_spec, !(testbit_high w) by lia.
Qed.
Lemma lxor_range w x y : 0 ≤ w → 0 ≤ x < 2 ^ w → 0 ≤ y < 2 ^ w → 0 ≤ Z.lxor x y < 2 ^ w.
Proof.
  intros. apply bits_bound; [lia|]. intros i Hi.
  by rewrite Z.lxor_spec, !(testbit_high w) by lia.
Qed.
Lemma shiftr_range w x n : 0 ≤ w → 0 ≤ n → 0 ≤ x < 2 ^ w → 0 ≤ Z.shiftr x n < 2 ^ w.
Proof.
  intros. apply bits_bound; [lia|]. intros i Hi.
  by rewrite Z.shiftr_spec, (testbit_high w) by lia.
Qed.
#[export] Hint Resolve land_range lor_range lxor_range shiftr_range u64_range u32_range : bits.
#[export] Hint Extern 1 (0 ≤ _) => lia : bits.

(** ** Properties of the word operations *)

Lemma pos_ctz_spec p :
  0 ≤ pos_ctz p ∧ Z.testbit (Zpos p) (pos_ctz p) = true ∧
  ∀ i, 0 ≤ i < pos_ctz p → Z.testbit (Zpos p) i = false.
Proof.
  induction p as [p IH|p IH|]; cbn [pos_ctz]; [split; [lia|split; [done|lia]]| |split; [lia|split; [done|lia]]].
  destruct IH as (H0 & Ht & Hf). rewrite (Pos2Z.inj_xO p).
  split; [lia|]. split.
  - replace (1 + pos_ctz p) with (Z.succ (pos_ctz p)) by lia.
    by rewrite Z.testbit_even_succ by lia.
  - intros i Hi. destruct (decide (i = 0)) as [->|]; [by rewrite Z.testbit_even_0|].
    replace i with (Z.succ (i - 1)) by lia. rewrite Z.testbit_even_succ by lia.
    apply Hf. lia.
Qed.

(** [__ffs] finds the least set bit of a nonzero word. *)
Lemma __ffs_spec w :
  0 < w → ∃ r, __ffs w = Some r ∧ 0 ≤ r ∧ Z.testbit w r = true ∧
               ∀ i, 0 ≤ i < r → Z.testbit w i = false.
Proof.
  intros Hw. destruct w as [|p|p]; [lia| |lia]. exists (pos_ctz p).
  split; [done|]. apply pos_ctz_spec.
Qed.

Lemma __fls_spec w :
  0 < w → ∃ r, __fls w = Some r ∧ 0 ≤ r ∧ Z.testbit w r = true ∧
               ∀ i, r < i → Z.testbit w i = false.
Proof.
  intros Hw. unfold __fls. destruct (Z.eqb_spec w 0); [lia|].
  exists (Z.log2 w). split; [done|]. split; [apply Z.log2_nonneg|].
  split; [by apply Z.bit_log2|]. intros i Hi. apply Z.bits_above_log2; lia.
Qed.

Lemma land_63 nr : 0 ≤ nr → Z.land nr 63 = nr `mod` 64.
Proof. intros. change 63 with (Z.ones 6). by rewrite Z.land_ones. Qed.

Lemma testbit_BIT_MASK nr i : 0 ≤ nr → Z.testbit (BIT_MASK nr) i = (i =? nr `mod` 64).
Proof.
  intros. unfold BIT_MASK, BITS_PER_LONG.
  assert (0 ≤ nr `mod` 64 < 64) by (apply Z.mod_pos_bound; lia).
  autorewrite with bits. bool_compare; done.
Qed.

Lemma test_bit_spec nr p :
  0 ≤ nr < 64 * zlen p → test_bit nr p = Some (bm_bit p nr).
Proof.
  intros Hnr. unfold test_bit, BIT_WORD, BITS_PER_LONG.
  destruct (rd_in p (nr / 64)) as [w Hw]; [dlia|].
  rewrite Hw. simpl. f_equal. rewrite (bm_bit_rd _ _ _ Hw), land_63 by lia.
  assert (0 ≤ nr `mod` 64 < 64) by (apply Z.mod_pos_bound; lia).
  rewrite Z.land_comm. change 1 with (Z.ones 1) at 1.
  rewrite Z.land_ones, Z.shiftr_div_pow2 by lia.
  change (2 ^ 1) with 2. rewrite <- Z.testbit_spec' by lia.
  by destruct (Z.testbit w _).
Qed.

(** [set_bit], [clear_bit] and [__change_bit] never leave the array and change
    exactly bit [nr]. *)
Lemma rmw_word_spec p nr (op : Z → Z) (f : bool → bool) :
  wf_words p → 0 ≤ nr < 64 * zlen p →
  (∀ w, is_u64 w → is_u64 (op w)) →
  (∀ w j, is_u64 w → 0 ≤ j < 64 →
     Z.testbit (op w) j = if j =? nr `mod` 64 then f (Z.testbit w j) else Z.testbit w j) →
  ∃ w, rd p (BIT_WORD nr) = Some w ∧
  ∃ p', wr p (BIT_WORD nr) (op w) = Some p' ∧ wf_words p' ∧ length p' = length p ∧
    ∀ i, 0 ≤ i → bm_bit p' i = if i =? nr then f (bm_bit p i) else bm_bit p i.
Proof.
  intros Hp Hnr Hr Hop. unfold BIT_WORD, BITS_PER_LONG.
  assert (0 ≤ nr / 64 < zlen p) by dlia.
  destruct (rd_in p (nr / 64)) as [w Hw]; [done|].
  exists w. split; [done|]. eexists. split; [by apply wr_Some|].
  pose proof (words_range _ _ _ Hp Hw).
  split; [apply wf_insert; auto|]. split; [apply length_insert|].
  intros i Hi. rewrite bm_bit_insert by done.
  destruct (Z.eqb_spec (i / 64) (nr / 64)) as [E|E].
  - rewrite Hop by (done || dlia).
    rewrite <- (bm_bit_rd p i w) by (by rewrite E).
    destruct (Z.eqb_spec (i `mod` 64) (nr `mod` 64)), (Z.eqb_spec i nr); dlia || done.
  - destruct (Z.eqb_spec i nr); [congruence|done].
Qed.

Lemma BIT_MASK_range nr : is_u64 (BIT_MASK nr).
Proof. apply u64_range. Qed.
#[export] Hint Resolve BIT_MASK_range : bits.

Lemma set_bit_spec p nr :
  wf_words p → 0 ≤ nr < 64 * zlen p →
  ∃ p', set_bit nr p = Some p' ∧ wf_words p' ∧ length p' = length p ∧
    ∀ i, 0 ≤ i → bm_bit p' i = (i =? nr) || bm_bit p i.
Proof.
  intros Hp Hnr.
  destruct (rmw_word_spec p nr (λ w, w .| BIT_MASK nr) (λ _, true)) as (w & Hw & p' & Hp' & ? & ? & Hb);
    [done|done|auto with bits| |].
  - intros w j ??. rewrite Z.lor_spec, testbit_BIT_MASK by lia.
    destruct (j =? _); by rewrite ?orb_true_r, ?orb_false_r.
  - exists p'. unfold set_bit. rewrite Hw. split; [done|]. split; [done|]. split; [done|].
    intros i Hi. rewrite Hb by done. by destruct (i =? nr).
Qed.

Lemma clear_bit_spec p nr :
  wf_words p → 0 ≤ nr < 64 * zlen p →
  ∃ p', clear_bit nr p = Some p' ∧ wf_words p' ∧ length p' = length p ∧
    ∀ i, 0 ≤ i → bm_bit p' i = negb (i =? nr) && bm_bit p i.
Proof.
  intros Hp Hnr.
  destruct (rmw_word_spec p nr (λ w, w .& ~64 (BIT_MASK nr)) (λ _, false)) as (w & Hw & p' & Hp' & ? & ? & Hb);
    [done|done|auto with bits| |].
  - intros w j ??. rewrite Z.land_spec, testbit_u64, testbit_lnot, testbit_BIT_MASK by lia.
    bool_compare; simpl; by rewrite ?andb_true_r, ?andb_false_r.
  - exists p'. unfold clear_bit. rewrite Hw. split; [done|]. split; [done|]. split; [done|].
    intros i Hi. rewrite Hb by done. by destruct (i =? nr).
Qed.

(** ** The population count

    The routines of [lib/hweight.c] work on all bytes of a word in parallel.
    [swar n] is the common part for an [n]-byte word; it is computed digit by
    digit in base 256, where each digit is the weight of a byte. *)

Fixpoint rep (b : Z) (n : nat) : Z :=
  match n with
  | O => 0
  | S n' => b + 256 * rep b n'
  end.

Definition swar1 (n : nat) (w : Z) : Z := w - ((w >>u 1) .& rep 0x55 n).
Definition swar2 (n : nat) (r : Z) : Z := (r .& rep 0x33 n) + ((r >>u 2) .& rep 0x33 n).
Definition swar3 (n : nat) (r : Z) : Z := (r + (r >>u 4)) .& rep 0x0F n.
Definition swar (n : nat) (w : Z) : Z := swar3 n (swar2 n (swar1 n w)).

Lemma testbit_digit d y i :
  0 ≤ d < 256 → 0 ≤ i →
  Z.testbit (d + 256 * y) i = if i <? 8 then Z.testbit d i else Z.testbit y (i - 8).
Proof.
  intros Hd Hi. destruct (Z.ltb_spec i 8).
  - rewrite <- (Z.mod_pow2_bits_low (d + 256 * y) 8 i) by lia.
    f_equal. change (2 ^ 8) with 256. dlia.
  - replace i with ((i - 8) + 8) at 1 by lia.
    rewrite <- Z.div_pow2_bits by lia. f_equal. change (2 ^ 8) with 256. dlia.
Qed.

Lemma land_shift_digit k d m y M :
  0 ≤ k ≤ 8 → 0 ≤ d < 256 → 0 ≤ m < 2 ^ (8 - k) →
  ((d + 256 * y) >>u k) .& (m + 256 * M) = ((d >>u k) .& m) + 256 * ((y >>u k) .& M).
Proof.
  intros Hk Hd Hm. assert (2 ^ (8 - k) ≤ 2 ^ 8) by (apply Z.pow_le_mono_r; lia).
  apply Z.bits_inj'. intros i Hi.
  assert (0 ≤ Z.land (d >>u k) m < 256) by (apply (land_range 8); [lia|apply shiftr_range; lia]).
  rewrite testbit_digit, !Z.land_spec, !Z.shiftr_spec, !testbit_digit by lia.
  bool_compare; try done;
    first [ by rewrite (testbit_high (8 - k) m), !andb_false_r by lia | rewrite Z.shiftr_spec by lia; do 2 f_equal; lia ].
Qed.

Lemma land_digit d m y M :
  0 ≤ d < 256 → 0 ≤ m < 256 →
  (d + 256 * y) .& (m + 256 * M) = (d .& m) + 256 * (y .& M).
Proof. intros. apply (land_shift_digit 0); simpl; lia. Qed.

(** Facts about one byte, checked on all 256 values. *)
Definition byte_ok (d : Z) : bool :=
  let a := swar1 1 d in
  let b := swar2 1 a in
  (0 <=? a) && (a <? 256) && (0 <=? b) && (b <=? 0x44) && (b `mod` 16 <=? 4)
  && (((b + b / 16) `mod` 16) =? count (Z.testbit d) 0 8).

Lemma byte_ok_all d : 0 ≤ d < 256 → byte_ok d = true.
Proof.
  intros Hd. assert (Hall : forallb byte_ok (seqZ 0 256) = true) by (vm_compute; reflexivity).
  rewrite forallb_forall in Hall. apply Hall, list_elem_of_In, elem_of_seqZ. lia.
Qed.

Ltac byte_facts d :=
  let H := fresh in
  assert (H : byte_ok d = true) by (apply byte_ok_all; lia);
  unfold byte_ok in H; rewrite !andb_true_iff, !Z.leb_le, Z.ltb_lt, Z.eqb_eq in H;
  destruct H as [[[[[? ?] ?] ?] ?] ?].

Lemma swar1_digit n d y :
  0 ≤ d < 256 → swar1 (S n) (d + 256 * y) = swar1 1 d + 256 * swar1 n y.
Proof.
  intros Hd. unfold swar1. cbn [rep]. rewrite land_shift_digit by (simpl; lia).
  rewrite Z.mul_0_r, Z.add_0_r. lia.
Qed.

Lemma swar2_digit n d y :
  0 ≤ d < 256 → swar2 (S n) (d + 256 * y) = swar2 1 d + 256 * swar2 n y.
Proof.
  intros Hd. unfold swar2. cbn [rep]. rewrite land_digit, land_shift_digit by (simpl; lia).
  rewrite Z.mul_0_r, Z.add_0_r. lia.
Qed.

Lemma swar3_digit n d y :
  0 ≤ d ≤ 0x44 → y `mod` 16 ≤ 4 →
  swar3 (S n) (d + 256 * y) = (d + d / 16) `mod` 16 + 256 * swar3 n y.
Proof.
  intros Hd Hy. unfold swar3. cbn [rep]. rewrite !Z.shiftr_div_pow2 by lia.
  change (2 ^ 4) with 16.
  replace (d + 256 * y + (d + 256 * y) / 16)
    with ((d + d / 16 + 16 * (y `mod` 16)) + 256 * (y + y / 16)) by dlia.
  rewrite land_digit by dlia. f_equal. change 15 with (Z.ones 4). rewrite Z.land_ones by lia.
  change (2 ^ 4) with 16. dlia.
Qed.

Lemma swar_low_nibble n y :
  0 ≤ y < 256 ^ Z.of_nat n → (swar2 n (swar1 n y)) `mod` 16 ≤ 4.
Proof.
  destruct n as [|n]; intros Hy.
  - assert (y = 0) as -> by (simpl in Hy; lia). done.
  - rewrite (Z.div_mod y 256) at 1 by lia.
    assert (Hd : 0 ≤ y `mod` 256 < 256) by (apply Z.mod_pos_bound; lia).
    byte_facts (y `mod` 256).
    rewrite (Z.add_comm (256 * _)), swar1_digit, swar2_digit by lia. dlia.
Qed.

(** Base-256 value of a list of digits, least significant first. *)
Fixpoint base256 (ds : list Z) : Z :=
  match ds with
  | [] => 0
  | d :: ds' => d + 256 * base256 ds'
  end.

Lemma count_testbit_digit d y n :
  0 ≤ d < 256 →
  count (Z.testbit (d + 256 * y)) 0 (8 + n) = count (Z.testbit d) 0 8 + count (Z.testbit y) 0 n.
Proof.
  intros Hd. rewrite count_app. f_equal.
  - apply count_ext. intros i Hi. rewrite testbit_digit by lia. by bool_compare.
  - change (0 + Z.of_nat 8) with (0 + 8). rewrite <- (count_shift _ 8).
    apply count_ext. intros i Hi. rewrite testbit_digit by lia. bool_compare. f_equal. lia.
Qed.

Lemma swar_spec n w :
  0 ≤ w < 256 ^ Z.of_nat n →
  ∃ ds, length ds = n ∧ Forall (λ d, 0 ≤ d ≤ 8) ds ∧ swar n w = base256 ds ∧
        foldr Z.add 0 ds = count (Z.testbit w) 0 (8 * n).
Proof.
  revert w. induction n as [|n IH]; intros w Hw.
  - assert (w = 0) as -> by (simpl in Hw; lia). by exists [].
  - rewrite Nat2Z.inj_succ, Z.pow_succ_r in Hw by lia.
    assert (0 ≤ w `mod` 256 < 256) by (apply Z.mod_pos_bound; lia).
    assert (Hy : 0 ≤ w / 256 < 256 ^ Z.of_nat n) by (split; [dlia|apply Z.div_lt_upper_bound; lia]).
    destruct (IH _ Hy) as (ds & Hlen & Hds & Hsw & Hsum).
    pose proof (swar_low_nibble n _ Hy). byte_facts (w `mod` 256).
    exists ((swar2 1 (swar1 1 (w `mod` 256)) + swar2 1 (swar1 1 (w `mod` 256)) / 16) `mod` 16 :: ds).
    assert (Ew : w = w `mod` 256 + 256 * (w / 256)) by dlia.
    split; [simpl; lia|]. split; [|split].
    + constructor; [|done]. rewrite H6. pose proof (count_bounds (Z.testbit (w `mod` 256)) 0 8). lia.
    + rewrite Ew at 1. unfold swar. rewrite swar1_digit, swar2_digit, swar3_digit by lia.
      cbn [base256]. rewrite <- Hsw. done.
    + cbn [foldr]. rewrite Hsum, H6.
      replace (8 * S n)%nat with (8 + 8 * n)%nat by lia.
      rewrite <- count_testbit_digit by done. by rewrite <- Ew.
Qed.

Ltac swar_digits ds :=
  repeat match goal with
  | H : length ds = S _ |- _ => destruct ds as [|? ds]; [done|]; simpl in H; injection H as H
  | H : length ds = O |- _ => apply nil_length_inv in H; subst ds
  end;
  repeat match goal with H : Forall _ (_ :: _) |- _ => apply Forall_cons in H as [? H] end.

(** The common first three steps, once the wrap-arounds are discharged. *)
Lemma swar_range n w : 0 ≤ w < 256 ^ Z.of_nat n → 0 ≤ swar n w.
Proof.
  intros Hw. destruct (swar_spec n w Hw) as (ds & _ & Hds & -> & _).
  induction Hds; simpl; lia.
Qed.

Lemma swar_steps_range n w :
  0 ≤ w < 256 ^ Z.of_nat n →
  0 ≤ swar1 n w < 256 ^ Z.of_nat n ∧
  0 ≤ swar2 n (swar1 n w) ∧ 3 * swar2 n (swar1 n w) < 256 ^ Z.of_nat n.
Proof.
  revert w. induction n as [|n IH]; intros w Hw.
  - assert (w = 0) as -> by (simpl in Hw; lia). vm_compute. auto with lia.
  - rewrite Nat2Z.inj_succ, Z.pow_succ_r in Hw |- * by lia.
    assert (0 ≤ w `mod` 256 < 256) by (apply Z.mod_pos_bound; lia).
    assert (Hy : 0 ≤ w / 256 < 256 ^ Z.of_nat n) by (split; [dlia|apply Z.div_lt_upper_bound; lia]).
    specialize (IH _ Hy). byte_facts (w `mod` 256).
    replace w with (w `mod` 256 + 256 * (w / 256)) by dlia.
    rewrite swar1_digit, swar2_digit by lia. lia.
Qed.

(** The three byte-parallel steps on an [8*n]-bit word compute [swar n]:
    no step wraps around in a register of [b >= 8*n] bits. *)
Lemma swar_unwrap b n w :
  8 * Z.of_nat n ≤ b → 0 ≤ w < 256 ^ Z.of_nat n →
  (let res := wrap b (w - ((w >>u 1) .& rep 0x55 n)) in
   let res := wrap b ((res .& rep 0x33 n) + ((res >>u 2) .& rep 0x33 n)) in
   wrap b (res + (res >>u 4)) .& rep 0x0F n) = swar n w.
Proof.
  intros Hb Hw. destruct (swar_steps_range n w Hw) as (H1 & H2 & H3).
  assert (Hpow : 256 ^ Z.of_nat n ≤ 2 ^ b).
  { change 256 with (2 ^ 8). rewrite <- Z.pow_mul_r by lia. apply Z.pow_le_mono_r; lia. }
  cbv zeta. unfold swar, swar3. fold (swar1 n w).
  rewrite (wrap_small b (swar1 n w)) by lia. fold (swar2 n (swar1 n w)).
  rewrite (wrap_small b (swar2 n (swar1 n w))) by lia.
  assert (0 ≤ swar2 n (swar1 n w) >>u 4 ≤ swar2 n (swar1 n w)).
  { rewrite Z.shiftr_div_pow2 by lia. change (2 ^ 4) with 16. dlia. }
  rewrite (wrap_small b) by lia. done.
Qed.

Lemma __sw_hweight8_spec w : is_u8 w → __sw_hweight8 w = count (Z.testbit w) 0 8.
Proof.
  intros Hw. unfold __sw_hweight8.
  pose proof (swar_unwrap 32 1 w ltac:(lia) ltac:(simpl; lia)) as E. cbv zeta in E.
  unfold u32. change 0x55 with (rep 0x55 1). change 0x33 with (rep 0x33 1).
  change 0x0F with (rep 0x0F 1). rewrite E.
  destruct (swar_spec 1 w ltac:(simpl; lia)) as (ds & Hlen & Hds & -> & Hsum).
  change (8 * 1)%nat with 8%nat in Hsum. rewrite <- Hsum. clear Hsum.
  swar_digits ds. simpl. lia.
Qed.

Lemma __sw_hweight16_spec w : 0 ≤ w < 2 ^ 16 → __sw_hweight16 w = count (Z.testbit w) 0 16.
Proof.
  intros Hw. unfold __sw_hweight16.
  pose proof (swar_unwrap 32 2 w ltac:(lia) ltac:(simpl; lia)) as E. cbv zeta in E.
  unfold u32. change 0x5555 with (rep 0x55 2). change 0x3333 with (rep 0x33 2).
  change 0x0F0F with (rep 0x0F 2). rewrite E.
  destruct (swar_spec 2 w ltac:(simpl; lia)) as (ds & Hlen & Hds & -> & Hsum).
  change (8 * 2)%nat with 16%nat in Hsum. rewrite <- Hsum. clear Hsum.
  swar_digits ds. cbn [base256 foldr].
  change 0xFF with (Z.ones 8). rewrite Z.land_ones, Z.shiftr_div_pow2 by lia.
  rewrite wrap_small by dlia. change (2 ^ 8) with 256. dlia.
Qed.

Lemma __sw_hweight32_spec w : is_u32 w → __sw_hweight32 w = count (Z.testbit w) 0 32.
Proof.
  intros Hw. unfold __sw_hweight32.
  pose proof (swar_unwrap 32 4 w ltac:(lia) ltac:(simpl; lia)) as E. cbv zeta in E.
  unfold u32. change 0x55555555 with (rep 0x55 4). change 0x33333333 with (rep 0x33 4).
  change 0x0F0F0F0F with (rep 0x0F 4). rewrite E.
  destruct (swar_spec 4 w ltac:(simpl; lia)) as (ds & Hlen & Hds & -> & Hsum).
  change (8 * 4)%nat with 32%nat in Hsum. rewrite <- Hsum. clear Hsum.
  swar_digits ds. cbn [base256 foldr].
  change 0xFF with (Z.ones 8). rewrite Z.land_ones, !Z.shiftr_div_pow2 by lia.
  change (2 ^ 8) with 256. change (2 ^ 16) with 65536.
  match goal with |- context [wrap 32 (?a + ?a / 256)] =>
    replace (wrap 32 (a + a / 256)) with (a + a / 256) by (rewrite wrap_small; dlia) end.
  rewrite wrap_small by dlia. dlia.
Qed.

Lemma base256_div d ds : 0 ≤ d < 256 → base256 (d :: ds) / 256 = base256 ds.
Proof. intros. cbn [base256]. dlia. Qed.

Lemma base256_shift ds n :
  Forall (λ d, 0 ≤ d < 256) ds → base256 ds / 256 ^ Z.of_nat n = base256 (drop n ds).
Proof.
  intros Hds. revert n. induction Hds as [|d ds Hd Hds IH]; intros n.
  - rewrite drop_nil. apply Z.div_0_l. lia.
  - destruct n as [|n]; [by rewrite Z.div_1_r|].
    rewrite Nat2Z.inj_succ, Z.pow_succ_r, <- Z.div_div by lia.
    rewrite base256_div by done. apply IH.
Qed.

Lemma base256_shiftr ds n :
  Forall (λ d, 0 ≤ d < 256) ds → base256 ds >>u (8 * Z.of_nat n) = base256 (drop n ds).
Proof.
  intros. rewrite Z.shiftr_div_pow2, Z.pow_mul_r by lia. by apply base256_shift.
Qed.

Lemma base256_range ds : Forall (λ d, 0 ≤ d < 256) ds → 0 ≤ base256 ds < 256 ^ zlen ds.
Proof.
  induction 1 as [|d ds Hd Hds IH]; [done|]. cbn [base256 length].
  rewrite Nat2Z.inj_succ, Z.pow_succ_r by lia. lia.
Qed.

Lemma base256_add xs ys :
  base256 (zip_with Z.add xs ys ++ drop (length ys) xs ++ drop (length xs) ys) = base256 xs + base256 ys.
Proof.
  revert ys. induction xs as [|x xs IH]; intros [|y ys]; simpl; try lia.
  - rewrite ?drop_nil, ?drop_0, ?app_nil_r; simpl; lia.
  - rewrite IH. lia.
Qed.

(** Folding the upper half of a word onto the lower one, byte by byte. *)
Lemma fold_bytes ds n :
  Forall (λ d, 0 ≤ d < 128) ds → (length ds ≤ 8)%nat →
  u64 (base256 ds + (base256 ds >>u (8 * Z.of_nat n))) =
    base256 (zip_with Z.add ds (drop n ds) ++ drop (length (drop n ds)) ds).
Proof.
  intros Hds Hlen.
  assert (Hds' : Forall (λ d, 0 ≤ d < 256) ds) by (eapply Forall_impl; [done|]; simpl; lia).
  rewrite base256_shiftr by done.
  pose proof (base256_add ds (drop n ds)) as E.
  rewrite (drop_ge (drop n ds) (length ds)), app_nil_r in E by (rewrite length_drop; lia).
  rewrite <- E. apply u64_small.
  assert (Hf : Forall (λ d, 0 ≤ d < 256) (zip_with Z.add ds (drop n ds) ++ drop (length (drop n ds)) ds)).
  { apply Forall_app. split; [|by apply Forall_drop].
    apply Forall_lookup. intros i x Hx. apply lookup_zip_with_Some in Hx as (a & b & -> & Ha & Hb).
    rewrite Forall_lookup in Hds. rewrite lookup_drop in Hb.
    pose proof (Hds _ _ Ha). pose proof (Hds _ _ Hb). simpl in *. lia. }
  pose proof (base256_range _ Hf) as Hr. split; [lia|].
  eapply Z.lt_le_trans; [apply Hr|].
  change (2 ^ 64) with (256 ^ 8). apply Z.pow_le_mono_r; [lia|].
  rewrite length_app, length_zip_with, !length_drop. lia.
Qed.

Lemma base256_low d ds : 0 ≤ d < 256 → base256 (d :: ds) .& 255 = d.
Proof.
  intros. change 255 with (Z.ones 8). rewrite Z.land_ones by lia.
  cbn [base256]. change (2 ^ 8) with 256. dlia.
Qed.

Ltac fold_step n b :=
  match goal with
  | |- context [u64 (base256 ?ds + (base256 ?ds >>u b))] =>
      let E := fresh in
      pose proof (fold_bytes ds n ltac:(repeat constructor; lia) ltac:(simpl; lia)) as E;
      change (8 * Z.of_nat n) with b in E; cbn [drop zip_with app length] in E;
      rewrite E; clear E
  end.

Lemma __sw_hweight64_spec w : is_u64 w → __sw_hweight64 w = count (Z.testbit w) 0 64.
Proof.
  intros Hw. unfold __sw_hweight64.
  pose proof (swar_unwrap 64 8 w ltac:(lia) ltac:(simpl; lia)) as E. cbv zeta in E.
  change 0x5555555555555555 with (rep 0x55 8).
  change 0x3333333333333333 with (rep 0x33 8). change 0x0F0F0F0F0F0F0F0F with (rep 0x0F 8).
  repeat change (wrap 64 ?x) with (u64 x) in E. cbv zeta. rewrite E.
  destruct (swar_spec 8 w ltac:(simpl; lia)) as (ds & Hlen & Hds & -> & Hsum).
  change (8 * 8)%nat with 64%nat in Hsum. rewrite <- Hsum. clear Hsum.
  swar_digits ds.
  fold_step 1%nat 8. fold_step 2%nat 16. fold_step 4%nat 32.
  rewrite base256_low by lia. simpl. lia.
Qed.

(** The parallel population counts of [lib/hweight.c] return the number
    of set bits of every word of their width. *)
Lemma hweight_counts_bits w :
  (is_u64 w → __sw_hweight64 w = count (Z.testbit w) 0 64) ∧
  (is_u32 w → __sw_hweight32 w = count (Z.testbit w) 0 32) ∧
  (0 ≤ w < 2 ^ 16 → __sw_hweight16 w = count (Z.testbit w) 0 16) ∧
  (is_u8 w → __sw_hweight8 w = count (Z.testbit w) 0 8).
Proof.
  split; [apply __sw_hweight64_spec|]. split; [apply __sw_hweight32_spec|].
  split; [apply __sw_hweight16_spec|apply __sw_hweight8_spec].
Qed.

Example hweight_counts_bits_witness :
  __sw_hweight64 0xF00000000000000F = count (Z.testbit 0xF00000000000000F) 0 64
  ∧ __sw_hweight64 0xF00000000000000F = 8.
Proof.
  split; [exact (proj1 (hweight_counts_bits 0xF00000000000000F) ltac:(lia)) | vm_compute; reflexivity].
Defined.
