(* ===== verification/FindBit.v ===== *)
(** * FindBit: searching a bitmap

    [lib/find_next_bit.c] and [lib/find_last_bit.c].  A bitmap is an array of
    64-bit words; reading a word outside the array goes wrong ([None]).  The
    word loops take fuel; the entry points pass one unit per word of the range
    searched plus one, and the theorems show that this is always enough.
    find_first_bit and find_first_zero_bit are the functions of lib/find_next_bit.c,
    which are compiled with CONFIG_GENERIC_FIND_FIRST_BIT; without it, as on arm64,
    they are macros over find_next_bit and find_next_zero_bit with offset 0, which
    find_first_is_next shows to be the same. *)

From S2P Require Import Prelude Bitops.

Definition BITOP_WORD (nr : Z) : Z := nr / BITS_PER_LONG.

(** ** find_next_bit, find_first_bit *)

(** Label [found_middle]: [return result + __ffs(tmp)]. *)
Definition found_middle (result tmp : Z) : option Z :=
  r ← __ffs tmp; Some (result +64 r).

(** Label [found_first]: the last, partial word. *)
Definition found_first (size result tmp : Z) : option Z :=
  let tmp := tmp .& (ULONG_MAX >>u (BITS_PER_LONG - size)) in
  if tmp =? 0 then Some (result +64 size) else found_middle result tmp.

(** The [while] loop over whole words and the code after it. *)
Fixpoint find_bit_words (fuel : nat) (addr : list Z) (p size result : Z) : option Z :=
  match fuel with
  | O => None
  | S fuel' =>
      if negb (size .& ~64 (BITS_PER_LONG - 1) =? 0) then
        tmp ← rd addr p;
        if negb (tmp =? 0) then found_middle result tmp
        else find_bit_words fuel' addr (p + 1) (size -64 BITS_PER_LONG) (result +64 BITS_PER_LONG)
      else if size =? 0 then Some result
      else tmp ← rd addr p; found_first size result tmp
  end.

Definition words_fuel (size : Z) : nat := S (Z.to_nat (size / BITS_PER_LONG)).

Definition find_next_bit (addr : list Z) (size offset : Z) : option Z :=
  let p := BITOP_WORD offset in
  let result := offset .& ~64 (BITS_PER_LONG - 1) in
  if size <=? offset then Some size
  else
    let size := size -64 result in
    let offset := offset `mod` BITS_PER_LONG in
    if negb (offset =? 0) then
      tmp ← rd addr p;
      let tmp := tmp .& (ULONG_MAX <<64 offset) in
      if size <? BITS_PER_LONG then found_first size result tmp
      else if negb (tmp =? 0) then found_middle result tmp
      else
        let size := size -64 BITS_PER_LONG in
        find_bit_words (words_fuel size) addr (p + 1) size (result +64 BITS_PER_LONG)
    else find_bit_words (words_fuel size) addr p size result.

Definition find_first_bit (addr : list Z) (size : Z) : option Z :=
  find_bit_words (words_fuel size) addr 0 size 0.

(** ** find_next_zero_bit, find_first_zero_bit *)

Definition found_middle_zero (result tmp : Z) : option Z :=
  r ← ffz tmp; Some (result +64 r).

Definition found_first_zero (size result tmp : Z) : option Z :=
  let tmp := tmp .| (ULONG_MAX <<64 size) in
  if tmp =? ULONG_MAX then Some (result +64 size) else found_middle_zero result tmp.

Fixpoint find_zero_words (fuel : nat) (addr : list Z) (p size result : Z) : option Z :=
  match fuel with
  | O => None
  | S fuel' =>
      if negb (size .& ~64 (BITS_PER_LONG - 1) =? 0) then
        tmp ← rd addr p;
        if negb (~64 tmp =? 0) then found_middle_zero result tmp
        else find_zero_words fuel' addr (p + 1) (size -64 BITS_PER_LONG) (result +64 BITS_PER_LONG)
      else if size =? 0 then Some result
      else tmp ← rd addr p; found_first_zero size result tmp
  end.

Definition find_next_zero_bit (addr : list Z) (size offset : Z) : option Z :=
  let p := BITOP_WORD offset in
  let result := offset .& ~64 (BITS_PER_LONG - 1) in
  if size <=? offset then Some size
  else
    let size := size -64 result in
    let offset := offset `mod` BITS_PER_LONG in
    if negb (offset =? 0) then
      tmp ← rd addr p;
      let tmp := tmp .| (ULONG_MAX >>u (BITS_PER_LONG - offset)) in
      if size <? BITS_PER_LONG then found_first_zero size result tmp
      else if negb (~64 tmp =? 0) then found_middle_zero result tmp
      else
        let size := size -64 BITS_PER_LONG in
        find_zero_words (words_fuel size) addr (p + 1) size (result +64 BITS_PER_LONG)
    else find_zero_words (words_fuel size) addr p size result.

Definition find_first_zero_bit (addr : list Z) (size : Z) : option Z :=
  find_zero_words (words_fuel size) addr 0 size 0.

(** ** find_last_bit *)



(** ** Masks *)

Lemma testbit_low_mask n i :
  0 < n ≤ 64 → Z.testbit (ULONG_MAX >>u (64 - n)) i = (0 <=? i) && (i <? n).
Proof.
  intros Hn. change ULONG_MAX with (Z.ones 64). autorewrite with bits. bool_compare; done.
Qed.

Lemma testbit_high_mask n i :
  0 ≤ n → Z.testbit (ULONG_MAX <<64 n) i = (n <=? i) && (i <? 64).
Proof.
  intros Hn. change ULONG_MAX with (Z.ones 64). autorewrite with bits. bool_compare; done.
Qed.

Lemma align_word offset : is_u64 offset → offset .& ~64 (BITS_PER_LONG - 1) = 64 * (offset / 64).
Proof.
  intros Hs. replace (64 * (offset / 64)) with ((offset >>u 6) ≪ 6).
  2: { rewrite Z.shiftl_mul_pow2, Z.shiftr_div_pow2 by lia. change (2 ^ 6) with 64. lia. }
  change (BITS_PER_LONG - 1) with (Z.ones 6). apply Z.bits_inj'. intros i Hi.
  autorewrite with bits. bool_compare; simpl; rewrite ?andb_false_r, ?andb_true_r; try done.
  - by rewrite Z.sub_add.
  - by rewrite Z.sub_add, (testbit_high 64) by lia.
Qed.

Lemma whole_words size : is_u64 size → (size .& ~64 (BITS_PER_LONG - 1) =? 0) = (size <? 64).
Proof.
  intros Hs. rewrite align_word by done.
  destruct (Z.eqb_spec (64 * (size / 64)) 0), (Z.ltb_spec size 64); dlia || done.
Qed.

(** ** Correctness of the forward searches *)

(** [tmp] holds the bits of one word that lie in [off, size). *)
Definition word_view (P : Z → bool) (result off size tmp : Z) : Prop :=
  ∀ i, 0 ≤ i < 64 →
    Z.testbit tmp i = (off <=? result + i) && (result + i <? size) && P (result + i).

Lemma found_middle_spec P result tmp off size :
  is_u64 tmp → tmp ≠ 0 → 0 ≤ result → result + 63 ≤ ULONG_MAX → result ≤ off →
  word_view P result off size tmp →
  ∃ r, found_middle result tmp = Some r ∧ is_next P size off r.
Proof.
  intros Ht Hne Hr Hmax Hoff HP. unfold found_middle.
  destruct (__ffs_spec tmp) as (r & -> & Hr0 & Hset & Hclr); [lia|].
  assert (0 ≤ r < 64) by (by eapply testbit_true_range).
  simpl. exists (result + r). unfold ULONG_MAX in *. rewrite u64_small by lia. split; [done|].
  rewrite HP in Hset by done. rewrite !andb_true_iff, Z.leb_le, Z.ltb_lt in Hset.
  left. split; [lia|]. split; [tauto|]. intros i Hi.
  specialize (Hclr (i - result)). rewrite HP in Hclr by lia.
  replace (result + (i - result)) with i in Hclr by lia.
  destruct (Z.leb_spec off i); [|lia]. destruct (Z.ltb_spec i size); [|lia]. apply Hclr. lia.
Qed.

Lemma word_view_zero P result off size i :
  word_view P result off size 0 → off ≤ i < size → result ≤ i < result + 64 → P i = false.
Proof.
  intros HP Hi Hr. specialize (HP (i - result)).
  replace (result + (i - result)) with i in HP by lia. rewrite Z.bits_0 in HP.
  revert HP. bool_compare. simpl. intros HP. symmetry. apply HP. lia.
Qed.

Lemma found_first_spec P result tmp off size :
  is_u64 tmp → 0 ≤ result → result + 63 ≤ ULONG_MAX → result ≤ off → 0 < size < 64 →
  (∀ i, 0 ≤ i < 64 → Z.testbit tmp i = (off <=? result + i) && P (result + i)) →
  ∃ r, found_first size result tmp = Some r ∧ is_next P (result + size) off r.
Proof.
  intros Ht Hr Hmax Hoff Hs HP. unfold found_first, BITS_PER_LONG.
  set (t := tmp .& _).
  assert (Hv : word_view P result off (result + size) t).
  { intros i Hi. unfold t. rewrite Z.land_spec, testbit_low_mask, HP by lia.
    bool_compare; simpl; by rewrite ?andb_true_r, ?andb_false_r. }
  assert (is_u64 t) by (unfold t; auto with bits).
  destruct (Z.eqb_spec t 0) as [E|E].
  - rewrite E in Hv. exists (result + size). unfold ULONG_MAX in *. rewrite u64_small by lia.
    split; [done|]. right. split; [done|]. intros i Hi. eapply word_view_zero; [done|lia..].
  - by apply found_middle_spec.
Qed.

Lemma is_next_extend P size off off' r :
  off ≤ off' → off' ≤ size → (∀ i, off ≤ i < off' → P i = false) →
  is_next P size off' r → is_next P size off r.
Proof.
  intros Hle Hle' Hz [(Hr & Ht & Hf)|[-> Hf]]; [left|right].
  - split; [lia|]. split; [done|]. intros i Hi.
    destruct (decide (i < off')); [apply Hz|apply Hf]; lia.
  - split; [done|]. intros i Hi. destruct (decide (i < off')); [apply Hz|apply Hf]; lia.
Qed.

Lemma find_bit_words_spec fuel addr p size result :
  wf_words addr → 0 ≤ p → result = 64 * p → 0 ≤ size → result + size ≤ ULONG_MAX →
  result + size ≤ 64 * zlen addr → size / 64 < Z.of_nat fuel →
  ∃ r, find_bit_words fuel addr p size result = Some r ∧
       is_next (bm_bit addr) (result + size) result r.
Proof.
  intros Haddr. unfold ULONG_MAX.
  revert p size result. induction fuel as [|fuel IH]; intros p size result Hp Hres Hs Hmax Hlen Hf;
    [dlia|]. cbn [find_bit_words]. rewrite whole_words by lia.
  assert (Hword : ∀ w, rd addr p = Some w → ∀ i, 0 ≤ i < 64 →
            Z.testbit w i = (result <=? result + i) && bm_bit addr (result + i)).
  { intros w Hw i Hi. rewrite Hres, (bm_bit_word addr p i w) by done. by bool_compare. }
  destruct (Z.ltb_spec size 64) as [Hlt|Hge]; cbn [negb].
  - destruct (Z.eqb_spec size 0) as [->|Hne].
    + exists result. split; [done|]. right. split; [lia|]. intros; lia.
    + destruct (rd_in addr p) as [w Hw]; [lia|]. rewrite Hw. cbn [mbind option_bind].
      apply found_first_spec; unfold ULONG_MAX; [by eapply words_range|lia..|by apply Hword].
  - destruct (rd_in addr p) as [w Hw]; [lia|]. rewrite Hw. cbn [mbind option_bind].
    pose proof (words_range _ _ _ Haddr Hw).
    assert (Hv : word_view (bm_bit addr) result result (result + size) w).
    { intros i Hi. rewrite (Hword w Hw) by done. bool_compare. done. }
    destruct (Z.eqb_spec w 0) as [->|Hne]; cbn [negb].
    + unfold BITS_PER_LONG. rewrite !u64_small by lia.
      destruct (IH (p + 1) (size - 64) (result + 64)) as (r & -> & Hr); [lia..|dlia|].
      exists r. split; [done|]. replace (result + 64 + (size - 64)) with (result + size) in Hr by lia.
      eapply is_next_extend; [..|done]; [lia|lia|].
      intros i Hi. eapply word_view_zero; [done|lia..].
    + apply found_middle_spec; unfold ULONG_MAX; [done|done|lia..|done].
Qed.

Lemma find_next_bit_ok addr size offset :
  wf_words addr → is_u64 size → is_u64 offset → size ≤ 64 * zlen addr →
  ∃ r, find_next_bit addr size offset = Some r ∧ is_next (bm_bit addr) size offset r.
Proof.
  intros Ha Hs Ho Hlen. unfold find_next_bit, BITOP_WORD.
  rewrite align_word by done. unfold BITS_PER_LONG.
  destruct (Z.leb_spec size offset) as [Hle|Hlt].
  { exists size. split; [done|]. right. split; [done|]. intros; lia. }
  rewrite (u64_small (size - _)) by dlia.
  destruct (Z.eqb_spec (offset `mod` 64) 0) as [E|E]; cbn [negb].
  - destruct (find_bit_words_spec (words_fuel (size - 64 * (offset / 64))) addr (offset / 64)
      (size - 64 * (offset / 64)) (64 * (offset / 64))) as (r & -> & Hr);
      unfold ULONG_MAX, words_fuel, BITS_PER_LONG; [done|dlia..|].
    exists r. split; [done|].
    replace (64 * (offset / 64)) with offset in Hr by dlia.
    by replace (offset + (size - offset)) with size in Hr by lia.
  - destruct (rd_in addr (offset / 64)) as [w Hw]; [dlia|]. rewrite Hw. cbn [mbind option_bind].
    pose proof (words_range _ _ _ Ha Hw).
    set (res := 64 * (offset / 64)). assert (Hres : res ≤ offset < res + 64) by (unfold res; dlia).
    set (t := w .& _). assert (is_u64 t) by (unfold t; auto with bits).
    assert (Ht : ∀ i, 0 ≤ i < 64 → Z.testbit t i = (offset <=? res + i) && bm_bit addr (res + i)).
    { intros i Hi. unfold t. rewrite Z.land_spec, testbit_high_mask by dlia.
      unfold res. rewrite (bm_bit_word addr _ i w) by done.
      rewrite andb_comm. f_equal. apply eq_true_iff_eq.
      rewrite andb_true_iff, Z.ltb_lt, !Z.leb_le. dlia. }
    destruct (Z.ltb_spec (size - res) 64).
    + replace (is_next _ size) with (is_next (bm_bit addr) (res + (size - res))) by (f_equal; lia).
      apply found_first_spec; unfold ULONG_MAX; [done|unfold res; dlia|unfold res; dlia|lia..|done].
    + assert (Hv : word_view (bm_bit addr) res offset size t).
      { intros i Hi. rewrite Ht by done. destruct (Z.ltb_spec (res + i) size); [|lia]. by rewrite andb_true_r. }
      destruct (Z.eqb_spec t 0) as [E0|Hne]; cbn [negb].
      * rewrite !u64_small by (unfold res; dlia).
        destruct (find_bit_words_spec (words_fuel (size - res - 64)) addr (offset / 64 + 1)
          (size - res - 64) (res + 64)) as (r & -> & Hr);
          unfold ULONG_MAX, words_fuel, BITS_PER_LONG; [done|unfold res; dlia..|].
        exists r. split; [done|]. replace (res + 64 + (size - res - 64)) with size in Hr by lia.
        eapply is_next_extend; [..|done]; [lia|lia|].
        intros i Hi. rewrite E0 in Hv. eapply word_view_zero; [done|lia..].
      * apply found_middle_spec; unfold ULONG_MAX; [done|done|unfold res; dlia|unfold res; dlia|lia|done].
Qed.

Lemma find_first_bit_ok addr size :
  wf_words addr → is_u64 size → size ≤ 64 * zlen addr →
  ∃ r, find_first_bit addr size = Some r ∧ is_next (bm_bit addr) size 0 r.
Proof.
  intros Ha Hs Hlen. unfold find_first_bit.
  apply find_bit_words_spec; unfold ULONG_MAX, words_fuel, BITS_PER_LONG; [done|dlia..].
Qed.

(** ** The searches for a clear bit are searches of the complement *)

Definition complement (addr : list Z) : list Z := (λ w, ~64 w) <$> addr.

Lemma rd_complement addr p : rd (complement addr) p = (λ w, ~64 w) <$> rd addr p.
Proof. unfold rd, complement. destruct (0 <=? p); [|done]. apply list_lookup_fmap. Qed.

Lemma wf_complement addr : wf_words (complement addr).
Proof. apply Forall_fmap, Forall_true. intros w. apply u64_range. Qed.

Lemma bm_bit_complement addr i :
  0 ≤ i < 64 * zlen addr → bm_bit (complement addr) i = negb (bm_bit addr i).
Proof.
  intros Hi. unfold bm_bit. rewrite rd_complement.
  destruct (rd_in addr (i / 64)) as [w Hw]; [dlia|]. rewrite Hw. simpl.
  assert (0 ≤ i `mod` 64 < 64) by (apply Z.mod_pos_bound; lia).
  autorewrite with bits. by bool_compare.
Qed.

Lemma u64_lnot_zero x : is_u64 x → (~64 x =? 0) = (x =? ULONG_MAX).
Proof.
  intros Hx. replace (~64 x) with (ULONG_MAX - x).
  - destruct (Z.eqb_spec (ULONG_MAX - x) 0), (Z.eqb_spec x ULONG_MAX); lia || done.
  - unfold u64, wrap, ULONG_MAX, Z.lnot. apply Z.mod_unique with (-1); lia.
Qed.

Lemma ULONG_shl_range n : is_u64 (ULONG_MAX <<64 n).
Proof. apply u64_range. Qed.
Lemma ULONG_shr_range n : 0 ≤ n → is_u64 (ULONG_MAX >>u n).
Proof. intros. apply shiftr_range; unfold ULONG_MAX; lia. Qed.
#[export] Hint Resolve ULONG_shl_range ULONG_shr_range : bits.

Lemma found_first_zero_complement size result tmp :
  is_u64 tmp → 0 < size < 64 →
  found_first_zero size result tmp = found_first size result (~64 tmp).
Proof.
  intros Ht Hs. unfold found_first_zero, found_first, BITS_PER_LONG.
  assert (E : ~64 (tmp .| (ULONG_MAX <<64 size)) = (~64 tmp) .& (ULONG_MAX >>u (64 - size))).
  { apply Z.bits_inj'. intros i Hi. rewrite Z.land_spec, testbit_low_mask by lia.
    rewrite testbit_u64, testbit_lnot, Z.lor_spec, testbit_high_mask by lia.
    autorewrite with bits. bool_compare; simpl; rewrite ?orb_true_r, ?orb_false_r, ?andb_true_r; done. }
  rewrite <- E, <- u64_lnot_zero by auto with bits.
  destruct (_ =? 0); [done|]. unfold found_middle_zero, ffz. done.
Qed.

Lemma find_zero_words_complement fuel addr p size result :
  wf_words addr → is_u64 size →
  find_zero_words fuel addr p size result = find_bit_words fuel (complement addr) p size result.
Proof.
  intros Ha. revert p size result. induction fuel as [|fuel IH]; intros p size result Hs; [done|].
  cbn [find_zero_words find_bit_words]. rewrite whole_words by done.
  rewrite rd_complement. destruct (Z.ltb_spec size 64) as [Hlt|Hge]; cbn [negb].
  - destruct (Z.eqb_spec size 0); [done|]. destruct (rd addr p) as [w|] eqn:Hw; [|done].
    cbn [mbind option_bind fmap option_fmap option_map].
    apply found_first_zero_complement; [by eapply words_range|lia].
  - destruct (rd addr p) as [w|] eqn:Hw; [|done].
    cbn [mbind option_bind fmap option_fmap option_map].
    rewrite IH by apply u64_range. done.
Qed.

Lemma find_next_zero_bit_complement addr size offset :
  wf_words addr → is_u64 size → is_u64 offset →
  find_next_zero_bit addr size offset = find_next_bit (complement addr) size offset.
Proof.
  intros Ha Hs Ho. unfold find_next_zero_bit, find_next_bit, BITOP_WORD.
  destruct (Z.leb_spec size offset); [done|]. rewrite align_word by done.
  assert (Hm : 0 ≤ offset `mod` BITS_PER_LONG < 64) by (apply Z.mod_pos_bound; done).
  destruct (Z.eqb_spec (offset `mod` BITS_PER_LONG) 0) as [E|E]; cbn [negb].
  { apply find_zero_words_complement; [done|apply u64_range]. }
  rewrite rd_complement. destruct (rd addr _) as [w|] eqn:Hw; [|done].
  pose proof (words_range _ _ _ Ha Hw).
  cbn [mbind option_bind fmap option_fmap option_map]. unfold BITS_PER_LONG at 4 11.
  assert (E1 : ~64 (w .| (ULONG_MAX >>u (64 - offset `mod` BITS_PER_LONG)))
               = (~64 w) .& (ULONG_MAX <<64 (offset `mod` BITS_PER_LONG))).
  { apply Z.bits_inj'. intros i Hi. rewrite Z.land_spec, testbit_high_mask by lia.
    rewrite testbit_u64, testbit_lnot, Z.lor_spec, testbit_low_mask by lia.
    autorewrite with bits. bool_compare; simpl; rewrite ?orb_true_r, ?orb_false_r, ?andb_true_r, ?andb_false_r; done. }
  unfold BITS_PER_LONG in *.
  destruct (Z.ltb_spec (size -64 64 * (offset / 64)) 64) as [Hlt|Hge].
  - rewrite found_first_zero_complement; [by rewrite E1|auto with bits|].
    rewrite u64_small in * by dlia. dlia.
  - rewrite E1. destruct (_ =? 0); cbn [negb].
    + apply find_zero_words_complement; [done|apply u64_range].
    + unfold found_middle_zero, ffz. by rewrite E1.
Qed.

Lemma find_next_zero_bit_ok addr size offset :
  wf_words addr → is_u64 size → is_u64 offset → size ≤ 64 * zlen addr →
  ∃ r, find_next_zero_bit addr size offset = Some r ∧
       is_next (λ i, negb (bm_bit addr i)) size offset r.
Proof.
  intros Ha Hs Ho Hlen. rewrite find_next_zero_bit_complement by done.
  destruct (find_next_bit_ok (complement addr) size offset) as (r & -> & Hr);
    [apply wf_complement|done|done|by unfold complement; rewrite length_fmap|].
  exists r. split; [done|]. eapply is_next_ext; [|done].
  intros i Hi. apply bm_bit_complement. lia.
Qed.

Lemma find_first_zero_bit_ok addr size :
  wf_words addr → is_u64 size → size ≤ 64 * zlen addr →
  ∃ r, find_first_zero_bit addr size = Some r ∧ is_next (λ i, negb (bm_bit addr i)) size 0 r.
Proof.
  intros Ha Hs Hlen. unfold find_first_zero_bit. rewrite find_zero_words_complement by done.
  destruct (find_first_bit_ok (complement addr) size) as (r & Hr & Hn);
    [apply wf_complement|done|by unfold complement; rewrite length_fmap|].
  unfold find_first_bit in Hr. rewrite Hr. exists r. split; [done|].
  eapply is_next_ext; [|done]. intros i Hi. apply bm_bit_complement. lia.
Qed.

(** ** The backward search *)





(** Without CONFIG_GENERIC_FIND_FIRST_BIT the first bit is searched with
    find_next_bit from 0 (asm-generic/bitops/find.h): the two agree. *)
Lemma find_first_is_next addr size :
  wf_words addr → is_u64 size → size ≤ 64 * zlen addr →
  find_first_bit addr size = find_next_bit addr size 0 ∧
  find_first_zero_bit addr size = find_next_zero_bit addr size 0.
Proof.
  intros Ha Hs Hl. assert (H0 : is_u64 0) by lia.
  destruct (find_first_bit_ok addr size) as (r1 & -> & H1); [done..|].
  destruct (find_next_bit_ok addr size 0) as (r2 & -> & H2); [done..|].
  destruct (find_first_zero_bit_ok addr size) as (z1 & -> & Z1); [done..|].
  destruct (find_next_zero_bit_ok addr size 0) as (z2 & -> & Z2); [done..|].
  by rewrite (is_next_unique _ _ _ _ _ H1 H2), (is_next_unique _ _ _ _ _ Z1 Z2).
Qed.

(** ** Properties *)


