(* ===== verification/Bitmap.v ===== *)
(** * Bitmap: operations on arrays of bits

    [lib/bitmap.c] and the inline helpers of [include/linux/bitmap.h].  A
    routine that only reads works on the array itself; a routine that writes
    through a pointer works on the heap of arrays, so that the theorems cover
    calls where the destination is one of the sources
    ([__bitmap_parse] shifts a bitmap in place). *)

From S2P Require Import Prelude Bitops FindBit.

Definition BITMAP_FIRST_WORD_MASK (start : Z) : Z := ULONG_MAX <<64 (start `mod` BITS_PER_LONG).
Definition BITMAP_LAST_WORD_MASK (nbits : Z) : Z :=
  if negb (nbits `mod` BITS_PER_LONG =? 0)
  then (1 <<64 (nbits `mod` BITS_PER_LONG)) -64 1
  else ULONG_MAX.

(** ** Predicates

    The five predicates share one shape: a loop over the whole words with an
    early return, then the masked last word. *)

(** [for (k = lo; k < lo + n; ++k) if (test(k)) return hit;] *)
Fixpoint any_word (n : nat) (k : Z) (test : Z → option bool) : option bool :=
  match n with
  | O => Some false
  | S n' => b ← test k; if (b : bool) then Some true else any_word n' (k + 1) test
  end.

Definition scan_bits (bits : Z) (whole : Z → option bool) (last : Z → option Z) : option bool :=
  let lim := bits / BITS_PER_LONG in
  hit ← any_word (Z.to_nat lim) 0 whole;
  if (hit : bool) then Some true
  else if negb (bits `mod` BITS_PER_LONG =? 0) then
    w ← last lim; Some (negb (w .& BITMAP_LAST_WORD_MASK bits =? 0))
  else Some false.

Definition __bitmap_empty (bitmap : list Z) (bits : Z) : option bool :=
  negb <$> scan_bits bits (λ k, w ← rd bitmap k; Some (negb (w =? 0))) (λ k, rd bitmap k).

Definition __bitmap_full (bitmap : list Z) (bits : Z) : option bool :=
  negb <$> scan_bits bits
    (λ k, w ← rd bitmap k; Some (negb (~64 w =? 0))) (λ k, w ← rd bitmap k; Some (~64 w)).

Definition __bitmap_equal (bitmap1 bitmap2 : list Z) (bits : Z) : option bool :=
  negb <$> scan_bits bits
    (λ k, w1 ← rd bitmap1 k; w2 ← rd bitmap2 k; Some (negb (w1 =? w2)))
    (λ k, w1 ← rd bitmap1 k; w2 ← rd bitmap2 k; Some (w1 .^ w2)).

Definition __bitmap_intersects (bitmap1 bitmap2 : list Z) (bits : Z) : option bool :=
  scan_bits bits
    (λ k, w1 ← rd bitmap1 k; w2 ← rd bitmap2 k; Some (negb (w1 .& w2 =? 0)))
    (λ k, w1 ← rd bitmap1 k; w2 ← rd bitmap2 k; Some (w1 .& w2)).

Definition __bitmap_subset (bitmap1 bitmap2 : list Z) (bits : Z) : option bool :=
  negb <$> scan_bits bits
    (λ k, w1 ← rd bitmap1 k; w2 ← rd bitmap2 k; Some (negb (w1 .& ~64 w2 =? 0)))
    (λ k, w1 ← rd bitmap1 k; w2 ← rd bitmap2 k; Some (w1 .& ~64 w2)).

(** [for (k = lo; k < lo + n; k++) w += hweight_long(bitmap[k]);] *)
Fixpoint weight_words (n : nat) (k : Z) (bitmap : list Z) (w : Z) : option Z :=
  match n with
  | O => Some w
  | S n' => x ← rd bitmap k; weight_words n' (k + 1) bitmap (w + hweight_long x)
  end.

Definition __bitmap_weight (bitmap : list Z) (bits : Z) : option Z :=
  let lim := bits / BITS_PER_LONG in
  w ← weight_words (Z.to_nat lim) 0 bitmap 0;
  if negb (bits `mod` BITS_PER_LONG =? 0) then
    x ← rd bitmap lim; Some (w + hweight_long (x .& BITMAP_LAST_WORD_MASK bits))
  else Some w.

(** ** Word-wise operations through pointers *)

(** [memset(dst, 0, BITS_TO_LONGS(nbits) * sizeof(unsigned long))] *)
Definition memset0 (dst : nat) (from n : Z) : prog heap unit :=
  for_up (Z.to_nat n) from (λ k, store dst k 0).
Definition bitmap_zero (dst : nat) (nbits : Z) : prog heap unit :=
  memset0 dst 0 (BITS_TO_LONGS nbits).

Definition __bitmap_complement (dst src : nat) (bits : Z) : prog heap unit :=
  let lim := bits / BITS_PER_LONG in
  _ ← for_up (Z.to_nat lim) 0 (λ k, w ← load src k; store dst k (~64 w));
  if negb (bits `mod` BITS_PER_LONG =? 0) then
    w ← load src lim; store dst lim (~64 w .& BITMAP_LAST_WORD_MASK bits)
  else mret tt.

Definition __bitmap_and (dst bitmap1 bitmap2 : nat) (bits : Z) : prog heap bool :=
  result ← for_fold (Z.to_nat (BITS_TO_LONGS bits)) 0 0 (λ k result,
    w1 ← load bitmap1 k; w2 ← load bitmap2 k;
    _ ← store dst k (w1 .& w2); mret (result .| (w1 .& w2)));
  mret (negb (result =? 0)).

Definition __bitmap_or (dst bitmap1 bitmap2 : nat) (bits : Z) : prog heap unit :=
  for_up (Z.to_nat (BITS_TO_LONGS bits)) 0 (λ k,
    w1 ← load bitmap1 k; w2 ← load bitmap2 k; store dst k (w1 .| w2)).

Definition __bitmap_xor (dst bitmap1 bitmap2 : nat) (bits : Z) : prog heap unit :=
  for_up (Z.to_nat (BITS_TO_LONGS bits)) 0 (λ k,
    w1 ← load bitmap1 k; w2 ← load bitmap2 k; store dst k (w1 .^ w2)).

Definition __bitmap_andnot (dst bitmap1 bitmap2 : nat) (bits : Z) : prog heap bool :=
  result ← for_fold (Z.to_nat (BITS_TO_LONGS bits)) 0 0 (λ k result,
    w1 ← load bitmap1 k; w2 ← load bitmap2 k;
    _ ← store dst k (w1 .& ~64 w2); mret (result .| (w1 .& ~64 w2)));
  mret (negb (result =? 0)).

(** ** Shifts *)

Definition __bitmap_shift_right (dst src : nat) (shift bits : Z) : prog heap unit :=
  let lim := BITS_TO_LONGS bits in
  let left := bits `mod` BITS_PER_LONG in
  let off := shift / BITS_PER_LONG in
  let rem := shift `mod` BITS_PER_LONG in
  let mask := (1 <<64 left) -64 1 in
  _ ← for_up (Z.to_nat (lim - off)) 0 (λ k,
    upper ← (if (rem =? 0) || (lim <=? off + k + 1) then mret 0
             else
               upper ← load src (off + k + 1);
               mret (if (off + k + 1 =? lim - 1) && negb (left =? 0) then upper .& mask else upper));
    lower ← load src (off + k);
    let lower := if negb (left =? 0) && (off + k =? lim - 1) then lower .& mask else lower in
    _ ← store dst k (lower >>u rem);
    _ ← (if negb (rem =? 0)
         then x ← load dst k; store dst k (x .| (upper <<64 (BITS_PER_LONG - rem)))
         else mret tt);
    if negb (left =? 0) && (k =? lim - 1)
    then x ← load dst k; store dst k (x .& mask)
    else mret tt);
  if negb (off =? 0) then memset0 dst (lim - off) off else mret tt.

Definition __bitmap_shift_left (dst src : nat) (shift bits : Z) : prog heap unit :=
  let lim := BITS_TO_LONGS bits in
  let left := bits `mod` BITS_PER_LONG in
  let off := shift / BITS_PER_LONG in
  let rem := shift `mod` BITS_PER_LONG in
  _ ← for_down (Z.to_nat (lim - off)) (lim - off - 1) (λ k,
    lower ← (if negb (rem =? 0) && (0 <? k) then load src (k - 1) else mret 0);
    upper ← load src k;
    let upper := if negb (left =? 0) && (k =? lim - 1)
                 then upper .& ((1 <<64 left) -64 1) else upper in
    _ ← store dst (k + off) (upper <<64 rem);
    _ ← (if negb (rem =? 0)
         then x ← load dst (k + off); store dst (k + off) (x .| (lower >>u (BITS_PER_LONG - rem)))
         else mret tt);
    if negb (left =? 0) && (k + off =? lim - 1)
    then x ← load dst (k + off); store dst (k + off) (x .& ((1 <<64 left) -64 1))
    else mret tt);
  if negb (off =? 0) then memset0 dst 0 off else mret tt.

(** ** Ranges *)

(** The [while] loop of [bitmap_set] and [bitmap_clear]; [op] is the update of
    a word with a mask.  Returns the array, the word index, the remaining
    count and the mask. *)
Fixpoint range_words (fuel : nat) (op : Z → Z → Z) (map : list Z) (p nr bits mask : Z)
    : option (list Z * Z * Z * Z) :=
  match fuel with
  | O => None
  | S fuel' =>
      if 0 <=? nr - bits then
        w ← rd map p; map' ← wr map p (op w mask);
        range_words fuel' op map' (p + 1) (nr - bits) BITS_PER_LONG ULONG_MAX
      else Some (map, p, nr, mask)
  end.

Definition bitmap_range (op : Z → Z → Z) (map : list Z) (start nr : Z) : option (list Z) :=
  let size := start + nr in
  let bits := BITS_PER_LONG - start `mod` BITS_PER_LONG in
  '(map', p, nr', mask) ← range_words (S (S (Z.to_nat (nr / BITS_PER_LONG)))) op map
                            (BIT_WORD start) nr bits (BITMAP_FIRST_WORD_MASK start);
  if negb (nr' =? 0) then
    w ← rd map' p; wr map' p (op w (mask .& BITMAP_LAST_WORD_MASK size))
  else Some map'.

Definition bitmap_set (map : list Z) (start nr : Z) : option (list Z) :=
  bitmap_range (λ w mask, w .| mask) map start nr.
Definition bitmap_clear (map : list Z) (start nr : Z) : option (list Z) :=
  bitmap_range (λ w mask, w .& ~64 mask) map start nr.

(** [__ALIGN_MASK(x, mask)] *)
Definition __ALIGN_MASK (x mask : Z) : Z := (x +64 mask) .& ~64 mask.

(** [again:] each retry starts after a set bit, so at most [size] of them. *)
Fixpoint find_area (fuel : nat) (map : list Z) (size start nr align_mask : Z) : option Z :=
  match fuel with
  | O => None
  | S fuel' =>
      index ← find_next_zero_bit map size start;
      let index := __ALIGN_MASK index align_mask in
      let end_ := index +64 nr in
      if size <? end_ then Some end_
      else
        i ← find_next_bit map end_ index;
        if i <? end_ then find_area fuel' map size (i +64 1) nr align_mask
        else Some index
  end.

Definition bitmap_find_next_zero_area (map : list Z) (size start nr align_mask : Z) : option Z :=
  find_area (S (Z.to_nat size)) map size start nr align_mask.

(** ** Facts about masks and word counts *)

Lemma low_mask_ones n : 0 ≤ n < 64 → (1 <<64 n) -64 1 = Z.ones n.
Proof.
  intros Hn. rewrite Z.shiftl_1_l.
  assert (0 < 2 ^ n) by lia. assert (2 ^ n < 2 ^ 64) by (apply Z.pow_lt_mono_r; lia).
  rewrite (u64_small (2 ^ n)), u64_small by lia. by rewrite Z.ones_equiv.
Qed.

Lemma testbit_LAST_WORD_MASK bits i :
  bits `mod` 64 ≠ 0 → Z.testbit (BITMAP_LAST_WORD_MASK bits) i = (0 <=? i) && (i <? bits `mod` 64).
Proof.
  intros Hne. unfold BITMAP_LAST_WORD_MASK, BITS_PER_LONG.
  destruct (Z.eqb_spec (bits `mod` 64) 0) as [E|E]; [done|]; simpl negb; cbv iota.
  assert (0 ≤ bits `mod` 64 < 64) by (apply Z.mod_pos_bound; lia).
  rewrite low_mask_ones by lia. by rewrite testbit_ones by lia.
Qed.

Lemma LAST_WORD_MASK_range bits : is_u64 (BITMAP_LAST_WORD_MASK bits).
Proof.
  unfold BITMAP_LAST_WORD_MASK. case_match; [apply u64_range|unfold ULONG_MAX; lia].
Qed.
#[export] Hint Resolve LAST_WORD_MASK_range : bits.

Lemma BITS_TO_LONGS_bounds bits :
  0 ≤ bits → 64 * BITS_TO_LONGS bits - 64 < bits ≤ 64 * BITS_TO_LONGS bits.
Proof. intros. unfold BITS_TO_LONGS, BITS_PER_LONG. dlia. Qed.

(** ** Correctness of the predicates *)

Lemma any_word_spec n k test (f : Z → bool) :
  (∀ i, k ≤ i < k + Z.of_nat n → test i = Some (f i)) →
  ∃ b, any_word n k test = Some b ∧ (b = true ↔ ∃ i, k ≤ i < k + Z.of_nat n ∧ f i = true).
Proof.
  revert k. induction n as [|n IH]; intros k H; cbn [any_word].
  - exists false. split; [done|]. split; [done|]. intros (i & Hi & _). lia.
  - rewrite H by lia. cbn [mbind option_bind]. destruct (f k) eqn:E.
    + exists true. split; [done|]. split; [|done]. intros _. exists k. split; [lia|done].
    + destruct (IH (k + 1)) as (b & -> & Hb); [intros; apply H; lia|].
      exists b. split; [done|]. rewrite Hb. split.
      * intros (i & Hi & Hf). exists i. split; [lia|done].
      * intros (i & Hi & Hf). exists i. split; [|done].
        destruct (decide (i = k)) as [->|]; [congruence|lia].
Qed.

(** When word [k] of the scan is [f k], whose bits are those of [P], the scan
    decides whether some bit below [bits] satisfies [P]. *)
Lemma scan_bits_spec bits whole last (f : Z → Z) (P : Z → bool) :
  0 ≤ bits →
  (∀ k, 0 ≤ k < BITS_TO_LONGS bits →
     whole k = Some (negb (f k =? 0)) ∧ last k = Some (f k) ∧ is_u64 (f k) ∧
     ∀ j, 0 ≤ j < 64 → Z.testbit (f k) j = P (64 * k + j)) →
  ∃ b, scan_bits bits whole last = Some b ∧ (b = true ↔ ∃ i, 0 ≤ i < bits ∧ P i = true).
Proof.
  intros Hbits Hf. pose proof (BITS_TO_LONGS_bounds bits Hbits) as Hlongs.
  unfold scan_bits, BITS_PER_LONG.
  destruct (any_word_spec (Z.to_nat (bits / 64)) 0 whole (λ k, negb (f k =? 0))) as (b & -> & Hb).
  { intros k Hk. apply Hf. dlia. }
  rewrite Z2Nat.id in Hb by dlia. cbn [mbind option_bind].
  assert (Hword : ∀ k, 0 ≤ k < bits / 64 → f k ≠ 0 → ∃ i, 0 ≤ i < bits ∧ P i = true).
  { intros k Hk Hne. destruct (Hf k) as (_ & _ & Hr & HP); [dlia|].
    destruct (nonzero_bit 64 (f k) Hr Hne) as (j & Hj & Ht).
    exists (64 * k + j). split; [dlia|]. by rewrite <- HP. }
  assert (Hbits_in : ∀ i, 0 ≤ i < 64 * (bits / 64) → P i = true → b = true).
  { intros i Hi HPi. apply Hb. exists (i / 64). split; [dlia|].
    destruct (Hf (i / 64)) as (_ & _ & Hr & HP); [dlia|].
    rewrite negb_true_iff, Z.eqb_neq. intros E.
    specialize (HP (i `mod` 64)). rewrite <- Z.div_mod, HPi, E, Z.bits_0 in HP by lia.
    enough (false = true) by done. apply HP. apply Z.mod_pos_bound. lia. }
  destruct b.
  - exists true. split; [done|]. split; [|done]. intros _.
    destruct (proj1 Hb eq_refl) as (k & Hk & Hne).
    rewrite negb_true_iff, Z.eqb_neq in Hne. apply (Hword k); [lia|done].
  - destruct (Z.eqb_spec (bits `mod` 64) 0) as [E|E]; cbn [negb].
    + exists false. split; [done|]. split; [done|]. intros (i & Hi & HPi).
      apply (Hbits_in i); [dlia|done].
    + destruct (Hf (bits / 64)) as (_ & -> & Hr & HP); [dlia|]. cbn [mbind option_bind].
      set (t := f _ .& _). assert (Ht : is_u64 t) by (unfold t; auto with bits).
      assert (Hbit : ∀ j, 0 ≤ j < 64 → Z.testbit t j = (j <? bits `mod` 64) && P (64 * (bits / 64) + j)).
      { intros j Hj. unfold t. rewrite Z.land_spec, testbit_LAST_WORD_MASK, HP by done.
        destruct (Z.leb_spec 0 j); [|lia]. apply andb_comm. }
      eexists. split; [done|]. rewrite negb_true_iff, Z.eqb_neq. split.
      * intros Hne. destruct (nonzero_bit 64 t Ht Hne) as (j & Hj & Htj).
        rewrite Hbit, andb_true_iff, Z.ltb_lt in Htj by done.
        exists (64 * (bits / 64) + j). split; [dlia|tauto].
      * intros (i & Hi & HPi) E0. destruct (decide (i < 64 * (bits / 64))).
        { enough (false = true) by done. apply (Hbits_in i); [lia|done]. }
        specialize (Hbit (i - 64 * (bits / 64))). rewrite E0, Z.bits_0 in Hbit.
        replace (64 * (bits / 64) + (i - 64 * (bits / 64))) with i in Hbit by lia.
        rewrite HPi in Hbit. revert Hbit. bool_compare; [|dlia].
        simpl. intros Hbit. enough (false = true) by done. apply Hbit. dlia.
Qed.

(** A bitmap of [bits] bits: well-formed words, enough of them. *)
Definition bitmap_ok (bm : list Z) (bits : Z) : Prop :=
  wf_words bm ∧ 0 ≤ bits ≤ 64 * zlen bm.

Lemma bitmap_ok_word bm bits k :
  bitmap_ok bm bits → 0 ≤ k < BITS_TO_LONGS bits → ∃ w, rd bm k = Some w ∧ is_u64 w.
Proof.
  intros [Hwf Hb] Hk. pose proof (BITS_TO_LONGS_bounds bits ltac:(lia)).
  destruct (rd_in bm k) as [w Hw]; [lia|]. exists w. split; [done|]. by eapply words_range.
Qed.

(** The value of word [k], for use where it is known to exist. *)
Definition word_at (bm : list Z) (k : Z) : Z := default 0 (rd bm k).

Lemma word_at_ok bm bits k :
  bitmap_ok bm bits → 0 ≤ k < BITS_TO_LONGS bits →
  rd bm k = Some (word_at bm k) ∧ is_u64 (word_at bm k) ∧
  ∀ j, 0 ≤ j < 64 → Z.testbit (word_at bm k) j = bm_bit bm (64 * k + j).
Proof.
  intros Hok Hk. destruct (bitmap_ok_word _ _ _ Hok Hk) as (w & Hw & Hr).
  unfold word_at. rewrite Hw. simpl. split; [done|]. split; [done|].
  intros j Hj. by rewrite (bm_bit_word bm k j w).
Qed.

Lemma not_exists_false (P : Z → bool) bits b :
  (b = true ↔ ∃ i, 0 ≤ i < bits ∧ P i = true) →
  (negb b = true ↔ ∀ i, 0 ≤ i < bits → P i = false).
Proof.
  intros Hb. rewrite negb_true_iff. split.
  - intros -> i Hi. destruct (P i) eqn:E; [|done]. symmetry. apply Hb. eauto.
  - intros Hall. destruct b; [|done]. destruct (proj1 Hb eq_refl) as (i & Hi & HP).
    rewrite Hall in HP; done.
Qed.

Ltac scan_solve f P :=
  match goal with
  | |- context [scan_bits ?bits ?whole ?last] =>
      let b := fresh "b" in let Hb := fresh "Hb" in
      destruct (scan_bits_spec bits whole last f P) as (b & -> & Hb)
  end.

Lemma xor_zero_iff w1 w2 : (w1 =? w2) = (w1 .^ w2 =? 0).
Proof.
  destruct (Z.eqb_spec w1 w2) as [->|Hne]; [by rewrite Z.lxor_nilpotent|].
  symmetry. apply Z.eqb_neq. intros E. by apply Z.lxor_eq in E.
Qed.

Lemma __bitmap_empty_ok bm bits :
  bitmap_ok bm bits →
  ∃ b, __bitmap_empty bm bits = Some b ∧ (b = true ↔ ∀ i, 0 ≤ i < bits → bm_bit bm i = false).
Proof.
  intros Hok. unfold __bitmap_empty. scan_solve (word_at bm) (bm_bit bm).
  - apply Hok.
  - intros k Hk. destruct (word_at_ok _ _ _ Hok Hk) as (-> & Hr & HP). done.
  - simpl. eexists. split; [done|]. by apply not_exists_false.
Qed.

Lemma __bitmap_full_ok bm bits :
  bitmap_ok bm bits →
  ∃ b, __bitmap_full bm bits = Some b ∧ (b = true ↔ ∀ i, 0 ≤ i < bits → bm_bit bm i = true).
Proof.
  intros Hok. unfold __bitmap_full.
  scan_solve (λ k, ~64 (word_at bm k)) (λ i, negb (bm_bit bm i)).
  - apply Hok.
  - intros k Hk. destruct (word_at_ok _ _ _ Hok Hk) as (-> & Hr & HP).
    split; [done|]. split; [done|]. split; [apply u64_range|].
    intros j Hj. rewrite <- HP by done. autorewrite with bits. by bool_compare.
  - simpl. eexists. split; [done|]. rewrite (not_exists_false _ _ _ Hb).
    setoid_rewrite negb_false_iff. done.
Qed.

Lemma __bitmap_equal_ok bm1 bm2 bits :
  bitmap_ok bm1 bits → bitmap_ok bm2 bits →
  ∃ b, __bitmap_equal bm1 bm2 bits = Some b ∧
       (b = true ↔ ∀ i, 0 ≤ i < bits → bm_bit bm1 i = bm_bit bm2 i).
Proof.
  intros Hok1 Hok2. unfold __bitmap_equal.
  scan_solve (λ k, word_at bm1 k .^ word_at bm2 k) (λ i, xorb (bm_bit bm1 i) (bm_bit bm2 i)).
  - apply Hok1.
  - intros k Hk. destruct (word_at_ok _ _ _ Hok1 Hk) as (-> & Hr1 & HP1).
    destruct (word_at_ok _ _ _ Hok2 Hk) as (-> & Hr2 & HP2). cbn [mbind option_bind].
    rewrite xor_zero_iff. split; [done|]. split; [done|]. split; [auto with bits|].
    intros j Hj. by rewrite Z.lxor_spec, HP1, HP2.
  - simpl. eexists. split; [done|]. rewrite (not_exists_false _ _ _ Hb).
    split; intros H i Hi; specialize (H i Hi); [by apply xorb_eq|].
    rewrite H. apply xorb_nilpotent.
Qed.

Lemma __bitmap_intersects_ok bm1 bm2 bits :
  bitmap_ok bm1 bits → bitmap_ok bm2 bits →
  ∃ b, __bitmap_intersects bm1 bm2 bits = Some b ∧
       (b = true ↔ ∃ i, 0 ≤ i < bits ∧ bm_bit bm1 i && bm_bit bm2 i = true).
Proof.
  intros Hok1 Hok2. unfold __bitmap_intersects.
  scan_solve (λ k, word_at bm1 k .& word_at bm2 k) (λ i, bm_bit bm1 i && bm_bit bm2 i).
  - apply Hok1.
  - intros k Hk. destruct (word_at_ok _ _ _ Hok1 Hk) as (-> & Hr1 & HP1).
    destruct (word_at_ok _ _ _ Hok2 Hk) as (-> & Hr2 & HP2). cbn [mbind option_bind].
    split; [done|]. split; [done|]. split; [auto with bits|].
    intros j Hj. by rewrite Z.land_spec, HP1, HP2.
  - eexists. split; [done|]. done.
Qed.

Lemma __bitmap_subset_ok bm1 bm2 bits :
  bitmap_ok bm1 bits → bitmap_ok bm2 bits →
  ∃ b, __bitmap_subset bm1 bm2 bits = Some b ∧
       (b = true ↔ ∀ i, 0 ≤ i < bits → bm_bit bm1 i = true → bm_bit bm2 i = true).
Proof.
  intros Hok1 Hok2. unfold __bitmap_subset.
  scan_solve (λ k, word_at bm1 k .& ~64 (word_at bm2 k)) (λ i, bm_bit bm1 i && negb (bm_bit bm2 i)).
  - apply Hok1.
  - intros k Hk. destruct (word_at_ok _ _ _ Hok1 Hk) as (-> & Hr1 & HP1).
    destruct (word_at_ok _ _ _ Hok2 Hk) as (-> & Hr2 & HP2). cbn [mbind option_bind].
    split; [done|]. split; [done|]. split; [auto with bits|].
    intros j Hj. rewrite Z.land_spec, testbit_u64, testbit_lnot, HP1, HP2 by done. by bool_compare.
  - simpl. eexists. split; [done|]. rewrite (not_exists_false _ _ _ Hb).
    split; intros H i Hi; specialize (H i Hi); destruct (bm_bit bm1 i), (bm_bit bm2 i); naive_solver.
Qed.

(** ** Correctness of the weight *)

Lemma weight_words_ok n k bm w :
  wf_words bm → 0 ≤ k → k + Z.of_nat n ≤ zlen bm →
  weight_words n k bm w = Some (w + count (bm_bit bm) (64 * k) (64 * n)).
Proof.
  intros Hwf. revert k w. induction n as [|n IH]; intros k w Hk Hlen; cbn [weight_words].
  - f_equal. simpl. lia.
  - destruct (rd_in bm k) as [x Hx]; [lia|]. rewrite Hx. cbn [mbind option_bind].
    rewrite IH by lia. f_equal. replace (64 * S n)%nat with (64 + 64 * n)%nat by lia.
    rewrite count_app. unfold hweight_long.
    rewrite __sw_hweight64_spec by (by eapply words_range).
    replace (count (bm_bit bm) (64 * k) 64) with (count (Z.testbit x) 0 64).
    + change (Z.of_nat 64) with 64. replace (64 * k + 64) with (64 * (k + 1)) by lia. lia.
    + replace (64 * k) with (0 + 64 * k) by lia. rewrite <- count_shift.
      apply count_ext. intros i Hi. rewrite Z.add_comm. symmetry. by apply bm_bit_word.
Qed.

Lemma __bitmap_weight_ok bm bits :
  bitmap_ok bm bits → __bitmap_weight bm bits = Some (count (bm_bit bm) 0 (Z.to_nat bits)).
Proof.
  intros [Hwf Hb]. unfold __bitmap_weight, BITS_PER_LONG.
  rewrite weight_words_ok by (done || dlia). cbn [mbind option_bind].
  rewrite Z.mul_0_r, Z.add_0_l.
  destruct (Z.eqb_spec (bits `mod` 64) 0) as [E|E]; cbn [negb].
  - do 2 f_equal. dlia.
  - destruct (rd_in bm (bits / 64)) as [x Hx]; [dlia|]. rewrite Hx. cbn [mbind option_bind].
    pose proof (words_range _ _ _ Hwf Hx). f_equal.
    replace (Z.to_nat bits) with (64 * Z.to_nat (bits / 64) + Z.to_nat (bits `mod` 64))%nat by dlia.
    rewrite count_app, Z.add_0_l. f_equal. unfold hweight_long.
    rewrite __sw_hweight64_spec by auto with bits.
    replace 64%nat with (Z.to_nat (bits `mod` 64) + (64 - Z.to_nat (bits `mod` 64)))%nat at 1 by dlia.
    rewrite count_app, Z.add_0_l.
    match goal with |- count ?P 0 ?n + count ?P ?lo ?m = _ =>
      rewrite (proj2 (count_zero P lo m)), Z.add_0_r end.
    + replace (Z.of_nat (64 * Z.to_nat (bits / 64))) with (0 + 64 * (bits / 64)) by dlia.
      rewrite <- count_shift. apply count_ext. intros i Hi.
      rewrite Z.land_spec, testbit_LAST_WORD_MASK by done.
      rewrite Z.add_comm, (bm_bit_word bm _ i x) by (done || dlia).
      bool_compare; by rewrite andb_true_r.
    + intros i Hi. rewrite Z.land_spec, testbit_LAST_WORD_MASK by done.
      bool_compare; by rewrite ?andb_false_r.
Qed.

(** ** Arrays being overwritten

    [fill lo hi f w] is [w] with the words of [lo, hi) replaced by [f]: the
    destination of a loop that has written the words of that range. *)

Definition fill (lo hi : Z) (f : Z → Z) (w : list Z) : list Z :=
  imap (λ i x, if (lo <=? Z.of_nat i) && (Z.of_nat i <? hi) then f (Z.of_nat i) else x) w.

Lemma length_fill lo hi f w : length (fill lo hi f w) = length w.
Proof. apply length_imap. Qed.

Lemma rd_fill lo hi f w i :
  0 ≤ i < zlen w →
  rd (fill lo hi f w) i = Some (if (lo <=? i) && (i <? hi) then f i else word_at w i).
Proof.
  intros Hi. unfold word_at. destruct (rd_in w i Hi) as [x Hx]. rewrite Hx. simpl.
  unfold rd in *. destruct (Z.leb_spec 0 i); [|lia].
  unfold fill. rewrite list_lookup_imap, Hx. simpl. by rewrite Z2Nat.id by lia.
Qed.

Lemma fill_empty lo hi f w : hi ≤ lo → fill lo hi f w = w.
Proof.
  intros. apply rd_ext; [apply length_fill|]. rewrite length_fill. intros i Hi.
  rewrite rd_fill by done. unfold word_at. destruct (rd_in w i Hi) as [x ->]. by bool_compare.
Qed.

Lemma fill_up lo k f w x :
  lo ≤ k → 0 ≤ k < zlen w → x = f k →
  <[Z.to_nat k := x]> (fill lo k f w) = fill lo (k + 1) f w.
Proof.
  intros Hlo Hk ->. apply rd_ext; [by rewrite length_insert, !length_fill|].
  rewrite length_insert, length_fill. intros i Hi.
  rewrite rd_insert, !rd_fill by (rewrite ?length_fill; lia). bool_compare; subst; done.
Qed.

Lemma fill_down k hi f w x :
  k < hi → 0 ≤ k < zlen w → x = f k →
  <[Z.to_nat k := x]> (fill (k + 1) hi f w) = fill k hi f w.
Proof.
  intros Hlo Hk ->. apply rd_ext; [by rewrite length_insert, !length_fill|].
  rewrite length_insert, length_fill. intros i Hi.
  rewrite rd_insert, !rd_fill by (rewrite ?length_fill; lia). bool_compare; subst; done.
Qed.

(** Reading array [b] at an index the loop has not written yet, whether or not
    [b] is the destination. *)
Lemma wp_load_fill dst wd lo hi f b w i (Q : Z → heap → Prop) h :
  h !! dst = Some wd → h !! b = Some w → 0 ≤ i < zlen w → ¬ lo ≤ i < hi →
  Q (word_at w i) (<[dst := fill lo hi f wd]> h) →
  wp (load b i) Q (<[dst := fill lo hi f wd]> h).
Proof.
  intros Hd Hb Hi Hout HQ. destruct (decide (b = dst)) as [->|Hne].
  - assert (wd = w) as -> by congruence.
    eapply wp_load; [apply lookup_insert_eq|by apply rd_fill|]. by bool_compare.
  - eapply wp_load; [by rewrite lookup_insert_ne| |done].
    unfold word_at. by destruct (rd_in w i Hi) as [x ->].
Qed.

Lemma bm_bit_fill lo hi f w i :
  0 ≤ i < 64 * zlen w →
  bm_bit (fill lo hi f w) i =
    if (lo <=? i / 64) && (i / 64 <? hi) then Z.testbit (f (i / 64)) (i `mod` 64) else bm_bit w i.
Proof.
  intros Hi. unfold bm_bit. rewrite rd_fill by dlia. unfold word_at.
  destruct (rd_in w (i / 64)) as [x ->]; [dlia|]. simpl. by case_match.
Qed.

Lemma wf_fill lo hi f w :
  wf_words w → (∀ i, lo ≤ i < hi → 0 ≤ i < zlen w → is_u64 (f i)) → wf_words (fill lo hi f w).
Proof.
  intros Hw Hf. apply Forall_lookup. intros i x Hx.
  assert (Hlen : (i < length w)%nat) by (apply lookup_lt_Some in Hx; by rewrite length_fill in Hx).
  rewrite <- rd_nat, rd_fill in Hx by lia. injection Hx as <-.
  destruct (Z.leb_spec lo (Z.of_nat i)), (Z.ltb_spec (Z.of_nat i) hi); simpl; try (apply Hf; lia);
    unfold word_at; destruct (rd_in w (Z.of_nat i)) as [y Hy]; try lia; rewrite Hy; simpl;
    by eapply words_range.
Qed.

(** A loop that stores [f k] into [dst[k]] for [k] from [lo] up to [hi]. *)
Lemma wp_fill_up (body : Z → prog heap unit) dst f wd lo n h (Q : unit → heap → Prop) :
  h !! dst = Some wd → 0 ≤ lo → lo + Z.of_nat n ≤ zlen wd →
  (∀ k, lo ≤ k < lo + Z.of_nat n →
     wp (body k) (λ _ h', h' = <[dst := <[Z.to_nat k := f k]> (fill lo k f wd)]> h)
        (<[dst := fill lo k f wd]> h)) →
  Q tt (<[dst := fill lo (lo + Z.of_nat n) f wd]> h) →
  wp (for_up n lo body) Q h.
Proof.
  intros Hd Hlo Hlen Hbody HQ.
  apply (wp_for_up (λ k h', h' = <[dst := fill lo k f wd]> h)).
  - rewrite fill_empty by lia. symmetry. by apply insert_id.
  - intros k h' Hk ->. eapply wp_mono; [by apply Hbody|]. intros _ h'' ->.
    by rewrite fill_up by (done || lia).
  - by intros h' ->.
Qed.

Lemma wp_fill_down (body : Z → prog heap unit) dst f wd d top n h (Q : unit → heap → Prop) :
  h !! dst = Some wd → top + d < zlen wd → 0 ≤ top + d - Z.of_nat n + 1 →
  (∀ k, top - Z.of_nat n < k ≤ top →
     wp (body k) (λ _ h', h' = <[dst := <[Z.to_nat (k + d) := f (k + d)]> (fill (k + d + 1) (top + d + 1) f wd)]> h)
        (<[dst := fill (k + d + 1) (top + d + 1) f wd]> h)) →
  Q tt (<[dst := fill (top + d + 1 - Z.of_nat n) (top + d + 1) f wd]> h) →
  wp (for_down n top body) Q h.
Proof.
  intros Hd Hlo Hlen Hbody HQ.
  apply (wp_for_down (λ k h', h' = <[dst := fill (k + d + 1) (top + d + 1) f wd]> h)).
  - rewrite fill_empty by lia. symmetry. by apply insert_id.
  - intros k h' Hk ->. eapply wp_mono; [by apply Hbody|]. intros _ h'' ->.
    rewrite fill_down by (done || lia). by replace (k - 1 + d + 1) with (k + d) by lia.
  - intros h' ->. by replace (top - Z.of_nat n + d + 1) with (top + d + 1 - Z.of_nat n) by lia.
Qed.

Lemma wp_memset0 dst wd from n h (Q : unit → heap → Prop) :
  h !! dst = Some wd → 0 ≤ from → 0 ≤ n → from + n ≤ zlen wd →
  Q tt (<[dst := fill from (from + n) (λ _, 0) wd]> h) →
  wp (memset0 dst from n) Q h.
Proof.
  intros Hd Hf Hn Hlen HQ. unfold memset0. eapply wp_fill_up; [done|done|lia| |].
  - intros k Hk. eapply wp_store; [apply lookup_insert_eq|rewrite length_fill; lia|].
    by rewrite insert_insert_eq.
  - by rewrite Z2Nat.id by lia.
Qed.

(** [writes h dst bits F h']: [h'] is [h] with the words of [dst] that hold the
    first [bits] bits overwritten, bit [i] of them (the unused bits of the last
    word included) being [F i]; nothing else is changed. *)
Definition writes (h : heap) (dst : nat) (bits : Z) (F : Z → bool) (h' : heap) : Prop :=
  ∃ wd wd', h !! dst = Some wd ∧ h' = <[dst := wd']> h ∧ length wd' = length wd ∧ wf_words wd' ∧
    (∀ i, 0 ≤ i < 64 * BITS_TO_LONGS bits → bm_bit wd' i = F i) ∧
    (∀ i, 64 * BITS_TO_LONGS bits ≤ i < 64 * zlen wd → bm_bit wd' i = bm_bit wd i).

Notation has h p w bits := (h !! p = Some w ∧ bitmap_ok w bits).

Lemma writes_fill h dst wd bits f F :
  has h dst wd bits →
  (∀ k, 0 ≤ k < BITS_TO_LONGS bits →
     is_u64 (f k) ∧ ∀ j, 0 ≤ j < 64 → Z.testbit (f k) j = F (64 * k + j)) →
  writes h dst bits F (<[dst := fill 0 (BITS_TO_LONGS bits) f wd]> h).
Proof.
  intros [Hd [Hwf Hb]] Hf. pose proof (BITS_TO_LONGS_bounds bits ltac:(lia)).
  exists wd, (fill 0 (BITS_TO_LONGS bits) f wd).
  split; [done|]. split; [done|]. split; [apply length_fill|].
  split; [apply wf_fill; [done|]; intros; by apply Hf|]. split; intros i Hi.
  - rewrite bm_bit_fill by lia. destruct (Hf (i / 64)) as [_ HF]; [dlia|].
    rewrite HF by (apply Z.mod_pos_bound; lia). rewrite <- Z.div_mod by lia.
    assert (0 ≤ i / 64 < BITS_TO_LONGS bits) by dlia. by bool_compare.
  - rewrite bm_bit_fill by lia. assert (BITS_TO_LONGS bits ≤ i / 64) by dlia. by bool_compare.
Qed.

Lemma writes_ext h dst bits F G h' :
  (∀ i, 0 ≤ i < 64 * BITS_TO_LONGS bits → F i = G i) → writes h dst bits F h' → writes h dst bits G h'.
Proof.
  intros HFG (wd & wd' & ? & ? & ? & ? & HF & ?). exists wd, wd'.
  do 4 (split; [done|]). split; [|done]. intros i Hi. rewrite HF by done. by apply HFG.
Qed.

Lemma word_at_range w bits k : bitmap_ok w bits → 0 ≤ k < BITS_TO_LONGS bits → is_u64 (word_at w k).
Proof. intros Hok Hk. by destruct (word_at_ok _ _ _ Hok Hk) as (_ & ? & _). Qed.

Lemma longs_le_len w bits : bitmap_ok w bits → BITS_TO_LONGS bits ≤ zlen w.
Proof. intros [_ Hb]. pose proof (BITS_TO_LONGS_bounds bits ltac:(lia)). lia. Qed.

Lemma longs_nonneg bits : 0 ≤ bits → 0 ≤ BITS_TO_LONGS bits.
Proof. intros. unfold BITS_TO_LONGS, BITS_PER_LONG. dlia. Qed.

(** [dst[k] = op(bitmap1[k], bitmap2[k])] for all words, in any aliasing. *)
Lemma wp_pointwise (op : Z → Z → Z) (opb : bool → bool → bool) dst b1 b2 wd w1 w2 bits h :
  has h dst wd bits → has h b1 w1 bits → has h b2 w2 bits →
  (∀ x y, is_u64 x → is_u64 y → is_u64 (op x y)) →
  (∀ x y j, 0 ≤ j < 64 → Z.testbit (op x y) j = opb (Z.testbit x j) (Z.testbit y j)) →
  wp (for_up (Z.to_nat (BITS_TO_LONGS bits)) 0 (λ k,
        x ← load b1 k; y ← load b2 k; store dst k (op x y)))
     (λ _, writes h dst bits (λ i, opb (bm_bit w1 i) (bm_bit w2 i))) h.
Proof.
  intros [Hd Hokd] [H1 Hok1] [H2 Hok2] Hr Hop.
  pose proof (longs_le_len _ _ Hokd). pose proof (longs_le_len _ _ Hok1).
  pose proof (longs_le_len _ _ Hok2). pose proof (longs_nonneg bits (proj1 (proj2 Hokd))).
  eapply (wp_fill_up _ dst (λ k, op (word_at w1 k) (word_at w2 k)) wd); [done|done|lia| |].
  - intros k Hk.
    apply wp_bind. eapply (wp_load_fill dst wd); [done|done|lia|lia|].
    apply wp_bind. eapply (wp_load_fill dst wd); [done|done|lia|lia|].
    eapply wp_store; [apply lookup_insert_eq|rewrite length_fill; lia|]. by rewrite insert_insert_eq.
  - rewrite Z2Nat.id by done. simpl. apply writes_fill; [done|]. intros k Hk.
    split; [apply Hr; by eapply word_at_range|]. intros j Hj. rewrite Hop by done.
    destruct (word_at_ok _ _ _ Hok1 Hk) as (_ & _ & E1).
    destruct (word_at_ok _ _ _ Hok2 Hk) as (_ & _ & E2). by rewrite E1, E2.
Qed.

Lemma __bitmap_or_ok dst b1 b2 wd w1 w2 bits h :
  has h dst wd bits → has h b1 w1 bits → has h b2 w2 bits →
  wp (__bitmap_or dst b1 b2 bits) (λ _, writes h dst bits (λ i, bm_bit w1 i || bm_bit w2 i)) h.
Proof.
  intros Hd H1 H2. apply (wp_pointwise Z.lor orb dst b1 b2 wd w1 w2); auto with bits.
  intros. apply Z.lor_spec.
Qed.

Lemma __bitmap_xor_ok dst b1 b2 wd w1 w2 bits h :
  has h dst wd bits → has h b1 w1 bits → has h b2 w2 bits →
  wp (__bitmap_xor dst b1 b2 bits) (λ _, writes h dst bits (λ i, xorb (bm_bit w1 i) (bm_bit w2 i))) h.
Proof.
  intros Hd H1 H2. apply (wp_pointwise Z.lxor xorb dst b1 b2 wd w1 w2); auto with bits.
  intros. apply Z.lxor_spec.
Qed.

(** The same with the disjunction of all results accumulated. *)
Lemma wp_pointwise_result (op : Z → Z → Z) (opb : bool → bool → bool) dst b1 b2 wd w1 w2 bits h :
  has h dst wd bits → has h b1 w1 bits → has h b2 w2 bits →
  (∀ x y, is_u64 x → is_u64 y → is_u64 (op x y)) →
  (∀ x y j, 0 ≤ j < 64 → Z.testbit (op x y) j = opb (Z.testbit x j) (Z.testbit y j)) →
  wp (result ← for_fold (Z.to_nat (BITS_TO_LONGS bits)) 0 0 (λ k result,
        x ← load b1 k; y ← load b2 k; _ ← store dst k (op x y); mret (result .| op x y));
      mret (negb (result =? 0)))
     (λ r h', writes h dst bits (λ i, opb (bm_bit w1 i) (bm_bit w2 i)) h' ∧
        (r = true ↔ ∃ i, 0 ≤ i < 64 * BITS_TO_LONGS bits ∧ opb (bm_bit w1 i) (bm_bit w2 i) = true)) h.
Proof.
  intros [Hd Hokd] [H1 Hok1] [H2 Hok2] Hr Hop.
  pose proof (longs_le_len _ _ Hokd). pose proof (longs_le_len _ _ Hok1).
  pose proof (longs_le_len _ _ Hok2). pose proof (longs_nonneg bits (proj1 (proj2 Hokd))) as Hnn.
  set (f k := op (word_at w1 k) (word_at w2 k)).
  assert (Hf : ∀ k, 0 ≤ k < BITS_TO_LONGS bits → is_u64 (f k) ∧
            ∀ j, 0 ≤ j < 64 → Z.testbit (f k) j = opb (bm_bit w1 (64 * k + j)) (bm_bit w2 (64 * k + j))).
  { intros k Hk. unfold f. split; [apply Hr; by eapply word_at_range|]. intros j Hj.
    rewrite Hop by done. destruct (word_at_ok _ _ _ Hok1 Hk) as (_ & _ & E1).
    destruct (word_at_ok _ _ _ Hok2 Hk) as (_ & _ & E2). by rewrite E1, E2. }
  apply wp_bind. eapply (wp_for_fold (λ k acc h', h' = <[dst := fill 0 k f wd]> h ∧
     (acc = 0 ↔ ∀ k', 0 ≤ k' < k → f k' = 0))).
  - split; [rewrite fill_empty by lia; symmetry; by apply insert_id|]. split; [intros; lia|done].
  - intros k acc h' Hk [-> Hacc].
    apply wp_bind. eapply (wp_load_fill dst wd); [done|done|lia|lia|].
    apply wp_bind. eapply (wp_load_fill dst wd); [done|done|lia|lia|].
    apply wp_bind. eapply wp_store; [apply lookup_insert_eq|rewrite length_fill; lia|].
    apply wp_ret. rewrite insert_insert_eq. fold (f k). split; [by rewrite fill_up by (done || lia)|].
    rewrite Z.lor_eq_0_iff, Hacc. split.
    + intros [Ha Hk0] k' Hk'. destruct (decide (k' = k)) as [->|]; [done|]. apply Ha. lia.
    + intros Ha. split; [intros; apply Ha; lia|apply Ha; lia].
  - intros acc h' [-> Hacc]. rewrite Z2Nat.id in * by done. simpl in *. apply wp_ret.
    split; [by apply writes_fill|]. rewrite negb_true_iff, Z.eqb_neq, Hacc. split.
    + intros Hne. destruct (decide (Exists (λ k, f k ≠ 0) (seqZ 0 (BITS_TO_LONGS bits)))) as [HE|HE].
      * apply Exists_exists in HE as (k & Hk%elem_of_seqZ & Hk0).
        destruct (Hf k) as [Hr' HF]; [lia|]. destruct (nonzero_bit 64 (f k) Hr' Hk0) as (j & Hj & Ht).
        exists (64 * k + j). split; [lia|]. by rewrite <- HF.
      * exfalso. apply Hne. intros k Hk. destruct (decide (f k = 0)); [done|].
        exfalso. apply HE, Exists_exists. exists k. split; [apply elem_of_seqZ; lia|done].
    + intros (i & Hi & HP) Hall. destruct (Hf (i / 64)) as [_ HF]; [dlia|].
      specialize (HF (i `mod` 64)). rewrite Hall, Z.bits_0, <- Z.div_mod, HP in HF by dlia.
      enough (false = true) by done. apply HF. apply Z.mod_pos_bound. lia.
Qed.

Lemma testbit_andnot x y j :
  0 ≤ j < 64 → Z.testbit (x .& ~64 y) j = Z.testbit x j && negb (Z.testbit y j).
Proof. intros. autorewrite with bits. by bool_compare. Qed.

Lemma __bitmap_and_ok dst b1 b2 wd w1 w2 bits h :
  has h dst wd bits → has h b1 w1 bits → has h b2 w2 bits →
  wp (__bitmap_and dst b1 b2 bits) (λ r h',
    writes h dst bits (λ i, bm_bit w1 i && bm_bit w2 i) h' ∧
    (r = true ↔ ∃ i, 0 ≤ i < 64 * BITS_TO_LONGS bits ∧ bm_bit w1 i && bm_bit w2 i = true)) h.
Proof.
  intros Hd H1 H2. apply (wp_pointwise_result Z.land andb dst b1 b2 wd w1 w2); auto with bits.
  intros. apply Z.land_spec.
Qed.

Lemma __bitmap_andnot_ok dst b1 b2 wd w1 w2 bits h :
  has h dst wd bits → has h b1 w1 bits → has h b2 w2 bits →
  wp (__bitmap_andnot dst b1 b2 bits) (λ r h',
    writes h dst bits (λ i, bm_bit w1 i && negb (bm_bit w2 i)) h' ∧
    (r = true ↔ ∃ i, 0 ≤ i < 64 * BITS_TO_LONGS bits ∧ bm_bit w1 i && negb (bm_bit w2 i) = true)) h.
Proof.
  intros Hd H1 H2.
  apply (wp_pointwise_result (λ x y, x .& ~64 y) (λ a b, a && negb b) dst b1 b2 wd w1 w2);
    auto with bits. intros. by apply testbit_andnot.
Qed.

Lemma whole_and_part bits :
  0 ≤ bits → BITS_TO_LONGS bits = if bits `mod` 64 =? 0 then bits / 64 else bits / 64 + 1.
Proof.
  intros. unfold BITS_TO_LONGS, BITS_PER_LONG. destruct (Z.eqb_spec (bits `mod` 64) 0); dlia.
Qed.

Lemma __bitmap_complement_ok dst src wd ws bits h :
  has h dst wd bits → has h src ws bits →
  wp (__bitmap_complement dst src bits)
     (λ _, writes h dst bits (λ i, (i <? bits) && negb (bm_bit ws i))) h.
Proof.
  intros [Hd Hokd] [Hs Hoks]. pose proof (longs_le_len _ _ Hokd). pose proof (longs_le_len _ _ Hoks).
  assert (Hb : 0 ≤ bits) by apply Hokd. pose proof (whole_and_part bits Hb) as Hlim.
  set (f k := if k <? bits / 64 then ~64 (word_at ws k)
              else (~64 (word_at ws k)) .& BITMAP_LAST_WORD_MASK bits).
  assert (Hwr : writes h dst bits (λ i, (i <? bits) && negb (bm_bit ws i))
                  (<[dst := fill 0 (BITS_TO_LONGS bits) f wd]> h)).
  { apply writes_fill; [done|]. intros k Hk. unfold f.
    destruct (word_at_ok _ _ _ Hoks Hk) as (_ & Hr & HP).
    assert (Hc : ∀ j, 0 ≤ j < 64 → Z.testbit (~64 (word_at ws k)) j = negb (bm_bit ws (64 * k + j))).
    { intros j Hj. rewrite <- HP by done. autorewrite with bits. by bool_compare. }
    destruct (Z.ltb_spec k (bits / 64)).
    - split; [apply u64_range|]. intros j Hj. rewrite Hc by done.
      destruct (Z.ltb_spec (64 * k + j) bits); [done|dlia].
    - split; [auto with bits|]. intros j Hj.
      destruct (Z.eqb_spec (bits `mod` 64) 0) as [E|E]; [dlia|].
      rewrite Z.land_spec, testbit_LAST_WORD_MASK, Hc, andb_comm by done. f_equal.
      destruct (Z.leb_spec 0 j); [|lia]. simpl. apply eq_true_iff_eq. rewrite !Z.ltb_lt. dlia. }
  unfold __bitmap_complement, BITS_PER_LONG. apply wp_bind.
  eapply (wp_fill_up _ dst f wd); [done|done|destruct (bits `mod` 64 =? 0); dlia| |].
  - intros k Hk. apply wp_bind.
    eapply (wp_load_fill dst wd); [done|done|destruct (bits `mod` 64 =? 0); dlia|lia|].
    eapply wp_store; [apply lookup_insert_eq|rewrite length_fill; destruct (bits `mod` 64 =? 0); dlia|].
    rewrite insert_insert_eq. unfold f. destruct (Z.ltb_spec k (bits / 64)); [done|dlia].
  - rewrite Z2Nat.id, Z.add_0_l by dlia.
    destruct (Z.eqb_spec (bits `mod` 64) 0) as [E|E]; cbn [negb].
    + apply wp_ret. by rewrite Hlim in Hwr.
    + apply wp_bind. eapply (wp_load_fill dst wd); [done|done|dlia|lia|].
      eapply wp_store; [apply lookup_insert_eq|rewrite length_fill; dlia|].
      rewrite insert_insert_eq, fill_up; [by rewrite <- Hlim|dlia|dlia|].
      unfold f. destruct (Z.ltb_spec (bits / 64) (bits / 64)); [lia|done].
Qed.

(** ** Shifts *)

(** Word [k] of the source with the unused bits of the last word cleared, as
    the shifts read it. *)
Definition masked_word (ws : list Z) (bits k : Z) : Z :=
  if negb (bits `mod` 64 =? 0) && (k =? BITS_TO_LONGS bits - 1)
  then word_at ws k .& Z.ones (bits `mod` 64) else word_at ws k.

Lemma masked_word_spec ws bits k :
  bitmap_ok ws bits → 0 ≤ k < BITS_TO_LONGS bits →
  is_u64 (masked_word ws bits k) ∧
  ∀ j, 0 ≤ j < 64 →
    Z.testbit (masked_word ws bits k) j = (64 * k + j <? bits) && bm_bit ws (64 * k + j).
Proof.
  intros Hok Hk. destruct (word_at_ok _ _ _ Hok Hk) as (_ & Hr & HP).
  assert (Hb : 0 ≤ bits) by apply Hok.
  pose proof (BITS_TO_LONGS_bounds bits Hb). pose proof (whole_and_part bits Hb) as Hlim.
  assert (0 ≤ bits `mod` 64 < 64) by (apply Z.mod_pos_bound; lia).
  unfold masked_word. destruct (Z.eqb_spec (bits `mod` 64) 0) as [E|E]; cbn [negb andb].
  - split; [done|]. intros j Hj. rewrite HP by done.
    destruct (Z.ltb_spec (64 * k + j) bits); [done|dlia].
  - destruct (Z.eqb_spec k (BITS_TO_LONGS bits - 1)) as [->|Hne].
    + split; [auto with bits|]. intros j Hj. rewrite Z.land_spec, testbit_ones, HP by lia.
      destruct (Z.leb_spec 0 j); [|lia]. rewrite andb_comm. f_equal. simpl.
      apply eq_true_iff_eq. rewrite !Z.ltb_lt. dlia.
    + split; [done|]. intros j Hj. rewrite HP by done.
      destruct (Z.ltb_spec (64 * k + j) bits); [done|dlia].
Qed.

(** The masked bits of the source, and the value of a word made of the bits
    from [s] on. *)
Definition src_bit (ws : list Z) (bits i : Z) : bool := (0 <=? i) && (i <? bits) && bm_bit ws i.

Lemma testbit_masked ws bits k j :
  bitmap_ok ws bits → 0 ≤ k < BITS_TO_LONGS bits → 0 ≤ j < 64 →
  Z.testbit (masked_word ws bits k) j = src_bit ws bits (64 * k + j).
Proof.
  intros Hok Hk Hj. destruct (masked_word_spec ws bits k Hok Hk) as [_ ->]; [|done].
  unfold src_bit. by bool_compare.
Qed.

Lemma fill_merge a b c f g w :
  a ≤ b ≤ c → (∀ i, b ≤ i < c → f i = g i) → fill b c f (fill a b g w) = fill a c g w.
Proof.
  intros Hab Hfg. apply rd_ext; [by rewrite !length_fill|]. rewrite !length_fill. intros i Hi.
  rewrite !rd_fill by (rewrite ?length_fill; lia). unfold word_at. rewrite rd_fill by lia. simpl.
  bool_compare; try done. by rewrite Hfg by lia.
Qed.

Lemma fill_merge_left a b c f g w :
  a ≤ b ≤ c → (∀ i, a ≤ i < b → f i = g i) → fill a b f (fill b c g w) = fill a c g w.
Proof.
  intros Hab Hfg. apply rd_ext; [by rewrite !length_fill|]. rewrite !length_fill. intros i Hi.
  rewrite !rd_fill by (rewrite ?length_fill; lia). unfold word_at. rewrite rd_fill by lia. simpl.
  bool_compare; try done. by rewrite Hfg by lia.
Qed.

Lemma testbit_funnel lower upper rem j :
  is_u64 lower → 0 < rem < 64 → 0 ≤ j < 64 →
  Z.testbit ((lower >>u rem) .| (upper <<64 (64 - rem))) j =
    if j + rem <? 64 then Z.testbit lower (j + rem) else Z.testbit upper (j + rem - 64).
Proof.
  intros Hl Hrem Hj. autorewrite with bits.
  replace (j - (64 - rem)) with (j + rem - 64) by lia.
  destruct (Z.ltb_spec (j + rem) 64).
  - rewrite (Z.testbit_neg_r upper) by lia. bool_compare. simpl. by rewrite orb_false_r.
  - rewrite (testbit_high 64 lower) by lia. bool_compare. done.
Qed.

Section shift.
Context (ws : list Z) (bits shift : Z).
Hypothesis Hok : bitmap_ok ws bits.
Hypothesis Hshift : 0 ≤ shift ≤ bits.
Let lim := BITS_TO_LONGS bits.
Let left := bits `mod` 64.
Let off := shift / 64.
Let rem := shift `mod` 64.

Lemma shift_bounds :
  0 ≤ off ≤ lim ∧ 0 ≤ rem < 64 ∧ shift = 64 * off + rem ∧ 64 * lim - 64 < bits ≤ 64 * lim ∧
  0 ≤ left < 64 ∧ (left ≠ 0 → bits = 64 * (lim - 1) + left) ∧ lim ≤ zlen ws.
Proof.
  pose proof (whole_and_part bits ltac:(lia)) as E. pose proof (longs_le_len _ _ Hok).
  pose proof (BITS_TO_LONGS_bounds bits ltac:(lia)). unfold lim, left, off, rem in *.
  destruct (Z.eqb_spec (bits `mod` 64) 0); repeat split; try done; dlia.
Qed.

(** The word that the loop of [__bitmap_shift_right] leaves in [dst[k]]. *)
Definition shr_word (k : Z) : Z :=
  let upper := if (rem =? 0) || (lim <=? off + k + 1) then 0 else masked_word ws bits (off + k + 1) in
  let lower := masked_word ws bits (off + k) in
  let v := lower >>u rem in
  let v := if negb (rem =? 0) then v .| (upper <<64 (64 - rem)) else v in
  if negb (left =? 0) && (k =? lim - 1) then v .& Z.ones left else v.

Lemma shr_word_spec k :
  0 ≤ k < lim - off →
  is_u64 (shr_word k) ∧
  ∀ j, 0 ≤ j < 64 → Z.testbit (shr_word k) j = src_bit ws bits (64 * k + j + shift).
Proof.
  intros Hk. destruct shift_bounds as (? & ? & Es & ? & ? & Eleft & _).
  destruct (masked_word_spec ws bits (off + k) Hok) as [Hlow _]; [unfold lim in *; lia|].
  split.
  { unfold shr_word. repeat case_match; auto with bits. }
  intros j Hj.
  assert (Hv : Z.testbit
    (let v := masked_word ws bits (off + k) >>u rem in
     if negb (rem =? 0) then v .| ((if (rem =? 0) || (lim <=? off + k + 1) then 0 else masked_word ws bits (off + k + 1)) <<64 (64 - rem)) else v) j
    = src_bit ws bits (64 * k + j + shift)).
  { cbv zeta. destruct (Z.eqb_spec rem 0) as [E|E]; cbn [negb orb].
    - rewrite Z.shiftr_spec, E, Z.add_0_r, testbit_masked by (unfold lim in *; done || lia).
      f_equal. lia.
    - rewrite testbit_funnel by (done || lia). destruct (Z.ltb_spec (j + rem) 64).
      + rewrite testbit_masked by (unfold lim in *; done || lia). f_equal. lia.
      + destruct (Z.leb_spec lim (off + k + 1)).
        * rewrite Z.bits_0. unfold src_bit. by bool_compare.
        * rewrite testbit_masked by (unfold lim in *; done || lia). f_equal. lia. }
  unfold shr_word. cbv zeta in Hv |- *.
  destruct (negb (left =? 0) && (k =? lim - 1)) eqn:E; [|done].
  rewrite andb_true_iff, negb_true_iff, Z.eqb_neq, Z.eqb_eq in E. destruct E as [Hne ->].
  rewrite Z.land_spec, testbit_ones, Hv by lia.
  destruct (Z.leb_spec 0 j), (Z.ltb_spec j left); try lia; simpl.
  - apply andb_true_r.
  - rewrite andb_false_r. specialize (Eleft Hne). unfold src_bit. by bool_compare.
Qed.

(** The word that the loop of [__bitmap_shift_left] leaves in [dst[k + off]]. *)
Definition shl_word (k : Z) : Z :=
  let lower := if negb (rem =? 0) && (0 <? k) then word_at ws (k - 1) else 0 in
  let upper := masked_word ws bits k in
  let v := upper <<64 rem in
  let v := if negb (rem =? 0) then v .| (lower >>u (64 - rem)) else v in
  if negb (left =? 0) && (k + off =? lim - 1) then v .& Z.ones left else v.

Lemma shl_word_spec k :
  0 ≤ k < lim - off →
  is_u64 (shl_word k) ∧
  ∀ j, 0 ≤ j < 64 → Z.testbit (shl_word k) j =
    (64 * (k + off) + j <? bits) && src_bit ws bits (64 * (k + off) + j - shift).
Proof.
  intros Hk. destruct shift_bounds as (? & ? & Es & ? & ? & Eleft & _).
  destruct (masked_word_spec ws bits k Hok) as [Hup _]; [unfold lim in *; lia|].
  assert (Hlow : is_u64 (if negb (rem =? 0) && (0 <? k) then word_at ws (k - 1) else 0)).
  { case_match eqn:E; [|lia]. rewrite andb_true_iff, Z.ltb_lt in E.
    eapply word_at_range; [done|unfold lim in *; lia]. }
  split; [unfold shl_word; repeat case_match; auto with bits|]. intros j Hj.
  assert (Hv : Z.testbit
    (let v := masked_word ws bits k <<64 rem in
     if negb (rem =? 0) then v .| ((if negb (rem =? 0) && (0 <? k) then word_at ws (k - 1) else 0) >>u (64 - rem)) else v) j
    = src_bit ws bits (64 * (k + off) + j - shift)).
  { cbv zeta. destruct (Z.eqb_spec rem 0) as [E|E]; cbn [negb andb] in *.
    - rewrite testbit_u64, testbit_shiftl, E, Z.sub_0_r, testbit_masked by (unfold lim in *; done || lia).
      replace (64 * (k + off) + j - shift) with (64 * k + j) by lia. by bool_compare.
    - rewrite Z.lor_comm. replace (masked_word ws bits k <<64 rem) with (masked_word ws bits k <<64 (64 - (64 - rem))) by (do 2 f_equal; lia).
      rewrite testbit_funnel by (done || lia). destruct (Z.ltb_spec (j + (64 - rem)) 64).
      + destruct (Z.ltb_spec 0 k).
        * destruct (word_at_ok ws bits (k - 1) Hok) as (_ & _ & HP); [unfold lim in *; lia|].
          rewrite HP by lia. unfold src_bit.
          replace (64 * (k - 1) + (j + (64 - rem))) with (64 * (k + off) + j - shift) by lia.
          bool_compare. done.
        * rewrite Z.bits_0. unfold src_bit. by bool_compare.
      + rewrite testbit_masked by (unfold lim in *; done || lia). f_equal. lia. }
  unfold shl_word. cbv zeta in Hv |- *.
  destruct (negb (left =? 0) && (k + off =? lim - 1)) eqn:E.
  - rewrite andb_true_iff, negb_true_iff, Z.eqb_neq, Z.eqb_eq in E. destruct E as [Hne E].
    rewrite Z.land_spec, testbit_ones, Hv by lia. specialize (Eleft Hne).
    rewrite andb_comm. f_equal. destruct (Z.leb_spec 0 j); [|lia]. simpl.
    apply eq_true_iff_eq. rewrite !Z.ltb_lt. lia.
  - rewrite Hv. destruct (Z.ltb_spec (64 * (k + off) + j) bits); [done|].
    rewrite andb_false_iff, negb_false_iff, Z.eqb_eq, Z.eqb_neq in E.
    destruct (decide (left = 0)) as [E0|E0]; [|lia].
    unfold left in E0. exfalso. pose proof (whole_and_part bits ltac:(lia)) as E1.
    rewrite E0 in E1. simpl in E1. unfold lim in *. dlia.
Qed.
End shift.

(** A store followed by a conditional read-modify-write of the same word. *)
Lemma wp_update_if (c : bool) b k w x (op : Z → Z) (Q : unit → heap → Prop) h :
  0 ≤ k < zlen w →
  Q tt (<[b := <[Z.to_nat k := if c then op x else x]> w]> h) →
  wp (if c then y ← load b k; store b k (op y) else mret tt) Q (<[b := <[Z.to_nat k := x]> w]> h).
Proof.
  intros Hk HQ. destruct c; [|done].
  apply wp_bind. eapply wp_load; [apply lookup_insert_eq| |].
  { rewrite rd_insert by done. by rewrite Z.eqb_refl. }
  eapply wp_store; [apply lookup_insert_eq|by rewrite length_insert|].
  by rewrite insert_insert_eq, list_insert_insert_eq.
Qed.

Lemma masked_word_fold ws bits k :
  (if negb (bits `mod` 64 =? 0) && (k =? BITS_TO_LONGS bits - 1)
   then word_at ws k .& Z.ones (bits `mod` 64) else word_at ws k) = masked_word ws bits k.
Proof. done. Qed.

Lemma __bitmap_shift_right_ok dst src wd ws shift bits h :
  has h dst wd bits → has h src ws bits → 0 ≤ shift ≤ bits →
  wp (__bitmap_shift_right dst src shift bits)
     (λ _, writes h dst bits (λ i, src_bit ws bits (i + shift))) h.
Proof.
  intros [Hd Hokd] [Hs Hoks] Hsh. pose proof (longs_le_len _ _ Hokd).
  destruct (shift_bounds ws bits shift Hoks Hsh) as (Hoff & Hrem & Es & Hlim & Hleft & Eleft & Hlen).
  set (f k := if k <? BITS_TO_LONGS bits - shift / 64 then shr_word ws bits shift k else 0).
  unfold __bitmap_shift_right, BITS_PER_LONG. rewrite low_mask_ones by done.
  apply wp_bind. eapply (wp_fill_up _ dst f wd); [done|done|lia| |].
  - intros k Hk. rewrite Z2Nat.id in Hk by lia. apply wp_bind.
    apply (wp_mono _ (λ u h', h' = <[dst := fill 0 k f wd]> h ∧ u =
      if (shift `mod` 64 =? 0) || (BITS_TO_LONGS bits <=? shift / 64 + k + 1) then 0
      else masked_word ws bits (shift / 64 + k + 1))).
    { destruct ((shift `mod` 64 =? 0) || (BITS_TO_LONGS bits <=? shift / 64 + k + 1)) eqn:E.
      - by apply wp_ret.
      - rewrite orb_false_iff, Z.leb_gt in E. apply wp_bind.
        eapply (wp_load_fill dst wd); [done|done|lia|lia|]. apply wp_ret. split; [done|].
        unfold masked_word. by rewrite andb_comm. }
    intros upper h' [-> ->]. apply wp_bind.
    eapply (wp_load_fill dst wd); [done|done|lia|lia|]. rewrite masked_word_fold.
    apply wp_bind. eapply wp_store; [apply lookup_insert_eq|rewrite length_fill; lia|].
    rewrite insert_insert_eq. apply wp_bind.
    apply (wp_update_if (negb (shift `mod` 64 =? 0)) dst k _ _
      (λ x, x .| ((if (shift `mod` 64 =? 0) || (BITS_TO_LONGS bits <=? shift / 64 + k + 1) then 0
      else masked_word ws bits (shift / 64 + k + 1)) <<64 (64 - shift `mod` 64))));
      [rewrite length_fill; lia|].
    apply (wp_update_if _ dst k _ _ (λ x, x .& Z.ones (bits `mod` 64))); [rewrite length_fill; lia|].
    do 2 f_equal. unfold f. destruct (Z.ltb_spec k (BITS_TO_LONGS bits - shift / 64)); [done|lia].
  - rewrite Z2Nat.id, Z.add_0_l by lia.
    assert (Hend : writes h dst bits (λ i, src_bit ws bits (i + shift))
              (<[dst := fill 0 (BITS_TO_LONGS bits) f wd]> h)).
    { apply writes_fill; [done|]. intros k Hk. unfold f.
      destruct (Z.ltb_spec k (BITS_TO_LONGS bits - shift / 64)).
      - apply shr_word_spec; [done..|lia].
      - split; [lia|]. intros j Hj. rewrite Z.bits_0. unfold src_bit. by bool_compare. }
    destruct (Z.eqb_spec (shift / 64) 0) as [E|E]; cbn [negb].
    + apply wp_ret. by rewrite E, Z.sub_0_r.
    + eapply wp_memset0; [apply lookup_insert_eq|lia|lia|rewrite length_fill; lia|].
      rewrite insert_insert_eq, Z.sub_add, fill_merge; [done|lia|].
      intros i Hi. unfold f. by bool_compare.
Qed.

Lemma __bitmap_shift_left_ok dst src wd ws shift bits h :
  has h dst wd bits → has h src ws bits → 0 ≤ shift ≤ bits →
  wp (__bitmap_shift_left dst src shift bits)
     (λ _, writes h dst bits (λ i, (i <? bits) && src_bit ws bits (i - shift))) h.
Proof.
  intros [Hd Hokd] [Hs Hoks] Hsh. pose proof (longs_le_len _ _ Hokd).
  destruct (shift_bounds ws bits shift Hoks Hsh) as (Hoff & Hrem & Es & Hlim & Hleft & Eleft & Hlen).
  set (f k := if shift / 64 <=? k then shl_word ws bits shift (k - shift / 64) else 0).
  unfold __bitmap_shift_left, BITS_PER_LONG. rewrite low_mask_ones by done.
  apply wp_bind. eapply (wp_fill_down _ dst f wd (shift / 64)); [done|lia|lia| |].
  - intros k Hk. rewrite Z2Nat.id in Hk by lia. apply wp_bind.
    match goal with |- wp _ _ ?h0 => apply (wp_mono _ (λ u h', h' = h0 ∧ u =
      if negb (shift `mod` 64 =? 0) && (0 <? k) then word_at ws (k - 1) else 0)) end.
    { destruct (negb (shift `mod` 64 =? 0) && (0 <? k)) eqn:E.
      - rewrite andb_true_iff, Z.ltb_lt in E.
        eapply (wp_load_fill dst wd); [done|done|lia|lia|done].
      - by apply wp_ret. }
    intros lower h' [-> ->]. apply wp_bind.
    eapply (wp_load_fill dst wd); [done|done|lia|lia|]. rewrite masked_word_fold.
    apply wp_bind. eapply wp_store; [apply lookup_insert_eq|rewrite length_fill; lia|].
    rewrite insert_insert_eq. apply wp_bind.
    apply (wp_update_if (negb (shift `mod` 64 =? 0)) dst (k + shift / 64) _ _
      (λ x, x .| ((if negb (shift `mod` 64 =? 0) && (0 <? k) then word_at ws (k - 1) else 0)
                    >>u (64 - shift `mod` 64))));
      [rewrite length_fill; lia|].
    apply (wp_update_if _ dst (k + shift / 64) _ _ (λ x, x .& Z.ones (bits `mod` 64)));
      [rewrite length_fill; lia|].
    do 2 f_equal. unfold f. destruct (Z.leb_spec (shift / 64) (k + shift / 64)); [|lia].
    by rewrite Z.add_simpl_r.
  - rewrite Z2Nat.id by lia.
    replace (BITS_TO_LONGS bits - shift / 64 - 1 + shift / 64 + 1) with (BITS_TO_LONGS bits) by lia.
    replace (BITS_TO_LONGS bits - (BITS_TO_LONGS bits - shift / 64)) with (shift / 64) by lia.
    assert (Hend : writes h dst bits (λ i, (i <? bits) && src_bit ws bits (i - shift))
              (<[dst := fill 0 (BITS_TO_LONGS bits) f wd]> h)).
    { apply writes_fill; [done|]. intros k Hk. unfold f.
      destruct (Z.leb_spec (shift / 64) k).
      - destruct (shl_word_spec ws bits shift Hoks Hsh (k - shift / 64)) as [Hr HP]; [lia|].
        split; [done|]. intros j Hj. rewrite HP by done. by rewrite Z.sub_add.
      - split; [lia|]. intros j Hj. rewrite Z.bits_0. unfold src_bit.
        bool_compare; by rewrite ?andb_false_r. }
    destruct (Z.eqb_spec (shift / 64) 0) as [E|E]; cbn [negb].
    + apply wp_ret. by rewrite E.
    + eapply wp_memset0; [apply lookup_insert_eq|lia|lia|rewrite length_fill; lia|].
      rewrite insert_insert_eq, Z.add_0_l, fill_merge_left; [done|lia|].
      intros i Hi. unfold f. by bool_compare.
Qed.

(** ** Ranges *)

Section range.
Context (op : Z → Z → Z) (v : bool).
Hypothesis op_range : ∀ w m, is_u64 w → is_u64 m → is_u64 (op w m).
Hypothesis op_bit : ∀ w m j, 0 ≤ j < 64 →
  Z.testbit (op w m) j = if Z.testbit m j then v else Z.testbit w j.

(** One word of the range: the bits of the mask get the value [v]. *)
Lemma range_word map p m lo hi :
  wf_words map → is_u64 m → 0 ≤ p < zlen map → 64 * p ≤ lo → hi ≤ 64 * p + 64 →
  (∀ j, 0 ≤ j < 64 → Z.testbit m j = (lo <=? 64 * p + j) && (64 * p + j <? hi)) →
  ∃ w map', rd map p = Some w ∧ wr map p (op w m) = Some map' ∧ wf_words map' ∧
    length map' = length map ∧
    ∀ i, 0 ≤ i → bm_bit map' i = if (lo <=? i) && (i <? hi) then v else bm_bit map i.
Proof.
  intros Hwf Hm Hp Hlo Hhi Hmask. destruct (rd_in map p Hp) as [w Hw].
  pose proof (words_range _ _ _ Hwf Hw).
  exists w. eexists. split; [done|]. split; [by apply wr_Some|].
  split; [apply wf_insert; auto|]. split; [apply length_insert|].
  intros i Hi. rewrite bm_bit_insert by done.
  destruct (Z.eqb_spec (i / 64) p) as [E|E].
  - assert (Ei : i = 64 * p + i `mod` 64) by dlia.
    assert (0 ≤ i `mod` 64 < 64) by (apply Z.mod_pos_bound; lia).
    rewrite op_bit, Hmask, <- Ei by done.
    rewrite (bm_bit_rd map i w) by (by rewrite E). done.
  - destruct (Z.leb_spec lo i), (Z.ltb_spec i hi); simpl; try done. exfalso. dlia.
Qed.

Lemma range_words_ok fuel map s nr :
  wf_words map → 0 ≤ s → 0 ≤ nr → s + nr ≤ 64 * zlen map →
  nr + s `mod` 64 < 64 * Z.of_nat fuel →
  ∃ map' s' nr',
    range_words fuel op map (s / 64) nr (64 - s `mod` 64) (ULONG_MAX <<64 (s `mod` 64))
      = Some (map', s' / 64, nr', ULONG_MAX <<64 (s' `mod` 64)) ∧
    s ≤ s' ∧ s' + nr' = s + nr ∧ 0 ≤ nr' < 64 - s' `mod` 64 ∧
    wf_words map' ∧ length map' = length map ∧
    ∀ i, 0 ≤ i → bm_bit map' i = if (s <=? i) && (i <? s') then v else bm_bit map i.
Proof.
  revert map s nr. induction fuel as [|fuel IH]; intros map s nr Hwf Hs Hnr Hlen Hf; [dlia|].
  cbn [range_words]. destruct (Z.leb_spec 0 (nr - (64 - s `mod` 64))) as [Hle|Hlt].
  - destruct (range_word map (s / 64) (ULONG_MAX <<64 (s `mod` 64)) s (64 * (s / 64) + 64))
      as (w & map1 & -> & Hwr & Hwf1 & Hlen1 & Hbit1); [done|apply u64_range|dlia|dlia|lia| |].
    { intros j Hj. rewrite testbit_high_mask by dlia. apply eq_true_iff_eq.
      rewrite !andb_true_iff, !Z.leb_le, !Z.ltb_lt. dlia. }
    cbn [mbind option_bind]. rewrite Hwr. cbn [mbind option_bind].
    pose (s1 := 64 * (s / 64) + 64).
    assert (E1 : s1 / 64 = s / 64 + 1) by (unfold s1; dlia).
    assert (E2 : s1 `mod` 64 = 0) by (unfold s1; dlia).
    destruct (IH map1 s1 (nr - (64 - s `mod` 64))) as (map' & s' & nr' & Hr & Hs' & Hsum & Hnr' & Hwf' & Hlen' & Hbit');
      [done|unfold s1; dlia|lia|rewrite Hlen1; unfold s1; dlia|unfold s1; dlia|].
    rewrite E1, E2 in Hr. exists map', s', nr'.
    split; [exact Hr|]. split; [unfold s1 in *; dlia|]. split; [unfold s1 in *; dlia|].
    split; [done|]. split; [done|]. split; [congruence|].
    intros i Hi. rewrite Hbit', Hbit1 by done. unfold s1 in *. bool_compare; try done; dlia.
  - exists map, s, nr. split; [done|]. split; [lia|]. split; [done|]. split; [lia|].
    split; [done|]. split; [done|]. intros i Hi. by bool_compare.
Qed.

Lemma bitmap_range_ok map start nr :
  wf_words map → 0 ≤ start → 0 ≤ nr → start + nr ≤ 64 * zlen map →
  ∃ map', bitmap_range op map start nr = Some map' ∧ wf_words map' ∧ length map' = length map ∧
    ∀ i, 0 ≤ i → bm_bit map' i = if (start <=? i) && (i <? start + nr) then v else bm_bit map i.
Proof.
  intros Hwf Hs Hnr Hlen. unfold bitmap_range, BITMAP_FIRST_WORD_MASK, BIT_WORD, BITS_PER_LONG.
  destruct (range_words_ok (S (S (Z.to_nat (nr / 64)))) map start nr)
    as (map1 & s & nr' & -> & Hs1 & Hsum & Hnr' & Hwf1 & Hlen1 & Hbit1); [done..|dlia|].
  cbn [mbind option_bind]. destruct (Z.eqb_spec nr' 0) as [->|Hne]; cbn [negb].
  - exists map1. split; [done|]. split; [done|]. split; [done|].
    rewrite <- Hsum, Z.add_0_r. done.
  - assert (0 ≤ s `mod` 64 < 64) by (apply Z.mod_pos_bound; lia).
    assert (Em : (start + nr) `mod` 64 = s `mod` 64 + nr') by (rewrite <- Hsum; dlia).
    destruct (range_word map1 (s / 64) ((ULONG_MAX <<64 (s `mod` 64)) .& BITMAP_LAST_WORD_MASK (start + nr)) s (start + nr))
      as (w & map2 & -> & Hwr & Hwf2 & Hlen2 & Hbit2); [done|auto with bits|rewrite Hlen1; dlia|dlia|dlia| |].
    { intros j Hj. rewrite Z.land_spec, testbit_high_mask, testbit_LAST_WORD_MASK by lia.
      apply eq_true_iff_eq. rewrite !andb_true_iff, !Z.leb_le, !Z.ltb_lt. dlia. }
    cbn [mbind option_bind]. exists map2. split; [done|]. split; [done|]. split; [congruence|].
    intros i Hi. rewrite Hbit2, Hbit1 by done. bool_compare; done.
Qed.
End range.

Lemma bitmap_set_ok map start nr :
  wf_words map → 0 ≤ start → 0 ≤ nr → start + nr ≤ 64 * zlen map →
  ∃ map', bitmap_set map start nr = Some map' ∧ wf_words map' ∧ length map' = length map ∧
    ∀ i, 0 ≤ i → bm_bit map' i = if (start <=? i) && (i <? start + nr) then true else bm_bit map i.
Proof.
  apply bitmap_range_ok; [auto with bits|]. intros w m j Hj. rewrite Z.lor_spec.
  destruct (Z.testbit m j); [apply orb_true_r|apply orb_false_r].
Qed.

Lemma bitmap_clear_ok map start nr :
  wf_words map → 0 ≤ start → 0 ≤ nr → start + nr ≤ 64 * zlen map →
  ∃ map', bitmap_clear map start nr = Some map' ∧ wf_words map' ∧ length map' = length map ∧
    ∀ i, 0 ≤ i → bm_bit map' i = if (start <=? i) && (i <? start + nr) then false else bm_bit map i.
Proof.
  apply bitmap_range_ok; [auto with bits|]. intros w m j Hj. rewrite testbit_andnot by done.
  destruct (Z.testbit m j); [apply andb_false_r|apply andb_true_r].
Qed.

(** ** Searching a free area *)

Lemma land_lnot64 x m : is_u64 x → x .& ~64 m = Z.ldiff x m.
Proof.
  intros Hx. apply Z.bits_inj'. intros i Hi. rewrite Z.ldiff_spec. autorewrite with bits.
  destruct (Z.ltb_spec i 64), (Z.leb_spec 0 i); try lia; simpl; [done|].
  by rewrite (testbit_high 64), andb_false_r by lia.
Qed.

Lemma ALIGN_MASK_spec x a :
  0 ≤ a → 0 ≤ x → x + 2 ^ a < 2 ^ 64 →
  __ALIGN_MASK x (2 ^ a - 1) = 2 ^ a * ((x + 2 ^ a - 1) / 2 ^ a).
Proof.
  intros Ha Hx Hmax. unfold __ALIGN_MASK. assert (0 < 2 ^ a) by lia.
  rewrite land_lnot64, u64_small by (try apply u64_range; lia).
  replace (2 ^ a - 1) with (Z.ones a) at 2 by (rewrite Z.ones_equiv; lia).
  rewrite Z.ldiff_ones_r, Z.shiftl_mul_pow2, Z.shiftr_div_pow2 by lia.
  replace (x + (2 ^ a - 1)) with (x + 2 ^ a - 1) by lia. lia.
Qed.

Lemma align_up_least A x y : 0 < A → x ≤ y → (A | y) → A * ((x + A - 1) / A) ≤ y.
Proof.
  intros HA Hxy [q ->]. rewrite (Z.mul_comm q). apply Z.mul_le_mono_nonneg_l; [lia|].
  apply Z.lt_succ_r. apply Z.div_lt_upper_bound; lia.
Qed.

(** [area_free map size nr A x]: an [A]-aligned run of [nr] clear bits at [x]. *)
Definition area_free (map : list Z) (size nr A x : Z) : Prop :=
  (A | x) ∧ x + nr ≤ size ∧ ∀ i, x ≤ i < x + nr → bm_bit map i = false.

Lemma find_area_ok fuel map size start nr a :
  wf_words map → 0 ≤ size ≤ 64 * zlen map → 0 ≤ start ≤ size → 0 < nr → 0 ≤ a →
  size + 2 ^ a + nr < 2 ^ 64 → size - start < Z.of_nat fuel →
  ∃ r, find_area fuel map size start nr (2 ^ a - 1) = Some r ∧
    ((start ≤ r ∧ area_free map size nr (2 ^ a) r ∧
      ∀ x, start ≤ x < r → ¬ area_free map size nr (2 ^ a) x)
     ∨ (size < r ∧ ∀ x, start ≤ x → ¬ area_free map size nr (2 ^ a) x)).
Proof.
  intros Hwf Hsize Hst Hnr Ha Hmax. assert (HA : 0 < 2 ^ a) by lia.
  revert start Hst. induction fuel as [|fuel IH]; intros start Hst Hfuel; [lia|].
  cbn [find_area].
  destruct (find_next_zero_bit_ok map size start) as (z & -> & Hz); [done|lia|lia|lia|].
  cbn [mbind option_bind].
  assert (Hzs : start ≤ z ≤ size) by (destruct Hz as [(? & _)|[-> _]]; lia).
  rewrite ALIGN_MASK_spec by lia. set (index := 2 ^ a * ((z + 2 ^ a - 1) / 2 ^ a)).
  assert (Hidx : z ≤ index < z + 2 ^ a).
  { unfold index. pose proof (Z.div_mod (z + 2 ^ a - 1) (2 ^ a) ltac:(lia)).
    pose proof (Z.mod_pos_bound (z + 2 ^ a - 1) (2 ^ a) HA). lia. }
  assert (Hlow : ∀ x, start ≤ x → area_free map size nr (2 ^ a) x → index ≤ x).
  { intros x Hx (Hdiv & Hend & Hfree). apply align_up_least; [done| |done].
    destruct (decide (z ≤ x)); [done|]. exfalso.
    specialize (Hfree x ltac:(lia)). destruct Hz as [(_ & _ & Hones)|[-> Hones]];
      specialize (Hones x ltac:(lia)); rewrite Hfree in Hones; done. }
  rewrite u64_small by lia. destruct (Z.ltb_spec size (index + nr)) as [Hgt|Hle].
  - exists (index + nr). split; [done|]. right. split; [lia|].
    intros x Hx Hfree. pose proof (Hlow x Hx Hfree). destruct Hfree as (_ & ? & _). lia.
  - destruct (find_next_bit_ok map (index + nr) index) as (i & -> & Hi); [done|lia|lia|lia|].
    cbn [mbind option_bind]. destruct (Z.ltb_spec i (index + nr)) as [Hlt|Hge].
    + destruct Hi as [(Hi & Hset & _)|[-> _]]; [|lia].
      assert (Hskip : ∀ x, start ≤ x → area_free map size nr (2 ^ a) x → i + 1 ≤ x).
      { intros x Hx Hfree. pose proof (Hlow x Hx Hfree). destruct (decide (i < x)); [lia|].
        destruct Hfree as (_ & _ & Hfree). rewrite Hfree in Hset by lia. done. }
      rewrite u64_small by lia.
      destruct (IH (i + 1)) as (r & -> & Hr); [lia|lia|]. exists r. split; [done|].
      destruct Hr as [(Hr1 & Hr2 & Hr3)|[Hr1 Hr2]]; [left|right].
      * split; [lia|]. split; [done|]. intros x Hx Hfree. apply (Hr3 x); [|done].
        specialize (Hskip x ltac:(lia) Hfree). lia.
      * split; [done|]. intros x Hx Hfree. apply (Hr2 x); [|done].
        specialize (Hskip x ltac:(lia) Hfree). lia.
    + exists index. split; [done|]. left. split; [lia|]. split.
      * split; [unfold index; apply Z.divide_factor_l|]. split; [lia|].
        intros j Hj. destruct Hi as [(Hi & _)|[_ Hi]]; [lia|]. by apply Hi.
      * intros x Hx Hfree. pose proof (Hlow x ltac:(lia) Hfree). lia.
Qed.

(** ** Properties *)

(** The predicates and the weight of [lib/bitmap.c] read only words of
    their bitmaps and depend only on the first [bits] bits: empty, full, equal,
    intersects, subset and the number of set bits. *)
Lemma bitmap_predicates_correct bm1 bm2 bits :
  bitmap_ok bm1 bits → bitmap_ok bm2 bits →
  (∃ b, __bitmap_empty bm1 bits = Some b ∧
        (b = true ↔ ∀ i, 0 ≤ i < bits → bm_bit bm1 i = false)) ∧
  (∃ b, __bitmap_full bm1 bits = Some b ∧
        (b = true ↔ ∀ i, 0 ≤ i < bits → bm_bit bm1 i = true)) ∧
  (∃ b, __bitmap_equal bm1 bm2 bits = Some b ∧
        (b = true ↔ ∀ i, 0 ≤ i < bits → bm_bit bm1 i = bm_bit bm2 i)) ∧
  (∃ b, __bitmap_intersects bm1 bm2 bits = Some b ∧
        (b = true ↔ ∃ i, 0 ≤ i < bits ∧ bm_bit bm1 i && bm_bit bm2 i = true)) ∧
  (∃ b, __bitmap_subset bm1 bm2 bits = Some b ∧
        (b = true ↔ ∀ i, 0 ≤ i < bits → bm_bit bm1 i = true → bm_bit bm2 i = true)) ∧
  __bitmap_weight bm1 bits = Some (count (bm_bit bm1) 0 (Z.to_nat bits)).
Proof.
  intros H1 H2. split; [by apply __bitmap_empty_ok|]. split; [by apply __bitmap_full_ok|].
  split; [by apply __bitmap_equal_ok|]. split; [by apply __bitmap_intersects_ok|].
  split; [by apply __bitmap_subset_ok|by apply __bitmap_weight_ok].
Qed.

Example bitmap_predicates_correct_witness :
  __bitmap_weight [0xFF; 0x3] 65 = Some (count (bm_bit [0xFF; 0x3]) 0 (Z.to_nat 65)) ∧
  __bitmap_weight [0xFF; 0x3] 65 = Some 9.
Proof.
  assert (Hok : bitmap_ok [0xFF; 0x3] 65) by (split; [repeat constructor; lia|simpl; lia]).
  split; [|vm_compute; reflexivity].
  destruct (bitmap_predicates_correct [0xFF; 0x3] [0xFF; 0x3] 65 Hok Hok)
    as (_ & _ & _ & _ & _ & Hw). exact Hw.
Defined.

(** The word-wise operations never access memory outside their bitmaps
    and overwrite exactly the words of [dst] that hold the first [bits] bits
    with the and, or, xor, and-not or complement of their operands, whatever
    pointers are equal; [__bitmap_and] and [__bitmap_andnot] return whether some
    bit of those words is set. *)
Lemma bitmap_word_ops_correct dst b1 b2 wd w1 w2 bits h :
  has h dst wd bits → has h b1 w1 bits → has h b2 w2 bits →
  wp (__bitmap_and dst b1 b2 bits) (λ r h',
    writes h dst bits (λ i, bm_bit w1 i && bm_bit w2 i) h' ∧
    (r = true ↔ ∃ i, 0 ≤ i < 64 * BITS_TO_LONGS bits ∧ bm_bit w1 i && bm_bit w2 i = true)) h ∧
  wp (__bitmap_or dst b1 b2 bits) (λ _, writes h dst bits (λ i, bm_bit w1 i || bm_bit w2 i)) h ∧
  wp (__bitmap_xor dst b1 b2 bits) (λ _, writes h dst bits (λ i, xorb (bm_bit w1 i) (bm_bit w2 i))) h ∧
  wp (__bitmap_andnot dst b1 b2 bits) (λ r h',
    writes h dst bits (λ i, bm_bit w1 i && negb (bm_bit w2 i)) h' ∧
    (r = true ↔ ∃ i, 0 ≤ i < 64 * BITS_TO_LONGS bits ∧ bm_bit w1 i && negb (bm_bit w2 i) = true)) h ∧
  wp (__bitmap_complement dst b1 bits)
     (λ _, writes h dst bits (λ i, (i <? bits) && negb (bm_bit w1 i))) h.
Proof.
  intros Hd H1 H2. split; [by eapply __bitmap_and_ok|]. split; [by eapply __bitmap_or_ok|].
  split; [by eapply __bitmap_xor_ok|]. split; [by eapply __bitmap_andnot_ok|].
  by eapply __bitmap_complement_ok.
Qed.

Lemma bitmap_ok_ex1 w : is_u64 w → bitmap_ok [w] 64.
Proof. intros. split; [by apply Forall_singleton|simpl; lia]. Qed.

(** The heap of the witnesses: three one-word bitmaps. *)
Definition ex_heap : heap := <[0%nat := [0xF0]]> (<[1%nat := [0x3C]]> (<[2%nat := [0xFF]]> ∅)).

Example bitmap_word_ops_correct_witness :
  wp (__bitmap_or 0 0 1 64) (λ _, writes ex_heap 0 64 (λ i, bm_bit [0xF0] i || bm_bit [0x3C] i)) ex_heap.
Proof.
  apply (bitmap_word_ops_correct 0 0 1 [0xF0] [0xF0] [0x3C] 64 ex_heap);
    (split; [reflexivity|apply bitmap_ok_ex1; lia]).
Defined.

(** For every shift up to [bits], in place or not, [__bitmap_shift_right]
    moves bit [i + shift] to bit [i] and [__bitmap_shift_left] moves bit
    [i - shift] to bit [i]; zeros are fed in, bits of the source past [bits] are
    ignored, unused bits of the result are zero, and no access leaves the
    bitmaps. *)
Lemma bitmap_shifts_correct dst src wd ws shift bits h :
  has h dst wd bits → has h src ws bits → 0 ≤ shift ≤ bits →
  wp (__bitmap_shift_right dst src shift bits)
     (λ _, writes h dst bits (λ i, src_bit ws bits (i + shift))) h ∧
  wp (__bitmap_shift_left dst src shift bits)
     (λ _, writes h dst bits (λ i, (i <? bits) && src_bit ws bits (i - shift))) h.
Proof.
  intros. split; [by eapply __bitmap_shift_right_ok|by eapply __bitmap_shift_left_ok].
Qed.

Example bitmap_shifts_correct_witness :
  wp (__bitmap_shift_left 0 0 5 64)
     (λ _, writes ex_heap 0 64 (λ i, (i <? 64) && src_bit [0xF0] 64 (i - 5))) ex_heap.
Proof.
  apply (bitmap_shifts_correct 0 0 [0xF0] [0xF0] 5 64 ex_heap);
    [split; [reflexivity|apply bitmap_ok_ex1; lia]..|lia].
Defined.

(** [bitmap_set] and [bitmap_clear] set, respectively clear, exactly the
    bits of [start, start + nr), in any position relative to word boundaries,
    and touch only words that hold such bits. *)
Lemma bitmap_set_clear_exact map start nr :
  wf_words map → 0 ≤ start → 0 ≤ nr → start + nr ≤ 64 * zlen map →
  (∃ map', bitmap_set map start nr = Some map' ∧ wf_words map' ∧ length map' = length map ∧
     ∀ i, 0 ≤ i → bm_bit map' i = if (start <=? i) && (i <? start + nr) then true else bm_bit map i) ∧
  (∃ map', bitmap_clear map start nr = Some map' ∧ wf_words map' ∧ length map' = length map ∧
     ∀ i, 0 ≤ i → bm_bit map' i = if (start <=? i) && (i <? start + nr) then false else bm_bit map i).
Proof. intros. split; [by apply bitmap_set_ok|by apply bitmap_clear_ok]. Qed.

Example bitmap_set_clear_exact_witness :
  ∃ map', bitmap_set [0; 0; 0] 60 70 = Some map' ∧ wf_words map' ∧ length map' = 3%nat ∧
    ∀ i, 0 ≤ i → bm_bit map' i = if (60 <=? i) && (i <? 60 + 70) then true else bm_bit [0; 0; 0] i.
Proof.
  apply (bitmap_set_clear_exact [0; 0; 0] 60 70); [repeat constructor; lia|lia|lia|simpl; lia].
Defined.

(** [bitmap_find_next_zero_area] terminates and returns the least
    [2^a]-aligned index at or after [start] where [nr] clear bits begin, or a
    value above [size] when the bitmap has no such area. *)
Lemma find_next_zero_area_first_fit map size start nr a :
  wf_words map → 0 ≤ size ≤ 64 * zlen map → 0 ≤ start ≤ size → 0 < nr → 0 ≤ a →
  size + 2 ^ a + nr < 2 ^ 64 →
  ∃ r, bitmap_find_next_zero_area map size start nr (2 ^ a - 1) = Some r ∧
    ((start ≤ r ∧ area_free map size nr (2 ^ a) r ∧
      ∀ x, start ≤ x < r → ¬ area_free map size nr (2 ^ a) x)
     ∨ (size < r ∧ ∀ x, start ≤ x → ¬ area_free map size nr (2 ^ a) x)).
Proof. intros. apply find_area_ok; lia || done. Qed.

Example find_next_zero_area_first_fit_witness :
  (∃ r, bitmap_find_next_zero_area [0x1F; 0] 128 0 10 (2 ^ 3 - 1) = Some r ∧
    ((0 ≤ r ∧ area_free [0x1F; 0] 128 10 (2 ^ 3) r ∧
      ∀ x, 0 ≤ x < r → ¬ area_free [0x1F; 0] 128 10 (2 ^ 3) x)
     ∨ (128 < r ∧ ∀ x, 0 ≤ x → ¬ area_free [0x1F; 0] 128 10 (2 ^ 3) x)))
  ∧ bitmap_find_next_zero_area [0x1F; 0] 128 0 10 (2 ^ 3 - 1) = Some 8.
Proof.
  split; [|vm_compute; reflexivity].
  apply find_next_zero_area_first_fit; [repeat constructor; lia|simpl; lia|lia..].
Defined.

(** C10: the comment at the top of [lib/bitmap.c] promises that unused bits
    never influence a Boolean result; [__bitmap_and] and [__bitmap_andnot] do
    not keep it: on one-bit bitmaps with disjoint valid bits they return true
    because of the unused bits of the word. *)
Theorem bitmap_and_reads_unused_bits :
  ∃ h w1 w2, has h 1%nat w1 1 ∧ has h 2%nat w2 1 ∧ has h 0%nat [0] 1 ∧
    (∀ i, 0 ≤ i < 1 → bm_bit w1 i && bm_bit w2 i = false) ∧
    (∀ i, 0 ≤ i < 1 → bm_bit w1 i && negb (bm_bit w2 i) = false) ∧
    (fst <$> __bitmap_and 0 1 2 1 h) = Some true ∧
    (fst <$> __bitmap_andnot 0 1 2 1 h) = Some true.
Proof.
  exists (<[0%nat := [0]]> (<[1%nat := [6]]> (<[2%nat := [2]]> ∅))), [6], [2].
  assert (Hok : ∀ w, is_u64 w → bitmap_ok [w] 1) by (intros; split; [by apply Forall_singleton|simpl; lia]).
  split; [split; [reflexivity|apply Hok; lia]|]. split; [split; [reflexivity|apply Hok; lia]|].
  split; [split; [reflexivity|apply Hok; lia]|].
  split; [intros i Hi; by replace i with 0 by lia|].
  split; [intros i Hi; by replace i with 0 by lia|].
  split; vm_compute; reflexivity.
Qed.
