(* ===== verification/BitmapMap.v ===== *)
(** * BitmapMap: regions and maps of bitmaps

    The second half of [lib/bitmap.c]: the power-of-two region allocator
    ([__reg_op] and its users) and the maps between bit positions and ordinals
    ([bitmap_pos_to_ord], [bitmap_ord_to_pos], [bitmap_remap],
    [bitmap_bitremap], [bitmap_onto], [bitmap_fold]). *)

From S2P Require Import Prelude Bitops FindBit Bitmap.

Definition ENOMEM : Z := 12.
Definition EBUSY : Z := 16.

(** ** Regions *)

Inductive reg_op := REG_OP_ISFREE | REG_OP_ALLOC | REG_OP_RELEASE.

(** [for (i = 0; i < n; i++) bitmap[k + i] = op(bitmap[k + i], mask);] *)
Fixpoint reg_words (n : nat) (k : Z) (op : Z → Z → Z) (mask : Z) (bitmap : list Z) : option (list Z) :=
  match n with
  | O => Some bitmap
  | S n' =>
      w ← rd bitmap k; bitmap' ← wr bitmap k (op w mask); reg_words n' (k + 1) op mask bitmap'
  end.

(** Returns the [int] result and the bitmap. *)
Definition __reg_op (bitmap : list Z) (pos order : Z) (op : reg_op) : option (Z * list Z) :=
  let nbits_reg := Z.shiftl 1 order in
  let index := pos / BITS_PER_LONG in
  let offset := pos - index * BITS_PER_LONG in
  let nlongs_reg := Z.to_nat (BITS_TO_LONGS nbits_reg) in
  let nbitsinlong := Z.min nbits_reg BITS_PER_LONG in
  let mask := 1 <<64 (nbitsinlong - 1) in
  let mask := mask +64 (mask - 1) in
  let mask := mask <<64 offset in
  match op with
  | REG_OP_ISFREE =>
      hit ← any_word nlongs_reg index (λ k, w ← rd bitmap k; Some (negb (w .& mask =? 0)));
      Some (if (hit : bool) then 0 else 1, bitmap)
  | REG_OP_ALLOC =>
      bitmap' ← reg_words nlongs_reg index (λ w mask, w .| mask) mask bitmap; Some (0, bitmap')
  | REG_OP_RELEASE =>
      bitmap' ← reg_words nlongs_reg index (λ w mask, w .& ~64 mask) mask bitmap; Some (0, bitmap')
  end.

(** [for (pos = 0; (end = pos + (1 << order)) <= bits; pos = end)] *)
Fixpoint find_free_loop (fuel : nat) (bitmap : list Z) (bits order pos : Z) : option (Z * list Z) :=
  match fuel with
  | O => None
  | S fuel' =>
      let end_ := pos + Z.shiftl 1 order in
      if end_ <=? bits then
        '(free, _) ← __reg_op bitmap pos order REG_OP_ISFREE;
        if free =? 0 then find_free_loop fuel' bitmap bits order end_
        else '(_, bitmap') ← __reg_op bitmap pos order REG_OP_ALLOC; Some (pos, bitmap')
      else Some (- ENOMEM, bitmap)
  end.

Definition bitmap_find_free_region (bitmap : list Z) (bits order : Z) : option (Z * list Z) :=
  find_free_loop (S (Z.to_nat bits)) bitmap bits order 0.

Definition bitmap_release_region (bitmap : list Z) (pos order : Z) : option (list Z) :=
  '(_, bitmap') ← __reg_op bitmap pos order REG_OP_RELEASE; Some bitmap'.

Definition bitmap_allocate_region (bitmap : list Z) (pos order : Z) : option (Z * list Z) :=
  '(free, _) ← __reg_op bitmap pos order REG_OP_ISFREE;
  if free =? 0 then Some (- EBUSY, bitmap)
  else '(_, bitmap') ← __reg_op bitmap pos order REG_OP_ALLOC; Some (0, bitmap').

(** ** Positions and ordinals *)

(** [while (i < pos) { i = find_next_bit(buf, bits, i + 1); ord++; }] *)
Fixpoint ord_loop (fuel : nat) (buf : list Z) (bits pos i ord : Z) : option (Z * Z) :=
  match fuel with
  | O => None
  | S fuel' =>
      if i <? pos then
        i' ← find_next_bit buf bits (i + 1); ord_loop fuel' buf bits pos i' (ord + 1)
      else Some (i, ord)
  end.

Definition bitmap_pos_to_ord (buf : list Z) (pos bits : Z) : option Z :=
  if (pos <? 0) || (bits <=? pos) then Some (-1)
  else
    b ← test_bit pos buf;
    if negb b then Some (-1)
    else
      i ← find_first_bit buf bits;
      '(i', ord) ← ord_loop (S (Z.to_nat bits)) buf bits pos i 0;
      if negb (i' =? pos) then None (* BUG_ON *) else Some ord.

(** [for (i = ...; i < bits && ord > 0; i = find_next_bit(buf, bits, i + 1)) ord--;] *)
Fixpoint pos_loop (fuel : nat) (buf : list Z) (bits i ord : Z) : option (Z * Z) :=
  match fuel with
  | O => None
  | S fuel' =>
      if (i <? bits) && (0 <? ord) then
        i' ← find_next_bit buf bits (i + 1); pos_loop fuel' buf bits i' (ord - 1)
      else Some (i, ord)
  end.

Definition bitmap_ord_to_pos (buf : list Z) (ord bits : Z) : option Z :=
  if (0 <=? ord) && (ord <? bits) then
    i ← find_first_bit buf bits;
    '(i', ord') ← pos_loop (S (Z.to_nat bits)) buf bits i ord;
    Some (if (i' <? bits) && (ord' =? 0) then i' else 0)
  else Some 0.

Definition bitmap_bitremap (oldbit : Z) (old new : list Z) (bits : Z) : option Z :=
  w ← __bitmap_weight new bits;
  n ← bitmap_pos_to_ord old oldbit bits;
  if (n <? 0) || (w =? 0) then Some oldbit
  else bitmap_ord_to_pos new (n `mod` w) bits.

(** ** Maps of whole bitmaps

    [for_each_set_bit(bit, addr, size) body] re-reads the bitmap at [addr] on
    every iteration. *)
Fixpoint set_bit_loop {A} (fuel : nat) (addr : nat) (size bit : Z) (acc : A)
    (body : Z → A → prog heap A) : prog heap A :=
  match fuel with
  | O => wrong
  | S fuel' =>
      if bit <? size then
        acc' ← body bit acc;
        w ← block addr;
        bit' ← lift (find_next_bit w size (bit + 1));
        set_bit_loop fuel' addr size bit' acc' body
      else mret acc
  end.

Definition for_each_set_bit {A} (addr : nat) (size : Z) (acc : A) (body : Z → A → prog heap A)
    : prog heap A :=
  w ← block addr;
  bit ← lift (find_first_bit w size);
  set_bit_loop (S (Z.to_nat size)) addr size bit acc body.

Definition set_bit_at (nr : Z) (dst : nat) : prog heap unit :=
  w ← block dst; w' ← lift (set_bit nr w); set_block dst w'.

Definition bitmap_remap (dst src old new : nat) (bits : Z) : prog heap unit :=
  if decide (dst = src) then mret tt
  else
    _ ← bitmap_zero dst bits;
    wn ← block new;
    w ← lift (__bitmap_weight wn bits);
    for_each_set_bit src bits tt (λ oldbit _,
      wo ← block old;
      n ← lift (bitmap_pos_to_ord wo oldbit bits);
      if (n <? 0) || (w =? 0) then set_bit_at oldbit dst
      else
        wn' ← block new;
        p ← lift (bitmap_ord_to_pos wn' (n `mod` w) bits);
        set_bit_at p dst).

Definition bitmap_onto (dst orig relmap : nat) (bits : Z) : prog heap unit :=
  if decide (dst = orig) then mret tt
  else
    _ ← bitmap_zero dst bits;
    _ ← for_each_set_bit relmap bits 0 (λ n m,
      wo ← block orig;
      b ← lift (test_bit m wo);
      _ ← (if (b : bool) then set_bit_at n dst else mret tt);
      mret (m + 1));
    mret tt.

Definition bitmap_fold (dst orig : nat) (sz bits : Z) : prog heap unit :=
  if decide (dst = orig) then mret tt
  else
    _ ← bitmap_zero dst bits;
    for_each_set_bit orig bits tt (λ oldbit _,
      if sz =? 0 then wrong else set_bit_at (oldbit `mod` sz) dst).

(** ** Regions: correctness *)

Lemma testbit_region_mask nb offset j :
  1 ≤ nb → 0 ≤ offset → offset + nb ≤ 64 → 0 ≤ j < 64 →
  Z.testbit (((1 <<64 (nb - 1)) +64 ((1 <<64 (nb - 1)) - 1)) <<64 offset) j
    = (offset <=? j) && (j <? offset + nb).
Proof.
  intros Hnb Hoff Hle Hj. rewrite Z.shiftl_1_l.
  assert (0 < 2 ^ (nb - 1)) by lia.
  assert (E : 2 ^ nb = 2 * 2 ^ (nb - 1)) by (rewrite <- Z.pow_succ_r by lia; f_equal; lia).
  assert (2 ^ nb ≤ 2 ^ 64) by (apply Z.pow_le_mono_r; lia).
  rewrite (u64_small (2 ^ (nb - 1))), (u64_small (2 ^ (nb - 1) + _)) by lia.
  replace (2 ^ (nb - 1) + (2 ^ (nb - 1) - 1)) with (Z.ones nb) by (rewrite Z.ones_equiv; lia).
  autorewrite with bits. bool_compare; done.
Qed.

(** A region of [2^order] bits at an aligned position either lies inside one
    word or consists of whole words. *)
Lemma region_shape pos order :
  0 ≤ order → 0 ≤ pos → (2 ^ order | pos) →
  let R := 2 ^ order in let nb := Z.min R 64 in let n := BITS_TO_LONGS R in
  1 ≤ nb ∧ pos `mod` 64 + nb ≤ 64 ∧ 1 ≤ n ∧ R = nb * n ∧ (n = 1 ∨ (pos `mod` 64 = 0 ∧ nb = 64)).
Proof.
  intros Ho Hp [q ->]. cbv zeta. unfold BITS_TO_LONGS, BITS_PER_LONG.
  assert (HR : 0 < 2 ^ order) by lia. destruct (decide (order ≤ 6)).
  - assert (Hc : order = 0 ∨ order = 1 ∨ order = 2 ∨ order = 3 ∨ order = 4 ∨ order = 5 ∨ order = 6) by lia.
    destruct Hc as [->|[->|[->|[->|[->|[->| ->]]]]]]; cbn -[Z.modulo Z.div Z.mul Z.add] in *; dlia.
  - assert (E : 2 ^ order = 64 * 2 ^ (order - 6)).
    { change 64 with (2 ^ 6) at 1. rewrite <- Z.pow_add_r by lia. f_equal. lia. }
    assert (0 < 2 ^ (order - 6)) by lia. rewrite E.
    replace ((q * (64 * 2 ^ (order - 6))) `mod` 64) with 0 by (symmetry; apply Z.mod_divide; [lia|]; exists (q * 2 ^ (order - 6)); lia).
    replace ((64 * 2 ^ (order - 6) + 64 - 1) / 64) with (2 ^ (order - 6)) by (apply Z.div_unique with 63; lia).
    rewrite Z.min_r by lia. lia.
Qed.

Section region.
Context (op : Z → Z → Z) (v : bool).
Hypothesis op_range : ∀ w m, is_u64 w → is_u64 m → is_u64 (op w m).
Hypothesis op_bit : ∀ w m j, 0 ≤ j < 64 →
  Z.testbit (op w m) j = if Z.testbit m j then v else Z.testbit w j.

Lemma reg_words_ok n k m o nb map :
  wf_words map → is_u64 m → 0 ≤ k → k + Z.of_nat n ≤ zlen map → 0 ≤ o → o + nb ≤ 64 → 0 ≤ nb →
  ((n ≤ 1)%nat ∨ (o = 0 ∧ nb = 64)) →
  (∀ j, 0 ≤ j < 64 → Z.testbit m j = (o <=? j) && (j <? o + nb)) →
  ∃ map', reg_words n k op m map = Some map' ∧ wf_words map' ∧ length map' = length map ∧
    ∀ i, 0 ≤ i → bm_bit map' i =
      if (64 * k + o <=? i) && (i <? 64 * k + o + nb * Z.of_nat n) then v else bm_bit map i.
Proof.
  intros Hwf Hm Hk Hlen Ho Hnb Hnb0 Hn Hbits. revert k map Hwf Hk Hlen Hn.
  induction n as [|n IH]; intros k map Hwf Hk Hlen Hn; cbn [reg_words].
  - exists map. split; [done|]. split; [done|]. split; [done|]. intros i Hi. by bool_compare.
  - destruct (range_word op v op_range op_bit map k m (64 * k + o) (64 * k + o + nb))
      as (w & map1 & -> & Hwr & Hwf1 & Hlen1 & Hbit1); [done|done|lia|lia|lia| |].
    { intros j Hj. rewrite Hbits by done. bool_compare; done. }
    cbn [mbind option_bind]. rewrite Hwr. cbn [mbind option_bind].
    destruct (IH (k + 1) map1) as (map' & -> & Hwf' & Hlen' & Hbit'); [done|lia|rewrite Hlen1; lia|lia|].
    exists map'. split; [done|]. split; [done|]. split; [congruence|]. intros i Hi.
    rewrite Hbit', Hbit1 by done.
    destruct Hn as [Hn|[-> ->]].
    + assert (n = 0%nat) as -> by lia. bool_compare; done.
    + bool_compare; done.
Qed.
End region.

(** The bits of the region at [pos]. *)
Definition in_region (pos order i : Z) : bool := (pos <=? i) && (i <? pos + 2 ^ order).
Definition region_free (bitmap : list Z) (pos order : Z) : Prop :=
  ∀ i, in_region pos order i = true → bm_bit bitmap i = false.

Definition valid_region (bitmap : list Z) (pos order : Z) : Prop :=
  wf_words bitmap ∧ 0 ≤ order ∧ 0 ≤ pos ∧ (2 ^ order | pos) ∧ pos + 2 ^ order ≤ 64 * zlen bitmap.

Lemma reg_op_setup bitmap pos order :
  valid_region bitmap pos order →
  let R := 2 ^ order in let nb := Z.min R 64 in let n := BITS_TO_LONGS R in
  let m := ((1 <<64 (nb - 1)) +64 ((1 <<64 (nb - 1)) - 1)) <<64 (pos `mod` 64) in
  1 ≤ nb ∧ pos `mod` 64 + nb ≤ 64 ∧ 1 ≤ n ∧ R = nb * n ∧ (n = 1 ∨ (pos `mod` 64 = 0 ∧ nb = 64)) ∧
  is_u64 m ∧ (∀ j, 0 ≤ j < 64 → Z.testbit m j = (pos `mod` 64 <=? j) && (j <? pos `mod` 64 + nb)) ∧
  pos / 64 + n ≤ zlen bitmap ∧ pos = 64 * (pos / 64) + pos `mod` 64.
Proof.
  intros (Hwf & Ho & Hp & Hdiv & Hlen). cbv zeta.
  destruct (region_shape pos order Ho Hp Hdiv) as (H1 & H2 & H3 & H4 & H5).
  split; [done|]. split; [done|]. split; [done|]. split; [done|]. split; [done|].
  split; [apply u64_range|]. split; [intros; apply testbit_region_mask; dlia|].
  split; [|dlia]. destruct H5 as [E|[E E']]; [rewrite E; dlia|]. rewrite H4, E' in Hlen. dlia.
Qed.

Lemma reg_update_ok bitmap pos order op v :
  (∀ w m, is_u64 w → is_u64 m → is_u64 (op w m)) →
  (∀ w m j, 0 ≤ j < 64 → Z.testbit (op w m) j = if Z.testbit m j then v else Z.testbit w j) →
  valid_region bitmap pos order →
  let nb := Z.min (2 ^ order) 64 in
  ∃ bitmap', reg_words (Z.to_nat (BITS_TO_LONGS (2 ^ order))) (pos / 64) op
      (((1 <<64 (nb - 1)) +64 ((1 <<64 (nb - 1)) - 1)) <<64 (pos `mod` 64)) bitmap = Some bitmap' ∧
    wf_words bitmap' ∧ length bitmap' = length bitmap ∧
    ∀ i, 0 ≤ i → bm_bit bitmap' i = if in_region pos order i then v else bm_bit bitmap i.
Proof.
  intros Hr Hb Hv. cbv zeta.
  destruct (reg_op_setup _ _ _ Hv) as (H1 & H2 & H3 & H4 & H5 & H6 & H7 & H8 & H9).
  destruct Hv as (Hwf & Ho & Hp & _ & _).
  destruct (reg_words_ok op v Hr Hb (Z.to_nat (BITS_TO_LONGS (2 ^ order))) (pos / 64)
    (((1 <<64 (Z.min (2 ^ order) 64 - 1)) +64 ((1 <<64 (Z.min (2 ^ order) 64 - 1)) - 1)) <<64 (pos `mod` 64))
    (pos `mod` 64) (Z.min (2 ^ order) 64) bitmap) as (map' & E & Hwf' & Hlen' & Hbit');
    [done|done|dlia|lia|dlia|lia|lia|destruct H5; [left; lia|by right]|done|].
  exists map'. split; [done|]. split; [done|]. split; [done|]. intros i Hi. rewrite Hbit' by done.
  unfold in_region. by rewrite Z2Nat.id, <- H4, <- H9 by lia.
Qed.

Lemma reg_op_shift order pos :
  0 ≤ order → Z.shiftl 1 order = 2 ^ order ∧ pos - pos / 64 * 64 = pos `mod` 64.
Proof. intros. rewrite Z.shiftl_1_l. split; [done|dlia]. Qed.

Lemma reg_alloc_ok bitmap pos order :
  valid_region bitmap pos order →
  ∃ bitmap', __reg_op bitmap pos order REG_OP_ALLOC = Some (0, bitmap') ∧
    wf_words bitmap' ∧ length bitmap' = length bitmap ∧
    ∀ i, 0 ≤ i → bm_bit bitmap' i = in_region pos order i || bm_bit bitmap i.
Proof.
  intros Hv. unfold __reg_op, BITS_PER_LONG.
  destruct (reg_op_shift order pos) as [-> ->]; [apply Hv|].
  destruct (reg_update_ok bitmap pos order (λ w m, w .| m) true) as (b' & -> & Hwf & Hlen & Hb);
    [auto with bits| |done|].
  { intros w m j Hj. rewrite Z.lor_spec. destruct (Z.testbit m j); [apply orb_true_r|apply orb_false_r]. }
  exists b'. split; [done|]. split; [done|]. split; [done|]. intros i Hi. rewrite Hb by done. by case_match.
Qed.

Lemma reg_release_ok bitmap pos order :
  valid_region bitmap pos order →
  ∃ bitmap', __reg_op bitmap pos order REG_OP_RELEASE = Some (0, bitmap') ∧
    wf_words bitmap' ∧ length bitmap' = length bitmap ∧
    ∀ i, 0 ≤ i → bm_bit bitmap' i = negb (in_region pos order i) && bm_bit bitmap i.
Proof.
  intros Hv. unfold __reg_op, BITS_PER_LONG.
  destruct (reg_op_shift order pos) as [-> ->]; [apply Hv|].
  destruct (reg_update_ok bitmap pos order (λ w m, w .& ~64 m) false) as (b' & -> & Hwf & Hlen & Hb);
    [auto with bits| |done|].
  { intros w m j Hj. rewrite testbit_andnot by done.
    destruct (Z.testbit m j); [apply andb_false_r|apply andb_true_r]. }
  exists b'. split; [done|]. split; [done|]. split; [done|]. intros i Hi. rewrite Hb by done. by case_match.
Qed.

Lemma reg_isfree_ok bitmap pos order :
  valid_region bitmap pos order →
  ∃ free, __reg_op bitmap pos order REG_OP_ISFREE = Some (free, bitmap) ∧
    (free = 0 ∨ free = 1) ∧ (free = 1 ↔ region_free bitmap pos order).
Proof.
  intros Hv. unfold __reg_op, BITS_PER_LONG.
  destruct (reg_op_shift order pos) as [-> ->]; [apply Hv|].
  destruct (reg_op_setup _ _ _ Hv) as (H1 & H2 & H3 & H4 & H5 & H6 & H7 & H8 & H9).
  set (m := _ <<64 (pos `mod` 64)) in *. set (nb := Z.min (2 ^ order) 64) in *.
  set (n := BITS_TO_LONGS (2 ^ order)) in *. destruct Hv as (Hwf & Ho & Hp & _ & _).
  destruct (any_word_spec (Z.to_nat n) (pos / 64) (λ k, w ← rd bitmap k; Some (negb (w .& m =? 0)))
    (λ k, negb (word_at bitmap k .& m =? 0))) as (hit & -> & Hhit).
  { intros k Hk. destruct (rd_in bitmap k) as [w Hw]; [dlia|]. unfold word_at. by rewrite Hw. }
  cbn [mbind option_bind]. eexists. split; [done|]. split; [destruct hit; auto|].
  transitivity (hit = false); [by destruct hit|].
  assert (Hword : ∀ k j, pos / 64 ≤ k < pos / 64 + n → 0 ≤ j < 64 →
    Z.testbit (word_at bitmap k .& m) j = in_region pos order (64 * k + j) && bm_bit bitmap (64 * k + j)).
  { intros k j Hk Hj. rewrite Z.land_spec, H7 by done.
    destruct (rd_in bitmap k) as [w Hw]; [dlia|]. unfold word_at. rewrite Hw. simpl.
    rewrite (bm_bit_word bitmap k j w) by done. rewrite andb_comm. f_equal.
    unfold in_region. apply eq_true_iff_eq. rewrite !andb_true_iff, !Z.leb_le, !Z.ltb_lt.
    rewrite H4. destruct H5 as [E|[E E']]; [rewrite E in *|rewrite E' in *]; lia. }
  unfold region_free. split.
  - intros -> i Hreg. destruct (bm_bit bitmap i) eqn:E; [|done]. symmetry. apply Hhit.
    unfold in_region in Hreg. rewrite andb_true_iff, Z.leb_le, Z.ltb_lt in Hreg.
    exists (i / 64). rewrite Z2Nat.id by lia. split.
    { rewrite H4 in Hreg. destruct H5 as [E1|[E1 E2]]; [rewrite E1 in *|rewrite E2 in *]; dlia. }
    rewrite negb_true_iff, Z.eqb_neq. intros E0.
    specialize (Hword (i / 64) (i `mod` 64)). rewrite E0, Z.bits_0, <- Z.div_mod, E, andb_true_r in Hword by lia.
    assert (Hc : false = in_region pos order i).
    { apply Hword; [|apply Z.mod_pos_bound; lia].
      rewrite H4 in Hreg. destruct H5 as [E1|[E1 E2]]; [rewrite E1 in *|rewrite E2 in *]; dlia. }
    unfold in_region in Hc. revert Hc. by bool_compare.
  - intros Hfree. destruct hit; [|done]. destruct (proj1 Hhit eq_refl) as (k & Hk & Hne).
    rewrite Z2Nat.id in Hk by lia. rewrite negb_true_iff, Z.eqb_neq in Hne.
    assert (Hr : is_u64 (word_at bitmap k .& m)) by (rewrite Z.land_comm; auto with bits).
    destruct (nonzero_bit 64 _ Hr Hne) as (j & Hj & Ht).
    rewrite Hword, andb_true_iff in Ht by done. rewrite Hfree in Ht by tauto. naive_solver.
Qed.

Lemma valid_region_next bitmap bits order pos :
  wf_words bitmap → bits ≤ 64 * zlen bitmap → 0 ≤ order → 0 ≤ pos → (2 ^ order | pos) →
  pos + 2 ^ order ≤ bits → valid_region bitmap pos order.
Proof. intros. by repeat split; try lia. Qed.

Lemma find_free_loop_ok fuel bitmap bits order pos :
  wf_words bitmap → bits ≤ 64 * zlen bitmap → 0 ≤ order → 0 ≤ pos → (2 ^ order | pos) →
  bits - pos < Z.of_nat fuel → (0 < fuel)%nat →
  (∀ x, 0 ≤ x < pos → (2 ^ order | x) → ¬ region_free bitmap x order) →
  ∃ r bitmap', find_free_loop fuel bitmap bits order pos = Some (r, bitmap') ∧
    ((0 ≤ r ∧ (2 ^ order | r) ∧ r + 2 ^ order ≤ bits ∧ region_free bitmap r order ∧
      (∀ x, 0 ≤ x < r → (2 ^ order | x) → ¬ region_free bitmap x order) ∧
      wf_words bitmap' ∧ length bitmap' = length bitmap ∧
      ∀ i, 0 ≤ i → bm_bit bitmap' i = in_region r order i || bm_bit bitmap i)
     ∨ (r = - ENOMEM ∧ bitmap' = bitmap ∧
        ∀ x, 0 ≤ x → (2 ^ order | x) → x + 2 ^ order ≤ bits → ¬ region_free bitmap x order)).
Proof.
  intros Hwf Hlen Ho. assert (HR : 0 < 2 ^ order) by lia. revert pos.
  induction fuel as [|fuel IH]; intros pos Hp Hdiv Hfuel Hpos Hbusy; [lia|].
  cbn [find_free_loop]. rewrite Z.shiftl_1_l.
  destruct (Z.leb_spec (pos + 2 ^ order) bits) as [Hle|Hgt].
  - assert (Hv : valid_region bitmap pos order) by (by eapply valid_region_next).
    destruct (reg_isfree_ok _ _ _ Hv) as (free & -> & Hfree & Hiff). cbn [mbind option_bind].
    destruct (Z.eqb_spec free 0) as [E|E].
    + apply IH; [lia|apply Z.divide_add_r; [done|apply Z.divide_refl]|lia|lia|].
      intros x Hx Hxd Hxf. destruct (decide (x < pos)); [by apply (Hbusy x); [lia|..]|].
      assert (x = pos) as ->.
      { destruct Hdiv as [q ->], Hxd as [q' ->]. f_equal. nia. }
      apply Hiff in Hxf. lia.
    + destruct (reg_alloc_ok _ _ _ Hv) as (b' & -> & Hwf' & Hlen' & Hb'). cbn [mbind option_bind].
      exists pos, b'. split; [done|]. left. split; [done|]. split; [done|]. split; [done|].
      split; [apply Hiff; lia|]. done.
  - exists (- ENOMEM), bitmap. split; [done|]. right. split; [done|]. split; [done|].
    intros x Hx Hxd Hxe. destruct (decide (x < pos)); [by apply Hbusy|lia].
Qed.

(** [bitmap_find_free_region] terminates; it allocates the first free
    aligned region of [2^order] bits, setting exactly its bits, or returns
    [-ENOMEM] leaving the bitmap unchanged when no aligned region is free. *)
Lemma find_free_region_first bitmap bits order :
  wf_words bitmap → 0 ≤ bits ≤ 64 * zlen bitmap → 0 ≤ order →
  ∃ r bitmap', bitmap_find_free_region bitmap bits order = Some (r, bitmap') ∧
    ((0 ≤ r ∧ (2 ^ order | r) ∧ r + 2 ^ order ≤ bits ∧ region_free bitmap r order ∧
      (∀ x, 0 ≤ x < r → (2 ^ order | x) → ¬ region_free bitmap x order) ∧
      wf_words bitmap' ∧ length bitmap' = length bitmap ∧
      ∀ i, 0 ≤ i → bm_bit bitmap' i = in_region r order i || bm_bit bitmap i)
     ∨ (r = - ENOMEM ∧ bitmap' = bitmap ∧
        ∀ x, 0 ≤ x → (2 ^ order | x) → x + 2 ^ order ≤ bits → ¬ region_free bitmap x order)).
Proof.
  intros. apply find_free_loop_ok; [done|lia|done|done|apply Z.divide_0_r|lia|lia|intros; lia].
Qed.

Example find_free_region_first_witness :
  (∃ r bitmap', bitmap_find_free_region [0x10F; 0] 128 2 = Some (r, bitmap') ∧
    ((0 ≤ r ∧ (2 ^ 2 | r) ∧ r + 2 ^ 2 ≤ 128 ∧ region_free [0x10F; 0] r 2 ∧
      (∀ x, 0 ≤ x < r → (2 ^ 2 | x) → ¬ region_free [0x10F; 0] x 2) ∧
      wf_words bitmap' ∧ length bitmap' = 2%nat ∧
      ∀ i, 0 ≤ i → bm_bit bitmap' i = in_region r 2 i || bm_bit [0x10F; 0] i)
     ∨ (r = - ENOMEM ∧ bitmap' = [0x10F; 0] ∧
        ∀ x, 0 ≤ x → (2 ^ 2 | x) → x + 2 ^ 2 ≤ 128 → ¬ region_free [0x10F; 0] x 2)))
  ∧ bitmap_find_free_region [0x10F; 0] 128 2 = Some (4, [0x1FF; 0]).
Proof.
  split; [|vm_compute; reflexivity].
  apply (find_free_region_first [0x10F; 0] 128 2); [repeat constructor; lia|simpl; lia|lia].
Defined.

Lemma allocate_region_ok bitmap pos order :
  valid_region bitmap pos order →
  ∃ r bitmap', bitmap_allocate_region bitmap pos order = Some (r, bitmap') ∧
    ((region_free bitmap pos order ∧ r = 0 ∧ wf_words bitmap' ∧ length bitmap' = length bitmap ∧
      ∀ i, 0 ≤ i → bm_bit bitmap' i = in_region pos order i || bm_bit bitmap i)
     ∨ (¬ region_free bitmap pos order ∧ r = - EBUSY ∧ bitmap' = bitmap)).
Proof.
  intros Hv. unfold bitmap_allocate_region.
  destruct (reg_isfree_ok _ _ _ Hv) as (free & -> & Hfree & Hiff). cbn [mbind option_bind].
  destruct (Z.eqb_spec free 0) as [E|E].
  - exists (- EBUSY), bitmap. split; [done|]. right. rewrite <- Hiff. split; [lia|done].
  - destruct (reg_alloc_ok _ _ _ Hv) as (b' & -> & Hwf & Hlen & Hb). cbn [mbind option_bind].
    exists 0, b'. split; [done|]. left. split; [apply Hiff; lia|done].
Qed.

(** [bitmap_allocate_region] succeeds exactly when the region is free
    ([-EBUSY] and an unchanged bitmap otherwise), and [bitmap_release_region]
    undoes a successful allocation: the bitmap is again the original one. *)
Lemma allocate_release_roundtrip bitmap pos order :
  valid_region bitmap pos order →
  (region_free bitmap pos order →
     ∃ bitmap', bitmap_allocate_region bitmap pos order = Some (0, bitmap') ∧
                bitmap_release_region bitmap' pos order = Some bitmap) ∧
  (¬ region_free bitmap pos order →
     bitmap_allocate_region bitmap pos order = Some (- EBUSY, bitmap)).
Proof.
  intros Hv. destruct (allocate_region_ok _ _ _ Hv) as (r & b' & -> & Hr). split; intros Hf.
  - destruct Hr as [(_ & -> & Hwf & Hlen & Hb)|(? & _)]; [|done].
    exists b'. split; [done|]. assert (Hv' : valid_region b' pos order).
    { destruct Hv as (_ & ? & ? & ? & ?). rewrite <- Hlen in *. by repeat split. }
    destruct (reg_release_ok _ _ _ Hv') as (b'' & E & Hwf'' & Hlen'' & Hb'').
    unfold bitmap_release_region. rewrite E. cbn [mbind option_bind]. f_equal.
    apply bm_bit_ext; [done|apply Hv|congruence|]. intros i Hi. rewrite Hb'', Hb by lia.
    destruct (in_region pos order i) eqn:Ei; simpl; [|done]. symmetry. by apply Hf.
  - destruct Hr as [(? & _)|(_ & -> & ->)]; [done|]. done.
Qed.

Example allocate_release_roundtrip_witness :
  ∃ bitmap', bitmap_allocate_region [0x10F; 0] 64 6 = Some (0, bitmap') ∧
             bitmap_release_region bitmap' 64 6 = Some [0x10F; 0].
Proof.
  apply (allocate_release_roundtrip [0x10F; 0] 64 6).
  - split; [repeat constructor; lia|]. split; [lia|]. split; [lia|].
    split; [by exists 1|simpl; lia].
  - intros i Hi. unfold in_region in Hi. rewrite andb_true_iff, Z.leb_le, Z.ltb_lt in Hi.
    unfold bm_bit. replace (i / 64) with 1 by (apply Z.div_unique with (i - 64); lia).
    simpl. apply Z.bits_0.
Defined.

(** ** Ordinals: correctness *)

Lemma count_step P i i' :
  0 ≤ i < i' → P i = true → (∀ j, i < j < i' → P j = false) →
  count P 0 (Z.to_nat i') = count P 0 (Z.to_nat i) + 1.
Proof.
  intros Hi HP Hz. replace (Z.to_nat i') with (Z.to_nat i + (1 + Z.to_nat (i' - i - 1)))%nat by lia.
  rewrite !count_app. rewrite Z.add_0_l, Z2Nat.id by lia. simpl count at 2. rewrite HP.
  match goal with |- context [count P ?lo ?n] => match lo with i + _ => rewrite (proj2 (count_zero P lo n)) end end;
    [simpl; lia|]. intros j Hj. apply Hz. lia.
Qed.

Lemma count_none P i : 0 ≤ i → (∀ j, 0 ≤ j < i → P j = false) → count P 0 (Z.to_nat i) = 0.
Proof. intros Hi Hz. apply count_zero. intros j Hj. apply Hz. lia. Qed.

Lemma count_mono P i j : 0 ≤ i ≤ j → count P 0 (Z.to_nat i) ≤ count P 0 (Z.to_nat j).
Proof.
  intros. replace (Z.to_nat j) with (Z.to_nat i + Z.to_nat (j - i))%nat by lia.
  rewrite count_app. pose proof (count_bounds P (0 + Z.of_nat (Z.to_nat i)) (Z.to_nat (j - i))). lia.
Qed.

(** [p] is the position of the [n]-th set bit (from 0) among the first [bits]. *)
Definition is_nth (P : Z → bool) (bits n p : Z) : Prop :=
  0 ≤ p < bits ∧ P p = true ∧ count P 0 (Z.to_nat p) = n.

Lemma is_nth_unique P bits n p q : is_nth P bits n p → is_nth P bits n q → p = q.
Proof.
  assert (Hlt : ∀ p q, is_nth P bits n p → is_nth P bits n q → ¬ p < q).
  { intros a b (Ha & HPa & Ea) (Hb & HPb & Eb) Hab.
    pose proof (count_step P a (a + 1) ltac:(lia) HPa ltac:(intros; lia)).
    pose proof (count_mono P (a + 1) b ltac:(lia)). lia. }
  intros Hp Hq. pose proof (Hlt p q Hp Hq). pose proof (Hlt q p Hq Hp). lia.
Qed.

Section ordinals.
Context (buf : list Z) (bits : Z).
Hypothesis Hok : bitmap_ok buf bits.
Hypothesis Hbits : bits ≤ INT_MAX.
Let P := bm_bit buf.

Lemma next_ok i : 0 ≤ i < bits →
  ∃ r, find_next_bit buf bits (i + 1) = Some r ∧ is_next P bits (i + 1) r ∧ i < r ≤ bits.
Proof.
  intros Hi. unfold INT_MAX in *. destruct Hok as [Hwf Hb].
  destruct (find_next_bit_ok buf bits (i + 1)) as (r & E & Hr); [done|lia|lia|lia|].
  exists r. split; [done|]. split; [done|]. destruct Hr as [(? & _)|[-> _]]; lia.
Qed.

Lemma first_ok : ∃ r, find_first_bit buf bits = Some r ∧ is_next P bits 0 r ∧ 0 ≤ r ≤ bits.
Proof.
  unfold INT_MAX in *. destruct Hok as [Hwf Hb].
  destruct (find_first_bit_ok buf bits) as (r & E & Hr); [done|lia|lia|].
  exists r. split; [done|]. split; [done|]. destruct Hr as [(? & _)|[-> _]]; lia.
Qed.

Lemma ord_loop_ok fuel pos i :
  0 ≤ i ≤ pos → pos < bits → P i = true → P pos = true → pos - i < Z.of_nat fuel →
  ord_loop fuel buf bits pos i (count P 0 (Z.to_nat i)) = Some (pos, count P 0 (Z.to_nat pos)).
Proof.
  revert i. induction fuel as [|fuel IH]; intros i Hi Hp HPi HPp Hf; [lia|]. cbn [ord_loop].
  destruct (Z.ltb_spec i pos) as [Hlt|Hge].
  - destruct (next_ok i) as (r & -> & Hn & Hr); [lia|]. cbn [mbind option_bind].
    assert (Hrp : r ≤ pos).
    { destruct (decide (r ≤ pos)); [done|].
      destruct Hn as [(_ & _ & Hz)|[_ Hz]]; rewrite Hz in HPp by lia; done. }
    destruct Hn as [(Hr' & HPr & Hz)|[-> _]]; [|lia].
    rewrite <- (count_step P i r) by (done || lia || (intros; apply Hz; lia)).
    apply IH; [lia|done|done|done|lia].
  - by replace i with pos by lia.
Qed.

Lemma pos_to_ord_ok pos :
  bitmap_pos_to_ord buf pos bits =
    Some (if (0 <=? pos) && (pos <? bits) && P pos then count P 0 (Z.to_nat pos) else -1).
Proof.
  unfold bitmap_pos_to_ord. destruct (Z.ltb_spec pos 0), (Z.leb_spec bits pos); cbn [orb].
  1-3: bool_compare; done.
  destruct Hok as [Hwf Hb]. rewrite test_bit_spec by lia. cbn [mbind option_bind].
  fold P. destruct (Z.leb_spec 0 pos), (Z.ltb_spec pos bits); try lia. cbn [andb].
  destruct (P pos) eqn:EP; cbn [negb]; [|done].
  destruct first_ok as (r & -> & Hn & Hr). cbn [mbind option_bind].
  assert (Hrp : r ≤ pos).
  { destruct (decide (r ≤ pos)); [done|].
    destruct Hn as [(_ & _ & Hz)|[_ Hz]]; rewrite Hz in EP by lia; done. }
  destruct Hn as [(Hr' & HPr & Hz)|[-> _]]; [|lia].
  pose proof (ord_loop_ok (S (Z.to_nat bits)) pos r ltac:(lia) ltac:(lia) HPr EP ltac:(lia)) as E.
  rewrite (count_none P r) in E by (lia || (intros; apply Hz; lia)).
  rewrite E. cbn [mbind option_bind]. by rewrite Z.eqb_refl.
Qed.

Lemma pos_loop_ok fuel i ord :
  0 ≤ i ≤ bits → (i = bits ∨ P i = true) → 0 ≤ ord → bits - i < Z.of_nat fuel →
  ∃ i' ord', pos_loop fuel buf bits i ord = Some (i', ord') ∧ 0 ≤ i' ≤ bits ∧ 0 ≤ ord' ∧
    (i' = bits ∨ P i' = true) ∧ (i' = bits ∨ ord' = 0) ∧
    count P 0 (Z.to_nat i') + ord' = count P 0 (Z.to_nat i) + ord.
Proof.
  revert i ord. induction fuel as [|fuel IH]; intros i ord Hi HPi Ho Hf; [lia|]. cbn [pos_loop].
  destruct (Z.ltb_spec i bits) as [Hlt|Hge], (Z.ltb_spec 0 ord) as [Ho'|Ho']; cbn [andb].
  - destruct (next_ok i) as (r & -> & Hn & Hr); [lia|]. cbn [mbind option_bind].
    destruct HPi as [->|HPi]; [lia|].
    assert (Hz : ∀ j, i < j < r → P j = false).
    { intros j Hj. destruct Hn as [(_ & _ & Hz)|[_ Hz]]; apply Hz; lia. }
    destruct (IH r (ord - 1)) as (i' & ord' & -> & H1 & H2 & H3 & H4 & H5);
      [lia|destruct Hn as [(_ & ? & _)|[? _]]; auto|lia|lia|].
    exists i', ord'. do 5 (split; [done|]). rewrite (count_step P i r) in H5 by (done || lia). lia.
  - exists i, ord. split; [done|]. split; [lia|]. split; [lia|]. split; [done|]. split; [right; lia|done].
  - exists i, ord. split; [done|]. split; [lia|]. split; [lia|]. split; [done|]. split; [left; lia|done].
  - exists i, ord. split; [done|]. split; [lia|]. split; [lia|]. split; [done|]. split; [left; lia|done].
Qed.

Lemma ord_to_pos_ok ord :
  ∃ p, bitmap_ord_to_pos buf ord bits = Some p ∧
    ((0 ≤ ord < count P 0 (Z.to_nat bits) ∧ is_nth P bits ord p) ∨
     (¬ 0 ≤ ord < count P 0 (Z.to_nat bits) ∧ p = 0)).
Proof.
  unfold bitmap_ord_to_pos. destruct Hok as [_ Hb].
  pose proof (count_bounds P 0 (Z.to_nat bits)) as Hcb.
  destruct (Z.leb_spec 0 ord), (Z.ltb_spec ord bits); cbn [andb];
    try (exists 0; split; [done|]; right; split; [lia|done]).
  destruct first_ok as (r & -> & Hn & Hr). cbn [mbind option_bind].
  assert (Hz : count P 0 (Z.to_nat r) = 0).
  { apply count_none; [lia|]. intros j Hj. destruct Hn as [(_ & _ & Hz)|[_ Hz]]; apply Hz; lia. }
  destruct (pos_loop_ok (S (Z.to_nat bits)) r ord) as (i' & ord' & -> & H1 & H2 & H3 & H4 & H5);
    [lia|destruct Hn as [(_ & ? & _)|[? _]]; auto|lia|lia|].
  cbn [mbind option_bind]. rewrite Hz in H5.
  eexists. split; [done|]. destruct (Z.ltb_spec i' bits); cbn [andb].
  - destruct H3 as [->|HP]; [lia|]. destruct H4 as [->| ->]; [lia|]. rewrite Z.eqb_refl.
    left. pose proof (count_step P i' (i' + 1) ltac:(lia) HP ltac:(intros; lia)).
    pose proof (count_mono P (i' + 1) bits ltac:(lia)). split; [lia|]. split; [lia|]. split; [done|lia].
  - right. replace i' with bits in * by lia. split; [lia|done].
Qed.
End ordinals.

(** ** Maps of bitmaps: correctness *)

(** The position [bitmap_bitremap] maps a bit to. *)
Definition remaps (old new : list Z) (bits j i : Z) : Prop :=
  let w := count (bm_bit new) 0 (Z.to_nat bits) in
  if bm_bit old j && negb (w =? 0)
  then is_nth (bm_bit new) bits (count (bm_bit old) 0 (Z.to_nat j) `mod` w) i
  else i = j.

Lemma bitremap_ok old new bits j :
  bitmap_ok old bits → bitmap_ok new bits → bits ≤ INT_MAX → 0 ≤ j < bits →
  ∃ i, bitmap_bitremap j old new bits = Some i ∧ 0 ≤ i < bits ∧ remaps old new bits j i.
Proof.
  intros Ho Hn Hb Hj. unfold bitmap_bitremap, remaps.
  rewrite __bitmap_weight_ok by done. cbn [mbind option_bind].
  rewrite pos_to_ord_ok by done. cbn [mbind option_bind].
  pose proof (count_bounds (bm_bit new) 0 (Z.to_nat bits)).
  pose proof (count_bounds (bm_bit old) 0 (Z.to_nat j)).
  set (w := count _ 0 (Z.to_nat bits)) in *.
  destruct (Z.leb_spec 0 j), (Z.ltb_spec j bits); try lia. cbn [andb].
  destruct (bm_bit old j); cbn [andb].
  - destruct (Z.ltb_spec (count (bm_bit old) 0 (Z.to_nat j)) 0); [lia|]. cbn [orb].
    destruct (Z.eqb_spec w 0) as [E|E]; cbn [negb]; [by exists j|].
    destruct (ord_to_pos_ok new bits Hn Hb (count (bm_bit old) 0 (Z.to_nat j) `mod` w)) as (p & -> & Hp).
    pose proof (Z.mod_pos_bound (count (bm_bit old) 0 (Z.to_nat j)) w ltac:(lia)).
    destruct Hp as [(_ & Hp)|[Hp _]]; [|fold w in Hp; lia].
    exists p. split; [done|]. split; [apply Hp|done].
  - by exists j.
Qed.

Section for_each.
Context {A : Type} (addr : nat) (wa : list Z) (size : Z).
Hypothesis Hok : bitmap_ok wa size.
Hypothesis Hsize : size ≤ INT_MAX.
Context (body : Z → A → prog heap A) (I : Z → A → heap → Prop).
Hypothesis I_src : ∀ i a h, I i a h → h !! addr = Some wa.
Hypothesis I_skip : ∀ i a h, 0 ≤ i < size → bm_bit wa i = false → I i a h → I (i + 1) a h.
Hypothesis I_step : ∀ i a h, 0 ≤ i < size → bm_bit wa i = true → I i a h → wp (body i a) (I (i + 1)) h.

Lemma I_skip_to i k a h :
  0 ≤ i ≤ k → k ≤ size → (∀ j, i ≤ j < k → bm_bit wa j = false) → I i a h → I k a h.
Proof.
  intros Hi Hk Hz. replace k with (i + Z.of_nat (Z.to_nat (k - i))) by lia.
  assert (Hn : Z.of_nat (Z.to_nat (k - i)) ≤ k - i) by lia. revert Hn.
  induction (Z.to_nat (k - i)) as [|n IH]; intros Hn HI; [by rewrite Z.add_0_r|].
  replace (i + Z.of_nat (S n)) with (i + Z.of_nat n + 1) by lia.
  apply I_skip; [lia|apply Hz; lia|]. apply IH; [lia|done].
Qed.

Lemma wp_set_bit_loop fuel i a h (Q : A → heap → Prop) :
  0 ≤ i ≤ size → (i = size ∨ bm_bit wa i = true) → size - i < Z.of_nat fuel → I i a h →
  (∀ a' h', I size a' h' → Q a' h') → wp (set_bit_loop fuel addr size i a body) Q h.
Proof.
  intros Hi Hset Hf HI HQ. revert i a h Hi Hset Hf HI.
  induction fuel as [|fuel IH]; intros i a h Hi Hset Hf HI; [lia|]. cbn [set_bit_loop].
  destruct (Z.ltb_spec i size) as [Hlt|Hge].
  - destruct Hset as [->|Hset]; [lia|]. apply wp_bind.
    eapply wp_mono; [apply I_step; [lia|done|done]|]. intros a' h' HI'.
    apply wp_bind. eapply wp_block; [by eapply I_src|]. apply wp_bind.
    destruct (next_ok wa size Hok Hsize i) as (r & E & Hn & Hr); [lia|].
    eapply wp_lift; [done|]. apply IH; [lia|destruct Hn as [(_ & ? & _)|[? _]]; auto|lia|].
    apply (I_skip_to (i + 1)); [lia|lia| |done].
    intros j Hj. destruct Hn as [(_ & _ & Hz)|[_ Hz]]; apply Hz; lia.
  - apply wp_ret, HQ. by replace size with i by lia.
Qed.

Lemma wp_for_each_set_bit a h (Q : A → heap → Prop) :
  I 0 a h → (∀ a' h', I size a' h' → Q a' h') → wp (for_each_set_bit addr size a body) Q h.
Proof.
  intros HI HQ. unfold for_each_set_bit. apply wp_bind.
  eapply wp_block; [by eapply I_src|]. apply wp_bind.
  destruct (first_ok wa size Hok Hsize) as (r & E & Hn & Hr). eapply wp_lift; [done|].
  apply wp_set_bit_loop; [lia|destruct Hn as [(_ & ? & _)|[? _]]; auto|lia| |done].
  apply (I_skip_to 0); [lia|lia| |done].
  intros j Hj. destruct Hn as [(_ & _ & Hz)|[_ Hz]]; apply Hz; lia.
Qed.
End for_each.

(** The destination while the bits below [k] of the source have been mapped
    by the relation [M]. *)
Definition mapped (h : heap) (dst : nat) (wd : list Z) (bits : Z) (M : Z → Z → Prop) (k : Z) (h' : heap) : Prop :=
  ∃ wd', h' = <[dst := wd']> h ∧ length wd' = length wd ∧ wf_words wd' ∧
    (∀ i, 0 ≤ i < 64 * BITS_TO_LONGS bits → (bm_bit wd' i = true ↔ ∃ j, 0 ≤ j < k ∧ M j i)) ∧
    (∀ i, 64 * BITS_TO_LONGS bits ≤ i < 64 * zlen wd → bm_bit wd' i = bm_bit wd i).

Lemma mapped_zero h dst wd bits M :
  has h dst wd bits → wp (bitmap_zero dst bits) (λ _, mapped h dst wd bits M 0) h.
Proof.
  intros [Hd Hok]. pose proof (longs_le_len _ _ Hok). pose proof (longs_nonneg bits (proj1 (proj2 Hok))).
  unfold bitmap_zero. eapply wp_memset0; [done|lia|lia|lia|].
  rewrite Z.add_0_l. eexists. split; [done|]. split; [apply length_fill|].
  split; [apply wf_fill; [apply Hok|intros; lia]|]. split; intros i Hi.
  - rewrite bm_bit_fill, Z.bits_0 by lia.
    destruct (Z.leb_spec 0 (i / 64)); [|dlia]. destruct (Z.ltb_spec (i / 64) (BITS_TO_LONGS bits)); [|dlia].
    simpl. split; [done|]. intros (j & ? & _). lia.
  - rewrite bm_bit_fill by lia. destruct (Z.ltb_spec (i / 64) (BITS_TO_LONGS bits)); [dlia|].
    by rewrite andb_false_r.
Qed.

Lemma mapped_skip h dst wd bits M k h' :
  (∀ i, ¬ M k i) → mapped h dst wd bits M k h' → mapped h dst wd bits M (k + 1) h'.
Proof.
  intros HM (wd' & ? & ? & ? & Hb & ?). exists wd'. do 3 (split; [done|]). split; [|done].
  intros i Hi. rewrite Hb by done. split; intros (j & Hj & HMj).
  - exists j. split; [lia|done].
  - destruct (decide (j = k)) as [->|]; [by apply HM in HMj|]. exists j. split; [lia|done].
Qed.

(** Setting the bit [k] is mapped to. *)
Lemma mapped_set h dst wd bits M k p h' :
  has h dst wd bits → 0 ≤ k → 0 ≤ p < bits → (∀ i, M k i ↔ i = p) → mapped h dst wd bits M k h' →
  wp (set_bit_at p dst) (λ _, mapped h dst wd bits M (k + 1)) h'.
Proof.
  intros [Hd [Hwf Hbits]] Hk Hp HM (wd' & -> & Hlen & Hwf' & Hb & Hrest).
  unfold set_bit_at. apply wp_bind. eapply wp_block; [apply lookup_insert_eq|].
  destruct (set_bit_spec wd' p) as (wd'' & E & Hwf'' & Hlen'' & Hb''); [done|rewrite Hlen; lia|].
  apply wp_bind. eapply wp_lift; [done|]. apply wp_set_block. rewrite insert_insert_eq.
  pose proof (BITS_TO_LONGS_bounds bits ltac:(lia)).
  exists wd''. split; [done|]. split; [congruence|]. split; [done|]. split; intros i Hi.
  - rewrite Hb'', orb_true_iff, Z.eqb_eq, Hb by lia. split.
    + intros [->|(j & Hj & HMj)]; [exists k; split; [lia|by apply HM]|exists j; split; [lia|done]].
    + intros (j & Hj & HMj). destruct (decide (j = k)) as [->|]; [left; by apply HM|].
      right. exists j. split; [lia|done].
  - rewrite Hb'', Hrest by lia. destruct (Z.eqb_spec i p); [lia|done].
Qed.

Lemma remaps_unique old new bits j i i' :
  remaps old new bits j i → remaps old new bits j i' → i = i'.
Proof.
  unfold remaps. case_match; [apply is_nth_unique|congruence].
Qed.

(** A block other than [dst] is not changed while [dst] is filled. *)
Lemma mapped_other h dst wd bits M b w k h' :
  h !! b = Some w → dst ≠ b → mapped h dst wd bits M k h' → h' !! b = Some w.
Proof. intros Hbw Hne (wd' & -> & _). by rewrite lookup_insert_ne. Qed.

Lemma bitmap_remap_ok dst src old new wd ws wo wn bits h :
  has h dst wd bits → has h src ws bits → has h old wo bits → has h new wn bits →
  bits ≤ INT_MAX → dst ≠ old → dst ≠ new →
  (∀ j, 0 ≤ j < bits →
     ∃ i, bitmap_bitremap j wo wn bits = Some i ∧ 0 ≤ i < bits ∧ remaps wo wn bits j i) ∧
  (dst = src → bitmap_remap dst src old new bits h = Some (tt, h)) ∧
  (dst ≠ src → wp (bitmap_remap dst src old new bits)
     (λ _, mapped h dst wd bits (λ j i, bm_bit ws j = true ∧ remaps wo wn bits j i) bits) h).
Proof.
  intros Hd [Hs Hoks] [Ho Hoko] [Hn Hokn] Hb Hdo Hdn.
  assert (Hre := λ j, bitremap_ok wo wn bits j Hoko Hokn Hb).
  split; [done|]. unfold bitmap_remap. split; [intros ->; by rewrite decide_True|].
  intros Hds. rewrite decide_False by done.
  set (M := λ j i, bm_bit ws j = true ∧ remaps wo wn bits j i).
  apply wp_bind. eapply wp_mono; [by apply (mapped_zero h dst wd bits M)|]. intros [] h0 H0.
  apply wp_bind. eapply wp_block; [by eapply mapped_other|]. apply wp_bind.
  eapply wp_lift; [by apply __bitmap_weight_ok|].
  eapply (wp_for_each_set_bit src ws bits Hoks Hb _ (λ k _, mapped h dst wd bits M k)); [..|done|done].
  - intros i [] h'. by apply mapped_other.
  - intros i [] h' Hi Hclr. apply mapped_skip. intros k [? _]. congruence.
  - intros j [] h' Hj Hset Hm. apply wp_bind. eapply wp_block; [by eapply mapped_other|].
    destruct (Hre j Hj) as (i & Ei & Hi & Hmap).
    assert (HM : ∀ k, M j k ↔ k = i).
    { intros k. unfold M. split; [intros [_ ?]; by eapply remaps_unique|by intros ->]. }
    unfold bitmap_bitremap in Ei. rewrite __bitmap_weight_ok in Ei by done. cbn [mbind option_bind] in Ei.
    rewrite pos_to_ord_ok in Ei |- * by done. cbn [mbind option_bind] in Ei.
    apply wp_bind. eapply wp_lift; [done|].
    destruct (_ || _); [injection Ei as ->; eapply mapped_set; [done|lia|lia|done|done]|].
    apply wp_bind. eapply wp_block; [by eapply mapped_other|]. apply wp_bind. eapply wp_lift; [done|].
    eapply mapped_set; [done|lia|lia|done|done].
Qed.

Lemma bitmap_onto_ok dst orig relmap wd wo wr_ bits h :
  has h dst wd bits → has h orig wo bits → has h relmap wr_ bits →
  bits ≤ INT_MAX → dst ≠ orig → dst ≠ relmap →
  wp (bitmap_onto dst orig relmap bits)
     (λ _, mapped h dst wd bits (λ n i, i = n ∧ bm_bit wr_ n = true ∧
        bm_bit wo (count (bm_bit wr_) 0 (Z.to_nat n)) = true) bits) h.
Proof.
  intros Hd [Ho Hoko] [Hr Hokr] Hb Hdo Hdr.
  unfold bitmap_onto. rewrite decide_False by done.
  set (M := λ n i, i = n ∧ bm_bit wr_ n = true ∧ bm_bit wo (count (bm_bit wr_) 0 (Z.to_nat n)) = true).
  apply wp_bind. eapply wp_mono; [by apply (mapped_zero h dst wd bits M)|]. intros [] h0 H0. apply wp_bind.
  eapply (wp_for_each_set_bit relmap wr_ bits Hokr Hb _
    (λ k m h', mapped h dst wd bits M k h' ∧ m = count (bm_bit wr_) 0 (Z.to_nat k))).
  + intros k m h' [Hm _]. by eapply mapped_other.
  + intros k m h' Hk Hclr [Hm ->]. split; [apply mapped_skip; [|done]; intros i (_ & ? & _); congruence|].
    replace (Z.to_nat (k + 1)) with (Z.to_nat k + 1)%nat by lia. rewrite count_app.
    rewrite Z.add_0_l, Z2Nat.id by lia. cbn [count]. rewrite Hclr. simpl. lia.
  + intros k m h' Hk Hset [Hm ->]. apply wp_bind. eapply wp_block; [by eapply mapped_other|].
    pose proof (count_bounds (bm_bit wr_) 0 (Z.to_nat k)). destruct Hoko as [Hwfo Hbo].
    apply wp_bind. eapply wp_lift; [apply test_bit_spec; lia|]. apply wp_bind.
    assert (Hcount : count (bm_bit wr_) 0 (Z.to_nat k) + 1 = count (bm_bit wr_) 0 (Z.to_nat (k + 1))).
    { symmetry. apply count_step; [lia|done|intros; lia]. }
    destruct (bm_bit wo _) eqn:E.
    * eapply wp_mono; [eapply (mapped_set h dst wd bits M k k); [done|lia|lia| |done]|].
      { intros i. unfold M. naive_solver. }
      intros [] h'' Hm'. by apply wp_ret.
    * apply wp_ret, wp_ret. split; [|done]. apply mapped_skip; [|done]. intros i (_ & _ & ?). congruence.
  + done.
  + intros m h' [Hm _]. by apply wp_ret.
Qed.

Lemma bitmap_fold_ok dst orig wd wo sz bits h :
  has h dst wd bits → has h orig wo bits → bits ≤ INT_MAX → dst ≠ orig → 0 < sz →
  wp (bitmap_fold dst orig sz bits)
     (λ _, mapped h dst wd bits (λ j i, i = j `mod` sz ∧ bm_bit wo j = true) bits) h.
Proof.
  intros Hd [Ho Hoko] Hb Hdo Hsz.
  unfold bitmap_fold. rewrite decide_False by done.
  set (M := λ j i, i = j `mod` sz ∧ bm_bit wo j = true).
  apply wp_bind. eapply wp_mono; [by apply (mapped_zero h dst wd bits M)|]. intros [] h0 H0.
  eapply (wp_for_each_set_bit orig wo bits Hoko Hb _ (λ k _, mapped h dst wd bits M k)); [..|done|done].
  + intros i [] h'. by apply mapped_other.
  + intros i [] h' Hi Hclr. apply mapped_skip. intros k [_ ?]. congruence.
  + intros j [] h' Hj Hset Hm. destruct (Z.eqb_spec sz 0); [lia|].
    eapply mapped_set; [done|lia| | |done].
    * pose proof (Z.mod_pos_bound j sz Hsz). pose proof (Z.mod_le j sz). lia.
    * intros i. unfold M. naive_solver.
Qed.

(** [bitmap_bitremap] maps the n-th set bit of [old] to the (n mod w)-th set
    bit of [new] and every other position to itself, and [bitmap_remap] applies
    that map: when [dst] is none of the other bitmaps, bit [i] of the result is
    set exactly when some set bit of [src] is mapped to [i]; when [dst] is [src]
    nothing is changed. [bitmap_onto] sets bit [n] of [dst] exactly when [n] is
    the m-th set bit of [new] for some [m] set in [src]; [bitmap_fold] sets
    exactly the bits [j mod sz] for the bits [j] of [src]. *)
Lemma bitmap_maps_image dst src old new wd ws wo wn sz bits h :
  has h dst wd bits → has h src ws bits → has h old wo bits → has h new wn bits →
  bits ≤ INT_MAX → dst ≠ old → dst ≠ new → 0 < sz →
  (∀ j, 0 ≤ j < bits →
     ∃ i, bitmap_bitremap j wo wn bits = Some i ∧ 0 ≤ i < bits ∧ remaps wo wn bits j i) ∧
  (dst = src → bitmap_remap dst src old new bits h = Some (tt, h)) ∧
  (dst ≠ src →
   wp (bitmap_remap dst src old new bits)
     (λ _, mapped h dst wd bits (λ j i, bm_bit ws j = true ∧ remaps wo wn bits j i) bits) h ∧
   wp (bitmap_onto dst src new bits)
     (λ _, mapped h dst wd bits (λ n i, i = n ∧ bm_bit wn n = true ∧
        bm_bit ws (count (bm_bit wn) 0 (Z.to_nat n)) = true) bits) h ∧
   wp (bitmap_fold dst src sz bits)
     (λ _, mapped h dst wd bits (λ j i, i = j `mod` sz ∧ bm_bit ws j = true) bits) h).
Proof.
  intros Hd Hs Ho Hn Hb Hdo Hdn Hsz.
  destruct (bitmap_remap_ok dst src old new wd ws wo wn bits h) as (H1 & H2 & H3); [done..|].
  split; [done|]. split; [done|]. intros Hds.
  split; [by apply H3|]. split; [by apply bitmap_onto_ok|by apply bitmap_fold_ok].
Qed.

(** [bitmap_pos_to_ord] and [bitmap_ord_to_pos] are inverse to each other
    between the set bits of a bitmap and the ordinals below its weight; outside
    those domains they return -1 and 0; the [BUG_ON] is never reached. *)
Lemma ordinals_inverse buf bits :
  bitmap_ok buf bits → bits ≤ INT_MAX →
  (∀ pos, 0 ≤ pos < bits → bm_bit buf pos = true →
     ∃ ord, bitmap_pos_to_ord buf pos bits = Some ord ∧
            0 ≤ ord < count (bm_bit buf) 0 (Z.to_nat bits) ∧
            bitmap_ord_to_pos buf ord bits = Some pos) ∧
  (∀ ord, 0 ≤ ord < count (bm_bit buf) 0 (Z.to_nat bits) →
     ∃ pos, bitmap_ord_to_pos buf ord bits = Some pos ∧ 0 ≤ pos < bits ∧ bm_bit buf pos = true ∧
            bitmap_pos_to_ord buf pos bits = Some ord) ∧
  (∀ pos, ¬ (0 ≤ pos < bits ∧ bm_bit buf pos = true) → bitmap_pos_to_ord buf pos bits = Some (-1)) ∧
  (∀ ord, ¬ 0 ≤ ord < count (bm_bit buf) 0 (Z.to_nat bits) → bitmap_ord_to_pos buf ord bits = Some 0).
Proof.
  intros Hok Hb. split; [|split; [|split]].
  - intros pos Hp Hset. rewrite pos_to_ord_ok by done.
    destruct (Z.leb_spec 0 pos), (Z.ltb_spec pos bits); try lia. rewrite Hset. cbn [andb].
    eexists. split; [done|].
    pose proof (count_bounds (bm_bit buf) 0 (Z.to_nat pos)).
    pose proof (count_step (bm_bit buf) pos (pos + 1) ltac:(lia) Hset ltac:(intros; lia)).
    pose proof (count_mono (bm_bit buf) (pos + 1) bits ltac:(lia)). split; [lia|].
    destruct (ord_to_pos_ok buf bits Hok Hb (count (bm_bit buf) 0 (Z.to_nat pos))) as (p & -> & [[_ Hn]|[? _]]); [|lia].
    f_equal. eapply is_nth_unique; [done|]. by split.
  - intros ord Ho. destruct (ord_to_pos_ok buf bits Hok Hb ord) as (p & -> & [[_ (Hp & Hset & Hc)]|[? _]]); [|lia].
    exists p. split; [done|]. split; [done|]. split; [done|]. rewrite pos_to_ord_ok, Hset by done.
    destruct (Z.leb_spec 0 p), (Z.ltb_spec p bits); try lia. simpl. by rewrite Hc.
  - intros pos Hp. rewrite pos_to_ord_ok by done.
    destruct (Z.leb_spec 0 pos), (Z.ltb_spec pos bits), (bm_bit buf pos); cbn [andb]; try done.
    exfalso. apply Hp. split; [lia|done].
  - intros ord Ho. by destruct (ord_to_pos_ok buf bits Hok Hb ord) as (p & -> & [[? _]|[_ ->]]).
Qed.

Definition ex_map_heap : heap :=
  <[0%nat := [0]]> (<[1%nat := [0xA2]]> (<[2%nat := [0xF0]]> (<[3%nat := [0xF000]]> ∅))).

Example bitmap_maps_image_witness :
  (wp (bitmap_remap 0 1 2 3 64)
      (λ _, mapped ex_map_heap 0 [0] 64 (λ j i, bm_bit [0xA2] j = true ∧ remaps [0xF0] [0xF000] 64 j i) 64)
      ex_map_heap ∧
   wp (bitmap_onto 0 1 3 64)
      (λ _, mapped ex_map_heap 0 [0] 64 (λ n i, i = n ∧ bm_bit [0xF000] n = true ∧
         bm_bit [0xA2] (count (bm_bit [0xF000]) 0 (Z.to_nat n)) = true) 64) ex_map_heap ∧
   wp (bitmap_fold 0 1 10 64)
      (λ _, mapped ex_map_heap 0 [0] 64 (λ j i, i = j `mod` 10 ∧ bm_bit [0xA2] j = true) 64) ex_map_heap)
  ∧ (snd <$> bitmap_remap 0 1 2 3 64 ex_map_heap) = Some (<[0%nat := [0xA002]]> ex_map_heap).
Proof.
  split; [|vm_compute; reflexivity].
  apply (bitmap_maps_image 0 1 2 3 [0] [0xA2] [0xF0] [0xF000] 10 64 ex_map_heap);
    [split; [reflexivity|apply bitmap_ok_ex1; lia]..|unfold INT_MAX; lia|done|done|lia|done].
Defined.
