(* ===== verification/Memblock.v ===== *)
(** * Memblock: the boot-time physical memory allocator (mm/memblock.c)

    Before the page allocator exists the kernel records physical memory in two
    sorted arrays of regions, [memory] and [reserved]; free memory is the
    difference.  This file translates mm/memblock.c and the inline helpers of
    include/linux/memblock.h; MemblockSpec.v proves what the two arrays mean.

    The struct memblock, with the static flags of the file, is the state of
    the monad [prog memblock]; routines that take a [struct memblock_type *]
    are programs over one [memblock_type], applied to [memory] or [reserved]
    with [on].  The region arrays are kept whole, the entries behind [cnt]
    included, and [memmove] and indexing outside them go wrong. *)

From S2P Require Import Prelude.

(** The configuration: whether regions carry a node (CONFIG_HAVE_MEMBLOCK_NODE_MAP),
    the number of nodes, and the two entry points of the slab allocator
    ([kmalloc_pa] is the physical address of the memory kmalloc returns, 0 when
    it fails). *)
Class memblock_config := {
  NODE_MAP : bool;
  MAX_NUMNODES : Z;
  slab_is_available : bool;
  kmalloc_pa : Z → Z
}.

(** The configuration of the arm64 defconfig during early boot. *)
#[export] Instance arm64_early_boot : memblock_config :=
  {| NODE_MAP := false; MAX_NUMNODES := 1; slab_is_available := false; kmalloc_pa := λ _, 0 |}.

Definition INIT_MEMBLOCK_REGIONS : Z := 128.
Definition PAGE_SHIFT : Z := 12.
Definition PAGE_SIZE : Z := 4096.
Definition ULLONG_MAX : Z := 2 ^ 64 - 1.
Definition MEMBLOCK_ALLOC_ANYWHERE : Z := ~64 0.
Definition MEMBLOCK_ALLOC_ACCESSIBLE : Z := 0.
Definition mb_ENOMEM : Z := 12.

(** [round_up], [round_down], [PAGE_ALIGN], [PFN_UP], [PFN_DOWN] on 64-bit values. *)
Definition round_up (x y : Z) : Z := u64 ((u64 (x - 1) .| u64 (y - 1)) + 1).
Definition round_down (x y : Z) : Z := x .& ~64 (u64 (y - 1)).
Definition PAGE_ALIGN (x : Z) : Z := u64 (x + (PAGE_SIZE - 1)) .& ~64 (PAGE_SIZE - 1).
Definition PFN_UP (x : Z) : Z := u64 (x + PAGE_SIZE - 1) >>u PAGE_SHIFT.
Definition PFN_DOWN (x : Z) : Z := x >>u PAGE_SHIFT.

(** A region.  Without NODE_MAP the struct has no [nid]; the field then stays 0. *)
Record memblock_region := Region { r_base : Z; r_size : Z; r_nid : Z }.

(** Where an array of regions lives: the static array of the file, or memory at
    a physical address. *)
Inductive array_home := init_regions | array_at (pa : Z).

Record memblock_type := MType {
  t_cnt : Z;
  t_max : Z;
  t_total_size : Z;
  t_regions : list memblock_region;
  t_home : array_home
}.

Record memblock := MB {
  current_limit : Z;
  memory : memblock_type;
  reserved : memblock_type;
  memblock_can_resize : bool;
  memblock_memory_in_slab : bool;
  memblock_reserved_in_slab : bool
}.

Inductive type_name := Memory | Reserved.

#[export] Instance memblock_region_eq_dec : EqDecision memblock_region.
Proof. solve_decision. Defined.
#[export] Instance array_home_eq_dec : EqDecision array_home.
Proof. solve_decision. Defined.
#[export] Instance type_name_eq_dec : EqDecision type_name.
Proof. solve_decision. Defined.

Definition empty_type : memblock_type :=
  MType 1 INIT_MEMBLOCK_REGIONS 0
    (replicate (Z.to_nat INIT_MEMBLOCK_REGIONS) (Region 0 0 0)) init_regions.

(** The statically initialised [struct memblock memblock]. *)
Definition memblock_init : memblock :=
  MB MEMBLOCK_ALLOC_ANYWHERE empty_type empty_type false false false.

Definition type_of (ty : type_name) (mb : memblock) : memblock_type :=
  match ty with Memory => memory mb | Reserved => reserved mb end.

Definition set_type (ty : type_name) (t : memblock_type) (mb : memblock) : memblock :=
  match ty with
  | Memory => MB (current_limit mb) t (reserved mb) (memblock_can_resize mb)
                (memblock_memory_in_slab mb) (memblock_reserved_in_slab mb)
  | Reserved => MB (current_limit mb) (memory mb) t (memblock_can_resize mb)
                  (memblock_memory_in_slab mb) (memblock_reserved_in_slab mb)
  end.

(** Run a program over one type inside the whole state. *)
Definition on {A} (ty : type_name) (m : prog memblock_type A) : prog memblock A :=
  λ mb, match m (type_of ty mb) with
        | Some (a, t) => Some (a, set_type ty t mb)
        | None => None
        end.

(** memmove of [n] elements inside one array. *)
Definition memmove {A} (l : list A) (dst src n : Z) : option (list A) :=
  if (0 <=? n) && (0 <=? dst) && (0 <=? src) && (dst + n <=? zlen l) && (src + n <=? zlen l)
  then Some (take (Z.to_nat dst) l ++ take (Z.to_nat n) (drop (Z.to_nat src) l)
             ++ drop (Z.to_nat (dst + n)) l)
  else None.

Section memblock.
Context `{cfg : memblock_config}.

Definition memblock_set_region_node (r : memblock_region) (nid : Z) : memblock_region :=
  Region (r_base r) (r_size r) (if NODE_MAP then nid else 0).
Definition memblock_get_region_node (r : memblock_region) : Z :=
  if NODE_MAP then r_nid r else 0.

Definition sizeof_region : Z := if NODE_MAP then 24 else 16.

(** The end of a region, as the code computes it. *)
Definition r_end (r : memblock_region) : Z := u64 (r_base r + r_size r).

(** Accesses to one region array. *)
Definition region (i : Z) : prog memblock_type memblock_region :=
  λ t, r ← rd (t_regions t) i; Some (r, t).
Definition set_regions (f : list memblock_region → option (list memblock_region)) :
    prog memblock_type unit :=
  λ t, l ← f (t_regions t);
       Some (tt, MType (t_cnt t) (t_max t) (t_total_size t) l (t_home t)).
Definition set_region (i : Z) (r : memblock_region) : prog memblock_type unit :=
  set_regions (λ l, wr l i r).
Definition set_cnt (c : Z) : prog memblock_type unit :=
  modify (λ t, MType c (t_max t) (t_total_size t) (t_regions t) (t_home t)).
Definition set_total (s : Z) : prog memblock_type unit :=
  modify (λ t, MType (t_cnt t) (t_max t) s (t_regions t) (t_home t)).

Definition memblock_cap_size (base size : Z) : Z := Z.min size (ULLONG_MAX - base).

Definition memblock_addrs_overlap (base1 size1 base2 size2 : Z) : bool :=
  (base1 <? u64 (base2 + size2)) && (base2 <? u64 (base1 + size1)).

Fixpoint overlaps_loop (fuel : nat) (i base size : Z) : prog memblock_type Z :=
  match fuel with
  | O => wrong
  | S fuel =>
      c ← gets t_cnt;
      if i <? c then
        rgn ← region i;
        if memblock_addrs_overlap base size (r_base rgn) (r_size rgn) then mret i
        else overlaps_loop fuel (i + 1) base size
      else mret (-1)
  end.

Definition memblock_overlaps_region (base size : Z) : prog memblock_type Z :=
  c ← gets t_cnt; overlaps_loop (S (Z.to_nat c)) 0 base size.

Definition memblock_remove_region (r : Z) : prog memblock_type unit :=
  rgn ← region r;
  tot ← gets t_total_size;
  _ ← set_total (u64 (tot - r_size rgn));
  cnt ← gets t_cnt;
  _ ← set_regions (λ l, memmove l r (r + 1) (cnt - (r + 1)));
  _ ← set_cnt (cnt - 1);
  if cnt - 1 =? 0 then
    _ ← set_cnt 1;
    r0 ← region 0;
    set_region 0 (memblock_set_region_node (Region 0 0 (r_nid r0)) MAX_NUMNODES)
  else mret tt.

(** The scan of memblock_merge_regions; the fuel bounds the iterations, each
    of which advances [i] or drops a region. *)
Fixpoint merge_loop (fuel : nat) (i : Z) : prog memblock_type unit :=
  match fuel with
  | O => wrong
  | S fuel =>
      cnt ← gets t_cnt;
      if i <? cnt - 1 then
        this ← region i;
        next ← region (i + 1);
        if negb (r_end this =? r_base next)
           || negb (memblock_get_region_node this =? memblock_get_region_node next) then
          if r_base next <? r_end this then wrong (* BUG_ON *)
          else merge_loop fuel (i + 1)
        else
          _ ← set_region i (Region (r_base this) (u64 (r_size this + r_size next)) (r_nid this));
          _ ← set_regions (λ l, memmove l (i + 1) (i + 2) (cnt - (i + 2)));
          _ ← set_cnt (cnt - 1);
          merge_loop fuel i
      else mret tt
  end.

Definition memblock_merge_regions : prog memblock_type unit :=
  c ← gets t_cnt; merge_loop (S (Z.to_nat c)) 0.

Definition memblock_insert_region (idx base size nid : Z) : prog memblock_type unit :=
  cnt ← gets t_cnt;
  max ← gets t_max;
  if max <=? cnt then wrong (* BUG_ON *)
  else
    _ ← set_regions (λ l, memmove l (idx + 1) idx (cnt - idx));
    rgn ← region idx;
    _ ← set_region idx (memblock_set_region_node (Region base size (r_nid rgn)) nid);
    _ ← set_cnt (cnt + 1);
    tot ← gets t_total_size;
    set_total (u64 (tot + size)).

(** The loop of memblock_add_region.  It returns [i], [base] and [nr_new]. *)
Fixpoint add_region_loop (fuel : nat) (insert : bool) (i base end_ nid nr_new : Z) :
    prog memblock_type (Z * Z * Z) :=
  match fuel with
  | O => wrong
  | S fuel =>
      cnt ← gets t_cnt;
      if i <? cnt then
        rgn ← region i;
        let rbase := r_base rgn in
        let rend := r_end rgn in
        if end_ <=? rbase then mret (i, base, nr_new)
        else if rend <=? base then add_region_loop fuel insert (i + 1) base end_ nid nr_new
        else if base <? rbase then
          if insert then
            _ ← memblock_insert_region i base (rbase - base) nid;
            add_region_loop fuel insert (i + 1 + 1) (Z.min rend end_) end_ nid (nr_new + 1)
          else add_region_loop fuel insert (i + 1) (Z.min rend end_) end_ nid (nr_new + 1)
        else add_region_loop fuel insert (i + 1) (Z.min rend end_) end_ nid nr_new
      else mret (i, base, nr_new)
  end.

(** One round of memblock_add_region: the loop and the remaining portion;
    returns [nr_new]. *)
Definition add_region_round (insert : bool) (base end_ nid : Z) : prog memblock_type Z :=
  c ← gets t_cnt;
  '(i, base, nr_new) ← add_region_loop (S (Z.to_nat c)) insert 0 base end_ nid 0;
  if base <? end_ then
    _ ← (if insert then memblock_insert_region i base (end_ - base) nid else mret tt);
    mret (nr_new + 1)
  else mret nr_new.

(** The loop of memblock_isolate_range.  It returns [start_rgn], [end_rgn]. *)
Fixpoint isolate_loop (fuel : nat) (i base end_ start_rgn end_rgn : Z) :
    prog memblock_type (Z * Z) :=
  match fuel with
  | O => wrong
  | S fuel =>
      cnt ← gets t_cnt;
      if i <? cnt then
        rgn ← region i;
        let rbase := r_base rgn in
        let rend := r_end rgn in
        if end_ <=? rbase then mret (start_rgn, end_rgn)
        else if rend <=? base then isolate_loop fuel (i + 1) base end_ start_rgn end_rgn
        else if rbase <? base then
          _ ← set_region i (Region base (u64 (r_size rgn - (base - rbase))) (r_nid rgn));
          tot ← gets t_total_size;
          _ ← set_total (u64 (tot - (base - rbase)));
          _ ← memblock_insert_region i rbase (base - rbase) (memblock_get_region_node rgn);
          isolate_loop fuel (i + 1) base end_ start_rgn end_rgn
        else if end_ <? rend then
          _ ← set_region i (Region end_ (u64 (r_size rgn - (end_ - rbase))) (r_nid rgn));
          tot ← gets t_total_size;
          _ ← set_total (u64 (tot - (end_ - rbase)));
          _ ← memblock_insert_region i rbase (end_ - rbase) (memblock_get_region_node rgn);
          isolate_loop fuel i base end_ start_rgn end_rgn
        else
          isolate_loop fuel (i + 1) base end_
            (if end_rgn =? 0 then i else start_rgn) (i + 1)
      else mret (start_rgn, end_rgn)
  end.

(** ** Iteration over free memory

    The iterators pack the two indices in one u64.  Their nested loops carry
    [ri] from one memory region to the next; they are written here as one loop
    over the pair [(mi, ri)].  The result is the new [*idx] and the values
    stored to the out parameters, if they are written. *)

Definition pack_idx (mi ri : Z) : Z := u32 mi .| (u64 ri <<64 32).

Fixpoint free_scan (fuel : nat) (mem rsv : memblock_type) (nid mi ri : Z) :
    option (Z * option (Z * Z * Z)) :=
  match fuel with
  | O => None
  | S fuel =>
      if mi <? t_cnt mem then
        m ← rd (t_regions mem) mi;
        let m_start := r_base m in
        let m_end := r_end m in
        if negb (nid =? MAX_NUMNODES) && negb (nid =? memblock_get_region_node m) then
          free_scan fuel mem rsv nid (mi + 1) ri
        else if ri <? t_cnt rsv + 1 then
          r_start ← (if ri =? 0 then Some 0 else r ← rd (t_regions rsv) (ri - 1); Some (r_end r));
          r_end_ ← (if ri <? t_cnt rsv then r ← rd (t_regions rsv) ri; Some (r_base r)
                    else Some ULLONG_MAX);
          if m_end <=? r_start then free_scan fuel mem rsv nid (mi + 1) ri
          else if m_start <? r_end_ then
            Some (if m_end <=? r_end_ then pack_idx (mi + 1) ri else pack_idx mi (ri + 1),
                  Some (Z.max m_start r_start, Z.min m_end r_end_, memblock_get_region_node m))
          else free_scan fuel mem rsv nid mi (ri + 1)
        else free_scan fuel mem rsv nid (mi + 1) ri
      else Some (ULLONG_MAX, None)
  end.

Definition scan_fuel (mem rsv : memblock_type) : nat :=
  Z.to_nat (t_cnt mem + t_cnt rsv + 3).

Definition __next_free_mem_range (idx nid : Z) (mb : memblock) : option (Z * option (Z * Z * Z)) :=
  let mem := memory mb in
  let rsv := reserved mb in
  let mi := s32 (idx .& 0xffffffff) in
  let ri := s32 (idx >>u 32) in
  free_scan (scan_fuel mem rsv) mem rsv nid mi ri.

Fixpoint free_scan_rev (fuel : nat) (mem rsv : memblock_type) (nid mi ri : Z) :
    option (Z * option (Z * Z * Z)) :=
  match fuel with
  | O => None
  | S fuel =>
      if 0 <=? mi then
        m ← rd (t_regions mem) mi;
        let m_start := r_base m in
        let m_end := r_end m in
        if negb (nid =? MAX_NUMNODES) && negb (nid =? memblock_get_region_node m) then
          free_scan_rev fuel mem rsv nid (mi - 1) ri
        else if 0 <=? ri then
          r_start ← (if ri =? 0 then Some 0 else r ← rd (t_regions rsv) (ri - 1); Some (r_end r));
          r_end_ ← (if ri <? t_cnt rsv then r ← rd (t_regions rsv) ri; Some (r_base r)
                    else Some ULLONG_MAX);
          if r_end_ <=? m_start then free_scan_rev fuel mem rsv nid (mi - 1) ri
          else if r_start <? m_end then
            Some (if r_start <=? m_start then pack_idx (mi - 1) ri else pack_idx mi (ri - 1),
                  Some (Z.max m_start r_start, Z.min m_end r_end_, memblock_get_region_node m))
          else free_scan_rev fuel mem rsv nid mi (ri - 1)
        else free_scan_rev fuel mem rsv nid (mi - 1) ri
      else Some (ULLONG_MAX, None)
  end.

Definition __next_free_mem_range_rev (idx nid : Z) (mb : memblock) :
    option (Z * option (Z * Z * Z)) :=
  let mem := memory mb in
  let rsv := reserved mb in
  let '(mi, ri) :=
    if idx =? ULLONG_MAX then (s32 (t_cnt mem - 1), s32 (t_cnt rsv))
    else (s32 (idx .& 0xffffffff), s32 (idx >>u 32)) in
  free_scan_rev (scan_fuel mem rsv) mem rsv nid mi ri.

(** The free ranges that for_each_free_mem_range and its reverse visit, in order. *)
Fixpoint free_ranges (next : Z → option (Z * option (Z * Z * Z))) (fuel : nat) (idx : Z) :
    option (list (Z * Z * Z)) :=
  match fuel with
  | O => None
  | S fuel =>
      '(idx, out) ← next idx;
      if idx =? ULLONG_MAX then Some []
      else r ← out; rs ← free_ranges next fuel idx; Some (r :: rs)
  end.

Definition for_each_free_mem_range (nid : Z) (mb : memblock) : option (list (Z * Z * Z)) :=
  free_ranges (λ idx, __next_free_mem_range idx nid mb)
    (scan_fuel (memory mb) (reserved mb)) 0.
Definition for_each_free_mem_range_reverse (nid : Z) (mb : memblock) :
    option (list (Z * Z * Z)) :=
  free_ranges (λ idx, __next_free_mem_range_rev idx nid mb)
    (scan_fuel (memory mb) (reserved mb)) ULLONG_MAX.

Definition clamp (x lo hi : Z) : Z := Z.min (Z.max x lo) hi.

(** The body of memblock_find_in_range_node under
    for_each_free_mem_range_reverse; a free range is visited per iteration, and
    there are at most [cnt] of memory plus [cnt] of reserved plus one of them. *)
Fixpoint find_loop (fuel : nat) (idx start end_ size align nid : Z) (mb : memblock) : option Z :=
  match fuel with
  | O => None
  | S fuel =>
      '(idx, out) ← __next_free_mem_range_rev idx nid mb;
      if idx =? ULLONG_MAX then Some 0
      else match out with
           | None => None
           | Some (this_start, this_end, _) =>
               let this_start := clamp this_start start end_ in
               let this_end := clamp this_end start end_ in
               if this_end <? size then find_loop fuel idx start end_ size align nid mb
               else
                 let cand := round_down (this_end - size) align in
                 if this_start <=? cand then Some cand
                 else find_loop fuel idx start end_ size align nid mb
           end
  end.

Definition memblock_find_in_range_node (start end_ size align nid : Z) : prog memblock Z :=
  λ mb,
    let end_ := if end_ =? MEMBLOCK_ALLOC_ACCESSIBLE then current_limit mb else end_ in
    let start := Z.max start PAGE_SIZE in
    let end_ := Z.max start end_ in
    r ← find_loop (scan_fuel (memory mb) (reserved mb)) ULLONG_MAX start end_ size align nid mb;
    Some (r, mb).

Definition memblock_find_in_range (start end_ size align : Z) : prog memblock Z :=
  memblock_find_in_range_node start end_ size align MAX_NUMNODES.

(** ** Adding and removing, and the growth of the arrays

    memblock_add_region and memblock_isolate_range call memblock_double_array,
    which calls them back through memblock_reserve and memblock_free.  They
    are written over the doubling routine they call. *)

Section growth.
Variable double : type_name → Z → Z → prog memblock Z.

(** [while (cnt + more > max) if (double(..) < 0) return -ENOMEM]; the result
    says whether the room is there.  [max] doubles in each iteration. *)
Fixpoint ensure_room (fuel : nat) (ty : type_name) (more base size : Z) : prog memblock bool :=
  match fuel with
  | O => wrong
  | S fuel =>
      t ← gets (type_of ty);
      if t_max t <? t_cnt t + more then
        ret ← double ty base size;
        if ret <? 0 then mret false else ensure_room fuel ty more base size
      else mret true
  end.

Definition add_region (ty : type_name) (base size nid : Z) : prog memblock Z :=
  let size := memblock_cap_size base size in
  let end_ := u64 (base + size) in
  if size =? 0 then mret 0
  else
    r0 ← on ty (region 0);
    if r_size r0 =? 0 then
      _ ← on ty (set_region 0 (memblock_set_region_node (Region base size (r_nid r0)) nid));
      _ ← on ty (set_total size);
      mret 0
    else
      nr_new ← on ty (add_region_round false base end_ nid);
      ok ← ensure_room 64 ty nr_new base size;
      if (ok : bool) then
        _ ← on ty (add_region_round true base end_ nid);
        _ ← on ty memblock_merge_regions;
        mret 0
      else mret (- mb_ENOMEM).

(** The result is the return code with [*start_rgn] and [*end_rgn]. *)
Definition isolate_range (ty : type_name) (base size : Z) : prog memblock (Z * (Z * Z)) :=
  let size := memblock_cap_size base size in
  let end_ := u64 (base + size) in
  if size =? 0 then mret (0, (0, 0))
  else
    ok ← ensure_room 64 ty 2 base size;
    if (ok : bool) then
      c ← gets (λ mb, t_cnt (type_of ty mb));
      rr ← on ty (isolate_loop (Z.to_nat (c + 3)) 0 base end_ 0 0);
      mret (0, rr)
    else mret (- mb_ENOMEM, (0, 0)).

Definition remove_range (ty : type_name) (base size : Z) : prog memblock Z :=
  '(ret, (start_rgn, end_rgn)) ← isolate_range ty base size;
  if negb (ret =? 0) then mret ret
  else
    _ ← on ty (for_down (Z.to_nat (end_rgn - start_rgn)) (end_rgn - 1) memblock_remove_region);
    mret 0.
End growth.

(** Replace the array of [ty] by one of twice the length at [addr]. *)
Definition move_array (addr : Z) (t : memblock_type) : memblock_type :=
  MType (t_cnt t) (t_max t * 2) (t_total_size t)
    (t_regions t ++ replicate (Z.to_nat (t_max t)) (Region 0 0 0)) (array_at addr).

Definition in_slab (ty : type_name) (mb : memblock) : bool :=
  match ty with Memory => memblock_memory_in_slab mb | Reserved => memblock_reserved_in_slab mb end.
Definition set_in_slab (ty : type_name) (b : bool) (mb : memblock) : memblock :=
  match ty with
  | Memory => MB (current_limit mb) (memory mb) (reserved mb) (memblock_can_resize mb)
                b (memblock_reserved_in_slab mb)
  | Reserved => MB (current_limit mb) (memory mb) (reserved mb) (memblock_can_resize mb)
                  (memblock_memory_in_slab mb) b
  end.

(** The address found for the new array, 0 when there is none. *)
Definition new_array_addr (ty : type_name) (new_area_start new_area_size new_size new_alloc_size : Z) :
    prog memblock Z :=
  if slab_is_available then mret (kmalloc_pa new_size)
  else
    let '(a, s) := match ty with
                   | Reserved => (new_area_start, new_area_size)
                   | Memory => (0, 0)
                   end in
    lim ← gets current_limit;
    addr ← memblock_find_in_range (u64 (a + s)) lim new_alloc_size PAGE_SIZE;
    if (addr =? 0) && negb (s =? 0) then
      memblock_find_in_range 0 (Z.min a lim) new_alloc_size PAGE_SIZE
    else mret addr.

(** [depth] bounds the nesting of array growths. *)
Fixpoint memblock_double_array (depth : nat) (ty : type_name) (new_area_start new_area_size : Z) :
    prog memblock Z :=
  match depth with
  | O => wrong
  | S depth =>
      can_resize ← gets memblock_can_resize;
      if negb can_resize then mret (-1)
      else
        t ← gets (type_of ty);
        let old_size := u64 (t_max t * sizeof_region) in
        let new_size := old_size <<64 1 in
        let old_alloc_size := PAGE_ALIGN old_size in
        let new_alloc_size := PAGE_ALIGN new_size in
        addr ← new_array_addr ty new_area_start new_area_size new_size new_alloc_size;
        if addr =? 0 then mret (-1)
        else
          _ ← on ty (modify (move_array addr));
          was_slab ← gets (in_slab ty);
          _ ← (if (was_slab : bool) then mret 0 (* kfree *)
               else match t_home t with
                    | init_regions => mret 0
                    | array_at old =>
                        remove_range (memblock_double_array depth) Reserved old old_alloc_size
                    end);
          _ ← (if slab_is_available then mret tt
               else
                 ret ← add_region (memblock_double_array depth) Reserved addr new_alloc_size
                         MAX_NUMNODES;
                 if ret =? 0 then mret tt else wrong (* BUG_ON *));
          _ ← modify (set_in_slab ty slab_is_available);
          mret 0
  end.

(** Growing the memory array can make the reserved array grow; growing the
    reserved array leaves it with room for the entries it needs, so that no
    growth nests deeper than two. *)
Definition RESIZE_DEPTH : nat := 3.

Definition memblock_add_region (ty : type_name) (base size nid : Z) : prog memblock Z :=
  add_region (memblock_double_array RESIZE_DEPTH) ty base size nid.
Definition memblock_isolate_range (ty : type_name) (base size : Z) : prog memblock (Z * (Z * Z)) :=
  isolate_range (memblock_double_array RESIZE_DEPTH) ty base size.
Definition __memblock_remove (ty : type_name) (base size : Z) : prog memblock Z :=
  remove_range (memblock_double_array RESIZE_DEPTH) ty base size.

Definition memblock_add_node (base size nid : Z) : prog memblock Z :=
  memblock_add_region Memory base size nid.
Definition memblock_add (base size : Z) : prog memblock Z :=
  memblock_add_region Memory base size MAX_NUMNODES.
Definition memblock_remove (base size : Z) : prog memblock Z := __memblock_remove Memory base size.
Definition memblock_free (base size : Z) : prog memblock Z := __memblock_remove Reserved base size.
Definition memblock_reserve (base size : Z) : prog memblock Z :=
  memblock_add_region Reserved base size MAX_NUMNODES.

Definition memblock_set_node (base size nid : Z) : prog memblock Z :=
  '(ret, (start_rgn, end_rgn)) ← memblock_isolate_range Memory base size;
  if negb (ret =? 0) then mret ret
  else
    _ ← on Memory (for_up (Z.to_nat (end_rgn - start_rgn)) start_rgn
                     (λ i, r ← region i; set_region i (memblock_set_region_node r nid)));
    _ ← on Memory memblock_merge_regions;
    mret 0.

(** ** Allocation *)

Definition memblock_alloc_base_nid (size align max_addr nid : Z) : prog memblock Z :=
  let align := if align =? 0 then 8 else align in
  let size := round_up size align in
  found ← memblock_find_in_range_node 0 max_addr size align nid;
  if found =? 0 then mret 0
  else
    ret ← memblock_reserve found size;
    if ret =? 0 then mret found else mret 0.

Definition memblock_alloc_nid (size align nid : Z) : prog memblock Z :=
  memblock_alloc_base_nid size align MEMBLOCK_ALLOC_ACCESSIBLE nid.
Definition __memblock_alloc_base (size align max_addr : Z) : prog memblock Z :=
  memblock_alloc_base_nid size align max_addr MAX_NUMNODES.
Definition memblock_alloc_base (size align max_addr : Z) : prog memblock Z :=
  alloc ← __memblock_alloc_base size align max_addr;
  if alloc =? 0 then wrong (* panic *) else mret alloc.
Definition memblock_alloc (size align : Z) : prog memblock Z :=
  memblock_alloc_base size align MEMBLOCK_ALLOC_ACCESSIBLE.
Definition memblock_alloc_try_nid (size align nid : Z) : prog memblock Z :=
  res ← memblock_alloc_nid size align nid;
  if negb (res =? 0) then mret res
  else memblock_alloc_base size align MEMBLOCK_ALLOC_ACCESSIBLE.

(** ** Queries *)

Definition memblock_phys_mem_size : prog memblock Z := gets (λ mb, t_total_size (memory mb)).

Definition memblock_region_memory_base_pfn (r : memblock_region) : Z := PFN_UP (r_base r).
Definition memblock_region_memory_end_pfn (r : memblock_region) : Z := PFN_DOWN (r_end r).

Definition mem_size_step (limit_pfn i pages : Z) : prog memblock_type Z :=
  r ← region i;
  let start_pfn := Z.min (memblock_region_memory_base_pfn r) limit_pfn in
  let end_pfn := Z.min (memblock_region_memory_end_pfn r) limit_pfn in
  mret (u64 (pages + u64 (end_pfn - start_pfn))).

Definition memblock_mem_size (limit_pfn : Z) : prog memblock Z :=
  pages ← on Memory (c ← gets t_cnt; for_fold (Z.to_nat c) 0 0 (mem_size_step limit_pfn));
  mret (pages <<64 PAGE_SHIFT).

Definition memblock_start_of_DRAM : prog memblock Z :=
  r ← on Memory (region 0); mret (r_base r).
Definition memblock_size_of_first_region : prog memblock Z :=
  r ← on Memory (region 0); mret (r_size r).
Definition memblock_end_of_DRAM : prog memblock Z :=
  c ← gets (λ mb, t_cnt (memory mb)); r ← on Memory (region (c - 1)); mret (r_end r).

(** The address at which [limit] bytes of memory have been passed. *)
Fixpoint limit_addr (n : nat) (i limit : Z) : prog memblock_type Z :=
  match n with
  | O => mret ULLONG_MAX
  | S n =>
      r ← region i;
      if limit <=? r_size r then mret (u64 (r_base r + limit))
      else limit_addr n (i + 1) (limit - r_size r)
  end.

Definition memblock_enforce_memory_limit (limit : Z) : prog memblock unit :=
  if limit =? 0 then mret tt
  else
    c ← gets (λ mb, t_cnt (memory mb));
    max_addr ← on Memory (limit_addr (Z.to_nat c) 0 limit);
    _ ← __memblock_remove Memory max_addr ULLONG_MAX;
    _ ← __memblock_remove Reserved max_addr ULLONG_MAX;
    mret tt.

Fixpoint search_loop (fuel : nat) (left right addr : Z) : prog memblock_type Z :=
  match fuel with
  | O => wrong
  | S fuel =>
      let mid := u32 (right + left) / 2 in
      r ← region mid;
      let again left right :=
        if left <? right then search_loop fuel left right addr else mret (-1) in
      if addr <? r_base r then again left mid
      else if r_end r <=? addr then again (mid + 1) right
      else mret mid
  end.

Definition memblock_search (addr : Z) : prog memblock_type Z :=
  c ← gets t_cnt; search_loop (S (Z.to_nat c)) 0 (u32 c) addr.

Definition memblock_is_reserved (addr : Z) : prog memblock bool :=
  idx ← on Reserved (memblock_search addr); mret (negb (idx =? -1)).
Definition memblock_is_memory (addr : Z) : prog memblock bool :=
  idx ← on Memory (memblock_search addr); mret (negb (idx =? -1)).

Definition memblock_is_region_memory (base size : Z) : prog memblock bool :=
  idx ← on Memory (memblock_search base);
  let end_ := u64 (base + memblock_cap_size base size) in
  if idx =? -1 then mret false
  else
    r ← on Memory (region idx);
    mret ((r_base r <=? base) && (end_ <=? r_end r)).

Definition memblock_is_region_reserved (base size : Z) : prog memblock bool :=
  let size := memblock_cap_size base size in
  i ← on Reserved (memblock_overlaps_region base size);
  mret (0 <=? i).

(** ** Trimming and limits *)

Fixpoint trim_loop (fuel : nat) (i align : Z) : prog memblock_type unit :=
  match fuel with
  | O => wrong
  | S fuel =>
      cnt ← gets t_cnt;
      if i <? cnt then
        r ← region i;
        let start := round_up (r_base r) align in
        let end_ := round_down (r_end r) align in
        if (start =? r_base r) && (end_ =? r_end r) then trim_loop fuel (i + 1) align
        else if start <? end_ then
          _ ← set_region i (Region start (end_ - start) (r_nid r));
          trim_loop fuel (i + 1) align
        else
          _ ← memblock_remove_region i;
          trim_loop fuel i align
      else mret tt
  end.

Definition memblock_trim_memory (align : Z) : prog memblock unit :=
  c ← gets (λ mb, t_cnt (memory mb));
  on Memory (trim_loop (Z.to_nat (c + 2)) 0 align).

Definition memblock_set_current_limit (limit : Z) : prog memblock unit :=
  modify (λ mb, MB limit (memory mb) (reserved mb) (memblock_can_resize mb)
                  (memblock_memory_in_slab mb) (memblock_reserved_in_slab mb)).
Definition memblock_allow_resize : prog memblock unit :=
  modify (λ mb, MB (current_limit mb) (memory mb) (reserved mb) true
                  (memblock_memory_in_slab mb) (memblock_reserved_in_slab mb)).

(** ** Iteration over page frames *)

Fixpoint pfn_scan (fuel : nat) (idx nid : Z) : prog memblock_type (Z * option (Z * Z * Z)) :=
  match fuel with
  | O => wrong
  | S fuel =>
      let idx := idx + 1 in
      cnt ← gets t_cnt;
      if idx <? cnt then
        r ← region idx;
        if PFN_DOWN (r_end r) <=? PFN_UP (r_base r) then pfn_scan fuel idx nid
        else if (nid =? MAX_NUMNODES) || (nid =? r_nid r) then
          mret (idx, Some (PFN_UP (r_base r), PFN_DOWN (r_end r), r_nid r))
        else pfn_scan fuel idx nid
      else mret (-1, None)
  end.

Definition __next_mem_pfn_range (idx nid : Z) : prog memblock (Z * option (Z * Z * Z)) :=
  on Memory (c ← gets t_cnt; pfn_scan (Z.to_nat (c + 2)) idx nid).

Definition get_allocated_memblock_reserved_regions_info : prog memblock (Z * option Z) :=
  gets (λ mb, match t_home (reserved mb) with
              | init_regions => (0, None)
              | array_at pa => (PAGE_ALIGN (u64 (sizeof_region * t_max (reserved mb))), Some pa)
              end).

End memblock.
