(* ===== verification/MemblockList.v ===== *)
(** * MemblockList: the region arrays of memblock as sorted lists

    The meaning of an array of regions is the partial map from physical
    addresses to nodes, [owner].  This file defines the list functions that
    memblock_add_region, memblock_merge_regions and memblock_isolate_range
    compute ([ins], [merge], [split_at]) and proves what they do to [owner];
    MemblockArray.v proves that the array programs compute them. *)

From S2P Require Import Prelude Memblock.

Definition rend (r : memblock_region) : Z := r_base r + r_size r.

(** Regions in increasing order, disjoint, not empty, from [lo] upwards, and
    below the last address of the 64-bit space. *)
Fixpoint sorted_from (lo : Z) (l : list memblock_region) : Prop :=
  match l with
  | [] => True
  | r :: l => lo ≤ r_base r ∧ 0 < r_size r ∧ rend r ≤ ULLONG_MAX ∧ sorted_from (rend r) l
  end.

Definition covers (r : memblock_region) (a : Z) : bool := (r_base r <=? a) && (a <? rend r).

(** The node that owns an address. *)
Fixpoint owner (l : list memblock_region) (a : Z) : option Z :=
  match l with
  | [] => None
  | r :: l => if covers r a then Some (r_nid r) else owner l a
  end.

Fixpoint sum_sizes (l : list memblock_region) : Z :=
  match l with [] => 0 | r :: l => r_size r + sum_sizes l end.

(** No two neighbours could be one region. *)
Fixpoint minimal (l : list memblock_region) : Prop :=
  match l with
  | r1 :: (r2 :: _) as l' => ¬ (rend r1 = r_base r2 ∧ r_nid r1 = r_nid r2) ∧ minimal l'
  | _ => True
  end.

(** Without NODE_MAP every region has node 0. *)
Definition node `{memblock_config} (nid : Z) : Z := if NODE_MAP then nid else 0.
Definition nodes_ok `{memblock_config} (l : list memblock_region) : Prop :=
  Forall (λ r, r_nid r = node (r_nid r)) l.

(** Case analysis on the comparisons of a goal, the left-most first. *)
Ltac ltbs :=
  repeat (match goal with
  | |- context [?x <? ?y] => destruct (Z.ltb_spec x y)
  | |- context [?x <=? ?y] => destruct (Z.leb_spec x y)
  | |- context [?x =? ?y] => destruct (Z.eqb_spec x y)
  end; cbn [andb orb negb]; try lia); simpl; try lia.

Lemma sorted_weaken lo lo' l : lo' ≤ lo → sorted_from lo l → sorted_from lo' l.
Proof. destruct l; simpl; [done|]. intros ? (? & ? & ? & ?). repeat split; lia || done. Qed.

Lemma sorted_raise lo lo' l r :
  sorted_from lo (r :: l) → lo' ≤ r_base r → sorted_from lo' (r :: l).
Proof. simpl. intros (? & ? & ? & ?) ?. repeat split; lia || done. Qed.

Lemma sorted_app lo l1 l2 :
  sorted_from lo (l1 ++ l2) → sorted_from lo l1 ∧ ∃ lo', lo ≤ lo' ∧ sorted_from lo' l2.
Proof.
  revert lo. induction l1 as [|r l1 IH]; intros lo; simpl.
  - intros H. split; [done|]. exists lo. split; [lia|done].
  - intros (H1 & H2 & H3 & (H4 & lo' & H5 & H6)%IH). unfold rend in *.
    split; [done|]. exists lo'. split; [lia|done].
Qed.

Lemma sorted_r_end lo r l : 0 ≤ lo → sorted_from lo (r :: l) → r_end r = rend r.
Proof.
  simpl. unfold rend, r_end, ULLONG_MAX. intros ? (? & ? & ? & ?). apply u64_small. lia.
Qed.

Lemma owner_below lo l a : sorted_from lo l → a < lo → owner l a = None.
Proof.
  revert lo. induction l as [|r l IH]; intros lo; simpl; [done|].
  intros (H1 & H2 & H3 & H4) Ha. unfold covers.
  ltbs; (apply (IH (rend r)); [done|]; unfold rend in *; lia).
Qed.

Lemma owner_app l1 l2 a :
  owner (l1 ++ l2) a = match owner l1 a with Some n => Some n | None => owner l2 a end.
Proof. induction l1 as [|r l1 IH]; simpl; [done|]. by destruct (covers r a). Qed.

Lemma sum_app l1 l2 : sum_sizes (l1 ++ l2) = sum_sizes l1 + sum_sizes l2.
Proof. induction l1 as [|r l1 IH]; simpl; lia. Qed.

Lemma sum_bounds lo l : lo ≤ ULLONG_MAX → sorted_from lo l → 0 ≤ sum_sizes l ≤ ULLONG_MAX - lo.
Proof.
  revert lo. induction l as [|r l IH]; intros lo Hlo; simpl; [lia|].
  intros (H1 & H2 & H3 & H4%IH); unfold rend in *; lia.
Qed.

(** The sum of the sizes is the number of owned addresses. *)
Lemma sum_counts lo l n :
  0 ≤ lo → sorted_from lo l → (∀ r, r ∈ l → rend r ≤ lo + Z.of_nat n) →
  sum_sizes l = count (λ a, bool_decide (is_Some (owner l a))) lo n.
Proof.
  revert lo n. induction l as [|r l IH]; intros lo n Hlo; simpl.
  - intros _ _. symmetry. by apply count_zero.
  - intros (H1 & H2 & H3 & H4) Hb. pose proof (Hb r ltac:(set_solver)) as Hr. unfold rend in *.
    set (n1 := Z.to_nat (r_base r - lo)). set (n2 := Z.to_nat (r_size r)).
    replace n with (n1 + (n2 + (n - n1 - n2)))%nat by lia.
    rewrite !count_app.
    rewrite (proj2 (count_zero _ lo n1)).
    2:{ intros i Hi. apply bool_decide_eq_false. unfold covers, rend. ltbs.
        rewrite (owner_below (r_base r + r_size r) l) by (done || lia). by intros []. }
    assert (Hc : count (λ a, bool_decide (is_Some (if covers r a then Some (r_nid r) else owner l a)))
              (lo + Z.of_nat n1) n2 = Z.of_nat n2).
    { rewrite (count_ext _ (λ _, true)).
      - generalize (lo + Z.of_nat n1). clear. induction n2 as [|n2 IH]; intros z; simpl; [done|].
        rewrite IH. lia.
      - intros i Hi. apply bool_decide_eq_true. unfold covers, rend. ltbs. eauto. }
    rewrite Hc. rewrite (IH (lo + Z.of_nat n1 + Z.of_nat n2) (n - n1 - n2)%nat).
    + rewrite (count_ext _ (λ a, bool_decide (is_Some (if covers r a then Some (r_nid r) else owner l a)))
                 (lo + Z.of_nat n1 + Z.of_nat n2)); [lia|].
      intros i Hi. unfold covers, rend. ltbs. done.
    + lia.
    + eapply sorted_weaken; [|done]. lia.
    + intros r' Hr'. specialize (Hb r' ltac:(set_solver)). lia.
Qed.

Section lists.
Context `{cfg : memblock_config}.

Definition new_region (b s n : Z) : memblock_region := Region b s (node n).
Definition rest_region (b e n : Z) : list memblock_region :=
  if b <? e then [new_region b (e - b) n] else [].

Lemma rest_region_some b e n : b < e → rest_region b e n = [new_region b (e - b) n].
Proof. intros. unfold rest_region. by ltbs. Qed.
Lemma rest_region_none b e n : e ≤ b → rest_region b e n = [].
Proof. intros. unfold rest_region. by ltbs. Qed.

(** What the inserting round of memblock_add_region makes of the array. *)
Fixpoint ins (l : list memblock_region) (b e n : Z) : list memblock_region :=
  match l with
  | [] => rest_region b e n
  | r :: l' =>
      if e <=? r_base r then rest_region b e n ++ r :: l'
      else if rend r <=? b then r :: ins l' b e n
      else rest_region b (r_base r) n ++ r :: ins l' (Z.min (rend r) e) e n
  end.

(** What memblock_merge_regions makes of an array that starts with [this]. *)
Fixpoint merge_from (this : memblock_region) (l : list memblock_region) : list memblock_region :=
  match l with
  | [] => [this]
  | next :: l' =>
      if (rend this =? r_base next) && (r_nid this =? r_nid next)
      then merge_from (Region (r_base this) (r_size this + r_size next) (r_nid this)) l'
      else this :: merge_from next l'
  end.
Definition merge (l : list memblock_region) : list memblock_region :=
  match l with [] => [] | r :: l => merge_from r l end.

Lemma ins_done l b e n : e ≤ b → ins l b e n = l.
Proof.
  revert b. induction l as [|r l IH]; intros b Hb; simpl; unfold rest_region; ltbs; try done.
  all: rewrite IH; [done|lia].
Qed.

Lemma ins_length l b e n : (length l ≤ length (ins l b e n))%nat.
Proof.
  revert b. induction l as [|r l IH]; intros b; simpl; [lia|].
  ltbs; rewrite ?length_app; simpl; try lia.
  - specialize (IH b). lia.
  - specialize (IH (Z.min (rend r) e)). lia.
Qed.

Lemma ins_sorted lo l b e n :
  lo ≤ b ∨ e ≤ b → e ≤ ULLONG_MAX → sorted_from lo l → sorted_from lo (ins l b e n).
Proof.
  revert lo b. induction l as [|r l IH]; intros lo b Hb He; simpl.
  - intros _. unfold rest_region. ltbs; unfold rend; simpl; lia.
  - intros (H1 & H2 & H3 & H4). unfold rest_region. unfold rend in *.
    ltbs; unfold rend; simpl; repeat split; try lia; try done.
    all: apply IH; lia || done.
Qed.

(** Existing regions keep their node; the rest of the range gets the new one. *)
Definition add_owner (old : option Z) (b e n a : Z) : option Z :=
  match old with
  | Some m => Some m
  | None => if (b <=? a) && (a <? e) then Some (node n) else None
  end.

Lemma owner_rest b e n a :
  owner (rest_region b e n) a = if (b <=? a) && (a <? e) then Some (node n) else None.
Proof. unfold rest_region. ltbs; unfold covers, rend; simpl; ltbs; done. Qed.

Lemma ins_owner lo l b e n a :
  sorted_from lo l → owner (ins l b e n) a = add_owner (owner l a) b e n a.
Proof.
  revert lo b. induction l as [|r l IH]; intros lo b; simpl.
  - intros _. rewrite owner_rest. done.
  - intros (H1 & H2 & H3 & H4).
    destruct (Z.leb_spec e (r_base r)); [|destruct (Z.leb_spec (rend r) b)].
    + rewrite owner_app, owner_rest. simpl. unfold add_owner, covers, rend in *.
      ltbs; try done; try (by destruct (owner l a)).
      by rewrite (owner_below _ _ _ H4) by lia.
    + simpl. rewrite (IH _ _ H4). by destruct (covers r a).
    + rewrite owner_app, owner_rest. simpl. rewrite (IH _ _ H4).
      unfold add_owner, covers, rend in *.
      destruct (decide (a < r_base r + r_size r)).
      * rewrite (owner_below _ _ _ H4) by lia. ltbs; done.
      * ltbs; destruct (owner l a); try done.
Qed.

Lemma ins_nodes l b e n : nodes_ok l → nodes_ok (ins l b e n).
Proof.
  assert (Hr : ∀ b e, nodes_ok (rest_region b e n)).
  { intros. unfold rest_region, new_region, node. ltbs; repeat constructor; simpl.
    unfold node. by destruct NODE_MAP. }
  revert b. unfold nodes_ok in *. induction l as [|r l IH]; intros b; simpl; [done|].
  intros [H1 H2]%Forall_cons. ltbs; rewrite ?Forall_app, ?Forall_cons; auto.
Qed.

Lemma merge_from_sorted lo this l :
  sorted_from lo (this :: l) → sorted_from lo (merge_from this l).
Proof.
  revert lo this. induction l as [|r l IH]; intros lo this; simpl; [done|].
  intros (H1 & H2 & H3 & H4 & H5 & H6 & H7). unfold rend in *.
  destruct (_ && _) eqn:E.
  - apply andb_true_iff in E as [E1%Z.eqb_eq E2%Z.eqb_eq].
    apply IH. simpl. unfold rend; simpl. repeat split; try lia.
    eapply sorted_weaken; [|done]. lia.
  - simpl. unfold rend. repeat split; try lia. apply IH. simpl. unfold rend. auto with lia.
Qed.

Lemma merge_from_owner lo this l a :
  sorted_from lo (this :: l) → owner (merge_from this l) a = owner (this :: l) a.
Proof.
  revert lo this. induction l as [|r l IH]; intros lo this; simpl; [done|].
  intros (H1 & H2 & H3 & H4 & H5 & H6 & H7). unfold rend in *.
  destruct (_ && _) eqn:E.
  - apply andb_true_iff in E as [E1%Z.eqb_eq E2%Z.eqb_eq].
    rewrite (IH lo).
    + simpl. rewrite <- E2. unfold covers, rend. simpl. ltbs; done.
    + simpl. unfold rend; simpl. repeat split; try lia.
      eapply sorted_weaken; [|done]. lia.
  - simpl. destruct (covers this a); [done|].
    rewrite (IH (r_base r)); [done|]. simpl. unfold rend. auto with lia.
Qed.

Lemma merge_from_sum this l : sum_sizes (merge_from this l) = sum_sizes (this :: l).
Proof.
  revert this. induction l as [|r l IH]; intros this; simpl; [done|].
  destruct (_ && _); simpl; rewrite IH; simpl; lia.
Qed.

Lemma merge_from_nodes this l : nodes_ok (this :: l) → nodes_ok (merge_from this l).
Proof.
  revert this. unfold nodes_ok. induction l as [|r l IH]; intros this; simpl; [done|].
  intros [H1 [H2 H3]%Forall_cons]%Forall_cons. destruct (_ && _).
  - apply IH. by constructor.
  - constructor; [done|]. apply IH. by constructor.
Qed.

Lemma merge_from_head this l :
  ∃ r l', merge_from this l = r :: l' ∧ r_base r = r_base this ∧ r_nid r = r_nid this.
Proof.
  revert this. induction l as [|r l IH]; intros this; simpl; [eauto|].
  destruct (_ && _); [|eauto].
  destruct (IH (Region (r_base this) (r_size this + r_size r) (r_nid this))) as (r' & l' & H).
  eauto.
Qed.

Lemma merge_from_minimal this l : minimal (merge_from this l).
Proof.
  revert this. induction l as [|r l IH]; intros this; simpl; [done|].
  destruct (_ && _) eqn:E; [done|].
  destruct (merge_from_head r l) as (r' & l' & Heq & Hb & Hn).
  specialize (IH r). rewrite Heq in *. simpl. split; [|done].
  rewrite Hb, Hn. intros [H1 H2]. apply andb_false_iff in E as [E|E]; apply Z.eqb_neq in E; done.
Qed.

Lemma merge_from_length this l : (length (merge_from this l) ≤ length (this :: l))%nat.
Proof.
  revert this. induction l as [|r l IH]; intros this; simpl; [done|].
  destruct (_ && _); [specialize (IH (Region (r_base this) (r_size this + r_size r) (r_nid this)))
                     |specialize (IH r)]; simpl in *; lia.
Qed.

(** ** Splitting a list at the bounds of a range *)

(** The part of [r] inside [lo, hi). *)
Definition clip (lo hi : Z) (r : memblock_region) : option memblock_region :=
  let b := Z.max (r_base r) lo in
  let e := Z.min (rend r) hi in
  if b <? e then Some (Region b (e - b) (r_nid r)) else None.

Definition clip_list (lo hi : Z) (l : list memblock_region) : list memblock_region :=
  omap (clip lo hi) l.

Lemma clip_all lo hi r : lo ≤ r_base r → rend r ≤ hi → 0 < r_size r → clip lo hi r = Some r.
Proof.
  intros. unfold clip, rend in *. destruct r as [b s n]; simpl in *. ltbs.
  rewrite Z.max_l, Z.min_l by lia. do 2 f_equal. lia.
Qed.

Lemma clip_none lo hi r : rend r ≤ lo ∨ hi ≤ r_base r → clip lo hi r = None.
Proof. intros. unfold clip, rend in *. ltbs. done. Qed.

Lemma clip_list_above lo hi b l : sorted_from b l → hi ≤ b → clip_list lo hi l = [].
Proof.
  revert b. induction l as [|r l IH]; intros b; simpl; [done|].
  intros (H1 & H2 & H3 & H4) Hb. unfold clip_list in *. simpl.
  rewrite clip_none by lia. eapply IH; [done|]. unfold rend. lia.
Qed.

Lemma clip_list_id lo hi b l :
  sorted_from b l → lo ≤ b → (∀ r, r ∈ l → rend r ≤ hi) → clip_list lo hi l = l.
Proof.
  revert b. induction l as [|r l IH]; intros b; simpl; [done|].
  intros (H1 & H2 & H3 & H4) Hb Hh. unfold clip_list in *. simpl.
  rewrite clip_all by (done || lia || (apply Hh; set_solver)).
  f_equal. eapply IH; [done| |]; [unfold rend; lia|set_solver].
Qed.

Lemma sorted_ends b l r : sorted_from b l → r ∈ l → rend r ≤ ULLONG_MAX ∧ b ≤ r_base r.
Proof.
  revert b. induction l as [|r' l IH]; intros b; simpl; [set_solver|].
  intros (H1 & H2 & H3 & H4) [->|Hr]%elem_of_cons; [done|].
  destruct (IH _ H4 Hr). unfold rend in *. lia.
Qed.

Lemma sorted_pos b l r : sorted_from b l → r ∈ l → 0 < r_size r.
Proof.
  revert b. induction l as [|r' l IH]; intros b; simpl; [set_solver|].
  intros (H1 & H2 & H3 & H4) [->|Hr]%elem_of_cons; eauto.
Qed.

Lemma clip_list_sorted lo hi b l :
  sorted_from b l → sorted_from (Z.max b lo) (clip_list lo hi l).
Proof.
  revert b. induction l as [|r l IH]; intros b; simpl; [done|].
  intros (H1 & H2 & H3 & H4). unfold clip_list in *. simpl. unfold clip at 1.
  specialize (IH _ H4). unfold rend in *. ltbs.
  - unfold rend; simpl. repeat split; try lia. eapply sorted_weaken; [|done]. lia.
  - eapply sorted_weaken; [|done]. lia.
Qed.

Lemma clip_list_owner lo hi b l a :
  sorted_from b l →
  owner (clip_list lo hi l) a = if (lo <=? a) && (a <? hi) then owner l a else None.
Proof.
  revert b. induction l as [|r l IH]; intros b; simpl; [by ltbs|].
  intros (H1 & H2 & H3 & H4). specialize (IH _ H4). unfold clip_list in *. simpl.
  unfold clip at 1. destruct (Z.ltb_spec (Z.max (r_base r) lo) (Z.min (rend r) hi)); simpl;
    rewrite IH; unfold covers, rend in *; simpl; ltbs; done.
Qed.

Lemma clip_list_nodes lo hi l : nodes_ok l → nodes_ok (clip_list lo hi l).
Proof.
  unfold nodes_ok, clip_list. induction l as [|r l IH]; simpl; [done|].
  intros [H1 H2]%Forall_cons. unfold clip at 1. ltbs; auto.
Qed.

(** The three parts of a list, glued, are a sorted list with the same owners. *)
Definition split_at (base end_ : Z) (l : list memblock_region) : list memblock_region :=
  clip_list 0 base l ++ clip_list base end_ l ++ clip_list end_ ULLONG_MAX l.

End lists.
