(* ===== verification/MemblockArray.v ===== *)
(** * MemblockArray: the array programs of memblock compute the list functions

    [holds tot l max h t]: the first [cnt] entries of [t] are the list [l], its
    array has [max] entries, its total size is [tot].  Every routine over one
    [memblock_type] gets a [wp] lemma that takes [holds] to [holds]. *)

From S2P Require Import Prelude Memblock MemblockList.

Definition holds (tot : Z) (l : list memblock_region) (max : Z) (h : array_home)
    (t : memblock_type) : Prop :=
  ∃ rest, t = MType (zlen l) max tot (l ++ rest) h ∧ zlen (l ++ rest) = max.

(** ** Accesses *)

Lemma wp_region i r (Q : memblock_region → memblock_type → Prop) t :
  rd (t_regions t) i = Some r → Q r t → wp (region i) Q t.
Proof. unfold wp, region. by intros ->. Qed.

Lemma wp_set_regions f l (Q : unit → memblock_type → Prop) t :
  f (t_regions t) = Some l →
  Q tt (MType (t_cnt t) (t_max t) (t_total_size t) l (t_home t)) → wp (set_regions f) Q t.
Proof. unfold wp, set_regions. by intros ->. Qed.

Lemma memmove_up {A} (l1 l2 : list A) x rest :
  ∃ y, memmove (l1 ++ l2 ++ x :: rest) (zlen l1 + 1) (zlen l1) (zlen l2)
       = Some (l1 ++ y :: l2 ++ rest).
Proof.
  unfold memmove. rewrite !length_app. simpl length.
  repeat match goal with |- context [?a <=? ?b] => destruct (Z.leb_spec a b); [|lia] end.
  simpl. rewrite !Nat2Z.id, drop_app_length, take_app_length.
  replace (Z.to_nat (zlen l1 + 1)) with (length l1 + 1)%nat by lia.
  replace (Z.to_nat (zlen l1 + 1 + zlen l2)) with (length l1 + (length l2 + 1))%nat by lia.
  rewrite take_app_add, drop_app_add, drop_app_add. simpl.
  destruct (l2 ++ x :: rest) as [|y l'] eqn:E; [by destruct l2|].
  exists y. simpl. rewrite take_0, drop_0, <- app_assoc. done.
Qed.

Lemma memmove_down {A} (l1 l2 : list A) x rest :
  ∃ y, memmove (l1 ++ x :: l2 ++ rest) (zlen l1) (zlen l1 + 1) (zlen l2)
       = Some (l1 ++ l2 ++ y :: rest).
Proof.
  unfold memmove. rewrite !length_app. simpl length. rewrite length_app.
  repeat match goal with |- context [?a <=? ?b] => destruct (Z.leb_spec a b); [|lia] end.
  simpl. rewrite Nat2Z.id, take_app_length.
  replace (Z.to_nat (zlen l1 + 1)) with (length l1 + 1)%nat by lia.
  replace (Z.to_nat (zlen l1 + zlen l2)) with (length l1 + length l2)%nat by lia.
  rewrite !drop_app_add, Nat2Z.id. simpl. rewrite drop_0, take_app_length.
  destruct (drop (length l2) (x :: l2 ++ rest)) as [|y l'] eqn:E.
  - apply (f_equal length) in E. rewrite length_drop in E. simpl in E. rewrite length_app in E. lia.
  - exists y. do 3 f_equal. change (x :: l2 ++ rest) with ((x :: l2) ++ rest) in E.
    rewrite drop_app_le in E by (simpl; lia).
    assert (Hl : length (drop (length l2) (x :: l2)) = 1%nat)
      by (rewrite length_drop; simpl; lia).
    destruct (drop (length l2) (x :: l2)) as [|z [|]]; simpl in *; try lia.
    injection E as <- <-. done.
Qed.

Lemma holds_bound tot l max h t : holds tot l max h t → zlen l ≤ max.
Proof. intros (rest & -> & <-). rewrite length_app. lia. Qed.

Lemma holds_cnt tot l max h t : holds tot l max h t → t_cnt t = zlen l.
Proof. by intros (rest & -> & _). Qed.

Lemma holds_max tot l max h t : holds tot l max h t → t_max t = max.
Proof. by intros (rest & -> & _). Qed.

Lemma holds_total tot l max h t : holds tot l max h t → t_total_size t = tot.
Proof. by intros (rest & -> & _). Qed.

Lemma holds_live tot l max h t : holds tot l max h t → take (length l) (t_regions t) = l.
Proof. intros (rest & -> & _). simpl. apply take_app_length. Qed.

Lemma holds_rd tot l max h t i : holds tot l max h t → i < zlen l → rd (t_regions t) i = rd l i.
Proof. intros (rest & -> & _) Hi. simpl. by apply rd_app_l. Qed.

Lemma holds_rd_mid tot l1 r l2 max h t :
  holds tot (l1 ++ r :: l2) max h t → rd (t_regions t) (zlen l1) = Some r.
Proof.
  intros (rest & -> & _). simpl. rewrite <- app_assoc. simpl. apply rd_mid.
Qed.

Lemma wp_get_cnt tot l max h (Q : Z → memblock_type → Prop) t :
  holds tot l max h t → Q (zlen l) t → wp (gets t_cnt) Q t.
Proof. intros Hh HQ. apply wp_gets. by rewrite (holds_cnt _ _ _ _ _ Hh). Qed.

Lemma wp_region_mid tot l1 r l2 max h (Q : memblock_region → memblock_type → Prop) t :
  holds tot (l1 ++ r :: l2) max h t → Q r t → wp (region (zlen l1)) Q t.
Proof. intros Hh. apply wp_region. by apply holds_rd_mid in Hh. Qed.

Lemma wp_set_region_mid tot l1 r r' l2 max h (Q : unit → memblock_type → Prop) t :
  holds tot (l1 ++ r :: l2) max h t →
  (∀ t', holds tot (l1 ++ r' :: l2) max h t' → Q tt t') →
  wp (set_region (zlen l1) r') Q t.
Proof.
  intros (rest & -> & Hmax) HQ. unfold set_region.
  eapply wp_set_regions; simpl; [rewrite <- app_assoc; simpl; apply wr_mid|].
  apply HQ. exists rest. rewrite <- app_assoc. simpl. split.
  - f_equal. rewrite !length_app. done.
  - rewrite <- Hmax, !length_app. simpl. rewrite length_app. lia.
Qed.

Lemma wp_set_total tot tot' l max h (Q : unit → memblock_type → Prop) t :
  holds tot l max h t → (∀ t', holds tot' l max h t' → Q tt t') → wp (set_total tot') Q t.
Proof.
  intros (rest & -> & Hmax) HQ. apply wp_modify, HQ. exists rest. done.
Qed.

Lemma wp_get_total tot l max h (Q : Z → memblock_type → Prop) t :
  holds tot l max h t → Q tot t → wp (gets t_total_size) Q t.
Proof. intros (rest & -> & Hmax) HQ. by apply wp_gets. Qed.

(** Dropping the element at [zlen l1]: the memmove and the decrement of [cnt]. *)
Lemma wp_drop_region {B} tot l1 r l2 max h (k : unit → prog memblock_type B) Q t :
  holds tot (l1 ++ r :: l2) max h t →
  (∀ t', holds tot (l1 ++ l2) max h t' → wp (k tt) Q t') →
  wp (_ ← set_regions (λ l, memmove l (zlen l1) (zlen l1 + 1) (zlen l2));
      u ← set_cnt (zlen (l1 ++ l2)); k u) Q t.
Proof.
  intros (rest & -> & Hmax) HQ. apply wp_bind.
  destruct (memmove_down l1 l2 r rest) as [y Hy].
  eapply wp_set_regions; simpl.
  { rewrite <- app_assoc. simpl. exact Hy. }
  apply wp_bind, wp_modify. simpl. apply HQ. exists (y :: rest). rewrite <- app_assoc. split; [done|].
  rewrite <- Hmax. rewrite !length_app. simpl. lia.
Qed.

Section array.
Context `{cfg : memblock_config}.

(** ** Inserting and removing one region *)

Lemma wp_insert_region tot l1 l2 b s n max h (Q : unit → memblock_type → Prop) t :
  holds tot (l1 ++ l2) max h t → zlen (l1 ++ l2) < max →
  (∀ t', holds (u64 (tot + s)) (l1 ++ new_region b s n :: l2) max h t' → Q tt t') →
  wp (memblock_insert_region (zlen l1) b s n) Q t.
Proof.
  intros (rest & -> & Hmax) Hroom HQ. unfold memblock_insert_region.
  apply wp_bind, wp_gets. apply wp_bind, wp_gets. simpl.
  destruct (Z.leb_spec max (zlen (l1 ++ l2))); [lia|].
  destruct rest as [|x rest]; [rewrite app_nil_r in Hmax; lia|].
  destruct (memmove_up l1 l2 x rest) as [y Hy].
  apply wp_bind. eapply wp_set_regions.
  { simpl. rewrite <- app_assoc. replace (zlen (l1 ++ l2) - zlen l1) with (zlen l2)
      by (rewrite length_app; lia). exact Hy. }
  simpl. apply wp_bind. eapply wp_region; [apply rd_mid|].
  apply wp_bind. unfold set_region. eapply wp_set_regions; [apply wr_mid|]. simpl.
  apply wp_bind, wp_modify. apply wp_bind, wp_gets, wp_modify. simpl. apply HQ.
  exists rest. split.
  - f_equal; [rewrite !length_app; simpl; lia|]. rewrite <- app_assoc. done.
  - rewrite <- Hmax, !length_app. simpl. lia.
Qed.

(** The list after a removal; an empty list is one empty region. *)
Definition dummy : memblock_region := Region 0 0 (node MAX_NUMNODES).
Definition or_dummy (l : list memblock_region) : list memblock_region :=
  match l with [] => [dummy] | _ => l end.

Lemma wp_remove_region tot l1 r l2 max h (Q : unit → memblock_type → Prop) t :
  holds tot (l1 ++ r :: l2) max h t →
  (∀ t', holds (u64 (tot - r_size r)) (or_dummy (l1 ++ l2)) max h t' → Q tt t') →
  wp (memblock_remove_region (zlen l1)) Q t.
Proof.
  intros Hh HQ. unfold memblock_remove_region.
  apply wp_bind. eapply wp_region_mid; [done|].
  apply wp_bind. eapply wp_get_total; [done|].
  apply wp_bind. eapply wp_set_total; [done|]. clear dependent t. intros t Hh.
  apply wp_bind. eapply wp_get_cnt; [done|].
  replace (zlen (l1 ++ r :: l2) - (zlen l1 + 1)) with (zlen l2)
    by (rewrite length_app; simpl; lia).
  replace (zlen (l1 ++ r :: l2) - 1) with (zlen (l1 ++ l2))
    by (rewrite !length_app; simpl; lia).
  eapply wp_drop_region; [done|]. intros t' Hh'.
  destruct (Z.eqb_spec (zlen (l1 ++ l2)) 0) as [Hz|Hz].
  - assert (l1 ++ l2 = []) as E by (destruct (l1 ++ l2); [done|simpl in Hz; lia]).
    rewrite E in *. apply app_eq_nil in E as [-> ->].
    destruct Hh' as (rest & -> & Hmax). destruct Hh as (rest0 & -> & Hmax0).
    destruct rest as [|x rest]; [rewrite <- Hmax in Hmax0; simpl in Hmax0; lia|].
    apply wp_bind, wp_modify. simpl. apply wp_bind. eapply wp_region; [done|].
    unfold set_region. eapply wp_set_regions.
    { simpl. unfold wr. simpl. done. }
    simpl. apply HQ. exists rest. split; [done|]. done.
  - apply wp_ret, HQ. destruct (l1 ++ l2) eqn:E; [simpl in Hz; lia|]. done.
Qed.

(** ** memblock_merge_regions *)

Lemma same_node r1 r2 : r_nid r1 = node (r_nid r1) → r_nid r2 = node (r_nid r2) →
  (memblock_get_region_node r1 =? memblock_get_region_node r2) = (r_nid r1 =? r_nid r2).
Proof. intros H1 H2. unfold memblock_get_region_node. rewrite H1, H2. unfold node. by destruct NODE_MAP. Qed.

Lemma wp_merge_loop tot lo max h (Q : unit → memblock_type → Prop) l :
  ∀ fuel l1 this t,
  0 ≤ lo → sorted_from lo (this :: l) → nodes_ok (this :: l) →
  holds tot (l1 ++ this :: l) max h t → (length l < fuel)%nat →
  (∀ t', holds tot (l1 ++ merge_from this l) max h t' → Q tt t') →
  wp (merge_loop fuel (zlen l1)) Q t.
Proof.
  revert lo. induction l as [|next l IH]; intros lo fuel l1 this t Hlo Hs Hn Hh Hf HQ;
    (destruct fuel as [|fuel]; [simpl in Hf; lia|]); cbn [merge_loop];
    apply wp_bind; (eapply wp_get_cnt; [done|]).
  - destruct (Z.ltb_spec (zlen l1) (zlen (l1 ++ [this]) - 1)).
    + rewrite length_app in H. simpl in H. lia.
    + by apply wp_ret, HQ.
  - destruct (Z.ltb_spec (zlen l1) (zlen (l1 ++ this :: next :: l) - 1)).
    2:{ rewrite length_app in H. simpl in H. lia. }
    apply wp_bind. eapply wp_region_mid; [done|].
    assert (Hsh : l1 ++ this :: next :: l = (l1 ++ [this]) ++ next :: l) by by rewrite <- app_assoc.
    assert (Hi : zlen l1 + 1 = zlen (l1 ++ [this])) by (rewrite length_app; simpl; lia).
    apply wp_bind. rewrite Hi. eapply wp_region_mid; [rewrite <- Hsh; done|].
    rewrite (sorted_r_end lo this (next :: l)) by done.
    apply Forall_cons in Hn as [Hn1 Hn2]. pose proof Hn2 as Hn2'.
    apply Forall_cons in Hn2 as [Hn2 Hn3].
    rewrite same_node by done. rewrite <- negb_andb. destruct (_ && _) eqn:E; cbn [negb].
    + apply andb_true_iff in E as [E1%Z.eqb_eq E2%Z.eqb_eq].
      simpl in Hs. destruct Hs as (S1 & S2 & S3 & S4 & S5 & S6 & S7). unfold rend in *.
      apply wp_bind. eapply wp_set_region_mid; [done|]. intros t1 Hh1.
      rewrite Hsh.
      replace (zlen l1 + 2) with (zlen (l1 ++ [this]) + 1) by (rewrite length_app; simpl; lia).
      replace (zlen ((l1 ++ [this]) ++ next :: l) - (zlen (l1 ++ [this]) + 1)) with (zlen l)
        by (rewrite (length_app _ (next :: l)); simpl; lia).
      set (this' := Region (r_base this) (u64 (r_size this + r_size next)) (r_nid this)) in *.
      replace (zlen (l1 ++ [this])) with (zlen (l1 ++ [this'])) by (by rewrite !length_app).
      replace (zlen ((l1 ++ [this]) ++ next :: l) - 1) with (zlen ((l1 ++ [this']) ++ l))
        by (rewrite !length_app; simpl; lia).
      eapply wp_drop_region.
      { rewrite <- app_assoc. simpl. done. }
      intros t2 Hh2. rewrite <- app_assoc in Hh2. simpl in Hh2.
      assert (this' = Region (r_base this) (r_size this + r_size next) (r_nid this)) as Ht'.
      { unfold this'. f_equal. apply u64_small. unfold ULLONG_MAX in *. lia. }
      eapply (IH lo fuel l1 this').
      * done.
      * rewrite Ht'. simpl. unfold rend; simpl. repeat split; try lia.
        eapply sorted_weaken; [|done]. lia.
      * constructor; [done|]. done.
      * done.
      * simpl in Hf. lia.
      * intros t3 Hh3. apply HQ. cbn [merge_from]. unfold rend.
        rewrite (proj2 (Z.eqb_eq _ _) E1), (proj2 (Z.eqb_eq _ _) E2). simpl.
        rewrite <- Ht'. done.
    + destruct Hs as (S1 & S2 & S3 & S4). destruct (Z.ltb_spec (r_base next) (rend this)).
      { simpl in S4. lia. }
      eapply (IH (rend this) fuel (l1 ++ [this]) next).
      * unfold rend. lia.
      * done.
      * done.
      * rewrite <- Hsh. done.
      * simpl in Hf. lia.
      * intros t' Hh'. apply HQ. cbn [merge_from]. rewrite E. rewrite <- app_assoc in Hh'. done.
Qed.

Lemma wp_merge tot lo l max h (Q : unit → memblock_type → Prop) t :
  0 ≤ lo → sorted_from lo l → nodes_ok l → l ≠ [] → holds tot l max h t →
  (∀ t', holds tot (merge l) max h t' → Q tt t') →
  wp memblock_merge_regions Q t.
Proof.
  intros Hlo Hs Hn Hl Hh HQ. unfold memblock_merge_regions.
  apply wp_bind. eapply wp_get_cnt; [done|].
  destruct l as [|r l]; [done|]. apply (wp_merge_loop tot lo max h Q l _ [] r); try done.
  simpl. lia.
Qed.

(** ** memblock_add_region *)

Lemma at_end tot l1 max h t : holds tot (l1 ++ []) max h t → zlen (l1 ++ []) <= zlen l1.
Proof. rewrite app_nil_r. lia. Qed.

(** The counting round changes nothing and counts the regions [ins] adds. *)
Lemma wp_count_loop tot max h e n l :
  ∀ fuel lo l1 b nr t,
  0 ≤ lo → sorted_from lo l → holds tot (l1 ++ l) max h t → (length l < fuel)%nat →
  wp (add_region_loop fuel false (zlen l1) b e n nr)
     (λ '(i, b', nr') t', t' = t ∧
        nr' + (if b' <? e then 1 else 0) = nr + zlen (ins l b e n) - zlen l) t.
Proof.
  induction l as [|r l IH]; intros fuel lo l1 b nr t Hlo Hs Hh Hf;
    (destruct fuel as [|fuel]; [simpl in Hf; lia|]); cbn [add_region_loop];
    apply wp_bind; (eapply wp_get_cnt; [done|]).
  - rewrite app_nil_r. destruct (Z.ltb_spec (zlen l1) (zlen l1)); [lia|].
    apply wp_ret. split; [done|]. simpl. unfold rest_region. ltbs.
  - destruct (Z.ltb_spec (zlen l1) (zlen (l1 ++ r :: l))).
    2:{ rewrite length_app in H. simpl in H. lia. }
    apply wp_bind. eapply wp_region_mid; [done|].
    rewrite (sorted_r_end lo r l) by done.
    destruct Hs as (S1 & S2 & S3 & S4). cbn [ins].
    assert (0 ≤ rend r) by (unfold rend; lia).
    assert (Hsh : l1 ++ r :: l = (l1 ++ [r]) ++ l) by by rewrite <- app_assoc.
    assert (Hi : zlen l1 + 1 = zlen (l1 ++ [r])) by (rewrite length_app; simpl; lia).
    rewrite Hi. rewrite Hsh in Hh.
    destruct (Z.leb_spec e (r_base r)); [|destruct (Z.leb_spec (rend r) b)].
    + apply wp_ret. split; [done|]. rewrite length_app. simpl. unfold rest_region. ltbs.
    + eapply wp_mono; [eapply (IH fuel (rend r)); (done || (simpl in Hf; lia))|].
      intros [[i b'] nr'] t' [-> Hnr]. split; [done|]. simpl length. lia.
    + unfold rest_region at 1. destruct (Z.ltb_spec b (r_base r)).
      * eapply wp_mono; [eapply (IH fuel (rend r)); (done || (simpl in Hf; lia))|].
        intros [[i b'] nr'] t' [-> Hnr]. split; [done|]. simpl length. lia.
      * eapply wp_mono; [eapply (IH fuel (rend r)); (done || (simpl in Hf; lia))|].
        intros [[i b'] nr'] t' [-> Hnr]. split; [done|]. simpl length. lia.
Qed.

(** The inserting round: [done] is what is behind [i], and the remaining
    portion goes between [done] and [todo]. *)
Definition insert_post max h e n (l1 l : list memblock_region) tot b (r : Z * Z * Z) (t : memblock_type) : Prop :=
  let '(i, b', _) := r in
  ∃ done todo, ins l b e n = done ++ rest_region b' e n ++ todo ∧ i = zlen (l1 ++ done) ∧
    holds (u64 (tot + sum_sizes (done ++ todo) - sum_sizes l)) (l1 ++ done ++ todo) max h t.

Definition insert_loop_ok max h e n (l : list memblock_region) : Prop := ∀ fuel lo l1 tot b nr t,
  0 ≤ lo → sorted_from lo l → is_u64 tot → holds tot (l1 ++ l) max h t → (length l < fuel)%nat →
  zlen (l1 ++ ins l b e n) ≤ max →
  wp (add_region_loop fuel true (zlen l1) b e n nr) (insert_post max h e n l1 l tot b) t.

(** The loop goes on behind [r], before which it has put [pre]. *)
Lemma insert_step max h e n r l fuel l1 pre j b b' nr tot t : insert_loop_ok max h e n l →
  0 ≤ rend r → sorted_from (rend r) l → (length l < fuel)%nat → zlen (l1 ++ ins (r :: l) b e n) ≤ max →
  j = zlen (l1 ++ pre) + 1 → ins (r :: l) b e n = pre ++ r :: ins l b' e n →
  holds (u64 (tot + sum_sizes pre)) (l1 ++ pre ++ r :: l) max h t →
  wp (add_region_loop fuel true j b' e n nr) (insert_post max h e n l1 (r :: l) tot b) t.
Proof.
  intros IH Hr Hs Hf Hroom Hj Heq Hh.
  replace j with (zlen (l1 ++ pre ++ [r])) by (subst j; rewrite !length_app; simpl; lia).
  eapply wp_mono; [eapply (IH fuel (rend r) _ (u64 (tot + sum_sizes pre))); try done|].
  - apply u64_range.
  - rewrite <- !app_assoc. simpl. exact Hh.
  - rewrite Heq in Hroom. by rewrite <- !app_assoc.
  - intros [[i b''] nr''] t'' (dn & td & E1 & E2 & E3).
    exists (pre ++ r :: dn), td. rewrite Heq, E1. split; [by rewrite <- !app_assoc|].
    split; [rewrite E2, <- !app_assoc; done|].
    rewrite <- !app_assoc in E3. simpl in E3. rewrite <- !app_assoc. simpl.
    match goal with |- holds ?a _ _ _ _ => match type of E3 with holds ?c _ _ _ _ =>
      replace a with c; [exact E3|] end end.
    rewrite !sum_app. simpl. rewrite sum_app. rewrite <- Z.add_sub_assoc, u64_add_l. f_equal. lia.
Qed.

Lemma wp_insert_loop max h e n l : insert_loop_ok max h e n l.
Proof.
  induction l as [|r l IH]; intros fuel lo l1 tot b nr t Hlo Hs Htot Hh Hf Hroom;
    (destruct fuel as [|fuel]; [simpl in Hf; lia|]); cbn [add_region_loop];
    apply wp_bind; (eapply wp_get_cnt; [done|]).
  - rewrite app_nil_r in *. destruct (Z.ltb_spec (zlen l1) (zlen l1)); [lia|].
    apply wp_ret. exists [], []. simpl. rewrite !app_nil_r. split; [done|]. split; [done|].
    rewrite Z.add_0_r, Z.sub_0_r, u64_small; done.
  - destruct (Z.ltb_spec (zlen l1) (zlen (l1 ++ r :: l))).
    2:{ rewrite length_app in H. simpl in H. lia. }
    apply wp_bind. eapply wp_region_mid; [done|].
    rewrite (sorted_r_end lo r l) by done.
    destruct Hs as (S1 & S2 & S3 & S4). assert (0 ≤ rend r) by (unfold rend; lia). simpl in Hf.
    pose proof (λ pre j b' nr' t', insert_step max h e n r l fuel l1 pre j b b' nr' tot t' IH
      ltac:(done) S4 ltac:(lia) Hroom) as Hstep.
    cbn [ins] in *.
    destruct (Z.leb_spec e (r_base r)); [|destruct (Z.leb_spec (rend r) b)].
    + apply wp_ret. exists [], (r :: l). cbn [ins]. rewrite (proj2 (Z.leb_le _ _)) by done.
      simpl. split; [done|]. rewrite app_nil_r. split; [done|].
      replace (tot + (r_size r + sum_sizes l) - (r_size r + sum_sizes l)) with tot by lia.
      rewrite u64_small; done.
    + apply (Hstep []); [by rewrite app_nil_r|done|]. simpl. by rewrite Z.add_0_r, u64_small.
    + destruct (Z.ltb_spec b (r_base r)) as [Hb|Hb].
      * rewrite rest_region_some in * by done. apply wp_bind. eapply wp_insert_region; [done| |].
        { rewrite !length_app in *. simpl in *.
          pose proof (ins_length l (Z.min (rend r) e) e n). lia. }
        intros t' Hh'. apply (Hstep [new_region b (r_base r - b) n]);
          [rewrite length_app; simpl; lia|done|simpl; by rewrite Z.add_0_r].
      * rewrite rest_region_none in * by done. apply (Hstep []); [by rewrite app_nil_r|done|].
        simpl. by rewrite Z.add_0_r, u64_small.
Qed.

Lemma wp_count_round tot l b e n max h (Q : Z → memblock_type → Prop) t :
  sorted_from 0 l → holds tot l max h t →
  Q (zlen (ins l b e n) - zlen l) t → wp (add_region_round false b e n) Q t.
Proof.
  intros Hs Hh HQ. unfold add_region_round. apply wp_bind. eapply wp_get_cnt; [done|].
  apply wp_bind. eapply wp_mono; [eapply (wp_count_loop tot max h e n l _ 0 []); (done || lia)|].
  intros [[i b'] nr] t' [-> Hnr]. simpl in Hnr.
  destruct (b' <? e).
  - apply wp_bind, wp_ret, wp_ret. by replace (nr + 1) with (zlen (ins l b e n) - zlen l) by lia.
  - apply wp_ret. by replace nr with (zlen (ins l b e n) - zlen l) by lia.
Qed.

Lemma wp_insert_round tot l b e n max h (Q : Z → memblock_type → Prop) t :
  sorted_from 0 l → is_u64 tot → holds tot l max h t → zlen (ins l b e n) ≤ max →
  (∀ nr t', holds (u64 (tot + sum_sizes (ins l b e n) - sum_sizes l)) (ins l b e n) max h t' →
            Q nr t') →
  wp (add_region_round true b e n) Q t.
Proof.
  intros Hs Htot Hh Hroom HQ. unfold add_region_round. apply wp_bind. eapply wp_get_cnt; [done|].
  apply wp_bind. eapply wp_mono; [eapply (wp_insert_loop max h e n l _ 0 [] tot); (done || lia)|].
  intros [[i b'] nr] t' (dn & td & E1 & -> & Hh'). simpl app in *. rewrite E1 in *.
  destruct (Z.ltb_spec b' e).
  - rewrite rest_region_some in * by done. apply wp_bind.
    eapply wp_insert_region; [done| |].
    { rewrite !length_app in *. simpl in *. lia. }
    intros t'' Hh''. apply wp_ret, HQ. simpl app.
    match goal with |- holds ?a _ _ _ _ => match type of Hh'' with holds ?c _ _ _ _ =>
      replace a with c; [exact Hh''|] end end.
    rewrite u64_add_l, !sum_app. simpl. f_equal. lia.
  - rewrite rest_region_none in * by done. by apply wp_ret, HQ.
Qed.

(** ** memblock_isolate_range *)

Lemma new_region_node r b s : r_nid r = node (r_nid r) →
  new_region b s (memblock_get_region_node r) = Region b s (r_nid r).
Proof.
  intros Hn. unfold new_region, memblock_get_region_node. rewrite Hn. unfold node.
  by destruct NODE_MAP.
Qed.

(** Splitting region [r] at [a] as the loop does: shrink, then insert the low part. *)
Lemma wp_split_region {B} tot l1 r l2 a max h (k : unit → prog memblock_type B) Q t :
  holds tot (l1 ++ r :: l2) max h t → zlen (l1 ++ r :: l2) < max → is_u64 tot →
  r_nid r = node (r_nid r) → 0 ≤ r_base r < a → a < rend r → rend r ≤ ULLONG_MAX →
  (∀ t', holds tot (l1 ++ Region (r_base r) (a - r_base r) (r_nid r)
                       :: Region a (rend r - a) (r_nid r) :: l2) max h t' → wp (k tt) Q t') →
  wp (_ ← set_region (zlen l1) (Region a (u64 (r_size r - (a - r_base r))) (r_nid r));
      tot ← gets t_total_size;
      _ ← set_total (u64 (tot - (a - r_base r)));
      u ← memblock_insert_region (zlen l1) (r_base r) (a - r_base r) (memblock_get_region_node r);
      k u) Q t.
Proof.
  intros Hh Hroom Htot Hn Ha Hr Hu HQ.
  assert (Es : u64 (r_size r - (a - r_base r)) = rend r - a).
  { unfold rend, ULLONG_MAX in *. rewrite u64_small; lia. }
  rewrite Es. apply wp_bind. eapply wp_set_region_mid; [done|]. intros t1 Hh1.
  apply wp_bind. eapply wp_get_total; [done|].
  apply wp_bind. eapply wp_set_total; [done|]. intros t2 Hh2.
  apply wp_bind. eapply wp_insert_region; [done| |].
  { rewrite length_app in *. done. }
  intros t3 Hh3. apply HQ. rewrite u64_add_l in Hh3.
  replace (tot - (a - r_base r) + (a - r_base r)) with tot in Hh3 by lia.
  rewrite u64_small in Hh3 by done. by rewrite new_region_node in Hh3.
Qed.

Lemma clip_list_cons lo hi r l :
  clip_list lo hi (r :: l) = match clip lo hi r with
                             | Some x => x :: clip_list lo hi l
                             | None => clip_list lo hi l
                             end.
Proof. done. Qed.

Definition isolated (l1 mid : list memblock_region) (s0 e0 : Z) : Z * Z :=
  match mid with
  | [] => (s0, e0)
  | _ => (if e0 =? 0 then zlen l1 else s0, zlen l1 + zlen mid)
  end.

(** What is cut off below [b] does not matter above it. *)
Lemma clip_cut lo hi b r : b ≤ lo → r_base r ≤ b →
  clip lo hi r = clip lo hi (Region b (rend r - b) (r_nid r)).
Proof.
  intros H1 H2. unfold clip. replace (rend (Region b (rend r - b) (r_nid r))) with (rend r) by (unfold rend; simpl; lia).
  simpl. by rewrite !Z.max_r by lia.
Qed.

(** A region inside the range, and one that starts at its end. *)
Lemma wp_isolate_cross fuel lo l1 bot top l tot max h base e s0 e0 t Q : holds tot (l1 ++ bot :: top :: l) max h t →
  sorted_from lo (bot :: top :: l) → 0 ≤ lo → base ≤ r_base bot < e → rend bot = e → r_base top = e → base < e →
  Q (if e0 =? 0 then zlen l1 else s0, zlen l1 + 1) t →
  wp (isolate_loop (S (S fuel)) (zlen l1) base e s0 e0) Q t.
Proof.
  intros Hh Hs Hlo Hb Heb Het Hbe HQ. cbn [isolate_loop]. apply wp_bind. eapply wp_get_cnt; [done|].
  destruct (Z.ltb_spec (zlen l1) (zlen (l1 ++ bot :: top :: l))).
  2:{ rewrite length_app in *. simpl in *. lia. }
  apply wp_bind. eapply wp_region_mid; [done|].
  rewrite (sorted_r_end lo bot (top :: l)) by done. rewrite Heb.
  destruct (Z.leb_spec e (r_base bot)); [lia|]. destruct (Z.leb_spec e base); [lia|].
  destruct (Z.ltb_spec (r_base bot) base); [lia|]. destruct (Z.ltb_spec e e); [lia|].
  apply wp_bind. eapply wp_get_cnt; [done|].
  assert (zlen l1 + 1 = zlen (l1 ++ [bot])) as Hi by (rewrite length_app; simpl; lia). rewrite Hi in *.
  assert (l1 ++ bot :: top :: l = (l1 ++ [bot]) ++ top :: l) as Hsh by by rewrite <- app_assoc.
  destruct (Z.ltb_spec (zlen (l1 ++ [bot])) (zlen (l1 ++ bot :: top :: l))).
  2:{ rewrite !length_app in *. simpl in *. lia. }
  apply wp_bind. eapply wp_region_mid; [rewrite <- Hsh; done|].
  rewrite Het. destruct (Z.leb_spec e e); [|lia]. by apply wp_ret.
Qed.

(** From the first region that starts at or above [base]. *)
Lemma wp_isolate_inside tot max h base e l :
  is_u64 tot → 0 ≤ base < e →
  ∀ fuel lo l1 s0 e0 t,
  base ≤ lo → sorted_from lo l → nodes_ok l → holds tot (l1 ++ l) max h t →
  zlen (l1 ++ l) + 1 ≤ max → (length l + 2 ≤ fuel)%nat →
  wp (isolate_loop fuel (zlen l1) base e s0 e0)
     (λ se t', se = isolated l1 (clip_list base e l) s0 e0 ∧
        holds tot (l1 ++ clip_list base e l ++ clip_list e ULLONG_MAX l) max h t') t.
Proof.
  intros Htot Hbe. induction l as [|r l IH]; intros fuel lo l1 s0 e0 t Hlo Hs Hn Hh Hroom Hf;
    (destruct fuel as [|fuel]; [simpl in Hf; lia|]); cbn [isolate_loop];
    apply wp_bind; (eapply wp_get_cnt; [done|]).
  - rewrite app_nil_r. destruct (Z.ltb_spec (zlen l1) (zlen l1)); [lia|].
    apply wp_ret. split; [done|]. simpl. done.
  - destruct (Z.ltb_spec (zlen l1) (zlen (l1 ++ r :: l))).
    2:{ rewrite length_app in H. simpl in H. lia. }
    apply wp_bind. eapply wp_region_mid; [done|].
    rewrite (sorted_r_end lo r l) by (done || lia).
    pose proof Hs as (S1 & S2 & S3 & S4). apply Forall_cons in Hn as [Hn1 Hn2].
    rewrite !clip_list_cons.
    destruct (Z.leb_spec e (r_base r)) as [C1|C1].
    { apply wp_ret. rewrite (clip_none base e), (clip_all e) by (unfold rend in *; lia).
      rewrite (clip_list_above base e (rend r) l) by (done || (unfold rend; lia)).
      rewrite (clip_list_id e _ (rend r) l); [done|done|unfold rend; lia|].
      intros r' Hr'. by apply (sorted_ends (rend r) l). }
    destruct (Z.leb_spec (rend r) base); [unfold rend in *; lia|].
    destruct (Z.ltb_spec (r_base r) base); [lia|].
    destruct (Z.ltb_spec e (rend r)) as [C2|C2].
    + (* crosses [e]: the low part is recorded, then the loop stops at the top part *)
      eapply wp_split_region; try done; [lia..|]. intros t1 Hh1.
      set (bot := Region (r_base r) (e - r_base r) (r_nid r)) in *.
      set (top := Region e (rend r - e) (r_nid r)) in *.
      assert (Sb : sorted_from lo (bot :: top :: l)).
      { simpl. unfold rend, ULLONG_MAX in *; simpl. repeat split; try lia.
        eapply sorted_weaken; [|done]. lia. }
      assert (clip base e r = Some bot) as ->.
      { unfold clip, bot. rewrite Z.max_l, Z.min_r by lia. by ltbs. }
      assert (clip e ULLONG_MAX r = Some top) as ->.
      { unfold clip, top. rewrite Z.max_r, Z.min_l by lia. by ltbs. }
      rewrite (clip_list_above base e (rend r) l) by (done || lia).
      rewrite (clip_list_id e _ (rend r) l); [|done|lia|by intros; apply (sorted_ends (rend r) l)].
      destruct fuel as [|[|fuel]]; [simpl in Hf; lia..|].
      eapply (wp_isolate_cross fuel lo l1 bot top l); try done; simpl; unfold rend; simpl; try lia.
    + rewrite (clip_all base e) by lia. rewrite (clip_none e) by lia.
      assert (zlen l1 + 1 = zlen (l1 ++ [r])) as Hi by (rewrite length_app; simpl; lia).
      rewrite Hi at 1. eapply wp_mono.
      { eapply (IH fuel (rend r) (l1 ++ [r])); try done.
        - unfold rend. lia.
        - by rewrite <- app_assoc.
        - rewrite <- app_assoc. done.
        - simpl in Hf. lia. }
      intros se t' [-> Hh']. rewrite <- app_assoc in Hh'. split; [|done].
      unfold isolated. rewrite <- Hi.
      destruct (clip_list base e l); simpl; f_equal; try lia. destruct (Z.eqb_spec (zlen l1 + 1) 0); [lia|done].
Qed.

Lemma wp_isolate_loop tot max h base e l :
  is_u64 tot → 0 ≤ base < e →
  ∀ fuel lo l1 t,
  0 ≤ lo → sorted_from lo l → nodes_ok l → holds tot (l1 ++ l) max h t →
  zlen (l1 ++ l) + 2 ≤ max → (length l + 3 ≤ fuel)%nat →
  wp (isolate_loop fuel (zlen l1) base e 0 0)
     (λ se t', se = isolated (l1 ++ clip_list 0 base l) (clip_list base e l) 0 0 ∧
        holds tot (l1 ++ split_at base e l) max h t') t.
Proof.
  intros Htot Hbe. induction l as [|r l IH]; intros fuel lo l1 t Hlo Hs Hn Hh Hroom Hf;
    (destruct fuel as [|fuel]; [simpl in Hf; lia|]).
  - cbn [isolate_loop]. apply wp_bind. eapply wp_get_cnt; [done|].
    rewrite app_nil_r. destruct (Z.ltb_spec (zlen l1) (zlen l1)); [lia|].
    apply wp_ret. split; [done|]. unfold split_at. simpl. done.
  - pose proof Hs as (S1 & S2 & S3 & S4). pose proof Hn as [Hn1 Hn2]%Forall_cons.
    destruct (decide (base ≤ r_base r)) as [C0|C0].
    { (* from here on, the regions are inside or above *)
      assert (Hcl : clip_list 0 base (r :: l) = []).
      { eapply clip_list_above; [by eapply sorted_raise|done]. }
      unfold split_at. rewrite Hcl, app_nil_r. simpl app at 3.
      eapply (wp_isolate_inside tot max h base e (r :: l) Htot Hbe (S fuel) base); try done.
      - lia.
      - simpl in *. lia. }
    cbn [isolate_loop]. apply wp_bind. eapply wp_get_cnt; [done|].
    destruct (Z.ltb_spec (zlen l1) (zlen (l1 ++ r :: l))).
    2:{ rewrite length_app in H. simpl in H. lia. }
    apply wp_bind. eapply wp_region_mid; [done|].
    rewrite (sorted_r_end lo r l) by done.
    destruct (Z.leb_spec e (r_base r)) as [C1|C1]; [lia|].
    unfold split_at. rewrite !clip_list_cons.
    assert (zlen l1 + 1 = zlen (l1 ++ [r])) as Hi by (rewrite length_app; simpl; lia).
    destruct (Z.leb_spec (rend r) base) as [C2|C2].
    + rewrite (clip_all 0 base), (clip_none base e), (clip_none e) by lia.
      rewrite Hi. eapply wp_mono.
      { eapply (IH fuel (rend r) (l1 ++ [r])); try done.
        - unfold rend. lia.
        - by rewrite <- app_assoc.
        - by rewrite <- app_assoc.
        - simpl in Hf. lia. }
      intros se t' [-> Hh']. rewrite <- !app_assoc in *. done.
    + destruct (Z.ltb_spec (r_base r) base); [|lia].
      eapply wp_split_region; try done; [lia..|]. intros t1 Hh1.
      set (low := Region (r_base r) (base - r_base r) (r_nid r)) in *.
      set (top := Region base (rend r - base) (r_nid r)) in *.
      assert (clip 0 base r = Some low) as ->.
      { unfold clip, low. rewrite Z.max_l, Z.min_r by lia. by ltbs. }
      rewrite (clip_list_above 0 base (rend r) l) by (done || lia).
      assert (Hrt : rend top = rend r) by (unfold top, rend; simpl; lia).
      assert (St : sorted_from base (top :: l)).
      { simpl. rewrite Hrt. repeat split; try done; lia. }
      rewrite (clip_cut base e base r), (clip_cut e ULLONG_MAX base r) by lia. fold top. change (match clip base e top with Some x => x :: clip_list base e l
        | None => clip_list base e l end) with (clip_list base e (top :: l)).
      change (match clip e ULLONG_MAX top with Some x => x :: clip_list e ULLONG_MAX l
        | None => clip_list e ULLONG_MAX l end) with (clip_list e ULLONG_MAX (top :: l)).
      assert (zlen l1 + 1 = zlen (l1 ++ [low])) as -> by (rewrite length_app; simpl; lia).
      eapply wp_mono.
      { eapply (wp_isolate_inside tot max h base e (top :: l)); try done.
        - by constructor.
        - rewrite <- app_assoc. exact Hh1.
        - rewrite !length_app in *. simpl in *. lia.
        - simpl in *. lia. }
      intros se t' [-> Hh']. rewrite <- !app_assoc in *. done.
Qed.

(** ** Removing the isolated regions *)

Lemma wp_remove_all max h (Q : unit → memblock_type → Prop) lo hi mid :
  ∀ tot t, is_u64 tot → holds tot (lo ++ mid ++ hi) max h t →
  (∀ t', holds (u64 (tot - sum_sizes mid)) (match mid with [] => lo ++ hi | _ => or_dummy (lo ++ hi) end)
           max h t' → Q tt t') →
  wp (for_down (length mid) (zlen lo + zlen mid - 1) memblock_remove_region) Q t.
Proof.
  induction mid as [|r mid IH] using rev_ind; intros tot t Htot Hh HQ.
  - apply wp_ret, HQ. simpl. rewrite Z.sub_0_r, u64_small; done.
  - rewrite length_app. simpl length. rewrite Nat.add_1_r. cbn [for_down].
    apply wp_bind. replace (zlen lo + Z.of_nat (S (length mid)) - 1) with (zlen (lo ++ mid))
      by (rewrite length_app; lia).
    eapply wp_remove_region; [rewrite <- !app_assoc in Hh |- *; exact Hh|].
    intros t1 Hh1. rewrite <- app_assoc in Hh1.
    destruct (decide (mid = [])) as [->|Hne].
    + apply wp_ret, HQ. simpl in *. by rewrite Z.add_0_r.
    + assert (or_dummy (lo ++ mid ++ hi) = lo ++ mid ++ hi) as E.
      { destruct lo, mid; done. }
      rewrite E in Hh1.
      replace (zlen (lo ++ mid) - 1) with (zlen lo + zlen mid - 1) by (rewrite length_app; lia).
      eapply IH; [apply u64_range|exact Hh1|].
      intros t2 Hh2. apply HQ. rewrite u64_sub_l in Hh2. rewrite sum_app. simpl.
      destruct (mid ++ [r]) eqn:E'; [by destruct mid|]. destruct mid; [done|].
      match goal with |- holds ?a _ _ _ _ => match type of Hh2 with holds ?c _ _ _ _ =>
        replace a with c; [exact Hh2|] end end.
      f_equal. lia.
Qed.

(** ** memblock_search *)

Definition found_at (l : list memblock_region) (addr idx : Z) : Prop :=
  (∃ r, rd l idx = Some r ∧ covers r addr = true) ∨
  (idx = -1 ∧ owner l addr = None).

Lemma owner_found l addr : owner l addr = None ↔ ∀ r, r ∈ l → covers r addr = false.
Proof.
  induction l as [|r l IH]; simpl; [set_solver|]. destruct (covers r addr) eqn:E.
  - split; [done|]. intros H. rewrite (H r) in E; [done|set_solver].
  - rewrite IH. split.
    + intros H r' [->|Hr']%elem_of_cons; auto.
    + intros H r' Hr'. apply H. set_solver.
Qed.

Lemma sorted_rd_order lo l i j r1 r2 :
  sorted_from lo l → rd l i = Some r1 → rd l j = Some r2 → i < j → rend r1 ≤ r_base r2.
Proof.
  revert lo i j. induction l as [|r l IH]; intros lo i j Hs Hi Hj Hij.
  - apply rd_Some in Hi. simpl in Hi. lia.
  - pose proof (rd_Some _ _ _ Hi). pose proof Hs as (S1 & S2 & S3 & S4).
    change (r :: l) with ([r] ++ l) in Hi, Hj. rewrite rd_app_r in Hj by (simpl; lia).
    destruct (decide (i = 0)) as [->|].
    + injection Hi as <-. apply rd_elem in Hj. by apply (sorted_ends _ _ _ S4) in Hj as [].
    + rewrite rd_app_r in Hi by (simpl; lia). simpl in *.
      eapply (IH (rend r) (i - 1) (j - 1)); eauto. lia.
Qed.

Lemma wp_search_loop tot l addr max h t :
  sorted_from 0 l → zlen l < 2 ^ 31 → holds tot l max h t →
  ∀ fuel left right, 0 ≤ left < right → right ≤ zlen l → (Z.to_nat (right - left) < fuel)%nat →
  (∀ i r, rd l i = Some r → i < left ∨ right ≤ i → covers r addr = false) →
  wp (search_loop fuel left right addr) (λ idx t', t' = t ∧ found_at l addr idx) t.
Proof.
  intros Hs Hlen Hh. induction fuel as [|fuel IH]; intros left right Hlr Hr Hf Hout; [lia|].
  cbn [search_loop]. rewrite u32_small by lia.
  set (mid := (right + left) / 2). assert (Hmid : left ≤ mid < right) by (unfold mid; dlia).
  destruct (rd_in l mid ltac:(lia)) as [r Hrd].
  apply wp_bind. eapply wp_region; [rewrite (holds_rd _ _ _ _ _ _ Hh) by lia; done|].
  destruct (sorted_ends _ _ _ Hs (rd_elem _ _ _ Hrd)) as [Hre Hrb].
  pose proof (sorted_pos _ _ _ Hs (rd_elem _ _ _ Hrd)) as Hrs.
  assert (r_end r = rend r) as ->.
  { unfold r_end, rend, ULLONG_MAX in *. apply u64_small. lia. }
  assert (Hagain : ∀ left' right', left ≤ left' → right' ≤ right → left' ≤ right' →
    right' - left' < right - left →
    (∀ i r, rd l i = Some r → i < left' ∨ right' ≤ i → covers r addr = false) →
    wp (if left' <? right' then search_loop fuel left' right' addr else mret (-1))
      (λ idx t', t' = t ∧ found_at l addr idx) t).
  { intros left' right' H1 H2 H3 H4 Hout'. destruct (Z.ltb_spec left' right').
    - apply IH; (done || lia).
    - apply wp_ret. split; [done|]. right. split; [done|]. apply owner_found.
      intros r' Hr'. apply list_elem_of_lookup in Hr' as [i Hi].
      apply (Hout' (Z.of_nat i)); [by rewrite rd_nat|lia]. }
  destruct (Z.ltb_spec addr (r_base r)); [|destruct (Z.leb_spec (rend r) addr)].
  - apply Hagain; try lia. intros i r' Hi Hi'.
    destruct (decide (i < left ∨ right ≤ i)); [eauto|].
    destruct (decide (i = mid)) as [->|]; [rewrite Hrd in Hi; injection Hi as <-; unfold covers; ltbs|].
    pose proof (sorted_rd_order _ _ _ _ _ _ Hs Hrd Hi ltac:(lia)).
    unfold covers, rend in *. ltbs.
  - apply Hagain; try lia. intros i r' Hi Hi'.
    destruct (decide (i < left ∨ right ≤ i)); [eauto|].
    destruct (decide (i = mid)) as [->|]; [rewrite Hrd in Hi; injection Hi as <-; unfold covers; ltbs|].
    pose proof (sorted_rd_order _ _ _ _ _ _ Hs Hi Hrd ltac:(lia)).
    unfold covers, rend in *. ltbs.
  - apply wp_ret. split; [done|]. left. exists r. split; [done|]. unfold covers. by ltbs.
Qed.

Lemma wp_search tot l addr max h t :
  sorted_from 0 l → l ≠ [] → zlen l < 2 ^ 31 → holds tot l max h t →
  wp (memblock_search addr) (λ idx t', t' = t ∧ found_at l addr idx) t.
Proof.
  intros Hs Hl Hlen Hh. unfold memblock_search. apply wp_bind. eapply wp_get_cnt; [done|].
  rewrite u32_small by lia.
  assert (0 < zlen l) by (destruct l; [done|simpl; lia]).
  eapply wp_search_loop; try done; try lia.
  intros i r Hi%rd_Some ?. lia.
Qed.

(** ** memblock_overlaps_region *)

(** [i] is the first region that meets [base, base + size), or -1. *)
Definition meets (base size : Z) (r : memblock_region) : bool :=
  (base <? rend r) && (r_base r <? base + size).

Lemma wp_overlaps_loop tot base size max h t l :
  0 ≤ base → base + size < 2 ^ 64 →
  ∀ fuel lo l1, 0 ≤ lo → sorted_from lo l → holds tot (l1 ++ l) max h t →
  Forall (λ r, meets base size r = false) l1 → 0 ≤ size →
  (length l < fuel)%nat →
  wp (overlaps_loop fuel (zlen l1) base size)
     (λ i t', t' = t ∧
        (0 ≤ i ∧ (∃ r, rd (l1 ++ l) i = Some r ∧ meets base size r = true) ∨
         i = -1 ∧ Forall (λ r, meets base size r = false) (l1 ++ l))) t.
Proof.
  intros Hb Hsz. induction l as [|r l IH]; intros fuel lo l1 Hlo Hs Hh Hl1 Hs0 Hf;
    (destruct fuel as [|fuel]; [simpl in Hf; lia|]); cbn [overlaps_loop];
    apply wp_bind; (eapply wp_get_cnt; [done|]).
  - rewrite app_nil_r. destruct (Z.ltb_spec (zlen l1) (zlen l1)); [lia|].
    apply wp_ret. split; [done|]. by right.
  - destruct (Z.ltb_spec (zlen l1) (zlen (l1 ++ r :: l))).
    2:{ rewrite length_app in H. simpl in H. lia. }
    apply wp_bind. eapply wp_region_mid; [done|].
    pose proof Hs as (S1 & S2 & S3 & S4).
    assert (memblock_addrs_overlap base size (r_base r) (r_size r) = meets base size r) as ->.
    { unfold memblock_addrs_overlap, meets. fold (r_end r). rewrite (sorted_r_end lo r l) by done.
      rewrite (u64_small (base + size)) by lia. done. }
    destruct (meets base size r) eqn:E.
    + apply wp_ret. split; [done|]. left. split; [lia|]. exists r. split; [apply rd_mid|done].
    + assert (l1 ++ r :: l = (l1 ++ [r]) ++ l) as Hsh by by rewrite <- app_assoc.
      assert (zlen l1 + 1 = zlen (l1 ++ [r])) as -> by (rewrite length_app; simpl; lia).
      rewrite Hsh. eapply (IH fuel (rend r)); try done.
      * unfold rend. lia.
      * by rewrite <- Hsh.
      * rewrite Forall_app. auto.
      * simpl in Hf. lia.
Qed.

End array.
