(* ===== verification/MemblockSpec.v ===== *)
(** * MemblockSpec: what the memblock operations do

    The abstract state of one array is the map [owner (live t)] from physical
    addresses to nodes.  [type_ok] is the invariant of an array: [cnt] regions,
    sorted, disjoint, not empty, merged where possible (or the single empty
    dummy region), whose sizes add up to [total_size].  The theorems refine
    every operation to its effect on [owner]. *)

From S2P Require Import Prelude Memblock MemblockList MemblockArray.

(** The regions in use. *)
Definition live (t : memblock_type) : list memblock_region :=
  take (Z.to_nat (t_cnt t)) (t_regions t).

Definition is_dummy (l : list memblock_region) : Prop := ∃ n, l = [Region 0 0 n].

Definition shape (l : list memblock_region) : Prop :=
  is_dummy l ∨ (l ≠ [] ∧ sorted_from 0 l ∧ minimal l).

Record type_ok `{memblock_config} (t : memblock_type) : Prop := {
  ok_cnt : 1 ≤ t_cnt t ≤ t_max t;
  ok_max : t_max t = zlen (t_regions t) ∧ t_max t < 2 ^ 30;
  ok_shape : shape (live t);
  ok_nodes : nodes_ok (live t);
  ok_total : t_total_size t = sum_sizes (live t)
}.

(** [mb'] is [mb] with the array [ty] replaced by one of the same capacity, at
    the same place, that satisfies the invariant and in which the owner of [a]
    is [f a]. *)
Definition updated `{memblock_config} (ty : type_name) (mb mb' : memblock) (f : Z → option Z) :
    Prop :=
  ∃ t, mb' = set_type ty t mb ∧ type_ok t ∧ t_max t = t_max (type_of ty mb) ∧
       t_home t = t_home (type_of ty mb) ∧ ∀ a, owner (live t) a = f a.

#[global] Arguments set_type : simpl never.

Notation owns ty mb := (owner (live (type_of ty mb))).

Lemma type_of_set ty t mb : type_of ty (set_type ty t mb) = t.
Proof. by destruct ty. Qed.
Lemma set_type_of ty mb : set_type ty (type_of ty mb) mb = mb.
Proof. by destruct ty, mb. Qed.
Lemma set_reserved mb : set_type Reserved (reserved mb) mb = mb.
Proof. by destruct mb. Qed.
Lemma set_memory mb : set_type Memory (memory mb) mb = mb.
Proof. by destruct mb. Qed.
Lemma set_set_type ty t t' mb : set_type ty t (set_type ty t' mb) = set_type ty t mb.
Proof. by destruct ty. Qed.

Lemma wp_on {A} ty (m : prog memblock_type A) (Q : A → memblock → Prop) mb :
  wp m (λ a t, Q a (set_type ty t mb)) (type_of ty mb) → wp (on ty m) Q mb.
Proof. unfold wp, on. by destruct (m (type_of ty mb)) as [[a t]|]. Qed.

Section spec.
Context `{cfg : memblock_config}.

Lemma type_ok_holds t : type_ok t →
  holds (sum_sizes (live t)) (live t) (t_max t) (t_home t) t ∧ zlen (live t) = t_cnt t.
Proof.
  intros [Hc [Hm _] _ _ Ht]. unfold live in *.
  assert (Hl : zlen (take (Z.to_nat (t_cnt t)) (t_regions t)) = t_cnt t)
    by (rewrite length_take; lia).
  split; [|done]. exists (drop (Z.to_nat (t_cnt t)) (t_regions t)).
  rewrite take_drop. split; [|done]. rewrite Hl. destruct t; simpl in *. congruence.
Qed.

Lemma holds_live_eq tot l max h t : holds tot l max h t → live t = l.
Proof. intros (rest & -> & _). unfold live. simpl. rewrite Nat2Z.id. apply take_app_length. Qed.

Lemma holds_type_ok l max h t :
  holds (sum_sizes l) l max h t → l ≠ [] → shape l → nodes_ok l → max < 2 ^ 30 →
  type_ok t ∧ live t = l ∧ t_max t = max ∧ t_home t = h.
Proof.
  intros Hh Hl Hs Hn Hm. pose proof (holds_live_eq _ _ _ _ _ Hh) as E.
  split; [|split; [done|split; [by apply holds_max in Hh|by destruct Hh as (? & -> & _)]]]. pose proof (holds_bound _ _ _ _ _ Hh).
  destruct Hh as (rest & -> & Hmax). constructor; rewrite ?E; try done; simpl.
  split; [destruct l; [done|simpl; lia]|lia].
Qed.

Lemma shape_sorted l : shape l → (0 < r_size (default (Region 0 0 0) (head l))) →
  l ≠ [] ∧ sorted_from 0 l ∧ minimal l.
Proof. intros [[n ->]|H] Hp; [simpl in Hp; lia|done]. Qed.

Lemma shape_head l : shape l → ∃ r l', l = r :: l' ∧ (r_size r = 0 → is_dummy l ∧ l' = []).
Proof.
  intros [[n ->]|(Hl & Hs & Hm)].
  - eexists _, _. split; [done|]. intros _. split; [by exists n|done].
  - destruct l as [|r l]; [done|]. exists r, l. split; [done|]. simpl in Hs. lia.
Qed.

Lemma shape_cases l : shape l → is_dummy l ∨ (l ≠ [] ∧ sorted_from 0 l ∧ minimal l ∧ ¬ is_dummy l).
Proof.
  intros [H|(H1 & H2 & H3)]; [by left|]. right. repeat split; try done.
  intros [n ->]. simpl in H2. lia.
Qed.

Lemma dummy_owner l a : is_dummy l → owner l a = None.
Proof. intros [n ->]. simpl. unfold covers, rend; simpl. ltbs; done. Qed.

Lemma shape_owner_lt l a : shape l → a < 0 → owner l a = None.
Proof. intros [Hd|(_ & Hs & _)] Ha; [by apply dummy_owner|by eapply owner_below]. Qed.

Lemma node_idem n : node n = node (node n).
Proof. unfold node. by destruct NODE_MAP. Qed.

(** The range a caller asks for, cut at the last address. *)
Definition range_end (base size : Z) : Z := base + memblock_cap_size base size.

Lemma range_end_u64 base size : is_u64 base → is_u64 size →
  u64 (base + memblock_cap_size base size) = range_end base size ∧
  base ≤ range_end base size ≤ ULLONG_MAX.
Proof.
  intros. unfold range_end, memblock_cap_size, ULLONG_MAX. split; [apply u64_small|]; lia.
Qed.

(** ** Room in the arrays *)

(** While resizing is not allowed, doubling an array fails and changes nothing. *)
Lemma double_refused depth ty a s mb :
  memblock_can_resize mb = false →
  wp (memblock_double_array (S depth) ty a s) (λ r mb', r = -1 ∧ mb' = mb) mb.
Proof.
  intros Hr. cbn [memblock_double_array]. apply wp_bind, wp_gets. rewrite Hr. simpl.
  by apply wp_ret.
Qed.

(** With room enough no array is doubled; without, and without leave to resize,
    nothing changes. *)
Lemma ensure_room_there double fuel ty more base size mb (Q : bool → memblock → Prop) :
  t_cnt (type_of ty mb) + more ≤ t_max (type_of ty mb) → Q true mb →
  wp (ensure_room double (S fuel) ty more base size) Q mb.
Proof.
  intros H HQ. cbn [ensure_room]. apply wp_bind, wp_gets.
  rewrite (proj2 (Z.ltb_ge _ _)) by lia. by apply wp_ret.
Qed.

Lemma wp_ensure_room fuel ty more base size mb :
  t_cnt (type_of ty mb) + more ≤ t_max (type_of ty mb) ∨ memblock_can_resize mb = false →
  wp (ensure_room (memblock_double_array RESIZE_DEPTH) (S fuel) ty more base size)
     (λ ok mb', mb' = mb ∧
        ok = (t_cnt (type_of ty mb) + more <=? t_max (type_of ty mb))) mb.
Proof.
  intros Hroom. destruct (Z.leb_spec (t_cnt (type_of ty mb) + more) (t_max (type_of ty mb))).
  { by apply ensure_room_there. }
  destruct Hroom as [?|Hr]; [lia|]. cbn [ensure_room]. apply wp_bind, wp_gets.
  rewrite (proj2 (Z.ltb_lt _ _)) by lia. apply wp_bind.
  eapply wp_mono; [by apply double_refused|]. intros r mb' [-> ->]. simpl. by apply wp_ret.
Qed.

(** ** memblock_add_region *)

Lemma ins_grows l b e n lo :
  sorted_from lo l → zlen (ins l b e n) ≤ 2 * zlen l + 1.
Proof.
  revert lo b. induction l as [|r l IH]; intros lo b Hs; simpl.
  - unfold rest_region. ltbs; simpl; lia.
  - destruct Hs as (_ & _ & _ & Hs). unfold rest_region. ltbs; try (specialize (IH _ b Hs); lia).
    all: specialize (IH _ (Z.min (rend r) e) Hs); lia.
Qed.

Lemma merge_length l : zlen (merge l) ≤ zlen l.
Proof. destruct l as [|r l]; [done|]. simpl merge. pose proof (merge_from_length r l). lia. Qed.

Lemma merge_ok l : l ≠ [] → sorted_from 0 l → nodes_ok l →
  merge l ≠ [] ∧ shape (merge l) ∧ nodes_ok (merge l) ∧ sum_sizes (merge l) = sum_sizes l ∧
  ∀ a, owner (merge l) a = owner l a.
Proof.
  intros Hl Hs Hn. destruct l as [|r l]; [done|]. simpl merge.
  destruct (merge_from_head r l) as (r' & l' & E & _).
  assert (merge_from r l ≠ []) by (rewrite E; done).
  split; [done|]. split.
  { right. split; [done|]. split; [by apply merge_from_sorted|apply merge_from_minimal]. }
  split; [by apply merge_from_nodes|]. split; [apply merge_from_sum|].
  intros a. by eapply merge_from_owner.
Qed.

(** The second round and the merge, once there is room. *)
Lemma insert_merge_ok ty base e nid mb :
  let l := live (type_of ty mb) in
  type_ok (type_of ty mb) → ¬ is_dummy l → 0 ≤ base < e → e ≤ ULLONG_MAX →
  zlen (ins l base e nid) ≤ t_max (type_of ty mb) →
  wp (_ ← on ty (add_region_round true base e nid); _ ← on ty memblock_merge_regions; mret 0)
     (λ ret mb', ret = 0 ∧ updated ty mb mb' (λ a, add_owner (owns ty mb a) base e nid a) ∧
        t_cnt (type_of ty mb') ≤ zlen (ins l base e nid)) mb.
Proof.
  intros l Hok Hnd Hb He Hroom. pose proof Hok as [Hcnt [Hmax Hmax'] Hsh Hn Htot].
  destruct (type_ok_holds _ Hok) as [Hh Hlen]. fold l in Hh, Hlen, Hsh, Hn.
  destruct (shape_cases l Hsh) as [Hd|(Hne & Hs & Hmin & _)]; [done|].
  apply wp_bind, wp_on. eapply wp_insert_round; [done| |done|done|].
  { pose proof (sum_bounds 0 l ltac:(done) Hs). unfold ULLONG_MAX in *. lia. }
  intros nr t1 Hh1. rewrite Z.add_sub_swap, Z.sub_diag in Hh1. simpl in Hh1.
  assert (Hs' : sorted_from 0 (ins l base e nid)) by (apply ins_sorted; lia || done).
  assert (Hn' : nodes_ok (ins l base e nid)) by by apply ins_nodes.
  assert (Hne' : ins l base e nid ≠ []).
  { intros E0. pose proof (ins_length l base e nid) as Hle. rewrite E0 in Hle.
    destruct l; [done|simpl in Hle; lia]. }
  rewrite u64_small in Hh1.
  2:{ pose proof (sum_bounds 0 _ ltac:(done) Hs'). unfold ULLONG_MAX in *. lia. }
  apply wp_bind, wp_on. rewrite type_of_set. eapply wp_merge; [|done..|]; [done|].
  intros t2 Hh2. apply wp_ret. split; [done|]. rewrite set_set_type, type_of_set.
  destruct (merge_ok _ Hne' Hs' Hn') as (M1 & M2 & M3 & M4 & M5). rewrite <- M4 in Hh2.
  split; [|rewrite (holds_cnt _ _ _ _ _ Hh2); apply merge_length].
  apply holds_type_ok in Hh2 as (Hok2 & Hl2 & Hm2 & Hp2); [|done..].
  exists t2. split_and!; try done. intros a. rewrite Hl2, M5. by eapply ins_owner.
Qed.

(** memblock_add_region over any doubling routine.  [K] is what is known of the
    state once there is room, [F] of the state in which there is none. *)
Lemma add_region_core double ty base size nid mb (K F : memblock → Prop) :
  let e := range_end base size in
  let l mb := live (type_of ty mb) in
  type_ok (type_of ty mb) → is_u64 base → is_u64 size → K mb →
  (¬ is_dummy (l mb) → base < e →
   wp (ensure_room double 64 ty (zlen (ins (l mb) base e nid) - zlen (l mb)) base (e - base))
      (λ ok mb1, if ok : bool
                 then K mb1 ∧ type_ok (type_of ty mb1) ∧ ¬ is_dummy (l mb1) ∧
                      zlen (ins (l mb1) base e nid) ≤ t_max (type_of ty mb1)
                 else F mb1) mb) →
  wp (add_region double ty base size nid)
     (λ ret mb',
        (ret = 0 ∧ ∃ mb1, K mb1 ∧
           updated ty mb1 mb' (λ a, add_owner (owns ty mb1 a) base e nid a) ∧
           t_cnt (type_of ty mb') ≤
             Z.max (t_cnt (type_of ty mb1)) (zlen (ins (l mb1) base e nid))) ∨
        (ret = - mb_ENOMEM ∧ F mb')) mb.
Proof.
  intros e l Hok Hb Hsz HK Hroom. unfold add_region.
  destruct (range_end_u64 base size Hb Hsz) as [-> Hre].
  assert (Hcap : memblock_cap_size base size = e - base) by (unfold e, range_end; lia).
  rewrite Hcap. fold e in Hre |- *.
  pose proof Hok as [Hcnt [Hmax Hmax'] Hsh Hn Htot].
  destruct (type_ok_holds _ Hok) as [Hh Hlen]. fold (l mb) in Hh, Hlen, Hsh, Hn.
  destruct (Z.eqb_spec (e - base) 0) as [Hz|Hz].
  { apply wp_ret. left. split; [done|]. exists mb. split; [done|]. split; [|lia].
    exists (type_of ty mb). rewrite set_type_of. split_and!; try done.
    intros a. unfold add_owner. destruct (owner _ a); [done|]. ltbs; done. }
  destruct (shape_head _ Hsh) as (r & l' & El & Hd).
  apply wp_bind, wp_on. eapply (wp_region_mid _ [] r l'); [rewrite <- El; done|].
  rewrite set_type_of. destruct (Z.eqb_spec (r_size r) 0) as [Hr0|Hr0].
  - (* the empty array *)
    destruct (Hd Hr0) as [Hdum ->].
    apply wp_bind, wp_on. eapply (wp_set_region_mid _ [] r _ []); [rewrite <- El; done|].
    intros t1 Hh1. apply wp_bind, wp_on. rewrite type_of_set. eapply wp_set_total; [done|].
    intros t2 Hh2. rewrite set_set_type. apply wp_ret. left. split; [done|].
    unfold memblock_set_region_node in Hh2. simpl in Hh2. fold (node nid) in Hh2.
    replace (e - base) with (sum_sizes [Region base (e - base) (node nid)]) in Hh2 at 1
      by (simpl; lia).
    exists mb. split; [done|]. rewrite type_of_set. pose proof (holds_cnt _ _ _ _ _ Hh2) as ->.
    split; [|simpl; lia].
    apply holds_type_ok in Hh2 as (Hok2 & Hl2 & Hm2 & Hp2); [|done| | |lia].
    + exists t2. split_and!; try done. intros a.
      rewrite Hl2. unfold l in Hdum. rewrite (dummy_owner _ a Hdum). simpl. unfold covers, rend; simpl. ltbs; done.
    + right. simpl. unfold rend; simpl. repeat split; try done; lia.
    + repeat constructor. simpl. apply node_idem.
  - assert (Hnd : ¬ is_dummy (l mb)).
    { intros [n E]. rewrite E in El. by injection El as <- _. }
    destruct (shape_cases _ Hsh) as [?|(Hne & Hs & _)]; [done|].
    apply wp_bind, wp_on. eapply wp_count_round; [done|done|]. rewrite set_type_of.
    apply wp_bind. eapply wp_mono; [apply Hroom; [done|lia]|]. intros [] mb1.
    + intros (HK1 & Hok1 & Hnd1 & Hm1).
      eapply wp_mono; [apply insert_merge_ok; (done || lia)|].
      intros ret mb' (-> & Hup & Hc). left. split; [done|]. exists mb1.
      split; [done|]. split; [done|]. fold (l mb1) in Hc. lia.
    + intros HF. apply wp_ret. by right.
Qed.

(** ** __memblock_remove *)

Lemma owner_member lo l r a :
  sorted_from lo l → r ∈ l → covers r a = true → owner l a = Some (r_nid r).
Proof.
  revert lo. induction l as [|r' l IH]; intros lo Hs Hr Hc; [set_solver|].
  simpl. destruct Hs as (S1 & S2 & S3 & S4).
  apply elem_of_cons in Hr as [->|Hr]; [by rewrite Hc|].
  destruct (covers r' a) eqn:E; [|by eapply IH].
  pose proof (sorted_ends _ _ _ S4 Hr). revert E Hc. unfold covers. ltbs; done.
Qed.

(** Being merged, in terms of owners: no region continues the address below it. *)
Lemma minimal_owner lo l :
  sorted_from lo l → minimal l ↔ ∀ r, r ∈ l → owner l (r_base r - 1) ≠ Some (r_nid r).
Proof.
  revert lo. induction l as [|r l IH]; intros lo Hs; [set_solver|].
  pose proof Hs as (S1 & S2 & S3 & S4). specialize (IH _ S4).
  assert (Hr : owner (r :: l) (r_base r - 1) = None).
  { apply (owner_below (r_base r)); [by eapply sorted_raise|lia]. }
  assert (Hin : ∀ r', r' ∈ l → owner (r :: l) (r_base r' - 1) =
      if r_base r' =? rend r then Some (r_nid r) else owner l (r_base r' - 1)).
  { intros r' Hr'. destruct (sorted_ends _ _ _ S4 Hr') as [_ Hb]. simpl.
    unfold covers, rend in *. ltbs; done. }
  destruct l as [|r2 l].
  { split; [|done]. intros _ r' ->%list_elem_of_singleton. by rewrite Hr. }
  change (minimal (r :: r2 :: l)) with (¬ (rend r = r_base r2 ∧ r_nid r = r_nid r2) ∧ minimal (r2 :: l)).
  rewrite IH. split.
  - intros [H1 H2] r' [->|Hr']%elem_of_cons; [by rewrite Hr|]. rewrite (Hin _ Hr').
    destruct (Z.eqb_spec (r_base r') (rend r)) as [E|E]; [|by apply H2].
    apply elem_of_cons in Hr' as [->|Hr']; [intros [= E']; by apply H1|].
    destruct S4 as (T1 & T2 & T3 & T4). destruct (sorted_ends _ _ _ T4 Hr').
    unfold rend in *. lia.
  - intros H. split.
    + intros [E1 E2]. apply (H r2); [set_solver|]. rewrite Hin by set_solver.
      rewrite <- E1, Z.eqb_refl. by rewrite E2.
    + intros r' Hr' E. apply (H r'); [set_solver|]. rewrite (Hin _ Hr'). ltbs; [|done].
      exfalso. rewrite (owner_below _ _ _ S4) in E by lia. done.
Qed.

Lemma clip_elem lo hi l r' : r' ∈ clip_list lo hi l ↔ ∃ r, r ∈ l ∧ clip lo hi r = Some r'.
Proof. unfold clip_list. rewrite list_elem_of_omap. done. Qed.

(** What is left of a list outside [base, e). *)
Definition cut (base e : Z) (l : list memblock_region) : list memblock_region :=
  clip_list 0 base l ++ clip_list e ULLONG_MAX l.

Lemma sorted_join lo mid l1 l2 :
  sorted_from lo l1 → (∀ r, r ∈ l1 → rend r ≤ mid) → sorted_from mid l2 → lo ≤ mid →
  sorted_from lo (l1 ++ l2).
Proof.
  revert lo. induction l1 as [|r l1 IH]; intros lo H1 H2 H3 H4; simpl.
  - by eapply sorted_weaken.
  - destruct H1 as (? & ? & ? & ?). repeat split; try done. apply IH; try done.
    + set_solver.
    + apply H2. set_solver.
Qed.

Lemma clip_bound lo hi l r : r ∈ clip_list lo hi l → rend r ≤ hi.
Proof.
  intros (r' & _ & E)%clip_elem. unfold clip in E. destruct (_ <? _); [|done].
  injection E as <-. unfold rend; simpl. lia.
Qed.

Lemma cut_sorted base e l :
  0 ≤ base → base ≤ e → sorted_from 0 l → sorted_from 0 (cut base e l).
Proof.
  intros H1 H2 Hs. eapply (sorted_join 0 base).
  - apply (clip_list_sorted 0 base 0 l Hs).
  - intros r. apply clip_bound.
  - eapply sorted_weaken; [|apply (clip_list_sorted e ULLONG_MAX 0 l Hs)]. lia.
  - lia.
Qed.

Lemma owner_high l a : sorted_from 0 l → ULLONG_MAX ≤ a → owner l a = None.
Proof.
  intros Hs Ha. apply owner_found. intros r Hr.
  pose proof (sorted_ends _ _ _ Hs Hr). unfold covers. ltbs; done.
Qed.

Lemma cut_owner base e l a :
  0 ≤ base ≤ e → sorted_from 0 l →
  owner (cut base e l) a = if (base <=? a) && (a <? e) then None else owner l a.
Proof.
  intros Hb Hs. unfold cut. rewrite owner_app, !(clip_list_owner _ _ 0) by done.
  destruct (decide (a < 0)); [rewrite (owner_below 0 l a) by (done || lia); ltbs; done|].
  destruct (decide (ULLONG_MAX ≤ a)); [rewrite (owner_high l a) by done; ltbs; done|].
  ltbs; destruct (owner l a); done.
Qed.

Lemma cut_minimal base e l :
  0 ≤ base < e → sorted_from 0 l → minimal l → minimal (cut base e l).
Proof.
  intros Hb Hs Hm. apply (minimal_owner 0); [apply cut_sorted; (done || lia)|].
  rewrite (minimal_owner 0 l Hs) in Hm. intros r' Hr'.
  rewrite cut_owner by (done || lia). unfold cut in Hr'.
  apply elem_of_app in Hr' as [(r & Hr & E)%clip_elem|(r & Hr & E)%clip_elem];
    destruct (sorted_ends _ _ _ Hs Hr) as [_ Hr0]; specialize (Hm r Hr); unfold clip in E;
    destruct (_ <? _) in E; try done; injection E as <-; simpl.
  - rewrite Z.max_l by lia. ltbs; done.
  - destruct (decide (r_base r ≤ e)).
    + rewrite Z.max_r by lia. ltbs; done.
    + rewrite Z.max_l by lia. ltbs; done.
Qed.

Lemma split_sum base e l :
  0 ≤ base ≤ e → e ≤ ULLONG_MAX → sorted_from 0 l →
  sum_sizes (split_at base e l) = sum_sizes l.
Proof.
  intros Hb He Hs. cut (∀ lo, 0 ≤ lo → sorted_from lo l →
    sum_sizes (split_at base e l) = sum_sizes l); [intros H; by apply (H 0)|]. clear Hs. unfold split_at.
  induction l as [|r l IH]; intros lo Hlo Hs; [done|]. destruct Hs as (S1 & S2 & S3 & S4).
  assert (0 ≤ rend r) as Hr by (unfold rend; lia).
  specialize (IH _ Hr S4). rewrite !clip_list_cons. rewrite !sum_app in *. simpl.
  unfold clip, rend in *. ltbs.
Qed.

(** memblock_isolate_range over any doubling routine: on success the array is
    split at both bounds and the two indices delimit the inner part. *)
Lemma isolate_range_core double ty base size mb (K F : memblock → Prop) :
  let e := range_end base size in
  let l mb := live (type_of ty mb) in
  type_ok (type_of ty mb) → is_u64 base → is_u64 size → K mb →
  (base < e →
   wp (ensure_room double 64 ty 2 base (e - base))
      (λ ok mb1, if ok : bool
                 then K mb1 ∧ type_ok (type_of ty mb1) ∧
                      t_cnt (type_of ty mb1) + 2 ≤ t_max (type_of ty mb1)
                 else F mb1) mb) →
  wp (isolate_range double ty base size)
     (λ '(ret, (s, f)) mb',
        (ret = - mb_ENOMEM ∧ F mb') ∨
        (ret = 0 ∧ K mb' ∧ type_ok (type_of ty mb') ∧ (is_dummy (l mb') ∨ base = e) ∧ s = f) ∨
        (ret = 0 ∧ base < e ∧ ∃ mb1, K mb1 ∧ type_ok (type_of ty mb1) ∧ ¬ is_dummy (l mb1) ∧
         (s, f) = isolated (clip_list 0 base (l mb1)) (clip_list base e (l mb1)) 0 0 ∧
         ∃ t, mb' = set_type ty t mb1 ∧
              holds (sum_sizes (l mb1)) (split_at base e (l mb1)) (t_max (type_of ty mb1))
                (t_home (type_of ty mb1)) t)) mb.
Proof.
  intros e l Hok0 Hb Hsz HK Hroom. unfold isolate_range.
  destruct (range_end_u64 base size Hb Hsz) as [-> Hre].
  assert (Hcap : memblock_cap_size base size = e - base) by (unfold e, range_end; lia).
  rewrite Hcap. fold e in Hre |- *.
  destruct (Z.eqb_spec (e - base) 0) as [Hz|Hz].
  { apply wp_ret. right. left. split_and!; try done. right. lia. }
  apply wp_bind. eapply wp_mono; [apply Hroom; lia|]. intros [] mb1.
  2:{ intros HF. apply wp_ret. by left. }
  intros (HK1 & Hok & Hm1).
  pose proof Hok as [Hcnt [Hmax Hmax'] Hsh Hn Htot].
  destruct (type_ok_holds _ Hok) as [Hh Hlen]. fold (l mb1) in Hh, Hlen, Hsh, Hn.
  apply wp_bind, wp_gets. apply wp_bind, wp_on.
  destruct (shape_cases _ Hsh) as [Hd|(Hne & Hs & Hmin & Hnd)].
  - pose proof Hd as [n El]. rewrite El in *. simpl in Hlen. rewrite <- Hlen.
    change (Z.to_nat (1 + 3)) with 4%nat. cbn [isolate_loop].
    apply wp_bind. eapply wp_get_cnt; [done|]. simpl.
    apply wp_bind. eapply (wp_region_mid _ [] (Region 0 0 n) []); [done|]. simpl.
    change (r_end (Region 0 0 n)) with 0.
    destruct (Z.leb_spec e 0); [lia|]. destruct (Z.leb_spec 0 base); [|lia].
    apply wp_bind. eapply wp_get_cnt; [done|]. simpl. apply wp_ret, wp_ret.
    rewrite set_type_of. right. left. split_and!; try done. left. by rewrite El.
  - pose proof (sum_bounds 0 _ ltac:(done) Hs).
    eapply wp_mono.
    { apply (wp_isolate_loop (sum_sizes (l mb1)) (t_max (type_of ty mb1)) (t_home (type_of ty mb1))
               base e (l mb1) ltac:(unfold ULLONG_MAX in *; lia) ltac:(lia) _ 0 []); try done; simpl; lia. }
    intros [s f] t [E Ht]. apply wp_ret. right. right. split; [done|]. split; [lia|]. exists mb1.
    split_and!; try done. exists t. done.
Qed.

(** Without growth: on failure nothing changes. *)
Lemma isolate_range_ok ty base size mb :
  type_ok (type_of ty mb) → is_u64 base → is_u64 size →
  t_cnt (type_of ty mb) + 2 ≤ t_max (type_of ty mb) ∨ memblock_can_resize mb = false →
  let l := live (type_of ty mb) in
  let e := range_end base size in
  wp (memblock_isolate_range ty base size)
     (λ '(ret, (s, f)) mb',
        (ret = - mb_ENOMEM ∧ mb' = mb ∧ memblock_can_resize mb = false ∧
         t_max (type_of ty mb) < t_cnt (type_of ty mb) + 2) ∨
        (ret = 0 ∧ (is_dummy l ∨ base = e) ∧ s = f ∧ mb' = mb) ∨
        (ret = 0 ∧ base < e ∧ ¬ is_dummy l ∧
         (s, f) = isolated (clip_list 0 base l) (clip_list base e l) 0 0 ∧
         ∃ t, mb' = set_type ty t mb ∧
              holds (sum_sizes l) (split_at base e l) (t_max (type_of ty mb))
                (t_home (type_of ty mb)) t)) mb.
Proof.
  intros Hok Hb Hsz Hroom l e. eapply wp_mono.
  { apply (isolate_range_core _ ty base size mb (λ mb1, mb1 = mb)
      (λ mb1, mb1 = mb ∧ memblock_can_resize mb = false ∧ t_max (type_of ty mb) < t_cnt (type_of ty mb) + 2)
      Hok Hb Hsz); [done|].
    intros _. eapply wp_mono; [by apply wp_ensure_room|]. intros ok mb1 [-> ->].
    destruct (Z.leb_spec (t_cnt (type_of ty mb) + 2) (t_max (type_of ty mb))); [done|].
    destruct Hroom; [lia|done]. }
  intros [ret [s f]] mb' [H|[(-> & -> & _ & H & ->)|(-> & H & mb1 & -> & _ & H')]]; [by left| |].
  - right. left. done.
  - right. right. done.
Qed.

Lemma isolated_range l1 mid : let '(s, f) := isolated l1 mid 0 0 in
  Z.to_nat (f - s) = length mid ∧ (mid ≠ [] → f - 1 = zlen l1 + zlen mid - 1).
Proof. destruct mid; simpl; [done|]. split; [lia|done]. Qed.

(** An array that holds what is left of its regions is updated by the removal. *)
Lemma cut_updated ty mb base e t : let l := live (type_of ty mb) in 0 ≤ base < e → e ≤ ULLONG_MAX →
  type_ok (type_of ty mb) → sorted_from 0 l → minimal l →
  holds (sum_sizes (cut base e l)) (or_dummy (cut base e l)) (t_max (type_of ty mb)) (t_home (type_of ty mb)) t →
  updated ty mb (set_type ty t mb) (λ a, if (base <=? a) && (a <? e) then None else owner l a).
Proof.
  intros l Hb He [Hcnt [Hmax Hmax'] _ Hn _] Hs Hmin Ht. fold l in Hn.
  pose proof (cut_sorted base e l ltac:(lia) ltac:(lia) Hs) as Hcs.
  assert (Es : sum_sizes (cut base e l) = sum_sizes (or_dummy (cut base e l))) by by destruct (cut base e l).
  assert (Hdo : ∀ a, owner (or_dummy (cut base e l)) a = owner (cut base e l) a).
  { intros a. destruct (cut base e l); [|done]. simpl. unfold covers, rend; simpl. by ltbs. }
  rewrite Es in Ht. apply holds_type_ok in Ht as (Hok' & Hl' & Hm' & Hp').
  - exists t. do 4 (split; [done|]). intros a. rewrite Hl', Hdo. by apply cut_owner; [lia|].
  - by destruct (cut base e l).
  - pose proof (cut_minimal base e l ltac:(lia) Hs Hmin). destruct (cut base e l); [left; by eexists|]. by right.
  - assert (nodes_ok (cut base e l)) as Hcn.
    { unfold nodes_ok, cut. apply Forall_app. split; by apply clip_list_nodes. }
    destruct (cut base e l); [|done]. repeat constructor. simpl. apply node_idem.
  - lia.
Qed.

(** The regions that cross a bound, or both. *)
Lemma clip_length lo hi l : zlen (clip_list lo hi l) ≤ zlen l.
Proof.
  induction l as [|r l IH]; [done|]. rewrite clip_list_cons.
  destruct (clip lo hi r); simpl; lia.
Qed.

Lemma cut_length base e lo l :
  base ≤ e → sorted_from lo l → zlen (cut base e l) ≤ zlen l + 1.
Proof.
  unfold cut. intros Hb. revert lo. induction l as [|r l IH]; intros lo Hs; [done|].
  destruct Hs as (S1 & S2 & S3 & S4). rewrite length_app, !clip_list_cons.
  specialize (IH _ S4). rewrite length_app in IH.
  destruct (decide (base ≤ rend r)).
  - rewrite (clip_list_above 0 base (rend r) l) by (done || lia).
    pose proof (clip_length e ULLONG_MAX l).
    destruct (clip 0 base r), (clip e ULLONG_MAX r); simpl; lia.
  - rewrite (clip_none e ULLONG_MAX r) by lia. destruct (clip 0 base r); simpl; lia.
Qed.

(** The removal of the isolated regions. *)
Lemma remove_isolated_ok ty base e mb s f t :
  let l := live (type_of ty mb) in
  type_ok (type_of ty mb) → ¬ is_dummy l → 0 ≤ base < e → e ≤ ULLONG_MAX →
  (s, f) = isolated (clip_list 0 base l) (clip_list base e l) 0 0 →
  holds (sum_sizes l) (split_at base e l) (t_max (type_of ty mb)) (t_home (type_of ty mb)) t →
  wp (_ ← on ty (for_down (Z.to_nat (f - s)) (f - 1) memblock_remove_region); mret 0)
     (λ ret mb', ret = 0 ∧ updated ty mb mb'
           (λ a, if (base <=? a) && (a <? e) then None else owns ty mb a) ∧
        t_cnt (type_of ty mb') ≤ t_cnt (type_of ty mb) + 1) (set_type ty t mb).
Proof.
  intros l Hok Hnd Hb He E Hh. apply wp_bind, wp_on. rewrite type_of_set.
  pose proof Hok as [Hcnt [Hmax Hmax'] Hsh Hn Htot]. fold l in Hsh, Hn, Htot.
  destruct (type_ok_holds _ Hok) as [_ Hlen]. fold l in Hlen.
  destruct (shape_cases l Hsh) as [Hd|(Hne & Hs & Hmin & _)]; [done|].
  assert (Hsum : is_u64 (sum_sizes l)).
  { pose proof (sum_bounds 0 l ltac:(done) Hs). unfold ULLONG_MAX in *. lia. }
  pose proof (isolated_range (clip_list 0 base l) (clip_list base e l)) as Hi.
  rewrite <- E in Hi. destruct Hi as [-> Hi2].
  assert (Hss : sum_sizes l - sum_sizes (clip_list base e l) = sum_sizes (cut base e l)).
  { rewrite <- (split_sum base e l) by (done || lia). unfold split_at, cut.
    rewrite !sum_app. lia. }
  pose proof (cut_sorted base e l ltac:(lia) ltac:(lia) Hs) as Hcs.
  assert (Hcu : is_u64 (sum_sizes (cut base e l))).
  { pose proof (sum_bounds 0 _ ltac:(done) Hcs). unfold ULLONG_MAX in *. lia. }
  assert (Hfin : ∀ t', holds (u64 (sum_sizes l - sum_sizes (clip_list base e l)))
      (or_dummy (cut base e l)) (t_max (type_of ty mb)) (t_home (type_of ty mb)) t' →
    updated ty mb (set_type ty t' mb)
      (λ a, if (base <=? a) && (a <? e) then None else owner l a) ∧
    t_cnt t' ≤ t_cnt (type_of ty mb) + 1).
  { intros t' Ht'. rewrite Hss, u64_small in Ht' by done. split; [apply cut_updated; (done || lia)|].
    rewrite (holds_cnt _ _ _ _ _ Ht'). pose proof (cut_length base e 0 l ltac:(lia) Hs).
    destruct (cut base e l); simpl in *; lia. }
  destruct (decide (clip_list base e l = [])) as [Em|Em].
  - rewrite Em. simpl. apply wp_ret, wp_ret. rewrite set_set_type, type_of_set. split; [done|].
    apply Hfin. rewrite Em. simpl. rewrite Z.sub_0_r, u64_small by done.
    unfold split_at in Hh. rewrite Em in Hh. simpl in Hh. fold (cut base e l) in Hh.
    destruct (cut base e l) eqn:Ec; [|done]. exfalso. rewrite Em in Hss. simpl in Hss.
    destruct l as [|r l']; [done|]. destruct Hs as (S1 & S2 & S3 & S4).
    pose proof (sum_bounds _ _ S3 S4). simpl in Hss. lia.
  - rewrite Hi2 by done. eapply (wp_remove_all _ _ _ _ _ _ (sum_sizes l)); [done|exact Hh|].
    intros t' Ht'. apply wp_ret. split; [done|]. rewrite set_set_type, type_of_set. apply Hfin.
    destruct (clip_list base e l); [done|]. exact Ht'.
Qed.

(** __memblock_remove over any doubling routine. *)
Lemma remove_range_core double ty base size mb (K F : memblock → Prop) :
  let e := range_end base size in
  type_ok (type_of ty mb) → is_u64 base → is_u64 size → K mb →
  (base < e →
   wp (ensure_room double 64 ty 2 base (e - base))
      (λ ok mb1, if ok : bool
                 then K mb1 ∧ type_ok (type_of ty mb1) ∧
                      t_cnt (type_of ty mb1) + 2 ≤ t_max (type_of ty mb1)
                 else F mb1) mb) →
  wp (remove_range double ty base size)
     (λ ret mb',
        (ret = 0 ∧ ∃ mb1, K mb1 ∧ updated ty mb1 mb'
           (λ a, if (base <=? a) && (a <? e) then None else owns ty mb1 a) ∧
           t_cnt (type_of ty mb') ≤ t_cnt (type_of ty mb1) + 1) ∨
        (ret = - mb_ENOMEM ∧ F mb')) mb.
Proof.
  intros e Hok Hb Hsz HK Hroom. unfold remove_range.
  destruct (range_end_u64 base size Hb Hsz) as [_ Hre]. fold e in Hre.
  apply wp_bind. eapply wp_mono; [by apply (isolate_range_core double ty base size mb K F)|].
  intros [ret [s f]] mb'. fold e.
  intros [(-> & HF)|[(-> & HK1 & Hok1 & Hd & ->)|(-> & Hlt & mb1 & HK1 & Hok1 & Hnd & E & t & -> & Hh)]].
  - apply wp_ret. by right.
  - simpl. apply wp_bind, wp_on. rewrite Z.sub_diag. simpl. apply wp_ret, wp_ret.
    left. split; [done|]. exists mb'. rewrite !set_type_of. split; [done|]. split; [|lia].
    exists (type_of ty mb'). rewrite !set_type_of. split_and!; try done. intros a.
    destruct Hd as [Hd|Hd]; [rewrite (dummy_owner _ a Hd)|]; ltbs; done.
  - simpl. eapply wp_mono; [apply (remove_isolated_ok ty base e mb1 s f t); (done || lia)|].
    intros ret mb' (-> & H). left. eauto.
Qed.

Lemma remove_ok ty base size mb :
  type_ok (type_of ty mb) → is_u64 base → is_u64 size →
  t_cnt (type_of ty mb) + 2 ≤ t_max (type_of ty mb) →
  wp (__memblock_remove ty base size)
     (λ ret mb', ret = 0 ∧ updated ty mb mb'
           (λ a, if (base <=? a) && (a <? range_end base size) then None else owns ty mb a)) mb.
Proof.
  intros Hok Hb Hsz Hroom. eapply wp_mono.
  { apply (remove_range_core _ ty base size mb (λ mb1, mb1 = mb) (λ _, False) Hok Hb Hsz); [done|].
    intros _. by apply ensure_room_there. }
  intros ret mb' [(-> & mb1 & -> & H & _)|(_ & [])]. done.
Qed.
End spec.
