(* ===== verification/MemblockFree.v ===== *)
(** * MemblockFree: iteration over free memory and allocation

    Free memory is owned in [memory] and not in [reserved].  The iterators walk
    the pairs of a memory region and a gap between reserved regions; this file
    proves that a step of either iterator skips only empty pairs, and from it
    that memblock_find_in_range_node finds the highest suitable area and that
    the memblock_alloc family reserves free, aligned memory. *)

From S2P Require Import Prelude Memblock MemblockList MemblockArray MemblockSpec.

(** ** Rounding to a power of two *)

Lemma land_mask x k : is_u64 x → 0 ≤ k ≤ 64 → x .& ~64 (Z.ones k) = x - x `mod` 2 ^ k.
Proof.
  intros Hx Hk. transitivity (Z.shiftl (Z.shiftr x k) k).
  - apply Z.bits_inj'. intros i Hi. autorewrite with bits.
    destruct (Z.ltb_spec i 64); [|rewrite (testbit_high 64 x) by lia; bool_compare; simpl;
      try done; by rewrite (testbit_high 64 x) by lia].
    bool_compare; simpl; rewrite ?andb_true_r, ?andb_false_r; try done.
    f_equal. lia.
  - rewrite Z.shiftl_mul_pow2, Z.shiftr_div_pow2 by lia.
    pose proof (Z.div_mod x (2 ^ k) ltac:(lia)). lia.
Qed.

Lemma pow2_le k : 0 ≤ k < 64 → 1 ≤ 2 ^ k < 2 ^ 64.
Proof. intros. split; [lia|]. apply Z.pow_lt_mono_r; lia. Qed.

Lemma round_down_spec x k : is_u64 x → 0 ≤ k < 64 → round_down x (2 ^ k) = x - x `mod` 2 ^ k.
Proof.
  intros Hx Hk. unfold round_down. pose proof (pow2_le k Hk).
  rewrite (u64_small (2 ^ k - 1)) by lia.
  replace (2 ^ k - 1) with (Z.ones k) by (rewrite Z.ones_equiv; lia).
  apply land_mask; lia.
Qed.

Lemma round_up_spec x k : 0 < x → 0 ≤ k < 64 → x + 2 ^ k ≤ 2 ^ 64 →
  round_up x (2 ^ k) = (x - 1) - (x - 1) `mod` 2 ^ k + 2 ^ k.
Proof.
  intros Hx Hk Hs. unfold round_up. pose proof (pow2_le k Hk).
  rewrite (u64_small (x - 1)), (u64_small (2 ^ k - 1)) by lia.
  replace (2 ^ k - 1) with (Z.ones k) by (rewrite Z.ones_equiv; lia).
  assert (E : (x - 1) .| Z.ones k = (x - 1) .& ~64 (Z.ones k) + Z.ones k).
  { rewrite Z.add_nocarry_lxor.
    - bitwise. rewrite (testbit_high 64 (x - 1)) by lia. done.
    - bitwise. }
  rewrite E, land_mask by lia. rewrite Z.ones_equiv.
  pose proof (Z.mod_pos_bound (x - 1) (2 ^ k) ltac:(lia)).
  rewrite u64_small; lia.
Qed.

(** ** Regions and gaps *)

Lemma shape_rd l i r : shape l → rd l i = Some r →
  0 ≤ r_base r ∧ r_base r ≤ rend r ≤ ULLONG_MAX ∧ r_end r = rend r.
Proof.
  intros [[n ->]|(_ & Hs & _)] Hr.
  - apply rd_elem, list_elem_of_singleton in Hr as ->. done.
  - apply rd_elem in Hr. destruct (sorted_ends _ _ _ Hs Hr). pose proof (sorted_pos _ _ _ Hs Hr).
    unfold r_end, rend, ULLONG_MAX in *. rewrite u64_small; lia.
Qed.

Lemma shape_order l i j r1 r2 : shape l → rd l i = Some r1 → rd l j = Some r2 → i < j →
  rend r1 ≤ r_base r2.
Proof.
  intros [[n ->]|(_ & Hs & _)] H1 H2 Hij.
  - apply rd_Some in H1, H2. simpl in *. lia.
  - by eapply sorted_rd_order.
Qed.

Lemma shape_owner l a n : shape l →
  owner l a = Some n ↔ ∃ i r, rd l i = Some r ∧ covers r a = true ∧ r_nid r = n.
Proof.
  intros Hs. split.
  - intros Ho. clear Hs. induction l as [|r l IH]; [done|]. simpl in Ho.
    destruct (covers r a) eqn:E.
    + injection Ho as <-. by exists 0, r.
    + destruct (IH Ho) as (i & r' & Hi & H). exists (i + 1), r'. split; [|done].
      pose proof (rd_Some _ _ _ Hi). change (r :: l) with ([r] ++ l).
      rewrite rd_app_r by (simpl; lia). simpl. by rewrite Z.add_simpl_r.
  - intros (i & r & Hi & Hc & <-). apply rd_elem in Hi. destruct Hs as [[n ->]|(_ & Hs & _)].
    + apply list_elem_of_singleton in Hi as ->. revert Hc. unfold covers, rend; simpl. ltbs; done.
    + by eapply owner_member.
Qed.

(** The gap below reserved region [ri], and above the last one. *)
Definition gap_lo (l : list memblock_region) (ri : Z) : Z :=
  if ri =? 0 then 0 else match rd l (ri - 1) with Some r => rend r | None => 0 end.
Definition gap_hi (l : list memblock_region) (ri : Z) : Z :=
  match rd l ri with Some r => r_base r | None => ULLONG_MAX end.

Lemma gap_order l ri ri' : shape l → 0 ≤ ri' < ri → ri ≤ zlen l → gap_hi l ri' ≤ gap_lo l ri.
Proof.
  intros Hs Hr Hl. unfold gap_hi, gap_lo. destruct (Z.eqb_spec ri 0); [lia|].
  destruct (rd_in l (ri - 1) ltac:(lia)) as [r1 E1]. destruct (rd_in l ri' ltac:(lia)) as [r2 E2].
  rewrite E1, E2. pose proof (shape_rd _ _ _ Hs E2).
  destruct (decide (ri' = ri - 1)) as [->|].
  - rewrite E1 in E2. injection E2 as <-. lia.
  - pose proof (shape_order _ _ _ _ _ Hs E2 E1 ltac:(lia)). pose proof (shape_rd _ _ _ Hs E1). lia.
Qed.

Lemma gap_lo_mono l ri ri' : shape l → 0 ≤ ri' ≤ ri → ri ≤ zlen l → gap_lo l ri' ≤ gap_lo l ri.
Proof.
  intros Hs Hr Hl. destruct (decide (ri' = ri)) as [->|]; [done|].
  unfold gap_lo. destruct (Z.eqb_spec ri 0); [lia|].
  destruct (rd_in l (ri - 1) ltac:(lia)) as [r1 E1]. rewrite E1.
  pose proof (shape_rd _ _ _ Hs E1). destruct (Z.eqb_spec ri' 0); [lia|].
  destruct (rd_in l (ri' - 1) ltac:(lia)) as [r2 E2]. rewrite E2.
  pose proof (shape_order _ _ _ _ _ Hs E2 E1 ltac:(lia)). lia.
Qed.

Lemma gap_hi_mono l ri ri' : shape l → 0 ≤ ri' ≤ ri → ri ≤ zlen l → gap_hi l ri' ≤ gap_hi l ri.
Proof.
  intros Hs Hr Hl. destruct (decide (ri' = ri)) as [->|]; [done|].
  unfold gap_hi. destruct (rd_in l ri' ltac:(lia)) as [r2 E2]. rewrite E2.
  pose proof (shape_rd _ _ _ Hs E2). destruct (rd l ri) as [r1|] eqn:E1; [|lia].
  pose proof (shape_order _ _ _ _ _ Hs E2 E1 ltac:(lia)). lia.
Qed.

(** An address is not reserved exactly when it is in a gap. *)
Lemma gap_owner l a : shape l → 0 ≤ a < ULLONG_MAX →
  owner l a = None ↔ ∃ ri, 0 ≤ ri ≤ zlen l ∧ gap_lo l ri ≤ a < gap_hi l ri.
Proof.
  intros Hs Ha. split.
  - intros Ho. rewrite owner_found in Ho.
    assert (∀ n k, zlen l - k ≤ Z.of_nat n → 0 ≤ k ≤ zlen l → gap_lo l k ≤ a →
      ∃ ri, 0 ≤ ri ≤ zlen l ∧ gap_lo l ri ≤ a < gap_hi l ri) as H.
    { induction n as [|n IH]; intros k Hk Hkl Hlo.
      - exists k. split; [done|]. split; [done|]. unfold gap_hi.
        rewrite (proj2 (rd_None l k)) by lia. lia.
      - destruct (rd l k) as [r|] eqn:E.
        2:{ exists k. unfold gap_hi. rewrite E. auto with lia. }
        pose proof (Ho r (rd_elem _ _ _ E)) as Hc. unfold covers in Hc.
        destruct (Z.leb_spec (r_base r) a); simpl in Hc.
        + pose proof (rd_Some _ _ _ E). apply (IH (k + 1)); try lia. unfold gap_lo.
          rewrite Z.add_simpl_r, E. destruct (Z.eqb_spec (k + 1) 0); [lia|].
          by apply Z.ltb_ge in Hc.
        + exists k. unfold gap_hi. rewrite E. auto with lia. }
    apply (H (length l) 0); unfold gap_lo; simpl; lia.
  - intros (ri & Hri & Hlo & Hhi). apply owner_found. intros r Hr.
    apply list_elem_of_lookup in Hr as [j Hj]. rewrite <- rd_nat in Hj.
    pose proof (rd_Some _ _ _ Hj). unfold covers.
    destruct (decide (Z.of_nat j < ri)).
    + assert (rend r ≤ a); [|ltbs; done]. etrans; [|exact Hlo].
      pose proof (gap_lo_mono l ri (Z.of_nat j + 1) Hs ltac:(lia) ltac:(lia)) as Hg.
      unfold gap_lo in Hg at 1. rewrite Z.add_simpl_r, Hj in Hg.
      destruct (Z.eqb_spec (Z.of_nat j + 1) 0); lia.
    + pose proof (gap_hi_mono l (Z.of_nat j) ri Hs ltac:(lia) ltac:(lia)) as Hg.
      unfold gap_hi in Hg at 2. rewrite Hj in Hg. ltbs; done.
Qed.

(** ** One step of the iterators *)

Section scan.
Context `{cfg : memblock_config}.
Variables (mem rsv : memblock_type) (nid : Z).
Hypotheses (Hmem : type_ok mem) (Hrsv : type_ok rsv).

Let lm := live mem.
Let lr := live rsv.

Definition node_match (m : memblock_region) : bool :=
  (nid =? MAX_NUMNODES) || (nid =? memblock_get_region_node m).

(** [a] is in memory region [mi], of a node asked for, and in gap [ri]. *)
Definition in_pair (a mi ri : Z) : Prop :=
  ∃ m, rd lm mi = Some m ∧ node_match m = true ∧ 0 ≤ ri ≤ zlen lr ∧
       r_base m ≤ a < rend m ∧ gap_lo lr ri ≤ a < gap_hi lr ri.

Definition pair_lo (mi ri : Z) : Z :=
  match rd lm mi with Some m => Z.max (r_base m) (gap_lo lr ri) | None => 0 end.
Definition pair_hi (mi ri : Z) : Z :=
  match rd lm mi with Some m => Z.min (rend m) (gap_hi lr ri) | None => 0 end.

Lemma in_pair_bounds a mi ri : in_pair a mi ri → pair_lo mi ri ≤ a < pair_hi mi ri.
Proof. intros (m & E & _ & _ & ? & ?). unfold pair_lo, pair_hi. rewrite E. lia. Qed.

Lemma pair_inside a mi ri m : rd lm mi = Some m → node_match m = true → 0 ≤ ri ≤ zlen lr →
  pair_lo mi ri ≤ a < pair_hi mi ri → in_pair a mi ri.
Proof.
  intros E Hn Hri. unfold pair_lo, pair_hi. rewrite E. intros. exists m.
  repeat split; try done; lia.
Qed.

Lemma rd_mem i : i < zlen lm → rd (t_regions mem) i = rd lm i.
Proof. destruct (type_ok_holds _ Hmem) as [Hh _]. by apply holds_rd with (1 := Hh). Qed.
Lemma rd_rsv i : i < zlen lr → rd (t_regions rsv) i = rd lr i.
Proof. destruct (type_ok_holds _ Hrsv) as [Hh _]. by apply holds_rd with (1 := Hh). Qed.

Lemma cnt_mem : t_cnt mem = zlen lm.
Proof. by destruct (type_ok_holds _ Hmem). Qed.
Lemma cnt_rsv : t_cnt rsv = zlen lr.
Proof. by destruct (type_ok_holds _ Hrsv). Qed.

Lemma read_gap_lo ri : 0 ≤ ri ≤ zlen lr →
  (if ri =? 0 then Some 0 else r ← rd (t_regions rsv) (ri - 1); Some (r_end r))
  = Some (gap_lo lr ri).
Proof.
  intros Hri. unfold gap_lo. destruct (Z.eqb_spec ri 0); [done|].
  rewrite rd_rsv by lia. destruct (rd_in lr (ri - 1) ltac:(lia)) as [r E]. rewrite E. simpl.
  f_equal. by apply (shape_rd lr (ri - 1) r (ok_shape _ Hrsv)).
Qed.

Lemma read_gap_hi ri : 0 ≤ ri ≤ zlen lr →
  (if ri <? t_cnt rsv then r ← rd (t_regions rsv) ri; Some (r_base r) else Some ULLONG_MAX)
  = Some (gap_hi lr ri).
Proof.
  intros Hri. unfold gap_hi. rewrite cnt_rsv. destruct (Z.ltb_spec ri (zlen lr)).
  - rewrite rd_rsv by lia. destruct (rd_in lr ri ltac:(lia)) as [r E]. by rewrite E.
  - by rewrite (proj2 (rd_None lr ri)) by lia.
Qed.

(** What a step of the reverse iterator from [(mi, ri)] returns: the end of the
    iteration when no pair at or below is left, or the bounds of a pair and the
    next position, below which all the other pairs lie. *)
Definition rev_step (mi ri : Z) (res : Z * option (Z * Z * Z)) : Prop :=
  (res = (ULLONG_MAX, None) ∧ ∀ a mi' ri', mi' ≤ mi → ri' ≤ ri → ¬ in_pair a mi' ri') ∨
  (∃ mi1 ri1 mi2 ri2 m,
     res = (pack_idx mi2 ri2, Some (pair_lo mi1 ri1, pair_hi mi1 ri1, memblock_get_region_node m)) ∧
     rd lm mi1 = Some m ∧ node_match m = true ∧ 0 ≤ mi1 ≤ mi ∧ 0 ≤ ri1 ≤ ri ∧
     ((mi2 = mi1 - 1 ∧ ri2 = ri1) ∨ (mi2 = mi1 ∧ ri2 = ri1 - 1)) ∧
     ∀ a mi' ri', mi' ≤ mi → ri' ≤ ri → in_pair a mi' ri' →
       (mi' = mi1 ∧ ri' = ri1) ∨ (mi' ≤ mi2 ∧ ri' ≤ ri2)).

Lemma rev_step_weaken mi ri mi' ri' res :
  mi' ≤ mi → ri' ≤ ri →
  (∀ a i j, i ≤ mi → j ≤ ri → in_pair a i j → i ≤ mi' ∧ j ≤ ri') →
  rev_step mi' ri' res → rev_step mi ri res.
Proof.
  intros Hm Hr Hall [[-> Hn]|(mi1 & ri1 & mi2 & ri2 & m & -> & E & Hnm & H1 & H2 & H3 & H4)].
  - left. split; [done|]. intros a i j Hi Hj Hp. destruct (Hall a i j Hi Hj Hp). by apply (Hn a i j).
  - right. exists mi1, ri1, mi2, ri2, m. repeat split; try done; try lia.
    intros a i j Hi Hj Hp. destruct (Hall a i j Hi Hj Hp). by apply (H4 a).
Qed.

Lemma free_scan_rev_ok fuel : ∀ mi ri,
  -1 ≤ mi < zlen lm → -1 ≤ ri ≤ zlen lr → mi + ri + 2 < Z.of_nat fuel →
  ∃ res, free_scan_rev fuel mem rsv nid mi ri = Some res ∧ rev_step mi ri res.
Proof.
  assert (Hlm : shape lm) by apply Hmem. assert (Hlr : shape lr) by apply Hrsv.
  induction fuel as [|fuel IH]; intros mi ri Hmi Hri Hf; [lia|]. cbn [free_scan_rev].
  destruct (Z.leb_spec 0 mi).
  2:{ eexists. split; [done|]. left. split; [done|]. intros a i j Hi Hj (m & E & _).
      apply rd_Some in E. lia. }
  rewrite rd_mem by lia. destruct (rd_in lm mi ltac:(lia)) as [m Em]. rewrite Em. simpl.
  pose proof (shape_rd _ _ _ Hlm Em) as (M1 & M2 & ->).
  rewrite <- negb_orb. fold (node_match m).
  assert (Hskip : (∀ a j, j ≤ ri → ¬ in_pair a mi j) →
    ∃ res, free_scan_rev fuel mem rsv nid (mi - 1) ri = Some res ∧ rev_step mi ri res).
  { intros Hno. destruct (IH (mi - 1) ri) as (res & -> & Hres); try lia. exists res.
    split; [done|]. eapply rev_step_weaken; [| | |done]; try lia.
    intros a i j Hi Hj Hp. destruct (decide (i = mi)) as [->|]; [by apply Hno in Hp|lia]. }
  destruct (node_match m) eqn:Enm; simpl.
  2:{ apply Hskip. intros a j _ (m' & E & Hn & _). congruence. }
  destruct (Z.leb_spec 0 ri).
  2:{ apply Hskip. intros a j Hj (m' & E & Hn & Hj' & _). lia. }
  rewrite read_gap_lo by lia. simpl. rewrite read_gap_hi by lia. simpl.
  destruct (Z.leb_spec (gap_hi lr ri) (r_base m)) as [C1|C1].
  { apply Hskip. intros a j Hj (m' & E & Hn & Hj' & Ha & Hg). rewrite Em in E. injection E as <-.
    pose proof (gap_hi_mono lr ri j Hlr ltac:(lia) ltac:(lia)). lia. }
  destruct (Z.ltb_spec (gap_lo lr ri) (rend m)) as [C2|C2].
  - eexists. split; [done|]. right. exists mi, ri.
    assert (Hpl : pair_lo mi ri = Z.max (r_base m) (gap_lo lr ri)) by (unfold pair_lo; by rewrite Em).
    assert (Hph : pair_hi mi ri = Z.min (rend m) (gap_hi lr ri)) by (unfold pair_hi; by rewrite Em).
    destruct (Z.leb_spec (gap_lo lr ri) (r_base m)) as [C3|C3].
    + exists (mi - 1), ri, m. rewrite Hpl, Hph. repeat split; try done; try lia.
      intros a i j Hi Hj Hp. destruct (decide (i = mi)) as [->|]; [|lia].
      destruct (decide (j = ri)) as [->|]; [by left|]. exfalso.
      destruct Hp as (m' & E & Hn & Hj' & Ha & Hg). rewrite Em in E. injection E as <-.
      pose proof (gap_order lr ri j Hlr ltac:(lia) ltac:(lia)). lia.
    + exists mi, (ri - 1), m. rewrite Hpl, Hph. repeat split; try done; try lia.
      intros a i j Hi Hj Hp. destruct (decide (j = ri)) as [->|]; [|lia].
      destruct (decide (i = mi)) as [->|]; [by left|]. exfalso.
      destruct Hp as (m' & E & Hn & Hj' & Ha & Hg).
      pose proof (shape_order _ _ _ _ _ Hlm E Em ltac:(lia)). lia.
  - destruct (IH mi (ri - 1)) as (res & -> & Hres); try lia. exists res. split; [done|].
    eapply rev_step_weaken; [| | |done]; try lia.
    intros a i j Hi Hj Hp. destruct (decide (j = ri)) as [->|]; [|lia]. exfalso.
    destruct Hp as (m' & E & Hn & Hj' & Ha & Hg). destruct (decide (i = mi)) as [->|].
    + rewrite Em in E. injection E as <-. lia.
    + pose proof (shape_order _ _ _ _ _ Hlm E Em ltac:(lia)). lia.
Qed.

(** The forward iterator, in the other direction. *)
Definition fwd_step (mi ri : Z) (res : Z * option (Z * Z * Z)) : Prop :=
  (res = (ULLONG_MAX, None) ∧ ∀ a mi' ri', mi ≤ mi' → ri ≤ ri' → ¬ in_pair a mi' ri') ∨
  (∃ mi1 ri1 mi2 ri2 m,
     res = (pack_idx mi2 ri2, Some (pair_lo mi1 ri1, pair_hi mi1 ri1, memblock_get_region_node m)) ∧
     rd lm mi1 = Some m ∧ node_match m = true ∧ mi ≤ mi1 < zlen lm ∧ ri ≤ ri1 ≤ zlen lr ∧
     ((mi2 = mi1 + 1 ∧ ri2 = ri1) ∨ (mi2 = mi1 ∧ ri2 = ri1 + 1)) ∧
     ∀ a mi' ri', mi ≤ mi' → ri ≤ ri' → in_pair a mi' ri' →
       (mi' = mi1 ∧ ri' = ri1) ∨ (mi2 ≤ mi' ∧ ri2 ≤ ri')).

Lemma fwd_step_weaken mi ri mi' ri' res :
  mi ≤ mi' → ri ≤ ri' →
  (∀ a i j, mi ≤ i → ri ≤ j → in_pair a i j → mi' ≤ i ∧ ri' ≤ j) →
  fwd_step mi' ri' res → fwd_step mi ri res.
Proof.
  intros Hm Hr Hall [[-> Hn]|(mi1 & ri1 & mi2 & ri2 & m & -> & E & Hnm & H1 & H2 & H3 & H4)].
  - left. split; [done|]. intros a i j Hi Hj Hp. destruct (Hall a i j Hi Hj Hp). by apply (Hn a i j).
  - right. exists mi1, ri1, mi2, ri2, m. repeat split; try done; try lia.
    intros a i j Hi Hj Hp. destruct (Hall a i j Hi Hj Hp). by apply (H4 a).
Qed.

Lemma free_scan_ok fuel : ∀ mi ri,
  0 ≤ mi ≤ zlen lm → 0 ≤ ri ≤ zlen lr + 1 →
  (zlen lm - mi) + (zlen lr + 1 - ri) < Z.of_nat fuel →
  ∃ res, free_scan fuel mem rsv nid mi ri = Some res ∧ fwd_step mi ri res.
Proof.
  assert (Hlm : shape lm) by apply Hmem. assert (Hlr : shape lr) by apply Hrsv.
  induction fuel as [|fuel IH]; intros mi ri Hmi Hri Hf; [lia|]. cbn [free_scan].
  rewrite cnt_mem. replace (t_cnt rsv + 1) with (zlen lr + 1) by (by rewrite cnt_rsv).
  destruct (Z.ltb_spec mi (zlen lm)).
  2:{ eexists. split; [done|]. left. split; [done|]. intros a i j Hi Hj (m & E & _).
      apply rd_Some in E. lia. }
  rewrite rd_mem by lia. destruct (rd_in lm mi ltac:(lia)) as [m Em]. rewrite Em. simpl.
  pose proof (shape_rd _ _ _ Hlm Em) as (M1 & M2 & ->).
  rewrite <- negb_orb. fold (node_match m).
  assert (Hskip : (∀ a j, ri ≤ j → ¬ in_pair a mi j) →
    ∃ res, free_scan fuel mem rsv nid (mi + 1) ri = Some res ∧ fwd_step mi ri res).
  { intros Hno. destruct (IH (mi + 1) ri) as (res & -> & Hres); try lia. exists res.
    split; [done|]. eapply fwd_step_weaken; [| | |done]; try lia.
    intros a i j Hi Hj Hp. destruct (decide (i = mi)) as [->|]; [by apply Hno in Hp|lia]. }
  destruct (node_match m) eqn:Enm; simpl.
  2:{ apply Hskip. intros a j _ (m' & E & Hn & _). congruence. }
  destruct (Z.ltb_spec ri (zlen lr + 1)).
  2:{ apply Hskip. intros a j Hj (m' & E & Hn & Hj' & _). lia. }
  rewrite read_gap_lo by lia. simpl. rewrite read_gap_hi by lia. simpl.
  destruct (Z.leb_spec (rend m) (gap_lo lr ri)) as [C1|C1].
  { apply Hskip. intros a j Hj (m' & E & Hn & Hj' & Ha & Hg). rewrite Em in E. injection E as <-.
    pose proof (gap_lo_mono lr j ri Hlr ltac:(lia) ltac:(lia)). lia. }
  destruct (Z.ltb_spec (r_base m) (gap_hi lr ri)) as [C2|C2].
  - eexists. split; [done|]. right. exists mi, ri.
    assert (Hpl : pair_lo mi ri = Z.max (r_base m) (gap_lo lr ri)) by (unfold pair_lo; by rewrite Em).
    assert (Hph : pair_hi mi ri = Z.min (rend m) (gap_hi lr ri)) by (unfold pair_hi; by rewrite Em).
    destruct (Z.leb_spec (rend m) (gap_hi lr ri)) as [C3|C3].
    + exists (mi + 1), ri, m. rewrite Hpl, Hph. repeat split; try done; try lia.
      intros a i j Hi Hj Hp. destruct (decide (i = mi)) as [->|]; [|lia].
      destruct (decide (j = ri)) as [->|]; [by left|]. exfalso.
      destruct Hp as (m' & E & Hn & Hj' & Ha & Hg). rewrite Em in E. injection E as <-.
      pose proof (gap_order lr j ri Hlr ltac:(lia) ltac:(lia)). lia.
    + exists mi, (ri + 1), m. rewrite Hpl, Hph. repeat split; try done; try lia.
      intros a i j Hi Hj Hp. destruct (decide (j = ri)) as [->|]; [|lia].
      destruct (decide (i = mi)) as [->|]; [by left|]. exfalso.
      destruct Hp as (m' & E & Hn & Hj' & Ha & Hg).
      pose proof (shape_order _ _ _ _ _ Hlm Em E ltac:(lia)). lia.
  - destruct (IH mi (ri + 1)) as (res & -> & Hres); try lia. exists res. split; [done|].
    eapply fwd_step_weaken; [| | |done]; try lia.
    intros a i j Hi Hj Hp. destruct (decide (j = ri)) as [->|]; [|lia]. exfalso.
    destruct Hp as (m' & E & Hn & Hj' & Ha & Hg). destruct (decide (i = mi)) as [->|].
    + rewrite Em in E. injection E as <-. lia.
    + pose proof (shape_order _ _ _ _ _ Hlm Em E ltac:(lia)). lia.
Qed.
End scan.

(** ** The packed index *)

Lemma s32_u32 x : - 2 ^ 31 ≤ x < 2 ^ 31 → s32 (u32 x) = x.
Proof.
  intros Hx. unfold s32, u32, wrap. rewrite Zplus_mod_idemp_l.
  rewrite Z.mod_small; lia.
Qed.

Lemma pack_lo mi ri : pack_idx mi ri .& 0xffffffff = u32 mi.
Proof. change 0xffffffff with (Z.ones 32). unfold pack_idx. bitwise.
  by rewrite (Z.testbit_neg_r ri), orb_false_r by lia. Qed.

Lemma pack_hi mi ri : pack_idx mi ri >>u 32 = u32 ri.
Proof.
  unfold pack_idx. bitwise. by replace (i + 32 - 32) with i by lia.
Qed.

Lemma pack_end mi ri : -1 ≤ mi < 2 ^ 31 → -1 ≤ ri < 2 ^ 31 → 0 ≤ mi ∨ 0 ≤ ri →
  pack_idx mi ri ≠ ULLONG_MAX.
Proof.
  intros H1 H2 H3 E. pose proof (pack_lo mi ri) as Hl. pose proof (pack_hi mi ri) as Hh.
  rewrite E in Hl, Hh. apply (f_equal s32) in Hl, Hh.
  rewrite s32_u32 in Hl, Hh by lia.
  change (s32 (ULLONG_MAX .& 0xffffffff)) with (-1) in Hl.
  change (s32 (ULLONG_MAX >>u 32)) with (-1) in Hh. lia.
Qed.

(** ** The iteration *)

Section free.
Context `{cfg : memblock_config}.
Variable mb : memblock.
Hypotheses (Hmem : type_ok (memory mb)) (Hrsv : type_ok (reserved mb)).

Let lm := live (memory mb).
Let lr := live (reserved mb).

(** Free memory, of node [nid] or of any node when it is MAX_NUMNODES. *)
Definition is_free (nid a : Z) : Prop :=
  (∃ n, owner lm a = Some n ∧ (nid = MAX_NUMNODES ∨ nid = n)) ∧ owner lr a = None.

Lemma lens : 1 ≤ zlen lm < 2 ^ 30 ∧ 1 ≤ zlen lr < 2 ^ 30.
Proof.
  destruct (type_ok_holds _ Hmem) as [_ E1], (type_ok_holds _ Hrsv) as [_ E2].
  fold lm in E1. fold lr in E2. destruct Hmem as [? [? ?]], Hrsv as [? [? ?]]. lia.
Qed.

Lemma node_get r : r ∈ lm → memblock_get_region_node r = r_nid r.
Proof.
  intros Hr. pose proof (ok_nodes _ Hmem) as Hn. unfold nodes_ok in Hn.
  rewrite Forall_forall in Hn. specialize (Hn r Hr). unfold memblock_get_region_node.
  rewrite Hn. unfold node. by destruct NODE_MAP.
Qed.

Lemma free_pair nid a : is_free nid a ↔ ∃ mi ri, in_pair (memory mb) (reserved mb) nid a mi ri.
Proof.
  assert (Hlm : shape lm) by apply Hmem. assert (Hlr : shape lr) by apply Hrsv.
  unfold is_free, in_pair. fold lm. fold lr. split.
  - intros [(n & Ho & Hn) Hr]. apply (shape_owner lm a n Hlm) in Ho as (mi & m & Em & Hc & <-).
    pose proof (shape_rd _ _ _ Hlm Em) as (M1 & M2 & _).
    unfold covers in Hc. apply andb_true_iff in Hc as [C1%Z.leb_le C2%Z.ltb_lt].
    apply (gap_owner lr a Hlr) in Hr as (ri & Hri & Hg); [|lia].
    exists mi, ri, m. split; [done|]. unfold node_match. rewrite node_get by by eapply rd_elem.
    split; [|done]. apply orb_true_iff. rewrite !Z.eqb_eq. done.
  - intros (mi & ri & m & Em & Hn & Hri & Ha & Hg).
    pose proof (shape_rd _ _ _ Hlm Em) as (M1 & M2 & _). split.
    + exists (r_nid m). split.
      * apply (shape_owner lm a _ Hlm). exists mi, m. split; [done|]. split; [|done].
        unfold covers. by ltbs.
      * unfold node_match in Hn. rewrite node_get in Hn by by eapply rd_elem.
        apply orb_true_iff in Hn. by rewrite !Z.eqb_eq in Hn.
    + apply (gap_owner lr a Hlr); [lia|]. eauto.
Qed.

(** The position an index stands for. *)
Definition rev_at (idx mi ri : Z) : Prop :=
  (idx = ULLONG_MAX ∧ mi = zlen lm - 1 ∧ ri = zlen lr) ∨
  (idx = pack_idx mi ri ∧ -1 ≤ mi < zlen lm ∧ -1 ≤ ri ≤ zlen lr ∧ (0 ≤ mi ∨ 0 ≤ ri)).

Lemma next_rev_ok idx mi ri nid : rev_at idx mi ri →
  ∃ res, __next_free_mem_range_rev idx nid mb = Some res ∧
         rev_step (memory mb) (reserved mb) nid mi ri res.
Proof.
  pose proof lens. intros Hat. unfold __next_free_mem_range_rev, scan_fuel.
  rewrite (cnt_mem _ Hmem), (cnt_rsv _ Hrsv). fold lm. fold lr.
  destruct Hat as [(-> & -> & ->)|(-> & H1 & H2 & H3)].
  - rewrite Z.eqb_refl. rewrite !s32_small by lia.
    apply free_scan_rev_ok; try done; fold lm; fold lr; lia.
  - rewrite (proj2 (Z.eqb_neq _ _)) by (apply pack_end; lia).
    rewrite pack_lo, pack_hi, !s32_u32 by lia.
    apply free_scan_rev_ok; try done; fold lm; fold lr; lia.
Qed.

Definition fwd_at (idx mi ri : Z) : Prop :=
  idx = pack_idx mi ri ∧ 0 ≤ mi ≤ zlen lm ∧ 0 ≤ ri ≤ zlen lr + 1.

Lemma next_fwd_ok idx mi ri nid : fwd_at idx mi ri →
  ∃ res, __next_free_mem_range idx nid mb = Some res ∧
         fwd_step (memory mb) (reserved mb) nid mi ri res.
Proof.
  pose proof lens. intros (-> & H1 & H2). unfold __next_free_mem_range, scan_fuel.
  rewrite pack_lo, pack_hi, !s32_u32 by lia.
  rewrite (cnt_mem _ Hmem), (cnt_rsv _ Hrsv). fold lm. fold lr.
  apply free_scan_ok; try done; fold lm; fold lr; lia.
Qed.

Definition in_ranges (rs : list (Z * Z * Z)) (a : Z) : Prop :=
  ∃ s e n, (s, e, n) ∈ rs ∧ s ≤ a < e.

Lemma in_ranges_cons s e n rs a :
  in_ranges ((s, e, n) :: rs) a ↔ s ≤ a < e ∨ in_ranges rs a.
Proof.
  unfold in_ranges. split.
  - intros (s' & e' & n' & [[= -> -> ->]|Hin]%elem_of_cons & Ha); [by left|right; eauto 10].
  - intros [Ha|(s' & e' & n' & Hin & Ha)]; eexists _, _, _; (split; [|eassumption]);
      apply elem_of_cons; eauto.
Qed.

(** From a position on, the iteration visits exactly the pairs left. *)
Lemma rev_ranges_ok nid fuel : ∀ idx mi ri, rev_at idx mi ri → mi + ri + 2 < Z.of_nat fuel →
  ∃ rs, free_ranges (λ idx, __next_free_mem_range_rev idx nid mb) fuel idx = Some rs ∧
    ∀ a, in_ranges rs a ↔
      ∃ mi' ri', mi' ≤ mi ∧ ri' ≤ ri ∧ in_pair (memory mb) (reserved mb) nid a mi' ri'.
Proof.
  pose proof lens. induction fuel as [|fuel IH]; intros idx mi ri Hat Hf.
  { destruct Hat as [(_ & -> & ->)|(_ & ? & ? & ?)]; lia. }
  cbn [free_ranges]. destruct (next_rev_ok idx mi ri nid Hat) as (res & -> & Hres).
  destruct Hres as [[-> Hno]|(mi1 & ri1 & mi2 & ri2 & m & -> & Em & Hn & H1 & H2 & H3 & Hall)];
    cbn [mbind option_bind].
  - rewrite Z.eqb_refl. exists []. split; [done|]. intros a. split.
    + intros (s & e & n & Hin & _). by apply not_elem_of_nil in Hin.
    + intros (mi' & ri' & ? & ? & Hp). by eapply Hno in Hp.
  - assert (Hmi : mi < zlen lm ∧ ri ≤ zlen lr).
    { destruct Hat as [(_ & -> & ->)|(_ & ? & ? & ?)]; lia. }
    rewrite (proj2 (Z.eqb_neq _ _)) by (apply pack_end; lia).
    destruct (IH (pack_idx mi2 ri2) mi2 ri2) as (rs & -> & Hrs); [right; lia|lia|].
    eexists. split; [done|]. intros a. rewrite in_ranges_cons, Hrs. split.
    + intros [Ha|(mi' & ri' & ? & ? & Hp)]; [|exists mi', ri'; repeat split; [lia..|done]].
      exists mi1, ri1. split; [lia|]. split; [lia|]. eapply pair_inside; try done. fold lr. lia.
    + intros (mi' & ri' & Hm' & Hr' & Hp). destruct (Hall a mi' ri' Hm' Hr' Hp) as [[-> ->]|[? ?]].
      * left. by apply in_pair_bounds in Hp.
      * right. eauto.
Qed.

Lemma fwd_ranges_ok nid fuel : ∀ idx mi ri, fwd_at idx mi ri →
  (zlen lm - mi) + (zlen lr + 1 - ri) < Z.of_nat fuel →
  ∃ rs, free_ranges (λ idx, __next_free_mem_range idx nid mb) fuel idx = Some rs ∧
    ∀ a, in_ranges rs a ↔
      ∃ mi' ri', mi ≤ mi' ∧ ri ≤ ri' ∧ in_pair (memory mb) (reserved mb) nid a mi' ri'.
Proof.
  pose proof lens. induction fuel as [|fuel IH]; intros idx mi ri Hat Hf.
  { destruct Hat as (_ & ? & ?). lia. }
  cbn [free_ranges]. destruct (next_fwd_ok idx mi ri nid Hat) as (res & -> & Hres).
  destruct Hres as [[-> Hno]|(mi1 & ri1 & mi2 & ri2 & m & -> & Em & Hn & H1 & H2 & H3 & Hall)];
    cbn [mbind option_bind].
  - rewrite Z.eqb_refl. exists []. split; [done|]. intros a. split.
    + intros (s & e & n & Hin & _). by apply not_elem_of_nil in Hin.
    + intros (mi' & ri' & ? & ? & Hp). by eapply Hno in Hp.
  - destruct Hat as (_ & A1 & A2). fold lm in H1. fold lr in H2.
    rewrite (proj2 (Z.eqb_neq _ _)) by (apply pack_end; lia).
    destruct (IH (pack_idx mi2 ri2) mi2 ri2) as (rs & -> & Hrs); [split; [done|lia]|lia|].
    eexists. split; [done|]. intros a. rewrite in_ranges_cons, Hrs. split.
    + intros [Ha|(mi' & ri' & ? & ? & Hp)]; [|exists mi', ri'; repeat split; [lia..|done]].
      exists mi1, ri1. split; [lia|]. split; [lia|]. eapply pair_inside; try done. fold lr. lia.
    + intros (mi' & ri' & Hm' & Hr' & Hp). destruct (Hall a mi' ri' Hm' Hr' Hp) as [[-> ->]|[? ?]].
      * left. by apply in_pair_bounds in Hp.
      * right. eauto.
Qed.

Lemma for_each_ok nid :
  (∃ rs, for_each_free_mem_range nid mb = Some rs ∧ ∀ a, in_ranges rs a ↔ is_free nid a) ∧
  (∃ rs, for_each_free_mem_range_reverse nid mb = Some rs ∧ ∀ a, in_ranges rs a ↔ is_free nid a).
Proof.
  pose proof lens. unfold for_each_free_mem_range, for_each_free_mem_range_reverse, scan_fuel.
  rewrite (cnt_mem _ Hmem), (cnt_rsv _ Hrsv). fold lm. fold lr.
  assert (Hb : ∀ a mi ri, in_pair (memory mb) (reserved mb) nid a mi ri →
    0 ≤ mi ≤ zlen lm - 1 ∧ 0 ≤ ri ≤ zlen lr).
  { intros a mi ri (m & E & _ & ? & _). apply rd_Some in E. fold lm in E. fold lr in H0. lia. }
  split.
  - destruct (fwd_ranges_ok nid (Z.to_nat (zlen lm + zlen lr + 3)) 0 0 0) as (rs & -> & Hrs);
      [split; [done|lia]|lia|]. exists rs. split; [done|]. intros a. rewrite Hrs, free_pair.
    split; [naive_solver|]. intros (mi & ri & Hp). exists mi, ri.
    destruct (Hb _ _ _ Hp). repeat split; [lia..|done].
  - destruct (rev_ranges_ok nid (Z.to_nat (zlen lm + zlen lr + 3)) ULLONG_MAX (zlen lm - 1) (zlen lr))
      as (rs & -> & Hrs); [by left|lia|]. exists rs. split; [done|]. intros a.
    rewrite Hrs, free_pair. split; [naive_solver|]. intros (mi & ri & Hp). exists mi, ri.
    destruct (Hb _ _ _ Hp). repeat split; [lia..|done].
Qed.

(** ** memblock_find_in_range_node *)

Section find.
Variables (start end_ size k nid : Z).
Hypotheses (Hstart : 0 < start ≤ end_) (Hend : end_ ≤ ULLONG_MAX) (Hsize : 0 < size)
  (Hk : 0 ≤ k < 64).

Definition area (c mi ri : Z) : Prop :=
  start ≤ c ∧ c + size ≤ end_ ∧ c `mod` 2 ^ k = 0 ∧
  ∀ a, c ≤ a < c + size → in_pair (memory mb) (reserved mb) nid a mi ri.

Lemma cand_area lo hi mi ri :
  lo = pair_lo (memory mb) (reserved mb) mi ri → hi = pair_hi (memory mb) (reserved mb) mi ri →
  (∀ a, lo ≤ a < hi → in_pair (memory mb) (reserved mb) nid a mi ri) →
  let s := clamp lo start end_ in
  let e := clamp hi start end_ in
  let cand := round_down (e - size) (2 ^ k) in
  (size ≤ e → s ≤ cand → area cand mi ri ∧ cand ≠ 0) ∧
  (∀ c, area c mi ri → size ≤ e ∧ s ≤ cand ∧ c ≤ cand).
Proof.
  intros Hlo Hhi Hin s e cand. pose proof (pow2_le k Hk).
  assert (He : start ≤ e ≤ end_) by (unfold e, clamp; lia).
  assert (Hcand : size ≤ e → cand = (e - size) - (e - size) `mod` 2 ^ k).
  { intros. apply round_down_spec; [unfold ULLONG_MAX in *; lia|done]. }
  pose proof (Z.mod_pos_bound (e - size) (2 ^ k) ltac:(lia)) as Hmod.
  split.
  - intros Hse Hsc. rewrite (Hcand Hse) in Hsc |- *.
    assert (Hs' : s ≤ e - size) by lia.
    assert (start ≤ s) by (unfold s, clamp; lia). split; [|lia].
    repeat split; try lia.
    + rewrite Zminus_mod_idemp_r, Z.sub_diag. done.
    + intros a Ha. apply Hin. unfold e, s, clamp in *. lia.
  - intros c (C1 & C2 & C3 & C4).
    pose proof (in_pair_bounds _ _ _ _ _ _ (C4 c ltac:(lia))) as B1.
    pose proof (in_pair_bounds _ _ _ _ _ _ (C4 (c + size - 1) ltac:(lia))) as B2.
    rewrite <- Hlo, <- Hhi in B1, B2.
    assert (Hce : c + size ≤ e) by (unfold e, clamp; lia).
    assert (Hse : size ≤ e) by lia. rewrite (Hcand Hse).
    assert (c ≤ (e - size) - (e - size) `mod` 2 ^ k).
    { pose proof (Z.div_mod (e - size) (2 ^ k) ltac:(lia)).
      pose proof (Z.div_mod c (2 ^ k) ltac:(lia)).
      assert (c / 2 ^ k ≤ (e - size) / 2 ^ k) by (apply Z.div_le_mono; lia). nia. }
    split; [done|]. split; [|done]. unfold s, clamp. lia.
Qed.

Lemma area_order c c' mi ri mi' ri' :
  area c mi ri → area c' mi' ri' → mi' ≤ mi → ri' ≤ ri → mi' ≠ mi ∨ ri' ≠ ri → c' ≤ c.
Proof.
  intros (_ & _ & _ & H) (_ & _ & _ & H') Hm Hr Hne.
  specialize (H c ltac:(lia)). specialize (H' c' ltac:(lia)).
  destruct H as (m & E & _ & J & A & G), H' as (m' & E' & _ & J' & A' & G').
  destruct (decide (mi' = mi)) as [->|].
  - fold lr in G, G', J, J'.
    pose proof (gap_order lr ri ri' (ok_shape _ Hrsv) ltac:(lia) ltac:(lia)). lia.
  - pose proof (shape_order lm _ _ _ _ (ok_shape _ Hmem) E' E ltac:(lia)). lia.
Qed.

(** [c] is the highest area at or below [(mi, ri)], or 0 when there is none. *)
Definition best (mi ri c : Z) : Prop :=
  (c = 0 ∧ ∀ c' mi' ri', mi' ≤ mi → ri' ≤ ri → ¬ area c' mi' ri') ∨
  (c ≠ 0 ∧ (∃ mi' ri', area c mi' ri') ∧
   ∀ c' mi' ri', mi' ≤ mi → ri' ≤ ri → area c' mi' ri' → c' ≤ c).

Lemma find_loop_ok fuel : ∀ idx mi ri, rev_at idx mi ri → mi + ri + 2 < Z.of_nat fuel →
  ∃ c, find_loop fuel idx start end_ size (2 ^ k) nid mb = Some c ∧ best mi ri c.
Proof.
  pose proof lens. induction fuel as [|fuel IH]; intros idx mi ri Hat Hf.
  { destruct Hat as [(_ & -> & ->)|(_ & ? & ? & ?)]; lia. }
  cbn [find_loop]. destruct (next_rev_ok idx mi ri nid Hat) as (res & -> & Hres).
  destruct Hres as [[-> Hno]|(mi1 & ri1 & mi2 & ri2 & m & -> & Em & Hn & H1 & H2 & H3 & Hall)].
  - cbn [mbind option_bind]. rewrite Z.eqb_refl. exists 0. split; [done|]. left. split; [done|].
    intros c' mi' ri' ? ? (_ & _ & _ & Hp). eapply (Hno c'); [done|done|apply Hp]. lia.
  - cbn [mbind option_bind]. assert (Hmi : mi < zlen lm ∧ ri ≤ zlen lr).
    { destruct Hat as [(_ & -> & ->)|(_ & ? & ? & ?)]; lia. }
    rewrite (proj2 (Z.eqb_neq _ _)) by (apply pack_end; lia).
    set (lo := pair_lo _ _ mi1 ri1) in *. set (hi := pair_hi _ _ mi1 ri1) in *.
    assert (Hin : ∀ a, lo ≤ a < hi → in_pair (memory mb) (reserved mb) nid a mi1 ri1).
    { intros a Ha. eapply pair_inside; try done. fold lr. lia. }
    destruct (cand_area lo hi mi1 ri1 eq_refl eq_refl Hin) as [Hyes Hmax].
    set (s := clamp lo start end_) in *. set (e := clamp hi start end_) in *.
    set (cand := round_down (e - size) (2 ^ k)) in *.
    assert (Hnext : (∀ c, ¬ area c mi1 ri1) →
      ∃ c, find_loop fuel (pack_idx mi2 ri2) start end_ size (2 ^ k) nid mb = Some c ∧ best mi ri c).
    { intros Hnone. destruct (IH (pack_idx mi2 ri2) mi2 ri2) as (c & -> & Hb); [right; lia|lia|].
      exists c. split; [done|].
      assert (Hsub : ∀ c' mi' ri', mi' ≤ mi → ri' ≤ ri → area c' mi' ri' →
                mi' ≤ mi2 ∧ ri' ≤ ri2).
      { intros c' mi' ri' Hm' Hr' Ha. destruct (Hall c' mi' ri' Hm' Hr') as [[-> ->]|?]; [|by apply Hnone in Ha|done].
        apply Ha. lia. }
      destruct Hb as [[-> Hb]|(Hc & He & Hb)]; [left|right].
      - split; [done|]. intros c' mi' ri' Hm' Hr' Ha. destruct (Hsub _ _ _ Hm' Hr' Ha).
        by eapply (Hb c' mi' ri').
      - split; [done|]. split; [done|]. intros c' mi' ri' Hm' Hr' Ha.
        destruct (Hsub _ _ _ Hm' Hr' Ha). by eapply (Hb c' mi' ri'). }
    destruct (Z.ltb_spec e size) as [C1|C1].
    { apply Hnext. intros c Hc%Hmax. lia. }
    destruct (Z.leb_spec s cand) as [C2|C2].
    2:{ apply Hnext. intros c Hc%Hmax. lia. }
    exists cand. split; [done|]. destruct (Hyes C1 C2) as [Ha Hne]. right. split; [done|].
    split; [by exists mi1, ri1|]. intros c' mi' ri' Hm' Hr' Ha'.
    destruct (decide (mi' = mi1 ∧ ri' = ri1)) as [[-> ->]|Hd];
      [by apply Hmax in Ha' as (_ & _ & ?)|].
    destruct (Hall c' mi' ri' Hm' Hr') as [?|[? ?]]; [apply Ha'; lia|done|].
    eapply area_order; [exact Ha|exact Ha'|lia..].
Qed.
End find.
End free.
