(* ===== verification/MemblockThm.v ===== *)
(** * MemblockThm: the theorems on memblock

    Operations of mm/memblock.c related to the owner maps of the two arrays:
    searching, iterating over and finding free memory, setting nodes, limiting.
    MemblockGrow.v has adding, removing and allocating, with arrays that grow. *)

From S2P Require Import Prelude Memblock MemblockList MemblockArray MemblockSpec MemblockFree.

Section theorems.
Context `{cfg : memblock_config}.

(** ** Queries *)

Lemma search_ok ty addr mb :
  type_ok (type_of ty mb) → 0 ≤ addr →
  wp (on ty (memblock_search addr))
     (λ idx mb', mb' = mb ∧ found_at (live (type_of ty mb)) addr idx) mb.
Proof.
  intros Hok Ha. pose proof Hok as [Hcnt [Hmax Hmax'] Hsh Hn Htot].
  destruct (type_ok_holds _ Hok) as [Hh Hlen]. apply wp_on.
  destruct (shape_cases _ Hsh) as [[n El]|(Hne & Hs & _)].
  - rewrite El in *. unfold memblock_search. apply wp_bind. eapply wp_get_cnt; [done|].
    simpl. apply wp_bind. eapply (wp_region_mid _ [] (Region 0 0 n) []); [done|].
    change (r_end (Region 0 0 n)) with 0. simpl.
    destruct (Z.ltb_spec addr 0); [lia|]. destruct (Z.leb_spec 0 addr); [|lia].
    apply wp_ret. rewrite set_type_of. split; [done|]. right. split; [done|].
    apply dummy_owner. by exists n.
  - eapply wp_mono; [eapply wp_search; (done || lia)|]. intros idx t [-> Hf].
    by rewrite set_type_of.
Qed.

Lemma is_in_ok ty addr mb :
  type_ok (type_of ty mb) → 0 ≤ addr →
  wp (idx ← on ty (memblock_search addr); mret (negb (idx =? -1)))
     (λ b mb', mb' = mb ∧ (b = true ↔ is_Some (owns ty mb addr))) mb.
Proof.
  intros Hok Ha. apply wp_bind. eapply wp_mono; [by apply search_ok|].
  intros idx mb' [-> Hf]. apply wp_ret. split; [done|].
  destruct Hf as [(r & Hr & Hc)|[-> Hn]].
  - pose proof (rd_Some _ _ _ Hr). rewrite (proj2 (Z.eqb_neq idx (-1))) by lia. simpl.
    split; [|done]. intros _. exists (r_nid r). apply (shape_owner _ _ _ (ok_shape _ Hok)).
    eauto.
  - simpl. rewrite Hn. split; [done|by intros []].
Qed.

Lemma is_region_memory_ok base size mb :
  type_ok (memory mb) → is_u64 base → is_u64 size →
  wp (memblock_is_region_memory base size)
     (λ b mb', mb' = mb ∧
        (b = true ↔ ∃ r, r ∈ live (memory mb) ∧ r_base r ≤ base < rend r ∧
                         range_end base size ≤ rend r)) mb.
Proof.
  intros Hok Hb Hsz. unfold memblock_is_region_memory. apply wp_bind.
  eapply wp_mono; [by apply (search_ok Memory); [|lia]|]. simpl.
  intros idx mb' [-> Hf]. destruct (range_end_u64 base size Hb Hsz) as [-> Hre].
  destruct Hf as [(r & Hr & Hc)|[-> Hn]].
  - pose proof (rd_Some _ _ _ Hr). rewrite (proj2 (Z.eqb_neq idx (-1))) by lia.
    pose proof (shape_rd _ _ _ (ok_shape _ Hok) Hr) as (R1 & R2 & R3).
    apply wp_bind, wp_on. eapply wp_region.
    { simpl. rewrite (rd_mem _ Hok) by lia. done. }
    rewrite (set_type_of Memory mb).
    apply wp_ret. split; [done|]. rewrite R3.
    unfold covers in Hc. apply andb_true_iff in Hc as [C1 C2].
    rewrite andb_true_iff, !Z.leb_le. apply Z.leb_le in C1. apply Z.ltb_lt in C2.
    split.
    + intros [_ ?]. exists r. split; [by eapply rd_elem|]. lia.
    + intros (r' & Hr' & H1 & H2). split; [done|].
      apply list_elem_of_lookup in Hr' as [j Hj]. rewrite <- rd_nat in Hj.
      pose proof (shape_order _ _ _ _ _ (ok_shape _ Hok) Hr Hj) as O1.
      pose proof (shape_order _ _ _ _ _ (ok_shape _ Hok) Hj Hr) as O2.
      destruct (Z.lt_trichotomy idx (Z.of_nat j)) as [|[->|]]; [lia| |lia].
      rewrite Hr in Hj. by injection Hj as <-.
  - simpl. apply wp_ret. split; [done|]. split; [done|]. intros (r & Hr & H1 & _).
    rewrite owner_found in Hn. specialize (Hn r Hr). revert Hn. unfold covers. ltbs; done.
Qed.

Lemma is_region_reserved_ok base size mb :
  type_ok (reserved mb) → is_u64 base → is_u64 size → base < range_end base size →
  wp (memblock_is_region_reserved base size)
     (λ b mb', mb' = mb ∧
        (b = true ↔ ∃ a, base ≤ a < range_end base size ∧ is_Some (owns Reserved mb a))) mb.
Proof.
  intros Hok Hb Hsz Hlt. unfold memblock_is_region_reserved.
  pose proof Hok as [Hcnt [Hmax Hmax'] Hsh Hn Htot].
  destruct (type_ok_holds _ Hok) as [Hh Hlen].
  destruct (range_end_u64 base size Hb Hsz) as [_ Hre]. unfold range_end in *.
  set (cs := memblock_cap_size base size) in *. unfold ULLONG_MAX in Hre.
  apply wp_bind, wp_on. simpl.
  destruct (shape_cases _ Hsh) as [[n El]|(Hne & Hs & _)].
  - unfold memblock_overlaps_region. apply wp_bind. rewrite El in *.
    eapply wp_get_cnt; [done|]. simpl. apply wp_bind. eapply wp_get_cnt; [done|]. simpl.
    apply wp_bind. eapply (wp_region_mid _ [] (Region 0 0 n) []); [done|]. simpl.
    unfold memblock_addrs_overlap. change (u64 (0 + 0)) with 0.
    destruct (Z.ltb_spec base 0); [lia|]. simpl.
    apply wp_bind. eapply wp_get_cnt; [done|]. simpl. apply wp_ret, wp_ret.
    rewrite set_reserved. split; [done|]. simpl. split; [done|].
    intros (a & _ & [x Hx]). unfold covers in Hx. simpl in Hx. revert Hx. unfold rend; simpl.
    ltbs; done.
  - unfold memblock_overlaps_region. apply wp_bind. eapply wp_get_cnt; [done|].
    eapply wp_mono.
    { eapply (wp_overlaps_loop _ base cs _ _ (reserved mb) (live (reserved mb))
                ltac:(lia) ltac:(lia) _ 0 []); try done; lia. }
    intros i t [-> Hi]. apply wp_ret.
    rewrite set_reserved. split; [done|]. simpl app in Hi. rewrite Z.leb_le.
    destruct Hi as [(Hi & r & Hr & Hm)|(-> & Hall)].
    + split; [|done]. intros _. pose proof (shape_rd _ _ _ Hsh Hr) as (R1 & R2 & _).
      unfold meets in Hm. apply andb_true_iff in Hm as [M1%Z.ltb_lt M2%Z.ltb_lt].
      pose proof (sorted_pos _ _ _ Hs (rd_elem _ _ _ Hr)).
      exists (Z.max base (r_base r)). split; [lia|]. exists (r_nid r).
      apply (shape_owner _ _ _ Hsh). exists i, r. split; [done|]. split; [|done].
      unfold covers, rend in *. by ltbs.
    + split; [lia|]. intros (a & Ha & [x Hx]).
      apply (shape_owner _ _ _ Hsh) in Hx as (j & r & Hr & Hc & _).
      rewrite Forall_forall in Hall. specialize (Hall r (rd_elem _ _ _ Hr)).
      revert Hall Hc. unfold meets, covers. ltbs; done.
Qed.

(** ** Finding and allocating *)

(** [c] is a suitable address: [c, c + size) lies in [lo, hi), is aligned, and
    inside one memory region of a node asked for no byte of it is reserved. *)
Definition fits (mb : memblock) (lo hi size align nid c : Z) : Prop :=
  lo ≤ c ∧ c + size ≤ hi ∧ c `mod` align = 0 ∧
  (∃ r, r ∈ live (memory mb) ∧ (nid = MAX_NUMNODES ∨ nid = r_nid r) ∧
        r_base r ≤ c ∧ c + size ≤ rend r) ∧
  ∀ a, c ≤ a < c + size → owns Reserved mb a = None.

(** The highest suitable address, or 0. *)
Definition highest (mb : memblock) (lo hi size align nid c : Z) : Prop :=
  (c = 0 ∧ ∀ c', ¬ fits mb lo hi size align nid c') ∨
  (c ≠ 0 ∧ fits mb lo hi size align nid c ∧ ∀ c', fits mb lo hi size align nid c' → c' ≤ c).

Lemma area_fits mb lo hi size k nid c :
  type_ok (memory mb) → type_ok (reserved mb) → 0 < size →
  fits mb lo hi size (2 ^ k) nid c ↔ ∃ mi ri, area mb lo hi size k nid c mi ri.
Proof.
  intros Hm Hr Hsz. pose proof (ok_shape _ Hm) as Sm. pose proof (ok_shape _ Hr) as Sr.
  unfold fits, area, in_pair. split.
  - intros (H1 & H2 & H3 & (r & Hin & Hn & Hb & He) & Hfree).
    pose proof Hin as Hin'. apply list_elem_of_lookup in Hin' as [j Hj]. rewrite <- rd_nat in Hj.
    pose proof (shape_rd _ _ _ Sm Hj) as (R1 & R2 & _).
    pose proof (Hfree c ltac:(lia)) as Hc. simpl in Hc.
    apply (gap_owner _ _ Sr) in Hc as (ri & Hri & Hg); [|lia].
    exists (Z.of_nat j), ri. repeat split; try done. intros a Ha. exists r. split; [done|].
    split. { unfold node_match. rewrite (node_get mb Hm) by done. apply orb_true_iff. by rewrite !Z.eqb_eq. }
    split; [done|]. split; [lia|]. split; [lia|].
    destruct (decide (a < gap_hi (live (reserved mb)) ri)) as [|Hge]; [done|]. exfalso.
    unfold gap_hi in Hg, Hge. destruct (rd (live (reserved mb)) ri) as [r'|] eqn:Er; [|lia].
    assert (Hown : owner (live (reserved mb)) (r_base r') = Some (r_nid r')).
    { apply (shape_owner _ _ _ Sr). exists ri, r'. split; [done|]. split; [|done].
      pose proof (shape_rd _ _ _ Sr Er). destruct Sr as [[n El]|(_ & Hs & _)].
      - rewrite El in Er. apply rd_elem, list_elem_of_singleton in Er as ->. simpl in *. lia.
      - pose proof (sorted_pos _ _ _ Hs (rd_elem _ _ _ Er)). unfold covers, rend. by ltbs. }
    specialize (Hfree (r_base r') ltac:(lia)). simpl in Hfree. congruence.
  - intros (mi & ri & H1 & H2 & H3 & Hp). repeat split; try done.
    + destruct (Hp c ltac:(lia)) as (m & E & Hn & _ & Ha & _).
      destruct (Hp (c + size - 1) ltac:(lia)) as (m' & E' & _ & _ & Ha' & _).
      rewrite E in E'. injection E' as <-. exists m. pose proof (rd_elem _ _ _ E).
      split; [done|]. unfold node_match in Hn. rewrite (node_get mb Hm) in Hn by done.
      apply orb_true_iff in Hn. rewrite !Z.eqb_eq in Hn. split; [done|]. lia.
    + intros a Ha. destruct (Hp a Ha) as (m & E & _ & Hri & Ha' & Hg).
      pose proof (shape_rd _ _ _ Sm E). apply (gap_owner _ _ Sr); [lia|]. eauto.
Qed.

(** The bounds memblock_find_in_range_node searches. *)
Definition find_lo (start : Z) : Z := Z.max start PAGE_SIZE.
Definition find_hi (mb : memblock) (start end_ : Z) : Z :=
  Z.max (find_lo start) (if end_ =? MEMBLOCK_ALLOC_ACCESSIBLE then current_limit mb else end_).

Lemma find_ok start end_ size k nid mb :
  type_ok (memory mb) → type_ok (reserved mb) →
  is_u64 start → is_u64 end_ → is_u64 (current_limit mb) → 0 < size → 0 ≤ k < 64 →
  wp (memblock_find_in_range_node start end_ size (2 ^ k) nid)
     (λ c mb', mb' = mb ∧
        highest mb (find_lo start) (find_hi mb start end_) size (2 ^ k) nid c) mb.
Proof.
  intros Hm Hr Hs He Hl Hsz Hk. unfold wp, memblock_find_in_range_node.
  fold (find_lo start). fold (find_hi mb start end_).
  assert (Hlo : 0 < find_lo start ≤ find_hi mb start end_)
    by (unfold find_hi, find_lo, PAGE_SIZE; lia).
  assert (Hhi : find_hi mb start end_ ≤ ULLONG_MAX)
    by (unfold find_hi, find_lo, PAGE_SIZE, ULLONG_MAX; destruct (_ =? _); lia).
  pose proof (lens mb Hm Hr) as [L1 L2].
  destruct (find_loop_ok mb Hm Hr (find_lo start) (find_hi mb start end_) size k nid
              Hlo Hhi Hsz Hk (scan_fuel (memory mb) (reserved mb)) ULLONG_MAX
              (zlen (live (memory mb)) - 1) (zlen (live (reserved mb)))) as (c & -> & Hb).
  - by left.
  - unfold scan_fuel. rewrite (cnt_mem _ Hm), (cnt_rsv _ Hr). lia.
  - simpl. split; [done|].
    assert (Hbelow : ∀ c' mi ri, area mb (find_lo start) (find_hi mb start end_) size k nid c' mi ri →
      mi ≤ zlen (live (memory mb)) - 1 ∧ ri ≤ zlen (live (reserved mb))).
    { intros c' mi ri (_ & _ & _ & Hp). destruct (Hp c' ltac:(lia)) as (m & E & _ & ? & _).
      apply rd_Some in E. lia. }
    destruct Hb as [[-> Hno]|(Hc & Hex & Hmax)]; [left|right].
    + split; [done|]. intros c' Hf. apply area_fits in Hf as (mi & ri & Ha); try done.
      destruct (Hbelow _ _ _ Ha). by eapply (Hno c' mi ri).
    + split; [done|]. split; [by apply area_fits|].
      intros c' Hf. apply area_fits in Hf as (mi & ri & Ha); try done.
      destruct (Hbelow _ _ _ Ha). by eapply (Hmax c' mi ri).
Qed.

Lemma updated_ext ty mb mb' f g :
  (∀ a, f a = g a) → updated ty mb mb' f → updated ty mb mb' g.
Proof. intros E (t & ? & ? & ? & ? & H). exists t. split_and!; try done. intros a. by rewrite H. Qed.

(** The size memblock_alloc_base_nid really allocates. *)
Lemma round_up_facts size k : 0 < size → 0 ≤ k < 64 → size + 2 ^ k ≤ 2 ^ 64 →
  size ≤ round_up size (2 ^ k) < size + 2 ^ k ∧ round_up size (2 ^ k) `mod` 2 ^ k = 0 ∧
  is_u64 (round_up size (2 ^ k)).
Proof.
  intros Hs Hk Hb. pose proof (pow2_le k Hk). rewrite round_up_spec by done.
  pose proof (Z.mod_pos_bound (size - 1) (2 ^ k) ltac:(lia)).
  split; [lia|]. split; [|lia].
  rewrite <- Z.add_mod_idemp_r, Z.mod_same, Z.add_0_r by lia.
  by rewrite Zminus_mod_idemp_r, Z.sub_diag.
Qed.

(** ** Truncation at a limit *)

Lemma clip_sum_below lo l m : sorted_from lo l → m ≤ lo → sum_sizes (clip_list 0 m l) = 0.
Proof. intros Hs Hm. by rewrite (clip_list_above 0 m lo l). Qed.

Lemma limit_addr_ok tot max h t l : ∀ lo l1 limit,
  0 ≤ lo ≤ ULLONG_MAX → sorted_from lo l → holds tot (l1 ++ l) max h t → 0 < limit →
  wp (limit_addr (length l) (zlen l1) limit)
     (λ m t', t' = t ∧ lo ≤ m ≤ ULLONG_MAX ∧ sum_sizes (clip_list 0 m l) = Z.min limit (sum_sizes l)) t.
Proof.
  induction l as [|r l IH]; intros lo l1 limit Hlo Hs Hh Hl; cbn [limit_addr length].
  - apply wp_ret. split; [done|]. simpl. lia.
  - apply wp_bind. eapply wp_region_mid; [done|]. destruct Hs as (S1 & S2 & S3 & S4).
    pose proof (sum_bounds _ _ S3 S4).
    destruct (Z.leb_spec limit (r_size r)).
    + apply wp_ret. rewrite u64_small by (unfold rend, ULLONG_MAX in *; lia).
      split; [done|]. split; [unfold rend in *; lia|]. rewrite clip_list_cons.
      rewrite (clip_list_above 0 _ (rend r) l) by (done || (unfold rend; lia)).
      unfold clip, rend in *. ltbs.
    + replace (zlen l1 + 1) with (zlen (l1 ++ [r])) by (rewrite length_app; simpl; lia).
      eapply wp_mono.
      { eapply (IH (rend r)); [unfold rend in *; lia|done|rewrite <- app_assoc; done|lia]. }
      intros m t' (-> & Hm & Hsum). split; [done|]. split; [unfold rend in *; lia|].
      rewrite clip_list_cons, (clip_all 0 m) by lia. simpl. rewrite Hsum. lia.
Qed.

(** The total of an array is the number of addresses it owns. *)
Lemma shape_sum l n : shape l → ULLONG_MAX ≤ Z.of_nat n →
  sum_sizes l = count (λ a, bool_decide (is_Some (owner l a))) 0 n.
Proof.
  intros [Hd|(_ & Hs & _)] Hn.
  - rewrite (proj2 (count_zero _ _ _)).
    + by destruct Hd as [? ->].
    + intros i _. apply bool_decide_eq_false. rewrite (dummy_owner _ i Hd). by intros [].
  - apply sum_counts; [done|done|]. intros r Hr. destruct (sorted_ends _ _ _ Hs Hr). lia.
Qed.

Lemma total_eq t l : type_ok t → sorted_from 0 l → (∀ a, owner (live t) a = owner l a) →
  t_total_size t = sum_sizes l.
Proof.
  intros Hok Hl E. rewrite (ok_total _ Hok).
  rewrite (shape_sum (live t) (Z.to_nat ULLONG_MAX) (ok_shape _ Hok)) by (unfold ULLONG_MAX; lia).
  rewrite (sum_counts 0 l (Z.to_nat ULLONG_MAX) ltac:(done) Hl).
  2:{ intros r Hr. destruct (sorted_ends _ _ _ Hl Hr). unfold ULLONG_MAX in *. lia. }
  apply count_ext. intros i _. by rewrite E.
Qed.

Lemma limit_ok limit mb :
  type_ok (memory mb) → type_ok (reserved mb) → 0 < limit →
  t_cnt (memory mb) + 2 ≤ t_max (memory mb) → t_cnt (reserved mb) + 2 ≤ t_max (reserved mb) →
  wp (memblock_enforce_memory_limit limit)
     (λ _ mb', type_ok (memory mb') ∧ type_ok (reserved mb') ∧
        t_total_size (memory mb') = Z.min limit (t_total_size (memory mb)) ∧
        ∃ m, 0 ≤ m ∧ ∀ ty a, owns ty mb' a = if a <? m then owns ty mb a else None) mb.
Proof.
  intros Hm Hr Hl Rm Rr. unfold memblock_enforce_memory_limit.
  rewrite (proj2 (Z.eqb_neq limit 0)) by lia.
  pose proof (ok_shape _ Hm) as Sm. pose proof (ok_shape _ Hr) as Sr.
  destruct (type_ok_holds _ Hm) as [Hh Hlen].
  apply wp_bind, wp_gets. rewrite <- Hlen, Nat2Z.id. apply wp_bind, wp_on. simpl.
  set (l := live (memory mb)) in *.
  assert (Haddr : wp (limit_addr (length l) 0 limit) (λ m t', t' = memory mb ∧ 0 ≤ m ≤ ULLONG_MAX ∧
      sum_sizes (clip_list 0 m l) = Z.min limit (sum_sizes l)) (memory mb)).
  { destruct (shape_cases l Sm) as [[n El]|(Hne & Hs & _)].
    - rewrite El in *. simpl. apply wp_bind.
      eapply (wp_region_mid _ [] (Region 0 0 n) []); [done|]. simpl.
      destruct (Z.leb_spec limit 0); [lia|]. apply wp_ret. split; [done|].
      split; [unfold ULLONG_MAX; lia|]. simpl. lia.
    - by apply (limit_addr_ok (sum_sizes l) (t_max (memory mb)) (t_home (memory mb)) _ l 0 []). }
  eapply wp_mono; [exact Haddr|]. intros m t (-> & Hmm & Hsum).
  rewrite set_memory.
  assert (Hcut : ∀ t a, type_ok t →
    (if (m <=? a) && (a <? range_end m ULLONG_MAX) then None else owner (live t) a)
    = if a <? m then owner (live t) a else None).
  { intros t a Ht. unfold range_end, memblock_cap_size. rewrite Z.min_r by lia.
    destruct (decide (a < ULLONG_MAX)); [ltbs; done|].
    assert (owner (live t) a = None) as ->; [|ltbs; done].
    destruct (shape_cases _ (ok_shape _ Ht)) as [Hd|(_ & Hs & _)]; [by apply dummy_owner|].
    apply owner_high; [done|lia]. }
  apply wp_bind. eapply wp_mono.
  { apply (remove_ok Memory); try done; unfold ULLONG_MAX in *; lia. }
  intros ret mb1 [-> (t1 & -> & O1 & C1 & _ & W1)].
  apply wp_bind. eapply wp_mono.
  { apply (remove_ok Reserved); try done; unfold ULLONG_MAX in *; lia. }
  intros ret mb2 [-> (t2 & -> & O2 & C2 & _ & W2)].
  apply wp_ret. simpl in W1, W2. setoid_rewrite (Hcut _ _ Hm) in W1.
  change (reserved (set_type Memory t1 mb)) with (reserved mb) in W2.
  setoid_rewrite (Hcut _ _ Hr) in W2.
  change (memory (set_type Reserved t2 (set_type Memory t1 mb))) with t1.
  change (reserved (set_type Reserved t2 (set_type Memory t1 mb))) with t2.
  split; [done|]. split; [done|]. split.
  - rewrite (ok_total _ Hm). fold l. rewrite <- Hsum.
    destruct (shape_cases l Sm) as [Hd|(_ & Hs & _)].
    + rewrite (total_eq t1 [] O1); [|done|].
      { destruct Hd as [n E]. rewrite E, clip_list_cons, clip_none; [done|by left]. }
      intros a. rewrite W1, (dummy_owner _ _ Hd). ltbs; done.
    + apply total_eq; [done|apply (clip_list_sorted 0 m 0 l Hs)|]. intros a.
      rewrite W1, (clip_list_owner 0 m 0 l) by done. fold l.
      destruct (decide (a < 0)); [rewrite (owner_below 0 l a) by (done || lia)|]; ltbs; done.
  - exists m. split; [lia|]. intros [] a; simpl; [apply W1|apply W2].
Qed.

(** ** memblock_set_node *)

Definition with_nid (nid : Z) (r : memblock_region) : memblock_region :=
  memblock_set_region_node r nid.

Lemma wp_set_nodes nid mid : ∀ lo hi tot max h t (Q : unit → memblock_type → Prop),
  holds tot (lo ++ mid ++ hi) max h t →
  (∀ t', holds tot (lo ++ map (with_nid nid) mid ++ hi) max h t' → Q tt t') →
  wp (for_up (length mid) (zlen lo)
        (λ i, r ← region i; set_region i (memblock_set_region_node r nid))) Q t.
Proof.
  induction mid as [|r mid IH]; intros lo hi tot max h t Q Hh HQ; cbn [for_up length].
  - by apply wp_ret, HQ.
  - apply wp_bind, wp_bind. eapply wp_region_mid; [done|].
    eapply wp_set_region_mid; [done|]. intros t1 Hh1.
    replace (zlen lo + 1) with (zlen (lo ++ [with_nid nid r])) by (rewrite length_app; simpl; lia).
    eapply (IH (lo ++ [with_nid nid r]) hi); [rewrite <- app_assoc; exact Hh1|].
    intros t2 Hh2. apply HQ. rewrite <- app_assoc in Hh2. exact Hh2.
Qed.

Lemma map_nid_sorted nid lo l : sorted_from lo l → sorted_from lo (map (with_nid nid) l).
Proof.
  revert lo. induction l as [|r l IH]; intros lo; simpl; [done|].
  intros (? & ? & ? & ?%IH). repeat split; done.
Qed.

Lemma map_nid_sum nid l : sum_sizes (map (with_nid nid) l) = sum_sizes l.
Proof. induction l as [|r l IH]; simpl; lia. Qed.

Lemma map_nid_owner nid l a :
  owner (map (with_nid nid) l) a = match owner l a with Some _ => Some (node nid) | None => None end.
Proof.
  induction l as [|r l IH]; simpl; [done|].
  change (covers (with_nid nid r) a) with (covers r a). by destruct (covers r a).
Qed.

(** Merging changes nothing where nothing can be merged. *)
Lemma merge_minimal l : minimal l → merge l = l.
Proof.
  destruct l as [|r l]; [done|]. simpl. revert r.
  induction l as [|r2 l IH]; intros r Hmin; [done|]. simpl.
  destruct Hmin as [Hm1 Hm2]. destruct (_ && _) eqn:E.
  - apply andb_true_iff in E as [E1%Z.eqb_eq E2%Z.eqb_eq]. by destruct Hm1.
  - f_equal. by apply IH.
Qed.

Lemma wp_merge_noop t : type_ok t →
  wp memblock_merge_regions (λ _ t', holds (sum_sizes (live t)) (live t) (t_max t) (t_home t) t') t.
Proof.
  intros Hok. destruct (type_ok_holds _ Hok) as [Hh _]. pose proof Hok as [_ _ Hsh Hn _].
  destruct (shape_cases _ Hsh) as [[n El]|(Hne & Hs & Hmin & _)].
  - rewrite El in *. unfold memblock_merge_regions. apply wp_bind. eapply wp_get_cnt; [done|]. simpl.
    apply wp_bind. eapply wp_get_cnt; [done|]. simpl. by apply wp_ret.
  - eapply (wp_merge _ 0); try done. intros t' Ht'. by rewrite (merge_minimal _ Hmin) in Ht'.
Qed.

(** The regions with the node of a range changed, before they are merged. *)
Definition recolored (base e nid : Z) (l : list memblock_region) : list memblock_region :=
  clip_list 0 base l ++ map (with_nid nid) (clip_list base e l) ++ clip_list e ULLONG_MAX l.

Lemma recolored_ok base e nid l : 0 ≤ base ≤ e → e ≤ ULLONG_MAX → l ≠ [] → sorted_from 0 l → nodes_ok l →
  let l' := recolored base e nid l in
  sorted_from 0 l' ∧ sum_sizes l' = sum_sizes l ∧ l' ≠ [] ∧ nodes_ok l' ∧
  ∀ a, owner l' a = match owner l a with
                    | Some n => Some (if (base <=? a) && (a <? e) then node nid else n)
                    | None => None
                    end.
Proof.
  intros Hb He Hne Hs Hn l'. unfold l', recolored.
  assert (Hsum : sum_sizes l' = sum_sizes l).
  { unfold l', recolored. rewrite !sum_app, map_nid_sum, <- !sum_app. apply split_sum; (done || lia). }
  split_and!; [|exact Hsum| | |].
  - eapply (sorted_join 0 base); [apply (clip_list_sorted 0 base 0 l Hs)|by intros r; apply clip_bound| |lia].
    eapply (sorted_join base e).
    + apply map_nid_sorted. eapply sorted_weaken; [|apply (clip_list_sorted base e 0 l Hs)]. lia.
    + intros r Hr. apply list_elem_of_fmap in Hr as (r' & -> & Hr'). apply clip_bound in Hr'. done.
    + eapply sorted_weaken; [|apply (clip_list_sorted e ULLONG_MAX 0 l Hs)]. lia.
    + lia.
  - intros E0. unfold l', recolored in Hsum. rewrite E0 in Hsum. simpl in Hsum. destruct l as [|r l0]; [done|].
    destruct Hs as (_ & S2 & S3 & S4). pose proof (sum_bounds _ _ S3 S4). simpl in Hsum. lia.
  - unfold nodes_ok. rewrite !Forall_app, Forall_map.
    split; [by apply clip_list_nodes|]. split; [|by apply clip_list_nodes].
    apply Forall_true. intros r. apply node_idem.
  - intros a. rewrite !owner_app, map_nid_owner, !(clip_list_owner _ _ 0) by done.
    destruct (decide (a < 0)); [rewrite (owner_below 0 l a) by (done || lia); ltbs; done|].
    destruct (decide (ULLONG_MAX ≤ a)); [rewrite (owner_high l a) by done; ltbs; done|].
    destruct (owner l a); ltbs; done.
Qed.

Lemma set_node_ok base size nid mb :
  type_ok (memory mb) → is_u64 base → is_u64 size →
  t_cnt (memory mb) + 2 ≤ t_max (memory mb) ∨ memblock_can_resize mb = false →
  wp (memblock_set_node base size nid)
     (λ ret mb',
        (ret = 0 ∧ updated Memory mb mb'
           (λ a, match owns Memory mb a with
                 | Some n => Some (if (base <=? a) && (a <? range_end base size) then node nid else n)
                 | None => None
                 end)) ∨
        (ret = - mb_ENOMEM ∧ mb' = mb ∧ memblock_can_resize mb = false ∧
         t_max (memory mb) < t_cnt (memory mb) + 2)) mb.
Proof.
  intros Hok Hb Hsz Hroom. unfold memblock_set_node.
  destruct (range_end_u64 base size Hb Hsz) as [_ Hre].
  apply wp_bind. eapply wp_mono; [by apply (isolate_range_ok Memory)|]. simpl.
  intros [ret [s f]] mb' Hpost. set (e := range_end base size) in *.
  set (l := live (memory mb)) in *.
  pose proof Hok as [Hcnt [Hmax Hmax'] Hsh Hn Htot]. fold l in Hsh, Hn, Htot.
  destruct (type_ok_holds _ Hok) as [Hh0 Hlen]. fold l in Hh0, Hlen.
  destruct Hpost as [(-> & -> & ? & ?)|[(-> & Hd & -> & ->)|(-> & Hlt & Hnd & E & t & -> & Hh)]].
  - apply wp_ret. by right.
  - simpl. apply wp_bind, wp_on. rewrite Z.sub_diag. simpl. apply wp_ret.
    rewrite set_memory. apply wp_bind, wp_on. simpl.
    eapply wp_mono; [by apply wp_merge_noop|]. intros [] t' Ht'. apply wp_ret. left. split; [done|].
    fold l in Ht'. apply holds_type_ok in Ht' as (O & L & M & HP); [|by destruct l; [simpl in Hlen; lia|]|done..].
    exists t'. repeat split; try done; try apply O. intros a. rewrite L. simpl. fold l.
    destruct Hd as [Hd|Hd]; [by rewrite (dummy_owner _ a Hd)|].
    destruct (owner l a); [|done]. ltbs; done.
  - simpl. destruct (shape_cases l Hsh) as [Hd|(Hne & Hs & Hmin & _)]; [done|].
    pose proof (isolated_range (clip_list 0 base l) (clip_list base e l)) as Hi.
    assert (Hs0 : clip_list base e l ≠ [] → s = zlen (clip_list 0 base l)).
    { intros Hc. destruct (clip_list base e l); [done|]. simpl in E. by injection E as -> _. }
    rewrite <- E in Hi. destruct Hi as [Hi1 _].
    destruct (recolored_ok base e nid l) as (Hs' & Hsum & Hne' & Hn' & Hown); try (done || lia).
    set (l' := recolored base e nid l) in *.
    apply wp_bind, wp_on. rewrite type_of_set, Hi1.
    assert (Hset : wp (for_up (length (clip_list base e l)) s
        (λ i, r ← region i; set_region i (memblock_set_region_node r nid)))
        (λ _ t', holds (sum_sizes l) l' (t_max (memory mb)) (t_home (memory mb)) t') t).
    { destruct (decide (clip_list base e l = [])) as [Em|Em].
      - rewrite Em. apply wp_ret. unfold l', recolored. unfold split_at in Hh. rewrite Em in *. exact Hh.
      - rewrite (Hs0 Em). eapply wp_set_nodes; [exact Hh|]. done. }
    eapply wp_mono; [exact Hset|]. intros [] t1 Ht1. rewrite set_set_type.
    apply wp_bind, wp_on. rewrite type_of_set. eapply (wp_merge _ 0); try done.
    intros t2 Ht2. apply wp_ret. left. split; [done|]. rewrite set_set_type.
    destruct (merge_ok l' Hne' Hs' Hn') as (M1 & M2 & M3 & M4 & M5).
    rewrite <- Hsum, <- M4 in Ht2. apply holds_type_ok in Ht2 as (O & L & M & HP); [|done..].
    exists t2. repeat split; try done; try apply O. intros a. rewrite L, M5.
    apply Hown.
Qed.

(** ** The properties *)

(** Memblock_set_node changes the node of exactly the owned addresses of the
    range (splitting and re-merging regions as needed), without growth of the
    array. *)
Lemma memblock_set_node_refines base size nid mb :
  type_ok (memory mb) → is_u64 base → is_u64 size →
  t_cnt (memory mb) + 2 ≤ t_max (memory mb) ∨ memblock_can_resize mb = false →
  ∃ ret mb', memblock_set_node base size nid mb = Some (ret, mb') ∧
    ((ret = 0 ∧ updated Memory mb mb'
        (λ a, match owns Memory mb a with
              | Some n => Some (if (base <=? a) && (a <? range_end base size) then node nid else n)
              | None => None
              end)) ∨
     (ret = - mb_ENOMEM ∧ mb' = mb ∧ memblock_can_resize mb = false ∧
      t_max (memory mb) < t_cnt (memory mb) + 2)).
Proof. intros. apply wp_elim. by apply set_node_ok. Qed.

(** The queries agree with the owner maps: memblock_is_memory and
    memblock_is_reserved (a binary search) say whether the address has an owner;
    memblock_is_region_memory says whether one memory region holds the whole
    range; memblock_is_region_reserved says whether some address of a non-empty
    range is reserved.  None of them changes the state. *)
Lemma memblock_queries_correct base size mb :
  type_ok (memory mb) → type_ok (reserved mb) → is_u64 base → is_u64 size →
  (∃ b, memblock_is_memory base mb = Some (b, mb) ∧
        (b = true ↔ is_Some (owns Memory mb base))) ∧
  (∃ b, memblock_is_reserved base mb = Some (b, mb) ∧
        (b = true ↔ is_Some (owns Reserved mb base))) ∧
  (∃ b, memblock_is_region_memory base size mb = Some (b, mb) ∧
        (b = true ↔ ∃ r, r ∈ live (memory mb) ∧ r_base r ≤ base < rend r ∧
                         range_end base size ≤ rend r)) ∧
  (base < range_end base size →
   ∃ b, memblock_is_region_reserved base size mb = Some (b, mb) ∧
        (b = true ↔ ∃ a, base ≤ a < range_end base size ∧ is_Some (owns Reserved mb a))).
Proof.
  intros Hm Hr Hb Hs.
  assert (Hex : ∀ (m : prog memblock bool) P, wp m (λ b mb', mb' = mb ∧ P b) mb →
    ∃ b, m mb = Some (b, mb) ∧ P b).
  { intros m P (b & mb' & E & -> & HP)%wp_elim. eauto. }
  split; [|split; [|split]].
  - apply Hex, (is_in_ok Memory); (done || lia).
  - apply Hex, (is_in_ok Reserved); (done || lia).
  - by apply Hex, is_region_memory_ok.
  - intros Hlt. by apply Hex, is_region_reserved_ok.
Qed.

(** For_each_free_mem_range and for_each_free_mem_range_reverse terminate,
    and the ranges they visit cover exactly the free addresses: those owned in
    [memory] (by the node asked for) and not in [reserved]. *)
Lemma free_ranges_exact nid mb :
  type_ok (memory mb) → type_ok (reserved mb) →
  (∃ rs, for_each_free_mem_range nid mb = Some rs ∧ ∀ a, in_ranges rs a ↔ is_free mb nid a) ∧
  (∃ rs, for_each_free_mem_range_reverse nid mb = Some rs ∧
         ∀ a, in_ranges rs a ↔ is_free mb nid a).
Proof. intros. by apply for_each_ok. Qed.

(** Memblock_enforce_memory_limit, with two free entries in both arrays, cuts
    them at one address below which exactly min(limit, total) bytes of memory
    lie, and keeps everything below it. *)
Lemma memblock_enforce_memory_limit_correct limit mb :
  type_ok (memory mb) → type_ok (reserved mb) → 0 < limit →
  t_cnt (memory mb) + 2 ≤ t_max (memory mb) → t_cnt (reserved mb) + 2 ≤ t_max (reserved mb) →
  ∃ mb', memblock_enforce_memory_limit limit mb = Some (tt, mb') ∧
    type_ok (memory mb') ∧ type_ok (reserved mb') ∧
    t_total_size (memory mb') = Z.min limit (t_total_size (memory mb)) ∧
    ∃ m, 0 ≤ m ∧ ∀ ty a, owns ty mb' a = if a <? m then owns ty mb a else None.
Proof.
  intros Hm Hr Hl H1 H2.
  destruct (proj1 (wp_elim _ _ _) (limit_ok limit mb Hm Hr Hl H1 H2)) as ([] & mb' & E & H).
  eauto.
Qed.
End theorems.

(** A small machine: two banks of memory, one reservation. *)
Definition demo : memblock :=
  MB 0x100000
    (MType 2 8 0x11000
       ([Region 0x1000 0x10000 0; Region 0x40000 0x1000 0] ++ replicate 6 (Region 0 0 0))
       init_regions)
    (MType 1 8 0x1000 ([Region 0x2000 0x1000 0] ++ replicate 7 (Region 0 0 0)) init_regions)
    false false false.

Lemma demo_memory : type_ok (memory demo).
Proof.
  constructor; [done|done| |repeat constructor|done].
  right. split; [done|]. split; [vm_compute; intuition congruence|].
  vm_compute. intuition congruence.
Qed.
Lemma demo_reserved : type_ok (reserved demo).
Proof.
  constructor; [done|done| |repeat constructor|done].
  right. split; [done|]. split; [vm_compute; intuition congruence|done].
Qed.

(** Two regions off page boundaries. *)
Definition ragged : memblock :=
  MB 0x100000
    (MType 2 8 0x2900 ([Region 0x1400 0x2800 0; Region 0x40100 0x100 0] ++ replicate 6 (Region 0 0 0))
       init_regions)
    (MType 1 8 0 (replicate 8 (Region 0 0 0)) init_regions) false false false.

Lemma ragged_memory : type_ok (memory ragged).
Proof.
  constructor; [done|done| |repeat constructor|done].
  right. split; [done|]. split; [vm_compute; intuition congruence|].
  vm_compute. intuition congruence.
Qed.

(** Two accounting defects.  memblock_trim_memory shrinks regions without
    adjusting total_size, so memblock_phys_mem_size reports bytes that are no
    longer memory; and memblock_mem_size subtracts page frame numbers that
    cross in a region without a whole page, so that it reports a size near
    2^64 for a machine whose memory is far smaller. *)
Lemma memblock_accounting_defects :
  type_ok (memory ragged) ∧
  (∃ mb', memblock_trim_memory 0x1000 ragged = Some (tt, mb') ∧
     ¬ type_ok (memory mb') ∧
     sum_sizes (live (memory mb')) < t_total_size (memory mb')) ∧
  (∃ n, memblock_mem_size (2 ^ 40) (MB 0 (MType 1 8 0x100 (Region 0x40100 0x100 0
            :: replicate 7 (Region 0 0 0)) init_regions) (reserved ragged) false false false)
        = Some (n, MB 0 (MType 1 8 0x100 (Region 0x40100 0x100 0
            :: replicate 7 (Region 0 0 0)) init_regions) (reserved ragged) false false false) ∧
     n = 2 ^ 64 - 0x1000).
Proof.
  split; [apply ragged_memory|]. split.
  - eexists. split; [vm_compute; reflexivity|]. split; [|vm_compute; reflexivity].
    intros [_ _ _ _ H]. vm_compute in H. discriminate.
  - eexists. split; [vm_compute; reflexivity|]. done.
Qed.

(** ** Witnesses *)

Example memblock_set_node_refines_witness :
  ∃ ret mb', memblock_set_node 0x8000 0x1000 3 demo = Some (ret, mb') ∧
    ((ret = 0 ∧ updated Memory demo mb'
        (λ a, match owns Memory demo a with
              | Some n => Some (if (0x8000 <=? a) && (a <? range_end 0x8000 0x1000)
                                then node 3 else n)
              | None => None
              end)) ∨
     (ret = - mb_ENOMEM ∧ mb' = demo ∧ memblock_can_resize demo = false ∧
      t_max (memory demo) < t_cnt (memory demo) + 2)).
Proof. apply (memblock_set_node_refines 0x8000 0x1000 3 demo demo_memory); [done|done|left; done]. Defined.

Example memblock_queries_correct_witness :
  ∃ b, memblock_is_memory 0x5000 demo = Some (b, demo) ∧
       (b = true ↔ is_Some (owns Memory demo 0x5000)).
Proof.
  apply (memblock_queries_correct 0x5000 0x1000 demo demo_memory demo_reserved); done.
Defined.

Example free_ranges_exact_witness :
  ∃ rs, for_each_free_mem_range 1 demo = Some rs ∧ ∀ a, in_ranges rs a ↔ is_free demo 1 a.
Proof. apply (free_ranges_exact 1 demo demo_memory demo_reserved). Defined.

Example memblock_enforce_memory_limit_correct_witness :
  ∃ mb', memblock_enforce_memory_limit 0x8000 demo = Some (tt, mb') ∧
    type_ok (memory mb') ∧ type_ok (reserved mb') ∧
    t_total_size (memory mb') = Z.min 0x8000 (t_total_size (memory demo)) ∧
    ∃ m, 0 ≤ m ∧ ∀ ty a, owns ty mb' a = if a <? m then owns ty demo a else None.
Proof.
  apply (memblock_enforce_memory_limit_correct 0x8000 demo demo_memory demo_reserved); done.
Defined.
