(* ===== verification/MemblockGrow.v ===== *)
(** * MemblockGrow: memblock with arrays that grow

    When an array of regions is full, memblock_add_region and
    memblock_isolate_range call memblock_double_array, which finds free memory
    for an array of twice the length, moves the regions, frees the old array
    and reserves the new one, through the operations that called it.  This file
    says what one such growth leaves ([grow_step]), proves it of
    memblock_double_array and of the loops that repeat it, and proves the
    theorems on adding, removing and allocating with growth included. *)

From S2P Require Import Prelude Memblock MemblockList MemblockArray MemblockSpec MemblockFree MemblockThm.

(** ** Gaps

    The first round of memblock_add_region counts the regions it will insert:
    one for every stretch of the range without owner.  [gap_starts] lists
    where they start. *)

Section gaps.
Context `{cfg : memblock_config}.

Fixpoint gap_starts (l : list memblock_region) (b e : Z) : list Z :=
  match l with
  | [] => if b <? e then [b] else []
  | r :: l =>
      if e <=? r_base r then (if b <? e then [b] else [])
      else if rend r <=? b then gap_starts l b e
      else (if b <? r_base r then [b] else []) ++ gap_starts l (Z.min (rend r) e) e
  end.

Lemma gap_starts_length l b e n : zlen (ins l b e n) - zlen l = zlen (gap_starts l b e).
Proof.
  revert b. induction l as [|r l IH]; intros b; simpl; unfold rest_region.
  - by destruct (b <? e).
  - destruct (e <=? r_base r); [destruct (b <? e); simpl; lia|].
    destruct (rend r <=? b); [specialize (IH b); simpl; lia|].
    specialize (IH (Z.min (rend r) e)). destruct (b <? r_base r); simpl; lia.
Qed.

(** The owners of a sorted array around its first region. *)
Lemma owner_cons lo r l : sorted_from lo (r :: l) →
  (∀ a, a < r_base r → owner (r :: l) a = None) ∧
  (∀ a, r_base r ≤ a < rend r → owner (r :: l) a = Some (r_nid r)) ∧
  (∀ a, rend r ≤ a → owner (r :: l) a = owner l a).
Proof.
  intros (S1 & S2 & S3 & S4). simpl. unfold covers. split_and!; intros a Ha; ltbs; try done.
  all: apply (owner_below _ _ _ S4); unfold rend; lia.
Qed.

Lemma gap_starts_elem lo l b e a : sorted_from lo l →
  a ∈ gap_starts l b e ↔ b ≤ a < e ∧ owner l a = None ∧ (a = b ∨ is_Some (owner l (a - 1))).
Proof.
  revert lo b. induction l as [|r l IH]; intros lo b Hs; cbn [gap_starts].
  - destruct (Z.ltb_spec b e); rewrite ?list_elem_of_singleton, ?elem_of_nil; split; try done.
    + intros ->. split; [lia|]. auto.
    + intros (? & _ & [->|[? [=]]]). done.
    + lia.
  - destruct (owner_cons _ _ _ Hs) as (O1 & O2 & O3). destruct Hs as (S1 & S2 & S3 & S4).
    assert (Hr : r_base r < rend r) by (unfold rend; lia).
    assert (Hone : ∀ hi, hi ≤ r_base r → a < hi → a ∈ (if b <? hi then [b] else []) ↔
      b ≤ a < hi ∧ owner (r :: l) a = None ∧ (a = b ∨ is_Some (owner (r :: l) (a - 1)))).
    { intros hi Hhi Ha. rewrite !O1 by lia.
      destruct (Z.ltb_spec b hi); rewrite ?list_elem_of_singleton, ?elem_of_nil; split; try lia.
      - intros ->. split; [lia|]. auto.
      - intros (? & _ & [->|[? [=]]]). done. }
    destruct (Z.leb_spec e (r_base r)).
    { destruct (decide (a < e)); [by apply Hone|]. split; [|lia].
      destruct (Z.ltb_spec b e); rewrite ?list_elem_of_singleton, ?elem_of_nil; [lia|done]. }
    destruct (Z.leb_spec (rend r) b).
    { rewrite (IH _ b S4). destruct (decide (b ≤ a)); [|intuition lia]. rewrite (O3 a) by lia.
      destruct (decide (a = b)); [naive_solver|]. by rewrite (O3 (a - 1)) by lia. }
    rewrite elem_of_app, (IH _ _ S4). destruct (decide (a < r_base r)) as [Ha|Ha].
    { rewrite (Hone (r_base r)) by lia. split; [|intros HH; left; intuition lia].
      intros [HH|HH]; intuition lia. }
    transitivity (Z.min (rend r) e ≤ a < e ∧ owner l a = None ∧
      (a = Z.min (rend r) e ∨ is_Some (owner l (a - 1)))).
    { split; [|auto]. intros [HH|]; [|done].
      destruct (Z.ltb_spec b (r_base r)); [|by apply elem_of_nil in HH].
      apply list_elem_of_singleton in HH. lia. }
    split.
    + intros (Ha' & H1 & H2). rewrite O3 by lia. split_and!; try (done || lia). right.
      destruct (decide (a = rend r)) as [->|]; [rewrite O2 by lia; eauto|].
      rewrite O3 by lia. destruct H2; [lia|done].
    + intros (Ha' & H1 & H2). destruct (decide (a < rend r)); [by rewrite O2 in H1 by lia|].
      rewrite O3 in H1 by lia. split_and!; try (done || lia).
      destruct (decide (a = rend r)); [left; lia|]. right. destruct H2; [lia|].
      by rewrite O3 in * by lia.
Qed.

Lemma gap_starts_NoDup lo l b e : sorted_from lo l → NoDup (gap_starts l b e).
Proof.
  revert lo b. induction l as [|r l IH]; intros lo b Hs; cbn [gap_starts].
  - destruct (b <? e); repeat constructor. set_solver.
  - destruct Hs as (S1 & S2 & S3 & S4).
    destruct (e <=? r_base r); [destruct (b <? e); repeat constructor; set_solver|].
    destruct (Z.leb_spec (rend r) b); [by eapply IH|].
    destruct (Z.ltb_spec b (r_base r)); [|by eapply IH].
    constructor; [|by eapply IH]. rewrite (gap_starts_elem _ _ _ _ _ S4). unfold rend in *. lia.
Qed.

(** The number of regions memblock_add_region needs depends only on which
    addresses of the range have an owner. *)
Lemma same_gaps lo lo' l l' b e n n' : sorted_from lo l → sorted_from lo' l' →
  (∀ a, b ≤ a < e → owner l' a = owner l a) →
  zlen (ins l' b e n') - zlen l' = zlen (ins l b e n) - zlen l.
Proof.
  intros Hs Hs' Heq. rewrite !gap_starts_length. f_equal. apply Permutation_length.
  apply NoDup_Permutation; [by eapply gap_starts_NoDup..|]. intros a.
  rewrite (gap_starts_elem _ _ _ _ _ Hs), (gap_starts_elem _ _ _ _ _ Hs').
  split; intros (Ha & H1 & H2); split_and!; try lia.
  - by rewrite <- Heq.
  - destruct (decide (a = b)); [by left|]. right. rewrite <- Heq by lia. destruct H2; [done|done].
  - by rewrite Heq.
  - destruct (decide (a = b)); [by left|]. right. rewrite Heq by lia. destruct H2; [done|done].
Qed.

(** One region is enough for a range without owners. *)
Lemma free_gap lo l b e n : sorted_from lo l →
  (∀ a, b ≤ a < e → owner l a = None) → zlen (ins l b e n) ≤ zlen l + 1.
Proof.
  intros Hs Hf. pose proof (gap_starts_length l b e n).
  assert (gap_starts l b e ⊆ [b]) as Hsub.
  { intros a. rewrite (gap_starts_elem _ _ _ _ _ Hs), list_elem_of_singleton.
    intros (Ha & _ & [?|[x Hx]]); [done|]. destruct (decide (a = b)); [done|].
    by rewrite Hf in Hx by lia. }
  pose proof (submseteq_length _ _ (NoDup_submseteq _ _ (gap_starts_NoDup _ _ b e Hs) Hsub)).
  simpl in *. lia.
Qed.

(** How many new regions a range takes: one for each stretch without owner. *)
Definition gaps (l : list memblock_region) (b e : Z) : Z := zlen (gap_starts l b e).
End gaps.

Section growth.
Context `{cfg : memblock_config}.

(** The memory taken by an array of [n] regions outside of the static ones. *)
Definition array_bytes (n : Z) : Z := PAGE_ALIGN (u64 (n * sizeof_region)).

Definition stored_at (t : memblock_type) (a : Z) : bool :=
  match t_home t with
  | init_regions => false
  | array_at p => (p <=? a) && (a <? range_end p (array_bytes (t_max t)))
  end.

(** [c] can take the array [ty] of twice the length: free memory below the
    limit and, for [reserved], outside of the range about to be reserved. *)
Definition suitable (ty : type_name) (b e : Z) (mb : memblock) (c : Z) : Prop :=
  let s := array_bytes (2 * t_max (type_of ty mb)) in
  fits mb PAGE_SIZE (current_limit mb) s PAGE_SIZE MAX_NUMNODES c ∧
  (ty = Reserved → c + s ≤ b ∨ e ≤ c).

Definition stuck (ty : type_name) (b e : Z) (mb : memblock) : Prop :=
  memblock_can_resize mb = false ∨ ∀ c, ¬ suitable ty b e mb c.

Definition same_flags (mb mb' : memblock) : Prop :=
  current_limit mb' = current_limit mb ∧ memblock_can_resize mb' = memblock_can_resize mb ∧
  ∀ ty, in_slab ty mb' = in_slab ty mb.

(** What one successful memblock_double_array does: the array [ty] moves to a
    suitable place [c] and doubles its length, the memory it leaves is free and
    the memory it takes reserved; no other owner changes, nor does a region of
    [memory]. *)
Record grow_step (ty : type_name) (b e : Z) (mb mb' : memblock) : Prop := {
  gs_resize : memblock_can_resize mb = true;
  gs_place : ∃ c, suitable ty b e mb c ∧ t_home (type_of ty mb') = array_at c ∧
    ∀ a, owns Reserved mb' a =
      if (c <=? a) && (a <? c + array_bytes (2 * t_max (type_of ty mb))) then Some (node MAX_NUMNODES)
      else if stored_at (type_of ty mb) a then None else owns Reserved mb a;
  gs_max : t_max (type_of ty mb') = 2 * t_max (type_of ty mb);
  gs_memory : live (memory mb') = live (memory mb);
  gs_other : ∀ ty', ty' ≠ ty → t_max (type_of ty' mb') = t_max (type_of ty' mb) ∧
                               t_home (type_of ty' mb') = t_home (type_of ty' mb);
  gs_cnt : t_cnt (reserved mb') ≤ t_cnt (reserved mb) + 2;
  gs_flags : same_flags mb mb';
  gs_ok : ∀ ty', type_ok (type_of ty' mb')
}.

Lemma array_bytes_pos n : 0 < n → n < 2 ^ 31 → 0 < array_bytes n < 2 ^ 40.
Proof.
  intros H1 H2. unfold array_bytes.
  assert (Hs : 16 ≤ sizeof_region ≤ 24) by (unfold sizeof_region; destruct NODE_MAP; lia).
  assert (Hm : 16 ≤ n * sizeof_region ≤ 24 * n) by nia. rewrite (u64_small (n * _)) by lia.
  set (x := n * sizeof_region) in *.
  change (PAGE_ALIGN x) with (round_down (u64 (x + 4095)) (2 ^ 12)).
  rewrite u64_small, round_down_spec by lia.
  pose proof (Z.mod_pos_bound (x + 4095) (2 ^ 12) ltac:(lia)). lia.
Qed.

Lemma double_bytes n : 0 < n → n < 2 ^ 30 →
  PAGE_ALIGN (u64 (n * sizeof_region) <<64 1) = array_bytes (2 * n).
Proof.
  intros H1 H2. unfold array_bytes. f_equal. rewrite Z.shiftl_mul_pow2 by done.
  assert (Hs : 16 ≤ sizeof_region ≤ 24) by (unfold sizeof_region; destruct NODE_MAP; lia).
  rewrite (u64_small (n * _)) by nia. f_equal. lia.
Qed.

(** The search of memblock_find_in_range from a bound upwards. *)
Lemma fits_from mb lo hi s align nid c : 0 < s → PAGE_SIZE ≤ lo →
  fits mb lo (Z.max lo hi) s align nid c ↔ lo ≤ c ∧ fits mb PAGE_SIZE hi s align nid c.
Proof. intros Hs Hlo. unfold fits. split; intros H; intuition lia. Qed.

Lemma find_page_ok start end_ s mb :
  type_ok (memory mb) → type_ok (reserved mb) → is_u64 start → is_u64 end_ →
  is_u64 (current_limit mb) → (end_ = 0 → current_limit mb = 0) → 0 < s →
  wp (memblock_find_in_range start end_ s PAGE_SIZE)
     (λ c mb', mb' = mb ∧
        let ok c := Z.max start PAGE_SIZE ≤ c ∧ fits mb PAGE_SIZE end_ s PAGE_SIZE MAX_NUMNODES c in
        (c = 0 ∧ ∀ c', ¬ ok c') ∨ (c ≠ 0 ∧ ok c)) mb.
Proof.
  intros Hm Hr H1 H2 H3 H0 Hs. eapply wp_mono; [by apply (find_ok start end_ s 12)|].
  intros c mb' [-> Hh]. split; [done|]. simpl. change (2 ^ 12) with PAGE_SIZE in Hh.
  assert (Hhi : find_hi mb start end_ = Z.max (find_lo start) end_).
  { unfold find_hi, MEMBLOCK_ALLOC_ACCESSIBLE. destruct (Z.eqb_spec end_ 0) as [->|]; [|done].
    by rewrite H0. }
  rewrite Hhi in Hh. unfold highest in Hh.
  setoid_rewrite fits_from in Hh; [|done|unfold find_lo; lia..]. unfold find_lo in Hh.
  destruct Hh as [[-> Hno]|(Hc & Hf & _)]; [left|right]; done.
Qed.

Lemma new_array_addr_ok ty b e mb n :
  slab_is_available = false → type_ok (memory mb) → type_ok (reserved mb) →
  is_u64 (current_limit mb) → 0 ≤ b < e → e ≤ ULLONG_MAX → (ty = Reserved → 0 < b) →
  0 < t_max (type_of ty mb) < 2 ^ 30 →
  wp (new_array_addr ty b (e - b) n (array_bytes (2 * t_max (type_of ty mb))))
     (λ c mb', mb' = mb ∧ ((c = 0 ∧ ∀ c', ¬ suitable ty b e mb c') ∨
                           (c ≠ 0 ∧ suitable ty b e mb c))) mb.
Proof.
  intros Hslab Hm Hr Hl Hb He Hb0 Hmax. unfold new_array_addr. rewrite Hslab.
  pose proof (array_bytes_pos (2 * t_max (type_of ty mb)) ltac:(lia) ltac:(lia)) as Hs.
  unfold suitable. set (s := array_bytes _) in *. unfold ULLONG_MAX in *.
  destruct ty; simpl.
  - change (u64 (0 + 0)) with 0. apply wp_bind, wp_gets. apply wp_bind.
    eapply wp_mono; [apply find_page_ok; (done || lia)|]. intros c mb' [-> Hc].
    rewrite andb_false_r. apply wp_ret. split; [done|]. simpl in Hc.
    destruct Hc as [[-> Hno]|[Hc [? ?]]]; [left|by right]. split; [done|].
    intros c' [Hf _]. apply (Hno c'). split; [|done]. destruct Hf as [? _]. unfold PAGE_SIZE in *. lia.
  - apply wp_bind, wp_gets. apply wp_bind.
    replace (u64 (b + (e - b))) with e by (rewrite u64_small by lia; lia).
    eapply wp_mono; [apply find_page_ok; (done || lia)|]. intros c mb' [-> Hc].
    rewrite (proj2 (Z.eqb_neq (e - b) 0)) by lia. rewrite andb_true_r. simpl in Hc.
    destruct Hc as [[-> Hno]|[Hc [? ?]]].
    2:{ rewrite (proj2 (Z.eqb_neq c 0)) by done. apply wp_ret. split; [done|]. right.
        split; [done|]. split; [done|]. intros _. right. lia. }
    simpl. eapply wp_mono; [apply find_page_ok; try (done || lia)|].
    { specialize (Hb0 eq_refl). lia. }
    intros c mb' [-> Hc]. split; [done|]. simpl in Hc.
    assert (Hcut : ∀ c, fits mb PAGE_SIZE (Z.min b (current_limit mb)) s PAGE_SIZE MAX_NUMNODES c ↔
      c + s ≤ b ∧ fits mb PAGE_SIZE (current_limit mb) s PAGE_SIZE MAX_NUMNODES c).
    { intros c'. unfold fits. split; intros HH; intuition lia. }
    setoid_rewrite Hcut in Hc.
    destruct Hc as [[-> Hno']|[Hc [? [? ?]]]]; [left|right]; (split; [done|]).
    + intros c' [Hf [Hd|Hd]]; [done| |].
      * apply (Hno' c'). split; [|done]. destruct Hf as [? _]. unfold PAGE_SIZE in *. lia.
      * apply (Hno c'). split; [|done]. destruct Hf as [? _]. lia.
    + split; [done|]. by left.
Qed.

(** ** One growth *)

Lemma in_slab_set ty ty' t mb : in_slab ty (set_type ty' t mb) = in_slab ty mb.
Proof. by destruct ty, ty'. Qed.
Lemma set_in_slab_same ty b mb : in_slab ty mb = b → set_in_slab ty b mb = mb.
Proof. intros <-. by destruct ty, mb. Qed.
Lemma flags_set ty t mb : same_flags mb (set_type ty t mb).
Proof. split_and!; [by destruct ty..|]. intros ty'. apply in_slab_set. Qed.
Lemma flags_trans mb mb1 mb2 : same_flags mb mb1 → same_flags mb1 mb2 → same_flags mb mb2.
Proof. intros (A1 & A2 & A3) (B1 & B2 & B3). split_and!; congruence || (intros ty; by rewrite B3). Qed.

Lemma move_live c t : t_cnt t ≤ zlen (t_regions t) → live (move_array c t) = live t.
Proof. intros H. unfold live, move_array. simpl. apply take_app_le. lia. Qed.

Lemma move_ok c t : type_ok t → 2 * t_max t < 2 ^ 30 → type_ok (move_array c t).
Proof.
  intros [H1 [H2 H3] H4 H5 H6] Hm. constructor; rewrite ?move_live by lia; simpl; try done; [lia|].
  rewrite length_app, length_replicate. lia.
Qed.

(** When [ty] can be doubled [n] times. *)
Record can_grow (n : nat) (ty : type_name) (mb : memblock) : Prop := {
  cg_early : slab_is_available = false;
  cg_home : in_slab ty mb = false;
  cg_place : ∀ p, t_home (type_of ty mb) = array_at p → is_u64 p;
  cg_ok : ∀ ty', type_ok (type_of ty' mb);
  cg_limit : is_u64 (current_limit mb);
  cg_max : 2 ≤ t_max (type_of ty mb) ∧ 2 ^ Z.of_nat n * t_max (type_of ty mb) < 2 ^ 30;
  cg_reserved : ty = Memory → t_cnt (reserved mb) + 2 * Z.of_nat n ≤ t_max (reserved mb)
}.

(** memblock_free of the old array. *)
Lemma free_old_ok double (old : memblock_type) mb :
  type_ok (reserved mb) → (∀ p, t_home old = array_at p → is_u64 p) → 0 < t_max old < 2 ^ 30 →
  t_cnt (reserved mb) + 2 ≤ t_max (reserved mb) →
  wp (match t_home old with
      | init_regions => mret 0
      | array_at p => remove_range double Reserved p (PAGE_ALIGN (u64 (t_max old * sizeof_region)))
      end)
     (λ _ mb', updated Reserved mb mb' (λ a, if stored_at old a then None else owns Reserved mb a) ∧
        t_cnt (reserved mb') ≤ t_cnt (reserved mb) + 1) mb.
Proof.
  intros Hr Hp Hm Hroom. unfold stored_at. destruct (t_home old) as [|p].
  - apply wp_ret. split; [|lia]. exists (reserved mb). rewrite set_reserved. done.
  - specialize (Hp p eq_refl). pose proof (array_bytes_pos (t_max old) ltac:(lia) ltac:(lia)).
    eapply wp_mono.
    { apply (remove_range_core double Reserved p (array_bytes (t_max old)) mb (λ mb1, mb1 = mb)
        (λ _, False)); [done|done|lia|done|]. intros _. by apply ensure_room_there. }
    intros ret mb' [(-> & mb1 & -> & H1 & H2)|[_ []]]. done.
Qed.

(** memblock_reserve of the new one. *)
Lemma reserve_new_ok double c s mb :
  type_ok (reserved mb) → 0 ≤ c → 0 < s → c + s ≤ ULLONG_MAX →
  t_cnt (reserved mb) + 1 ≤ t_max (reserved mb) →
  (∀ a, c ≤ a < c + s → owns Reserved mb a = None) →
  wp (add_region double Reserved c s MAX_NUMNODES)
     (λ ret mb', ret = 0 ∧ updated Reserved mb mb'
           (λ a, if (c <=? a) && (a <? c + s) then Some (node MAX_NUMNODES) else owns Reserved mb a) ∧
        t_cnt (reserved mb') ≤ t_cnt (reserved mb) + 1) mb.
Proof.
  intros Hr Hc Hs He Hroom Hfree.
  assert (Hend : range_end c s = c + s) by (unfold range_end, memblock_cap_size; lia).
  assert (Hlen := proj2 (type_ok_holds _ Hr)).
  assert (Hgap : zlen (ins (live (reserved mb)) c (c + s) MAX_NUMNODES) ≤ t_cnt (reserved mb) + 1).
  { rewrite <- Hlen. destruct (shape_cases _ (ok_shape _ Hr)) as [[n El]|(_ & Hso & _)].
    - rewrite El. simpl. unfold rest_region, rend; simpl. ltbs; simpl; lia.
    - by apply (free_gap 0). }
  eapply wp_mono.
  { apply (add_region_core double Reserved c s MAX_NUMNODES mb (λ mb1, mb1 = mb) (λ _, False));
      [done|unfold ULLONG_MAX in *; lia..|done|]. rewrite Hend. intros Hnd _.
    apply ensure_room_there; [simpl; lia|]. split_and!; try done. simpl. lia. }
  rewrite Hend. intros ret mb' [(-> & mb1 & -> & H1 & H2)|[_ []]]. split; [done|]. split; [|simpl in *; lia].
  eapply updated_ext; [|done]. intros a. unfold add_owner.
  destruct ((c <=? a) && (a <? c + s)) eqn:E; [|by destruct (owns Reserved mb a)].
  apply andb_true_iff in E as [E1%Z.leb_le E2%Z.ltb_lt]. by rewrite Hfree by lia.
Qed.

Lemma updated_trans ty mb1 mb2 mb3 f g :
  updated ty mb1 mb2 f → updated ty mb2 mb3 g → updated ty mb1 mb3 g.
Proof.
  intros (t2 & -> & _ & M2 & P2 & _) (t3 & -> & O3 & M3 & P3 & W3). rewrite type_of_set in *.
  exists t3. rewrite set_set_type. split_and!; try done; congruence.
Qed.

(** The state between the move of the array and the update of [reserved]. *)
Lemma moved_facts ty c mb : let mb1 := set_type ty (move_array c (type_of ty mb)) mb in
  (∀ ty', type_ok (type_of ty' mb)) → 2 * t_max (type_of ty mb) < 2 ^ 30 →
  ∀ ty', type_ok (type_of ty' mb1) ∧ live (type_of ty' mb1) = live (type_of ty' mb) ∧
    t_cnt (type_of ty' mb1) = t_cnt (type_of ty' mb) ∧
    (ty' = ty → t_max (type_of ty' mb1) = 2 * t_max (type_of ty mb) ∧
                t_home (type_of ty' mb1) = array_at c) ∧
    (ty' ≠ ty → type_of ty' mb1 = type_of ty' mb).
Proof.
  intros mb1 Hok Hm ty'. pose proof (Hok ty) as [[_ Hc] [Hz _] _ _ _]. unfold mb1.
  destruct (decide (ty' = ty)) as [->|Hne].
  - rewrite type_of_set. split; [by apply move_ok|]. split; [apply move_live; lia|].
    split_and!; try done. intros _. simpl. split; [lia|done].
  - assert (type_of ty' (set_type ty (move_array c (type_of ty mb)) mb) = type_of ty' mb) as ->
      by by destruct ty, ty'. done.
Qed.

Lemma grow_step_intro ty b e c mb mb' f : let mb1 := set_type ty (move_array c (type_of ty mb)) mb in
  (∀ ty', type_ok (type_of ty' mb)) → 2 * t_max (type_of ty mb) < 2 ^ 30 →
  memblock_can_resize mb = true → suitable ty b e mb c → updated Reserved mb1 mb' f →
  (∀ a, f a = if (c <=? a) && (a <? c + array_bytes (2 * t_max (type_of ty mb)))
              then Some (node MAX_NUMNODES)
              else if stored_at (type_of ty mb) a then None else owns Reserved mb a) →
  t_cnt (reserved mb') ≤ t_cnt (reserved mb) + 2 → grow_step ty b e mb mb'.
Proof.
  intros mb1 Hok Hm Hcr Hsuit (t & -> & Ht & Hmax & Hhome & Hown) Hf Hcnt.
  pose proof (moved_facts ty c mb Hok Hm) as Hmv. fold mb1 in Hmv.
  assert (Hof : ∀ ty', t_max (type_of ty' (set_type Reserved t mb1)) = t_max (type_of ty' mb1) ∧
                       t_home (type_of ty' (set_type Reserved t mb1)) = t_home (type_of ty' mb1))
    by (intros []; done).
  destruct (Hmv ty) as (_ & _ & _ & Hty & _). destruct (Hty eq_refl) as [T1 T2].
  constructor; try done.
  - exists c. split; [done|]. split; [by rewrite (proj2 (Hof ty))|]. intros a.
    change (owns Reserved (set_type Reserved t mb1) a) with (owner (live t) a). by rewrite Hown, Hf.
  - by rewrite (proj1 (Hof ty)).
  - by destruct (Hmv Memory) as (_ & E & _).
  - intros ty' Hne. destruct (Hof ty') as [-> ->], (Hmv ty') as (_ & _ & _ & _ & E). by rewrite E.
  - eapply flags_trans; apply flags_set.
  - intros []; [apply (Hmv Memory)|done].
Qed.

Lemma fits_bound mb lo hi s align nid c : type_ok (memory mb) →
  fits mb lo hi s align nid c → 0 ≤ c ∧ c + s ≤ ULLONG_MAX.
Proof.
  intros Hm (_ & _ & _ & (r & Hin & _ & Hb & He) & _).
  apply list_elem_of_lookup in Hin as [j Hj]. rewrite <- rd_nat in Hj.
  pose proof (shape_rd _ _ _ (ok_shape _ Hm) Hj) as (R1 & R2 & _). lia.
Qed.

(** Both together, from the state with the array moved. *)
Lemma swap_storage_ok {B} double (old : memblock_type) c s mb1 (k : prog memblock B) Q :
  type_ok (reserved mb1) → (∀ p, t_home old = array_at p → is_u64 p) → 0 < t_max old < 2 ^ 30 →
  t_cnt (reserved mb1) + 2 ≤ t_max (reserved mb1) → 0 ≤ c → 0 < s → c + s ≤ ULLONG_MAX →
  (∀ a, c ≤ a < c + s → owns Reserved mb1 a = None) →
  (∀ mb3, updated Reserved mb1 mb3
      (λ a, if (c <=? a) && (a <? c + s) then Some (node MAX_NUMNODES)
            else if stored_at old a then None else owns Reserved mb1 a) →
    t_cnt (reserved mb3) ≤ t_cnt (reserved mb1) + 2 → wp k Q mb3) →
  wp (_ ← match t_home old with
          | init_regions => mret 0
          | array_at p => remove_range double Reserved p (PAGE_ALIGN (u64 (t_max old * sizeof_region)))
          end;
      _ ← (ret ← add_region double Reserved c s MAX_NUMNODES; if ret =? 0 then mret tt else wrong);
      k) Q mb1.
Proof.
  intros Hok Hp Hm Hroom Hc Hs He Hfree HQ.
  apply wp_bind. eapply wp_mono; [by apply free_old_ok|].
  intros _ mb2 [Hup2 Hc2]. pose proof Hup2 as (t2 & E2 & Ht2 & M2 & _ & W2).
  assert (Er2 : reserved mb2 = t2) by (rewrite E2; apply (type_of_set Reserved)). simpl in M2.
  apply wp_bind, wp_bind. eapply wp_mono.
  { apply reserve_new_ok; rewrite ?Er2 in *; try done; [lia|].
    intros a Ha. simpl. rewrite Er2, W2. destruct (stored_at old a); [done|]. by apply Hfree. }
  intros ret mb3 (-> & Hup3 & Hc3). simpl. apply wp_ret, HQ; [|lia].
  eapply updated_ext; [|exact (updated_trans _ _ _ _ _ _ Hup2 Hup3)].
  intros a. simpl. rewrite Er2, W2. done.
Qed.

Lemma double_ok depth ty b e mb n :
  can_grow (S n) ty mb → 0 ≤ b < e → e ≤ ULLONG_MAX → (ty = Reserved → 0 < b) →
  wp (memblock_double_array (S depth) ty b (e - b))
     (λ ret mb', (ret = 0 ∧ grow_step ty b e mb mb') ∨
                 (ret = -1 ∧ mb' = mb ∧ stuck ty b e mb)) mb.
Proof.
  intros [Hslab Hin Hp Hok Hl [Hm1 Hm2] Hres] Hb He Hb0.
  rewrite Nat2Z.inj_succ, Z.pow_succ_r in Hm2 by lia.
  assert (Hm3 : 2 * t_max (type_of ty mb) < 2 ^ 30).
  { pose proof (Z.pow_pos_nonneg 2 (Z.of_nat n) ltac:(lia) ltac:(lia)). nia. }
  pose proof (Hok Memory) as Hmem. pose proof (Hok Reserved) as Hrsv. simpl in Hmem, Hrsv.
  cbn [memblock_double_array]. apply wp_bind, wp_gets.
  destruct (memblock_can_resize mb) eqn:Hcr; simpl.
  2:{ apply wp_ret. right. split_and!; try done. by left. }
  apply wp_bind, wp_gets. rewrite double_bytes by lia. apply wp_bind.
  eapply wp_mono; [apply new_array_addr_ok; try (done || lia)|].
  intros c mb' [-> [[-> Hno]|[Hc Hsuit]]].
  { simpl. apply wp_ret. right. split_and!; try done. by right. }
  rewrite (proj2 (Z.eqb_neq c 0)) by done.
  pose proof (array_bytes_pos (2 * t_max (type_of ty mb)) ltac:(lia) ltac:(lia)) as Hs.
  set (s := array_bytes _) in *. set (old := type_of ty mb) in *.
  set (mb1 := set_type ty (move_array c old) mb).
  apply wp_bind, wp_on, wp_modify. fold old mb1. apply wp_bind, wp_gets.
  unfold mb1 at 1. rewrite in_slab_set, Hin. rewrite Hslab.
  destruct (moved_facts ty c mb Hok Hm3 Reserved) as (Hok1 & Hlv1 & Hcnt1 & Hsame & Hoth).
  fold old mb1 in Hok1, Hlv1, Hcnt1, Hsame, Hoth.
  change (type_of Reserved mb1) with (reserved mb1) in *. change (type_of Reserved mb) with (reserved mb) in *.
  pose proof (ok_cnt _ Hrsv) as Hcr2.
  assert (Hroom : t_cnt (reserved mb) + 2 ≤ t_max (reserved mb1)).
  { destruct ty; [rewrite Hoth by done; specialize (Hres eq_refl); lia|].
    destruct (Hsame eq_refl) as [-> _]. unfold old in *. simpl in *. lia. }
  pose proof Hsuit as [Hfit _]. destruct (fits_bound _ _ _ _ _ _ _ Hmem Hfit) as [Hc0 Hce].
  destruct Hfit as (_ & _ & _ & _ & Hfree). simpl in Hfree.
  apply swap_storage_ok; try (done || lia).
  { simpl. by rewrite Hlv1. }
  intros mb3 Hup Hc3. apply wp_bind, wp_modify, wp_ret. left. split; [done|].
  rewrite set_in_slab_same.
  2:{ destruct Hup as (t3 & -> & _). unfold mb1. by rewrite !in_slab_set. }
  apply (grow_step_intro ty b e c mb mb3 _ Hok Hm3 Hcr Hsuit Hup); [|lia].
  intros a. simpl. by rewrite Hlv1.
Qed.

(** ** Growing until there is room *)

Definition grown (ty : type_name) (b e : Z) : memblock → memblock → Prop := rtc (grow_step ty b e).

(** A range to be reserved keeps off address 0 and the array's own memory. *)
Definition clear (ty : type_name) (b e : Z) (mb : memblock) : Prop :=
  ty = Reserved → 0 < b ∧ ∀ a, b ≤ a < e → stored_at (reserved mb) a = false.

Lemma step_can_grow n ty b e mb mb' :
  can_grow (S n) ty mb → grow_step ty b e mb mb' → can_grow n ty mb'.
Proof.
  intros [C1 C2 C3 C4 C5 [C6 C6'] C7] [_ (c & [Hf _] & Hh & _) Hm _ Ho Hc (F1 & _ & F3) Hok].
  rewrite Nat2Z.inj_succ in *. rewrite Z.pow_succ_r in C6' by lia.
  constructor; try done; rewrite ?F1, ?F3, ?Hm; try done.
  - intros p. rewrite Hh. intros [= <-].
    destruct (fits_bound _ _ _ _ _ _ _ (C4 Memory) Hf) as [? ?]. pose proof (ok_cnt _ (C4 ty)) as Hct.
    pose proof (proj2 (ok_max _ (Hok ty))) as Hmx. rewrite Hm in Hmx.
    pose proof (array_bytes_pos (2 * t_max (type_of ty mb)) ltac:(lia) ltac:(lia)).
    unfold ULLONG_MAX in *. lia.
  - lia.
  - intros ->. destruct (Ho Reserved ltac:(done)) as [E _]. simpl in E. specialize (C7 eq_refl). lia.
Qed.

Lemma step_owners ty b e mb mb' : grow_step ty b e mb mb' → clear ty b e mb →
  clear ty b e mb' ∧ ∀ a, b ≤ a < e → owns ty mb' a = owns ty mb a.
Proof.
  intros [_ (c & [_ Hd] & Hh & Hw) Hm Hl _ _ _ _] Hcl. destruct ty.
  - split; [done|]. intros a _. simpl. by rewrite Hl.
  - destruct (Hcl eq_refl) as [Hb0 Hst]. specialize (Hd eq_refl). simpl in Hh, Hm, Hw. split.
    + intros _. split; [done|]. intros a Ha. unfold stored_at. rewrite Hh, Hm.
      unfold range_end, memblock_cap_size. simpl in Hd. ltbs; done.
    + intros a Ha. simpl. rewrite Hw, (Hst a Ha). simpl in Hd. ltbs; done.
Qed.

Lemma step_not_dummy ty b e mb mb' : grow_step ty b e mb mb' → (∀ ty', type_ok (type_of ty' mb)) →
  ¬ is_dummy (live (type_of ty mb)) → ¬ is_dummy (live (type_of ty mb')).
Proof.
  intros [_ (c & _ & _ & Hw) Hm Hl _ _ _ Hok] Hok0 Hnd Hd. destruct ty.
  - simpl in *. by rewrite Hl in Hd.
  - pose proof (ok_cnt _ (Hok0 Reserved)) as Hct. pose proof (proj2 (ok_max _ (Hok Reserved))) as Hmx.
    simpl in *. rewrite Hm in Hmx.
    pose proof (array_bytes_pos (2 * t_max (reserved mb)) ltac:(lia) ltac:(lia)).
    specialize (Hw c). rewrite (dummy_owner _ c Hd) in Hw. revert Hw. ltbs; done.
Qed.

(** What the theorems need of a grown state. *)
Lemma grown_facts ty b e mb mb' : grown ty b e mb mb' →
  (∀ ty', type_ok (type_of ty' mb)) → clear ty b e mb →
  (∀ ty', type_ok (type_of ty' mb')) ∧ clear ty b e mb' ∧
  (∀ a, b ≤ a < e → owns ty mb' a = owns ty mb a) ∧
  (¬ is_dummy (live (type_of ty mb)) → ¬ is_dummy (live (type_of ty mb'))).
Proof.
  induction 1 as [mb|mb mb1 mb' Hs _ IH]; intros Hok Hcl; [done|].
  destruct (step_owners _ _ _ _ _ Hs Hcl) as [Hcl1 Hw].
  destruct (IH (gs_ok _ _ _ _ _ Hs) Hcl1) as (I1 & I2 & I3 & I4). split_and!; try done.
  - intros a Ha. by rewrite I3, Hw.
  - intros Hnd. by eapply I4, step_not_dummy.
Qed.

Lemma ensure_room_grows depth ty b e more n : 0 ≤ b < e → e ≤ ULLONG_MAX → ∀ fuel mb, (n < fuel)%nat →
  can_grow n ty mb → clear ty b e mb →
  t_cnt (type_of ty mb) + more + 2 * Z.of_nat n ≤ 2 ^ Z.of_nat n * t_max (type_of ty mb) →
  wp (ensure_room (memblock_double_array (S depth)) fuel ty more b (e - b))
     (λ ok mb', grown ty b e mb mb' ∧
        if ok : bool then t_cnt (type_of ty mb') + more ≤ t_max (type_of ty mb')
        else t_max (type_of ty mb') < t_cnt (type_of ty mb') + more ∧ stuck ty b e mb') mb.
Proof.
  intros Hb He. induction n as [|n IH]; intros fuel mb Hfu Hcg Hcl Hmuch.
  { destruct fuel; [lia|]. apply ensure_room_there; [lia|]. split; [apply rtc_refl|lia]. }
  destruct fuel as [|fuel]; [lia|].
  destruct (decide (t_cnt (type_of ty mb) + more ≤ t_max (type_of ty mb))).
  { apply ensure_room_there; [lia|]. split; [apply rtc_refl|lia]. }
  cbn [ensure_room]. apply wp_bind, wp_gets. rewrite (proj2 (Z.ltb_lt _ _)) by lia.
  apply wp_bind. eapply wp_mono; [apply (double_ok _ _ _ _ _ n); try done; by intros ->; apply Hcl|].
  intros ret mb1 [[-> Hs]|(-> & -> & Hst)].
  2:{ simpl. apply wp_ret. split; [apply rtc_refl|]. split; [lia|done]. }
  simpl. eapply wp_mono.
  { apply IH; [lia|by eapply step_can_grow|by eapply step_owners|].
    rewrite (gs_max _ _ _ _ _ Hs). rewrite Nat2Z.inj_succ, Z.pow_succ_r in Hmuch by lia.
    assert (t_cnt (type_of ty mb1) ≤ t_cnt (type_of ty mb) + 2); [|lia].
    destruct ty; [|by apply (gs_cnt _ _ _ _ _ Hs)]. simpl.
    pose proof (proj2 (type_ok_holds _ (gs_ok _ _ _ _ _ Hs Memory))) as E1.
    pose proof (proj2 (type_ok_holds _ (cg_ok _ _ _ Hcg Memory))) as E2. simpl in E1, E2.
    rewrite (gs_memory _ _ _ _ _ Hs) in E1. lia. }
  intros ok mb' [Hg H]. split; [by eapply rtc_l|done].
Qed.

Definition growable (ty : type_name) (mb : memblock) : Prop :=
  can_grow 2 ty mb ∧ 4 ≤ t_max (type_of ty mb).

(** There is room for [more] regions, or resizing is not allowed, or the array
    can grow. *)
Definition prepared (ty : type_name) (b e more : Z) (mb : memblock) : Prop :=
  t_cnt (type_of ty mb) + more ≤ t_max (type_of ty mb) ∨ memblock_can_resize mb = false ∨
  (growable ty mb ∧ clear ty b e mb).

(** [mb1] is [mb], grown if [more] regions had no room, the range untouched. *)
Definition made_room (ty : type_name) (b e more : Z) (mb mb1 : memblock) : Prop :=
  grown ty b e mb mb1 ∧
  (t_cnt (type_of ty mb) + more ≤ t_max (type_of ty mb) → mb1 = mb) ∧
  (∀ a, b ≤ a < e → owns ty mb1 a = owns ty mb a).

Lemma made_room_refl ty b e more mb : made_room ty b e more mb mb.
Proof. split_and!; [apply rtc_refl|done..]. Qed.

Definition no_room (ty : type_name) (b e more : Z) (mb1 : memblock) : Prop :=
  t_max (type_of ty mb1) < t_cnt (type_of ty mb1) + more ∧ stuck ty b e mb1.

Lemma ensure_room_ok ty b e more mb :
  type_ok (type_of ty mb) → 0 ≤ b < e → e ≤ ULLONG_MAX → more ≤ t_cnt (type_of ty mb) + 1 →
  prepared ty b e more mb →
  wp (ensure_room (memblock_double_array RESIZE_DEPTH) 64 ty more b (e - b))
     (λ ok mb1, made_room ty b e more mb mb1 ∧ type_ok (type_of ty mb1) ∧
        (¬ is_dummy (live (type_of ty mb)) → ¬ is_dummy (live (type_of ty mb1))) ∧
        if ok : bool then t_cnt (type_of ty mb1) + more ≤ t_max (type_of ty mb1)
        else no_room ty b e more mb1) mb.
Proof.
  intros Hok Hb He Hmore Hprep.
  destruct (decide (t_cnt (type_of ty mb) + more ≤ t_max (type_of ty mb))) as [Hr|Hr].
  { apply ensure_room_there; [done|]. split; [apply made_room_refl|done]. }
  destruct Hprep as [?|[Hcr|[[Hcg Hm4] Hcl]]]; [done| |].
  - eapply wp_mono; [apply wp_ensure_room; by right|]. intros ok mb1 [-> ->].
    rewrite (proj2 (Z.leb_gt _ _)) by lia.
    split; [apply made_room_refl|]. split; [done|]. split; [done|]. split; [lia|by left].
  - pose proof (ok_cnt _ Hok). eapply wp_mono.
    { apply (ensure_room_grows _ ty b e more 2 Hb He 64 mb); try done; [lia|].
      change (2 ^ Z.of_nat 2) with 4. lia. }
    intros ok mb1 [Hg Hfin].
    destruct (grown_facts _ _ _ _ _ Hg (cg_ok _ _ _ Hcg) Hcl) as (F1 & F2 & F3 & F4).
    split_and!; done.
Qed.

Lemma dummy_gaps l b e : is_dummy l → 0 ≤ b < e → gaps l b e = 1.
Proof. intros [n ->] H. unfold gaps. simpl. unfold rend; simpl. by ltbs. Qed.

Lemma gaps_ins l b e n : zlen (ins l b e n) = zlen l + gaps l b e.
Proof. unfold gaps. rewrite <- (gap_starts_length l b e n). lia. Qed.

Lemma add_ok ty base size nid mb :
  let e := range_end base size in
  let more := gaps (live (type_of ty mb)) base e in
  type_ok (type_of ty mb) → is_u64 base → is_u64 size → prepared ty base e more mb →
  wp (memblock_add_region ty base size nid)
     (λ ret mb', ∃ mb1, made_room ty base e more mb mb1 ∧
        ((ret = 0 ∧ updated ty mb1 mb' (λ a, add_owner (owns ty mb1 a) base e nid a)) ∨
         (ret = - mb_ENOMEM ∧ mb' = mb1 ∧ no_room ty base e more mb1))) mb.
Proof.
  intros e more Hok Hb Hsz Hprep. destruct (range_end_u64 base size Hb Hsz) as [_ Hre]. fold e in Hre.
  eapply wp_mono.
  { apply (add_region_core _ ty base size nid mb (made_room ty base e more mb)
      (λ mb1, made_room ty base e more mb mb1 ∧ no_room ty base e more mb1) Hok Hb Hsz).
    { apply made_room_refl. }
    fold e. intros Hnd Hlt. rewrite gaps_ins, Z.add_simpl_l.
    destruct (shape_cases _ (ok_shape _ Hok)) as [?|(Hne & Hs & _)]; [done|].
    eapply wp_mono.
    { apply (ensure_room_ok ty base e more mb); try (done || lia).
      pose proof (ins_grows _ base e nid _ Hs) as Hgr. rewrite gaps_ins in Hgr. fold more in Hgr.
      pose proof (proj2 (type_ok_holds _ Hok)). lia. }
    intros ok mb1 (HK & Hok1 & Hd & Hfin). pose proof HK as (_ & _ & Hw). destruct ok; [|done]. split_and!; try done; [by apply Hd|].
    destruct (shape_cases _ (ok_shape _ Hok1)) as [?|(_ & Hs1 & _)]; [by exfalso; apply Hd|].
    pose proof (same_gaps _ _ _ _ base e nid nid Hs Hs1 Hw) as Hg. rewrite 2!gaps_ins in Hg. rewrite gaps_ins.
    rewrite (proj2 (type_ok_holds _ Hok1)). fold more in Hg. lia. }
  fold e. intros ret mb' [(-> & mb1 & HK & Hup & _)|(-> & HK & Hno)]; exists mb1 || exists mb'; auto.
Qed.

Lemma remove_grows_ok ty base size mb :
  let e := range_end base size in
  type_ok (type_of ty mb) → is_u64 base → is_u64 size → prepared ty base e 2 mb →
  wp (__memblock_remove ty base size)
     (λ ret mb', ∃ mb1, made_room ty base e 2 mb mb1 ∧
        ((ret = 0 ∧ updated ty mb1 mb'
            (λ a, if (base <=? a) && (a <? e) then None else owns ty mb1 a)) ∨
         (ret = - mb_ENOMEM ∧ mb' = mb1 ∧ no_room ty base e 2 mb1))) mb.
Proof.
  intros e Hok Hb Hsz Hprep. destruct (range_end_u64 base size Hb Hsz) as [_ Hre]. fold e in Hre.
  eapply wp_mono.
  { apply (remove_range_core _ ty base size mb (made_room ty base e 2 mb)
      (λ mb1, made_room ty base e 2 mb mb1 ∧ no_room ty base e 2 mb1) Hok Hb Hsz).
    { apply made_room_refl. }
    fold e. intros Hlt. pose proof (ok_cnt _ Hok).
    eapply wp_mono; [apply (ensure_room_ok ty base e 2 mb); (done || lia)|].
    intros ok mb1 (HK & Hok1 & _ & Hfin). by destruct ok. }
  fold e. intros ret mb' [(-> & mb1 & HK & Hup & _)|(-> & HK & Hno)]; exists mb1 || exists mb'; auto.
Qed.

(** ** Allocation *)

(** What an allocation leaves: nothing happened and no area fits, or the highest
    area that fits was to be reserved: it is, or there was no room for it. *)
Definition allocated (mb mb' : memblock) (hi size align nid c : Z) : Prop :=
  (c = 0 ∧ mb' = mb ∧ ∀ c', ¬ fits mb PAGE_SIZE hi size align nid c') ∨
  (∃ found mb1, fits mb PAGE_SIZE hi size align nid found ∧
     (∀ c', fits mb PAGE_SIZE hi size align nid c' → c' ≤ found) ∧
     made_room Reserved found (found + size) 1 mb mb1 ∧
     ((c = found ∧ updated Reserved mb1 mb'
         (λ a, if (c <=? a) && (a <? c + size) then Some (node MAX_NUMNODES)
               else owns Reserved mb1 a)) ∨
      (c = 0 ∧ mb' = mb1 ∧ no_room Reserved found (found + size) 1 mb1))).

(** One region fits in [reserved], or resizing is not allowed, or the array
    can grow and its memory is itself reserved. *)
Definition alloc_ready (mb : memblock) : Prop :=
  t_cnt (reserved mb) + 1 ≤ t_max (reserved mb) ∨ memblock_can_resize mb = false ∨
  (growable Reserved mb ∧ ∀ a, stored_at (reserved mb) a = true → is_Some (owns Reserved mb a)).

Lemma free_gaps l b e : shape l → 0 ≤ b < e →
  (∀ a, b ≤ a < e → owner l a = None) → gaps l b e = 1.
Proof.
  intros Hsh Hb Hf. destruct (shape_cases _ Hsh) as [Hd|(_ & Hs & _)]; [by apply dummy_gaps|].
  pose proof (free_gap _ _ b e 0 Hs Hf) as Hgr. rewrite gaps_ins in Hgr.
  assert (b ∈ gap_starts l b e) as Hin.
  { apply (gap_starts_elem _ _ _ _ _ Hs). split; [lia|]. split; [apply Hf; lia|by left]. }
  unfold gaps in *. destruct (gap_starts l b e); [by apply elem_of_nil in Hin|]. simpl in *. lia.
Qed.

Lemma alloc_ok size k max_addr nid mb :
  type_ok (memory mb) → type_ok (reserved mb) →
  is_u64 max_addr → is_u64 (current_limit mb) → 0 < size → 0 ≤ k < 64 → size + 2 ^ k ≤ 2 ^ 64 →
  alloc_ready mb →
  wp (memblock_alloc_base_nid size (2 ^ k) max_addr nid)
     (λ c mb', allocated mb mb' (find_hi mb 0 max_addr) (round_up size (2 ^ k)) (2 ^ k) nid c) mb.
Proof.
  intros Hm Hr Ha Hl Hsz Hk Hsum Hready. unfold memblock_alloc_base_nid.
  pose proof (pow2_le k Hk). rewrite (proj2 (Z.eqb_neq (2 ^ k) 0)) by lia.
  destruct (round_up_facts size k Hsz Hk Hsum) as (F1 & F2 & F3).
  set (S := round_up size (2 ^ k)) in *.
  apply wp_bind. eapply wp_mono; [apply find_ok; (done || lia)|].
  change (find_lo 0) with PAGE_SIZE. intros c mb' [-> Hc].
  destruct Hc as [[-> Hno]|(Hne & Hf & Hmax)].
  { simpl. apply wp_ret. left. done. }
  rewrite (proj2 (Z.eqb_neq c 0)) by done.
  destruct (fits_bound _ _ _ _ _ _ _ Hm Hf) as [Hc0 Hce].
  pose proof Hf as (G1 & _ & _ & _ & Hfree). unfold PAGE_SIZE in G1.
  assert (Hcap : range_end c S = c + S) by (unfold range_end, memblock_cap_size; lia).
  assert (Hone : gaps (live (reserved mb)) c (c + S) = 1)
    by (apply free_gaps; [apply Hr|lia|done]).
  apply wp_bind. eapply wp_mono.
  { apply (add_ok Reserved c S); try done; [unfold ULLONG_MAX in *; lia..|].
    rewrite Hcap. simpl. rewrite Hone. destruct Hready as [|[|[Hg Hst]]]; [by left|by right; left|].
    right. right. split; [done|]. intros _. split; [lia|]. intros a Haa.
    destruct (stored_at (reserved mb) a) eqn:E; [|done]. destruct (Hst a E) as [x Hx].
    by rewrite (Hfree a Haa) in Hx. }
  simpl. rewrite Hcap, Hone. intros ret mb' (mb1 & HK & Hpost).
  destruct Hpost as [[-> Hup]|(-> & -> & Hno)]; apply wp_ret; right; exists c, mb1; split_and!; try done.
  - left. split; [done|]. eapply updated_ext; [|done]. intros a. unfold add_owner.
    destruct ((c <=? a) && (a <? c + S)) eqn:E; [|by destruct (owner _ a)].
    apply andb_true_iff in E as [E1%Z.leb_le E2%Z.ltb_lt]. destruct HK as (_ & _ & Hsame).
    simpl in Hsame. rewrite Hsame by lia. simpl in Hfree. by rewrite Hfree by lia.
  - by right.
Qed.

(** ** The properties *)

(** C4: memblock_add_region, behind memblock_add, memblock_add_node and
    memblock_reserve, refines the union of owner maps.  From an array that
    satisfies the invariant, with room for one region per stretch of the
    (capped) range without owner, or not allowed to be resized, or able to grow
    ([growable]: before the slab allocator is up, at least four regions long,
    and for [memory] with four entries left in [reserved]; a range to reserve is
    above address 0 and off the array's own memory), it runs to the end.  It
    returns 0, and then every address of the range that had no owner gets the
    new node, all others keep theirs, the array is sorted, disjoint, merged, its
    total_size exact, and the other array is untouched; or it returns -ENOMEM
    and adds nothing, only when there is no room and the array may not be
    resized or no memory suits a larger one.  In both cases the array has been
    doubled first, only when there was no room, as [grown] says: each time its regions keep their owners, the memory of the new array
    becomes reserved, and that of the old one free. *)
Theorem memblock_add_refines ty base size nid mb :
  let e := range_end base size in
  let more := gaps (live (type_of ty mb)) base e in
  type_ok (type_of ty mb) → is_u64 base → is_u64 size → prepared ty base e more mb →
  ∃ ret mb1 mb', memblock_add_region ty base size nid mb = Some (ret, mb') ∧
    made_room ty base e more mb mb1 ∧
    ((ret = 0 ∧ updated ty mb1 mb' (λ a, add_owner (owns ty mb1 a) base e nid a)) ∨
     (ret = - mb_ENOMEM ∧ mb' = mb1 ∧ no_room ty base e more mb1)).
Proof.
  intros e more Hok Hb Hs Hp.
  destruct (proj1 (wp_elim _ _ _) (add_ok ty base size nid mb Hok Hb Hs Hp)) as (ret & mb' & E & mb1 & H).
  eauto.
Qed.

(** C21: __memblock_remove, behind memblock_remove and memblock_free, refines
    the restriction of the owner map to the addresses outside the range.  From
    an array with two free entries, or not allowed to be resized, or able to
    grow (the conditions of the addition), it runs to the end.  It returns 0,
    and then exactly the addresses of the range have lost their owner, the
    invariant holds and the other array is untouched; or it returns -ENOMEM and
    removes nothing, only when there is no room and no way to make it.  In both
    cases the array has been doubled first, only when two entries were not
    free, with the effect on [reserved] that [grown] describes. *)
Theorem memblock_remove_refines ty base size mb :
  let e := range_end base size in
  type_ok (type_of ty mb) → is_u64 base → is_u64 size → prepared ty base e 2 mb →
  ∃ ret mb1 mb', __memblock_remove ty base size mb = Some (ret, mb') ∧
    made_room ty base e 2 mb mb1 ∧
    ((ret = 0 ∧ updated ty mb1 mb'
        (λ a, if (base <=? a) && (a <? e) then None else owns ty mb1 a)) ∨
     (ret = - mb_ENOMEM ∧ mb' = mb1 ∧ no_room ty base e 2 mb1)).
Proof.
  intros e Hok Hb Hs Hp.
  destruct (proj1 (wp_elim _ _ _) (remove_grows_ok ty base size mb Hok Hb Hs Hp)) as (ret & mb' & E & mb1 & H).
  eauto.
Qed.

(** C22: for a size of at least one byte and an alignment that is a power of
    two, with size + alignment within 2^64: memblock_find_in_range_node returns
    the highest aligned address whose area is free and inside the bounds, or 0
    exactly when there is none; and memblock_alloc_base_nid rounds the size up
    to the alignment and either returns 0 and changes nothing, when no area
    fits, or takes the highest one: it reserves exactly that area and returns
    its address, or returns 0 when [reserved] has no entry left and cannot grow.
    If [reserved] was full it has been doubled first, outside of the area, and
    then the new array's memory is reserved too and the old one's free.  The
    array has a free entry, or may not be resized, or can grow and lies in
    memory that is itself reserved. *)
Theorem memblock_alloc_correct start end_ size k nid mb :
  type_ok (memory mb) → type_ok (reserved mb) →
  is_u64 start → is_u64 end_ → is_u64 (current_limit mb) →
  0 < size → 0 ≤ k < 64 → size + 2 ^ k ≤ 2 ^ 64 → alloc_ready mb →
  (∃ c, memblock_find_in_range_node start end_ size (2 ^ k) nid mb = Some (c, mb) ∧
        highest mb (find_lo start) (find_hi mb start end_) size (2 ^ k) nid c) ∧
  (∃ c mb', memblock_alloc_base_nid size (2 ^ k) end_ nid mb = Some (c, mb') ∧
        size ≤ round_up size (2 ^ k) < size + 2 ^ k ∧
        allocated mb mb' (find_hi mb 0 end_) (round_up size (2 ^ k)) (2 ^ k) nid c).
Proof.
  intros Hm Hr Hs He Hl Hsz Hk Hb Hready. split.
  - destruct (proj1 (wp_elim _ _ _) (find_ok start end_ size k nid mb Hm Hr Hs He Hl Hsz Hk))
      as (c & mb' & E & -> & H). eauto.
  - destruct (proj1 (wp_elim _ _ _) (alloc_ok size k end_ nid mb Hm Hr He Hl Hsz Hk Hb Hready))
      as (c & mb' & E & H). exists c, mb'. split; [done|]. split; [|done].
    apply round_up_facts; done.
Qed.
End growth.

(** ** A machine whose reserved array is full *)

Definition full : memblock :=
  MB 0x100000
    (MType 1 4 0x80000 (Region 0x1000 0x80000 0 :: replicate 3 (Region 0 0 0)) init_regions)
    (MType 4 4 0x4000
       [Region 0x2000 0x1000 0; Region 0x4000 0x1000 0; Region 0x6000 0x1000 0; Region 0x8000 0x1000 0]
       init_regions)
    true false false.

Lemma full_ok ty : type_ok (type_of ty full).
Proof.
  destruct ty; (constructor; [done|done| |repeat constructor|done]);
    (right; split; [done|]; split; vm_compute; intuition congruence).
Qed.

Lemma full_growable : growable Reserved full.
Proof. split; [constructor; try done; apply full_ok|done]. Qed.

(** The fifth reservation doubles the array, which moves to the top of memory. *)
Example full_grows :
  ∃ mb', memblock_reserve 0x10000 0x1000 full = Some (0, mb') ∧
    t_max (reserved mb') = 8 ∧ t_home (reserved mb') = array_at 0x80000 ∧
    live (reserved mb') = [Region 0x2000 0x1000 0; Region 0x4000 0x1000 0; Region 0x6000 0x1000 0;
                           Region 0x8000 0x1000 0; Region 0x10000 0x1000 0; Region 0x80000 0x1000 0].
Proof. eexists. split; [vm_compute; reflexivity|]. done. Qed.

(** ** Two overlaps

    The comment of memblock_double_array promises an array outside of the range
    that waits to be reserved.  A range that starts at address 0 breaks this:
    the second search ends at [min(0, limit)], which memblock_find_in_range
    takes for MEMBLOCK_ALLOC_ACCESSIBLE, and the array lands in the range. *)

Definition from_zero : memblock :=
  MB 0x100000
    (MType 1 4 0x8000 (Region 0 0x8000 0 :: replicate 3 (Region 0 0 0)) init_regions)
    (MType 4 4 0x400
       [Region 0x8100 0x100 0; Region 0x8300 0x100 0; Region 0x8500 0x100 0; Region 0x8700 0x100 0]
       init_regions)
    true false false.

Example growth_inside_range :
  ∃ mb', memblock_reserve 0 0x8000 from_zero = Some (0, mb') ∧
    t_home (reserved mb') = array_at 0x7000.
Proof. eexists. split; [vm_compute; reflexivity|]. done. Qed.

(** A growing [memory] array frees its old place before it reserves the new
    one.  If [reserved] is full at that point it grows too, and takes the place
    just found, so that both arrays lie in the same memory. *)
Definition crowded : memblock :=
  MB 0x100000
    (MType 4 4 0x23000
       [Region 0x1000 0x20000 0; Region 0x40000 0x1000 0; Region 0x50000 0x1000 0; Region 0x60000 0x1000 0]
       (array_at 0x4000))
    (MType 3 4 0x3000
       [Region 0x2000 0x1000 0; Region 0x4000 0x1000 0; Region 0x8000 0x1000 0; Region 0 0 0]
       init_regions)
    true false false.

Example arrays_share_memory :
  ∃ mb' p, memblock_add 0x80000 0x1000 crowded = Some (0, mb') ∧
    t_home (memory mb') = array_at p ∧ t_home (reserved mb') = array_at p.
Proof. do 2 eexists. split; [vm_compute; reflexivity|]. done. Qed.

(** ** Witnesses *)

Example memblock_add_refines_witness :
  (∃ ret mb1 mb', memblock_add_region Memory 0x8000 0x9000 1 demo = Some (ret, mb') ∧
    made_room Memory 0x8000 0x11000 0 demo mb1) ∧
  (∃ ret mb1 mb', memblock_add_region Reserved 0x10000 0x1000 1 full = Some (ret, mb') ∧
    made_room Reserved 0x10000 0x11000 1 full mb1 ∧
    ((ret = 0 ∧ updated Reserved mb1 mb'
        (λ a, add_owner (owns Reserved mb1 a) 0x10000 0x11000 1 a)) ∨
     (ret = - mb_ENOMEM ∧ mb' = mb1 ∧ no_room Reserved 0x10000 0x11000 1 mb1))).
Proof.
  split.
  - destruct (memblock_add_refines Memory 0x8000 0x9000 1 demo demo_memory) as (r & mb1 & mb' & E & H & _);
      [done|done|left; done|]. eauto.
  - apply (memblock_add_refines Reserved 0x10000 0x1000 1 full (full_ok Reserved)); [done|done|].
    right. right. split; [apply full_growable|]. intros _. split; [done|]. intros a _. done.
Defined.

Example memblock_remove_refines_witness :
  (∃ ret mb1 mb', __memblock_remove Memory 0x8000 0x1000 demo = Some (ret, mb') ∧
    made_room Memory 0x8000 0x9000 2 demo mb1) ∧
  (∃ ret mb1 mb', __memblock_remove Reserved 0x4400 0x800 full = Some (ret, mb') ∧
    made_room Reserved 0x4400 0x4c00 2 full mb1 ∧
    ((ret = 0 ∧ updated Reserved mb1 mb'
        (λ a, if (0x4400 <=? a) && (a <? 0x4c00) then None else owns Reserved mb1 a)) ∨
     (ret = - mb_ENOMEM ∧ mb' = mb1 ∧ no_room Reserved 0x4400 0x4c00 2 mb1))).
Proof.
  split.
  - destruct (memblock_remove_refines Memory 0x8000 0x1000 demo demo_memory) as (r & mb1 & mb' & E & H & _);
      [done|done|left; done|]. eauto.
  - apply (memblock_remove_refines Reserved 0x4400 0x800 full (full_ok Reserved)); [done|done|].
    right. right. split; [apply full_growable|]. intros _. split; [done|]. intros a _. done.
Defined.

Example memblock_alloc_correct_witness :
  (∃ c mb', memblock_alloc_base_nid 100 (2 ^ 6) 0 1 demo = Some (c, mb') ∧
    100 ≤ round_up 100 (2 ^ 6) < 100 + 2 ^ 6 ∧
    allocated demo mb' (find_hi demo 0 0) (round_up 100 (2 ^ 6)) (2 ^ 6) 1 c) ∧
  (∃ c mb', memblock_alloc_base_nid 100 (2 ^ 6) 0 1 full = Some (c, mb') ∧
    100 ≤ round_up 100 (2 ^ 6) < 100 + 2 ^ 6 ∧
    allocated full mb' (find_hi full 0 0) (round_up 100 (2 ^ 6)) (2 ^ 6) 1 c).
Proof.
  split.
  - apply (memblock_alloc_correct 0 0 100 6 1 demo demo_memory demo_reserved); try done. left. done.
  - apply (memblock_alloc_correct 0 0 100 6 1 full (full_ok Memory) (full_ok Reserved)); try done.
    right. right. split; [apply full_growable|]. intros a [=].
Defined.
