(* ===== verification/Strings.v ===== *)
(** * Strings: character classes and string routines (lib/ctype.c, lib/string.c)

    The routines of lib/string.c over a flat byte memory: a partial map from
    addresses to bytes.  Reading or writing an unmapped address goes wrong.
    Bytes are 0..255 (char is unsigned on arm); a pointer is its address, and a
    pointer result that may be NULL is an [option].  The loops that stop at a
    terminator have fuel [S (size M)]: they move through consecutive mapped
    addresses, of which there are at most [size M].

    On arm64 strlen, strnlen, strchr, strrchr, strcmp, strncmp and the mem*
    routines are replaced by assembly; here they are the C versions of
    lib/string.c, which the other routines of the file are written against. *)

From S2P Require Import Prelude.

(** ** Character classes *)

Definition _U : Z := 0x01.
Definition _L : Z := 0x02.
Definition _D : Z := 0x04.
Definition _C : Z := 0x08.
Definition _P : Z := 0x10.
Definition _S : Z := 0x20.
Definition _X : Z := 0x40.
Definition _SP : Z := 0x80.

Definition _ctype : list Z := Eval cbv in
  [_C; _C; _C; _C; _C; _C; _C; _C ;
   _C; _C.|_S; _C.|_S; _C.|_S; _C.|_S; _C.|_S; _C; _C ;
   _C; _C; _C; _C; _C; _C; _C; _C ;
   _C; _C; _C; _C; _C; _C; _C; _C ;
   _S.|_SP; _P; _P; _P; _P; _P; _P; _P ;
   _P; _P; _P; _P; _P; _P; _P; _P ;
   _D; _D; _D; _D; _D; _D; _D; _D ;
   _D; _D; _P; _P; _P; _P; _P; _P ;
   _P; _U.|_X; _U.|_X; _U.|_X; _U.|_X; _U.|_X; _U.|_X; _U ;
   _U; _U; _U; _U; _U; _U; _U; _U ;
   _U; _U; _U; _U; _U; _U; _U; _U ;
   _U; _U; _U; _P; _P; _P; _P; _P ;
   _P; _L.|_X; _L.|_X; _L.|_X; _L.|_X; _L.|_X; _L.|_X; _L ;
   _L; _L; _L; _L; _L; _L; _L; _L ;
   _L; _L; _L; _L; _L; _L; _L; _L ;
   _L; _L; _L; _P; _P; _P; _P; _C ;
   0; 0; 0; 0; 0; 0; 0; 0; 0; 0; 0; 0; 0; 0; 0; 0 ;
   0; 0; 0; 0; 0; 0; 0; 0; 0; 0; 0; 0; 0; 0; 0; 0 ;
   _S.|_SP; _P; _P; _P; _P; _P; _P; _P; _P; _P; _P; _P; _P; _P; _P; _P ;
   _P; _P; _P; _P; _P; _P; _P; _P; _P; _P; _P; _P; _P; _P; _P; _P ;
   _U; _U; _U; _U; _U; _U; _U; _U; _U; _U; _U; _U; _U; _U; _U; _U ;
   _U; _U; _U; _U; _U; _U; _U; _P; _U; _U; _U; _U; _U; _U; _U; _L ;
   _L; _L; _L; _L; _L; _L; _L; _L; _L; _L; _L; _L; _L; _L; _L; _L ;
   _L; _L; _L; _L; _L; _L; _L; _P; _L; _L; _L; _L; _L; _L; _L; _L ].

Definition __ismask (x : Z) : Z := default 0 (_ctype !! Z.to_nat (u8 x)).
Definition has_class (m x : Z) : bool := negb (__ismask x .& m =? 0).
Definition isdigit : Z → bool := has_class _D.
Definition isspace : Z → bool := has_class _S.
Definition isupper : Z → bool := has_class _U.
Definition islower : Z → bool := has_class _L.
Definition isxdigit : Z → bool := has_class (_D .| _X).
Definition isalnum : Z → bool := has_class (_U .| _L .| _D).
Definition isprint : Z → bool := has_class (_P .| _U .| _L .| _D .| _SP).
Definition tolower (c : Z) : Z := if isupper c then u8 (c - (65 - 97)) else c.
Definition toupper (c : Z) : Z := if islower c then u8 (c - (97 - 65)) else c.
Definition _tolower (c : Z) : Z := c .| 0x20.

(** ** Memory *)

Notation mem := (gmap Z Z).

(** Writing a mapped byte. *)
Definition poke (M : mem) (p c : Z) : option mem :=
  match M !! p with Some _ => Some (<[p := c]> M) | None => None end.

Definition steps (M : mem) : nat := S (size M).

(** ** Lengths and searches *)

Fixpoint strlen_loop (fuel : nat) (M : mem) (sc : Z) : option Z :=
  match fuel with
  | O => None
  | S fuel => c ← M !! sc; if c =? 0 then Some sc else strlen_loop fuel M (sc + 1)
  end.
Definition strlen (M : mem) (s : Z) : option Z :=
  sc ← strlen_loop (steps M) M s; Some (sc - s).

Fixpoint strnlen_loop (fuel : nat) (M : mem) (sc count : Z) : option Z :=
  match fuel with
  | O => None
  | S fuel =>
      if count =? 0 then Some sc
      else c ← M !! sc; if c =? 0 then Some sc else strnlen_loop fuel M (sc + 1) (count - 1)
  end.
Definition strnlen (M : mem) (s count : Z) : option Z :=
  sc ← strnlen_loop (steps M) M s count; Some (sc - s).

Fixpoint strchr_loop (fuel : nat) (M : mem) (s c : Z) : option (option Z) :=
  match fuel with
  | O => None
  | S fuel =>
      x ← M !! s;
      if negb (x =? u8 c) then
        if x =? 0 then Some None else strchr_loop fuel M (s + 1) c
      else Some (Some s)
  end.
Definition strchr (M : mem) (s c : Z) : option (option Z) := strchr_loop (steps M) M s c.

Fixpoint strrchr_loop (fuel : nat) (M : mem) (s p c : Z) : option (option Z) :=
  match fuel with
  | O => None
  | S fuel =>
      x ← M !! p;
      if x =? u8 c then Some (Some p)
      else if s <=? p - 1 then strrchr_loop fuel M s (p - 1) c else Some None
  end.
Definition strrchr (M : mem) (s c : Z) : option (option Z) :=
  n ← strlen M s; strrchr_loop (steps M) M s (s + n) c.

Fixpoint strnchr_loop (fuel : nat) (M : mem) (s count c : Z) : option (option Z) :=
  match fuel with
  | O => None
  | S fuel =>
      if count =? 0 then Some None
      else
        x ← M !! s;
        if x =? 0 then Some None
        else if x =? u8 c then Some (Some s)
        else strnchr_loop fuel M (s + 1) (count - 1) c
  end.
Definition strnchr (M : mem) (s count c : Z) : option (option Z) :=
  strnchr_loop (steps M) M s count c.

Fixpoint memchr_loop (fuel : nat) (M : mem) (p c n : Z) : option (option Z) :=
  match fuel with
  | O => None
  | S fuel =>
      if n =? 0 then Some None
      else x ← M !! p; if u8 c =? x then Some (Some p) else memchr_loop fuel M (p + 1) c (n - 1)
  end.
Definition memchr (M : mem) (s c n : Z) : option (option Z) := memchr_loop (steps M) M s c n.

Fixpoint memscan_loop (fuel : nat) (M : mem) (p c size : Z) : option Z :=
  match fuel with
  | O => None
  | S fuel =>
      if size =? 0 then Some p
      else x ← M !! p; if x =? c then Some p else memscan_loop fuel M (p + 1) c (size - 1)
  end.
Definition memscan (M : mem) (addr c size : Z) : option Z := memscan_loop (steps M) M addr c size.

(** The inner loops of strspn, strcspn and strpbrk: is [c] in the string at [a]? *)
Fixpoint in_set (fuel : nat) (M : mem) (a c : Z) : option bool :=
  match fuel with
  | O => None
  | S fuel =>
      x ← M !! a;
      if x =? 0 then Some false else if c =? x then Some true else in_set fuel M (a + 1) c
  end.

Fixpoint strspn_loop (fuel : nat) (M : mem) (p accept count : Z) : option Z :=
  match fuel with
  | O => None
  | S fuel =>
      c ← M !! p;
      if c =? 0 then Some count
      else
        b ← in_set (steps M) M accept c;
        if negb b then Some count else strspn_loop fuel M (p + 1) accept (count + 1)
  end.
Definition strspn (M : mem) (s accept : Z) : option Z := strspn_loop (steps M) M s accept 0.

Fixpoint strcspn_loop (fuel : nat) (M : mem) (p reject count : Z) : option Z :=
  match fuel with
  | O => None
  | S fuel =>
      c ← M !! p;
      if c =? 0 then Some count
      else
        b ← in_set (steps M) M reject c;
        if (b : bool) then Some count else strcspn_loop fuel M (p + 1) reject (count + 1)
  end.
Definition strcspn (M : mem) (s reject : Z) : option Z := strcspn_loop (steps M) M s reject 0.

Fixpoint strpbrk_loop (fuel : nat) (M : mem) (sc1 ct : Z) : option (option Z) :=
  match fuel with
  | O => None
  | S fuel =>
      c ← M !! sc1;
      if c =? 0 then Some None
      else
        b ← in_set (steps M) M ct c;
        if (b : bool) then Some (Some sc1) else strpbrk_loop fuel M (sc1 + 1) ct
  end.
Definition strpbrk (M : mem) (cs ct : Z) : option (option Z) := strpbrk_loop (steps M) M cs ct.

Fixpoint skip_spaces_loop (fuel : nat) (M : mem) (str : Z) : option Z :=
  match fuel with
  | O => None
  | S fuel => c ← M !! str; if isspace c then skip_spaces_loop fuel M (str + 1) else Some str
  end.
Definition skip_spaces (M : mem) (str : Z) : option Z := skip_spaces_loop (steps M) M str.

Fixpoint check_bytes8_loop (fuel : nat) (M : mem) (start value bytes : Z) : option (option Z) :=
  match fuel with
  | O => None
  | S fuel =>
      if bytes =? 0 then Some None
      else
        x ← M !! start;
        if negb (x =? value) then Some (Some start)
        else check_bytes8_loop fuel M (start + 1) value (bytes - 1)
  end.
Definition check_bytes8 (M : mem) (start value bytes : Z) : option (option Z) :=
  check_bytes8_loop (steps M) M start value (u32 bytes).

(** A little-endian 64-bit load. *)
Fixpoint load_le (n : nat) (M : mem) (p : Z) : option Z :=
  match n with
  | O => Some 0
  | S n => c ← M !! p; r ← load_le n M (p + 1); Some (c + 2 ^ 8 * r)
  end.

Fixpoint memchr_inv_words (fuel : nat) (M : mem) (start value value64 words : Z) :
    option (Z * option (option Z)) :=
  match fuel with
  | O => None
  | S fuel =>
      if words =? 0 then Some (start, None)
      else
        w ← load_le 8 M start;
        if negb (w =? value64) then r ← check_bytes8 M start value 8; Some (start, Some r)
        else memchr_inv_words fuel M (start + 8) value value64 (words - 1)
  end.

Definition memchr_inv (M : mem) (start c bytes : Z) : option (option Z) :=
  let value := u8 c in
  if bytes <=? 16 then check_bytes8 M start value bytes
  else
    let value64 := value in
    let value64 := value64 .| (value64 <<64 8) in
    let value64 := value64 .| (value64 <<64 16) in
    let value64 := value64 .| (value64 <<64 32) in
    let prefix := u32 (start `mod` 8) in
    let prefix := if prefix =? 0 then 0 else 8 - prefix in
    r ← (if prefix =? 0 then Some None else check_bytes8 M start value prefix);
    match r with
    | Some p => Some (Some p)
    | None =>
        let start := start + prefix in
        let bytes := bytes - prefix in
        let words := u32 (bytes / 8) in
        '(start, found) ← memchr_inv_words (steps M) M start value value64 words;
        match found with
        | Some r => Some r
        | None => check_bytes8 M start value (bytes `mod` 8)
        end
    end.

(** ** Comparison *)

Fixpoint strcmp_loop (fuel : nat) (M : mem) (cs ct : Z) : option Z :=
  match fuel with
  | O => None
  | S fuel =>
      c1 ← M !! cs; c2 ← M !! ct;
      if negb (c1 =? c2) then Some (if c1 <? c2 then -1 else 1)
      else if c1 =? 0 then Some 0 else strcmp_loop fuel M (cs + 1) (ct + 1)
  end.
Definition strcmp (M : mem) (cs ct : Z) : option Z := strcmp_loop (steps M) M cs ct.

Fixpoint strncmp_loop (fuel : nat) (M : mem) (cs ct count : Z) : option Z :=
  match fuel with
  | O => None
  | S fuel =>
      if count =? 0 then Some 0
      else
        c1 ← M !! cs; c2 ← M !! ct;
        if negb (c1 =? c2) then Some (if c1 <? c2 then -1 else 1)
        else if c1 =? 0 then Some 0 else strncmp_loop fuel M (cs + 1) (ct + 1) (count - 1)
  end.
Definition strncmp (M : mem) (cs ct count : Z) : option Z := strncmp_loop (steps M) M cs ct count.

Fixpoint memcmp_loop (fuel : nat) (M : mem) (su1 su2 count : Z) : option Z :=
  match fuel with
  | O => None
  | S fuel =>
      if 0 <? count then
        c1 ← M !! su1; c2 ← M !! su2;
        if negb (c1 - c2 =? 0) then Some (c1 - c2)
        else memcmp_loop fuel M (su1 + 1) (su2 + 1) (count - 1)
      else Some 0
  end.
Definition memcmp (M : mem) (cs ct count : Z) : option Z := memcmp_loop (steps M) M cs ct count.

Fixpoint strcasecmp_loop (fuel : nat) (M : mem) (s1 s2 : Z) : option Z :=
  match fuel with
  | O => None
  | S fuel =>
      x1 ← M !! s1; x2 ← M !! s2;
      let c1 := tolower x1 in
      let c2 := tolower x2 in
      if (c1 =? c2) && negb (c1 =? 0) then strcasecmp_loop fuel M (s1 + 1) (s2 + 1)
      else Some (c1 - c2)
  end.
Definition strcasecmp (M : mem) (s1 s2 : Z) : option Z := strcasecmp_loop (steps M) M s1 s2.

Fixpoint strncasecmp_loop (fuel : nat) (M : mem) (s1 s2 n : Z) : option Z :=
  match fuel with
  | O => None
  | S fuel =>
      x1 ← M !! s1; x2 ← M !! s2;
      let c1 := tolower x1 in
      let c2 := tolower x2 in
      let n := u64 (n - 1) in
      if (0 <? n) && (c1 =? c2) && negb (c1 =? 0) then strncasecmp_loop fuel M (s1 + 1) (s2 + 1) n
      else Some (c1 - c2)
  end.
Definition strncasecmp (M : mem) (s1 s2 n : Z) : option Z := strncasecmp_loop (steps M) M s1 s2 n.

Fixpoint strnicmp_loop (fuel : nat) (M : mem) (s1 s2 len : Z) : option Z :=
  match fuel with
  | O => None
  | S fuel =>
      c1 ← M !! s1; c2 ← M !! s2;
      let again c1 c2 := if u64 (len - 1) =? 0 then Some (c1 - c2)
                         else strnicmp_loop fuel M (s1 + 1) (s2 + 1) (u64 (len - 1)) in
      if (c1 =? 0) || (c2 =? 0) then Some (c1 - c2)
      else if c1 =? c2 then again c1 c2
      else
        let c1 := tolower c1 in
        let c2 := tolower c2 in
        if negb (c1 =? c2) then Some (c1 - c2) else again c1 c2
  end.
Definition strnicmp (M : mem) (s1 s2 len : Z) : option Z :=
  if len =? 0 then Some 0 else strnicmp_loop (steps M) M s1 s2 len.

Fixpoint sysfs_loop (fuel : nat) (M : mem) (s1 s2 : Z) : option (Z * Z) :=
  match fuel with
  | O => None
  | S fuel =>
      c1 ← M !! s1;
      if c1 =? 0 then Some (s1, s2)
      else c2 ← M !! s2; if c1 =? c2 then sysfs_loop fuel M (s1 + 1) (s2 + 1) else Some (s1, s2)
  end.
Definition sysfs_streq (M : mem) (s1 s2 : Z) : option bool :=
  '(s1, s2) ← sysfs_loop (steps M) M s1 s2;
  c1 ← M !! s1; c2 ← M !! s2;
  if c1 =? c2 then Some true
  else
    b ← (if (c1 =? 0) && (c2 =? 10) then d ← M !! (s2 + 1); Some (d =? 0) else Some false);
    if (b : bool) then Some true
    else if c1 =? 10 then d ← M !! (s1 + 1); Some ((d =? 0) && (c2 =? 0)) else Some false.

Definition str_EINVAL : Z := 22.

(** The return code and the value stored to [*res], if any. *)
Definition strtobool (M : mem) (s : Z) : option (Z * option bool) :=
  c ← M !! s;
  if (c =? 121) || (c =? 89) || (c =? 49) then Some (0, Some true)
  else if (c =? 110) || (c =? 78) || (c =? 48) then Some (0, Some false)
  else Some (- str_EINVAL, None).

(** ** Substrings *)

Fixpoint strstr_loop (fuel : nat) (M : mem) (s1 s2 l1 l2 : Z) : option (option Z) :=
  match fuel with
  | O => None
  | S fuel =>
      if l2 <=? l1 then
        d ← memcmp M s1 s2 l2;
        if d =? 0 then Some (Some s1) else strstr_loop fuel M (s1 + 1) s2 (l1 - 1) l2
      else Some None
  end.
Definition strstr (M : mem) (s1 s2 : Z) : option (option Z) :=
  l2 ← strlen M s2;
  if l2 =? 0 then Some (Some s1) else l1 ← strlen M s1; strstr_loop (steps M) M s1 s2 l1 l2.
Definition strnstr (M : mem) (s1 s2 len : Z) : option (option Z) :=
  l2 ← strlen M s2;
  if l2 =? 0 then Some (Some s1) else strstr_loop (steps M) M s1 s2 len l2.

(** ** Copying *)

Fixpoint memset_loop (fuel : nat) (M : mem) (xs c count : Z) : option mem :=
  match fuel with
  | O => None
  | S fuel =>
      if count =? 0 then Some M
      else M ← poke M xs (u8 c); memset_loop fuel M (xs + 1) c (count - 1)
  end.
Definition memset (M : mem) (s c count : Z) : option mem := memset_loop (steps M) M s c count.
Definition memzero_explicit (M : mem) (s count : Z) : option mem := memset M s 0 count.

Fixpoint memcpy_loop (fuel : nat) (M : mem) (tmp s count : Z) : option mem :=
  match fuel with
  | O => None
  | S fuel =>
      if count =? 0 then Some M
      else c ← M !! s; M ← poke M tmp c; memcpy_loop fuel M (tmp + 1) (s + 1) (count - 1)
  end.
Definition memcpy (M : mem) (dest src count : Z) : option mem :=
  memcpy_loop (steps M) M dest src count.

Fixpoint memmove_down_loop (fuel : nat) (M : mem) (tmp s count : Z) : option mem :=
  match fuel with
  | O => None
  | S fuel =>
      if count =? 0 then Some M
      else
        c ← M !! (s - 1); M ← poke M (tmp - 1) c;
        memmove_down_loop fuel M (tmp - 1) (s - 1) (count - 1)
  end.
Definition memmove (M : mem) (dest src count : Z) : option mem :=
  if dest <=? src then memcpy_loop (steps M) M dest src count
  else memmove_down_loop (steps M) M (dest + count) (src + count) count.

Fixpoint strcpy_loop (fuel : nat) (M : mem) (dest src : Z) : option mem :=
  match fuel with
  | O => None
  | S fuel =>
      c ← M !! src; M ← poke M dest c;
      if c =? 0 then Some M else strcpy_loop fuel M (dest + 1) (src + 1)
  end.
Definition strcpy (M : mem) (dest src : Z) : option mem := strcpy_loop (steps M) M dest src.

Fixpoint strncpy_loop (fuel : nat) (M : mem) (tmp src count : Z) : option mem :=
  match fuel with
  | O => None
  | S fuel =>
      if count =? 0 then Some M
      else
        c ← M !! src; M ← poke M tmp c;
        strncpy_loop fuel M (tmp + 1) (if c =? 0 then src else src + 1) (count - 1)
  end.
Definition strncpy (M : mem) (dest src count : Z) : option mem :=
  strncpy_loop (steps M) M dest src count.

Definition strlcpy (M : mem) (dest src size : Z) : option (Z * mem) :=
  ret ← strlen M src;
  if negb (size =? 0) then
    let len := if size <=? ret then size - 1 else ret in
    M ← memcpy M dest src len;
    M ← poke M (dest + len) 0;
    Some (ret, M)
  else Some (ret, M).

Definition strcat (M : mem) (dest src : Z) : option mem :=
  d ← strlen_loop (steps M) M dest; strcpy_loop (steps M) M d src.

Fixpoint strncat_loop (fuel : nat) (M : mem) (dest src count : Z) : option mem :=
  match fuel with
  | O => None
  | S fuel =>
      c ← M !! src; M ← poke M dest c;
      if c =? 0 then Some M
      else if count - 1 =? 0 then poke M (dest + 1) 0
      else strncat_loop fuel M (dest + 1) (src + 1) (count - 1)
  end.
Definition strncat (M : mem) (dest src count : Z) : option mem :=
  if count =? 0 then Some M
  else d ← strlen_loop (steps M) M dest; strncat_loop (steps M) M d src count.

Definition strlcat (M : mem) (dest src count : Z) : option (Z * mem) :=
  dsize ← strlen M dest;
  len ← strlen M src;
  let res := dsize + len in
  if count <=? dsize then None (* BUG_ON *)
  else
    let dest := dest + dsize in
    let count := count - dsize in
    let len := if count <=? len then count - 1 else len in
    M ← memcpy M dest src len;
    M ← poke M (dest + len) 0;
    Some (res, M).

(** ** Trimming and splitting *)

Fixpoint strim_loop (fuel : nat) (M : mem) (s end_ : Z) : option Z :=
  match fuel with
  | O => None
  | S fuel =>
      if s <=? end_ then
        c ← M !! end_; if isspace c then strim_loop fuel M s (end_ - 1) else Some end_
      else Some end_
  end.
Definition strim (M : mem) (s : Z) : option (Z * mem) :=
  size ← strlen M s;
  if size =? 0 then Some (s, M)
  else
    end_ ← strim_loop (steps M) M s (s + size - 1);
    M ← poke M (end_ + 1) 0;
    r ← skip_spaces M s;
    Some (r, M).

(** [strsep(&s, ct)]: the token, the new value of [s], and the memory. *)
Definition strsep (M : mem) (s : option Z) (ct : Z) : option (option Z * option Z * mem) :=
  match s with
  | None => Some (None, None, M)
  | Some sbegin =>
      end_ ← strpbrk M sbegin ct;
      match end_ with
      | Some e => M ← poke M e 0; Some (Some sbegin, Some (e + 1), M)
      | None => Some (Some sbegin, None, M)
      end
  end.
