(* ===== verification/StringsThm.v ===== *)
(** * StringsThm: the string routines compute list functions

    [cstr M p s]: the NUL-terminated string [s] is at [p].  Every routine of
    Strings.v is shown to return what the corresponding function on lists
    returns, without running out of fuel or touching other memory. *)

From S2P Require Import Prelude Strings.

#[global] Arguments steps : simpl never.
#[global] Opaque u8.

(** ** Bytes in memory *)

Fixpoint bytes_at (M : mem) (p : Z) (l : list Z) : Prop :=
  match l with
  | [] => True
  | x :: l => M !! p = Some x ∧ bytes_at M (p + 1) l
  end.

Definition no_nul (s : list Z) : Prop := Forall (λ c, c ≠ 0) s.
Definition cstr (M : mem) (p : Z) (s : list Z) : Prop := no_nul s ∧ bytes_at M p (s ++ [0]).

(** Addresses [p, p + length l) now hold [l]. *)
Fixpoint put (M : mem) (p : Z) (l : list Z) : mem :=
  match l with
  | [] => M
  | x :: l => put (<[p := x]> M) (p + 1) l
  end.

Definition mapped (M : mem) (p n : Z) : Prop := ∀ a, p ≤ a < p + n → is_Some (M !! a).

Lemma bytes_at_lookup M p l :
  bytes_at M p l ↔ ∀ i x, l !! i = Some x → M !! (p + Z.of_nat i) = Some x.
Proof.
  revert p. induction l as [|y l IH]; intros p; simpl; [done|]. rewrite IH. split.
  - intros [H0 H] [|i] x Hx; simpl in Hx.
    + injection Hx as <-. by rewrite Z.add_0_r.
    + apply H in Hx. by replace (p + Z.of_nat (S i)) with (p + 1 + Z.of_nat i) by lia.
  - intros H. split.
    + specialize (H 0%nat y eq_refl). by rewrite Z.add_0_r in H.
    + intros i x Hx. specialize (H (S i) x Hx).
      by replace (p + 1 + Z.of_nat i) with (p + Z.of_nat (S i)) by lia.
Qed.

Lemma bytes_at_app M p l1 l2 :
  bytes_at M p (l1 ++ l2) ↔ bytes_at M p l1 ∧ bytes_at M (p + zlen l1) l2.
Proof.
  revert p. induction l1 as [|x l1 IH]; intros p; simpl.
  - rewrite Z.add_0_r. tauto.
  - rewrite IH. replace (p + 1 + zlen l1) with (p + Z.of_nat (S (length l1))) by lia. tauto.
Qed.

(** Consecutive mapped bytes are no more than the memory has. *)
Lemma bytes_at_size M p l : bytes_at M p l → (length l ≤ size M)%nat.
Proof.
  revert p M. induction l as [|x l IH]; intros p M; simpl; [lia|]. intros [Hx H].
  assert (H' : bytes_at (delete p M) (p + 1) l).
  { apply bytes_at_lookup. intros i y Hy. rewrite lookup_delete_ne by lia.
    rewrite bytes_at_lookup in H. by apply H. }
  apply IH in H'. rewrite map_size_delete_Some in H' by eauto.
  assert (size M ≠ 0%nat); [|lia].
  rewrite map_size_non_empty_iff. intros ->. by rewrite lookup_empty in Hx.
Qed.

Lemma cstr_cons M p c s : cstr M p (c :: s) ↔ c ≠ 0 ∧ M !! p = Some c ∧ cstr M (p + 1) s.
Proof. unfold cstr, no_nul. simpl. rewrite Forall_cons. tauto. Qed.
Lemma cstr_nil M p : cstr M p [] ↔ M !! p = Some 0.
Proof. unfold cstr, no_nul. simpl. split; [tauto|]. auto. Qed.

Lemma cstr_fuel M p s : cstr M p s → (length s < steps M)%nat.
Proof.
  intros [_ H]. apply bytes_at_size in H. rewrite length_app in H. simpl in H.
  unfold steps. lia.
Qed.

Lemma mapped_size M p n : 0 ≤ n → mapped M p n → n ≤ Z.of_nat (size M).
Proof.
  intros Hn Hm. assert (∃ l, zlen l = n ∧ bytes_at M p l) as (l & <- & H).
  { revert p Hm. apply (natlike_ind (λ n, ∀ p, mapped M p n → ∃ l, zlen l = n ∧ bytes_at M p l));
      [..|done].
    - intros p _. by exists [].
    - intros n' Hn' IH p Hm. destruct (Hm p) as [x Hx]; [lia|].
      destruct (IH (p + 1)) as (l & Hl & Hb); [intros a Ha; apply Hm; lia|].
      exists (x :: l). simpl. split; [lia|done]. }
  apply bytes_at_size in H. lia.
Qed.

Lemma put_lookup M p l a :
  put M p l !! a = if (p <=? a) && (a <? p + zlen l) then l !! Z.to_nat (a - p) else M !! a.
Proof.
  revert M p. induction l as [|x l IH]; intros M p; simpl.
  - rewrite Z.add_0_r. destruct (Z.leb_spec p a), (Z.ltb_spec a p); try lia; done.
  - rewrite IH. destruct (decide (a = p)) as [->|Hne].
    + destruct (Z.leb_spec (p + 1) p); [lia|]. simpl. rewrite lookup_insert_eq.
      rewrite Z.sub_diag, Z.leb_refl. destruct (Z.ltb_spec p (p + Z.of_nat (S (length l)))); [done|lia].
    + rewrite lookup_insert_ne by done.
      destruct (Z.leb_spec (p + 1) a), (Z.ltb_spec a (p + 1 + zlen l)), (Z.leb_spec p a),
        (Z.ltb_spec a (p + Z.of_nat (S (length l)))); try lia; simpl; try done.
      replace (Z.to_nat (a - p)) with (S (Z.to_nat (a - (p + 1)))) by lia. done.
Qed.

Lemma put_size M p l : mapped M p (zlen l) → size (put M p l) = size M.
Proof.
  revert M p. induction l as [|x l IH]; intros M p Hm; simpl; [done|].
  destruct (Hm p) as [y Hy]; [simpl; lia|].
  rewrite IH.
  - by apply map_size_insert_Some.
  - intros a Ha. rewrite lookup_insert_ne by lia. apply Hm. simpl. lia.
Qed.

Lemma put_snoc M p l x : put M p (l ++ [x]) = <[p + zlen l := x]> (put M p l).
Proof.
  revert M p. induction l as [|y l IH]; intros M p; simpl.
  - by rewrite Z.add_0_r.
  - rewrite IH. f_equal. lia.
Qed.

Lemma put_app M p l1 l2 : put M p (l1 ++ l2) = put (put M p l1) (p + zlen l1) l2.
Proof.
  revert M p. induction l1 as [|x l1 IH]; intros M p; simpl.
  - by rewrite Z.add_0_r.
  - rewrite IH. f_equal. lia.
Qed.

Lemma bytes_at_put M p l : bytes_at (put M p l) p l.
Proof.
  apply bytes_at_lookup. intros i x Hx. rewrite put_lookup.
  pose proof (lookup_lt_Some _ _ _ Hx).
  destruct (Z.leb_spec p (p + Z.of_nat i)), (Z.ltb_spec (p + Z.of_nat i) (p + zlen l)); try lia.
  simpl. by replace (Z.to_nat (p + Z.of_nat i - p)) with i by lia.
Qed.

Lemma bytes_at_put_other M p l q k :
  p + zlen l ≤ q ∨ q + zlen k ≤ p → bytes_at M q k → bytes_at (put M p l) q k.
Proof.
  intros Hd. rewrite !bytes_at_lookup. intros H i x Hx. rewrite put_lookup.
  pose proof (lookup_lt_Some _ _ _ Hx).
  destruct (Z.leb_spec p (q + Z.of_nat i)), (Z.ltb_spec (q + Z.of_nat i) (p + zlen l)); simpl;
    try lia; by apply H.
Qed.

Lemma poke_mapped M p c : is_Some (M !! p) → poke M p c = Some (put M p [c]).
Proof. intros [x Hx]. unfold poke. by rewrite Hx. Qed.

(** ** First and last index *)

Fixpoint find_idx (P : Z → bool) (l : list Z) : option Z :=
  match l with
  | [] => None
  | x :: l => if P x then Some 0 else Z.succ <$> find_idx P l
  end.
Fixpoint last_idx (P : Z → bool) (l : list Z) : option Z :=
  match l with
  | [] => None
  | x :: l => match last_idx P l with
              | Some i => Some (i + 1)
              | None => if P x then Some 0 else None
              end
  end.
(** The length of the longest prefix whose elements satisfy [P]. *)
Fixpoint prefix_len (P : Z → bool) (l : list Z) : Z :=
  match l with
  | [] => 0
  | x :: l => if P x then 1 + prefix_len P l else 0
  end.

Lemma find_idx_Some P l i :
  find_idx P l = Some i ↔ 0 ≤ i ∧ (∃ x, l !! Z.to_nat i = Some x ∧ P x = true) ∧
    ∀ j x, 0 ≤ j < i → l !! Z.to_nat j = Some x → P x = false.
Proof.
  revert i. induction l as [|y l IH]; intros i; simpl.
  { split; [done|]. intros (_ & (x & Hx & _) & _). done. }
  destruct (P y) eqn:E.
  - split.
    + intros [= <-]. split; [lia|]. split; [by exists y|]. intros; lia.
    + intros (Hi & _ & Hall). destruct (decide (i = 0)) as [->|]; [done|].
      specialize (Hall 0 y ltac:(lia) eq_refl). congruence.
  - rewrite fmap_Some. setoid_rewrite IH. split.
    + intros (k & (Hk & (x & Hx & HP) & Hall) & ->). split; [lia|].
      replace (Z.to_nat (Z.succ k)) with (S (Z.to_nat k)) by lia. split; [by exists x|].
      intros j x' Hj Hx'. destruct (decide (j = 0)) as [->|]; [by injection Hx' as <-|].
      replace (Z.to_nat j) with (S (Z.to_nat (j - 1))) in Hx' by lia.
      apply (Hall (j - 1) x'); [lia|done].
    + intros (Hi & (x & Hx & HP) & Hall). destruct (decide (i = 0)) as [->|].
      { simpl in Hx. congruence. }
      exists (i - 1). split; [|lia]. split; [lia|]. split.
      * exists x. by replace (Z.to_nat i) with (S (Z.to_nat (i - 1))) in Hx by lia.
      * intros j x' Hj Hx'. apply (Hall (j + 1) x'); [lia|].
        by replace (Z.to_nat (j + 1)) with (S (Z.to_nat j)) by lia.
Qed.

Lemma find_idx_None P l : find_idx P l = None ↔ ∀ x, x ∈ l → P x = false.
Proof.
  induction l as [|y l IH]; simpl; [set_solver|]. destruct (P y) eqn:E.
  - split; [done|]. intros H. rewrite H in E; [done|set_solver].
  - rewrite fmap_None, IH. set_solver.
Qed.

Lemma last_idx_snoc P l x : last_idx P (l ++ [x]) = if P x then Some (zlen l) else last_idx P l.
Proof.
  induction l as [|y l IH]; simpl; [by destruct (P x)|]. rewrite IH.
  destruct (P x); [f_equal; lia|]. done.
Qed.

(** ** Lengths and searches *)

Definition mem_of (l : list Z) (c : Z) : bool := existsb (Z.eqb c) l.

Section reading.
Variable M : mem.

Lemma strlen_loop_ok s : ∀ fuel p, cstr M p s → (length s < fuel)%nat →
  strlen_loop fuel M p = Some (p + zlen s).
Proof.
  induction s as [|c s IH]; intros [|fuel] p Hs Hf; simpl in *; try lia.
  - apply cstr_nil in Hs. rewrite Hs. simpl. f_equal. lia.
  - apply cstr_cons in Hs as (Hc & Hp & Hs). rewrite Hp. cbn [mbind option_bind find_idx prefix_len app].
    rewrite (proj2 (Z.eqb_neq c 0)) by done. rewrite IH by (done || lia). f_equal. lia.
Qed.

Lemma strlen_ok p s : cstr M p s → strlen M p = Some (zlen s).
Proof.
  intros Hs. unfold strlen. rewrite (strlen_loop_ok s) by (done || by eapply cstr_fuel).
  simpl. f_equal. lia.
Qed.

Lemma strnlen_ok p s count : cstr M p s → 0 ≤ count →
  strnlen M p count = Some (Z.min count (zlen s)).
Proof.
  intros Hs Hc. unfold strnlen.
  cut (∀ fuel p count, 0 ≤ count → cstr M p s → (length s < fuel)%nat →
    strnlen_loop fuel M p count = Some (p + Z.min count (zlen s))).
  { intros H. rewrite H by (done || by eapply cstr_fuel). simpl. f_equal. lia. }
  clear. induction s as [|c s IH]; intros [|fuel] p count Hc Hs Hf; simpl in *; try lia.
  - destruct (Z.eqb_spec count 0); [f_equal; lia|]. apply cstr_nil in Hs. rewrite Hs. simpl.
    f_equal. lia.
  - destruct (Z.eqb_spec count 0); [f_equal; lia|].
    apply cstr_cons in Hs as (Hc0 & Hp & Hs). rewrite Hp. cbn [mbind option_bind find_idx prefix_len app].
    rewrite (proj2 (Z.eqb_neq c 0)) by done. rewrite IH by (done || lia). f_equal. lia.
Qed.

Lemma find_shift P l p c : P c = false →
  (Z.add (p + 1) <$> find_idx P l) = (Z.add p <$> find_idx P (c :: l)).
Proof. intros E. simpl. rewrite E. destruct (find_idx P l); simpl; [f_equal; lia|done]. Qed.

Lemma strchr_ok p s c : cstr M p s →
  strchr M p c = Some (Z.add p <$> find_idx (λ x, x =? u8 c) (s ++ [0])).
Proof.
  intros Hs. unfold strchr. pose proof (cstr_fuel _ _ _ Hs) as Hf. revert Hf.
  generalize (steps M) as fuel. revert p Hs.
  induction s as [|x s IH]; intros p Hs [|fuel] Hf; cbn [strchr_loop length app] in *; try lia.
  - apply cstr_nil in Hs. rewrite Hs. cbn [mbind option_bind find_idx].
    destruct (Z.eqb_spec 0 (u8 c)); simpl; [by rewrite Z.add_0_r|done].
  - apply cstr_cons in Hs as (Hc & Hp & Hs). rewrite Hp. cbn [mbind option_bind find_idx prefix_len app].
    destruct (x =? u8 c) eqn:E; simpl; [by rewrite Z.add_0_r|].
    rewrite (proj2 (Z.eqb_neq x 0)) by done. rewrite IH by (done || lia).
    f_equal. rewrite (find_shift _ _ _ x) by done. simpl. by rewrite E.
Qed.

Lemma strrchr_ok p s c : cstr M p s →
  strrchr M p c = Some (Z.add p <$> last_idx (λ x, x =? u8 c) (s ++ [0])).
Proof.
  intros Hs. unfold strrchr. rewrite (strlen_ok _ _ Hs). cbn [mbind option_bind].
  pose proof (cstr_fuel _ _ _ Hs) as Hf. destruct Hs as [_ Hs].
  assert (H : ∀ l x fuel, bytes_at M p (l ++ [x]) → (length l < fuel)%nat →
    strrchr_loop fuel M p (p + zlen l) c = Some (Z.add p <$> last_idx (λ x, x =? u8 c) (l ++ [x]))).
  { clear. induction l as [|y l IH] using rev_ind; intros x [|fuel] Hb Hf; try lia;
      cbn [strrchr_loop]; apply bytes_at_app in Hb as [Hb1 Hb2]; destruct Hb2 as [Hx _];
      rewrite Hx; cbn [mbind option_bind]; rewrite last_idx_snoc.
    - destruct (x =? u8 c); [done|].
      destruct (Z.leb_spec p (p + zlen (@nil Z) - 1)); [simpl in *; lia|done].
    - destruct (x =? u8 c); [done|]. rewrite length_app in *. simpl length in *.
      destruct (Z.leb_spec p (p + Z.of_nat (length l + 1) - 1)); [|lia].
      replace (p + Z.of_nat (length l + 1) - 1) with (p + zlen l) by lia.
      apply IH; [done|lia]. }
  by apply H.
Qed.

Lemma strnchr_ok p s count c : cstr M p s → 0 ≤ count →
  strnchr M p count c = Some (Z.add p <$> find_idx (λ x, x =? u8 c) (take (Z.to_nat count) s)).
Proof.
  intros Hs. unfold strnchr. pose proof (cstr_fuel _ _ _ Hs) as Hf. revert Hf.
  generalize (steps M) as fuel. revert p count Hs.
  induction s as [|x s IH]; intros p count Hs [|fuel] Hf Hc; cbn [strnchr_loop length] in *; try lia;
    (destruct (Z.eqb_spec count 0) as [->|]; [by rewrite take_0|]).
  - apply cstr_nil in Hs. rewrite Hs. simpl. by rewrite take_nil.
  - apply cstr_cons in Hs as (Hx & Hp & Hs). rewrite Hp. cbn [mbind option_bind find_idx prefix_len app].
    rewrite (proj2 (Z.eqb_neq x 0)) by done.
    replace (Z.to_nat count) with (S (Z.to_nat (count - 1))) by lia. simpl take.
    destruct (x =? u8 c) eqn:E; [simpl; rewrite E; simpl; by rewrite Z.add_0_r|].
    rewrite IH by (done || lia). f_equal. by apply find_shift.
Qed.

Lemma bytes_fuel p l : bytes_at M p l → (length l < steps M)%nat.
Proof. intros H%bytes_at_size. unfold steps. lia. Qed.

Lemma memchr_ok p l c : bytes_at M p l →
  memchr M p c (zlen l) = Some (Z.add p <$> find_idx (λ x, u8 c =? x) l).
Proof.
  intros Hs. unfold memchr. pose proof (bytes_fuel _ _ Hs) as Hf. revert Hf.
  generalize (steps M) as fuel. revert p Hs.
  induction l as [|x l IH]; intros p Hs [|fuel] Hf; cbn [memchr_loop length] in *; try lia; [done|].
  rewrite (proj2 (Z.eqb_neq _ 0)) by lia. destruct Hs as [Hp Hs]. rewrite Hp. cbn [mbind option_bind find_idx prefix_len app].
  destruct (u8 c =? x) eqn:E; [simpl; by rewrite Z.add_0_r|].
  replace (Z.of_nat (S (length l)) - 1) with (zlen l) by lia. rewrite IH by (done || lia).
  f_equal. rewrite (find_shift _ _ _ x) by done. simpl. by rewrite E.
Qed.

Lemma memscan_ok p l c : bytes_at M p l →
  memscan M p c (zlen l) = Some (p + default (zlen l) (find_idx (λ x, x =? c) l)).
Proof.
  intros Hs. unfold memscan. pose proof (bytes_fuel _ _ Hs) as Hf. revert Hf.
  generalize (steps M) as fuel. revert p Hs.
  induction l as [|x l IH]; intros p Hs [|fuel] Hf; cbn [memscan_loop length] in *; try lia.
  - simpl. f_equal. lia.
  - rewrite (proj2 (Z.eqb_neq _ 0)) by lia. destruct Hs as [Hp Hs]. rewrite Hp. cbn [mbind option_bind find_idx prefix_len app].
    destruct (x =? c) eqn:E; [simpl; by rewrite Z.add_0_r|].
    replace (Z.of_nat (S (length l)) - 1) with (zlen l) by lia. rewrite IH by (done || lia).
    f_equal. destruct (find_idx (λ x0 : Z, x0 =? c) l); simpl; lia.
Qed.

Lemma in_set_ok a acc c : cstr M a acc → in_set (steps M) M a c = Some (mem_of acc c).
Proof.
  intros Hs. pose proof (cstr_fuel _ _ _ Hs) as Hf. revert Hf. generalize (steps M) as fuel.
  revert a Hs. unfold mem_of.
  induction acc as [|x acc IH]; intros a Hs [|fuel] Hf; cbn [in_set length existsb] in *; try lia.
  - apply cstr_nil in Hs. by rewrite Hs.
  - apply cstr_cons in Hs as (Hx & Hp & Hs). rewrite Hp. cbn [mbind option_bind find_idx prefix_len app].
    rewrite (proj2 (Z.eqb_neq x 0)) by done. destruct (c =? x); [done|]. apply IH; [done|lia].
Qed.

Lemma strspn_ok p s a acc : cstr M p s → cstr M a acc →
  strspn M p a = Some (prefix_len (mem_of acc) s).
Proof.
  intros Hs Ha. unfold strspn.
  assert (H : ∀ s fuel p n, cstr M p s → (length s < fuel)%nat →
    strspn_loop fuel M p a n = Some (n + prefix_len (mem_of acc) s)).
  { clear s p Hs. induction s as [|x s IH]; intros [|fuel] p n Hs Hf;
      cbn [strspn_loop length prefix_len] in *; try lia.
    - apply cstr_nil in Hs. rewrite Hs. simpl. f_equal. lia.
    - apply cstr_cons in Hs as (Hx & Hp & Hs). rewrite Hp. cbn [mbind option_bind find_idx prefix_len app].
      rewrite (proj2 (Z.eqb_neq x 0)) by done. rewrite (in_set_ok a acc x Ha). simpl.
      destruct (mem_of acc x); simpl; [|f_equal; lia]. rewrite IH by (done || lia). f_equal. lia. }
  by rewrite (H s) by (done || by eapply cstr_fuel).
Qed.

Lemma strcspn_ok p s a rej : cstr M p s → cstr M a rej →
  strcspn M p a = Some (prefix_len (λ c, negb (mem_of rej c)) s).
Proof.
  intros Hs Ha. unfold strcspn.
  assert (H : ∀ s fuel p n, cstr M p s → (length s < fuel)%nat →
    strcspn_loop fuel M p a n = Some (n + prefix_len (λ c, negb (mem_of rej c)) s)).
  { clear s p Hs. induction s as [|x s IH]; intros [|fuel] p n Hs Hf;
      cbn [strcspn_loop length prefix_len] in *; try lia.
    - apply cstr_nil in Hs. rewrite Hs. simpl. f_equal. lia.
    - apply cstr_cons in Hs as (Hx & Hp & Hs). rewrite Hp. cbn [mbind option_bind find_idx prefix_len app].
      rewrite (proj2 (Z.eqb_neq x 0)) by done. rewrite (in_set_ok a rej x Ha). simpl.
      destruct (mem_of rej x); simpl; [f_equal; lia|]. rewrite IH by (done || lia). f_equal. lia. }
  by rewrite (H s) by (done || by eapply cstr_fuel).
Qed.

Lemma strpbrk_ok p s a ct : cstr M p s → cstr M a ct →
  strpbrk M p a = Some (Z.add p <$> find_idx (mem_of ct) s).
Proof.
  intros Hs Ha. unfold strpbrk. pose proof (cstr_fuel _ _ _ Hs) as Hf. revert Hf.
  generalize (steps M) at 1 2 as fuel. revert p Hs.
  induction s as [|x s IH]; intros p Hs [|fuel] Hf; cbn [strpbrk_loop length] in *; try lia.
  - apply cstr_nil in Hs. by rewrite Hs.
  - apply cstr_cons in Hs as (Hx & Hp & Hs). rewrite Hp. cbn [mbind option_bind find_idx prefix_len app].
    rewrite (proj2 (Z.eqb_neq x 0)) by done. rewrite (in_set_ok a ct x Ha). simpl.
    destruct (mem_of ct x) eqn:E; [simpl; by rewrite Z.add_0_r|]. rewrite IH by (done || lia).
    f_equal. rewrite (find_shift _ _ _ x) by done. simpl. by rewrite E.
Qed.

Lemma skip_spaces_ok p s : cstr M p s → skip_spaces M p = Some (p + prefix_len isspace s).
Proof.
  intros Hs. unfold skip_spaces. pose proof (cstr_fuel _ _ _ Hs) as Hf. revert Hf.
  generalize (steps M) as fuel. revert p Hs.
  induction s as [|x s IH]; intros p Hs [|fuel] Hf; cbn [skip_spaces_loop length prefix_len] in *;
    try lia.
  - apply cstr_nil in Hs. rewrite Hs. simpl. f_equal. lia.
  - apply cstr_cons in Hs as (Hx & Hp & Hs). rewrite Hp. cbn [mbind option_bind find_idx prefix_len app].
    destruct (isspace x); [|f_equal; lia]. rewrite IH by (done || lia). f_equal. lia.
Qed.

(** ** memchr_inv *)

Lemma check_bytes8_ok p l v : bytes_at M p l → zlen l < 2 ^ 32 →
  check_bytes8 M p v (zlen l) = Some (Z.add p <$> find_idx (λ x, negb (x =? v)) l).
Proof.
  intros Hs Hl. unfold check_bytes8. rewrite u32_small by lia.
  pose proof (bytes_fuel _ _ Hs) as Hf. revert Hf.
  generalize (steps M) as fuel. revert p Hs. clear Hl.
  induction l as [|x l IH]; intros p Hs [|fuel] Hf; cbn [check_bytes8_loop length] in *; try lia; [done|].
  rewrite (proj2 (Z.eqb_neq _ 0)) by lia. destruct Hs as [Hp Hs]. rewrite Hp. cbn [mbind option_bind find_idx prefix_len app].
  destruct (x =? v) eqn:E; simpl; [|by rewrite Z.add_0_r].
  replace (Z.of_nat (S (length l)) - 1) with (zlen l) by lia. rewrite IH by (done || lia).
  f_equal. rewrite (find_shift _ _ _ x) by by rewrite E. simpl. by rewrite E.
Qed.

Fixpoint le_val (l : list Z) : Z :=
  match l with [] => 0 | x :: l => x + 2 ^ 8 * le_val l end.

Lemma load_le_ok l p : bytes_at M p l → load_le (length l) M p = Some (le_val l).
Proof.
  revert p. induction l as [|x l IH]; intros p; simpl; [done|]. intros [Hp Hl].
  rewrite Hp. cbn [mbind option_bind find_idx prefix_len app]. by rewrite IH.
Qed.

Lemma le_val_inj l1 l2 : length l1 = length l2 → Forall (λ x, is_u8 x) l1 →
  Forall (λ x, is_u8 x) l2 → le_val l1 = le_val l2 → l1 = l2.
Proof.
  revert l2. induction l1 as [|x l1 IH]; intros [|y l2] Hl H1 H2 E; try done.
  apply Forall_cons in H1 as [Hx H1], H2 as [Hy H2]. simpl in E.
  assert (x = y ∧ le_val l1 = le_val l2) as [-> E'] by lia.
  f_equal. apply IH; [by injection Hl|done..].
Qed.

Lemma lor_shift v w : 0 ≤ w → 0 ≤ v < 2 ^ w → v .| Z.shiftl v w = v + 2 ^ w * v.
Proof.
  intros Hw Hv. assert (Hd : v .& Z.shiftl v w = 0).
  { apply Z.bits_inj'. intros i Hi. autorewrite with bits.
    destruct (decide (i < w)).
    - by rewrite (Z.testbit_neg_r v (i - w)), !andb_false_r by lia.
    - by rewrite (testbit_high w v i) by lia. }
  rewrite <- Z.lxor_lor, <- Z.add_nocarry_lxor by done.
  rewrite Z.shiftl_mul_pow2 by lia. lia.
Qed.

(** The multiplication-free replication of a byte over a word. *)
Lemma value64_ok v : is_u8 v →
  let a := v .| (v <<64 8) in
  let b := a .| (a <<64 16) in
  b .| (b <<64 32) = le_val (replicate 8 v).
Proof.
  intros Hv a b.
  assert (Ha : a = v + 2 ^ 8 * v).
  { unfold a. rewrite u64_small by (rewrite Z.shiftl_mul_pow2; lia). apply lor_shift; lia. }
  assert (Hb : b = a + 2 ^ 16 * a).
  { unfold b. rewrite u64_small by (rewrite Z.shiftl_mul_pow2; lia). apply lor_shift; lia. }
  rewrite u64_small by (rewrite Z.shiftl_mul_pow2; lia).
  rewrite lor_shift by lia. simpl. lia.
Qed.

Lemma find_idx_app P l1 l2 :
  find_idx P (l1 ++ l2) = match find_idx P l1 with
                          | Some i => Some i
                          | None => Z.add (zlen l1) <$> find_idx P l2
                          end.
Proof.
  induction l1 as [|x l1 IH]; simpl.
  - destruct (find_idx P l2); done.
  - destruct (P x); [done|]. rewrite IH. destruct (find_idx P l1); [done|].
    destruct (find_idx P l2); simpl; [f_equal; lia|done].
Qed.

Lemma find_idx_replicate v n : find_idx (λ x, negb (x =? v)) (replicate n v) = None.
Proof. apply find_idx_None. intros x [-> _]%elem_of_replicate. by rewrite Z.eqb_refl. Qed.

Lemma find_idx_none_replicate v l :
  find_idx (λ x, negb (x =? v)) l = None → l = replicate (length l) v.
Proof.
  induction l as [|x l IH]; simpl; [done|]. destruct (Z.eqb_spec x v) as [->|]; simpl; [|done].
  rewrite fmap_None. intros H. f_equal. auto.
Qed.

Lemma words_ok v k : is_u8 v → ∀ fuel l p, bytes_at M p l → Forall (λ x, is_u8 x) l →
  length l = (8 * k)%nat → (k < fuel)%nat →
  match find_idx (λ x, negb (x =? v)) l with
  | None => memchr_inv_words fuel M p v (le_val (replicate 8 v)) (Z.of_nat k)
            = Some (p + zlen l, None)
  | Some i => ∃ st, memchr_inv_words fuel M p v (le_val (replicate 8 v)) (Z.of_nat k)
                    = Some (st, Some (Some (p + i)))
  end.
Proof.
  intros Hv. induction k as [|k IH]; intros [|fuel] l p Hb Hu Hl Hf; try lia.
  { destruct l; [|simpl in Hl; lia]. simpl. by rewrite Z.add_0_r. }
  assert (∃ w l', l = w ++ l' ∧ length w = 8%nat) as (w & l' & -> & Hw).
  { exists (take 8 l), (drop 8 l). rewrite take_drop, length_take. split; [done|lia]. }
  rewrite length_app in Hl. apply bytes_at_app in Hb as [Hb1 Hb2].
  apply Forall_app in Hu as [Hu1 Hu2]. cbn [memchr_inv_words].
  rewrite (proj2 (Z.eqb_neq _ 0)) by lia.
  pose proof (load_le_ok w p Hb1) as Hload. rewrite Hw in Hload. rewrite Hload.
  cbn [mbind option_bind]. rewrite find_idx_app.
  destruct (Z.eqb_spec (le_val w) (le_val (replicate 8 v))) as [E|E]; cbn [negb].
  - apply le_val_inj in E; [|done|done|by apply Forall_replicate]. rewrite E, find_idx_replicate.
    replace (Z.of_nat (S k) - 1) with (Z.of_nat k) by lia.
    specialize (IH fuel l' (p + 8)).
    replace (p + 8) with (p + zlen w) in IH by lia. specialize (IH Hb2 Hu2 ltac:(lia) ltac:(lia)).
    replace (p + zlen w) with (p + 8) in IH by lia. rewrite length_replicate.
    destruct (find_idx (λ x, negb (x =? v)) l') as [i|]; simpl fmap.
    + destruct IH as [st ->]. exists st. do 4 f_equal. lia.
    + rewrite IH. do 2 f_equal. rewrite length_app, length_replicate. lia.
  - pose proof (check_bytes8_ok p w v Hb1 ltac:(lia)) as Hc. rewrite Hw in Hc.
    change (Z.of_nat 8) with 8 in Hc. rewrite Hc. cbn [mbind option_bind].
    destruct (find_idx (λ x, negb (x =? v)) w) as [i|] eqn:Ei; [by exists p|].
    apply find_idx_none_replicate in Ei. rewrite Hw in Ei. by subst w.
Qed.

Lemma memchr_inv_ok p l c : bytes_at M p l → Forall (λ x, is_u8 x) l → zlen l < 2 ^ 35 →
  memchr_inv M p c (zlen l) = Some (Z.add p <$> find_idx (λ x, negb (x =? u8 c)) l).
Proof.
  intros Hb Hu Hl. unfold memchr_inv. destruct (Z.leb_spec (zlen l) 16).
  { apply check_bytes8_ok; [done|lia]. }
  pose proof (u8_range c) as Hv. rewrite (value64_ok (u8 c) Hv).
  set (pre := if u32 (p mod 8) =? 0 then 0 else 8 - u32 (p mod 8)).
  assert (Hpre : 0 ≤ pre < 8).
  { unfold pre. rewrite u32_small by dlia. destruct (Z.eqb_spec (p mod 8) 0); dlia. }
  assert (∃ l1 l2, l = l1 ++ l2 ∧ zlen l1 = pre) as (l1 & l2 & -> & Hl1).
  { exists (take (Z.to_nat pre) l), (drop (Z.to_nat pre) l). rewrite take_drop, length_take.
    split; [done|lia]. }
  apply bytes_at_app in Hb as [Hb1 Hb2]. apply Forall_app in Hu as [Hu1 Hu2].
  rewrite length_app in *.
  assert (Hck : (if pre =? 0 then Some None else check_bytes8 M p (u8 c) pre)
                = Some (Z.add p <$> find_idx (λ x, negb (x =? u8 c)) l1)).
  { destruct (Z.eqb_spec pre 0).
    - destruct l1; [done|simpl in Hl1; lia].
    - rewrite <- Hl1. apply check_bytes8_ok; [done|lia]. }
  rewrite Hck. cbn [mbind option_bind]. rewrite find_idx_app.
  destruct (find_idx (λ x, negb (x =? u8 c)) l1) as [i|]; [done|]. simpl fmap.
  replace (Z.of_nat (length l1 + length l2) - pre) with (zlen l2) by lia.
  destruct (Z_of_nat_complete (zlen l2 / 8)) as [k Hk]; [dlia|].
  assert (∃ l3 l4, l2 = l3 ++ l4 ∧ length l3 = (8 * k)%nat) as (l3 & l4 & -> & Hl3).
  { exists (take (8 * k) l2), (drop (8 * k) l2). rewrite take_drop, length_take.
    split; [done|]. assert (8 * k ≤ length l2)%nat; [dlia|lia]. }
  apply bytes_at_app in Hb2 as [Hb3 Hb4]. apply Forall_app in Hu2 as [Hu3 Hu4].
  rewrite length_app in *.
  replace (u32 (Z.of_nat (length l3 + length l4) / 8)) with (Z.of_nat k)
    by (rewrite u32_small; dlia).
  rewrite Hl1 in Hb3, Hb4.
  assert (Hf : (k < steps M)%nat).
  { pose proof (bytes_fuel _ _ Hb3). lia. }
  pose proof (words_ok (u8 c) k Hv (steps M) l3 (p + pre) Hb3 Hu3 Hl3 Hf) as Hw.
  rewrite find_idx_app. rewrite Hl1.
  destruct (find_idx (λ x, negb (x =? u8 c)) l3) as [i|].
  - destruct Hw as [st ->]. simpl. do 2 f_equal. lia.
  - rewrite Hw. cbn [mbind option_bind].
    replace (Z.of_nat (length l3 + length l4) `mod` 8) with (zlen l4) by dlia.
    rewrite check_bytes8_ok; [|done|dlia]. f_equal.
    destruct (find_idx (λ x, negb (x =? u8 c)) l4); simpl; [f_equal; lia|done].
Qed.

(** ** Comparison *)

Fixpoint lex (a b : list Z) : Z :=
  match a, b with
  | [], [] => 0
  | [], _ => -1
  | _, [] => 1
  | x :: a, y :: b => if x =? y then lex a b else if x <? y then -1 else 1
  end.

Lemma lex_zero a b : lex a b = 0 ↔ a = b.
Proof.
  revert b. induction a as [|x a IH]; intros [|y b]; simpl; try (split; done).
  destruct (Z.eqb_spec x y) as [->|Hne].
  - rewrite IH. split; [by intros ->|]. by intros [= ->].
  - split; [|by intros [= ? ?]]. by destruct (x <? y).
Qed.

Definition pos (s : list Z) : Prop := Forall (λ c, 0 ≤ c) s.

Lemma strcmp_ok p a q b : cstr M p a → cstr M q b → pos a → pos b →
  strcmp M p q = Some (lex a b).
Proof.
  intros Ha Hb. unfold strcmp. pose proof (cstr_fuel _ _ _ Ha) as Hf. revert Hf.
  generalize (steps M) as fuel. revert p q b Ha Hb.
  induction a as [|x a IH]; intros p q b Ha Hb [|fuel] Hf Pa Pb; cbn [strcmp_loop length] in *; try lia.
  - apply cstr_nil in Ha. rewrite Ha. destruct b as [|y b].
    + apply cstr_nil in Hb. by rewrite Hb.
    + apply cstr_cons in Hb as (Hy & Hq & Hb). rewrite Hq. cbn [mbind option_bind].
      apply Forall_cons in Pb as [Hy' _].
      rewrite (proj2 (Z.eqb_neq 0 y)), (proj2 (Z.ltb_lt 0 y)) by lia. done.
  - apply cstr_cons in Ha as (Hx & Hp & Ha). rewrite Hp. cbn [mbind option_bind].
    apply Forall_cons in Pa as [Hx' Pa]. destruct b as [|y b].
    + apply cstr_nil in Hb. rewrite Hb. cbn [mbind option_bind lex].
      rewrite (proj2 (Z.eqb_neq x 0)), (proj2 (Z.ltb_ge x 0)) by lia. done.
    + apply cstr_cons in Hb as (Hy & Hq & Hb). rewrite Hq. cbn [mbind option_bind lex].
      apply Forall_cons in Pb as [Hy' Pb].
      destruct (Z.eqb_spec x y) as [->|]; cbn [negb]; [|done].
      rewrite (proj2 (Z.eqb_neq y 0)) by done. apply IH; (done || lia).
Qed.

Lemma strncmp_ok p a q b n : cstr M p a → cstr M q b → pos a → pos b → 0 ≤ n →
  strncmp M p q n = Some (lex (take (Z.to_nat n) a) (take (Z.to_nat n) b)).
Proof.
  intros Ha Hb. unfold strncmp. pose proof (cstr_fuel _ _ _ Ha) as Hf. revert Hf.
  generalize (steps M) as fuel. revert p q b n Ha Hb.
  induction a as [|x a IH]; intros p q b n Ha Hb [|fuel] Hf Pa Pb Hn; cbn [strncmp_loop length] in *;
    try lia; (destruct (Z.eqb_spec n 0) as [->|]; [by rewrite !take_0|]);
    replace (Z.to_nat n) with (S (Z.to_nat (n - 1))) by lia.
  - apply cstr_nil in Ha. rewrite Ha. destruct b as [|y b].
    + apply cstr_nil in Hb. by rewrite Hb.
    + apply cstr_cons in Hb as (Hy & Hq & Hb). rewrite Hq. cbn [mbind option_bind].
      apply Forall_cons in Pb as [Hy' _].
      rewrite (proj2 (Z.eqb_neq 0 y)), (proj2 (Z.ltb_lt 0 y)) by lia. done.
  - apply cstr_cons in Ha as (Hx & Hp & Ha). rewrite Hp. cbn [mbind option_bind].
    apply Forall_cons in Pa as [Hx' Pa]. destruct b as [|y b].
    + apply cstr_nil in Hb. rewrite Hb. cbn [mbind option_bind].
      rewrite (proj2 (Z.eqb_neq x 0)), (proj2 (Z.ltb_ge x 0)) by lia. done.
    + apply cstr_cons in Hb as (Hy & Hq & Hb). rewrite Hq. cbn [mbind option_bind lex take].
      apply Forall_cons in Pb as [Hy' Pb].
      destruct (Z.eqb_spec x y) as [->|]; cbn [negb]; [|done].
      rewrite (proj2 (Z.eqb_neq y 0)) by done. apply IH; (done || lia).
Qed.

(** The difference of the first two bytes that differ, or 0. *)
Fixpoint diff (a b : list Z) : Z :=
  match a, b with
  | x :: a, y :: b => if x - y =? 0 then diff a b else x - y
  | _, _ => 0
  end.

Lemma diff_zero a b : length a = length b → diff a b = 0 ↔ a = b.
Proof.
  revert b. induction a as [|x a IH]; intros [|y b] Hl; simpl in *; try done.
  destruct (Z.eqb_spec (x - y) 0).
  - rewrite IH by lia. split; [intros ->; f_equal; lia|]. by intros [= ->].
  - split; [lia|]. intros [= ? ?]. lia.
Qed.

Lemma memcmp_ok p a q b : bytes_at M p a → bytes_at M q b → length a = length b →
  memcmp M p q (zlen a) = Some (diff a b).
Proof.
  intros Ha Hb. unfold memcmp. pose proof (bytes_fuel _ _ Ha) as Hf. revert Hf.
  generalize (steps M) as fuel. revert p q b Ha Hb.
  induction a as [|x a IH]; intros p q [|y b] Ha Hb [|fuel] Hf Hl; cbn [memcmp_loop length] in *;
    try lia; [done|].
  rewrite (proj2 (Z.ltb_lt 0 _)) by lia. destruct Ha as [Hp Ha], Hb as [Hq Hb]. rewrite Hp, Hq.
  cbn [mbind option_bind diff]. destruct (Z.eqb_spec (x - y) 0); cbn [negb]; [|done].
  replace (Z.of_nat (S (length a)) - 1) with (zlen a) by lia. apply IH; (done || lia).
Qed.

Definition nl_eq (a b : list Z) : Prop := a = b ∨ a = b ++ [10] ∨ b = a ++ [10].

Lemma sysfs_streq_ok p a q b : cstr M p a → cstr M q b →
  ∃ r, sysfs_streq M p q = Some r ∧ (r = true ↔ nl_eq a b).
Proof.
  intros Ha Hb. unfold sysfs_streq. pose proof (cstr_fuel _ _ _ Ha) as Hf. revert Hf.
  generalize (steps M) as fuel. revert p q b Ha Hb.
  induction a as [|x a IH]; intros p q b Ha Hb [|fuel] Hf; cbn [sysfs_loop length] in *; try lia.
  - apply cstr_nil in Ha. rewrite Ha. cbn [mbind option_bind]. rewrite Z.eqb_refl.
    cbn [mbind option_bind]. rewrite Ha. cbn [mbind option_bind]. destruct b as [|y b].
    + apply cstr_nil in Hb. rewrite Hb. cbn [mbind option_bind]. rewrite Z.eqb_refl.
      exists true. split; [done|]. split; [by left|done].
    + apply cstr_cons in Hb as (Hy & Hq & Hb). rewrite Hq. cbn [mbind option_bind].
      rewrite (proj2 (Z.eqb_neq 0 y)) by done. rewrite Z.eqb_refl. cbn [andb].
      assert (Hnl : nl_eq [] (y :: b) ↔ y = 10 ∧ b = []).
      { unfold nl_eq. split.
        - intros [?|[?|?]]; [done..|]. simpl in *. by simplify_eq.
        - intros [-> ->]. auto. }
      setoid_rewrite Hnl. destruct (Z.eqb_spec y 10) as [->|]; cbn [mbind option_bind].
      * destruct b as [|z b].
        -- apply cstr_nil in Hb. rewrite Hb. cbn. exists true. done.
        -- apply cstr_cons in Hb as (Hz & Hq' & Hb). rewrite Hq'. cbn [mbind option_bind].
           rewrite (proj2 (Z.eqb_neq z 0)) by done. exists false. naive_solver.
      * exists false. naive_solver.
  - apply cstr_cons in Ha as (Hx & Hp & Ha). rewrite Hp. cbn [mbind option_bind].
    rewrite (proj2 (Z.eqb_neq x 0)) by done. destruct b as [|y b].
    + apply cstr_nil in Hb. rewrite Hb. cbn [mbind option_bind].
      rewrite (proj2 (Z.eqb_neq x 0)) by done. cbn [mbind option_bind].
      rewrite Hp, Hb. cbn [mbind option_bind].
      rewrite (proj2 (Z.eqb_neq x 0)) by done. cbn [andb mbind option_bind].
      assert (Hnl : nl_eq (x :: a) [] ↔ x = 10 ∧ a = []).
      { unfold nl_eq. split.
        - intros [?|[?|?]]; try done. simpl in *. by simplify_eq.
        - intros [-> ->]. auto. }
      setoid_rewrite Hnl. destruct (Z.eqb_spec x 10) as [->|]; cbn [mbind option_bind].
      * destruct a as [|z a].
        -- apply cstr_nil in Ha. rewrite Ha. cbn. exists true. done.
        -- apply cstr_cons in Ha as (Hz & Hp' & Ha). rewrite Hp'. cbn [mbind option_bind].
           rewrite (proj2 (Z.eqb_neq z 0)) by done. exists false. naive_solver.
      * exists false. naive_solver.
    + pose proof Hb as Hb0. apply cstr_cons in Hb as (Hy & Hq & Hb). rewrite Hq.
      cbn [mbind option_bind]. destruct (Z.eqb_spec x y) as [<-|Hne].
      * destruct (IH (p + 1) (q + 1) b Ha Hb fuel ltac:(lia)) as (r & -> & Hr).
        exists r. split; [done|]. rewrite Hr. unfold nl_eq. simpl. naive_solver.
      * cbn [mbind option_bind]. rewrite Hp, Hq. cbn [mbind option_bind].
        rewrite (proj2 (Z.eqb_neq x y)), (proj2 (Z.eqb_neq x 0)) by done.
        cbn [andb mbind option_bind]. exists false. split.
        -- destruct (x =? 10); [|done]. destruct a as [|z a].
           ++ apply cstr_nil in Ha. rewrite Ha. cbn [mbind option_bind].
              by rewrite (proj2 (Z.eqb_neq y 0)), andb_false_r by done.
           ++ apply cstr_cons in Ha as (Hz & Hp' & Ha). rewrite Hp'. cbn [mbind option_bind].
              by rewrite (proj2 (Z.eqb_neq y 0)), andb_false_r by done.
        -- unfold nl_eq. split; [done|]. intros [?|[?|?]]; simpl in *; simplify_eq.
Qed.
End reading.

(** ** Substrings *)

Fixpoint find_sub (l1 l2 : list Z) : option Z :=
  if bool_decide (take (length l2) l1 = l2) then Some 0
  else match l1 with [] => None | _ :: l1 => Z.succ <$> find_sub l1 l2 end.

Lemma find_sub_short l1 l2 : (length l1 < length l2)%nat → find_sub l1 l2 = None.
Proof.
  induction l1 as [|x l1 IH]; intros Hl; simpl.
  - rewrite bool_decide_false; [done|]. intros E. apply (f_equal length) in E.
    rewrite take_nil in E. simpl in *. lia.
  - rewrite bool_decide_false; [rewrite IH; [done|simpl in Hl; lia]|].
    intros E. apply (f_equal length) in E. rewrite length_take in E. simpl in *. lia.
Qed.

Lemma strstr_loop_ok M q l2 : l2 ≠ [] → bytes_at M q l2 → ∀ l1 fuel p,
  bytes_at M p l1 → (length l1 < fuel)%nat →
  strstr_loop fuel M p q (zlen l1) (zlen l2) = Some (Z.add p <$> find_sub l1 l2).
Proof.
  intros Hne Hq. induction l1 as [|x l1 IH]; intros [|fuel] p Hp Hf; cbn [strstr_loop]; try lia.
  - destruct (Z.leb_spec (zlen l2) (zlen (@nil Z))).
    + destruct l2; [done|]. simpl in *. lia.
    + rewrite find_sub_short; [done|]. destruct l2; [done|]. simpl. lia.
  - destruct (Z.leb_spec (zlen l2) (zlen (x :: l1))).
    2:{ rewrite find_sub_short; [done|lia]. }
    assert (Hb : bytes_at M p (take (length l2) (x :: l1))).
    { rewrite <- (take_drop (length l2) (x :: l1)) in Hp. by apply bytes_at_app in Hp as [? _]. }
    assert (Hl : length (take (length l2) (x :: l1)) = length l2)
      by (rewrite length_take; lia).
    pose proof (memcmp_ok M p _ q l2 Hb Hq Hl) as Hm. rewrite Hl in Hm. rewrite Hm.
    cbn [mbind option_bind]. destruct (Z.eqb_spec (diff (take (length l2) (x :: l1)) l2) 0) as [E|E].
    + apply diff_zero in E; [|done]. cbn [find_sub]. rewrite bool_decide_true by done. simpl.
      by rewrite Z.add_0_r.
    + assert (take (length l2) (x :: l1) ≠ l2) by (intros E'; apply E; by apply diff_zero).
      cbn [find_sub]. rewrite bool_decide_false by done.
      replace (zlen (x :: l1) - 1) with (zlen l1) by (simpl; lia).
      destruct Hp as [_ Hp]. rewrite IH by (done || (simpl in Hf; lia)).
      destruct (find_sub l1 l2); simpl; [do 2 f_equal; lia|done].
Qed.

Lemma strstr_ok M p a q b : cstr M p a → cstr M q b →
  strstr M p q = Some (Z.add p <$> find_sub a b).
Proof.
  intros Ha Hb. unfold strstr. rewrite (strlen_ok _ _ _ Hb). cbn [mbind option_bind].
  destruct (Z.eqb_spec (zlen b) 0) as [E|E].
  - destruct b; [|simpl in E; lia]. destruct a; simpl; by rewrite Z.add_0_r.
  - rewrite (strlen_ok _ _ _ Ha). cbn [mbind option_bind].
    pose proof (cstr_fuel _ _ _ Ha). destruct Ha as [_ Ha], Hb as [_ Hb].
    apply bytes_at_app in Ha as [Ha _], Hb as [Hb _].
    apply strstr_loop_ok; [by intros ->|done..].
Qed.

Lemma strnstr_ok M p l q b : bytes_at M p l → cstr M q b →
  strnstr M p q (zlen l) = Some (Z.add p <$> find_sub l b).
Proof.
  intros Ha Hb. unfold strnstr. rewrite (strlen_ok _ _ _ Hb). cbn [mbind option_bind].
  destruct (Z.eqb_spec (zlen b) 0) as [E|E].
  - destruct b; [|simpl in E; lia]. destruct l; simpl; by rewrite Z.add_0_r.
  - pose proof (bytes_fuel _ _ _ Ha). destruct Hb as [_ Hb]. apply bytes_at_app in Hb as [Hb _].
    apply strstr_loop_ok; [by intros ->|done..].
Qed.

(** ** Case-insensitive comparison *)

Lemma u8_forall (P : Z → bool) :
  forallb P (seqZ 0 256) = true → ∀ c, is_u8 c → P c = true.
Proof.
  intros H c Hc. rewrite forallb_forall in H. apply H. apply list_elem_of_In, elem_of_seqZ. lia.
Qed.

Lemma tolower_zero c : is_u8 c → (tolower c =? 0) = (c =? 0).
Proof.
  intros Hc. apply eqb_prop. revert c Hc. apply u8_forall. vm_compute. reflexivity.
Qed.

Definition u8s (s : list Z) : Prop := Forall (λ x, is_u8 x) s.
Definition folded (s : list Z) : list Z := map tolower s ++ [0].

Lemma strcasecmp_ok M p a q b : cstr M p a → cstr M q b → u8s a → u8s b →
  strcasecmp M p q = Some (diff (folded a) (folded b)).
Proof.
  intros Ha Hb. unfold strcasecmp. pose proof (cstr_fuel _ _ _ Ha) as Hf. revert Hf.
  generalize (steps M) as fuel. revert p q b Ha Hb. unfold folded.
  assert (H0 : tolower 0 = 0) by done.
  induction a as [|x a IH]; intros p q b Ha Hb [|fuel] Hf Ua Ub; cbn [strcasecmp_loop length map app] in *;
    try lia.
  - apply cstr_nil in Ha. rewrite Ha. cbn [mbind option_bind]. destruct b as [|y b].
    + apply cstr_nil in Hb. by rewrite Hb.
    + apply cstr_cons in Hb as (Hy & Hq & Hb). rewrite Hq. cbn [mbind option_bind map app diff].
      apply Forall_cons in Ub as [Uy _]. pose proof (tolower_zero y Uy) as Ty.
      rewrite (proj2 (Z.eqb_neq y 0)) in Ty by done. apply Z.eqb_neq in Ty. rewrite H0.
      rewrite (proj2 (Z.eqb_neq 0 (tolower y))), (proj2 (Z.eqb_neq (0 - tolower y) 0)) by lia. done.
  - apply cstr_cons in Ha as (Hx & Hp & Ha). rewrite Hp. cbn [mbind option_bind].
    apply Forall_cons in Ua as [Ux Ua]. pose proof (tolower_zero x Ux) as Tx.
    rewrite (proj2 (Z.eqb_neq x 0)) in Tx by done. destruct b as [|y b].
    + apply cstr_nil in Hb. rewrite Hb. cbn [mbind option_bind map app diff]. rewrite H0, Tx.
      rewrite Z.sub_0_r, Tx. done.
    + apply cstr_cons in Hb as (Hy & Hq & Hb). rewrite Hq. cbn [mbind option_bind map app diff].
      apply Forall_cons in Ub as [Uy Ub]. rewrite Tx. cbn [negb]. rewrite andb_true_r.
      destruct (Z.eqb_spec (tolower x) (tolower y)) as [E|E].
      * rewrite E, Z.sub_diag. simpl. apply IH; (done || lia).
      * rewrite (proj2 (Z.eqb_neq _ 0)) by lia. done.
Qed.

Lemma strncasecmp_ok M p a q b n : cstr M p a → cstr M q b → u8s a → u8s b → 0 < n < 2 ^ 64 →
  strncasecmp M p q n
  = Some (diff (take (Z.to_nat n) (folded a)) (take (Z.to_nat n) (folded b))).
Proof.
  intros Ha Hb. unfold strncasecmp. pose proof (cstr_fuel _ _ _ Ha) as Hf. revert Hf.
  generalize (steps M) as fuel. revert p q b n Ha Hb. unfold folded.
  assert (H0 : tolower 0 = 0) by done.
  induction a as [|x a IH]; intros p q b n Ha Hb [|fuel] Hf Ua Ub Hn;
    cbn [strncasecmp_loop length map app] in *; try lia;
    replace (Z.to_nat n) with (S (Z.to_nat (n - 1))) by lia; rewrite (u64_small (n - 1)) by lia.
  - apply cstr_nil in Ha. rewrite Ha. cbn [mbind option_bind take]. destruct b as [|y b].
    + apply cstr_nil in Hb. rewrite Hb. cbn [mbind option_bind map app take diff]. rewrite take_nil.
      destruct (0 <? n - 1); done.
    + apply cstr_cons in Hb as (Hy & Hq & Hb). rewrite Hq. cbn [mbind option_bind map app take diff].
      apply Forall_cons in Ub as [Uy _]. pose proof (tolower_zero y Uy) as Ty.
      rewrite (proj2 (Z.eqb_neq y 0)) in Ty by done. apply Z.eqb_neq in Ty. rewrite H0.
      rewrite (proj2 (Z.eqb_neq 0 (tolower y))), (proj2 (Z.eqb_neq (0 - tolower y) 0)) by lia.
      by rewrite andb_false_r.
  - apply cstr_cons in Ha as (Hx & Hp & Ha). rewrite Hp. cbn [mbind option_bind take].
    apply Forall_cons in Ua as [Ux Ua]. pose proof (tolower_zero x Ux) as Tx.
    rewrite (proj2 (Z.eqb_neq x 0)) in Tx by done. destruct b as [|y b].
    + apply cstr_nil in Hb. rewrite Hb. cbn [mbind option_bind map app take diff]. rewrite H0, Tx.
      rewrite Z.sub_0_r, Tx, andb_false_r. done.
    + apply cstr_cons in Hb as (Hy & Hq & Hb). rewrite Hq. cbn [mbind option_bind map app take diff].
      apply Forall_cons in Ub as [Uy Ub]. rewrite Tx. cbn [negb]. rewrite andb_true_r.
      destruct (Z.eqb_spec (tolower x) (tolower y)) as [E|E].
      * rewrite E, Z.sub_diag. simpl (0 =? 0). cbn iota. rewrite andb_true_r.
        destruct (Z.ltb_spec 0 (n - 1)).
        -- apply IH; (done || lia).
        -- by replace (Z.to_nat (n - 1)) with 0%nat by lia.
      * rewrite (proj2 (Z.eqb_neq _ 0)) by lia. by rewrite andb_false_r.
Qed.

Lemma strnicmp_ok M p a q b n : cstr M p a → cstr M q b → u8s a → u8s b → 0 ≤ n < 2 ^ 64 →
  ∃ r, strnicmp M p q n = Some r ∧
       (r = 0 ↔ take (Z.to_nat n) (folded a) = take (Z.to_nat n) (folded b)).
Proof.
  intros Ha Hb Ua Ub Hn. unfold strnicmp. destruct (Z.eqb_spec n 0) as [->|Hn0]; [by exists 0|].
  assert (H0 : 0 < n) by lia. clear Hn0. pose proof (cstr_fuel _ _ _ Ha) as Hf. revert Hf.
  generalize (steps M) as fuel. revert p q b n Ha Hb Ua Ub Hn H0. unfold folded.
  induction a as [|x a IH]; intros p q b n Ha Hb Ua Ub Hn H0 [|fuel] Hf;
    cbn [strnicmp_loop length map app] in *; try lia;
    replace (Z.to_nat n) with (S (Z.to_nat (n - 1))) by lia; rewrite (u64_small (n - 1)) by lia.
  - apply cstr_nil in Ha. rewrite Ha. cbn [mbind option_bind take]. destruct b as [|y b].
    + apply cstr_nil in Hb. rewrite Hb. exists 0. split; [done|]. done.
    + apply cstr_cons in Hb as (Hy & Hq & Hb). rewrite Hq. cbn [mbind option_bind map app take].
      rewrite Z.eqb_refl. cbn [orb]. exists (0 - y). split; [done|].
      apply Forall_cons in Ub as [Uy _]. pose proof (tolower_zero y Uy) as Ty.
      rewrite (proj2 (Z.eqb_neq y 0)) in Ty by done. apply Z.eqb_neq in Ty.
      split; [lia|]. by intros [= ? _].
  - apply cstr_cons in Ha as (Hx & Hp & Ha). rewrite Hp. cbn [mbind option_bind take].
    apply Forall_cons in Ua as [Ux Ua]. pose proof (tolower_zero x Ux) as Tx.
    rewrite (proj2 (Z.eqb_neq x 0)) in Tx by done. apply Z.eqb_neq in Tx.
    rewrite (proj2 (Z.eqb_neq x 0)) by done. destruct b as [|y b].
    + apply cstr_nil in Hb. rewrite Hb. cbn [mbind option_bind map app take orb].
      rewrite Z.eqb_refl. exists (x - 0). split; [done|]. split; [lia|]. by intros [= ? _].
    + apply cstr_cons in Hb as (Hy & Hq & Hb). rewrite Hq. cbn [mbind option_bind map app take].
      apply Forall_cons in Ub as [Uy Ub]. rewrite (proj2 (Z.eqb_neq y 0)) by done. cbn [orb].
      assert (Hagain : ∀ c1 c2, c1 - c2 = 0 → tolower x = tolower y →
        ∃ r, (if n - 1 =? 0 then Some (c1 - c2)
              else strnicmp_loop fuel M (p + 1) (q + 1) (n - 1)) = Some r ∧
             (r = 0 ↔ tolower x :: take (Z.to_nat (n - 1)) (map tolower a ++ [0]) =
                      tolower y :: take (Z.to_nat (n - 1)) (map tolower b ++ [0]))).
      { intros c1 c2 Hc Et. rewrite Et. destruct (Z.eqb_spec (n - 1) 0) as [E|E].
        - exists (c1 - c2). split; [done|]. replace (Z.to_nat (n - 1)) with 0%nat by lia. done.
        - destruct (IH (p + 1) (q + 1) b (n - 1) Ha Hb Ua Ub ltac:(lia) ltac:(lia) fuel ltac:(lia))
            as (r & -> & Hr). exists r. split; [done|]. rewrite Hr. split; [by intros ->|by intros [= ->]]. }
      destruct (Z.eqb_spec x y) as [->|Hne]; [apply Hagain; [lia|done]|].
      destruct (Z.eqb_spec (tolower x) (tolower y)) as [E|E]; cbn [negb].
      * apply Hagain; [lia|done].
      * exists (tolower x - tolower y). split; [done|]. split; [lia|]. by intros [= ? _].
Qed.
