(* ===== verification/StringsCopy.v ===== *)
(** * StringsCopy: the routines of lib/string.c that write memory

    Each copying routine leaves exactly [put M p l]: the bytes [l] at [p] and
    everything else unchanged; and the properties of the string routines. *)

From S2P Require Import Prelude Strings StringsThm.

(** ** Blocks of bytes *)

Lemma bytes_mapped M p l : bytes_at M p l → mapped M p (zlen l).
Proof.
  rewrite bytes_at_lookup. intros H a Ha.
  destruct (l !! Z.to_nat (a - p)) as [x|] eqn:E.
  - exists x. apply H in E. by replace (p + Z.of_nat (Z.to_nat (a - p))) with a in E by lia.
  - apply lookup_ge_None in E. lia.
Qed.

Lemma mapped_insert M p n q x : mapped M p n → mapped (<[q := x]> M) p n.
Proof.
  intros H a Ha. destruct (decide (a = q)) as [->|].
  - rewrite lookup_insert_eq. eauto.
  - rewrite lookup_insert_ne by done. auto.
Qed.

Lemma bytes_insert M p l q x :
  q < p ∨ p + zlen l ≤ q → bytes_at M p l → bytes_at (<[q := x]> M) p l.
Proof. intros H. apply (bytes_at_put_other M q [x]). simpl. lia. Qed.

Lemma memset_ok M p c n : 0 ≤ n → mapped M p n →
  memset M p c n = Some (put M p (replicate (Z.to_nat n) (u8 c))).
Proof.
  intros Hn Hm. unfold memset.
  assert (H : ∀ k fuel M p, mapped M p (Z.of_nat k) → (k < fuel)%nat →
    memset_loop fuel M p c (Z.of_nat k) = Some (put M p (replicate k (u8 c)))).
  { clear. induction k as [|k IH]; intros [|fuel] M p Hm Hf; cbn [memset_loop replicate put]; try lia;
      [done|].
    rewrite (proj2 (Z.eqb_neq _ 0)) by lia. rewrite poke_mapped by (apply Hm; lia).
    cbn [mbind option_bind put]. replace (Z.of_nat (S k) - 1) with (Z.of_nat k) by lia.
    apply IH; [|lia]. apply mapped_insert. intros a Ha. apply Hm. lia. }
  rewrite <- (Z2Nat.id n) at 1 by done. apply H; rewrite ?Z2Nat.id by done; [done|].
  pose proof (mapped_size M p n Hn Hm). unfold steps. lia.
Qed.

Lemma memcpy_loop_ok l : ∀ fuel M dest src,
  bytes_at M src l → mapped M dest (zlen l) → dest ≤ src ∨ src + zlen l ≤ dest →
  (length l < fuel)%nat →
  memcpy_loop fuel M dest src (zlen l) = Some (put M dest l).
Proof.
  induction l as [|x l IH]; intros [|fuel] M dest src Hs Hd Hov Hf; cbn [memcpy_loop put length] in *;
    try lia; [done|].
  rewrite (proj2 (Z.eqb_neq _ 0)) by lia. destruct Hs as [Hx Hs]. rewrite Hx.
  cbn [mbind option_bind]. rewrite poke_mapped by (apply Hd; lia). cbn [mbind option_bind put].
  replace (Z.of_nat (S (length l)) - 1) with (zlen l) by lia.
  apply IH; [apply bytes_insert; [lia|done]| |lia|lia].
  apply mapped_insert. intros a Ha. apply Hd. lia.
Qed.

Lemma memcpy_ok M dest src l :
  bytes_at M src l → mapped M dest (zlen l) → dest ≤ src ∨ src + zlen l ≤ dest →
  memcpy M dest src (zlen l) = Some (put M dest l).
Proof. intros. apply memcpy_loop_ok; try done. by eapply bytes_fuel. Qed.

Lemma memmove_down_ok l : ∀ fuel M dest src,
  bytes_at M src l → mapped M dest (zlen l) → src < dest → (length l < fuel)%nat →
  memmove_down_loop fuel M (dest + zlen l) (src + zlen l) (zlen l) = Some (put M dest l).
Proof.
  induction l as [|x l IH] using rev_ind; intros [|fuel] M dest src Hs Hd Hov Hf;
    cbn [memmove_down_loop]; try lia; [done|].
  rewrite length_app in *. simpl length in *. rewrite (proj2 (Z.eqb_neq _ 0)) by lia.
  apply bytes_at_app in Hs as [Hs [Hx _]].
  replace (src + Z.of_nat (length l + 1) - 1) with (src + zlen l) by lia. rewrite Hx.
  cbn [mbind option_bind].
  replace (dest + Z.of_nat (length l + 1) - 1) with (dest + zlen l) by lia.
  rewrite poke_mapped by (apply Hd; lia). cbn [mbind option_bind put].
  replace (Z.of_nat (length l + 1) - 1) with (zlen l) by lia.
  rewrite IH; [| |by apply mapped_insert; intros a Ha; apply Hd; lia|done|lia].
  - f_equal. rewrite put_snoc. apply map_eq. intros a.
    destruct (decide (a = dest + zlen l)) as [->|].
    + rewrite lookup_insert_eq, put_lookup. destruct (Z.ltb_spec (dest + zlen l) (dest + zlen l)); [lia|].
      rewrite andb_false_r. apply lookup_insert_eq.
    + rewrite lookup_insert_ne by done. rewrite !put_lookup, lookup_insert_ne by done. done.
  - apply bytes_insert; [lia|done].
Qed.

Lemma memmove_ok M dest src l :
  bytes_at M src l → mapped M dest (zlen l) →
  memmove M dest src (zlen l) = Some (put M dest l).
Proof.
  intros Hs Hd. pose proof (bytes_fuel _ _ _ Hs). unfold memmove.
  destruct (Z.leb_spec dest src).
  - apply memcpy_loop_ok; try done. by left.
  - by apply memmove_down_ok.
Qed.

(** ** Strings *)

Lemma strcpy_loop_ok s : ∀ fuel M dest src,
  cstr M src s → mapped M dest (zlen s + 1) → dest ≤ src ∨ src + zlen s + 1 ≤ dest →
  (length s < fuel)%nat →
  strcpy_loop fuel M dest src = Some (put M dest (s ++ [0])).
Proof.
  induction s as [|x s IH]; intros [|fuel] M dest src Hs Hd Hov Hf;
    cbn [strcpy_loop put app length] in *; try lia.
  - apply cstr_nil in Hs. rewrite Hs. cbn [mbind option_bind].
    rewrite poke_mapped by (apply Hd; lia). done.
  - apply cstr_cons in Hs as (Hx & Hp & Hs). rewrite Hp. cbn [mbind option_bind].
    rewrite poke_mapped by (apply Hd; lia). cbn [mbind option_bind put].
    rewrite (proj2 (Z.eqb_neq x 0)) by done.
    apply IH; [|apply mapped_insert; intros a Ha; apply Hd; lia|lia|lia].
    destruct Hs as [Hn Hs]. split; [done|]. apply bytes_insert; [|done].
    rewrite length_app. simpl. lia.
Qed.

Lemma strcpy_ok M dest src s :
  cstr M src s → mapped M dest (zlen s + 1) → dest ≤ src ∨ src + zlen s + 1 ≤ dest →
  strcpy M dest src = Some (put M dest (s ++ [0])).
Proof. intros Hs ? ?. apply strcpy_loop_ok; try done. by eapply cstr_fuel. Qed.

(** [count] bytes: the string, cut or padded with NUL. *)
Definition padded (n : nat) (s : list Z) : list Z := take n s ++ replicate (n - length s) 0.

Lemma strncpy_ok M dest src s n :
  cstr M src s → 0 ≤ n → mapped M dest n → dest + n ≤ src ∨ src + zlen s + 1 ≤ dest →
  strncpy M dest src n = Some (put M dest (padded (Z.to_nat n) s)).
Proof.
  intros Hs Hn Hd Hov. unfold strncpy.
  assert (H : ∀ k fuel M dest src s, cstr M src s → mapped M dest (Z.of_nat k) →
    dest + Z.of_nat k ≤ src ∨ src + zlen s + 1 ≤ dest → (k < fuel)%nat →
    strncpy_loop fuel M dest src (Z.of_nat k) = Some (put M dest (padded k s))).
  { clear. unfold padded.
    induction k as [|k IH]; intros [|fuel] M dest src s Hs Hd Hov Hf; cbn [strncpy_loop]; try lia; [done|].
    rewrite (proj2 (Z.eqb_neq _ 0)) by lia.
    replace (Z.of_nat (S k) - 1) with (Z.of_nat k) by lia.
    assert (Hd' : ∀ x, mapped (<[dest := x]> M) (dest + 1) (Z.of_nat k)).
    { intros x. apply mapped_insert. intros a Ha. apply Hd. lia. }
    destruct s as [|x s].
    - pose proof Hs as Hs0. apply cstr_nil in Hs. rewrite Hs. cbn [mbind option_bind].
      rewrite poke_mapped by (apply Hd; lia). cbn [mbind option_bind put]. rewrite Z.eqb_refl.
      rewrite (IH fuel _ (dest + 1) src []); [|apply cstr_nil; simpl in Hov; rewrite lookup_insert_ne by lia; done
        |done|simpl in *; lia|lia]. rewrite take_nil. simpl. rewrite Nat.sub_0_r. done.
    - apply cstr_cons in Hs as (Hx & Hp & Hs). rewrite Hp. cbn [mbind option_bind].
      rewrite poke_mapped by (apply Hd; lia). cbn [mbind option_bind put].
      rewrite (proj2 (Z.eqb_neq x 0)) by done. simpl length in Hov.
      rewrite (IH fuel _ (dest + 1) (src + 1) s); [done| |done|lia|lia].
      destruct Hs as [? Hs]. split; [done|]. apply bytes_insert; [|done].
      rewrite length_app. simpl. lia. }
  rewrite <- (Z2Nat.id n) at 1 by done. apply H; rewrite ?Z2Nat.id by done; try done.
  pose proof (mapped_size M dest n Hn Hd). unfold steps. lia.
Qed.

Lemma bytes_take M p s n : bytes_at M p s → bytes_at M p (take n s).
Proof.
  intros H. rewrite <- (take_drop n s) in H. by apply bytes_at_app in H as [H _].
Qed.

(** The end of strlcpy and strlcat: copy a prefix and terminate it. *)
Lemma copy_terminate M dest src s n :
  cstr M src s → (n ≤ length s)%nat → mapped M dest (Z.of_nat n + 1) →
  dest + Z.of_nat n + 1 ≤ src ∨ src + zlen s + 1 ≤ dest →
  (M' ← memcpy M dest src (Z.of_nat n); poke M' (dest + Z.of_nat n) 0)
  = Some (put M dest (take n s ++ [0])).
Proof.
  intros [_ Hs] Hn Hd Hov. apply bytes_at_app in Hs as [Hs _].
  assert (Hl : zlen (take n s) = Z.of_nat n) by (rewrite length_take; lia).
  pose proof (memcpy_ok M dest src (take n s)) as Hm. rewrite Hl in Hm. rewrite Hm.
  - cbn [mbind option_bind]. rewrite poke_mapped.
    + rewrite put_snoc, Hl. done.
    + rewrite put_lookup, Hl. destruct (Z.ltb_spec (dest + Z.of_nat n) (dest + Z.of_nat n)); [lia|].
      rewrite andb_false_r. apply Hd. lia.
  - by apply bytes_take.
  - intros a Ha. apply Hd. lia.
  - lia.
Qed.

Lemma strlcpy_ok M dest src s n :
  cstr M src s → 0 ≤ n → mapped M dest n → dest + n ≤ src ∨ src + zlen s + 1 ≤ dest →
  strlcpy M dest src n =
  Some (zlen s, if n =? 0 then M else put M dest (take (Z.to_nat (n - 1)) s ++ [0])).
Proof.
  intros Hs Hn Hd Hov. unfold strlcpy. rewrite (strlen_ok _ _ _ Hs). cbn [mbind option_bind].
  destruct (Z.eqb_spec n 0) as [->|Hn0]; [done|]. cbn [negb].
  set (len := if n <=? zlen s then n - 1 else zlen s).
  assert (Hlen : 0 ≤ len ≤ n - 1 ∧ len ≤ zlen s ∧ take (Z.to_nat (n - 1)) s = take (Z.to_nat len) s).
  { unfold len. destruct (Z.leb_spec n (zlen s)); [split; [lia|]; split; [lia|done]|].
    split; [lia|]. split; [lia|]. rewrite !take_ge by lia. done. }
  destruct Hlen as (L1 & L2 & ->).
  pose proof (copy_terminate M dest src s (Z.to_nat len) Hs ltac:(lia)) as Hc.
  rewrite Z2Nat.id in Hc by lia. specialize (Hc ltac:(intros a Ha; apply Hd; lia) ltac:(lia)).
  destruct (memcpy M dest src len) as [M1|]; cbn [mbind option_bind] in Hc |- *; [|done].
  rewrite Hc. done.
Qed.

Lemma strcat_ok M dest d src s :
  cstr M dest d → cstr M src s → mapped M (dest + zlen d) (zlen s + 1) →
  dest + zlen d ≤ src ∨ src + zlen s + 1 ≤ dest + zlen d →
  strcat M dest src = Some (put M (dest + zlen d) (s ++ [0])).
Proof.
  intros Hd Hs Hm Hov. unfold strcat.
  rewrite (strlen_loop_ok M d) by (done || by eapply cstr_fuel). cbn [mbind option_bind].
  apply strcpy_loop_ok; try done. by eapply cstr_fuel.
Qed.

Lemma strncat_ok M dest d src s n :
  cstr M dest d → cstr M src s → 0 ≤ n →
  mapped M (dest + zlen d) (Z.min n (zlen s) + 1) →
  dest + zlen d + Z.min n (zlen s) + 1 ≤ src ∨ src + zlen s + 1 ≤ dest + zlen d →
  strncat M dest src n =
  Some (if n =? 0 then M else put M (dest + zlen d) (take (Z.to_nat n) s ++ [0])).
Proof.
  intros Hd Hs Hn Hm Hov. unfold strncat. destruct (Z.eqb_spec n 0) as [->|Hn0]; [done|].
  rewrite (strlen_loop_ok M d) by (done || by eapply cstr_fuel). cbn [mbind option_bind].
  pose proof (cstr_fuel _ _ _ Hs) as Hf. revert Hf Hm Hov. generalize (steps M) as fuel.
  generalize (dest + zlen d) as q. clear Hd d dest.
  assert (H0 : 0 < n) by lia. clear Hn Hn0. revert M src n Hs H0.
  induction s as [|x s IH]; intros M src n Hs H0 q [|fuel] Hf Hm Hov;
    cbn [strncat_loop length] in *; try lia.
  - apply cstr_nil in Hs. rewrite Hs. cbn [mbind option_bind].
    rewrite poke_mapped by (apply Hm; lia). cbn [mbind option_bind].
    by rewrite take_nil.
  - apply cstr_cons in Hs as (Hx & Hp & Hs). rewrite Hp. cbn [mbind option_bind].
    rewrite poke_mapped by (apply Hm; lia). cbn [mbind option_bind put].
    rewrite (proj2 (Z.eqb_neq x 0)) by done.
    replace (Z.to_nat n) with (S (Z.to_nat (n - 1))) by lia. cbn [take app put].
    destruct (Z.eqb_spec (n - 1) 0) as [E|E].
    + rewrite poke_mapped.
      * by replace (Z.to_nat (n - 1)) with 0%nat by lia.
      * rewrite lookup_insert_ne by lia. apply Hm. lia.
    + apply IH; [|lia|lia| |lia].
      * destruct Hs as [? Hs]. split; [done|]. apply bytes_insert; [|done].
        rewrite length_app. simpl. lia.
      * apply mapped_insert. intros a Ha. apply Hm. lia.
Qed.

Lemma strlcat_ok M dest d src s n :
  cstr M dest d → cstr M src s → zlen d < n → mapped M (dest + zlen d) (n - zlen d) →
  dest + n ≤ src ∨ src + zlen s + 1 ≤ dest + zlen d →
  strlcat M dest src n =
  Some (zlen d + zlen s, put M (dest + zlen d) (take (Z.to_nat (n - zlen d - 1)) s ++ [0])).
Proof.
  intros Hd Hs Hn Hm Hov. unfold strlcat.
  rewrite (strlen_ok _ _ _ Hd), (strlen_ok _ _ _ Hs). cbn [mbind option_bind].
  destruct (Z.leb_spec n (zlen d)); [lia|].
  set (len := if n - zlen d <=? zlen s then n - zlen d - 1 else zlen s).
  assert (Hlen : 0 ≤ len ≤ n - zlen d - 1 ∧ len ≤ zlen s ∧
                 take (Z.to_nat (n - zlen d - 1)) s = take (Z.to_nat len) s).
  { unfold len. destruct (Z.leb_spec (n - zlen d) (zlen s)); [split; [lia|]; split; [lia|done]|].
    split; [lia|]. split; [lia|]. rewrite !take_ge by lia. done. }
  destruct Hlen as (L1 & L2 & ->).
  pose proof (copy_terminate M (dest + zlen d) src s (Z.to_nat len) Hs ltac:(lia)) as Hc.
  rewrite Z2Nat.id in Hc by lia. specialize (Hc ltac:(intros a Ha; apply Hm; lia) ltac:(lia)).
  destruct (memcpy M (dest + zlen d) src len) as [M1|]; cbn [mbind option_bind] in Hc |- *; [|done].
  rewrite Hc. done.
Qed.

(** ** Trimming and splitting *)

Definition strip_left (s : list Z) : list Z := drop (Z.to_nat (prefix_len isspace s)) s.
Definition strip_right (s : list Z) : list Z := reverse (strip_left (reverse s)).

Lemma prefix_len_bounds P l : 0 ≤ prefix_len P l ≤ zlen l.
Proof. induction l as [|x l IH]; simpl; [lia|]. destruct (P x); lia. Qed.

Lemma strip_right_snoc s x : strip_right (s ++ [x]) = if isspace x then strip_right s else s ++ [x].
Proof.
  unfold strip_right, strip_left. rewrite reverse_snoc. simpl. destruct (isspace x).
  - pose proof (prefix_len_bounds isspace (reverse s)).
    replace (Z.to_nat (1 + prefix_len isspace (reverse s)))
      with (S (Z.to_nat (prefix_len isspace (reverse s)))) by lia. done.
  - simpl. rewrite reverse_cons, reverse_involutive. done.
Qed.

Lemma strip_right_prefix s : ∃ w, s = strip_right s ++ w.
Proof.
  induction s as [|x s [w IH]] using rev_ind; [by exists []|]. rewrite strip_right_snoc.
  destruct (isspace x); [|exists []; by rewrite app_nil_r].
  exists (w ++ [x]). by rewrite app_assoc, <- IH.
Qed.

Lemma strim_loop_ok M p s : ∀ fuel, bytes_at M p s → (length s < fuel)%nat →
  strim_loop fuel M p (p + zlen s - 1) = Some (p + zlen (strip_right s) - 1).
Proof.
  induction s as [|x s IH] using rev_ind; intros [|fuel] Hb Hf; cbn [strim_loop]; try lia.
  - destruct (Z.leb_spec p (p + zlen (@nil Z) - 1)); [simpl in *; lia|done].
  - rewrite length_app in *. simpl length in *.
    destruct (Z.leb_spec p (p + Z.of_nat (length s + 1) - 1)); [|lia].
    apply bytes_at_app in Hb as [Hb [Hx _]].
    replace (p + Z.of_nat (length s + 1) - 1) with (p + zlen s) by lia. rewrite Hx.
    cbn [mbind option_bind]. rewrite strip_right_snoc. destruct (isspace x).
    + apply IH; [done|lia].
    + f_equal. rewrite length_app. simpl. lia.
Qed.

Lemma cstr_drop M p s n : (n ≤ length s)%nat → cstr M p s → cstr M (p + Z.of_nat n) (drop n s).
Proof.
  intros Hn [H1 H2]. split; [by apply Forall_drop|].
  rewrite <- (take_drop n s), <- app_assoc in H2. apply bytes_at_app in H2 as [_ H2].
  rewrite length_take in H2. by replace (n `min` length s)%nat with n in H2 by lia.
Qed.

(** strim returns the address of the stripped string and writes one NUL. *)
Lemma strim_ok M p s : cstr M p s →
  ∃ q M', strim M p = Some (q, M') ∧ cstr M' q (strip_left (strip_right s)) ∧
          p ≤ q ≤ p + zlen s ∧
          M' = (if zlen s =? 0 then M else put M (p + zlen (strip_right s)) [0]).
Proof.
  intros Hs. unfold strim. rewrite (strlen_ok _ _ _ Hs). cbn [mbind option_bind].
  destruct (Z.eqb_spec (zlen s) 0) as [E|E].
  { exists p, M. destruct s; [|simpl in E; lia]. split; [done|]. split; [done|]. split; [simpl; lia|done]. }
  pose proof (cstr_fuel _ _ _ Hs) as Hf. pose proof Hs as [Hn Hb].
  apply bytes_at_app in Hb as [Hb [H0 _]]. rewrite (strim_loop_ok M p s) by done.
  cbn [mbind option_bind]. destruct (strip_right_prefix s) as [w Ew].
  set (t := strip_right s) in *. clearbody t. subst s. rewrite length_app in *.
  replace (p + zlen t - 1 + 1) with (p + zlen t) by lia.
  apply bytes_at_app in Hb as [Hbt Hbw].
  rewrite poke_mapped.
  2:{ destruct w as [|y w].
      - simpl in H0. rewrite Nat.add_0_r in H0. eauto.
      - destruct Hbw as [Hy _]. eauto. }
  cbn [mbind option_bind]. set (M' := put M (p + zlen t) [0]).
  assert (Ht : cstr M' p t).
  { split; [by apply Forall_app in Hn as [? _]|]. apply bytes_at_app. split.
    - apply bytes_at_put_other; [right; lia|done].
    - apply bytes_at_put. }
  rewrite (skip_spaces_ok M' p t Ht). cbn [mbind option_bind].
  pose proof (prefix_len_bounds isspace t).
  eexists _, _. split; [done|]. split; [|split; [lia|done]].
  unfold strip_left. pose proof (cstr_drop M' p t (Z.to_nat (prefix_len isspace t)) ltac:(lia) Ht) as Hd.
  by rewrite Z2Nat.id in Hd by lia.
Qed.

(** strsep cuts the string at the first delimiter. *)
Lemma strsep_ok M p s q ct : cstr M p s → cstr M q ct →
  match find_idx (mem_of ct) s with
  | None => strsep M (Some p) q = Some (Some p, None, M)
  | Some i => ∃ M', strsep M (Some p) q = Some (Some p, Some (p + i + 1), M') ∧
                M' = put M (p + i) [0] ∧
                cstr M' p (take (Z.to_nat i) s) ∧ cstr M' (p + i + 1) (drop (Z.to_nat i + 1) s)
  end.
Proof.
  intros Hs Hq. unfold strsep. rewrite (strpbrk_ok M p s q ct Hs Hq). cbn [mbind option_bind].
  destruct (find_idx (mem_of ct) s) as [i|] eqn:E; simpl fmap; cbn iota; [|done].
  apply find_idx_Some in E as (Hi & (x & Hx & _) & _).
  pose proof (lookup_lt_Some _ _ _ Hx) as Hlt.
  assert (Hsplit : s = take (Z.to_nat i) s ++ x :: drop (Z.to_nat i + 1) s).
  { rewrite <- (take_drop (Z.to_nat i) s) at 1. f_equal. rewrite (drop_S _ x) by done.
    by rewrite Nat.add_1_r. }
  set (t := take (Z.to_nat i) s) in *. set (r := drop (Z.to_nat i + 1) s) in *.
  assert (Ht : zlen t = i) by (unfold t; rewrite length_take; lia).
  destruct Hs as [Hn Hb]. rewrite Hsplit in Hn, Hb. rewrite <- app_assoc in Hb. simpl in Hb.
  apply bytes_at_app in Hb as [Hbt [Hbx Hbr]]. apply Forall_app in Hn as [Hnt [_ Hnr]%Forall_cons].
  rewrite Ht in Hbx, Hbr. rewrite poke_mapped by eauto. cbn [mbind option_bind].
  eexists. split; [done|]. split; [done|]. split.
  - split; [done|]. apply bytes_at_app. split.
    + apply bytes_at_put_other; [right; lia|done].
    + rewrite Ht. apply bytes_at_put.
  - split; [done|]. apply bytes_at_put_other; [left; simpl; lia|done].
Qed.

(** ** The properties *)

(** The searching routines return what the definition of each says, for any
    NUL-terminated strings [s] at [p] and [t] at [q]: the length, the first or
    last position of a character (the terminator included where C includes it),
    the length of the prefix inside or outside a set, the first character of a
    set, the first position of a substring; NULL exactly when there is none. *)
Lemma string_searches_correct M p s q t c n :
  cstr M p s → cstr M q t → 0 ≤ n →
  strlen M p = Some (zlen s) ∧
  strnlen M p n = Some (Z.min n (zlen s)) ∧
  strchr M p c = Some (Z.add p <$> find_idx (λ x, x =? u8 c) (s ++ [0])) ∧
  strrchr M p c = Some (Z.add p <$> last_idx (λ x, x =? u8 c) (s ++ [0])) ∧
  strnchr M p n c = Some (Z.add p <$> find_idx (λ x, x =? u8 c) (take (Z.to_nat n) s)) ∧
  strspn M p q = Some (prefix_len (mem_of t) s) ∧
  strcspn M p q = Some (prefix_len (λ x, negb (mem_of t x)) s) ∧
  strpbrk M p q = Some (Z.add p <$> find_idx (mem_of t) s) ∧
  skip_spaces M p = Some (p + prefix_len isspace s) ∧
  strstr M p q = Some (Z.add p <$> find_sub s t) ∧
  memchr M p c (zlen s) = Some (Z.add p <$> find_idx (λ x, u8 c =? x) s) ∧
  memscan M p c (zlen s) = Some (p + default (zlen s) (find_idx (λ x, x =? c) s)) ∧
  strnstr M p q (zlen s) = Some (Z.add p <$> find_sub s t).
Proof.
  intros Hs Ht Hn.
  assert (Hb : bytes_at M p s) by (destruct Hs as [_ H]; by apply bytes_at_app in H as [? _]).
  repeat split; eauto using strlen_ok, strnlen_ok, strchr_ok, strrchr_ok, strnchr_ok, strspn_ok,
    strcspn_ok, strpbrk_ok, skip_spaces_ok, strstr_ok, memchr_ok, memscan_ok, strnstr_ok.
Qed.

(** The comparisons.  strcmp and strncmp order strings lexicographically as
    unsigned bytes, memcmp returns the difference of the first bytes that
    differ, the case-insensitive comparisons are 0 exactly when the strings
    (their first n characters, the terminator included) agree after tolower,
    and sysfs_streq accepts exactly strings equal up to one trailing newline. *)
Lemma string_comparisons_correct M p s q t n :
  cstr M p s → cstr M q t → u8s s → u8s t → 0 ≤ n < 2 ^ 64 →
  strcmp M p q = Some (lex s t) ∧ (lex s t = 0 ↔ s = t) ∧
  strncmp M p q n = Some (lex (take (Z.to_nat n) s) (take (Z.to_nat n) t)) ∧
  (length s = length t → memcmp M p q (zlen s) = Some (diff s t) ∧ (diff s t = 0 ↔ s = t)) ∧
  strcasecmp M p q = Some (diff (folded s) (folded t)) ∧
  (0 < n → strncasecmp M p q n
           = Some (diff (take (Z.to_nat n) (folded s)) (take (Z.to_nat n) (folded t)))) ∧
  (∃ r, strnicmp M p q n = Some r ∧
        (r = 0 ↔ take (Z.to_nat n) (folded s) = take (Z.to_nat n) (folded t))) ∧
  (∃ r, sysfs_streq M p q = Some r ∧ (r = true ↔ nl_eq s t)).
Proof.
  intros Hs Ht Us Ut Hn.
  assert (Hb : ∀ p s, cstr M p s → bytes_at M p s)
    by (intros ? ? [_ H]; by apply bytes_at_app in H as [? _]).
  assert (Hp : ∀ l, u8s l → pos l) by (intros l Hl; eapply Forall_impl; [exact Hl|]; simpl; lia).
  split; [by apply strcmp_ok; auto|]. split; [apply lex_zero|].
  split; [apply strncmp_ok; auto; lia|].
  split; [intros Hl; split; [by apply memcmp_ok; auto|by apply diff_zero]|].
  split; [by apply strcasecmp_ok|].
  split; [intros H0; apply strncasecmp_ok; (done || lia)|].
  split; [by apply strnicmp_ok|by apply sysfs_streq_ok].
Qed.

(** Memchr_inv, which compares a word at a time after an unaligned prefix,
    returns the first byte that differs from [c], at every alignment and for
    every area below 32 GiB. *)
Lemma memchr_inv_correct M p l c :
  bytes_at M p l → u8s l → zlen l < 2 ^ 35 →
  memchr_inv M p c (zlen l) = Some (Z.add p <$> find_idx (λ x, negb (x =? u8 c)) l).
Proof. apply memchr_inv_ok. Qed.

(** C36: the copying routines write exactly their destination.  memmove copies
    correctly under any overlap, memcpy when the destination does not lie
    inside the source behind its start; strcpy and strcat copy the string with
    its terminator; strncpy writes exactly [n] bytes, cut or padded; strlcpy,
    strlcat and strncat always terminate, and the first two return the length
    they tried to create. *)
Theorem string_copies_exact M dest d src s n c :
  cstr M src s → cstr M dest d → 0 < n → zlen d < n → mapped M dest n →
  mapped M (dest + zlen d) (zlen s + 1) →
  dest + n ≤ src ∨ src + zlen s + 1 ≤ dest → dest + zlen d + zlen s + 1 ≤ src ∨ src + zlen s + 1 ≤ dest →
  (∀ l p q, bytes_at M q l → mapped M p (zlen l) → memmove M p q (zlen l) = Some (put M p l)) ∧
  (∀ l p q, bytes_at M q l → mapped M p (zlen l) → p ≤ q ∨ q + zlen l ≤ p →
            memcpy M p q (zlen l) = Some (put M p l)) ∧
  memset M dest c n = Some (put M dest (replicate (Z.to_nat n) (u8 c))) ∧
  strncpy M dest src n = Some (put M dest (padded (Z.to_nat n) s)) ∧
  strlcpy M dest src n = Some (zlen s, put M dest (take (Z.to_nat (n - 1)) s ++ [0])) ∧
  strcat M dest src = Some (put M (dest + zlen d) (s ++ [0])) ∧
  strncat M dest src n = Some (put M (dest + zlen d) (take (Z.to_nat n) s ++ [0])) ∧
  strlcat M dest src n =
    Some (zlen d + zlen s, put M (dest + zlen d) (take (Z.to_nat (n - zlen d - 1)) s ++ [0])) ∧
  strcpy M (dest + zlen d) src = Some (put M (dest + zlen d) (s ++ [0])).
Proof.
  intros Hs Hd Hn Hdn Hm Hm2 Hov Hov2.
  split; [intros; by apply memmove_ok|]. split; [intros; by apply memcpy_ok|].
  split; [apply memset_ok; (done || lia)|]. split; [apply strncpy_ok; (done || lia)|].
  split; [rewrite strlcpy_ok with (s := s) by (done || lia);
          by rewrite (proj2 (Z.eqb_neq n 0)) by lia|].
  split; [apply strcat_ok; (done || lia)|].
  split; [rewrite (strncat_ok M dest d src s) by
            (done || lia || (intros a Ha; apply Hm2; lia));
          by rewrite (proj2 (Z.eqb_neq n 0)) by lia|].
  split; [apply strlcat_ok; (done || lia || (intros a Ha; apply Hm; lia))|].
  apply strcpy_ok; (done || lia).
Qed.

(** Strim returns the string without its leading and trailing white space
    and writes only the new terminator; strsep returns the token in front of
    the first delimiter and leaves [*s] at the rest of the string, or NULL when
    there is no delimiter. *)
Lemma strim_strsep_correct M p s q ct :
  cstr M p s → cstr M q ct →
  (∃ r M', strim M p = Some (r, M') ∧ cstr M' r (strip_left (strip_right s)) ∧
           p ≤ r ≤ p + zlen s ∧
           M' = (if zlen s =? 0 then M else put M (p + zlen (strip_right s)) [0])) ∧
  match find_idx (mem_of ct) s with
  | None => strsep M (Some p) q = Some (Some p, None, M)
  | Some i => ∃ M', strsep M (Some p) q = Some (Some p, Some (p + i + 1), M') ∧
                M' = put M (p + i) [0] ∧
                cstr M' p (take (Z.to_nat i) s) ∧ cstr M' (p + i + 1) (drop (Z.to_nat i + 1) s)
  end.
Proof. intros Hs Hq. split; [by apply strim_ok|by apply strsep_ok]. Qed.

(** ** Witnesses *)

(** " a,b " at 100, "," at 200 and room behind it. *)
Definition demo_mem : mem :=
  put (put (put ∅ 100 [32; 97; 44; 98; 32; 0]) 200 [44; 0]) 300 ([97; 0] ++ replicate 30 1).

Lemma demo_s : cstr demo_mem 100 [32; 97; 44; 98; 32].
Proof. split; [repeat constructor; discriminate|vm_compute; repeat split]. Qed.
Lemma demo_t : cstr demo_mem 200 [44].
Proof. split; [repeat constructor; discriminate|vm_compute; repeat split]. Qed.
Lemma demo_d : cstr demo_mem 300 [97].
Proof. split; [repeat constructor; discriminate|vm_compute; repeat split]. Qed.
Lemma demo_room : mapped demo_mem 300 32.
Proof.
  apply (bytes_mapped demo_mem 300 ([97; 0] ++ replicate 30 1)). vm_compute. repeat split.
Qed.

Example string_searches_correct_witness : strpbrk demo_mem 100 200 = Some (Some 102).
Proof.
  destruct (string_searches_correct demo_mem 100 _ 200 _ 97 3 demo_s demo_t ltac:(lia))
    as (_ & _ & _ & _ & _ & _ & _ & H & _). rewrite H. reflexivity.
Defined.

Example string_comparisons_correct_witness :
  strcmp demo_mem 100 200 = Some (-1).
Proof.
  destruct (string_comparisons_correct demo_mem 100 _ 200 _ 3 demo_s demo_t
    ltac:(repeat constructor; lia) ltac:(repeat constructor; lia) ltac:(lia)) as (H & _).
  rewrite H. reflexivity.
Defined.

Example memchr_inv_correct_witness :
  memchr_inv demo_mem 302 1 (zlen (replicate 30 1)) = Some None.
Proof.
  rewrite (memchr_inv_correct demo_mem 302 (replicate 30 1) 1).
  - reflexivity.
  - vm_compute. repeat split.
  - repeat constructor; lia.
  - vm_compute. reflexivity.
Defined.

Example string_copies_exact_witness :
  strcat demo_mem 300 200 = Some (put demo_mem 301 [44; 0]).
Proof.
  destruct (string_copies_exact demo_mem 300 _ 200 _ 8 0 demo_t demo_d) as (_ & _ & _ & _ & _ & H & _).
  - lia.
  - simpl. lia.
  - intros a Ha. apply demo_room. lia.
  - intros a Ha. apply demo_room. simpl in *. lia.
  - right. simpl. lia.
  - right. simpl. lia.
  - exact H.
Defined.

Example strim_strsep_correct_witness :
  ∃ r M', strim demo_mem 100 = Some (r, M') ∧ cstr M' r [97; 44; 98].
Proof.
  destruct (strim_strsep_correct demo_mem 100 _ 200 _ demo_s demo_t) as [(r & M' & H & Hc & _) _].
  exists r, M'. split; [exact H|]. exact Hc.
Defined.

(** strncasecmp decrements its unsigned count before testing it, so with a count
    of 0 it compares the strings to their end instead of comparing nothing. *)
Lemma strncasecmp_zero_compares : strncasecmp demo_mem 100 200 0 = Some (-12).
Proof. vm_compute. reflexivity. Qed.
