(* ===== verification/Kstrtox.v ===== *)
(** * Kstrtox: parsing integers (lib/kstrtox.c, the simple_strto* of lib/vsprintf.c)

    A pointer into a NUL-terminated string is the list of bytes from it on, the
    terminator included: [s[0]] is the head, [s + 1] the tail, and reading past
    the end goes wrong.  Results through pointers are returned with the code. *)

From S2P Require Import Prelude Strings.

Definition KSTRTOX_OVERFLOW : Z := 2 ^ 31.
Definition k_ERANGE : Z := 34.
Definition k_EINVAL : Z := 22.

Notation cptr := (list Z) (only parsing).

Definition at_ (s : cptr) (i : nat) : option Z := s !! i.

(** The string pointer and the radix after the prefix has been dealt with. *)
Definition _parse_integer_fixup_radix (s : cptr) (base : Z) : option (cptr * Z) :=
  base ← (if base =? 0 then
            c0 ← at_ s 0;
            if c0 =? 48 then
              c1 ← at_ s 1;
              if _tolower c1 =? 120 then
                c2 ← at_ s 2; Some (if isxdigit c2 then 16 else 8)
              else Some 8
            else Some 10
          else Some base);
  if base =? 16 then
    c0 ← at_ s 0;
    if c0 =? 48 then
      c1 ← at_ s 1; Some (if _tolower c1 =? 120 then drop 2 s else s, base)
    else Some (s, base)
  else Some (s, base).

(** The value of a digit character, in any radix up to 16. *)
Definition digit_val (c : Z) : option Z :=
  if (48 <=? c) && (c <=? 57) then Some (c - 48)
  else if (97 <=? _tolower c) && (_tolower c <=? 102) then Some (_tolower c - 97 + 10)
  else None.

(** The loop of _parse_integer: it returns [res], [rv] and [overflow]. *)
Fixpoint parse_loop (s : cptr) (base res rv : Z) (overflow : bool) : option (Z * Z * bool) :=
  match s with
  | [] => None
  | c :: s' =>
      if c =? 0 then Some (res, rv, overflow)
      else
        match digit_val c with
        | None => Some (res, rv, overflow)
        | Some val =>
            if base <=? val then Some (res, rv, overflow)
            else
              let overflow :=
                if negb (res .& (ULONG_MAX <<64 60) =? 0)
                then if (ULONG_MAX - val) / base <? res then true else overflow
                else overflow in
              parse_loop s' base (u64 (res * base + val)) (u32 (rv + 1)) overflow
        end
  end.

(** The return value [rv] and [*p]. *)
Definition _parse_integer (s : cptr) (base : Z) : option (Z * Z) :=
  '(res, rv, overflow) ← parse_loop s base 0 0 false;
  Some (if (overflow : bool) then rv .| KSTRTOX_OVERFLOW else rv, res).

(** The return code and, on success, the value stored. *)
Definition _kstrtoull (s : cptr) (base : Z) : option (Z * option Z) :=
  '(s, base) ← _parse_integer_fixup_radix s base;
  '(rv, _res) ← _parse_integer s base;
  if negb (rv .& KSTRTOX_OVERFLOW =? 0) then Some (- k_ERANGE, None)
  else
    let rv := rv .& u32 (Z.lnot KSTRTOX_OVERFLOW) in
    if rv =? 0 then Some (- k_EINVAL, None)
    else
      let s := drop (Z.to_nat rv) s in
      c ← at_ s 0;
      let s := if c =? 10 then drop 1 s else s in
      c ← at_ s 0;
      if negb (c =? 0) then Some (- k_EINVAL, None) else Some (0, Some _res).

Definition kstrtoull (s : cptr) (base : Z) : option (Z * option Z) :=
  c ← at_ s 0;
  let s := if c =? 43 then drop 1 s else s in
  _kstrtoull s base.

Definition kstrtoll (s : cptr) (base : Z) : option (Z * option Z) :=
  c ← at_ s 0;
  if c =? 45 then
    '(rv, tmp) ← _kstrtoull (drop 1 s) base;
    match tmp with
    | Some tmp => if 0 <=? s64 (- tmp) then Some (- k_ERANGE, None) else Some (0, Some (s64 (- tmp)))
    | None => Some (rv, None)
    end
  else
    '(rv, tmp) ← kstrtoull s base;
    match tmp with
    | Some tmp => if s64 tmp <? 0 then Some (- k_ERANGE, None) else Some (0, Some (s64 tmp))
    | None => Some (rv, None)
    end.

(** The narrower variants: convert, and check that the value survives the cast. *)
Definition narrow (cast : Z → Z) (parse : cptr → Z → option (Z * option Z)) (s : cptr) (base : Z) :
    option (Z * option Z) :=
  '(rv, tmp) ← parse s base;
  match tmp with
  | Some tmp => if negb (tmp =? cast tmp) then Some (- k_ERANGE, None) else Some (0, Some tmp)
  | None => Some (rv, None)
  end.

Definition s16 (x : Z) : Z := wrap 16 (x + 2 ^ 15) - 2 ^ 15.
Definition s8 (x : Z) : Z := wrap 8 (x + 2 ^ 7) - 2 ^ 7.

Definition _kstrtoul := narrow u64 kstrtoull.
Definition _kstrtol := narrow s64 kstrtoll.
Definition kstrtouint := narrow u32 kstrtoull.
Definition kstrtoint := narrow s32 kstrtoll.
Definition kstrtou16 := narrow u16 kstrtoull.
Definition kstrtos16 := narrow s16 kstrtoll.
Definition kstrtou8 := narrow u8 kstrtoull.
Definition kstrtos8 := narrow s8 kstrtoll.

(** ** The obsolete conversions of lib/vsprintf.c: value and end pointer *)

Definition simple_strtoull (cp : cptr) (base : Z) : option (Z * cptr) :=
  '(cp, base) ← _parse_integer_fixup_radix cp base;
  '(rv, result) ← _parse_integer cp base;
  Some (result, drop (Z.to_nat (rv .& u32 (Z.lnot KSTRTOX_OVERFLOW))) cp).

Definition simple_strtoul (cp : cptr) (base : Z) : option (Z * cptr) := simple_strtoull cp base.

Definition simple_strtoll (cp : cptr) (base : Z) : option (Z * cptr) :=
  c ← at_ cp 0;
  if c =? 45 then '(v, e) ← simple_strtoull (drop 1 cp) base; Some (s64 (- v), e)
  else '(v, e) ← simple_strtoull cp base; Some (s64 v, e).

Definition simple_strtol (cp : cptr) (base : Z) : option (Z * cptr) := simple_strtoll cp base.

(** skip_atoi: the int and the advanced pointer. *)
Fixpoint skip_atoi_loop (s : cptr) (i : Z) : option (Z * cptr) :=
  match s with
  | [] => None
  | c :: s' => if isdigit c then skip_atoi_loop s' (i * 10 + c - 48) else Some (i, s)
  end.
Definition skip_atoi (s : cptr) : option (Z * cptr) := skip_atoi_loop s 0.

(** ** What the parsers mean *)

(** The digits a string starts with in radix [base], and its tail. *)
Fixpoint span_digits (base : Z) (s : list Z) : list Z * list Z :=
  match s with
  | [] => ([], [])
  | c :: s' =>
      match digit_val c with
      | Some d => if d <? base then let '(ds, r) := span_digits base s' in (d :: ds, r)
                  else ([], s)
      | None => ([], s)
      end
  end.

(** The value of a list of digits, most significant first. *)
Definition value (base : Z) (ds : list Z) : Z := fold_left (λ v d, v * base + d) ds 0.

(** The prefix "0x" and the radix it decides. *)
Definition hex_prefix (s : list Z) : bool :=
  match s with
  | c0 :: c1 :: _ => (c0 =? 48) && (_tolower c1 =? 120)
  | _ => false
  end.
Definition hex_digit_at2 (s : list Z) : bool :=
  match s with _ :: _ :: c2 :: _ => isxdigit c2 | _ => false end.
Definition radix (s : list Z) (base : Z) : Z :=
  if base =? 0 then
    if hex_prefix s && hex_digit_at2 s then 16
    else match s with c0 :: _ => if c0 =? 48 then 8 else 10 | [] => 10 end
  else base.
Definition after_prefix (s : list Z) (base : Z) : list Z :=
  if (radix s base =? 16) && hex_prefix s then drop 2 s else s.

(** The outcome of _kstrtoull on a string, by its grammar. *)
Definition parse_spec (s : list Z) (base : Z) : Z * option Z :=
  let '(ds, rest) := span_digits (radix s base) (after_prefix s base) in
  let v := value (radix s base) ds in
  if ULONG_MAX <? v then (- k_ERANGE, None)
  else if bool_decide (ds = []) then (- k_EINVAL, None)
  else if bool_decide (rest = [] ∨ rest = [10]) then (0, Some v)
  else (- k_EINVAL, None).

(** ** Proofs *)

Lemma tolower_0 : _tolower 0 = 32.
Proof. done. Qed.

Lemma fixup_ok s base :
  _parse_integer_fixup_radix (s ++ [0]) base = Some (after_prefix s base ++ [0], radix s base).
Proof.
  unfold _parse_integer_fixup_radix, after_prefix, radix, hex_prefix, hex_digit_at2, at_.
  destruct s as [|c0 [|c1 [|c2 s]]]; cbn -[_tolower isxdigit Z.eqb].
  all: repeat match goal with
    | |- context [if ?b then _ else _] => destruct b eqn:?; cbn -[_tolower isxdigit Z.eqb]
    end; try done; try congruence.
Qed.

Lemma digit_val_range c d : is_u8 c → digit_val c = Some d → 0 ≤ d < 16.
Proof.
  unfold digit_val. intros _ H.
  destruct (Z.leb_spec 48 c), (Z.leb_spec c 57), (Z.leb_spec 97 (_tolower c)),
    (Z.leb_spec (_tolower c) 102); simpl in H; simplify_eq; lia.
Qed.

Lemma high_nibble res : is_u64 res → (res .& (ULONG_MAX <<64 60) =? 0) = (res <? 2 ^ 60).
Proof.
  intros Hr. assert (E : ULONG_MAX <<64 60 = Z.shiftl (Z.ones 4) 60) by done. rewrite E.
  destruct (Z.ltb_spec res (2 ^ 60)).
  - apply Z.eqb_eq. apply Z.bits_inj'. intros i Hi. autorewrite with bits.
    destruct (decide (60 ≤ i)).
    + by rewrite (testbit_high 60 res) by lia.
    + bool_compare; simpl; by rewrite ?andb_false_r.
  - apply Z.eqb_neq. intros E0.
    assert (Hd : res / 2 ^ 60 ≠ 0) by dlia. apply Hd.
    rewrite <- Z.shiftr_div_pow2 by lia. apply zero_of_bits. intros i Hi.
    autorewrite with bits. destruct (Z.leb_spec 0 i); [|lia]. simpl.
    destruct (decide (i < 4)); [|rewrite (testbit_high 64 res) by lia; done].
    assert (Hb : Z.testbit (res .& Z.shiftl (Z.ones 4) 60) (i + 60) = false)
      by (rewrite E0; apply Z.bits_0).
    autorewrite with bits in Hb. replace (i + 60 - 60) with i in Hb by lia.
    destruct (Z.leb_spec 0 (i + 60)); [|lia]. destruct (Z.leb_spec 0 i); [|lia].
    destruct (Z.ltb_spec i 4); [|lia]. by rewrite !andb_true_r in Hb.
Qed.

Lemma fold_value_ge base ds : ∀ v, 2 ≤ base → 0 ≤ v → Forall (λ d, 0 ≤ d) ds →
  v ≤ fold_left (λ v d, v * base + d) ds v.
Proof.
  induction ds as [|d ds IH]; intros v Hb Hv Hd; simpl; [lia|].
  apply Forall_cons in Hd as [Hd Hds]. specialize (IH (v * base + d) Hb ltac:(nia) Hds). nia.
Qed.

Lemma span_digits_range base s : Forall (λ c, is_u8 c) s →
  Forall (λ d, 0 ≤ d < base) (fst (span_digits base s)).
Proof.
  induction s as [|c s IH]; intros H; simpl; [done|]. apply Forall_cons in H as [Hc Hs].
  destruct (digit_val c) as [d|] eqn:E; [|done].
  destruct (Z.ltb_spec d base); [|done].
  specialize (IH Hs). destruct (span_digits base s) as [ds r]. simpl in *.
  constructor; [|done]. pose proof (digit_val_range c d Hc E). lia.
Qed.

Definition text (s : list Z) : Prop := Forall (λ c, is_u8 c ∧ c ≠ 0) s.

Lemma text_u8 s : text s → Forall (λ c, is_u8 c) s.
Proof. intros H. eapply Forall_impl; [exact H|]. by intros ? []. Qed.

Lemma parse_loop_ok base s : 2 ≤ base ≤ 16 → text s → ∀ V rv,
  0 ≤ V → 0 ≤ rv → rv + zlen s < 2 ^ 31 →
  parse_loop (s ++ [0]) base (u64 V) rv (ULONG_MAX <? V) =
  Some (u64 (fold_left (λ v d, v * base + d) (fst (span_digits base s)) V),
        rv + zlen (fst (span_digits base s)),
        ULONG_MAX <? fold_left (λ v d, v * base + d) (fst (span_digits base s)) V).
Proof.
  intros Hbase. induction s as [|c s IH]; intros Ht V rv HV Hrv Hlen; cbn [parse_loop app].
  - rewrite Z.eqb_refl. simpl. do 3 f_equal. lia.
  - apply Forall_cons in Ht as [[Hc Hc0] Ht]. rewrite (proj2 (Z.eqb_neq c 0)) by done.
    cbn [span_digits]. destruct (digit_val c) as [d|] eqn:Ed.
    2:{ simpl. do 3 f_equal. lia. }
    pose proof (digit_val_range c d Hc Ed) as Hd.
    rewrite Z.leb_antisym. destruct (Z.ltb_spec d base) as [Hlt|Hge]; cbn [negb].
    2:{ simpl. do 3 f_equal. lia. }
    rewrite high_nibble by apply u64_range.
    assert (Eov : (if negb (u64 V <? 2 ^ 60)
                   then if (ULONG_MAX - d) / base <? u64 V then true else (ULONG_MAX <? V)
                   else (ULONG_MAX <? V)) = (ULONG_MAX <? V * base + d)).
    { unfold ULONG_MAX. destruct (Z.ltb_spec (2 ^ 64 - 1) V) as [Hov|Hov].
      - rewrite (proj2 (Z.ltb_lt _ (V * base + d))) by nia.
        destruct (negb (u64 V <? 2 ^ 60)), ((2 ^ 64 - 1 - d) / base <? u64 V); done.
      - rewrite u64_small by lia. destruct (Z.ltb_spec V (2 ^ 60)); cbn [negb].
        + symmetry. apply Z.ltb_ge. nia.
        + pose proof (Z.div_mod (2 ^ 64 - 1 - d) base ltac:(lia)) as Hdm.
          pose proof (Z.mod_pos_bound (2 ^ 64 - 1 - d) base ltac:(lia)).
          destruct (Z.ltb_spec ((2 ^ 64 - 1 - d) / base) V); symmetry.
          * apply Z.ltb_lt. nia.
          * apply Z.ltb_ge. nia. }
    rewrite Eov.
    replace (u64 (u64 V * base + d)) with (u64 (V * base + d)).
    2:{ rewrite <- u64_add_l. unfold u64, wrap. rewrite <- Zmult_mod_idemp_l.
        by rewrite Zplus_mod_idemp_l. }
    rewrite u32_small by (simpl in Hlen; lia).
    rewrite IH by (done || nia || (simpl in Hlen; lia)).
    destruct (span_digits base s) as [ds r]. simpl. do 3 f_equal. lia.
Qed.

Lemma overflow_bit rv : 0 ≤ rv < 2 ^ 31 →
  rv .& KSTRTOX_OVERFLOW = 0 ∧ (rv .| KSTRTOX_OVERFLOW) .& KSTRTOX_OVERFLOW = KSTRTOX_OVERFLOW ∧
  rv .& u32 (Z.lnot KSTRTOX_OVERFLOW) = rv.
Proof.
  intros Hrv. assert (E : KSTRTOX_OVERFLOW = Z.shiftl 1 31) by done. rewrite E.
  split; [|split].
  - apply Z.bits_inj'. intros i Hi. autorewrite with bits.
    destruct (Z.eqb_spec (i - 31) 0); [|by rewrite !andb_false_r].
    by rewrite (testbit_high 31 rv) by lia.
  - apply Z.bits_inj'. intros i Hi. autorewrite with bits. btauto.
  - apply Z.bits_inj'. intros i Hi. autorewrite with bits.
    destruct (decide (i < 31)); [|by rewrite (testbit_high 31 rv) by lia].
    bool_compare; simpl; rewrite ?andb_true_r; done.
Qed.

Lemma span_digits_app base s : ∀ ds rest, span_digits base s = (ds, rest) →
  drop (length ds) s = rest ∧ (length ds ≤ length s)%nat.
Proof.
  induction s as [|c s IH]; intros ds rest; simpl; [by intros [= <- <-]|].
  destruct (digit_val c) as [d|]; [|intros [= <- <-]; simpl; split; [done|lia]].
  destruct (d <? base); [|intros [= <- <-]; simpl; split; [done|lia]].
  destruct (span_digits base s) as [ds' r'] eqn:E. intros [= <- <-].
  destruct (IH ds' r' eq_refl) as [H1 H2]. simpl. split; [done|lia].
Qed.

Lemma drop_app_tail {A} n (l k : list A) : (n ≤ length l)%nat → drop n (l ++ k) = drop n l ++ k.
Proof. apply drop_app_le. Qed.

Lemma text_drop n s : text s → text (drop n s).
Proof. apply Forall_drop. Qed.

Lemma after_prefix_text s base : text s → text (after_prefix s base).
Proof. unfold after_prefix. destruct (_ && _); [apply text_drop|done]. Qed.

Lemma after_prefix_len s base : (length (after_prefix s base) ≤ length s)%nat.
Proof. unfold after_prefix. destruct (_ && _); [rewrite length_drop; lia|done]. Qed.

Lemma radix_range s base : base = 0 ∨ 2 ≤ base ≤ 16 → 2 ≤ radix s base ≤ 16.
Proof.
  intros Hb. unfold radix. destruct (Z.eqb_spec base 0); [|lia].
  destruct (_ && _); [lia|]. destruct s as [|c s]; [lia|]. destruct (c =? 48); lia.
Qed.

Lemma _kstrtoull_ok s base : base = 0 ∨ 2 ≤ base ≤ 16 → text s → zlen s < 2 ^ 31 →
  _kstrtoull (s ++ [0]) base = Some (parse_spec s base).
Proof.
  intros Hb Ht Hl. unfold _kstrtoull. rewrite fixup_ok. cbn [mbind option_bind].
  pose proof (radix_range s base Hb) as Hr. pose proof (after_prefix_text s base Ht) as Ht'.
  pose proof (after_prefix_len s base) as Hl'.
  unfold parse_spec. set (s1 := after_prefix s base) in *. set (b := radix s base) in *.
  unfold _parse_integer.
  pose proof (parse_loop_ok b s1 Hr Ht' 0 0 ltac:(lia) ltac:(lia) ltac:(lia)) as Hp.
  change (u64 0) with 0 in Hp. change (ULONG_MAX <? 0) with false in Hp. rewrite Hp.
  cbn [mbind option_bind]. rewrite Z.add_0_l.
  pose proof (span_digits_range b s1 (text_u8 _ Ht')) as Hds.
  destruct (span_digits b s1) as [ds rest] eqn:Es. cbn [fst] in *. fold (value b ds).
  pose proof (span_digits_app b s1 ds rest Es) as [Hrest Hlen].
  assert (Hv : 0 ≤ value b ds).
  { apply fold_value_ge; [lia|lia|]. eapply Forall_impl; [exact Hds|]. simpl. lia. }
  destruct (overflow_bit (zlen ds) ltac:(lia)) as (B1 & B2 & B3).
  destruct (Z.ltb_spec ULONG_MAX (value b ds)) as [Hov|Hov].
  { rewrite B2. done. }
  rewrite B1, B3. cbn [negb Z.eqb]. destruct ds as [|d ds].
  { by rewrite bool_decide_true by done. }
  rewrite (bool_decide_false (d :: ds = [])) by done.
  rewrite (proj2 (Z.eqb_neq (zlen (d :: ds)) 0)) by (simpl; lia).
  rewrite Nat2Z.id, drop_app_tail, Hrest by done.
  assert (Htr : text rest) by (rewrite <- Hrest; by apply text_drop).
  rewrite u64_small by (unfold ULONG_MAX in *; lia). unfold at_.
  destruct rest as [|c rest]; cbn [app lookup list_lookup mbind option_bind].
  { done. }
  apply Forall_cons in Htr as [[Hc Hc0] Htr]. destruct (Z.eqb_spec c 10) as [->|Hc10].
  - rewrite skipn_cons, drop_0. destruct rest as [|c' rest];
      cbn [app lookup list_lookup mbind option_bind].
    + done.
    + apply Forall_cons in Htr as [[Hc' Hc0'] _]. rewrite (proj2 (Z.eqb_neq c' 0)) by done.
      rewrite bool_decide_false; [done|]. by intros [?|?].
  - cbn [lookup list_lookup mbind option_bind]. rewrite (proj2 (Z.eqb_neq c 0)) by done.
    rewrite bool_decide_false; [done|]. intros [?|[= ? ?]]; done.
Qed.

(** ** The public conversions *)

Definition ull_spec (s : list Z) (base : Z) : Z * option Z :=
  match s with
  | c :: s' => if c =? 43 then parse_spec s' base else parse_spec s base
  | [] => parse_spec s base
  end.

(** Keep the value when it lies in [lo, hi], turn it into -ERANGE otherwise. *)
Definition fit (lo hi : Z) (r : Z * option Z) : Z * option Z :=
  match r with
  | (rv, Some v) => if (lo <=? v) && (v <=? hi) then (0, Some v) else (- k_ERANGE, None)
  | (rv, None) => (rv, None)
  end.

(** The value of the text, with a sign: what kstrtoll should return. *)
Definition ll_spec (s : list Z) (base : Z) : Z * option Z :=
  match s with
  | c :: s' =>
      if c =? 45 then
        match parse_spec s' base with
        | (_, Some v) => if - 2 ^ 63 <=? - v then (0, Some (- v)) else (- k_ERANGE, None)
        | (rv, None) => (rv, None)
        end
      else fit 0 (2 ^ 63 - 1) (ull_spec s base)
  | [] => fit 0 (2 ^ 63 - 1) (ull_spec s base)
  end.

(** A zero with a minus sign, which the code takes for an overflow. *)
Definition negative_zero (s : list Z) (base : Z) : bool :=
  match s with
  | c :: s' => (c =? 45) && bool_decide (snd (parse_spec s' base) = Some 0)
  | [] => false
  end.

(** What the code computes: a minus sign negates; the magnitude 0 is refused. *)
Definition ll_code (s : list Z) (base : Z) : Z * option Z :=
  match s with
  | c :: s' =>
      if c =? 45 then
        match parse_spec s' base with
        | (rv, Some v) =>
            if (0 <? v) && (v <=? 2 ^ 63) then (0, Some (- v)) else (- k_ERANGE, None)
        | (rv, None) => (rv, None)
        end
      else fit 0 (2 ^ 63 - 1) (ull_spec s base)
  | [] => fit 0 (2 ^ 63 - 1) (ull_spec s base)
  end.

Lemma parse_spec_range s base v rv : text s → base = 0 ∨ 2 ≤ base ≤ 16 →
  parse_spec s base = (rv, Some v) → rv = 0 ∧ 0 ≤ v ≤ ULONG_MAX.
Proof.
  intros Ht Hb. unfold parse_spec.
  pose proof (span_digits_range (radix s base) _ (text_u8 _ (after_prefix_text s base Ht))) as Hds.
  destruct (span_digits _ _) as [ds rest]. simpl in Hds.
  assert (0 ≤ value (radix s base) ds).
  { pose proof (radix_range s base Hb). apply fold_value_ge; [lia|lia|].
    eapply Forall_impl; [exact Hds|]. simpl. lia. }
  destruct (Z.ltb_spec ULONG_MAX (value (radix s base) ds)); [done|].
  destruct (bool_decide (ds = [])); [done|].
  destruct (bool_decide (rest = [] ∨ rest = [10])); [|done]. intros [= <- <-]. lia.
Qed.

Lemma ll_code_spec s base : text s → base = 0 ∨ 2 ≤ base ≤ 16 →
  ll_code s base = if negative_zero s base then (- k_ERANGE, None) else ll_spec s base.
Proof.
  intros Ht Hb. destruct s as [|c s]; [done|]. unfold ll_code, negative_zero, ll_spec.
  destruct (c =? 45); [|done]. cbn [andb]. apply Forall_cons in Ht as [_ Ht].
  destruct (parse_spec s base) as [rv [v|]] eqn:E; [|done]. cbn [snd].
  apply parse_spec_range in E as [_ Hv]; [|done..].
  destruct (Z.ltb_spec 0 v), (Z.leb_spec v (2 ^ 63)), (Z.leb_spec (- 2 ^ 63) (- v)); cbn [andb]; try lia.
  - rewrite bool_decide_false; [done|]. intros [=]. lia.
  - by case_bool_decide.
  - replace v with 0 by lia. by rewrite bool_decide_true.
Qed.

Lemma kstrtoull_ok s base : base = 0 ∨ 2 ≤ base ≤ 16 → text s → zlen s < 2 ^ 31 →
  kstrtoull (s ++ [0]) base = Some (ull_spec s base).
Proof.
  intros Hb Ht Hl. unfold kstrtoull, at_. destruct s as [|c s].
  - simpl. by apply (_kstrtoull_ok [] base).
  - cbn [app lookup list_lookup mbind option_bind ull_spec].
    pose proof Ht as Ht0. apply Forall_cons in Ht as [Hc Ht]. simpl in Hl.
    destruct (c =? 43).
    + rewrite skipn_cons, drop_0. apply _kstrtoull_ok; (done || lia).
    + apply (_kstrtoull_ok (c :: s)); (done || (simpl; lia)).
Qed.

Lemma ull_spec_range s base rv v : text s → base = 0 ∨ 2 ≤ base ≤ 16 →
  ull_spec s base = (rv, Some v) → rv = 0 ∧ 0 ≤ v ≤ ULONG_MAX.
Proof.
  intros Ht Hb. unfold ull_spec. destruct s as [|c s]; [by apply parse_spec_range|].
  pose proof Ht as [_ Ht']%Forall_cons.
  destruct (c =? 43); by apply parse_spec_range.
Qed.

Lemma s64_neg v : 0 ≤ v ≤ ULONG_MAX → s64 (- v) = if v <=? 2 ^ 63 then - v else 2 ^ 64 - v.
Proof.
  intros Hv. unfold s64, wrap, ULONG_MAX in *. destruct (Z.leb_spec v (2 ^ 63)).
  - rewrite Z.mod_small by lia. lia.
  - replace (- v + 2 ^ 63) with ((2 ^ 64 - v + 2 ^ 63) + (-1) * 2 ^ 64) by lia.
    rewrite Z.mod_add by lia. rewrite Z.mod_small by lia. lia.
Qed.

Lemma s64_pos v : 0 ≤ v ≤ ULONG_MAX → s64 v = if v <? 2 ^ 63 then v else v - 2 ^ 64.
Proof.
  intros Hv. unfold s64, wrap, ULONG_MAX in *. destruct (Z.ltb_spec v (2 ^ 63)).
  - rewrite Z.mod_small by lia. lia.
  - replace (v + 2 ^ 63) with ((v - 2 ^ 63) + 1 * 2 ^ 64) by lia.
    rewrite Z.mod_add by lia. rewrite Z.mod_small by lia. lia.
Qed.

Lemma kstrtoll_ok s base : base = 0 ∨ 2 ≤ base ≤ 16 → text s → zlen s < 2 ^ 31 →
  kstrtoll (s ++ [0]) base = Some (ll_code s base).
Proof.
  intros Hb Ht Hl.
  assert (Hplain : ∀ s, text s → zlen s < 2 ^ 31 →
    ('(rv, tmp) ← kstrtoull (s ++ [0]) base;
     match tmp with
     | Some tmp => if s64 tmp <? 0 then Some (- k_ERANGE, None) else Some (0, Some (s64 tmp))
     | None => Some (rv, None)
     end) = Some (fit 0 (2 ^ 63 - 1) (ull_spec s base))).
  { clear s Ht Hl. intros s Ht Hl. rewrite kstrtoull_ok by done. cbn [mbind option_bind].
    destruct (ull_spec s base) as [rv [v|]] eqn:E; [|done].
    apply ull_spec_range in E as [-> Hv]; [|done..]. cbn [fit].
    rewrite s64_pos by done. destruct (Z.ltb_spec v (2 ^ 63)).
    - rewrite (proj2 (Z.ltb_ge v 0)), (proj2 (Z.leb_le 0 v)), (proj2 (Z.leb_le v _)) by lia. done.
    - unfold ULONG_MAX in *.
      rewrite (proj2 (Z.ltb_lt (v - 2 ^ 64) 0)), (proj2 (Z.leb_gt v (2 ^ 63 - 1))) by lia.
      by rewrite andb_false_r. }
  unfold kstrtoll, at_. destruct s as [|c s].
  - cbn [app lookup list_lookup mbind option_bind]. by apply (Hplain []).
  - cbn [app lookup list_lookup mbind option_bind ll_code].
    destruct (c =? 45); [|by apply (Hplain (c :: s))].
    pose proof Ht as [Hc Ht']%Forall_cons. simpl in Hl.
    rewrite skipn_cons, drop_0, _kstrtoull_ok by (done || lia). cbn [mbind option_bind].
    destruct (parse_spec s base) as [rv [v|]] eqn:E; [|done].
    apply parse_spec_range in E as [-> Hv]; [|done..].
    rewrite s64_neg by done. unfold ULONG_MAX in Hv.
    destruct (Z.leb_spec v (2 ^ 63)).
    + destruct (Z.ltb_spec 0 v); cbn [andb].
      * rewrite (proj2 (Z.leb_gt 0 (- v))) by lia. done.
      * rewrite (proj2 (Z.leb_le 0 (- v))) by lia. done.
    + rewrite (proj2 (Z.leb_le 0 (2 ^ 64 - v))), andb_false_r by lia. done.
Qed.

Lemma narrow_ok cast parse lo hi s base r :
  parse s base = Some r → (∀ rv v, r = (rv, Some v) → (v =? cast v) = ((lo <=? v) && (v <=? hi))) →
  narrow cast parse s base = Some (fit lo hi r).
Proof.
  intros E Hc. unfold narrow. rewrite E. cbn [mbind option_bind].
  destruct r as [rv [v|]]; [|done]. cbn [fit]. rewrite (Hc rv v eq_refl).
  by destruct (_ && _).
Qed.

Lemma unsigned_cast w v : 0 ≤ w → 0 ≤ v → (v =? wrap w v) = ((0 <=? v) && (v <=? 2 ^ w - 1)).
Proof.
  intros Hw Hv. rewrite (proj2 (Z.leb_le 0 v)) by done. cbn [andb].
  destruct (Z.leb_spec v (2 ^ w - 1)).
  - rewrite wrap_small by lia. apply Z.eqb_refl.
  - apply Z.eqb_neq. pose proof (wrap_range w v Hw). lia.
Qed.

Lemma signed_cast w v : 0 < w →
  (v =? wrap w (v + 2 ^ (w - 1)) - 2 ^ (w - 1)) = ((- 2 ^ (w - 1) <=? v) && (v <=? 2 ^ (w - 1) - 1)).
Proof.
  intros Hw. pose proof (wrap_range w (v + 2 ^ (w - 1)) ltac:(lia)) as Hr.
  assert (Hp : 2 ^ w = 2 * 2 ^ (w - 1)) by (rewrite <- Z.pow_succ_r by lia; f_equal; lia).
  destruct (Z.leb_spec (- 2 ^ (w - 1)) v), (Z.leb_spec v (2 ^ (w - 1) - 1)); cbn [andb];
    try (apply Z.eqb_neq; lia).
  rewrite wrap_small by lia. apply Z.eqb_eq. lia.
Qed.

Lemma fit_ull s base : text s → base = 0 ∨ 2 ≤ base ≤ 16 →
  fit 0 (2 ^ 64 - 1) (ull_spec s base) = ull_spec s base.
Proof.
  intros Ht Hb. destruct (ull_spec s base) as [rv [v|]] eqn:E; [|done].
  apply ull_spec_range in E as [-> Hv]; [|done..]. unfold ULONG_MAX in Hv. cbn [fit].
  by rewrite (proj2 (Z.leb_le 0 v)), (proj2 (Z.leb_le v _)) by lia.
Qed.

Lemma fit_ll s base : text s → base = 0 ∨ 2 ≤ base ≤ 16 →
  fit (- 2 ^ 63) (2 ^ 63 - 1) (ll_spec s base) = ll_spec s base.
Proof.
  assert (Hf : ∀ r : Z * option Z, fit (- 2 ^ 63) (2 ^ 63 - 1) (fit 0 (2 ^ 63 - 1) r) = fit 0 (2 ^ 63 - 1) r).
  { intros [rv [v|]]; [|done]. cbn [fit]. destruct (Z.leb_spec 0 v), (Z.leb_spec v (2 ^ 63 - 1)); cbn [andb fit]; try done.
    by rewrite (proj2 (Z.leb_le (- 2 ^ 63) v)), (proj2 (Z.leb_le v _)) by lia. }
  intros Ht Hb. destruct s as [|c s]; [apply Hf|]. unfold ll_spec. destruct (c =? 45); [|apply Hf].
  apply Forall_cons in Ht as [_ Ht]. destruct (parse_spec s base) as [rv [v|]] eqn:E; [|done].
  apply parse_spec_range in E as [_ Hv]; [|done..]. unfold ULONG_MAX in Hv.
  destruct (Z.leb_spec (- 2 ^ 63) (- v)); [|done]. cbn [fit].
  by rewrite (proj2 (Z.leb_le (- 2 ^ 63) (- v))), (proj2 (Z.leb_le (- v) _)) by lia.
Qed.

(** C32: the kstrto* family decides its whole grammar.  On every NUL-terminated
    string (below 2 GiB) and radix 0 or 2..16 kstrtoull returns 0 and the exact
    value when the string is an optional plus sign, an optional radix prefix,
    digits, and at most one newline, and the value fits 64 bits; -ERANGE exactly
    when the digits denote more than 2^64 - 1; -EINVAL in all other cases.
    kstrtoll does the same with a sign, and the narrower conversions return
    -ERANGE exactly for the values their type cannot hold; all this but for one
    text: a zero with a minus sign ("-0", "-0x0"), which every signed conversion
    refuses with -ERANGE although its type holds the value 0. *)
Theorem kstrtox_correct s base :
  base = 0 ∨ 2 ≤ base ≤ 16 → text s → zlen s < 2 ^ 31 →
  let unsigned hi := Some (fit 0 hi (ull_spec s base)) in
  let signed lo hi := Some (if negative_zero s base then (- k_ERANGE, None)
                            else fit lo hi (ll_spec s base)) in
  kstrtoull (s ++ [0]) base = unsigned (2 ^ 64 - 1) ∧
  kstrtoll (s ++ [0]) base = signed (- 2 ^ 63) (2 ^ 63 - 1) ∧
  _kstrtoul (s ++ [0]) base = unsigned (2 ^ 64 - 1) ∧
  _kstrtol (s ++ [0]) base = signed (- 2 ^ 63) (2 ^ 63 - 1) ∧
  kstrtouint (s ++ [0]) base = unsigned (2 ^ 32 - 1) ∧
  kstrtoint (s ++ [0]) base = signed (- 2 ^ 31) (2 ^ 31 - 1) ∧
  kstrtou16 (s ++ [0]) base = unsigned (2 ^ 16 - 1) ∧
  kstrtos16 (s ++ [0]) base = signed (- 2 ^ 15) (2 ^ 15 - 1) ∧
  kstrtou8 (s ++ [0]) base = unsigned (2 ^ 8 - 1) ∧
  kstrtos8 (s ++ [0]) base = signed (- 2 ^ 7) (2 ^ 7 - 1).
Proof.
  intros Hb Ht Hl unsigned signed. pose proof (kstrtoull_ok s base Hb Ht Hl) as Hu.
  pose proof (kstrtoll_ok s base Hb Ht Hl) as Hs. pose proof (ll_code_spec s base Ht Hb) as Hc.
  assert (Hn : ∀ w, 0 ≤ w → narrow (wrap w) kstrtoull (s ++ [0]) base = unsigned (2 ^ w - 1)).
  { intros w Hw. apply narrow_ok; [done|]. intros rv v E.
    apply ull_spec_range in E as [_ ?]; [|done..]. apply unsigned_cast; lia. }
  assert (Hm : ∀ w, 0 < w → narrow (λ x, wrap w (x + 2 ^ (w - 1)) - 2 ^ (w - 1)) kstrtoll (s ++ [0]) base
                = signed (- 2 ^ (w - 1)) (2 ^ (w - 1) - 1)).
  { intros w Hw. transitivity (Some (fit (- 2 ^ (w - 1)) (2 ^ (w - 1) - 1) (ll_code s base))).
    - apply narrow_ok; [done|]. intros rv v _. by apply signed_cast.
    - unfold signed. rewrite Hc. by destruct (negative_zero s base). }
  split; [unfold unsigned; by rewrite Hu, (fit_ull s base Ht Hb)|].
  split; [rewrite Hs, Hc; unfold signed; by rewrite (fit_ll s base Ht Hb)|].
  split; [by apply (Hn 64)|]. split; [by apply (Hm 64)|]. split; [by apply (Hn 32)|].
  split; [by apply (Hm 32)|]. split; [by apply (Hn 16)|]. split; [by apply (Hm 16)|].
  split; [by apply (Hn 8)|]. by apply (Hm 8).
Qed.

(** "+0x1F\n" is 31 in any radix detection; 2^64 is out of range. *)
Example kstrtox_correct_witness :
  kstrtoull ([43; 48; 120; 49; 70; 10] ++ [0]) 0 = Some (0, Some 31) ∧
  kstrtos8 ([45; 49; 50; 56] ++ [0]) 10 = Some (0, Some (-128)).
Proof.
  split; [|destruct (kstrtox_correct [45; 49; 50; 56] 10) as (_ & _ & _ & _ & _ & _ & _ & _ & _ & H);
    [right; lia|repeat constructor; lia|simpl; lia|rewrite H; reflexivity]].
  destruct (kstrtox_correct [43; 48; 120; 49; 70; 10] 0) as (H & _).
  - by left.
  - repeat constructor; lia.
  - simpl. lia.
  - rewrite H. reflexivity.
Defined.

(** kstrtoll refuses "-0" with -ERANGE, although 0 is a valid long long. *)
Lemma kstrtoll_negative_zero : kstrtoll [45; 48; 0] 10 = Some (- k_ERANGE, None).
Proof. reflexivity. Qed.
