(* ===== verification/Vsprintf.v ===== *)
(** * Vsprintf: formatting integers and strings (lib/vsprintf.c)

    put_dec and its helpers, num_to_str, number and string.  The helpers that
    fill the local array [tmp] from its start are functions that append to the
    list of bytes written so far.  number and string write to the caller's
    buffer as far as [end] allows: they thread the position [buf] and the
    memory. *)

From S2P Require Import Prelude Strings StringsThm Kstrtox.

(** ** Decimal digits without division *)

Definition div10_32 (x : Z) : Z := u32 ((x * 0x1999999a) >>u 32).

Definition put_dec_full9 (buf : list Z) (q : Z) : list Z :=
  let r := div10_32 q in
  let buf := buf ++ [u8 (u32 (q - 10 * r) + 48)] in (* 1 *)
  let q := div10_32 r in
  let buf := buf ++ [u8 (u32 (r - 10 * q) + 48)] in (* 2 *)
  let r := div10_32 q in
  let buf := buf ++ [u8 (u32 (q - 10 * r) + 48)] in (* 3 *)
  let q := div10_32 r in
  let buf := buf ++ [u8 (u32 (r - 10 * q) + 48)] in (* 4 *)
  let r := div10_32 q in
  let buf := buf ++ [u8 (u32 (q - 10 * r) + 48)] in (* 5 *)
  let q := u32 (r * 0x199a) >>u 16 in
  let buf := buf ++ [u8 (u32 (r - 10 * q) + 48)] in (* 6 *)
  let r := u32 (q * 0xcd) >>u 11 in
  let buf := buf ++ [u8 (u32 (q - 10 * r) + 48)] in (* 7 *)
  let q := u32 (r * 0xcd) >>u 11 in
  let buf := buf ++ [u8 (u32 (r - 10 * q) + 48)] in (* 8 *)
  buf ++ [u8 (q + 48)]. (* 9 *)

(** The loop of put_dec_trunc8 divides by 10 while [r >= 10000]; a 32-bit number
    needs at most 6 rounds. *)
Fixpoint put_dec_trunc8_loop (fuel : nat) (buf : list Z) (r : Z) : option (list Z * Z) :=
  match fuel with
  | O => None
  | S fuel =>
      if 10000 <=? r then
        let q := u32 (r + 48) in
        let r := div10_32 r in
        put_dec_trunc8_loop fuel (buf ++ [u8 (u32 (q - 10 * r))]) r
      else Some (buf, r)
  end.

Definition put_dec_trunc8 (buf : list Z) (r : Z) : option (list Z) :=
  '(buf, r) ← put_dec_trunc8_loop 8 buf r;
  let q := u32 (r * 0x199a) >>u 16 in
  let buf := buf ++ [u8 (u32 (r - 10 * q) + 48)] in
  if q =? 0 then Some buf
  else
    let r := u32 (q * 0xcd) >>u 11 in
    let buf := buf ++ [u8 (u32 (q - 10 * r) + 48)] in
    if r =? 0 then Some buf
    else
      let q := u32 (r * 0xcd) >>u 11 in
      let buf := buf ++ [u8 (u32 (r - 10 * q) + 48)] in
      if q =? 0 then Some buf else Some (buf ++ [u8 (q + 48)]).

(** The loop of put_dec: groups of nine digits; do_div leaves the quotient. *)
Fixpoint put_dec_loop (fuel : nat) (buf : list Z) (n : Z) : option (list Z * Z) :=
  match fuel with
  | O => None
  | S fuel =>
      if 1000000000 <=? n then
        put_dec_loop fuel (put_dec_full9 buf (u32 (n `mod` 1000000000))) (n / 1000000000)
      else Some (buf, n)
  end.

Definition put_dec (buf : list Z) (n : Z) : option (list Z) :=
  if 100000000 <=? n then
    '(buf, n) ← put_dec_loop 4 buf n;
    if 100000000 <=? n then Some (put_dec_full9 buf (u32 n)) else put_dec_trunc8 buf (u32 n)
  else put_dec_trunc8 buf (u32 n).

(** [for (idx = 0; idx < len; ++idx) buf[idx] = ...], the bytes in order. *)
Fixpoint store_chars (M : mem) (p : Z) (l : list Z) : option mem :=
  match l with
  | [] => Some M
  | c :: l => M ← poke M p c; store_chars M (p + 1) l
  end.

(** num_to_str: the length returned and the memory. *)
Definition num_to_str (M : mem) (buf size num : Z) : option (Z * mem) :=
  tmp ← (if num <=? 9 then Some [48 + num] else put_dec [] num);
  let len := zlen tmp in
  if size <? len then Some (0, M)
  else M ← store_chars M buf (reverse tmp); Some (len, M).

(** ** number *)

Definition ZEROPAD : Z := 1.
Definition SIGN : Z := 2.
Definition PLUS : Z := 4.
Definition SPACE : Z := 8.
Definition LEFT : Z := 16.
Definition SMALL : Z := 32.
Definition SPECIAL : Z := 64.

Record printf_spec := PSpec { flags : Z; base : Z; field_width : Z; precision : Z }.

Definition flag (s : printf_spec) (f : Z) : bool := negb (flags s .& f =? 0).

(** The characters of [digits], uppercase. *)
Definition digits : list Z := [48; 49; 50; 51; 52; 53; 54; 55; 56; 57; 65; 66; 67; 68; 69; 70].

(** The position in the buffer and the memory. *)
Notation outst := (Z * mem)%type.

(** [if (buf < end) *buf = c; ++buf] *)
Definition emit (end_ c : Z) (o : outst) : option outst :=
  let '(buf, M) := o in
  if buf <? end_ then M ← poke M buf c; Some (buf + 1, M) else Some (buf + 1, M).

(** A 16-bit counter takes at most 2^16 values. *)
Definition pad_fuel : nat := Z.to_nat 65537.

(** [while (--w >= 0) emit c]: the final [w] and the output. *)
Fixpoint pad_loop (fuel : nat) (end_ c w : Z) (o : outst) : option (Z * outst) :=
  match fuel with
  | O => None
  | S fuel =>
      let w := s16 (w - 1) in
      if 0 <=? w then o ← emit end_ c o; pad_loop fuel end_ c w o else Some (w, o)
  end.

(** [while (i <= --p) emit '0'] *)
Fixpoint zero_loop (fuel : nat) (end_ i p : Z) (o : outst) : option outst :=
  match fuel with
  | O => None
  | S fuel =>
      let p := s16 (p - 1) in
      if i <=? p then o ← emit end_ 48 o; zero_loop fuel end_ i p o else Some o
  end.

(** [while (--i >= 0) emit tmp[i]] *)
Fixpoint emit_all (end_ : Z) (l : list Z) (o : outst) : option outst :=
  match l with
  | [] => Some o
  | c :: l => o ← emit end_ c o; emit_all end_ l o
  end.

(** The digits of [num] in radix 8 or 16, least significant first. *)
Fixpoint mask_loop (fuel : nat) (num mask shift locase : Z) (tmp : list Z) : option (list Z) :=
  match fuel with
  | O => None
  | S fuel =>
      d ← rd digits (u8 num .& mask);
      let tmp := tmp ++ [d .| locase] in
      let num := num >>u shift in
      if num =? 0 then Some tmp else mask_loop fuel num mask shift locase tmp
  end.

Definition number_digits (num base locase : Z) : option (list Z) :=
  if num <? base then d ← rd digits num; Some [d .| locase]
  else if negb (base =? 10) then
    mask_loop 24 num (base - 1) (if base =? 16 then 4 else 3) locase []
  else put_dec [] num.

(** The sign character (0 for none), the magnitude and the width left. *)
Definition number_sign (num : Z) (spec : printf_spec) (width : Z) : Z * Z * Z :=
  if flag spec SIGN then
    if s64 num <? 0 then (45, u64 (- num), s16 (width - 1))
    else if flag spec PLUS then (43, num, s16 (width - 1))
    else if flag spec SPACE then (32, num, s16 (width - 1))
    else (0, num, width)
  else (0, num, width).

Definition number (end_ num : Z) (spec : printf_spec) (o : outst) : option outst :=
  let need_pfx := flag spec SPECIAL && negb (base spec =? 10) in
  let is_zero := num =? 0 in
  let locase := flags spec .& SMALL in
  let zeropad := flag spec ZEROPAD && negb (flag spec LEFT) in
  let '(sign, num, width) := number_sign num spec (field_width spec) in
  let width :=
    if need_pfx then
      if base spec =? 16 then s16 (width - 2)
      else if negb is_zero then s16 (width - 1) else width
    else width in
  tmp ← number_digits num (base spec) locase;
  let i := zlen tmp in
  let prec := if precision spec <? i then i else precision spec in
  let width := s16 (width - prec) in
  '(width, o) ← (if negb (zeropad || flag spec LEFT)
                 then pad_loop pad_fuel end_ 32 width o else Some (width, o));
  o ← (if negb (sign =? 0) then emit end_ sign o else Some o);
  o ← (if need_pfx then
         o ← (if (base spec =? 16) || negb is_zero then emit end_ 48 o else Some o);
         if base spec =? 16 then emit end_ (88 .| locase) o else Some o
       else Some o);
  '(width, o) ← (if negb (flag spec LEFT)
                 then pad_loop pad_fuel end_ (if zeropad then 48 else 32) width o
                 else Some (width, o));
  o ← zero_loop pad_fuel end_ i prec o;
  o ← emit_all end_ (reverse tmp) o;
  '(_, o) ← pad_loop pad_fuel end_ 32 width o;
  Some o.

(** ** string *)

(** [while (len < w--) emit ' ']: the final [w] and the output. *)
Fixpoint spad_loop (fuel : nat) (end_ len w : Z) (o : outst) : option (Z * outst) :=
  match fuel with
  | O => None
  | S fuel =>
      if len <? w then o ← emit end_ 32 o; spad_loop fuel end_ len (s16 (w - 1)) o
      else Some (s16 (w - 1), o)
  end.

(** [for (i = 0; i < len; ++i)] copy a character; it is read only when it fits. *)
Fixpoint copy_chars (n : nat) (end_ s : Z) (o : outst) : option outst :=
  match n with
  | O => Some o
  | S n =>
      let '(buf, M) := o in
      M ← (if buf <? end_ then c ← M !! s; poke M buf c else Some M);
      copy_chars n end_ (s + 1) (buf + 1, M)
  end.

(** [null_str] is the address of the literal "(null)". *)
Definition string (end_ s null_str : Z) (spec : printf_spec) (o : outst) : option outst :=
  let s := if s <? 4096 then null_str else s in
  len ← strnlen (snd o) s (u64 (precision spec));
  let len := s32 len in
  '(w, o) ← (if negb (flag spec LEFT)
             then spad_loop pad_fuel end_ len (field_width spec) o
             else Some (field_width spec, o));
  o ← copy_chars (Z.to_nat len) end_ s o;
  '(_, o) ← spad_loop pad_fuel end_ len w o;
  Some o.

(** ** Canonical digits *)

(** The value of digits, least significant first. *)
Definition lsd_val (b : Z) (l : list Z) : Z := fold_right (λ d v, d + b * v) 0 l.

(** [l] are the digits of [n] in radix [b], without a superfluous zero. *)
Definition canon (b n : Z) (l : list Z) : Prop :=
  l ≠ [] ∧ Forall (λ d, 0 ≤ d < b) l ∧ lsd_val b l = n ∧ (last l = Some 0 → l = [0]).

Lemma canon_one b d : 0 ≤ d < b → canon b d [d].
Proof.
  intros Hd. unfold canon. split; [done|]. split; [by constructor|]. simpl.
  split; [lia|]. by intros [= ->].
Qed.

Lemma canon_cons b d m l : 0 < b → 0 ≤ d < b → 0 < m → canon b m l → canon b (d + b * m) (d :: l).
Proof.
  intros Hb Hd Hm (Hl & Hf & Hv & Hz). split; [done|]. split; [by constructor|].
  split; [simpl; by rewrite Hv|]. rewrite last_cons. destruct (last l) eqn:E.
  - intros [= ->]. specialize (Hz eq_refl). subst l. simpl in Hv. lia.
  - by apply last_None in E.
Qed.

Lemma lsd_val_app b l1 l2 : lsd_val b (l1 ++ l2) = lsd_val b l1 + b ^ zlen l1 * lsd_val b l2.
Proof.
  induction l1 as [|d l1 IH]; simpl.
  - lia.
  - rewrite IH. replace (Z.of_nat (S (length l1))) with (Z.succ (zlen l1)) by lia.
    rewrite Z.pow_succ_r by lia. lia.
Qed.

Lemma canon_app b l1 m l : 0 < b → Forall (λ d, 0 ≤ d < b) l1 → 0 < m → canon b m l →
  canon b (lsd_val b l1 + b ^ zlen l1 * m) (l1 ++ l).
Proof.
  intros Hb H1 Hm (Hl & Hf & Hv & Hz). split; [by destruct l1|].
  split; [by apply Forall_app|]. split; [by rewrite lsd_val_app, Hv|].
  rewrite last_app. destruct (last l) as [x|] eqn:E.
  - intros [= ->]. specialize (Hz eq_refl). subst l. simpl in Hv. lia.
  - by apply last_None in E.
Qed.

(** The digits are determined by the number. *)
Lemma canon_nonzero b n l : 0 < b → canon b n l → 0 < n → ∀ x, last l = Some x → 0 < x.
Proof.
  intros Hb (Hl & Hf & Hv & Hz) Hn x Hx.
  assert (0 ≤ x < b).
  { rewrite Forall_forall in Hf. apply Hf. by apply last_Some_elem_of. }
  destruct (decide (x = 0)) as [->|]; [|lia]. rewrite (Hz Hx) in Hv. simpl in Hv. lia.
Qed.

(** ** put_dec *)

Notation dec := (map (λ d, d + 48)).

Lemma u32_div10 x : 0 ≤ x < 1073741829 → div10_32 x = x / 10.
Proof.
  intros Hx. unfold div10_32. rewrite Z.shiftr_div_pow2 by lia.
  rewrite u32_small by dlia. dlia.
Qed.
Lemma mul199a x : 0 ≤ x < 16389 → u32 (x * 0x199a) >>u 16 = x / 10.
Proof. intros Hx. rewrite u32_small by lia. rewrite Z.shiftr_div_pow2 by lia. dlia. Qed.
Lemma mulcd x : 0 ≤ x < 1029 → u32 (x * 0xcd) >>u 11 = x / 10.
Proof. intros Hx. rewrite u32_small by lia. rewrite Z.shiftr_div_pow2 by lia. dlia. Qed.

Lemma dec_char x : 0 ≤ x → u8 (u32 (x - 10 * (x / 10)) + 48) = x `mod` 10 + 48.
Proof.
  intros Hx. replace (x - 10 * (x / 10)) with (x mod 10) by dlia.
  rewrite u32_small, u8_small by dlia. done.
Qed.

Lemma full9_ok buf q : 0 ≤ q < 1000000000 → ∃ ds,
  put_dec_full9 buf q = buf ++ dec ds ∧ length ds = 9%nat ∧ Forall (λ d, 0 ≤ d < 10) ds ∧
  lsd_val 10 ds = q ∧ last ds = Some (q / 100000000).
Proof.
  intros Hq. unfold put_dec_full9.
  set (q1 := q / 10). set (q2 := q1 / 10). set (q3 := q2 / 10). set (q4 := q3 / 10).
  set (q5 := q4 / 10). set (q6 := q5 / 10). set (q7 := q6 / 10). set (q8 := q7 / 10).
  assert (0 ≤ q1 < 100000000) by (unfold q1; dlia).
  assert (0 ≤ q2 < 10000000) by (unfold q2; dlia).
  assert (0 ≤ q3 < 1000000) by (unfold q3; dlia).
  assert (0 ≤ q4 < 100000) by (unfold q4; dlia).
  assert (0 ≤ q5 < 10000) by (unfold q5; dlia).
  assert (0 ≤ q6 < 1000) by (unfold q6; dlia).
  assert (0 ≤ q7 < 100) by (unfold q7; dlia).
  assert (0 ≤ q8 < 10) by (unfold q8; dlia).
  exists [q mod 10; q1 mod 10; q2 mod 10; q3 mod 10; q4 mod 10; q5 mod 10; q6 mod 10; q7 mod 10; q8].
  rewrite (u32_div10 q) by lia. fold q1. rewrite (u32_div10 q1) by lia. fold q2.
  rewrite (u32_div10 q2) by lia. fold q3. rewrite (u32_div10 q3) by lia. fold q4.
  rewrite (u32_div10 q4) by lia. fold q5. rewrite (mul199a q5) by lia. fold q6.
  rewrite (mulcd q6) by lia. fold q7. rewrite (mulcd q7) by lia. fold q8.
  unfold q1 at 1, q2 at 1, q3 at 1, q4 at 1, q5 at 1, q6 at 1, q7 at 1, q8 at 1.
  rewrite !dec_char by lia. rewrite (u8_small (q8 + 48)) by lia.
  rewrite <- !app_assoc. simpl. split; [done|]. split; [done|].
  split; [repeat constructor; dlia|]. split.
  - unfold q8, q7, q6, q5, q4, q3, q2, q1 in *. clear. dlia.
  - f_equal. unfold q8, q7, q6, q5, q4, q3, q2, q1. clear. dlia.
Qed.

Lemma trunc_tail_ok buf r : 0 ≤ r < 10000 → ∃ ds,
  (let q := u32 (r * 0x199a) >>u 16 in
   let buf := buf ++ [u8 (u32 (r - 10 * q) + 48)] in
   if q =? 0 then Some buf
   else
     let r := u32 (q * 0xcd) >>u 11 in
     let buf := buf ++ [u8 (u32 (q - 10 * r) + 48)] in
     if r =? 0 then Some buf
     else
       let q := u32 (r * 0xcd) >>u 11 in
       let buf := buf ++ [u8 (u32 (r - 10 * q) + 48)] in
       if q =? 0 then Some buf else Some (buf ++ [u8 (q + 48)]))
  = Some (buf ++ dec ds) ∧ canon 10 r ds.
Proof.
  intros Hr. cbv zeta. rewrite mul199a by lia. set (q1 := r / 10).
  assert (Hq1 : 0 ≤ q1 < 1000) by (unfold q1; dlia).
  rewrite (mulcd q1) by lia. set (q2 := q1 / 10). assert (Hq2 : 0 ≤ q2 < 100) by (unfold q2; dlia).
  rewrite (mulcd q2) by lia. set (q3 := q2 / 10). assert (Hq3 : 0 ≤ q3 < 10) by (unfold q3; dlia).
  unfold q1 at 2, q2 at 2, q3 at 2. rewrite !dec_char by lia. rewrite (u8_small (q3 + 48)) by lia.
  assert (Er : r = r mod 10 + 10 * q1) by (unfold q1; dlia).
  assert (E1 : q1 = q1 mod 10 + 10 * q2) by (unfold q2; dlia).
  assert (E2 : q2 = q2 mod 10 + 10 * q3) by (unfold q3; dlia).
  destruct (Z.eqb_spec q1 0) as [Z1|Z1].
  { exists [r mod 10]. split; [done|]. rewrite Er at 1. rewrite Z1, Z.mul_0_r, Z.add_0_r.
    apply canon_one. dlia. }
  destruct (Z.eqb_spec q2 0) as [Z2|Z2].
  { exists [r mod 10; q1 mod 10]. rewrite <- !app_assoc. split; [done|]. rewrite Er at 1.
    apply canon_cons; [lia|dlia|lia|]. rewrite E1 at 1. rewrite Z2, Z.mul_0_r, Z.add_0_r.
    apply canon_one. dlia. }
  destruct (Z.eqb_spec q3 0) as [Z3|Z3].
  { exists [r mod 10; q1 mod 10; q2 mod 10]. rewrite <- !app_assoc. split; [done|]. rewrite Er at 1.
    apply canon_cons; [lia|dlia|lia|]. rewrite E1 at 1. apply canon_cons; [lia|dlia|lia|].
    rewrite E2 at 1. rewrite Z3, Z.mul_0_r, Z.add_0_r. apply canon_one. dlia. }
  exists [r mod 10; q1 mod 10; q2 mod 10; q3]. rewrite <- !app_assoc. split; [done|].
  rewrite Er at 1. apply canon_cons; [lia|dlia|lia|]. rewrite E1 at 1.
  apply canon_cons; [lia|dlia|lia|]. rewrite E2 at 1. apply canon_cons; [lia|dlia|lia|].
  apply canon_one. lia.
Qed.

Lemma trunc8_ok buf r : 0 ≤ r < 100000000 → ∃ ds,
  put_dec_trunc8 buf r = Some (buf ++ dec ds) ∧ canon 10 r ds.
Proof.
  intros Hr. unfold put_dec_trunc8.
  assert (H : ∀ k fuel buf r, 0 ≤ r < 10000 * 10 ^ Z.of_nat k → r < 100000000 → (k < fuel)%nat →
    ∃ pre r', put_dec_trunc8_loop fuel buf r = Some (buf ++ dec pre, r') ∧ 0 ≤ r' < 10000 ∧
      ∀ ds, canon 10 r' ds → canon 10 r (pre ++ ds)).
  { clear. induction k as [|k IH]; intros [|fuel] buf r Hr Hr8 Hf; cbn [put_dec_trunc8_loop]; try lia.
    - destruct (Z.leb_spec 10000 r); [lia|]. exists [], r. rewrite app_nil_r. done.
    - destruct (Z.leb_spec 10000 r).
      2:{ exists [], r. rewrite app_nil_r. auto with lia. }
      rewrite u32_div10 by lia.
      destruct (IH fuel (buf ++ [u8 (u32 (u32 (r + 48) - 10 * (r / 10)))]) (r / 10)) as (pre & r' & -> & Hr' & Hc).
      + rewrite Nat2Z.inj_succ, Z.pow_succ_r in Hr by lia. dlia.
      + dlia.
      + lia.
      + exists (r mod 10 :: pre), r'. split.
        * do 2 f_equal. rewrite <- app_assoc. simpl. do 2 f_equal.
          rewrite (u32_small (r + 48)) by lia.
          replace (r + 48 - 10 * (r / 10)) with (r mod 10 + 48) by dlia.
          rewrite u32_small, u8_small by dlia. done.
        * split; [done|]. intros ds Hds. apply Hc in Hds. simpl.
          replace r with (r mod 10 + 10 * (r / 10)) at 1 by dlia.
          apply canon_cons; [lia|dlia|dlia|done]. }
  destruct (H 4%nat 8%nat buf r) as (pre & r' & -> & Hr' & Hc); [simpl; lia..|].
  cbn [mbind option_bind].
  destruct (trunc_tail_ok (buf ++ dec pre) r' Hr') as (ds & E & Hds).
  cbv zeta in E |- *. rewrite E.
  exists (pre ++ ds). split; [by rewrite <- app_assoc, map_app|]. by apply Hc.
Qed.

Lemma put_dec_last buf n : 0 ≤ n < 1000000000 → ∃ ds,
  (if 100000000 <=? n then Some (put_dec_full9 buf (u32 n)) else put_dec_trunc8 buf (u32 n))
  = Some (buf ++ dec ds) ∧ canon 10 n ds.
Proof.
  intros Hn. rewrite u32_small by lia. destruct (Z.leb_spec 100000000 n).
  - destruct (full9_ok buf n Hn) as (ds & -> & Hl & Hf & Hv & Hlast). exists ds.
    split; [done|]. split; [by intros ->|]. split; [done|]. split; [done|].
    rewrite Hlast. intros [= E]. exfalso. revert E. dlia.
  - apply trunc8_ok. lia.
Qed.

Lemma put_dec_ok n : is_u64 n → ∃ ds, put_dec [] n = Some (dec ds) ∧ canon 10 n ds.
Proof.
  intros Hn. unfold put_dec.
  assert (H : ∀ k fuel buf n, 0 ≤ n < 1000000000 * 1000000000 ^ Z.of_nat k → (k < fuel)%nat →
    ∃ pre n', put_dec_loop fuel buf n = Some (buf ++ dec pre, n') ∧ 0 ≤ n' < 1000000000 ∧
      (∀ ds, canon 10 n' ds → canon 10 n (pre ++ ds))).
  { clear. induction k as [|k IH]; intros [|fuel] buf n Hn Hf; cbn [put_dec_loop]; try lia.
    - destruct (Z.leb_spec 1000000000 n); [lia|]. exists [], n. rewrite app_nil_r. auto with lia.
    - destruct (Z.leb_spec 1000000000 n).
      2:{ exists [], n. rewrite app_nil_r. auto with lia. }
      rewrite u32_small by dlia.
      destruct (full9_ok buf (n mod 1000000000)) as (d9 & -> & Hl & Hf9 & Hv & _); [dlia|].
      destruct (IH fuel (buf ++ dec d9) (n / 1000000000)) as (pre & n' & -> & Hn' & Hc).
      + rewrite Nat2Z.inj_succ, Z.pow_succ_r in Hn by lia. dlia.
      + lia.
      + exists (d9 ++ pre), n'. split; [by rewrite map_app, app_assoc|]. split; [done|].
        intros ds Hds. apply Hc in Hds. rewrite <- app_assoc.
        replace n with (lsd_val 10 d9 + 10 ^ zlen d9 * (n / 1000000000)) at 1.
        * apply canon_app; [lia|done|dlia|done].
        * rewrite Hv, Hl. change (10 ^ Z.of_nat 9) with 1000000000. dlia. }
  destruct (Z.leb_spec 100000000 n).
  - destruct (H 2%nat 4%nat [] n) as (pre & n' & -> & Hn' & Hc); [simpl; lia..|].
    cbn [mbind option_bind]. destruct (put_dec_last ([] ++ dec pre) n' Hn') as (ds & -> & Hds).
    exists (pre ++ ds). split; [by rewrite map_app|]. by apply Hc.
  - rewrite u32_small by lia. apply (trunc8_ok []). lia.
Qed.

(** ** Radix 8 and 16 *)

(** The character of a digit. *)
Definition dchar (locase d : Z) : Z := default 0 (rd digits d) .| locase.

Lemma dchar_rd locase d : 0 ≤ d < 16 → ∃ x, rd digits d = Some x ∧ x .| locase = dchar locase d.
Proof.
  intros Hd. destruct (rd_in digits d) as [x Hx]; [simpl; lia|]. exists x. split; [done|].
  unfold dchar. by rewrite Hx.
Qed.

Lemma small_cases (P : Z → Prop) n : Forall P (seqZ 0 (Z.of_nat n)) → ∀ d, 0 ≤ d < Z.of_nat n → P d.
Proof. rewrite Forall_forall. intros H d Hd. apply H, elem_of_seqZ. lia. Qed.

Lemma dchar_dec locase d : locase = 0 ∨ locase = 32 → 0 ≤ d < 10 → dchar locase d = d + 48.
Proof. intros [->| ->]; revert d; apply (small_cases _ 10); repeat constructor. Qed.

Lemma dchar_digit locase d : locase = 0 ∨ locase = 32 → 0 ≤ d < 16 →
  digit_val (dchar locase d) = Some d ∧ is_u8 (dchar locase d) ∧ dchar locase d ≠ 0.
Proof. intros [->| ->]; revert d; apply (small_cases _ 16); repeat constructor; done. Qed.

Lemma mask_ok k locase : k = 3 ∨ k = 4 → ∀ fuel num tmp,
  0 ≤ num < 2 ^ (k * Z.of_nat fuel) → (0 < fuel)%nat →
  ∃ ds, mask_loop fuel num (2 ^ k - 1) k locase tmp = Some (tmp ++ map (dchar locase) ds) ∧
        canon (2 ^ k) num ds.
Proof.
  intros Hk. assert (Hk8 : 0 ≤ k ≤ 8) by lia.
  induction fuel as [|fuel IH]; intros num tmp Hn Hf; [lia|]. cbn [mask_loop].
  assert (Em : u8 num .& (2 ^ k - 1) = num mod 2 ^ k).
  { replace (2 ^ k - 1) with (Z.ones k) by (rewrite Z.ones_equiv; lia).
    rewrite Z.land_ones, u8_mod by lia.
    destruct Hk as [->| ->]; [change (2 ^ 3) with 8|change (2 ^ 4) with 16]; dlia. }
  rewrite Em. pose proof (Z.mod_pos_bound num (2 ^ k) ltac:(lia)) as Hm.
  assert (2 ^ k ≤ 16) by (destruct Hk as [->| ->]; lia).
  destruct (dchar_rd locase (num mod 2 ^ k)) as (x & -> & Hx); [lia|]. cbn [mbind option_bind].
  rewrite Hx, Z.shiftr_div_pow2 by lia.
  assert (En : num = num mod 2 ^ k + 2 ^ k * (num / 2 ^ k)) by (rewrite (Z.div_mod num (2 ^ k)) at 1; lia).
  assert (0 ≤ num / 2 ^ k) by (apply Z.div_pos; lia).
  destruct (Z.eqb_spec (num / 2 ^ k) 0) as [E|E].
  - exists [num mod 2 ^ k]. split; [done|]. rewrite En at 1. rewrite E, Z.mul_0_r, Z.add_0_r.
    by apply canon_one.
  - destruct fuel as [|fuel'].
    { exfalso. apply E. apply Z.div_small. replace (k * Z.of_nat 1) with k in Hn by lia. lia. }
    destruct (IH (num / 2 ^ k) (tmp ++ [dchar locase (num mod 2 ^ k)])) as (ds & -> & Hds).
    + split; [done|]. apply Z.div_lt_upper_bound; [lia|].
      replace (2 ^ k * 2 ^ (k * Z.of_nat (S fuel'))) with (2 ^ (k * Z.of_nat (S (S fuel')))); [lia|].
      rewrite <- Z.pow_add_r by lia. f_equal. lia.
    + lia.
    + exists (num mod 2 ^ k :: ds). split; [by rewrite <- app_assoc|]. rewrite En at 1.
      apply canon_cons; [lia|lia|lia|done].
Qed.

Lemma number_digits_ok num b locase :
  is_u64 num → b = 8 ∨ b = 10 ∨ b = 16 → locase = 0 ∨ locase = 32 →
  ∃ ds, number_digits num b locase = Some (map (dchar locase) ds) ∧ canon b num ds.
Proof.
  intros Hn Hb Hl. unfold number_digits. destruct (Z.ltb_spec num b).
  - destruct (dchar_rd locase num) as (x & -> & Hx); [lia|]. cbn [mbind option_bind].
    exists [num]. rewrite Hx. split; [done|]. apply canon_one. lia.
  - destruct Hb as [->|[->| ->]]; cbn [Z.eqb negb].
    + apply (mask_ok 3 locase ltac:(auto) 24 num []); [split; [lia|]|lia].
      change (3 * Z.of_nat 24) with 72. lia.
    + destruct (put_dec_ok num Hn) as (ds & -> & Hc). exists ds. split; [|done].
      f_equal. destruct Hc as (_ & Hf & _). apply map_ext_Forall.
      eapply Forall_impl; [exact Hf|]. intros d Hd. simpl. by rewrite dchar_dec.
    + apply (mask_ok 4 locase ltac:(auto) 24 num []); [split; [lia|]|lia].
      change (4 * Z.of_nat 24) with 96. lia.
Qed.
