(* ===== verification/VsprintfThm.v ===== *)
(** * VsprintfThm: what number, string and num_to_str print

    The output of a formatting routine is described by the text it prints: the
    position advances by the length of the text, and as much of it as fits in
    front of [end] is in memory. *)

From S2P Require Import Prelude Strings StringsThm StringsCopy Kstrtox Vsprintf.

(** ** Bounded output *)

Definition out (end_ : Z) (L : list Z) (o : outst) : outst :=
  (fst o + zlen L, put (snd o) (fst o) (take (Z.to_nat (end_ - fst o)) L)).

(** Every byte that may be written is mapped. *)
Definition room (end_ : Z) (o : outst) : Prop :=
  ∀ a, fst o ≤ a < end_ → is_Some (snd o !! a).

Lemma out_nil end_ o : out end_ [] o = o.
Proof. destruct o as [buf M]. unfold out. rewrite take_nil. simpl. by rewrite Z.add_0_r. Qed.

Lemma out_app end_ L1 L2 o : out end_ L2 (out end_ L1 o) = out end_ (L1 ++ L2) o.
Proof.
  destruct o as [buf M]. unfold out. simpl. f_equal; [rewrite length_app; lia|].
  rewrite take_app, put_app. destruct (decide (zlen L1 ≤ end_ - buf)).
  - rewrite (take_ge L1) by lia. do 2 f_equal. lia.
  - replace (Z.to_nat (end_ - (buf + zlen L1))) with 0%nat by lia.
    replace (Z.to_nat (end_ - buf) - length L1)%nat with 0%nat by lia. done.
Qed.

Lemma room_out end_ L o : room end_ o → room end_ (out end_ L o).
Proof.
  intros Hr a Ha. unfold out in *. simpl in *. rewrite put_lookup.
  destruct (_ && _) eqn:E; [|apply Hr; lia].
  apply andb_true_iff in E as [E1%Z.leb_le E2%Z.ltb_lt].
  apply lookup_lt_is_Some. lia.
Qed.

Lemma emit_ok end_ c o : room end_ o → emit end_ c o = Some (out end_ [c] o).
Proof.
  intros Hr. destruct o as [buf M]. unfold emit, out. simpl.
  destruct (Z.ltb_spec buf end_).
  - rewrite poke_mapped by (apply (Hr buf); simpl; lia). cbn [mbind option_bind].
    replace (Z.to_nat (end_ - buf)) with (S (Z.to_nat (end_ - buf - 1))) by lia. simpl.
    by rewrite take_nil.
  - replace (Z.to_nat (end_ - buf)) with 0%nat by lia. done.
Qed.

Lemma emit_all_ok end_ L : ∀ o, room end_ o → emit_all end_ L o = Some (out end_ L o).
Proof.
  induction L as [|c L IH]; intros o Hr; cbn [emit_all]; [by rewrite out_nil|].
  rewrite emit_ok by done. cbn [mbind option_bind]. rewrite IH by by apply room_out.
  by rewrite out_app.
Qed.

Lemma s16_small x : - 2 ^ 15 ≤ x < 2 ^ 15 → s16 x = x.
Proof. intros. unfold s16. rewrite wrap_small; lia. Qed.

Definition reps (n c : Z) : list Z := replicate (Z.to_nat n) c.

Lemma out_snoc_rep end_ c n o : 0 < n → out end_ (reps (n - 1) c) (out end_ [c] o) = out end_ (reps n c) o.
Proof.
  intros Hn. rewrite out_app. unfold reps.
  by replace (Z.to_nat n) with (S (Z.to_nat (n - 1))) by lia.
Qed.

Lemma pad_ok end_ c : ∀ fuel w o, room end_ o → - 2 ^ 15 < w < 2 ^ 15 →
  (Z.to_nat w < fuel)%nat →
  pad_loop fuel end_ c w o = Some (Z.min w 0 - 1, out end_ (reps w c) o).
Proof.
  induction fuel as [|fuel IH]; intros w o Hr Hw Hf; [lia|]. cbn [pad_loop].
  rewrite s16_small by lia. destruct (Z.leb_spec 0 (w - 1)).
  - rewrite emit_ok by done. cbn [mbind option_bind].
    rewrite IH by (by apply room_out) || lia. rewrite out_snoc_rep by lia. do 2 f_equal. lia.
  - unfold reps. replace (Z.to_nat w) with 0%nat by lia. simpl. rewrite out_nil. do 2 f_equal. lia.
Qed.

Lemma zero_ok end_ i : ∀ fuel p o, room end_ o → 0 ≤ i → - 2 ^ 15 < p < 2 ^ 15 →
  (Z.to_nat (p - i) < fuel)%nat →
  zero_loop fuel end_ i p o = Some (out end_ (reps (p - i) 48) o).
Proof.
  induction fuel as [|fuel IH]; intros p o Hr Hi Hp Hf; [lia|]. cbn [zero_loop].
  rewrite s16_small by lia. destruct (Z.leb_spec i (p - 1)).
  - rewrite emit_ok by done. cbn [mbind option_bind].
    rewrite IH by (by apply room_out) || lia.
    replace (p - 1 - i) with (p - i - 1) by lia. by rewrite out_snoc_rep by lia.
  - unfold reps. replace (Z.to_nat (p - i)) with 0%nat by lia. simpl. by rewrite out_nil.
Qed.

(** ** The text of number *)

(** The sign and the magnitude under the flags. *)
Definition sign_text (num : Z) (spec : printf_spec) : list Z :=
  if flag spec SIGN then
    if s64 num <? 0 then [45]
    else if flag spec PLUS then [43]
    else if flag spec SPACE then [32] else []
  else [].
Definition magnitude (num : Z) (spec : printf_spec) : Z :=
  if flag spec SIGN && (s64 num <? 0) then u64 (- num) else num.
Definition prefix_text (num : Z) (spec : printf_spec) : list Z :=
  if flag spec SPECIAL && negb (base spec =? 10) then
    (if (base spec =? 16) || negb (num =? 0) then [48] else []) ++
    (if base spec =? 16 then [88 .| (flags spec .& SMALL)] else [])
  else [].

(** The printed text around the digits [D], most significant first. *)
Definition layout (num : Z) (spec : printf_spec) (D : list Z) : list Z :=
  let S := sign_text num spec in
  let P := prefix_text num spec in
  let zeros := reps (precision spec - zlen D) 48 in
  let w := field_width spec - zlen S - zlen P - Z.max (precision spec) (zlen D) in
  if flag spec LEFT then S ++ P ++ zeros ++ D ++ reps w 32
  else if flag spec ZEROPAD then S ++ P ++ reps w 48 ++ zeros ++ D
  else reps w 32 ++ S ++ P ++ zeros ++ D.

Definition spec_ok (spec : printf_spec) : Prop :=
  0 ≤ flags spec < 2 ^ 8 ∧ (base spec = 8 ∨ base spec = 10 ∨ base spec = 16) ∧
  -1 ≤ field_width spec < 2 ^ 15 ∧ -1 ≤ precision spec ≤ 32000.

#[export] Instance spec_ok_dec spec : Decision (spec_ok spec).
Proof. unfold spec_ok. apply _. Defined.

Lemma locase_cases spec : spec_ok spec → flags spec .& SMALL = 0 ∨ flags spec .& SMALL = 32.
Proof.
  intros ((H & H2) & _). change SMALL with (Z.shiftl 1 5).
  assert (E : flags spec .& Z.shiftl 1 5 = if Z.testbit (flags spec) 5 then 32 else 0).
  { apply Z.bits_inj'. intros i Hi. autorewrite with bits. destruct (Z.eqb_spec (i - 5) 0).
    - replace i with 5 by lia. destruct (Z.testbit (flags spec) 5); done.
    - rewrite !andb_false_r. destruct (Z.testbit (flags spec) 5); [|by rewrite Z.bits_0].
      change 32 with (2 ^ 5). symmetry. apply Z.pow2_bits_false. lia. }
  rewrite E. destruct (Z.testbit _ _); auto.
Qed.

Lemma magnitude_u64 num spec : is_u64 num → is_u64 (magnitude num spec).
Proof. intros. unfold magnitude. destruct (_ && _); [apply u64_range|done]. Qed.

Lemma number_sign_ok num spec w : -1 ≤ w < 2 ^ 15 →
  ∃ sign, number_sign num spec w = (sign, magnitude num spec, w - zlen (sign_text num spec)) ∧
    sign_text num spec = if sign =? 0 then [] else [sign].
Proof.
  intros Hw. unfold number_sign, magnitude, sign_text.
  destruct (flag spec SIGN); [|exists 0; simpl; split; [do 2 f_equal; lia|done]].
  destruct (s64 num <? 0); [exists 45; simpl; rewrite s16_small by lia; done|].
  destruct (flag spec PLUS); [exists 43; simpl; rewrite s16_small by lia; done|].
  destruct (flag spec SPACE); [exists 32; simpl; rewrite s16_small by lia; done|].
  exists 0. simpl. split; [do 2 f_equal; lia|done].
Qed.

Lemma sign_text_len num spec : zlen (sign_text num spec) ≤ 1.
Proof. unfold sign_text. repeat (destruct (_ : bool); simpl; try lia). Qed.

(** A canonical representation in radix 8 or more of a 64-bit number is short. *)
Lemma canon_length b n l : 8 ≤ b → canon b n l → n < 2 ^ 64 → zlen l ≤ 22.
Proof.
  intros Hb (Hl & Hf & Hv & Hz) Hn.
  assert (H : ∀ l, Forall (λ d, 0 ≤ d < b) l → 0 ≤ lsd_val b l ∧
    ∀ x, last l = Some x → 0 < x → 8 ^ (zlen l - 1) ≤ lsd_val b l).
  { clear -Hb. induction l as [|d l IH]; intros Hf; simpl; [done|].
    apply Forall_cons in Hf as [Hd Hf]. destruct (IH Hf) as [I1 I2]. split; [nia|].
    intros x. rewrite last_cons. destruct l as [|d' l'].
    - simpl. intros [= ->] Hx. lia.
    - destruct (last (d' :: l')) as [y|] eqn:E; [|by apply last_None in E].
      intros [= ->] Hx. specialize (I2 x eq_refl Hx).
      replace (Z.of_nat (S (length (d' :: l'))) - 1) with (Z.succ (zlen (d' :: l') - 1)) by lia.
      rewrite Z.pow_succ_r by (simpl; lia). nia. }
  destruct (H l Hf) as [_ H2]. destruct (last l) as [x|] eqn:E.
  2:{ by apply last_None in E. }
  destruct (decide (x = 0)) as [->|]; [rewrite (Hz eq_refl); simpl; lia|].
  assert (0 ≤ x < b) by (rewrite Forall_forall in Hf; by apply Hf, last_Some_elem_of).
  specialize (H2 x eq_refl ltac:(lia)).
  destruct (decide (zlen l ≤ 22)); [done|].
  assert (8 ^ 22 ≤ 8 ^ (zlen l - 1)) by (apply Z.pow_le_mono_r; lia). lia.
Qed.

Lemma reps_nil x c : x ≤ 0 → reps x c = [].
Proof. intros. unfold reps. by replace (Z.to_nat x) with 0%nat by lia. Qed.

Lemma prefix_text_len num spec : zlen (prefix_text num spec) ≤ 2.
Proof. unfold prefix_text. repeat (destruct (_ : bool); simpl; try lia). Qed.

(** The width left after the prefix. *)
Lemma prefix_width num spec w : -2 ≤ w < 2 ^ 15 →
  (if flag spec SPECIAL && negb (base spec =? 10) then
     if base spec =? 16 then s16 (w - 2) else if negb (num =? 0) then s16 (w - 1) else w
   else w) = w - zlen (prefix_text num spec).
Proof.
  intros Hw. unfold prefix_text. destruct (_ && _); [|simpl; lia].
  destruct (base spec =? 16); simpl; [rewrite s16_small by lia; lia|].
  destruct (num =? 0); simpl; [lia|rewrite s16_small by lia; lia].
Qed.

Lemma prefix_ok end_ num spec o : room end_ o →
  (if flag spec SPECIAL && negb (base spec =? 10) then
     o ← (if (base spec =? 16) || negb (num =? 0) then emit end_ 48 o else Some o);
     if base spec =? 16 then emit end_ (88 .| (flags spec .& SMALL)) o else Some o
   else Some o) = Some (out end_ (prefix_text num spec) o).
Proof.
  intros Hr. unfold prefix_text. destruct (_ && _); [|by rewrite out_nil].
  destruct (base spec =? 16); simpl.
  - rewrite emit_ok by done. cbn [mbind option_bind]. rewrite emit_ok by by apply room_out.
    by rewrite out_app.
  - destruct (num =? 0); simpl; [by rewrite out_nil|]. by rewrite emit_ok.
Qed.

Lemma sign_ok end_ sign o : room end_ o →
  (if negb (sign =? 0) then emit end_ sign o else Some o)
  = Some (out end_ (if sign =? 0 then [] else [sign]) o).
Proof. intros Hr. destruct (sign =? 0); simpl; [by rewrite out_nil|]. by rewrite emit_ok. Qed.

(** Run the emitting steps of number in their order. *)
Ltac run_emit Hfuel :=
  repeat (cbn [mbind option_bind];
    first [ rewrite sign_ok by (repeat apply room_out; done)
          | rewrite prefix_ok by (repeat apply room_out; done)
          | rewrite pad_ok; [|repeat apply room_out; done|lia|apply Hfuel; lia]
          | rewrite zero_ok; [|repeat apply room_out; done|lia|lia|apply Hfuel; lia]
          | rewrite emit_all_ok by (repeat apply room_out; done) ]).

Lemma number_ok end_ num spec o : spec_ok spec → is_u64 num → room end_ o →
  ∃ ds, canon (base spec) (magnitude num spec) ds ∧
    number end_ num spec o =
    Some (out end_ (layout num spec (map (dchar (flags spec .& SMALL)) (reverse ds))) o).
Proof.
  intros Hs Hn Hr. pose proof (locase_cases spec Hs) as Hloc.
  pose proof Hs as (Hfl & Hb & Hw & Hp). pose proof (magnitude_u64 num spec Hn) as Hm.
  destruct (number_digits_ok _ (base spec) _ Hm Hb Hloc) as (ds & Hds & Hc).
  exists ds. split; [done|].
  assert (Hlen : zlen ds ≤ 22) by (eapply canon_length; [|exact Hc|]; lia).
  unfold number. destruct (number_sign_ok num spec (field_width spec) Hw) as (sign & -> & Hsign).
  rewrite Hds. cbn [mbind option_bind].
  pose proof (sign_text_len num spec) as HS. pose proof (prefix_text_len num spec) as HP.
  rewrite prefix_width by lia. rewrite length_map. unfold layout.
  rewrite length_map, length_reverse.
  set (D := map (dchar (flags spec .& SMALL)) (reverse ds)).
  replace (reverse (map (dchar (flags spec .& SMALL)) ds)) with D
    by (unfold D, reverse; by rewrite !rev_append_rev, !app_nil_r, map_rev).
  set (i := zlen ds) in *. assert (Hi : 0 ≤ i) by (unfold i; lia).
  set (S := sign_text num spec) in *. set (P := prefix_text num spec) in *.
  replace (if precision spec <? i then i else precision spec) with (Z.max (precision spec) i)
    by (destruct (Z.ltb_spec (precision spec) i); lia).
  set (prec := Z.max (precision spec) i). assert (Hpr : 0 ≤ prec ≤ 32000) by (unfold prec; lia).
  rewrite (s16_small (field_width spec - zlen S - zlen P - prec)) by lia.
  set (w := field_width spec - zlen S - zlen P - prec) in *.
  assert (Hw' : -32100 < w < 2 ^ 15) by (unfold w; lia).
  assert (Hfuel : ∀ x, x < 2 ^ 15 → (Z.to_nat x < pad_fuel)%nat) by (intros; unfold pad_fuel; lia).
  replace (reps (precision spec - i) 48) with (reps (prec - i) 48)
    by (unfold reps, prec; f_equal; lia).
  destruct (flag spec LEFT); [|destruct (flag spec ZEROPAD)];
    cbn [negb]; rewrite ?andb_false_r, ?andb_true_r; cbn [negb orb]; run_emit Hfuel;
    cbn [mbind option_bind]; rewrite <- Hsign; fold P; rewrite !out_app, <- ?app_assoc; do 2 f_equal;
    rewrite ?(reps_nil (Z.min _ _ - 1)) by lia; by rewrite ?app_nil_r.
Qed.

(** ** Printing and parsing *)

Lemma value_snoc b l d : value b (l ++ [d]) = value b l * b + d.
Proof. unfold value. by rewrite fold_left_app. Qed.

Lemma value_reverse b ds : value b (reverse ds) = lsd_val b ds.
Proof.
  induction ds as [|d ds IH]; [done|]. rewrite reverse_cons, value_snoc, IH. simpl. lia.
Qed.

Lemma value_zeros b n l : value b (reps n 0 ++ l) = value b l.
Proof. unfold reps. induction (Z.to_nat n) as [|k IH]; [done|]. exact IH. Qed.

Definition loc_ok (locase : Z) : Prop := locase = 0 ∨ locase = 32.

Lemma span_dchar b locase l : b ≤ 16 → loc_ok locase → Forall (λ d, 0 ≤ d < b) l →
  span_digits b (map (dchar locase) l) = (l, []).
Proof.
  intros Hb Hloc. induction 1 as [|d l Hd Hl IH]; [done|]. cbn [map span_digits].
  destruct (dchar_digit locase d Hloc ltac:(lia)) as (-> & _). rewrite IH.
  by rewrite (proj2 (Z.ltb_lt d b)) by lia.
Qed.

Lemma reps_dchar locase n : loc_ok locase → reps n 48 = map (dchar locase) (reps n 0).
Proof.
  intros H. unfold reps. induction (Z.to_nat n) as [|k IH]; [done|]. simpl. rewrite <- IH.
  by rewrite dchar_dec by (done || lia).
Qed.

Lemma digit_not_x locase d : loc_ok locase → 0 ≤ d < 16 →
  (_tolower (dchar locase d) =? 120) = false ∧ isxdigit (dchar locase d) = true ∧
  dchar locase d ≠ 43 ∧ dchar locase d ≠ 45.
Proof. intros [->| ->]; revert d; apply (small_cases _ 16); repeat constructor; done. Qed.

Lemma dchar_no_prefix locase l : loc_ok locase → Forall (λ d, 0 ≤ d < 16) l →
  hex_prefix (map (dchar locase) l) = false.
Proof.
  intros Hl Hf. destruct l as [|d0 [|d1 l]]; try done. simpl.
  apply Forall_cons in Hf as [_ [Hd _]%Forall_cons].
  destruct (digit_not_x locase d1 Hl Hd) as (-> & _). by rewrite andb_false_r.
Qed.

Lemma map_dchar_text locase l : loc_ok locase → Forall (λ d, 0 ≤ d < 16) l →
  text (map (dchar locase) l).
Proof.
  intros Hl Hf. apply Forall_map. eapply Forall_impl; [exact Hf|]. intros d Hd. simpl.
  by destruct (dchar_digit locase d Hl Hd) as (_ & ? & ?).
Qed.

(** Digits, after an optional "0x", parse to their value. *)
Lemma parse_digits b locase l : 2 ≤ b ≤ 16 → loc_ok locase → Forall (λ d, 0 ≤ d < b) l →
  l ≠ [] → value b l ≤ ULONG_MAX → parse_spec (map (dchar locase) l) b = (0, Some (value b l)).
Proof.
  intros Hb Hloc Hf Hne Hv. unfold parse_spec, after_prefix, radix.
  rewrite (proj2 (Z.eqb_neq b 0)) by lia. rewrite dchar_no_prefix; [|done|].
  2:{ eapply Forall_impl; [exact Hf|]. simpl. lia. }
  rewrite andb_false_r, span_dchar by (done || lia).
  rewrite (proj2 (Z.ltb_ge _ _)) by lia. by rewrite bool_decide_false, bool_decide_true by auto.
Qed.

Lemma parse_octal0 locase l : loc_ok locase → Forall (λ d, 0 ≤ d < 8) l →
  value 8 l ≤ ULONG_MAX → parse_spec (map (dchar locase) (0 :: l)) 0 = (0, Some (value 8 l)).
Proof.
  intros Hloc Hf Hv. assert (Hf16 : Forall (λ d, 0 ≤ d < 16) (0 :: l)).
  { constructor; [lia|]. eapply Forall_impl; [exact Hf|]. simpl. lia. }
  assert (E : radix (map (dchar locase) (0 :: l)) 0 = 8).
  { unfold radix. rewrite dchar_no_prefix by done. cbn [Z.eqb andb map].
    by rewrite dchar_dec by (done || lia). }
  change (value 8 l) with (value 8 (0 :: l)).
  rewrite <- (parse_digits 8 locase (0 :: l)); [|lia|done|by constructor|done|done].
  unfold parse_spec, after_prefix. by rewrite E.
Qed.

Lemma parse_hex base locase l : base = 0 ∨ base = 16 → loc_ok locase →
  Forall (λ d, 0 ≤ d < 16) l → l ≠ [] → value 16 l ≤ ULONG_MAX →
  parse_spec ([48; 88 .| locase] ++ map (dchar locase) l) base = (0, Some (value 16 l)).
Proof.
  intros Hbase Hloc Hf Hne Hv. destruct l as [|d l]; [done|].
  apply Forall_cons_1 in Hf as Hf'. destruct Hf' as [Hd _].
  assert (Hp : hex_prefix ([48; 88 .| locase] ++ map (dchar locase) (d :: l)) = true)
    by (by destruct Hloc as [-> | ->]).
  assert (E : radix ([48; 88 .| locase] ++ map (dchar locase) (d :: l)) base = 16).
  { unfold radix. rewrite Hp. destruct Hbase as [-> | ->]; [|done]. simpl.
    destruct (digit_not_x locase d Hloc Hd) as (_ & -> & _). done. }
  unfold parse_spec, after_prefix. rewrite E, Hp. cbn [Z.eqb Pos.eqb andb].
  change (drop 2 ([48; 88 .| locase] ++ map (dchar locase) (d :: l)))
    with (map (dchar locase) (d :: l)).
  rewrite span_dchar by (done || lia).
  rewrite (proj2 (Z.ltb_ge _ _)) by lia. by rewrite bool_decide_false, bool_decide_true by auto.
Qed.

Lemma canon_zero b ds : 0 < b → canon b 0 ds → ds = [0].
Proof.
  intros Hb (Hne & Hf & Hv & Hz). apply Hz.
  assert (H : ∀ ds, Forall (λ d, 0 ≤ d < b) ds → 0 ≤ lsd_val b ds ∧
            (lsd_val b ds = 0 → Forall (λ d, d = 0) ds)).
  { clear -Hb. induction 1 as [|d ds Hd Hf IH]; simpl; [auto with lia|].
    destruct IH as [I1 I2]. split; [nia|]. intros E. constructor; [nia|]. apply I2. nia. }
  destruct (last ds) as [x|] eqn:E; [|by apply last_None in E].
  destruct (H ds Hf) as [_ Hall]. specialize (Hall Hv). rewrite Forall_forall in Hall.
  by rewrite (Hall x) by by apply last_Some_elem_of.
Qed.

Lemma reps_cons n c l : reps n c ++ c :: l = c :: reps n c ++ l.
Proof. unfold reps. induction (Z.to_nat n) as [|k IH]; [done|]. simpl. by rewrite IH. Qed.

(** The radixes number's text can be read in: the printed one, and the automatic
    detection when the text carries its prefix. *)
Definition reads_back (spec : printf_spec) (b : Z) : Prop :=
  b = base spec ∨ (b = 0 ∧ flag spec SPECIAL = true ∧ base spec ≠ 10).

Definition body (num : Z) (spec : printf_spec) (n : Z) (ds : list Z) : list Z :=
  prefix_text num spec ++ map (dchar (flags spec .& SMALL)) (reps n 0 ++ reverse ds).

Lemma body_digits num spec n ds : canon (base spec) (magnitude num spec) ds → spec_ok spec →
  Forall (λ d, 0 ≤ d < base spec) (reps n 0 ++ reverse ds) ∧ reps n 0 ++ reverse ds ≠ [] ∧
  value (base spec) (reps n 0 ++ reverse ds) = magnitude num spec.
Proof.
  intros (Hne & Hf & Hv & _) (_ & Hb & _). split; [|split].
  - apply Forall_app. split; [apply Forall_replicate; lia|by apply Forall_reverse].
  - intros [_ H]%app_nil. apply Hne. by rewrite <- (reverse_involutive ds), H.
  - by rewrite value_zeros, value_reverse.
Qed.

Lemma body_parses num spec b n ds : spec_ok spec → is_u64 num → reads_back spec b →
  canon (base spec) (magnitude num spec) ds →
  parse_spec (body num spec n ds) b = (0, Some (magnitude num spec)).
Proof.
  intros Hs Hn Hb Hc. pose proof (locase_cases spec Hs : loc_ok _) as Hloc.
  pose proof (magnitude_u64 num spec Hn) as Hm.
  destruct (body_digits num spec n ds Hc Hs) as (Hf & Hne & Hv).
  assert (HU : value (base spec) (reps n 0 ++ reverse ds) ≤ ULONG_MAX)
    by (rewrite Hv; unfold ULONG_MAX; lia).
  unfold body, prefix_text. destruct Hs as (_ & Hbase & _).
  destruct (flag spec SPECIAL) eqn:ES; cbn [andb app].
  2:{ destruct Hb as [-> |(_ & H & _)]; [|congruence]. rewrite <- Hv. apply parse_digits; auto with lia. }
  destruct Hbase as [E|[E|E]]; rewrite E in *; cbn [Z.eqb Pos.eqb negb orb app].
  - rewrite app_nil_r. destruct (Z.eqb_spec num 0) as [-> |Hz]; cbn [negb app].
    + assert (magnitude 0 spec = 0) as E0 by (unfold magnitude; by destruct (_ && _)).
      rewrite E0 in *. rewrite (canon_zero 8 ds) in * by (done || lia).
      change (reverse [0]) with [0] in *. rewrite reps_cons, app_nil_r in *.
      assert (Hf' : Forall (λ d, 0 ≤ d < 8) (reps n 0)) by by apply Forall_cons_1 in Hf as [_ ?].
      destruct Hb as [-> |(-> & _)]; [rewrite E, parse_digits, Hv by (done || lia); done|].
      rewrite parse_octal0 by done. change (value 8 (reps n 0)) with (value 8 (0 :: reps n 0)).
      by rewrite Hv.
    + assert (E48 : dchar (flags spec .& SMALL) 0 = 48) by by apply (dchar_dec _ 0).
      change ([48] ++ ?l) with (48 :: l). rewrite <- E48.
      change (dchar ?a 0 :: map (dchar ?a) ?l) with (map (dchar a) (0 :: l)).
      destruct Hb as [-> |(-> & _)]; [|by rewrite parse_octal0, Hv].
      rewrite E, parse_digits; [|lia|done|constructor; [lia|done]|done|exact HU].
      change (value 8 (0 :: ?l)) with (value 8 l). by rewrite Hv.
  - destruct Hb as [-> |(_ & _ & H)]; [|done]. rewrite E, parse_digits by (done || lia). by rewrite Hv.
  - rewrite <- Hv. apply parse_hex; try done. destruct Hb as [-> |(-> & _)]; auto.
Qed.

Lemma body_head num spec n ds : spec_ok spec → canon (base spec) (magnitude num spec) ds →
  ∃ c t, body num spec n ds = c :: t ∧ c ≠ 43 ∧ c ≠ 45.
Proof.
  intros Hs Hc. pose proof (locase_cases spec Hs : loc_ok _) as Hloc.
  destruct (body_digits num spec n ds Hc Hs) as (Hf & Hne & _).
  unfold body. destruct (prefix_text num spec) as [|c t] eqn:E.
  - destruct (reps n 0 ++ reverse ds) as [|d l]; [done|]. eexists _, _. split; [done|].
    apply Forall_cons_1 in Hf as [Hd _].
    destruct (digit_not_x (flags spec .& SMALL) d Hloc) as (_ & _ & ? & ?); [|done].
    destruct Hs as (_ & ? & _). lia.
  - exists c. eexists. split; [done|]. revert E. unfold prefix_text.
    destruct (flag _ _ && _); [|done]. destruct (base spec =? 16); [|destruct (num =? 0)];
      cbn [orb negb app]; intros [= <-]; done.
Qed.

Lemma body_text num spec n ds : spec_ok spec → canon (base spec) (magnitude num spec) ds →
  text (body num spec n ds).
Proof.
  intros Hs Hc. pose proof (locase_cases spec Hs : loc_ok _) as Hloc.
  destruct (body_digits num spec n ds Hc Hs) as (Hf & _). destruct Hs as (_ & Hb & _).
  apply Forall_app. split.
  - unfold prefix_text. destruct (flag _ _ && _); [|constructor].
    apply Forall_app. split; [destruct (_ || _); repeat constructor; lia|].
    destruct (base spec =? 16); [|constructor].
    apply Forall_singleton. by destruct Hloc as [-> | ->].
  - apply map_dchar_text; [done|]. eapply Forall_impl; [exact Hf|]. simpl. lia.
Qed.

(** No spaces are printed: zero padding, or no field wider than the text. *)
Definition no_spaces (spec : printf_spec) : Prop :=
  (flag spec ZEROPAD = true ∧ flag spec LEFT = false) ∨ field_width spec ≤ 1.

Lemma layout_body num spec ds : spec_ok spec → no_spaces spec → ds ≠ [] →
  ∃ n, n < 2 ^ 17 ∧
    layout num spec (map (dchar (flags spec .& SMALL)) (reverse ds)) =
    sign_text num spec ++ body num spec n ds.
Proof.
  intros Hs Hns Hne. pose proof (locase_cases spec Hs : loc_ok _) as Hloc.
  unfold layout, body. rewrite length_map, length_reverse.
  assert (Hl : 0 < zlen ds) by (destruct ds; [done|simpl; lia]).
  set (z := precision spec - zlen ds). set (w := field_width spec - _ - _ - _).
  assert (Hz : z < 2 ^ 16) by (unfold z; destruct Hs as (_ & _ & _ & ?); lia).
  assert (Hw : w < 2 ^ 16) by (unfold w; destruct Hs as (_ & _ & ? & _); lia).
  rewrite !(reps_dchar (flags spec .& SMALL)) by done.
  destruct Hns as [[-> ->]|Hfw].
  - exists (Z.max w 0 + Z.max z 0). split; [lia|]. do 2 f_equal.
    rewrite map_app, (app_assoc (map _ _)). f_equal. rewrite <- map_app. f_equal.
    unfold reps. rewrite <- replicate_add. f_equal. lia.
  - exists z. split; [lia|]. rewrite map_app, !(reps_nil w) by lia. rewrite !app_nil_r. simpl.
    by destruct (flag spec LEFT), (flag spec ZEROPAD).
Qed.

Lemma number_parses num spec b ds : spec_ok spec → is_u64 num → no_spaces spec →
  reads_back spec b → canon (base spec) (magnitude num spec) ds →
  let L := layout num spec (map (dchar (flags spec .& SMALL)) (reverse ds)) in
  if flag spec SIGN
  then flag spec SPACE = false → kstrtoll (L ++ [0]) b = Some (0, Some (s64 num))
  else kstrtoull (L ++ [0]) b = Some (0, Some num).
Proof.
  intros Hs Hn Hns Hb Hc L. pose proof (body_parses num spec b) as Hp.
  destruct (layout_body num spec ds Hs Hns) as (n & Hnn & EL); [by destruct Hc|].
  specialize (Hp n ds Hs Hn Hb Hc).
  destruct (body_head num spec n ds Hs Hc) as (c & t & Ec & Hc1 & Hc2).
  pose proof (body_text num spec n ds Hs Hc) as Ht.
  assert (Hb' : b = 0 ∨ 2 ≤ b ≤ 16).
  { destruct Hb as [-> |(-> & _)]; [|auto]. destruct Hs as (_ & ? & _). right. lia. }
  assert (HL : text L ∧ zlen L < 2 ^ 31).
  { unfold L. rewrite EL. split.
    - apply Forall_app. split; [|done]. unfold sign_text.
      repeat (destruct (_ : bool); try (repeat constructor; lia)).
    - rewrite length_app. pose proof (sign_text_len num spec).
      unfold body. rewrite !length_app, length_map, length_app. pose proof (prefix_text_len num spec).
      unfold reps. rewrite length_replicate, length_reverse.
      assert (zlen ds ≤ 22); [|lia]. eapply canon_length; [|exact Hc|].
      + destruct Hs as (_ & ? & _). lia.
      + pose proof (magnitude_u64 num spec Hn). lia. }
  destruct HL as [HLt HLl].
  pose proof (kstrtoull_ok L b Hb' HLt HLl) as Hu. pose proof (kstrtoll_ok L b Hb' HLt HLl) as Hll.
  fold L in EL. rewrite Hu, Hll, EL. clear Hu Hll EL HLt HLl.
  unfold ll_code, ull_spec, magnitude, sign_text, fit in *. unfold s64, wrap in *.
  apply Z.eqb_neq in Hc1, Hc2. rewrite Ec in *.
  destruct (flag spec SIGN); cbn [andb app] in *; [|by rewrite Hc1, Hp].
  intros ->. destruct (Z.ltb_spec ((num + 2 ^ 63) mod 2 ^ 64 - 2 ^ 63) 0).
  - cbn [app Z.eqb Pos.eqb]. rewrite Hp. unfold u64, wrap.
    assert (E : (- num) mod 2 ^ 64 = 2 ^ 64 - num) by dlia. rewrite E.
    replace (0 <? 2 ^ 64 - num) with true by (symmetry; apply Z.ltb_lt; lia).
    replace (2 ^ 64 - num <=? 2 ^ 63) with true by (symmetry; apply Z.leb_le; dlia).
    simpl. do 3 f_equal. dlia.
  - assert (num < 2 ^ 63) by dlia.
    assert (E : (0 <=? num) && (num <=? 2 ^ 63 - 1) = true).
    { apply andb_true_iff. split; apply Z.leb_le; lia. }
    replace ((num + 2 ^ 63) mod 2 ^ 64 - 2 ^ 63) with num by dlia.
    destruct (flag spec PLUS); cbn [app]; [cbn [Z.eqb Pos.eqb]; by rewrite Hp, E|].
    by rewrite Hc1, Hc2, Hp, E.
Qed.

(** ** num_to_str *)

Lemma store_chars_ok l : ∀ M p, mapped M p (zlen l) → store_chars M p l = Some (put M p l).
Proof.
  induction l as [|c l IH]; intros M p Hm; [done|]. cbn [store_chars].
  rewrite poke_mapped by (apply Hm; simpl; lia). cbn [mbind option_bind]. rewrite IH; [done|].
  intros a Ha. rewrite put_lookup. destruct (_ && _) eqn:E.
  - apply andb_true_iff in E as [E1%Z.leb_le E2%Z.ltb_lt]. apply lookup_lt_is_Some. simpl in *. lia.
  - apply Hm. simpl. lia.
Qed.

Lemma num_to_str_ok M buf size num : is_u64 num → mapped M buf size →
  ∃ ds, canon 10 num ds ∧ num_to_str M buf size num =
    Some (if size <? zlen ds then (0, M) else (zlen ds, put M buf (map (dchar 0) (reverse ds)))).
Proof.
  intros Hn Hm.
  assert (H : ∃ ds, (if num <=? 9 then Some [48 + num] else put_dec [] num) = Some (dec ds) ∧
              canon 10 num ds).
  { destruct (Z.leb_spec num 9); [|by apply put_dec_ok]. exists [num].
    split; [simpl; do 2 f_equal; lia|]. apply canon_one. lia. }
  destruct H as (ds & E & Hc). exists ds. split; [done|]. unfold num_to_str. rewrite E.
  cbn [mbind option_bind]. rewrite length_map. destruct (Z.ltb_spec size (zlen ds)); [done|].
  rewrite store_chars_ok.
  - cbn [mbind option_bind]. do 3 f_equal. unfold reverse.
    rewrite !rev_append_rev, !app_nil_r, map_rev. f_equal. apply map_ext_Forall.
    destruct Hc as (_ & Hf & _). eapply Forall_impl; [exact Hf|]. intros d Hd. simpl.
    by rewrite dchar_dec by auto.
  - rewrite length_reverse, length_map. intros a Ha. apply Hm. lia.
Qed.

(** ** string *)

Lemma spad_ok end_ len : ∀ fuel w o, room end_ o → 0 ≤ len → - 2 ^ 15 < w < 2 ^ 15 →
  (Z.to_nat (w - len) < fuel)%nat →
  spad_loop fuel end_ len w o = Some (Z.min w len - 1, out end_ (reps (w - len) 32) o).
Proof.
  induction fuel as [|fuel IH]; intros w o Hr Hl Hw Hf; [lia|]. cbn [spad_loop].
  rewrite s16_small by lia. destruct (Z.ltb_spec len w).
  - rewrite emit_ok by done. cbn [mbind option_bind].
    rewrite IH by (by apply room_out) || lia.
    replace (w - 1 - len) with (w - len - 1) by lia. rewrite out_snoc_rep by lia. do 2 f_equal. lia.
  - rewrite reps_nil, out_nil by lia. do 2 f_equal. lia.
Qed.

(** The source lies outside of the buffer. *)
Lemma copy_chars_ok end_ l : ∀ s o, room end_ o → bytes_at (snd o) s l →
  s + zlen l ≤ fst o ∨ end_ ≤ s →
  copy_chars (length l) end_ s o = Some (out end_ l o).
Proof.
  induction l as [|c l IH]; intros s [buf M] Hr Hb Hd; [by rewrite out_nil|].
  cbn [length copy_chars]. rewrite bytes_at_lookup in Hb. simpl in *.
  assert (Hc : M !! s = Some c) by (rewrite <- (Hb 0%nat c eq_refl); f_equal; lia).
  pose proof (emit_ok end_ c (buf, M) Hr) as He. unfold emit in He.
  assert (Hgo : copy_chars (length l) end_ (s + 1) (out end_ [c] (buf, M))
                = Some (out end_ (c :: l) (buf, M))).
  { rewrite IH; [by rewrite out_app|by apply room_out| |unfold out; simpl; lia].
    apply bytes_at_lookup. intros i x Hx. unfold out. cbn [snd fst].
    rewrite put_lookup, (proj2 (andb_false_iff _ _)).
    - rewrite <- (Hb (S i) x Hx). f_equal. lia.
    - apply lookup_lt_Some in Hx. pose proof (length_take [c] (Z.to_nat (end_ - buf))) as Hlt.
      simpl in Hlt. rewrite Z.leb_gt, Z.ltb_ge. lia. }
  rewrite <- Hgo. destruct (buf <? end_).
  - rewrite Hc. cbn [mbind option_bind]. destruct (poke M buf c); cbn [mbind option_bind] in *; [|done].
    injection He as He. f_equal. unfold out. by rewrite He.
  - cbn [mbind option_bind]. injection He as He. f_equal. unfold out. simpl. by rewrite <- He.
Qed.

(** The text of string: at most [precision] characters, padded with spaces. *)
Definition string_text (spec : printf_spec) (t : list Z) : list Z :=
  let t := take (Z.to_nat (u64 (precision spec))) t in
  let pad := reps (field_width spec - zlen t) 32 in
  if flag spec LEFT then t ++ pad else pad ++ t.

Lemma string_ok end_ s null_str spec o t : spec_ok spec → room end_ o →
  let s' := if s <? 4096 then null_str else s in
  cstr (snd o) s' t → s' + zlen t < fst o ∨ end_ ≤ s' → zlen t < 2 ^ 31 →
  string end_ s null_str spec o = Some (out end_ (string_text spec t) o).
Proof.
  intros Hs Hr s' Ht Hd Hl. unfold string. fold s'. pose proof Hs as (_ & _ & Hw & Hp).
  pose proof (u64_range (precision spec)) as Hu. rewrite (strnlen_ok _ _ t) by (done || lia).
  cbn [mbind option_bind]. unfold string_text.
  set (t' := take (Z.to_nat (u64 (precision spec))) t).
  assert (Hlen : Z.min (u64 (precision spec)) (zlen t) = zlen t').
  { unfold t'. rewrite length_take. lia. }
  assert (Hlt : (length t' ≤ length t)%nat) by (unfold t'; rewrite length_take; lia).
  rewrite Hlen. rewrite s32_small by lia. rewrite Nat2Z.id.
  assert (Hby : ∀ o' : outst, (∀ a, s' ≤ a < s' + zlen t → snd o' !! a = snd o !! a) → bytes_at (snd o') s' t').
  { intros o' Ho. destruct Ht as [_ Ht]. rewrite bytes_at_lookup in Ht. apply bytes_at_lookup.
    intros i x Hx. unfold t' in Hx. apply lookup_take_Some in Hx as [Hx ?].
    pose proof (lookup_lt_Some _ _ _ Hx). rewrite Ho by lia.
    apply Ht. by rewrite lookup_app_l. }
  assert (Hfuel : ∀ x, x < 2 ^ 15 → (Z.to_nat x < pad_fuel)%nat) by (intros; unfold pad_fuel; lia).
  destruct (flag spec LEFT); cbn [negb].
  - cbn [mbind option_bind]. rewrite copy_chars_ok; [|done|by apply Hby|lia].
    cbn [mbind option_bind]. rewrite spad_ok; [|by apply room_out|lia|lia|apply Hfuel; lia].
    cbn [mbind option_bind]. by rewrite out_app.
  - rewrite spad_ok; [|done|lia|lia|apply Hfuel; lia]. cbn [mbind option_bind].
    rewrite copy_chars_ok; [|by apply room_out| |unfold out; simpl; lia].
    + cbn [mbind option_bind]. rewrite spad_ok; [|by do 2 apply room_out|lia|lia|apply Hfuel; lia].
      cbn [mbind option_bind]. rewrite (reps_nil (Z.min _ _ - 1 - _)) by lia. by rewrite out_nil, out_app.
    + apply Hby. intros a Ha. unfold out. cbn [snd fst]. rewrite put_lookup.
      replace (_ && _) with false; [done|]. symmetry. apply andb_false_iff.
      rewrite Z.leb_gt, Z.ltb_ge, length_take. lia.
Qed.

(** ** Properties *)

(** Number prints exactly the specified text.  For radix 8, 10 and 16, every
    flag combination, every 16-bit field width and a precision of at most 32000,
    number returns the position after the whole text (whether it fits or not),
    writes the part of the text in front of [end] and nothing else; the text is
    the sign, the prefix, the zero padding and the canonical digits of the
    magnitude, justified in the field as the flags say. *)
Lemma number_correct end_ num spec o : spec_ok spec → is_u64 num → room end_ o →
  ∃ ds, canon (base spec) (magnitude num spec) ds ∧
    number end_ num spec o =
    Some (out end_ (layout num spec (map (dchar (flags spec .& SMALL)) (reverse ds))) o).
Proof. apply number_ok. Qed.

(** "%+6d" of -42 into a buffer of four bytes. *)
Example number_correct_witness :
  ∃ ds, canon 10 42 ds ∧
    number 104 (2 ^ 64 - 42) (PSpec (SIGN + PLUS) 10 6 (-1)) (100, put ∅ 100 [1; 2; 3; 4]) =
    Some (out 104 (layout (2 ^ 64 - 42) (PSpec (SIGN + PLUS) 10 6 (-1)) (map (dchar 0) (reverse ds)))
            (100, put ∅ 100 [1; 2; 3; 4])).
Proof.
  apply (number_correct 104 (2 ^ 64 - 42) (PSpec (SIGN + PLUS) 10 6 (-1)) (100, put ∅ 100 [1; 2; 3; 4])).
  - by apply (bool_decide_unpack _).
  - lia.
  - intros a Ha. simpl fst in Ha.
    assert (a = 100 ∨ a = 101 ∨ a = 102 ∨ a = 103) as [->|[->|[->| ->]]] by lia; by eexists.
Defined.

(** C33: what number prints without blanks reads back in its radix.  When no spaces are
    printed (zero padding, or no minimum width, and without the SPACE flag for a
    signed number), the text number prints for an unsigned number is read by
    kstrtoull as the same number, and for a signed one by kstrtoll as the same
    signed value, in the radix it was printed in and, for a text printed with the
    '#' flag in radix 8 or 16, under automatic radix detection.  With blanks the
    conversions refuse the text, and a decimal text with leading zeroes is read as
    octal under automatic detection; these cases are excluded. *)
Theorem number_kstrto_roundtrip end_ num spec o b :
  spec_ok spec → is_u64 num → room end_ o → no_spaces spec → reads_back spec b →
  ∃ L, number end_ num spec o = Some (out end_ L o) ∧
    if flag spec SIGN
    then flag spec SPACE = false → kstrtoll (L ++ [0]) b = Some (0, Some (s64 num))
    else kstrtoull (L ++ [0]) b = Some (0, Some num).
Proof.
  intros Hs Hn Hr Hns Hb. destruct (number_ok end_ num spec o Hs Hn Hr) as (ds & Hc & E).
  eexists. split; [exact E|]. by apply number_parses.
Qed.

(** "%#010x" of 48879, read with automatic radix detection. *)
Example number_kstrto_roundtrip_witness :
  ∃ L, number 0 48879 (PSpec (ZEROPAD + SPECIAL + SMALL) 16 10 (-1)) (0, ∅) = Some (out 0 L (0, ∅)) ∧
    kstrtoull (L ++ [0]) 0 = Some (0, Some 48879).
Proof.
  apply (number_kstrto_roundtrip 0 48879 (PSpec (ZEROPAD + SPECIAL + SMALL) 16 10 (-1)) (0, ∅) 0).
  - by apply (bool_decide_unpack _).
  - lia.
  - intros a Ha. simpl in Ha. lia.
  - left. done.
  - right. done.
Defined.

(** Num_to_str writes the canonical decimal digits of every 64-bit number (put_dec's
    division-free digit extraction is exact) into a buffer that holds them and nothing
    into a smaller one, and kstrtoull reads them back. *)
Lemma num_to_str_roundtrip M buf size num : is_u64 num → mapped M buf size →
  ∃ ds, canon 10 num ds ∧
    num_to_str M buf size num =
      Some (if size <? zlen ds then (0, M) else (zlen ds, put M buf (map (dchar 0) (reverse ds)))) ∧
    kstrtoull (map (dchar 0) (reverse ds) ++ [0]) 10 = Some (0, Some num).
Proof.
  intros Hn Hm. destruct (num_to_str_ok M buf size num Hn Hm) as (ds & Hc & E).
  exists ds. split; [done|]. split; [done|].
  pose proof (number_parses num (PSpec 0 10 (-1) (-1)) 10 ds) as H.
  destruct (layout_body num (PSpec 0 10 (-1) (-1)) ds) as (n & _ & EL);
    [by apply (bool_decide_unpack _)|by right|by destruct Hc|].
  unfold layout in H. simpl in H. rewrite reps_nil, reps_nil in H; [|lia..].
  apply H; [by apply (bool_decide_unpack _)|done|by right|by left|done].
Qed.

Example num_to_str_roundtrip_witness :
  ∃ ds, canon 10 (2 ^ 64 - 1) ds ∧
    num_to_str ∅ 0 0 (2 ^ 64 - 1) =
      Some (if 0 <? zlen ds then (0, ∅) else (zlen ds, put ∅ 0 (map (dchar 0) (reverse ds)))) ∧
    kstrtoull (map (dchar 0) (reverse ds) ++ [0]) 10 = Some (0, Some (2 ^ 64 - 1)).
Proof. apply (num_to_str_roundtrip ∅ 0 0 (2 ^ 64 - 1)); [lia|]. intros a Ha. lia. Defined.

(** String prints at most [precision] characters of the string (or of "(null)" for a
    pointer into the first page), padded with spaces to the field width on the side the
    flags say, without writing at or after [end]. *)
Lemma string_correct end_ s null_str spec o t : spec_ok spec → room end_ o →
  let s' := if s <? 4096 then null_str else s in
  cstr (snd o) s' t → s' + zlen t < fst o ∨ end_ ≤ s' → zlen t < 2 ^ 31 →
  string end_ s null_str spec o = Some (out end_ (string_text spec t) o).
Proof. apply string_ok. Qed.

Example string_correct_witness :
  string 8 5000 0 (PSpec LEFT 10 3 1) (8, put ∅ 5000 [97; 98; 0])
  = Some (11, put ∅ 5000 [97; 98; 0]).
Proof.
  rewrite (string_correct 8 5000 0 (PSpec LEFT 10 3 1) (8, put ∅ 5000 [97; 98; 0]) [97; 98]).
  - reflexivity.
  - by apply (bool_decide_unpack _).
  - intros a Ha. simpl in Ha. lia.
  - split; [repeat constructor; done|]. apply bytes_at_put.
  - right. simpl. lia.
  - simpl. lia.
Defined.

(** A precision near the top of its 16 bits wraps the field width: "%.32767u" of 7
    prints 32768 spaces in front of the 32767 digits. *)
Lemma number_precision_wraps :
  number 0 7 (PSpec 0 10 (-1) 32767) (0, ∅) = Some (32768 + 32767, ∅).
Proof. vm_compute. reflexivity. Qed.
