(* ===== verification/Groups.v ===== *)
(** * Groups: supplementary groups (kernel/groups.c, include/linux/cred.h)

    The group list of a process is an array split into pages; groups_sort is a
    Shell sort over it, groups_search a binary search, and in_group_p the
    permission check that relies on the list being sorted.  group_info objects
    are reference counted and live in a store; credentials hold their address. *)

From S2P Require Import Prelude.
From Stdlib Require Import Sorting.Permutation.

(** ** The program *)

Definition NGROUPS_SMALL : Z := 32.
Definition NGROUPS_PER_BLOCK : Z := 4096 / 4.
Definition NGROUPS_MAX : Z := 65536.

Record group_info := GInfo { usage : Z; ngroups : Z; nblocks : Z; blocks : list (list Z) }.

(** The parts of struct cred the modelled code reads. *)
Record cred := Cred {
  uid : Z; gid : Z; suid : Z; sgid : Z; euid : Z; egid : Z; fsuid : Z; fsgid : Z;
  cred_groups : Z
}.

(** GROUP_AT as an rvalue and as an lvalue. *)
Definition GROUP_AT (gi : group_info) (i : Z) : option Z :=
  b ← rd (blocks gi) (i / NGROUPS_PER_BLOCK); rd b (i `mod` NGROUPS_PER_BLOCK).

Definition GROUP_SET (i x : Z) : prog group_info unit := λ gi,
  b ← rd (blocks gi) (i / NGROUPS_PER_BLOCK);
  b ← wr b (i `mod` NGROUPS_PER_BLOCK) x;
  bs ← wr (blocks gi) (i / NGROUPS_PER_BLOCK) b;
  Some (tt, GInfo (usage gi) (ngroups gi) (nblocks gi) bs).

Definition GROUP_GET (i : Z) : prog group_info Z := λ gi, x ← GROUP_AT gi i; Some (x, gi).

(** groups_alloc.  [kmalloc] and [page i] are the contents the allocations return,
    [None] when they fail; the small block is used for up to NGROUPS_SMALL groups. *)
Fixpoint alloc_blocks (n : nat) (i : nat) (page : nat → option (list Z)) : option (list (list Z)) :=
  match n with
  | O => Some []
  | S n => b ← page i; bs ← alloc_blocks n (i + 1) page; Some (b :: bs)
  end.

Definition groups_alloc (gidsetsize : Z) (kmalloc : option (list Z)) (page : nat → option (list Z)) :
  option group_info :=
  let nb := (gidsetsize + NGROUPS_PER_BLOCK - 1) / NGROUPS_PER_BLOCK in
  let nb := if nb =? 0 then 1 else nb in
  small ← kmalloc;
  bs ← (if gidsetsize <=? NGROUPS_SMALL then Some [small] else alloc_blocks (Z.to_nat nb) 0 page);
  Some (GInfo 1 gidsetsize nb bs).

(** groups_from_user: [get_user i] reads the i-th user gid, [make_kgid] maps it; 0 or
    the error. *)
Definition k_EFAULT : Z := 14.
Definition k_EINVAL : Z := 22.
Definition INVALID_GID : Z := 2 ^ 32 - 1.

Fixpoint from_user_loop (n : nat) (i : Z) (get_user : Z → option Z) (make_kgid : Z → Z) :
  prog group_info Z :=
  match n with
  | O => mret 0
  | S n =>
      match get_user i with
      | None => mret (- k_EFAULT)
      | Some gid =>
          let kgid := make_kgid gid in
          if kgid =? INVALID_GID then mret (- k_EINVAL)
          else _ ← GROUP_SET i kgid; from_user_loop n (i + 1) get_user make_kgid
      end
  end.

Definition groups_from_user (get_user : Z → option Z) (make_kgid : Z → Z) : prog group_info Z :=
  count ← gets ngroups;
  from_user_loop (Z.to_nat count) 0 get_user make_kgid.

(** groups_sort: [for (stride = 1; stride < gidsetsize; stride = 3 * stride + 1)]. *)
Fixpoint stride_loop (fuel : nat) (stride gidsetsize : Z) : option Z :=
  match fuel with
  | O => None
  | S fuel =>
      if stride <? gidsetsize then stride_loop fuel (3 * stride + 1) gidsetsize else Some stride
  end.

(** [while (left >= 0 && GROUP_AT(left) > tmp)]: the final [right]. *)
Fixpoint shift_loop (fuel : nat) (stride left right tmp : Z) : prog group_info Z :=
  match fuel with
  | O => wrong
  | S fuel =>
      if 0 <=? left then
        x ← GROUP_GET left;
        if tmp <? x then
          _ ← GROUP_SET right x; shift_loop fuel stride (left - stride) left tmp
        else mret right
      else mret right
  end.

Definition sort_step (stride base : Z) : prog group_info unit :=
  let left := base in
  let right := left + stride in
  tmp ← GROUP_GET right;
  right ← shift_loop (Z.to_nat (left + 2)) stride left right tmp;
  GROUP_SET right tmp.

Fixpoint sort_strides (fuel : nat) (stride gidsetsize : Z) : prog group_info unit :=
  match fuel with
  | O => wrong
  | S fuel =>
      if stride =? 0 then mret tt
      else
        let max := gidsetsize - stride in
        _ ← for_up (Z.to_nat max) 0 (sort_step stride);
        sort_strides fuel (stride / 3) gidsetsize
  end.

(** The strides grow by a factor above 3: 21 of them pass 2^31. *)
Definition groups_sort : prog group_info unit :=
  gidsetsize ← gets ngroups;
  stride ← lift (stride_loop 24 1 gidsetsize);
  sort_strides 24 (stride / 3) gidsetsize.

Fixpoint groups_search_loop (fuel : nat) (gi : group_info) (grp left right : Z) : option Z :=
  match fuel with
  | O => None
  | S fuel =>
      if left <? right then
        let mid := u32 (left + right) / 2 in
        x ← GROUP_AT gi mid;
        if x <? grp then groups_search_loop fuel gi grp (u32 (mid + 1)) right
        else if grp <? x then groups_search_loop fuel gi grp left mid
        else Some 1
      else Some 0
  end.

(** [None] is the NULL group_info; the interval halves: 33 rounds for 32 bits. *)
Definition groups_search (group_info : option group_info) (grp : Z) : option Z :=
  match group_info with
  | None => Some 0
  | Some gi => groups_search_loop 33 gi grp 0 (ngroups gi)
  end.

(** *** References and credentials *)

Notation gstore := (gmap Z group_info).

(** Run a routine on one object. *)
Definition on_obj {A} (p : Z) (m : prog group_info A) : prog gstore A := λ h,
  gi ← h !! p; '(a, gi') ← m gi; Some (a, <[p := gi']> h).

Definition set_usage (f : Z → Z) : prog group_info Z := λ gi,
  let u := s32 (f (usage gi)) in Some (u, GInfo u (ngroups gi) (nblocks gi) (blocks gi)).

Definition get_group_info (p : Z) : prog gstore unit :=
  _ ← on_obj p (set_usage (λ u, u + 1)); mret tt.

(** groups_free gives the pages and the object back. *)
Definition groups_free (p : Z) : prog gstore unit := λ h,
  match h !! p with Some _ => Some (tt, delete p h) | None => None end.

Definition put_group_info (p : Z) : prog gstore unit :=
  u ← on_obj p (set_usage (λ u, u - 1));
  if u =? 0 then groups_free p else mret tt.

Definition set_groups (new : cred) (p : Z) : prog gstore (Z * cred) :=
  _ ← put_group_info (cred_groups new);
  _ ← on_obj p groups_sort;
  _ ← get_group_info p;
  mret (0, Cred (uid new) (gid new) (suid new) (sgid new) (euid new) (egid new)
                (fsuid new) (fsgid new) p).

Definition in_group_p (h : gstore) (c : cred) (grp : Z) : option Z :=
  if negb (grp =? fsgid c) then gi ← h !! cred_groups c; groups_search (Some gi) grp
  else Some 1.

Definition in_egroup_p (h : gstore) (c : cred) (grp : Z) : option Z :=
  if negb (grp =? egid c) then gi ← h !! cred_groups c; groups_search (Some gi) grp
  else Some 1.

(** ** The list a group_info holds *)

Definition shape (bs : list (list Z)) : Prop :=
  Forall (λ b, length b = 1024%nat) bs ∨ ∃ b, bs = [b] ∧ length b = 32%nat.

(** [gi] holds the gids [l]. *)
Definition holds (gi : group_info) (l : list Z) : Prop :=
  shape (blocks gi) ∧ zlen l = ngroups gi ∧ ∃ rest, concat (blocks gi) = l ++ rest.

Lemma concat_lookup (n : nat) (bs : list (list Z)) (q r : nat) :
  Forall (λ b, length b = n) bs → (r < n)%nat →
  concat bs !! (q * n + r)%nat = b ← bs !! q; b !! r.
Proof.
  intros Hf Hr. revert q. induction Hf as [|b bs Hb Hf IH]; intros q; [done|].
  destruct q as [|q]; cbn [concat].
  - rewrite lookup_app_l by lia. done.
  - rewrite lookup_app_r by lia. change ((b :: bs) !! S q) with (bs !! q).
    rewrite <- (IH q). f_equal. lia.
Qed.

Lemma concat_insert (n : nat) (bs : list (list Z)) (q r : nat) b x :
  Forall (λ b, length b = n) bs → (r < n)%nat → bs !! q = Some b →
  concat (<[q := <[r := x]> b]> bs) = <[(q * n + r)%nat := x]> (concat bs).
Proof.
  intros Hf Hr. revert q. induction Hf as [|b' bs Hb Hf IH]; intros q Hq; [done|].
  destruct q as [|q]; simpl in *.
  - injection Hq as ->. by rewrite insert_app_l by lia.
  - rewrite IH by done. rewrite insert_app_r_alt by lia. do 2 f_equal. lia.
Qed.

Section access.
Context (gi : group_info) (l : list Z) (i : Z) (Hh : holds gi l) (Hi : 0 ≤ i < ngroups gi).

Let q := Z.to_nat (i / 1024).
Let r := Z.to_nat (i `mod` 1024).

Lemma index_split : Z.to_nat i = (q * 1024 + r)%nat.
Proof. unfold q, r. dlia. Qed.

Lemma group_block : ∃ b n, blocks gi !! q = Some b ∧ (r < n)%nat ∧ length b = n ∧
  Forall (λ b, length b = n) (blocks gi) ∧ Z.to_nat i = (q * n + r)%nat.
Proof.
  destruct Hh as (Hs & Hl & rest & Hc). pose proof index_split as Hsp.
  assert (Hlen : (Z.to_nat i < length (concat (blocks gi)))%nat) by (rewrite Hc, length_app; lia).
  assert (Hr : (r < 1024)%nat) by (unfold r; dlia).
  destruct Hs as [Hf|(b & Hb & Hlb)].
  - apply lookup_lt_is_Some in Hlen as [x Hx].
    rewrite Hsp, (concat_lookup 1024) in Hx by done.
    destruct (blocks gi !! q) as [b|] eqn:E; [|done]. exists b, 1024%nat.
    repeat split; try done. rewrite Forall_forall in Hf. apply Hf. by apply list_elem_of_lookup_2 in E.
  - rewrite Hb in *. simpl in Hlen. rewrite app_nil_r in Hlen.
    exists b, 32%nat. assert (q = 0%nat) as -> by (unfold q; dlia).
    repeat split; [lia|done|by constructor|lia].
Qed.

Lemma GROUP_AT_holds : GROUP_AT gi i = rd l i.
Proof.
  destruct group_block as (b & n & Hb & Hr & Hn & Hf & Hsp).
  destruct Hh as (_ & Hl & rest & Hc). unfold GROUP_AT, rd, NGROUPS_PER_BLOCK.
  change (4096 / 4) with 1024. fold q r.
  destruct (Z.leb_spec 0 (i / 1024)); [|dlia]. destruct (Z.leb_spec 0 (i `mod` 1024)); [|dlia].
  destruct (Z.leb_spec 0 i); [|lia].
  transitivity (concat (blocks gi) !! Z.to_nat i).
  - by rewrite Hsp, (concat_lookup n).
  - rewrite Hc, lookup_app_l by lia. done.
Qed.

Lemma GROUP_SET_holds x : ∃ gi', GROUP_SET i x gi = Some (tt, gi') ∧
  holds gi' (<[Z.to_nat i := x]> l) ∧ ngroups gi' = ngroups gi ∧ usage gi' = usage gi.
Proof.
  destruct group_block as (b & n & Hb & Hr & Hn & Hf & Hsp).
  destruct Hh as (Hs & Hl & rest & Hc). unfold GROUP_SET, rd, NGROUPS_PER_BLOCK.
  change (4096 / 4) with 1024. fold q r.
  destruct (Z.leb_spec 0 (i / 1024)); [|dlia]. rewrite Hb. cbn [mbind option_bind].
  assert (Hir : 0 ≤ i `mod` 1024 < zlen b) by (unfold r in *; dlia).
  rewrite wr_Some by done. fold r. cbn [mbind option_bind].
  apply lookup_lt_Some in Hb as Hq. rewrite wr_Some by (unfold q in *; dlia). fold q.
  cbn [mbind option_bind]. eexists. split; [done|]. split; [|done].
  split; [|split]; simpl.
  - destruct Hs as [Hf'|(b' & Hb' & Hlb')]; [left|right].
    + apply Forall_insert; [done|]. rewrite length_insert, Hn.
      rewrite Forall_forall in Hf'. rewrite <- Hn. apply Hf'. by apply list_elem_of_lookup_2 in Hb.
    + rewrite Hb' in Hb, Hq |- *. simpl in Hq. destruct q; [|lia]. injection Hb as <-.
      eexists. split; [done|]. by rewrite length_insert.
  - by rewrite length_insert.
  - exists rest. rewrite (concat_insert n), Hc, <- Hsp by done. by rewrite insert_app_l by lia.
Qed.
End access.

Lemma wp_GROUP_GET gi l i x (Q : Z → group_info → Prop) : holds gi l → rd l i = Some x →
  Q x gi → wp (GROUP_GET i) Q gi.
Proof.
  intros Hh Hx HQ. pose proof (rd_Some _ _ _ Hx). destruct (Hh) as (_ & Hl & _).
  unfold wp, GROUP_GET. rewrite (GROUP_AT_holds gi l) by (done || lia). by rewrite Hx.
Qed.

Lemma wp_GROUP_SET gi l i x (Q : unit → group_info → Prop) : holds gi l → 0 ≤ i < zlen l →
  (∀ gi', holds gi' (<[Z.to_nat i := x]> l) → ngroups gi' = ngroups gi → usage gi' = usage gi →
    Q tt gi') →
  wp (GROUP_SET i x) Q gi.
Proof.
  intros Hh Hi HQ. destruct (Hh) as (_ & Hl & _).
  destruct (GROUP_SET_holds gi l i Hh ltac:(lia) x) as (gi' & E & H1 & H2 & H3).
  unfold wp. rewrite E. by apply HQ.
Qed.

(** ** Sorting *)

Lemma swap_perm {A} (l1 l2 l3 : list A) a b :
  l1 ++ a :: l2 ++ b :: l3 ≡ₚ l1 ++ b :: l2 ++ a :: l3.
Proof.
  apply Permutation_app_head. change (a :: l2 ++ b :: l3) with ((a :: l2) ++ b :: l3).
  rewrite <- Permutation_middle. simpl. apply perm_skip. apply Permutation_middle.
Qed.

Lemma insert_middle {A} (l1 l2 : list A) a b : <[length l1 := b]> (l1 ++ a :: l2) = l1 ++ b :: l2.
Proof. induction l1 as [|c l1 IH]; simpl; [done|]. by rewrite IH. Qed.

Lemma insert_swap {A} (l : list A) i j x t : l !! i = Some x → (j < length l)%nat → i ≠ j →
  <[i := t]> (<[j := x]> l) ≡ₚ <[j := t]> l.
Proof.
  intros Hi Hj Hne. apply lookup_lt_is_Some in Hj as [y Hy].
  destruct (decide (i < j)%nat).
  - apply list_elem_of_split_length in Hi as (l1 & l2 & -> & ->).
    rewrite lookup_app_r in Hy by lia.
    destruct (j - length l1)%nat as [|k] eqn:Ek; [lia|]. simpl in Hy.
    apply list_elem_of_split_length in Hy as (l3 & l4 & -> & ->).
    assert (E : ∀ z w, <[j := w]> (l1 ++ z :: l3 ++ y :: l4) = l1 ++ z :: l3 ++ w :: l4).
    { intros z w. replace j with (length (l1 ++ z :: l3)) by (rewrite length_app; simpl; lia).
      change (l1 ++ z :: l3 ++ y :: l4) with (l1 ++ (z :: l3) ++ y :: l4).
      rewrite app_assoc, insert_middle, <- app_assoc. done. }
    rewrite !E, insert_middle. apply swap_perm.
  - apply list_elem_of_split_length in Hy as (l1 & l2 & -> & ->).
    rewrite lookup_app_r in Hi by lia.
    destruct (i - length l1)%nat as [|k] eqn:Ek; [lia|]. simpl in Hi.
    apply list_elem_of_split_length in Hi as (l3 & l4 & -> & ->).
    rewrite !insert_middle.
    replace i with (length (l1 ++ x :: l3)) by (rewrite length_app; simpl; lia).
    change (l1 ++ x :: l3 ++ x :: l4) with (l1 ++ (x :: l3) ++ x :: l4).
    rewrite app_assoc, insert_middle, <- app_assoc. apply swap_perm.
Qed.

(** The first [n] elements are in order. *)
Definition sorted_to (n : Z) (l : list Z) : Prop :=
  ∀ i j x y, i < j < n → rd l i = Some x → rd l j = Some y → x ≤ y.

(** In order up to [n] but for the hole [k], with [tmp] at most what follows it. *)
Definition hole (n k tmp : Z) (l : list Z) : Prop :=
  (∀ i j x y, i < j < n → i ≠ k → j ≠ k → rd l i = Some x → rd l j = Some y → x ≤ y) ∧
  (∀ j y, k < j < n → rd l j = Some y → tmp ≤ y).

Lemma hole_shift n k tmp l x : 0 < k < zlen l → rd l (k - 1) = Some x → tmp < x → hole n k tmp l →
  k < n → hole n (k - 1) tmp (<[Z.to_nat k := x]> l).
Proof.
  intros Hk Hx Ht [H1 H2] Hn. split.
  - intros i j y z Hij Hi Hj. rewrite !rd_insert by lia.
    destruct (Z.eqb_spec i k) as [->|], (Z.eqb_spec j k) as [->|]; try lia.
    + intros [= <-] Hz. apply (H1 (k - 1) j); (done || lia).
    + intros Hy [= <-]. apply (H1 i (k - 1)); (done || lia).
    + apply H1; lia.
  - intros j y Hj. rewrite rd_insert by lia. destruct (Z.eqb_spec j k) as [->|].
    + intros [= <-]. lia.
    + apply H2. lia.
Qed.

Lemma hole_fill n k tmp l : 0 ≤ k < zlen l → hole n k tmp l →
  (0 < k → ∃ x, rd l (k - 1) = Some x ∧ x ≤ tmp) → sorted_to n (<[Z.to_nat k := tmp]> l).
Proof.
  intros Hk [H1 H2] Hp i j x y Hij. rewrite !rd_insert by lia.
  destruct (Z.eqb_spec i k) as [->|], (Z.eqb_spec j k) as [->|]; try lia.
  - intros [= <-]. apply H2. lia.
  - intros Hx [= <-]. pose proof (rd_Some _ _ _ Hx).
    destruct (Hp ltac:(lia)) as (z & Hz & Hzt). destruct (decide (i = k - 1)) as [->|].
    + congruence.
    + assert (x ≤ z) by (apply (H1 i (k - 1)); (done || lia)). lia.
  - apply H1; lia.
Qed.

Lemma shift_ok n stride tmp l0 : 0 < stride → ∀ fuel right l gi,
  holds gi l → 0 ≤ right < zlen l → (Z.to_nat (right - stride + 1) < fuel)%nat →
  <[Z.to_nat right := tmp]> l ≡ₚ l0 → (stride = 1 → hole n right tmp l ∧ right < n) →
  wp (shift_loop fuel stride (right - stride) right tmp) (λ k gi', ∃ l',
    holds gi' l' ∧ ngroups gi' = ngroups gi ∧ usage gi' = usage gi ∧ 0 ≤ k < zlen l' ∧
    <[Z.to_nat k := tmp]> l' ≡ₚ l0 ∧ (stride = 1 → sorted_to n (<[Z.to_nat k := tmp]> l'))) gi.
Proof.
  intros Hst. induction fuel as [|fuel IH]; intros right l gi Hh Hr Hf Hp Hs; [lia|].
  cbn [shift_loop]. destruct (Z.leb_spec 0 (right - stride)).
  - destruct (rd_in l (right - stride)) as [x Hx]; [lia|].
    apply wp_bind. eapply wp_GROUP_GET; [done..|]. destruct (Z.ltb_spec tmp x).
    + apply wp_bind. eapply wp_GROUP_SET; [done|lia|]. intros gi' Hh' Hn' Hu'.
      eapply wp_mono; [apply (IH (right - stride) _ gi' Hh')|].
      * rewrite length_insert. lia.
      * lia.
      * rewrite insert_swap; [done| |lia|lia]. unfold rd in Hx.
        by destruct (Z.leb_spec 0 (right - stride)); [|lia].
      * intros ->. destruct (Hs eq_refl) as [Hho Hn]. split; [|lia]. by apply hole_shift; [lia|..].
      * intros k gi''. rewrite Hn', Hu'. done.
    + apply wp_ret. exists l. do 5 (split; [done|]). intros ->.
      apply hole_fill; [done|apply Hs; done|]. intros _. by exists x.
  - apply wp_ret. exists l. do 5 (split; [done|]). intros ->.
    apply hole_fill; [done|apply Hs; done|]. intros. lia.
Qed.

Lemma sort_step_ok stride base l gi : 0 < stride → 0 ≤ base → base + stride < zlen l → holds gi l →
  (stride = 1 → sorted_to (base + 1) l) →
  wp (sort_step stride base) (λ _ gi', ∃ l', holds gi' l' ∧ ngroups gi' = ngroups gi ∧
    usage gi' = usage gi ∧ l' ≡ₚ l ∧ (stride = 1 → sorted_to (base + 2) l')) gi.
Proof.
  intros Hst Hb Hn Hh Hs. unfold sort_step.
  destruct (rd_in l (base + stride)) as [tmp Ht]; [lia|].
  apply wp_bind. eapply wp_GROUP_GET; [done..|]. apply wp_bind.
  replace base with ((base + stride) - stride) at 2 by lia.
  eapply wp_mono; [apply (shift_ok (base + 2) stride tmp l Hst _ (base + stride) l gi Hh)|].
  - lia.
  - lia.
  - rewrite list_insert_id; [done|]. unfold rd in Ht. by destruct (Z.leb_spec 0 (base + stride)); [|lia].
  - intros ->. split; [|lia]. split.
    + intros i j x y Hij Hi Hj. apply (Hs eq_refl). lia.
    + intros j y Hj. lia.
  - intros k gi' (l' & Hh' & Hng & Hu & Hk & Hp & Hs'). eapply wp_GROUP_SET; [done|done|].
    intros gi'' Hh'' Hn'' Hu''. eexists. split; [done|]. split; [congruence|]. split; [congruence|].
    split; [done|]. exact Hs'.
Qed.

Lemma sorted_short n l : n ≤ 1 → sorted_to n l.
Proof. intros Hn i j x y Hij H%rd_Some. lia. Qed.

Lemma sort_pass_ok stride n l gi : 0 < stride → zlen l = n → holds gi l →
  wp (for_up (Z.to_nat (n - stride)) 0 (sort_step stride)) (λ _ gi', ∃ l', holds gi' l' ∧
    ngroups gi' = ngroups gi ∧ usage gi' = usage gi ∧ l' ≡ₚ l ∧ (stride = 1 → sorted_to n l')) gi.
Proof.
  intros Hst Hn Hh.
  apply (wp_for_up (λ i gi', ∃ l', holds gi' l' ∧ ngroups gi' = ngroups gi ∧ usage gi' = usage gi ∧
    l' ≡ₚ l ∧ (stride = 1 → sorted_to (i + 1) l'))).
  - exists l. do 4 (split; [done|]). intros _. apply sorted_short. lia.
  - intros i gi' Hi (l' & Hh' & Hn' & Hu' & Hp & Hs). pose proof (Permutation_length Hp) as Hlen.
    eapply wp_mono; [apply (sort_step_ok stride i l' gi'); (done || lia)|].
    intros _ gi'' (l'' & Hh'' & Hn'' & Hu'' & Hp'' & Hs''). exists l''. split; [done|].
    split; [congruence|]. split; [congruence|]. split; [by rewrite Hp''|].
    by replace (i + 1 + 1) with (i + 2) by lia.
  - intros gi' (l' & Hh' & Hn' & Hu' & Hp & Hs). exists l'. do 4 (split; [done|]).
    intros E i j x y Hij Hx Hy. pose proof (Permutation_length Hp). pose proof (rd_Some _ _ _ Hy).
    apply (Hs E i j); [lia|done|done].
Qed.

(** The strides: 0, 1, 4, 13, ... *)
Fixpoint str (k : nat) : Z := match k with O => 0 | S k => 3 * str k + 1 end.

Lemma str_nonneg k : 0 ≤ str k.
Proof. induction k; simpl; lia. Qed.

Lemma stride_ok n : n ≤ 2 ^ 31 → ∀ fuel k, (k + fuel = 25)%nat → (0 < k)%nat → (0 < fuel)%nat →
  ∃ k', stride_loop fuel (str k) n = Some (str k') ∧ (0 < k' ≤ 24)%nat ∧ n ≤ str k'.
Proof.
  intros Hn. induction fuel as [|fuel IH]; intros k Hf Hk H0; [lia|]. cbn [stride_loop].
  destruct (Z.ltb_spec (str k) n); [|exists k; split; [done|lia]].
  destruct fuel as [|fuel].
  { assert (k = 24%nat) as -> by lia. exfalso. revert H. change (str 24) with 141214768240. lia. }
  destruct (IH (S k)) as (k' & E & ?); [lia..|]. exists k'. split; [exact E|lia].
Qed.

Lemma sort_strides_ok n : ∀ k fuel l gi, (k < fuel)%nat → zlen l = n → holds gi l →
  (k = 0%nat → sorted_to n l) →
  wp (sort_strides fuel (str k) n) (λ _ gi', ∃ l', holds gi' l' ∧ ngroups gi' = ngroups gi ∧
    usage gi' = usage gi ∧ l' ≡ₚ l ∧ sorted_to n l') gi.
Proof.
  induction k as [|k IH]; intros [|fuel] l gi Hf Hn Hh Hs; try lia; cbn [sort_strides].
  { apply wp_ret. exists l. do 4 (split; [done|]). by apply Hs. }
  pose proof (str_nonneg k). rewrite (proj2 (Z.eqb_neq _ _)) by (simpl; lia).
  apply wp_bind. eapply wp_mono; [apply (sort_pass_ok (str (S k)) n l gi); [simpl; lia|done..]|].
  intros _ gi' (l' & Hh' & Hn' & Hu' & Hp & Hs'). pose proof (Permutation_length Hp).
  replace (str (S k) / 3) with (str k) by (simpl; dlia).
  eapply wp_mono; [apply (IH fuel l' gi')|]; [lia|lia|done| |].
  - intros ->. by apply Hs'.
  - intros _ gi'' (l'' & Hh'' & Hn'' & Hu'' & Hp'' & Hs''). exists l''. split; [done|].
    split; [congruence|]. split; [congruence|]. split; [by rewrite Hp''|done].
Qed.

Lemma groups_sort_ok l gi : holds gi l → ngroups gi ≤ NGROUPS_MAX →
  wp groups_sort (λ _ gi', ∃ l', holds gi' l' ∧ ngroups gi' = ngroups gi ∧ usage gi' = usage gi ∧
    l' ≡ₚ l ∧ sorted_to (ngroups gi) l') gi.
Proof.
  intros Hh Hn. unfold NGROUPS_MAX in Hn. unfold groups_sort. apply wp_bind, wp_gets, wp_bind.
  destruct (stride_ok (ngroups gi) ltac:(lia) 24 1) as (k & E & Hk & Hnk); [lia..|].
  eapply wp_lift; [exact E|]. destruct k as [|k]; [lia|].
  pose proof (str_nonneg k). replace (str (S k) / 3) with (str k) by (simpl; dlia).
  pose proof Hh as (_ & Hl & _). apply sort_strides_ok; [lia|done|done|].
  intros ->. apply sorted_short. simpl in Hnk. lia.
Qed.

(** ** Searching *)

Lemma groups_search_loop_ok gi l grp : holds gi l → sorted_to (zlen l) l → zlen l ≤ NGROUPS_MAX →
  ∀ k left right, 0 ≤ left ≤ right → right ≤ zlen l → right - left < 2 ^ Z.of_nat k →
  (∀ i x, rd l i = Some x → x = grp → left ≤ i < right) →
  groups_search_loop (S k) gi grp left right = Some (if bool_decide (grp ∈ l) then 1 else 0).
Proof.
  intros Hh Hs Hmax. unfold NGROUPS_MAX in Hmax. pose proof Hh as (_ & Hl & _).
  induction k as [|k IH]; intros left right Hlr Hr Hf Hin.
  - cbn [groups_search_loop]. simpl in Hf. rewrite (proj2 (Z.ltb_ge _ _)) by lia.
    rewrite bool_decide_false; [done|]. intros [i Hi]%list_elem_of_lookup.
    specialize (Hin (Z.of_nat i) grp). rewrite rd_nat in Hin. specialize (Hin Hi eq_refl). lia.
  - rewrite Nat2Z.inj_succ, Z.pow_succ_r in Hf by lia.
    remember (S k) as k1 eqn:Ek1. cbn [groups_search_loop]. subst k1. destruct (Z.ltb_spec left right).
    2:{ rewrite bool_decide_false; [done|]. intros [i Hi]%list_elem_of_lookup.
        specialize (Hin (Z.of_nat i) grp). rewrite rd_nat in Hin. specialize (Hin Hi eq_refl). lia. }
    rewrite (u32_small (left + right)) by lia. set (mid := (left + right) / 2).
    assert (Hmid : left ≤ mid < right ∧ mid - left ≤ (right - left) / 2 ∧
                   right - (mid + 1) ≤ (right - left) / 2) by (unfold mid; dlia).
    rewrite (GROUP_AT_holds gi l mid) by (done || lia).
    destruct (rd_in l mid) as [x Hx]; [lia|]. rewrite Hx. cbn [mbind option_bind].
    rewrite u32_small by lia.
    assert (Hhalf : (right - left) / 2 < 2 ^ Z.of_nat k) by (apply Z.div_lt_upper_bound; lia).
    destruct (Z.ltb_spec x grp) as [Hxg|Hxg]; [|destruct (Z.ltb_spec grp x)].
    + apply IH; [lia..|].
      intros i y Hi ->. specialize (Hin i grp Hi eq_refl). destruct (decide (i ≤ mid)); [|lia].
      destruct (decide (i = mid)) as [->|]; [rewrite Hx in Hi; injection Hi; lia|].
      assert (grp ≤ x) by (apply (Hs i mid); (done || lia)). lia.
    + apply IH; [lia..|].
      intros i y Hi ->. specialize (Hin i grp Hi eq_refl). destruct (decide (mid ≤ i)); [|lia].
      destruct (decide (i = mid)) as [->|]; [rewrite Hx in Hi; injection Hi; lia|].
      assert (x ≤ grp) by (apply (Hs mid i); (done || lia)). lia.
    + rewrite bool_decide_true; [done|]. assert (x = grp) as -> by lia. by apply rd_elem in Hx.
Qed.

Lemma groups_search_ok gi l grp : holds gi l → sorted_to (zlen l) l → zlen l ≤ NGROUPS_MAX →
  groups_search (Some gi) grp = Some (if bool_decide (grp ∈ l) then 1 else 0).
Proof.
  intros Hh Hs Hm. pose proof Hh as (_ & Hl & _). unfold groups_search. rewrite <- Hl.
  unfold NGROUPS_MAX in Hm. apply groups_search_loop_ok; [done|done|done|lia|lia|simpl; lia|].
  intros i x Hi%rd_Some _. lia.
Qed.

(** ** References *)

Lemma wp_on_obj {A} p (m : prog group_info A) gi (Q : A → gstore → Prop) h :
  h !! p = Some gi → wp m (λ a gi', Q a (<[p := gi']> h)) gi → wp (on_obj p m) Q h.
Proof. unfold wp, on_obj. intros ->. simpl. by destruct (m gi) as [[a gi']|]. Qed.

(** set_groups with a group_info other than the one in use: the new list sorted
    and referenced once more, one reference to the old list dropped. *)
Lemma set_groups_ok h new p old gi l : h !! cred_groups new = Some old → h !! p = Some gi →
  p ≠ cred_groups new → holds gi l → ngroups gi ≤ NGROUPS_MAX →
  0 < usage old < 2 ^ 31 → 0 < usage gi < 2 ^ 31 - 1 →
  wp (set_groups new p) (λ r h',
    r = (0, Cred (uid new) (gid new) (suid new) (sgid new) (euid new) (egid new)
                 (fsuid new) (fsgid new) p) ∧
    (∃ gi' l', h' !! p = Some gi' ∧ holds gi' l' ∧ l' ≡ₚ l ∧ sorted_to (zlen l') l' ∧
       usage gi' = usage gi + 1) ∧
    h' !! cred_groups new = (if usage old =? 1 then None
                             else Some (GInfo (usage old - 1) (ngroups old) (nblocks old) (blocks old))) ∧
    ∀ q, q ≠ p → q ≠ cred_groups new → h' !! q = h !! q) h.
Proof.
  intros Ho Hp Hne Hh Hn Huo Hug. unfold set_groups. apply wp_bind.
  set (h1 := <[cred_groups new := GInfo (usage old - 1) (ngroups old) (nblocks old) (blocks old)]> h).
  set (h2 := if usage old =? 1 then delete (cred_groups new) h1 else h1).
  assert (W : wp (put_group_info (cred_groups new)) (λ _ h', h' = h2) h).
  { unfold put_group_info. apply wp_bind. eapply wp_on_obj; [exact Ho|].
    unfold wp, set_usage. rewrite s32_small by lia. fold h1. unfold h2.
    destruct (Z.eqb_spec (usage old) 1) as [E|E].
    - rewrite E. change (1 - 1 =? 0) with true. unfold groups_free.
      unfold h1. rewrite lookup_insert_eq. done.
    - rewrite (proj2 (Z.eqb_neq _ _)) by lia. done. }
  eapply wp_mono; [exact W|]. intros _ h' ->. apply wp_bind.
  assert (H2 : ∀ q, q ≠ cred_groups new → h2 !! q = h !! q).
  { intros q Hq. unfold h2, h1. destruct (_ =? _); rewrite ?lookup_delete_ne, ?lookup_insert_ne; done. }
  eapply wp_on_obj; [rewrite H2; done|].
  eapply wp_mono; [by apply groups_sort_ok|]. intros _ gi1 (l' & Hh1 & Hn1 & Hu1 & Hpm & Hs).
  apply wp_bind. unfold get_group_info. apply wp_bind.
  eapply wp_on_obj; [apply lookup_insert_eq|]. unfold wp, set_usage. rewrite s32_small by lia.
  cbn [mret prog_ret]. pose proof Hh1 as (Hsh & Hl1 & Hrest). split; [done|].
  rewrite insert_insert_eq. split; [|split].
  - eexists _, l'. split; [apply lookup_insert_eq|]. split; [done|]. split; [done|].
    split; [|simpl; lia]. by rewrite Hl1, Hn1.
  - rewrite lookup_insert_ne by done. unfold h2, h1. destruct (_ =? _).
    + by rewrite lookup_delete_eq.
    + by rewrite lookup_insert_eq.
  - intros q Hq1 Hq2. rewrite lookup_insert_ne by done. by apply H2.
Qed.

(** ** Filling a new list *)

(** What the page allocator promises: pages of one page size, a whole small block. *)
Definition sizes_ok (kmalloc : option (list Z)) (page : nat → option (list Z)) : Prop :=
  (∀ b, kmalloc = Some b → length b = 32%nat) ∧ (∀ i b, page i = Some b → length b = 1024%nat).

Lemma alloc_blocks_ok page : (∀ i b, page i = Some b → length b = 1024%nat) → ∀ n i bs,
  alloc_blocks n i page = Some bs →
  Forall (λ b, length b = 1024%nat) bs ∧ length (concat bs) = (n * 1024)%nat.
Proof.
  intros Hp. induction n as [|n IH]; intros i bs; cbn [alloc_blocks]; [by intros [= <-]|].
  destruct (page i) as [b|] eqn:E; [|done]. cbn [mbind option_bind].
  destruct (alloc_blocks n (i + 1) page) as [bs'|] eqn:E2; [|done]. intros [= <-].
  destruct (IH _ _ E2) as [H1 H2]. pose proof (Hp _ _ E) as Hb. split; [by constructor|].
  cbn [concat]. rewrite length_app, H2, Hb. lia.
Qed.

Lemma groups_alloc_holds n kmalloc page gi : 0 ≤ n → sizes_ok kmalloc page →
  groups_alloc n kmalloc page = Some gi → usage gi = 1 ∧ ngroups gi = n ∧ ∃ l, holds gi l.
Proof.
  intros Hn [Hk Hp]. unfold groups_alloc, NGROUPS_SMALL.
  destruct kmalloc as [small|]; [|done]. cbn [mbind option_bind].
  set (nb := (n + NGROUPS_PER_BLOCK - 1) / NGROUPS_PER_BLOCK).
  set (bs := if n <=? 32 then _ else _).
  destruct bs as [bl|] eqn:E; [|done]. intros [= <-]. split; [done|]. split; [done|].
  assert (H : shape bl ∧ n ≤ zlen (concat bl)).
  { unfold bs in E. destruct (Z.leb_spec n 32).
    - injection E as <-. pose proof (Hk small eq_refl). split; [right; by exists small|].
      simpl. rewrite app_nil_r. lia.
    - apply (alloc_blocks_ok _ Hp) in E as [H1 H2]. split; [by left|]. rewrite H2.
      unfold nb, NGROUPS_PER_BLOCK. change (4096 / 4) with 1024.
      destruct (Z.eqb_spec ((n + 1024 - 1) / 1024) 0); dlia. }
  exists (take (Z.to_nat n) (concat bl)). split; [apply H|]. simpl. split.
  - rewrite length_take. lia.
  - eexists. symmetry. apply take_drop.
Qed.

Lemma from_user_ok get_user make_kgid gids : (∀ i, get_user i = rd gids i) →
  Forall (λ g, make_kgid g ≠ INVALID_GID) gids →
  ∀ n i gi l, holds gi l → zlen l = zlen gids → i + Z.of_nat n = zlen l → 0 ≤ i →
  (∀ j, j < i → rd l j = make_kgid <$> rd gids j) →
  wp (from_user_loop n i get_user make_kgid) (λ r gi', r = 0 ∧ usage gi' = usage gi ∧
    ngroups gi' = ngroups gi ∧ holds gi' (map make_kgid gids)) gi.
Proof.
  intros Hg Hv. induction n as [|n IH]; intros i gi l Hh Hl Hi H0 Hj; cbn [from_user_loop].
  - apply wp_ret. split; [done|]. split; [done|]. split; [done|].
    replace (map make_kgid gids) with l; [done|]. apply rd_ext; [rewrite length_map; lia|].
    intros j Hjl. rewrite Hj by lia. unfold rd. destruct (0 <=? j); [|done].
    by rewrite list_lookup_fmap.
  - destruct (rd_in gids i) as [g Eg]; [lia|]. rewrite Hg, Eg.
    rewrite (proj2 (Z.eqb_neq _ _)) by (by apply (rd_Forall _ _ _ _ Hv Eg)).
    apply wp_bind. eapply wp_GROUP_SET; [done|lia|]. intros gi' Hh' Hn' Hu'.
    eapply wp_mono; [eapply IH; [exact Hh'|..]|].
    + by rewrite length_insert.
    + rewrite length_insert. lia.
    + lia.
    + intros j Hji. rewrite rd_insert by lia. destruct (Z.eqb_spec j i) as [->|].
      * by rewrite Eg.
      * apply Hj. lia.
    + intros r gi'' (-> & ? & ? & ?). split; [done|]. split; [congruence|]. split; [congruence|done].
Qed.

Lemma flag_ext (P Q : Prop) `{!Decision P, !Decision Q} : (P ↔ Q) →
  (if bool_decide P then 1 else 0) = (if bool_decide Q then 1 else 0).
Proof. intros H. by rewrite (bool_decide_ext P Q H). Qed.

(** A group list in the store, sorted as set_groups leaves it. *)
Definition group_at (h : gstore) (p : Z) (l : list Z) : Prop :=
  ∃ gi, h !! p = Some gi ∧ holds gi l ∧ sorted_to (zlen l) l ∧ zlen l ≤ NGROUPS_MAX.

Lemma in_group_ok h c l g : group_at h (cred_groups c) l →
  in_group_p h c g = Some (if bool_decide (g = fsgid c ∨ g ∈ l) then 1 else 0).
Proof.
  intros (gi & Hg & Hh & Hs & Hl). unfold in_group_p.
  destruct (Z.eqb_spec g (fsgid c)) as [->|Hne]; cbn [negb].
  - rewrite bool_decide_true; [done|by left].
  - rewrite Hg. cbn [mbind option_bind]. rewrite (groups_search_ok _ l) by done.
    f_equal. apply flag_ext. split; [by right|]. by intros [?|?].
Qed.

(** ** The property *)

(** C31: membership in supplementary groups.  For a list of at most 65536 valid
    gids that groups_from_user reads into a group_info groups_alloc returned,
    set_groups (the Shell sort included) succeeds, and afterwards in_group_p and
    in_egroup_p (the binary search included) answer 1 exactly for the fsgid or
    egid and for the gids of the list.  One reference to the new list is taken,
    the old list loses one and is freed with its last one, and no other object
    changes. *)
Theorem set_groups_membership n kmalloc page gi0 get_user make_kgid gids new h old p :
  groups_alloc n kmalloc page = Some gi0 → sizes_ok kmalloc page → 0 ≤ n ≤ NGROUPS_MAX →
  zlen gids = n → (∀ i, get_user i = rd gids i) → Forall (λ g, make_kgid g ≠ INVALID_GID) gids →
  h !! cred_groups new = Some old → 0 < usage old < 2 ^ 31 → p ≠ cred_groups new →
  ∃ gi, groups_from_user get_user make_kgid gi0 = Some (0, gi) ∧
  ∃ c' h', set_groups new p (<[p := gi]> h) = Some ((0, c'), h') ∧
    (∀ grp, in_group_p h' c' grp =
       Some (if bool_decide (grp = fsgid new ∨ grp ∈ map make_kgid gids) then 1 else 0)) ∧
    (∀ grp, in_egroup_p h' c' grp =
       Some (if bool_decide (grp = egid new ∨ grp ∈ map make_kgid gids) then 1 else 0)) ∧
    usage <$> h' !! p = Some 2 ∧
    usage <$> h' !! cred_groups new = (if usage old =? 1 then None else Some (usage old - 1)) ∧
    ∀ q, q ≠ p → q ≠ cred_groups new → h' !! q = h !! q.
Proof.
  intros Ha Hsz Hn Hlen Hget Hval Ho Huo Hne.
  destruct (groups_alloc_holds n kmalloc page gi0) as (Hu0 & Hn0 & l0 & Hh0); [lia|done|done|].
  pose proof Hh0 as (_ & Hl0 & _).
  destruct (proj1 (wp_elim _ _ _) (from_user_ok get_user make_kgid gids Hget Hval
    (Z.to_nat n) 0 gi0 l0 Hh0 ltac:(lia) ltac:(lia) ltac:(lia)
    ltac:(intros j Hj; rewrite !(proj2 (rd_None _ _)) by lia; done)))
    as (r & gi & E & -> & Hu & Hng & Hh).
  exists gi. split.
  { unfold groups_from_user, mbind, prog_bind, gets. rewrite Hn0. exact E. }
  destruct (proj1 (wp_elim _ _ _) (set_groups_ok (<[p := gi]> h) new p old gi (map make_kgid gids)
    ltac:(by rewrite lookup_insert_ne by done) ltac:(apply lookup_insert_eq) Hne Hh
    ltac:(lia) Huo ltac:(lia)))
    as ([rc c'] & h' & E' & [= -> ->] & (gi' & l' & Hgi' & Hh' & Hp & Hs & Hug) & Hold & Hq).
  simpl in *. eexists _, h'. split; [done|].
  assert (Hsearch : ∀ grp, groups_search (Some gi') grp =
            Some (if bool_decide (grp ∈ map make_kgid gids) then 1 else 0)).
  { intros grp. rewrite (groups_search_ok gi' l') by (done || (pose proof (Permutation_length Hp);
      rewrite length_map in *; lia)).
    f_equal. apply flag_ext. by rewrite Hp. }
  split; [|split; [|split; [|split]]].
  - intros grp. unfold in_group_p. cbn [fsgid cred_groups]. rewrite Hgi'.
    destruct (Z.eqb_spec grp (fsgid new)); cbn [negb mbind option_bind].
    + by rewrite bool_decide_true by auto.
    + rewrite Hsearch. f_equal. apply flag_ext. tauto.
  - intros grp. unfold in_egroup_p. cbn [egid cred_groups]. rewrite Hgi'.
    destruct (Z.eqb_spec grp (egid new)); cbn [negb mbind option_bind].
    + by rewrite bool_decide_true by auto.
    + rewrite Hsearch. f_equal. apply flag_ext. tauto.
  - rewrite Hgi'. simpl. f_equal. lia.
  - rewrite Hold. by destruct (usage old =? 1).
  - intros q Hq1 Hq2. rewrite Hq by done. by rewrite lookup_insert_ne by done.
Qed.

(** The gids 50 and 30 in a small block; the old list is shared. *)
Example set_groups_membership_witness :
  let old := GInfo 2 0 1 [replicate 32 0] in
  ∃ gi, groups_from_user (rd [50; 30]) (λ g, g) (GInfo 1 2 1 [replicate 32 7]) = Some (0, gi) ∧
  ∃ c' h', set_groups (Cred 0 0 0 0 0 9 0 9 1) 2 (<[2 := gi]> {[1 := old]}) = Some ((0, c'), h') ∧
    in_group_p h' c' 30 = Some 1 ∧ in_group_p h' c' 9 = Some 1 ∧ in_group_p h' c' 40 = Some 0.
Proof.
  destruct (set_groups_membership 2 (Some (replicate 32 7)) (λ _, None) (GInfo 1 2 1 [replicate 32 7])
    (rd [50; 30]) (λ g, g) [50; 30] (Cred 0 0 0 0 0 9 0 9 1) {[1 := GInfo 2 0 1 [replicate 32 0]]}
    (GInfo 2 0 1 [replicate 32 0]) 2) as (gi & E & c' & h' & E' & Hin & _).
  - reflexivity.
  - split; [by intros b [= <-]|done].
  - unfold NGROUPS_MAX. lia.
  - reflexivity.
  - done.
  - by repeat constructor.
  - reflexivity.
  - simpl. lia.
  - done.
  - exists gi. split; [done|]. exists c', h'. split; [done|]. rewrite !Hin. done.
Defined.
