(* ===== verification/PosixAcl.v ===== *)
(** * PosixAcl: POSIX access control lists (fs/posix_acl.c)

    An ACL is an array of tagged entries.  The operations are modelled on the
    list of entries; posix_acl_create and posix_acl_chmod, which replace a
    reference-counted ACL by a modified clone, on a store of ACL objects.  The
    process credentials and its groups come from Groups. *)

From S2P Require Import Prelude Groups.
From Stdlib Require Import Sorting.Sorted.

(** ** The program *)

Local Notation "x <<i n" := (Z.shiftl x n) (at level 34, left associativity).

Definition ACL_USER_OBJ : Z := 0x01.
Definition ACL_USER : Z := 0x02.
Definition ACL_GROUP_OBJ : Z := 0x04.
Definition ACL_GROUP : Z := 0x08.
Definition ACL_MASK : Z := 0x10.
Definition ACL_OTHER : Z := 0x20.
Definition S_IRWXU : Z := 0x1c0. (* 00700 *)
Definition S_IRWXG : Z := 0x38. (* 00070 *)
Definition S_IRWXO : Z := 0x7. (* 00007 *)
Definition S_IRWXUGO : Z := S_IRWXU .| S_IRWXG .| S_IRWXO.
Definition INVALID_UID : Z := 2 ^ 32 - 1.
Definition MAY_EXEC : Z := 1.
Definition MAY_WRITE : Z := 2.
Definition MAY_READ : Z := 4.
Definition MAY_NOT_BLOCK : Z := 0x80.
Definition EINVAL : Z := 22.
Definition EACCES : Z := 13.
Definition EIO : Z := 5.
Definition ENOMEM : Z := 12.

(** [e_id] is the union of e_uid and e_gid. *)
Record posix_acl_entry := Ent { e_tag : Z; e_perm : Z; e_id : Z }.

Definition id_valid (id : Z) : bool := negb (id =? INVALID_UID).

(** The loop of posix_acl_valid with its local variables. *)
Fixpoint valid_loop (acl : list posix_acl_entry) (state prev_uid prev_gid : Z) (needs_mask : bool) : Z :=
  match acl with
  | [] => if state =? 0 then 0 else - EINVAL
  | pa :: acl =>
      if negb (e_perm pa .& Z.lnot 7 =? 0) then - EINVAL
      else if e_tag pa =? ACL_USER_OBJ then
        if state =? ACL_USER_OBJ then valid_loop acl ACL_USER prev_uid prev_gid needs_mask
        else - EINVAL
      else if e_tag pa =? ACL_USER then
        if negb (state =? ACL_USER) then - EINVAL
        else if negb (id_valid (e_id pa)) then - EINVAL
        else if id_valid prev_uid && (e_id pa <=? prev_uid) then - EINVAL
        else valid_loop acl state (e_id pa) prev_gid true
      else if e_tag pa =? ACL_GROUP_OBJ then
        if state =? ACL_USER then valid_loop acl ACL_GROUP prev_uid prev_gid needs_mask
        else - EINVAL
      else if e_tag pa =? ACL_GROUP then
        if negb (state =? ACL_GROUP) then - EINVAL
        else if negb (id_valid (e_id pa)) then - EINVAL
        else if id_valid prev_gid && (e_id pa <=? prev_gid) then - EINVAL
        else valid_loop acl state prev_uid (e_id pa) true
      else if e_tag pa =? ACL_MASK then
        if negb (state =? ACL_GROUP) then - EINVAL
        else valid_loop acl ACL_OTHER prev_uid prev_gid needs_mask
      else if e_tag pa =? ACL_OTHER then
        if (state =? ACL_OTHER) || ((state =? ACL_GROUP) && negb needs_mask)
        then valid_loop acl 0 prev_uid prev_gid needs_mask
        else - EINVAL
      else - EINVAL
  end.

Definition posix_acl_valid (acl : list posix_acl_entry) : Z :=
  valid_loop acl ACL_USER_OBJ INVALID_UID INVALID_UID false.

(** The loop of posix_acl_equiv_mode: the error, or [mode] and [not_equiv]. *)
Fixpoint equiv_loop (acl : list posix_acl_entry) (mode not_equiv : Z) : Z + (Z * Z) :=
  match acl with
  | [] => inr (mode, not_equiv)
  | pa :: acl =>
      if e_tag pa =? ACL_USER_OBJ then
        equiv_loop acl (u16 (mode .| ((e_perm pa .& S_IRWXO) <<i 6))) not_equiv
      else if e_tag pa =? ACL_GROUP_OBJ then
        equiv_loop acl (u16 (mode .| ((e_perm pa .& S_IRWXO) <<i 3))) not_equiv
      else if e_tag pa =? ACL_OTHER then
        equiv_loop acl (u16 (mode .| (e_perm pa .& S_IRWXO))) not_equiv
      else if e_tag pa =? ACL_MASK then
        equiv_loop acl (u16 ((mode .& Z.lnot S_IRWXG) .| ((e_perm pa .& S_IRWXO) <<i 3))) 1
      else if (e_tag pa =? ACL_USER) || (e_tag pa =? ACL_GROUP) then equiv_loop acl mode 1
      else inl (- EINVAL)
  end.

(** [acl = None] is the null ACL; the result and the new *mode_p. *)
Definition posix_acl_equiv_mode (acl : option (list posix_acl_entry)) (mode_p : Z) : Z * Z :=
  match acl with
  | None => (0, mode_p)
  | Some acl =>
      match equiv_loop acl 0 0 with
      | inl err => (err, mode_p)
      | inr (mode, not_equiv) => (not_equiv, u16 ((mode_p .& Z.lnot S_IRWXUGO) .| mode))
      end
  end.

(** A new ACL, or the error; the ids of its entries keep what the allocation held.
    [alloc] is whether posix_acl_alloc finds memory. *)
Definition posix_acl_from_mode (mode : Z) (alloc : bool) (id0 id1 id2 : Z) : Z + list posix_acl_entry :=
  if negb alloc then inl (- ENOMEM)
  else inr [Ent ACL_USER_OBJ ((mode .& S_IRWXU) >>u 6) id0;
            Ent ACL_GROUP_OBJ ((mode .& S_IRWXG) >>u 3) id1;
            Ent ACL_OTHER (mode .& S_IRWXO) id2].

Definition check_perm (perm want : Z) : Z := if perm .& want =? want then 0 else - EACCES.

(** The label [mask]: the entries behind [pa] are searched for a mask. *)
Fixpoint mask_label (pa : posix_acl_entry) (rest : list posix_acl_entry) (want : Z) : Z :=
  match rest with
  | [] => check_perm (e_perm pa) want
  | m :: rest =>
      if e_tag m =? ACL_MASK then check_perm (e_perm pa .& e_perm m) want
      else mask_label pa rest want
  end.

Section permission.
(** The inode's owner, and the caller's fsuid and in_group_p, which faults ([None])
    when the group list cannot be read. *)
Context (i_uid i_gid cur_fsuid : Z) (in_group : Z → option bool).

Fixpoint permission_loop (acl : list posix_acl_entry) (want : Z) (found : bool) : option Z :=
  match acl with
  | [] => Some (- EIO)
  | pa :: acl =>
      if e_tag pa =? ACL_USER_OBJ then
        if i_uid =? cur_fsuid then Some (check_perm (e_perm pa) want)
        else permission_loop acl want found
      else if e_tag pa =? ACL_USER then
        if e_id pa =? cur_fsuid then Some (mask_label pa acl want)
        else permission_loop acl want found
      else if e_tag pa =? ACL_GROUP_OBJ then
        g ← in_group i_gid;
        if (g : bool) then
          if e_perm pa .& want =? want then Some (mask_label pa acl want)
          else permission_loop acl want true
        else permission_loop acl want found
      else if e_tag pa =? ACL_GROUP then
        g ← in_group (e_id pa);
        if (g : bool) then
          if e_perm pa .& want =? want then Some (mask_label pa acl want)
          else permission_loop acl want true
        else permission_loop acl want found
      else if e_tag pa =? ACL_MASK then permission_loop acl want found
      else if e_tag pa =? ACL_OTHER then
        if found then Some (- EACCES) else Some (check_perm (e_perm pa) want)
      else Some (- EIO)
  end.

Definition posix_acl_permission (acl : list posix_acl_entry) (want : Z) : option Z :=
  permission_loop acl (want .& (MAY_READ .| MAY_WRITE .| MAY_EXEC .| MAY_NOT_BLOCK)) false.
End permission.

(** The group test of the current process: in_group_p of its credentials. *)
Definition current_in_group (h : gstore) (c : cred) (grp : Z) : option bool :=
  r ← in_group_p h c grp; Some (negb (r =? 0)).

Definition set_perm (p : Z) (pa : posix_acl_entry) : posix_acl_entry := Ent (e_tag pa) p (e_id pa).

(** posix_acl_create_masq.  The entries in front of [pa] are kept reversed in
    [seen]; [group_obj] and [mask_obj] are positions.  An unknown tag ends the loop
    ([inl]) with the entries as they are then. *)
Fixpoint create_loop (acl : list posix_acl_entry) (seen : list posix_acl_entry) (mode : Z)
    (group_obj mask_obj : option nat) (not_equiv : Z) :
  list posix_acl_entry + (list posix_acl_entry * Z * option nat * option nat * Z) :=
  match acl with
  | [] => inr (reverse seen, mode, group_obj, mask_obj, not_equiv)
  | pa :: acl =>
      if e_tag pa =? ACL_USER_OBJ then
        let perm := u16 (e_perm pa .& ((mode >>u 6) .| Z.lnot S_IRWXO)) in
        let mode := u16 (mode .& ((perm <<i 6) .| Z.lnot S_IRWXU)) in
        create_loop acl (set_perm perm pa :: seen) mode group_obj mask_obj not_equiv
      else if (e_tag pa =? ACL_USER) || (e_tag pa =? ACL_GROUP) then
        create_loop acl (pa :: seen) mode group_obj mask_obj 1
      else if e_tag pa =? ACL_GROUP_OBJ then
        create_loop acl (pa :: seen) mode (Some (length seen)) mask_obj not_equiv
      else if e_tag pa =? ACL_OTHER then
        let perm := u16 (e_perm pa .& (mode .| Z.lnot S_IRWXO)) in
        let mode := u16 (mode .& (perm .| Z.lnot S_IRWXO)) in
        create_loop acl (set_perm perm pa :: seen) mode group_obj mask_obj not_equiv
      else if e_tag pa =? ACL_MASK then
        create_loop acl (pa :: seen) mode group_obj (Some (length seen)) 1
      else inl (reverse seen ++ pa :: acl)
  end.

(** The result, the modified entries and *mode_p. *)
Definition posix_acl_create_masq (acl : list posix_acl_entry) (mode_p : Z) :
  Z * list posix_acl_entry * Z :=
  match create_loop acl [] mode_p None None 0 with
  | inl acl => (- EIO, acl, mode_p)
  | inr (acl, mode, group_obj, mask_obj, not_equiv) =>
      match (match mask_obj with Some k => Some k | None => group_obj end) with
      | None => (- EIO, acl, mode_p)
      | Some k =>
          match acl !! k with
          | None => (- EIO, acl, mode_p)
          | Some pa =>
              let perm := u16 (e_perm pa .& ((mode >>u 3) .| Z.lnot S_IRWXO)) in
              let mode := u16 (mode .& ((perm <<i 3) .| Z.lnot S_IRWXG)) in
              (not_equiv, <[k := set_perm perm pa]> acl,
               u16 ((mode_p .& Z.lnot S_IRWXUGO) .| mode))
          end
      end
  end.

(** posix_acl_chmod_masq, in the same way. *)
Fixpoint chmod_loop (acl : list posix_acl_entry) (seen : list posix_acl_entry) (mode : Z)
    (group_obj mask_obj : option nat) :
  list posix_acl_entry + (list posix_acl_entry * option nat * option nat) :=
  match acl with
  | [] => inr (reverse seen, group_obj, mask_obj)
  | pa :: acl =>
      if e_tag pa =? ACL_USER_OBJ then
        chmod_loop acl (set_perm ((mode .& S_IRWXU) >>u 6) pa :: seen) mode group_obj mask_obj
      else if (e_tag pa =? ACL_USER) || (e_tag pa =? ACL_GROUP) then
        chmod_loop acl (pa :: seen) mode group_obj mask_obj
      else if e_tag pa =? ACL_GROUP_OBJ then
        chmod_loop acl (pa :: seen) mode (Some (length seen)) mask_obj
      else if e_tag pa =? ACL_MASK then
        chmod_loop acl (pa :: seen) mode group_obj (Some (length seen))
      else if e_tag pa =? ACL_OTHER then
        chmod_loop acl (set_perm (mode .& S_IRWXO) pa :: seen) mode group_obj mask_obj
      else inl (reverse seen ++ pa :: acl)
  end.

Definition posix_acl_chmod_masq (acl : list posix_acl_entry) (mode : Z) : Z * list posix_acl_entry :=
  match chmod_loop acl [] mode None None with
  | inl acl => (- EIO, acl)
  | inr (acl, group_obj, mask_obj) =>
      match (match mask_obj with Some k => Some k | None => group_obj end) with
      | None => (- EIO, acl)
      | Some k =>
          match acl !! k with
          | None => (- EIO, acl)
          | Some pa => (0, <[k := set_perm ((mode .& S_IRWXG) >>u 3) pa]> acl)
          end
      end
  end.

(** *** Reference-counted ACLs *)

Record posix_acl := Acl { a_refcount : Z; a_entries : list posix_acl_entry }.

Notation acl_store := (gmap Z posix_acl).

Definition posix_acl_dup (acl : option Z) : prog acl_store (option Z) := λ h,
  match acl with
  | None => Some (None, h)
  | Some p => a ← h !! p; Some (Some p, <[p := Acl (s32 (a_refcount a + 1)) (a_entries a)]> h)
  end.

(** kfree_rcu takes the object out of the store. *)
Definition posix_acl_release (acl : option Z) : prog acl_store unit := λ h,
  match acl with
  | None => Some (tt, h)
  | Some p =>
      a ← h !! p;
      let c := s32 (a_refcount a - 1) in
      Some (tt, if c =? 0 then delete p h else <[p := Acl c (a_entries a)]> h)
  end.

(** [fresh] is the address kmemdup returns, [None] when it fails. *)
Definition posix_acl_clone (acl : option Z) (fresh : option Z) : prog acl_store (option Z) := λ h,
  match acl with
  | None => Some (None, h)
  | Some p =>
      a ← h !! p;
      match fresh with
      | None => Some (None, h)
      | Some q => Some (Some q, <[q := Acl 1 (a_entries a)]> h)
      end
  end.

Definition get_entries (p : Z) : prog acl_store (list posix_acl_entry) := λ h,
  a ← h !! p; Some (a_entries a, h).
Definition set_entries (p : Z) (es : list posix_acl_entry) : prog acl_store unit := λ h,
  a ← h !! p; Some (tt, <[p := Acl (a_refcount a) es]> h).

(** The result, the new *acl and the new *mode_p. *)
Definition posix_acl_create (acl fresh : option Z) (mode : Z) : prog acl_store (Z * option Z * Z) :=
  clone ← posix_acl_clone acl fresh;
  r ← (match clone with
       | None => mret (- ENOMEM, None, mode)
       | Some q =>
           es ← get_entries q;
           let '(err, es, mode) := posix_acl_create_masq es mode in
           _ ← set_entries q es;
           if err <? 0 then _ ← posix_acl_release (Some q); mret (err, None, mode)
           else mret (err, Some q, mode)
       end);
  _ ← posix_acl_release acl;
  mret r.

Definition posix_acl_chmod (acl fresh : option Z) (mode : Z) : prog acl_store (Z * option Z) :=
  clone ← posix_acl_clone acl fresh;
  r ← (match clone with
       | None => mret (- ENOMEM, None)
       | Some q =>
           es ← get_entries q;
           let '(err, es) := posix_acl_chmod_masq es mode in
           _ ← set_entries q es;
           if negb (err =? 0) then _ ← posix_acl_release (Some q); mret (err, None)
           else mret (err, Some q)
       end);
  _ ← posix_acl_release acl;
  mret r.

(** ** The grammar of valid ACLs *)

(** The entries of an ACL in their order. *)
Record parts := Parts {
  uo : posix_acl_entry; us : list posix_acl_entry; go : posix_acl_entry;
  gs : list posix_acl_entry; mk : option posix_acl_entry; ot : posix_acl_entry
}.

Definition tail_of (p : parts) : list posix_acl_entry := option_list (mk p) ++ [ot p].
Definition build (p : parts) : list posix_acl_entry :=
  uo p :: us p ++ go p :: gs p ++ tail_of p.

Definition tagged (t : Z) (e : posix_acl_entry) : Prop := e_tag e = t ∧ 0 ≤ e_perm e < 8.

(** Valid ids, strictly ascending. *)
Definition ascending (l : list posix_acl_entry) : Prop :=
  Forall (λ e, id_valid (e_id e) = true) l ∧ Sorted Z.lt (map e_id l).

Definition wf (p : parts) : Prop :=
  tagged ACL_USER_OBJ (uo p) ∧ Forall (tagged ACL_USER) (us p) ∧ tagged ACL_GROUP_OBJ (go p) ∧
  Forall (tagged ACL_GROUP) (gs p) ∧ (∀ m, mk p = Some m → tagged ACL_MASK m) ∧
  tagged ACL_OTHER (ot p) ∧ ascending (us p) ∧ ascending (gs p) ∧
  (mk p = None → us p = [] ∧ gs p = []).

Lemma perm_bits x : (x .& Z.lnot 7 =? 0) = true ↔ 0 ≤ x < 8.
Proof.
  rewrite Z.eqb_eq. split.
  - intros H. assert (E : x = x .& Z.ones 3).
    { apply Z.bits_inj'. intros i Hi. apply (f_equal (λ z, Z.testbit z i)) in H. revert H.
      rewrite Z.land_spec, Z.lnot_spec, Z.bits_0, Z.land_spec by lia.
      change 7 with (Z.ones 3). destruct (Z.testbit x i), (Z.testbit (Z.ones 3) i); done. }
    rewrite E, Z.land_ones by lia. change (2 ^ 3) with 8. dlia.
  - intros H. assert (E : x = x .& Z.ones 3).
    { rewrite Z.land_ones by lia. rewrite Z.mod_small; lia. }
    rewrite E. apply Z.bits_inj'. intros i Hi.
    rewrite !Z.land_spec, Z.lnot_spec, Z.bits_0 by lia. change 7 with (Z.ones 3).
    destruct (Z.testbit x i), (Z.testbit (Z.ones 3) i); done.
Qed.

(** Ids ascending behind [prev], which counts when it is valid. *)
Fixpoint asc (prev : Z) (l : list posix_acl_entry) : Prop :=
  match l with
  | [] => True
  | e :: l => id_valid (e_id e) = true ∧ (id_valid prev && (e_id e <=? prev)) = false ∧ asc (e_id e) l
  end.

Lemma asc_valid l prev : id_valid prev = true →
  asc prev l ↔ Forall (λ e, id_valid (e_id e) = true) l ∧ Sorted Z.lt (prev :: map e_id l).
Proof.
  revert prev. induction l as [|e l IH]; intros prev Hp; simpl; [by split; [repeat constructor|]|].
  rewrite Hp. cbn [andb]. rewrite Z.leb_gt, Forall_cons. split.
  - intros (He & Hlt & Ha). apply (IH _ He) in Ha as [Hf Hs]. split; [done|].
    constructor; [done|]. by constructor.
  - intros ((He & Hf) & Hs). inversion Hs as [|? ? Hs' Hh]; subst. inversion Hh; subst.
    split; [done|]. split; [done|]. by apply IH.
Qed.

Lemma asc_ascending l : asc INVALID_UID l ↔ ascending l.
Proof.
  unfold ascending. destruct l as [|e l]; simpl; [by split; repeat constructor|].
  rewrite Forall_cons. split.
  - intros (He & _ & Ha). apply (asc_valid _ _ He) in Ha as [Hf Hs]. done.
  - intros ((He & Hf) & Hs). split; [done|]. split; [done|]. by apply asc_valid.
Qed.

(** ** posix_acl_valid decides the grammar *)

Notation ALL_TAGS e := (e_tag e = ACL_USER_OBJ ∨ e_tag e = ACL_USER ∨ e_tag e = ACL_GROUP_OBJ ∨
  e_tag e = ACL_GROUP ∨ e_tag e = ACL_MASK ∨ e_tag e = ACL_OTHER).

(** One step of the loop, for each tag. *)
Lemma valid_cons e l st u g n :
  valid_loop (e :: l) st u g n = 0 ↔ 0 ≤ e_perm e < 8 ∧
  (e_tag e = ACL_USER_OBJ ∧ st = ACL_USER_OBJ ∧ valid_loop l ACL_USER u g n = 0 ∨
   e_tag e = ACL_USER ∧ st = ACL_USER ∧ id_valid (e_id e) = true ∧
     id_valid u && (e_id e <=? u) = false ∧ valid_loop l st (e_id e) g true = 0 ∨
   e_tag e = ACL_GROUP_OBJ ∧ st = ACL_USER ∧ valid_loop l ACL_GROUP u g n = 0 ∨
   e_tag e = ACL_GROUP ∧ st = ACL_GROUP ∧ id_valid (e_id e) = true ∧
     id_valid g && (e_id e <=? g) = false ∧ valid_loop l st u (e_id e) true = 0 ∨
   e_tag e = ACL_MASK ∧ st = ACL_GROUP ∧ valid_loop l ACL_OTHER u g n = 0 ∨
   e_tag e = ACL_OTHER ∧ (st = ACL_OTHER ∨ st = ACL_GROUP ∧ n = false) ∧ valid_loop l 0 u g n = 0).
Proof.
  cbn [valid_loop]. destruct (e_perm e .& Z.lnot 7 =? 0) eqn:Ep; cbn [negb].
  2:{ split; [done|]. intros [H%perm_bits _]. congruence. }
  apply perm_bits in Ep.
  assert (D : ALL_TAGS e ∨ ¬ ALL_TAGS e) by (destruct (decide (ALL_TAGS e)); auto).
  destruct D as [[E|[E|[E|[E|[E|E]]]]]|D].
  1-6: rewrite E; cbn [Z.eqb Pos.eqb ACL_USER_OBJ ACL_USER ACL_GROUP_OBJ ACL_GROUP ACL_MASK ACL_OTHER];
    repeat match goal with
    | |- context [if negb ?b then _ else _] => destruct b eqn:?; cbn [negb]
    | |- context [if ?b then _ else _] => destruct b eqn:?
    end;
    repeat match goal with
    | H : (_ =? _) = true |- _ => apply Z.eqb_eq in H
    | H : (_ =? _) = false |- _ => apply Z.eqb_neq in H
    | H : _ || _ = true |- _ => apply orb_true_iff in H
    | H : _ || _ = false |- _ => apply orb_false_iff in H
    end.
  all: try (unfold ACL_USER_OBJ, ACL_USER, ACL_GROUP_OBJ, ACL_GROUP, ACL_MASK, ACL_OTHER in *;
    split; [intros; first [discriminate|tauto]|intros (_ & H); first [tauto|naive_solver]]).
  - split; [|intros (_ & H); naive_solver]. intros H. split; [done|]. do 5 right. split; [done|].
    split; [|done]. destruct Heqb as [H1%Z.eqb_eq|H1]; [by left|right].
    apply andb_true_iff in H1 as [H1%Z.eqb_eq H2]. by destruct n.
  - rewrite !(proj2 (Z.eqb_neq (e_tag e) _)) by tauto. split; [done|]. tauto.
Qed.

Section grammar.
Implicit Types (l : list posix_acl_entry) (e : posix_acl_entry).

Ltac tags := unfold ACL_USER_OBJ, ACL_USER, ACL_GROUP_OBJ, ACL_GROUP, ACL_MASK, ACL_OTHER in *.

Lemma valid_end l u g n : valid_loop l 0 u g n = 0 ↔ l = [].
Proof. destruct l as [|e l]; [done|]. rewrite valid_cons. tags. naive_solver lia. Qed.

Lemma valid_other l u g n : valid_loop l ACL_OTHER u g n = 0 ↔ ∃ e, l = [e] ∧ tagged ACL_OTHER e.
Proof.
  destruct l as [|e l]; [split; [done|]; by intros (? & ? & _)|]. rewrite valid_cons.
  setoid_rewrite valid_end. split.
  - intros (Hp & H). assert (e_tag e = ACL_OTHER ∧ l = []) as [Ht ->] by (tags; lia || naive_solver lia).
    by exists e.
  - intros (e' & [= -> ->] & Ht & Hp). split; [done|]. do 5 right. auto.
Qed.

Lemma valid_groups l : ∀ u g n, valid_loop l ACL_GROUP u g n = 0 ↔
  ∃ gs mk ot, l = gs ++ option_list mk ++ [ot] ∧ Forall (tagged ACL_GROUP) gs ∧ asc g gs ∧
    (∀ m, mk = Some m → tagged ACL_MASK m) ∧ tagged ACL_OTHER ot ∧ (mk = None → n = false ∧ gs = []).
Proof.
  induction l as [|e l IH]; intros u g n.
  { split; [done|]. intros (gs & mk & ot & H & _). by destruct gs, mk. }
  rewrite valid_cons. setoid_rewrite valid_end. setoid_rewrite valid_other. split.
  - intros (Hp & H).
    assert (C : (e_tag e = ACL_GROUP ∧ id_valid (e_id e) = true ∧
                 id_valid g && (e_id e <=? g) = false ∧ valid_loop l ACL_GROUP u (e_id e) true = 0) ∨
                (e_tag e = ACL_MASK ∧ ∃ o, l = [o] ∧ tagged ACL_OTHER o) ∨
                (e_tag e = ACL_OTHER ∧ n = false ∧ l = [])) by (tags; naive_solver lia).
    destruct C as [(Ht & Hv & Ha & Hl)|[(Ht & o & -> & Ho)|(Ht & -> & ->)]].
    + apply IH in Hl as (gs & mk & ot & -> & Hgs & Hasc & Hm & Ho & Hn).
      exists (e :: gs), mk, ot. split; [done|]. split; [by constructor|]. split; [done|].
      split; [done|]. split; [done|]. intros [? _]%Hn. done.
    + exists [], (Some e), o. split; [done|]. split; [done|]. split; [done|].
      split; [by intros ? [= <-]|]. done.
    + exists [], None, e. done.
  - intros (gs & mk & ot & E & Hgs & Hasc & Hm & Ho & Hn). destruct gs as [|e' gs].
    + destruct mk as [m|]; injection E as -> ->.
      * destruct (Hm m eq_refl) as [Ht Hp]. split; [done|]. do 4 right. left. eauto.
      * destruct Ho as [Ht Hp]. split; [done|]. do 5 right. destruct (Hn eq_refl) as [-> _]. auto.
    + injection E as -> ->. apply Forall_cons in Hgs as [[Ht Hp] Hgs]. destruct Hasc as (Hv & Ha & Hasc).
      split; [done|]. do 3 right. left. do 4 (split; [done|]). apply IH.
      exists gs, mk, ot. split; [done|]. split; [done|]. split; [done|]. split; [done|].
      split; [done|]. intros [_ ?]%Hn. done.
Qed.

Lemma valid_users l : ∀ u g n, valid_loop l ACL_USER u g n = 0 ↔
  ∃ us go rest u', l = us ++ go :: rest ∧ Forall (tagged ACL_USER) us ∧ asc u us ∧
    tagged ACL_GROUP_OBJ go ∧ valid_loop rest ACL_GROUP u' g (n || bool_decide (us ≠ [])) = 0.
Proof.
  induction l as [|e l IH]; intros u g n.
  { split; [done|]. intros (us & go & rest & u' & H & _). by destruct us. }
  rewrite valid_cons. split.
  - intros (Hp & H).
    assert (C : (e_tag e = ACL_USER ∧ id_valid (e_id e) = true ∧
                 id_valid u && (e_id e <=? u) = false ∧ valid_loop l ACL_USER (e_id e) g true = 0) ∨
                (e_tag e = ACL_GROUP_OBJ ∧ valid_loop l ACL_GROUP u g n = 0)).
    { clear IH. tags. naive_solver lia. }
    destruct C as [(Ht & Hv & Ha & Hl)|(Ht & Hl)].
    + apply IH in Hl as (us & go & rest & u' & -> & Hus & Hasc & Hgo & Hr).
      exists (e :: us), go, rest, u'. split; [done|]. split; [by constructor|]. split; [done|].
      split; [done|]. by rewrite orb_true_r.
    + exists [], e, l, u. rewrite orb_false_r. done.
  - intros (us & go & rest & u' & E & Hus & Hasc & [Ht Hp] & Hr). destruct us as [|e' us].
    + injection E as -> ->. split; [done|]. do 2 right. left. rewrite orb_false_r in Hr.
      split; [done|]. split; [done|]. apply valid_groups. by apply valid_groups in Hr.
    + injection E as -> ->. apply Forall_cons in Hus as [[Ht' Hp'] Hus]. destruct Hasc as (Hv & Ha & Hasc).
      split; [done|]. right. left. do 4 (split; [done|]). apply IH.
      exists us, go, rest, u'. split; [done|]. split; [done|]. split; [done|]. split; [done|].
      by rewrite orb_true_r in Hr.
Qed.

Lemma valid_ok l : posix_acl_valid l = 0 ↔ ∃ p, wf p ∧ l = build p.
Proof.
  unfold posix_acl_valid. destruct l as [|e l].
  { split; [done|]. by intros (p & _ & ?). }
  rewrite valid_cons. split.
  - intros (Hp & H).
    assert (C : e_tag e = ACL_USER_OBJ ∧ valid_loop l ACL_USER INVALID_UID INVALID_UID false = 0)
      by (tags; naive_solver lia).
    destruct C as [Ht Hl]. apply valid_users in Hl as (us & go & rest & u' & -> & Hus & Ha & Hgo & Hr).
    apply valid_groups in Hr as (gs & mk & ot & -> & Hgs & Hag & Hm & Ho & Hn).
    exists (Parts e us go gs mk ot). split; [|done]. unfold wf. simpl.
    rewrite <- !asc_ascending. do 8 (split; [done|]). intros [Hb Hg]%Hn. split; [|done].
    simpl in Hb. apply bool_decide_eq_false in Hb. destruct us; [done|]. by destruct Hb.
  - intros (p & (Hu & Hus & Hgo & Hgs & Hm & Ho & Ha & Hag & Hn) & E).
    injection E as -> ->. destruct Hu as [Ht Hp]. split; [done|]. left. split; [done|]. split; [done|].
    apply valid_users. exists (us p), (go p), (gs p ++ tail_of p), INVALID_UID.
    rewrite asc_ascending. split; [done|]. split; [done|]. split; [done|]. split; [done|].
    apply valid_groups. exists (gs p), (mk p), (ot p). rewrite asc_ascending.
    do 5 (split; [done|]). intros [Hu Hg]%Hn. rewrite Hu. done.
Qed.

Lemma valid_result l : posix_acl_valid l = 0 ∨ posix_acl_valid l = - EINVAL.
Proof.
  assert (H : ∀ l st u g n, valid_loop l st u g n = 0 ∨ valid_loop l st u g n = - EINVAL).
  { clear l. induction l as [|e l IH]; intros st u g n; cbn [valid_loop];
      repeat (case_match; auto). }
  apply H.
Qed.
End grammar.
