(* ===== verification/PosixAclThm.v ===== *)
(** * PosixAclThm: access decisions and mode bits of POSIX ACLs *)

From S2P Require Import Prelude Groups PosixAcl.
From Stdlib Require Import Sorting.Sorted.

(** ** Access *)

Lemma land_covers a m w : ((a .& m) .& w =? w) = ((a .& w =? w) && (m .& w =? w)).
Proof.
  apply eq_true_iff_eq. rewrite andb_true_iff, !Z.eqb_eq. split.
  - intros H. split; apply Z.bits_inj'; intros i Hi;
      apply (f_equal (λ z, Z.testbit z i)) in H; rewrite !Z.land_spec in *;
      destruct (Z.testbit a i), (Z.testbit m i), (Z.testbit w i); done.
  - intros [H1 H2]. rewrite <- Z.land_assoc, H2. done.
Qed.

Section access.
Context (i_uid i_gid cur_fsuid : Z) (in_group : Z → bool).

Notation perm_loop := (permission_loop i_uid i_gid cur_fsuid (λ g, Some (in_group g))).

(** The permissions of a named or group entry under the mask. *)
Definition masked (p : parts) (perm : Z) : Z :=
  match mk p with Some m => perm .& e_perm m | None => perm end.

(** The group entries that apply to the process. *)
Definition group_entries (p : parts) : list posix_acl_entry :=
  (if in_group i_gid then [go p] else []) ++ filter (λ e, in_group (e_id e)) (gs p).

(** The access check of POSIX 1003.1e: the owner's entry, else the named user's
    entry under the mask, else any of the matching group entries under the mask,
    else the entry of others. *)
Definition acl_access (p : parts) (want : Z) : Z :=
  if i_uid =? cur_fsuid then check_perm (e_perm (uo p)) want
  else match list_find (λ e, e_id e = cur_fsuid) (us p) with
       | Some (_, e) => check_perm (masked p (e_perm e)) want
       | None =>
           if bool_decide (group_entries p = []) then check_perm (e_perm (ot p)) want
           else if existsb (λ e, check_perm (masked p (e_perm e)) want =? 0) (group_entries p)
                then 0 else - EACCES
       end.

Lemma check_perm_zero a w : (check_perm a w =? 0) = (a .& w =? w).
Proof. unfold check_perm. by destruct (a .& w =? w). Qed.

Lemma mask_skip pa l rest w : Forall (λ e, e_tag e ≠ ACL_MASK) l →
  mask_label pa (l ++ rest) w = mask_label pa rest w.
Proof.
  induction 1 as [|e l He Hl IH]; [done|]. simpl. by rewrite (proj2 (Z.eqb_neq _ _) He).
Qed.

Lemma tagged_ne t t' l : t ≠ t' → Forall (tagged t) l → Forall (λ e, e_tag e ≠ t') l.
Proof. intros Hne Hl. eapply Forall_impl; [exact Hl|]. intros e [-> _]. done. Qed.

Lemma mask_tail p pa w : wf p → mask_label pa (tail_of p) w = check_perm (masked p (e_perm pa)) w.
Proof.
  intros (_ & _ & _ & _ & Hm & [Ho _] & _). unfold tail_of, masked.
  destruct (mk p) as [m|]; simpl.
  - destruct (Hm m eq_refl) as [-> _]. done.
  - by rewrite Ho.
Qed.

(** The rest of an ACL behind a named user or behind a group. *)
Lemma mask_users p pa l w : wf p → Forall (tagged ACL_USER) l →
  mask_label pa (l ++ go p :: gs p ++ tail_of p) w = check_perm (masked p (e_perm pa)) w.
Proof.
  intros Hp Hl. rewrite mask_skip by (by apply (tagged_ne ACL_USER)). simpl.
  destruct (Hp) as (_ & _ & [-> _] & Hgs & _). simpl.
  rewrite mask_skip by (by apply (tagged_ne ACL_GROUP)). by apply mask_tail.
Qed.
Lemma mask_groups p pa l w : wf p → Forall (tagged ACL_GROUP) l →
  mask_label pa (l ++ tail_of p) w = check_perm (masked p (e_perm pa)) w.
Proof. intros Hp Hl. rewrite mask_skip by (by apply (tagged_ne ACL_GROUP)). by apply mask_tail. Qed.

Lemma loop_users p w : wf p → ∀ l, Forall (tagged ACL_USER) l →
  perm_loop (l ++ go p :: gs p ++ tail_of p) w false =
  match list_find (λ e, e_id e = cur_fsuid) l with
  | Some (_, e) => Some (check_perm (masked p (e_perm e)) w)
  | None => perm_loop (go p :: gs p ++ tail_of p) w false
  end.
Proof.
  intros Hp. induction 1 as [|e l [He _] Hl IH]; [done|]. cbn [app permission_loop list_find].
  rewrite He. cbn [Z.eqb Pos.eqb ACL_USER ACL_USER_OBJ].
  destruct (Z.eqb_spec (e_id e) cur_fsuid).
  - rewrite decide_True by done. by rewrite mask_users.
  - rewrite decide_False by done. rewrite IH. by destruct (list_find _ l) as [[]|].
Qed.

Lemma loop_tail p w found : wf p →
  perm_loop (tail_of p) w found = Some (if found then - EACCES else check_perm (e_perm (ot p)) w).
Proof.
  intros (_ & _ & _ & _ & Hm & [Ho _] & _). unfold tail_of.
  destruct (mk p) as [m|]; simpl.
  - destruct (Hm m eq_refl) as [-> _]. simpl. rewrite Ho. by destruct found.
  - rewrite Ho. by destruct found.
Qed.

(** The loop over group entries: the first that grants [w] decides. *)
Lemma loop_groups p w : wf p → ∀ l found, Forall (tagged ACL_GROUP) l →
  perm_loop (l ++ tail_of p) w found =
  Some (if existsb (λ e, e_perm e .& w =? w) (filter (λ e, in_group (e_id e)) l)
        then check_perm (masked p w) w
        else if found || negb (bool_decide (filter (λ e, in_group (e_id e)) l = []))
             then - EACCES else check_perm (e_perm (ot p)) w).
Proof.
  intros Hp. induction l as [|e l IH]; intros found Hl.
  { simpl. rewrite loop_tail by done. by rewrite orb_false_r. }
  apply Forall_cons in Hl as [[He _] Hl]. cbn [app permission_loop].
  rewrite He. cbn [Z.eqb Pos.eqb ACL_USER ACL_USER_OBJ ACL_GROUP_OBJ ACL_GROUP].
  cbn [mbind option_bind]. rewrite filter_cons. destruct (in_group (e_id e)) eqn:Eg.
  - rewrite decide_True by done. cbn [existsb]. destruct (e_perm e .& w =? w) eqn:Ew.
    + cbn [orb]. rewrite mask_groups by done. f_equal. unfold check_perm, masked. destruct (mk p) as [m|].
      * rewrite land_covers, Ew. cbn [andb].
        rewrite (Z.land_comm w). by rewrite <- Z.land_assoc, Z.land_diag.
      * by rewrite Ew, Z.land_diag, Z.eqb_refl.
    + cbn [orb]. rewrite IH by done. rewrite (bool_decide_false (_ :: _ = [])) by done. by rewrite orb_true_r.
  - rewrite decide_False by (by intros []). by apply IH.
Qed.

Lemma permission_ok p want : wf p →
  posix_acl_permission i_uid i_gid cur_fsuid (λ g, Some (in_group g)) (build p) want
  = Some (acl_access p (want .& 0x87)).
Proof.
  intros Hp. unfold posix_acl_permission.
  change (MAY_READ .| MAY_WRITE .| MAY_EXEC .| MAY_NOT_BLOCK) with 0x87.
  set (w := want .& 0x87). destruct (Hp) as ([Ht _] & Hus & [Hg _] & Hgs & _).
  unfold build, acl_access. cbn [permission_loop]. rewrite Ht. cbn [Z.eqb Pos.eqb ACL_USER_OBJ].
  destruct (i_uid =? cur_fsuid); [done|]. rewrite loop_users by done.
  destruct (list_find _ (us p)) as [[k e]|]; [done|]. cbn [permission_loop].
  rewrite Hg. cbn [Z.eqb Pos.eqb ACL_USER ACL_USER_OBJ ACL_GROUP_OBJ mbind option_bind].
  unfold group_entries. set (F := filter _ (gs p)).
  assert (Hex : ∀ l, existsb (λ e, check_perm (masked p (e_perm e)) w =? 0) l =
    existsb (λ e, e_perm e .& w =? w) l && (check_perm (masked p w) w =? 0)).
  { induction l as [|e l IH]; [done|]. cbn [existsb]. rewrite IH, !check_perm_zero.
    unfold masked. destruct (mk p) as [m|].
    - rewrite !land_covers, Z.land_diag, Z.eqb_refl. cbn [andb].
      by rewrite andb_orb_distrib_l.
    - rewrite Z.land_diag, Z.eqb_refl, !andb_true_r. done. }
  rewrite Hex. clear Hex. assert (Hc : ∀ a, check_perm a w = if check_perm a w =? 0 then 0 else - EACCES).
  { intros a. unfold check_perm. by destruct (_ =? w). }
  destruct (in_group i_gid) eqn:Eg; cbn [app existsb].
  - rewrite (bool_decide_false (_ :: _ = [])) by done.
    destruct (e_perm (go p) .& w =? w) eqn:Ew; cbn [orb andb].
    + rewrite mask_groups by done. f_equal. rewrite Hc, check_perm_zero at 1.
      rewrite check_perm_zero. unfold masked. destruct (mk p) as [m|].
      * by rewrite !land_covers, Ew, Z.land_diag, Z.eqb_refl.
      * by rewrite Ew, Z.land_diag, Z.eqb_refl.
    + rewrite loop_groups by done. fold F. f_equal. destruct (existsb _ F); [|done]. cbn [andb]. apply Hc.
  - rewrite loop_groups by done. fold F. f_equal. destruct (existsb _ F) eqn:EF; cbn [andb orb].
    + rewrite bool_decide_false; [apply Hc|]. intros ->. done.
    + by destruct (bool_decide (F = [])).
Qed.
End access.

(** Where in_group_p answers, the loop does not fault. *)
Lemma permission_loop_ext i_uid i_gid u (f g : Z → option bool) acl want found : (∀ x, f x = g x) →
  permission_loop i_uid i_gid u f acl want found = permission_loop i_uid i_gid u g acl want found.
Proof.
  intros E. revert found. induction acl as [|pa acl IH]; intros found; [done|]. cbn [permission_loop].
  rewrite !E, !IH. destruct (g i_gid) as [[]|]; cbn [mbind option_bind]; rewrite ?IH;
    destruct (g (e_id pa)) as [[]|]; cbn [mbind option_bind]; rewrite ?IH; done.
Qed.

(** The groups of a process with the group list [l]. *)
Definition member (c : cred) (l : list Z) (g : Z) : bool := bool_decide (g = fsgid c ∨ g ∈ l).

Lemma current_in_group_ok h c l g : group_at h (cred_groups c) l →
  current_in_group h c g = Some (member c l g).
Proof.
  intros H. unfold current_in_group, member. rewrite (in_group_ok h c l g H).
  by destruct (bool_decide _).
Qed.

(** ** Mode bits *)

Lemma testbit_u16 x i : Z.testbit (u16 x) i = (i <? 16) && Z.testbit x i.
Proof. by apply testbit_wrap. Qed.

Lemma testbit_out w x j : 0 ≤ x < 2 ^ w → w ≤ j ∨ j < 0 → Z.testbit x j = false.
Proof. intros Hx [Hj|Hj]; [by apply (testbit_high w)|]. by apply Z.testbit_neg_r. Qed.

(** A number below 2^w, bit by bit. *)
Lemma upto16 (P : Z → Prop) i : 0 ≤ i < 16 →
  P 0 → P 1 → P 2 → P 3 → P 4 → P 5 → P 6 → P 7 → P 8 → P 9 → P 10 → P 11 → P 12 → P 13 → P 14 →
  P 15 → P i.
Proof.
  intros Hi. intros. assert (i = 0 ∨ i = 1 ∨ i = 2 ∨ i = 3 ∨ i = 4 ∨ i = 5 ∨ i = 6 ∨ i = 7 ∨ i = 8 ∨
    i = 9 ∨ i = 10 ∨ i = 11 ∨ i = 12 ∨ i = 13 ∨ i = 14 ∨ i = 15) as Hc by lia.
  repeat (destruct Hc as [->|Hc]; [done|]). by subst i.
Qed.

Ltac mode_bits :=
  let i := fresh "i" in
  apply Z.bits_inj'; intros i ?Hi;
  repeat match goal with H : 0 ≤ ?x < 8 |- _ =>
    lazymatch goal with
    | _ : ∀ j, 3 ≤ j ∨ j < 0 → Z.testbit x j = false |- _ => fail
    | |- _ => pose proof (λ j, testbit_out 3 x j H)
    end end;
  repeat match goal with H : 0 ≤ ?x < 2 ^ 16 |- _ =>
    lazymatch goal with
    | _ : ∀ j, 16 ≤ j ∨ j < 0 → Z.testbit x j = false |- _ => fail
    | |- _ => pose proof (λ j, testbit_out 16 x j H)
    end end;
  unfold S_IRWXUGO, S_IRWXU, S_IRWXG, S_IRWXO in *;
  rewrite ?testbit_u16; repeat (rewrite ?Z.land_spec, ?Z.lor_spec, ?testbit_lnot,
    ?testbit_shiftl, ?testbit_shiftr, ?testbit_u16);
  repeat match goal with H : ∀ j, _ → Z.testbit ?x j = false |- _ =>
    revert H; generalize (Z.testbit x); intros ?f H end;
  destruct (decide (i < 16));
  [ pattern i; apply upto16; [lia|..]; vm_compute;
    repeat match goal with H : ∀ j, _ ≤ j ∨ j < 0 → _ |- _ => rewrite ?H by lia; revert H end; intros;
    repeat match goal with |- context [?f ?k] => is_var f; destruct (f k) end; done
  | rewrite ?(proj2 (Z.ltb_ge i 16)) by lia; cbn [andb];
    repeat match goal with H : ∀ j, _ ≤ j ∨ j < 0 → _ |- _ => rewrite ?H by lia; revert H end; intros;
    rewrite ?andb_false_r; done ].

(** The permission bits of a mode, by class. *)
Definition mode_of (u g o : Z) : Z := Z.shiftl u 6 .| Z.shiftl g 3 .| o.


(** The permissions of the group class: the mask, or the group without one. *)
Definition class_perm (p : parts) : Z :=
  match mk p with Some m => e_perm m | None => e_perm (go p) end.
Definition acl_mode (p : parts) : Z := mode_of (e_perm (uo p)) (class_perm p) (e_perm (ot p)).

(** Replace the permissions of the three classes. *)
Definition update (p : parts) (u g o : Z) : parts :=
  Parts (set_perm u (uo p)) (us p)
        (match mk p with Some _ => go p | None => set_perm g (go p) end) (gs p)
        (set_perm g <$> mk p) (set_perm o (ot p)).

Lemma class_range p : wf p → 0 ≤ class_perm p < 8.
Proof.
  intros (_ & _ & [_ Hg] & _ & Hm & _). unfold class_perm. destruct (mk p) as [m|]; [|done].
  by destruct (Hm m eq_refl).
Qed.

Lemma wf_update p u g o : wf p → 0 ≤ u < 8 → 0 ≤ g < 8 → 0 ≤ o < 8 → wf (update p u g o).
Proof.
  intros (Hu & Hus & Hgo & Hgs & Hm & Ho & Ha & Hag & Hn) H1 H2 H3. unfold wf, update, tagged in *. simpl.
  split; [tauto|]. split; [done|]. split; [destruct (mk p); simpl; tauto|]. split; [done|].
  split; [destruct (mk p) as [m|]; [intros m' [= <-]; simpl; split; [apply Hm|]; done|done]|].
  split; [tauto|]. split; [done|]. split; [done|]. destruct (mk p); [done|]. by intros _; apply Hn.
Qed.

Lemma update_class p u g o : class_perm (update p u g o) = g.
Proof. unfold class_perm, update. simpl. by destruct (mk p). Qed.

Lemma acl_mode_update p u g o : acl_mode (update p u g o) = mode_of u g o.
Proof. unfold acl_mode. by rewrite update_class. Qed.

(** Entries of named users and groups. *)
Definition named (e : posix_acl_entry) : Prop := e_tag e = ACL_USER ∨ e_tag e = ACL_GROUP.

Lemma tagged_named t l : t = ACL_USER ∨ t = ACL_GROUP → Forall (tagged t) l → Forall named l.
Proof. intros Ht Hl. eapply Forall_impl; [exact Hl|]. intros e [He _]. unfold named. by rewrite He. Qed.

Lemma equiv_named l rest mode ne : Forall named l →
  equiv_loop (l ++ rest) mode ne = equiv_loop rest mode (if bool_decide (l = []) then ne else 1).
Proof.
  intros Hl. revert ne. induction Hl as [|e l He Hl IH]; intros ne; [done|].
  cbn [app equiv_loop]. destruct He as [He|He]; rewrite He; cbn [Z.eqb Pos.eqb orb
    ACL_USER ACL_USER_OBJ ACL_GROUP_OBJ ACL_GROUP ACL_MASK ACL_OTHER];
    rewrite IH; by destruct (bool_decide (l = [])).
Qed.

Ltac tag_step :=
  cbn [Z.eqb Pos.eqb orb ACL_USER ACL_USER_OBJ ACL_GROUP_OBJ ACL_GROUP ACL_MASK ACL_OTHER].

Lemma equiv_ok p m : wf p → 0 ≤ m < 2 ^ 16 →
  posix_acl_equiv_mode (Some (build p)) m =
  (if mk p then 1 else 0, (m .& Z.lnot S_IRWXUGO) .| acl_mode p).
Proof.
  intros Hp Hm. pose proof (class_range p Hp) as Hc.
  destruct (Hp) as ([Hu Hu8] & Hus & [Hg Hg8] & Hgs & Hmk & [Ho Ho8] & _ & _ & Hn).
  unfold posix_acl_equiv_mode, build. cbn [equiv_loop]. rewrite Hu. tag_step.
  rewrite equiv_named by (eapply tagged_named; [by left|done]). cbn [equiv_loop]. rewrite Hg. tag_step.
  rewrite equiv_named by (eapply tagged_named; [by right|done]).
  unfold tail_of, acl_mode, class_perm, mode_of in *. destruct (mk p) as [k|].
  - destruct (Hmk k eq_refl) as [Hk _]. change (option_list (Some k) ++ [ot p]) with [k; ot p].
    cbn [equiv_loop]. rewrite Hk. tag_step.
    cbn [equiv_loop]. rewrite Ho. tag_step. f_equal. mode_bits.
  - destruct (Hn eq_refl) as [-> ->]. change (option_list None ++ [ot p]) with [ot p].
    cbn [equiv_loop]. rewrite Ho. tag_step.
    rewrite !bool_decide_true by done. f_equal. mode_bits.
Qed.

(** ** Creating and changing ACLs *)

Lemma create_named l rest : Forall named l → ∀ seen mode g k ne,
  create_loop (l ++ rest) seen mode g k ne =
  create_loop rest (reverse l ++ seen) mode g k (if bool_decide (l = []) then ne else 1).
Proof.
  induction 1 as [|e l He Hl IH]; intros seen mode g k ne; [done|].
  cbn [app create_loop]. rewrite reverse_cons, <- app_assoc.
  destruct He as [He|He]; rewrite He; tag_step; rewrite IH; by destruct (bool_decide (l = [])).
Qed.

Lemma chmod_named l rest : Forall named l → ∀ seen mode g k,
  chmod_loop (l ++ rest) seen mode g k = chmod_loop rest (reverse l ++ seen) mode g k.
Proof.
  induction 1 as [|e l He Hl IH]; intros seen mode g k; [done|].
  cbn [app chmod_loop]. rewrite reverse_cons, <- app_assoc.
  destruct He as [He|He]; rewrite He; tag_step; apply IH.
Qed.

(** The entries in the order they were seen. *)
Lemma seen_all (a : posix_acl_entry) l b k t :
  reverse (t ++ reverse k ++ b :: reverse l ++ [a]) = a :: l ++ b :: k ++ reverse t.
Proof. rewrite !reverse_app, reverse_cons, !reverse_app, !reverse_involutive. simpl. by rewrite <- !app_assoc. Qed.

Lemma seen_two (a : posix_acl_entry) l b k x y :
  reverse (x :: y :: reverse k ++ b :: reverse l ++ [a]) = a :: l ++ b :: k ++ [y; x].
Proof. exact (seen_all a l b k [x; y]). Qed.

Lemma at_mask (a : posix_acl_entry) l b k m t m' :
  (a :: l ++ b :: k ++ m :: t) !! length (reverse k ++ b :: reverse l ++ [a]) = Some m ∧
  <[length (reverse k ++ b :: reverse l ++ [a]) := m']> (a :: l ++ b :: k ++ m :: t)
  = a :: l ++ b :: k ++ m' :: t.
Proof.
  replace (length (reverse k ++ b :: reverse l ++ [a])) with (length (a :: l ++ b :: k))
    by (rewrite !length_app; simpl; rewrite !length_app, !length_reverse; simpl; lia).
  replace (a :: l ++ b :: k ++ m :: t) with ((a :: l ++ b :: k) ++ m :: t)
    by (simpl; by rewrite <- app_assoc). rewrite insert_middle.
  split; [by rewrite list_lookup_middle|]. simpl. by rewrite <- app_assoc.
Qed.

Lemma create_ok p m : wf p → 0 ≤ m < 2 ^ 16 →
  let p' := update p (e_perm (uo p) .& (m >>u 6)) (class_perm p .& (m >>u 3)) (e_perm (ot p) .& m) in
  posix_acl_create_masq (build p) m =
  (if mk p then 1 else 0, build p', (m .& Z.lnot S_IRWXUGO) .| acl_mode p').
Proof.
  intros Hp Hm p'. pose proof (class_range p Hp) as Hc.
  destruct (Hp) as ([Hu Hu8] & Hus & [Hg Hg8] & Hgs & Hmk & [Ho Ho8] & _ & _ & Hn).
  unfold posix_acl_create_masq, build. cbn [create_loop]. rewrite Hu. tag_step.
  rewrite create_named by (eapply tagged_named; [by left|done]). cbn [create_loop]. rewrite Hg. tag_step.
  rewrite create_named by (eapply tagged_named; [by right|done]).
  assert (Eu : u16 (e_perm (uo p) .& ((m >>u 6) .| Z.lnot S_IRWXO)) = e_perm (uo p) .& (m >>u 6))
    by mode_bits.
  rewrite !Eu. set (m1 := u16 (m .& _)).
  assert (Eo : u16 (e_perm (ot p) .& (m1 .| Z.lnot S_IRWXO)) = e_perm (ot p) .& m)
    by (unfold m1; mode_bits).
  unfold acl_mode, p', update, mode_of in *. unfold class_perm, tail_of in *. destruct (mk p) as [k|]; cbn [from_option].
  - change (option_list (Some k) ++ [ot p]) with [k; ot p]. destruct (Hmk k eq_refl) as [Hk Hk8].
    cbn [create_loop]. rewrite Hk. tag_step. cbn [create_loop]. rewrite Ho. tag_step.
    rewrite !Eo. set (m2 := u16 (m1 .& _)).
    assert (Ek : u16 (e_perm k .& ((m2 >>u 3) .| Z.lnot S_IRWXO)) = e_perm k .& (m >>u 3))
      by (unfold m2, m1; mode_bits).
    rewrite seen_two, (proj1 (at_mask _ _ _ _ _ _ k)).
    rewrite (proj2 (at_mask _ _ _ _ _ _ _)), Ek. f_equal. simpl. unfold m2, m1. mode_bits.
  - change (option_list None ++ [ot p]) with [ot p]. destruct (Hn eq_refl) as [-> ->].
    cbn [create_loop]. rewrite Ho. tag_step. rewrite !Eo. set (m2 := u16 (m1 .& _)).
    assert (Ek : u16 (e_perm (go p) .& ((m2 >>u 3) .| Z.lnot S_IRWXO)) = e_perm (go p) .& (m >>u 3))
      by (unfold m2, m1; mode_bits).
    cbn. rewrite Ek. f_equal. simpl. unfold m2, m1. mode_bits.
Qed.

Lemma chmod_ok p m : wf p →
  posix_acl_chmod_masq (build p) m =
  (0, build (update p ((m .& S_IRWXU) >>u 6) ((m .& S_IRWXG) >>u 3) (m .& S_IRWXO))).
Proof.
  intros ([Hu Hu8] & Hus & [Hg Hg8] & Hgs & Hmk & [Ho Ho8] & _ & _ & Hn).
  unfold posix_acl_chmod_masq, build. cbn [chmod_loop]. rewrite Hu. tag_step.
  rewrite chmod_named by (eapply tagged_named; [by left|done]). cbn [chmod_loop]. rewrite Hg. tag_step.
  rewrite chmod_named by (eapply tagged_named; [by right|done]).
  unfold tail_of, update. destruct (mk p) as [k|].
  - change (option_list (Some k) ++ [ot p]) with [k; ot p]. destruct (Hmk k eq_refl) as [Hk Hk8].
    cbn [chmod_loop]. rewrite Hk. tag_step. cbn [chmod_loop]. rewrite Ho. tag_step.
    rewrite seen_two, (proj1 (at_mask _ _ _ _ _ _ k)).
    by rewrite (proj2 (at_mask _ _ _ _ _ _ _)).
  - change (option_list None ++ [ot p]) with [ot p]. destruct (Hn eq_refl) as [-> ->].
    cbn [chmod_loop]. rewrite Ho. tag_step. done.
Qed.

Lemma land8 x y : 0 ≤ x < 8 → 0 ≤ x .& y < 8.
Proof.
  intros Hx. apply (bits_bound 3); [lia|]. intros i Hi. rewrite Z.land_spec.
  by rewrite (testbit_high 3) by (done || lia).
Qed.

Lemma class_bits m : 0 ≤ (m .& S_IRWXU) >>u 6 < 8 ∧ 0 ≤ (m .& S_IRWXG) >>u 3 < 8 ∧ 0 ≤ m .& S_IRWXO < 8.
Proof.
  split; [|split]; apply (bits_bound 3); try lia; intros i Hi;
    rewrite ?testbit_shiftr, Z.land_spec.
  - rewrite (testbit_high 9 S_IRWXU), !andb_false_r by (unfold S_IRWXU; lia). done.
  - rewrite (testbit_high 6 S_IRWXG), !andb_false_r by (unfold S_IRWXG; lia). done.
  - rewrite (testbit_high 3 S_IRWXO), !andb_false_r by (unfold S_IRWXO; lia). done.
Qed.

(** ** Reference-counted ACLs *)

(** The store after a reference to [p] was given up. *)
Definition released (p : Z) (a : posix_acl) (h : acl_store) : acl_store :=
  if a_refcount a =? 1 then delete p h else <[p := Acl (a_refcount a - 1) (a_entries a)]> h.

Lemma release_ok h p a : h !! p = Some a → 0 < a_refcount a < 2 ^ 31 →
  posix_acl_release (Some p) h = Some (tt, released p a h).
Proof.
  intros Hp Ha. unfold posix_acl_release, released. rewrite Hp. cbn [mbind option_bind].
  rewrite s32_small by lia. destruct (Z.eqb_spec (a_refcount a) 1) as [E|E].
  - by rewrite E.
  - by rewrite (proj2 (Z.eqb_neq _ _)) by lia.
Qed.

Lemma create_store h p q a m es' m' err : h !! p = Some a → p ≠ q → 0 < a_refcount a < 2 ^ 31 →
  posix_acl_create_masq (a_entries a) m = (err, es', m') → 0 ≤ err →
  posix_acl_create (Some p) (Some q) m h =
  Some ((err, Some q, m'), released p a (<[q := Acl 1 es']> h)).
Proof.
  intros Hp Hne Ha E Herr. unfold posix_acl_create, mbind, prog_bind, posix_acl_clone.
  rewrite Hp. cbn [mbind option_bind]. unfold get_entries. rewrite lookup_insert_eq.
  cbn [mbind option_bind a_entries]. rewrite E. unfold set_entries. rewrite lookup_insert_eq.
  cbn [mbind option_bind a_refcount]. rewrite insert_insert_eq, (proj2 (Z.ltb_ge _ _)) by done.
  cbn [mret prog_ret]. rewrite (release_ok _ p a); [done| |done]. by rewrite lookup_insert_ne.
Qed.

Lemma chmod_store h p q a m es' : h !! p = Some a → p ≠ q → 0 < a_refcount a < 2 ^ 31 →
  posix_acl_chmod_masq (a_entries a) m = (0, es') →
  posix_acl_chmod (Some p) (Some q) m h =
  Some ((0, Some q), released p a (<[q := Acl 1 es']> h)).
Proof.
  intros Hp Hne Ha E. unfold posix_acl_chmod, mbind, prog_bind, posix_acl_clone.
  rewrite Hp. cbn [mbind option_bind]. unfold get_entries. rewrite lookup_insert_eq.
  cbn [mbind option_bind a_entries]. rewrite E. unfold set_entries. rewrite lookup_insert_eq.
  cbn [mbind option_bind a_refcount]. rewrite insert_insert_eq. cbn [Z.eqb negb mret prog_ret].
  rewrite (release_ok _ p a); [done| |done]. by rewrite lookup_insert_ne.
Qed.

Lemma create_nomem h p a m : h !! p = Some a → 0 < a_refcount a < 2 ^ 31 →
  posix_acl_create (Some p) None m h = Some ((- ENOMEM, None, m), released p a h) ∧
  posix_acl_chmod (Some p) None m h = Some ((- ENOMEM, None), released p a h).
Proof.
  intros Hp Ha. unfold posix_acl_create, posix_acl_chmod, mbind, prog_bind, posix_acl_clone.
  rewrite Hp. cbn [mbind option_bind mret prog_ret]. by rewrite (release_ok _ p a).
Qed.

(** ** Properties *)

(** Posix_acl_valid decides the grammar of ACLs.  It returns 0 exactly for the owner's
    entry, named users with valid, strictly ascending uids, the group's entry, named groups
    with valid, strictly ascending gids, a mask (required when there are named entries) and
    the entry of others, in this order and with no other permission bits than rwx; it
    returns -EINVAL for everything else. *)
Lemma posix_acl_valid_correct acl :
  (posix_acl_valid acl = 0 ↔ ∃ p, wf p ∧ acl = build p) ∧
  (posix_acl_valid acl = 0 ∨ posix_acl_valid acl = - EINVAL).
Proof. split; [apply valid_ok|apply valid_result]. Qed.

(** C30: posix_acl_permission is the access check of POSIX 1003.1e.  On every valid ACL it
    decides by the owner's entry, else by the named user's entry under the mask, else by
    whether any matching group entry grants the access under the mask, else by the entry of
    others; it never reports a corrupt ACL.  The group memberships are those of in_group_p,
    that is the fsgid and the sorted group list of the process, and the check never faults. *)
Theorem posix_acl_permission_correct acl i_uid i_gid h c l want :
  posix_acl_valid acl = 0 → group_at h (cred_groups c) l →
  ∃ p, wf p ∧ acl = build p ∧
    posix_acl_permission i_uid i_gid (fsuid c) (current_in_group h c) acl want
    = Some (acl_access i_uid i_gid (fsuid c) (member c l) p (want .& 0x87)).
Proof.
  intros (p & Hp & ->)%valid_ok Hl. exists p. split; [done|]. split; [done|].
  rewrite <-permission_ok by done. apply permission_loop_ext. intros g. by apply current_in_group_ok.
Qed.

(** A named user whose write permission the mask removes. *)
Definition demo_acl : list posix_acl_entry :=
  [Ent ACL_USER_OBJ 7 0; Ent ACL_USER 6 1000; Ent ACL_GROUP_OBJ 5 0; Ent ACL_MASK 4 0; Ent ACL_OTHER 0 0].

Definition demo_cred : cred := Cred 1000 9 1000 9 1000 9 1000 9 1.
Definition demo_groups : gstore := {[1 := GInfo 1 0 1 [replicate 32 0]]}.

Lemma demo_groups_at : group_at demo_groups 1 [].
Proof.
  eexists. split; [reflexivity|]. split_and!.
  - split; [right; by exists (replicate 32 0)|]. split; [done|by exists (replicate 32 0)].
  - intros i j x y Hij Hx. by apply rd_Some in Hx; cbn in Hx; lia.
  - cbn. unfold NGROUPS_MAX. lia.
Qed.

Example posix_acl_permission_correct_witness :
  (∃ p, wf p ∧ demo_acl = build p ∧
    posix_acl_permission 0 0 1000 (current_in_group demo_groups demo_cred) demo_acl MAY_WRITE
    = Some (acl_access 0 0 1000 (member demo_cred []) p (MAY_WRITE .& 0x87))) ∧
  posix_acl_permission 0 0 1000 (current_in_group demo_groups demo_cred) demo_acl MAY_WRITE = Some (- EACCES) ∧
  posix_acl_permission 0 0 1000 (current_in_group demo_groups demo_cred) demo_acl MAY_READ = Some 0.
Proof.
  split; [|done]. apply (posix_acl_permission_correct demo_acl 0 0 demo_groups demo_cred [] MAY_WRITE).
  - done.
  - apply demo_groups_at.
Defined.

(** C40: ACLs and mode bits stay consistent.  For a valid ACL and a 16-bit mode:
    posix_acl_equiv_mode reports the owner's, the group class's (mask or group) and the
    others' permissions and returns 0 exactly when there is no mask; posix_acl_create_masq
    intersects them with the mode, leaves a valid ACL with the named entries unchanged, and
    writes back the mode the new ACL denotes; posix_acl_chmod_masq replaces them by the
    mode's, so that the new ACL denotes exactly the mode; posix_acl_from_mode makes a valid
    ACL that denotes the mode it was made from, or returns -ENOMEM without memory. *)
Theorem posix_acl_mode_consistent acl m : posix_acl_valid acl = 0 → 0 ≤ m < 2 ^ 16 →
  ∃ p, wf p ∧ acl = build p ∧
    posix_acl_equiv_mode (Some acl) m =
      (if mk p then 1 else 0, (m .& Z.lnot S_IRWXUGO) .| acl_mode p) ∧
    (let p' := update p (e_perm (uo p) .& (m >>u 6)) (class_perm p .& (m >>u 3)) (e_perm (ot p) .& m) in
     let m' := (m .& Z.lnot S_IRWXUGO) .| acl_mode p' in
     posix_acl_create_masq acl m = (if mk p then 1 else 0, build p', m') ∧
     posix_acl_valid (build p') = 0 ∧
     posix_acl_equiv_mode (Some (build p')) m = (if mk p then 1 else 0, m')) ∧
    (∃ p', posix_acl_chmod_masq acl m = (0, build p') ∧ posix_acl_valid (build p') = 0 ∧
       us p' = us p ∧ gs p' = gs p ∧
       posix_acl_equiv_mode (Some (build p')) m = (if mk p then 1 else 0, m)) ∧
    (∀ alloc i0 i1 i2 m0, 0 ≤ m0 < 2 ^ 16 →
       match posix_acl_from_mode m alloc i0 i1 i2 with
       | inl err => alloc = false ∧ err = - ENOMEM
       | inr made => alloc = true ∧ posix_acl_valid made = 0 ∧
           posix_acl_equiv_mode (Some made) m0 = (0, (m0 .& Z.lnot S_IRWXUGO) .| (m .& S_IRWXUGO))
       end).
Proof.
  intros (p & Hp & ->)%valid_ok Hm. exists p. split; [done|]. split; [done|].
  pose proof Hp as ([_ Hu8] & _ & _ & _ & _ & [_ Ho8] & _). pose proof (class_range p Hp) as Hc8.
  destruct (class_bits m) as (Hmu & Hmg & Hmo).
  split; [by apply equiv_ok|]. split; [|split].
  - intros p' m'. assert (Hp' : wf p') by (apply wf_update; [done|by apply land8..]).
    split; [by apply create_ok|]. split; [apply valid_ok; by exists p'|].
    rewrite equiv_ok by done. unfold m', p', update. simpl. by destruct (mk p).
  - set (p' := update p ((m .& S_IRWXU) >>u 6) ((m .& S_IRWXG) >>u 3) (m .& S_IRWXO)).
    assert (Hp' : wf p') by by apply wf_update. exists p'.
    split; [by apply chmod_ok|]. split; [apply valid_ok; by exists p'|]. split; [done|]. split; [done|].
    rewrite equiv_ok by done. unfold p'. rewrite acl_mode_update. simpl.
    f_equal; [by destruct (mk p)|]. unfold mode_of. mode_bits.
  - intros [] i0 i1 i2 m0 Hm0; [|done].
    set (q := Parts (Ent ACL_USER_OBJ ((m .& S_IRWXU) >>u 6) i0) [] (Ent ACL_GROUP_OBJ ((m .& S_IRWXG) >>u 3) i1)
                [] None (Ent ACL_OTHER (m .& S_IRWXO) i2)).
    assert (Hq : wf q) by (unfold wf, tagged, ascending; simpl; repeat split; done || constructor || lia).
    change (posix_acl_from_mode m true i0 i1 i2) with (@inr Z _ (build q)). cbv iota beta.
    split; [done|]. split; [apply valid_ok; by exists q|]. rewrite equiv_ok by done.
    unfold acl_mode, mode_of, class_perm, q. simpl. f_equal. mode_bits.
Qed.

Example posix_acl_mode_consistent_witness :
  posix_acl_valid demo_acl = 0 ∧
  ∃ p, wf p ∧ demo_acl = build p ∧
    posix_acl_equiv_mode (Some demo_acl) 0 = (if mk p then 1 else 0, (0 .& Z.lnot S_IRWXUGO) .| acl_mode p).
Proof.
  split; [done|]. destruct (posix_acl_mode_consistent demo_acl 0) as (p & Hp & E & He & _); [done|lia|].
  exists p. done.
Defined.

(** Posix_acl_create and posix_acl_chmod on reference-counted ACLs.  For a valid ACL
    they return a fresh ACL with one reference that holds the intersection with the mode
    (whose new value is the mode it denotes), or the replaced permissions; without memory
    they return -ENOMEM and no ACL.  In every case exactly one reference to the old ACL is
    given up, and it is freed with its last one, but never modified. *)
Lemma posix_acl_create_chmod_correct h p q a m :
  h !! p = Some a → p ≠ q → 0 < a_refcount a < 2 ^ 31 → posix_acl_valid (a_entries a) = 0 →
  0 ≤ m < 2 ^ 16 →
  ∃ pa, wf pa ∧ a_entries a = build pa ∧
    (let pc := update pa (e_perm (uo pa) .& (m >>u 6)) (class_perm pa .& (m >>u 3)) (e_perm (ot pa) .& m) in
     posix_acl_create (Some p) (Some q) m h =
     Some ((if mk pa then 1 else 0, Some q, (m .& Z.lnot S_IRWXUGO) .| acl_mode pc),
           released p a (<[q := Acl 1 (build pc)]> h))) ∧
    posix_acl_chmod (Some p) (Some q) m h =
      Some ((0, Some q), released p a (<[q := Acl 1 (build
        (update pa ((m .& S_IRWXU) >>u 6) ((m .& S_IRWXG) >>u 3) (m .& S_IRWXO)))]> h)) ∧
    posix_acl_create (Some p) None m h = Some ((- ENOMEM, None, m), released p a h) ∧
    posix_acl_chmod (Some p) None m h = Some ((- ENOMEM, None), released p a h).
Proof.
  intros Hp Hne Ha (pa & Hw & E)%valid_ok Hm. exists pa. split; [done|]. split; [done|].
  split; [|split; [|by apply create_nomem]].
  - apply create_store; [done..|rewrite E; by apply create_ok|by destruct (mk pa)].
  - apply chmod_store; [done..|rewrite E; by apply chmod_ok].
Qed.

(** chmod 640 of a shared ACL. *)
Example posix_acl_create_chmod_correct_witness :
  posix_acl_chmod (Some 1) (Some 2) 0x1a0 {[1 := Acl 2 demo_acl]} =
  Some ((0, Some 2), <[1 := Acl 1 demo_acl]> (<[2 := Acl 1
    [Ent ACL_USER_OBJ 6 0; Ent ACL_USER 6 1000; Ent ACL_GROUP_OBJ 5 0; Ent ACL_MASK 4 0; Ent ACL_OTHER 0 0]]>
    {[1 := Acl 2 demo_acl]})).
Proof.
  destruct (posix_acl_create_chmod_correct {[1 := Acl 2 demo_acl]} 1 2 (Acl 2 demo_acl) 0x1a0)
    as (pa & Hw & E & _ & _ & _).
  - reflexivity.
  - done.
  - simpl. lia.
  - reflexivity.
  - lia.
  - reflexivity.
Defined.
