(* ===== verification/Kfifo.v ===== *)
(** * Kfifo: the generic ring buffer (lib/kfifo.c)

    A fifo holds [mask + 1] elements of [esize] bytes at [data]; [in] and [out] are
    free-running 32-bit counters.  The buffers are in the byte memory of Strings,
    and the data moves by its memcpy.  The user-space copies are parameters. *)

From S2P Require Import Prelude Bitops Strings StringsThm StringsCopy.

(** ** The program *)

Definition EINVAL : Z := 22.
Definition ENOMEM : Z := 12.
Definition EFAULT : Z := 14.

Record __kfifo := Fifo { in_ : Z; out : Z; mask : Z; esize : Z; data : Z }.

(** The fifo and the memory. *)
Notation kst := (__kfifo * mem)%type.

Definition kfifo_unused (f : __kfifo) : Z := u32 (u32 (mask f + 1) - u32 (in_ f - out f)).

(** [1UL << fls_long(n - 1)]; undefined for 0. *)
Definition fls64 (x : Z) : option Z := if x =? 0 then Some 0 else r ← __fls x; Some (r + 1).
Definition roundup_pow_of_two (n : Z) : option Z :=
  s ← fls64 (u64 (n - 1)); if s <? 64 then Some (u64 (Z.shiftl 1 s)) else None.

(** [kmalloc n] is the address of [n] new bytes or [None]; address 0 is NULL. *)
Definition __kfifo_alloc (size esize : Z) (kmalloc : Z → option Z) : option (Z * __kfifo) :=
  size ← roundup_pow_of_two size;
  let size := u32 size in
  if size <? 2 then Some (- EINVAL, Fifo 0 0 0 (u32 esize) 0)
  else match kmalloc (u64 (size * esize)) with
       | None => Some (- ENOMEM, Fifo 0 0 0 (u32 esize) 0)
       | Some p => Some (0, Fifo 0 0 (size - 1) (u32 esize) p)
       end.

Definition __kfifo_free (f : __kfifo) : __kfifo := Fifo 0 0 0 0 0.

Definition __kfifo_init (buffer size esize : Z) : option (Z * __kfifo) :=
  if esize =? 0 then None
  else
    size ← roundup_pow_of_two (u32 (size / esize));
    let size := u32 size in
    if size <? 2 then Some (- EINVAL, Fifo 0 0 0 (u32 esize) buffer)
    else Some (0, Fifo 0 0 (size - 1) (u32 esize) buffer).

(** The byte offset, the number of bytes and the bytes up to the wrap of a copy of
    [len] elements at position [off]. *)
Definition copy_geometry (f : __kfifo) (len off : Z) : Z * Z * Z :=
  let size := u32 (mask f + 1) in
  let off := off .& mask f in
  let '(off, size, len) :=
    if negb (esize f =? 1)
    then (u32 (off * esize f), u32 (size * esize f), u32 (len * esize f))
    else (off, size, len) in
  (off, len, Z.min len (u32 (size - off))).

Definition kfifo_copy_in (f : __kfifo) (M : mem) (src len off : Z) : option mem :=
  let '(off, len, l) := copy_geometry f len off in
  M ← memcpy M (data f + off) src l;
  memcpy M (data f) (src + l) (u32 (len - l)).

Definition __kfifo_in (s : kst) (buf len : Z) : option (Z * kst) :=
  let '(f, M) := s in
  let l := kfifo_unused f in
  let len := if l <? len then l else len in
  M ← kfifo_copy_in f M buf len (in_ f);
  Some (len, (Fifo (u32 (in_ f + len)) (out f) (mask f) (esize f) (data f), M)).

Definition kfifo_copy_out (f : __kfifo) (M : mem) (dst len off : Z) : option mem :=
  let '(off, len, l) := copy_geometry f len off in
  M ← memcpy M dst (data f + off) l;
  memcpy M (dst + l) (data f) (u32 (len - l)).

Definition __kfifo_out_peek (s : kst) (buf len : Z) : option (Z * kst) :=
  let '(f, M) := s in
  let l := u32 (in_ f - out f) in
  let len := if l <? len then l else len in
  M ← kfifo_copy_out f M buf len (out f);
  Some (len, (f, M)).

Definition set_out (f : __kfifo) (o : Z) : __kfifo := Fifo (in_ f) o (mask f) (esize f) (data f).
Definition set_in (f : __kfifo) (i : Z) : __kfifo := Fifo i (out f) (mask f) (esize f) (data f).

Definition __kfifo_out (s : kst) (buf len : Z) : option (Z * kst) :=
  '(len, (f, M)) ← __kfifo_out_peek s buf len;
  Some (len, (set_out f (u32 (out f + len)), M)).

(** *** User-space copies

    [copy M dst src n]: the bytes not copied and the memory. *)
Section user.
Context (copy_from_user copy_to_user : mem → Z → Z → Z → option (Z * mem)).

Definition DIV_ROUND_UP (n d : Z) : option Z :=
  if d =? 0 then None else Some (u64 (u64 (n + d) - 1) / d).

(** The elements not copied, *copied and the memory. *)
Definition kfifo_copy_from_user (f : __kfifo) (M : mem) (from len off : Z) : option (Z * Z * mem) :=
  let '(off, len, l) := copy_geometry f len off in
  '(ret, M) ← copy_from_user M (data f + off) from l;
  '(ret, M) ← (if negb (ret =? 0)
               then r ← DIV_ROUND_UP (u64 (ret + len - l)) (esize f); Some (r, M)
               else
                 '(ret, M) ← copy_from_user M (data f) (from + l) (u32 (len - l));
                 if negb (ret =? 0) then r ← DIV_ROUND_UP ret (esize f); Some (r, M)
                 else Some (ret, M));
  Some (ret, u32 (len - ret), M).

Definition kfifo_copy_to_user (f : __kfifo) (M : mem) (to len off : Z) : option (Z * Z * mem) :=
  let '(off, len, l) := copy_geometry f len off in
  '(ret, M) ← copy_to_user M to (data f + off) l;
  '(ret, M) ← (if negb (ret =? 0)
               then r ← DIV_ROUND_UP (u64 (ret + len - l)) (esize f); Some (r, M)
               else
                 '(ret, M) ← copy_to_user M (to + l) (data f) (u32 (len - l));
                 if negb (ret =? 0) then r ← DIV_ROUND_UP ret (esize f); Some (r, M)
                 else Some (ret, M));
  Some (ret, u32 (len - ret), M).

(** The result, *copied and the state. *)
Definition __kfifo_from_user (s : kst) (from len : Z) : option (Z * Z * kst) :=
  let '(f, M) := s in
  len ← (if negb (esize f =? 1) then if esize f =? 0 then None else Some (len / esize f) else Some len);
  let l := kfifo_unused f in
  let len := if l <? len then l else len in
  '(ret, copied, M) ← kfifo_copy_from_user f M from (u32 len) (in_ f);
  let '(len, err) := if negb (ret =? 0) then (u64 (len - ret), - EFAULT) else (len, 0) in
  Some (err, copied, (set_in f (u32 (in_ f + len)), M)).

Definition __kfifo_to_user (s : kst) (to len : Z) : option (Z * Z * kst) :=
  let '(f, M) := s in
  len ← (if negb (esize f =? 1) then if esize f =? 0 then None else Some (len / esize f) else Some len);
  let l := u32 (in_ f - out f) in
  let len := if l <? len then l else len in
  '(ret, copied, M) ← kfifo_copy_to_user f M to (u32 len) (out f);
  let '(len, err) := if negb (ret =? 0) then (u64 (len - ret), - EFAULT) else (len, 0) in
  Some (err, copied, (set_out f (u32 (out f + len)), M)).
End user.

(** *** Records *)

Definition __kfifo_max_r (len recsize : Z) : Z :=
  let max := u32 (u32 (Z.shiftl 1 (recsize * 8)) - 1) in
  if max <? len then max else len.

Definition __KFIFO_PEEK (M : mem) (data out mask : Z) : option Z := M !! (data + (out .& mask)).

Definition __kfifo_peek_n (s : kst) (recsize : Z) : option Z :=
  let '(f, M) := s in
  l ← __KFIFO_PEEK M (data f) (out f) (mask f);
  if negb (u64 (recsize - 1) =? 0)
  then h ← __KFIFO_PEEK M (data f) (u32 (out f + 1)) (mask f); Some (l .| Z.shiftl h 8)
  else Some l.

Definition __KFIFO_POKE (M : mem) (data in_ mask val : Z) : option mem :=
  poke M (data + (in_ .& mask)) (u8 val).

Definition __kfifo_poke_n (s : kst) (n recsize : Z) : option kst :=
  let '(f, M) := s in
  M ← __KFIFO_POKE M (data f) (in_ f) (mask f) n;
  if 1 <? recsize then M ← __KFIFO_POKE M (data f) (u32 (in_ f + 1)) (mask f) (n >>u 8); Some (f, M)
  else Some (f, M).

Definition __kfifo_len_r (s : kst) (recsize : Z) : option Z := __kfifo_peek_n s recsize.

Definition __kfifo_in_r (s : kst) (buf len recsize : Z) : option (Z * kst) :=
  if kfifo_unused (fst s) <? u64 (len + recsize) then Some (0, s)
  else
    '(f, M) ← __kfifo_poke_n s len recsize;
    M ← kfifo_copy_in f M buf len (u32 (in_ f + recsize));
    Some (len, (set_in f (u32 (in_ f + len + recsize)), M)).

(** The bytes copied, the length of the record and the memory. *)
Definition kfifo_out_copy_r (s : kst) (buf len recsize : Z) : option (Z * Z * mem) :=
  n ← __kfifo_peek_n s recsize;
  let len := if n <? len then n else len in
  M ← kfifo_copy_out (fst s) (snd s) buf len (u32 (out (fst s) + recsize));
  Some (len, n, M).

Definition __kfifo_out_peek_r (s : kst) (buf len recsize : Z) : option (Z * kst) :=
  if in_ (fst s) =? out (fst s) then Some (0, s)
  else '(len, _, M) ← kfifo_out_copy_r s buf len recsize; Some (len, (fst s, M)).

Definition __kfifo_out_r (s : kst) (buf len recsize : Z) : option (Z * kst) :=
  if in_ (fst s) =? out (fst s) then Some (0, s)
  else
    '(len, n, M) ← kfifo_out_copy_r s buf len recsize;
    Some (len, (set_out (fst s) (u32 (out (fst s) + n + recsize)), M)).

Definition __kfifo_skip_r (s : kst) (recsize : Z) : option kst :=
  n ← __kfifo_peek_n s recsize;
  Some (set_out (fst s) (u32 (out (fst s) + n + recsize)), snd s).

Definition __kfifo_dma_in_finish_r (s : kst) (len recsize : Z) : option kst :=
  let len := __kfifo_max_r len recsize in
  '(f, M) ← __kfifo_poke_n s len recsize;
  Some (set_in f (u32 (in_ f + len + recsize)), M).

Definition __kfifo_dma_out_finish_r (s : kst) (recsize : Z) : option kst :=
  len ← __kfifo_peek_n s recsize;
  Some (set_out (fst s) (u32 (out (fst s) + len + recsize)), snd s).

(** *** Records from and to user space *)
Section user_records.
Context (copy_from_user copy_to_user : mem → Z → Z → Z → option (Z * mem)).

Definition __kfifo_from_user_r (s : kst) (from len recsize : Z) : option (Z * Z * kst) :=
  let len := __kfifo_max_r (u32 len) recsize in
  if kfifo_unused (fst s) <? u64 (len + recsize) then Some (0, 0, s)
  else
    '(f, M) ← __kfifo_poke_n s len recsize;
    '(ret, copied, M) ← kfifo_copy_from_user copy_from_user f M from len (u32 (in_ f + recsize));
    if negb (ret =? 0) then Some (- EFAULT, 0, (f, M))
    else Some (0, copied, (set_in f (u32 (in_ f + len + recsize)), M)).

Definition __kfifo_to_user_r (s : kst) (to len recsize : Z) : option (Z * Z * kst) :=
  if in_ (fst s) =? out (fst s) then Some (0, 0, s)
  else
    n ← __kfifo_peek_n s recsize;
    let len := if n <? len then n else len in
    '(ret, copied, M) ← kfifo_copy_to_user copy_to_user (fst s) (snd s) to len (u32 (out (fst s) + recsize));
    if negb (ret =? 0) then Some (- EFAULT, 0, (fst s, M))
    else Some (0, copied, (set_out (fst s) (u32 (out (fst s) + n + recsize)), M)).
End user_records.
