(* ===== verification/KfifoThm.v ===== *)
(** * KfifoThm: a kfifo is a bounded queue

    The abstract view of a fifo is the list of bytes it holds, oldest first. *)

From S2P Require Import Prelude Bitops Strings StringsThm StringsCopy Kfifo.

(** ** Ring arithmetic *)

(** The address of the [j]-th byte behind offset [o] of a ring of [n] bytes at [d]. *)
Definition slot (d n o j : Z) : Z := d + (o + j) `mod` n.

(** The memory after [l] was written at offset [o] of the ring. *)
Definition ring_put (M : mem) (d n o : Z) (l : list Z) : mem :=
  let k := Z.to_nat (Z.min (zlen l) (n - o)) in
  put (put M (d + o) (take k l)) d (drop k l).

Lemma slot_cases d n o j : 0 ≤ o < n → 0 ≤ j < n →
  slot d n o j = if o + j <? n then d + o + j else d + o + j - n.
Proof.
  intros Ho Hj. unfold slot. destruct (Z.ltb_spec (o + j) n).
  - rewrite Z.mod_small by lia. lia.
  - replace (o + j) with (o + j - n + 1 * n) by lia.
    rewrite Z.mod_add, Z.mod_small by lia. lia.
Qed.

Lemma slot_range d n o j : 0 < n → d ≤ slot d n o j < d + n.
Proof. intros Hn. unfold slot. pose proof (Z.mod_pos_bound (o + j) n Hn). lia. Qed.

Section ring.
Context (M : mem) (d n o : Z) (l : list Z) (Ho : 0 ≤ o < n) (Hl : zlen l ≤ n).

Let k := Z.to_nat (Z.min (zlen l) (n - o)).

Lemma ring_lens : length (take k l) = k ∧ length (drop k l) = (length l - k)%nat ∧
  Z.of_nat k = Z.min (zlen l) (n - o).
Proof. rewrite length_take, length_drop. unfold k. lia. Qed.

Lemma ring_put_in j x : l !! j = Some x → ring_put M d n o l !! slot d n o (Z.of_nat j) = Some x.
Proof.
  intros Hj. apply lookup_lt_Some in Hj as Hlt. destruct ring_lens as (E1 & E2 & E3).
  rewrite slot_cases by lia. unfold ring_put. fold k. rewrite !put_lookup, E1, E2.
  destruct (Z.ltb_spec (o + Z.of_nat j) n).
  - destruct (Z.ltb_spec (d + o + Z.of_nat j) (d + Z.of_nat (length l - k))); [lia|].
    rewrite andb_false_r. destruct (Z.leb_spec (d + o) (d + o + Z.of_nat j)); [|lia].
    destruct (Z.ltb_spec (d + o + Z.of_nat j) (d + o + Z.of_nat k)); [|lia]. cbn [andb].
    rewrite lookup_take_lt by lia. by replace (Z.to_nat (d + o + Z.of_nat j - (d + o))) with j by lia.
  - destruct (Z.leb_spec d (d + o + Z.of_nat j - n)); [|lia].
    destruct (Z.ltb_spec (d + o + Z.of_nat j - n) (d + Z.of_nat (length l - k))); [|lia]. cbn [andb].
    rewrite lookup_drop. rewrite <- Hj. f_equal. lia.
Qed.

Lemma ring_put_other a : (∀ j, 0 ≤ j < zlen l → a ≠ slot d n o j) →
  ring_put M d n o l !! a = M !! a.
Proof.
  intros Ha. destruct ring_lens as (E1 & E2 & E3). unfold ring_put. fold k.
  rewrite !put_lookup, E1, E2.
  destruct (Z.leb_spec d a); [|cbn [andb]].
  - destruct (Z.ltb_spec a (d + Z.of_nat (length l - k))); cbn [andb].
    { exfalso. apply (Ha (a - d - o + n)); [lia|]. rewrite slot_cases by lia.
      destruct (Z.ltb_spec (o + (a - d - o + n)) n); lia. }
    destruct (Z.leb_spec (d + o) a); [|done]. destruct (Z.ltb_spec a (d + o + Z.of_nat k)); [|done].
    exfalso. apply (Ha (a - d - o)); [lia|]. rewrite slot_cases by lia.
    destruct (Z.ltb_spec (o + (a - d - o)) n); lia.
  - destruct (Z.leb_spec (d + o) a); [lia|done].
Qed.

Lemma ring_bytes : (∀ j x, l !! j = Some x → M !! slot d n o (Z.of_nat j) = Some x) →
  bytes_at M (d + o) (take k l) ∧ bytes_at M d (drop k l).
Proof.
  intros H. destruct ring_lens as (E1 & E2 & E3). rewrite !bytes_at_lookup. split.
  - intros j x [Hj Hlt]%lookup_take_Some. rewrite <- (H j x Hj).
    apply lookup_lt_Some in Hj. rewrite slot_cases by lia.
    by destruct (Z.ltb_spec (o + Z.of_nat j) n); [|lia].
  - intros j x Hj. rewrite lookup_drop in Hj. rewrite <- (H _ x Hj).
    apply lookup_lt_Some in Hj. rewrite slot_cases by lia.
    destruct (Z.ltb_spec (o + Z.of_nat (k + j)) n); [lia|]. f_equal. lia.
Qed.
End ring.

Lemma mapped_put M p l q n : mapped M q n → mapped (put M p l) q n.
Proof.
  intros H a Ha. rewrite put_lookup. destruct (_ && _) eqn:E; [|by apply H].
  apply andb_true_iff in E as [E1%Z.leb_le E2%Z.ltb_lt]. apply lookup_lt_is_Some. lia.
Qed.

(** ** Well-formed fifos *)

Definition fsize (f : __kfifo) : Z := mask f + 1.
Definition fbytes (f : __kfifo) : Z := fsize f * esize f.
Definition used (f : __kfifo) : Z := u32 (in_ f - out f).
Definition pos (f : __kfifo) (x : Z) : Z := (x `mod` fsize f) * esize f.

(** A power of two of elements, whose bytes 32 bits can count. *)
Definition fifo_ok (f : __kfifo) : Prop :=
  (∃ k, 1 ≤ k ≤ 32 ∧ fsize f = 2 ^ k) ∧ 0 < esize f ∧ fbytes f < 2 ^ 32 ∧
  is_u32 (in_ f) ∧ is_u32 (out f) ∧ used f ≤ fsize f.

(** The fifo holds the bytes [q]. *)
Definition queue (f : __kfifo) (M : mem) (q : list Z) : Prop :=
  fifo_ok f ∧ mapped M (data f) (fbytes f) ∧ zlen q = used f * esize f ∧
  ∀ j x, q !! j = Some x → M !! slot (data f) (fbytes f) (pos f (out f)) (Z.of_nat j) = Some x.

Section geometry.
Context (f : __kfifo) (Hf : fifo_ok f).

Lemma fsize_pos : 2 ≤ fsize f < 2 ^ 32.
Proof.
  destruct Hf as ((k & Hk & E) & He & Hb & _). rewrite E. unfold fbytes in Hb. rewrite E in Hb.
  split; [|nia]. change 2 with (2 ^ 1). apply Z.pow_le_mono_r; lia.
Qed.

Lemma fsize_divides : (fsize f | 2 ^ 32).
Proof.
  destruct Hf as ((k & Hk & ->) & _). exists (2 ^ (32 - k)). rewrite <- Z.pow_add_r by lia. f_equal. lia.
Qed.

Lemma pos_range x : 0 ≤ pos f x < fbytes f.
Proof.
  pose proof fsize_pos. pose proof (Z.mod_pos_bound x (fsize f) ltac:(lia)).
  unfold pos, fbytes. destruct Hf as (_ & He & _). nia.
Qed.

Lemma pos_mod x : pos f x = (x * esize f) `mod` fbytes f.
Proof.
  unfold pos, fbytes. destruct Hf as (_ & He & _). pose proof fsize_pos.
  rewrite Z.mul_mod_distr_r by lia. done.
Qed.

(** Moving a counter moves the slots. *)
Lemma slot_add x m j :
  slot (data f) (fbytes f) (pos f (u32 (x + m))) j = slot (data f) (fbytes f) (pos f x) (m * esize f + j).
Proof.
  assert (E : pos f (u32 (x + m)) = pos f (x + m)).
  { unfold pos, u32, wrap. f_equal. apply Z.mod_mod_divide, fsize_divides. }
  rewrite E. unfold slot. f_equal. rewrite !pos_mod.
  pose proof (pos_range 0). assert (fbytes f ≠ 0) by lia.
  rewrite !Zplus_mod_idemp_l. f_equal. lia.
Qed.

Lemma geometry_ok len off : 0 ≤ len ≤ fsize f →
  copy_geometry f len off = (pos f off, len * esize f, Z.min (len * esize f) (fbytes f - pos f off)).
Proof.
  intros Hlen. unfold copy_geometry. fold (fsize f). pose proof fsize_pos as Hs.
  rewrite (u32_small (fsize f)) by lia. pose proof (pos_range off) as Hp.
  assert (El : off .& mask f = off `mod` fsize f).
  { destruct Hf as ((k & Hk & E) & _). replace (mask f) with (Z.ones k).
    - rewrite Z.land_ones by lia. by rewrite E.
    - rewrite Z.ones_equiv, <- E. unfold fsize. lia. }
  rewrite El. destruct Hf as (_ & He & Hb & _). unfold fbytes, pos in *.
  destruct (Z.eqb_spec (esize f) 1) as [E|E]; cbn [negb].
  - rewrite E, !Z.mul_1_r in *. rewrite u32_small by lia. done.
  - pose proof (Z.mod_pos_bound off (fsize f) ltac:(lia)).
    rewrite (u32_small (_ * _)), (u32_small (len * _)), (u32_small (fsize f * _)) by nia.
    rewrite u32_small by lia. done.
Qed.
End geometry.

(** ** Copying *)

(** Two areas of memory that do not meet. *)
Definition apart (p n q m : Z) : Prop := p + n ≤ q ∨ q + m ≤ p.

Section copy.
Context (f : __kfifo) (M : mem) (Hf : fifo_ok f) (Hm : mapped M (data f) (fbytes f)).

Lemma copy_in_ok src off l len : 0 ≤ len ≤ fsize f → zlen l = len * esize f →
  bytes_at M src l → apart src (zlen l) (data f) (fbytes f) →
  kfifo_copy_in f M src len off = Some (ring_put M (data f) (fbytes f) (pos f off) l).
Proof.
  intros Hlen Hl Hs Hd. unfold kfifo_copy_in. rewrite geometry_ok by done.
  pose proof (pos_range f Hf off) as Hp. destruct Hf as (_ & He & Hb & _).
  assert (Hle : zlen l ≤ fbytes f) by (rewrite Hl; unfold fbytes; nia).
  rewrite <- Hl. unfold ring_put. set (k := Z.to_nat (Z.min (zlen l) (fbytes f - pos f off))).
  destruct (ring_lens (fbytes f) (pos f off) l Hp) as (E1 & E2 & E3). fold k in E1, E2, E3.
  rewrite <- (take_drop k l) in Hs. apply bytes_at_app in Hs as [Hs1 Hs2]. rewrite E1 in Hs2.
  rewrite <- E3. replace (Z.of_nat k) with (zlen (take k l)) at 1 by lia.
  unfold apart in Hd. rewrite memcpy_ok; [|done| |lia].
  2:{ intros a Ha. apply Hm. lia. }
  cbn [mbind option_bind]. rewrite u32_small by lia.
  replace (zlen l - Z.of_nat k) with (zlen (drop k l)) by lia. apply memcpy_ok.
  - apply bytes_at_put_other; [lia|done].
  - apply mapped_put. intros a Ha. apply Hm. lia.
  - lia.
Qed.

Lemma copy_out_ok dst off l len : 0 ≤ len ≤ fsize f → zlen l = len * esize f →
  (∀ j x, l !! j = Some x → M !! slot (data f) (fbytes f) (pos f off) (Z.of_nat j) = Some x) →
  mapped M dst (zlen l) → apart dst (zlen l) (data f) (fbytes f) →
  kfifo_copy_out f M dst len off = Some (put M dst l).
Proof.
  intros Hlen Hl Hs Hdm Hd. unfold kfifo_copy_out. rewrite geometry_ok by done.
  pose proof (pos_range f Hf off) as Hp. destruct Hf as (_ & He & Hb & _).
  assert (Hle : zlen l ≤ fbytes f) by (rewrite Hl; unfold fbytes; nia).
  destruct (ring_bytes M (data f) (fbytes f) (pos f off) l Hp Hle Hs) as [Hs1 Hs2].
  rewrite <- Hl. set (k := Z.to_nat (Z.min (zlen l) (fbytes f - pos f off))) in *.
  destruct (ring_lens (fbytes f) (pos f off) l Hp) as (E1 & E2 & E3). fold k in E1, E2, E3.
  rewrite <- E3. replace (Z.of_nat k) with (zlen (take k l)) at 1 by lia.
  unfold apart in Hd. rewrite memcpy_ok; [|done| |lia].
  2:{ intros a Ha. apply Hdm. lia. }
  cbn [mbind option_bind]. rewrite u32_small by lia.
  replace (zlen l - Z.of_nat k) with (zlen (drop k l)) by lia. rewrite memcpy_ok.
  - replace (dst + Z.of_nat k) with (dst + zlen (take k l)) by lia. by rewrite <- put_app, take_drop.
  - apply bytes_at_put_other; [lia|done].
  - apply mapped_put. intros a Ha. apply Hdm. lia.
  - lia.
Qed.
End copy.

(** ** The stream operations *)

Lemma used_range f : fifo_ok f → 0 ≤ used f ≤ fsize f.
Proof. intros (_ & _ & _ & _ & _ & H). pose proof (u32_range (in_ f - out f)). unfold used in *. lia. Qed.

Lemma unused_ok f : fifo_ok f → kfifo_unused f = fsize f - used f.
Proof.
  intros Hf. pose proof (used_range f Hf). pose proof (fsize_pos f Hf). unfold kfifo_unused.
  fold (used f) (fsize f). rewrite (u32_small (fsize f)) by lia. apply u32_small. lia.
Qed.

(** The position of [in] is the one [used] elements behind [out]. *)
Lemma in_slot f j : fifo_ok f →
  slot (data f) (fbytes f) (pos f (in_ f)) j =
  slot (data f) (fbytes f) (pos f (out f)) (used f * esize f + j).
Proof.
  intros Hf. rewrite <- slot_add by done. do 2 f_equal. unfold used, u32, wrap.
  rewrite Zplus_mod_idemp_r. replace (out f + (in_ f - out f)) with (in_ f) by lia.
  symmetry. apply Z.mod_small. apply Hf.
Qed.

Lemma slot_wrap d n o j : 0 < n → slot d n o (j + n) = slot d n o j.
Proof.
  intros Hn. unfold slot. replace (o + (j + n)) with (o + j + 1 * n) by lia. by rewrite Z.mod_add by lia.
Qed.

(** Writing behind the queue keeps what it holds. *)
Lemma append_bytes f M q l : queue f M q → zlen q + zlen l ≤ fbytes f →
  let M' := ring_put M (data f) (fbytes f) (pos f (in_ f)) l in
  (∀ j x, (q ++ l) !! j = Some x →
     M' !! slot (data f) (fbytes f) (pos f (out f)) (Z.of_nat j) = Some x) ∧
  mapped M' (data f) (fbytes f) ∧
  (∀ a, ¬ data f ≤ a < data f + fbytes f → M' !! a = M !! a).
Proof.
  intros (Hf & Hm & Hq & Hb) Hl M'. pose proof (pos_range f Hf (in_ f)) as Hp.
  pose proof (pos_range f Hf (out f)) as Ho. split; [|split].
  - intros j x [Hj|[Hge Hj]]%lookup_app_Some.
    + apply lookup_lt_Some in Hj as Hlt. unfold M'. rewrite ring_put_other; [by apply Hb|done|lia|].
      intros i Hi. rewrite in_slot, <- Hq by done.
      rewrite (slot_cases _ _ _ (Z.of_nat j)), slot_cases by lia.
      destruct (Z.ltb_spec (pos f (out f) + Z.of_nat j) (fbytes f)),
        (Z.ltb_spec (pos f (out f) + (zlen q + i)) (fbytes f)); lia.
    + pose proof (ring_put_in M (data f) (fbytes f) (pos f (in_ f)) l Hp ltac:(lia) _ x Hj) as H.
      rewrite in_slot, <- Hq in H by done. unfold M'. rewrite <- H. f_equal. f_equal. lia.
  - unfold M', ring_put. by do 2 apply mapped_put.
  - intros a Ha. apply ring_put_other; [done|lia|]. intros j Hj ->. apply Ha, slot_range. lia.
Qed.

Lemma used_add f n : fifo_ok f → 0 ≤ n ≤ fsize f - used f →
  used (set_in f (u32 (in_ f + n))) = used f + n ∧ fifo_ok (set_in f (u32 (in_ f + n))).
Proof.
  intros Hf Hn. pose proof (used_range f Hf). pose proof (fsize_pos f Hf).
  assert (E : used (set_in f (u32 (in_ f + n))) = used f + n).
  { unfold used, u32, wrap in *. simpl. rewrite Zminus_mod_idemp_l.
    replace (in_ f + n - out f) with (in_ f - out f + n) by lia.
    rewrite <- Zplus_mod_idemp_l. apply Z.mod_small. lia. }
  split; [done|]. destruct Hf as (Hk & He & Hb & Hi & Ho & Hu). split; [done|]. split; [done|].
  split; [done|]. split; [apply u32_range|]. split; [done|]. rewrite E. unfold fsize in *. simpl. lia.
Qed.

Lemma used_sub f n : fifo_ok f → 0 ≤ n ≤ used f →
  used (set_out f (u32 (out f + n))) = used f - n ∧ fifo_ok (set_out f (u32 (out f + n))).
Proof.
  intros Hf Hn. pose proof (used_range f Hf). pose proof (fsize_pos f Hf).
  assert (E : used (set_out f (u32 (out f + n))) = used f - n).
  { unfold used, u32, wrap in *. simpl. rewrite Zminus_mod_idemp_r.
    replace (in_ f - (out f + n)) with (in_ f - out f - n) by lia.
    rewrite <- Zminus_mod_idemp_l. apply Z.mod_small. lia. }
  split; [done|]. destruct Hf as (Hk & He & Hb & Hi & Ho & Hu). split; [done|]. split; [done|].
  split; [done|]. split; [done|]. split; [apply u32_range|]. rewrite E. unfold fsize in *. simpl. lia.
Qed.

(** Appending [n] elements to the queue. *)
Lemma queue_append f M q l n : queue f M q → zlen l = n * esize f → 0 ≤ n ≤ fsize f - used f →
  queue (set_in f (u32 (in_ f + n))) (ring_put M (data f) (fbytes f) (pos f (in_ f)) l) (q ++ l).
Proof.
  intros Hq Hl Hn. pose proof Hq as (Hf & Hm & Hlq & Hb). pose proof Hf as (_ & He & _).
  destruct (append_bytes f M q l Hq) as (H1 & H2 & _).
  { rewrite Hlq, Hl. unfold fbytes. nia. }
  destruct (used_add f n Hf Hn) as [Eu Hf']. split; [done|]. split; [done|]. split; [|done].
  rewrite length_app, Eu. simpl. lia.
Qed.

(** Removing [n] elements from the front of the queue, with other memory changed. *)
Lemma queue_remove f M M' q n : queue f M q → 0 ≤ n ≤ used f →
  (∀ a, data f ≤ a < data f + fbytes f → M' !! a = M !! a) →
  queue (set_out f (u32 (out f + n))) M' (drop (Z.to_nat (n * esize f)) q).
Proof.
  intros (Hf & Hm & Hlq & Hb) Hn HM. pose proof Hf as (_ & He & _).
  destruct (used_sub f n Hf Hn) as [Eu Hf']. split; [done|]. split; [|split].
  - intros a Ha. rewrite HM by done. by apply Hm.
  - rewrite length_drop, Eu. simpl. nia.
  - intros j x Hj. rewrite lookup_drop in Hj. simpl. change (fbytes (set_out f _)) with (fbytes f).
    change (pos (set_out f _) ?y) with (pos f y). rewrite slot_add by done.
    rewrite HM by (apply slot_range; pose proof (pos_range f Hf 0); lia).
    rewrite <- (Hb _ x Hj). do 2 f_equal. nia.
Qed.

Lemma queue_take f M q n : queue f M q → 0 ≤ n ≤ used f →
  zlen (take (Z.to_nat (n * esize f)) q) = n * esize f ∧
  ∀ j x, take (Z.to_nat (n * esize f)) q !! j = Some x →
    M !! slot (data f) (fbytes f) (pos f (out f)) (Z.of_nat j) = Some x.
Proof.
  intros (Hf & _ & Hlq & Hb) Hn. pose proof Hf as (_ & He & _). split.
  - rewrite length_take. nia.
  - intros j x [Hj _]%lookup_take_Some. by apply Hb.
Qed.

Lemma in_ok f M q buf len l : queue f M q → is_u32 len → bytes_at M buf l →
  zlen l = len * esize f → apart buf (zlen l) (data f) (fbytes f) →
  let k := Z.min len (fsize f - used f) in
  let l' := take (Z.to_nat (k * esize f)) l in
  let M' := ring_put M (data f) (fbytes f) (pos f (in_ f)) l' in
  __kfifo_in (f, M) buf len = Some (k, (set_in f (u32 (in_ f + k)), M')) ∧
  queue (set_in f (u32 (in_ f + k))) M' (q ++ l') ∧
  (∀ a, ¬ data f ≤ a < data f + fbytes f → M' !! a = M !! a).
Proof.
  intros Hq Hlen Hb Hl Hd k l' M'. pose proof Hq as (Hf & Hm & Hlq & _). pose proof Hf as (_ & He & _).
  pose proof (used_range f Hf) as Hu. assert (Hk : 0 ≤ k ≤ fsize f - used f) by (unfold k; lia).
  assert (Hl' : zlen l' = k * esize f) by (unfold l'; rewrite length_take; unfold k in *; nia).
  assert (E : kfifo_copy_in f M buf k (in_ f) = Some M').
  { apply copy_in_ok; [done|done|lia|done| |].
    - unfold l'. rewrite <- (take_drop (Z.to_nat (k * esize f)) l) in Hb. by apply bytes_at_app in Hb as [? _].
    - assert (zlen l' ≤ zlen l) by (unfold l'; rewrite length_take; lia). unfold apart in *. lia. }
  split; [|split].
  - unfold __kfifo_in. rewrite unused_ok by done.
    replace (if fsize f - used f <? len then fsize f - used f else len) with k
      by (unfold k; destruct (Z.ltb_spec (fsize f - used f) len); lia).
    by rewrite E.
  - by apply queue_append.
  - apply append_bytes with q; [done|]. rewrite Hlq, Hl'. unfold fbytes. nia.
Qed.

Lemma out_ok f M q buf len : queue f M q → is_u32 len →
  let k := Z.min len (used f) in
  let l := take (Z.to_nat (k * esize f)) q in
  mapped M buf (k * esize f) → apart buf (k * esize f) (data f) (fbytes f) →
  __kfifo_out_peek (f, M) buf len = Some (k, (f, put M buf l)) ∧
  __kfifo_out (f, M) buf len = Some (k, (set_out f (u32 (out f + k)), put M buf l)) ∧
  queue (set_out f (u32 (out f + k))) (put M buf l) (drop (Z.to_nat (k * esize f)) q).
Proof.
  intros Hq Hlen k l Hm' Hd. pose proof Hq as (Hf & Hm & Hlq & _).
  pose proof (used_range f Hf) as Hu. assert (Hk : 0 ≤ k ≤ used f) by (unfold k; lia).
  destruct (queue_take f M q k Hq Hk) as [Hl Hs]. fold l in Hl, Hs.
  assert (E : __kfifo_out_peek (f, M) buf len = Some (k, (f, put M buf l))).
  { unfold __kfifo_out_peek. fold (used f).
    replace (if used f <? len then used f else len) with k
      by (unfold k; destruct (Z.ltb_spec (used f) len); lia).
    rewrite (copy_out_ok f M Hf buf (out f) l k); [done|lia|done|done|by rewrite Hl|by rewrite Hl]. }
  split; [done|]. split; [unfold __kfifo_out; by rewrite E|].
  apply queue_remove with M; [done|done|]. intros a Ha. rewrite put_lookup.
  replace (_ && _) with false; [done|]. symmetry. apply andb_false_iff. rewrite Z.leb_gt, Z.ltb_ge.
  unfold apart in Hd. lia.
Qed.

(** ** Allocation *)

Lemma roundup_ok n : 2 ≤ n ≤ 2 ^ 31 →
  ∃ k, roundup_pow_of_two n = Some (2 ^ k) ∧ 1 ≤ k ≤ 31 ∧ n ≤ 2 ^ k < 2 * n.
Proof.
  intros Hn. unfold roundup_pow_of_two, fls64. rewrite u64_small by lia.
  rewrite (proj2 (Z.eqb_neq _ _)) by lia. unfold __fls. rewrite (proj2 (Z.eqb_neq _ _)) by lia.
  cbn [mbind option_bind]. pose proof (Z.log2_spec (n - 1) ltac:(lia)) as Hs.
  pose proof (Z.log2_nonneg (n - 1)). set (k := Z.log2 (n - 1)) in *.
  assert (k < 31) by (apply Z.log2_lt_pow2; lia).
  rewrite (proj2 (Z.ltb_lt _ _)) by lia. exists (k + 1).
  rewrite Z.shiftl_mul_pow2, Z.mul_1_l by lia.
  replace (Z.succ k) with (k + 1) in Hs by lia.
  assert (2 ^ (k + 1) = 2 * 2 ^ k) by (rewrite <- Z.pow_succ_r by lia; f_equal; lia).
  assert (2 ^ (k + 1) ≤ 2 ^ 31) by (apply Z.pow_le_mono_r; lia).
  rewrite u64_small by lia. split; [done|]. lia.
Qed.

(** A new fifo with room for [2^k] elements is empty. *)
Lemma new_queue k esz d M : 1 ≤ k ≤ 31 → 0 < esz → 2 ^ k * esz < 2 ^ 32 →
  mapped M d (2 ^ k * esz) → queue (Fifo 0 0 (2 ^ k - 1) esz d) M [].
Proof.
  intros Hk He Hb Hm. unfold queue, fifo_ok, fbytes, fsize, used, slot. simpl.
  rewrite Z.sub_add. split; [|split; [done|split; [done|done]]].
  split; [by exists k; split; [lia|]|]. split; [done|]. split; [done|]. split; [lia|]. split; [lia|].
  change (u32 (0 - 0)) with 0. pose proof (Z.pow_nonneg 2 k ltac:(lia)). lia.
Qed.

(** ** Records *)

(** The length of a record in [recsize] bytes, low byte first, and the record. *)
Definition header (recsize n : Z) : list Z :=
  if recsize =? 1 then [n] else [n `mod` 2 ^ 8; n / 2 ^ 8].
Definition encode (recsize : Z) (r : list Z) : list Z := header recsize (zlen r) ++ r.
Definition encodes (recsize : Z) (rs : list (list Z)) : list Z := concat (map (encode recsize) rs).

Definition recsize_ok (recsize : Z) : Prop := recsize = 1 ∨ recsize = 2.
Definition fits (recsize : Z) (r : list Z) : Prop := zlen r < 2 ^ (8 * recsize).

(** The fifo of bytes holds the records [rs]. *)
Definition record_queue (recsize : Z) (f : __kfifo) (M : mem) (rs : list (list Z)) : Prop :=
  esize f = 1 ∧ Forall (fits recsize) rs ∧ queue f M (encodes recsize rs).

Lemma header_len recsize n : recsize_ok recsize → zlen (header recsize n) = recsize.
Proof. by intros [->| ->]. Qed.

Lemma encodes_snoc recsize rs r : encodes recsize (rs ++ [r]) = encodes recsize rs ++ encode recsize r.
Proof. unfold encodes. rewrite map_app, concat_app. simpl. by rewrite app_nil_r. Qed.

Section bytes.
Context (f : __kfifo) (Hf : fifo_ok f) (He : esize f = 1).

Lemma byte_pos x : data f + (x .& mask f) = slot (data f) (fbytes f) (pos f x) 0.
Proof.
  pose proof (geometry_ok f Hf 0 x) as E. unfold copy_geometry in E. rewrite He in E.
  cbn [Z.eqb Pos.eqb negb] in E. pose proof (pos_range f Hf x). pose proof (fsize_pos f Hf).
  specialize (E ltac:(lia)). injection E as E _. rewrite E.
  unfold slot. rewrite Z.add_0_r, Z.mod_small by lia. done.
Qed.

(** One byte behind the queue. *)
Lemma poke_byte M q b : queue f M q → 1 ≤ fsize f - used f →
  let M' := ring_put M (data f) (fbytes f) (pos f (in_ f)) [u8 b] in
  __KFIFO_POKE M (data f) (in_ f) (mask f) b = Some M' ∧
  queue (set_in f (u32 (in_ f + 1))) M' (q ++ [u8 b]) ∧
  (∀ a, ¬ data f ≤ a < data f + fbytes f → M' !! a = M !! a).
Proof.
  intros Hq Hr M'. pose proof Hq as (_ & Hm & Hlq & _). pose proof (pos_range f Hf (in_ f)) as Hp.
  assert (EM : M' = put M (data f + pos f (in_ f)) [u8 b]).
  { unfold M', ring_put. simpl length. replace (Z.min (Z.of_nat 1) (fbytes f - pos f (in_ f))) with 1 by lia.
    done. }
  split; [|split].
  - unfold __KFIFO_POKE. rewrite byte_pos. unfold slot. rewrite Z.add_0_r, Z.mod_small by lia.
    rewrite poke_mapped by (apply Hm; lia). by rewrite EM.
  - apply queue_append; [done|simpl; lia|lia].
  - apply append_bytes with q; [done|]. simpl. rewrite Hlq, He. unfold fbytes. rewrite He. lia.
Qed.
End bytes.

Lemma u32_add_l x y : u32 (u32 x + y) = u32 (x + y).
Proof. apply Zplus_mod_idemp_l. Qed.

Lemma poke_n_ok f M q n recsize : recsize_ok recsize → esize f = 1 → queue f M q →
  0 ≤ n < 2 ^ (8 * recsize) → recsize ≤ fsize f - used f →
  ∃ M', __kfifo_poke_n (f, M) n recsize = Some (f, M') ∧
    queue (set_in f (u32 (in_ f + recsize))) M' (q ++ header recsize n) ∧
    (∀ a, ¬ data f ≤ a < data f + fbytes f → M' !! a = M !! a).
Proof.
  intros Hrs He Hq Hn Hroom. pose proof Hq as (Hf & _).
  destruct (poke_byte f Hf He M q n Hq) as (E1 & Q1 & F1); [destruct Hrs; lia|].
  unfold __kfifo_poke_n. rewrite E1. cbn [mbind option_bind]. destruct Hrs as [->| ->]; cbn [Z.ltb Z.compare Pos.compare Pos.compare_cont].
  - change (2 ^ (8 * 1)) with 256 in Hn. rewrite (u8_small n) in * by lia.
    eexists. split; [done|]. split; [|done]. exact Q1.
  - change (2 ^ (8 * 2)) with 65536 in Hn. set (M1 := ring_put _ _ _ _ [u8 n]) in *. set (f1 := set_in f (u32 (in_ f + 1))) in *.
    pose proof Q1 as (Hf1 & _). destruct (used_add f 1 Hf) as [Eu _]; [pose proof (used_range f Hf); lia|].
    destruct (poke_byte f1 Hf1 He M1 _ (n >>u 8) Q1) as (E2 & Q2 & F2).
    { unfold f1 in Eu |- *. rewrite Eu. change (fsize (set_in f _)) with (fsize f). lia. }
    simpl in E2. rewrite E2. cbn [mbind option_bind]. eexists. split; [done|]. split.
    + replace (header 2 n) with [u8 n; u8 (n >>u 8)].
      * change (in_ f1) with (u32 (in_ f + 1)) in Q2. rewrite u32_add_l in Q2.
        replace (in_ f + 1 + 1) with (in_ f + 2) in Q2 by lia. by rewrite <- app_assoc in Q2.
      * unfold header. cbn [Z.eqb Pos.eqb]. by rewrite u8_mod, Z.shiftr_div_pow2, u8_small by dlia.
    + intros a Ha. rewrite F2 by done. by apply F1.
Qed.

Lemma in_r_ok recsize f M rs buf len l : recsize_ok recsize → record_queue recsize f M rs →
  zlen l = len → fits recsize l → bytes_at M buf l → apart buf (zlen l) (data f) (fbytes f) →
  if len + recsize <=? fsize f - used f
  then ∃ f' M', __kfifo_in_r (f, M) buf len recsize = Some (len, (f', M')) ∧
         record_queue recsize f' M' (rs ++ [l]) ∧
         (∀ a, ¬ data f ≤ a < data f + fbytes f → M' !! a = M !! a)
  else __kfifo_in_r (f, M) buf len recsize = Some (0, (f, M)).
Proof.
  intros Hrs (He & Hfit & Hq) Hl Hfl Hb Hd. pose proof Hq as (Hf & _).
  pose proof (used_range f Hf). pose proof (fsize_pos f Hf). unfold fits in Hfl.
  assert (Hlen : 0 ≤ len < 2 ^ 16) by (destruct Hrs as [->| ->]; lia).
  unfold __kfifo_in_r. cbn [fst]. rewrite (unused_ok f Hf).
  rewrite u64_small by (destruct Hrs; lia).
  destruct (Z.leb_spec (len + recsize) (fsize f - used f)).
  2:{ by rewrite (proj2 (Z.ltb_lt _ _)) by lia. }
  rewrite (proj2 (Z.ltb_ge _ _)) by lia.
  destruct (poke_n_ok f M _ len recsize Hrs He Hq) as (M1 & E1 & Q1 & F1); [lia|lia|].
  rewrite E1. cbn [mbind option_bind]. set (f1 := set_in f (u32 (in_ f + recsize))) in *.
  pose proof Q1 as (Hf1 & Hm1 & Hlq1 & _).
  destruct (used_add f recsize Hf) as [Eu _]; [destruct Hrs; lia|]. fold f1 in Eu.
  assert (Hb1 : bytes_at M1 buf l).
  { rewrite bytes_at_lookup in *. intros i x Hx. rewrite F1; [by apply Hb|].
    apply lookup_lt_Some in Hx. unfold apart in Hd. lia. }
  pose proof (copy_in_ok f1 M1 Hf1 Hm1 buf (u32 (in_ f + recsize)) l len) as E2.
  change (kfifo_copy_in f1) with (kfifo_copy_in f) in E2. change (fsize f1) with (fsize f) in E2.
  change (data f1) with (data f) in E2. change (fbytes f1) with (fbytes f) in E2.
  change (pos f1) with (pos f) in E2. change (esize f1) with (esize f) in E2.
  rewrite E2; [|destruct Hrs; lia|rewrite He; lia|done|done]. cbn [mbind option_bind]. eexists _, _. split; [done|]. split.
  - split; [done|]. split; [by apply Forall_app_2; [|apply Forall_singleton]|].
    rewrite encodes_snoc. unfold encode. rewrite app_assoc, Hl.
    pose proof (queue_append f1 M1 _ l len Q1) as Q2. change (in_ f1) with (u32 (in_ f + recsize)) in Q2.
    rewrite u32_add_l in Q2. replace (in_ f + recsize + len) with (in_ f + len + recsize) in Q2 by lia.
    apply Q2; [unfold f1; simpl; rewrite He; lia|]. rewrite Eu. change (fsize f1) with (fsize f). destruct Hrs; lia.
  - intros a Ha. rewrite <- F1 by done.
    destruct (append_bytes f1 M1 _ l Q1) as (_ & _ & F2).
    { rewrite Hlq1, Eu. change (fbytes f1) with (fbytes f). unfold fbytes, f1. simpl. rewrite He. lia. }
    apply F2. done.
Qed.

(** The bytes of the first record. *)
Lemma first_record recsize f M r rs : recsize_ok recsize → record_queue recsize f M (r :: rs) →
  (∀ i x, header recsize (zlen r) !! i = Some x →
     M !! slot (data f) (fbytes f) (pos f (out f)) (Z.of_nat i) = Some x) ∧
  (∀ i x, r !! i = Some x →
     M !! slot (data f) (fbytes f) (pos f (u32 (out f + recsize))) (Z.of_nat i) = Some x) ∧
  recsize + zlen r ≤ used f.
Proof.
  intros Hrs (He & Hfit & Hf & Hm & Hl & Hb). pose proof (header_len recsize (zlen r) Hrs) as Hh.
  unfold encodes in *. cbn [map concat] in *. change (encode recsize r) with (header recsize (zlen r) ++ r) in Hl, Hb. split; [|split].
  - intros i x Hx. apply Hb. apply lookup_lt_Some in Hx as Hlt. rewrite <- app_assoc. by rewrite lookup_app_l.
  - intros i x Hx. rewrite slot_add, He, Z.mul_1_r by done.
    rewrite <- (Hb (length (header recsize (zlen r)) + i)%nat x).
    + do 2 f_equal. lia.
    + rewrite <- app_assoc, lookup_app_r by lia. apply lookup_lt_Some in Hx as Hlt.
      rewrite lookup_app_l by lia. rewrite <- Hx. f_equal. lia.
  - rewrite He, !length_app in Hl. lia.
Qed.

Lemma lor_bytes n : 0 ≤ n < 2 ^ 16 → (n `mod` 2 ^ 8) .| Z.shiftl (n / 2 ^ 8) 8 = n.
Proof.
  intros Hn. rewrite <- Z.land_ones by lia. rewrite <- Z.shiftr_div_pow2 by lia.
  apply Z.bits_inj'. intros i Hi. rewrite Z.lor_spec, Z.land_spec, Z.shiftl_spec by lia.
  rewrite Z.testbit_ones by lia. destruct (Z.ltb_spec i 8).
  - rewrite (Z.testbit_neg_r _ (i - 8)) by lia. rewrite (proj2 (Z.leb_le 0 i)) by lia.
    by rewrite andb_true_r, orb_false_r.
  - rewrite Z.shiftr_spec by lia. rewrite andb_false_r, andb_false_r. cbn [orb]. f_equal. lia.
Qed.

Lemma peek_n_ok recsize f M r rs : recsize_ok recsize → record_queue recsize f M (r :: rs) →
  __kfifo_peek_n (f, M) recsize = Some (zlen r).
Proof.
  intros Hrs Hq. destruct (first_record recsize f M r rs Hrs Hq) as (Hh & _ & _).
  destruct Hq as (He & Hfit & Hf & _). apply Forall_cons in Hfit as [Hfit _]. unfold fits in Hfit.
  unfold __kfifo_peek_n, __KFIFO_PEEK. rewrite !byte_pos by done.
  destruct Hrs as [->| ->]; unfold header in Hh; cbn [Z.eqb Pos.eqb] in Hh.
  - pose proof (Hh 0%nat _ eq_refl) as H0. change (Z.of_nat 0) with 0 in H0. by rewrite H0.
  - pose proof (Hh 0%nat _ eq_refl) as H0. change (Z.of_nat 0) with 0 in H0. rewrite H0. cbn [mbind option_bind]. change (u64 (2 - 1) =? 0) with false. cbn [negb].
    rewrite slot_add by done. rewrite He. change (1 * 1 + 0) with (Z.of_nat 1).
    rewrite (Hh 1%nat _ eq_refl). cbn [mbind option_bind]. f_equal. apply lor_bytes.
    change (2 ^ (8 * 2)) with (2 ^ 16) in Hfit. lia.
Qed.

(** Removing the first record. *)
Lemma remove_record recsize f M M' r rs : recsize_ok recsize → record_queue recsize f M (r :: rs) →
  (∀ a, data f ≤ a < data f + fbytes f → M' !! a = M !! a) →
  record_queue recsize (set_out f (u32 (out f + zlen r + recsize))) M' rs.
Proof.
  intros Hrs Hq HM. destruct (first_record recsize f M r rs Hrs Hq) as (_ & _ & Hu).
  destruct Hq as (He & Hfit & Hq). apply Forall_cons in Hfit as [_ Hfit]. split; [done|]. split; [done|].
  pose proof (header_len recsize (zlen r) Hrs) as Hh.
  pose proof (queue_remove f M M' _ (zlen r + recsize) Hq) as Q.
  replace (out f + zlen r + recsize) with (out f + (zlen r + recsize)) by lia.
  replace (encodes recsize rs) with
    (drop (Z.to_nat ((zlen r + recsize) * esize f)) (encodes recsize (r :: rs))).
  { apply Q; [destruct Hrs; lia|done]. }
  unfold encodes. cbn [map concat]. rewrite He, Z.mul_1_r.
  replace (Z.to_nat (zlen r + recsize)) with (length (encode recsize r)).
  - by rewrite drop_app_length.
  - unfold encode. rewrite length_app. lia.
Qed.

Lemma out_copy_r_ok recsize f M r rs buf len : recsize_ok recsize → record_queue recsize f M (r :: rs) →
  0 ≤ len → let k := Z.min len (zlen r) in
  mapped M buf k → apart buf k (data f) (fbytes f) →
  kfifo_out_copy_r (f, M) buf len recsize = Some (k, zlen r, put M buf (take (Z.to_nat k) r)).
Proof.
  intros Hrs Hq Hlen k Hm' Hd. destruct (first_record recsize f M r rs Hrs Hq) as (_ & Hr & Hu).
  unfold kfifo_out_copy_r. rewrite (peek_n_ok _ _ _ r rs) by done. cbn [mbind option_bind fst snd].
  replace (if zlen r <? len then zlen r else len) with k
    by (unfold k; destruct (Z.ltb_spec (zlen r) len); lia).
  destruct Hq as (He & _ & Hf & _). pose proof (used_range f Hf).
  assert (Hk : zlen (take (Z.to_nat k) r) = k) by (rewrite length_take; lia).
  rewrite (copy_out_ok f M Hf buf _ (take (Z.to_nat k) r) k); [done|destruct Hrs; lia|rewrite He; lia| |by rewrite Hk|by rewrite Hk].
  intros j x [Hj _]%lookup_take_Some. by apply Hr.
Qed.

Lemma empty_counters recsize f M : recsize_ok recsize → record_queue recsize f M [] → in_ f = out f.
Proof.
  intros Hrs (He & _ & Hf & _ & Hl & _). rewrite He in Hl. simpl in Hl.
  destruct Hf as (_ & _ & _ & Hi & Ho & _). unfold used, u32, wrap in Hl.
  assert ((in_ f - out f) mod 2 ^ 32 = 0) as H0 by lia. clear Hl. dlia.
Qed.

Lemma nonempty_counters recsize f M r rs : recsize_ok recsize → record_queue recsize f M (r :: rs) →
  in_ f ≠ out f.
Proof.
  intros Hrs Hq E. destruct (first_record recsize f M r rs Hrs Hq) as (_ & _ & Hu).
  unfold used in Hu. rewrite E, Z.sub_diag in Hu. change (u32 0) with 0 in Hu. destruct Hrs; lia.
Qed.

Lemma put_frame M buf l d n a : apart buf (zlen l) d n → d ≤ a < d + n → put M buf l !! a = M !! a.
Proof.
  intros Hd Ha. rewrite put_lookup. replace (_ && _) with false; [done|].
  symmetry. apply andb_false_iff. rewrite Z.leb_gt, Z.ltb_ge. unfold apart in Hd. lia.
Qed.

(** ** Properties *)

(** C29: a kfifo refines a bounded queue of bytes.  For at least two elements whose bytes, with the
    number of elements doubled, 32 bits can count, __kfifo_alloc asks for the bytes of 2^k elements
    where 2^k is the number of elements rounded up to a power of two (its comment says down); it
    returns -ENOMEM and a fifo without a buffer when there are none, and else 0 and an empty fifo of
    exactly 2^k elements in the block it was given; one element is refused with -EINVAL.
    __kfifo_in appends as many elements as fit and returns their number, __kfifo_out_peek and
    __kfifo_out return the oldest ones and __kfifo_out removes them, for any element size, any
    wrap-around of the buffer and of the 32-bit counters, and no byte outside the fifo's buffer and
    the destination changes. *)
Theorem kfifo_refines_queue :
  (∀ size esz kmalloc M, 2 ≤ size ≤ 2 ^ 31 → 0 < esz → 2 * size * esz ≤ 2 ^ 32 →
     ∃ k, 1 ≤ k ∧ 2 ^ (k - 1) < size ≤ 2 ^ k ∧
     match kmalloc (2 ^ k * esz) with
     | None => __kfifo_alloc size esz kmalloc = Some (- ENOMEM, Fifo 0 0 0 esz 0)
     | Some d => ∃ f, __kfifo_alloc size esz kmalloc = Some (0, f) ∧
         data f = d ∧ fsize f = 2 ^ k ∧ esize f = esz ∧ used f = 0 ∧
         (mapped M d (2 ^ k * esz) → queue f M [])
     end) ∧
  (∀ esz kmalloc, is_u32 esz → __kfifo_alloc 1 esz kmalloc = Some (- EINVAL, Fifo 0 0 0 esz 0)) ∧
  (∀ f M q buf len l, queue f M q → is_u32 len → bytes_at M buf l → zlen l = len * esize f →
     apart buf (zlen l) (data f) (fbytes f) →
     let k := Z.min len (fsize f - used f) in
     ∃ f' M', __kfifo_in (f, M) buf len = Some (k, (f', M')) ∧
       queue f' M' (q ++ take (Z.to_nat (k * esize f)) l) ∧ fsize f' = fsize f ∧ esize f' = esize f ∧
       ∀ a, ¬ data f ≤ a < data f + fbytes f → M' !! a = M !! a) ∧
  (∀ f M q buf len, queue f M q → is_u32 len →
     let k := Z.min len (used f) in
     let M' := put M buf (take (Z.to_nat (k * esize f)) q) in
     mapped M buf (k * esize f) → apart buf (k * esize f) (data f) (fbytes f) →
     __kfifo_out_peek (f, M) buf len = Some (k, (f, M')) ∧
     ∃ f', __kfifo_out (f, M) buf len = Some (k, (f', M')) ∧
       queue f' M' (drop (Z.to_nat (k * esize f)) q) ∧ fsize f' = fsize f ∧ esize f' = esize f).
Proof.
  split; [|split; [|split]].
  - intros size esz kmalloc M Hs He Hb. destruct (roundup_ok size Hs) as (k & E & Hk31 & Hr).
    assert (2 ^ k ≤ 2 ^ 31) by (apply Z.pow_le_mono_r; lia).
    assert (Hkk : 2 ^ k = 2 * 2 ^ (k - 1)).
    { replace k with (k - 1 + 1) at 1 by lia. rewrite Z.pow_add_r by lia. change (2 ^ 1) with 2. lia. }
    exists k. split; [lia|]. split; [lia|].
    unfold __kfifo_alloc. rewrite E. cbn [mbind option_bind]. rewrite u32_small by lia.
    rewrite (proj2 (Z.ltb_ge _ _)) by lia. rewrite (u64_small (2 ^ k * esz)), (u32_small esz) by nia.
    destruct (kmalloc (2 ^ k * esz)) as [d|]; [|done].
    eexists. split_and!; [done|done| |done|done|intros Hm; by apply new_queue; [| |nia|]].
    unfold fsize. simpl. lia.
  - intros esz kmalloc He. unfold __kfifo_alloc. change (roundup_pow_of_two 1) with (Some 1).
    cbn [mbind option_bind]. change (u32 1 <? 2) with true. cbv iota. by rewrite u32_small.
  - intros f M q buf len l Hq Hlen Hb Hl Hd k.
    destruct (in_ok f M q buf len l Hq Hlen Hb Hl Hd) as (E & Q & F). eexists _, _. split; [exact E|]. done.
  - intros f M q buf len Hq Hlen k M' Hm Hd.
    destruct (out_ok f M q buf len Hq Hlen Hm Hd) as (E1 & E2 & Q). split; [done|].
    eexists. split; [exact E2|]. done.
Qed.

(** A kfifo of records refines a queue of records.  With a length field of one or two
    bytes, __kfifo_in_r appends a record that the field can describe, or returns 0 and
    changes nothing when it does not fit; __kfifo_len_r returns the length of the oldest
    record, __kfifo_out_peek_r and __kfifo_out_r copy at most the requested part of it, and
    __kfifo_out_r and __kfifo_skip_r remove it as a whole; an empty fifo gives nothing. *)
Lemma kfifo_record_refines_queue recsize f M rs :
  recsize_ok recsize → record_queue recsize f M rs →
  (∀ buf l, fits recsize l → bytes_at M buf l → apart buf (zlen l) (data f) (fbytes f) →
     if zlen l + recsize <=? fsize f - used f
     then ∃ f' M', __kfifo_in_r (f, M) buf (zlen l) recsize = Some (zlen l, (f', M')) ∧
            record_queue recsize f' M' (rs ++ [l]) ∧
            ∀ a, ¬ data f ≤ a < data f + fbytes f → M' !! a = M !! a
     else __kfifo_in_r (f, M) buf (zlen l) recsize = Some (0, (f, M))) ∧
  (∀ r rs', rs = r :: rs' →
     __kfifo_len_r (f, M) recsize = Some (zlen r) ∧
     (∃ f', __kfifo_skip_r (f, M) recsize = Some (f', M) ∧ record_queue recsize f' M rs') ∧
     ∀ buf len, 0 ≤ len → let k := Z.min len (zlen r) in
       mapped M buf k → apart buf k (data f) (fbytes f) →
       let M' := put M buf (take (Z.to_nat k) r) in
       __kfifo_out_peek_r (f, M) buf len recsize = Some (k, (f, M')) ∧
       ∃ f', __kfifo_out_r (f, M) buf len recsize = Some (k, (f', M')) ∧ record_queue recsize f' M' rs') ∧
  (rs = [] → ∀ buf len, __kfifo_out_peek_r (f, M) buf len recsize = Some (0, (f, M)) ∧
     __kfifo_out_r (f, M) buf len recsize = Some (0, (f, M))).
Proof.
  intros Hrs Hq. split; [|split].
  - intros buf l Hfit Hb Hd. by apply in_r_ok.
  - intros r rs' ->. pose proof (peek_n_ok recsize f M r rs' Hrs Hq) as Ep.
    pose proof (nonempty_counters recsize f M r rs' Hrs Hq) as Hne. apply Z.eqb_neq in Hne.
    split; [done|]. split.
    + eexists. unfold __kfifo_skip_r. rewrite Ep. split; [done|]. by apply (remove_record _ _ M).
    + intros buf len Hlen k Hm Hd M'.
      pose proof (out_copy_r_ok recsize f M r rs' buf len Hrs Hq Hlen Hm Hd) as E. fold k M' in E.
      unfold __kfifo_out_peek_r, __kfifo_out_r. cbn [fst]. rewrite Hne, E. split; [done|].
      eexists. split; [done|]. apply (remove_record _ _ M); [done|done|].
      intros a Ha. apply (put_frame _ _ _ (data f) (fbytes f)); [|done].
      rewrite length_take. by replace (Z.of_nat (Nat.min (Z.to_nat k) (length r))) with k by lia.
  - intros -> buf len. pose proof (empty_counters recsize f M Hrs Hq) as E. apply Z.eqb_eq in E.
    unfold __kfifo_out_peek_r, __kfifo_out_r. cbn [fst]. by rewrite E.
Qed.

(** ** Witnesses *)

(** Four bytes at 100, with the counters about to wrap, and three bytes at 200. *)
Definition demo_fifo : __kfifo := Fifo (2 ^ 32 - 2) (2 ^ 32 - 2) 3 1 100.
Definition fifo_mem : mem := put (put ∅ 100 [0; 0; 0; 0]) 200 [7; 8; 9].

Lemma demo_queue : queue demo_fifo fifo_mem [].
Proof.
  split; [|split; [|split]].
  - split; [exists 2; split; [lia|reflexivity]|]. by repeat split.
  - intros a Ha. assert (a = 100 ∨ a = 101 ∨ a = 102 ∨ a = 103) as [->|[->|[->| ->]]]
      by (unfold fbytes, fsize in Ha; simpl in Ha; lia); by eexists.
  - reflexivity.
  - done.
Qed.

(** An allocator with four bytes at 100: a fifo for three bytes gets all of them. *)
Definition four_bytes (n : Z) : option Z := if n <=? 4 then Some 100 else None.

Example kfifo_refines_queue_witness :
  (∃ f, __kfifo_alloc 3 1 four_bytes = Some (0, f) ∧ fsize f = 4 ∧ queue f fifo_mem []) ∧
  ∃ f' M', __kfifo_in (demo_fifo, fifo_mem) 200 3 = Some (3, (f', M')) ∧ queue f' M' [7; 8; 9].
Proof.
  destruct kfifo_refines_queue as (Ha & _ & Hi & _). split.
  - destruct (Ha 3 1 four_bytes fifo_mem) as (k & Hk & Hr & Hm); [lia..|].
    assert (k = 2) as ->.
    { assert (k ≤ 2 ∨ 3 ≤ k) as [?|H3] by lia; [assert (k = 1 ∨ k = 2) as [->| ->] by lia; [simpl in Hr; lia|done]|].
      pose proof (Z.pow_le_mono_r 2 2 (k - 1) ltac:(lia) ltac:(lia)). lia. }
    destruct Hm as (f & E & _ & Hs & _ & _ & Hq). exists f. split_and!; [exact E|exact Hs|].
    apply Hq. exact (proj1 (proj2 demo_queue)).
  - destruct (Hi demo_fifo fifo_mem [] 200 3 [7; 8; 9]) as (f' & M' & E & Q & _).
    + apply demo_queue.
    + lia.
    + apply bytes_at_put.
    + reflexivity.
    + right. vm_compute. discriminate.
    + exists f', M'. split; [exact E|exact Q].
Defined.

Example kfifo_record_refines_queue_witness :
  ∃ f' M', __kfifo_in_r (demo_fifo, fifo_mem) 200 3 1 = Some (3, (f', M')) ∧
    record_queue 1 f' M' [[7; 8; 9]].
Proof.
  destruct (kfifo_record_refines_queue 1 demo_fifo fifo_mem []) as (H & _).
  - by left.
  - split; [done|]. split; [done|]. apply demo_queue.
  - destruct (H 200 [7; 8; 9]) as (f' & M' & E & Q & _).
    + done.
    + apply bytes_at_put.
    + right. vm_compute. discriminate.
    + exists f', M'. split; [exact E|exact Q].
Defined.

(** ** User-space copies without faults *)

(** A copy that never faults. *)
Definition full_copy (M : mem) (dst src n : Z) : option (Z * mem) :=
  M ← memcpy M dst src n; Some (0, M).

Lemma copy_user_full f M p len off : fifo_ok f → 0 ≤ len ≤ fsize f →
  kfifo_copy_from_user full_copy f M p len off =
    (M' ← kfifo_copy_in f M p len off; Some (0, len * esize f, M')) ∧
  kfifo_copy_to_user full_copy f M p len off =
    (M' ← kfifo_copy_out f M p len off; Some (0, len * esize f, M')).
Proof.
  intros Hf Hlen. unfold kfifo_copy_from_user, kfifo_copy_to_user, kfifo_copy_in, kfifo_copy_out, full_copy.
  rewrite geometry_ok by done.
  assert (Hb : 0 ≤ len * esize f < 2 ^ 32) by (destruct Hf as (_ & He & Hb & _); unfold fbytes in Hb; nia).
  split.
  - destruct (memcpy M _ p _) as [M1|]; cbn [mbind option_bind negb Z.eqb]; [|done].
    destruct (memcpy M1 _ _ _) as [M2|]; cbn [mbind option_bind negb Z.eqb]; [|done].
    by rewrite Z.sub_0_r, u32_small by done.
  - destruct (memcpy M p _ _) as [M1|]; cbn [mbind option_bind negb Z.eqb]; [|done].
    destruct (memcpy M1 _ _ _) as [M2|]; cbn [mbind option_bind negb Z.eqb]; [|done].
    by rewrite Z.sub_0_r, u32_small by done.
Qed.

(** Without faults __kfifo_from_user is __kfifo_in and __kfifo_to_user is __kfifo_out, and
    *copied is the number of bytes. *)
Lemma user_full f M p len : fifo_ok f → is_u32 len →
  __kfifo_from_user full_copy (f, M) p (len * esize f) =
    ('(k, s) ← __kfifo_in (f, M) p len; Some (0, k * esize f, s)) ∧
  __kfifo_to_user full_copy (f, M) p (len * esize f) =
    ('(k, s) ← __kfifo_out (f, M) p len; Some (0, k * esize f, s)).
Proof.
  intros Hf Hlen. pose proof (used_range f Hf) as Hu. pose proof (fsize_pos f Hf) as Hs.
  pose proof Hf as (_ & He & _).
  assert (E : (if negb (esize f =? 1) then if esize f =? 0 then None else Some (len * esize f / esize f)
               else Some (len * esize f)) = Some len).
  { destruct (Z.eqb_spec (esize f) 1) as [->|]; cbn [negb]; [by rewrite Z.mul_1_r|].
    rewrite (proj2 (Z.eqb_neq (esize f) 0)) by lia. by rewrite Z.div_mul by lia. }
  unfold __kfifo_from_user, __kfifo_to_user, __kfifo_in, __kfifo_out, __kfifo_out_peek.
  rewrite E. cbn [mbind option_bind]. fold (used f). rewrite unused_ok by done. split.
  - set (k := if fsize f - used f <? len then _ else _).
    assert (Hk : 0 ≤ k ≤ fsize f) by (unfold k; destruct (Z.ltb_spec (fsize f - used f) len); lia).
    rewrite (u32_small k) by lia. rewrite (proj1 (copy_user_full f M p k (in_ f) Hf Hk)).
    by destruct (kfifo_copy_in f M p k (in_ f)).
  - set (k := if used f <? len then _ else _).
    assert (Hk : 0 ≤ k ≤ fsize f) by (unfold k; destruct (Z.ltb_spec (used f) len); lia).
    rewrite (u32_small k) by lia. rewrite (proj2 (copy_user_full f M p k (out f) Hf Hk)).
    by destruct (kfifo_copy_out f M p k (out f)).
Qed.

(** ** Defects *)

(** __kfifo_init rounds the element count up: a buffer of three bytes becomes a fifo of
    four, and filling it writes behind the buffer. *)
Lemma kfifo_init_overflows :
  __kfifo_init 100 3 1 = Some (0, Fifo 0 0 3 1 100) ∧
  __kfifo_in (Fifo 0 0 3 1 100, put (put ∅ 100 [0; 0; 0]) 200 [1; 2; 3; 4]) 200 4 = None.
Proof. vm_compute. done. Qed.

(** When a fault interrupts a copy, *copied is the number of bytes minus the number of
    elements not copied: 7 instead of 4 for one of two four-byte elements. *)
Lemma kfifo_copied_mixes_units :
  match __kfifo_from_user (λ M _ _ n, Some (Z.max 0 (n - 4), M)) (Fifo 0 0 3 4 100, ∅) 200 8 with
  | Some (err, copied, (f, _)) => err = - EFAULT ∧ copied = 7 ∧ in_ f = 1
  | None => False
  end.
Proof. vm_compute. done. Qed.

(** __kfifo_in_r does not limit the record to what its length field can hold: a record of
    300 bytes is accepted with a one-byte field and read back as 44 bytes. *)
Lemma kfifo_in_r_truncates_length :
  match __kfifo_in_r (Fifo 0 0 511 1 0, put ∅ 0 (replicate 1024 5)) 600 300 1 with
  | Some (r, s) => r = 300 ∧ __kfifo_len_r s 1 = Some 44
  | None => False
  end.
Proof. vm_compute. done. Qed.
