(* ===== verification/Bcb.v ===== *)
(** * Bcb: the boot control block (ufbl-features bcb.c, cmd_bcb.c)

    The device has two copies ("slots") of its system.  Eight bytes of the misc
    partition say which one to boot, how often it may still fail and whether it
    ever succeeded.  This file models the library that the boot loader uses to
    choose a slot (bcb.c, bootctrl.h, bcb.h), the commands of the boot loader
    shell and of fastboot that change the choice (cmd_bcb.c), and the routines of
    u-boot they call (find_cmd_tbl, simple_strtoul, strncmp).

    The platform (the storage driver, the reset reason, the environment and the
    console) is a parameter, the class [bcb_platform]; [world] is its state.  A
    buffer on the stack that the code does not initialise has the contents
    [uninit] says.  [Hang] is the endless loop of ufbl_get_active_slot, [Undef] an
    undefined operation: an index outside [slot_info] or [argv], a string without
    its terminator. *)

From S2P Require Import Prelude Strings.

(** ** Data (bootctrl.h, bcb.h) *)

Definition OFFSETOF_SLOT_SUFFIX : nat := 864.
Definition BOOTCTRL_MAGIC : Z := 0x42424100.
Definition BOOT_CONTROL_VERSION : Z := 1.
Definition BCB_DEFAULT_MAX_RETRIES : Z := 3.
Definition BCB_MAX_SLOT_PRIORITY : Z := 15.
Definition BCB_DEFAULT_ACTIVE_SLOT_PRIORITY : Z := BCB_MAX_SLOT_PRIORITY.
Definition BCB_DEFAULT_OTHER_SLOT_PRIORITY : Z := BCB_MAX_SLOT_PRIORITY - 1.

(** Bit fields of 4, 3 and 1 bits in one byte, from the lowest bit on. *)
Record slot_metadata : Type := Slot
  { priority : Z; tries_remaining : Z; successful_boot : Z }.

Definition set_priority (p : Z) (s : slot_metadata) : slot_metadata :=
  Slot (wrap 4 p) (tries_remaining s) (successful_boot s).
Definition set_tries (t : Z) (s : slot_metadata) : slot_metadata :=
  Slot (priority s) (wrap 3 t) (successful_boot s).
Definition set_successful (b : Z) (s : slot_metadata) : slot_metadata :=
  Slot (priority s) (tries_remaining s) (wrap 1 b).

Record boot_ctrl : Type := BootCtrl
  { magic : Z; version : Z; slot_0 : slot_metadata; slot_1 : slot_metadata;
    recovery_tries_remaining : Z }.

(** [slot_info[i]], for the indices 0 and 1 the array has. *)
Definition slot_info (b : boot_ctrl) (i : Z) : slot_metadata :=
  if i =? 0 then slot_0 b else slot_1 b.
Definition upd_slot (i : Z) (f : slot_metadata → slot_metadata) (b : boot_ctrl) : boot_ctrl :=
  if i =? 0
  then BootCtrl (magic b) (version b) (f (slot_0 b)) (slot_1 b) (recovery_tries_remaining b)
  else BootCtrl (magic b) (version b) (slot_0 b) (f (slot_1 b)) (recovery_tries_remaining b).

(** The bytes of the structure: no padding, little endian. *)
Definition encode_slot (s : slot_metadata) : Z :=
  priority s .| Z.shiftl (tries_remaining s) 4 .| Z.shiftl (successful_boot s) 7.
Definition decode_slot (x : Z) : slot_metadata :=
  Slot (wrap 4 x) (wrap 3 (x >>u 4)) (wrap 1 (x >>u 7)).

Definition bcb_encode (b : boot_ctrl) : list Z :=
  [u8 (magic b); u8 (magic b >>u 8); u8 (magic b >>u 16); u8 (magic b >>u 24); version b;
   encode_slot (slot_0 b); encode_slot (slot_1 b); recovery_tries_remaining b].
Definition bcb_byte (buf : list Z) (i : nat) : Z := default 0 (buf !! i).
Definition bcb_decode (buf : list Z) : boot_ctrl :=
  BootCtrl (bcb_byte buf 0 .| Z.shiftl (bcb_byte buf 1) 8 .| Z.shiftl (bcb_byte buf 2) 16
              .| Z.shiftl (bcb_byte buf 3) 24)
    (bcb_byte buf 4) (decode_slot (bcb_byte buf 5)) (decode_slot (bcb_byte buf 6)) (bcb_byte buf 7).

Definition sizeof_boot_ctrl : nat := 8.
Definition sizeof_misc_buf : nat := OFFSETOF_SLOT_SUFFIX + sizeof_boot_ctrl.

(** Access to the structure that lies in [misc_buf] behind the other fields. *)
Definition bctrl_of (misc_buf : list Z) : boot_ctrl := bcb_decode (drop OFFSETOF_SLOT_SUFFIX misc_buf).
Definition put_bctrl (b : boot_ctrl) (misc_buf : list Z) : list Z :=
  take OFFSETOF_SLOT_SUFFIX misc_buf ++ bcb_encode b.
Definition zeros (n : nat) : list Z := replicate n 0.

(** ** The platform (bcb_platform.h) and effects *)

Notation cptr := (list Z) (only parsing).

(** What the commands print. *)
Inductive message : Type :=
  | Active_slot (slot : Z)
  | Slot_data (b : boot_ctrl)
  | Active_boot_partition (name : cptr) (start_block : Z)
  | Incorrect_number_of_parameters
  | Failed_to_read_slot_data
  | Failed_to_find_slot (name : cptr).

Class bcb_platform : Type :=
  { world : Type;
    CONFIG_BCB_RANDOMISE_DEFAULT : bool;
    CONFIG_BCB_RETURN_FAIL_ON_RETRY_LIMIT : bool;
    sizeof_ptr : Z;
    CMD_RET_USAGE : Z;
    CMD_RET_SUCCESS : Z;
    rand : world → Z * world;
    platform_support_pingpong : world → bool * world;
    platform_last_boot_failed_pingpong : world → bool * world;
    platform_read_partition : list Z → world → bool * list Z * world;
    platform_write_partition : list Z → world → bool * world;
    platform_get_boot_partition_name : Z → option cptr;
    platform_get_partition_info : cptr → world → option Z * world;
    setenv_hex : Z → world → Z * world;
    getenv_slot_suffixes : world → option cptr;
    fastboot_printf : message → world → world;
    uninit : nat → world → list Z }.

Inductive outcome (A : Type) : Type := Done (a : A) | Hang | Undef.
Arguments Done {A} a.
Arguments Hang {A}.
Arguments Undef {A}.

Section Bcb.
Context {P : bcb_platform}.

Definition boot (A : Type) : Type := world → outcome A * world.

#[export] Instance boot_ret : MRet boot := λ A a w, (Done a, w).
#[export] Instance boot_bind : MBind boot := λ A B f m w,
  match m w with
  | (Done a, w') => f a w'
  | (Hang, w') => (Hang, w')
  | (Undef, w') => (Undef, w')
  end.

Definition call {A} (f : world → A * world) : boot A := λ w, let '(a, w') := f w in (Done a, w').
Definition ask {A} (f : world → A) : boot A := λ w, (Done (f w), w).
Definition print_ (m : message) : boot unit := λ w, (Done tt, fastboot_printf m w).
Definition hang {A} : boot A := λ w, (Hang, w).
Definition defined {A} (o : option A) : boot A := λ w,
  match o with Some a => (Done a, w) | None => (Undef, w) end.

(** ** bcb.c *)

(** The loops [while (retry --)] over at most [retry] attempts. *)
Fixpoint read_retry (retry : nat) (misc_buf : list Z) : boot (bool * list Z) :=
  match retry with
  | O => mret (false, misc_buf)
  | S retry =>
      '(ok, misc_buf) ← call (platform_read_partition misc_buf);
      if (ok : bool) then mret (true, misc_buf) else read_retry retry misc_buf
  end.
Definition ufbl_read_misc (misc_buf : list Z) : boot (bool * list Z) := read_retry 3 misc_buf.

Fixpoint write_retry (retry : nat) (misc_buf : list Z) : boot bool :=
  match retry with
  | O => mret false
  | S retry =>
      ok ← call (platform_write_partition misc_buf);
      if (ok : bool) then mret true else write_retry retry misc_buf
  end.
Definition ufbl_write_misc (misc_buf : list Z) : boot bool := write_retry 3 misc_buf.

Definition create_default_metadata (bctrl : boot_ctrl) (default_active_slot : Z) : boot_ctrl :=
  let bctrl := BootCtrl BOOTCTRL_MAGIC BOOT_CONTROL_VERSION (slot_0 bctrl) (slot_1 bctrl)
                 (recovery_tries_remaining bctrl) in
  let '(p0, p1) := if default_active_slot =? 0
    then (BCB_DEFAULT_ACTIVE_SLOT_PRIORITY, BCB_DEFAULT_OTHER_SLOT_PRIORITY)
    else (BCB_DEFAULT_OTHER_SLOT_PRIORITY, BCB_DEFAULT_ACTIVE_SLOT_PRIORITY) in
  let fresh p s := set_successful 0 (set_tries BCB_DEFAULT_MAX_RETRIES (set_priority p s)) in
  upd_slot 1 (fresh p1) (upd_slot 0 (fresh p0) bctrl).

(** A null [bctrl] is [false]; the structure read is returned. *)
Definition ufbl_get_boot_ctrl : boot (option boot_ctrl) :=
  pingpong ← call platform_support_pingpong;
  if (pingpong : bool) then
    misc_buf ← ask (uninit sizeof_misc_buf);
    '(ok, misc_buf) ← ufbl_read_misc misc_buf;
    mret (if (ok : bool) then Some (bctrl_of misc_buf) else None)
  else mret None.

Definition ufbl_set_boot_ctrl (bctrl : boot_ctrl) : boot bool :=
  misc_buf ← ask (uninit sizeof_misc_buf);
  pingpong ← call platform_support_pingpong;
  if (pingpong : bool) then ufbl_write_misc (put_bctrl bctrl misc_buf) else mret false.

Definition default_buf (default_slot : Z) : list Z :=
  let misc_buf := zeros sizeof_misc_buf in
  put_bctrl (create_default_metadata (bctrl_of misc_buf) default_slot) misc_buf.

(** The slot of higher priority; two equal priorities that are not zero are a
    corruption, and the default metadata are made again. *)
Definition select_slot (misc_buf : list Z) (write_back : bool) (default_slot : Z)
  : Z * list Z * bool :=
  let bctrl := bctrl_of misc_buf in
  if priority (slot_info bctrl 1) <? priority (slot_info bctrl 0) then (0, misc_buf, write_back)
  else if priority (slot_info bctrl 0) <? priority (slot_info bctrl 1) then
    (1, misc_buf, write_back)
  else if 0 <? priority (slot_info bctrl 0) then (default_slot, default_buf default_slot, true)
  else (-1, misc_buf, write_back).

(** The last boot of the active slot failed: use up one try, or give it up. *)
Definition boot_failed (active_slot : Z) (misc_buf : list Z) : Z * list Z :=
  let bctrl := bctrl_of misc_buf in
  if 0 <? tries_remaining (slot_info bctrl active_slot) then
    let bctrl := upd_slot active_slot (λ s, set_tries (tries_remaining s - 1) s) bctrl in
    (active_slot, put_bctrl bctrl misc_buf)
  else
    let bctrl := upd_slot active_slot (λ s, set_successful 0 (set_priority 0 s)) bctrl in
    let active_slot := if active_slot =? 0 then 1 else 0 in
    (if priority (slot_info bctrl active_slot) =? 0 then -1 else active_slot,
     put_bctrl bctrl misc_buf).

Definition ufbl_get_active_slot : boot Z :=
  default_slot ← (if CONFIG_BCB_RANDOMISE_DEFAULT
                  then r ← call rand; mret (Z.rem r 2) else mret 0);
  pingpong ← call platform_support_pingpong;
  if negb pingpong then mret (-1) else
  '(ok, misc_buf) ← ufbl_read_misc (zeros sizeof_misc_buf);
  let '(misc_buf, write_back) :=
    if (ok : bool) then (misc_buf, false) else (default_buf default_slot, true) in
  let '(misc_buf, write_back) :=
    if negb (magic (bctrl_of misc_buf) =? BOOTCTRL_MAGIC)
    then (default_buf default_slot, true) else (misc_buf, write_back) in
  let '(active_slot, misc_buf, write_back) := select_slot misc_buf write_back default_slot in
  '(active_slot, misc_buf, write_back) ←
    (if 0 <=? active_slot then
       failed ← call platform_last_boot_failed_pingpong;
       mret (if (failed : bool) then (boot_failed active_slot misc_buf, true)
             else (active_slot, misc_buf, write_back))
     else mret (active_slot, misc_buf, write_back));
  _ ← (if (write_back : bool) then
         ok ← ufbl_write_misc misc_buf;
         if (ok : bool) then _ ← ufbl_read_misc (zeros sizeof_misc_buf); mret tt else mret tt
       else mret tt);
  if negb CONFIG_BCB_RETURN_FAIL_ON_RETRY_LIMIT && (active_slot <? 0) then hang
  else mret active_slot.

(** An index into [slot_info] that comes from the caller. *)
Definition slot_index (slot : Z) : option unit :=
  if (0 <=? slot) && (slot <=? 1) then Some tt else None.

Definition ufbl_is_slot_bootable (slot : Z) : boot bool :=
  b ← ufbl_get_boot_ctrl;
  match b with
  | Some bctrl =>
      _ ← defined (slot_index slot);
      mret (0 <? priority (slot_info bctrl slot))
  | None => mret false
  end.

Definition ufbl_set_slot_as_unbootable (slot : Z) : boot Z :=
  b ← ufbl_get_boot_ctrl;
  match b with
  | Some bctrl =>
      _ ← defined (slot_index slot);
      let bctrl := upd_slot slot (λ s, set_successful 0 (set_priority 0 (set_tries 0 s))) bctrl in
      ok ← ufbl_set_boot_ctrl bctrl;
      mret (if (ok : bool) then 0 else -1)
  | None => mret (-1)
  end.

(** ** Library routines of u-boot

    A C string is the list of its bytes up to and with the terminator. *)

(** lib/string.c; the pointers are not null here.  The difference is kept in a
    signed char. *)
Fixpoint ub_strncmp (count : nat) (cs ct : cptr) : option Z :=
  match count with
  | O => Some 0
  | S count =>
      c1 ← head cs; c2 ← head ct;
      let res := wrap 8 (c1 - c2 + 2 ^ 7) - 2 ^ 7 in
      if negb (res =? 0) || (c1 =? 0) then Some res else ub_strncmp count (tail cs) (tail ct)
  end.

(** The suffix that starts with the first [c]. *)
Fixpoint ub_strchr (s : cptr) (c : Z) : option (option cptr) :=
  match s with
  | [] => None
  | x :: s' => if x =? c then Some (Some s) else if x =? 0 then Some None else ub_strchr s' c
  end.

Fixpoint ub_strlen (s : cptr) : option nat :=
  match s with
  | [] => None
  | x :: s' => if x =? 0 then Some O else S <$> ub_strlen s'
  end.

(** The loop of simple_strtoul; [unsigned long] is as wide as a pointer. *)
Definition ub_digit (c : Z) : option Z :=
  if isxdigit c then
    Some (if isdigit c then c - 48 else (if islower c then toupper c else c) - 65 + 10)
  else None.
Fixpoint ub_strtoul_loop (base result : Z) (cp : cptr) : option Z :=
  match cp with
  | [] => None
  | c :: cp =>
      match ub_digit c with
      | Some value =>
          if value <? base
          then ub_strtoul_loop base (wrap (8 * sizeof_ptr) (result * base + value)) cp
          else Some result
      | None => Some result
      end
  end.
Definition ub_simple_strtoul (cp : cptr) (base : Z) : option Z :=
  c ← head cp;
  '(cp, base) ←
    (if c =? 48 then
       c1 ← cp !! 1%nat;
       hex ← (if c1 =? 120 then isxdigit <$> cp !! 2%nat else Some false);
       let '(cp, base) := if (hex : bool) then (drop 2 cp, 16) else (tail cp, base) in
       Some (cp, if base =? 0 then 8 else base)
     else Some (cp, base));
  ub_strtoul_loop (if base =? 0 then 10 else base) 0 cp.

(** ** cmd_bcb.c

    A pointer in [argv] may be null; reading behind the array is undefined. *)

Notation argv_t := (list (option cptr)).

Record cmd_tbl : Type := Cmd
  { cmd_name : cptr; maxargs : Z; repeatable : bool;
    cmd_fun : Z → Z → argv_t → boot Z }.

Definition CMD_FLAG_REPEAT : Z := 1.

Definition arg (argv : argv_t) (i : nat) : boot cptr := defined (mjoin (argv !! i)).

Definition do_bcb_info (_ _ : Z) (_ : argv_t) : boot Z :=
  slot ← ufbl_get_active_slot;
  _ ← print_ (Active_slot slot);
  mret 0.

Definition do_bcb_read (_ _ : Z) (_ : argv_t) : boot Z :=
  b ← ufbl_get_boot_ctrl;
  match b with
  | Some bctrl => _ ← print_ (Slot_data bctrl); mret 0
  | None => mret (-1)
  end.

Definition number_arg (argv : argv_t) (i : nat) : boot Z :=
  a ← arg argv i; defined (ub_simple_strtoul a 10).

Definition do_bcb_write (max argc : Z) (argv : argv_t) : boot Z :=
  if negb (argc =? max) then _ ← print_ Incorrect_number_of_parameters; mret (-1) else
  b ← ufbl_get_boot_ctrl;
  match b with
  | Some bctrl =>
      p0 ← number_arg argv 1; t0 ← number_arg argv 2; s0 ← number_arg argv 3;
      p1 ← number_arg argv 4; t1 ← number_arg argv 5; s1 ← number_arg argv 6;
      let fields p t s m := set_successful s (set_tries t (set_priority p m)) in
      let bctrl := upd_slot 1 (fields p1 t1 s1) (upd_slot 0 (fields p0 t0 s0) bctrl) in
      ok ← ufbl_set_boot_ctrl bctrl;
      mret (if (ok : bool) then 0 else -1)
  | None => mret (-1)
  end.

(** [old_slot] loses the highest priority, [new_slot] gets it. *)
Definition lower_priority (s : slot_metadata) : slot_metadata :=
  if BCB_DEFAULT_OTHER_SLOT_PRIORITY <? priority s
  then set_priority BCB_DEFAULT_OTHER_SLOT_PRIORITY s else s.

Definition do_bcb_swap (_ _ : Z) (_ : argv_t) : boot Z :=
  b ← ufbl_get_boot_ctrl;
  match b with
  | Some bctrl =>
      curr_slot ← ufbl_get_active_slot;
      let curr_slot := if negb (curr_slot =? 1) then 0 else curr_slot in
      let new_slot := Z.lxor curr_slot 1 in
      let bctrl := upd_slot new_slot (set_priority BCB_DEFAULT_ACTIVE_SLOT_PRIORITY) bctrl in
      let bctrl := upd_slot curr_slot lower_priority bctrl in
      ok ← ufbl_set_boot_ctrl bctrl;
      if (ok : bool) then
        slot ← ufbl_get_active_slot;
        _ ← print_ (Active_slot slot);
        mret 0
      else mret (-1)
  | None => mret (-1)
  end.

Definition do_bcb_get_boot_part (_ _ : Z) (_ : argv_t) : boot Z :=
  active_slot ← ufbl_get_active_slot;
  match platform_get_boot_partition_name active_slot with
  | Some name =>
      info ← call (platform_get_partition_info name);
      match info with
      | Some start_block =>
          _ ← print_ (Active_boot_partition name start_block);
          call (setenv_hex start_block)
      | None => mret (-1)
      end
  | None => mret (-1)
  end.

(** The number of the slot a name stands for, -1 for none. *)
Definition slot_val_of (name : cptr) (slot_suffixes : option cptr) : option Z :=
  c0 ← ub_strncmp 1 name [48; 0];
  if c0 =? 0 then Some 0 else
  c1 ← ub_strncmp 1 name [49; 0];
  if c1 =? 0 then Some 1 else
  match slot_suffixes with
  | Some suffixes =>
      sep ← ub_strchr suffixes 44;
      match sep with
      | Some sep =>
          first ← ub_strncmp (length suffixes - length sep) name suffixes;
          if first =? 0 then Some 0 else
          second ← ub_strncmp (Z.to_nat sizeof_ptr) name (tail sep);
          Some (if second =? 0 then 1 else -1)
      | None => Some (-1)
      end
  | None => Some (-1)
  end.

Definition do_bcb_set_active (max argc : Z) (argv : argv_t) : boot Z :=
  if negb (argc =? max) then _ ← print_ Incorrect_number_of_parameters; mret (-1) else
  b ← ufbl_get_boot_ctrl;
  match b with
  | None => _ ← print_ Failed_to_read_slot_data; mret (-1)
  | Some bctrl =>
      name ← arg argv 1;
      suffixes ← ask getenv_slot_suffixes;
      slot_val ← defined (slot_val_of name suffixes);
      if slot_val <? 0 then _ ← print_ (Failed_to_find_slot name); mret (-1) else
      let other := Z.lxor slot_val 1 in
      if priority (slot_info bctrl slot_val) <=? priority (slot_info bctrl other) then
        let bctrl := if priority (slot_info bctrl slot_val) =? 0
                     then upd_slot slot_val (set_successful 0) bctrl else bctrl in
        let bctrl := upd_slot slot_val (set_priority BCB_DEFAULT_ACTIVE_SLOT_PRIORITY) bctrl in
        let bctrl := upd_slot other lower_priority bctrl in
        ok ← ufbl_set_boot_ctrl bctrl;
        mret (if (ok : bool) then 0 else -1)
      else mret 0
  end.

(** The names info, read, write, swap, set_active and bootpart. *)
Definition cmd_bcb : list cmd_tbl :=
  [Cmd [105; 110; 102; 111; 0] 1 false do_bcb_info;
   Cmd [114; 101; 97; 100; 0] 1 false do_bcb_read;
   Cmd [119; 114; 105; 116; 101; 0] 7 false do_bcb_write;
   Cmd [115; 119; 97; 112; 0] 1 false do_bcb_swap;
   Cmd [115; 101; 116; 95; 97; 99; 116; 105; 118; 101; 0] 2 false do_bcb_set_active;
   Cmd [98; 111; 111; 116; 112; 97; 114; 116; 0] 1 false do_bcb_get_boot_part].

(** The search of u-boot's command.c: a full match, or the only abbreviation;
    [found] is the last abbreviation met and [n_found] how many there were. *)
Fixpoint find_cmd_loop (cmd : cptr) (len : nat) (table : list cmd_tbl)
    (found : option cmd_tbl) (n_found : nat) : option (option cmd_tbl) :=
  match table with
  | [] => Some (if bool_decide (n_found = 1%nat) then found else None)
  | c :: table =>
      r ← ub_strncmp len cmd (cmd_name c);
      if r =? 0 then
        n ← ub_strlen (cmd_name c);
        if bool_decide (len = n) then Some (Some c)
        else find_cmd_loop cmd len table (Some c) (S n_found)
      else find_cmd_loop cmd len table found n_found
  end.
Definition find_cmd_tbl (cmd : option cptr) (table : list cmd_tbl) : option (option cmd_tbl) :=
  match cmd with
  | None => Some None
  | Some cmd =>
      dot ← ub_strchr cmd 46;
      len ← match dot with
            | None => ub_strlen cmd
            | Some p => Some (length cmd - length p)%nat
            end;
      find_cmd_loop cmd len table (head table) 0
  end.

Definition do_bcb_uboot (flag argc : Z) (argv : argv_t) : boot Z :=
  a1 ← defined (argv !! 1%nat);
  cp ← defined (find_cmd_tbl a1 cmd_bcb);
  let argc := argc - 1 in
  let argv := tail argv in
  match cp with
  | None => mret CMD_RET_USAGE
  | Some cp =>
      if maxargs cp <? argc then mret CMD_RET_USAGE
      else if (flag =? CMD_FLAG_REPEAT) && negb (repeatable cp) then mret CMD_RET_SUCCESS
      else cmd_fun cp (maxargs cp) argc argv
  end.

(** The loop of fastboot_bcb: [i] is the position of [ptr] in the string [cmd],
    which is cut into words in place; [argv] holds the positions of the words in
    reverse, in an array of nine.  [None] is an undefined access (a store behind
    the array, no terminator), [Some None] the return when the array is full. *)
Definition argv_size : nat := 9.
Fixpoint split_loop (rest : list Z) (i : nat) (cmd : list Z) (argv : list nat) (inword : bool)
  : option (option (list Z * list nat)) :=
  match rest with
  | [] => None
  | c :: rest =>
      if c =? 0 then Some (Some (cmd, argv)) else
      '(cmd, argv, inword) ←
        (if inword then Some (if c =? 32 then (<[i := 0]> cmd, argv, false) else (cmd, argv, true))
         else if negb (c =? 32) then
           if (length argv <? argv_size)%nat then Some (cmd, i :: argv, true) else None
         else Some (cmd, argv, false));
      if (argv_size <=? length argv)%nat then Some None
      else split_loop rest (S i) cmd argv inword
  end.

(** Only the first [argc] of the nine pointers of [argv] are initialised. *)
Definition fastboot_bcb (cmd : list Z) : boot Z :=
  r ← defined (split_loop cmd 0 cmd [] false);
  match r with
  | None => mret (-1)
  | Some (cmd, argv) =>
      do_bcb_uboot 0 (Z.of_nat (length argv)) ((λ i, Some (drop i cmd)) <$> reverse argv)
  end.
End Bcb.
