(* ===== verification/BcbThm.v ===== *)
(** * BcbThm: the boot control block chooses slots as it promises

    The layout of the block in the misc partition, what the platform promises, the
    abstract boot step that ufbl_get_active_slot refines, series of boots and the
    commands that select a slot; the theorems are in BcbCmd. *)

From S2P Require Import Prelude Strings Bcb.

(** ** The layout *)

Lemma default_buf_bytes d : d = 0 ∨ d = 1 → default_buf d =
  zeros OFFSETOF_SLOT_SUFFIX ++ bcb_encode
    (if d =? 0 then BootCtrl BOOTCTRL_MAGIC 1 (Slot 15 3 0) (Slot 14 3 0) 0
     else BootCtrl BOOTCTRL_MAGIC 1 (Slot 14 3 0) (Slot 15 3 0) 0).
Proof. intros [-> | ->]; vm_compute; reflexivity. Qed.

Lemma length_zeros n : length (zeros n) = n.
Proof. apply length_replicate. Qed.

Lemma zeros_bytes n : Forall (λ c, is_u8 c) (zeros n).
Proof. apply Forall_replicate. lia. Qed.

Lemma sizeof_eq : sizeof_misc_buf = (OFFSETOF_SLOT_SUFFIX + 8)%nat.
Proof. reflexivity. Qed.

(** The numbers are never unfolded from here on. *)
#[local] Opaque OFFSETOF_SLOT_SUFFIX sizeof_misc_buf zeros default_buf.

Definition wf_slot (s : slot_metadata) : Prop :=
  0 ≤ priority s < 2 ^ 4 ∧ 0 ≤ tries_remaining s < 2 ^ 3 ∧ 0 ≤ successful_boot s < 2 ^ 1.
Definition wf_ctrl (b : boot_ctrl) : Prop :=
  is_u32 (magic b) ∧ is_u8 (version b) ∧ wf_slot (slot_0 b) ∧ wf_slot (slot_1 b) ∧
  is_u8 (recovery_tries_remaining b).

Lemma decode_slot_wf x : wf_slot (decode_slot x).
Proof. unfold wf_slot, decode_slot; simpl. repeat split; apply wrap_range; lia. Qed.

Lemma set_priority_wf p s : wf_slot s → wf_slot (set_priority p s).
Proof. unfold wf_slot, set_priority. simpl. pose proof (wrap_range 4 p). lia. Qed.
Lemma set_tries_wf t s : wf_slot s → wf_slot (set_tries t s).
Proof. unfold wf_slot, set_tries. simpl. pose proof (wrap_range 3 t). lia. Qed.
Lemma set_successful_wf b s : wf_slot s → wf_slot (set_successful b s).
Proof. unfold wf_slot, set_successful. simpl. pose proof (wrap_range 1 b). lia. Qed.

Lemma bcb_slot_cases s : wf_slot s →
  ∃ p t b : nat, (p < 16)%nat ∧ (t < 8)%nat ∧ (b < 2)%nat ∧
    s = Slot (Z.of_nat p) (Z.of_nat t) (Z.of_nat b).
Proof.
  intros (H1 & H2 & H3). destruct s as [p t b]; simpl in *.
  exists (Z.to_nat p), (Z.to_nat t), (Z.to_nat b). rewrite !Z2Nat.id by lia. repeat split; lia.
Qed.

(** All 256 slot bytes, by evaluation. *)
Definition slot_bytes_ok : bool :=
  forallb (λ x, let z := Z.of_nat x in encode_slot (decode_slot z) =? z) (seq 0 256) &&
  forallb (λ p, forallb (λ t, forallb (λ b,
      let s := Slot (Z.of_nat p) (Z.of_nat t) (Z.of_nat b) in
      let x := encode_slot s in
      (0 <=? x) && (x <? 256) && (priority (decode_slot x) =? Z.of_nat p)
        && (tries_remaining (decode_slot x) =? Z.of_nat t)
        && (successful_boot (decode_slot x) =? Z.of_nat b)) (seq 0 2)) (seq 0 8)) (seq 0 16).

Lemma slot_bytes_checked : slot_bytes_ok = true.
Proof. vm_compute. reflexivity. Qed.

Lemma decode_encode_slot s : wf_slot s → decode_slot (encode_slot s) = s ∧ is_u8 (encode_slot s).
Proof.
  intros (p & t & b & Hp & Ht & Hb & ->)%bcb_slot_cases.
  pose proof slot_bytes_checked as C. apply andb_prop in C as [_ C].
  rewrite forallb_forall in C. specialize (C p). rewrite forallb_forall in C.
  specialize (C ltac:(apply in_seq; lia) t). rewrite forallb_forall in C.
  specialize (C ltac:(apply in_seq; lia) b ltac:(apply in_seq; lia)). cbv zeta in C.
  rewrite !andb_true_iff, !Z.eqb_eq, Z.leb_le, Z.ltb_lt in C.
  destruct C as [[[[Hl Hu] H1] H2] H3]. split; [|lia].
  destruct (decode_slot _) as [p' t' b']; cbn [priority tries_remaining successful_boot] in *.
  congruence.
Qed.

Lemma encode_decode_slot x : is_u8 x → encode_slot (decode_slot x) = x.
Proof.
  intros Hx. pose proof slot_bytes_checked as C. apply andb_prop in C as [C _].
  rewrite forallb_forall in C. specialize (C (Z.to_nat x) ltac:(apply in_seq; lia)).
  cbv zeta in C. rewrite Z2Nat.id in C by lia. by apply Z.eqb_eq in C.
Qed.

Lemma u32_of_bytes a b c d : is_u8 a → is_u8 b → is_u8 c → is_u8 d →
  a .| Z.shiftl b 8 .| Z.shiftl c 16 .| Z.shiftl d 24 = a + b * 2 ^ 8 + c * 2 ^ 16 + d * 2 ^ 24.
Proof.
  intros. rewrite !Z.shiftl_mul_pow2 by lia.
  assert (Hor : ∀ x y k, 0 ≤ k → 0 ≤ x < 2 ^ k → x .| y * 2 ^ k = x + y * 2 ^ k).
  { intros x y k Hk Hx. rewrite <-Z.add_lor_land, <-Z.shiftl_mul_pow2 by lia.
    replace (Z.land x (Z.shiftl y k)) with 0; [rewrite Z.shiftl_mul_pow2; lia|].
    symmetry. apply Z.bits_inj'. intros i Hi. rewrite Z.land_spec, Z.bits_0, Z.shiftl_spec by lia.
    destruct (Z.ltb_spec i k); [rewrite (Z.testbit_neg_r y) by lia; by rewrite andb_false_r|].
    by rewrite (testbit_high k x) by lia. }
  rewrite (Hor a b), (Hor _ c), (Hor _ d) by lia. done.
Qed.

Lemma decode_encode b : wf_ctrl b → bcb_decode (bcb_encode b) = b.
Proof.
  intros (Hm & Hv & H0 & H1 & Hr). unfold bcb_decode, bcb_byte. simpl (default _ _).
  rewrite (proj1 (decode_encode_slot _ H0)), (proj1 (decode_encode_slot _ H1)).
  rewrite u32_of_bytes by apply u8_range. destruct b as [m v s0 s1 r]; simpl in *. f_equal.
  unfold u8, wrap. rewrite !Z.shiftr_div_pow2 by lia. dlia.
Qed.

Lemma encode_decode buf : length buf = sizeof_boot_ctrl → Forall (λ c, is_u8 c) buf →
  bcb_encode (bcb_decode buf) = buf.
Proof.
  intros Hl Hf. unfold sizeof_boot_ctrl in Hl.
  do 8 (destruct buf as [|? buf]; [discriminate|]). destruct buf; [|discriminate].
  repeat match goal with H : Forall _ (_ :: _) |- _ => apply Forall_cons in H as [? H] end.
  unfold bcb_decode, bcb_byte. simpl (default _ _). unfold bcb_encode.
  cbn [magic version slot_0 slot_1 recovery_tries_remaining].
  rewrite !encode_decode_slot by done. rewrite u32_of_bytes by done.
  unfold u8, wrap. rewrite !Z.shiftr_div_pow2 by lia.
  do 4 (apply (f_equal2 cons); [dlia|]). done.
Qed.

Lemma decode_wf buf : Forall (λ c, is_u8 c) buf → wf_ctrl (bcb_decode buf).
Proof.
  intros Hf. assert (Hb : ∀ i, is_u8 (bcb_byte buf i)).
  { intros i. unfold bcb_byte. destruct (buf !! i) eqn:E; simpl; [|lia].
    by eapply (Forall_lookup_1 (λ c, is_u8 c)). }
  unfold wf_ctrl, bcb_decode; cbn [magic version slot_0 slot_1 recovery_tries_remaining].
  rewrite u32_of_bytes by done.
  pose proof (Hb 0%nat); pose proof (Hb 1%nat); pose proof (Hb 2%nat); pose proof (Hb 3%nat).
  repeat split; try apply Hb; try apply wrap_range; lia.
Qed.

Lemma encode_bytes b : wf_ctrl b → Forall (λ c, is_u8 c) (bcb_encode b).
Proof.
  intros (Hm & Hv & H0 & H1 & Hr). unfold bcb_encode.
  repeat apply Forall_cons_2; try apply u8_range; try done; by apply decode_encode_slot.
Qed.

Lemma bctrl_of_zone buf : (sizeof_misc_buf ≤ length buf)%nat →
  bctrl_of (take sizeof_misc_buf buf) = bctrl_of buf.
Proof.
  intros Hl. unfold bctrl_of. rewrite sizeof_eq, <-take_drop_commute. unfold bcb_decode, bcb_byte. by rewrite !lookup_take_lt by lia.
Qed.

Lemma bctrl_of_put b pre rest : wf_ctrl b → length pre = OFFSETOF_SLOT_SUFFIX →
  bctrl_of (pre ++ bcb_encode b ++ rest) = b.
Proof.
  intros Hb Hp. unfold bctrl_of. rewrite drop_app_length' by done.
  rewrite <-(decode_encode b Hb) at 2. done.
Qed.

Lemma length_put b buf : (OFFSETOF_SLOT_SUFFIX ≤ length buf)%nat →
  length (put_bctrl b buf) = sizeof_misc_buf.
Proof. intros. unfold put_bctrl. rewrite length_app, length_take_le, sizeof_eq by done. done. Qed.

Lemma put_self buf : length buf = sizeof_misc_buf → Forall (λ c, is_u8 c) buf →
  put_bctrl (bctrl_of buf) buf = buf.
Proof.
  intros Hl Hf. unfold put_bctrl, bctrl_of. rewrite encode_decode; [by rewrite take_drop| |].
  - rewrite length_drop, Hl, sizeof_eq. unfold sizeof_boot_ctrl. lia.
  - by apply Forall_drop.
Qed.

Lemma bctrl_of_wf buf : Forall (λ c, is_u8 c) buf → wf_ctrl (bctrl_of buf).
Proof. intros. by apply decode_wf, Forall_drop. Qed.

Lemma length_encode b : length (bcb_encode b) = 8%nat.
Proof. done. Qed.

#[local] Opaque bcb_decode bcb_encode bctrl_of.

(** ** What the platform promises

    [misc w] are the bytes of the misc partition and [last_failed w] whether the
    last boot failed, which does not change while the boot loader runs.  A read
    that succeeds returns the first bytes of the partition and a write that
    succeeds replaces them; a write that fails may leave anything in their place,
    but nothing behind them. *)
Class bcb_platform_laws (P : bcb_platform) : Type :=
  { misc : world → list Z;
    last_failed : world → bool;
    pingpong : bool;
    misc_size w : (sizeof_misc_buf ≤ length (misc w))%nat;
    misc_bytes w : Forall (λ c, is_u8 c) (misc w);
    uninit_length n w : length (uninit n w) = n;
    uninit_bytes n w : Forall (λ c, is_u8 c) (uninit n w);
    rand_law w r w' : rand w = (r, w') →
      0 ≤ r ∧ misc w' = misc w ∧ last_failed w' = last_failed w;
    pingpong_law w r w' : platform_support_pingpong w = (r, w') →
      r = pingpong ∧ misc w' = misc w ∧ last_failed w' = last_failed w;
    failed_law w r w' : platform_last_boot_failed_pingpong w = (r, w') →
      r = last_failed w ∧ misc w' = misc w ∧ last_failed w' = last_failed w;
    read_law buf w r buf' w' : platform_read_partition buf w = (r, buf', w') →
      misc w' = misc w ∧ last_failed w' = last_failed w ∧ length buf' = length buf ∧
      (r = true → buf' = take (length buf) (misc w));
    write_law buf w r w' : platform_write_partition buf w = (r, w') →
      last_failed w' = last_failed w ∧
      drop (length buf) (misc w') = drop (length buf) (misc w) ∧
      (r = true → take (length buf) (misc w') = buf);
    printf_law m w : misc (fastboot_printf m w) = misc w ∧
      last_failed (fastboot_printf m w) = last_failed w }.

Definition misc_buffer (buf : list Z) : Prop :=
  length buf = sizeof_misc_buf ∧ Forall (λ c, is_u8 c) buf.
Lemma misc_buffer_put pre b : length pre = OFFSETOF_SLOT_SUFFIX → Forall (λ c, is_u8 c) pre →
  wf_ctrl b → misc_buffer (pre ++ bcb_encode b).
Proof.
  intros Hl Hp Hb. split; [by rewrite length_app, length_encode, Hl, sizeof_eq|].
  apply Forall_app_2; [done|by apply encode_bytes].
Qed.

(** Among three attempts one succeeds. *)
Definition reads_work {P : bcb_platform} : Prop := ∀ buf w, length buf = sizeof_misc_buf →
  let '(a, buf, w) := platform_read_partition buf w in
  let '(b, buf, w) := platform_read_partition buf w in
  let '(c, _, _) := platform_read_partition buf w in a || b || c = true.
Definition writes_work {P : bcb_platform} : Prop := ∀ buf w, misc_buffer buf →
  let '(a, w) := platform_write_partition buf w in
  let '(b, w) := platform_write_partition buf w in
  let '(c, _) := platform_write_partition buf w in a || b || c = true.

(** ** The abstract boot step *)

Definition best (b : boot_ctrl) : option Z :=
  if priority (slot_1 b) <? priority (slot_0 b) then Some 0
  else if priority (slot_0 b) <? priority (slot_1 b) then Some 1 else None.

(** Metadata that say which slot to boot, or that none can be. *)
Definition decided (b : boot_ctrl) : bool :=
  (magic b =? BOOTCTRL_MAGIC) &&
  (negb (priority (slot_0 b) =? priority (slot_1 b)) || (priority (slot_0 b) =? 0)).

Definition default_ctrl (d : Z) : boot_ctrl :=
  if d =? 0 then BootCtrl BOOTCTRL_MAGIC 1 (Slot 15 3 0) (Slot 14 3 0) 0
  else BootCtrl BOOTCTRL_MAGIC 1 (Slot 14 3 0) (Slot 15 3 0) 0.

Definition use_try (s : slot_metadata) : slot_metadata :=
  Slot (priority s) (tries_remaining s - 1) (successful_boot s).
Definition abandon_slot (s : slot_metadata) : slot_metadata := Slot 0 (tries_remaining s) 0.

(** One boot from metadata [b]: the slot that is booted (-1 for none) and the
    metadata that are left. *)
Inductive boot_step (failed : bool) (b : boot_ctrl) : Z → boot_ctrl → Prop :=
  | step_boots i : best b = Some i → failed = false → boot_step failed b i b
  | step_retry i : best b = Some i → failed = true → 0 < tries_remaining (slot_info b i) →
      boot_step failed b i (upd_slot i use_try b)
  | step_failover i : best b = Some i → failed = true → tries_remaining (slot_info b i) = 0 →
      0 < priority (slot_info b (1 - i)) →
      boot_step failed b (1 - i) (upd_slot i abandon_slot b)
  | step_exhausted i : best b = Some i → failed = true → tries_remaining (slot_info b i) = 0 →
      priority (slot_info b (1 - i)) = 0 →
      boot_step failed b (-1) (upd_slot i abandon_slot b)
  | step_none : best b = None → boot_step failed b (-1) b.

Lemma best_cases b i : best b = Some i → i = 0 ∨ i = 1.
Proof. unfold best. repeat case_match; naive_solver. Qed.

Lemma default_buf_eq d : d = 0 ∨ d = 1 →
  default_buf d = zeros OFFSETOF_SLOT_SUFFIX ++ bcb_encode (default_ctrl d).
Proof. apply default_buf_bytes. Qed.

Lemma default_ctrl_wf d : wf_ctrl (default_ctrl d).
Proof. unfold default_ctrl. destruct (d =? 0); vm_compute; repeat split; discriminate. Qed.

Lemma default_ctrl_decided d : decided (default_ctrl d) = true.
Proof. unfold default_ctrl. by destruct (d =? 0). Qed.

Lemma default_ctrl_best d : d = 0 ∨ d = 1 → best (default_ctrl d) = Some d.
Proof. by intros [-> | ->]. Qed.

Lemma upd_slot_wf i f b : wf_ctrl b → (wf_slot (slot_info b i) → wf_slot (f (slot_info b i))) →
  wf_ctrl (upd_slot i f b).
Proof. unfold wf_ctrl, upd_slot, slot_info. destruct (i =? 0); naive_solver. Qed.

(** The step as a function. *)
Lemma boot_step_inv failed b r b' : boot_step failed b r b' →
  (r, b') = match best b with
            | None => (-1, b)
            | Some i =>
                if failed then
                  if 0 <? tries_remaining (slot_info b i) then (i, upd_slot i use_try b)
                  else (if priority (slot_info b (1 - i)) =? 0 then -1 else 1 - i,
                        upd_slot i abandon_slot b)
                else (i, b)
            end.
Proof.
  intros [i Hb Hf|i Hb Hf Ht|i Hb Hf Ht Hp|i Hb Hf Ht Hp|Hb]; rewrite Hb; [by subst|subst..|done].
  - by rewrite (proj2 (Z.ltb_lt _ _)).
  - rewrite Ht. simpl. by rewrite (proj2 (Z.eqb_neq _ 0)) by lia.
  - by rewrite Ht, Hp.
Qed.

(** How the steps of a failing boot change the choice. *)
Lemma use_try_keeps i b : i = 0 ∨ i = 1 →
  decided (upd_slot i use_try b) = decided b ∧ best (upd_slot i use_try b) = best b ∧
  slot_info (upd_slot i use_try b) (1 - i) = slot_info b (1 - i) ∧
  tries_remaining (slot_info (upd_slot i use_try b) i) = tries_remaining (slot_info b i) - 1.
Proof. by intros [-> | ->]. Qed.

Lemma give_up_other i b : i = 0 ∨ i = 1 → magic b = BOOTCTRL_MAGIC →
  0 < priority (slot_info b (1 - i)) →
  decided (upd_slot i abandon_slot b) = true ∧ best (upd_slot i abandon_slot b) = Some (1 - i) ∧
  slot_info (upd_slot i abandon_slot b) (1 - i) = slot_info b (1 - i) ∧
  priority (slot_info (upd_slot i abandon_slot b) i) = 0.
Proof.
  unfold decided, best, slot_info, upd_slot. destruct b as [m v [p0 t0 s0] [p1 t1 s1] r].
  intros [-> | ->]; simpl; intros -> Hp; rewrite Z.eqb_refl; simpl.
  - destruct p1; [lia|done|lia].
  - rewrite (proj2 (Z.ltb_lt 0 p0)) by lia. destruct p0; [lia|done|lia].
Qed.

Lemma give_up_last i b : i = 0 ∨ i = 1 → magic b = BOOTCTRL_MAGIC →
  priority (slot_info b (1 - i)) = 0 →
  decided (upd_slot i abandon_slot b) = true ∧ best (upd_slot i abandon_slot b) = None.
Proof.
  unfold decided, best, slot_info, upd_slot. destruct b as [m v [p0 t0 s0] [p1 t1 s1] r].
  intros [-> | ->]; simpl; intros -> ->; by rewrite Z.eqb_refl.
Qed.

Lemma higher_best b i : i = 0 ∨ i = 1 → magic b = BOOTCTRL_MAGIC →
  priority (slot_info b (1 - i)) < priority (slot_info b i) →
  decided b = true ∧ best b = Some i.
Proof.
  unfold decided, best, slot_info. intros [-> | ->]; simpl; intros -> Hp; rewrite Z.eqb_refl.
  - rewrite (proj2 (Z.eqb_neq _ _)), (proj2 (Z.ltb_lt _ _)) by lia. done.
  - rewrite (proj2 (Z.eqb_neq _ _)), (proj2 (Z.ltb_ge _ _)), (proj2 (Z.ltb_lt _ _)) by lia. done.
Qed.

Lemma equal_dead b i : i = 0 ∨ i = 1 → magic b = BOOTCTRL_MAGIC →
  priority (slot_info b i) = 0 → priority (slot_info b (1 - i)) = 0 →
  decided b = true ∧ best b = None.
Proof.
  unfold decided, best, slot_info. by intros [-> | ->]; simpl; intros -> -> ->.
Qed.

Lemma decided_magic b : decided b = true → magic b = BOOTCTRL_MAGIC.
Proof. unfold decided. rewrite andb_true_iff, Z.eqb_eq. by intros [? _]. Qed.

(** The metadata a boot starts from, and the bytes in front of them. *)
Definition start (d : Z) (ok : bool) (b : boot_ctrl) : boot_ctrl :=
  if ok && decided b then b else default_ctrl d.
Definition front (ok : bool) (b : boot_ctrl) (buf : list Z) : list Z :=
  if ok && decided b then take OFFSETOF_SLOT_SUFFIX buf else zeros OFFSETOF_SLOT_SUFFIX.

Lemma bctrl_of_default d : d = 0 ∨ d = 1 → bctrl_of (default_buf d) = default_ctrl d.
Proof.
  intros Hd. rewrite default_buf_eq by done. rewrite <-(app_nil_r (bcb_encode _)).
  apply bctrl_of_put; [apply default_ctrl_wf|apply length_zeros].
Qed.

Lemma select_decided buf wb d : decided (bctrl_of buf) = true →
  select_slot buf wb d = (default (-1) (best (bctrl_of buf)), buf, wb).
Proof.
  unfold decided, select_slot, best, slot_info.
  destruct (bctrl_of buf) as [m v [p0 t0 s0] [p1 t1 s1] r]; simpl. intros Hd.
  destruct (Z.ltb_spec p1 p0), (Z.ltb_spec p0 p1); try done.
  assert (p0 = p1) as -> by lia. rewrite Z.eqb_refl in Hd. simpl in Hd.
  destruct (Z.eqb_spec p1 0) as [->|]; [done|]. by rewrite andb_false_r in Hd.
Qed.

Lemma select_undecided buf wb d : magic (bctrl_of buf) = BOOTCTRL_MAGIC → wf_ctrl (bctrl_of buf) →
  decided (bctrl_of buf) = false → select_slot buf wb d = (d, default_buf d, true).
Proof.
  unfold decided, select_slot, slot_info. intros -> (_ & _ & (H0 & _) & (H1 & _) & _). revert H0 H1.
  destruct (bctrl_of buf) as [m v [p0 t0 s0] [p1 t1 s1] r]; simpl.
  intros H0 H1. destruct (Z.eqb_spec p0 p1) as [->|]; [|done]. simpl. intros E.
  rewrite Z.ltb_irrefl. destruct (Z.eqb_spec p1 0); [done|].
  by destruct (Z.ltb_spec 0 p1); [|lia].
Qed.

Lemma select_ok (ok : bool) buf d : d = 0 ∨ d = 1 → length buf = sizeof_misc_buf →
  Forall (λ c, is_u8 c) buf →
  (let '(buf, wb) := if ok then (buf, false) else (default_buf d, true) in
   let '(buf, wb) := if negb (magic (bctrl_of buf) =? BOOTCTRL_MAGIC)
                     then (default_buf d, true) else (buf, wb) in
   select_slot buf wb d) =
  (default (-1) (best (start d ok (bctrl_of buf))),
   front ok (bctrl_of buf) buf ++ bcb_encode (start d ok (bctrl_of buf)),
   negb (ok && decided (bctrl_of buf))).
Proof.
  intros Hd Hl Hf.
  assert (Hdef : ∀ wb, select_slot (default_buf d) wb d = (d, default_buf d, wb)).
  { intros wb. rewrite select_decided; rewrite bctrl_of_default by done;
      [|apply default_ctrl_decided]. by rewrite default_ctrl_best. }
  assert (Hfin : ∀ wb : bool, (d, default_buf d, wb) = (default (-1) (best (default_ctrl d)),
    zeros OFFSETOF_SLOT_SUFFIX ++ bcb_encode (default_ctrl d), wb)).
  { intros wb. by rewrite default_ctrl_best, default_buf_eq. }
  unfold start, front. destruct ok; simpl (_ && _).
  - destruct (decided (bctrl_of buf)) eqn:E.
    + unfold decided in E. apply andb_prop in E as [Em E]. rewrite Em. simpl (negb true).
      cbn iota. rewrite select_decided by (unfold decided; by rewrite Em, E).
      pose proof (put_self buf Hl Hf) as Hps. unfold put_bctrl in Hps. by rewrite Hps.
    + destruct (Z.eqb_spec (magic (bctrl_of buf)) BOOTCTRL_MAGIC) as [Em|Em]; cbn [negb].
      * rewrite select_undecided; [apply Hfin|done|by apply bctrl_of_wf|done].
      * rewrite Hdef. apply Hfin.
  - rewrite bctrl_of_default by done.
    replace (magic (default_ctrl d)) with BOOTCTRL_MAGIC by (destruct Hd as [-> | ->]; done).
    rewrite Z.eqb_refl. cbn [negb]. rewrite Hdef. apply Hfin.
Qed.

Lemma boot_failed_ok b i pre : best b = Some i → wf_ctrl b → length pre = OFFSETOF_SLOT_SUFFIX →
  ∃ r b', boot_failed i (pre ++ bcb_encode b) = (r, pre ++ bcb_encode b') ∧ boot_step true b r b' ∧ wf_ctrl b'.
Proof.
  intros Hb Hw Hp. pose proof (best_cases _ _ Hb) as Hi.
  assert (Hput : ∀ b', put_bctrl b' (pre ++ bcb_encode b) = pre ++ bcb_encode b').
  { intros b'. unfold put_bctrl. by rewrite take_app_length'. }
  assert (Hs : wf_slot (slot_info b i)) by (unfold slot_info; destruct Hw as (?&?&?&?&?); by destruct (i =? 0)).
  unfold boot_failed. rewrite Hput. rewrite Hput.
  rewrite <-(app_nil_r (bcb_encode b)), bctrl_of_put by done.
  destruct Hs as (Hp1 & Ht & Hb1).
  destruct (Z.ltb_spec 0 (tries_remaining (slot_info b i))).
  - exists i, (upd_slot i use_try b). split_and!; [|by constructor|].
    + f_equal. f_equal. f_equal. revert Ht H. unfold upd_slot, slot_info, set_tries, use_try.
      destruct (i =? 0); intros; rewrite wrap_small by lia; done.
    + apply upd_slot_wf; [done|]. intros _. unfold use_try, wf_slot; simpl. lia.
  - assert (Ht0 : tries_remaining (slot_info b i) = 0) by lia.
    exists (if priority (slot_info b (1 - i)) =? 0 then -1 else 1 - i), (upd_slot i abandon_slot b).
    split_and!.
    + destruct Hi as [-> | ->]; done.
    + destruct (Z.eqb_spec (priority (slot_info b (1 - i))) 0) as [E|E]; [by eapply step_exhausted|].
      eapply step_failover; try done. unfold slot_info in *.
      destruct Hw as (_&_&(?&_)&(?&_)&_). by destruct (1 - i =? 0); lia.
    + apply upd_slot_wf; [done|]. intros _. unfold abandon_slot, wf_slot; simpl. lia.
Qed.

(** ** Reasoning about effects *)

Section laws.
Context {P : bcb_platform} {L : bcb_platform_laws P}.

Definition same (w w' : world) : Prop := misc w' = misc w ∧ last_failed w' = last_failed w.

#[export] Instance same_preorder : PreOrder same.
Proof. unfold same. split; [done|]. intros ??? [-> ->] [-> ->]. done. Qed.

(** [bwp m Q w]: the outcome and the final world of [m] satisfy [Q]. *)
Definition bwp {A} (m : boot A) (Q : outcome A → world → Prop) (w : world) : Prop :=
  let '(o, w') := m w in Q o w'.

Definition done_with {A} (Q : A → world → Prop) (o : outcome A) (w : world) : Prop :=
  match o with Done a => Q a w | _ => False end.

Lemma bwp_bind {A B} (m : boot A) (f : A → boot B) Q w :
  bwp m (done_with (λ a, bwp (f a) Q)) w → bwp (m ≫= f) Q w.
Proof. unfold bwp, mbind, boot_bind. destruct (m w) as [[]?]; simpl; done. Qed.

Lemma bwp_ret {A} (a : A) (Q : outcome A → world → Prop) w : Q (Done a) w → bwp (mret a) Q w.
Proof. done. Qed.

Lemma bwp_mono {A} (m : boot A) (Q R : outcome A → world → Prop) w :
  bwp m Q w → (∀ o w', Q o w' → R o w') → bwp m R w.
Proof. unfold bwp. destruct (m w); eauto. Qed.

Lemma bwp_bind_done {A B} (m : boot A) (f : A → boot B) R Q w :
  bwp m (done_with R) w → (∀ a w', R a w' → bwp (f a) Q w') → bwp (m ≫= f) Q w.
Proof.
  intros Hm Hf. apply bwp_bind. eapply bwp_mono; [exact Hm|]. intros [] w' HR; simpl in *; auto.
Qed.

Lemma bwp_call {A} (f : world → A * world) (Q : outcome A → world → Prop) w :
  (∀ a w', f w = (a, w') → Q (Done a) w') → bwp (call f) Q w.
Proof. unfold bwp, call. destruct (f w). eauto. Qed.

Lemma bwp_ask {A} (f : world → A) (Q : outcome A → world → Prop) w :
  Q (Done (f w)) w → bwp (ask f) Q w.
Proof. done. Qed.

Lemma bwp_pingpong w : bwp (call platform_support_pingpong) (done_with (λ r w', r = pingpong ∧ same w w')) w.
Proof. apply bwp_call. intros r w' E. simpl. by apply pingpong_law in E as (? & ? & ?). Qed.

(** At most [n] reads, or writes of [buf], up to the first one that succeeds; the
    flag says whether one did. *)
Inductive read_attempts : nat → world → bool → world → Prop :=
| read_given_up w : read_attempts 0 w false w
| read_success n buf w buf' w' :
    platform_read_partition buf w = (true, buf', w') → read_attempts (S n) w true w'
| read_failure n buf w buf' w1 r w' :
    platform_read_partition buf w = (false, buf', w1) → read_attempts n w1 r w' →
    read_attempts (S n) w r w'.
Inductive write_attempts (buf : list Z) : nat → world → bool → world → Prop :=
| write_given_up w : write_attempts buf 0 w false w
| write_success n w w' :
    platform_write_partition buf w = (true, w') → write_attempts buf (S n) w true w'
| write_failure n w w1 r w' :
    platform_write_partition buf w = (false, w1) → write_attempts buf n w1 r w' →
    write_attempts buf (S n) w r w'.

(** Three reads: the buffer keeps its length, and after a success it holds the
    start of the partition. *)
Definition read_post (w : world) (n : nat) (r : bool * list Z) (w' : world) : Prop :=
  same w w' ∧ length r.2 = n ∧ (r.1 = true → r.2 = take n (misc w)).

Lemma bwp_read_retry k buf w : bwp (read_retry k buf)
  (done_with (λ r w', read_post w (length buf) r w' ∧ read_attempts k w r.1 w')) w.
Proof.
  revert buf w. induction k as [|k IH]; intros buf w; [by repeat split; try constructor|]. simpl.
  apply bwp_bind, bwp_call. intros [r buf'] w' E. pose proof E as (Hm & Hf & Hl & Hr)%read_law. simpl.
  destruct r; [by repeat split; eauto using read_success|]. eapply bwp_mono; [apply IH|].
  intros [[r buf2]| |] w2; [|done..]. unfold read_post, same. simpl. rewrite Hl.
  intros (((-> & ->) & ? & ?) & ?). rewrite <-Hm. split_and!; eauto using read_failure.
Qed.

Lemma bwp_read buf w : length buf = sizeof_misc_buf →
  bwp (ufbl_read_misc buf) (done_with (λ r w',
    read_post w (length buf) r w' ∧ read_attempts 3 w r.1 w' ∧ (reads_work → r.1 = true))) w.
Proof.
  intros Hl. pose proof (bwp_read_retry 3 buf w) as H. unfold ufbl_read_misc. unfold bwp in *.
  destruct (read_retry 3 buf w) as [[[r buf']| |] w'] eqn:E; simpl in *; try done.
  destruct H as [H Ha]. do 2 (split; [done|]). intros Hw. specialize (Hw buf w Hl). revert E Hw. clear.
  unfold read_retry, mbind, boot_bind, call, mret, boot_ret.
  destruct (platform_read_partition buf w) as [[[] b1] w1]; [intros [= <- <- <-]; done|].
  destruct (platform_read_partition b1 w1) as [[[] b2] w2]; [intros [= <- <- <-]; done|].
  destruct (platform_read_partition b2 w2) as [[[] b3] w3]; [intros [= <- <- <-]; done|].
  intros [= <- <- <-]. simpl. done.
Qed.

Definition write_post (w : world) (buf : list Z) (r : bool) (w' : world) : Prop :=
  last_failed w' = last_failed w ∧
  drop (length buf) (misc w') = drop (length buf) (misc w) ∧
  (r = true → misc w' = buf ++ drop (length buf) (misc w)).

Lemma write_attempts_post buf k w r w' : write_attempts buf k w r w' → write_post w buf r w'.
Proof.
  induction 1 as [|n w w' (Hf & Hd & Hr)%write_law|n w w1 r w' (Hf & Hd & _)%write_law _ IH].
  - done.
  - repeat split; [done..|]. intros _. rewrite <-(take_drop (length buf) (misc w')).
    by rewrite Hr, Hd.
  - revert IH. unfold write_post. by rewrite Hf, Hd.
Qed.

Lemma bwp_write_retry k buf w :
  bwp (write_retry k buf) (done_with (λ r w', write_attempts buf k w r w')) w.
Proof.
  revert w. induction k as [|k IH]; intros w; [by constructor|]. simpl.
  apply bwp_bind, bwp_call. intros r w' E. simpl.
  destruct r; [by apply write_success|].
  eapply bwp_mono; [apply IH|]. intros [r| |] w2; [|done..]. by apply write_failure.
Qed.

Lemma bwp_write buf w : misc_buffer buf → bwp (ufbl_write_misc buf) (done_with (λ (r : bool) w',
  write_attempts buf 3 w r w' ∧ (writes_work → r = true))) w.
Proof.
  intros Hl. pose proof (bwp_write_retry 3 buf w) as H. unfold ufbl_write_misc. unfold bwp in *.
  destruct (write_retry 3 buf w) as [[r| |] w'] eqn:E; simpl in *; try done.
  split; [done|]. intros Hw. specialize (Hw buf w Hl). revert E Hw. clear.
  unfold write_retry, mbind, boot_bind, call, mret, boot_ret.
  destruct (platform_write_partition buf w) as [[] w1]; [intros [= <- <-]; done|].
  destruct (platform_write_partition buf w1) as [[] w2]; [intros [= <- <-]; done|].
  destruct (platform_write_partition buf w2) as [[] w3]; [intros [= <- <-]; done|].
  intros [= <- <-]. simpl. done.
Qed.

(** The boot control block on the storage, and the storage with another one. *)
Definition bcb (w : world) : boot_ctrl := bctrl_of (misc w).
Definition stored (pre : list Z) (b : boot_ctrl) (w : world) : list Z :=
  pre ++ bcb_encode b ++ drop sizeof_misc_buf (misc w).

Definition slot_outcome (r : Z) : outcome Z :=
  if negb CONFIG_BCB_RETURN_FAIL_ON_RETRY_LIMIT && (r <? 0) then Hang else Done r.

Lemma bcb_wf w : wf_ctrl (bcb w).
Proof. apply bctrl_of_wf, misc_bytes. Qed.

Lemma bwp_default_slot w :
  bwp (if CONFIG_BCB_RANDOMISE_DEFAULT then r ← call rand; mret (Z.rem r 2) else mret 0)
    (done_with (λ d w', (d = 0 ∨ d = 1 ∧ CONFIG_BCB_RANDOMISE_DEFAULT = true) ∧ same w w')) w.
Proof.
  destruct CONFIG_BCB_RANDOMISE_DEFAULT; [|apply bwp_ret; by split; [left|]].
  apply bwp_bind, bwp_call. intros r w' (Hr & Hm & Hf)%rand_law. simpl. split; [|done].
  pose proof (Z.rem_bound_pos r 2). lia.
Qed.

Lemma misc_self w : stored (take OFFSETOF_SLOT_SUFFIX (misc w)) (bcb w) w = misc w.
Proof.
  unfold stored, bcb. pose proof (misc_size w) as Hs.
  rewrite <-(take_drop sizeof_misc_buf (misc w)) at 4.
  rewrite app_assoc. f_equal.
  rewrite <-(put_self (take sizeof_misc_buf (misc w))).
  - unfold put_bctrl. rewrite bctrl_of_zone by done.
    by rewrite take_take, Nat.min_l by (rewrite sizeof_eq; lia).
  - by rewrite length_take_le.
  - apply Forall_take, misc_bytes.
Qed.

Lemma bctrl_of_read w : bctrl_of (take sizeof_misc_buf (misc w)) = bcb w.
Proof. apply bctrl_of_zone, misc_size. Qed.

(** The write at the end of ufbl_get_active_slot, with its read back. *)
Lemma bwp_write_back (wb : bool) buf w : misc_buffer buf →
  bwp (if wb then
         ok ← ufbl_write_misc buf;
         if (ok : bool) then _ ← ufbl_read_misc (zeros sizeof_misc_buf); mret tt else mret tt
       else mret tt)
    (done_with (λ _ w', ∃ wr : bool, (writes_work → wr = true) ∧
       if wb then ∃ w1, write_attempts buf 3 w wr w1 ∧ same w1 w' else wr = true ∧ same w w')) w.
Proof.
  intros Hl. destruct wb; [|apply bwp_ret; simpl; by exists true].
  eapply bwp_bind_done; [by apply bwp_write|]. simpl. intros r w1 (Ha & Hwk).
  destruct r; [|apply bwp_ret; exists false; split; [done|]; by exists w1].
  eapply bwp_bind_done; [apply bwp_read, length_zeros|]. simpl. intros r2 w2 ((Hs & _) & _).
  exists true. split; [done|]. by exists w1.
Qed.

(** The choice of the slot and the failure of the last boot. *)
Lemma bwp_choose b pre wb w : wf_ctrl b → length pre = OFFSETOF_SLOT_SUFFIX →
  bwp (if 0 <=? default (-1) (best b) then
         failed ← call platform_last_boot_failed_pingpong;
         mret (if (failed : bool) then (boot_failed (default (-1) (best b)) (pre ++ bcb_encode b), true)
               else (default (-1) (best b), pre ++ bcb_encode b, wb))
       else mret (default (-1) (best b), pre ++ bcb_encode b, wb))
    (done_with (λ x w', same w w' ∧ ∃ b', boot_step (last_failed w) b x.1.1 b' ∧ wf_ctrl b' ∧
       x.1.2 = pre ++ bcb_encode b' ∧ (x.2 = wb ∧ b' = b ∨ x.2 = true) ∧
       x.2 = wb || last_failed w && bool_decide (is_Some (best b)))) w.
Proof.
  intros Hb Hp. destruct (best b) as [i|] eqn:Ei; simpl (default _ _).
  - destruct (best_cases _ _ Ei) as [Hi|Hi]; rewrite (proj2 (Z.leb_le 0 i)) by lia.
    all: apply bwp_bind, bwp_call; intros f w' (-> & Hm & Hf)%failed_law; simpl.
    all: split; [done|]; destruct (last_failed w).
    all: try (exists b; split_and!; [by econstructor|done|done|by left|by rewrite orb_false_r]).
    all: destruct (boot_failed_ok b i pre) as (r & b' & -> & Hst & Hw); [done..|].
    all: exists b'; split_and!; [done|done|done|by right|by rewrite ?bool_decide_true, orb_true_r].
  - simpl. split; [done|]. exists b.
    rewrite ?bool_decide_false, andb_false_r, orb_false_r by (by intros [? ?]).
    split_and!; [by constructor|done|done|by left|done].
Qed.

(** [select_ok] for the buffer that the reads left behind. *)
Lemma select_read (rd : bool) buf d w : d = 0 ∨ d = 1 →
  (rd = true → buf = take sizeof_misc_buf (misc w)) →
  (let '(buf, wb) := if rd then (buf, false) else (default_buf d, true) in
   let '(buf, wb) := if negb (magic (bctrl_of buf) =? BOOTCTRL_MAGIC)
                     then (default_buf d, true) else (buf, wb) in
   select_slot buf wb d) =
  (default (-1) (best (start d rd (bcb w))),
   front rd (bcb w) (misc w) ++ bcb_encode (start d rd (bcb w)),
   negb (rd && decided (bcb w))).
Proof.
  intros Hd Hr. pose proof (misc_size w) as Hs.
  pose proof (select_ok rd (take sizeof_misc_buf (misc w)) d Hd
    (length_take_le _ _ Hs) (Forall_take _ _ _ (misc_bytes w))) as Hsel.
  rewrite bctrl_of_read in Hsel.
  assert (Hpre : front rd (bcb w) (take sizeof_misc_buf (misc w)) = front rd (bcb w) (misc w)).
  { unfold front. destruct (rd && decided _); [|done]. by rewrite take_take, Nat.min_l by (rewrite sizeof_eq; lia). }
  rewrite Hpre in Hsel. destruct rd; [by rewrite Hr|exact Hsel].
Qed.

Lemma start_wf d rd w : wf_ctrl (start d rd (bcb w)).
Proof. unfold start. destruct (rd && _); [apply bcb_wf|apply default_ctrl_wf]. Qed.

Lemma length_front rd w : length (front rd (bcb w) (misc w)) = OFFSETOF_SLOT_SUFFIX.
Proof.
  unfold front. destruct (rd && _); [|apply length_zeros].
  apply length_take_le. pose proof (misc_size w). rewrite sizeof_eq in *. lia.
Qed.

Lemma front_bytes rd w : Forall (λ c, is_u8 c) (front rd (bcb w) (misc w)).
Proof.
  unfold front. destruct (rd && _); [apply Forall_take, misc_bytes|apply zeros_bytes].
Qed.

(** The boot changes the metadata or their storage: they could not be read or used,
    or the boot of the chosen slot failed. *)
Definition must_write (rd failed : bool) (d : Z) (b : boot_ctrl) : bool :=
  negb (rd && decided b) || failed && bool_decide (is_Some (best (start d rd b))).

(** What the boot leaves on the storage: nothing else than what the attempts to
    write the new block leave, or what was there. *)
Definition written_back (wb : bool) (buf : list Z) (wr : bool) (w w' : world) : Prop :=
  if wb then ∃ w1 w2, same w w1 ∧ write_attempts buf 3 w1 wr w2 ∧ same w2 w'
  else wr = true ∧ misc w' = misc w.

(** Whatever the attempts give, the bytes behind the block are kept. *)
Lemma written_back_behind wb buf wr w w' : written_back wb buf wr w w' →
  drop (length buf) (misc w') = drop (length buf) (misc w).
Proof.
  destruct wb; [|by intros [_ ->]]. intros (w1 & w2 & [E1 _] & (_ & Hd & _)%write_attempts_post & [-> _]).
  by rewrite Hd, E1.
Qed.

(** ufbl_get_active_slot on a device with two slots: one abstract boot step from
    the stored block, or from fresh metadata when it cannot be read or used. *)
Lemma active_slot_ok w : pingpong = true →
  bwp ufbl_get_active_slot (λ o w', ∃ d (rd wr : bool) r b',
    (d = 0 ∨ d = 1 ∧ CONFIG_BCB_RANDOMISE_DEFAULT = true) ∧
    boot_step (last_failed w) (start d rd (bcb w)) r b' ∧ wf_ctrl b' ∧
    o = slot_outcome r ∧ last_failed w' = last_failed w ∧
    (∃ w0 w1, same w w0 ∧ read_attempts 3 w0 rd w1) ∧
    written_back (must_write rd (last_failed w) d (bcb w))
      (front rd (bcb w) (misc w) ++ bcb_encode b') wr w w' ∧
    (wr = true → misc w' = stored (front rd (bcb w) (misc w)) b' w) ∧
    (reads_work → rd = true) ∧ (writes_work → wr = true)) w.
Proof.
  intros Hpp. unfold ufbl_get_active_slot.
  eapply bwp_bind_done; [apply bwp_default_slot|]. intros d w1 (Hd & Hs1).
  eapply bwp_bind_done; [apply bwp_pingpong|]. intros pp w2 (-> & Hs2). rewrite Hpp. cbn [negb].
  eapply bwp_bind_done; [apply bwp_read, length_zeros|]. intros [rd buf] w3 ((Hs3 & Hl & Hr) & Hra & Hrw).
  assert (Hs02 : same w w2) by (by etrans; [exact Hs1|]).
  assert (Hs : same w w3) by (by etrans; [|etrans; [|exact Hs3]]; [exact Hs1|exact Hs2]).
  assert (Hd' : d = 0 ∨ d = 1) by naive_solver.
  cbn [fst snd] in Hl, Hr, Hrw, Hra. rewrite length_zeros in Hr. destruct Hs as [Hm Hf].
  rewrite <-(proj1 Hs3), Hm in Hr. pose proof (select_read rd buf d w Hd' Hr) as Hsel.
  destruct (if rd then _ else _) as [b1 wb1]. destruct (if negb _ then _ else _) as [b2 wb2].
  rewrite Hsel. clear Hsel. cbv beta iota.
  pose proof (length_front rd w) as Hlp. pose proof (front_bytes rd w) as Hfb. set (pre := front rd (bcb w) (misc w)) in *.
  eapply bwp_bind_done; [apply bwp_choose; [apply start_wf|done]|].
  intros [[r buf'] wb] w4 ([Hm4 Hf4] & b' & Hst & Hw' & Hbuf & Hwb & Hnf). cbn [fst snd] in *.
  rewrite Hf in Hst, Hf4, Hnf. fold (must_write rd (last_failed w) d (bcb w)) in Hnf. subst buf'.
  eapply bwp_bind_done; [apply bwp_write_back; by apply misc_buffer_put|]. intros _ w5 (wr & Hwk & Hwr).
  assert (Hwb' : written_back wb (pre ++ bcb_encode b') wr w w5).
  { unfold written_back. destruct wb; [|destruct Hwr as [-> [-> _]]; split; [done|congruence]].
    destruct Hwr as (w6 & ? & ?). exists w4, w6. split_and!; try done. split; congruence. }
  assert (Hlf5 : last_failed w5 = last_failed w).
  { destruct wb; [|destruct Hwr as [_ [_ ->]]; congruence].
    destruct Hwr as (w6 & (E & _)%write_attempts_post & [_ ->]). congruence. }
  assert (Hmis : wr = true → misc w5 = stored pre b' w).
  { intros E. destruct wb.
    - destruct Hwr as (w6 & (_ & _ & Hy)%write_attempts_post & [-> _]).
      rewrite (Hy E), Hm4, Hm, length_app, Hlp, <-app_assoc. unfold stored. by rewrite sizeof_eq.
    - destruct Hwr as (_ & -> & _). destruct Hwb as [[Hwb ->]|]; [|done].
      rewrite Hm4, Hm. subst pre. unfold front, start. destruct (rd && decided (bcb w)); [|done].
      by rewrite misc_self. }
  unfold bwp. match goal with |- let '(_, _) := ?x in _ => replace x with (slot_outcome r, w5)
    by (unfold slot_outcome; by destruct (negb _ && _)) end.
  rewrite Hnf in Hwb'. exists d, rd, wr, r, b'. split_and!; try done. by exists w2, w3.
Qed.

(** The same when the storage works and holds usable metadata. *)
Lemma active_slot_healthy w : pingpong = true → reads_work → writes_work →
  decided (bcb w) = true →
  bwp ufbl_get_active_slot (λ o w', ∃ r b',
    boot_step (last_failed w) (bcb w) r b' ∧ wf_ctrl b' ∧ o = slot_outcome r ∧
    last_failed w' = last_failed w ∧ bcb w' = b' ∧
    misc w' = stored (take OFFSETOF_SLOT_SUFFIX (misc w)) b' w) w.
Proof.
  intros Hpp Hr Hw Hd. eapply bwp_mono; [by apply active_slot_ok|].
  intros o w' (d & rd & wr & r & b' & _ & Hst & Hwf & -> & Hf & _ & _ & Hm & Hrd & Hwr).
  rewrite (Hrd Hr) in Hst, Hm. unfold start, front in Hst, Hm. rewrite Hd in Hst, Hm.
  specialize (Hm (Hwr Hw)). exists r, b'. split_and!; try done. unfold bcb, stored in *. rewrite Hm.
  apply bctrl_of_put; [done|]. cbn [andb]. rewrite length_take_le; [done|].
  pose proof (misc_size w). rewrite sizeof_eq in *. lia.
Qed.
Lemma bwp_get_boot_ctrl w : pingpong = true → reads_work →
  bwp ufbl_get_boot_ctrl (done_with (λ b w', b = Some (bcb w) ∧ same w w')) w.
Proof.
  intros Hpp Hrw. unfold ufbl_get_boot_ctrl.
  eapply bwp_bind_done; [apply bwp_pingpong|]. intros pp w1 (-> & Hm1 & Hf1). rewrite Hpp.
  apply bwp_bind, bwp_ask. eapply bwp_bind_done; [apply bwp_read, uninit_length|].
  intros [rd buf] w2 (([Hm2 Hf2] & _ & Hb) & _ & Hr). cbn [fst snd] in *. rewrite (Hr Hrw) in *.
  apply bwp_ret. rewrite uninit_length in Hb. cbn [done_with]. unfold same. rewrite Hm2, Hf2, Hf1.
  by rewrite (Hb eq_refl), Hm1, bctrl_of_read.
Qed.

(** The write keeps the block asked for, but the bytes in front of it are those
    of an uninitialised buffer. *)
Lemma bwp_set_boot_ctrl b w : pingpong = true → writes_work → wf_ctrl b →
  bwp (ufbl_set_boot_ctrl b) (done_with (λ ok w', ok = true ∧ last_failed w' = last_failed w ∧
    bcb w' = b ∧ misc w' = stored (take OFFSETOF_SLOT_SUFFIX (uninit sizeof_misc_buf w)) b w)) w.
Proof.
  intros Hpp Hww Hb. unfold ufbl_set_boot_ctrl.
  apply bwp_bind, bwp_ask. eapply bwp_bind_done; [apply bwp_pingpong|].
  intros pp w1 (-> & Hm1 & Hf1). rewrite Hpp.
  assert (Hl : (OFFSETOF_SLOT_SUFFIX ≤ length (uninit sizeof_misc_buf w))%nat)
    by (rewrite uninit_length; rewrite sizeof_eq; lia).
  eapply bwp_mono; [apply bwp_write|].
  { apply misc_buffer_put; [by apply length_take_le|apply Forall_take, uninit_bytes|done]. }
  intros [r| |] w2; [|done..].
  intros ((Hf2 & _ & Hm2)%write_attempts_post & Hr). simpl. rewrite (Hr Hww) in *.
  specialize (Hm2 eq_refl). rewrite length_put, Hm1 in Hm2 by done.
  unfold put_bctrl in Hm2. rewrite <-app_assoc in Hm2.
  split_and!; [done|congruence| |done]. unfold bcb. rewrite Hm2.
  by apply bctrl_of_put; [|rewrite length_take_le].
Qed.

Lemma slot_outcome_pos i : i = 0 ∨ i = 1 → slot_outcome i = Done i.
Proof. intros [-> | ->]; unfold slot_outcome; by rewrite andb_false_r. Qed.

(** ** A series of boots

    [reset] is what happens to the device between two calls of the boot loader;
    it does not touch the misc partition. *)
Section boots.
Context (reset : world → world) (failed : bool).
Context (reset_misc : ∀ w, misc (reset w) = misc w).
Context (reset_failed : ∀ w, last_failed (reset w) = failed).
Context (Hpp : pingpong = true) (Hr : reads_work) (Hw : writes_work).

Fixpoint boots (n : nat) (w : world) : list (outcome Z) :=
  match n with
  | O => []
  | S n => let '(o, w') := ufbl_get_active_slot (reset w) in o :: boots n w'
  end.

Lemma boots_step n w : decided (bcb w) = true → ∃ r w',
  boot_step failed (bcb w) r (bcb w') ∧ boots (S n) w = slot_outcome r :: boots n w'.
Proof.
  intros Hd. assert (Hb : bcb (reset w) = bcb w) by (unfold bcb; by rewrite reset_misc).
  pose proof (active_slot_healthy (reset w) Hpp Hr Hw ltac:(by rewrite Hb)) as H. simpl.
  unfold bwp in H. destruct (ufbl_get_active_slot (reset w)) as [o w'].
  destruct H as (r & b' & Hst & _ & -> & _ & Hb' & _). exists r, w'.
  rewrite Hb, reset_failed, <-Hb' in Hst. split; [exact Hst|reflexivity].
Qed.

Lemma boots_dead n w : decided (bcb w) = true → best (bcb w) = None →
  boots n w = replicate n (slot_outcome (-1)).
Proof.
  revert w. induction n as [|n IH]; intros w Hd Hb; [done|].
  destruct (boots_step n w Hd) as (r & w' & Hst%boot_step_inv & ->). rewrite Hb in Hst.
  apply pair_eq in Hst as [-> E]. rewrite replicate_S. f_equal. apply IH; by rewrite E.
Qed.

Lemma boots_good n w i : failed = false → decided (bcb w) = true → best (bcb w) = Some i →
  boots n w = replicate n (Done i).
Proof.
  intros Hf. revert w. induction n as [|n IH]; intros w Hd Hb; [done|].
  pose proof (slot_outcome_pos i (best_cases _ _ Hb)) as Ho.
  destruct (boots_step n w Hd) as (r & w' & Hst%boot_step_inv & ->). rewrite Hb, Hf in Hst.
  apply pair_eq in Hst as [-> E]. rewrite replicate_S, Ho. f_equal. apply IH; by rewrite E.
Qed.

Lemma boots_retry n w i t : failed = true → decided (bcb w) = true → best (bcb w) = Some i →
  tries_remaining (slot_info (bcb w) i) = Z.of_nat (S t) → ∃ w',
  boots (S n) w = Done i :: boots n w' ∧ decided (bcb w') = true ∧ best (bcb w') = Some i ∧
  slot_info (bcb w') (1 - i) = slot_info (bcb w) (1 - i) ∧
  tries_remaining (slot_info (bcb w') i) = Z.of_nat t.
Proof.
  intros Hf Hd Hb Ht. pose proof (best_cases _ _ Hb) as Hi.
  destruct (boots_step n w Hd) as (r & w' & Hst%boot_step_inv & ->).
  rewrite Hb, Hf, Ht, (proj2 (Z.ltb_lt 0 _)) in Hst by lia. apply pair_eq in Hst as [-> E].
  exists w'. rewrite E. destruct (use_try_keeps i (bcb w) Hi) as (-> & -> & -> & ->).
  rewrite slot_outcome_pos by done. split_and!; try done. lia.
Qed.

Lemma boots_last i t : failed = true → ∀ n m w, (n ≤ m)%nat →
  decided (bcb w) = true → best (bcb w) = Some i → priority (slot_info (bcb w) (1 - i)) = 0 →
  tries_remaining (slot_info (bcb w) i) = Z.of_nat t →
  boots n w = take n (replicate t (Done i) ++ replicate m (slot_outcome (-1))).
Proof.
  intros Hf. induction t as [|t IH]; intros [|n] m w Hm Hd Hb Hp Ht; [done| |done|].
  - destruct (boots_step n w Hd) as (r & w' & Hst%boot_step_inv & ->).
    rewrite Hb, Hf, Ht, Hp in Hst. apply pair_eq in Hst as [-> E].
    destruct (give_up_last i (bcb w)) as [H1 H2];
      [by eapply best_cases|by apply decided_magic|done|].
    rewrite boots_dead by (by rewrite E). simpl (replicate 0 _ ++ _).
    by rewrite take_replicate, Nat.min_l by done.
  - destruct (boots_retry n w i t) as (w' & -> & ? & ? & Es & ?); [done..|].
    simpl. f_equal. apply IH; [lia|done|done| |done]. by rewrite Es.
Qed.

Lemma boots_both i t u : failed = true → ∀ n m w, (n ≤ m)%nat →
  decided (bcb w) = true → best (bcb w) = Some i → 0 < priority (slot_info (bcb w) (1 - i)) →
  tries_remaining (slot_info (bcb w) i) = Z.of_nat t →
  tries_remaining (slot_info (bcb w) (1 - i)) = Z.of_nat u →
  boots n w = take n (replicate t (Done i) ++ replicate (S u) (Done (1 - i)) ++
                      replicate m (slot_outcome (-1))).
Proof.
  intros Hf. induction t as [|t IH]; intros [|n] m w Hm Hd Hb Hp Ht Hu; [done| |done|].
  - pose proof (best_cases _ _ Hb) as Hi.
    destruct (boots_step n w Hd) as (r & w' & Hst%boot_step_inv & ->).
    rewrite Hb, Hf, Ht in Hst. simpl in Hst. rewrite (proj2 (Z.eqb_neq _ 0)) in Hst by lia.
    apply pair_eq in Hst as [-> E].
    destruct (give_up_other i (bcb w) Hi (decided_magic _ Hd) Hp) as (H1 & H2 & H3 & H4).
    rewrite slot_outcome_pos by lia. simpl. f_equal.
    apply boots_last; [done|lia|by rewrite E|by rewrite E| |by rewrite E, H3].
    replace (1 - (1 - i)) with i by lia. by rewrite E.
  - destruct (boots_retry n w i t) as (w' & -> & ? & ? & Es & ?); [done..|].
    simpl. f_equal. apply IH; [lia|done|done|by rewrite Es|done|by rewrite Es].
Qed.
End boots.

(** ** Commands that select a slot *)

Lemma lower_priority_wf s : wf_slot s → wf_slot (lower_priority s) ∧ priority (lower_priority s) ≤ 14.
Proof.
  unfold lower_priority, wf_slot, BCB_DEFAULT_OTHER_SLOT_PRIORITY, BCB_MAX_SLOT_PRIORITY. simpl.
  intros (? & ? & ?). destruct (Z.ltb_spec (15 - 1) (priority s)); simpl; [|lia].
  change (wrap 4 (15 - 1)) with 14. lia.
Qed.

(** Slot [i] gets the highest priority and the other one less. *)
Definition favour (i : Z) (b : boot_ctrl) : boot_ctrl :=
  upd_slot (Z.lxor i 1) lower_priority
    (upd_slot i (set_priority BCB_DEFAULT_ACTIVE_SLOT_PRIORITY) b).

Lemma favour_ok i b : i = 0 ∨ i = 1 → wf_ctrl b → magic b = BOOTCTRL_MAGIC →
  wf_ctrl (favour i b) ∧ decided (favour i b) = true ∧ best (favour i b) = Some i.
Proof.
  intros Hi Hb Hmg. pose proof Hb as (Hm & Hv & H0 & H1 & Hr).
  destruct (lower_priority_wf _ H0) as [L0 P0], (lower_priority_wf _ H1) as [L1 P1].
  split.
  - apply upd_slot_wf; [apply upd_slot_wf; [done|]|]; [|intros; by apply lower_priority_wf].
    apply set_priority_wf.
  - apply higher_best; [done|by destruct Hi as [-> | ->]|].
    destruct Hi as [-> | ->]; [apply (Z.le_lt_trans _ _ _ P1)|apply (Z.le_lt_trans _ _ _ P0)]; done.
Qed.

Section commands.
Context (Hpp : pingpong = true) (Hr : reads_work) (Hw : writes_work).

Lemma next_boot w : decided (bcb w) = true → last_failed w = false →
  bwp ufbl_get_active_slot (λ o w', o = slot_outcome (default (-1) (best (bcb w))) ∧
    bcb w' = bcb w ∧ last_failed w' = false) w.
Proof.
  intros Hd Hf. eapply bwp_mono; [by apply active_slot_healthy|].
  intros o w' (r & b' & Hst%boot_step_inv & _ & -> & Hl & Hb & _). rewrite Hf in Hst, Hl.
  destruct (best (bcb w)); apply pair_eq in Hst as [-> E]; rewrite E in Hb; auto.
Qed.

Lemma next_boot_slot w i : decided (bcb w) = true → last_failed w = false →
  best (bcb w) = Some i → bwp ufbl_get_active_slot (λ o _, o = Done i) w.
Proof.
  intros Hd Hf Hb. eapply bwp_mono; [by apply next_boot|]. intros o w' (-> & _).
  rewrite Hb. by apply slot_outcome_pos, (best_cases (bcb w)).
Qed.

Lemma set_active_ok w i prog_name name : last_failed w = false →
  magic (bcb w) = BOOTCTRL_MAGIC → i = 0 ∨ i = 1 →
  (∀ w', slot_val_of name (getenv_slot_suffixes w') = Some i) →
  bwp (do_bcb_set_active 2 2 [prog_name; Some name]) (λ o w', o = Done 0 ∧
    bwp ufbl_get_active_slot (λ o _, o = Done i) w') w.
Proof.
  intros Hf Hm Hi Hname. unfold do_bcb_set_active. cbn [Z.eqb negb Pos.eqb].
  eapply bwp_bind_done; [by apply bwp_get_boot_ctrl|]. intros b w1 (-> & Hm1 & Hf1).
  assert (Hb1 : bcb w1 = bcb w) by (unfold bcb; by rewrite Hm1).
  apply bwp_bind. change (bwp (arg _ 1) ?Q w1) with (Q (Done name) w1). cbn [done_with].
  apply bwp_bind, bwp_ask. cbn [done_with]. rewrite Hname. apply bwp_bind.
  change (bwp (defined (Some i)) ?Q w1) with (Q (Done i) w1). cbn [done_with].
  rewrite (proj2 (Z.ltb_ge i 0)) by lia.
  assert (Hif : ∀ b', wf_ctrl b' → decided b' = true → best b' = Some i →
    bwp (ok ← ufbl_set_boot_ctrl b'; mret (if (ok : bool) then 0 else -1)) (λ o w',
      o = Done 0 ∧ bwp ufbl_get_active_slot (λ o _, o = Done i) w') w1).
  { intros b' Hb' Hd Hbest. eapply bwp_bind_done; [by apply bwp_set_boot_ctrl|].
    intros ok w2 (-> & Hf2 & Hb2 & _). apply bwp_ret. split; [done|].
    apply next_boot_slot; congruence. }
  destruct (Z.leb_spec (priority (slot_info (bcb w) i)) (priority (slot_info (bcb w) (Z.lxor i 1)))).
  - set (b0 := if _ =? 0 then _ else _).
    assert (Hb0 : wf_ctrl b0 ∧ magic b0 = BOOTCTRL_MAGIC).
    { subst b0. destruct (_ =? 0); [|by split; [apply bcb_wf|]]. split.
      - apply upd_slot_wf; [apply bcb_wf|apply set_successful_wf].
      - unfold upd_slot. destruct (i =? 0); exact Hm. }
    destruct (favour_ok i b0) as (? & ? & ?); [naive_solver..|]. by apply Hif.
  - apply bwp_ret. split; [done|].
    destruct (higher_best (bcb w) i) as [Hd Hb]; [done|done|by destruct Hi as [-> | ->]|].
    apply next_boot_slot; congruence.
Qed.

(** The slot that do_bcb_swap makes active. *)
Definition swapped (b : boot_ctrl) : Z := if bool_decide (best b = Some 1) then 0 else 1.

Lemma swap_slots b : let curr := (if negb (default (-1) (best b) =? 1) then 0 else default (-1) (best b)) in
  curr = 1 - swapped b ∧ Z.lxor curr 1 = swapped b ∧ (swapped b = 0 ∨ swapped b = 1).
Proof.
  unfold swapped. destruct (best b) as [i|] eqn:E; [|by simpl; auto].
  destruct (best_cases _ _ E) as [-> | ->]; simpl; auto.
Qed.

Lemma upd_slot_comm i j f g b : i = 0 ∨ i = 1 → j = 1 - i →
  upd_slot i f (upd_slot j g b) = upd_slot j g (upd_slot i f b).
Proof. by intros [-> | ->] ->. Qed.

Lemma swap_ok w : last_failed w = false → decided (bcb w) = true →
  best (bcb w) ≠ None ∨ CONFIG_BCB_RETURN_FAIL_ON_RETRY_LIMIT = true → ∀ max argc argv,
  bwp (do_bcb_swap max argc argv) (λ o w', o = Done 0 ∧
    bwp ufbl_get_active_slot (λ o _, o = Done (swapped (bcb w))) w') w.
Proof.
  intros Hf Hd Hcfg max argc argv. unfold do_bcb_swap.
  eapply bwp_bind_done; [by apply bwp_get_boot_ctrl|]. intros b w1 (-> & Hm1 & Hf1).
  assert (Hb1 : bcb w1 = bcb w) by (unfold bcb; by rewrite Hm1).
  apply bwp_bind. eapply bwp_mono; [apply next_boot; congruence|].
  intros o w2 (-> & Hb2 & Hf2). rewrite Hb1 in *.
  assert (Ho : slot_outcome (default (-1) (best (bcb w))) = Done (default (-1) (best (bcb w)))).
  { destruct (best (bcb w)) as [i|] eqn:E; [apply slot_outcome_pos, (best_cases _ _ E)|].
    destruct Hcfg as [Hc|Hc]; [exfalso; exact (Hc eq_refl)|]. unfold slot_outcome. rewrite Hc. reflexivity. }
  rewrite Ho. cbn [done_with].
  destruct (swap_slots (bcb w)) as (Hc & Hn & Hs). cbv zeta. rewrite Hn, Hc.
  destruct (favour_ok (swapped (bcb w)) (bcb w) Hs (bcb_wf w) (decided_magic _ Hd)) as (Hwf & Hdd & Hbb).
  replace (upd_slot (1 - swapped (bcb w)) lower_priority _) with (favour (swapped (bcb w)) (bcb w));
    [|unfold favour; by destruct Hs as [-> | ->]].
  eapply bwp_bind_done; [by apply bwp_set_boot_ctrl|]. intros ok w3 (-> & Hf3 & Hb3 & _).
  apply bwp_bind. eapply bwp_mono; [apply next_boot; congruence|].
  intros o w4 (-> & Hb4 & Hf4). rewrite Hb3, Hbb. simpl (default _ _).
  rewrite slot_outcome_pos by done. cbn [done_with]. split; [done|].
  destruct (printf_law (Active_slot (swapped (bcb w))) w4) as [Hpm Hpf].
  apply next_boot_slot; [..|]; unfold bcb in *; rewrite ?Hpm, ?Hpf; congruence.
Qed.

Lemma swap_hangs w : last_failed w = false → decided (bcb w) = true → best (bcb w) = None →
  CONFIG_BCB_RETURN_FAIL_ON_RETRY_LIMIT = false → ∀ max argc argv,
  bwp (do_bcb_swap max argc argv) (λ o w', o = Hang ∧ bcb w' = bcb w) w.
Proof.
  intros Hf Hd Hb Hc max argc argv. unfold do_bcb_swap.
  eapply bwp_bind_done; [by apply bwp_get_boot_ctrl|]. intros b w1 (-> & Hm1 & Hf1).
  assert (Hb1 : bcb w1 = bcb w) by (unfold bcb; by rewrite Hm1).
  pose proof (next_boot w1 ltac:(congruence) ltac:(congruence)) as Hn.
  rewrite Hb1, Hb in Hn. unfold bwp, mbind, boot_bind in *.
  destruct (ufbl_get_active_slot w1) as [o w2]. destruct Hn as (-> & Hb2 & _).
  unfold slot_outcome. rewrite Hc. split; [reflexivity|congruence].
Qed.

(** After ufbl_set_slot_as_unbootable only the other slot can be chosen. *)
Lemma unbootable_ok w i : last_failed w = false → magic (bcb w) = BOOTCTRL_MAGIC →
  i = 0 ∨ i = 1 →
  bwp (ufbl_set_slot_as_unbootable i) (λ o w', o = Done 0 ∧
    bwp (ufbl_is_slot_bootable i) (λ o _, o = Done false) w' ∧
    bwp ufbl_get_active_slot (λ o _, o = slot_outcome
      (if 0 <? priority (slot_info (bcb w) (1 - i)) then 1 - i else -1)) w') w.
Proof.
  intros Hf Hm Hi. unfold ufbl_set_slot_as_unbootable.
  eapply bwp_bind_done; [by apply bwp_get_boot_ctrl|]. intros b w1 (-> & Hm1 & Hf1).
  assert (Hidx : ∀ {A} (k : unit → boot A) Q w, bwp (k tt) Q w → bwp (defined (slot_index i) ≫= k) Q w)
    by (intros A k Q w' Hk; by destruct Hi as [-> | ->]).
  apply Hidx. set (b' := upd_slot i _ (bcb w)).
  assert (Hwf : wf_ctrl b') by (apply upd_slot_wf; [apply bcb_wf|];
    intros; by apply set_successful_wf, set_priority_wf, set_tries_wf).
  assert (Hp : priority (slot_info b' i) = 0) by (by destruct Hi as [-> | ->]).
  assert (Ho : slot_info b' (1 - i) = slot_info (bcb w) (1 - i)) by (by destruct Hi as [-> | ->]).
  assert (Hmg : magic b' = BOOTCTRL_MAGIC) by (destruct Hi as [-> | ->]; exact Hm).
  clearbody b'. eapply bwp_bind_done; [by apply bwp_set_boot_ctrl|]. intros ok w2 (-> & Hf2 & Hb2 & _).
  apply bwp_ret. split_and!; [done| |].
  - unfold ufbl_is_slot_bootable.
    eapply bwp_bind_done; [by apply bwp_get_boot_ctrl|]. intros b w3 (-> & _). apply Hidx.
    apply bwp_ret. by rewrite Hb2, Hp.
  - assert (0 ≤ priority (slot_info b' (1 - i))).
    { destruct Hwf as (_ & _ & (? & _) & (? & _) & _).
      unfold slot_info. destruct (1 - i =? 0); lia. }
    rewrite <-Ho, <-Hb2 in *. clear b' Hb2 Hwf Ho.
    destruct (Z.ltb_spec 0 (priority (slot_info (bcb w2) (1 - i)))) as [Hpo|Hpo].
    + destruct (higher_best (bcb w2) (1 - i)) as [Hd Hb];
        [lia|done|replace (1 - (1 - i)) with i by lia; lia|].
      rewrite slot_outcome_pos by lia. apply next_boot_slot; [done|congruence|done].
    + destruct (equal_dead (bcb w2) i) as [Hd Hb]; [done|done|done|lia|].
      eapply bwp_mono; [apply next_boot; [done|congruence]|].
      intros o w3 (-> & _). rewrite Hb. reflexivity.
Qed.
End commands.

End laws.
