(* ===== verification/BcbCmd.v ===== *)
(** * BcbCmd: the theorems about the boot control block and its commands

    A concrete platform that satisfies the promises of BcbThm, the splitting of a
    fastboot command into words, and the properties of bcb.c and cmd_bcb.c. *)

From S2P Require Import Prelude Strings Bcb BcbThm.

#[local] Opaque OFFSETOF_SLOT_SUFFIX sizeof_misc_buf zeros default_buf bcb_decode bcb_encode bctrl_of.

(** ** A concrete platform

    A disk whose every second access fails, used by the witnesses. *)
Definition disk_ok (l : list Z) : bool :=
  (sizeof_misc_buf <=? length l)%nat && forallb (λ c, (0 <=? c) && (c <? 256)) l.
Record disk : Type := Disk
  { d_bytes : list Z; d_failed : bool; d_tick : bool; d_ok : disk_ok d_bytes = true }.

Definition disk_read (buf : list Z) (d : disk) : bool * list Z * disk :=
  let d' := Disk (d_bytes d) (d_failed d) (negb (d_tick d)) (d_ok d) in
  if d_tick d && (length buf <=? length (d_bytes d))%nat
  then (true, take (length buf) (d_bytes d), d') else (false, buf, d').
Definition disk_write (buf : list Z) (d : disk) : bool * disk :=
  match bool_dec (disk_ok (buf ++ drop (length buf) (d_bytes d))) true with
  | left E => if d_tick d then (true, Disk _ (d_failed d) false E)
              else (false, Disk (d_bytes d) (d_failed d) true (d_ok d))
  | right _ => (false, d)
  end.

Definition disk_platform (return_fail : bool) : bcb_platform :=
  {| world := disk;
     CONFIG_BCB_RANDOMISE_DEFAULT := false;
     CONFIG_BCB_RETURN_FAIL_ON_RETRY_LIMIT := return_fail;
     sizeof_ptr := 4; CMD_RET_USAGE := -1; CMD_RET_SUCCESS := 0;
     rand := λ d, (0, d);
     platform_support_pingpong := λ d, (true, d);
     platform_last_boot_failed_pingpong := λ d, (d_failed d, d);
     platform_read_partition := disk_read;
     platform_write_partition := disk_write;
     platform_get_boot_partition_name := λ _, None;
     platform_get_partition_info := λ _ d, (None, d);
     setenv_hex := λ _ d, (0, d);
     getenv_slot_suffixes := λ _, Some [95; 97; 44; 95; 98; 0];
     fastboot_printf := λ _ d, d;
     uninit := λ n _, replicate n 0xAA |}.

Lemma disk_ok_iff l : disk_ok l = true ↔ (sizeof_misc_buf ≤ length l)%nat ∧ Forall (λ c, is_u8 c) l.
Proof.
  unfold disk_ok. rewrite andb_true_iff, Nat.leb_le, forallb_forall, Forall_forall.
  setoid_rewrite list_elem_of_In. setoid_rewrite andb_true_iff. setoid_rewrite Z.leb_le.
  by setoid_rewrite Z.ltb_lt.
Qed.

Lemma disk_write_law buf w r w' : disk_write buf w = (r, w') →
  d_failed w' = d_failed w ∧ drop (length buf) (d_bytes w') = drop (length buf) (d_bytes w) ∧
  (r = true → take (length buf) (d_bytes w') = buf).
Proof.
  unfold disk_write. destruct (bool_dec _ true) as [E|]; [|by intros [= <- <-]].
  destruct (d_tick w); intros [= <- <-]; simpl; [|done].
  by rewrite drop_app_length, take_app_length.
Qed.

#[export] Instance disk_laws return_fail : bcb_platform_laws (disk_platform return_fail).
Proof.
  refine {| misc := (d_bytes : @world (disk_platform return_fail) → _);
            last_failed := (d_failed : @world (disk_platform return_fail) → _);
            pingpong := true;
            write_law := disk_write_law |}.
  - intros w. apply disk_ok_iff, d_ok.
  - intros w. apply disk_ok_iff, d_ok.
  - intros. apply length_replicate.
  - intros. apply Forall_replicate. lia.
  - by intros w r w' [= <- <-].
  - by intros w r w' [= <- <-].
  - by intros w r w' [= <- <-].
  - intros buf w r buf' w'. simpl. unfold disk_read.
    destruct (d_tick w && _)%nat eqn:E; intros [= <- <- <-]; simpl; [|done].
    apply andb_prop in E as [_ E%Nat.leb_le]. by rewrite length_take_le.
  - done.
Defined.

Lemma disk_reads_work f : @reads_work (disk_platform f).
Proof.
  intros buf w Hl. simpl. unfold disk_read.
  assert (Hb : (length buf <=? length (d_bytes w))%nat = true)
    by (apply Nat.leb_le; rewrite Hl; apply disk_ok_iff, d_ok).
  destruct w as [l fl t ok]; simpl in *. rewrite Hb. destruct t; simpl; repeat case_match; simplify_eq; done.
Qed.

Lemma disk_writes_work f : @writes_work (disk_platform f).
Proof.
  intros buf w (Hl & Hb). simpl.
  assert (Hok : ∀ w, disk_ok (buf ++ drop (length buf) (d_bytes w)) = true).
  { intros w'. apply disk_ok_iff. split; [rewrite length_app; lia|]. apply Forall_app_2; [done|].
    apply Forall_drop, disk_ok_iff, d_ok. }
  assert (Hw : ∀ w, (disk_write buf w).1 = d_tick w ∧ d_tick (disk_write buf w).2 = negb (d_tick w)).
  { intros w'. unfold disk_write. destruct (bool_dec _ true) as [|n]; [|by destruct n; apply Hok].
    by destruct (d_tick w') eqn:E. }
  destruct (disk_write buf w) as [a w1] eqn:E1, (disk_write buf w1) as [b w2] eqn:E2.
  destruct (Hw w) as [H1 H2], (Hw w1) as [H3 H4]. rewrite E1, E2 in *. simpl in *.
  destruct (disk_write buf w2). subst. rewrite H2. by destruct (d_tick w).
Qed.

(** ** The words of a fastboot command *)

(** The C string at the start of a buffer. *)
Fixpoint cstr (s : list Z) : list Z :=
  match s with [] => [] | c :: s => if c =? 0 then [] else c :: cstr s end.

(** Words are separated by spaces; [cur] is the word read so far. *)
Fixpoint words_after (cur s : list Z) : list (list Z) :=
  match s with
  | [] => if bool_decide (cur = []) then [] else [cur]
  | c :: s =>
      if c =? 32 then (if bool_decide (cur = []) then [] else [cur]) ++ words_after [] s
      else words_after (cur ++ [c]) s
  end.
Definition words : list Z → list (list Z) := words_after [].

Definition no_nul (s : list Z) : Prop := Forall (λ c, c ≠ 0) s.

Lemma cstr_app w s : no_nul w → cstr (w ++ 0 :: s) = w.
Proof.
  induction 1 as [|c w Hc _ IH]; [done|]. simpl. rewrite (proj2 (Z.eqb_neq _ _) Hc). by f_equal.
Qed.

(** A finished word ends with a NUL in the part already passed. *)
Definition finished (pre : list Z) (k : nat) (w : list Z) : Prop :=
  no_nul w ∧ ∃ s, drop k pre = w ++ 0 :: s ∧ (k ≤ length pre)%nat.

Lemma finished_mono pre s k w : finished pre k w → finished (pre ++ s) k w.
Proof.
  intros (Hw & t & E & Hk). split; [done|]. exists (t ++ s). rewrite length_app. split; [|lia].
  by rewrite drop_app_le, E, <-app_assoc by done.
Qed.

Lemma finished_cstr pre k w : finished pre k w → cstr (drop k pre) = w.
Proof. intros (Hw & t & -> & _). by apply cstr_app. Qed.

(** What the loop leaves: all words, or the refusal of nine of them. *)
Definition split_result (ws : list (list Z)) (n : nat) (r : option (option (list Z * list nat))) : Prop :=
  if (argv_size <=? length ws)%nat then r = Some None
  else ∃ cmd argv, r = Some (Some (cmd, argv)) ∧ length cmd = n ∧
       (λ k, cstr (drop k cmd)) <$> reverse argv = ws.

Lemma words_after_len cur s : cur ≠ [] → (1 ≤ length (words_after cur s))%nat.
Proof.
  revert cur. induction s as [|c s IH]; intros cur Hc; simpl.
  - rewrite bool_decide_false by done. simpl. lia.
  - destruct (c =? 32); [rewrite bool_decide_false by done; simpl; lia|]. apply IH.
    by destruct cur.
Qed.

Lemma finished_map pre s argv dw : Forall2 (finished pre) argv dw →
  (λ k, cstr (drop k (pre ++ s))) <$> argv = dw.
Proof.
  induction 1 as [|k w argv dw Hk _ IH]; [done|]. simpl. f_equal; [|exact IH].
  by apply finished_cstr, finished_mono.
Qed.

Lemma finished_all_mono pre s argv dw :
  Forall2 (finished pre) argv dw → Forall2 (finished (pre ++ s)) argv dw.
Proof. intros H. eapply Forall2_impl; [exact H|]. intros. by apply finished_mono. Qed.

Lemma split_end pre cur dw argv : no_nul cur → Forall2 (finished pre) argv dw →
  (λ k, cstr (drop k (pre ++ cur ++ [0]))) <$>
    reverse (if bool_decide (cur ≠ []) then length pre :: argv else argv) =
  reverse dw ++ words_after cur [].
Proof.
  intros Hcur Hfin. rewrite fmap_reverse. simpl (words_after cur []).
  destruct (decide (cur = [])) as [->|Hne].
  - rewrite (bool_decide_false ([] ≠ [])), (bool_decide_true ([] = [])) by naive_solver.
    by rewrite (finished_map _ _ _ _ Hfin), app_nil_r.
  - rewrite (bool_decide_true (cur ≠ [])), (bool_decide_false (cur = [])) by done.
    rewrite fmap_cons, reverse_cons, (finished_map _ _ _ _ Hfin). f_equal.
    by rewrite drop_app_length, cstr_app.
Qed.

(** The loop between two characters: behind [pre] comes the open word [cur], or
    none when it is empty, then [rest]. *)
Lemma split_loop_ok rest : no_nul rest → ∀ pre cur dw argv i cmd open av ws,
  no_nul cur → Forall2 (finished pre) argv dw → (length argv < argv_size)%nat →
  open = bool_decide (cur ≠ []) → (open = true → (S (length argv) < argv_size)%nat) →
  i = length (pre ++ cur) → cmd = pre ++ cur ++ rest ++ [0] →
  av = (if open then length pre :: argv else argv) → ws = reverse dw ++ words_after cur rest →
  split_result ws (length cmd) (split_loop (rest ++ [0]) i cmd av open).
Proof.
  induction 1 as [|c rest Hc Hrest IH];
    intros pre cur dw argv i cmd open av ws Hcur Hfin Hlen -> Hopen -> -> -> ->.
  { pose proof (split_end pre cur dw argv Hcur Hfin) as He. unfold split_result.
    assert (length (reverse dw ++ words_after cur []) < argv_size)%nat.
    { rewrite <-He, length_fmap, length_reverse. destruct (bool_decide _); simpl; auto. }
    rewrite (proj2 (Nat.leb_gt _ _)) by done. simpl. by eexists _, _. }
  cbn [app split_loop]. rewrite (proj2 (Z.eqb_neq _ _) Hc).
  destruct (decide (cur = [])) as [->|Hne].
  - rewrite (bool_decide_false ([] ≠ [])) in * by naive_solver. cbn [app words_after].
    rewrite (bool_decide_true ([] = [])) by done. rewrite app_nil_r.
    destruct (Z.eqb_spec c 32) as [->|Hsp]; cbn [negb mbind option_bind].
    + rewrite (proj2 (Nat.leb_gt _ _)) by done.
      eapply (IH (pre ++ [32]) [] dw argv); try done.
      * by apply finished_all_mono.
      * rewrite app_nil_r, length_app. simpl. lia.
      * by rewrite <-app_assoc.
    + rewrite (proj2 (Nat.ltb_lt _ _)) by done. cbn [mbind option_bind length].
      destruct (Nat.leb_spec argv_size (S (length argv))).
      * unfold split_result. rewrite (proj2 (Nat.leb_le _ _)); [done|].
        rewrite length_app, length_reverse, <-(Forall2_length _ _ _ Hfin).
        pose proof (words_after_len [c] rest ltac:(done)). simpl. lia.
      * eapply (IH pre [c] dw argv); try done; [by repeat constructor|].
        rewrite length_app. simpl. lia.
  - rewrite (bool_decide_true (cur ≠ [])) in * by done. specialize (Hopen eq_refl).
    cbn [words_after]. rewrite (bool_decide_false (cur = [])) by done.
    destruct (Z.eqb_spec c 32) as [->|Hsp]; cbn [mbind option_bind length];
      rewrite (proj2 (Nat.leb_gt _ _)) by done.
    + replace (length (pre ++ cur ++ 32 :: rest ++ [0])) with
        (length (<[length (pre ++ cur):=0]> (pre ++ cur ++ 32 :: rest ++ [0])))
        by apply length_insert.
      eapply (IH (pre ++ cur ++ [0]) [] (cur :: dw) (length pre :: argv)); try done.
      * by constructor.
      * constructor; [|by apply finished_all_mono]. split; [done|]. exists [].
        rewrite drop_app_length, length_app. split; [done|lia].
      * rewrite !length_app. simpl. lia.
      * rewrite (app_assoc pre cur (32 :: _)), insert_app_r_alt, Nat.sub_diag by done.
        by rewrite <-!app_assoc.
      * by rewrite reverse_cons, <-app_assoc.
    + eapply (IH pre (cur ++ [c]) dw argv); try done.
      * by apply Forall_app_2; [|repeat constructor].
      * symmetry. apply bool_decide_true. by destruct cur.
      * rewrite !length_app. simpl. lia.
      * by rewrite <-app_assoc.
Qed.

(** ** Properties *)

(** C20: on a device with two slots ufbl_get_active_slot performs exactly one step
    of the abstract boot machine, from the stored block when one of three reads
    succeeds and it is consistent and from fresh metadata otherwise; it returns the
    slot of that step, or -1 or an endless loop when no slot is bootable, as
    configured.  Nothing is written unless the metadata are made anew or the last
    boot failed; then the new block, behind the bytes that were in front of the old
    one (zeroes when the metadata are made anew), is written in at most three
    attempts, and the partition holds in the end exactly what those attempts leave
    in it: the new block when one succeeds, and when all three fail what the last
    of the failed writes of that block leaves; the bytes behind the block are kept
    in every case. *)
Theorem bcb_active_slot_refines {P : bcb_platform} {L : bcb_platform_laws P} (w : world) :
  pingpong = true →
  ∃ o w' d (rd wr : bool) r b', ufbl_get_active_slot w = (o, w') ∧
    (d = 0 ∨ d = 1 ∧ CONFIG_BCB_RANDOMISE_DEFAULT = true) ∧
    (∃ w0 w1, same w w0 ∧ read_attempts 3 w0 rd w1) ∧
    boot_step (last_failed w) (start d rd (bcb w)) r b' ∧ wf_ctrl b' ∧
    o = slot_outcome r ∧
    written_back (must_write rd (last_failed w) d (bcb w))
      (front rd (bcb w) (misc w) ++ bcb_encode b') wr w w' ∧
    drop sizeof_misc_buf (misc w') = drop sizeof_misc_buf (misc w) ∧
    (wr = true → misc w' = stored (front rd (bcb w) (misc w)) b' w ∧ bcb w' = b') ∧
    (reads_work → rd = true) ∧ (writes_work → wr = true).
Proof.
  intros Hpp. pose proof (active_slot_ok w Hpp) as H. unfold bwp in H.
  destruct (ufbl_get_active_slot w) as [o w'].
  destruct H as (d & rd & wr & r & b' & Hd & Hst & Hwf & Ho & _ & Hra & Hwb & Hm & Hr & Hw).
  exists o, w', d, rd, wr, r, b'. split_and!; try done.
  - apply written_back_behind in Hwb. rewrite length_app, length_front in Hwb.
    by rewrite sizeof_eq.
  - intros Hwr. split; [by apply Hm|].
    unfold bcb. rewrite (Hm Hwr). unfold stored. apply bctrl_of_put; [done|]. apply length_front.
Qed.

(** A disk with given metadata and nothing else on it. *)
Definition sample (s0 s1 : slot_metadata) : list Z :=
  zeros OFFSETOF_SLOT_SUFFIX ++ bcb_encode (BootCtrl BOOTCTRL_MAGIC 1 s0 s1 0) ++ [1; 2; 3].

#[local] Instance dev : bcb_platform := disk_platform true.
#[local] Instance dev_laws : bcb_platform_laws dev := disk_laws true.
Definition disk_1 : @world dev :=
  Disk (sample (Slot 15 3 1) (Slot 14 2 1)) true false ltac:(vm_compute; reflexivity).
Definition disk_2 : @world dev :=
  Disk (sample (Slot 14 2 1) (Slot 15 1 1)) false false ltac:(vm_compute; reflexivity).
Definition disk_3 : @world dev :=
  Disk (sample (Slot 15 1 1) (Slot 0 0 0)) false false ltac:(vm_compute; reflexivity).

Example bcb_active_slot_refines_witness :
  ∃ o w' d (rd wr : bool) r b', ufbl_get_active_slot disk_1 = (o, w') ∧
    (d = 0 ∨ d = 1 ∧ @CONFIG_BCB_RANDOMISE_DEFAULT dev = true) ∧
    (∃ w0 w1, same disk_1 w0 ∧ read_attempts 3 w0 rd w1) ∧
    boot_step true (start d rd (bcb disk_1)) r b' ∧ wf_ctrl b' ∧
    o = slot_outcome r ∧
    written_back (must_write rd true d (bcb disk_1))
      (front rd (bcb disk_1) (misc disk_1) ++ bcb_encode b') wr disk_1 w' ∧
    drop sizeof_misc_buf (misc w') = drop sizeof_misc_buf (misc disk_1) ∧
    (wr = true → misc w' = stored (front rd (bcb disk_1) (misc disk_1)) b' disk_1 ∧ bcb w' = b') ∧
    (reads_work → rd = true) ∧ (writes_work → wr = true).
Proof. exact (bcb_active_slot_refines disk_1 eq_refl). Defined.

(** C23: when the storage works, the device boots the chosen slot for ever and
    unchanged as long as the boots succeed; when every boot fails, the chosen slot
    is booted as often as it has tries, then the other slot, if it is bootable, one
    time more than it has tries, and then no slot any more, so that the device
    always gets to the other slot. *)
Theorem bcb_failover {P : bcb_platform} {L : bcb_platform_laws P}
    (reset : world → world) (failed : bool) (w : world) (i : Z) (t u n : nat) :
  (∀ w, misc (reset w) = misc w) → (∀ w, last_failed (reset w) = failed) →
  pingpong = true → reads_work → writes_work →
  decided (bcb w) = true → best (bcb w) = Some i →
  tries_remaining (slot_info (bcb w) i) = Z.of_nat t →
  tries_remaining (slot_info (bcb w) (1 - i)) = Z.of_nat u →
  boots reset n w = take n
    (if failed
     then replicate t (Done i) ++
          (if 0 <? priority (slot_info (bcb w) (1 - i)) then replicate (S u) (Done (1 - i)) else []) ++
          replicate n (slot_outcome (-1))
     else replicate n (Done i)).
Proof.
  intros Hm Hf Hpp Hr Hw Hd Hb Ht Hu. destruct failed.
  - destruct (Z.ltb_spec 0 (priority (slot_info (bcb w) (1 - i)))).
    + by eapply boots_both with (failed := true).
    + eapply boots_last with (failed := true); try done. apply Z.le_antisymm; [done|].
      destruct (bcb_wf w) as (_ & _ & (? & _) & (? & _) & _). unfold slot_info.
      destruct (1 - i =? 0); lia.
  - rewrite take_replicate, Nat.min_id. by eapply boots_good with (failed := false).
Qed.

Example bcb_failover_witness :
  boots (λ d : @world dev, Disk (d_bytes d) true (d_tick d) (d_ok d)) 6 disk_2 =
  [Done 1; Done 0; Done 0; Done 0; Done (-1); Done (-1)].
Proof.
  refine (bcb_failover (P := dev) (L := dev_laws) _ true disk_2 1 1 2 6 _ _ _ _ _ _ _ _ _).
  1-3: done. 1: apply disk_reads_work. 1: apply disk_writes_work. all: vm_compute; reflexivity.
Defined.

(** When the storage works, the metadata are valid and the last boot did not
    fail, bcb set_active makes the slot asked for the one that is booted next, bcb
    swap the other one than before (slot 1 when none was bootable), and after
    ufbl_set_slot_as_unbootable the slot is not bootable and the other one is booted
    if it is bootable. *)
Lemma bcb_selection {P : bcb_platform} {L : bcb_platform_laws P} (w : world) (i : Z)
    (argv0 : option (list Z)) (name : list Z) :
  pingpong = true → reads_work → writes_work → last_failed w = false →
  magic (bcb w) = BOOTCTRL_MAGIC → i = 0 ∨ i = 1 →
  (∀ w', slot_val_of name (getenv_slot_suffixes w') = Some i) →
  bwp (do_bcb_set_active 2 2 [argv0; Some name]) (λ o w', o = Done 0 ∧
    bwp ufbl_get_active_slot (λ o _, o = Done i) w') w ∧
  (decided (bcb w) = true →
   best (bcb w) ≠ None ∨ CONFIG_BCB_RETURN_FAIL_ON_RETRY_LIMIT = true → ∀ max argc argv,
   bwp (do_bcb_swap max argc argv) (λ o w', o = Done 0 ∧
     bwp ufbl_get_active_slot (λ o _, o = Done (swapped (bcb w))) w') w) ∧
  bwp (ufbl_set_slot_as_unbootable i) (λ o w', o = Done 0 ∧
    bwp (ufbl_is_slot_bootable i) (λ o _, o = Done false) w' ∧
    bwp ufbl_get_active_slot (λ o _, o = slot_outcome
      (if 0 <? priority (slot_info (bcb w) (1 - i)) then 1 - i else -1)) w') w.
Proof.
  intros Hpp Hr Hw Hf Hm Hi Hn. split_and!.
  - by apply set_active_ok.
  - intros. by apply swap_ok.
  - by apply unbootable_ok.
Qed.

Example bcb_selection_witness :
  bwp (P := dev) (do_bcb_set_active 2 2 [None; Some [95; 98; 0]]) (λ o w', o = Done 0 ∧
    bwp ufbl_get_active_slot (λ o _, o = Done 1) w') disk_3.
Proof.
  refine (proj1 (bcb_selection (P := dev) (L := dev_laws) disk_3 1 None [95; 98; 0]
    _ _ _ _ _ _ _)).
  1: done. 1: apply disk_reads_work. 1: apply disk_writes_work. 1: done.
  1: vm_compute; reflexivity. 1: by right. intros; vm_compute; reflexivity.
Defined.

(** Fastboot_bcb cuts its command into the words between the spaces without
    storing behind its array of nine pointers: a command of nine words or more is
    refused with -1 and no effect, and any other is dispatched with as many
    arguments as it has words, whose C strings are the words in order. *)
Lemma fastboot_bcb_words {P : bcb_platform} (s : list Z) : no_nul s →
  if (9 <=? length (words s))%nat then ∀ w, fastboot_bcb (s ++ [0]) w = (Done (-1), w)
  else ∃ argv, fmap cstr <$> argv = Some <$> words s ∧
       ∀ w, fastboot_bcb (s ++ [0]) w = do_bcb_uboot 0 (zlen (words s)) argv w.
Proof.
  intros Hs. pose proof (split_loop_ok s Hs [] [] [] [] 0 (s ++ [0]) false [] (words s)) as H.
  unfold split_result, argv_size in H.
  specialize (H ltac:(constructor) ltac:(constructor) ltac:(simpl; lia)
    ltac:(done) ltac:(done) ltac:(done) ltac:(done) ltac:(done) ltac:(done)).
  unfold fastboot_bcb, mbind, boot_bind, defined. destruct (9 <=? length (words s))%nat.
  - intros w. by rewrite H.
  - destruct H as (cmd & argv & E & Hl & Hw). rewrite E.
    exists ((λ i, Some (drop i cmd)) <$> reverse argv). split.
    + rewrite <-Hw, <-!list_fmap_compose. by apply list_fmap_ext.
    + intros w. by rewrite <-Hw, length_fmap, length_reverse.
Qed.

Example fastboot_bcb_words_witness :
  ∃ argv, fmap cstr <$> argv = Some <$> words [98; 32; 32; 49; 32] ∧
    ∀ w : @world dev, fastboot_bcb [98; 32; 32; 49; 32; 0] w = do_bcb_uboot 0 2 argv w.
Proof.
  apply (fastboot_bcb_words (P := dev) [98; 32; 32; 49; 32]). repeat (constructor; [lia|]). constructor.
Defined.

(** ** Findings *)

(** A swap that should recover a device without a bootable slot does not return
    in the configuration that hangs: [swap_hangs].  Writing the block through
    ufbl_set_boot_ctrl fills the front of the misc partition with an uninitialised
    buffer: [bwp_set_boot_ctrl].  Asking for the active slot uses up a try. *)
Lemma bcb_info_uses_a_try :
  let '(o, w') := do_bcb_info 1 1 [] disk_1 in
  o = Done 0 ∧ tries_remaining (slot_0 (bcb disk_1)) = 3 ∧ tries_remaining (slot_0 (bcb w')) = 2.
Proof. vm_compute. auto. Qed.

(** Without an argument fastboot_bcb reads a pointer that was never written. *)
Lemma fastboot_bcb_no_argument {P : bcb_platform} w : fastboot_bcb [98; 99; 98; 0] w = (Undef, w).
Proof. reflexivity. Qed.

(** do_bcb_write takes a priority modulo 16: 16 makes a slot unbootable. *)
Lemma bcb_write_truncates :
  let n := Some [49; 0] in
  let '(o, w') := do_bcb_write 7 7 [n; Some [49; 54; 0]; n; n; n; n; n] disk_1 in
  o = Done 0 ∧ slot_0 (bcb w') = Slot 0 1 1.
Proof. vm_compute. auto. Qed.
