(* ===== verification/Idme.v ===== *)
(** * Idme: the device identity table (ufbl-features idme, cmd_idme_v2_0.c)

    The serial number, keys, boot count and boot mode of a device live in a table
    of named items in one block of bytes.  A header of 16 bytes holds a magic
    number, a version and the number of items; each item is a descriptor of 28
    bytes (name, size, exportable, permission) followed by its data.

    The block is a list of bytes and a pointer into it an offset; an access outside
    of the block, or a string that does not end inside it, is [None].  A C string
    is the list of its bytes up to and with the terminator.  The size of the block
    and the table of default items depend on the project and are the class
    [idme_config]. *)

From S2P Require Import Prelude.

(** ** Bytes *)

Notation blob := (list Z) (only parsing).
Notation cptr := (list Z) (only parsing).

(** The bytes from an offset on. *)
Definition blob_at (b : blob) (off : Z) : cptr := drop (Z.to_nat off) b.

Definition blob_in (b : blob) (off len : Z) : bool :=
  (0 <=? off) && (0 <=? len) && (off + len <=? zlen b).

(** memcpy into the block, memset, memcpy out of it. *)
Definition blob_put (b : blob) (off : Z) (bytes : list Z) : option blob :=
  if blob_in b off (zlen bytes)
  then Some (take (Z.to_nat off) b ++ bytes ++ drop (Z.to_nat off + length bytes) b) else None.
Definition blob_set (b : blob) (off c len : Z) : option blob :=
  blob_put b off (replicate (Z.to_nat len) c).
Definition blob_get (b : blob) (off len : Z) : option (list Z) :=
  if blob_in b off len then Some (take (Z.to_nat len) (blob_at b off)) else None.

Definition le32 (x : Z) : list Z := [u8 x; u8 (x >>u 8); u8 (x >>u 16); u8 (x >>u 24)].
Definition blob_rd32 (b : blob) (off : Z) : option Z :=
  bs ← blob_get b off 4;
  match bs with
  | [b0; b1; b2; b3] => Some (b0 + b1 * 2 ^ 8 + b2 * 2 ^ 16 + b3 * 2 ^ 24)
  | _ => None
  end.
Definition blob_wr32 (b : blob) (off x : Z) : option blob := blob_put b off (le32 x).

(** ** Strings *)

Fixpoint idme_strlen (s : cptr) : option Z :=
  match s with
  | [] => None
  | c :: s => if c =? 0 then Some 0 else n ← idme_strlen s; Some (n + 1)
  end.

Fixpoint idme_strcmp (cs ct : cptr) : option Z :=
  match cs, ct with
  | c1 :: cs, c2 :: ct =>
      let res := wrap 8 (c1 - c2 + 2 ^ 7) - 2 ^ 7 in
      if negb (res =? 0) || (c1 =? 0) then Some res else idme_strcmp cs ct
  | _, _ => None
  end.

Fixpoint idme_strncmp (cs ct : cptr) (count : nat) : option Z :=
  match count with
  | O => Some 0
  | S count =>
      c1 ← head cs; c2 ← head ct;
      let res := wrap 8 (c1 - c2 + 2 ^ 7) - 2 ^ 7 in
      if negb (res =? 0) || (c1 =? 0) then Some res else idme_strncmp (tail cs) (tail ct) count
  end.

(** ** The layout (idme.h) *)

Definition IDME_MAX_NAME_LEN : Z := 16.
Definition IDME_MAGIC_NUMBER : cptr := [98; 101; 101; 102; 100; 101; 101; 100; 0].
Definition IDME_VERSION_2P0 : cptr := [50; 46; 48; 0].
Definition IDME_VERSION_2P1 : cptr := [50; 46; 49; 0].
Definition IDME_DEFAULT_VERSION : cptr := IDME_VERSION_2P1.

Definition sizeof_idme_desc : Z := 28.
Definition off_version : Z := 8.
Definition off_items_num : Z := 12.
Definition off_item_data : Z := 16.
Definition off_size : Z := 16.
Definition off_exportable : Z := 20.
Definition off_permission : Z := 24.

(** struct idme_init_values: a descriptor and a string value. *)
Record init_values : Type := InitValues
  { iv_name : cptr; iv_size : Z; iv_exportable : Z; iv_permission : Z; iv_value : cptr }.

Class idme_config : Type :=
  { CONFIG_IDME_SIZE : Z;
    IDME_UPDATE_TABLE : bool;
    (** without the empty entry that ends the table *)
    idme_default_values : list init_values }.

Section Idme.
Context {C : idme_config}.

(** idme_check_magic_number on a pointer that is not null (cmd_idme.c). *)
Definition idme_check_magic_number (b : blob) : option Z :=
  r ← idme_strncmp (blob_at b 0) IDME_MAGIC_NUMBER 8;
  Some (if negb (r =? 0) then -2 else 0).

(** ** Items *)

Definition MIN (x y : Z) : Z := if y <? x then y else x.

(** IDME_ITEM_INIT: nothing is written when the item does not fit under the limit. *)
Definition IDME_ITEM_INIT (b : blob) (pitem limit : Z) (item : cptr)
    (max_size export item_permission : Z) (item_value : cptr) : option blob :=
  if limit <? pitem + sizeof_idme_desc + max_size then Some b
  else
    b ← blob_set b (pitem + sizeof_idme_desc) 0 max_size;
    vl ← idme_strlen item_value;
    b ← blob_put b (pitem + sizeof_idme_desc) (take (Z.to_nat (MIN max_size vl)) item_value);
    b ← blob_set b pitem 0 IDME_MAX_NAME_LEN;
    nl ← idme_strlen item;
    b ← blob_put b pitem (take (Z.to_nat (MIN IDME_MAX_NAME_LEN nl)) item);
    b ← blob_wr32 b (pitem + off_size) max_size;
    b ← blob_wr32 b (pitem + off_exportable) export;
    blob_wr32 b (pitem + off_permission) item_permission.

(** A pointer that leaves the table is kept as the offset it has, without the
    wrap-around of the address: to form it is undefined, and the next access through
    it is caught. *)
Definition IDME_ITEM_NEXT (b : blob) (curr_item : Z) : option Z :=
  size ← blob_rd32 b (curr_item + off_size);
  Some (curr_item + sizeof_idme_desc + size).

(** The search loops of the functions below, with their comparison of names: [i]
    counts from 0 to items_num. *)
Fixpoint idme_find_loop (cmp : cptr → cptr → option Z) (fuel : nat) (b : blob) (name : cptr)
    (i items_num pitem : Z) : option (option Z) :=
  match fuel with
  | O => None
  | S fuel =>
      if i <? items_num then
        r ← cmp name (blob_at b pitem);
        if r =? 0 then Some (Some pitem)
        else pitem ← IDME_ITEM_NEXT b pitem; idme_find_loop cmp fuel b name (i + 1) items_num pitem
      else Some None
  end.

(** An item takes 28 bytes or more, so no search passes more items than bytes. *)
Definition find_by_name (b : blob) (name : cptr) : option (option Z) :=
  n ← blob_rd32 b off_items_num;
  idme_find_loop idme_strcmp (S (length b)) b name 0 n off_item_data.

(** The return code and, when it is 0, the bytes copied to [buf]. *)
Definition idme_get_var_v2p0 (name : cptr) (length : Z) (data : blob)
  : option (Z * option (list Z)) :=
  data_presence ← idme_check_magic_number data;
  if negb (data_presence =? 0) then Some (-1, None) else
  r ← find_by_name data name;
  match r with
  | Some pitem =>
      size ← blob_rd32 data (pitem + off_size);
      bytes ← blob_get data (pitem + sizeof_idme_desc) (MIN size length);
      Some (0, Some bytes)
  | None => Some (-1, None)
  end.

(** [value] has at least [length] bytes, or the copy is undefined. *)
Definition idme_update_var_v2p0 (name : cptr) (value : list Z) (length : Z) (data : blob)
  : option (Z * blob) :=
  data_presence ← idme_check_magic_number data;
  if negb (data_presence =? 0) then Some (-1, data) else
  r ← find_by_name data name;
  match r with
  | Some pitem =>
      size ← blob_rd32 data (pitem + off_size);
      data ← blob_set data (pitem + sizeof_idme_desc) 0 size;
      bytes ← blob_get value 0 (MIN size length);
      data ← blob_put data (pitem + sizeof_idme_desc) bytes;
      Some (0, data)
  | None => Some (-1, data)
  end.

(** The descriptor found, as its offset. *)
Definition idme_get_item_desc_v2p0 (data : blob) (item_name : cptr) : option (option Z) :=
  data_presence ← idme_check_magic_number data;
  if negb (data_presence =? 0) then Some None else find_by_name data item_name.

(** ** Making a new table *)

Fixpoint init_loop (b : blob) (pitem limit items_num : Z) (ps : list init_values)
  : option (Z * blob) :=
  match ps with
  | [] => Some (items_num, b)
  | p :: ps =>
      b ← IDME_ITEM_INIT b pitem limit (iv_name p) (iv_size p) (iv_exportable p)
            (iv_permission p) (iv_value p);
      pitem ← match ps with [] => Some pitem | _ => IDME_ITEM_NEXT b pitem end;
      init_loop b pitem limit (items_num + 1) ps
  end.

Definition idme_init_var_v2p0 (data : blob) : option (Z * blob) :=
  b ← blob_set data 0 0 CONFIG_IDME_SIZE;
  b ← blob_put b 0 (take 8 IDME_MAGIC_NUMBER);
  b ← blob_put b off_version (take 3 IDME_VERSION_2P1);
  '(n, b) ← init_loop b off_item_data CONFIG_IDME_SIZE 0 idme_default_values;
  b ← blob_wr32 b off_items_num n;
  Some (0, b).

(** ** Bringing a table up to date *)

(** One default: the new block, where its next item goes and the count of added
    items. *)
Definition update_item (b : blob) (items_num : Z) (new : blob) (pnew_item limit : Z)
    (added : Z) (p : init_values) : option (blob * Z * Z) :=
  r ← idme_find_loop (λ s t, idme_strncmp s t 16) (S (length b)) b (iv_name p) 0 items_num off_item_data;
  match r with
  | Some pitem =>
      size ← blob_rd32 b (pitem + off_size);
      ex ← blob_rd32 b (pitem + off_exportable);
      perm ← blob_rd32 b (pitem + off_permission);
      new ← IDME_ITEM_INIT new pnew_item limit (blob_at b pitem) size ex perm
              (blob_at b (pitem + sizeof_idme_desc));
      bytes ← blob_get b (pitem + sizeof_idme_desc) size;
      new ← blob_put new (pnew_item + sizeof_idme_desc) bytes;
      pnew_item ← IDME_ITEM_NEXT new pnew_item;
      Some (new, pnew_item, added)
  | None =>
      new ← IDME_ITEM_INIT new pnew_item limit (iv_name p) (iv_size p) (iv_exportable p)
              (iv_permission p) (iv_value p);
      pnew_item ← IDME_ITEM_NEXT new pnew_item;
      Some (new, pnew_item, added + 1)
  end.

Fixpoint update_loop (b : blob) (items_num : Z) (new : blob) (pnew_item limit : Z)
    (added new_items_num : Z) (ps : list init_values) : option (blob * Z * Z) :=
  match ps with
  | [] => Some (new, added, new_items_num)
  | p :: ps =>
      '(new, pnew_item, added) ← update_item b items_num new pnew_item limit added p;
      update_loop b items_num new pnew_item limit added (new_items_num + 1) ps
  end.

(** [malloc_ok] is whether the allocation of the new block succeeds. *)
Definition idme_update_table_v2p0 (malloc_ok : bool) (data : blob) : option (Z * blob) :=
  data_presence ← idme_check_magic_number data;
  if negb (data_presence =? 0) then Some (-1, data) else
  r ← idme_strncmp (blob_at data off_version) IDME_DEFAULT_VERSION 3;
  if negb (r =? 0) then Some (-1, data) else
  if negb malloc_ok then Some (-1, data) else
  let new := replicate (Z.to_nat CONFIG_IDME_SIZE) 0 in
  magic ← blob_get data 0 8;
  version ← blob_get data off_version 4;
  new ← blob_put new 0 magic;
  new ← blob_put new off_version version;
  items_num ← blob_rd32 data off_items_num;
  '(new, added, new_items_num) ←
    update_loop data items_num new off_item_data CONFIG_IDME_SIZE 0 0 idme_default_values;
  let deleted := s32 (items_num + added - new_items_num) in
  if negb (added =? 0) || negb (deleted =? 0) then
    new ← blob_wr32 new off_items_num new_items_num;
    bytes ← blob_get new 0 CONFIG_IDME_SIZE;
    data ← blob_put data 0 bytes;
    Some (0, data)
  else Some (-2, data).

(** ** Output *)

(** The ten characters of [buffer]. *)
Definition permission_round (i : Z) (st : list Z * Z) : list Z * Z :=
  let '(buffer, permission) := st in
  let set (bit pos c : Z) (buffer : list Z) :=
    if negb (Z.land permission bit =? 0) then <[Z.to_nat pos := c]> buffer else buffer in
  (set 4 (6 - i * 3) 114 (set 2 (7 - i * 3) 119 (set 1 (8 - i * 3) 120 buffer)),
   Z.shiftr permission 3).
Definition idme_permission_to_string (permission : Z) : list Z :=
  (permission_round 2 (permission_round 1 (permission_round 0
     (replicate 9 45 ++ [0], permission)))).1.

(** The items handed to the kernel: [atag] is the buffer of [size] bytes and [p]
    the position of [atag_buffer] in it. *)
Fixpoint atag_loop (count : nat) (data : blob) (pitem : Z) (atag : blob) (p size items_num : Z)
  : option (Z * blob * Z) :=
  match count with
  | O => Some (0, atag, items_num)
  | S count =>
      isize ← blob_rd32 data (pitem + off_size);
      let item_size := u32 (sizeof_idme_desc + isize) in
      if size <? p + item_size then Some (-1, atag, items_num) else
      ex ← blob_rd32 data (pitem + off_exportable);
      '(atag, items_num) ←
        (if negb (ex =? 0) then
           bytes ← blob_get data pitem item_size;
           atag ← blob_put atag p bytes;
           atag ← blob_wr32 atag off_items_num (items_num + 1);
           Some (atag, items_num + 1)
         else Some (atag, items_num));
      pitem ← IDME_ITEM_NEXT data pitem;
      atag_loop count data pitem atag (p + item_size) size items_num
  end.

Definition idme_init_atag_v2p0 (atag : blob) (data : blob) (size : Z) : option (Z * blob) :=
  data_presence ← idme_check_magic_number data;
  if negb (data_presence =? 0) then Some (-1, atag) else
  n ← blob_rd32 data off_items_num;
  atag ← blob_set atag 0 0 size;
  atag ← blob_put atag 0 (take 8 IDME_MAGIC_NUMBER);
  atag ← blob_put atag off_version (take 3 IDME_VERSION_2P0);
  atag ← blob_wr32 atag off_items_num 0;
  '(ret, atag, _) ← atag_loop (Z.to_nat n) data off_item_data atag off_item_data size 0;
  Some (ret, atag).
End Idme.
