(* ===== verification/IdmeThm.v ===== *)
(** * IdmeThm: the identity table is a finite map from names to values

    The bytes of a table of items, the searches and updates on them, the table of
    default items and the merge of an old table with new defaults. *)

From S2P Require Import Prelude Idme.

(** ** Bytes at an offset *)

Section bytes.
Implicit Types (pre x post b : list Z).

Lemma blob_at_pre pre s off : off = zlen pre → blob_at (pre ++ s) off = s.
Proof. intros ->. unfold blob_at. by rewrite Nat2Z.id, drop_app_length. Qed.

Lemma blob_get_mid b pre x post off len : b = pre ++ x ++ post → off = zlen pre → len = zlen x →
  blob_get b off len = Some x.
Proof.
  intros -> -> ->. unfold blob_get, blob_in. rewrite !length_app.
  rewrite !(proj2 (Z.leb_le _ _)) by lia. simpl. rewrite blob_at_pre by done.
  by rewrite Nat2Z.id, take_app_length.
Qed.

Lemma blob_put_mid b pre x post off y : b = pre ++ x ++ post → off = zlen pre →
  length y = length x → blob_put b off y = Some (pre ++ y ++ post).
Proof.
  intros -> -> Hl. unfold blob_put, blob_in. rewrite !length_app.
  rewrite !(proj2 (Z.leb_le _ _)) by lia. simpl. rewrite Nat2Z.id, take_app_length. do 3 f_equal.
  rewrite Hl, <-length_app, app_assoc. apply drop_app_length.
Qed.

Lemma blob_set_mid b pre x post off c len : b = pre ++ x ++ post → off = zlen pre →
  len = zlen x → blob_set b off c len = Some (pre ++ replicate (length x) c ++ post).
Proof.
  intros -> -> ->. unfold blob_set. rewrite Nat2Z.id.
  erewrite blob_put_mid; [done|done|done|apply length_replicate].
Qed.

Lemma blob_rd32_mid b pre (v : Z) post off : b = pre ++ le32 v ++ post → off = zlen pre →
  is_u32 v → blob_rd32 b off = Some v.
Proof.
  intros Hb Ho Hx. unfold blob_rd32. erewrite blob_get_mid; [|exact Hb|exact Ho|done]. simpl.
  f_equal. unfold u8, wrap. rewrite !Z.shiftr_div_pow2 by lia. dlia.
Qed.

Lemma blob_wr32_mid b pre x post off (v : Z) : b = pre ++ x ++ post → off = zlen pre →
  length x = 4%nat → blob_wr32 b off v = Some (pre ++ le32 v ++ post).
Proof. intros Hb Ho Hx. by eapply blob_put_mid. Qed.
End bytes.

(** ** Names *)

(** Characters of a C string. *)
Definition chars (s : list Z) : Prop := Forall (λ c, is_u8 c ∧ c ≠ 0) s.

Lemma strlen_chars s t : chars s → idme_strlen (s ++ 0 :: t) = Some (zlen s).
Proof.
  induction 1 as [|c s [_ Hc] _ IH]; [done|]. simpl. rewrite (proj2 (Z.eqb_neq _ _) Hc), IH.
  simpl. f_equal. lia.
Qed.

Lemma strlen_nul s : 0 ∈ s → ∃ n, idme_strlen s = Some n ∧ 0 ≤ n < zlen s.
Proof.
  induction s as [|c s IH]; intros Hin; [by apply elem_of_nil in Hin|]. simpl.
  destruct (Z.eqb_spec c 0); [exists 0; split; [done|lia]|].
  apply elem_of_cons in Hin as [?|Hin]; [done|]. destruct (IH Hin) as (k & -> & ?).
  exists (k + 1). split; [done|lia].
Qed.

Lemma char_diff a c : is_u8 a → is_u8 c → (wrap 8 (a - c + 2 ^ 7) - 2 ^ 7 =? 0) = (a =? c).
Proof.
  intros. unfold wrap. destruct (Z.eqb_spec a c) as [->|Hne].
  - by replace (c - c + 2 ^ 7) with (2 ^ 7) by lia.
  - apply Z.eqb_neq. intros E. apply Hne. revert E. dlia.
Qed.

Definition char_sub (a c : Z) : Z := wrap 8 (a - c + 2 ^ 7) - 2 ^ 7.

Lemma strncmp_step n a c cs ct : is_u8 a → is_u8 c →
  idme_strncmp (a :: cs) (c :: ct) (S n) =
  if negb (a =? c) || (a =? 0) then Some (char_sub a c) else idme_strncmp cs ct n.
Proof.
  intros. cbn [idme_strncmp head tail mbind option_bind]. by rewrite char_diff.
Qed.

Lemma strncmp_chars s t u v n : chars s → chars t → (length s < n)%nat →
  ∃ r, idme_strncmp (s ++ 0 :: u) (t ++ 0 :: v) n = Some r ∧ (r =? 0) = bool_decide (s = t).
Proof.
  intros Hs. revert t n. induction Hs as [|c s [Hc Hc0] _ IH]; intros t [|n] Ht Hn; try (simpl in Hn; lia).
  - destruct Ht as [|d t [Hd Hd0] _]; cbn [app].
    + rewrite strncmp_step by lia. by eexists.
    + rewrite strncmp_step, orb_true_r by (done || lia). eexists; split; [done|].
      unfold char_sub. rewrite char_diff by (done || lia). by destruct (Z.eqb_spec 0 d); [congruence|].
  - apply (proj2 (Z.eqb_neq _ _)) in Hc0. destruct Ht as [|d t [Hd Hd0] Ht]; cbn [app].
    + rewrite strncmp_step, Hc0 by (done || lia). eexists; split; [done|].
      unfold char_sub. by rewrite char_diff, Hc0 by (done || lia).
    + rewrite strncmp_step, Hc0 by done. destruct (Z.eqb_spec c d) as [->|Hne]; cbn [negb orb].
      * destruct (IH t n Ht) as (r & E & Er); [simpl in Hn; lia|]. exists r. rewrite E, Er.
        split; [done|]. apply bool_decide_ext. naive_solver.
      * eexists; split; [done|]. unfold char_sub.
        rewrite char_diff, (proj2 (Z.eqb_neq _ _) Hne) by done.
        rewrite bool_decide_false by congruence. done.
Qed.

(** Without a limit the comparison ends at the terminator too. *)
Lemma strcmp_strncmp s u ct : chars s →
  idme_strcmp (s ++ 0 :: u) ct = idme_strncmp (s ++ 0 :: u) ct (S (length s)).
Proof.
  intros Hs. revert ct. induction Hs as [|c s [_ Hc] _ IH]; intros [|d ct]; simpl; try done.
  - by rewrite orb_true_r.
  - rewrite (proj2 (Z.eqb_neq _ _) Hc), orb_false_r. destruct (negb _); [done|]. apply IH.
Qed.

Lemma strcmp_chars s t u v : chars s → chars t →
  ∃ r, idme_strcmp (s ++ 0 :: u) (t ++ 0 :: v) = Some r ∧ (r =? 0) = bool_decide (s = t).
Proof. intros Hs Ht. rewrite strcmp_strncmp by done. apply strncmp_chars; [done|done|lia]. Qed.

(** ** Tables *)

Record item : Type := Item
  { it_name : list Z; it_exportable : Z; it_permission : Z; it_data : list Z }.

Definition it_ok (it : item) : Prop :=
  chars (it_name it) ∧ (length (it_name it) < 16)%nat ∧ is_u32 (it_exportable it) ∧
  is_u32 (it_permission it) ∧ Forall (λ c, is_u8 c) (it_data it) ∧ is_u32 (zlen (it_data it)).

Definition enc_name (nm : list Z) : list Z := nm ++ replicate (16 - length nm) 0.
Definition enc_desc (it : item) : list Z :=
  enc_name (it_name it) ++ le32 (zlen (it_data it)) ++ le32 (it_exportable it) ++
  le32 (it_permission it).
Definition enc_item (it : item) : list Z := enc_desc it ++ it_data it.
Definition enc_items (its : list item) : list Z := concat (enc_item <$> its).

Definition header (version : list Z) (n : Z) : list Z :=
  take 8 IDME_MAGIC_NUMBER ++ version ++ le32 n.

(** The block [b] holds the items [its], followed by [rest]. *)
Definition table (b version : list Z) (its : list item) (rest : list Z) : Prop :=
  b = header version (zlen its) ++ enc_items its ++ rest ∧
  length version = 4%nat ∧ Forall it_ok its ∧ NoDup (it_name <$> its) ∧ zlen its < 2 ^ 32 ∧
  Forall (λ c, is_u8 c) rest.

Definition item_len (it : item) : Z := sizeof_idme_desc + zlen (it_data it).

Lemma length_enc_name nm : (length nm < 16)%nat → length (enc_name nm) = 16%nat.
Proof. intros. unfold enc_name. rewrite length_app, length_replicate. lia. Qed.

Lemma length_enc_desc it : (length (it_name it) < 16)%nat → length (enc_desc it) = 28%nat.
Proof. intros Hl. unfold enc_desc. by rewrite !length_app, length_enc_name. Qed.

Lemma length_enc_item it : it_ok it → zlen (enc_item it) = item_len it.
Proof.
  intros Hok. unfold enc_item, item_len, sizeof_idme_desc.
  rewrite length_app, length_enc_desc by apply Hok. lia.
Qed.

Lemma enc_name_nul nm : (length nm < 16)%nat → ∃ t, enc_name nm = nm ++ 0 :: t.
Proof.
  intros H. unfold enc_name. destruct (16 - length nm)%nat as [|k] eqn:E; [lia|].
  by exists (replicate k 0).
Qed.

Lemma enc_item_nul it post : it_ok it → ∃ t, enc_item it ++ post = it_name it ++ 0 :: t.
Proof.
  intros (_ & Hl & _). destruct (enc_name_nul _ Hl) as (t & Ht).
  unfold enc_item, enc_desc. rewrite Ht, <-!app_assoc. by eexists.
Qed.

Lemma enc_items_cons it its : enc_items (it :: its) = enc_item it ++ enc_items its.
Proof. done. Qed.

Lemma enc_items_app its its' : enc_items (its ++ its') = enc_items its ++ enc_items its'.
Proof. unfold enc_items. by rewrite fmap_app, concat_app. Qed.

Lemma length_header version n : length version = 4%nat → length (header version n) = 16%nat.
Proof. intros H. unfold header. rewrite !length_app, H. done. Qed.

(** The fields of an item at [zlen pre]. *)
Section fields.
Context (b pre post : list Z) (it : item).
Context (Hb : b = pre ++ enc_item it ++ post) (Hok : it_ok it).

Lemma rd_size : blob_rd32 b (zlen pre + off_size) = Some (zlen (it_data it)).
Proof.
  destruct Hok as (_ & Hl & _ & _ & _ & Hu). unfold enc_item, enc_desc in Hb.
  eapply (blob_rd32_mid b (pre ++ enc_name (it_name it))); [|rewrite length_app, length_enc_name by done; unfold off_size; lia|done].
  rewrite Hb, <-!app_assoc. done.
Qed.

Lemma rd_exportable : blob_rd32 b (zlen pre + off_exportable) = Some (it_exportable it).
Proof.
  destruct Hok as (_ & Hl & He & _). unfold enc_item, enc_desc in Hb.
  eapply (blob_rd32_mid b (pre ++ enc_name (it_name it) ++ le32 (zlen (it_data it)))); [|rewrite !length_app, length_enc_name by done; simpl; unfold off_exportable; lia|done].
  rewrite Hb, <-!app_assoc. done.
Qed.

Lemma rd_permission : blob_rd32 b (zlen pre + off_permission) = Some (it_permission it).
Proof.
  destruct Hok as (_ & Hl & _ & Hp & _). unfold enc_item, enc_desc in Hb.
  eapply (blob_rd32_mid b (pre ++ enc_name (it_name it) ++ le32 (zlen (it_data it)) ++ le32 (it_exportable it))); [|rewrite !length_app, length_enc_name by done; simpl; unfold off_permission; lia|done].
  rewrite Hb, <-!app_assoc. done.
Qed.

Lemma next_item : IDME_ITEM_NEXT b (zlen pre) = Some (zlen (pre ++ enc_item it)).
Proof.
  unfold IDME_ITEM_NEXT. rewrite rd_size. simpl. f_equal. rewrite length_app, Nat2Z.inj_add.
  rewrite length_enc_item by done. unfold item_len. lia.
Qed.

Lemma get_data len : 0 ≤ len → blob_get b (zlen pre + sizeof_idme_desc) (MIN (zlen (it_data it)) len) =
  Some (take (Z.to_nat len) (it_data it)).
Proof.
  intros Hlen. unfold enc_item in Hb.
  eapply (blob_get_mid b (pre ++ enc_desc it) _ (drop (Z.to_nat len) (it_data it) ++ post)).
  - rewrite Hb, <-!app_assoc. do 2 f_equal. by rewrite app_assoc, take_drop.
  - rewrite length_app, length_enc_desc by apply Hok. unfold sizeof_idme_desc. lia.
  - rewrite length_take. unfold MIN. destruct (Z.ltb_spec len (zlen (it_data it))); lia.
Qed.

Lemma get_all : blob_get b (zlen pre + sizeof_idme_desc) (zlen (it_data it)) = Some (it_data it).
Proof.
  eapply (blob_get_mid b (pre ++ enc_desc it) _ post); [| |done].
  - rewrite Hb. unfold enc_item. by rewrite <-!app_assoc.
  - rewrite length_app, length_enc_desc by apply Hok. unfold sizeof_idme_desc. lia.
Qed.

Lemma data_at : blob_at b (zlen pre + sizeof_idme_desc) = it_data it ++ post.
Proof.
  assert (Hb' : b = (pre ++ enc_desc it) ++ it_data it ++ post)
    by (rewrite Hb; unfold enc_item; by rewrite <-!app_assoc).
  rewrite Hb', blob_at_pre; [done|].
  rewrite length_app, length_enc_desc by apply Hok. unfold sizeof_idme_desc. lia.
Qed.

Lemma name_at : ∃ t, blob_at b (zlen pre) = it_name it ++ 0 :: t.
Proof. rewrite Hb, blob_at_pre by done. by apply enc_item_nul. Qed.
End fields.

(** ** Searching *)

Definition compares (cmp : list Z → list Z → option Z) : Prop := ∀ s t u v,
  chars s → chars t → (length s < 16)%nat →
  ∃ r, cmp (s ++ 0 :: u) (t ++ 0 :: v) = Some r ∧ (r =? 0) = bool_decide (s = t).

Lemma strcmp_compares : compares idme_strcmp.
Proof. intros s t u v Hs Ht _. by apply strcmp_chars. Qed.

Lemma strncmp_compares : compares (λ s t, idme_strncmp s t 16).
Proof. intros s t u v Hs Ht Hl. by apply strncmp_chars. Qed.

(** The first item with a name splits the list. *)
Definition finds (name : list Z) (its : list item) (off : Z) (r : option (option Z)) : Prop :=
  (∃ i1 it i2, its = i1 ++ it :: i2 ∧ it_name it = name ∧ name ∉ it_name <$> i1 ∧
     r = Some (Some (off + zlen (enc_items i1)))) ∨
  (name ∉ it_name <$> its ∧ r = Some None).

Lemma idme_find_ok cmp name u : compares cmp → chars name → (length name < 16)%nat →
  ∀ its pre rest b i n fuel, b = pre ++ enc_items its ++ rest → Forall it_ok its →
  n = i + zlen its → (length its < fuel)%nat →
  finds name its (zlen pre) (idme_find_loop cmp fuel b (name ++ 0 :: u) i n (zlen pre)).
Proof.
  intros Hcmp Hname Hlen its. induction its as [|it its IH]; intros pre rest b i n [|fuel] Hb Hok Hn Hf;
    try (simpl in Hf; lia); cbn [idme_find_loop].
  - rewrite (proj2 (Z.ltb_ge _ _)) by (simpl in Hn; lia). right. split; [apply not_elem_of_nil|done].
  - apply Forall_cons in Hok as [Hit Hok]. rewrite enc_items_cons, <-app_assoc in Hb.
    rewrite (proj2 (Z.ltb_lt _ _)) by (simpl in Hn; lia).
    destruct (name_at b pre _ it Hb Hit) as (t & ->).
    destruct (Hcmp name (it_name it) u t) as (r & -> & Hr); [done|apply Hit|done|]. simpl. rewrite Hr.
    destruct (decide (name = it_name it)) as [E|E].
    + rewrite bool_decide_true by done. left. exists [], it, its. split_and!; [done|done|apply not_elem_of_nil|].
      simpl. do 2 f_equal. lia.
    + rewrite bool_decide_false by done. rewrite (next_item b pre _ it Hb Hit). simpl.
      destruct (IH (pre ++ enc_item it) rest b (i + 1) n fuel) as
        [(i1 & jt & i2 & -> & Hn1 & Hn2 & ->)|[Hn1 ->]].
      * by rewrite Hb, <-app_assoc.
      * done.
      * rewrite Hn. simpl. lia.
      * simpl in Hf. lia.
      * left. exists (it :: i1), jt, i2. split_and!; [done|done| |].
        -- rewrite fmap_cons, not_elem_of_cons. done.
        -- do 2 f_equal. rewrite enc_items_cons, !length_app. lia.
      * right. split; [|done]. by rewrite fmap_cons, not_elem_of_cons.
Qed.

Lemma enc_items_len its : Forall it_ok its → (length its ≤ length (enc_items its))%nat.
Proof.
  induction 1 as [|it its Hit _ IH]; [done|]. rewrite enc_items_cons, length_app. simpl.
  pose proof (length_enc_item it Hit). unfold item_len, sizeof_idme_desc in *. lia.
Qed.

(** The value of a name. *)
Definition find_value (name : list Z) (its : list item) : option (list Z) :=
  it_data <$> (list_find (λ it, it_name it = name) its ≫= λ '(_, it), Some it).

Lemma find_value_split its i1 it i2 name : its = i1 ++ it :: i2 → it_name it = name →
  name ∉ it_name <$> i1 → find_value name its = Some (it_data it).
Proof.
  intros -> Hn Hni. unfold find_value. rewrite list_find_app_r; [|].
  - simpl. by rewrite decide_True.
  - apply list_find_None. apply Forall_forall. intros x Hx E. apply Hni.
    rewrite <-E. by apply list_elem_of_fmap_2.
Qed.

Lemma find_value_None its name : name ∉ it_name <$> its → find_value name its = None.
Proof.
  intros Hni. unfold find_value. rewrite (proj2 (list_find_None _ _)); [done|].
  apply Forall_forall. intros x Hx E. apply Hni. rewrite <-E. by apply list_elem_of_fmap_2.
Qed.

Section table.
Context {C : idme_config} (b version : list Z) (its : list item) (rest : list Z).
Context (Ht : table b version its rest).

Lemma table_magic : idme_check_magic_number b = Some 0.
Proof.
  destruct Ht as (-> & _). unfold idme_check_magic_number, header.
  rewrite <-!app_assoc. reflexivity.
Qed.

Lemma table_items_num : blob_rd32 b off_items_num = Some (zlen its).
Proof.
  destruct Ht as (-> & Hv & _ & _ & Hn & _). unfold header. rewrite <-!app_assoc.
  eapply (blob_rd32_mid _ (take 8 IDME_MAGIC_NUMBER ++ version)); [by rewrite <-!app_assoc| |lia].
  by rewrite length_app, Hv.
Qed.

Lemma table_find cmp name u : compares cmp → chars name → (length name < 16)%nat →
  finds name its off_item_data
    (idme_find_loop cmp (S (length b)) b (name ++ 0 :: u) 0 (zlen its) off_item_data).
Proof.
  intros Hcmp Hname Hl. destruct Ht as (Hb & Hv & Hok & _).
  replace off_item_data with (zlen (header version (zlen its)))
    by (rewrite length_header by done; done).
  eapply idme_find_ok; try done. rewrite Hb, !length_app.
  pose proof (enc_items_len its Hok). lia.
Qed.

(** The bytes around an item of the table. *)
Lemma table_split i1 it i2 : its = i1 ++ it :: i2 →
  b = (header version (zlen its) ++ enc_items i1) ++ enc_item it ++ enc_items i2 ++ rest ∧
  off_item_data + zlen (enc_items i1) = zlen (header version (zlen its) ++ enc_items i1) ∧ it_ok it.
Proof.
  intros E. destruct Ht as (Hb & Hv & Hok & _). split_and!.
  - rewrite Hb, E, enc_items_app, enc_items_cons, <-!app_assoc. done.
  - rewrite length_app, length_header by done. unfold off_item_data. lia.
  - rewrite E in Hok. apply Forall_app in Hok as [_ Hok]. by apply Forall_cons in Hok as [? _].
Qed.

Lemma find_by_name_ok name : chars name → (length name < 16)%nat →
  finds name its off_item_data (find_by_name b (name ++ [0])).
Proof.
  intros. unfold find_by_name. rewrite table_items_num. simpl.
  by apply table_find; [apply strcmp_compares|..].
Qed.

Lemma get_var_ok name len : chars name → (length name < 16)%nat → 0 ≤ len →
  idme_get_var_v2p0 (name ++ [0]) len b = Some
    match find_value name its with
    | Some v => (0, Some (take (Z.to_nat len) v))
    | None => (-1, None)
    end.
Proof.
  intros Hname Hl Hlen. unfold idme_get_var_v2p0. rewrite table_magic. simpl (0 =? 0).
  cbn [negb mbind option_bind].
  destruct (find_by_name_ok name Hname Hl) as [(i1 & it & i2 & E & Hn & Hni & ->)|[Hni ->]].
  - rewrite (find_value_split _ _ _ _ _ E Hn Hni). cbn [mbind option_bind].
    destruct (table_split i1 it i2 E) as (Hb & -> & Hok).
    rewrite (rd_size _ _ _ _ Hb Hok). cbn [mbind option_bind].
    by rewrite (get_data _ _ _ _ Hb Hok) by done.
  - by rewrite find_value_None.
Qed.

Lemma get_item_desc_ok name : chars name → (length name < 16)%nat →
  finds name its off_item_data (idme_get_item_desc_v2p0 b (name ++ [0])).
Proof.
  intros. unfold idme_get_item_desc_v2p0. rewrite table_magic. simpl. by apply find_by_name_ok.
Qed.
End table.

(** The value an update leaves in a field of [size] bytes. *)
Definition fill (size : nat) (value : list Z) : list Z :=
  take size value ++ replicate (size - length value) 0.
Definition set_value (name value : list Z) (it : item) : item :=
  if decide (it_name it = name)
  then Item (it_name it) (it_exportable it) (it_permission it) (fill (length (it_data it)) value)
  else it.

Lemma length_value_fill n v : length (fill n v) = n.
Proof. unfold fill. rewrite length_app, length_take, length_replicate. lia. Qed.

Lemma set_value_names name v (its : list item) : it_name <$> (set_value name v <$> its) = it_name <$> its.
Proof.
  rewrite <-list_fmap_compose. apply list_fmap_ext. intros _ it _. simpl. unfold set_value.
  by case_decide.
Qed.

Lemma set_value_other name v (its : list item) : name ∉ it_name <$> its → set_value name v <$> its = its.
Proof.
  induction its as [|it its IH]; [done|]. rewrite !fmap_cons, not_elem_of_cons. intros [Hn Hni].
  rewrite IH by done. unfold set_value. by rewrite decide_False by congruence.
Qed.

Lemma set_value_split name v i1 it i2 : NoDup (it_name <$> i1 ++ it :: i2) → it_name it = name →
  set_value name v <$> i1 ++ it :: i2 =
  i1 ++ Item name (it_exportable it) (it_permission it) (fill (length (it_data it)) v) :: i2.
Proof.
  rewrite fmap_app, NoDup_app, fmap_cons, NoDup_cons. intros (_ & Hd & Hni & _) <-.
  rewrite fmap_app, fmap_cons, !set_value_other; [|done|].
  - unfold set_value. by rewrite decide_True.
  - intros Hin. apply (Hd _ Hin). left.
Qed.

Lemma fill_bytes n v : Forall (λ c, is_u8 c) v → Forall (λ c, is_u8 c) (fill n v).
Proof.
  intros. apply Forall_app_2; [by apply Forall_take|]. apply Forall_replicate. lia.
Qed.

Lemma set_value_ok name v (its : list item) : Forall (λ c, is_u8 c) v → Forall it_ok its →
  Forall it_ok (set_value name v <$> its).
Proof.
  intros Hv Hok. apply Forall_fmap. eapply Forall_impl; [exact Hok|].
  intros it (H1 & H2 & H3 & H4 & H5 & H6). simpl. unfold set_value.
  case_decide; [|done]. split_and!; simpl; try done; rewrite ?length_value_fill; try lia. by apply fill_bytes.
Qed.

(** Writing the data of an item in place. *)
Lemma put_data b pre it post v : b = pre ++ enc_item it ++ post → (length (it_name it) < 16)%nat →
  length v = length (it_data it) →
  blob_put b (zlen pre + sizeof_idme_desc) v =
  Some (pre ++ enc_item (Item (it_name it) (it_exportable it) (it_permission it) v) ++ post).
Proof.
  intros Hb Hok Hl. unfold enc_item in *. erewrite (blob_put_mid b (pre ++ enc_desc it) (it_data it) post).
  - unfold enc_desc. simpl. by rewrite Hl, <-!app_assoc.
  - by rewrite Hb, <-!app_assoc.
  - rewrite length_app, length_enc_desc by done. unfold sizeof_idme_desc. lia.
  - done.
Qed.

Lemma put_prefix b pre it post v : b = pre ++ enc_item it ++ post → it_ok it →
  (length v ≤ length (it_data it))%nat →
  blob_put b (zlen pre + sizeof_idme_desc) v =
  Some (pre ++ enc_item (Item (it_name it) (it_exportable it) (it_permission it)
    (v ++ drop (length v) (it_data it))) ++ post).
Proof.
  intros Hb Hok Hl. unfold enc_item in *.
  erewrite (blob_put_mid b (pre ++ enc_desc it) (take (length v) (it_data it))
    (drop (length v) (it_data it) ++ post)).
  - unfold enc_desc. simpl. rewrite length_app, length_drop.
    replace (length v + (length (it_data it) - length v))%nat with (length (it_data it)) by lia.
    by rewrite <-!app_assoc.
  - rewrite Hb, <-!app_assoc. do 2 f_equal. by rewrite app_assoc, take_drop.
  - rewrite length_app, length_enc_desc by apply Hok. unfold sizeof_idme_desc. lia.
  - rewrite length_take. lia.
Qed.

Lemma update_var_ok {C : idme_config} b version its rest name value len :
  table b version its rest → chars name → (length name < 16)%nat →
  Forall (λ c, is_u8 c) value → 0 ≤ len →
  (∀ v, find_value name its = Some v → MIN (zlen v) len ≤ zlen value) →
  ∃ b', idme_update_var_v2p0 (name ++ [0]) value len b =
          Some (if decide (name ∈ it_name <$> its) then 0 else -1, b') ∧
    table b' version (set_value name (take (Z.to_nat len) value) <$> its) rest.
Proof.
  intros Ht Hname Hl Hval Hlen Hsz. unfold idme_update_var_v2p0.
  rewrite (table_magic _ _ _ _ Ht). simpl (0 =? 0). cbn [negb mbind option_bind].
  destruct (find_by_name_ok _ _ _ _ Ht name Hname Hl) as [(i1 & it & i2 & E & Hn & Hni & ->)|[Hni ->]].
  2: { rewrite decide_False by done. exists b. by rewrite set_value_other. }
  rewrite decide_True by (rewrite E, fmap_app, fmap_cons, Hn; set_solver).
  specialize (Hsz _ (find_value_split _ _ _ _ _ E Hn Hni)). cbn [mbind option_bind].
  destruct (table_split _ _ _ _ Ht i1 it i2 E) as (Hb & -> & Hok).
  rewrite (rd_size _ _ _ _ Hb Hok). cbn [mbind option_bind]. unfold blob_set. rewrite Nat2Z.id.
  rewrite (put_data _ _ _ _ _ Hb (proj1 (proj2 Hok))) by apply length_replicate. cbn [mbind option_bind].
  set (m := MIN (zlen (it_data it)) len) in *.
  assert (Hm : 0 ≤ m ≤ zlen (it_data it) ∧ m ≤ len) by (unfold m, MIN; case_match; lia).
  rewrite (blob_get_mid value [] (take (Z.to_nat m) value) (drop (Z.to_nat m) value) 0 m)
    by (rewrite ?take_drop, ?length_take; simpl; lia || done).
  cbn [mbind option_bind].
  assert (Hok0 : it_ok (Item (it_name it) (it_exportable it) (it_permission it)
    (replicate (length (it_data it)) 0))).
  { destruct Hok as (? & ? & ? & ? & ? & ?). split_and!; simpl; rewrite ?length_replicate; try done; try lia.
    apply Forall_replicate. lia. }
  erewrite put_prefix; [|done|exact Hok0|simpl; rewrite length_take, length_replicate; lia].
  cbn [mbind option_bind]. eexists. split; [done|].
  destruct Ht as (_ & Hv & Hall & Hnd & Hn32 & Hr). unfold table.
  rewrite set_value_names, length_fmap. split_and!; try done; [|apply set_value_ok; [by apply Forall_take|done]].
  rewrite E in Hnd |- *. rewrite set_value_split by done.
  rewrite enc_items_app, enc_items_cons, <-!app_assoc. do 3 f_equal. simpl. rewrite Hn. f_equal. f_equal.
  unfold fill. rewrite take_take, drop_replicate, !length_take. f_equal; f_equal; unfold m, MIN in *; case_match; lia.
Qed.

(** ** Writing items *)

(** A piece of 28 + n bytes seen as a descriptor and data. *)
Lemma split_fields (x : list Z) n : length x = (28 + n)%nat → ∃ x0 x1 x2 x3 x4,
  x = x0 ++ x1 ++ x2 ++ x3 ++ x4 ∧ length x0 = 16%nat ∧ length x1 = 4%nat ∧ length x2 = 4%nat ∧
  length x3 = 4%nat ∧ length x4 = n.
Proof.
  intros Hx. exists (take 16 x), (take 4 (drop 16 x)), (take 4 (drop 20 x)), (take 4 (drop 24 x)), (drop 28 x).
  split; [|rewrite !length_take, !length_drop; lia].
  rewrite <-(take_drop 16 x) at 1. f_equal. rewrite <-(take_drop 4 (drop 16 x)) at 1. f_equal.
  rewrite drop_drop. rewrite <-(take_drop 4 (drop (16 + 4) x)) at 1. f_equal.
  rewrite drop_drop. rewrite <-(take_drop 4 (drop (16 + 4 + 4) x)) at 1. f_equal.
  by rewrite drop_drop.
Qed.

Lemma fill_take n v (k : nat) : (k ≤ length v)%nat →
  fill n (take k v) = take (Nat.min n k) v ++ replicate (n - Nat.min n k) 0.
Proof.
  intros. unfold fill. rewrite take_take, length_take. f_equal. f_equal. lia.
Qed.

(** A string written into a field cleared before. *)
Lemma put_cleared b pre n post v (k : nat) : b = pre ++ replicate n 0 ++ post → (k ≤ length v)%nat →
  blob_put b (zlen pre) (take (Nat.min n k) v) = Some (pre ++ fill n (take k v) ++ post).
Proof.
  intros Hb Hk. rewrite fill_take by done.
  erewrite (blob_put_mid b pre (replicate (Nat.min n k) 0) (replicate (n - Nat.min n k) 0 ++ post)).
  - by rewrite <-app_assoc.
  - rewrite Hb. f_equal. rewrite app_assoc, <-replicate_add. do 2 f_equal. lia.
  - done.
  - rewrite length_take, length_replicate. lia.
Qed.

Lemma enc_name_fill nm : (length nm < 16)%nat → fill 16 nm = enc_name nm.
Proof. intros. unfold fill, enc_name. by rewrite take_ge by lia. Qed.

Lemma item_init_ok b pre x post nm t (n : nat) e p value vl limit :
  b = pre ++ x ++ post → length x = (28 + n)%nat → zlen (pre ++ x) ≤ limit →
  chars nm → (length nm < 16)%nat → idme_strlen value = Some vl → 0 ≤ vl ≤ zlen value →
  IDME_ITEM_INIT b (zlen pre) limit (nm ++ 0 :: t) (Z.of_nat n) e p value =
  Some (pre ++ enc_item (Item nm e p (fill n (take (Z.to_nat vl) value))) ++ post).
Proof.
  intros -> Hx Hlim Hnm Hnl Hvl Hvr.
  destruct (split_fields x n Hx) as (x0 & x1 & x2 & x3 & x4 & -> & H0 & H1 & H2 & H3 & H4).
  unfold IDME_ITEM_INIT, sizeof_idme_desc, off_size, off_exportable, off_permission.
  rewrite length_app, Hx in Hlim. rewrite (proj2 (Z.ltb_ge _ _)) by lia.
  rewrite (blob_set_mid _ (pre ++ x0 ++ x1 ++ x2 ++ x3) x4 post)
    by (rewrite ?length_app, ?H0, ?H1, ?H2, ?H3, ?H4, <-?app_assoc; done || lia).
  rewrite H4. cbn [mbind option_bind]. rewrite Hvl. cbn [mbind option_bind].
  replace (Z.to_nat (MIN (Z.of_nat n) vl)) with (Nat.min n (Z.to_nat vl))
    by (unfold MIN; case_match; lia).
  replace (zlen pre + 28) with (zlen (pre ++ x0 ++ x1 ++ x2 ++ x3))
    by (rewrite !length_app, H0, H1, H2, H3; lia).
  erewrite (put_cleared _ _ n post) by (done || lia). cbn [mbind option_bind].
  set (data := fill n (take (Z.to_nat vl) value)).
  rewrite (blob_set_mid _ pre x0 (x1 ++ x2 ++ x3 ++ data ++ post))
    by (rewrite ?H0, <-?app_assoc; done).
  rewrite H0. cbn [mbind option_bind]. rewrite strlen_chars by done. cbn [mbind option_bind].
  replace (Z.to_nat (MIN IDME_MAX_NAME_LEN (zlen nm))) with (Nat.min 16 (length nm))
    by (unfold MIN, IDME_MAX_NAME_LEN; case_match; lia).
  rewrite (put_cleared _ pre 16 (x1 ++ x2 ++ x3 ++ data ++ post) (nm ++ 0 :: t) (length nm))
    by (rewrite ?length_app; simpl; done || lia).
  rewrite take_app_length, enc_name_fill by done. cbn [mbind option_bind].
  pose proof (length_enc_name nm Hnl) as Hen.
  rewrite (blob_wr32_mid _ (pre ++ enc_name nm) x1 (x2 ++ x3 ++ data ++ post))
    by (rewrite ?length_app, ?Hen, <-?app_assoc; done || lia). cbn [mbind option_bind].
  rewrite (blob_wr32_mid _ (pre ++ enc_name nm ++ le32 (Z.of_nat n)) x2 (x3 ++ data ++ post))
    by (rewrite ?length_app, ?Hen, <-?app_assoc; simpl; done || lia). cbn [mbind option_bind].
  rewrite (blob_wr32_mid _ (pre ++ enc_name nm ++ le32 (Z.of_nat n) ++ le32 e) x3 (data ++ post))
    by (rewrite ?length_app, ?Hen, <-?app_assoc; simpl; done || lia).
  unfold enc_item, enc_desc. simpl. subst data. rewrite length_value_fill, <-!app_assoc. done.
Qed.

(** ** Default tables *)

(** An entry of the table of defaults, and the item it makes. *)
Definition iv_ok (p : init_values) : Prop :=
  ∃ nm v (n : nat), iv_name p = nm ++ [0] ∧ chars nm ∧ (length nm < 16)%nat ∧
    iv_value p = v ++ [0] ∧ chars v ∧ iv_size p = Z.of_nat n ∧ is_u32 (Z.of_nat n) ∧
    is_u32 (iv_exportable p) ∧ is_u32 (iv_permission p).

Definition item_of (p : init_values) : item :=
  Item (removelast (iv_name p)) (iv_exportable p) (iv_permission p)
    (fill (Z.to_nat (iv_size p)) (removelast (iv_value p))).

Lemma chars_u8 s : chars s → Forall (λ c, is_u8 c) s.
Proof. intros H. eapply Forall_impl; [exact H|]. by intros c [? _]. Qed.

Lemma item_of_ok p : iv_ok p → it_ok (item_of p).
Proof.
  intros (nm & v & n & En & Hnm & Hl & Ev & Hv & Es & Hn & He & Hp).
  unfold item_of. rewrite En, Ev, Es, !removelast_last. unfold it_ok. cbn [it_name it_exportable it_permission it_data].
  rewrite length_value_fill, Nat2Z.id. auto 10 using fill_bytes, chars_u8.
Qed.

(** One entry written at the start of a cleared area. *)
Lemma init_item_ok b pre p m limit : b = pre ++ replicate m 0 → iv_ok p →
  zlen (enc_item (item_of p)) ≤ Z.of_nat m → zlen pre + Z.of_nat m ≤ limit →
  IDME_ITEM_INIT b (zlen pre) limit (iv_name p) (iv_size p) (iv_exportable p) (iv_permission p)
    (iv_value p) =
  Some (pre ++ enc_item (item_of p) ++ replicate (m - length (enc_item (item_of p))) 0).
Proof.
  intros Hb Hok Hm Hlim. pose proof (length_enc_item _ (item_of_ok p Hok)) as Hlen.
  destruct Hok as (nm & v & n & En & Hnm & Hl & Ev & Hv & Es & Hn & He & Hp).
  unfold item_len, sizeof_idme_desc in Hlen.
  assert (Hd : length (it_data (item_of p)) = n) by (simpl; by rewrite length_value_fill, Es, Nat2Z.id).
  rewrite Hd in Hlen.
  replace (m - length (enc_item (item_of p)))%nat with (m - (28 + n))%nat by lia.
  rewrite En, Es, (item_init_ok b pre (replicate (28 + n) 0) (replicate (m - (28 + n)) 0) nm [] n
    (iv_exportable p) (iv_permission p) (iv_value p) (zlen v) limit).
  - f_equal. f_equal. unfold item_of. rewrite En, Ev, Es, !removelast_last, !Nat2Z.id, take_app_length.
    done.
  - rewrite Hb. f_equal. rewrite <-replicate_add. f_equal. lia.
  - apply length_replicate.
  - rewrite length_app, length_replicate. lia.
  - done.
  - done.
  - rewrite Ev. by apply strlen_chars.
  - rewrite Ev, length_app. simpl. lia.
Qed.

Lemma init_loop_ok ps : Forall iv_ok ps → ∀ pre m limit k,
  zlen (enc_items (item_of <$> ps)) ≤ Z.of_nat m → zlen pre + Z.of_nat m ≤ limit →
  init_loop (pre ++ replicate m 0) (zlen pre) limit k ps =
  Some (k + zlen ps, pre ++ enc_items (item_of <$> ps) ++
                     replicate (m - length (enc_items (item_of <$> ps))) 0).
Proof.
  induction 1 as [|p ps Hp Hps IH]; intros pre m limit k Hm Hlim; cbn [init_loop].
  - simpl. rewrite Z.add_0_r, Nat.sub_0_r. done.
  - rewrite fmap_cons, enc_items_cons, length_app in Hm |- *.
    rewrite (init_item_ok _ pre p m limit) by (done || lia). cbn [mbind option_bind].
    set (e := enc_item (item_of p)) in *. rewrite app_assoc.
    specialize (IH (pre ++ e) (m - length e)%nat limit (k + 1) ltac:(lia)
      ltac:(rewrite length_app; lia)).
    destruct ps as [|p' ps'].
    + cbn [mbind option_bind init_loop]. simpl. rewrite Nat.add_0_r, <-!app_assoc. done.
    + erewrite (next_item _ pre _ (item_of p)); [|by rewrite <-app_assoc|by apply item_of_ok].
      cbn [mbind option_bind]. fold e. rewrite IH, <-!app_assoc. do 2 f_equal; [cbn [length]; lia|].
      do 4 f_equal. lia.
Qed.

Definition version_2p1 : list Z := [50; 46; 49; 0].

(** The table of defaults is well formed and fits into the block. *)
Definition default_items {C : idme_config} : list item := item_of <$> idme_default_values.
Definition defaults_ok {C : idme_config} : Prop :=
  Forall iv_ok idme_default_values ∧ NoDup (it_name <$> default_items) ∧
  zlen idme_default_values < 2 ^ 32 ∧ 16 + zlen (enc_items default_items) ≤ CONFIG_IDME_SIZE.

Lemma default_items_ok {C : idme_config} : defaults_ok → Forall it_ok default_items.
Proof.
  intros (Hok & _). apply Forall_fmap. eapply Forall_impl; [exact Hok|]. apply item_of_ok.
Qed.

Lemma length_default_items {C : idme_config} : length default_items = length idme_default_values.
Proof. apply length_fmap. Qed.

Lemma le32_zero : le32 0 = [0; 0; 0; 0].
Proof. done. Qed.

Lemma zeros_u8 n : Forall (λ c, is_u8 c) (replicate n 0).
Proof. apply Forall_replicate. lia. Qed.

(** idme_init_var_v2p0 writes the table of the defaults. *)
Lemma init_var_ok {C : idme_config} (data : list Z) : defaults_ok → zlen data = CONFIG_IDME_SIZE →
  ∃ b m, idme_init_var_v2p0 data = Some (0, b) ∧
    table b version_2p1 default_items (replicate m 0) ∧ zlen b = CONFIG_IDME_SIZE.
Proof.
  intros Hdf Hl. pose proof Hdf as (Hok & Hnd & Hn & Hfit). unfold idme_init_var_v2p0.
  rewrite (blob_set_mid _ [] data []) by (by rewrite ?app_nil_r). cbn [app mbind option_bind].
  rewrite app_nil_r. replace (length data) with (16 + (length data - 16))%nat by lia.
  rewrite replicate_add. set (m := (length data - 16)%nat) in *.
  rewrite (blob_put_mid _ [] (replicate 8 0) (replicate 8 0 ++ replicate m 0)) by done.
  cbn [app mbind option_bind].
  rewrite (blob_put_mid _ (take 8 IDME_MAGIC_NUMBER) (replicate 3 0) (replicate 5 0 ++ replicate m 0)) by done.
  cbn [mbind option_bind].
  assert (Hh : take 8 IDME_MAGIC_NUMBER ++ take 3 IDME_VERSION_2P1 ++ replicate 5 0 ++ replicate m 0 =
    header version_2p1 0 ++ replicate m 0) by done.
  rewrite Hh. replace off_item_data with (zlen (header version_2p1 0)) by done.
  rewrite init_loop_ok; [|done|unfold default_items in Hfit; lia|rewrite length_header by done; lia].
  cbn [mbind option_bind]. fold default_items. rewrite Z.add_0_l.
  rewrite (blob_wr32_mid _ (take 8 IDME_MAGIC_NUMBER ++ version_2p1) (le32 0)
    (enc_items default_items ++ replicate (m - length (enc_items default_items)) 0))
    by (unfold header; rewrite <-?app_assoc; done).
  cbn [mbind option_bind]. eexists _, (m - length (enc_items default_items))%nat. split; [done|].
  unfold table. split_and!; try done.
  - unfold header. by rewrite length_default_items, <-!app_assoc.
  - by apply default_items_ok.
  - by rewrite length_default_items.
  - apply zeros_u8.
  - rewrite !length_app, length_replicate. simpl. lia.
Qed.

(** ** Merging an old table with the defaults *)

Definition find_named (name : list Z) (its : list item) : option item :=
  list_find (λ it, it_name it = name) its ≫= λ '(_, it), Some it.
Definition merge_item (its : list item) (d : item) : item :=
  default d (find_named (it_name d) its).

Lemma find_named_split its i1 it i2 name : its = i1 ++ it :: i2 → it_name it = name →
  name ∉ it_name <$> i1 → find_named name its = Some it.
Proof.
  intros -> Hn Hni. unfold find_named. rewrite list_find_app_r.
  - simpl. by rewrite decide_True.
  - apply list_find_None, Forall_forall. intros x Hx E. apply Hni. rewrite <-E.
    by apply list_elem_of_fmap_2.
Qed.

Lemma find_named_None its name : name ∉ it_name <$> its → find_named name its = None.
Proof.
  intros Hni. unfold find_named. rewrite (proj2 (list_find_None _ _)); [done|].
  apply Forall_forall. intros x Hx E. apply Hni. rewrite <-E. by apply list_elem_of_fmap_2.
Qed.

Lemma merge_item_name its d : it_name (merge_item its d) = it_name d.
Proof.
  unfold merge_item, find_named. destruct (list_find _ its) as [[i it]|] eqn:E; [|done].
  apply list_find_Some in E as (_ & ? & _). done.
Qed.

Lemma merge_item_ok its d : Forall it_ok its → it_ok d → it_ok (merge_item its d).
Proof.
  intros Hits Hd. unfold merge_item, find_named.
  destruct (list_find _ its) as [[i it]|] eqn:E; [|done]. simpl.
  apply list_find_Some in E as (E & _ & _). by eapply (Forall_lookup_1 it_ok).
Qed.

Section merge.
Context {C : idme_config} (b version : list Z) (its : list item) (rest : list Z).
Context (Ht : table b version its rest) (Hnul : 0 ∈ rest).

Lemma update_item_ok p pre m limit added : iv_ok p →
  zlen (enc_item (merge_item its (item_of p))) ≤ Z.of_nat m → zlen pre + Z.of_nat m ≤ limit →
  update_item b (zlen its) (pre ++ replicate m 0) (zlen pre) limit added p =
  let e := enc_item (merge_item its (item_of p)) in
  Some (pre ++ e ++ replicate (m - length e) 0, zlen (pre ++ e),
        added + (if decide (it_name (item_of p) ∈ it_name <$> its) then 0 else 1)).
Proof.
  intros Hp Hm Hlim. unfold update_item. pose proof (item_of_ok p Hp) as Hdk.
  destruct Hp as (nm & v & n & En & Hnm & Hl & Hp). assert (Hnmd : it_name (item_of p) = nm)
    by (simpl; by rewrite En, removelast_last).
  rewrite En. destruct (table_find _ _ _ _ Ht _ nm [] strncmp_compares Hnm Hl) as
    [(i1 & it & i2 & E & Hn & Hni & ->)|[Hni ->]].
  - rewrite decide_True by (rewrite E, Hnmd, fmap_app, fmap_cons, Hn, elem_of_app, elem_of_cons; auto).
    assert (Hmi : merge_item its (item_of p) = it).
    { unfold merge_item. by rewrite Hnmd, (find_named_split _ _ _ _ _ E Hn Hni). }
    rewrite Hmi in *. cbn [mbind option_bind].
    destruct (table_split _ _ _ _ Ht i1 it i2 E) as (Hb & -> & Hok).
    rewrite (rd_size _ _ _ _ Hb Hok), (rd_exportable _ _ _ _ Hb Hok), (rd_permission _ _ _ _ Hb Hok).
    cbn [mbind option_bind]. destruct (name_at _ _ _ _ Hb Hok) as (t & ->).
    set (value := blob_at b _).
    assert (Hval : value = it_data it ++ enc_items i2 ++ rest).
    { exact (data_at _ _ _ _ Hb Hok). }
    destruct (strlen_nul value) as (vl & Hvl & Hvr); [rewrite Hval, !elem_of_app; auto|].
    pose proof (length_enc_item it Hok) as Hlen. unfold item_len, sizeof_idme_desc in Hlen.
    erewrite (item_init_ok _ pre (replicate (28 + length (it_data it)) 0)
      (replicate (m - length (enc_item it)) 0)); cycle 1.
    { f_equal. rewrite <-replicate_add. f_equal. lia. }
    { apply length_replicate. }
    { rewrite length_app, length_replicate. lia. }
    { apply Hok. } { apply Hok. } { exact Hvl. } { lia. }
    cbn [mbind option_bind].
    rewrite (get_all _ _ _ _ Hb Hok). cbn [mbind option_bind].
    erewrite (put_data _ pre); [|done|apply Hok|simpl; by rewrite length_value_fill].
    cbn [mbind option_bind it_name it_exportable it_permission].
    replace (Item (it_name it) (it_exportable it) (it_permission it) (it_data it)) with it
      by (by destruct it).
    erewrite (next_item _ pre _ it); [|done|done]. simpl. do 3 f_equal. lia.
  - rewrite decide_False by (by rewrite Hnmd).
    assert (Hmi : merge_item its (item_of p) = item_of p).
    { unfold merge_item. by rewrite find_named_None by (by rewrite Hnmd). }
    rewrite Hmi in *. cbn [mbind option_bind]. rewrite <-En.
    rewrite (init_item_ok _ pre p m limit); [|done| |done|done].
    2: { by exists nm, v, n. }
    cbn [mbind option_bind]. erewrite (next_item _ pre _ (item_of p)); [|done|done]. done.
Qed.

Lemma update_loop_ok ps : Forall iv_ok ps → ∀ pre m limit added k,
  let ms := merge_item its ∘ item_of <$> ps in
  zlen (enc_items ms) ≤ Z.of_nat m → zlen pre + Z.of_nat m ≤ limit →
  update_loop b (zlen its) (pre ++ replicate m 0) (zlen pre) limit added k ps =
  Some (pre ++ enc_items ms ++ replicate (m - length (enc_items ms)) 0,
        added + zlen (filter (λ p, it_name (item_of p) ∉ it_name <$> its) ps), k + zlen ps).
Proof.
  induction 1 as [|p ps Hp Hps IH]; intros pre m limit added k ms Hm Hlim; cbn [update_loop].
  - simpl. by rewrite Nat.sub_0_r, !Z.add_0_r.
  - subst ms. rewrite fmap_cons, enc_items_cons, length_app in Hm |- *.
    change ((merge_item its ∘ item_of) p) with (merge_item its (item_of p)) in *.
    rewrite update_item_ok by (done || lia). cbn [mbind option_bind]. cbv zeta.
    set (e := enc_item _) in *. rewrite app_assoc.
    rewrite IH by (rewrite ?length_app; lia). rewrite <-!app_assoc. f_equal. f_equal; [f_equal|].
    + do 4 f_equal. lia.
    + rewrite filter_cons. do 2 case_decide; try done; cbn [length]; lia.
    + cbn [length]. lia.
Qed.

Definition merged : list item := merge_item its <$> default_items.
Definition same_names : Prop := ∀ nm, nm ∈ it_name <$> its ↔ nm ∈ it_name <$> default_items.

Lemma merged_names : it_name <$> merged = it_name <$> default_items.
Proof.
  unfold merged. rewrite <-list_fmap_compose. apply list_fmap_ext. intros _ d _. apply merge_item_name.
Qed.

(** The counts of added and deleted items are zero exactly when the names agree. *)
Lemma counts_zero added : defaults_ok →
  added = zlen (filter (λ p, it_name (item_of p) ∉ it_name <$> its) idme_default_values) →
  (added = 0 ∧ s32 (zlen its + added - zlen idme_default_values) = 0) ↔ same_names.
Proof.
  intros (_ & Hnd & Hn & _) ->. destruct Ht as (_ & _ & _ & Hndi & Hni & _).
  assert (Hz : zlen (filter (λ p, it_name (item_of p) ∉ it_name <$> its) idme_default_values) = 0 ↔
    (it_name <$> default_items) ⊆ (it_name <$> its)).
  { unfold default_items. rewrite <-list_fmap_compose. split.
    - intros H0 nm (p & -> & Hp)%list_elem_of_fmap_1. simpl. apply dec_stable. intros Hnot.
      assert (Hin : p ∈ filter (λ p, it_name (item_of p) ∉ it_name <$> its) idme_default_values)
        by (by apply list_elem_of_filter).
      destruct (filter _ _); [by apply elem_of_nil in Hin|done].
    - intros Hsub. destruct (filter _ _) as [|p l] eqn:Ef; [done|].
      assert (Hin : p ∈ p :: l) by left. rewrite <-Ef in Hin.
      apply list_elem_of_filter in Hin as [Hnot Hp]. destruct Hnot.
      apply Hsub. by apply (list_elem_of_fmap_2 (it_name ∘ item_of)). }
  assert (Hlen : length (it_name <$> default_items) = length idme_default_values)
    by (by rewrite length_fmap, length_default_items).
  assert (Hleni : length (it_name <$> its) = length its) by apply length_fmap.
  split.
  - intros [H0 Hs]. pose proof (proj1 Hz H0) as Hsub. rewrite H0, Z.add_0_r in Hs.
    assert (Hll : length its = length idme_default_values).
    { unfold s32, wrap in Hs. clear -Hs Hn Hni. revert Hs. dlia. }
    pose proof (NoDup_submseteq _ _ Hnd Hsub) as Hsm.
    apply submseteq_length_Permutation in Hsm; [|lia]. intros nm. by rewrite Hsm.
  - intros Hsn. assert (H0 : (it_name <$> default_items) ⊆ (it_name <$> its))
      by (intros nm; apply Hsn).
    rewrite (proj2 Hz H0). split; [done|].
    assert (Hp : it_name <$> its ≡ₚ it_name <$> default_items) by (by apply NoDup_Permutation).
    apply Permutation_length in Hp. rewrite Hlen, Hleni in Hp. rewrite Hp.
    by replace (zlen idme_default_values + 0 - zlen idme_default_values) with 0 by lia.
Qed.

End merge.

Lemma table_merged {C : idme_config} b version its rest m : table b version its rest → defaults_ok →
  table (header version (zlen idme_default_values) ++ enc_items (merged its) ++ replicate m 0) version (merged its) (replicate m 0).
Proof.
  intros (_ & Hv & Hall & Hndi & _) Hdf. pose proof Hdf as (Hok & Hnd & Hn & _). unfold table. rewrite merged_names.
  assert (length (merged its) = length idme_default_values) as H.
  { unfold merged. by rewrite length_fmap, length_default_items. }
  split_and!; try done.
  - by rewrite H.
  - apply Forall_fmap. eapply Forall_impl; [by apply default_items_ok|]. intros d Hd'. by apply merge_item_ok.
  - by rewrite H.
  - apply zeros_u8.
Qed.

Lemma update_table_ok {C : idme_config} b version its rest : table b version its rest → 0 ∈ rest →
  defaults_ok → zlen b = CONFIG_IDME_SIZE → take 3 version = [50; 46; 49] →
  16 + zlen (enc_items (merged its)) ≤ CONFIG_IDME_SIZE →
  (same_names its ∧ idme_update_table_v2p0 true b = Some (-2, b)) ∨
  (¬ same_names its ∧ ∃ b' m, idme_update_table_v2p0 true b = Some (0, b') ∧
     table b' version (merged its) (replicate m 0) ∧ zlen b' = CONFIG_IDME_SIZE).
Proof.
  intros Ht Hnul Hdf Hlb Hver Hfit. pose proof Hdf as (Hok & Hnd & Hn & _).
  pose proof Ht as (Hb & Hv & Hall & Hndi & Hni & Hrest).
  destruct version as [|v0 [|v1 [|v2 [|v3 [|]]]]]; try done. simpl in Hver.
  injection Hver as -> -> ->. set (vs := [50; 46; 49; v3]) in *.
  unfold idme_update_table_v2p0. rewrite (table_magic _ _ _ _ Ht).
  cbn [mbind option_bind negb]. simpl (0 =? 0). cbn [negb].
  replace (idme_strncmp (blob_at b off_version) IDME_DEFAULT_VERSION 3) with (Some 0).
  2: { rewrite Hb. unfold header. rewrite <-!app_assoc. by rewrite blob_at_pre. }
  cbn [mbind option_bind negb]. simpl (0 =? 0). cbn [negb].
  rewrite (blob_get_mid b [] (take 8 IDME_MAGIC_NUMBER) (vs ++ le32 (zlen its) ++ enc_items its ++ rest) 0 8)
    by (rewrite ?Hb; unfold header; rewrite <-?app_assoc; done).
  cbn [mbind option_bind].
  rewrite (blob_get_mid b (take 8 IDME_MAGIC_NUMBER) vs (le32 (zlen its) ++ enc_items its ++ rest)
    off_version 4)
    by (rewrite ?Hb; unfold header; rewrite <-?app_assoc; done).
  cbn [mbind option_bind].
  set (m := (length b - 16)%nat).
  assert (Hlb16 : (16 ≤ length b)%nat) by (rewrite Hb, length_app, length_header by done; lia).
  replace (Z.to_nat CONFIG_IDME_SIZE) with (16 + m)%nat by lia. rewrite replicate_add.
  rewrite (blob_put_mid _ [] (replicate 8 0) (replicate 8 0 ++ replicate m 0)) by done.
  cbn [app mbind option_bind].
  rewrite (blob_put_mid _ (take 8 IDME_MAGIC_NUMBER) (replicate 4 0) (replicate 4 0 ++ replicate m 0)) by done.
  cbn [mbind option_bind]. rewrite (table_items_num _ _ _ _ Ht). cbn [mbind option_bind].
  assert (Hh : take 8 IDME_MAGIC_NUMBER ++ vs ++ replicate 4 0 ++ replicate m 0 =
    header vs 0 ++ replicate m 0) by done.
  rewrite Hh. replace off_item_data with (zlen (header vs 0)) by done.
  assert (Hmg : merge_item its ∘ item_of <$> idme_default_values = merged its)
    by (unfold merged, default_items; by rewrite <-list_fmap_compose).
  rewrite (update_loop_ok _ _ _ _ Ht Hnul); [|done|rewrite Hmg; lia|rewrite length_header by done; lia].
  rewrite Hmg, !Z.add_0_l. cbn [mbind option_bind].
  pose proof (counts_zero _ _ _ _ Ht _ Hdf eq_refl) as Hc.
  set (added := zlen (filter _ idme_default_values)) in *.
  destruct (decide (added = 0 ∧ s32 (zlen its + added - zlen idme_default_values) = 0)) as [Hd|Hd].
  { left. split; [by apply Hc|]. destruct Hd as [-> ->]. done. }
  right. split; [by rewrite <-Hc|].
  assert (Hor : negb (added =? 0) || negb (s32 (zlen its + added - zlen idme_default_values) =? 0) = true).
  { destruct (Z.eqb_spec added 0), (Z.eqb_spec (s32 (zlen its + added - zlen idme_default_values)) 0); naive_solver. }
  rewrite Hor.
  set (z := replicate (m - length (enc_items (merged its))) 0).
  rewrite (blob_wr32_mid _ (take 8 IDME_MAGIC_NUMBER ++ vs) (le32 0) (enc_items (merged its) ++ z))
    by (unfold header; rewrite <-?app_assoc; done).
  cbn [mbind option_bind].
  set (new := (take 8 IDME_MAGIC_NUMBER ++ vs) ++ _).
  assert (Hnew : zlen new = CONFIG_IDME_SIZE).
  { subst new z. rewrite !length_app, length_replicate. simpl. lia. }
  rewrite (blob_get_mid new [] new [] 0 CONFIG_IDME_SIZE) by (rewrite ?app_nil_r; done).
  cbn [mbind option_bind]. rewrite (blob_put_mid b [] b [] 0 new) by (rewrite ?app_nil_r; done || lia).
  cbn [mbind option_bind app]. rewrite app_nil_r.
  exists new, (m - length (enc_items (merged its)))%nat. split; [done|]. split; [|done].
  replace new with (header vs (zlen idme_default_values) ++ enc_items (merged its) ++ z)
    by (subst new; unfold header; by rewrite <-!app_assoc).
  by eapply table_merged.
Qed.
