(* ===== verification/IdmeCmd.v ===== *)
(** * IdmeCmd: the life of the identity table (cmd_idme.c, idme_platform_mstar.c)

    The boot loader reads the table from the boot partition of the eMMC into a
    static buffer, makes or updates it when needed, reads and writes items, counts
    boots and offers the idme command.  The state holds the static variables of
    cmd_idme.c; the eMMC driver, the allocator and the console are the class
    [emmc_platform].  The function pointers that idme_initialize sets are all null
    or all those of version 2, except the one for the device tree, which
    idme_null_func forgets; one flag each says which. *)

From S2P Require Import Prelude Idme.

Class emmc_platform : Type :=
  { ew : Type;
    eMMC_Init : ew → bool * ew;
    eMMC_ReadBootPart : Z → ew → option (list Z) * ew;
    eMMC_WriteBootPart : list Z → ew → bool * ew;
    memalign : ew → bool * ew;
    (** whether the block that idme_update_table_v2p0 allocates and frees again is granted *)
    malloc : ew → bool;
    fastboot_info : list Z → ew → ew;
    fastboot_fail : list Z → ew → ew }.

Section Cmd.
Context {C : idme_config} {P : emmc_platform}.

Record idme_state : Type := IdmeState
  { gidme_buff : list Z;
    (** pidme_data points to gidme_buff; otherwise it is null *)
    pidme_data : bool;
    (** the function pointers are those of version 2; otherwise they are null *)
    v2_funcs : bool;
    dev_tree_func : bool;
    board_id : list Z;
    device : ew }.

Definition set_buff (b : list Z) (s : idme_state) : idme_state :=
  IdmeState b (pidme_data s) (v2_funcs s) (dev_tree_func s) (board_id s) (device s).
Definition set_pidme (p : bool) (s : idme_state) : idme_state :=
  IdmeState (gidme_buff s) p (v2_funcs s) (dev_tree_func s) (board_id s) (device s).
Definition set_funcs (v d : bool) (s : idme_state) : idme_state :=
  IdmeState (gidme_buff s) (pidme_data s) v d (board_id s) (device s).
Definition set_board_id (i : list Z) (s : idme_state) : idme_state :=
  IdmeState (gidme_buff s) (pidme_data s) (v2_funcs s) (dev_tree_func s) i (device s).
Definition set_device (w : ew) (s : idme_state) : idme_state :=
  IdmeState (gidme_buff s) (pidme_data s) (v2_funcs s) (dev_tree_func s) (board_id s) w.

Notation idme A := (prog idme_state A).

Definition on_device {A} (f : ew → A * ew) : idme A := λ s,
  let '(a, w) := f (device s) in Some (a, set_device w s).
Definition info (m : list Z) : idme unit := modify (λ s, set_device (fastboot_info m (device s)) s).
Definition fail (m : list Z) : idme unit := modify (λ s, set_device (fastboot_fail m (device s)) s).

(** ** idme_platform_mstar.c *)

(** Both return 0 whatever happens; a null from memalign is not checked. *)
Definition idme_platform_read : idme Z :=
  ok ← on_device memalign;
  ready ← on_device eMMC_Init;
  if negb ready then mret 0 else
  if negb ok then wrong else
  r ← on_device (eMMC_ReadBootPart CONFIG_IDME_SIZE);
  match r with
  | None => mret 0
  | Some readBuf =>
      b ← gets gidme_buff;
      bytes ← lift (blob_get readBuf 0 CONFIG_IDME_SIZE);
      b ← lift (blob_put b 0 bytes);
      _ ← modify (set_buff b);
      mret 0
  end.

Definition idme_platform_write : idme Z :=
  ok ← on_device memalign;
  ready ← on_device eMMC_Init;
  if negb ready then mret 0 else
  if negb ok then wrong else
  b ← gets gidme_buff;
  writeBuf ← lift (blob_get b 0 CONFIG_IDME_SIZE);
  _ ← on_device (eMMC_WriteBootPart writeBuf);
  mret 0.

(** ** cmd_idme.c *)

Definition idme_read : idme Z := idme_platform_read.

(** The pointer passed is pidme_data; a null is not read by the driver but by
    memcpy, which is undefined. *)
Definition idme_write : idme Z :=
  p ← gets pidme_data;
  if (p : bool) then idme_platform_write else wrong.

(** The functions of version 2 on pidme_data: a null is refused with -1. *)
Definition get_var (name : list Z) (len : Z) : idme (Z * option (list Z)) :=
  p ← gets pidme_data;
  if negb p then mret (-1, None) else
  b ← gets gidme_buff; lift (idme_get_var_v2p0 name len b).
Definition update_var (name value : list Z) (len : Z) : idme Z :=
  p ← gets pidme_data;
  if negb p then mret (-1) else
  b ← gets gidme_buff;
  '(r, b) ← lift (idme_update_var_v2p0 name value len b);
  _ ← modify (set_buff b);
  mret r.

Definition idme_clean : idme Z :=
  p ← gets pidme_data;
  if negb p then mret (-1) else
  b ← gets gidme_buff;
  data_presence ← lift (idme_check_magic_number b);
  if negb (data_presence =? 0) then mret (-1) else
  b ← lift (blob_set b 0 0 CONFIG_IDME_SIZE);
  _ ← modify (set_buff b);
  r ← idme_write;
  _ ← modify (set_pidme false);
  mret (if negb (r =? 0) then -1 else 0).

Definition idme_null_func : idme Z :=
  _ ← modify (λ s, set_funcs false (dev_tree_func s) s);
  mret 0.

Definition idme_atag_initialize (atag : list Z) (size : Z) : idme (Z * list Z) :=
  v2 ← gets v2_funcs;
  if negb v2 then mret (-1, atag) else
  p ← gets pidme_data;
  if negb p then wrong else
  b ← gets gidme_buff; lift (idme_init_atag_v2p0 atag b size).

Definition idme_update_var_ex (name value : list Z) (len : Z) : idme Z :=
  v2 ← gets v2_funcs;
  if (v2 : bool) then
    r ← update_var name value len;
    if negb (r =? 0) then mret (-1) else
    r ← idme_write;
    mret (if negb (r =? 0) then -1 else 0)
  else mret (-1).

(** Digits of a C string as an int; a value above INT_MAX is undefined. *)
Definition is_digit (c : Z) : bool := (48 <=? c) && (c <=? 57).
Fixpoint atoui_loop (i : Z) (s : list Z) : option Z :=
  match s with
  | [] => None
  | c :: s =>
      if negb (c =? 0) && is_digit c then
        if i * 10 + c <=? INT_MAX then atoui_loop (i * 10 + c - 48) s else None
      else Some i
  end.
Definition atoui (s : list Z) : option Z := atoui_loop 0 s.
(** *** Numbers (u-boot's lib/vsprintf.c): this board is built with u-boot's atoi *)

Definition ub_isdigit (c : Z) : bool := (48 <=? c) && (c <=? 57).
Definition ub_islower (c : Z) : bool := (97 <=? c) && (c <=? 122).
Definition ub_isxdigit (c : Z) : bool := ub_isdigit c || ((65 <=? c) && (c <=? 70)) || ((97 <=? c) && (c <=? 102)).
Definition strtoul_digit (c : Z) : Z :=
  if ub_isdigit c then c - 48 else (if ub_islower c then c - 32 else c) - 65 + 10.

Fixpoint strtoul_loop (base result : Z) (cp : list Z) : option Z :=
  match cp with
  | [] => None
  | c :: cp =>
      if ub_isxdigit c && (strtoul_digit c <? base) then strtoul_loop base (u32 (result * base + strtoul_digit c)) cp
      else Some result
  end.

Definition ub_strtoul (cp : list Z) (base : Z) : option Z :=
  c ← head cp;
  '(cp, base) ← (if c =? 48 then
                   let cp := tail cp in
                   c ← head cp;
                   hex ← (if c =? 120 then d ← head (tail cp); Some (ub_isxdigit d) else Some false);
                   let '(cp, base) := if (hex : bool) then (tail cp, 16) else (cp, base) in
                   Some (cp, if base =? 0 then 8 else base)
                 else Some (cp, base));
  strtoul_loop (if base =? 0 then 10 else base) 0 cp.

Definition ub_strtol (cp : list Z) (base : Z) : option Z :=
  c ← head cp;
  if c =? 45 then x ← ub_strtoul (tail cp) base; Some (s32 (- x))
  else x ← ub_strtoul cp base; Some (s32 x).

Definition ub_atoi (cp : option (list Z)) : option Z := ub_strtol (default [0] cp) 0.

(** What snprintf writes for "%d" into a buffer of [size] bytes. *)
Fixpoint dec_digits (fuel : nat) (n : Z) (acc : list Z) : list Z :=
  match fuel with
  | O => acc
  | S fuel =>
      let acc := (48 + n `mod` 10) :: acc in
      if n / 10 =? 0 then acc else dec_digits fuel (n / 10) acc
  end.
Definition print_dec (n : Z) : list Z := dec_digits 10 n [].
Definition snprintf_d (size : nat) (x : Z) : list Z :=
  let text := if x <? 0 then 45 :: print_dec (- x) else print_dec x in
  take (size - 1) text ++ [0].

(** An array on the stack after something was copied to its start. *)
Definition over (dst src : list Z) : list Z := src ++ drop (length src) dst.

Definition name_bootcount : list Z := [98; 111; 111; 116; 99; 111; 117; 110; 116; 0].
Definition name_bootmode : list Z := [98; 111; 111; 116; 109; 111; 100; 101; 0].
Definition name_board_id : list Z := [98; 111; 97; 114; 100; 95; 105; 100; 0].
Definition IDME_MAX_IDME_ITEM_SIZE : Z := CONFIG_IDME_SIZE.

Definition idme_boot_info : idme unit :=
  let boot_count_str := replicate 9 0 in
  v2 ← gets v2_funcs;
  if (v2 : bool) then
    '(r, bytes) ← get_var name_bootcount 9;
    if r =? 0 then
      let boot_count_str := over boot_count_str (default [] bytes) in
      value ← lift (atoui boot_count_str);
      if value =? 99999999 then mret tt
      else
        let value := u32 (value + 1) in
        let boot_count_str := over boot_count_str (snprintf_d 9 (s32 value)) in
        _ ← idme_update_var_ex name_bootcount boot_count_str IDME_MAX_IDME_ITEM_SIZE;
        mret tt
    else mret tt
  else mret tt.

Definition idme_boot_mode : idme Z :=
  let bootmode := replicate 6 0 in
  v2 ← gets v2_funcs;
  if (v2 : bool) then
    '(r, bytes) ← get_var name_bootmode 6;
    if r =? 0 then
      value ← lift (ub_atoi (Some (over bootmode (default [] bytes))));
      mret (if value <? 0 then -1 else value)
    else mret (-1)
  else mret (-1).

(** The string returned, or null. *)
Definition idme_board_id : idme (option (list Z)) :=
  v2 ← gets v2_funcs;
  if (v2 : bool) then
    '(r, bytes) ← get_var name_board_id 16;
    if r =? 0 then
      id ← gets board_id;
      let id := over id (default [] bytes) in
      _ ← modify (set_board_id id);
      mret (Some id)
    else mret None
  else mret None.

Definition idme_get_var_external (name : list Z) (len : Z) : idme (Z * option (list Z)) :=
  v2 ← gets v2_funcs;
  if negb v2 then mret (-2, None) else get_var name len.

(** ** Initialisation *)

Inductive version_type : Set := IDME_VER_1P2 | IDME_VER_2P0 | IDME_VER_2P1 | IDME_VER_3P0.
Definition idme_ver_table : list (list Z * version_type) :=
  [([49; 46; 50; 0], IDME_VER_1P2); ([50; 46; 48; 0], IDME_VER_2P0);
   ([50; 46; 49; 0], IDME_VER_2P1); ([51; 46; 48; 0], IDME_VER_3P0)].

(** The loop over the versions: no entry leaves the function pointers alone. *)
Fixpoint version_loop (table : list (list Z * version_type)) : idme unit :=
  match table with
  | [] => mret tt
  | (version, ver_type) :: table =>
      b ← gets gidme_buff;
      r ← lift (idme_strncmp (blob_at b off_version) version 3);
      if r =? 0 then
        match ver_type with
        | IDME_VER_2P0 | IDME_VER_2P1 => modify (set_funcs true true)
        | _ => _ ← idme_null_func; mret tt
        end
      else version_loop table
  end.

Definition idme_initialize : idme Z :=
  p ← gets pidme_data;
  if (p : bool) then mret 0 else
  b ← gets gidme_buff;
  b ← lift (blob_set b 0 0 CONFIG_IDME_SIZE);
  _ ← modify (set_buff b);
  r ← idme_read;
  if negb (r =? 0) then mret (-1) else
  _ ← modify (set_pidme true);
  b ← gets gidme_buff;
  iTmp ← lift (idme_check_magic_number b);
  _ ← (if iTmp =? -2 then
         b ← lift (blob_put b 0 (take 8 IDME_MAGIC_NUMBER));
         b ← lift (blob_put b off_version (take 3 IDME_DEFAULT_VERSION));
         modify (set_buff b)
       else mret tt);
  _ ← version_loop idme_ver_table;
  v2 ← gets v2_funcs;
  if (iTmp =? -2) && v2 then
    b ← gets gidme_buff;
    '(r, b) ← lift (idme_init_var_v2p0 b);
    _ ← modify (set_buff b);
    if negb (r =? 0) then mret (-1) else
    r ← idme_write;
    mret (if negb (r =? 0) then -1 else 0)
  else if IDME_UPDATE_TABLE && v2 then
    b ← gets gidme_buff;
    malloc_ok ← gets (λ s, malloc (device s));
    '(r, b) ← lift (idme_update_table_v2p0 malloc_ok b);
    _ ← modify (set_buff b);
    if r =? 0 then
      r ← idme_write;
      mret (if negb (r =? 0) then -1 else 0)
    else mret 0
  else mret 0.

(** ** The command *)

Definition starts_with (s : list Z) (prefix : list Z) : option bool :=
  r ← idme_strncmp s (prefix ++ [0]) (length prefix); Some (r =? 0).
Definition txt_clean : list Z := [99; 108; 101; 97; 110].
Definition txt_version : list Z := [118; 101; 114; 115; 105; 111; 110].
Definition txt_init : list Z := [105; 110; 105; 116].

(** The version table entry that a text is a prefix of. *)
Fixpoint known_version (table : list (list Z * version_type)) (s : list Z) : option bool :=
  match table with
  | [] => Some false
  | (version, _) :: table =>
      n ← idme_strlen s;
      r ← idme_strncmp version s (Z.to_nat n);
      if r =? 0 then Some true else known_version table s
  end.

(** "idme ? name": the name, a colon and the value, in a buffer of 1024 bytes. *)
Definition query (name : list Z) : idme Z :=
  n ← lift (idme_strlen name);
  let text := take (Z.to_nat n) name ++ [58; 32] in
  let len := Z.min (n + 2) 1023 in
  let buf := over (replicate 1024 0) (take 1023 text) in
  v2 ← gets v2_funcs;
  if (v2 : bool) then
    '(r, bytes) ← get_var name (1024 - len);
    if negb (r =? 0) then _ ← fail buf; mret (-1)
    else
      _ ← info (over buf (take (Z.to_nat len) buf ++ default [] bytes));
      mret 0
  else _ ← fail buf; mret (-1).

(** Setting an item and writing the table. *)
Definition set_item (name value : list Z) (len : Z) : idme Z :=
  v2 ← gets v2_funcs;
  if (v2 : bool) then
    r ← update_var name value len;
    if negb (r =? 0) then _ ← fail []; mret (-1) else
    r ← idme_write;
    if negb (r =? 0) then _ ← fail []; mret (-1) else mret 0
  else _ ← fail []; mret (-1).

Definition argv_at (argv : list (list Z)) (i : nat) : idme (list Z) := lift (argv !! i).

(** ** Printing (cmd_idme_v2_0.c) *)

Definition IDME_MAX_PRINT_SIZE : Z := 40.
Definition hidden_names : list (list Z) :=
  [[109; 97; 110; 117; 102; 97; 99; 116; 117; 114; 105; 110; 103; 0];
   [109; 97; 99; 95; 115; 101; 99; 0];
   [117; 110; 108; 111; 99; 107; 95; 99; 111; 100; 101; 0]].

(** The comparisons of a name with the hidden ones, the first match decides. *)
Fixpoint is_hidden (name : list Z) (hidden : list (list Z)) : option bool :=
  match hidden with
  | [] => Some false
  | h :: hidden =>
      r ← idme_strcmp name h; if r =? 0 then Some true else is_hidden name hidden
  end.

Fixpoint print_loop (count : nat) (pitem : Z) : idme unit :=
  match count with
  | O => mret tt
  | S count =>
      b ← gets gidme_buff;
      let name := blob_at b pitem in
      let temp := replicate (Z.to_nat IDME_MAX_PRINT_SIZE + 1) 0 in
      size ← lift (blob_rd32 b (pitem + off_size));
      data ← lift (blob_get b (pitem + sizeof_idme_desc) (MIN size IDME_MAX_PRINT_SIZE));
      hidden ← lift (is_hidden name hidden_names);
      _ ← (if negb hidden then
             n ← lift (idme_strlen name);
             let text := take (Z.to_nat IDME_MAX_PRINT_SIZE) (take (Z.to_nat n) name ++ [58; 32]) in
             _ ← info (over temp text);
             info (over temp data)
           else mret tt);
      pitem ← lift (IDME_ITEM_NEXT b pitem);
      print_loop count pitem
  end.

Definition idme_print_var_v2p0 : idme Z :=
  p ← gets pidme_data;
  if negb p then mret (-1) else
  b ← gets gidme_buff;
  data_presence ← lift (idme_check_magic_number b);
  if negb (data_presence =? 0) then mret (-1) else
  n ← lift (blob_rd32 b off_items_num);
  _ ← print_loop (Z.to_nat n) off_item_data;
  mret 0.

Definition do_idme (argc : Z) (argv : list (list Z)) : idme Z :=
  ask ← (if argc =? 1 then mret true
         else a1 ← argv_at argv 1; lift (starts_with a1 [63]));
  if (ask : bool) then
    if argc =? 3 then name ← argv_at argv 2; query name
    else v2 ← gets v2_funcs; if (v2 : bool) then idme_print_var_v2p0 else mret (-1)
  else if argc <=? 3 then
    if argc =? 3 then
      name ← argv_at argv 1; a2 ← argv_at argv 2;
      clean ← lift (starts_with a2 txt_clean);
      if (clean : bool) then set_item name [48; 0] 1 else
      version ← lift (starts_with name txt_version);
      if (version : bool) then
        known ← lift (known_version idme_ver_table a2);
        if negb known then mret (-1) else
        n ← lift (idme_strlen a2);
        p ← gets pidme_data;
        if negb p then wrong else
        b ← gets gidme_buff;
        b ← lift (blob_put b off_version (take (Z.to_nat n) a2));
        _ ← modify (set_buff b);
        _ ← idme_write;
        mret 0
      else n ← lift (idme_strlen a2); set_item name a2 n
    else if argc =? 2 then
      a1 ← argv_at argv 1;
      clean ← lift (starts_with a1 txt_clean);
      if (clean : bool) then
        r ← idme_clean;
        if negb (r =? 0) then _ ← fail []; mret (-1) else mret 0
      else
        init ← lift (starts_with a1 txt_init);
        if (init : bool) then
          r ← idme_initialize;
          if negb (r =? 0) then _ ← fail []; mret (-1) else mret 0
        else _ ← fail []; mret (-1)
    else _ ← fail []; mret (-1)
  else mret 0.

(** strtok with the delimiter " ": the next word as a C string and what follows
    it.  The text after the last word is empty. *)
Fixpoint strtok_spaces (s : list Z) : option (list Z) :=
  match s with
  | [] => None
  | c :: s' => if c =? 32 then strtok_spaces s' else Some s
  end.
Fixpoint take_word (s : list Z) : option (list Z * list Z) :=
  match s with
  | [] => None
  | c :: s' =>
      if c =? 0 then Some ([], s)
      else if c =? 32 then Some ([], s')
      else '(w, rest) ← take_word s'; Some (c :: w, rest)
  end.
Definition strtok (s : list Z) : option (option (list Z * list Z)) :=
  s ← strtok_spaces s;
  c ← head s;
  if c =? 0 then Some None
  else '(w, rest) ← take_word s; Some (Some (w ++ [0], rest)).

(** The words behind the first: the last of them and how many there are. *)
Fixpoint token_loop (fuel : nat) (rest value : list Z) (i : Z) : option (list Z * Z) :=
  match fuel with
  | O => None
  | S fuel =>
      t ← strtok rest;
      match t with
      | Some (token, rest) =>
          token_loop fuel rest (take 64 (removelast token) ++ [0]) (i + 1)
      | None => Some (value, i)
      end
  end.

(** "%s" of the null pointer that strtok returns for an empty command is
    undefined; [value] is uninitialised until there is a second word. *)
Definition fastboot_idme (uninit_value : list Z) (cmd : list Z) : idme Z :=
  t ← lift (strtok cmd);
  match t with
  | None => wrong
  | Some (token, rest) =>
      let ver := take 31 (removelast token) ++ [0] in
      '(value, i) ← lift (token_loop (S (length cmd)) rest uninit_value 2);
      do_idme i [[105; 100; 109; 101; 0]; ver; value]
  end.
End Cmd.
