(* ===== verification/IdmeLife.v ===== *)
(** * IdmeLife: the identity table over the life of the device

    The promises of the eMMC driver, the invariant of a loaded table, and the
    theorems about cmd_idme.c and cmd_idme_v2_0.c. *)

From S2P Require Import Prelude Idme IdmeThm IdmeCmd.

(** ** What the platform promises

    [stored w] are the bytes of the boot partition that hold the table. *)
Class emmc_laws {C : idme_config} (P : emmc_platform) : Type :=
  { stored : ew → list Z;
    stored_len w : zlen (stored w) = CONFIG_IDME_SIZE;
    emmc_init_law w r w' : eMMC_Init w = (r, w') → stored w' = stored w;
    emmc_read_law n w r w' : eMMC_ReadBootPart n w = (r, w') →
      stored w' = stored w ∧ (∀ bs, r = Some bs → n = CONFIG_IDME_SIZE → bs = stored w);
    emmc_write_law bs w w' : eMMC_WriteBootPart bs w = (true, w') →
      zlen bs = CONFIG_IDME_SIZE → stored w' = bs;
    memalign_law w r w' : memalign w = (r, w') → stored w' = stored w;
    info_law m w : stored (fastboot_info m w) = stored w;
    fail_law m w : stored (fastboot_fail m w) = stored w }.

(** The driver and the allocator succeed. *)
Definition emmc_works {P : emmc_platform} : Prop :=
  (∀ w, (eMMC_Init w).1 = true) ∧ (∀ w, (memalign w).1 = true) ∧ (∀ w, malloc w = true) ∧
  (∀ n w, is_Some (eMMC_ReadBootPart n w).1) ∧ (∀ bs w, (eMMC_WriteBootPart bs w).1 = true).

(** ** Decimal numbers *)

Lemma atoui_digit i d s : 0 ≤ d < 10 → 0 ≤ i ≤ 10 ^ 8 →
  atoui_loop i ((48 + d) :: s) = atoui_loop (i * 10 + d) s.
Proof.
  intros Hd Hi. cbn [atoui_loop]. unfold is_digit, INT_MAX.
  rewrite (proj2 (Z.eqb_neq (48 + d) 0)), !(proj2 (Z.leb_le _ _)) by lia. simpl.
  f_equal. lia.
Qed.

Lemma dec_digits_ok fuel : ∀ n acc, 0 ≤ n < 10 ^ Z.of_nat fuel → n ≤ 10 ^ 8 → (0 < fuel)%nat →
  ∃ ds, dec_digits fuel n acc = ds ++ acc ∧ Forall (λ c, 48 ≤ c < 58) ds ∧
    (∀ t, atoui_loop 0 (ds ++ t) = atoui_loop n t) ∧ (1 ≤ length ds)%nat ∧
    n < 10 ^ zlen ds ∧ (length ds = 1%nat ∨ 10 ^ (zlen ds - 1) ≤ n).
Proof.
  induction fuel as [|fuel IH]; intros n acc Hn Hb Hf; [lia|]. cbn [dec_digits].
  destruct (Z.eqb_spec (n / 10) 0) as [E|E].
  - exists [48 + n `mod` 10]. assert (n < 10) by dlia. rewrite (Z.mod_small n 10) by lia.
    split_and!; [done|repeat constructor; lia| |simpl; lia|simpl; lia|by left].
    intros t. simpl app. by rewrite atoui_digit by lia.
  - assert (Hf' : (0 < fuel)%nat).
    { destruct fuel; [|lia]. exfalso. apply E. simpl in Hn. apply Z.div_small. lia. }
    rewrite Nat2Z.inj_succ, Z.pow_succ_r in Hn by lia.
    destruct (IH (n / 10) ((48 + n `mod` 10) :: acc)) as (ds & Eds & Hds & Hat & H1 & Hlt & Hge);
      [dlia|dlia|done|].
    exists (ds ++ [48 + n `mod` 10]). rewrite Eds, length_app, Nat2Z.inj_add, <-app_assoc. simpl (zlen [_]).
    assert (0 ≤ n `mod` 10 < 10) by (apply Z.mod_pos_bound; lia).
    split_and!; [done|apply Forall_app_2; [done|repeat constructor; lia]| |simpl; lia| |right].
    + intros t. rewrite <-app_assoc, Hat. simpl app. rewrite atoui_digit by dlia. f_equal. dlia.
    + change (Z.of_nat (length [48 + n `mod` 10])) with 1. rewrite Z.pow_add_r by lia. dlia.
    + change (Z.of_nat (length [48 + n `mod` 10])) with 1. rewrite Z.add_simpl_r.
      destruct Hge as [Hl|Hge]; [rewrite Hl; simpl; dlia|].
      replace (zlen ds) with (Z.succ (zlen ds - 1)) by lia. rewrite Z.pow_succ_r by lia. dlia.
Qed.

Lemma print_dec_ok n : 0 ≤ n ≤ 10 ^ 8 → Forall (λ c, 48 ≤ c < 58) (print_dec n) ∧
  (∀ t, atoui (print_dec n ++ 0 :: t) = Some n) ∧
  (1 ≤ length (print_dec n))%nat ∧ n < 10 ^ zlen (print_dec n) ∧
  (length (print_dec n) = 1%nat ∨ 10 ^ (zlen (print_dec n) - 1) ≤ n).
Proof.
  intros Hn. unfold print_dec. destruct (dec_digits_ok 10 n []) as (ds & -> & Hd & Ha & Hr); [lia|lia|lia|].
  rewrite app_nil_r. split_and!; try done; apply Hr.
Qed.

Lemma print_dec_mono n : 0 ≤ n < 10 ^ 8 → (length (print_dec n) ≤ length (print_dec (n + 1)))%nat.
Proof.
  intros Hn. destruct (print_dec_ok n) as (_ & _ & _ & _ & Hge); [lia|].
  destruct (print_dec_ok (n + 1)) as (_ & _ & H1 & Hlt & _); [lia|].
  destruct Hge as [?|Hge]; [lia|]. apply Nat.nlt_ge. intros Hc.
  pose proof (Z.pow_le_mono_r 10 (zlen (print_dec (n + 1))) (zlen (print_dec n) - 1)). lia.
Qed.

Lemma print_dec_len n k : 0 ≤ n < 10 ^ Z.of_nat k → n ≤ 10 ^ 8 → (1 ≤ k)%nat →
  (length (print_dec n) ≤ k)%nat.
Proof.
  intros Hn Hb Hk. destruct (print_dec_ok n) as (_ & _ & H1 & _ & [?|Hge]); [lia|lia|].
  apply Nat.nlt_ge. intros Hc.
  pose proof (Z.pow_le_mono_r 10 (Z.of_nat k) (zlen (print_dec n) - 1)). lia.
Qed.

Section life.
Context {C : idme_config} {P : emmc_platform} {L : emmc_laws P}.
Implicit Types s : idme_state.

Lemma wp_on_device {A} (f : ew → A * ew) (Q : A → idme_state → Prop) s :
  (∀ a w, f (device s) = (a, w) → Q a (set_device w s)) → wp (on_device f) Q s.
Proof. unfold wp, on_device. destruct (f (device s)). eauto. Qed.

(** Only the device changed, and the partition did not. *)
Definition quiet (s s' : idme_state) : Prop :=
  ∃ w, s' = set_device w s ∧ stored w = stored (device s).

Lemma quiet_refl s : quiet s s.
Proof. exists (device s). by destruct s. Qed.

Lemma quiet_set s w : stored w = stored (device s) → quiet s (set_device w s).
Proof. intros E. by exists w. Qed.

Lemma quiet_trans s1 s2 s3 : quiet s1 s2 → quiet s2 s3 → quiet s1 s3.
Proof. intros (w & -> & E) (w' & -> & E'). exists w'. split; [done|]. by rewrite E'. Qed.

Section works.
Context (Hw : emmc_works).

Lemma wp_read Q s : zlen (gidme_buff s) = CONFIG_IDME_SIZE →
  (∀ s', quiet (set_buff (stored (device s)) s) s' → Q 0 s') → wp idme_read Q s.
Proof.
  intros Hl HQ. destruct Hw as (Hi & Ha & _ & Hr & _). unfold idme_read, idme_platform_read.
  apply wp_bind, wp_on_device. intros a w1 E1. pose proof (Ha (device s)) as Ea. rewrite E1 in Ea.
  simpl in Ea. subst a. apply memalign_law in E1.
  apply wp_bind, wp_on_device. intros a w2 E2. pose proof (Hi w1) as Ea. simpl in E2.
  rewrite E2 in Ea. simpl in Ea. subst a. apply emmc_init_law in E2. simpl.
  apply wp_bind, wp_on_device. intros r w3 E3. pose proof (Hr CONFIG_IDME_SIZE w2) as Ea. simpl in E3.
  rewrite E3 in Ea. destruct Ea as [bs Ebs]. simpl in Ebs. subst r.
  apply emmc_read_law in E3 as [E3 Hbs]. specialize (Hbs bs eq_refl eq_refl). subst bs.
  assert (Hst : zlen (stored w2) = CONFIG_IDME_SIZE) by apply stored_len.
  apply wp_bind, wp_gets, wp_bind. eapply wp_lift.
  { apply (blob_get_mid _ [] (stored w2) []); rewrite ?app_nil_r; done. }
  apply wp_bind. eapply wp_lift.
  { apply (blob_put_mid _ [] (gidme_buff s) []); rewrite ?app_nil_r; try done. simpl in *. lia. }
  apply wp_bind, wp_modify, wp_ret. apply HQ. simpl. rewrite app_nil_r, E2, E1.
  exists w3. split; [done|]. by rewrite E3, E2, E1.
Qed.

Lemma wp_write Q s : pidme_data s = true → zlen (gidme_buff s) = CONFIG_IDME_SIZE →
  (∀ w, stored w = gidme_buff s → Q 0 (set_device w s)) → wp idme_write Q s.
Proof.
  intros Hp Hl HQ. destruct Hw as (Hi & Ha & _ & _ & Hwr). unfold idme_write.
  apply wp_bind, wp_gets. rewrite Hp. unfold idme_platform_write.
  apply wp_bind, wp_on_device. intros a w1 E1. pose proof (Ha (device s)) as Ea. rewrite E1 in Ea.
  simpl in Ea. subst a.
  apply wp_bind, wp_on_device. intros a w2 E2. pose proof (Hi w1) as Ea. simpl in E2.
  rewrite E2 in Ea. simpl in Ea. subst a. simpl.
  apply wp_bind, wp_gets, wp_bind. eapply wp_lift.
  { apply (blob_get_mid _ [] (gidme_buff s) []); rewrite ?app_nil_r; done. }
  apply wp_bind, wp_on_device. intros r w3 E3. pose proof (Hwr (gidme_buff s) w2) as Ea. simpl in E3.
  rewrite E3 in Ea. simpl in Ea. subst r. apply emmc_write_law in E3; [|done].
  apply wp_ret. by apply HQ.
Qed.

(** ** The loaded table *)

(** The table is in memory and the partition agrees with it. *)
Definition loaded s (version : list Z) (its : list item) (rest : list Z) : Prop :=
  pidme_data s = true ∧ v2_funcs s = true ∧ table (gidme_buff s) version its rest ∧
  zlen (gidme_buff s) = CONFIG_IDME_SIZE ∧ stored (device s) = gidme_buff s.

Lemma wp_get_var name len version its rest (Q : Z * option (list Z) → idme_state → Prop) s :
  loaded s version its rest → chars name → (length name < 16)%nat → 0 ≤ len →
  Q (match find_value name its with
     | Some v => (0, Some (take (Z.to_nat len) v)) | None => (-1, None) end) s →
  wp (get_var (name ++ [0]) len) Q s.
Proof.
  intros (Hp & _ & Ht & _) Hn Hl Hlen HQ. unfold get_var.
  apply wp_bind, wp_gets. rewrite Hp. simpl. apply wp_bind, wp_gets.
  eapply wp_lift; [by apply (get_var_ok _ _ _ _ Ht)|done].
Qed.

Lemma length_set_value name v (its : list item) : Forall it_ok its →
  length (enc_items (set_value name v <$> its)) = length (enc_items its).
Proof.
  induction 1 as [|it its Hit _ IH]; [done|].
  rewrite fmap_cons, !enc_items_cons, !length_app, IH. f_equal.
  unfold set_value. case_decide; [|done]. unfold enc_item. rewrite !length_app.
  rewrite !length_enc_desc by apply Hit. simpl. by rewrite length_value_fill.
Qed.

Lemma wp_update_var_ex name value len version its rest s :
  loaded s version its rest → chars name → (length name < 16)%nat →
  Forall (λ c, is_u8 c) value → 0 ≤ len →
  (∀ v, find_value name its = Some v → MIN (zlen v) len ≤ zlen value) →
  wp (idme_update_var_ex (name ++ [0]) value len) (λ r s',
    r = (if decide (name ∈ it_name <$> its) then 0 else -1) ∧
    loaded s' version (set_value name (take (Z.to_nat len) value) <$> its) rest) s.
Proof.
  intros (Hp & Hv & Ht & Hl & Hst) Hn Hnl Hval Hlen Hsz. unfold idme_update_var_ex.
  apply wp_bind, wp_gets. rewrite Hv. unfold update_var.
  apply wp_bind, wp_bind, wp_gets. rewrite Hp. cbn [negb]. apply wp_bind, wp_gets, wp_bind.
  destruct (update_var_ok _ _ _ _ _ _ _ Ht Hn Hnl Hval Hlen Hsz) as (b' & Eb & Ht').
  eapply wp_lift; [exact Eb|]. apply wp_bind, wp_modify, wp_ret.
  assert (Hl' : zlen b' = CONFIG_IDME_SIZE).
  { rewrite <-Hl. destruct Ht as (-> & Hvl & Hok & _), Ht' as (-> & _).
    rewrite !length_app, !length_header, length_set_value by done. done. }
  case_decide as Hin; simpl.
  - apply wp_bind, wp_write; [done|done|]. intros w Hws. apply wp_ret. by split_and!.
  - apply wp_ret. split; [done|]. unfold loaded. simpl. split_and!; try done.
    rewrite Hst. destruct Ht as (-> & _), Ht' as (-> & _). by rewrite set_value_other.
Qed.

(** ** Initialisation *)

Lemma wp_version_loop x t (Q : unit → idme_state → Prop) s :
  blob_at (gidme_buff s) off_version = 50 :: 46 :: x :: t → x = 48 ∨ x = 49 →
  Q tt (set_funcs true true s) → wp (version_loop idme_ver_table) Q s.
Proof.
  intros Hb Hx HQ. unfold idme_ver_table. cbn [version_loop].
  apply wp_bind, wp_gets, wp_bind, (wp_lift _ 1); [by rewrite Hb|]. cbn [Z.eqb].
  destruct Hx as [-> | ->].
  - apply wp_bind, wp_gets, wp_bind, (wp_lift _ 0); [by rewrite Hb|]. by apply wp_modify.
  - apply wp_bind, wp_gets, wp_bind, (wp_lift _ 1); [by rewrite Hb|]. cbn [Z.eqb].
    apply wp_bind, wp_gets, wp_bind, (wp_lift _ 0); [by rewrite Hb|]. by apply wp_modify.
Qed.

(** Reading the partition at the start. *)
Lemma wp_init_read (f : Z → prog idme_state Z) (Q : Z → idme_state → Prop) s :
  zlen (gidme_buff s) = CONFIG_IDME_SIZE →
  (∀ w, stored w = stored (device s) →
     wp (f 0) Q (set_device w (set_buff (stored (device s)) s))) →
  wp (b ← gets gidme_buff; b ← lift (blob_set b 0 0 CONFIG_IDME_SIZE);
      _ ← modify (set_buff b); r ← idme_read; f r) Q s.
Proof.
  intros Hl HQ. apply wp_bind, wp_gets, wp_bind. eapply wp_lift.
  { apply (blob_set_mid _ [] (gidme_buff s) []); rewrite ?app_nil_r; done. }
  apply wp_bind, wp_modify, wp_bind, wp_read.
  { simpl. by rewrite app_nil_r, length_replicate. }
  intros s' (w & -> & E). by apply HQ.
Qed.

Lemma table_version_at b version its rest x : table b version its rest →
  take 3 version = [50; 46; x] → ∃ t, blob_at b off_version = 50 :: 46 :: x :: t.
Proof.
  intros (-> & Hl & _) Hv. unfold header. rewrite <-!app_assoc, blob_at_pre by done.
  destruct version as [|? [|? [|? [|? []]]]]; try done. simpl in Hv. injection Hv as -> -> ->.
  by eexists.
Qed.

(** What an update of the table leaves. *)
Definition brought_up_to_date (x : Z) (its its' : list item) (rest rest' : list Z) : Prop :=
  (its' = its ∧ rest' = rest ∧ (IDME_UPDATE_TABLE = true → x = 49 → same_names its)) ∨
  (its' = merged its ∧ IDME_UPDATE_TABLE = true ∧ x = 49 ∧ ¬ same_names its).

Lemma update_table_cases b version its rest x : table b version its rest → 0 ∈ rest →
  defaults_ok → zlen b = CONFIG_IDME_SIZE → take 3 version = [50; 46; x] → x = 48 ∨ x = 49 →
  16 + zlen (enc_items (merged its)) ≤ CONFIG_IDME_SIZE → IDME_UPDATE_TABLE = true →
  ∃ r b' its' rest', idme_update_table_v2p0 true b = Some (r, b') ∧ (r = 0 ∨ b' = b) ∧
    table b' version its' rest' ∧ zlen b' = CONFIG_IDME_SIZE ∧
    brought_up_to_date x its its' rest rest'.
Proof.
  intros Ht Hz Hdf Hl Hv [-> | ->] Hfit Hu.
  - exists (-1), b, its, rest. split_and!; auto; [|left; split_and!; auto; lia].
    unfold idme_update_table_v2p0. rewrite (table_magic _ _ _ _ Ht). simpl (0 =? 0).
    cbn [negb mbind option_bind]. destruct (table_version_at _ _ _ _ _ Ht Hv) as (t & ->). done.
  - destruct (update_table_ok _ _ _ _ Ht Hz Hdf Hl Hv Hfit) as [[Hs ->]|(Hs & b' & m & -> & Ht' & Hl')].
    + exists (-2), b, its, rest. split_and!; auto. left. auto.
    + exists 0, b', (merged its), (replicate m 0). split_and!; auto. right. auto.
Qed.

Lemma initialize_valid s version its rest x : pidme_data s = false →
  zlen (gidme_buff s) = CONFIG_IDME_SIZE → table (stored (device s)) version its rest →
  take 3 version = [50; 46; x] → x = 48 ∨ x = 49 →
  (IDME_UPDATE_TABLE = true → 0 ∈ rest ∧ defaults_ok ∧
     16 + zlen (enc_items (merged its)) ≤ CONFIG_IDME_SIZE) →
  wp idme_initialize (λ r s', r = 0 ∧ ∃ its' rest', loaded s' version its' rest' ∧
    brought_up_to_date x its its' rest rest') s.
Proof.
  intros Hp Hl Ht Hv Hx Hu. unfold idme_initialize. apply wp_bind, wp_gets. rewrite Hp.
  apply wp_init_read; [done|]. intros w Hws. cbn [Z.eqb negb].
  apply wp_bind, wp_modify, wp_bind, wp_gets, wp_bind. simpl (gidme_buff _).
  eapply wp_lift; [by eapply table_magic|]. cbn [Z.eqb]. apply wp_bind, wp_ret, wp_bind.
  destruct (table_version_at _ _ _ _ _ Ht Hv) as (t & Et).
  eapply wp_version_loop; [exact Et|done|]. apply wp_bind, wp_gets. simpl (v2_funcs _).
  cbn [andb]. destruct IDME_UPDATE_TABLE eqn:EU; cbn [andb].
  - destruct (Hu eq_refl) as (Hz & Hdf & Hfit). apply wp_bind, wp_gets. simpl (gidme_buff _).
    apply wp_bind, wp_gets. rewrite (proj1 (proj2 (proj2 Hw))).
    destruct (update_table_cases _ _ _ _ _ Ht Hz Hdf (stored_len _) Hv Hx Hfit EU)
      as (r & b' & its' & rest' & Er & Hr & Ht' & Hl' & Hup).
    apply wp_bind. eapply wp_lift; [exact Er|]. apply wp_bind, wp_modify.
    destruct (Z.eqb_spec r 0) as [->|Hne].
    + apply wp_bind, wp_write; [done|done|]. intros w3 Hw3. apply wp_ret. split; [done|].
      exists its', rest'. by split.
    + apply wp_ret. split; [done|]. exists its', rest'. split; [|done].
      destruct Hr as [|Hr]; [done|]. subst b'. unfold loaded. simpl. split_and!; try done.
  - apply wp_ret. split; [done|]. exists its, rest. split.
    + unfold loaded. simpl. split_and!; try done. apply stored_len.
    + left. rewrite EU. split_and!; [done|done|discriminate].
Qed.

Lemma initialize_blank s : pidme_data s = false → zlen (gidme_buff s) = CONFIG_IDME_SIZE →
  idme_check_magic_number (stored (device s)) = Some (-2) → defaults_ok →
  wp idme_initialize (λ r s', r = 0 ∧
    ∃ m, loaded s' version_2p1 default_items (replicate m 0)) s.
Proof.
  intros Hp Hl Hm Hdf. unfold idme_initialize. apply wp_bind, wp_gets. rewrite Hp.
  apply wp_init_read; [done|]. intros w Hws. cbn [Z.eqb negb].
  apply wp_bind, wp_modify, wp_bind, wp_gets, wp_bind. simpl (gidme_buff _).
  eapply wp_lift; [exact Hm|]. cbn [Z.eqb Pos.eqb].
  pose proof (stored_len (device s)) as Hsl. set (b := stored (device s)) in *.
  assert (H16 : (16 ≤ length b)%nat) by (destruct Hdf as (_ & _ & _ & ?); lia).
  apply wp_bind, wp_bind. eapply wp_lift.
  { apply (blob_put_mid b [] (take 8 b) (drop 8 b)); [by rewrite take_drop|done|].
    rewrite !length_take. simpl (length IDME_MAGIC_NUMBER). lia. }
  apply wp_bind. eapply wp_lift.
  { apply (blob_put_mid _ (take 8 IDME_MAGIC_NUMBER) (take 3 (drop 8 b)) (drop 3 (drop 8 b))); [|done|].
    - simpl. by rewrite take_drop.
    - rewrite !length_take, length_drop. simpl (length IDME_DEFAULT_VERSION). lia. }
  apply wp_modify. apply wp_bind.
  eapply (wp_version_loop 49); [reflexivity|by right|].
  apply wp_bind, wp_gets. simpl (v2_funcs _). cbn [andb]. apply wp_bind, wp_gets. simpl (gidme_buff _).
  set (b' := _ ++ _).
  assert (Hl' : zlen b' = CONFIG_IDME_SIZE).
  { subst b'. rewrite !length_app, !length_take, !length_drop.
    simpl (length IDME_MAGIC_NUMBER). simpl (length IDME_DEFAULT_VERSION). lia. }
  destruct (init_var_ok b' Hdf Hl') as (b2 & m & Eb & Ht & Hl2).
  apply wp_bind. eapply wp_lift; [exact Eb|]. apply wp_bind, wp_modify. cbn [Z.eqb negb].
  apply wp_bind, wp_write; [done|done|]. intros w3 Hw3. apply wp_ret. split; [done|].
  exists m. by split_and!.
Qed.

(** ** Counting boots *)

Definition bootcount : list Z := removelast name_bootcount.

Lemma find_value_cons nm it (its : list item) : find_value nm (it :: its) =
  if decide (it_name it = nm) then Some (it_data it) else find_value nm its.
Proof.
  unfold find_value. simpl. case_decide; [done|]. by destruct (list_find _ its) as [[]|].
Qed.

Lemma find_value_set nm name v (its : list item) :
  find_value nm (set_value name v <$> its) =
  if decide (nm = name) then (λ d, fill (length d) v) <$> find_value name its
  else find_value nm its.
Proof.
  induction its as [|it its IH]; [by case_decide|].
  rewrite fmap_cons, !find_value_cons, IH.
  replace (it_name (set_value name v it)) with (it_name it) by (unfold set_value; by destruct (decide (it_name it = name))).
  destruct (decide (nm = name)) as [->|Hne].
  - destruct (decide (it_name it = name)) as [E|E]; [|done]. unfold set_value. by rewrite decide_True.
  - destruct (decide (it_name it = nm)) as [E|E]; [|done]. unfold set_value.
    by rewrite decide_False by congruence.
Qed.

(** A number at the start of a zeroed buffer of nine bytes. *)
Definition buf9 (ds : list Z) : list Z := ds ++ replicate (9 - length ds) 0.

Lemma over_zero9 k ds : (k ≤ 8)%nat → (length ds ≤ k)%nat →
  over (replicate 9 0) (take 9 (fill k ds)) = buf9 ds.
Proof.
  intros Hk Hd. unfold over, buf9, fill.
  rewrite (take_ge ds k), (take_ge _ 9) by (rewrite ?length_app, ?length_replicate; lia).
  rewrite length_app, length_replicate, drop_replicate, <-app_assoc, <-replicate_add.
  do 2 f_equal. lia.
Qed.

Lemma over_buf9 ds ds' : (length ds ≤ length ds' ≤ 8)%nat → over (buf9 ds) (ds' ++ [0]) = buf9 ds'.
Proof.
  intros Hd. unfold over, buf9. rewrite length_app, drop_app_ge by (simpl; lia).
  rewrite drop_replicate, <-app_assoc. f_equal. change [0] with (replicate 1 0).
  rewrite <-replicate_add. f_equal. simpl. lia.
Qed.

Lemma fill_buf9 k ds n : (k ≤ 8)%nat → (length ds ≤ k)%nat → (9 ≤ n)%nat →
  fill k (take n (buf9 ds)) = fill k ds.
Proof.
  intros Hk Hd Hn. unfold buf9. rewrite (take_ge _ n) by (rewrite length_app, length_replicate; lia).
  unfold fill. rewrite length_app, length_replicate, take_app, (take_ge ds k) by lia.
  rewrite take_replicate, <-app_assoc, <-replicate_add. do 2 f_equal. lia.
Qed.

Lemma boot_info_ok s version its rest k n : loaded s version its rest → 9 ≤ CONFIG_IDME_SIZE →
  find_value bootcount its = Some (fill k (print_dec n)) → (k ≤ 8)%nat →
  0 ≤ n < 99999999 → (length (print_dec (n + 1)) ≤ k)%nat →
  wp idme_boot_info (λ _ s', ∃ its', loaded s' version its' rest ∧
    it_name <$> its' = it_name <$> its ∧
    find_value bootcount its' = Some (fill k (print_dec (n + 1))) ∧
    ∀ nm, nm ≠ bootcount → find_value nm its' = find_value nm its) s.
Proof.
  intros Hld Hsz Hfv Hk Hn Hlen. pose proof (print_dec_mono n ltac:(lia)) as Hmono.
  destruct (print_dec_ok n ltac:(lia)) as (Hd & Hat & _).
  destruct (print_dec_ok (n + 1) ltac:(lia)) as (Hd' & _ & _).
  unfold idme_boot_info. apply wp_bind, wp_gets. rewrite (proj1 (proj2 Hld)). apply wp_bind.
  eapply (wp_get_var bootcount 9); [exact Hld|repeat (constructor; [lia|]); constructor|simpl; lia|lia|].
  rewrite Hfv. cbn [Z.eqb]. change (default [] (Some ?x)) with x. change (Z.to_nat 9) with 9%nat.
  rewrite over_zero9 by lia. apply wp_bind. eapply wp_lift.
  { unfold buf9. destruct (9 - length (print_dec n))%nat as [|m] eqn:Em; [lia|]. apply Hat. }
  rewrite (proj2 (Z.eqb_neq n 99999999)) by lia.
  rewrite u32_small, s32_small by lia. unfold snprintf_d.
  rewrite (proj2 (Z.ltb_ge (n + 1) 0)), (take_ge (print_dec (n + 1))), over_buf9 by lia.
  apply wp_bind. eapply wp_mono; [eapply (wp_update_var_ex bootcount); [exact Hld|..]|].
  - repeat (constructor; [lia|]); constructor.
  - simpl. lia.
  - unfold buf9. apply Forall_app_2; [|apply zeros_u8]. eapply Forall_impl; [exact Hd'|]. simpl. lia.
  - unfold IDME_MAX_IDME_ITEM_SIZE. lia.
  - intros v. rewrite Hfv. intros [= <-]. rewrite length_value_fill. unfold buf9.
    rewrite length_app, length_replicate. unfold MIN. case_match; lia.
  - intros r s' [_ Hld']. apply wp_ret. eexists. split; [exact Hld'|].
    split; [apply set_value_names|]. split.
    + rewrite find_value_set, decide_True, Hfv by done. simpl. rewrite length_value_fill, fill_buf9; [done|lia|lia|].
      unfold IDME_MAX_IDME_ITEM_SIZE. lia.
    + intros nm Hnm. by rewrite find_value_set, decide_False.
Qed.
End works.
End life.

(** ** A concrete device

    A project with a boot count and a serial number, and a flash that may refuse to
    be read. *)
Definition dev_defaults : list init_values :=
  [InitValues name_bootcount 8 1 292 [48; 0];
   InitValues [115; 101; 114; 105; 97; 108; 0] 16 1 292 [48; 48; 0]].
#[local] Instance dev_config : idme_config :=
  {| CONFIG_IDME_SIZE := 128; IDME_UPDATE_TABLE := true; idme_default_values := dev_defaults |}.

Record flash : Type := Flash { fl_bytes : list Z; fl_ok : (zlen fl_bytes =? 128) = true }.
Definition flash_write (bs : list Z) (f : flash) : bool * flash :=
  match bool_dec (zlen bs =? 128) true with
  | left E => (true, Flash bs E)
  | right _ => (true, f)
  end.
Definition dev_emmc (bad : bool) : emmc_platform :=
  {| ew := flash; eMMC_Init := λ w, (true, w);
     eMMC_ReadBootPart := λ _ w, (if bad then None else Some (fl_bytes w), w);
     eMMC_WriteBootPart := flash_write; memalign := λ w, (true, w); malloc := λ _, true;
     fastboot_info := λ _ w, w; fastboot_fail := λ _ w, w |}.
#[local] Instance good_emmc : emmc_platform := dev_emmc false.
#[local] Instance good_emmc_laws : emmc_laws good_emmc.
Proof.
  refine {| stored := (fl_bytes : @ew good_emmc → _) |}; simpl.
  - intros w. apply Z.eqb_eq, fl_ok.
  - by intros w r w' [= _ <-].
  - intros n w r w' [= <- <-]. naive_solver.
  - intros bs w w'. unfold flash_write. destruct (bool_dec _ _) as [E|E]; intros [= <-] Hl; [done|].
    destruct E. apply Z.eqb_eq, Hl.
  - by intros w r w' [= _ <-].
  - done.
  - done.
Defined.

Lemma good_emmc_works : emmc_works.
Proof.
  split_and!; try done. intros bs w. simpl. unfold flash_write. by destruct (bool_dec _ _).
Qed.

Definition serial : list Z := [115; 101; 114; 105; 97; 108].
Definition demo_items : list item :=
  [Item bootcount 1 292 (fill 8 (print_dec 41)); Item [109; 97; 99] 0 256 [1; 2; 3; 4]].
Definition demo_blob : list Z :=
  header version_2p1 2 ++ enc_items demo_items ++ replicate 44 0.

Lemma demo_table : table demo_blob version_2p1 demo_items (replicate 44 0).
Proof.
  unfold table. split_and!; [done|done| | |done|apply zeros_u8].
  - repeat (apply Forall_cons_2; [vm_compute; repeat (split || constructor); discriminate|]). constructor.
  - apply (bool_decide_unpack _). vm_compute. exact I.
Qed.

Lemma dev_defaults_ok : defaults_ok.
Proof.
  split_and!; [| |done|vm_compute; discriminate].
  - apply Forall_cons_2; [|apply Forall_cons_2; [|constructor]].
    + exists bootcount, [48], 8%nat. split_and!; try done; vm_compute; repeat (split || constructor); discriminate.
    + exists serial, [48; 48], 16%nat.
      split_and!; try done; vm_compute; repeat (split || constructor); discriminate.
  - apply (bool_decide_unpack _). vm_compute. exact I.
Qed.

(** ** Properties *)

(** C24: on a block that holds a table, idme_get_var_v2p0, idme_update_var_v2p0 and
    idme_get_item_desc_v2p0 terminate without an access outside the block and are
    the operations of a map from names to values: get returns the value cut to the
    length asked for or -1; update writes the value padded with zeros to the size of
    the field and leaves every other byte alone, or returns -1 and changes nothing;
    the descriptor found is that of the item with the name. *)
Theorem idme_vars_refine {C : idme_config} b version its rest name value len :
  table b version its rest → chars name → (length name < 16)%nat → 0 ≤ len →
  idme_get_var_v2p0 (name ++ [0]) len b = Some
    match find_value name its with
    | Some v => (0, Some (take (Z.to_nat len) v)) | None => (-1, None) end ∧
  finds name its off_item_data (idme_get_item_desc_v2p0 b (name ++ [0])) ∧
  (Forall (λ c, is_u8 c) value →
   (∀ v, find_value name its = Some v → MIN (zlen v) len ≤ zlen value) →
   ∃ b', idme_update_var_v2p0 (name ++ [0]) value len b =
           Some (if decide (name ∈ it_name <$> its) then 0 else -1, b') ∧
     table b' version (set_value name (take (Z.to_nat len) value) <$> its) rest ∧
     ∀ nm, find_value nm (set_value name (take (Z.to_nat len) value) <$> its) =
       if decide (nm = name)
       then (λ d, fill (length d) (take (Z.to_nat len) value)) <$> find_value name its
       else find_value nm its).
Proof.
  intros Ht Hn Hl Hlen. split_and!.
  - by apply (get_var_ok _ _ _ _ Ht).
  - by apply (get_item_desc_ok _ _ _ _ Ht).
  - intros Hv Hsz. destruct (update_var_ok _ _ _ _ _ _ _ Ht Hn Hl Hv Hlen Hsz) as (b' & E & Ht').
    exists b'. split_and!; [done|done|]. intros nm. apply find_value_set.
Qed.

Example idme_vars_refine_witness :
  idme_get_var_v2p0 (bootcount ++ [0]) 4 demo_blob = Some (0, Some [52; 49; 0; 0]) ∧
  ∃ b', idme_update_var_v2p0 (bootcount ++ [0]) [55; 0] 1 demo_blob = Some (0, b') ∧
    table b' version_2p1 (set_value bootcount [55] <$> demo_items) (replicate 44 0).
Proof.
  destruct (idme_vars_refine demo_blob version_2p1 demo_items (replicate 44 0) bootcount [55; 0] 4)
    as (H1 & _ & _); [apply demo_table|repeat (constructor; [lia|]); constructor|simpl; lia|lia|].
  destruct (idme_vars_refine demo_blob version_2p1 demo_items (replicate 44 0) bootcount [55; 0] 1)
    as (_ & _ & H2); [apply demo_table|repeat (constructor; [lia|]); constructor|simpl; lia|lia|].
  split; [exact H1|]. destruct H2 as (b' & E & Ht & _).
  - repeat (constructor; [lia|]). constructor.
  - intros v. vm_compute. intros [= <-]. discriminate.
  - exists b'. by split.
Defined.

(** Idme_init_var_v2p0 writes the table of the defaults, and
    idme_update_table_v2p0 brings a table to the names of the defaults in their
    order: an item that exists keeps its value, size and attributes, a missing one
    gets its default, any other is dropped; when the names agree the block stays as
    it is and -2 is returned. *)
Lemma idme_tables_built {C : idme_config} b version its rest : defaults_ok →
  zlen b = CONFIG_IDME_SIZE →
  (∃ b' m, idme_init_var_v2p0 b = Some (0, b') ∧
     table b' version_2p1 default_items (replicate m 0) ∧ zlen b' = CONFIG_IDME_SIZE) ∧
  (table b version its rest → 0 ∈ rest → take 3 version = [50; 46; 49] →
   16 + zlen (enc_items (merged its)) ≤ CONFIG_IDME_SIZE →
   (same_names its ∧ idme_update_table_v2p0 true b = Some (-2, b)) ∨
   (¬ same_names its ∧ ∃ b' m, idme_update_table_v2p0 true b = Some (0, b') ∧
      table b' version (merged its) (replicate m 0) ∧ zlen b' = CONFIG_IDME_SIZE)).
Proof.
  intros Hdf Hl. split; [by apply init_var_ok|]. intros. by eapply update_table_ok.
Qed.

Example idme_tables_built_witness :
  (∃ b' m, idme_init_var_v2p0 demo_blob = Some (0, b') ∧
     table b' version_2p1 default_items (replicate m 0) ∧ zlen b' = CONFIG_IDME_SIZE) ∧
  ((same_names demo_items ∧ idme_update_table_v2p0 true demo_blob = Some (-2, demo_blob)) ∨
   (¬ same_names demo_items ∧ ∃ b' m, idme_update_table_v2p0 true demo_blob = Some (0, b') ∧
      table b' version_2p1 (merged demo_items) (replicate m 0) ∧ zlen b' = CONFIG_IDME_SIZE)).
Proof.
  destruct (idme_tables_built demo_blob version_2p1 demo_items (replicate 44 0) dev_defaults_ok eq_refl)
    as [H1 H2].
  split; [exact H1|]. apply H2; [apply demo_table|left|done|vm_compute; discriminate].
Defined.

(** C25: idme_initialize on a working eMMC leaves a table of version 2 in memory and
    the same bytes in the partition: the stored table, brought up to date when the
    project asks for it, or the defaults when the partition holds no table; after
    that idme_update_var_ex changes the item in memory and in the partition. *)
Theorem idme_initialize_correct {C : idme_config} {P : emmc_platform} {L : emmc_laws P}
    (s : idme_state) (version : list Z) (its : list item) (rest : list Z) (x : Z) :
  emmc_works → pidme_data s = false → zlen (gidme_buff s) = CONFIG_IDME_SIZE →
  (table (stored (device s)) version its rest → take 3 version = [50; 46; x] → x = 48 ∨ x = 49 →
   (IDME_UPDATE_TABLE = true → 0 ∈ rest ∧ defaults_ok ∧
      16 + zlen (enc_items (merged its)) ≤ CONFIG_IDME_SIZE) →
   wp idme_initialize (λ r s', r = 0 ∧ ∃ its' rest', loaded s' version its' rest' ∧
     brought_up_to_date x its its' rest rest') s) ∧
  (idme_check_magic_number (stored (device s)) = Some (-2) → defaults_ok →
   wp idme_initialize (λ r s', r = 0 ∧ ∃ m, loaded s' version_2p1 default_items (replicate m 0)) s) ∧
  (∀ s' name value len, loaded s' version its rest → chars name → (length name < 16)%nat →
   Forall (λ c, is_u8 c) value → 0 ≤ len →
   (∀ v, find_value name its = Some v → MIN (zlen v) len ≤ zlen value) →
   wp (idme_update_var_ex (name ++ [0]) value len) (λ r s'',
     r = (if decide (name ∈ it_name <$> its) then 0 else -1) ∧
     loaded s'' version (set_value name (take (Z.to_nat len) value) <$> its) rest) s').
Proof.
  intros Hw Hp Hl. split_and!.
  - intros. by eapply initialize_valid.
  - intros. by apply initialize_blank.
  - intros. by apply wp_update_var_ex.
Qed.

Definition fresh_state (b : list Z) (ok : (zlen b =? 128) = true) : @idme_state good_emmc :=
  IdmeState (replicate 128 0) false false false (replicate 16 0) (Flash b ok).

Example idme_initialize_correct_witness :
  wp idme_initialize (λ r s', r = 0 ∧ ∃ m, loaded s' version_2p1 default_items (replicate m 0))
    (fresh_state (replicate 128 255) eq_refl).
Proof.
  refine (proj1 (proj2 (idme_initialize_correct (fresh_state (replicate 128 255) eq_refl)
    [] [] [] 48 good_emmc_works eq_refl eq_refl)) eq_refl dev_defaults_ok).
Defined.

(** Idme_boot_info increments the boot count: when the item holds the decimal
    number n below 99999999 and its field of at most eight bytes has room for n + 1,
    the field holds n + 1 afterwards in memory and in the partition, and no other
    item changes. *)
Lemma idme_boot_count {C : idme_config} {P : emmc_platform} {L : emmc_laws P}
    (s : idme_state) (version : list Z) (its : list item) (rest : list Z) (k : nat) (n : Z) :
  emmc_works → loaded s version its rest → 9 ≤ CONFIG_IDME_SIZE →
  find_value bootcount its = Some (fill k (print_dec n)) → (k ≤ 8)%nat →
  0 ≤ n < 99999999 → (length (print_dec (n + 1)) ≤ k)%nat →
  wp idme_boot_info (λ _ s', ∃ its', loaded s' version its' rest ∧
    it_name <$> its' = it_name <$> its ∧
    find_value bootcount its' = Some (fill k (print_dec (n + 1))) ∧
    ∀ nm, nm ≠ bootcount → find_value nm its' = find_value nm its) s.
Proof. intros. by apply boot_info_ok. Qed.

Definition demo_state : @idme_state good_emmc :=
  IdmeState demo_blob true true true (replicate 16 0) (Flash demo_blob eq_refl).

Example idme_boot_count_witness :
  wp idme_boot_info (λ _ s', ∃ its', loaded s' version_2p1 its' (replicate 44 0) ∧
    it_name <$> its' = it_name <$> demo_items ∧
    find_value bootcount its' = Some (fill 8 (print_dec (41 + 1))) ∧
    ∀ nm, nm ≠ bootcount → find_value nm its' = find_value nm demo_items) demo_state.
Proof.
  refine (idme_boot_count demo_state version_2p1 demo_items (replicate 44 0) 8 41 good_emmc_works
    _ _ _ _ _ _); [|vm_compute; discriminate|reflexivity|lia|lia|vm_compute; lia].
  unfold loaded. split_and!; [done|done|apply demo_table|done|done].
Defined.

(** ** Findings *)

(** idme_platform_read returns 0 when the eMMC cannot be read: idme_initialize then
    finds no magic number and replaces the identity of the device with defaults. *)
Lemma read_error_wipes_identity :
  match @idme_initialize dev_config (dev_emmc true)
          (@IdmeState (dev_emmc true) (replicate 128 0) false false false [] (Flash demo_blob eq_refl)) with
  | Some (r, s') => r = 0 ∧ blob_rd32 (fl_bytes (device s')) off_items_num = Some 2 ∧
      idme_get_var_v2p0 (bootcount ++ [0]) 8 demo_blob = Some (0, Some (fill 8 [52; 49])) ∧
      idme_get_var_v2p0 (bootcount ++ [0]) 8 (fl_bytes (device s')) = Some (0, Some (fill 8 [48]))
  | None => False
  end.
Proof. vm_compute. auto. Qed.

(** idme_init_atag_v2p0 moves on in the atag buffer for items it does not export,
    so a reader of the atag does not find the items behind them. *)
Lemma atag_gap_hides_items :
  let b := header version_2p1 2 ++ enc_items (reverse demo_items) ++ replicate 44 0 in
  match idme_init_atag_v2p0 (replicate 128 0) b 128 with
  | Some (r, atag) => r = 0 ∧ blob_rd32 atag off_items_num = Some 1 ∧
      idme_get_var_v2p0 (bootcount ++ [0]) 8 b = Some (0, Some (fill 8 [52; 49])) ∧
      idme_get_var_v2p0 (bootcount ++ [0]) 8 atag = Some (-1, None)
  | None => False
  end.
Proof. vm_compute. auto. Qed.

(** After idme_clean the table pointer is null and idme_atag_initialize reads
    through it before it checks it. *)
Lemma atag_after_clean {C : idme_config} {P : emmc_platform} (s : idme_state) atag size :
  v2_funcs s = true → pidme_data s = false → idme_atag_initialize atag size s = None.
Proof.
  intros Hv Hp. unfold idme_atag_initialize, mbind, prog_bind, gets. rewrite Hv. simpl. by rewrite Hp.
Qed.
