(* ===== verification/LinkedList.v ===== *)
(** * LinkedList: the doubly linked lists of the kernel

    The operations of [include/linux/list.h] (without CONFIG_DEBUG_LIST) and
    [lib/list_sort.c], on a heap of [struct list_head].  A pointer is its address;
    an access to an address that holds no node goes wrong. *)

From S2P Require Import Prelude.

Notation ptr := Z.
Definition NULL : ptr := 0.

Record list_head : Type := ListHead { next : ptr; prev : ptr }.
#[export] Instance list_head_eq_dec : EqDecision list_head.
Proof. solve_decision. Defined.

Notation nodes := (gmap Z list_head).

Definition get_next (p : ptr) : prog nodes ptr := λ h, n ← h !! p; Some (next n, h).
Definition get_prev (p : ptr) : prog nodes ptr := λ h, n ← h !! p; Some (prev n, h).
Definition set_next (p v : ptr) : prog nodes unit :=
  λ h, n ← h !! p; Some (tt, <[p := ListHead v (prev n)]> h).
Definition set_prev (p v : ptr) : prog nodes unit :=
  λ h, n ← h !! p; Some (tt, <[p := ListHead (next n) v]> h).

(** ** include/linux/poison.h, without CONFIG_ILLEGAL_POINTER_VALUE *)

Definition POISON_POINTER_DELTA : Z := 0.
Definition LIST_POISON1 : ptr := 0x100 + POISON_POINTER_DELTA.
Definition LIST_POISON2 : ptr := 0x200 + POISON_POINTER_DELTA.

(** ** include/linux/list.h *)

Definition INIT_LIST_HEAD (list : ptr) : prog nodes unit :=
  _ ← set_next list list;
  set_prev list list.

Definition __list_add (new prev next : ptr) : prog nodes unit :=
  _ ← set_prev next new;
  _ ← set_next new next;
  _ ← set_prev new prev;
  set_next prev new.

Definition list_add (new head : ptr) : prog nodes unit :=
  n ← get_next head; __list_add new head n.

Definition list_add_tail (new head : ptr) : prog nodes unit :=
  p ← get_prev head; __list_add new p head.

Definition __list_del (prev next : ptr) : prog nodes unit :=
  _ ← set_prev next prev;
  set_next prev next.

Definition __list_del_entry (entry : ptr) : prog nodes unit :=
  p ← get_prev entry; n ← get_next entry; __list_del p n.

Definition list_del (entry : ptr) : prog nodes unit :=
  p ← get_prev entry; n ← get_next entry;
  _ ← __list_del p n;
  _ ← set_next entry LIST_POISON1;
  set_prev entry LIST_POISON2.

Definition list_replace (old new : ptr) : prog nodes unit :=
  n ← get_next old;
  _ ← set_next new n;
  n ← get_next new;
  _ ← set_prev n new;
  p ← get_prev old;
  _ ← set_prev new p;
  p ← get_prev new;
  set_next p new.

Definition list_replace_init (old new : ptr) : prog nodes unit :=
  _ ← list_replace old new;
  INIT_LIST_HEAD old.

Definition list_del_init (entry : ptr) : prog nodes unit :=
  _ ← __list_del_entry entry;
  INIT_LIST_HEAD entry.

Definition list_move (list head : ptr) : prog nodes unit :=
  _ ← __list_del_entry list;
  list_add list head.

Definition list_move_tail (list head : ptr) : prog nodes unit :=
  _ ← __list_del_entry list;
  list_add_tail list head.

Definition list_is_last (list head : ptr) : prog nodes bool :=
  n ← get_next list; mret (n =? head).

Definition list_empty (head : ptr) : prog nodes bool :=
  n ← get_next head; mret (n =? head).

Definition list_empty_careful (head : ptr) : prog nodes bool :=
  next ← get_next head;
  if next =? head then p ← get_prev head; mret (next =? p) else mret false.

Definition list_rotate_left (head : ptr) : prog nodes unit :=
  e ← list_empty head;
  if negb e then first ← get_next head; list_move_tail first head else mret tt.

Definition list_is_singular (head : ptr) : prog nodes bool :=
  e ← list_empty head;
  if negb e then n ← get_next head; p ← get_prev head; mret (n =? p) else mret false.

Definition __list_cut_position (list head entry : ptr) : prog nodes unit :=
  new_first ← get_next entry;
  n ← get_next head;
  _ ← set_next list n;
  n ← get_next list;
  _ ← set_prev n list;
  _ ← set_prev list entry;
  _ ← set_next entry list;
  _ ← set_next head new_first;
  set_prev new_first head.

Definition list_cut_position (list head entry : ptr) : prog nodes unit :=
  e ← list_empty head;
  if (e : bool) then mret tt else
  s ← list_is_singular head;
  outside ← (if (s : bool) then
               n ← get_next head; mret (negb (n =? entry) && negb (head =? entry))
             else mret false);
  if (outside : bool) then mret tt
  else if entry =? head then INIT_LIST_HEAD list
  else __list_cut_position list head entry.

Definition __list_splice (list prev next : ptr) : prog nodes unit :=
  first ← get_next list;
  last ← get_prev list;
  _ ← set_prev first prev;
  _ ← set_next prev first;
  _ ← set_next last next;
  set_prev next last.

Definition list_splice (list head : ptr) : prog nodes unit :=
  e ← list_empty list;
  if negb e then n ← get_next head; __list_splice list head n else mret tt.

Definition list_splice_tail (list head : ptr) : prog nodes unit :=
  e ← list_empty list;
  if negb e then p ← get_prev head; __list_splice list p head else mret tt.

Definition list_splice_init (list head : ptr) : prog nodes unit :=
  e ← list_empty list;
  if negb e then
    n ← get_next head; _ ← __list_splice list head n; INIT_LIST_HEAD list
  else mret tt.

Definition list_splice_tail_init (list head : ptr) : prog nodes unit :=
  e ← list_empty list;
  if negb e then
    p ← get_prev head; _ ← __list_splice list p head; INIT_LIST_HEAD list
  else mret tt.

(** ** lib/list_sort.c *)

Definition MAX_LIST_LENGTH_BITS : Z := 20.

Section ListSort.
(** The comparison reads the objects that hold the nodes, which stay as they are. *)
Context (cmp : ptr → ptr → Z).

(** [tail] of [merge]: the local variable [head], whose [next] is [hd], or a node. *)
Definition set_tail (tail : option ptr) (hd v : ptr) : prog nodes ptr :=
  match tail with
  | None => mret v
  | Some t => _ ← set_next t v; mret hd
  end.
Definition get_tail (tail : option ptr) (hd : ptr) : prog nodes ptr :=
  match tail with None => mret hd | Some t => get_next t end.

(** Every round takes a node off [a] or [b]. *)
Fixpoint merge_nodes (fuel : nat) (tail : option ptr) (hd a b : ptr) : prog nodes ptr :=
  match fuel with
  | O => wrong
  | S fuel =>
      if negb (a =? NULL) && negb (b =? NULL) then
        if cmp a b <=? 0 then
          hd ← set_tail tail hd a;
          a ← get_next a;
          tail ← get_tail tail hd;
          merge_nodes fuel (Some tail) hd a b
        else
          hd ← set_tail tail hd b;
          b ← get_next b;
          tail ← get_tail tail hd;
          merge_nodes fuel (Some tail) hd a b
      else set_tail tail hd (if negb (a =? NULL) then a else b)
  end.

Definition merge (a b : ptr) : prog nodes ptr :=
  h ← gets id; merge_nodes (S (size h)) None NULL a b.

(** The first loop; the result is [tail] at its end. *)
Fixpoint merge_back (fuel : nat) (tail a b : ptr) : prog nodes ptr :=
  match fuel with
  | O => wrong
  | S fuel =>
      if negb (a =? NULL) && negb (b =? NULL) then
        if cmp a b <=? 0 then
          _ ← set_next tail a;
          _ ← set_prev a tail;
          a ← get_next a;
          tail ← get_next tail;
          merge_back fuel tail a b
        else
          _ ← set_next tail b;
          _ ← set_prev b tail;
          b ← get_next b;
          tail ← get_next tail;
          merge_back fuel tail a b
      else _ ← set_next tail (if negb (a =? NULL) then a else b); mret tail
  end.

(** The [do] loop over the rest, with its calls of [cmp] on equal arguments, whose
    results it ignores; the result is [tail] at its end. *)
Fixpoint back_links (fuel : nat) (tail : ptr) : prog nodes ptr :=
  match fuel with
  | O => wrong
  | S fuel =>
      n ← get_next tail;
      _ ← mret (cmp n n);
      _ ← set_prev n tail;
      tail ← get_next tail;
      n ← get_next tail;
      if negb (n =? NULL) then back_links fuel tail else mret tail
  end.

Definition merge_and_restore_back_links (head a b : ptr) : prog nodes unit :=
  h ← gets id;
  tail ← merge_back (S (size h)) head a b;
  tail ← back_links (S (size h)) tail;
  _ ← set_next tail head;
  set_prev head tail.

(** [for (lev = 0; part[lev]; lev++)]: the merged list, the array and [lev]. *)
Fixpoint merge_levels (fuel : nat) (part : list ptr) (lev : Z) (cur : ptr)
  : prog nodes (list ptr * Z * ptr) :=
  match fuel with
  | O => wrong
  | S fuel =>
      p ← lift (rd part lev);
      if negb (p =? NULL) then
        cur ← merge p cur;
        part ← lift (wr part lev NULL);
        merge_levels fuel part (lev + 1) cur
      else mret (part, lev, cur)
  end.

(** [while (list)], one round per node. *)
Fixpoint sort_loop (fuel : nat) (part : list ptr) (max_lev : Z) (list : ptr)
  : prog nodes (Datatypes.list ptr * Z) :=
  match fuel with
  | O => wrong
  | S fuel =>
      if negb (list =? NULL) then
        let cur := list in
        list ← get_next list;
        _ ← set_next cur NULL;
        '(part, lev, cur) ← merge_levels (S (length part)) part 0 cur;
        let lev' := if (max_lev <? lev) && (zlen part - 1 <=? lev) then lev - 1 else lev in
        let max_lev := if max_lev <? lev then lev' else max_lev in
        part ← lift (wr part lev' cur);
        sort_loop fuel part max_lev list
      else mret (part, max_lev)
  end.

Definition list_sort (head : ptr) : prog nodes unit :=
  e ← list_empty head;
  if (e : bool) then mret tt else
  let part := replicate (Z.to_nat (MAX_LIST_LENGTH_BITS + 1)) NULL in
  p ← get_prev head;
  _ ← set_next p NULL;
  list ← get_next head;
  h ← gets id;
  '(part, max_lev) ← sort_loop (S (size h)) part 0 list;
  list ← for_fold (Z.to_nat max_lev) 0 NULL (λ lev list,
    p ← lift (rd part lev);
    if negb (p =? NULL) then merge p list else mret list);
  p ← lift (rd part max_lev);
  merge_and_restore_back_links head p list.
End ListSort.
