(* ===== verification/LinkedListThm.v ===== *)
(** * LinkedListThm: rings of nodes and the operations of list.h

    A list with head [p] and elements [l] is a ring [p :: l]: following [next] from
    any node visits the others and comes back, and [prev] is its inverse.  The
    operations work on rings; [lists_ok] states that a heap holds a given set of
    lists, and every operation refines a function on such sets. *)

From S2P Require Import Prelude LinkedList.

(** ** The links of a heap as functions *)

Definition nxt (h : nodes) (p : ptr) : option ptr := next <$> h !! p.
Definition prv (h : nodes) (p : ptr) : option ptr := prev <$> h !! p.

Definition upd (f : ptr → option ptr) (p v : ptr) : ptr → option ptr :=
  λ q, if decide (p = q) then Some v else f q.

(** [h] has the links [N] and [P]. *)
Definition has_links (h : nodes) (N P : ptr → option ptr) : Prop :=
  (∀ q, nxt h q = N q) ∧ (∀ q, prv h q = P q).

Lemma has_links_self h : has_links h (nxt h) (prv h).
Proof. done. Qed.

Lemma has_links_eq h h' N P : has_links h N P → has_links h' N P → h = h'.
Proof.
  intros [Hn Hp] [Hn' Hp']. apply map_eq. intros q.
  specialize (Hn q); specialize (Hn' q); specialize (Hp q); specialize (Hp' q).
  unfold nxt, prv in *.
  destruct (h !! q) as [[]|], (h' !! q) as [[]|]; simpl in *; congruence.
Qed.

Section wp.
Context (N P : ptr → option ptr).

Lemma wp_get_next p n (Q : ptr → nodes → Prop) h :
  has_links h N P → N p = Some n → Q n h → wp (get_next p) Q h.
Proof.
  intros [Hn _] Hp HQ. specialize (Hn p). unfold wp, get_next, nxt in *.
  destruct (h !! p); simpl in *; congruence.
Qed.

Lemma wp_get_prev p n (Q : ptr → nodes → Prop) h :
  has_links h N P → P p = Some n → Q n h → wp (get_prev p) Q h.
Proof.
  intros [_ Hn] Hp HQ. specialize (Hn p). unfold wp, get_prev, prv in *.
  destruct (h !! p); simpl in *; congruence.
Qed.

Lemma wp_set_next p v (Q : unit → nodes → Prop) h :
  has_links h N P → is_Some (N p) → (∀ h', has_links h' (upd N p v) P → Q tt h') →
  wp (set_next p v) Q h.
Proof.
  intros [Hn Hp] [n Hs] HQ. unfold wp, set_next. pose proof (Hn p) as Hnp. unfold nxt in Hnp.
  destruct (h !! p) as [[x y]|] eqn:E; [|simpl in *; congruence]. simpl. apply HQ.
  split; intros q; unfold nxt, prv, upd; destruct (decide (p = q)) as [<-|Hne].
  - by rewrite lookup_insert_eq.
  - rewrite lookup_insert_ne by done. apply Hn.
  - rewrite lookup_insert_eq, <- Hp. unfold prv. by rewrite E.
  - rewrite lookup_insert_ne by done. apply Hp.
Qed.

Lemma wp_set_prev p v (Q : unit → nodes → Prop) h :
  has_links h N P → is_Some (P p) → (∀ h', has_links h' N (upd P p v) → Q tt h') →
  wp (set_prev p v) Q h.
Proof.
  intros [Hn Hp] [n Hs] HQ. unfold wp, set_prev. pose proof (Hp p) as Hpp. unfold prv in Hpp.
  destruct (h !! p) as [[x y]|] eqn:E; [|simpl in *; congruence]. simpl. apply HQ.
  split; intros q; unfold nxt, prv, upd; destruct (decide (p = q)) as [<-|Hne].
  - rewrite lookup_insert_eq, <- Hn. unfold nxt. by rewrite E.
  - rewrite lookup_insert_ne by done. apply Hn.
  - by rewrite lookup_insert_eq.
  - rewrite lookup_insert_ne by done. apply Hp.
Qed.
End wp.

(** ** Rings *)

Fixpoint links (N P : ptr → option ptr) (l : list ptr) : Prop :=
  match l with
  | a :: (b :: _) as l' => N a = Some b ∧ P b = Some a ∧ links N P l'
  | _ => True
  end.

Definition ring (N P : ptr → option ptr) (c : list ptr) : Prop :=
  NoDup c ∧ links N P (c ++ take 1 c).

#[global] Arguments links : simpl never.

Lemma ring_cons N P p l : ring N P (p :: l) ↔ NoDup (p :: l) ∧ links N P ((p :: l) ++ [p]).
Proof. done. Qed.

Lemma links_cons N P a b l :
  links N P (a :: b :: l) ↔ N a = Some b ∧ P b = Some a ∧ links N P (b :: l).
Proof. done. Qed.

Lemma links_app N P l1 x l2 :
  links N P (l1 ++ x :: l2) ↔ links N P (l1 ++ [x]) ∧ links N P (x :: l2).
Proof.
  induction l1 as [|a l1 IH]; simpl; [unfold links at 2; tauto|].
  destruct l1 as [|b l1]; simpl in *; rewrite !links_cons; [unfold links at 3; tauto|].
  rewrite IH. tauto.
Qed.

(** [links] depends on [next] of all nodes but the last and on [prev] of all but
    the first. *)
Lemma links_ext N P N' P' l z :
  (∀ q, q ∈ l → N' q = N q) → (∀ q, q ∈ tail (l ++ [z]) → P' q = P q) →
  links N P (l ++ [z]) → links N' P' (l ++ [z]).
Proof.
  induction l as [|a l IH]; simpl; [done|]. intros HN HP.
  destruct l as [|b l]; simpl in *; rewrite !links_cons, HN, HP by set_solver; [done|].
  intros (? & ? & ?). split_and!; [done..|].
  apply IH; [set_solver| |done]. intros q Hq. apply HP. set_solver.
Qed.

Lemma ring_ext N P N' P' c :
  (∀ q, q ∈ c → N' q = N q ∧ P' q = P q) → ring N P c → ring N' P' c.
Proof.
  intros HE [Hd Hl]. split; [done|]. destruct c as [|x l]; [done|]. simpl take in *.
  eapply (links_ext N P N' P' (x :: l) x); [| |exact Hl].
  - intros q Hq. by apply HE.
  - simpl. intros q Hq. apply HE. set_solver.
Qed.

Lemma ring_rotate N P x l : ring N P (x :: l) → ring N P (l ++ [x]).
Proof.
  intros [Hd Hl]. split; [by rewrite Permutation_app_comm|].
  destruct l as [|y l]; [done|]. simpl in *. apply links_cons in Hl as (? & ? & Hl).
  rewrite <- app_assoc. apply (links_app N P (y :: l)). split; [done|].
  by rewrite links_cons.
Qed.

Lemma ring_app_comm N P l1 l2 : ring N P (l1 ++ l2) → ring N P (l2 ++ l1).
Proof.
  revert l2. induction l1 as [|x l1 IH]; intros l2; [by rewrite app_nil_r|].
  intros H%ring_rotate. rewrite <- app_assoc in H. apply IH in H.
  by rewrite <- app_assoc in H.
Qed.

Lemma ring_next N P p l : ring N P (p :: l) → N p = Some (default p (head l)).
Proof. intros [_ Hl]. destruct l; apply links_cons in Hl; apply Hl. Qed.

Lemma ring_prev N P p l : ring N P (p :: l) → P p = Some (default p (last l)).
Proof.
  intros HR. destruct (decide (l = [])) as [->|Hne].
  { destruct HR as [_ Hl]. apply links_cons in Hl. apply Hl. }
  destruct (exists_last Hne) as (l' & y & ->). rewrite last_snoc. simpl.
  destruct HR as [_ Hl]. simpl in Hl. rewrite <- app_assoc in Hl.
  apply (links_app N P (p :: l')) in Hl as [_ Hl]. apply links_cons in Hl. apply Hl.
Qed.

Lemma ring_alive N P c q : ring N P c → q ∈ c → is_Some (N q) ∧ is_Some (P q).
Proof.
  intros HR (l1 & l2 & ->)%list_elem_of_split. apply ring_app_comm in HR. simpl in HR.
  split; eexists; [by eapply ring_next|by eapply ring_prev].
Qed.

(** ** The basic changes of rings *)

Lemma upd_eq f p v : upd f p v p = Some v.
Proof. unfold upd. by rewrite decide_True. Qed.
Lemma upd_ne f p v q : p ≠ q → upd f p v q = f q.
Proof. intros. unfold upd. by rewrite decide_False. Qed.

Ltac upd_solve := unfold upd; repeat case_decide; subst; simplify_eq; try done; try set_solver.

Lemma ring_add N P new p l : ring N P (p :: l) → new ∉ p :: l →
  ring (upd (upd N new (default p (head l))) p new)
       (upd (upd P (default p (head l)) new) new p) (p :: new :: l).
Proof.
  intros [Hd Hl] Hnew. split.
  { apply NoDup_cons in Hd as [??]. apply NoDup_cons. split; [set_solver|].
    apply NoDup_cons. split; [set_solver|done]. }
  destruct l as [|n l]; simpl in *.
  - rewrite !links_cons. split_and!; upd_solve.
  - apply NoDup_cons in Hd as [Hp Hd]. apply NoDup_cons in Hd as [Hn Hd].
    apply links_cons in Hl as (_ & _ & Hl). rewrite !links_cons. split_and!; try by upd_solve.
    eapply (links_ext N P _ _ (n :: l)); [..|exact Hl]; simpl; intros q Hq; upd_solve.
Qed.

Lemma ring_del N P e l n p : ring N P (e :: l) → head l = Some n → last l = Some p →
  ring (upd N p n) (upd P n p) l.
Proof.
  intros [Hd Hl] Hn Hp. apply NoDup_cons in Hd as [He Hd]. split; [done|].
  apply last_Some in Hp as [l' ->].
  assert (Ht : take 1 (l' ++ [p]) = [n]) by (destruct l'; simpl in *; rewrite ?take_0; congruence).
  rewrite Ht, <- app_assoc. apply links_app. split.
  - destruct l' as [|n' l']; [done|]. simpl in Hn. injection Hn as ->. simpl in *.
    apply links_cons in Hl as (_ & _ & Hl). rewrite <- app_assoc in Hl.
    apply (links_app N P (n :: l')) in Hl as [Hl _].
    apply NoDup_cons in Hd as [Hn Hd]. apply NoDup_app in Hd as (_ & Hd & _).
    eapply (links_ext N P _ _ (n :: l') p); [..|exact Hl]; simpl; intros q Hq; upd_solve.
  - rewrite links_cons. split_and!; upd_solve.
Qed.

Lemma ring_replace N P old new l : ring N P (old :: l) → new ∉ old :: l →
  ring (upd (upd N new (default old (head l))) (default new (last l)) new)
       (upd (upd P (default old (head l)) new) new (default new (last l))) (new :: l).
Proof.
  intros [Hd Hl] Hnew. apply NoDup_cons in Hd as [Hold Hd].
  split; [apply NoDup_cons; split; [set_solver|done]|].
  destruct l as [|n l]; simpl in *; [rewrite links_cons; split_and!; upd_solve|].
  assert (∃ l' p, n :: l = l' ++ [p]) as (l' & p & E).
  { destruct (exists_last (l := n :: l)) as (l' & p & E); [done|eauto]. }
  apply links_cons in Hl as (_ & _ & Hl).
  change (new :: n :: l ++ [new]) with ([new] ++ (n :: l) ++ [new]).
  replace (last (n :: l)) with (Some p) by (by rewrite E, last_snoc). simpl.
  assert (Hpl : p ∈ n :: l) by (rewrite E; set_solver).
  assert (new ≠ p ∧ new ≠ n) as [??] by set_solver.
  rewrite links_cons. split_and!; [upd_solve..|]. change (n :: l ++ [new]) with ((n :: l) ++ [new]).
  change (n :: l ++ [old]) with ((n :: l) ++ [old]) in Hl.
  rewrite E, <- app_assoc in Hl |- *. apply links_app in Hl as [Hl _]. apply links_app.
  split; [|rewrite links_cons; split_and!; upd_solve].
  pose proof Hd as Hd'. rewrite E in Hd'. apply NoDup_app in Hd' as (_ & Hd' & _).
  apply NoDup_cons in Hd as [Hnl _]. apply not_elem_of_cons in Hnew as [_ Hnew].
  eapply links_ext; [..|exact Hl]; intros q Hq.
  - assert (q ∈ n :: l) by (rewrite E; apply elem_of_app; by left).
    assert (q ≠ p) by (intros ->; by apply (Hd' p), list_elem_of_singleton).
    rewrite !upd_ne; congruence.
  - rewrite <- E in Hq. simpl in Hq.
    assert (q ∈ n :: l) by by apply elem_of_cons; right.
    rewrite !upd_ne; congruence.
Qed.

Lemma ring_splice N P e l p m first lst : ring N P (e :: l) → ring N P (p :: m) →
  (∀ q, q ∈ l → q ∉ p :: m) → head l = Some first → last l = Some lst →
  ring (upd (upd N p first) lst (default p (head m)))
       (upd (upd P first p) (default p (head m)) lst) (p :: l ++ m).
Proof.
  intros [Hd Hl] [Hd' Hl'] Hdis Hf Ha. apply NoDup_cons in Hd as [_ Hd].
  apply NoDup_cons in Hd' as [Hpm Hdm].
  apply last_Some in Ha as [l' ->].
  assert (Hfirst : first ∈ l' ++ [lst]) by (destruct l'; simpl in *; set_solver).
  assert (Hlast : lst ∈ l' ++ [lst]) by set_solver.
  assert (lst ≠ p ∧ first ≠ p) as [Hlp Hfp].
  { pose proof (Hdis _ Hfirst). pose proof (Hdis _ Hlast). set_solver. }
  assert (Hfn : first ≠ default p (head m) ∧ lst ≠ default p (head m)) .
  { pose proof (Hdis _ Hfirst). pose proof (Hdis _ Hlast). destruct m; simpl; set_solver. }
  destruct Hfn as [Hfn Hln]. split.
  { apply NoDup_cons. split; [rewrite elem_of_app; intros [H|H]; [by apply Hdis in H; set_solver|done]|].
    apply NoDup_app. split_and!; [done| |done]. intros q Hq Hm. apply (Hdis q Hq). set_solver. }
  assert (Hmid : links (upd (upd N p first) lst (default p (head m)))
                       (upd (upd P first p) (default p (head m)) lst) (l' ++ [lst])).
  { simpl in Hl. rewrite <- app_assoc in Hl. apply (links_app N P (e :: l')) in Hl as [Hl _].
    apply NoDup_app in Hd as Hd3. destruct Hd3 as (_ & Hd3 & _).
    destruct l' as [|f l']; [done|]. simpl in *. injection Hf as ->.
    apply NoDup_cons in Hd as [Hf _]. apply links_cons in Hl as (_ & _ & Hl).
    eapply (links_ext N P _ _ (first :: l') lst); [..|exact Hl]; simpl; intros q Hq.
    - rewrite !upd_ne; [done|intros ->; apply (Hdis q); set_solver|].
      intros ->. apply (Hd3 q Hq). set_solver.
    - rewrite !upd_ne; [done|congruence|]. intros <-.
      apply (Hdis (default p (head m))); [set_solver|]. destruct m; simpl; set_solver. }
  assert (Hp : links (upd (upd N p first) lst (default p (head m)))
                     (upd (upd P first p) (default p (head m)) lst) [p; first]).
  { rewrite links_cons. rewrite upd_ne, upd_eq by congruence.
    rewrite upd_ne, upd_eq by congruence. done. }
  assert (Hn : links (upd (upd N p first) lst (default p (head m)))
                     (upd (upd P first p) (default p (head m)) lst) (lst :: m ++ [p])).
  { destruct m as [|n m]; simpl in *; rewrite links_cons, !upd_eq; [done|]. split_and!; [done..|].
    apply links_cons in Hl' as (_ & _ & Hl').
    eapply (links_ext N P _ _ (n :: m) p); [..|exact Hl']; simpl; intros q Hq.
    - rewrite !upd_ne; [done|congruence|intros ->; apply (Hdis q); set_solver].
    - apply NoDup_cons in Hdm as [Hnm _]. rewrite !upd_ne; [done| |set_solver].
      intros ->. apply (Hdis q); set_solver. }
  replace (_ ++ _) with (p :: (l' ++ lst :: (m ++ [p]))) by (simpl; by rewrite <- !app_assoc).
  destruct l' as [|f l']; simpl in *; injection Hf as ->.
  - rewrite links_cons in Hp |- *. naive_solver.
  - apply (links_app _ _ [p]). split; [done|]. by apply (links_app _ _ (first :: l')).
Qed.

Lemma ring_cut N P hd l1 entry l2 list : ring N P (hd :: l1 ++ entry :: l2) →
  list ∉ hd :: l1 ++ entry :: l2 →
  let n := default entry (head l1) in let new_first := default hd (head l2) in
  let N' := upd (upd (upd N list n) entry list) hd new_first in
  let P' := upd (upd (upd P n list) list entry) new_first hd in
  ring N' P' (list :: l1 ++ [entry]) ∧ ring N' P' (hd :: l2).
Proof.
  intros [Hd Hl]%ring_cons Hlist n new_first N' P'. simpl in Hl. rewrite <- app_assoc in Hl.
  apply (links_app N P (hd :: l1)) in Hl as [Hl1 Hl2]. simpl in Hl1, Hl2.
  apply NoDup_cons in Hd as [Hh Hd]. apply NoDup_app in Hd as (Hd1 & Hdis & Hd2).
  apply NoDup_cons in Hd2 as [He Hd2].
  assert (Hn : n ∈ l1 ++ [entry]) by (subst n; destruct l1; simpl; set_solver).
  assert (Hnf : new_first ∈ hd :: l2) by (subst new_first; destruct l2; simpl; set_solver).
  assert (Hsep : ∀ q, q ∈ l1 ++ [entry] → q ∉ hd :: l2).
  { intros q [Hq|Hq]%elem_of_app; [pose proof (Hdis q Hq)|]; set_solver. }
  assert (HL : list ∉ l1 ++ [entry] ∧ list ∉ hd :: l2) by set_solver.
  destruct HL as [HL1 HL2].
  assert (He1 : entry ∈ l1 ++ [entry]) by set_solver.
  assert (Hh1 : hd ∈ hd :: l2) by set_solver.
  assert (HNlist : N' list = Some n). { subst N'. rewrite 2!upd_ne, upd_eq by congruence. done. }
  assert (HNe : N' entry = Some list). { subst N'. rewrite upd_ne, upd_eq by (intros ->; by apply (Hsep entry)). done. }
  assert (HNh : N' hd = Some new_first) by apply upd_eq.
  assert (HPlist : P' list = Some entry). { subst P'. rewrite upd_ne, upd_eq by congruence. done. }
  assert (HPn : P' n = Some list).
  { subst P'. rewrite upd_ne by (intros <-; by apply (Hsep new_first)).
    rewrite upd_ne, upd_eq by congruence. done. }
  assert (HPnf : P' new_first = Some hd) by apply upd_eq.
  assert (HN : ∀ q, q ≠ list → q ≠ entry → q ≠ hd → N' q = N q) by (intros; subst N'; by rewrite !upd_ne).
  assert (HP : ∀ q, q ≠ list → q ≠ n → q ≠ new_first → P' q = P q) by (intros; subst P'; by rewrite !upd_ne).
  clearbody N' P'. rewrite !ring_cons. split; split.
  - apply NoDup_cons. split; [done|]. apply NoDup_app. split_and!; [done| |apply NoDup_singleton].
    intros q Hq. pose proof (Hdis q Hq). set_solver.
  - simpl. rewrite <- app_assoc. change (list :: l1 ++ [entry] ++ [list]) with ((list :: l1) ++ entry :: [list]).
    apply links_app. split; [|rewrite links_cons; done].
    destruct l1 as [|x l1]; simpl in *; subst n; rewrite links_cons; split_and!; try done.
    apply links_cons in Hl1 as (_ & _ & Hl1).
    eapply (links_ext N P _ _ (x :: l1) entry); [..|exact Hl1]; simpl; intros q Hq.
    + apply HN; [set_solver| |set_solver]. intros ->. apply (Hdis entry); set_solver.
    + apply NoDup_cons in Hd1 as [Hx _]. apply HP; [set_solver| |].
      * intros ->. apply elem_of_app in Hq as [|Hq]; [done|]. apply list_elem_of_singleton in Hq as ->.
        apply (Hdis entry); set_solver.
      * intros ->. apply (Hsep new_first); set_solver.
  - apply NoDup_cons. split; [set_solver|done].
  - destruct l2 as [|x l2]; simpl in *; subst new_first; rewrite links_cons; split_and!; try done.
    apply links_cons in Hl2 as (_ & _ & Hl2).
    eapply (links_ext N P _ _ (x :: l2) hd); [..|exact Hl2]; simpl; intros q Hq.
    + apply HN; set_solver.
    + apply NoDup_cons in Hd2 as [Hx _]. apply HP; [set_solver| |set_solver].
      intros ->. apply (Hsep n); set_solver.
Qed.

(** ** Worlds

    A world is what a program knows about the nodes of its heap: rings, and nodes
    that belong to no ring.  No node occurs twice, so that a change of one cell
    leaves the others as they are. *)

Inductive cell : Type := Ring (c : list ptr) | Loose (p : ptr).
Notation world := (list cell).

Definition cell_nodes (x : cell) : list ptr := match x with Ring c => c | Loose p => [p] end.
Definition cell_ok (h : nodes) (x : cell) : Prop :=
  match x with
  | Ring c => ring (nxt h) (prv h) c
  | Loose p => is_Some (h !! p)
  end.
Definition all_nodes (w : world) : list ptr := w ≫= cell_nodes.
Definition world_ok (w : world) (h : nodes) : Prop := NoDup (all_nodes w) ∧ Forall (cell_ok h) w.

#[export] Instance all_nodes_proper : Proper ((≡ₚ) ==> (≡ₚ)) all_nodes.
Proof. intros w w' Hw. unfold all_nodes. by rewrite Hw. Qed.
#[export] Instance world_ok_proper : Proper ((≡ₚ) ==> (=) ==> iff) world_ok.
Proof. intros w w' Hw h ? <-. unfold world_ok. by rewrite Hw. Qed.

Lemma all_nodes_cons x w : all_nodes (x :: w) = cell_nodes x ++ all_nodes w.
Proof. done. Qed.
Lemma all_nodes_app w1 w2 : all_nodes (w1 ++ w2) = all_nodes w1 ++ all_nodes w2.
Proof. apply bind_app. Qed.

(** Only nodes of [S] are written, and none disappears. *)
Definition touches (S : list ptr) (h h' : nodes) : Prop :=
  (∀ q, q ∉ S → nxt h' q = nxt h q ∧ prv h' q = prv h q) ∧
  (∀ q, is_Some (h !! q) → is_Some (h' !! q)).

Lemma alive_nxt h q : is_Some (h !! q) ↔ is_Some (nxt h q).
Proof. unfold nxt. by rewrite fmap_is_Some. Qed.
Lemma alive_prv h q : is_Some (h !! q) ↔ is_Some (prv h q).
Proof. unfold prv. by rewrite fmap_is_Some. Qed.

Lemma upd_is_Some f p v q : is_Some (f q) → is_Some (upd f p v q).
Proof. unfold upd. by case_decide. Qed.

Lemma cell_alive h x q : cell_ok h x → q ∈ cell_nodes x → is_Some (h !! q).
Proof.
  destruct x as [c|p]; simpl; [|by intros ? ->%list_elem_of_singleton].
  intros HR Hq. apply alive_nxt, (ring_alive _ _ _ _ HR Hq).
Qed.

(** The frame rule: cells whose nodes are not touched stay as they are. *)
Lemma world_frame A B w0 h h' : world_ok (A ++ w0) h → touches (all_nodes A) h h' →
  all_nodes B ≡ₚ all_nodes A → Forall (cell_ok h') B → world_ok (B ++ w0) h'.
Proof.
  intros [Hd Hok] [Ht Ha] Hp HB. rewrite all_nodes_app in Hd. apply Forall_app in Hok as [_ Hok].
  split; [by rewrite all_nodes_app, Hp|]. apply Forall_app. split; [done|].
  apply NoDup_app in Hd as (_ & Hdis & _). rewrite Forall_forall in Hok |- *. intros x Hx.
  specialize (Hok x Hx). destruct x as [c|p]; simpl in *; [|by apply Ha].
  eapply ring_ext; [|exact Hok]. intros q Hq. apply Ht. intros HA. apply (Hdis q HA).
  apply list_elem_of_bind. exists (Ring c). by split.
Qed.

(** A triple over the cells an operation works on, for any other cells. *)
Definition triple {A} (P : world) (m : prog nodes A) (Q : A → world) : Prop :=
  ∀ w0 h, world_ok (P ++ w0) h → wp m (λ r h', world_ok (Q r ++ w0) h') h.

Lemma triple_bind {A B} P (m : prog nodes A) R (f : A → prog nodes B) Q :
  triple P m R → (∀ a, triple (R a) (f a) Q) → triple P (m ≫= f) Q.
Proof.
  intros Hm Hf w0 h Hw. apply wp_bind. eapply wp_mono; [by apply Hm|]. intros a h'. apply Hf.
Qed.

Lemma triple_perm {A} P P' (m : prog nodes A) Q Q' :
  P ≡ₚ P' → (∀ a, Q a ≡ₚ Q' a) → triple P m Q → triple P' m Q'.
Proof.
  intros HP HQ Hm w0 h Hw. rewrite <- HP in Hw. eapply wp_mono; [by apply Hm|].
  intros a h'. simpl. by rewrite HQ.
Qed.

(** The cells an operation does not look at. *)
Lemma triple_frame {A} P (m : prog nodes A) Q R :
  triple P m Q → triple (P ++ R) m (λ a, Q a ++ R).
Proof.
  intros Hm w0 h Hw. rewrite <- app_assoc in Hw. eapply wp_mono; [by apply Hm|].
  intros a h'. simpl. by rewrite <- app_assoc.
Qed.

(** A ring has no first node. *)
Lemma world_rot l1 l2 w h : world_ok (Ring (l1 ++ l2) :: w) h → world_ok (Ring (l2 ++ l1) :: w) h.
Proof.
  intros [Hd [Hr Hf]%Forall_cons]. split; [|apply Forall_cons; split; [by apply ring_app_comm|done]].
  revert Hd. rewrite !all_nodes_cons. simpl. by rewrite (Permutation_app_comm l1 l2).
Qed.

Lemma triple_rot {A} l1 l2 P (m : prog nodes A) Q :
  triple (Ring (l2 ++ l1) :: P) m Q → triple (Ring (l1 ++ l2) :: P) m Q.
Proof. intros Hm w0 h Hw. apply Hm. by apply world_rot. Qed.

Lemma triple_rot_post {A} l1 l2 P (m : prog nodes A) Q :
  triple P m (λ a, Ring (l2 ++ l1) :: Q a) → triple P m (λ a, Ring (l1 ++ l2) :: Q a).
Proof.
  intros Hm w0 h Hw. eapply wp_mono; [by apply Hm|]. intros a h'. by apply world_rot.
Qed.

Lemma ring_has_links h N P c : has_links h N P → ring N P c → ring (nxt h) (prv h) c.
Proof. intros [Hn Hp]. apply ring_ext. auto. Qed.

(** [list_empty] on a ring. *)
Lemma wp_list_empty_ring hd l (Q : bool → nodes → Prop) h : ring (nxt h) (prv h) (hd :: l) →
  Q (bool_decide (l = [])) h → wp (list_empty hd) Q h.
Proof.
  intros Hr HQ. apply wp_bind.
  eapply wp_get_next; [apply has_links_self|by eapply ring_next|]. apply wp_ret.
  destruct l as [|n l]; simpl.
  - rewrite Z.eqb_refl. by rewrite bool_decide_eq_true_2 in HQ.
  - destruct Hr as [Hd _]. apply NoDup_cons in Hd as [Hd _].
    destruct (Z.eqb_spec n hd) as [->|_]; [set_solver|]. by rewrite bool_decide_eq_false_2 in HQ.
Qed.
