(* ===== verification/LinkedListOps.v ===== *)
(** * LinkedListOps: the operations of list.h refine operations on sequences

    Each operation of [include/linux/list.h] is proved as a triple over the rings it
    works on, for any other rings; [list_step] is the abstract machine on worlds that
    the operations implement. *)

From S2P Require Import Prelude LinkedList LinkedListThm.

(** ** The operations on rings *)

Lemma loose_has_links h N P q : has_links h N P → is_Some (N q) → is_Some (h !! q).
Proof. intros [Hn _] ?. apply alive_nxt. by rewrite Hn. Qed.

Lemma touches_links S h h' N P : has_links h' N P →
  (∀ q, q ∉ S → N q = nxt h q ∧ P q = prv h q) →
  (∀ q, is_Some (nxt h q) → is_Some (N q)) → touches S h h'.
Proof.
  intros [Hn Hp] HE HS. split.
  - intros q Hq. rewrite Hn, Hp. by apply HE.
  - intros q. rewrite !alive_nxt, Hn. apply HS.
Qed.

(** Steps through a straight-line operation. *)
Ltac alive := repeat apply upd_is_Some; first [apply alive_nxt | apply alive_prv]; assumption.
Ltac lrun :=
  repeat first
    [ apply wp_bind
    | eapply wp_get_next; [eassumption|by eauto|]
    | eapply wp_get_prev; [eassumption|by eauto|]
    | eapply wp_set_next; [eassumption|alive|]; intros ??
    | eapply wp_set_prev; [eassumption|alive|]; intros ?? ].
Ltac touched :=
  eapply touches_links;
  [ eassumption
  | let q := fresh "q" in let Hq := fresh "Hq" in
    intros q Hq; unfold all_nodes in Hq; simpl in Hq; split; rewrite ?upd_ne by set_solver; reflexivity
  | intros ??; repeat apply upd_is_Some; assumption ].

Lemma world_alive w h q : world_ok w h → q ∈ all_nodes w → is_Some (h !! q).
Proof.
  intros [_ Hok] Hq. unfold all_nodes in Hq. apply list_elem_of_bind in Hq as (x & Hq & Hx). rewrite Forall_forall in Hok.
  eapply cell_alive; [by apply Hok|done].
Qed.

Lemma head_in (p : ptr) l : default p (head l) ∈ p :: l.
Proof. destruct l; simpl; set_solver. Qed.
Lemma last_in (p : ptr) l : default p (last l) ∈ p :: l.
Proof. destruct (last l) as [x|] eqn:E; simpl; [apply last_Some in E as [l' ->]|]; set_solver. Qed.

Lemma triple_add new hd l :
  triple [Loose new; Ring (hd :: l)] (__list_add new hd (default hd (head l)))
    (λ _, [Ring (hd :: new :: l)]).
Proof.
  intros w0 h Hw. pose proof Hw as [Hd [Hnew [Hr _]%Forall_cons]%Forall_cons].
  pose proof (head_in hd l) as Hhd. unfold all_nodes in Hd. simpl in Hd.
  assert (Hni : new ∉ hd :: l).
  { apply NoDup_cons in Hd as [Hd _]. set_solver. }
  assert (is_Some (h !! hd) ∧ is_Some (h !! default hd (head l))) as [??].
  { split; eapply (cell_alive h (Ring (hd :: l))); try done; simpl; set_solver. }
  simpl in Hnew. pose proof (has_links_self h). unfold __list_add. lrun.
  eapply (world_frame [Loose new; Ring (hd :: l)]); [done|..].
  - touched.
  - unfold all_nodes. simpl. rewrite !app_nil_r. apply Permutation_swap.
  - apply Forall_singleton. eapply ring_has_links; [eassumption|]. by apply ring_add.
Qed.

Lemma triple_list_add new hd l :
  triple [Loose new; Ring (hd :: l)] (list_add new hd) (λ _, [Ring (hd :: new :: l)]).
Proof.
  intros w0 h Hw. pose proof Hw as [_ [_ [Hr _]%Forall_cons]%Forall_cons].
  apply wp_bind. eapply wp_get_next; [apply has_links_self|by eapply ring_next|].
  by apply triple_add.
Qed.

Lemma triple_list_add_tail new hd l :
  triple [Loose new; Ring (hd :: l)] (list_add_tail new hd) (λ _, [Ring (hd :: l ++ [new])]).
Proof.
  intros w0 h Hw. pose proof Hw as [_ [_ [Hr _]%Forall_cons]%Forall_cons].
  apply wp_bind. eapply wp_get_prev; [apply has_links_self|by eapply ring_prev|].
  destruct (last l) as [y|] eqn:E.
  - apply last_Some in E as [m ->]. revert w0 h Hw Hr.
    cut (triple [Ring (y :: hd :: m); Loose new] (__list_add new y hd)
           (λ _, [Ring (y :: new :: hd :: m)])).
    { intros Ht w0 h Hw _. revert w0 h Hw.
      apply (triple_perm [Ring (hd :: m ++ [y]); Loose new] _ _ (λ _, [Ring (hd :: (m ++ [y]) ++ [new])]));
        [apply Permutation_swap|done|].
      apply (triple_rot (hd :: m) [y]). rewrite <- app_assoc.
      by apply (triple_rot_post (hd :: m) [y; new] [Ring (y :: hd :: m); Loose new] _ (λ _, [])). }
    apply (triple_perm [Loose new; Ring (y :: hd :: m)] _ _ (λ _, [Ring (y :: new :: hd :: m)]));
      [apply Permutation_swap|done|]. apply triple_add.
  - apply last_None in E as ->. simpl.
    eapply wp_mono; [by apply (triple_add new hd [] w0 h)|]. done.
Qed.

Lemma triple_init p : triple [Loose p] (INIT_LIST_HEAD p) (λ _, [Ring [p]]).
Proof.
  intros w0 h Hw. pose proof Hw as [Hd [Hp _]%Forall_cons]. simpl in Hp.
  pose proof (has_links_self h). unfold INIT_LIST_HEAD. lrun.
  eapply (world_frame [Loose p]); [done|touched|done|].
  apply Forall_singleton. eapply ring_has_links; [eassumption|].
  apply ring_cons. split; [apply NoDup_singleton|]. simpl. rewrite links_cons, !upd_eq. done.
Qed.

(** Unlinking a node from a ring of several, or from a ring of its own, which stays. *)
Lemma triple_del_entry e l : l ≠ [] →
  triple [Ring (e :: l)] (__list_del_entry e) (λ _, [Loose e; Ring l]).
Proof.
  intros Hl w0 h Hw. pose proof Hw as [Hd [Hr _]%Forall_cons]. simpl in Hr.
  destruct (head l) as [n|] eqn:En; [|by destruct l].
  destruct (last l) as [p|] eqn:Ep; [|by apply last_None in Ep].
  pose proof (ring_next _ _ _ _ Hr) as Hn. pose proof (ring_prev _ _ _ _ Hr) as Hp.
  rewrite En in Hn. rewrite Ep in Hp. simpl in Hn, Hp.
  assert (n ∈ l) by (destruct l; simpl in *; set_solver).
  assert (p ∈ l) by (apply last_Some in Ep as [? ->]; set_solver).
  assert (is_Some (h !! n) ∧ is_Some (h !! p) ∧ is_Some (h !! e)) as (? & ? & ?).
  { split_and!; eapply (cell_alive h (Ring (e :: l))); try done; simpl; set_solver. }
  pose proof (has_links_self h). unfold __list_del_entry, __list_del. lrun.
  eapply (world_frame [Ring (e :: l)]); [done|touched|done|].
  apply Forall_cons. split; [|apply Forall_singleton].
  - eapply loose_has_links; [eassumption|alive].
  - eapply ring_has_links; [eassumption|]. by eapply ring_del.
Qed.

Lemma triple_poison e a b :
  triple [Loose e] (_ ← set_next e a; set_prev e b) (λ _, [Loose e]).
Proof.
  intros w0 h Hw. pose proof Hw as [_ [He _]%Forall_cons]. simpl in He.
  pose proof (has_links_self h). lrun.
  eapply (world_frame [Loose e]); [done|touched|done|]. apply Forall_singleton.
  eapply loose_has_links; [eassumption|alive].
Qed.

(** A node of a list, with the ring turned so that the node comes first. *)
Lemma triple_member {A} hd l1 e l2 P (m : prog nodes A) Q :
  triple (Ring (e :: l2 ++ hd :: l1) :: P) m (λ a, Ring (l2 ++ hd :: l1) :: Q a) →
  triple (Ring (hd :: l1 ++ e :: l2) :: P) m (λ a, Ring (hd :: l1 ++ l2) :: Q a).
Proof.
  intros Ht. apply (triple_rot (hd :: l1) (e :: l2)).
  by apply (triple_rot_post (hd :: l1) l2).
Qed.

Lemma triple_unlink hd l1 e l2 :
  triple [Ring (hd :: l1 ++ e :: l2)] (__list_del_entry e) (λ _, [Ring (hd :: l1 ++ l2); Loose e]).
Proof.
  apply triple_member.
  apply (triple_perm [Ring (e :: l2 ++ hd :: l1)] _ _ (λ _, [Loose e; Ring (l2 ++ hd :: l1)]));
    [done|intros; apply Permutation_swap|]. apply triple_del_entry. by destruct l2.
Qed.

(** What is done with the node after it is unlinked. *)
Lemma triple_unlink_then {A} hd l1 e l2 P (m : prog nodes A) Q :
  triple (Loose e :: Ring (hd :: l1 ++ l2) :: P) m Q →
  triple (Ring (hd :: l1 ++ e :: l2) :: P) (_ ← __list_del_entry e; m) Q.
Proof.
  intros Hm. eapply triple_bind; [exact (triple_frame _ _ _ P (triple_unlink hd l1 e l2))|].
  intros []. eapply triple_perm; [apply Permutation_swap| |exact Hm]. done.
Qed.

Lemma list_del_unlink e h :
  list_del e h = (_ ← __list_del_entry e; _ ← set_next e LIST_POISON1; set_prev e LIST_POISON2) h.
Proof.
  unfold list_del, __list_del_entry, mbind, prog_bind.
  destruct (get_prev e h) as [[p h1]|]; [|done]. by destruct (get_next e h1) as [[n h2]|].
Qed.

Lemma triple_list_del hd l1 e l2 :
  triple [Ring (hd :: l1 ++ e :: l2)] (list_del e) (λ _, [Loose e; Ring (hd :: l1 ++ l2)]).
Proof.
  intros w0 h. unfold wp. rewrite list_del_unlink. revert w0 h.
  apply triple_unlink_then.
  apply (triple_frame [Loose e] _ (λ _, [Loose e])), triple_poison.
Qed.

Lemma triple_list_del_init hd l1 e l2 :
  triple [Ring (hd :: l1 ++ e :: l2)] (list_del_init e) (λ _, [Ring [e]; Ring (hd :: l1 ++ l2)]).
Proof.
  apply triple_unlink_then, (triple_frame [Loose e] _ (λ _, [Ring [e]])), triple_init.
Qed.

Lemma triple_list_move hd l1 e l2 :
  triple [Ring (hd :: l1 ++ e :: l2)] (list_move e hd) (λ _, [Ring (hd :: e :: l1 ++ l2)]).
Proof. apply triple_unlink_then, triple_list_add. Qed.

Lemma triple_list_move_to hd l1 e l2 hd' m :
  triple [Ring (hd :: l1 ++ e :: l2); Ring (hd' :: m)] (list_move e hd')
    (λ _, [Ring (hd :: l1 ++ l2); Ring (hd' :: e :: m)]).
Proof.
  apply triple_unlink_then.
  apply (triple_perm [Loose e; Ring (hd' :: m); Ring (hd :: l1 ++ l2)] _ _
           (λ _, [Ring (hd' :: e :: m); Ring (hd :: l1 ++ l2)])); [apply Permutation_skip, Permutation_swap| |].
  { intros _. apply Permutation_swap. }
  apply (triple_frame [Loose e; Ring (hd' :: m)] _ (λ _, [Ring (hd' :: e :: m)])), triple_list_add.
Qed.

Lemma triple_list_move_tail hd l1 e l2 :
  triple [Ring (hd :: l1 ++ e :: l2)] (list_move_tail e hd) (λ _, [Ring (hd :: (l1 ++ l2) ++ [e])]).
Proof. apply triple_unlink_then, triple_list_add_tail. Qed.

Lemma triple_list_move_tail_to hd l1 e l2 hd' m :
  triple [Ring (hd :: l1 ++ e :: l2); Ring (hd' :: m)] (list_move_tail e hd')
    (λ _, [Ring (hd :: l1 ++ l2); Ring (hd' :: m ++ [e])]).
Proof.
  apply triple_unlink_then.
  apply (triple_perm [Loose e; Ring (hd' :: m); Ring (hd :: l1 ++ l2)] _ _
           (λ _, [Ring (hd' :: m ++ [e]); Ring (hd :: l1 ++ l2)])); [apply Permutation_skip, Permutation_swap| |].
  { intros _. apply Permutation_swap. }
  apply (triple_frame [Loose e; Ring (hd' :: m)] _ (λ _, [Ring (hd' :: m ++ [e])])), triple_list_add_tail.
Qed.

Lemma replaced_prev N P old new l : ring N P (old :: l) →
  upd P (default old (head l)) new old = Some (default new (last l)).
Proof.
  intros Hr. pose proof (ring_prev _ _ _ _ Hr) as Hp. destruct Hr as [Hd _].
  destruct l as [|n l]; simpl; [apply upd_eq|]. rewrite upd_ne, Hp.
  - f_equal. destruct (last (n :: l)) eqn:E; [done|]. by apply last_None in E.
  - apply NoDup_cons in Hd as [Hd _]. set_solver.
Qed.

Lemma triple_list_replace old new l :
  triple [Loose new; Ring (old :: l)] (list_replace old new) (λ _, [Loose old; Ring (new :: l)]).
Proof.
  intros w0 h Hw. pose proof Hw as [Hd [Hnew [Hr _]%Forall_cons]%Forall_cons]. simpl in Hnew, Hr.
  pose proof (head_in old l) as Hhd. pose proof (last_in new l) as Hls.
  assert (Hni : new ∉ old :: l).
  { unfold all_nodes in Hd. simpl in Hd. apply NoDup_cons in Hd as [Hd _]. set_solver. }
  assert (Hal : ∀ q, q ∈ new :: old :: l → is_Some (h !! q)).
  { intros q [->|Hq]%elem_of_cons; [done|]. by eapply (cell_alive h (Ring (old :: l))). }
  pose proof (Hal (default old (head l)) ltac:(set_solver)).
  pose proof (Hal (default new (last l)) ltac:(set_solver)).
  pose proof (Hal old ltac:(set_solver)).
  pose proof (ring_next _ _ _ _ Hr) as Hn. pose proof (replaced_prev _ _ _ new _ Hr) as Hp.
  pose proof (has_links_self h). unfold list_replace. lrun.
  eapply wp_get_next; [eassumption|apply upd_eq|]. lrun.
  eapply wp_get_prev; [eassumption|apply upd_eq|]. lrun.
  eapply (world_frame [Loose new; Ring (old :: l)]); [done|touched| |].
  - apply Permutation_swap.
  - apply Forall_cons. split; [eapply loose_has_links; [eassumption|alive]|]. apply Forall_singleton.
    eapply ring_has_links; [eassumption|]. by apply ring_replace.
Qed.

Lemma triple_list_replace_init old new l :
  triple [Loose new; Ring (old :: l)] (list_replace_init old new) (λ _, [Ring [old]; Ring (new :: l)]).
Proof.
  eapply triple_bind; [apply triple_list_replace|]. intros [].
  apply (triple_frame [Loose old] _ (λ _, [Ring [old]])), triple_init.
Qed.

Lemma wp_list_empty hd l w0 (Q : bool → nodes → Prop) h : world_ok (Ring (hd :: l) :: w0) h →
  Q (bool_decide (l = [])) h → wp (list_empty hd) Q h.
Proof. intros [_ [Hr _]%Forall_cons]. by apply wp_list_empty_ring. Qed.

Lemma triple_list_rotate_left hd l :
  triple [Ring (hd :: l)] (list_rotate_left hd)
    (λ _, [Ring (hd :: match l with [] => [] | x :: l' => l' ++ [x] end)]).
Proof.
  intros w0 h Hw. apply wp_bind. eapply wp_list_empty; [exact Hw|].
  destruct l as [|x l]; [by apply wp_ret|]. apply wp_bind. pose proof Hw as [_ [Hr _]%Forall_cons].
  eapply wp_get_next; [apply has_links_self|by eapply ring_next|]. simpl.
  by apply (triple_list_move_tail hd [] x l).
Qed.

Lemma triple_splice e l p m first lst : head l = Some first → last l = Some lst →
  triple [Ring (e :: l); Ring (p :: m)] (__list_splice e p (default p (head m)))
    (λ _, [Loose e; Ring (p :: l ++ m)]).
Proof.
  intros Hf Hls w0 h Hw. pose proof Hw as [Hd [Hr [Hr' _]%Forall_cons]%Forall_cons].
  simpl in Hr, Hr'.
  pose proof (ring_next _ _ _ _ Hr) as Hn. pose proof (ring_prev _ _ _ _ Hr) as Hp.
  rewrite Hf in Hn. rewrite Hls in Hp. simpl in Hn, Hp. pose proof (head_in p m).
  assert (first ∈ l) by (destruct l; simpl in *; set_solver).
  assert (lst ∈ l) by (apply last_Some in Hls as [? ->]; set_solver).
  assert (Hal : ∀ q, q ∈ (e :: l) ++ p :: m → is_Some (h !! q)).
  { intros q [Hq|Hq]%elem_of_app; [by eapply (cell_alive h (Ring (e :: l)))|].
    by eapply (cell_alive h (Ring (p :: m))). }
  pose proof (Hal first ltac:(set_solver)). pose proof (Hal lst ltac:(set_solver)).
  pose proof (Hal p ltac:(set_solver)). pose proof (Hal (default p (head m)) ltac:(set_solver)).
  pose proof (Hal e ltac:(set_solver)).
  pose proof (has_links_self h). unfold __list_splice. lrun.
  eapply (world_frame [Ring (e :: l); Ring (p :: m)]); [done|touched| |].
  - unfold all_nodes. simpl. rewrite !app_nil_r. constructor. by rewrite Permutation_middle.
  - apply Forall_cons. split; [eapply loose_has_links; [eassumption|alive]|]. apply Forall_singleton.
    eapply ring_has_links; [eassumption|]. eapply ring_splice; try done.
    unfold all_nodes in Hd. simpl in Hd. apply NoDup_cons in Hd as [_ Hd].
    apply NoDup_app in Hd as (_ & Hd & _). set_solver.
Qed.

Lemma triple_splice_before e l hd m first lst : head l = Some first → last l = Some lst →
  triple [Ring (e :: l); Ring (hd :: m)] (__list_splice e (default hd (last m)) hd)
    (λ _, [Loose e; Ring (hd :: m ++ l)]).
Proof.
  intros Hf Hls. destruct (last m) as [p|] eqn:E.
  - apply last_Some in E as [m' ->]. simpl. rewrite <- app_assoc.
    apply (triple_perm [Ring (hd :: m' ++ [p]); Ring (e :: l)] _ _
             (λ _, [Ring (hd :: m' ++ p :: l); Loose e])); [apply Permutation_swap|intros []; apply Permutation_swap|].
    apply (triple_rot (hd :: m') [p]).
    apply (triple_rot_post (hd :: m') (p :: l) _ _ (λ _, [Loose e])).
    apply (triple_perm [Ring (e :: l); Ring (p :: hd :: m')] _ _
             (λ _, [Loose e; Ring (p :: l ++ hd :: m')])); [apply Permutation_swap|intros []; apply Permutation_swap|].
    by apply (triple_splice e l p (hd :: m') first lst).
  - apply last_None in E as ->. simpl.
    pose proof (triple_splice e l hd [] first lst Hf Hls) as H. by rewrite app_nil_r in H.
Qed.

(** An empty list that is no longer used as one. *)
Lemma world_loosen p w h : world_ok (Ring [p] :: w) h → world_ok (Loose p :: w) h.
Proof.
  intros [Hd [Hr Hf]%Forall_cons]. split; [done|]. apply Forall_cons. split; [|done].
  by eapply (cell_alive h (Ring [p])); [|apply list_elem_of_singleton].
Qed.

Lemma nonempty_ends (x : ptr) l : ∃ first lst, head (x :: l) = Some first ∧ last (x :: l) = Some lst.
Proof. destruct (last (x :: l)) eqn:E; [eauto|by apply last_None in E]. Qed.

Lemma triple_list_splice e l hd m :
  triple [Ring (e :: l); Ring (hd :: m)] (list_splice e hd) (λ _, [Loose e; Ring (hd :: l ++ m)]).
Proof.
  intros w0 h Hw. pose proof Hw as [_ [_ [Hr _]%Forall_cons]%Forall_cons].
  apply wp_bind. eapply wp_list_empty; [exact Hw|].
  destruct l as [|x l]; [apply wp_ret; by apply world_loosen|]. apply wp_bind.
  eapply wp_get_next; [apply has_links_self|by eapply ring_next|].
  destruct (nonempty_ends x l) as (f & t & ? & ?). by apply (triple_splice e (x :: l) hd m f t).
Qed.

Lemma triple_list_splice_tail e l hd m :
  triple [Ring (e :: l); Ring (hd :: m)] (list_splice_tail e hd) (λ _, [Loose e; Ring (hd :: m ++ l)]).
Proof.
  intros w0 h Hw. pose proof Hw as [_ [_ [Hr _]%Forall_cons]%Forall_cons].
  apply wp_bind. eapply wp_list_empty; [exact Hw|].
  destruct l as [|x l]; [apply wp_ret; rewrite app_nil_r; by apply world_loosen|]. apply wp_bind.
  eapply wp_get_prev; [apply has_links_self|by eapply ring_prev|].
  destruct (nonempty_ends x l) as (f & t & ? & ?). by apply (triple_splice_before e (x :: l) hd m f t).
Qed.

Lemma triple_init_head e P : triple (Loose e :: P) (INIT_LIST_HEAD e) (λ _, Ring [e] :: P).
Proof. apply (triple_frame [Loose e] _ (λ _, [Ring [e]])), triple_init. Qed.

Lemma triple_list_splice_init e l hd m :
  triple [Ring (e :: l); Ring (hd :: m)] (list_splice_init e hd) (λ _, [Ring [e]; Ring (hd :: l ++ m)]).
Proof.
  intros w0 h Hw. pose proof Hw as [_ [_ [Hr _]%Forall_cons]%Forall_cons].
  apply wp_bind. eapply wp_list_empty; [exact Hw|].
  destruct l as [|x l]; [by apply wp_ret|]. apply wp_bind.
  eapply wp_get_next; [apply has_links_self|by eapply ring_next|].
  destruct (nonempty_ends x l) as (f & t & ? & ?). revert w0 h Hw Hr.
  cut (triple [Ring (e :: x :: l); Ring (hd :: m)]
         (_ ← __list_splice e hd (default hd (head m)); INIT_LIST_HEAD e)
         (λ _, [Ring [e]; Ring (hd :: (x :: l) ++ m)])); [by intros Ht w0 h Hw _; apply Ht|].
  eapply triple_bind; [by eapply triple_splice|]. intros []. apply triple_init_head.
Qed.

Lemma triple_list_splice_tail_init e l hd m :
  triple [Ring (e :: l); Ring (hd :: m)] (list_splice_tail_init e hd)
    (λ _, [Ring [e]; Ring (hd :: m ++ l)]).
Proof.
  intros w0 h Hw. pose proof Hw as [_ [_ [Hr _]%Forall_cons]%Forall_cons].
  apply wp_bind. eapply wp_list_empty; [exact Hw|].
  destruct l as [|x l]; [apply wp_ret; by rewrite app_nil_r|]. apply wp_bind.
  eapply wp_get_prev; [apply has_links_self|by eapply ring_prev|].
  destruct (nonempty_ends x l) as (f & t & ? & ?). revert w0 h Hw Hr.
  cut (triple [Ring (e :: x :: l); Ring (hd :: m)]
         (_ ← __list_splice e (default hd (last m)) hd; INIT_LIST_HEAD e)
         (λ _, [Ring [e]; Ring (hd :: m ++ x :: l)])); [by intros Ht w0 h Hw _; apply Ht|].
  eapply triple_bind; [by eapply triple_splice_before|]. intros []. apply triple_init_head.
Qed.

Lemma triple_cut list hd l1 entry l2 :
  triple [Loose list; Ring (hd :: l1 ++ entry :: l2)] (__list_cut_position list hd entry)
    (λ _, [Ring (list :: l1 ++ [entry]); Ring (hd :: l2)]).
Proof.
  intros w0 h Hw. pose proof Hw as [Hd [Hlist [Hr _]%Forall_cons]%Forall_cons]. simpl in Hlist, Hr.
  assert (Hni : list ∉ hd :: l1 ++ entry :: l2).
  { change (NoDup ([list] ++ (hd :: l1 ++ entry :: l2) ++ all_nodes w0)) in Hd.
    apply NoDup_app in Hd as (_ & Hd & _). intros Hin. apply (Hd list); [by apply list_elem_of_singleton|].
    apply elem_of_app. by left. }
  assert (Hal : ∀ q, q ∈ hd :: l1 ++ entry :: l2 → is_Some (h !! q)).
  { intros q Hq. by eapply (cell_alive h (Ring (hd :: l1 ++ entry :: l2))). }
  pose proof (head_in entry l1) as Hh1. pose proof (head_in hd l2) as Hh2.
  pose proof (Hal (default entry (head l1)) ltac:(set_solver)).
  pose proof (Hal (default hd (head l2)) ltac:(set_solver)).
  pose proof (Hal hd ltac:(set_solver)). pose proof (Hal entry ltac:(set_solver)).
  assert (Hn : nxt h entry = Some (default hd (head l2))).
  { apply (ring_app_comm _ _ (hd :: l1)) in Hr. apply ring_next in Hr. rewrite Hr. by destruct l2. }
  assert (Hf : nxt h hd = Some (default entry (head l1))).
  { apply ring_next in Hr. rewrite Hr. by destruct l1. }
  pose proof (has_links_self h). unfold __list_cut_position. lrun.
  eapply wp_get_next; [eassumption|apply upd_eq|]. lrun.
  eapply (world_frame [Loose list; Ring (hd :: l1 ++ entry :: l2)]); [done|touched| |].
  - unfold all_nodes. simpl. rewrite !app_nil_r. constructor.
    rewrite <- (Permutation_middle (l1 ++ [entry])), <- app_assoc. done.
  - destruct (ring_cut _ _ _ _ _ _ _ Hr Hni). apply Forall_cons. split; [|apply Forall_singleton];
      (eapply ring_has_links; [eassumption|done]).
Qed.

(** The tests read the ring and leave it as it is. *)
Lemma wp_list_is_last hd l1 x l2 w0 (Q : bool → nodes → Prop) h :
  world_ok (Ring (hd :: l1 ++ x :: l2) :: w0) h → Q (bool_decide (l2 = [])) h →
  wp (list_is_last x hd) Q h.
Proof.
  intros [_ [Hr _]%Forall_cons] HQ. apply (ring_app_comm _ _ (hd :: l1)) in Hr. apply wp_bind.
  eapply wp_get_next; [apply has_links_self|by eapply ring_next|]. apply wp_ret.
  destruct l2 as [|n l2]; simpl.
  - rewrite Z.eqb_refl. by rewrite bool_decide_eq_true_2 in HQ.
  - destruct Hr as [Hd _]. apply NoDup_cons in Hd as [_ Hd]. apply NoDup_cons in Hd as [Hd _].
    destruct (Z.eqb_spec n hd) as [->|_]; [set_solver|]. by rewrite bool_decide_eq_false_2 in HQ.
Qed.

Lemma wp_list_empty_careful hd l w0 (Q : bool → nodes → Prop) h : world_ok (Ring (hd :: l) :: w0) h →
  Q (bool_decide (l = [])) h → wp (list_empty_careful hd) Q h.
Proof.
  intros Hw HQ. pose proof Hw as [_ [Hr _]%Forall_cons]. apply wp_bind.
  eapply wp_get_next; [apply has_links_self|by eapply ring_next|].
  destruct l as [|n l]; simpl.
  - rewrite Z.eqb_refl. apply wp_bind.
    eapply wp_get_prev; [apply has_links_self|by eapply ring_prev|]. apply wp_ret. simpl.
    rewrite Z.eqb_refl. by rewrite bool_decide_eq_true_2 in HQ.
  - destruct Hr as [Hd _]. apply NoDup_cons in Hd as [Hd _].
    destruct (Z.eqb_spec n hd) as [->|_]; [set_solver|]. apply wp_ret.
    by rewrite bool_decide_eq_false_2 in HQ.
Qed.

Lemma wp_list_is_singular hd l w0 (Q : bool → nodes → Prop) h : world_ok (Ring (hd :: l) :: w0) h →
  Q (length l =? 1)%nat h → wp (list_is_singular hd) Q h.
Proof.
  intros Hw HQ. pose proof Hw as [_ [Hr _]%Forall_cons]. apply wp_bind.
  eapply wp_list_empty; [exact Hw|]. destruct l as [|x l]; [by apply wp_ret|].
  apply wp_bind. eapply wp_get_next; [apply has_links_self|by eapply ring_next|].
  apply wp_bind. eapply wp_get_prev; [apply has_links_self|by eapply ring_prev|]. apply wp_ret. simpl.
  destruct l as [|y l]; [by rewrite Z.eqb_refl|].
  destruct (last (x :: y :: l)) as [t|] eqn:E; [|by apply last_None in E].
  assert (t ∈ y :: l) by (rewrite last_cons_cons in E; apply last_Some in E as [? ->]; set_solver).
  destruct Hr as [Hd _]. apply NoDup_cons in Hd as [_ Hd]. apply NoDup_cons in Hd as [Hd _].
  simpl. destruct (Z.eqb_spec x t) as [->|_]; done.
Qed.

(** ** The abstract machine

    An operation of list.h, with the pointers it is called with; a test returns a
    truth value. *)
Inductive list_op : Type :=
  | OpInit (p : ptr) | OpAdd (new hd : ptr) | OpAddTail (new hd : ptr)
  | OpDel (e : ptr) | OpDelInit (e : ptr) | OpMove (e hd : ptr) | OpMoveTail (e hd : ptr)
  | OpReplace (old new : ptr) | OpReplaceInit (old new : ptr) | OpRotate (hd : ptr)
  | OpSplice (e hd : ptr) | OpSpliceTail (e hd : ptr)
  | OpSpliceInit (e hd : ptr) | OpSpliceTailInit (e hd : ptr)
  | OpCut (list hd entry : ptr)
  | OpEmpty (hd : ptr) | OpEmptyCareful (hd : ptr) | OpIsLast (x hd : ptr) | OpIsSingular (hd : ptr).

Definition list_run (op : list_op) : prog nodes (option bool) :=
  let void (m : prog nodes unit) := (_ ← m; mret None) in
  let test (m : prog nodes bool) := (b ← m; mret (Some b)) in
  match op with
  | OpInit p => void (INIT_LIST_HEAD p)
  | OpAdd new hd => void (list_add new hd)
  | OpAddTail new hd => void (list_add_tail new hd)
  | OpDel e => void (list_del e)
  | OpDelInit e => void (list_del_init e)
  | OpMove e hd => void (list_move e hd)
  | OpMoveTail e hd => void (list_move_tail e hd)
  | OpReplace old new => void (list_replace old new)
  | OpReplaceInit old new => void (list_replace_init old new)
  | OpRotate hd => void (list_rotate_left hd)
  | OpSplice e hd => void (list_splice e hd)
  | OpSpliceTail e hd => void (list_splice_tail e hd)
  | OpSpliceInit e hd => void (list_splice_init e hd)
  | OpSpliceTailInit e hd => void (list_splice_tail_init e hd)
  | OpCut list hd entry => void (list_cut_position list hd entry)
  | OpEmpty hd => test (list_empty hd)
  | OpEmptyCareful hd => test (list_empty_careful hd)
  | OpIsLast x hd => test (list_is_last x hd)
  | OpIsSingular hd => test (list_is_singular hd)
  end.

(** What the operations mean for the sequences of elements. *)
Inductive list_step : list_op → world → option bool → world → Prop :=
  | step_init p w : list_step (OpInit p) (Loose p :: w) None (Ring [p] :: w)
  | step_add new hd l w :
      list_step (OpAdd new hd) (Loose new :: Ring (hd :: l) :: w) None (Ring (hd :: new :: l) :: w)
  | step_add_tail new hd l w :
      list_step (OpAddTail new hd) (Loose new :: Ring (hd :: l) :: w) None
        (Ring (hd :: l ++ [new]) :: w)
  | step_del hd l1 e l2 w :
      list_step (OpDel e) (Ring (hd :: l1 ++ e :: l2) :: w) None
        (Loose e :: Ring (hd :: l1 ++ l2) :: w)
  | step_del_init hd l1 e l2 w :
      list_step (OpDelInit e) (Ring (hd :: l1 ++ e :: l2) :: w) None
        (Ring [e] :: Ring (hd :: l1 ++ l2) :: w)
  | step_move hd l1 e l2 w :
      list_step (OpMove e hd) (Ring (hd :: l1 ++ e :: l2) :: w) None (Ring (hd :: e :: l1 ++ l2) :: w)
  | step_move_to hd l1 e l2 hd' m w :
      list_step (OpMove e hd') (Ring (hd :: l1 ++ e :: l2) :: Ring (hd' :: m) :: w) None
        (Ring (hd :: l1 ++ l2) :: Ring (hd' :: e :: m) :: w)
  | step_move_tail hd l1 e l2 w :
      list_step (OpMoveTail e hd) (Ring (hd :: l1 ++ e :: l2) :: w) None
        (Ring (hd :: (l1 ++ l2) ++ [e]) :: w)
  | step_move_tail_to hd l1 e l2 hd' m w :
      list_step (OpMoveTail e hd') (Ring (hd :: l1 ++ e :: l2) :: Ring (hd' :: m) :: w) None
        (Ring (hd :: l1 ++ l2) :: Ring (hd' :: m ++ [e]) :: w)
  | step_replace old new l w :
      list_step (OpReplace old new) (Loose new :: Ring (old :: l) :: w) None
        (Loose old :: Ring (new :: l) :: w)
  | step_replace_init old new l w :
      list_step (OpReplaceInit old new) (Loose new :: Ring (old :: l) :: w) None
        (Ring [old] :: Ring (new :: l) :: w)
  | step_rotate hd l w :
      list_step (OpRotate hd) (Ring (hd :: l) :: w) None
        (Ring (hd :: match l with [] => [] | x :: l' => l' ++ [x] end) :: w)
  | step_splice e l hd m w :
      list_step (OpSplice e hd) (Ring (e :: l) :: Ring (hd :: m) :: w) None
        (Loose e :: Ring (hd :: l ++ m) :: w)
  | step_splice_tail e l hd m w :
      list_step (OpSpliceTail e hd) (Ring (e :: l) :: Ring (hd :: m) :: w) None
        (Loose e :: Ring (hd :: m ++ l) :: w)
  | step_splice_init e l hd m w :
      list_step (OpSpliceInit e hd) (Ring (e :: l) :: Ring (hd :: m) :: w) None
        (Ring [e] :: Ring (hd :: l ++ m) :: w)
  | step_splice_tail_init e l hd m w :
      list_step (OpSpliceTailInit e hd) (Ring (e :: l) :: Ring (hd :: m) :: w) None
        (Ring [e] :: Ring (hd :: m ++ l) :: w)
  | step_cut list hd l1 entry l2 w :
      list_step (OpCut list hd entry) (Loose list :: Ring (hd :: l1 ++ entry :: l2) :: w) None
        (Ring (list :: l1 ++ [entry]) :: Ring (hd :: l2) :: w)
  | step_cut_head list hd x l w :
      list_step (OpCut list hd hd) (Loose list :: Ring (hd :: x :: l) :: w) None
        (Ring [list] :: Ring (hd :: x :: l) :: w)
  | step_cut_empty list hd entry w :
      list_step (OpCut list hd entry) (Loose list :: Ring [hd] :: w) None (Loose list :: Ring [hd] :: w)
  | step_empty hd l w :
      list_step (OpEmpty hd) (Ring (hd :: l) :: w) (Some (bool_decide (l = []))) (Ring (hd :: l) :: w)
  | step_empty_careful hd l w :
      list_step (OpEmptyCareful hd) (Ring (hd :: l) :: w) (Some (bool_decide (l = []))) (Ring (hd :: l) :: w)
  | step_is_last hd l1 x l2 w :
      list_step (OpIsLast x hd) (Ring (hd :: l1 ++ x :: l2) :: w) (Some (bool_decide (l2 = [])))
        (Ring (hd :: l1 ++ x :: l2) :: w)
  | step_is_singular hd l w :
      list_step (OpIsSingular hd) (Ring (hd :: l) :: w) (Some (length l =? 1)%nat) (Ring (hd :: l) :: w)
  (** The order of the cells and the first node of a ring do not matter. *)
  | step_perm op w1 w2 r w : w1 ≡ₚ w2 → list_step op w2 r w → list_step op w1 r w
  | step_rotated op l1 l2 w r w' :
      list_step op (Ring (l2 ++ l1) :: w) r w' → list_step op (Ring (l1 ++ l2) :: w) r w'.

(** A sequence of operations with its results. *)
Inductive list_steps : list list_op → world → list (option bool) → world → Prop :=
  | steps_nil w : list_steps [] w [] w
  | steps_cons op ops w r w1 rs w2 :
      list_step op w r w1 → list_steps ops w1 rs w2 → list_steps (op :: ops) w (r :: rs) w2.

Fixpoint list_runs (ops : list list_op) : prog nodes (list (option bool)) :=
  match ops with
  | [] => mret []
  | op :: ops => r ← list_run op; rs ← list_runs ops; mret (r :: rs)
  end.

Lemma wp_void P (m : prog nodes unit) Q w W W' h :
  triple P m (λ _, Q) → W = P ++ w → W' = Q ++ w → world_ok W h →
  wp (_ ← m; mret None) (λ r h', r = @None bool ∧ world_ok W' h') h.
Proof.
  intros Ht -> -> Hw. apply wp_bind. eapply wp_mono; [by apply Ht|]. intros [] h' Hw'. by apply wp_ret.
Qed.

Lemma triple_list_cut list hd l1 entry l2 :
  triple [Loose list; Ring (hd :: l1 ++ entry :: l2)] (list_cut_position list hd entry)
    (λ _, [Ring (list :: l1 ++ [entry]); Ring (hd :: l2)]).
Proof.
  intros w0 h Hw. pose proof Hw as Hw'. rewrite Permutation_swap in Hw'.
  pose proof Hw as [_ [_ [Hr _]%Forall_cons]%Forall_cons]. simpl in Hr.
  apply wp_bind. eapply wp_list_empty; [exact Hw'|]. rewrite bool_decide_eq_false_2 by by destruct l1.
  apply wp_bind. eapply wp_list_is_singular; [exact Hw'|]. apply wp_bind.
  assert (hd ≠ entry). { destruct Hr as [Hd _]. apply NoDup_cons in Hd as [Hd _]. set_solver. }
  cut (wp (__list_cut_position list hd entry)
         (λ _ h', world_ok ([Ring (list :: l1 ++ [entry]); Ring (hd :: l2)] ++ w0) h') h);
    [|by apply triple_cut].
  intros Hc. destruct (Nat.eqb_spec (length (l1 ++ entry :: l2)) 1) as [Hlen|_].
  - apply wp_bind. eapply wp_get_next; [apply has_links_self|by eapply ring_next|]. apply wp_ret.
    destruct l1; simpl in *; [|rewrite length_app in Hlen; simpl in Hlen; lia].
    rewrite Z.eqb_refl. simpl. by destruct (Z.eqb_spec entry hd).
  - apply wp_ret. by destruct (Z.eqb_spec entry hd).
Qed.

Lemma triple_list_cut_head list hd x l :
  triple [Loose list; Ring (hd :: x :: l)] (list_cut_position list hd hd)
    (λ _, [Ring [list]; Ring (hd :: x :: l)]).
Proof.
  intros w0 h Hw. pose proof Hw as Hw'. rewrite Permutation_swap in Hw'.
  pose proof Hw as [_ [_ [Hr _]%Forall_cons]%Forall_cons]. simpl in Hr.
  apply wp_bind. eapply wp_list_empty; [exact Hw'|]. rewrite bool_decide_eq_false_2 by done.
  apply wp_bind. eapply wp_list_is_singular; [exact Hw'|]. apply wp_bind.
  cut (wp (INIT_LIST_HEAD list) (λ _ h', world_ok ([Ring [list]; Ring (hd :: x :: l)] ++ w0) h') h);
    [|by apply triple_init_head].
  intros Hc. destruct (_ =? _)%nat.
  - apply wp_bind. eapply wp_get_next; [apply has_links_self|by eapply ring_next|]. apply wp_ret.
    by rewrite Z.eqb_refl, andb_false_r.
  - apply wp_ret. by rewrite Z.eqb_refl.
Qed.

Lemma triple_list_cut_empty list hd entry :
  triple [Loose list; Ring [hd]] (list_cut_position list hd entry) (λ _, [Loose list; Ring [hd]]).
Proof.
  intros w0 h Hw. pose proof Hw as Hw'. rewrite Permutation_swap in Hw'.
  apply wp_bind. eapply wp_list_empty; [exact Hw'|]. by apply wp_ret.
Qed.

Create HintDb list_triples.
#[export] Hint Resolve triple_init triple_list_add triple_list_add_tail triple_list_del
  triple_list_del_init triple_list_move triple_list_move_to triple_list_move_tail
  triple_list_move_tail_to triple_list_replace triple_list_replace_init triple_list_rotate_left
  triple_list_splice triple_list_splice_tail triple_list_splice_init triple_list_splice_tail_init
  triple_list_cut triple_list_cut_head triple_list_cut_empty : list_triples.

Lemma list_op_refines op w r w' h : list_step op w r w' → world_ok w h →
  wp (list_run op) (λ r' h', r' = r ∧ world_ok w' h') h.
Proof.
  intros Hs. revert h. induction Hs; intros h Hw;
    try by eapply wp_void; [typeclasses eauto with list_triples|reflexivity|reflexivity|exact Hw].
  - apply wp_bind. by eapply wp_list_empty.
  - apply wp_bind. by eapply wp_list_empty_careful.
  - apply wp_bind. by eapply wp_list_is_last.
  - apply wp_bind. by eapply wp_list_is_singular.
  - apply IHHs. by rewrite <- H.
  - apply IHHs. by apply world_rot.
Qed.

(** C27: the operations of list.h refine operations on sequences.  From a heap that holds
    a world of disjoint lists and single nodes, any sequence of operations that the
    abstract machine can make is executed without an access outside the nodes, every
    test answers what holds of the sequences, and the heap holds the world the machine
    reaches: additions, deletions, moves, replacements, rotations, splices and cuts
    change exactly the lists they name, and no node is lost. *)
Theorem list_ops_refine ops w rs w' h : list_steps ops w rs w' → world_ok w h →
  wp (list_runs ops) (λ rs' h', rs' = rs ∧ world_ok w' h') h.
Proof.
  intros Hs. revert h. induction Hs as [w|op ops w r w1 rs w2 Hop _ IH]; intros h Hw; [done|].
  apply wp_bind. eapply wp_mono; [by eapply list_op_refines|]. intros r' h1 [-> Hw1].
  apply wp_bind. eapply wp_mono; [by apply IH|]. intros rs' h2 [-> Hw2]. done.
Qed.

Definition demo_heap : nodes :=
  <[16 := ListHead 0 0]> (<[32 := ListHead 0 0]> (<[48 := ListHead 0 0]> (<[64 := ListHead 0 0]> ∅))).
Definition demo_ops : list list_op :=
  [OpInit 16; OpAdd 32 16; OpAddTail 48 16; OpRotate 16; OpCut 64 16 48; OpIsSingular 64;
   OpSpliceTailInit 64 16; OpDel 48; OpEmpty 64].

Example list_ops_refine_witness :
  wp (list_runs demo_ops) (λ rs h',
        rs = [None; None; None; None; None; Some true; None; None; Some true] ∧
        world_ok [Ring [64]; Loose 48; Ring [16; 32]] h') demo_heap
  ∧ (snd <$> list_runs demo_ops demo_heap) =
    Some (<[16 := ListHead 32 32]> (<[32 := ListHead 16 16]> (<[48 := ListHead 0x100 0x200]>
         (<[64 := ListHead 64 64]> ∅)))).
Proof.
  split; [|vm_compute; reflexivity].
  apply (list_ops_refine demo_ops [Loose 16; Loose 32; Loose 48; Loose 64]).
  - eapply steps_cons; [apply (step_init 16)|].
    eapply steps_cons; [eapply step_perm; [apply Permutation_swap|apply (step_add 32 16 [])]|].
    eapply steps_cons; [eapply step_perm; [apply Permutation_swap|apply (step_add_tail 48 16 [32])]|].
    eapply steps_cons; [apply (step_rotate 16 [32; 48])|].
    eapply steps_cons; [eapply step_perm; [apply Permutation_swap|apply (step_cut 64 16 [] 48 [32])]|].
    eapply steps_cons; [apply (step_is_singular 64 [48])|].
    eapply steps_cons; [apply (step_splice_tail_init 64 [48] 16 [32])|].
    eapply steps_cons; [eapply step_perm; [apply Permutation_swap|apply (step_del 16 [32] 48 [])]|].
    eapply steps_cons; [|apply steps_nil].
    eapply step_perm; [apply (Permutation_app_comm [Loose 48; Ring [16; 32]] [Ring [64]])|].
    apply (step_empty 64 []).
  - split; [repeat constructor; set_solver|].
    repeat (apply Forall_cons; split; [by eexists|]). apply Forall_nil. done.
Defined.
