(* ===== verification/ListSortThm.v ===== *)
(** * ListSortThm: list_sort sorts stably and restores the ring

    [lib/list_sort.c] works on null-terminated chains whose [prev] links are stale,
    and rebuilds the ring in its last merge. *)

From stdpp Require Import sorting.
From S2P Require Import Prelude LinkedList LinkedListThm.

(** ** Stable rearrangement and merging of sequences *)

Section Order.
Context (cmp : ptr → ptr → Z).

(** The comparison is a total preorder: what list_sort asks of its caller. *)
Class cmp_order : Prop :=
  { cmp_total x y : cmp x y ≤ 0 ∨ cmp y x ≤ 0;
    cmp_trans x y z : cmp x y ≤ 0 → cmp y z ≤ 0 → cmp x z ≤ 0 }.

Definition sorted (l : list ptr) : Prop := StronglySorted (λ x y, cmp x y ≤ 0) l.

(** The elements equivalent to [x], in their order. *)
Definition peers (x : ptr) (l : list ptr) : list ptr :=
  filter (λ y, cmp x y ≤ 0 ∧ cmp y x ≤ 0) l.
Lemma peers_app x l l' : peers x (l ++ l') = peers x l ++ peers x l'.
Proof. apply filter_app. Qed.

Definition stable (l l' : list ptr) : Prop := ∀ x, peers x l = peers x l'.

#[export] Instance stable_equiv : Equivalence stable.
Proof.
  split; [by intros l x|by intros l l' H x|]. intros l1 l2 l3 H1 H2 x. by rewrite H1.
Qed.
#[export] Instance stable_app : Proper (stable ==> stable ==> stable) (++).
Proof. intros l1 l2 H l3 l4 H' x. by rewrite !peers_app, (H x), (H' x). Qed.

Context {O : cmp_order}.

Lemma cmp_refl x : cmp x x ≤ 0.
Proof. by destruct (cmp_total x x). Qed.

Lemma stable_elem l l' x : stable l l' → x ∈ l ↔ x ∈ l'.
Proof.
  intros H. pose proof (cmp_refl x). specialize (H x).
  assert (∀ m, x ∈ m ↔ x ∈ peers x m) as Hp.
  { intros m. unfold peers. rewrite list_elem_of_filter. tauto. }
  by rewrite (Hp l), (Hp l'), H.
Qed.

(** A greater element moves behind a sorted sequence of greater elements. *)
Lemma stable_swap a la b lb : sorted (a :: la) → ¬ cmp a b ≤ 0 →
  stable (b :: (a :: la) ++ lb) ((a :: la) ++ b :: lb).
Proof.
  intros Hs Hab x. change (b :: (a :: la) ++ lb) with ([b] ++ (a :: la) ++ lb).
  change ((a :: la) ++ b :: lb) with ((a :: la) ++ [b] ++ lb). rewrite !peers_app.
  destruct (decide (cmp x b ≤ 0 ∧ cmp b x ≤ 0)) as [[Hxb Hbx]|Hn].
  - cut (peers x (a :: la) = []); [by intros ->|].
    apply StronglySorted_inv in Hs as [_ Hs]. rewrite Forall_forall in Hs.
    apply elem_of_nil_inv. intros z [[_ Hzx] Hz]%list_elem_of_filter. apply Hab.
    apply elem_of_cons in Hz as [->|Hz]; [by eapply cmp_trans|].
    eapply cmp_trans; [by apply Hs|]. by eapply cmp_trans.
  - replace (peers x [b]) with (@nil ptr); [done|]. unfold peers. by rewrite filter_cons_False.
Qed.

Fixpoint lmerge (la : list ptr) : list ptr → list ptr :=
  fix go lb :=
    match la, lb with
    | [], _ => lb
    | _, [] => la
    | a :: la', b :: lb' => if cmp a b <=? 0 then a :: lmerge la' lb else b :: go lb'
    end.

Lemma lmerge_nil_r la : lmerge la [] = la.
Proof. by destruct la. Qed.
Lemma lmerge_cons a la b lb :
  lmerge (a :: la) (b :: lb) =
    if cmp a b <=? 0 then a :: lmerge la (b :: lb) else b :: lmerge (a :: la) lb.
Proof. done. Qed.

Lemma lmerge_stable la lb : sorted la → stable (lmerge la lb) (la ++ lb).
Proof.
  revert lb. induction la as [|a la IHa]; intros lb Hs; [by destruct lb|].
  induction lb as [|b lb IHb]; [by rewrite app_nil_r|].
  rewrite lmerge_cons. destruct (Z.leb_spec (cmp a b) 0) as [Hab|Hab].
  - apply StronglySorted_inv in Hs as [Hs _].
    change (stable ([a] ++ lmerge la (b :: lb)) ([a] ++ (la ++ b :: lb))). by rewrite IHa.
  - etrans; [|apply stable_swap; [done|lia]].
    change (stable ([b] ++ lmerge (a :: la) lb) ([b] ++ ((a :: la) ++ lb))). by rewrite IHb.
Qed.

Lemma sorted_cons_iff a l : sorted (a :: l) ↔ (∀ z, z ∈ l → cmp a z ≤ 0) ∧ sorted l.
Proof.
  split; [intros [? H]%StronglySorted_inv; rewrite Forall_forall in H; done|].
  intros [H ?]. constructor; [done|]. by apply Forall_forall.
Qed.

Lemma lmerge_sorted la lb : sorted la → sorted lb → sorted (lmerge la lb).
Proof.
  revert lb. induction la as [|a la IHa]; intros lb Ha Hb; [by destruct lb|].
  induction lb as [|b lb IHb]; [done|]. rewrite lmerge_cons.
  pose proof Ha as [Ha1 Ha2]%sorted_cons_iff. pose proof Hb as [Hb1 Hb2]%sorted_cons_iff.
  destruct (Z.leb_spec (cmp a b) 0) as [Hab|Hab]; apply sorted_cons_iff; split; auto.
  - intros z. rewrite (stable_elem _ _ z (lmerge_stable _ (b :: lb) Ha2)).
    intros [Hz|[->|Hz]%elem_of_cons]%elem_of_app; [by apply Ha1|done|].
    eapply cmp_trans; [exact Hab|by apply Hb1].
  - assert (Hba : cmp b a ≤ 0) by (destruct (cmp_total a b); [lia|done]).
    intros z. rewrite (stable_elem _ _ z (lmerge_stable _ lb Ha)).
    intros [[->|Hz]%elem_of_cons|Hz]%elem_of_app; [done| |by apply Hb1].
    eapply cmp_trans; [exact Hba|by apply Ha1].
Qed.
End Order.

(** ** Null-terminated chains *)

Fixpoint chain (N : ptr → option ptr) (p : ptr) (l : list ptr) : Prop :=
  match l with
  | [] => p = NULL
  | x :: l' => p = x ∧ x ≠ NULL ∧ ∃ n, N x = Some n ∧ chain N n l'
  end.

Lemma chain_ext N N' p l : (∀ q, q ∈ l → N' q = N q) → chain N p l → chain N' p l.
Proof.
  revert p. induction l as [|x l IH]; intros p HE; simpl; [done|].
  intros (-> & Hx & n & Hn & Hc). split_and!; [done..|]. exists n. rewrite HE by set_solver.
  split; [done|]. apply IH; [set_solver|done].
Qed.

Lemma chain_null N p l : chain N p l → (p =? NULL) = bool_decide (l = []).
Proof.
  destruct l as [|x l]; simpl.
  - intros ->. done.
  - intros (-> & Hx & _). by apply Z.eqb_neq.
Qed.

Lemma chain_alive N p l q : chain N p l → q ∈ l → is_Some (N q).
Proof.
  revert p. induction l as [|x l IH]; intros p; [set_solver|]. simpl.
  intros (-> & _ & n & Hn & Hc) [->|Hq]%elem_of_cons; [eauto|by eapply IH].
Qed.

Lemma chain_app_null N p l : chain N p l → ∀ q, q ∈ l → q ≠ NULL.
Proof.
  revert p. induction l as [|x l IH]; intros p; [set_solver|]. simpl.
  intros (-> & Hx & n & _ & Hc) q [->|Hq]%elem_of_cons; [done|by eapply IH].
Qed.

(** Distinct nodes of the heap are at most as many as the heap has. *)
Lemma nodes_fuel h N P l : has_links h N P → NoDup l → (∀ q, q ∈ l → is_Some (N q)) →
  (length l ≤ size h)%nat.
Proof.
  intros [Hn _] Hd Ha. rewrite <- size_dom, <- (size_list_to_set (C := gset ptr) l) by done.
  apply subseteq_size. intros q Hq%elem_of_list_to_set. apply elem_of_dom, alive_nxt.
  rewrite Hn. by apply Ha.
Qed.

Lemma links_chain N P x l z t : NoDup (x :: l) → links N P ((x :: l) ++ [z]) → last (x :: l) = Some t →
  NULL ∉ x :: l → chain (upd N t NULL) x (x :: l).
Proof.
  revert x. induction l as [|y l IH]; intros x Hd Hl Ht Hz.
  - injection Ht as ->. split_and!; [done|set_solver|]. exists NULL. by rewrite upd_eq.
  - rewrite last_cons_cons in Ht. apply NoDup_cons in Hd as [Hx Hd].
    assert (Hty : t ∈ y :: l) by (apply last_Some in Ht as [? ->]; set_solver).
    apply links_cons in Hl as (Hn & _ & Hl). apply not_elem_of_cons in Hz as [Hz Hz'].
    split_and!; [done|done|]. exists y. rewrite upd_ne by congruence. split; [done|]. by apply IH.
Qed.

Section Merge.
Context (cmp : ptr → ptr → Z).

Definition tail_alive (N : ptr → option ptr) (tail : option ptr) : Prop :=
  match tail with None => True | Some t => is_Some (N t) end.
Definition tail_links (N : ptr → option ptr) (tail : option ptr) (hd hd' p : ptr) : Prop :=
  match tail with None => hd' = p | Some t => hd' = hd ∧ N t = Some p end.

Lemma wp_set_tail N P tail hd v (Q : ptr → nodes → Prop) h :
  has_links h N P → tail_alive N tail →
  (∀ h' N' hd', has_links h' N' P → tail_links N' tail hd hd' v →
     (∀ q, tail ≠ Some q → N' q = N q) → (∀ q, is_Some (N q) → is_Some (N' q)) → Q hd' h') →
  wp (set_tail tail hd v) Q h.
Proof.
  intros Hl Ht HQ. destruct tail as [t|]; simpl in *.
  - apply wp_bind. eapply wp_set_next; [exact Hl|done|]. intros h' Hl'. apply wp_ret.
    eapply HQ; [exact Hl'|split; [done|apply upd_eq]| |].
    + intros q Hq. apply upd_ne. congruence.
    + intros q. apply upd_is_Some.
  - apply wp_ret. by eapply HQ.
Qed.

(** One round: the node [x] is linked behind the tail and becomes the tail. *)
Lemma wp_take {A} N P tail hd x n (K : ptr → ptr → ptr → prog nodes A) (Q : A → nodes → Prop) h :
  has_links h N P → tail_alive N tail → tail ≠ Some x → N x = Some n →
  (∀ h' N' hd', has_links h' N' P → tail_links N' tail hd hd' x →
     (∀ q, tail ≠ Some q → N' q = N q) → (∀ q, is_Some (N q) → is_Some (N' q)) →
     wp (K hd' n x) Q h') →
  wp (hd ← set_tail tail hd x; c ← get_next x; t ← get_tail tail hd; K hd c t) Q h.
Proof.
  intros Hl Ht Hx Hn HQ. apply wp_bind. eapply wp_set_tail; [done..|].
  intros h' N' hd' Hl' Htl HE HA. apply wp_bind. eapply wp_get_next; [exact Hl'|by rewrite HE|].
  apply wp_bind. destruct tail as [t|]; simpl in *.
  - destruct Htl as [-> Htx]. eapply wp_get_next; [done|done|]. by eapply HQ.
  - subst hd'. apply wp_ret. by eapply HQ.
Qed.

(** What a merge of the nodes [ns] into the sequence [l] leaves behind. *)
Definition merged (N P : ptr → option ptr) (tail : option ptr) (hd : ptr) (ns l : list ptr)
    (hd' : ptr) (h' : nodes) : Prop :=
  ∃ N' p, has_links h' N' P ∧ chain N' p l ∧ tail_links N' tail hd hd' p ∧
    (∀ q, q ∉ ns → tail ≠ Some q → N' q = N q) ∧ (∀ q, is_Some (N q) → is_Some (N' q)).

Lemma merged_step N N1 P tail hd hd1 x ns ns' l hd' h' :
  tail_links N1 tail hd hd1 x → (∀ q, tail ≠ Some q → N1 q = N q) →
  (∀ q, is_Some (N q) → is_Some (N1 q)) → x ≠ NULL → ns' ≡ₚ x :: ns →
  (∀ q, q ∈ ns' → tail ≠ Some q) →
  merged N1 P (Some x) hd1 ns l hd' h' → merged N P tail hd ns' (x :: l) hd' h'.
Proof.
  intros Htl HE HA Hx Hns Hdis (N2 & p & Hl2 & Hc & [-> Hp] & HE2 & HA2).
  assert (Hin : ∀ q, q ∈ ns' ↔ q = x ∨ q ∈ ns) by (intros q; by rewrite Hns, elem_of_cons).
  exists N2, x. split_and!; [done| | | |auto].
  - split_and!; [done..|]. by exists p.
  - destruct tail as [t|]; simpl in *; [|done]. destruct Htl as [-> Htx]. split; [done|].
    rewrite HE2; [done|intros Ht|intros [= ->]]; apply (Hdis t); rewrite ?Hin; auto.
  - intros q Hq Hqt. rewrite HE2; [by apply HE|intros Hq'|intros [= ->]]; apply Hq, Hin; auto.
Qed.

Lemma wp_merge_nodes fuel : ∀ la lb tail hd a b N P h, has_links h N P →
  chain N a la → chain N b lb → NoDup (la ++ lb) → tail_alive N tail →
  (∀ q, q ∈ la ++ lb → tail ≠ Some q) → (length la + length lb < fuel)%nat →
  wp (merge_nodes cmp fuel tail hd a b) (merged N P tail hd (la ++ lb) (lmerge cmp la lb)) h.
Proof.
  induction fuel as [|fuel IH]; intros la lb tail hd a b N P h Hl Ha Hb Hd Ht Hdis Hf; [lia|].
  cbn [merge_nodes]. rewrite (chain_null _ _ _ Ha), (chain_null _ _ _ Hb).
  destruct la as [|x la]; [|destruct lb as [|y lb]].
  - simpl in Ha. subst a. replace (lmerge cmp [] lb) with lb by by destruct lb.
    eapply wp_set_tail; [done..|].
    intros h' N' hd' Hl' Htl HE HA. exists N', b. split_and!; [done| |done|auto|done].
    eapply chain_ext; [|exact Hb]. intros q Hq. by apply HE, Hdis.
  - rewrite andb_false_r. eapply wp_set_tail; [done..|].
    intros h' N' hd' Hl' Htl HE HA. exists N', a. rewrite lmerge_nil_r. split_and!; [done| |done|auto|done].
    eapply chain_ext; [|exact Ha]. intros q Hq. apply HE, Hdis. set_solver.
  - rewrite !bool_decide_eq_false_2 by done. cbn [negb andb].
    pose proof Ha as (-> & Hx & n & Hn & Ha'). pose proof Hb as (-> & Hy & m & Hm & Hb').
    rewrite lmerge_cons. destruct (Z.leb_spec (cmp x y) 0) as [Hle|Hgt].
    + eapply wp_take; [done|done|apply Hdis; set_solver|exact Hn|].
      intros h1 N1 hd1 Hl1 Htl HE HA. apply NoDup_cons in Hd as [Hxn Hd].
      eapply wp_mono; [eapply (IH la (y :: lb) (Some x) hd1 n y N1 P)|].
      * done.
      * eapply chain_ext; [|exact Ha']. intros q Hq. apply HE, Hdis. set_solver.
      * eapply chain_ext; [|exact Hb]. intros q Hq. apply HE, Hdis. set_solver.
      * done.
      * simpl. eauto.
      * intros q Hq [= ->]. done.
      * simpl in *. lia.
      * intros hd2 h2. by apply (merged_step N N1).
    + eapply wp_take; [done|done|apply Hdis; set_solver|exact Hm|].
      intros h1 N1 hd1 Hl1 Htl HE HA.
      rewrite <- Permutation_middle in Hd. apply NoDup_cons in Hd as [Hyn Hd].
      eapply wp_mono; [eapply (IH (x :: la) lb (Some y) hd1 x m N1 P)|].
      * done.
      * eapply chain_ext; [|exact Ha]. intros q Hq. apply HE, Hdis. set_solver.
      * eapply chain_ext; [|exact Hb']. intros q Hq. apply HE, Hdis. set_solver.
      * done.
      * simpl. eauto.
      * intros q Hq [= ->]. done.
      * simpl in *. lia.
      * intros hd2 h2. apply (merged_step N N1); try done. symmetry. apply Permutation_middle.
Qed.

Lemma wp_merge_chains la lb a b N P (Q : ptr → nodes → Prop) h : has_links h N P →
  chain N a la → chain N b lb → NoDup (la ++ lb) →
  (∀ h' N' p, has_links h' N' P → chain N' p (lmerge cmp la lb) →
     (∀ q, q ∉ la ++ lb → N' q = N q) → (∀ q, is_Some (N q) → is_Some (N' q)) → Q p h') →
  wp (merge cmp a b) Q h.
Proof.
  intros Hl Ha Hb Hd HQ. apply wp_bind, wp_gets.
  assert (length (la ++ lb) ≤ size h)%nat.
  { eapply nodes_fuel; [done..|]. intros q [Hq|Hq]%elem_of_app;
      [by apply (chain_alive _ _ _ _ Ha)|by apply (chain_alive _ _ _ _ Hb)]. }
  eapply wp_mono; [eapply (wp_merge_nodes _ la lb None NULL a b N P); try done|].
  - rewrite length_app in H. unfold id. lia.
  - intros p h' (N' & p' & Hl' & Hc & -> & HE & HA). eapply HQ; [done|done|auto|done].
Qed.

(** ** The last merge *)

Lemma links_alive h N P q : has_links h N P → is_Some (N q) → is_Some (P q).
Proof. intros [Hn Hp]. by rewrite <- Hn, <- Hp, <- alive_nxt, alive_prv. Qed.

(** [l1] is linked both ways behind [tail] and ends in [t]; [l2] still hangs off [t]. *)
Definition woven (N P : ptr → option ptr) (tail : ptr) (ns l : list ptr) (t : ptr) (h' : nodes) : Prop :=
  ∃ N' P' l1 l2 p, has_links h' N' P' ∧ l = l1 ++ l2 ∧ l2 ≠ [] ∧ links N' P' (tail :: l1) ∧
    last (tail :: l1) = Some t ∧ N' t = Some p ∧ chain N' p l2 ∧
    (∀ q, q ∉ tail :: ns → N' q = N q) ∧ (∀ q, q ∉ ns → P' q = P q).

Lemma woven_step N P tail x ns ns' l t h' : ns' ≡ₚ x :: ns → tail ∉ ns' → x ∉ ns →
  woven (upd N tail x) (upd P x tail) x ns l t h' → woven N P tail ns' (x :: l) t h'.
Proof.
  intros Hns Ht Hx (N' & P' & l1 & l2 & p & Hl & -> & Hne & Hlk & Hlast & Hp & Hc & HN & HP).
  assert (Hin : ∀ q, q ∈ ns' ↔ q = x ∨ q ∈ ns) by (intros q; by rewrite Hns, elem_of_cons).
  rewrite Hin in Ht. exists N', P', (x :: l1), l2, p. split_and!; try done.
  - rewrite links_cons. split_and!; [|by rewrite HP, upd_eq|done].
    rewrite HN, upd_eq; [done|]. rewrite elem_of_cons. tauto.
  - intros q [Hqt Hq]%not_elem_of_cons. rewrite Hin in Hq. rewrite HN, upd_ne; [done|congruence|].
    rewrite elem_of_cons. tauto.
  - intros q Hq. rewrite Hin in Hq. rewrite HP, upd_ne; [done|intros ->; tauto|tauto].
Qed.

(** One round of the last merge. *)
Lemma wp_take_back {A} N P tail x n (K : ptr → ptr → prog nodes A) (Q : A → nodes → Prop) h :
  has_links h N P → is_Some (N tail) → tail ≠ x → N x = Some n →
  (∀ h', has_links h' (upd N tail x) (upd P x tail) → wp (K n x) Q h') →
  wp (_ ← set_next tail x; _ ← set_prev x tail; c ← get_next x; t ← get_next tail; K c t) Q h.
Proof.
  intros Hl Ht Hx Hn HQ. apply wp_bind. eapply wp_set_next; [done..|]. intros h1 Hl1.
  apply wp_bind. eapply wp_set_prev; [done|eapply links_alive; [exact Hl|eauto]|]. intros h2 Hl2.
  apply wp_bind. eapply wp_get_next; [done|by rewrite upd_ne|].
  apply wp_bind. eapply wp_get_next; [done|apply upd_eq|]. by apply HQ.
Qed.

Lemma wp_merge_back fuel : ∀ la lb tail a b N P h, has_links h N P →
  chain N a la → chain N b lb → NoDup (tail :: la ++ lb) → is_Some (N tail) → la ++ lb ≠ [] →
  (length la + length lb < fuel)%nat →
  wp (merge_back cmp fuel tail a b) (woven N P tail (la ++ lb) (lmerge cmp la lb)) h.
Proof.
  induction fuel as [|fuel IH]; intros la lb tail a b N P h Hl Ha Hb Hd Ht Hne Hf; [lia|].
  apply NoDup_cons in Hd as [Htn Hd].
  cbn [merge_back]. rewrite (chain_null _ _ _ Ha), (chain_null _ _ _ Hb).
  destruct la as [|x la]; [|destruct lb as [|y lb]].
  - simpl in Ha. subst a. replace (lmerge cmp [] lb) with lb by by destruct lb.
    apply wp_bind. eapply wp_set_next; [done..|]. intros h' Hl'. apply wp_ret.
    eexists _, _, [], lb, b. split_and!; [done|done|done|done|done|apply upd_eq| | |done].
    + eapply chain_ext; [|exact Hb]. intros q Hq. apply upd_ne. by intros ->.
    + intros q Hq. apply upd_ne. set_solver.
  - rewrite andb_false_r. rewrite app_nil_r in *.
    apply wp_bind. eapply wp_set_next; [done..|]. intros h' Hl'. apply wp_ret.
    eexists _, _, [], (x :: la), a. rewrite lmerge_nil_r.
    split_and!; [done|done|done|done|done|apply upd_eq| | |done].
    + eapply chain_ext; [|exact Ha]. intros q Hq. apply upd_ne. congruence.
    + intros q Hq. apply upd_ne. set_solver.
  - rewrite !bool_decide_eq_false_2 by done. cbn [negb andb].
    pose proof Ha as (-> & Hx & n & Hn & Ha'). pose proof Hb as (-> & Hy & m & Hm & Hb').
    assert (tail ≠ x ∧ tail ≠ y) as [??] by set_solver.
    assert (HE : ∀ z q, q ∈ (x :: la) ++ y :: lb → upd N tail z q = N q).
    { intros z q Hq. apply upd_ne. congruence. }
    rewrite lmerge_cons. destruct (Z.leb_spec (cmp x y) 0) as [Hle|Hgt].
    + eapply wp_take_back; [done..|]. intros h1 Hl1.
      eapply wp_mono; [eapply (IH la (y :: lb) x n y _ _ h1 Hl1)|].
      * eapply chain_ext; [|exact Ha']. intros q Hq. apply HE. set_solver.
      * eapply chain_ext; [|exact Hb]. intros q Hq. apply HE. set_solver.
      * done.
      * rewrite HE by set_solver. eauto.
      * by destruct la.
      * simpl in *. lia.
      * intros t h2. simpl in Hd. apply NoDup_cons in Hd as [Hd _]. by apply woven_step.
    + eapply wp_take_back; [done..|]. intros h1 Hl1.
      rewrite <- Permutation_middle in Hd.
      eapply wp_mono; [eapply (IH (x :: la) lb y x m _ _ h1 Hl1)|].
      * eapply chain_ext; [|exact Ha]. intros q Hq. apply HE. set_solver.
      * eapply chain_ext; [|exact Hb']. intros q Hq. apply HE. set_solver.
      * done.
      * rewrite HE by set_solver. eauto.
      * done.
      * simpl in *. lia.
      * intros t h2. apply NoDup_cons in Hd as [Hd _]. apply woven_step; try done.
        symmetry. apply Permutation_middle.
Qed.

Lemma wp_back_links fuel : ∀ l x tail N P h, has_links h N P → N tail = Some x →
  chain N x (x :: l) → NoDup (tail :: x :: l) → (length l < fuel)%nat →
  wp (back_links cmp fuel tail) (λ t h', ∃ P', has_links h' N P' ∧ links N P' (tail :: x :: l) ∧
    last (x :: l) = Some t ∧ (∀ q, q ∉ x :: l → P' q = P q)) h.
Proof.
  induction fuel as [|fuel IH]; intros l x tail N P h Hl Ht Hc Hd Hf; [lia|].
  pose proof Hc as (_ & Hx & n & Hn & Hc'). cbn [back_links].
  apply wp_bind. eapply wp_get_next; [done..|]. apply wp_bind, wp_ret.
  apply wp_bind. eapply wp_set_prev; [done|eapply links_alive; [exact Hl|eauto]|]. intros h1 Hl1.
  apply wp_bind. eapply wp_get_next; [done..|]. apply wp_bind. eapply wp_get_next; [done..|].
  rewrite (chain_null _ _ _ Hc'). apply NoDup_cons in Hd as [Hd Hd'].
  destruct l as [|y l].
  - apply wp_ret. eexists. split_and!; [done| |done|].
    + rewrite links_cons, upd_eq. done.
    + intros q Hq. apply upd_ne. set_solver.
  - rewrite bool_decide_eq_false_2 by done. cbn [negb]. pose proof Hc' as [-> _].
    eapply wp_mono; [eapply (IH l y x N _ h1 Hl1)|]; [done|done|done|simpl in *; lia|].
    intros t h2 (P' & Hl2 & Hlk & Hls & HP). exists P'. apply NoDup_cons in Hd' as [Hd' _].
    split_and!; [done| |done|].
    + rewrite links_cons. split_and!; [done|by rewrite HP, upd_eq|done].
    + intros q [Hq1 Hq2]%not_elem_of_cons. rewrite HP, upd_ne by congruence. done.
Qed.

Lemma lmerge_perm la lb : lmerge cmp la lb ≡ₚ la ++ lb.
Proof.
  revert lb. induction la as [|a la IHa]; intros lb; [by destruct lb|].
  induction lb as [|b lb IHb]; [by rewrite app_nil_r|]. rewrite lmerge_cons.
  destruct (cmp a b <=? 0); [by rewrite IHa|]. rewrite IHb. apply Permutation_middle.
Qed.

(** Closing the ring behind the last node. *)
Lemma links_close N P hd l t : NoDup (hd :: l) → links N P (hd :: l) → last l = Some t →
  ring (upd N t hd) (upd P hd t) (hd :: l).
Proof.
  intros Hd Hl [m ->]%last_Some. apply ring_cons. split; [done|].
  apply NoDup_cons in Hd as [Hh Hd]. apply NoDup_app in Hd as (_ & Hd & _).
  simpl. rewrite <- app_assoc. apply (links_app _ _ (hd :: m)). split.
  - eapply (links_ext N P _ _ (hd :: m)); [..|exact Hl]; intros q Hq.
    + apply upd_ne. intros ->. apply elem_of_cons in Hq as [->|Hq]; [set_solver|].
      apply (Hd q Hq). set_solver.
    + simpl in Hq. apply upd_ne. congruence.
  - rewrite links_cons, !upd_eq. done.
Qed.

Lemma wp_restore la lb head a b N P (Q : unit → nodes → Prop) h : has_links h N P →
  chain N a la → chain N b lb → NoDup (head :: la ++ lb) → is_Some (N head) → la ++ lb ≠ [] →
  (∀ h' N' P', has_links h' N' P' → ring N' P' (head :: lmerge cmp la lb) →
     (∀ q, q ∉ head :: la ++ lb → N' q = N q ∧ P' q = P q) → Q tt h') →
  wp (merge_and_restore_back_links cmp head a b) Q h.
Proof.
  intros Hl Ha Hb Hd Hh Hne HQ. apply wp_bind, wp_gets.
  assert (Hsz : (length (la ++ lb) ≤ size h)%nat).
  { eapply nodes_fuel; [done|by apply NoDup_cons in Hd as [_ ?]|]. intros q [Hq|Hq]%elem_of_app;
      [by apply (chain_alive _ _ _ _ Ha)|by apply (chain_alive _ _ _ _ Hb)]. }
  pose proof (lmerge_perm la lb) as Hp. apply wp_bind.
  eapply wp_mono; [eapply (wp_merge_back _ la lb); try done; rewrite length_app in Hsz; unfold id; lia|].
  intros t h1 (N1 & P1 & l1 & l2 & p & Hl1 & E & Hl2 & Hlk & Hlast & Ht & Hc & HN & HP).
  rewrite <- Hp, E in Hd. rewrite <- Hp, E in Hsz. destruct l2 as [|x l2]; [done|].
  pose proof Hc as [-> _]. apply last_Some in Hlast as [m Em].
  assert (Hmd : NoDup ((m ++ [t]) ++ x :: l2)) by by rewrite <- Em.
  apply NoDup_app in Hmd as (_ & Hmd & Hxd).
  apply wp_bind. eapply wp_mono; [eapply (wp_back_links _ l2 x t N1 P1 h1 Hl1 Ht Hc)|].
  { apply NoDup_cons. split; [apply Hmd; set_solver|done]. }
  { unfold id. rewrite length_app in Hsz. simpl in Hsz. lia. }
  intros t' h2 (P2 & Hl3 & Hlk2 & Hlast2 & HP2).
  assert (Hlinks : links N1 P2 (head :: l1 ++ x :: l2)).
  { change (links N1 P2 ((head :: l1) ++ x :: l2)). rewrite Em, <- app_assoc. apply links_app.
    split; [|done]. rewrite Em in Hlk. eapply links_ext; [..|exact Hlk]; [done|].
    intros q Hq. apply HP2. apply Hmd. destruct m; [set_solver|]. simpl in Hq |- *. set_solver. }
  assert (Hl' : last (l1 ++ x :: l2) = Some t') by by rewrite last_app, Hlast2.
  assert (Hah : is_Some (N1 head)).
  { destruct (l1 ++ x :: l2) as [|y r] eqn:Er; [by destruct l1|].
    apply links_cons in Hlinks as [-> _]. eauto. }
  apply wp_bind. eapply wp_set_next; [done| |].
  { apply (chain_alive _ _ _ _ Hc). apply last_Some in Hlast2 as [? ->]. set_solver. }
  intros h3 Hl4. eapply wp_set_prev; [done|by apply (links_alive h2 N1)|].
  intros h4 Hl5. eapply HQ; [exact Hl5| |].
  - rewrite E. by apply links_close.
  - intros q Hq. pose proof Hq as Hq'. rewrite <- Hp, E in Hq.
    assert (t' ∈ l1 ++ x :: l2) by (apply last_Some in Hl' as [? ->]; set_solver).
    rewrite !upd_ne by set_solver. split; [by apply HN|]. rewrite HP2, HP; [done|set_solver|set_solver].
Qed.
End Merge.
