(* ===== verification/ListSortRun.v ===== *)
(** * ListSortRun: the levels of list_sort and its correctness

    [part[lev]] holds a sorted chain or nothing.  Chains of higher levels come from
    earlier elements, so that reading the levels from the highest to the lowest, and
    then the nodes not yet taken, gives a stable rearrangement of the list. *)

From stdpp Require Import sorting.
From S2P Require Import Prelude LinkedList LinkedListThm ListSortThm.

(** The levels read from the highest to the lowest. *)
Definition flat (ls : list (list ptr)) : list ptr := concat (reverse ls).

Lemma flat_app l1 l2 : flat (l1 ++ l2) = flat l2 ++ flat l1.
Proof. unfold flat. by rewrite reverse_app, concat_app. Qed.
Lemma flat_cons x l : flat (x :: l) = flat l ++ x.
Proof. unfold flat. rewrite reverse_cons, concat_app. simpl. by rewrite app_nil_r. Qed.
Lemma flat_empties n : flat (replicate n []) = [].
Proof. unfold flat. rewrite reverse_replicate. by induction n. Qed.
Lemma concat_empties n : concat (replicate n []) = @nil ptr.
Proof. by induction n. Qed.
Lemma flat_perm ls : flat ls ≡ₚ concat ls.
Proof. unfold flat. by rewrite reverse_Permutation. Qed.

Section Levels.
Context (cmp : ptr → ptr → Z) {O : cmp_order cmp}.

Lemma chains_ext N N' part ls : (∀ q, q ∈ concat ls → N' q = N q) →
  Forall2 (chain N) part ls → Forall2 (chain N') part ls.
Proof.
  intros HE H. induction H as [|p l part ls Hp _ IH]; constructor; simpl in HE.
  - eapply chain_ext; [|exact Hp]. set_solver.
  - apply IH. set_solver.
Qed.

Lemma chains_alive N part ls q : Forall2 (chain N) part ls → q ∈ concat ls → is_Some (N q).
Proof.
  induction 1 as [|p l part ls Hp _ IH]; simpl; [set_solver|].
  intros [Hq|Hq]%elem_of_app; [by eapply chain_alive|by apply IH].
Qed.

(** The carry through the levels: the full levels at the bottom are merged into [cur]. *)
Lemma wp_merge_levels ls : ∀ fuel part (lev : nat) cur lc N P h, has_links h N P →
  Forall2 (chain N) part ls → [] ∈ ls → chain N cur lc → Forall (sorted cmp) ls → sorted cmp lc →
  NoDup (concat ls ++ lc) → (length ls < fuel)%nat →
  wp (merge_levels cmp fuel (replicate lev NULL ++ part) (Z.of_nat lev) cur)
    (λ '(part', lev', cur') h', ∃ full tl part_tl N' lc', ls = full ++ [] :: tl ∧ [] ∉ full ∧
       part' = replicate (lev + length full) NULL ++ NULL :: part_tl ∧
       lev' = Z.of_nat (lev + length full) ∧ has_links h' N' P ∧ Forall2 (chain N') part_tl tl ∧
       chain N' cur' lc' ∧ sorted cmp lc' ∧ stable cmp lc' (flat full ++ lc) ∧
       lc' ≡ₚ concat full ++ lc ∧ (∀ q, q ∉ concat ls ++ lc → N' q = N q) ∧
       (∀ q, is_Some (N q) → is_Some (N' q))) h.
Proof.
  induction ls as [|la ls IH]; intros fuel part lev cur lc N P h Hl Hpt Hin Hc Hs Hsc Hd Hf; [set_solver|].
  inversion Hpt as [|p ? part0 ? Hp Hpt']; subst. destruct fuel as [|fuel]; [simpl in Hf; lia|].
  cbn [merge_levels]. apply wp_bind. eapply wp_lift.
  { rewrite rd_nat, lookup_app_r by (rewrite length_replicate; lia).
    rewrite length_replicate, Nat.sub_diag. done. }
  apply Forall_cons in Hs as [Hsa Hs]. rewrite (chain_null _ _ _ Hp).
  destruct (decide (la = [])) as [->|Hne].
  - apply wp_ret. exists [], ls, part0, N, lc. simpl in Hp. subst p.
    simpl. rewrite Nat.add_0_r. split_and!; try done; set_solver.
  - rewrite bool_decide_eq_false_2 by done. cbn [negb]. simpl in Hd. rewrite <- app_assoc in Hd.
    apply wp_bind. apply NoDup_app in Hd as Hd2. destruct Hd2 as (Hda & Hdis & Hd2).
    assert (Hdm : NoDup (la ++ lc)).
    { apply NoDup_app. split_and!; [done|set_solver|apply NoDup_app in Hd2; tauto]. }
    eapply (wp_merge_chains cmp la lc); [done..|]. intros h1 N1 cur1 Hl1 Hc1 HE1 HA1.
    apply wp_bind. eapply wp_lift.
    { rewrite wr_Some by (rewrite length_app, length_replicate; simpl; lia). done. }
    rewrite Nat2Z.id, insert_app_r_alt, length_replicate, Nat.sub_diag by (rewrite length_replicate; lia).
    simpl. replace (replicate lev NULL ++ NULL :: part0) with (replicate (S lev) NULL ++ part0)
      by (by rewrite replicate_S_end, <- app_assoc).
    replace (Z.of_nat lev + 1) with (Z.of_nat (S lev)) by lia.
    apply NoDup_app in Hd2 as (_ & Hdl & _).
    eapply wp_mono; [eapply (IH fuel part0 (S lev) cur1 (lmerge cmp la lc) N1 P h1 Hl1)|].
    + eapply chains_ext; [|exact Hpt']. intros q Hq. apply HE1. specialize (Hdl q Hq). set_solver.
    + apply elem_of_cons in Hin as [?|?]; [congruence|done].
    + done.
    + done.
    + by apply lmerge_sorted.
    + rewrite lmerge_perm. rewrite (Permutation_app_comm la), app_assoc, Permutation_app_comm. done.
    + simpl in Hf. lia.
    + intros [[part' lev'] cur'] h' (full & tl & ptl & N' & lc' & -> & Hnf & -> & -> & Hl' & Ht & Hc' & Hs' & Hst & Hpm & HE & HA).
      exists (la :: full), tl, ptl, N', lc'. simpl. rewrite !Nat.add_succ_r.
      split_and!; try done; [set_solver|..].
      * rewrite flat_cons, <- app_assoc, Hst. by rewrite lmerge_stable.
      * rewrite Hpm, lmerge_perm, !app_assoc. by rewrite (Permutation_app_comm (concat full)).
      * intros q Hq. rewrite concat_app in Hq. simpl in Hq.
        rewrite HE, HE1; [done|set_solver|]. rewrite lmerge_perm, concat_app. simpl. set_solver.
      * auto.
Qed.

(** The levels between two rounds: those above [k] are empty and level [k] is not,
    unless nothing has been taken yet; the elements read off the levels and the nodes
    still to come are a stable rearrangement of [orig]. *)
Record levels (N : ptr → option ptr) (part : list ptr) (ls : list (list ptr)) (k : nat)
    (rest orig : list ptr) : Prop :=
  { lv_chains : Forall2 (chain N) part ls;
    lv_length : length ls = 21%nat;
    lv_max : (k ≤ 19)%nat;
    lv_top : drop (S k) ls = replicate (20 - k) [];
    lv_used : ls !! k ≠ Some [] ∨ (k = 0%nat ∧ ls = replicate 21 []);
    lv_sorted : Forall (sorted cmp) ls;
    lv_stable : stable cmp (flat ls ++ rest) orig;
    lv_perm : concat ls ++ rest ≡ₚ orig }.

(** Where the carry ends: never above the level behind the highest one in use. *)
Lemma carry_level N part ls k rest orig full tl : levels N part ls k rest orig →
  ls = full ++ [] :: tl → [] ∉ full → (length full ≤ S k)%nat ∧ (length full = k → k = 0%nat).
Proof.
  intros [_ Hlen Hk Htop Hused _ _ _] E Hnf. split.
  - destruct (decide (length full ≤ S k)%nat); [done|]. exfalso.
    assert (Hl : ls !! S k = Some []).
    { replace (S k) with (S k + 0)%nat by lia. rewrite <- lookup_drop, Htop, lookup_replicate. split; [done|lia]. }
    rewrite E, lookup_app_l in Hl by lia. apply Hnf. by eapply list_elem_of_lookup_2.
  - intros <-. destruct Hused as [Hu|[? _]]; [|done]. destruct Hu.
    by rewrite E, lookup_app_r, Nat.sub_diag by lia.
Qed.

(** The invariant after a round, for the level [j] that the carry was put in. *)
Lemma levels_put N part lc j tl rest orig k' :
  Forall2 (chain N) part (replicate j [] ++ lc :: tl) → (length tl = 20 - j)%nat → (j ≤ k' ≤ 19)%nat →
  drop (k' - j) tl = replicate (20 - k') [] → lc ≠ [] → (j < k' → tl !! (k' - S j)%nat ≠ Some [])%nat →
  sorted cmp lc → Forall (sorted cmp) tl → stable cmp ((flat tl ++ lc) ++ rest) orig →
  (concat tl ++ lc) ++ rest ≡ₚ orig →
  levels N part (replicate j [] ++ lc :: tl) k' rest orig.
Proof.
  intros Hc Hlen Hk Htop Hne Hu Hs Hst Hstab Hperm. split; try done.
  - rewrite length_app, length_replicate. simpl. lia.
  - lia.
  - rewrite drop_app_ge by (rewrite length_replicate; lia). rewrite length_replicate.
    replace (S k' - j)%nat with (S (k' - j)) by lia. done.
  - left. rewrite lookup_app_r by (rewrite length_replicate; lia). rewrite length_replicate.
    destruct (decide (k' = j)) as [->|]; [rewrite Nat.sub_diag; simpl; congruence|].
    replace (k' - j)%nat with (S (k' - S j)) by lia. simpl. apply Hu. lia.
  - apply Forall_app. split; [apply Forall_replicate; constructor|by constructor].
  - by rewrite flat_app, flat_cons, flat_empties, app_nil_r.
  - rewrite concat_app. simpl. rewrite <- Hperm.
    rewrite concat_empties. simpl. by rewrite (Permutation_app_comm lc).
Qed.

Lemma chains_empty N n : Forall2 (chain N) (replicate n NULL) (replicate n []).
Proof. induction n; by constructor. Qed.

(** The choice of the level for the carry, with the cap at the last one. *)
Lemma put_level N N0 part ls k x rest orig full tl ptl cur lc :
  levels N0 part ls k (x :: rest) orig → ls = full ++ [] :: tl → [] ∉ full →
  Forall2 (chain N) ptl tl → chain N cur lc → lc ≠ [] → sorted cmp lc →
  stable cmp lc (flat full ++ [x]) → lc ≡ₚ concat full ++ [x] →
  let lev := Z.of_nat (length full) in
  let part1 := replicate (length full) NULL ++ NULL :: ptl in
  let lev' := if (Z.of_nat k <? lev) && (zlen part1 - 1 <=? lev) then lev - 1 else lev in
  ∃ part2 ls2 k2, wr part1 lev' cur = Some part2 ∧
    (if Z.of_nat k <? lev then lev' else Z.of_nat k) = Z.of_nat k2 ∧
    levels N part2 ls2 k2 rest orig.
Proof.
  intros HL E Hnf Hptl Hcur Hne Hs Hst Hpm lev part1.
  destruct (carry_level _ _ _ _ _ _ _ _ HL E Hnf) as [Hj1 Hj2].
  pose proof HL as [Hc Hlen Hk Htop Hu Hsorted Hstab Hperm].
  assert (Hl1 : (length full + length tl = 20)%nat).
  { rewrite E, length_app in Hlen. simpl in Hlen. lia. }
  assert (Hl2 : length ptl = length tl) by by eapply Forall2_length.
  assert (Hzl : zlen part1 = 21). { unfold part1. rewrite length_app, length_replicate. simpl. lia. }
  rewrite Hzl. assert (Hstl : Forall (sorted cmp) tl).
  { rewrite E in Hsorted. apply Forall_app in Hsorted as [_ Hsorted]. by apply Forall_cons in Hsorted as [_ ?]. }
  assert (Hstab2 : stable cmp ((flat tl ++ lc) ++ rest) orig).
  { rewrite <- Hstab, E, flat_app, flat_cons, app_nil_r, Hst, <- !app_assoc. done. }
  assert (Hperm2 : (concat tl ++ lc) ++ rest ≡ₚ orig).
  { rewrite <- Hperm, E, concat_app, Hpm. simpl. rewrite (Permutation_app_comm (concat tl)), <- !app_assoc.
    simpl. by rewrite (Permutation_middle (concat tl)). }
  assert (Hdt : ∀ m, (length full ≤ m)%nat → drop (S m) ls = drop (m - length full) tl).
  { intros m Hm. rewrite E, drop_app_ge by lia. by replace (S m - length full)%nat with (S (m - length full)) by lia. }
  assert (Htl : ∀ m, (k ≤ m)%nat → (length full ≤ m)%nat → drop (m - length full) tl = replicate (20 - m) []).
  { intros m Hkm Hm. rewrite <- Hdt by done. replace (S m) with (S k + (m - k))%nat by lia.
    rewrite <- drop_drop, Htop, drop_replicate. f_equal. lia. }
  assert (Hput : ∀ k2, (k ≤ k2 ≤ 19)%nat → (length full ≤ k2)%nat → (length full < k2 → k2 = k)%nat →
    levels N (replicate (length full) NULL ++ cur :: ptl) (replicate (length full) [] ++ lc :: tl) k2 rest orig).
  { intros k2 Hk2 Hjk2 Hkk. apply levels_put; try done; [|lia|lia|by apply Htl; lia|].
    - apply Forall2_app; [apply chains_empty|by constructor].
    - intros Hlt Habs. rewrite (Hkk Hlt) in *. destruct Hu as [Hu|[? _]]; [|lia]. apply Hu.
      rewrite E, lookup_app_r by lia. by replace (k - length full)%nat with (S (k - S (length full))) by lia. }
  assert (Hwr : wr part1 (Z.of_nat (length full)) cur = Some (replicate (length full) NULL ++ cur :: ptl)).
  { rewrite <- (length_replicate (length full) NULL) at 1. apply wr_mid. }
  destruct (Z.ltb_spec (Z.of_nat k) lev) as [Hlt|Hge]; subst lev;
    [destruct (Z.leb_spec (21 - 1) (Z.of_nat (length full))) as [Hcap|Hcap]|]; cbn [andb].
  - (* the last level takes the carry of all levels *)
    destruct tl; [|simpl in Hl1; lia]. destruct ptl; [|done].
    exists (replicate 19 NULL ++ cur :: [NULL]), (replicate 19 [] ++ lc :: [[]]), 19%nat. split_and!.
    + unfold part1. replace (length full) with 20%nat by (simpl in Hl1; lia).
      apply (wr_mid (replicate 19 NULL) NULL cur [NULL]).
    + simpl in Hl1. lia.
    + apply levels_put; try done; try lia; [|by repeat constructor].
      apply Forall2_app; [apply chains_empty|by repeat constructor].
  - eexists _, _, (length full). split_and!; [exact Hwr|done|]. apply Hput; lia.
  - eexists _, _, k. split_and!; [exact Hwr|done|]. apply Hput; lia.
Qed.

Lemma levels_nodup N part ls k rest orig : levels N part ls k rest orig → NoDup orig → NoDup (concat ls ++ rest).
Proof. intros [_ _ _ _ _ _ _ Hp]. by rewrite Hp. Qed.

Lemma levels_ext N N' part ls k rest orig : (∀ q, q ∈ concat ls → N' q = N q) →
  levels N part ls k rest orig → levels N' part ls k rest orig.
Proof. intros HE []. split; try done. by eapply chains_ext. Qed.

(** A level is free: the highest one always is. *)
Lemma levels_room N part ls k rest orig : levels N part ls k rest orig → [] ∈ ls.
Proof.
  intros [_ Hlen Hk Htop _ _ _ _]. apply (list_elem_of_lookup_2 _ (S k + (19 - k))%nat).
  rewrite <- lookup_drop, Htop, lookup_replicate. split; [done|lia].
Qed.

Lemma levels_done N part ls k orig : levels N part ls k [] orig → orig ≠ [] → ls !! k ≠ Some [].
Proof.
  intros [_ _ _ _ [Hu|[-> ->]] _ _ Hp] Hne; [done|]. simpl in Hp. by apply Permutation_nil in Hp.
Qed.

Lemma wp_sort_loop rest : ∀ fuel part ls k list N P orig h, has_links h N P → NoDup orig →
  chain N list rest → levels N part ls k rest orig → (length rest < fuel)%nat →
  wp (sort_loop cmp fuel part (Z.of_nat k) list) (λ '(part', m) h', ∃ N' ls' k',
    m = Z.of_nat k' ∧ has_links h' N' P ∧ levels N' part' ls' k' [] orig ∧
    (∀ q, q ∉ orig → N' q = N q) ∧ (∀ q, is_Some (N q) → is_Some (N' q))) h.
Proof.
  induction rest as [|x rest IH]; intros fuel part ls k list N P orig h Hl Hd Hc HL Hf;
    (destruct fuel as [|fuel]; [simpl in Hf; lia|]); cbn [sort_loop]; rewrite (chain_null _ _ _ Hc).
  - apply wp_ret. exists N, ls, k. split_and!; done.
  - rewrite bool_decide_eq_false_2 by done. cbn [negb]. destruct Hc as (-> & Hx & n & Hn & Hc).
    apply wp_bind. eapply wp_get_next; [done..|].
    apply wp_bind. eapply wp_set_next; [done|eauto|]. intros h1 Hl1.
    pose proof (levels_nodup _ _ _ _ _ _ HL Hd) as Hnd.
    assert (Hin : ∀ q, q ∈ concat ls ++ x :: rest → q ∈ orig) by (intros q; by rewrite (lv_perm _ _ _ _ _ _ HL)).
    apply NoDup_app in Hnd as (Hn1 & Hn2 & Hn3). apply NoDup_cons in Hn3 as [Hxr Hn3].
    assert (Hxl : x ∉ concat ls) by (intros Hxl; apply (Hn2 x Hxl); set_solver).
    apply wp_bind. eapply wp_mono; [eapply (wp_merge_levels ls _ part 0 x [x] _ _ h1 Hl1)|].
    + eapply chains_ext; [|by destruct HL]. intros q Hq. apply upd_ne. congruence.
    + by eapply levels_room.
    + split_and!; [done..|]. exists NULL. split; [apply upd_eq|done].
    + by destruct HL.
    + apply sorted_cons_iff. split; [set_solver|constructor].
    + apply NoDup_app. split_and!; [done|set_solver|apply NoDup_singleton].
    + rewrite (Forall2_length _ _ _ (lv_chains _ _ _ _ _ _ HL)). lia.
    + intros [[part1 lev] cur] h2 (full & tl & ptl & N2 & lc & E & Hnf & -> & -> & Hl2 & Hptl & Hcur & Hs & Hst & Hpm & HE & HA).
      cbn [Nat.add] in *.
      assert (Hlc : lc ≠ []). { intros ->. apply Permutation_nil in Hpm. by destruct (concat full). }
      destruct (put_level N2 N part ls k x rest orig full tl ptl cur lc) as (part2 & ls2 & k2 & Hw & Hk2 & HL2);
        [done..|].
      apply wp_bind. eapply wp_lift; [exact Hw|]. rewrite Hk2.
      eapply wp_mono; [eapply (IH fuel part2 ls2 k2 n N2 P orig h2); try done|].
      * eapply chain_ext; [|exact Hc]. intros q Hq. rewrite HE; [apply upd_ne; congruence|].
        intros [Hq2|Hq2]%elem_of_app; [apply (Hn2 q Hq2); set_solver|set_solver].
      * simpl in Hf. lia.
      * intros [part3 m] h3 (N3 & ls3 & k3 & -> & Hl3 & HL3 & HE3 & HA3).
        exists N3, ls3, k3. split_and!; try done.
        -- intros q Hq. rewrite HE3, HE by set_solver. apply upd_ne. intros ->. apply Hq, Hin. set_solver.
        -- intros q Hq. by apply HA3, HA, upd_is_Some.
Qed.

(** The lower levels are merged upwards. *)
Lemma wp_collect N P part ls k orig (Q : ptr → nodes → Prop) h :
  has_links h N P → levels N part ls k [] orig → NoDup orig →
  (∀ h' N' list la, has_links h' N' P → chain N' list la → sorted cmp la →
     stable cmp la (flat (take k ls)) → la ≡ₚ concat (take k ls) →
     Forall2 (chain N') (drop k part) (drop k ls) →
     (∀ q, q ∉ orig → N' q = N q) → (∀ q, is_Some (N q) → is_Some (N' q)) → Q list h') →
  wp (for_fold (Z.to_nat (Z.of_nat k)) 0 NULL (λ lev list,
        p ← lift (rd part lev); if negb (p =? NULL) then merge cmp p list else mret list)) Q h.
Proof.
  intros Hl HL Hd HQ. rewrite Nat2Z.id. pose proof HL as [Hc Hlen Hk _ _ Hs _ Hp].
  pose proof (levels_nodup _ _ _ _ _ _ HL Hd) as Hnd. rewrite app_nil_r in Hp, Hnd.
  eapply (wp_for_fold (λ lev list h', ∃ N' la, has_links h' N' P ∧ chain N' list la ∧ sorted cmp la ∧
    stable cmp la (flat (take (Z.to_nat lev) ls)) ∧ la ≡ₚ concat (take (Z.to_nat lev) ls) ∧
    Forall2 (chain N') (drop (Z.to_nat lev) part) (drop (Z.to_nat lev) ls) ∧
    (∀ q, q ∉ orig → N' q = N q) ∧ (∀ q, is_Some (N q) → is_Some (N' q)))).
  - exists N, []. rewrite take_0, !drop_0. split_and!; try done. constructor.
  - intros i list h' Hi (N' & la & Hl' & Hcl & Hsl & Hst & Hpm & Hdr & HE & HA).
    destruct (lookup_lt_is_Some_2 ls (Z.to_nat i) ltac:(lia)) as [li Eli].
    pose proof (Forall2_length _ _ _ Hc) as Hlp. pose proof (Forall_lookup_1 _ _ _ _ Hs Eli) as Hsi.
    destruct (lookup_lt_is_Some_2 part (Z.to_nat i) ltac:(lia)) as [pi Epi].
    rewrite (drop_S _ _ _ Eli), (drop_S _ _ _ Epi) in Hdr. apply Forall2_cons in Hdr as [Hci Hdr].
    replace (Z.to_nat (i + 1)) with (S (Z.to_nat i)) by lia.
    rewrite (take_S_r _ _ _ Eli), flat_app, concat_app.
    apply wp_bind. eapply wp_lift; [unfold rd; destruct (Z.leb_spec 0 i); [exact Epi|lia]|].
    rewrite (chain_null _ _ _ Hci). change (concat [li]) with (li ++ []). rewrite app_nil_r.
    destruct (decide (li = [])) as [->|Hne].
    + apply wp_ret. exists N', la. rewrite !app_nil_r. split_and!; done.
    + rewrite bool_decide_eq_false_2 by done. cbn [negb].
      rewrite <- (take_drop_middle _ _ _ Eli), concat_app in Hnd. simpl in Hnd.
      apply NoDup_app in Hnd as (Hd1 & Hd12 & Hd2). apply NoDup_app in Hd2 as (Hd2 & Hd23 & Hd3).
      assert (Hin : ∀ q, q ∈ li ++ la → q ∈ orig).
      { intros q. rewrite <- Hp, <- (take_drop_middle _ _ _ Eli), concat_app, Hpm. simpl. set_solver. }
      eapply (wp_merge_chains cmp li la); [done|done|done| |].
      { rewrite Hpm. apply NoDup_app. split_and!; [done| |done]. set_solver. }
      intros h2 N2 p2 Hl2 Hc2 HE2 HA2. exists N2, (lmerge cmp li la). split_and!; try done.
      * by apply lmerge_sorted.
      * rewrite flat_cons, <- Hst. by apply lmerge_stable.
      * rewrite lmerge_perm, Hpm. apply Permutation_app_comm.
      * eapply chains_ext; [|exact Hdr]. intros q Hq. apply HE2. rewrite Hpm. set_solver.
      * intros q Hq. rewrite HE2, HE by (try done; intros Hq2; by apply Hq, Hin). done.
      * auto.
  - intros list h' (N' & la & Hl' & Hcl & Hsl & Hst & Hpm & Hdr & HE & HA).
    rewrite Z.add_0_l, Nat2Z.id in *. by eapply HQ.
Qed.
End Levels.

(** A ring that was put together in another order. *)
Lemma world_rearrange head l l' w0 h h' N P : world_ok (Ring (head :: l) :: w0) h →
  has_links h' N P → ring N P (head :: l') → l' ≡ₚ l →
  (∀ q, q ∉ head :: l → N q = nxt h q ∧ P q = prv h q) → world_ok (Ring (head :: l') :: w0) h'.
Proof.
  intros Hw Hl Hr Hp HE. apply (world_frame [Ring (head :: l)] [Ring (head :: l')] w0 h); [exact Hw| | |].
  - split; [intros q Hq|intros q Hq; apply alive_nxt; destruct Hl as [-> _]].
    + unfold all_nodes in Hq. simpl in Hq. rewrite app_nil_r in Hq. destruct Hl as [-> ->]. by apply HE.
    + destruct (decide (q ∈ head :: l)) as [Hin|Hout].
      * refine (proj1 (ring_alive _ _ _ q Hr _)). by rewrite Hp.
      * destruct (HE q Hout) as [-> _]. by apply alive_nxt.
  - unfold all_nodes. simpl. by rewrite !app_nil_r, Hp.
  - apply Forall_singleton. by eapply ring_has_links.
Qed.

(** [list_sort] on a ring of at least one element. *)
Lemma wp_list_sort cmp {O : cmp_order cmp} head x l w0 h :
  world_ok (Ring (head :: x :: l) :: w0) h → h !! NULL = None →
  wp (list_sort cmp head) (λ _ h', ∃ l', sorted cmp l' ∧ stable cmp l' (x :: l) ∧ l' ≡ₚ x :: l ∧
    world_ok (Ring (head :: l') :: w0) h') h.
Proof.
  intros Hw Hnull. pose proof Hw as [_ [Hr _]%Forall_cons]. simpl in Hr. set (orig := x :: l) in *.
  assert (Hz : NULL ∉ head :: orig).
  { intros Hz. destruct (cell_alive h (Ring (head :: orig)) NULL Hr Hz). congruence. }
  pose proof (ring_next _ _ _ _ Hr) as Hn. pose proof (ring_prev _ _ _ _ Hr) as Hp.
  pose proof Hr as [Hd Hlk]%ring_cons. apply NoDup_cons in Hd as [Hh Hd].
  destruct (last orig) as [t|] eqn:Et; [|by apply last_None in Et]. simpl in Hn, Hp.
  assert (Hto : t ∈ orig) by (apply last_Some in Et as [? ->]; set_solver).
  assert (Hal : ∀ q, q ∈ head :: orig → is_Some (nxt h q)) by (intros q Hq; apply (ring_alive _ _ _ _ Hr Hq)).
  apply wp_bind. eapply wp_list_empty_ring; [exact Hr|].
  apply wp_bind. eapply wp_get_prev; [apply has_links_self|exact Hp|].
  apply wp_bind. eapply wp_set_next; [apply has_links_self|apply Hal; set_solver|]. intros h1 Hl1.
  apply wp_bind. eapply wp_get_next; [exact Hl1|rewrite upd_ne by set_solver; exact Hn|].
  apply wp_bind, wp_gets. apply links_cons in Hlk as (_ & _ & Hlk).
  assert (Hc1 : chain (upd (nxt h) t NULL) x orig) by (apply (links_chain _ (prv h) x l head t); [exact Hd|exact Hlk|done|set_solver]).
  assert (Hsz : (length orig ≤ size h1)%nat).
  { eapply nodes_fuel; [exact Hl1|done|]. intros q Hq. by apply (chain_alive _ _ _ _ Hc1). }
  apply wp_bind. eapply wp_mono.
  { eapply (wp_sort_loop cmp orig _ _ (replicate 21 []) 0 x _ _ orig h1 Hl1 Hd Hc1);
      [|unfold id; lia]. split; try done; [apply chains_empty|lia|by right|].
    apply Forall_replicate. constructor. }
  intros [part m] h2 (N2 & ls & k & -> & Hl2 & HL & HE2 & HA2). pose proof HL as [Hc Hlen Hk Htop _ Hs Hst Hpm].
  rewrite app_nil_r in Hst, Hpm. apply wp_bind. eapply (wp_collect cmp); [exact Hl2|exact HL|done|].
  intros h3 N3 list la Hl3 Hcl Hsl Hstl Hpl Hdr HE3 HA3.
  destruct (lookup_lt_is_Some_2 ls k ltac:(lia)) as [lk Elk].
  destruct (lookup_lt_is_Some_2 part k) as [pk Epk]; [rewrite (Forall2_length _ _ _ Hc); lia|].
  rewrite (drop_S _ _ _ Elk), (drop_S _ _ _ Epk) in Hdr. apply Forall2_cons in Hdr as [Hck _].
  apply wp_bind. eapply wp_lift; [rewrite rd_nat; exact Epk|].
  assert (Els : ls = take k ls ++ lk :: replicate (20 - k) []).
  { by rewrite <- (take_drop_middle _ _ _ Elk) at 1; rewrite Htop. }
  assert (Hsum : lk ++ la ≡ₚ orig).
  { rewrite <- Hpm, Els, concat_app, Hpl. simpl. rewrite concat_empties, app_nil_r. apply Permutation_app_comm. }
  assert (Hslk : sorted cmp lk) by (by eapply Forall_lookup_1).
  assert (Hne : lk ≠ []) by (intros ->; by eapply (levels_done cmp); [exact HL| |]).
  eapply (wp_restore cmp lk la); [exact Hl3|done|done| | |by destruct lk|].
  { apply NoDup_cons. rewrite Hsum. done. }
  { apply HA3, HA2, upd_is_Some, Hal. set_solver. }
  intros h4 N4 P4 Hl4 Hr4 HE4. exists (lmerge cmp lk la).
  assert (Hperm : lmerge cmp lk la ≡ₚ orig) by (by rewrite lmerge_perm).
  split_and!; [by apply lmerge_sorted| |done|].
  - rewrite lmerge_stable by done. rewrite Hstl, <- Hst. rewrite Els at 2.
    by rewrite flat_app, flat_cons, flat_empties.
  - eapply (world_rearrange head orig); [exact Hw|exact Hl4|done|done|]. intros q Hq.
    destruct (HE4 q) as [-> ->]; [by rewrite Hsum|]. split; [|done].
    rewrite HE3, HE2, upd_ne; [done|set_solver..].
Qed.

(** C26: list_sort sorts stably.  On a ring [head :: l] and a comparison that is a total
    preorder it terminates without an access outside the nodes and leaves a ring
    [head :: l'] with correct links in both directions, where [l'] holds the nodes of
    [l] in ascending order and equivalent nodes in the order they had; other lists and
    nodes stay as they are. *)
Theorem list_sort_stable cmp {O : cmp_order cmp} head l w0 h :
  world_ok (Ring (head :: l) :: w0) h → h !! NULL = None →
  wp (list_sort cmp head) (λ _ h', ∃ l', sorted cmp l' ∧ stable cmp l' l ∧ l' ≡ₚ l ∧
    world_ok (Ring (head :: l') :: w0) h') h.
Proof.
  intros Hw Hn. destruct l as [|x l]; [|by apply wp_list_sort].
  pose proof Hw as [_ [Hr _]%Forall_cons]. apply wp_bind. eapply wp_list_empty_ring; [exact Hr|].
  apply wp_ret. exists []. split_and!; try done. constructor.
Qed.

(** Nodes at multiples of 16 with the keys address / 16 mod 3. *)
Definition demo_cmp (a b : ptr) : Z := (a / 16) `mod` 3 - (b / 16) `mod` 3.
#[local] Instance demo_order : cmp_order demo_cmp.
Proof. unfold demo_cmp. split; intros; lia. Qed.
Definition demo_list : nodes :=
  <[16 := ListHead 32 96]> (<[32 := ListHead 48 16]> (<[48 := ListHead 64 32]>
  (<[64 := ListHead 80 48]> (<[80 := ListHead 96 64]> (<[96 := ListHead 16 80]> ∅))))).

Example list_sort_stable_witness :
  wp (list_sort demo_cmp 16) (λ _ h', ∃ l', sorted demo_cmp l' ∧ stable demo_cmp l' [32; 48; 64; 80; 96] ∧
        l' ≡ₚ [32; 48; 64; 80; 96] ∧ world_ok [Ring (16 :: l')] h') demo_list
  ∧ (λ r : unit * nodes, r.2 !! 16 ≫= λ n, r.2 !! next n ≫= λ m, Some (next n, next m)) <$>
      list_sort demo_cmp 16 demo_list = Some (Some (48, 96)).
Proof.
  split; [|vm_compute; reflexivity].
  apply (list_sort_stable demo_cmp 16 [32; 48; 64; 80; 96] [] demo_list); [|reflexivity].
  assert (Hd : NoDup [16; 32; 48; 64; 80; 96]) by (repeat constructor; set_solver).
  split; [exact Hd|]. apply Forall_singleton, ring_cons. split; [exact Hd|].
  repeat (apply links_cons; split_and!; [reflexivity|reflexivity|]). exact I.
Defined.
