(* ===== verification/Sort.v ===== *)
(** * Sort: the heap sort and the binary search of lib/

    [lib/sort.c] and [lib/bsearch.c] on a byte memory: [base] is the offset of the
    array in it.  The comparison functions read the bytes of two elements; a swap
    function of the caller works on the memory.  Offsets are kept in [int] and mixed
    with the [size_t] element size, with the conversions the code makes; the
    product [r * 2] of an [int] wraps, as the kernel is built with
    -fno-strict-overflow (Makefile:706). *)

From S2P Require Import Prelude.

(** [len] bytes at offset [off]. *)
Definition mem_bytes (off len : Z) : prog (list Z) (list Z) := λ b,
  if (0 <=? off) && (0 <=? len) && (off + len <=? zlen b)
  then Some (take (Z.to_nat len) (drop (Z.to_nat off) b), b) else None.
Definition byte_at (off : Z) : prog (list Z) Z := λ b, x ← rd b off; Some (x, b).
Definition set_byte (off x : Z) : prog (list Z) unit := λ b, b' ← wr b off x; Some (tt, b').

Definition u32_at (off : Z) : prog (list Z) Z :=
  b0 ← byte_at off; b1 ← byte_at (off + 1); b2 ← byte_at (off + 2); b3 ← byte_at (off + 3);
  mret (b0 + b1 * 2 ^ 8 + b2 * 2 ^ 16 + b3 * 2 ^ 24).
Definition set_u32 (off x : Z) : prog (list Z) unit :=
  _ ← set_byte off (u8 x); _ ← set_byte (off + 1) (u8 (x >>u 8));
  _ ← set_byte (off + 2) (u8 (x >>u 16)); set_byte (off + 3) (u8 (x >>u 24)).

Definition u32_swap (a b size : Z) : prog (list Z) unit :=
  t ← u32_at a;
  x ← u32_at b;
  _ ← set_u32 a x;
  set_u32 b t.

(** The [do] loop runs [size] times, at least once. *)
Fixpoint generic_swap_loop (fuel : nat) (a b size : Z) : prog (list Z) unit :=
  match fuel with
  | O => wrong
  | S fuel =>
      t ← byte_at a;
      x ← byte_at b;
      _ ← set_byte a x;
      _ ← set_byte b t;
      if 0 <? size - 1 then generic_swap_loop fuel (a + 1) (b + 1) (size - 1) else mret tt
  end.
Definition generic_swap (a b size : Z) : prog (list Z) unit :=
  generic_swap_loop (S (Z.to_nat size)) a b size.

Section Sort.
Context (cmp_func : list Z → list Z → Z).

Definition compare (size a b : Z) : prog (list Z) Z :=
  x ← mem_bytes a size; y ← mem_bytes b size; mret (cmp_func x y).

(** The inner loop, with the bound [n] (an [int]); the offsets grow with every round. *)
Fixpoint sift (fuel : nat) (swap : Z → Z → Z → prog (list Z) unit) (base size n r : Z)
  : prog (list Z) unit :=
  match fuel with
  | O => wrong
  | S fuel =>
      if u64 (s32 (r * 2) + size) <? u64 n then
        let c := s32 (u64 (s32 (r * 2) + size)) in
        greater ← (if u64 c <? u64 (n - size) then
                     d ← compare size (base + c) (base + c + size); mret (d <? 0)
                   else mret false);
        let c := if (greater : bool) then s32 (u64 (c + size)) else c in
        d ← compare size (base + r) (base + c);
        if 0 <=? d then mret tt
        else
          _ ← swap (base + r) (base + c) size;
          sift fuel swap base size n c
      else mret tt
  end.

Fixpoint heapify_loop (fuel : nat) (swap : Z → Z → Z → prog (list Z) unit) (base size n i : Z)
  : prog (list Z) unit :=
  match fuel with
  | O => wrong
  | S fuel' =>
      if 0 <=? i then
        _ ← sift (S (Z.to_nat n)) swap base size n i;
        heapify_loop fuel' swap base size n (s32 (u64 (i - size)))
      else mret tt
  end.

Fixpoint extract_loop (fuel : nat) (swap : Z → Z → Z → prog (list Z) unit) (base size i : Z)
  : prog (list Z) unit :=
  match fuel with
  | O => wrong
  | S fuel' =>
      if 0 <? i then
        _ ← swap base (base + i) size;
        _ ← sift (S (Z.to_nat i)) swap base size i 0;
        extract_loop fuel' swap base size (s32 (u64 (i - size)))
      else mret tt
  end.

Definition sort (base num size : Z) (swap_func : option (Z → Z → Z → prog (list Z) unit))
  : prog (list Z) unit :=
  let i := s32 (u64 (u64 (num / 2 - 1) * size)) in
  let n := s32 (u64 (num * size)) in
  let swap := match swap_func with
              | Some f => f
              | None => if size =? 4 then u32_swap else generic_swap
              end in
  _ ← heapify_loop (S (Z.to_nat num)) swap base size n i;
  extract_loop (S (Z.to_nat num)) swap base size (s32 (u64 (n - size))).
End Sort.

(** The loop of bsearch: the interval is halved in every round, at most 64 times. *)
Fixpoint bsearch_loop (fuel : nat) (cmp : list Z → Z) (base size start end_ : Z)
  : prog (list Z) (option Z) :=
  match fuel with
  | O => wrong
  | S fuel =>
      if start <? end_ then
        let mid := start + (end_ - start) / 2 in
        x ← mem_bytes (base + mid * size) size;
        let result := cmp x in
        if result <? 0 then bsearch_loop fuel cmp base size start mid
        else if 0 <? result then bsearch_loop fuel cmp base size (mid + 1) end_
        else mret (Some (base + mid * size))
      else mret None
  end.

(** [cmp] is the comparison with the key; the result is an offset. *)
Definition bsearch (cmp : list Z → Z) (base num size : Z) : prog (list Z) (option Z) :=
  bsearch_loop 65 cmp base size 0 num.
