(* ===== verification/SortThm.v ===== *)
(** * SortThm: sort sorts, bsearch finds

    The byte array is a sequence of elements; the proof of the heap sort works on
    that sequence. *)

From stdpp Require Import sorting.
From S2P Require Import Prelude Sort.

(** ** The order on elements *)

Notation elt := (list Z).

(** What sort asks of its comparison function: signs that agree with a total preorder. *)
Class cmp_laws (cmp : elt → elt → Z) : Prop :=
  { cmp_sign x y : cmp x y < 0 ↔ 0 < cmp y x;
    cmp_le_trans x y z : cmp x y ≤ 0 → cmp y z ≤ 0 → cmp x z ≤ 0 }.

Lemma cmp_ge cmp `{!cmp_laws cmp} x y : 0 ≤ cmp x y ↔ cmp y x ≤ 0.
Proof. pose proof (cmp_sign x y). lia. Qed.
Lemma cmp_le_refl cmp `{!cmp_laws cmp} x : cmp x x ≤ 0.
Proof. pose proof (cmp_sign x x). lia. Qed.

(** ** Exchanging two elements *)

Definition exchange {A} (i j : Z) (es : list A) : list A :=
  match rd es i, rd es j with
  | Some x, Some y => <[Z.to_nat i := y]> (<[Z.to_nat j := x]> es)
  | _, _ => es
  end.

Lemma exchange_split {A} (l1 : list A) x l2 y l3 :
  exchange (zlen l1) (zlen l1 + 1 + zlen l2) (l1 ++ x :: l2 ++ y :: l3) = l1 ++ y :: l2 ++ x :: l3.
Proof.
  unfold exchange. rewrite rd_nat, list_lookup_middle by done.
  replace (zlen l1 + 1 + zlen l2) with (Z.of_nat (length l1 + S (length l2))) by lia.
  rewrite rd_nat. rewrite lookup_app_r by lia.
  replace (length l1 + S (length l2) - length l1)%nat with (S (length l2)) by lia.
  simpl. rewrite list_lookup_middle by done. rewrite !Nat2Z.id.
  rewrite insert_app_r. simpl. rewrite <- (Nat.add_0_r (length l2)), insert_app_r. simpl.
  rewrite <- (Nat.add_0_r (length l1)) at 1. by rewrite insert_app_r.
Qed.

Lemma split_two {A} (es : list A) i j : 0 ≤ i < j → j < zlen es → ∃ l1 x l2 y l3,
  es = l1 ++ x :: l2 ++ y :: l3 ∧ i = zlen l1 ∧ j = zlen l1 + 1 + zlen l2.
Proof.
  intros Hi Hj. destruct (rd_in es i) as [x Hx]; [lia|]. unfold rd in Hx.
  destruct (Z.leb_spec 0 i); [|lia]. apply list_elem_of_split_length in Hx as (l1 & r & -> & E).
  rewrite length_app in Hj. simpl in Hj.
  destruct (rd_in r (j - i - 1)) as [y Hy]; [lia|]. unfold rd in Hy.
  destruct (Z.leb_spec 0 (j - i - 1)); [|lia].
  apply list_elem_of_split_length in Hy as (l2 & l3 & -> & E2).
  exists l1, x, l2, y, l3. split; [done|]. lia.
Qed.

Lemma exchange_perm {A} (es : list A) i j : 0 ≤ i < j → j < zlen es → exchange i j es ≡ₚ es.
Proof.
  intros Hi Hj. destruct (split_two es i j Hi Hj) as (l1 & x & l2 & y & l3 & -> & -> & ->).
  rewrite exchange_split. apply Permutation_app_head.
  rewrite <- !Permutation_middle. apply Permutation_swap.
Qed.

Lemma length_exchange {A} (es : list A) i j : length (exchange i j es) = length es.
Proof. unfold exchange. repeat case_match; by rewrite ?length_insert. Qed.

Lemma rd_exchange {A} (es : list A) i j k : 0 ≤ i < zlen es → 0 ≤ j < zlen es →
  rd (exchange i j es) k = if k =? i then rd es j else if k =? j then rd es i else rd es k.
Proof.
  intros Hi Hj. unfold exchange. destruct (rd_in es i Hi) as [x Hx], (rd_in es j Hj) as [y Hy].
  rewrite Hx, Hy. rewrite rd_insert by (rewrite length_insert; lia). by rewrite rd_insert by lia.
Qed.

(** ** Arrays of elements in the memory *)

Section Array.
Context (pre post : list Z) (size : Z).

Definition arr (es : list elt) (b : list Z) : Prop :=
  b = pre ++ concat es ++ post ∧ Forall (λ e : elt, zlen e = size) es ∧ Forall (λ x, is_u8 x) b.

Lemma length_elts (es : list elt) : Forall (λ e : elt, zlen e = size) es → zlen (concat es) = zlen es * size.
Proof.
  induction 1 as [|e es He _ IH]; [done|]. simpl. rewrite length_app. lia.
Qed.

Lemma wp_bytes_mid p x q (Q : list Z → list Z → Prop) off len :
  off = zlen p → len = zlen x → Q x (p ++ x ++ q) → wp (mem_bytes off len) Q (p ++ x ++ q).
Proof.
  intros -> -> HQ. unfold wp, mem_bytes. rewrite !length_app.
  destruct (Z.leb_spec 0 (zlen p)), (Z.leb_spec 0 (zlen x)); try lia.
  destruct (Z.leb_spec (zlen p + zlen x) (Z.of_nat (length p + (length x + length q)))); [|lia]. simpl.
  by rewrite !Nat2Z.id, drop_app_length, take_app_length.
Qed.

Lemma wp_elt es b k x (Q : list Z → list Z → Prop) :
  arr es b → rd es k = Some x → Q x b → wp (mem_bytes (zlen pre + k * size) size) Q b.
Proof.
  intros (Hb & Hes & _) Hx. unfold rd in Hx. destruct (Z.leb_spec 0 k); [|done].
  apply list_elem_of_split_length in Hx as (l1 & l2 & -> & E).
  apply Forall_app in Hes as [H1 H2]. apply Forall_cons in H2 as [Hsx _].
  assert (Eb : b = (pre ++ concat l1) ++ x ++ (concat l2 ++ post)).
  { rewrite Hb, concat_app. simpl. by rewrite <- !app_assoc. }
  rewrite Eb. apply wp_bytes_mid; [|done].
  rewrite length_app, Nat2Z.inj_add, length_elts by done. lia.
Qed.

(** What sort asks of its swap function: it exchanges two elements. *)
Definition swap_ok (swap : Z → Z → Z → prog (list Z) unit) : Prop := ∀ p x m y q,
  zlen x = size → zlen y = size → Forall (λ c, is_u8 c) (p ++ x ++ m ++ y ++ q) →
  wp (swap (zlen p) (zlen p + size + zlen m) size) (λ _ b', b' = p ++ y ++ m ++ x ++ q)
     (p ++ x ++ m ++ y ++ q).

Lemma wp_swap swap es b i j (Q : unit → list Z → Prop) : swap_ok swap → arr es b → 0 ≤ i < j → j < zlen es →
  (∀ b', arr (exchange i j es) b' → Q tt b') →
  wp (swap (zlen pre + i * size) (zlen pre + j * size) size) Q b.
Proof.
  intros Hs (Hb & Hes & Hu) Hi Hj HQ.
  destruct (split_two es i j Hi Hj) as (l1 & x & l2 & y & l3 & -> & -> & ->).
  apply Forall_app in Hes as [H1 H2]. apply Forall_cons in H2 as [Hx H2].
  apply Forall_app in H2 as [H2 H3]. apply Forall_cons in H3 as [Hy H3].
  assert (Eb : b = (pre ++ concat l1) ++ x ++ concat l2 ++ y ++ (concat l3 ++ post)).
  { rewrite Hb, concat_app. simpl. rewrite concat_app. simpl. by rewrite <- !app_assoc. }
  rewrite exchange_split in HQ. rewrite Eb in *. clear Hb.
  assert (Hp : zlen (pre ++ concat l1) = zlen pre + zlen l1 * size).
  { rewrite length_app, Nat2Z.inj_add, length_elts by done. lia. }
  assert (Hq : zlen pre + (zlen l1 + 1 + zlen l2) * size = zlen (pre ++ concat l1) + size + zlen (concat l2)).
  { rewrite Hp, length_elts by done. lia. }
  rewrite Hq, <- Hp. eapply wp_mono; [by apply Hs|]. intros [] b' ->. apply HQ. split_and!.
  - rewrite concat_app. simpl. rewrite concat_app. simpl. by rewrite <- !app_assoc.
  - apply Forall_app. split; [done|]. constructor; [done|]. apply Forall_app. split; [done|]. by constructor.
  - rewrite !Forall_app in *. tauto.
Qed.
End Array.

(** ** The swap functions of sort.c *)

Lemma wp_byte_at p x q (Q : Z → list Z → Prop) off :
  off = zlen p → Q x (p ++ x :: q) → wp (byte_at off) Q (p ++ x :: q).
Proof. intros ->. unfold wp, byte_at. by rewrite rd_mid. Qed.
Lemma wp_set_byte p x q y (Q : unit → list Z → Prop) off :
  off = zlen p → Q tt (p ++ y :: q) → wp (set_byte off y) Q (p ++ x :: q).
Proof. intros ->. unfold wp, set_byte. by rewrite wr_mid. Qed.

Lemma generic_swap_loop_ok x : ∀ fuel p m y q size, zlen x = size → zlen y = size → x ≠ [] →
  (length x ≤ fuel)%nat →
  wp (generic_swap_loop fuel (zlen p) (zlen p + size + zlen m) size)
     (λ _ b', b' = p ++ y ++ m ++ x ++ q) (p ++ x ++ m ++ y ++ q).
Proof.
  induction x as [|a x IH]; intros fuel p m y q size Hx Hy Hne Hf; [done|].
  destruct y as [|b y]; [simpl in *; lia|]. destruct fuel as [|fuel]; [simpl in *; lia|].
  cbn [generic_swap_loop]. simpl in Hx, Hy.
  assert (E : ∀ r : list Z, p ++ a :: x ++ m ++ r = (p ++ a :: x ++ m) ++ r).
  { intros r. by rewrite <- !app_assoc; simpl; rewrite <- app_assoc. }
  assert (E' : ∀ r : list Z, p ++ b :: x ++ m ++ r = (p ++ b :: x ++ m) ++ r).
  { intros r. by rewrite <- !app_assoc; simpl; rewrite <- app_assoc. }
  assert (Hoff : ∀ c : Z, zlen p + size + zlen m = zlen (p ++ c :: x ++ m)).
  { intros c. rewrite length_app. simpl. rewrite length_app. lia. }
  apply wp_bind. apply wp_byte_at; [done|]. apply wp_bind. simpl. rewrite E.
  apply wp_byte_at; [apply Hoff|]. rewrite <- E. apply wp_bind. eapply wp_set_byte; [done|].
  apply wp_bind. rewrite E'. eapply wp_set_byte; [apply Hoff|]. rewrite <- E'.
  replace (p ++ b :: x ++ m ++ a :: y ++ q) with ((p ++ [b]) ++ x ++ (m ++ [a]) ++ y ++ q)
    by (by rewrite <- !app_assoc).
  destruct (Z.ltb_spec 0 (size - 1)).
  - replace (zlen p + 1) with (zlen (p ++ [b])) by (rewrite length_app; simpl; lia).
    replace (zlen p + size + zlen m + 1) with (zlen (p ++ [b]) + (size - 1) + zlen (m ++ [a]))
      by (rewrite !length_app; simpl; lia).
    eapply wp_mono; [apply IH; [lia|lia|intros ->; simpl in *; lia|simpl in *; lia]|].
    intros [] b' ->. by rewrite <- !app_assoc.
  - apply wp_ret. destruct x; [|simpl in *; lia]. destruct y; [|simpl in *; lia].
    by rewrite <- !app_assoc.
Qed.

Lemma generic_swap_ok size : 0 < size → swap_ok size generic_swap.
Proof.
  intros Hs p x m y q Hx Hy _. apply generic_swap_loop_ok; [done|done| |lia].
  intros ->. simpl in *. lia.
Qed.

Definition u32_of (b0 b1 b2 b3 : Z) : Z := b0 + b1 * 2 ^ 8 + b2 * 2 ^ 16 + b3 * 2 ^ 24.

Lemma wp_u32_at p b0 b1 b2 b3 q (Q : Z → list Z → Prop) off : off = zlen p →
  Q (u32_of b0 b1 b2 b3) (p ++ [b0; b1; b2; b3] ++ q) → wp (u32_at off) Q (p ++ [b0; b1; b2; b3] ++ q).
Proof.
  intros -> HQ. unfold u32_at. simpl in *. apply wp_bind. apply wp_byte_at; [done|].
  replace (p ++ b0 :: b1 :: b2 :: b3 :: q) with ((p ++ [b0]) ++ b1 :: b2 :: b3 :: q) in * by by rewrite <- app_assoc.
  apply wp_bind. apply wp_byte_at; [rewrite length_app; simpl; lia|].
  replace ((p ++ [b0]) ++ b1 :: b2 :: b3 :: q) with ((p ++ [b0; b1]) ++ b2 :: b3 :: q) in * by by rewrite <- !app_assoc.
  apply wp_bind. apply wp_byte_at; [rewrite length_app; simpl; lia|].
  replace ((p ++ [b0; b1]) ++ b2 :: b3 :: q) with ((p ++ [b0; b1; b2]) ++ b3 :: q) in * by by rewrite <- !app_assoc.
  apply wp_bind. apply wp_byte_at; [rewrite length_app; simpl; lia|]. by apply wp_ret.
Qed.

Lemma wp_set_u32 p x0 x1 x2 x3 b0 b1 b2 b3 q (Q : unit → list Z → Prop) off : off = zlen p →
  is_u8 b0 → is_u8 b1 → is_u8 b2 → is_u8 b3 → Q tt (p ++ [b0; b1; b2; b3] ++ q) →
  wp (set_u32 off (u32_of b0 b1 b2 b3)) Q (p ++ [x0; x1; x2; x3] ++ q).
Proof.
  intros -> H0 H1 H2 H3 HQ. unfold set_u32, u32_of.
  assert (u8 (b0 + b1 * 2 ^ 8 + b2 * 2 ^ 16 + b3 * 2 ^ 24) = b0) as -> by (unfold u8, wrap; dlia).
  rewrite !Z.shiftr_div_pow2 by lia.
  assert (u8 ((b0 + b1 * 2 ^ 8 + b2 * 2 ^ 16 + b3 * 2 ^ 24) / 2 ^ 8) = b1) as -> by (unfold u8, wrap; dlia).
  assert (u8 ((b0 + b1 * 2 ^ 8 + b2 * 2 ^ 16 + b3 * 2 ^ 24) / 2 ^ 16) = b2) as -> by (unfold u8, wrap; dlia).
  assert (u8 ((b0 + b1 * 2 ^ 8 + b2 * 2 ^ 16 + b3 * 2 ^ 24) / 2 ^ 24) = b3) as -> by (unfold u8, wrap; dlia).
  simpl in *. apply wp_bind. eapply wp_set_byte; [done|].
  replace (p ++ b0 :: x1 :: x2 :: x3 :: q) with ((p ++ [b0]) ++ x1 :: x2 :: x3 :: q) by by rewrite <- app_assoc.
  apply wp_bind. eapply wp_set_byte; [rewrite length_app; simpl; lia|].
  replace ((p ++ [b0]) ++ b1 :: x2 :: x3 :: q) with ((p ++ [b0; b1]) ++ x2 :: x3 :: q) by by rewrite <- !app_assoc.
  apply wp_bind. eapply wp_set_byte; [rewrite length_app; simpl; lia|].
  replace ((p ++ [b0; b1]) ++ b2 :: x3 :: q) with ((p ++ [b0; b1; b2]) ++ x3 :: q) by by rewrite <- !app_assoc.
  eapply wp_set_byte; [rewrite length_app; simpl; lia|]. by rewrite <- app_assoc.
Qed.

Lemma u32_swap_ok : swap_ok 4 u32_swap.
Proof.
  intros p x m y q Hx Hy Hu.
  destruct x as [|a0 [|a1 [|a2 [|a3 [|]]]]]; simpl in Hx; try lia.
  destruct y as [|b0 [|b1 [|b2 [|b3 [|]]]]]; simpl in Hy; try lia.
  rewrite !Forall_app, !Forall_cons in Hu. destruct Hu as (_ & (? & ? & ? & ? & _) & _ & (? & ? & ? & ? & _) & _).
  unfold u32_swap. apply wp_bind. apply wp_u32_at; [done|].
  assert (E : ∀ z r, p ++ z ++ m ++ r = (p ++ z ++ m) ++ r) by (intros; by rewrite <- !app_assoc).
  apply wp_bind. rewrite (E [a0; a1; a2; a3]). eapply (wp_u32_at (p ++ [a0; a1; a2; a3] ++ m)); [rewrite !length_app; simpl; lia|].
  rewrite <- E.
  apply wp_bind. apply wp_set_u32; [done..|].
  rewrite (E [b0; b1; b2; b3] ([b0; b1; b2; b3] ++ q)). apply (wp_set_u32 (p ++ [b0; b1; b2; b3] ++ m)); [rewrite !length_app; simpl; lia|done..|]. by rewrite <- E.
Qed.

(** ** Heaps *)

Section Heap.
Context (cmp : elt → elt → Z) {L : cmp_laws cmp}.

Definition child (k c : Z) : Prop := c = 2 * k + 1 ∨ c = 2 * k + 2.
(** The element at [k] is not less than the one at [c]. *)
Definition above (es : list elt) (k c : Z) : Prop :=
  ∀ x y, rd es k = Some x → rd es c = Some y → cmp y x ≤ 0.
Definition heap_from (es : list elt) (i n : Z) : Prop :=
  ∀ k c, i ≤ k → child k c → c < n → above es k c.
(** A heap but for the element at [r]. *)
Definition sifting (es : list elt) (i n r : Z) : Prop :=
  (∀ k c, i ≤ k → k ≠ r → child k c → c < n → above es k c) ∧
  (∀ k c, i ≤ k → child k r → child r c → c < n → above es k c).

Lemma sifting_done es i n r :
  sifting es i n r → (∀ c, child r c → c < n → above es r c) → heap_from es i n.
Proof.
  intros [H1 _] H2 k c Hk Hc Hn. destruct (decide (k = r)) as [->|]; [by apply H2|by apply H1].
Qed.

Lemma above_refl es k : above es k k.
Proof. intros x y -> [= ->]. by apply cmp_le_refl. Qed.

Lemma above_exchange es i j k c : 0 ≤ i < zlen es → 0 ≤ j < zlen es →
  let f q := if q =? i then j else if q =? j then i else q in
  above es (f k) (f c) → above (exchange i j es) k c.
Proof.
  intros Hi Hj f H x y. rewrite !rd_exchange by done. intros Hx Hy. apply H; subst f; simpl.
  - by destruct (k =? i), (k =? j).
  - by destruct (c =? i), (c =? j).
Qed.

Lemma sifting_step es i n r c : 0 ≤ i ≤ r → n ≤ zlen es → sifting es i n r → child r c → c < n →
  (∀ d, child r d → d < n → above es c d) → ¬ above es r c → sifting (exchange r c es) i n c.
Proof.
  intros Hr Hn [H1 H2] Hc Hcn Hgr Hlt.
  assert (Hrc : above es c r).
  { intros x y Hx Hy. destruct (decide (cmp y x ≤ 0)); [done|]. destruct Hlt. intros x' y' Hx' Hy'.
    rewrite Hy in Hx'. rewrite Hx in Hy'. injection Hx' as <-. injection Hy' as <-. pose proof (cmp_sign x y). lia. }
  unfold child in *. split.
  - intros k d Hk Hkc Hd Hdn. unfold child in Hd. apply above_exchange; [lia|lia|]. simpl.
    destruct (Z.eqb_spec k r) as [->|Hkr].
    + destruct (Z.eqb_spec d r); [lia|]. destruct (Z.eqb_spec d c) as [->|]; [done|by apply Hgr].
    + destruct (Z.eqb_spec k c); [done|]. destruct (Z.eqb_spec d r) as [->|].
      * apply H2; [done|unfold child; lia|unfold child; lia|done].
      * destruct (Z.eqb_spec d c); [lia|]. by apply H1.
  - intros k d Hk Hkc Hd Hdn. unfold child in Hd, Hkc. assert (k = r) as -> by lia. apply above_exchange; [lia|lia|]. simpl.
    rewrite Z.eqb_refl. destruct (Z.eqb_spec d r); [lia|]. destruct (Z.eqb_spec d c); [lia|].
    apply H1; [lia|lia|done|done].
Qed.

(** The root of a heap is a greatest element. *)
Lemma heap_root es n k : heap_from es 0 n → n ≤ zlen es → 0 ≤ k < n → above es 0 k.
Proof.
  intros Hh Hn [Hk Hkn]. revert Hkn. pattern k. apply Z_lt_induction; [|done].
  clear k Hk. intros k IH Hkn. destruct (decide (k ≤ 0)) as [Hz|Hz].
  - destruct (decide (k = 0)) as [->|]; [apply above_refl|]. intros x y _ Hy%rd_Some. lia.
  - pose (p := (k - 1) / 2).
    assert (Hp : 0 ≤ p < k ∧ child p k) by (unfold child, p; dlia).
    destruct (rd_in es p) as [z Hz']; [lia|]. intros x y Hx Hy.
    eapply cmp_le_trans; [eapply (Hh p k)|eapply (IH p)]; try done; try lia. apply Hp.
Qed.
End Heap.

(** ** The offset arithmetic

    For an array of at most INT_MAX bytes the mixed [int] and [size_t] arithmetic
    computes the children exactly; where [r * 2] leaves the range of an [int] the
    comparison fails, as it should. *)
Lemma child_test size r n : 0 < size → 0 ≤ r < n → n * size ≤ INT_MAX →
  (u64 (s32 (r * size * 2) + size) <? u64 (n * size)) = (2 * r + 1 <? n).
Proof.
  intros Hs Hr Hn. unfold INT_MAX in *.
  assert (0 ≤ r * size ∧ r * size + size ≤ n * size) as [??] by nia.
  rewrite (u64_small (n * size)) by lia. apply Bool.eq_iff_eq_true. rewrite !Z.ltb_lt.
  destruct (Z_lt_dec (r * size * 2) (2 ^ 31)) as [Hsm|Hbig].
  - rewrite s32_small, u64_small by lia. nia.
  - assert (Hs32 : s32 (r * size * 2) = r * size * 2 - 2 ^ 32).
    { unfold s32, wrap. replace (r * size * 2 + 2 ^ 31) with (r * size * 2 - 2 ^ 31 + 1 * 2 ^ 32) by lia.
      rewrite Z.mod_add, Z.mod_small by lia. lia. }
    rewrite Hs32.
    assert (Hu : u64 (r * size * 2 - 2 ^ 32 + size) = r * size * 2 - 2 ^ 32 + size + 2 ^ 64).
    { unfold u64, wrap. rewrite <- (Z.mod_add _ 1), Z.mod_small by lia. lia. }
    rewrite Hu. split; [lia|]. intros ?. assert ((2 * r + 1) * size < n * size) by nia. lia.
Qed.

Lemma child_offset size r n : 0 < size → 0 ≤ r → 2 * r + 1 < n → n * size ≤ INT_MAX →
  s32 (u64 (s32 (r * size * 2) + size)) = (2 * r + 1) * size.
Proof.
  intros Hs Hr Hc Hn. unfold INT_MAX in *. assert ((2 * r + 1) * size < n * size) by nia.
  assert (0 ≤ r * size) by nia.
  rewrite (s32_small (r * size * 2)), u64_small, s32_small by lia. lia.
Qed.

Lemma sibling_test size c n : 0 < size → 0 ≤ c < n → n * size ≤ INT_MAX →
  (u64 (c * size) <? u64 (n * size - size)) = (c + 1 <? n) ∧
  (c + 1 < n → s32 (u64 (c * size + size)) = (c + 1) * size).
Proof.
  intros Hs Hc Hn. unfold INT_MAX in *. assert (0 ≤ c * size ∧ c * size + size ≤ n * size) as [??] by nia.
  rewrite !u64_small, s32_small by lia. split; [|lia]. apply Bool.eq_iff_eq_true. rewrite !Z.ltb_lt. nia.
Qed.

Section Loops.
Context (cmp : elt → elt → Z) {L : cmp_laws cmp} (pre post : list Z) (size : Z).
Context (swap : Z → Z → Z → prog (list Z) unit) (Hsize : 0 < size) (Hswap : swap_ok size swap).

Lemma wp_compare es b i j x y (Q : Z → list Z → Prop) : arr pre post size es b →
  rd es i = Some x → rd es j = Some y → Q (cmp x y) b →
  wp (compare cmp size (zlen pre + i * size) (zlen pre + j * size)) Q b.
Proof.
  intros Ha Hx Hy HQ. apply wp_bind. eapply wp_elt; [done..|]. apply wp_bind. by eapply wp_elt.
Qed.

(** The choice of the greater child. *)
Lemma wp_greater es b n c (Q : bool → list Z → Prop) : arr pre post size es b → 0 ≤ c < n → n ≤ zlen es →
  n * size ≤ INT_MAX →
  (∀ g : bool, (g = true → c + 1 < n) →
     let c' := if g then c + 1 else c in
     (∀ d, (d = c ∨ d = c + 1) → d < n → above cmp es c' d) → Q g b) →
  wp (if u64 (c * size) <? u64 (n * size - size) then
        d ← compare cmp size (zlen pre + c * size) (zlen pre + c * size + size); mret (d <? 0)
      else mret false) Q b.
Proof.
  intros Ha Hc Hn Hsz HQ. destruct (sibling_test size c n) as [-> _]; [done..|].
  destruct (Z.ltb_spec (c + 1) n).
  - destruct (rd_in es c) as [x Hx]; [lia|]. destruct (rd_in es (c + 1)) as [y Hy]; [lia|].
    apply wp_bind. replace (zlen pre + c * size + size) with (zlen pre + (c + 1) * size) by lia.
    eapply wp_compare; [done..|]. apply wp_ret. apply HQ; [done|]. simpl.
    pose proof (cmp_sign x y). pose proof (cmp_sign y x).
    destruct (Z.ltb_spec (cmp x y) 0); intros d [-> | ->] _; try by apply above_refl.
    + intros y' x' Hy' Hx'. rewrite Hy in Hy'. rewrite Hx in Hx'. simplify_eq. lia.
    + intros x' y' Hx' Hy'. rewrite Hy in Hy'. rewrite Hx in Hx'. simplify_eq. lia.
  - apply wp_ret. apply HQ; [done|]. intros d [-> | ->] Hd; [by apply above_refl|lia].
Qed.

Lemma wp_sift fuel : ∀ es b i n r, arr pre post size es b → 0 ≤ i ≤ r → r < n → n ≤ zlen es →
  zlen es * size ≤ INT_MAX → sifting cmp es i n r → n - r < Z.of_nat fuel →
  wp (sift cmp fuel swap (zlen pre) size (n * size) (r * size))
    (λ _ b', ∃ es', arr pre post size es' b' ∧ heap_from cmp es' i n ∧ es' ≡ₚ es ∧
       drop (Z.to_nat n) es' = drop (Z.to_nat n) es) b.
Proof.
  induction fuel as [|fuel IH]; intros es b i n r Ha Hi Hr Hn Hsz Hsift Hf; [lia|].
  cbn [sift]. assert (Hns : n * size ≤ INT_MAX) by nia.
  rewrite child_test by lia. destruct (Z.ltb_spec (2 * r + 1) n) as [Hc|Hc].
  2:{ apply wp_ret. exists es. split_and!; try done. eapply sifting_done; [done|].
      unfold child. intros c Hrc Hcn. lia. }
  rewrite (child_offset size r n) by lia. apply wp_bind.
  eapply wp_greater; [done|lia|done|done|]. intros g Hg c' Hgr. subst c'.
  set (c' := if g then 2 * r + 1 + 1 else 2 * r + 1) in *.
  assert (Hc' : child r c' ∧ c' < n) by (unfold child, c'; destruct g; [specialize (Hg eq_refl)|]; lia).
  destruct Hc' as [Hch Hcn].
  replace (if g then _ else _) with (c' * size).
  2:{ unfold c'. destruct g; [|done]. specialize (Hg eq_refl). symmetry.
      apply (sibling_test size (2 * r + 1) n); lia. }
  assert (Hrc : r < c') by (unfold child in Hch; lia).
  destruct (rd_in es r) as [x Hx]; [lia|]. destruct (rd_in es c') as [y Hy]; [lia|].
  apply wp_bind. eapply wp_compare; [done..|].
  assert (Hgr' : ∀ d, child r d → d < n → above cmp es c' d) by (intros d Hd; apply Hgr; unfold child in Hd; lia).
  destruct (Z.leb_spec 0 (cmp x y)) as [Hge|Hlt].
  - apply wp_ret. exists es. split_and!; try done. eapply sifting_done; [done|].
    intros d Hd Hdn x' z Hx' Hz. rewrite Hx in Hx'. injection Hx' as <-.
    eapply cmp_le_trans; [by eapply Hgr'|]. by apply cmp_ge.
  - apply wp_bind. eapply wp_swap; [exact Hswap|exact Ha|lia|lia|]. intros b1 Ha1.
    eapply wp_mono; [apply (IH (exchange r c' es) b1 i n c'); rewrite ?length_exchange; try done; try lia|].
    + apply (sifting_step cmp es i n r c'); try done. intros Hab. specialize (Hab x y Hx Hy).
      pose proof (cmp_sign x y). lia.
    + intros [] b2 (es' & Ha' & Hh & Hp & Hd). exists es'. split_and!; [done|done| |].
      * rewrite Hp. apply exchange_perm; lia.
      * rewrite Hd. unfold exchange. rewrite Hx, Hy. by rewrite !drop_insert_lt by lia.
Qed.

(** [i -= size] *)
Lemma step_down k : 0 ≤ k → k * size ≤ INT_MAX → size ≤ INT_MAX →
  s32 (u64 (k * size - size)) = (k - 1) * size.
Proof.
  intros Hk Hn Hs. unfold INT_MAX in *. destruct (decide (k = 0)) as [->|].
  - replace (0 * size - size) with (- size) by lia. replace ((0 - 1) * size) with (- size) by lia.
    assert (Hu : u64 (- size) = 2 ^ 64 - size).
    { unfold u64, wrap. rewrite <- (Z.mod_add _ 1), Z.mod_small by lia. lia. }
    rewrite Hu. unfold s32, wrap.
    replace (2 ^ 64 - size + 2 ^ 31) with (2 ^ 31 - size + 2 ^ 32 * 2 ^ 32) by lia.
    rewrite Z.mod_add, Z.mod_small by lia. lia.
  - assert (0 ≤ k * size - size) by nia. rewrite u64_small, s32_small by lia. lia.
Qed.

Lemma wp_heapify fuel : ∀ es b n k, arr pre post size es b → -1 ≤ k → k < n → n ≤ zlen es →
  zlen es * size ≤ INT_MAX → heap_from cmp es (k + 1) n → k + 1 < Z.of_nat fuel →
  wp (heapify_loop cmp fuel swap (zlen pre) size (n * size) (k * size))
    (λ _ b', ∃ es', arr pre post size es' b' ∧ heap_from cmp es' 0 n ∧ es' ≡ₚ es) b.
Proof.
  induction fuel as [|fuel IH]; intros es b n k Ha Hk Hkn Hn Hsz Hh Hf; [lia|].
  cbn [heapify_loop]. destruct (Z.leb_spec 0 (k * size)) as [Hpos|Hneg].
  - assert (0 ≤ k) by nia. apply wp_bind.
    eapply wp_mono; [apply (wp_sift _ es b k n k); try done; try nia|].
    + split; [intros k' c ??; apply Hh; lia|]. unfold child. intros. lia.
    + intros [] b1 (es1 & Ha1 & Hh1 & Hp1 & _). rewrite step_down by nia.
      pose proof (Permutation_length Hp1) as Hl1.
      eapply wp_mono; [apply (IH es1 b1 n (k - 1)); try done; try lia|].
      * by replace (k - 1 + 1) with k by lia.
      * intros [] b2 (es2 & Ha2 & Hh2 & Hp2). exists es2. split_and!; [done..|by rewrite Hp2].
  - apply wp_ret. assert (k = -1) as -> by nia. by exists es.
Qed.

(** From position [m] on, every element is at least as great as all before it. *)
Definition greatest_from (es : list elt) (m : Z) : Prop :=
  ∀ i j x y, m ≤ j → 0 ≤ i < j → rd es i = Some x → rd es j = Some y → cmp x y ≤ 0.

Lemma rd_suffix {A} (l l' : list A) m j : 0 ≤ m ≤ j → drop (Z.to_nat m) l' = drop (Z.to_nat m) l → rd l' j = rd l j.
Proof.
  intros Hm E. unfold rd. destruct (Z.leb_spec 0 j); [|done].
  replace (Z.to_nat j) with (Z.to_nat m + (Z.to_nat j - Z.to_nat m))%nat by lia.
  by rewrite <- !lookup_drop, E.
Qed.

Lemma rd_prefix {A} (l l' : list A) m i x : 0 ≤ m → l' ≡ₚ l → drop (Z.to_nat m) l' = drop (Z.to_nat m) l →
  0 ≤ i < m → rd l' i = Some x → ∃ i', 0 ≤ i' < m ∧ rd l i' = Some x.
Proof.
  intros Hm Hp E Hi Hx. rewrite <- (take_drop (Z.to_nat m) l), <- (take_drop (Z.to_nat m) l'), E in Hp.
  apply Permutation_app_inv_r in Hp.
  assert (Hin : x ∈ take (Z.to_nat m) l').
  { apply (list_elem_of_lookup_2 _ (Z.to_nat i)). rewrite lookup_take_lt by lia.
    unfold rd in Hx. by destruct (Z.leb_spec 0 i). }
  rewrite Hp in Hin. apply list_elem_of_lookup_1 in Hin as [i' Hi'].
  pose proof (lookup_lt_Some _ _ _ Hi') as Hlt. rewrite length_take in Hlt.
  rewrite lookup_take_lt in Hi' by lia. exists (Z.of_nat i'). split; [lia|]. by rewrite rd_nat.
Qed.

Lemma extract_sorted es es' m : 0 < m < zlen es → heap_from cmp es 0 (m + 1) → greatest_from es (m + 1) →
  es' ≡ₚ exchange 0 m es → drop (Z.to_nat m) es' = drop (Z.to_nat m) (exchange 0 m es) → greatest_from es' m.
Proof.
  intros Hm Hh Hs Hp Hd i j x y Hj Hi Hx Hy.
  rewrite (rd_suffix _ _ m j ltac:(lia) Hd), rd_exchange in Hy by lia.
  assert (∃ i', 0 ≤ i' < j ∧ rd (exchange 0 m es) i' = Some x) as (i' & Hi' & Hx').
  { destruct (Z_lt_dec i m).
    - destruct (rd_prefix _ _ m i x ltac:(lia) Hp Hd ltac:(lia) Hx) as (i' & ? & ?). exists i'. split; [lia|done].
    - exists i. split; [done|]. by rewrite <- (rd_suffix _ _ m i ltac:(lia) Hd). }
  rewrite rd_exchange in Hx' by lia. destruct (Z.eqb_spec j 0); [lia|].
  destruct (Z.eqb_spec j m) as [->|].
  - destruct (Z.eqb_spec i' 0) as [->|]; [by eapply (heap_root cmp es (m + 1) m); try done; lia|].
    destruct (Z.eqb_spec i' m); [lia|]. by eapply (heap_root cmp es (m + 1) i'); try done; lia.
  - destruct (Z.eqb_spec i' 0) as [->|]; [by eapply (Hs m j); try lia|].
    destruct (Z.eqb_spec i' m) as [->|]; [by eapply (Hs 0 j); try lia|]. by eapply (Hs i' j); try lia.
Qed.

Lemma wp_extract fuel : ∀ es b m, arr pre post size es b → 0 ≤ m < zlen es →
  zlen es * size ≤ INT_MAX → heap_from cmp es 0 (m + 1) → greatest_from es (m + 1) → m < Z.of_nat fuel →
  wp (extract_loop cmp fuel swap (zlen pre) size (m * size))
    (λ _ b', ∃ es', arr pre post size es' b' ∧ greatest_from es' 1 ∧ es' ≡ₚ es) b.
Proof.
  induction fuel as [|fuel IH]; intros es b m Ha Hm Hsz Hh Hs Hf; [lia|].
  cbn [extract_loop]. destruct (Z.ltb_spec 0 (m * size)) as [Hpos|Hz].
  - assert (0 < m) by nia. apply wp_bind. replace (zlen pre) with (zlen pre + 0 * size) at 1 by lia.
    eapply wp_swap; [exact Hswap|exact Ha|lia|lia|]. intros b1 Ha1. apply wp_bind.
    pose proof (length_exchange es 0 m) as Hl1.
    eapply wp_mono; [apply (wp_sift _ (exchange 0 m es) b1 0 m 0); try done; rewrite ?Hl1; try nia|].
    + split; [|unfold child; intros; lia]. intros k c Hk Hk0 Hc Hcm. apply above_exchange; [lia|lia|]. simpl.
      unfold child in Hc. destruct (Z.eqb_spec k 0), (Z.eqb_spec k m), (Z.eqb_spec c 0), (Z.eqb_spec c m); try lia.
      apply Hh; unfold child; lia.
    + intros [] b2 (es2 & Ha2 & Hh2 & Hp2 & Hd2). rewrite step_down by nia.
      pose proof (Permutation_length Hp2) as Hl2.
      eapply wp_mono; [apply (IH es2 b2 (m - 1)); try done; try lia|].
      * by replace (m - 1 + 1) with m by lia.
      * replace (m - 1 + 1) with m by lia. apply (extract_sorted es); try done. lia.
      * intros [] b3 (es3 & Ha3 & Hs3 & Hp3). exists es3. split_and!; [done..|].
        rewrite Hp3, Hp2. apply exchange_perm; lia.
  - apply wp_ret. assert (m = 0) as -> by nia. by exists es.
Qed.

Lemma rd_tail {A} (x : A) l k : 0 ≤ k → rd (x :: l) (k + 1) = rd l k.
Proof.
  intros Hk. unfold rd. destruct (Z.leb_spec 0 (k + 1)), (Z.leb_spec 0 k); try lia.
  by replace (Z.to_nat (k + 1)) with (S (Z.to_nat k)) by lia.
Qed.

Lemma sorted_from_strongly es : greatest_from es 1 → StronglySorted (λ x y, cmp x y ≤ 0) es.
Proof.
  induction es as [|x es IH]; intros Hs; constructor.
  - apply IH. intros i j a b Hj Hi Ha Hb. by apply (Hs (i + 1) (j + 1)); [lia|lia|rewrite rd_tail by lia..].
  - apply Forall_lookup. intros k y Hk. apply (Hs 0 (Z.of_nat (S k))); [lia|lia|done|]. by rewrite rd_nat.
Qed.

Lemma wp_sort_array es b : arr pre post size es b → zlen es * size ≤ INT_MAX → size ≤ INT_MAX →
  wp (_ ← heapify_loop cmp (S (Z.to_nat (zlen es))) swap (zlen pre) size (s32 (u64 (zlen es * size)))
            (s32 (u64 (u64 (zlen es / 2 - 1) * size)));
      extract_loop cmp (S (Z.to_nat (zlen es))) swap (zlen pre) size
        (s32 (u64 (s32 (u64 (zlen es * size)) - size))))
    (λ _ b', ∃ es', arr pre post size es' b' ∧ StronglySorted (λ x y, cmp x y ≤ 0) es' ∧ es' ≡ₚ es) b.
Proof.
  intros Ha Hsz Hsm. set (n := zlen es) in *.
  assert (Hk : s32 (u64 (u64 (n / 2 - 1) * size)) = (n / 2 - 1) * size).
  { replace (u64 (u64 (n / 2 - 1) * size)) with (u64 (n / 2 * size - size)).
    - assert (0 ≤ n / 2 ≤ n) by (unfold n; dlia). apply step_down; [lia|nia|done].
    - unfold u64, wrap. rewrite Zmult_mod_idemp_l. f_equal. lia. }
  assert (Hn : s32 (u64 (n * size)) = n * size).
  { unfold n, INT_MAX in *. rewrite u64_small, s32_small by nia. done. }
  rewrite Hk, Hn. apply wp_bind. eapply wp_mono; [apply (wp_heapify _ es b n (n / 2 - 1)); try done; unfold n; try dlia|].
  { intros k c Hk' Hc Hcn. unfold child in Hc. dlia. }
  intros [] b1 (es1 & Ha1 & Hh1 & Hp1). pose proof (Permutation_length Hp1) as Hl1.
  rewrite step_down by (unfold n in *; lia).
  destruct (decide (n = 0)) as [Hz|Hz].
  - rewrite Hz. cbn [extract_loop Z.to_nat]. destruct (Z.ltb_spec 0 ((0 - 1) * size)); [lia|].
    apply wp_ret. exists es1. split_and!; [done| |done]. destruct es1; [constructor|simpl in *; unfold n in *; lia].
  - eapply wp_mono; [apply (wp_extract _ es1 b1 (n - 1)); try done; unfold n in *; try lia|].
    + by replace (zlen es - 1 + 1) with (zlen es) by lia.
    + intros i j x y Hj _ _ Hy%rd_Some. lia.
    + intros [] b2 (es2 & Ha2 & Hs2 & Hp2). exists es2. split_and!; [done|by apply sorted_from_strongly|].
      by rewrite Hp2.
Qed.
End Loops.

(** ** Binary search *)

(** [key] compares with the elements like with an ascending array. *)
Definition ascending (key : elt → Z) (es : list elt) : Prop := ∀ i j x y,
  0 ≤ i < j → rd es i = Some x → rd es j = Some y → (key x < 0 → key y < 0) ∧ (0 < key y → 0 < key x).

Definition found (key : elt → Z) (base size : Z) (es : list elt) (r : option Z) : Prop :=
  match r with
  | Some off => ∃ k x, off = base + k * size ∧ rd es k = Some x ∧ key x = 0
  | None => ∀ x, x ∈ es → key x ≠ 0
  end.

Lemma bsearch_loop_ok key pre post size es b fuel : ∀ lo hi, arr pre post size es b → ascending key es →
  0 ≤ lo ≤ hi → hi ≤ zlen es → hi - lo < 2 ^ Z.of_nat fuel →
  (∀ k x, rd es k = Some x → key x = 0 → lo ≤ k < hi) →
  wp (bsearch_loop (S fuel) key (zlen pre) size lo hi)
    (λ r b', b' = b ∧ found key (zlen pre) size es r) b.
Proof.
  induction fuel as [|fuel IH]; intros lo hi Ha Hasc Hlo Hhi Hf Hin; cbn [bsearch_loop].
  - rewrite Z.pow_0_r in Hf. destruct (Z.ltb_spec lo hi); [lia|]. apply wp_ret. split; [done|].
    intros x [k Hk]%list_elem_of_lookup_1 Hz. rewrite <- rd_nat in Hk. specialize (Hin _ _ Hk Hz). lia.
  - rewrite Nat2Z.inj_succ, Z.pow_succ_r in Hf by lia. destruct (Z.ltb_spec lo hi) as [Hlt|Hge].
    2:{ apply wp_ret. split; [done|]. intros x [k Hk]%list_elem_of_lookup_1 Hz. rewrite <- rd_nat in Hk.
        specialize (Hin _ _ Hk Hz). lia. }
    pose (mid := lo + (hi - lo) / 2).
    assert (Hmid : lo ≤ mid < hi ∧ mid - lo < 2 ^ Z.of_nat fuel ∧ hi - (mid + 1) < 2 ^ Z.of_nat fuel) by (unfold mid; dlia).
    fold mid. destruct (rd_in es mid) as [x Hx]; [lia|]. apply wp_bind. eapply wp_elt; [done..|].
    destruct (Z.ltb_spec (key x) 0) as [Hneg|Hpos].
    + apply IH; try done; try lia. intros k y Hy Hz. specialize (Hin k y Hy Hz).
      destruct (Z_lt_dec k mid); [lia|]. destruct (decide (k = mid)) as [->|]; [simplify_eq; lia|].
      destruct (Hasc mid k x y) as [H1 _]; [lia|done|done|]. specialize (H1 Hneg). lia.
    + destruct (Z.ltb_spec 0 (key x)) as [Hgt|Heq].
      * apply IH; try done; try lia. intros k y Hy Hz. specialize (Hin k y Hy Hz).
        destruct (Z_lt_dec mid k); [lia|]. destruct (decide (k = mid)) as [->|]; [simplify_eq; lia|].
        destruct (Hasc k mid y x) as [_ H2]; [lia|done|done|]. specialize (H2 Hgt). lia.
      * apply wp_ret. split; [done|]. exists mid, x. split_and!; [done|done|lia].
Qed.

Lemma bsearch_ok key pre post size es b : arr pre post size es b → ascending key es → zlen es < 2 ^ 64 →
  wp (bsearch key (zlen pre) (zlen es) size) (λ r b', b' = b ∧ found key (zlen pre) size es r) b.
Proof.
  intros Ha Hasc Hn. apply (bsearch_loop_ok key pre post size es b 64); [done|done|lia|lia| |].
  - replace (Z.of_nat 64) with 64 by reflexivity. lia.
  - intros k x Hk%rd_Some _. lia.
Qed.

Lemma sorted_ascending cmp `{!cmp_laws cmp} es key : StronglySorted (λ x y, cmp x y ≤ 0) es →
  ascending (cmp key) es.
Proof.
  intros Hs i j x y Hij Hx Hy.
  assert (Hxy : cmp x y ≤ 0).
  { pose proof (rd_Some _ _ _ Hy). destruct (split_two es i j) as (l1 & a & l2 & b & l3 & -> & -> & ->); [lia|lia|].
    rewrite rd_mid in Hx. injection Hx as <-.
    replace (l1 ++ a :: l2 ++ b :: l3) with ((l1 ++ a :: l2) ++ b :: l3) in * by (by rewrite <- app_assoc).
    replace (zlen l1 + 1 + zlen l2) with (zlen (l1 ++ a :: l2)) in Hy by (rewrite length_app; simpl; lia).
    rewrite rd_mid in Hy. injection Hy as <-.
    eapply (StronglySorted_app_1_elem_of (λ x y, cmp x y ≤ 0)); [exact Hs|set_solver|set_solver]. }
  pose proof (cmp_sign key x). pose proof (cmp_sign x key). pose proof (cmp_sign key y). pose proof (cmp_sign y key).
  split; intros Hlt.
  - destruct (decide (cmp y key ≤ 0)); [|lia]. pose proof (cmp_le_trans x y key Hxy). lia.
  - destruct (decide (cmp key x ≤ 0)); [|lia]. pose proof (cmp_le_trans key x y). lia.
Qed.

(** C28: sort and bsearch are correct together.  For a comparison that agrees with a
    total preorder, an array of at most INT_MAX bytes and a swap function that
    exchanges two elements (or none, when sort uses its own), sort terminates, touches
    nothing outside the array and leaves a permutation of the elements in ascending
    order; bsearch then finds an element that compares equal to the key exactly when
    there is one, without changing the memory. *)
Theorem sort_bsearch_correct cmp `{!cmp_laws cmp} pre post size es b swap_func key :
  arr pre post size es b → 0 < size ≤ INT_MAX → zlen es * size ≤ INT_MAX →
  match swap_func with Some f => swap_ok size f | None => True end →
  wp (sort cmp (zlen pre) (zlen es) size swap_func) (λ _ b', ∃ es', arr pre post size es' b' ∧
    StronglySorted (λ x y, cmp x y ≤ 0) es' ∧ es' ≡ₚ es ∧
    wp (bsearch (cmp key) (zlen pre) (zlen es) size) (λ r b'', b'' = b' ∧
      match r with
      | Some off => ∃ k x, off = zlen pre + k * size ∧ rd es' k = Some x ∧ cmp key x = 0
      | None => ∀ x, x ∈ es → cmp key x ≠ 0
      end) b') b.
Proof.
  intros Ha Hs Hn Hf. unfold sort.
  assert (Hsw : swap_ok size match swap_func with
                | Some f => f | None => if size =? 4 then u32_swap else generic_swap end).
  { destruct swap_func; [done|]. destruct (Z.eqb_spec size 4) as [->|]; [apply u32_swap_ok|apply generic_swap_ok; lia]. }
  eapply wp_mono; [eapply (wp_sort_array cmp pre post size); [|exact Hsw|exact Ha|done|]; lia|].
  intros [] b' (es' & Ha' & Hst & Hp). exists es'. split_and!; try done.
  pose proof (Permutation_length Hp) as Hl. rewrite <- Hl.
  eapply wp_mono; [apply (bsearch_ok (cmp key) pre post size es' b'); [done|by apply sorted_ascending|unfold INT_MAX in *; nia]|].
  intros [off|] b'' [-> Hr]; (split; [done|]); [exact Hr|]. intros x. rewrite <- Hp. apply Hr.
Qed.

Definition byte_cmp (x y : elt) : Z := hd 0 x - hd 0 y.
#[local] Instance byte_cmp_laws : cmp_laws byte_cmp.
Proof. unfold byte_cmp. split; intros; lia. Qed.

Example sort_bsearch_correct_witness :
  wp (sort byte_cmp 1 4 2 None) (λ _ b', ∃ es', arr [7] [9] 2 es' b' ∧
    StronglySorted (λ x y, byte_cmp x y ≤ 0) es' ∧ es' ≡ₚ [[30; 1]; [10; 2]; [20; 3]; [10; 4]] ∧
    wp (bsearch (byte_cmp [20]) 1 4 2) (λ r b'', b'' = b' ∧
      match r with
      | Some off => ∃ k x, off = 1 + k * 2 ∧ rd es' k = Some x ∧ byte_cmp [20] x = 0
      | None => ∀ x, x ∈ [[30; 1]; [10; 2]; [20; 3]; [10; 4]] → byte_cmp [20] x ≠ 0
      end) b') [7; 30; 1; 10; 2; 20; 3; 10; 4; 9]
  ∧ snd <$> sort byte_cmp 1 4 2 None [7; 30; 1; 10; 2; 20; 3; 10; 4; 9] =
      Some [7; 10; 2; 10; 4; 20; 3; 30; 1; 9].
Proof.
  split; [|vm_compute; reflexivity].
  apply (sort_bsearch_correct byte_cmp [7] [9] 2 [[30; 1]; [10; 2]; [20; 3]; [10; 4]]
           [7; 30; 1; 10; 2; 20; 3; 10; 4; 9] None [20]); [|unfold INT_MAX; lia|unfold INT_MAX; simpl; lia|exact I].
  split_and!; [reflexivity|repeat constructor|repeat constructor; lia].
Defined.
