(* ===== verification/CapSet.v ===== *)
(** * CapSet: capability sets (include/linux/capability.h, include/uapi/linux)

    A set of capabilities is an array of two 32-bit words; the set operations are
    loops over the words.  The lemmas read them as operations on sets of
    capability numbers: [elem_of], [subseteq] and the [SetUnfold] instances let
    set_solver work with the sets of the program. *)

From stdpp Require Import sets.
From S2P Require Import Prelude.

(** ** The program *)

(** __u32 cap[_KERNEL_CAPABILITY_U32S] *)
Record kernel_cap_t := KCap { cap_0 : Z; cap_1 : Z }.

Definition _KERNEL_CAPABILITY_U32S : Z := 2.
Definition CAP_CHOWN : Z := 0.
Definition CAP_DAC_OVERRIDE : Z := 1.
Definition CAP_DAC_READ_SEARCH : Z := 2.
Definition CAP_FOWNER : Z := 3.
Definition CAP_FSETID : Z := 4.
Definition CAP_SETGID : Z := 6.
Definition CAP_SETUID : Z := 7.
Definition CAP_SETPCAP : Z := 8.
Definition CAP_LINUX_IMMUTABLE : Z := 9.
Definition CAP_NET_ADMIN : Z := 12.
Definition CAP_NET_RAW : Z := 13.
Definition CAP_SYS_RAWIO : Z := 17.
Definition CAP_SYS_PTRACE : Z := 19.
Definition CAP_SYS_ADMIN : Z := 21.
Definition CAP_SYS_NICE : Z := 23.
Definition CAP_SYS_RESOURCE : Z := 24.
Definition CAP_SYS_TIME : Z := 25.
Definition CAP_MKNOD : Z := 27.
Definition CAP_SETFCAP : Z := 31.
Definition CAP_MAC_OVERRIDE : Z := 32.
Definition CAP_LAST_CAP : Z := 36.

Definition cap_valid (x : Z) : bool := (0 <=? x) && (x <=? CAP_LAST_CAP).

(** Both work on int; the mask is converted to __u32 where it meets a word. *)
Definition CAP_TO_INDEX (x : Z) : Z := x >>u 5.
Definition CAP_TO_MASK (x : Z) : Z := u32 (Z.shiftl 1 (x .& 31)).

(** cap[i]; [None] outside of the array. *)
Definition cap_word (c : kernel_cap_t) (i : Z) : option Z :=
  if i =? 0 then Some (cap_0 c) else if i =? 1 then Some (cap_1 c) else None.

Definition cap_set_word (c : kernel_cap_t) (i x : Z) : option kernel_cap_t :=
  if i =? 0 then Some (KCap x (cap_1 c)) else if i =? 1 then Some (KCap (cap_0 c) x) else None.

Definition CAP_LAST_U32_VALID_MASK : Z := CAP_TO_MASK (CAP_LAST_CAP + 1) - 1.

Definition CAP_FS_MASK_B0 : Z :=
  CAP_TO_MASK CAP_CHOWN .| CAP_TO_MASK CAP_MKNOD .| CAP_TO_MASK CAP_DAC_OVERRIDE
  .| CAP_TO_MASK CAP_DAC_READ_SEARCH .| CAP_TO_MASK CAP_FOWNER .| CAP_TO_MASK CAP_FSETID.
Definition CAP_FS_MASK_B1 : Z := CAP_TO_MASK CAP_MAC_OVERRIDE.

Definition CAP_EMPTY_SET : kernel_cap_t := KCap 0 0.
Definition CAP_FULL_SET : kernel_cap_t := KCap (u32 (Z.lnot 0)) CAP_LAST_U32_VALID_MASK.
Definition CAP_FS_SET : kernel_cap_t :=
  KCap (CAP_FS_MASK_B0 .| CAP_TO_MASK CAP_LINUX_IMMUTABLE) CAP_FS_MASK_B1.
Definition CAP_NFSD_SET : kernel_cap_t :=
  KCap (CAP_FS_MASK_B0 .| CAP_TO_MASK CAP_SYS_RESOURCE) CAP_FS_MASK_B1.

Definition cap_raise (c : kernel_cap_t) (flag : Z) : option kernel_cap_t :=
  w ← cap_word c (CAP_TO_INDEX flag); cap_set_word c (CAP_TO_INDEX flag) (w .| CAP_TO_MASK flag).
Definition cap_lower (c : kernel_cap_t) (flag : Z) : option kernel_cap_t :=
  w ← cap_word c (CAP_TO_INDEX flag);
  cap_set_word c (CAP_TO_INDEX flag) (w .& u32 (Z.lnot (CAP_TO_MASK flag))).
Definition cap_raised (c : kernel_cap_t) (flag : Z) : option Z :=
  w ← cap_word c (CAP_TO_INDEX flag); Some (w .& CAP_TO_MASK flag).

Definition CAP_BOP_ALL (a b : kernel_cap_t) (op : Z → Z → Z) : kernel_cap_t :=
  KCap (op (cap_0 a) (cap_0 b)) (op (cap_1 a) (cap_1 b)).
Definition CAP_UOP_ALL (a : kernel_cap_t) (op : Z → Z) : kernel_cap_t :=
  KCap (op (cap_0 a)) (op (cap_1 a)).

Definition cap_combine (a b : kernel_cap_t) : kernel_cap_t := CAP_BOP_ALL a b Z.lor.
Definition cap_intersect (a b : kernel_cap_t) : kernel_cap_t := CAP_BOP_ALL a b Z.land.
Definition cap_drop (a drop : kernel_cap_t) : kernel_cap_t :=
  CAP_BOP_ALL a drop (λ x y, x .& u32 (Z.lnot y)).
Definition cap_invert (c : kernel_cap_t) : kernel_cap_t := CAP_UOP_ALL c (λ x, u32 (Z.lnot x)).

Definition cap_isclear (a : kernel_cap_t) : bool :=
  if negb (cap_0 a =? 0) then false else if negb (cap_1 a =? 0) then false else true.
Definition cap_issubset (a set : kernel_cap_t) : bool := cap_isclear (cap_drop a set).

Definition cap_is_fs_cap (cap : Z) : option bool :=
  w ← cap_word CAP_FS_SET (CAP_TO_INDEX cap); Some (negb (CAP_TO_MASK cap .& w =? 0)).
Definition cap_drop_fs_set (a : kernel_cap_t) : kernel_cap_t := cap_drop a CAP_FS_SET.
Definition cap_raise_fs_set (a permitted : kernel_cap_t) : kernel_cap_t :=
  cap_combine a (cap_intersect permitted CAP_FS_SET).
Definition cap_drop_nfsd_set (a : kernel_cap_t) : kernel_cap_t := cap_drop a CAP_NFSD_SET.
Definition cap_raise_nfsd_set (a permitted : kernel_cap_t) : kernel_cap_t :=
  cap_combine a (cap_intersect permitted CAP_NFSD_SET).

(** ** The set of numbers it stands for *)

#[export] Instance kernel_cap_eq_dec : EqDecision kernel_cap_t.
Proof. solve_decision. Defined.

Definition cap_mem (k : Z) (c : kernel_cap_t) : bool :=
  if k <? 0 then false
  else if k <? 32 then Z.testbit (cap_0 c) k
  else if k <? 64 then Z.testbit (cap_1 c) (k - 32) else false.

#[export] Instance cap_elem_of : ElemOf Z kernel_cap_t := λ k c, cap_mem k c = true.
#[export] Instance cap_elem_of_dec (k : Z) (c : kernel_cap_t) : Decision (k ∈ c).
Proof. unfold elem_of, cap_elem_of. apply _. Defined.

(** What the type promises: unsigned words. *)
Definition cap_words (c : kernel_cap_t) : Prop := is_u32 (cap_0 c) ∧ is_u32 (cap_1 c).

Lemma elem_of_cap k c :
  k ∈ c ↔ (0 ≤ k < 32 ∧ Z.testbit (cap_0 c) k = true)
        ∨ (32 ≤ k < 64 ∧ Z.testbit (cap_1 c) (k - 32) = true).
Proof.
  unfold elem_of, cap_elem_of, cap_mem.
  destruct (Z.ltb_spec k 0), (Z.ltb_spec k 32), (Z.ltb_spec k 64);
    split; intros H'; (lia || (try destruct H' as [[? ?]|[? ?]]; (done || lia || tauto || auto))).
Qed.

Lemma elem_of_combine k a b : k ∈ cap_combine a b ↔ k ∈ a ∨ k ∈ b.
Proof.
  rewrite !elem_of_cap. cbn. rewrite !Z.lor_spec, !orb_true_iff. tauto.
Qed.

Lemma elem_of_intersect k a b : k ∈ cap_intersect a b ↔ k ∈ a ∧ k ∈ b.
Proof.
  rewrite !elem_of_cap. cbn. rewrite !Z.land_spec, !andb_true_iff.
  split; [tauto|]. intros [[[? ?]|[? ?]] [[? ?]|[? ?]]]; (lia || tauto).
Qed.

Lemma testbit_not32 x i : 0 ≤ i < 32 → Z.testbit (u32 (Z.lnot x)) i = negb (Z.testbit x i).
Proof.
  intros. rewrite testbit_u32, Z.lnot_spec by lia. by rewrite (proj2 (Z.ltb_lt i 32)) by lia.
Qed.

Lemma elem_of_invert k c : k ∈ cap_invert c ↔ 0 ≤ k < 64 ∧ k ∉ c.
Proof.
  rewrite !elem_of_cap. cbn. split.
  - intros [[? H]|[? H]]; rewrite testbit_not32 in H by lia; apply negb_true_iff in H;
      (split; [lia|]); intros [[? ?]|[? ?]]; (lia || congruence).
  - intros [? Hn]. destruct (decide (k < 32)); [left|right];
      (split; [lia|]); rewrite testbit_not32 by lia; apply negb_true_iff, not_true_iff_false;
      intros ?; apply Hn; [left|right]; split; (lia || done).
Qed.

Lemma cap_drop_invert a b : cap_drop a b = cap_intersect a (cap_invert b).
Proof. done. Qed.

Lemma elem_of_range k (c : kernel_cap_t) : k ∈ c → 0 ≤ k < 64.
Proof. rewrite elem_of_cap. lia. Qed.

Lemma elem_of_drop k a b : k ∈ cap_drop a b ↔ k ∈ a ∧ k ∉ b.
Proof.
  rewrite cap_drop_invert, elem_of_intersect, elem_of_invert.
  split; [tauto|]. intros [H ?]. pose proof (elem_of_range _ _ H). tauto.
Qed.

Lemma elem_of_cap_empty k : k ∈ CAP_EMPTY_SET ↔ False.
Proof. rewrite elem_of_cap. cbn. rewrite !Z.bits_0. naive_solver. Qed.

Lemma elem_of_full k : k ∈ CAP_FULL_SET ↔ 0 ≤ k ≤ CAP_LAST_CAP.
Proof.
  rewrite elem_of_cap. change (cap_0 CAP_FULL_SET) with (Z.ones 32).
  change (cap_1 CAP_FULL_SET) with (Z.ones 5).
  rewrite !testbit_ones by lia. unfold CAP_LAST_CAP.
  rewrite !andb_true_iff, !Z.leb_le, !Z.ltb_lt. lia.
Qed.

#[export] Instance set_unfold_combine k a b P Q :
  SetUnfoldElemOf k a P → SetUnfoldElemOf k b Q → SetUnfoldElemOf k (cap_combine a b) (P ∨ Q).
Proof. intros [] []. constructor. rewrite elem_of_combine. tauto. Qed.
#[export] Instance set_unfold_intersect k a b P Q :
  SetUnfoldElemOf k a P → SetUnfoldElemOf k b Q → SetUnfoldElemOf k (cap_intersect a b) (P ∧ Q).
Proof. intros [] []. constructor. rewrite elem_of_intersect. tauto. Qed.
#[export] Instance set_unfold_drop k a b P Q :
  SetUnfoldElemOf k a P → SetUnfoldElemOf k b Q → SetUnfoldElemOf k (cap_drop a b) (P ∧ ¬ Q).
Proof. intros [] []. constructor. rewrite elem_of_drop. tauto. Qed.
#[export] Instance set_unfold_cap_empty k : SetUnfoldElemOf k CAP_EMPTY_SET False.
Proof. constructor. apply elem_of_cap_empty. Qed.
#[export] Instance set_unfold_full k :
  SetUnfoldElemOf k CAP_FULL_SET (0 ≤ k ≤ CAP_LAST_CAP).
Proof. constructor. apply elem_of_full. Qed.
#[export] Instance set_unfold_cap_subseteq (a b : kernel_cap_t) P Q :
  (∀ k, SetUnfoldElemOf k a (P k)) → (∀ k, SetUnfoldElemOf k b (Q k)) →
  SetUnfold (a ⊆ b) (∀ k, P k → Q k).
Proof.
  intros Ha Hb. constructor. split; intros H k; specialize (H k).
  - rewrite <- (set_unfold_elem_of k a (P k)), <- (set_unfold_elem_of k b (Q k)). exact H.
  - rewrite (set_unfold_elem_of k a (P k)), (set_unfold_elem_of k b (Q k)). exact H.
Qed.

#[export] Instance cap_subseteq_preorder : PreOrder (⊆@{kernel_cap_t}).
Proof. split; [by intros a k|intros a b c Hab Hbc k ?; by apply Hbc, Hab]. Qed.

Lemma cap_isclear_true a : cap_isclear a = true ↔ a = CAP_EMPTY_SET.
Proof.
  destruct a as [x y]. unfold cap_isclear, CAP_EMPTY_SET. cbn.
  destruct (Z.eqb_spec x 0), (Z.eqb_spec y 0); cbn; split; intros; simplify_eq; done.
Qed.

(** A set without elements is empty when its words are words. *)
Lemma cap_words_ext a b : cap_words a → cap_words b → (∀ k, k ∈ a ↔ k ∈ b) → a = b.
Proof.
  intros [A0 A1] [B0 B1] E.
  assert (∀ x, is_u32 x → ∀ i, 32 ≤ i → Z.testbit x i = false) as Hhi.
  { intros x Hx i Hi. rewrite <- (u32_small x Hx), testbit_u32.
    by rewrite (proj2 (Z.ltb_ge i 32)) by lia. }
  destruct a as [a0 a1], b as [b0 b1]. cbn in *. f_equal; apply Z.bits_inj'; intros i Hi;
    (destruct (decide (32 ≤ i)); [by rewrite !Hhi by (done || lia)|]); apply eq_true_iff_eq.
  - specialize (E i). rewrite !elem_of_cap in E. cbn in E. naive_solver lia.
  - specialize (E (i + 32)). rewrite !elem_of_cap in E. cbn in E.
    replace (i + 32 - 32) with i in E by lia. naive_solver lia.
Qed.

Lemma cap_words_drop a b : cap_words a → cap_words (cap_drop a b).
Proof.
  assert (∀ x y, is_u32 x → is_u32 (x .& u32 (Z.lnot y))) as H.
  { intros x y Hx. split; [apply Z.land_nonneg; lia|].
    replace (x .& u32 (Z.lnot y)) with (u32 (x .& u32 (Z.lnot y))); [apply u32_range|].
    apply Z.bits_inj'. intros i ?. rewrite testbit_u32, Z.land_spec.
    destruct (Z.ltb_spec i 32); [done|]. rewrite testbit_u32.
    rewrite (proj2 (Z.ltb_ge i 32)) by lia. cbn. by rewrite andb_false_r. }
  intros [? ?]. split; cbn; by apply H.
Qed.

Lemma cap_issubset_true a b : cap_words a → cap_issubset a b = true ↔ a ⊆ b.
Proof.
  intros Ha. unfold cap_issubset. rewrite cap_isclear_true. split.
  - intros E k Hk. destruct (decide (k ∈ b)) as [|Hn]; [done|].
    assert (k ∈ cap_drop a b) as H by (rewrite elem_of_drop; done).
    rewrite E in H. by apply elem_of_cap_empty in H.
  - intros H. apply cap_words_ext; [by apply cap_words_drop|repeat split; cbn; lia|].
    intros k. rewrite elem_of_drop, elem_of_cap_empty. specialize (H k). tauto.
Qed.

(** *** Single capabilities *)

Lemma index_mask k : 0 ≤ k < 64 →
  (k < 32 ∧ CAP_TO_INDEX k = 0 ∧ CAP_TO_MASK k = 2 ^ k) ∨
  (32 ≤ k ∧ CAP_TO_INDEX k = 1 ∧ CAP_TO_MASK k = 2 ^ (k - 32)).
Proof.
  intros Hk. unfold CAP_TO_INDEX, CAP_TO_MASK. rewrite Z.shiftr_div_pow2 by lia.
  change (k .& 31) with (k .& Z.ones 5). rewrite Z.land_ones, Z.shiftl_1_l by lia.
  change (2 ^ 5) with 32.
  destruct (decide (k < 32)); [left|right].
  - rewrite Z.mod_small, Z.div_small by lia. rewrite u32_small; [done|].
    split; [lia|apply Z.pow_lt_mono_r; lia].
  - replace (k `mod` 32) with (k - 32) by dlia. replace (k / 32) with 1 by dlia.
    rewrite u32_small; [split_and!; (lia || done)|]. split; [lia|apply Z.pow_lt_mono_r; lia].
Qed.

Lemma land_pow2_zero x i : 0 ≤ i → (x .& 2 ^ i =? 0) = negb (Z.testbit x i).
Proof.
  intros. destruct (Z.testbit x i) eqn:E; cbn.
  - apply Z.eqb_neq. intros H'. assert (Z.testbit (x .& 2 ^ i) i = true) as Hb.
    { rewrite Z.land_spec, Z.pow2_bits_true, E by lia. done. }
    rewrite H', Z.bits_0 in Hb. done.
  - apply Z.eqb_eq. apply Z.bits_inj'. intros j ?. rewrite Z.land_spec, Z.bits_0.
    destruct (decide (i = j)) as [<-|]; [by rewrite E|].
    by rewrite Z.pow2_bits_false, andb_false_r by lia.
Qed.

(** cap_raised is non-zero exactly for the members. *)
Lemma cap_raised_spec c k : 0 ≤ k < 64 →
  ∃ w, cap_raised c k = Some w ∧ (w =? 0) = negb (bool_decide (k ∈ c)).
Proof.
  intros Hk. destruct (index_mask k Hk) as [(? & Hi & Hm)|(? & Hi & Hm)];
    unfold cap_raised; rewrite Hi, Hm; eexists; (split; [reflexivity|]);
    rewrite land_pow2_zero by lia; f_equal; apply eq_true_iff_eq;
    rewrite bool_decide_eq_true, elem_of_cap.
  - split; [intros; left; split; [lia|done]|]. intros [[? ?]|[? ?]]; [done|lia].
  - split; [intros; right; split; [lia|done]|]. intros [[? ?]|[? ?]]; [lia|done].
Qed.

Lemma testbit_clear_pow2 x k i : 0 ≤ i < 32 → 0 ≤ k →
  Z.testbit (x .& u32 (Z.lnot (2 ^ k))) i = true ↔ Z.testbit x i = true ∧ i ≠ k.
Proof.
  intros. rewrite Z.land_spec, testbit_not32, Z.pow2_bits_eqb by lia.
  rewrite andb_true_iff, negb_true_iff, Z.eqb_neq. intuition lia.
Qed.

Lemma land_u32 x y : 0 ≤ x → is_u32 y → is_u32 (x .& y).
Proof.
  intros Hx Hy. split; [apply Z.land_nonneg; lia|].
  replace (x .& y) with (u32 (x .& y)); [apply u32_range|].
  apply Z.bits_inj'. intros i ?. rewrite <- (u32_small y Hy), !testbit_u32, !Z.land_spec, !testbit_u32.
  destruct (Z.ltb_spec i 32); [done|]. cbn. by rewrite andb_false_r.
Qed.

Lemma cap_lower_spec c k : 0 ≤ k < 64 →
  ∃ c', cap_lower c k = Some c' ∧ (∀ j, j ∈ c' ↔ j ∈ c ∧ j ≠ k) ∧ (cap_words c → cap_words c').
Proof.
  intros Hk. unfold cap_lower.
  destruct (index_mask k Hk) as [(? & Hi & Hm)|(? & Hi & Hm)]; rewrite Hi, Hm; cbn;
    eexists; (split; [reflexivity|]); (split; [intros j|]).
  - rewrite !elem_of_cap. cbn. split.
    + intros [[? Hb]|?]; [|naive_solver lia]. apply testbit_clear_pow2 in Hb; naive_solver lia.
    + intros [[[? ?]|?] ?]; [left|naive_solver]. split; [done|]. by apply testbit_clear_pow2; auto; lia.
  - intros [? ?]. split; cbn; [|done]. apply land_u32; [lia|apply u32_range].
  - rewrite !elem_of_cap. cbn. split.
    + intros [?|[? Hb]]; [naive_solver lia|]. apply testbit_clear_pow2 in Hb; naive_solver lia.
    + intros [[?|[? ?]] ?]; [naive_solver|right]. split; [done|].
      apply testbit_clear_pow2; [lia|lia|]. split; [done|lia].
  - intros [? ?]. split; cbn; [done|]. apply land_u32; [lia|apply u32_range].
Qed.

(** *** The operations on words *)

Lemma lor_u32 x y : is_u32 x → is_u32 y → is_u32 (x .| y).
Proof.
  intros Hx Hy. replace (x .| y) with (u32 (x .| y)); [apply u32_range|].
  apply Z.bits_inj'. intros i ?.
  rewrite <- (u32_small y Hy), <- (u32_small x Hx), !testbit_u32, !Z.lor_spec, !testbit_u32.
  by destruct (Z.ltb_spec i 32).
Qed.

Lemma cap_words_combine a b : cap_words a → cap_words b → cap_words (cap_combine a b).
Proof. intros [? ?] [? ?]. split; cbn; by apply lor_u32. Qed.
Lemma cap_words_intersect a b : cap_words a → cap_words b → cap_words (cap_intersect a b).
Proof. intros [? ?] [? ?]. split; cbn; apply land_u32; (done || lia). Qed.
Lemma cap_words_empty : cap_words CAP_EMPTY_SET.
Proof. repeat split; cbn; lia. Qed.
Lemma cap_words_full : cap_words CAP_FULL_SET.
Proof. repeat split; vm_compute; congruence. Qed.
Lemma cap_words_fs : cap_words CAP_FS_SET.
Proof. repeat split; vm_compute; congruence. Qed.

Create HintDb caps.
#[export] Hint Resolve cap_words_combine cap_words_intersect cap_words_drop cap_words_empty
  cap_words_full cap_words_fs : caps.
