(* ===== verification/Capability.v ===== *)
(** * Capability: who may do what (security/commoncap.c, kernel/capability.c)

    The credentials of a task, the question whether a task has a capability
    (cap_capable with its walk through the user namespaces, and the functions of
    kernel/capability.c around it), and the hooks of the capability module that
    decide changes of credentials: capset, exec, the setuid fix-up, prctl, ptrace,
    scheduling and extended attributes.

    The configuration is the one of the product (mst1_margo_optee_defconfig):
    CONFIG_SECURITY with SELinux as the active module, which asks the capability
    module first; CONFIG_ANDROID_PARANOID_NETWORK; no CONFIG_USER_NS, so that ids
    map to themselves.  The verdicts of SELinux and of the allocators are the class
    [cap_env].  Credentials are values: their reference counts are not modelled, and
    since the kernel destroys them in RCU callbacks, neither is their destruction. *)

From S2P Require Import Prelude Strings Groups CapSet.

(** ** State *)

Definition E_PERM : Z := 1.
Definition E_SRCH : Z := 3.
Definition E_AGAIN : Z := 11.
Definition E_NOMEM : Z := 12.
Definition E_ACCES : Z := 13.
Definition E_FAULT : Z := 14.
Definition E_INVAL : Z := 22.
Definition E_NOSYS : Z := 38.
Definition E_NODATA : Z := 61.
Definition E_OPNOTSUPP : Z := 95.

(** struct cred; [ids] has the uids, the gids and the address of the group_info. *)
Record kcred := KCred {
  ids : cred; securebits : Z;
  cap_inheritable : kernel_cap_t; cap_permitted : kernel_cap_t;
  cap_effective : kernel_cap_t; cap_bset : kernel_cap_t;
  user_ns : Z
}.

Definition with_ids (c : kcred) (x : cred) : kcred :=
  KCred x (securebits c) (cap_inheritable c) (cap_permitted c) (cap_effective c) (cap_bset c) (user_ns c).
Definition with_securebits (c : kcred) (x : Z) : kcred :=
  KCred (ids c) x (cap_inheritable c) (cap_permitted c) (cap_effective c) (cap_bset c) (user_ns c).
Definition with_inheritable (c : kcred) (x : kernel_cap_t) : kcred :=
  KCred (ids c) (securebits c) x (cap_permitted c) (cap_effective c) (cap_bset c) (user_ns c).
Definition with_permitted (c : kcred) (x : kernel_cap_t) : kcred :=
  KCred (ids c) (securebits c) (cap_inheritable c) x (cap_effective c) (cap_bset c) (user_ns c).
Definition with_effective (c : kcred) (x : kernel_cap_t) : kcred :=
  KCred (ids c) (securebits c) (cap_inheritable c) (cap_permitted c) x (cap_bset c) (user_ns c).
Definition with_bset (c : kcred) (x : kernel_cap_t) : kcred :=
  KCred (ids c) (securebits c) (cap_inheritable c) (cap_permitted c) (cap_effective c) x (user_ns c).

Record user_namespace := UserNs { ns_parent : Z; ns_level : Z; ns_owner : Z }.

(** What the modelled code uses of task_struct; [mm_dumpable] is [None] for a kernel
    thread, which has no mm; [t_overridden] says that task->cred is not task->real_cred
    (override_creds). *)
Record task := Task {
  t_cred : kcred; t_flags : Z; t_no_new_privs : bool; t_ptrace : Z;
  mm_dumpable : option Z; pdeath_signal : Z; t_overridden : bool
}.

(** The current task, the others by pid, the group_info objects and the namespaces;
    the usage counts of the current task's credentials and of the credentials under
    construction between prepare_creds and commit_creds or abort_creds. *)
Record ksys := KSys {
  current : task; current_pid : Z; tasks : gmap Z task;
  group_infos : gstore; namespaces : gmap Z user_namespace;
  cred_usage : Z; new_usage : Z
}.

Definition with_current (s : ksys) (t : task) : ksys :=
  KSys t (current_pid s) (tasks s) (group_infos s) (namespaces s) (cred_usage s) (new_usage s).
Definition with_group_infos (s : ksys) (h : gstore) : ksys :=
  KSys (current s) (current_pid s) (tasks s) h (namespaces s) (cred_usage s) (new_usage s).
Definition with_usages (s : ksys) (c n : Z) : ksys :=
  KSys (current s) (current_pid s) (tasks s) (group_infos s) (namespaces s) c n.
Definition with_cred (t : task) (c : kcred) : task :=
  Task c (t_flags t) (t_no_new_privs t) (t_ptrace t) (mm_dumpable t) (pdeath_signal t) (t_overridden t).
Definition with_flags (t : task) (f : Z) : task :=
  Task (t_cred t) f (t_no_new_privs t) (t_ptrace t) (mm_dumpable t) (pdeath_signal t) (t_overridden t).

Definition current_cred (s : ksys) : kcred := t_cred (current s).

(** &init_user_ns *)
Definition init_user_ns : Z := 1.
(** current_user_ns(), without CONFIG_USER_NS *)
Definition current_user_ns : Z := init_user_ns.
Definition make_kuid (ns uid : Z) : Z := uid.
Definition make_kgid (ns gid : Z) : Z := gid.

Definition PF_SUPERPRIV : Z := 0x100.
Definition PF_NPROC_EXCEEDED : Z := 0x1000.
Definition AID_NET_RAW : Z := 3004.
Definition AID_NET_ADMIN : Z := 3005.

Definition SECURE_NOROOT : Z := 0.
Definition SECURE_NO_SETUID_FIXUP : Z := 2.
Definition SECURE_KEEP_CAPS : Z := 4.
Definition SECURE_KEEP_CAPS_LOCKED : Z := 5.
Definition issecure_mask (x : Z) : Z := Z.shiftl 1 x.
Definition SECURE_ALL_BITS : Z :=
  issecure_mask SECURE_NOROOT .| issecure_mask SECURE_NO_SETUID_FIXUP .| issecure_mask SECURE_KEEP_CAPS.
Definition SECURE_ALL_LOCKS : Z := Z.shiftl SECURE_ALL_BITS 1.

(** issecure(X) asks the credentials of the current task. *)
Definition issecure (s : ksys) (x : Z) : bool :=
  negb (issecure_mask x .& securebits (current_cred s) =? 0).

(** The verdicts of SELinux (the access vector cache), of the audit subsystem and of
    the allocators during one system call. *)
Class cap_env : Type := {
  cred_has_capability : kcred → Z → bool → Z;
  cred_has_perm_setcap : kcred → kcred → Z;
  current_has_perm_getcap : task → Z;
  selinux_bprm_transition : kcred → Z * bool;
  audit_log_bprm_fcaps : kcred → kcred → Z;
  file_caps_enabled : bool;
  creds_alloc : bool;
  security_prepare_creds : bool;
  alloc_uid : Z → option bool;
  suid_dumpable : Z
}.

(** ** Asking for a capability *)

(** The loop of cap_capable; [fuel] bounds the depth of the namespace. *)
Fixpoint cap_capable_walk (fuel : nat) (s : ksys) (cr : kcred) (ns cap : Z) : option Z :=
  match fuel with
  | O => None
  | S fuel =>
      if ns =? user_ns cr then
        w ← cap_raised (cap_effective cr) cap; Some (if negb (w =? 0) then 0 else - E_PERM)
      else if ns =? init_user_ns then Some (- E_PERM)
      else
        n ← namespaces s !! ns;
        if (ns_parent n =? user_ns cr) && (ns_owner n =? euid (ids cr)) then Some 0
        else cap_capable_walk fuel s cr (ns_parent n) cap
  end.

Definition ns_depth (s : ksys) (ns : Z) : nat :=
  match namespaces s !! ns with Some n => Z.to_nat (ns_level n) | None => 0 end.

Definition cap_capable (s : ksys) (cr : kcred) (targ_ns cap : Z) (audit : bool) : option Z :=
  raw ← (if cap =? CAP_NET_RAW
         then in_egroup_p (group_infos s) (ids (current_cred s)) AID_NET_RAW else Some 0);
  if negb (raw =? 0) then Some 0 else
  admin ← (if cap =? CAP_NET_ADMIN
           then in_egroup_p (group_infos s) (ids (current_cred s)) AID_NET_ADMIN else Some 0);
  if negb (admin =? 0) then Some 0
  else cap_capable_walk (S (ns_depth s targ_ns)) s cr targ_ns cap.

Section Hooks.
Context {E : cap_env}.

(** security_capable: the hook of the active module, selinux_capable. *)
Definition selinux_capable (s : ksys) (cr : kcred) (ns cap : Z) (audit : bool) : option Z :=
  rc ← cap_capable s cr ns cap audit;
  if negb (rc =? 0) then Some rc else Some (cred_has_capability cr cap audit).
Definition security_capable (s : ksys) (cr : kcred) (ns cap : Z) : option Z :=
  selinux_capable s cr ns cap true.
Definition security_capable_noaudit (s : ksys) (cr : kcred) (ns cap : Z) : option Z :=
  selinux_capable s cr ns cap false.

Definition has_ns_capability (s : ksys) (t : task) (ns cap : Z) : option bool :=
  ret ← security_capable s (t_cred t) ns cap; Some (ret =? 0).
Definition has_capability (s : ksys) (t : task) (cap : Z) : option bool :=
  has_ns_capability s t init_user_ns cap.
Definition has_ns_capability_noaudit (s : ksys) (t : task) (ns cap : Z) : option bool :=
  ret ← security_capable_noaudit s (t_cred t) ns cap; Some (ret =? 0).
Definition has_capability_noaudit (s : ksys) (t : task) (cap : Z) : option bool :=
  has_ns_capability_noaudit s t init_user_ns cap.

Definition set_current_flags (f : Z → Z) : prog ksys unit :=
  modify (λ s, with_current s (with_flags (current s) (f (t_flags (current s))))).

Definition ns_capable (ns cap : Z) : prog ksys bool :=
  if negb (cap_valid cap) then wrong
  else
    s ← gets id;
    rc ← lift (security_capable s (current_cred s) ns cap);
    if rc =? 0 then _ ← set_current_flags (λ f, f .| PF_SUPERPRIV); mret true
    else mret false.
Definition capable (cap : Z) : prog ksys bool := ns_capable init_user_ns cap.
Definition nsown_capable (cap : Z) : prog ksys bool := ns_capable current_user_ns cap.

(** [f_cred] are the credentials the file was opened with. *)
Definition file_ns_capable (s : ksys) (f_cred : kcred) (ns cap : Z) : option bool :=
  if negb (cap_valid cap) then Some false
  else rc ← security_capable s f_cred ns cap; Some (rc =? 0).

(** Without CONFIG_USER_NS every id has a mapping. *)
Definition kuid_has_mapping (ns uid : Z) : bool := true.
Definition kgid_has_mapping (ns gid : Z) : bool := true.
Definition capable_wrt_inode_uidgid (i_uid i_gid cap : Z) : prog ksys bool :=
  let ns := current_user_ns in
  ok ← ns_capable ns cap;
  mret (ok && kuid_has_mapping ns i_uid && kgid_has_mapping ns i_gid).

(** ** The simple hooks of commoncap.c *)

Definition cap_settime : prog ksys Z :=
  ok ← capable CAP_SYS_TIME; if negb ok then mret (- E_PERM) else mret 0.

Definition cap_ptrace_access_check (child : task) : prog ksys Z :=
  cr ← gets current_cred;
  let child_cred := t_cred child in
  if (user_ns cr =? user_ns child_cred) && cap_issubset (cap_permitted child_cred) (cap_permitted cr)
  then mret 0
  else
    ok ← ns_capable (user_ns child_cred) CAP_SYS_PTRACE;
    if (ok : bool) then mret 0 else mret (- E_PERM).

Definition cap_ptrace_traceme (parent : task) : prog ksys Z :=
  s ← gets id;
  let cr := t_cred parent in
  let child_cred := current_cred s in
  if (user_ns cr =? user_ns child_cred) && cap_issubset (cap_permitted child_cred) (cap_permitted cr)
  then mret 0
  else
    ok ← lift (has_ns_capability s parent (user_ns child_cred) CAP_SYS_PTRACE);
    if (ok : bool) then mret 0 else mret (- E_PERM).

(** (effective, inheritable, permitted); the return value is always 0. *)
Definition cap_capget (target : task) : kernel_cap_t * kernel_cap_t * kernel_cap_t :=
  (cap_effective (t_cred target), cap_inheritable (t_cred target), cap_permitted (t_cred target)).

Definition cap_safe_nice (p : task) : prog ksys Z :=
  cr ← gets current_cred;
  let is_subset := cap_issubset (cap_permitted (t_cred p)) (cap_permitted cr) in
  if negb is_subset then
    ok ← capable CAP_SYS_NICE;
    if negb ok then mret (- E_PERM) else mret 0
  else mret 0.
Definition cap_task_setscheduler (p : task) : prog ksys Z := cap_safe_nice p.
Definition cap_task_setioprio (p : task) (ioprio : Z) : prog ksys Z := cap_safe_nice p.
Definition cap_task_setnice (p : task) (nice : Z) : prog ksys Z := cap_safe_nice p.

Definition cap_mmap_addr (dac_mmap_min_addr addr : Z) : prog ksys Z :=
  if addr <? dac_mmap_min_addr then
    s ← gets id;
    ret ← lift (cap_capable s (current_cred s) init_user_ns CAP_SYS_RAWIO true);
    if ret =? 0 then _ ← set_current_flags (λ f, f .| PF_SUPERPRIV); mret ret
    else mret ret
  else mret 0.

(** __vm_enough_memory is the memory manager's. *)
Definition cap_vm_enough_memory (vm_enough_memory : Z → Z → Z) (pages : Z) : prog ksys Z :=
  s ← gets id;
  rc ← lift (cap_capable s (current_cred s) init_user_ns CAP_SYS_ADMIN false);
  let cap_sys_admin := if rc =? 0 then 1 else 0 in
  mret (vm_enough_memory pages cap_sys_admin).

(** [name] points to the name, [caps] and [sec] to the literals
    "security.capability" and "security."; the prefix is compared with strncmp. *)
Definition cap_inode_setxattr (M : mem) (name caps sec : Z) : prog ksys Z :=
  d ← lift (strcmp M name caps);
  if d =? 0 then ok ← capable CAP_SETFCAP; if negb ok then mret (- E_PERM) else mret 0
  else
    d ← lift (strncmp M name sec 9);
    if d =? 0 then ok ← capable CAP_SYS_ADMIN; if negb ok then mret (- E_PERM) else mret 0
    else mret 0.
Definition cap_inode_removexattr (M : mem) (name caps sec : Z) : prog ksys Z :=
  d ← lift (strcmp M name caps);
  if d =? 0 then ok ← capable CAP_SETFCAP; if negb ok then mret (- E_PERM) else mret 0
  else
    d ← lift (strncmp M name sec 9);
    if d =? 0 then ok ← capable CAP_SYS_ADMIN; if negb ok then mret (- E_PERM) else mret 0
    else mret 0.

(** [getxattr] and [removexattr] of the inode, [None] when it has no such operation. *)
Definition cap_inode_need_killpriv (getxattr : option Z) : Z :=
  match getxattr with
  | None => 0
  | Some error => if error <=? 0 then 0 else 1
  end.
Definition cap_inode_killpriv (removexattr : option Z) : Z :=
  match removexattr with None => 0 | Some rc => rc end.

(** ** capset *)

Definition cap_inh_is_capped (s : ksys) : option bool :=
  rc ← cap_capable s (current_cred s) (user_ns (current_cred s)) CAP_SETPCAP true;
  Some (negb (rc =? 0)).

(** The result and the new credentials, which are [new] unless it is 0. *)
Definition cap_capset (s : ksys) (new old : kcred) (effective inheritable permitted : kernel_cap_t)
  : option (Z * kcred) :=
  capped ← cap_inh_is_capped s;
  if capped && negb (cap_issubset inheritable (cap_combine (cap_inheritable old) (cap_permitted old)))
  then Some (- E_PERM, new)
  else if negb (cap_issubset inheritable (cap_combine (cap_inheritable old) (cap_bset old)))
  then Some (- E_PERM, new)
  else if negb (cap_issubset permitted (cap_permitted old)) then Some (- E_PERM, new)
  else if negb (cap_issubset effective permitted) then Some (- E_PERM, new)
  else Some (0, with_permitted (with_inheritable (with_effective new effective) inheritable) permitted).

Definition selinux_capset (s : ksys) (new old : kcred) (effective inheritable permitted : kernel_cap_t)
  : option (Z * kcred) :=
  '(error, new) ← cap_capset s new old effective inheritable permitted;
  if negb (error =? 0) then Some (error, new) else Some (cred_has_perm_setcap old new, new).

(** ** The set-uid fix-up *)

Definition LSM_SETID_ID : Z := 1.
Definition LSM_SETID_RE : Z := 2.
Definition LSM_SETID_RES : Z := 4.
Definition LSM_SETID_FS : Z := 8.

Definition cap_emulate_setxuid (s : ksys) (new old : kcred) : kcred :=
  let root_uid := make_kuid (user_ns old) 0 in
  let new :=
    if ((uid (ids old) =? root_uid) || (euid (ids old) =? root_uid) || (suid (ids old) =? root_uid))
       && (negb (uid (ids new) =? root_uid) && negb (euid (ids new) =? root_uid)
           && negb (suid (ids new) =? root_uid))
       && negb (issecure s SECURE_KEEP_CAPS)
    then with_effective (with_permitted new CAP_EMPTY_SET) CAP_EMPTY_SET else new in
  let new := if (euid (ids old) =? root_uid) && negb (euid (ids new) =? root_uid)
             then with_effective new CAP_EMPTY_SET else new in
  if negb (euid (ids old) =? root_uid) && (euid (ids new) =? root_uid)
  then with_effective new (cap_permitted new) else new.

Definition cap_task_fix_setuid (s : ksys) (new old : kcred) (flags : Z) : Z * kcred :=
  if (flags =? LSM_SETID_RE) || (flags =? LSM_SETID_ID) || (flags =? LSM_SETID_RES) then
    (0, if negb (issecure s SECURE_NO_SETUID_FIXUP) then cap_emulate_setxuid s new old else new)
  else if flags =? LSM_SETID_FS then
    if negb (issecure s SECURE_NO_SETUID_FIXUP) then
      let root_uid := make_kuid (user_ns old) 0 in
      let new := if (fsuid (ids old) =? root_uid) && negb (fsuid (ids new) =? root_uid)
                 then with_effective new (cap_drop_fs_set (cap_effective new)) else new in
      let new := if negb (fsuid (ids old) =? root_uid) && (fsuid (ids new) =? root_uid)
                 then with_effective new (cap_raise_fs_set (cap_effective new) (cap_permitted new))
                 else new in
      (0, new)
    else (0, new)
  else (- E_INVAL, new).

(** ** exec *)

(** struct vfs_cap_data as the 20 bytes of the extended attribute. *)
Definition VFS_CAP_REVISION_MASK : Z := 0xFF000000.
Definition VFS_CAP_FLAGS_EFFECTIVE : Z := 1.
Definition VFS_CAP_REVISION_1 : Z := 0x01000000.
Definition VFS_CAP_REVISION_2 : Z := 0x02000000.
Definition XATTR_CAPS_SZ_1 : Z := 12.
Definition XATTR_CAPS_SZ_2 : Z := 20.

Record cpu_vfs_cap_data := VfsCaps { magic_etc : Z; f_permitted : kernel_cap_t; f_inheritable : kernel_cap_t }.

(** The file that exec opens: its mount and inode; [x_caps] is [None] when the inode
    has no getxattr, or the result of getxattr and what it left in the buffer. *)
Record exec_file := ExecFile {
  f_has_op : bool; mnt_nosuid : bool;
  i_mode : Z; i_uid : Z; i_gid : Z; x_caps : option (Z * list Z)
}.

(** struct linux_binprm *)
Record linux_binprm := Binprm {
  b_cred : kcred; b_cap_effective : bool; per_clear : Z; unsafe : Z; cred_prepared : bool
}.
Definition with_bcred (b : linux_binprm) (c : kcred) : linux_binprm :=
  Binprm c (b_cap_effective b) (per_clear b) (unsafe b) (cred_prepared b).
Definition with_bcap_effective (b : linux_binprm) (x : bool) : linux_binprm :=
  Binprm (b_cred b) x (per_clear b) (unsafe b) (cred_prepared b).
Definition or_per_clear (b : linux_binprm) (x : Z) : linux_binprm :=
  Binprm (b_cred b) (b_cap_effective b) (per_clear b .| x) (unsafe b) (cred_prepared b).

Definition PER_CLEAR_ON_SETID : Z := 0x0400000 .| 0x0040000 .| 0x0200000 .| 0x0100000.
Definition LSM_UNSAFE_SHARE : Z := 1.
Definition LSM_UNSAFE_PTRACE : Z := 2.
Definition LSM_UNSAFE_PTRACE_CAP : Z := 4.
Definition LSM_UNSAFE_NO_NEW_PRIVS : Z := 8.

Definition bprm_clear_caps (b : linux_binprm) : linux_binprm :=
  with_bcap_effective (with_bcred b (with_permitted (b_cred b) CAP_EMPTY_SET)) false.

(** le32_to_cpu of the four bytes at [off]. *)
Definition le32_at (bs : list Z) (off : Z) : option Z :=
  b0 ← rd bs off; b1 ← rd bs (off + 1); b2 ← rd bs (off + 2); b3 ← rd bs (off + 3);
  Some (b0 + b1 * 2 ^ 8 + b2 * 2 ^ 16 + b3 * 2 ^ 24).

(** The result and the structure; [None] is a read outside of the buffer. *)
Definition get_vfs_caps_from_disk (x : option (Z * list Z)) : option (Z * cpu_vfs_cap_data) :=
  let zero := VfsCaps 0 CAP_EMPTY_SET CAP_EMPTY_SET in
  match x with
  | None => Some (- E_NODATA, zero)
  | Some (size, caps) =>
      if (size =? - E_NODATA) || (size =? - E_OPNOTSUPP) then Some (- E_NODATA, zero)
      else if size <? 0 then Some (size, zero)
      else if size <? 4 then Some (- E_INVAL, zero)
      else
        magic ← le32_at caps 0;
        let some_caps := VfsCaps magic CAP_EMPTY_SET CAP_EMPTY_SET in
        let rev := magic .& VFS_CAP_REVISION_MASK in
        if rev =? VFS_CAP_REVISION_1 then
          if negb (size =? XATTR_CAPS_SZ_1) then Some (- E_INVAL, some_caps)
          else
            p0 ← le32_at caps 4; i0 ← le32_at caps 8;
            Some (0, VfsCaps magic (KCap p0 (0 .& CAP_LAST_U32_VALID_MASK))
                                   (KCap i0 (0 .& CAP_LAST_U32_VALID_MASK)))
        else if rev =? VFS_CAP_REVISION_2 then
          if negb (size =? XATTR_CAPS_SZ_2) then Some (- E_INVAL, some_caps)
          else
            p0 ← le32_at caps 4; i0 ← le32_at caps 8;
            p1 ← le32_at caps 12; i1 ← le32_at caps 16;
            Some (0, VfsCaps magic (KCap p0 (p1 .& CAP_LAST_U32_VALID_MASK))
                                   (KCap i0 (i1 .& CAP_LAST_U32_VALID_MASK)))
        else Some (- E_INVAL, some_caps)
  end.

(** (result, bprm, *effective, *has_cap); the loop sets each word of cap_permitted. *)
Definition vfs_word (bset inh p i : Z) : Z := (bset .& p) .| (inh .& i).
Definition bprm_caps_from_vfs_caps (caps : cpu_vfs_cap_data) (b : linux_binprm) (effective has_cap : bool)
  : Z * linux_binprm * bool * bool :=
  let new := b_cred b in
  let effective := if negb (magic_etc caps .& VFS_CAP_FLAGS_EFFECTIVE =? 0) then true else effective in
  let has_cap := if negb (magic_etc caps .& VFS_CAP_REVISION_MASK =? 0) then true else has_cap in
  let p0 := vfs_word (cap_0 (cap_bset new)) (cap_0 (cap_inheritable new))
                     (cap_0 (f_permitted caps)) (cap_0 (f_inheritable caps)) in
  let p1 := vfs_word (cap_1 (cap_bset new)) (cap_1 (cap_inheritable new))
                     (cap_1 (f_permitted caps)) (cap_1 (f_inheritable caps)) in
  let ret := if negb (cap_0 (f_permitted caps) .& u32 (Z.lnot p0) =? 0)
                || negb (cap_1 (f_permitted caps) .& u32 (Z.lnot p1) =? 0) then - E_PERM else 0 in
  let b := with_bcred b (with_permitted new (KCap p0 p1)) in
  (if effective then ret else 0, b, effective, has_cap).

Definition get_file_caps (f : exec_file) (b : linux_binprm) (effective has_cap : bool)
  : option (Z * linux_binprm * bool * bool) :=
  let b := bprm_clear_caps b in
  if negb file_caps_enabled then Some (0, b, effective, has_cap)
  else if mnt_nosuid f then Some (0, b, effective, has_cap)
  else
    '(rc, vcaps) ← get_vfs_caps_from_disk (x_caps f);
    if rc <? 0 then
      let rc := if rc =? - E_NODATA then 0 else rc in
      Some (rc, if negb (rc =? 0) then bprm_clear_caps b else b, effective, has_cap)
    else
      let '(rc, b, effective, has_cap) := bprm_caps_from_vfs_caps vcaps b effective has_cap in
      Some (rc, if negb (rc =? 0) then bprm_clear_caps b else b, effective, has_cap).

(** The root rules: the effective flag and the permitted set for uid or euid 0. *)
Definition bprm_root (s : ksys) (b : linux_binprm) (effective has_cap : bool) : linux_binprm * bool :=
  let old := current_cred s in
  let new := b_cred b in
  let root_uid := make_kuid (user_ns new) 0 in
  if negb (issecure s SECURE_NOROOT) then
    if has_cap && negb (uid (ids new) =? root_uid) && (euid (ids new) =? root_uid) then (b, effective)
    else
      let b := if (euid (ids new) =? root_uid) || (uid (ids new) =? root_uid)
               then with_bcred b (with_permitted new (cap_combine (cap_bset old) (cap_inheritable old)))
               else b in
      (b, if euid (ids new) =? root_uid then true else effective)
  else (b, effective).

Definition set_eids (c : cred) (eu eg : Z) : cred :=
  Cred (uid c) (gid c) (suid c) (sgid c) eu eg (fsuid c) (fsgid c) (cred_groups c).
Definition set_saved_ids (c : cred) (u g : Z) : cred :=
  Cred (uid c) (gid c) u g (euid c) (egid c) u g (cred_groups c).

(** The downgrade of an exec that someone else could interfere with. *)
Definition bprm_downgrade (b : linux_binprm) : prog ksys linux_binprm :=
  old ← gets current_cred;
  let new := b_cred b in
  if (negb (euid (ids new) =? uid (ids old)) || negb (egid (ids new) =? gid (ids old))
      || negb (cap_issubset (cap_permitted new) (cap_permitted old)))
     && negb (unsafe b .& Z.lnot LSM_UNSAFE_PTRACE_CAP =? 0)
  then
    ok ← capable CAP_SETUID;
    let new := if negb ok || negb (unsafe b .& LSM_UNSAFE_NO_NEW_PRIVS =? 0)
               then with_ids new (set_eids (ids new) (uid (ids new)) (gid (ids new))) else new in
    mret (with_bcred b (with_permitted new (cap_intersect (cap_permitted new) (cap_permitted old))))
  else mret b.

Definition cap_bprm_set_creds (f : exec_file) (b : linux_binprm) : prog ksys (Z * linux_binprm) :=
  s ← gets id;
  let old := current_cred s in
  '(ret, b, effective, has_cap) ← lift (get_file_caps f b false false);
  if ret <? 0 then mret (ret, b)
  else
    let root_uid := make_kuid (user_ns (b_cred b)) 0 in
    let '(b, effective) := bprm_root s b effective has_cap in
    let b := if negb (cap_issubset (cap_permitted (b_cred b)) (cap_permitted old))
             then or_per_clear b PER_CLEAR_ON_SETID else b in
    b ← bprm_downgrade b;
    let new := b_cred b in
    let new := with_ids new (set_saved_ids (ids new) (euid (ids new)) (egid (ids new))) in
    let new := with_effective new (if (effective : bool) then cap_permitted new else CAP_EMPTY_SET) in
    let b := with_bcap_effective (with_bcred b new) effective in
    let ret := if negb (cap_isclear (cap_effective new)) then
                 if negb (cap_issubset CAP_FULL_SET (cap_effective new))
                    || negb (euid (ids new) =? root_uid) || negb (uid (ids new) =? root_uid)
                    || issecure s SECURE_NOROOT
                 then audit_log_bprm_fcaps new old else 0
               else 0 in
    if ret <? 0 then mret (ret, b)
    else mret (0, with_bcred b
      (with_securebits new (securebits new .& u32 (Z.lnot (issecure_mask SECURE_KEEP_CAPS))))).

(** The hook of SELinux; the domain transition is [selinux_bprm_transition]: its
    result and whether it clears the personality. *)
Definition selinux_bprm_set_creds (f : exec_file) (b : linux_binprm) : prog ksys (Z * linux_binprm) :=
  '(rc, b) ← cap_bprm_set_creds f b;
  if negb (rc =? 0) then mret (rc, b)
  else if cred_prepared b then mret (0, b)
  else
    let '(rc, clear) := selinux_bprm_transition (b_cred b) in
    mret (rc, if clear : bool then or_per_clear b PER_CLEAR_ON_SETID else b).

Definition cap_bprm_secureexec (s : ksys) (b_effective : bool) : bool :=
  let cr := current_cred s in
  let root_uid := make_kuid (user_ns cr) 0 in
  if negb (uid (ids cr) =? root_uid) && b_effective then true
  else if negb (uid (ids cr) =? root_uid) && negb (cap_isclear (cap_permitted cr)) then true
  else negb (euid (ids cr) =? uid (ids cr)) || negb (egid (ids cr) =? gid (ids cr)).

End Hooks.
