(* ===== verification/Credsys.v ===== *)
(** * Credsys: system calls that change credentials

    prepare_creds, commit_creds and abort_creds (kernel/cred.c), the set*uid, set*gid and
    setgroups calls (kernel/sys.c, kernel/groups.c), capget, capset
    (kernel/capability.c), the prctl options of the capability module, and the
    credentials part of exec (fs/exec.c).  What user memory holds is an argument of
    the call: [None] or [false] where the access faults. *)

From S2P Require Import Prelude Groups CapSet Capability.

Section Calls.
Context {E : cap_env}.

(** ** prepare and commit *)

(** Run an operation of kernel/groups.c on the store of group_info objects. *)
Definition on_groups {A} (m : prog gstore A) : prog ksys A := λ s,
  '(a, h) ← m (group_infos s); Some (a, with_group_infos s h).

(** put_cred on credentials with [count] references, the result being what is left:
    the last one gives the group list up (__put_cred and put_cred_rcu, without the
    delay of the latter).  To give up a reference that is not there is an error. *)
Definition put_cred (c : kcred) (count : Z) : prog ksys Z :=
  if count <? 1 then wrong
  else
    _ ← (if count - 1 =? 0 then on_groups (put_group_info (cred_groups (ids c))) else mret tt);
    mret (count - 1).

(** The BUG_ON and the release. *)
Definition abort_creds (new : kcred) : prog ksys unit :=
  n ← gets new_usage;
  if n <? 1 then wrong
  else n ← put_cred new n; modify (λ s, with_usages s (cred_usage s) n).

(** The end of most calls: [error: abort_creds(new); return retval;] *)
Definition abort_return (new : kcred) (retval : Z) : prog ksys Z := _ ← abort_creds new; mret retval.

(** A copy of the current credentials with its own reference to the group list, or
    [None] when memory runs out, for the copy or for SELinux. *)
Definition prepare_creds : prog ksys (option kcred) :=
  if creds_alloc then
    new ← gets current_cred;
    _ ← modify (λ s, with_usages s (cred_usage s) 1);
    _ ← on_groups (get_group_info (cred_groups (ids new)));
    if security_prepare_creds then mret (Some new)
    else _ ← abort_creds new; mret None
  else mret None.

Fixpoint cred_cap_issubset_walk (fuel : nat) (s : ksys) (set : kcred) (subset_ns : Z) : option bool :=
  match fuel with
  | O => None
  | S fuel =>
      if negb (subset_ns =? init_user_ns) then
        n ← namespaces s !! subset_ns;
        if (user_ns set =? ns_parent n) && (ns_owner n =? euid (ids set)) then Some true
        else cred_cap_issubset_walk fuel s set (ns_parent n)
      else Some false
  end.

Definition cred_cap_issubset (s : ksys) (set subset : kcred) : option bool :=
  if user_ns set =? user_ns subset then Some (cap_issubset (cap_permitted subset) (cap_permitted set))
  else cred_cap_issubset_walk (S (ns_depth s (user_ns subset))) s set (user_ns subset).

(** set_dumpable as get_dumpable reads it back; other values change nothing. *)
Definition set_dumpable (old value : Z) : Z :=
  if (0 <=? value) && (value <=? 2) then value else old.

(** The two BUG_ONs, the dumpability, the exchange of the pointers and the release of
    both references to the old credentials; keyrings, process counts and connector
    messages are left out. *)
Definition commit_creds (new : kcred) : prog ksys Z :=
  s ← gets id;
  let t := current s in
  let old := t_cred t in
  if t_overridden t then wrong
  else if new_usage s <? 1 then wrong
  else
    changed ← (if negb (euid (ids old) =? euid (ids new)) || negb (egid (ids old) =? egid (ids new))
                  || negb (fsuid (ids old) =? fsuid (ids new)) || negb (fsgid (ids old) =? fsgid (ids new))
               then mret true
               else sub ← lift (cred_cap_issubset s old new); mret (negb sub));
    let t := if (changed : bool)
             then Task (t_cred t) (t_flags t) (t_no_new_privs t) (t_ptrace t)
                       ((λ d, set_dumpable d suid_dumpable) <$> mm_dumpable t) 0 (t_overridden t)
             else t in
    _ ← modify (λ s, with_usages (with_current s (with_cred t new)) (new_usage s + 1) 0);
    left ← put_cred old (cred_usage s);
    _ ← put_cred old left;
    mret 0.

(** ** uids *)

Definition set_uid_ (c : kcred) (x : Z) : kcred :=
  with_ids c (Cred x (gid (ids c)) (suid (ids c)) (sgid (ids c)) (euid (ids c)) (egid (ids c))
                   (fsuid (ids c)) (fsgid (ids c)) (cred_groups (ids c))).
Definition set_euid_ (c : kcred) (x : Z) : kcred :=
  with_ids c (Cred (uid (ids c)) (gid (ids c)) (suid (ids c)) (sgid (ids c)) x (egid (ids c))
                   (fsuid (ids c)) (fsgid (ids c)) (cred_groups (ids c))).
Definition set_suid_ (c : kcred) (x : Z) : kcred :=
  with_ids c (Cred (uid (ids c)) (gid (ids c)) x (sgid (ids c)) (euid (ids c)) (egid (ids c))
                   (fsuid (ids c)) (fsgid (ids c)) (cred_groups (ids c))).
Definition set_fsuid_ (c : kcred) (x : Z) : kcred :=
  with_ids c (Cred (uid (ids c)) (gid (ids c)) (suid (ids c)) (sgid (ids c)) (euid (ids c))
                   (egid (ids c)) x (fsgid (ids c)) (cred_groups (ids c))).
Definition set_gid_ (c : kcred) (x : Z) : kcred :=
  with_ids c (Cred (uid (ids c)) x (suid (ids c)) (sgid (ids c)) (euid (ids c)) (egid (ids c))
                   (fsuid (ids c)) (fsgid (ids c)) (cred_groups (ids c))).
Definition set_egid_ (c : kcred) (x : Z) : kcred :=
  with_ids c (Cred (uid (ids c)) (gid (ids c)) (suid (ids c)) (sgid (ids c)) (euid (ids c)) x
                   (fsuid (ids c)) (fsgid (ids c)) (cred_groups (ids c))).
Definition set_sgid_ (c : kcred) (x : Z) : kcred :=
  with_ids c (Cred (uid (ids c)) (gid (ids c)) (suid (ids c)) x (euid (ids c)) (egid (ids c))
                   (fsuid (ids c)) (fsgid (ids c)) (cred_groups (ids c))).
Definition set_fsgid_ (c : kcred) (x : Z) : kcred :=
  with_ids c (Cred (uid (ids c)) (gid (ids c)) (suid (ids c)) (sgid (ids c)) (euid (ids c))
                   (egid (ids c)) (fsuid (ids c)) x (cred_groups (ids c))).

(** (uid_t) -1, and uid_valid, gid_valid *)
Definition ID_NONE : Z := 2 ^ 32 - 1.
Definition uid_valid (u : Z) : bool := negb (u =? ID_NONE).
Definition gid_valid (g : Z) : bool := negb (g =? ID_NONE).

(** [alloc_uid u] finds or makes the user_struct; it says whether the user is over
    the limit of processes and not the initial user. *)
Definition set_user (new : kcred) : prog ksys Z :=
  match alloc_uid (uid (ids new)) with
  | None => mret (- E_AGAIN)
  | Some over =>
      _ ← set_current_flags (λ f, if (over : bool) then f .| PF_NPROC_EXCEEDED
                                  else f .& u32 (Z.lnot PF_NPROC_EXCEEDED));
      mret 0
  end.

(** security_task_fix_setuid: SELinux leaves it to the capability module. *)
Definition security_task_fix_setuid (new old : kcred) (flags : Z) : prog ksys (Z * kcred) :=
  s ← gets id; mret (cap_task_fix_setuid s new old flags).

(** The common end: the fix-up and the commit. *)
Definition fix_and_commit (new old : kcred) (flags : Z) : prog ksys Z :=
  '(retval, new) ← security_task_fix_setuid new old flags;
  if retval <? 0 then abort_return new retval else commit_creds new.

(** [a || b || nsown_capable(cap)]: the capability is asked for only when needed. *)
Definition or_nsown_capable (c : bool) (cap : Z) : prog ksys bool :=
  if c then mret true else nsown_capable cap.

Definition setreuid (ruid euid_ : Z) : prog ksys Z :=
  let ns := current_user_ns in
  let kruid := make_kuid ns ruid in
  let keuid := make_kuid ns euid_ in
  if negb (ruid =? ID_NONE) && negb (uid_valid kruid) then mret (- E_INVAL)
  else if negb (euid_ =? ID_NONE) && negb (uid_valid keuid) then mret (- E_INVAL)
  else
    r ← prepare_creds;
    match r with
    | None => mret (- E_NOMEM)
    | Some new =>
        old ← gets current_cred;
        okr ← (if negb (ruid =? ID_NONE)
               then or_nsown_capable ((uid (ids old) =? kruid) || (euid (ids old) =? kruid)) CAP_SETUID
               else mret true);
        if negb okr then abort_return new (- E_PERM)
        else
        let new := if negb (ruid =? ID_NONE) then set_uid_ new kruid else new in
        oke ← (if negb (euid_ =? ID_NONE)
               then or_nsown_capable ((uid (ids old) =? keuid) || (euid (ids old) =? keuid)
                                      || (suid (ids old) =? keuid)) CAP_SETUID
               else mret true);
        if negb oke then abort_return new (- E_PERM)
        else
        let new := if negb (euid_ =? ID_NONE) then set_euid_ new keuid else new in
        retval ← (if negb (uid (ids new) =? uid (ids old)) then set_user new else mret 0);
        if retval <? 0 then abort_return new retval
        else
        let new := if negb (ruid =? ID_NONE) || (negb (euid_ =? ID_NONE) && negb (keuid =? uid (ids old)))
                   then set_suid_ new (euid (ids new)) else new in
        let new := set_fsuid_ new (euid (ids new)) in
        fix_and_commit new old LSM_SETID_RE
    end.

Definition setuid (uid_ : Z) : prog ksys Z :=
  let ns := current_user_ns in
  let kuid := make_kuid ns uid_ in
  if negb (uid_valid kuid) then mret (- E_INVAL)
  else
    r ← prepare_creds;
    match r with
    | None => mret (- E_NOMEM)
    | Some new =>
        old ← gets current_cred;
        ok ← nsown_capable CAP_SETUID;
        '(retval, new) ←
          (if (ok : bool) then
             let new := set_suid_ (set_uid_ new kuid) kuid in
             retval ← (if negb (kuid =? uid (ids old)) then set_user new else mret 0);
             mret (retval, new)
           else if negb (kuid =? uid (ids old)) && negb (kuid =? suid (ids new))
           then mret (- E_PERM, new) else mret (0, new));
        if retval <? 0 then abort_return new retval
        else
        let new := set_fsuid_ (set_euid_ new kuid) kuid in
        fix_and_commit new old LSM_SETID_ID
    end.

(** One id of setresuid and setresgid that an unprivileged caller may set. *)
Definition res_ok (x kx u e sv : Z) : bool :=
  negb (negb (x =? ID_NONE) && negb (kx =? u) && negb (kx =? e) && negb (kx =? sv)).

Definition setresuid (ruid euid_ suid_ : Z) : prog ksys Z :=
  let ns := current_user_ns in
  let kruid := make_kuid ns ruid in
  let keuid := make_kuid ns euid_ in
  let ksuid := make_kuid ns suid_ in
  if negb (ruid =? ID_NONE) && negb (uid_valid kruid) then mret (- E_INVAL)
  else if negb (euid_ =? ID_NONE) && negb (uid_valid keuid) then mret (- E_INVAL)
  else if negb (suid_ =? ID_NONE) && negb (uid_valid ksuid) then mret (- E_INVAL)
  else
    r ← prepare_creds;
    match r with
    | None => mret (- E_NOMEM)
    | Some new =>
        old ← gets current_cred;
        let may x kx := res_ok x kx (uid (ids old)) (euid (ids old)) (suid (ids old)) in
        ok ← nsown_capable CAP_SETUID;
        if negb ok && negb (may ruid kruid && may euid_ keuid && may suid_ ksuid)
        then abort_return new (- E_PERM)
        else
        let new := if negb (ruid =? ID_NONE) then set_uid_ new kruid else new in
        retval ← (if negb (ruid =? ID_NONE) && negb (kruid =? uid (ids old))
                  then set_user new else mret 0);
        if retval <? 0 then abort_return new retval
        else
        let new := if negb (euid_ =? ID_NONE) then set_euid_ new keuid else new in
        let new := if negb (suid_ =? ID_NONE) then set_suid_ new ksuid else new in
        let new := set_fsuid_ new (euid (ids new)) in
        fix_and_commit new old LSM_SETID_RES
    end.

(** overflowuid and overflowgid stand for the invalid id. *)
Definition from_kid_munged (overflow k : Z) : Z := if k =? ID_NONE then overflow else k.

Definition setfsuid (overflowuid uid_ : Z) : prog ksys Z :=
  old ← gets current_cred;
  let old_fsuid := from_kid_munged overflowuid (fsuid (ids old)) in
  let kuid := make_kuid (user_ns old) uid_ in
  if negb (uid_valid kuid) then mret old_fsuid
  else
    r ← prepare_creds;
    match r with
    | None => mret old_fsuid
    | Some new =>
        ok ← or_nsown_capable ((kuid =? uid (ids old)) || (kuid =? euid (ids old))
                               || (kuid =? suid (ids old)) || (kuid =? fsuid (ids old))) CAP_SETUID;
        if ok && negb (kuid =? fsuid (ids old)) then
          '(rc, new) ← security_task_fix_setuid (set_fsuid_ new kuid) old LSM_SETID_FS;
          if rc =? 0 then _ ← commit_creds new; mret old_fsuid else abort_return new old_fsuid
        else abort_return new old_fsuid
    end.

(** ** gids and groups *)

Definition setregid (rgid egid_ : Z) : prog ksys Z :=
  let ns := current_user_ns in
  let krgid := make_kgid ns rgid in
  let kegid := make_kgid ns egid_ in
  if negb (rgid =? ID_NONE) && negb (gid_valid krgid) then mret (- E_INVAL)
  else if negb (egid_ =? ID_NONE) && negb (gid_valid kegid) then mret (- E_INVAL)
  else
    r ← prepare_creds;
    match r with
    | None => mret (- E_NOMEM)
    | Some new =>
        old ← gets current_cred;
        okr ← (if negb (rgid =? ID_NONE)
               then or_nsown_capable ((gid (ids old) =? krgid) || (egid (ids old) =? krgid)) CAP_SETGID
               else mret true);
        if negb okr then abort_return new (- E_PERM)
        else
        let new := if negb (rgid =? ID_NONE) then set_gid_ new krgid else new in
        oke ← (if negb (egid_ =? ID_NONE)
               then or_nsown_capable ((gid (ids old) =? kegid) || (egid (ids old) =? kegid)
                                      || (sgid (ids old) =? kegid)) CAP_SETGID
               else mret true);
        if negb oke then abort_return new (- E_PERM)
        else
        let new := if negb (egid_ =? ID_NONE) then set_egid_ new kegid else new in
        let new := if negb (rgid =? ID_NONE) || (negb (egid_ =? ID_NONE) && negb (kegid =? gid (ids old)))
                   then set_sgid_ new (egid (ids new)) else new in
        commit_creds (set_fsgid_ new (egid (ids new)))
    end.

Definition setgid (gid_ : Z) : prog ksys Z :=
  let ns := current_user_ns in
  let kgid := make_kgid ns gid_ in
  if negb (gid_valid kgid) then mret (- E_INVAL)
  else
    r ← prepare_creds;
    match r with
    | None => mret (- E_NOMEM)
    | Some new =>
        old ← gets current_cred;
        ok ← nsown_capable CAP_SETGID;
        if (ok : bool) then
          commit_creds (set_fsgid_ (set_sgid_ (set_egid_ (set_gid_ new kgid) kgid) kgid) kgid)
        else if (kgid =? gid (ids old)) || (kgid =? sgid (ids old)) then
          commit_creds (set_fsgid_ (set_egid_ new kgid) kgid)
        else abort_return new (- E_PERM)
    end.

Definition setresgid (rgid egid_ sgid_ : Z) : prog ksys Z :=
  let ns := current_user_ns in
  let krgid := make_kgid ns rgid in
  let kegid := make_kgid ns egid_ in
  let ksgid := make_kgid ns sgid_ in
  if negb (rgid =? ID_NONE) && negb (gid_valid krgid) then mret (- E_INVAL)
  else if negb (egid_ =? ID_NONE) && negb (gid_valid kegid) then mret (- E_INVAL)
  else if negb (sgid_ =? ID_NONE) && negb (gid_valid ksgid) then mret (- E_INVAL)
  else
    r ← prepare_creds;
    match r with
    | None => mret (- E_NOMEM)
    | Some new =>
        old ← gets current_cred;
        let may x kx := res_ok x kx (gid (ids old)) (egid (ids old)) (sgid (ids old)) in
        ok ← nsown_capable CAP_SETGID;
        if negb ok && negb (may rgid krgid && may egid_ kegid && may sgid_ ksgid)
        then abort_return new (- E_PERM)
        else
        let new := if negb (rgid =? ID_NONE) then set_gid_ new krgid else new in
        let new := if negb (egid_ =? ID_NONE) then set_egid_ new kegid else new in
        let new := if negb (sgid_ =? ID_NONE) then set_sgid_ new ksgid else new in
        commit_creds (set_fsgid_ new (egid (ids new)))
    end.

Definition setfsgid (overflowgid gid_ : Z) : prog ksys Z :=
  old ← gets current_cred;
  let old_fsgid := from_kid_munged overflowgid (fsgid (ids old)) in
  let kgid := make_kgid (user_ns old) gid_ in
  if negb (gid_valid kgid) then mret old_fsgid
  else
    r ← prepare_creds;
    match r with
    | None => mret old_fsgid
    | Some new =>
        ok ← or_nsown_capable ((kgid =? gid (ids old)) || (kgid =? egid (ids old))
                               || (kgid =? sgid (ids old)) || (kgid =? fsgid (ids old))) CAP_SETGID;
        if ok && negb (kgid =? fsgid (ids old))
        then _ ← commit_creds (set_fsgid_ new kgid); mret old_fsgid
        else abort_return new old_fsgid
    end.

(** userns_may_setgroups is true without CONFIG_USER_NS. *)
Definition userns_may_setgroups (ns : Z) : bool := true.
Definition may_setgroups : prog ksys bool :=
  ok ← ns_capable current_user_ns CAP_SETGID;
  mret (ok && userns_may_setgroups current_user_ns).

Definition set_current_groups (p : Z) : prog ksys Z :=
  r ← prepare_creds;
  match r with
  | None => mret (- E_NOMEM)
  | Some new =>
      '(ret, c) ← on_groups (set_groups (ids new) p);
      let new := with_ids new c in
      if ret <? 0 then abort_return new ret else commit_creds new
  end.

(** [p] is the address of the new group_info; the other arguments are what
    groups_alloc gets from the allocators and groups_from_user from user memory. *)
Definition setgroups (gidsetsize p : Z) (kmalloc : option (list Z)) (page : nat → option (list Z))
  (get_user : Z → option Z) : prog ksys Z :=
  ok ← may_setgroups;
  if negb ok then mret (- E_PERM)
  else if NGROUPS_MAX <? u32 gidsetsize then mret (- E_INVAL)
  else
    match groups_alloc gidsetsize kmalloc page with
    | None => mret (- E_NOMEM)
    | Some gi =>
        _ ← modify (λ s, with_group_infos s (<[p := gi]> (group_infos s)));
        retval ← on_groups (on_obj p (groups_from_user get_user (make_kgid current_user_ns)));
        if negb (retval =? 0) then _ ← on_groups (put_group_info p); mret retval
        else
          retval ← set_current_groups p;
          _ ← on_groups (put_group_info p);
          mret retval
    end.

(** groups_to_user: 0 or an error, and the gids written; [put i] whether the i-th
    element could be written. *)
Fixpoint groups_to_user (n : nat) (overflowgid : Z) (gi : group_info) (i : Z) (put : Z → bool)
  : option (Z * list Z) :=
  match n with
  | O => Some (0, [])
  | S n =>
      g ← GROUP_AT gi i;
      if negb (put i) then Some (- E_FAULT, [])
      else
        '(rc, l) ← groups_to_user n overflowgid gi (i + 1) put;
        Some (rc, from_kid_munged overflowgid g :: l)
  end.

Definition getgroups (s : ksys) (overflowgid gidsetsize : Z) (put : Z → bool) : option (Z * list Z) :=
  if gidsetsize <? 0 then Some (- E_INVAL, [])
  else
    gi ← group_infos s !! cred_groups (ids (current_cred s));
    if gidsetsize =? 0 then Some (ngroups gi, [])
    else if gidsetsize <? ngroups gi then Some (- E_INVAL, [])
    else
      '(rc, l) ← groups_to_user (Z.to_nat (ngroups gi)) overflowgid gi 0 put;
      Some (if negb (rc =? 0) then - E_FAULT else ngroups gi, l).

(** ** capget and capset *)

Definition _LINUX_CAPABILITY_VERSION_1 : Z := 0x19980330.
Definition _LINUX_CAPABILITY_VERSION_2 : Z := 0x20071026.
Definition _LINUX_CAPABILITY_VERSION_3 : Z := 0x20080522.

(** struct __user_cap_data_struct *)
Record user_cap_data := UCap { u_effective : Z; u_permitted : Z; u_inheritable : Z }.

(** struct __user_cap_header_struct as user memory gives it: what get_user returns
    for the version and the pid, and whether the version can be written back. *)
Record user_cap_header := UHdr { h_version : option Z; h_put : bool; h_pid : option Z }.

(** (result, tocopy) *)
Definition cap_validate_magic (h : user_cap_header) : Z * nat :=
  match h_version h with
  | None => (- E_FAULT, 0%nat)
  | Some v =>
      if v =? _LINUX_CAPABILITY_VERSION_1 then (0, 1%nat)
      else if (v =? _LINUX_CAPABILITY_VERSION_2) || (v =? _LINUX_CAPABILITY_VERSION_3) then (0, 2%nat)
      else (if negb (h_put h) then - E_FAULT else - E_INVAL, 0%nat)
  end.

(** security_capget: selinux_capget asks its policy and then cap_capget. *)
Definition security_capget (t : task) : Z * (kernel_cap_t * kernel_cap_t * kernel_cap_t) :=
  let error := current_has_perm_getcap t in
  if negb (error =? 0) then (error, (CAP_EMPTY_SET, CAP_EMPTY_SET, CAP_EMPTY_SET))
  else (0, cap_capget t).

Definition cap_get_target_pid (s : ksys) (pid : Z) : Z * (kernel_cap_t * kernel_cap_t * kernel_cap_t) :=
  if negb (pid =? 0) && negb (pid =? current_pid s) then
    match tasks s !! pid with
    | None => (- E_SRCH, (CAP_EMPTY_SET, CAP_EMPTY_SET, CAP_EMPTY_SET))
    | Some target => security_capget target
    end
  else security_capget (current s).

(** The result and the array written to [dataptr]; [copy_ok] is copy_to_user's. *)
Definition capget (s : ksys) (h : user_cap_header) (dataptr_null copy_ok : bool)
  : Z * list user_cap_data :=
  let '(ret, tocopy) := cap_validate_magic h in
  if dataptr_null || negb (ret =? 0)
  then (if dataptr_null && (ret =? - E_INVAL) then 0 else ret, [])
  else
    match h_pid h with
    | None => (- E_FAULT, [])
    | Some pid =>
        if pid <? 0 then (- E_INVAL, [])
        else
          let '(ret, (pE, pI, pP)) := cap_get_target_pid s pid in
          if negb (ret =? 0) then (ret, [])
          else
            let kdata := take tocopy [UCap (cap_0 pE) (cap_0 pP) (cap_0 pI);
                                      UCap (cap_1 pE) (cap_1 pP) (cap_1 pI)] in
            if negb copy_ok then (- E_FAULT, []) else (ret, kdata)
    end.

(** One set from the first [tocopy] words of [kdata], the others 0, and the last
    word masked. *)
Definition cap_from_user (f : user_cap_data → Z) (kdata : list user_cap_data) : kernel_cap_t :=
  KCap (default 0 (f <$> kdata !! 0%nat)) (default 0 (f <$> kdata !! 1%nat) .& CAP_LAST_U32_VALID_MASK).

(** [copy_from_user n] are the [n] elements of the user's array. *)
Definition capset (h : user_cap_header) (copy_from_user : nat → option (list user_cap_data)) : prog ksys Z :=
  let '(ret, tocopy) := cap_validate_magic h in
  if negb (ret =? 0) then mret ret
  else
    match h_pid h with
    | None => mret (- E_FAULT)
    | Some pid =>
        me ← gets current_pid;
        if negb (pid =? 0) && negb (pid =? me) then mret (- E_PERM)
        else
          match copy_from_user tocopy with
          | None => mret (- E_FAULT)
          | Some kdata =>
              let effective := cap_from_user u_effective kdata in
              let permitted := cap_from_user u_permitted kdata in
              let inheritable := cap_from_user u_inheritable kdata in
              r ← prepare_creds;
              match r with
              | None => mret (- E_NOMEM)
              | Some new =>
                  s ← gets id;
                  '(ret, new) ← lift (selinux_capset s new (current_cred s) effective inheritable permitted);
                  if ret <? 0 then abort_return new ret else commit_creds new
              end
          end
    end.

(** ** prctl *)

Definition PR_GET_KEEPCAPS : Z := 7.
Definition PR_SET_KEEPCAPS : Z := 8.
Definition PR_CAPBSET_READ : Z := 23.
Definition PR_CAPBSET_DROP : Z := 24.
Definition PR_GET_SECUREBITS : Z := 27.
Definition PR_SET_SECUREBITS : Z := 28.
Definition PR_SET_NO_NEW_PRIVS : Z := 38.
Definition PR_GET_NO_NEW_PRIVS : Z := 39.

Definition cap_prctl_drop (new : kcred) (cap : Z) : prog ksys (Z * kcred) :=
  ok ← capable CAP_SETPCAP;
  if negb ok then mret (- E_PERM, new)
  else if negb (cap_valid cap) then mret (- E_INVAL, new)
  else b ← lift (cap_lower (cap_bset new) cap); mret (0, with_bset new b).

(** Conditions [1] to [3] of PR_SET_SECUREBITS. *)
Definition securebits_refused (bits arg2 : Z) : bool :=
  negb ((((bits .& SECURE_ALL_LOCKS) >>u 1) .& (bits .^ arg2)) =? 0)
  || negb ((bits .& SECURE_ALL_LOCKS .& Z.lnot arg2) =? 0)
  || negb ((arg2 .& Z.lnot (SECURE_ALL_LOCKS .| SECURE_ALL_BITS)) =? 0).

(** A result other than the installation of [new] goes through [no_change] or [error]. *)
Definition cap_task_prctl (option arg2 : Z) : prog ksys Z :=
  r ← prepare_creds;
  match r with
  | None => mret (- E_NOMEM)
  | Some new =>
      s ← gets id;
      if option =? PR_CAPBSET_READ then
        if negb (cap_valid arg2) then abort_return new (- E_INVAL)
        else w ← lift (cap_raised (cap_bset new) arg2); abort_return new (if negb (w =? 0) then 1 else 0)
      else if option =? PR_CAPBSET_DROP then
        '(error, new) ← cap_prctl_drop new arg2;
        if error <? 0 then abort_return new error else commit_creds new
      else if option =? PR_SET_SECUREBITS then
        if securebits_refused (securebits new) arg2 then abort_return new (- E_PERM)
        else
          rc ← lift (cap_capable s (current_cred s) (user_ns (current_cred s)) CAP_SETPCAP true);
          if negb (rc =? 0) then abort_return new (- E_PERM)
          else commit_creds (with_securebits new (u32 arg2))
      else if option =? PR_GET_SECUREBITS then abort_return new (securebits new)
      else if option =? PR_GET_KEEPCAPS
      then abort_return new (if issecure s SECURE_KEEP_CAPS then 1 else 0)
      else if option =? PR_SET_KEEPCAPS then
        if 1 <? arg2 then abort_return new (- E_INVAL)
        else if issecure s SECURE_KEEP_CAPS_LOCKED then abort_return new (- E_PERM)
        else commit_creds (with_securebits new
               (if negb (arg2 =? 0) then securebits new .| issecure_mask SECURE_KEEP_CAPS
                else securebits new .& u32 (Z.lnot (issecure_mask SECURE_KEEP_CAPS))))
      else abort_return new (- E_NOSYS)
  end.

(** The no_new_privs options of sys_prctl. *)
Definition prctl_no_new_privs (option arg2 arg3 arg4 arg5 : Z) : prog ksys Z :=
  if option =? PR_SET_NO_NEW_PRIVS then
    if negb (arg2 =? 1) || negb (arg3 =? 0) || negb (arg4 =? 0) || negb (arg5 =? 0) then mret (- E_INVAL)
    else
      _ ← modify (λ s, let t := current s in
                       with_current s (Task (t_cred t) (t_flags t) true (t_ptrace t)
                                            (mm_dumpable t) (pdeath_signal t) (t_overridden t)));
      mret 0
  else if option =? PR_GET_NO_NEW_PRIVS then
    if negb (arg2 =? 0) || negb (arg3 =? 0) || negb (arg4 =? 0) || negb (arg5 =? 0) then mret (- E_INVAL)
    else t ← gets current; mret (if t_no_new_privs t then 1 else 0)
  else mret (- E_INVAL).

(** ** exec *)

Definition PT_PTRACE_CAP : Z := 4.
Definition S_ISUID : Z := 0x800.
Definition S_ISGID : Z := 0x400.
Definition S_IXGRP : Z := 0x8.

(** The fs_struct of the task: its users, the threads of the process that share it,
    and whether another exec is under way. *)
Record fs_share := FsShare { fs_users : Z; n_fs : Z; in_exec : bool }.

(** The result and bprm->unsafe. *)
Definition check_unsafe_exec (t : task) (fs : fs_share) (unsafe : Z) : Z * Z :=
  let unsafe := if negb (t_ptrace t =? 0)
                then if negb (t_ptrace t .& PT_PTRACE_CAP =? 0) then unsafe .| LSM_UNSAFE_PTRACE_CAP
                     else unsafe .| LSM_UNSAFE_PTRACE
                else unsafe in
  let unsafe := if t_no_new_privs t then unsafe .| LSM_UNSAFE_NO_NEW_PRIVS else unsafe in
  if n_fs fs <? fs_users fs then (0, unsafe .| LSM_UNSAFE_SHARE)
  else (if in_exec fs then - E_AGAIN else 1, unsafe).

Definition bprm_fill_uid (t : task) (f : exec_file) (b : linux_binprm) : linux_binprm :=
  let old := ids (t_cred t) in
  let b := with_bcred b (with_ids (b_cred b) (set_eids (ids (b_cred b)) (euid old) (egid old))) in
  if mnt_nosuid f then b
  else if t_no_new_privs t then b
  else if (i_mode f .& (S_ISUID .| S_ISGID)) =? 0 then b
  else if negb (kuid_has_mapping (user_ns (b_cred b)) (i_uid f))
          || negb (kgid_has_mapping (user_ns (b_cred b)) (i_gid f)) then b
  else
    let b := if negb (i_mode f .& S_ISUID =? 0)
             then or_per_clear (with_bcred b (set_euid_ (b_cred b) (i_uid f))) PER_CLEAR_ON_SETID
             else b in
    if (i_mode f .& (S_ISGID .| S_IXGRP)) =? (S_ISGID .| S_IXGRP)
    then or_per_clear (with_bcred b (set_egid_ (b_cred b) (i_gid f))) PER_CLEAR_ON_SETID
    else b.

(** [read] is the result of kernel_read. *)
Definition prepare_binprm (f : exec_file) (read : Z) (b : linux_binprm) : prog ksys (Z * linux_binprm) :=
  if negb (f_has_op f) then mret (- E_ACCES, b)
  else
    t ← gets current;
    let b := bprm_fill_uid t f b in
    '(retval, b) ← selinux_bprm_set_creds f b;
    if negb (retval =? 0) then mret (retval, b)
    else mret (read, Binprm (b_cred b) (b_cap_effective b) (per_clear b) (unsafe b) true).

(** The chain of files of one exec, a script and then its interpreter: every loader
    calls prepare_binprm for the next file. *)
Fixpoint prepare_chain (fs : list (exec_file * Z)) (b : linux_binprm) : prog ksys (Z * linux_binprm) :=
  match fs with
  | [] => mret (0, b)
  | (f, read) :: fs =>
      '(retval, b) ← prepare_binprm f read b;
      if retval <? 0 then mret (retval, b) else prepare_chain fs b
  end.

(** The dumpability and the parent death signal of setup_new_exec; [nondump] says
    whether the binary may not be read. *)
Definition setup_new_exec (nondump : bool) (b : linux_binprm) : prog ksys unit :=
  modify (λ s, let t := current s in
    let c := ids (t_cred t) in
    let d := if (euid c =? uid c) && (egid c =? gid c) then 1 else suid_dumpable in
    let dump := (λ x, set_dumpable x d) <$> mm_dumpable t in
    let keeps := (uid (ids (b_cred b)) =? euid c) && (gid (ids (b_cred b)) =? egid c) in
    let dump := if keeps && nondump then (λ x, set_dumpable x suid_dumpable) <$> dump else dump in
    with_current s (Task (t_cred t) (t_flags t) (t_no_new_privs t) (t_ptrace t) dump
                         (if keeps then pdeath_signal t else 0) (t_overridden t))).

(** The credentials part of do_execve_common and of the loader that takes the
    program: [over] whether the user exceeds its limit of processes, [load] the result
    of the steps between prepare_binprm and the point of no return. *)
Definition do_execve (over : bool) (fs : fs_share) (file : exec_file * Z) (interps : list (exec_file * Z))
  (load : Z) (nondump : bool)
  : prog ksys Z :=
  t ← gets current;
  if negb (t_flags t .& PF_NPROC_EXCEEDED =? 0) && over then mret (- E_AGAIN)
  else
    _ ← set_current_flags (λ f, f .& u32 (Z.lnot PF_NPROC_EXCEEDED));
    r ← prepare_creds;
    match r with
    | None => mret (- E_NOMEM)
    | Some new =>
        let '(retval, unsafe) := check_unsafe_exec t fs 0 in
        if retval <? 0 then abort_return new retval
        else
          '(retval, b) ← prepare_chain (file :: interps) (Binprm new false 0 unsafe false);
          if retval <? 0 then abort_return (b_cred b) retval
          else if load <? 0 then abort_return (b_cred b) load
          else
            _ ← setup_new_exec nondump b;
            _ ← commit_creds (b_cred b);
            mret 0
    end.

End Calls.
