(* ===== verification/CapabilityThm.v ===== *)
(** * CapabilityThm: asking for a capability

    The namespace walk of cap_capable decides authority over a user namespace, and
    the functions around it answer accordingly. *)

From stdpp Require Import relations.
From S2P Require Import Prelude Groups CapSet Capability.

(** ** Namespaces *)

(** Namespaces form a tree with the initial one as root: levels grow away from it. *)
Definition ns_tree (m : gmap Z user_namespace) : Prop :=
  is_Some (m !! init_user_ns) ∧
  ∀ ns n, m !! ns = Some n → 0 ≤ ns_level n ∧
    (ns ≠ init_user_ns → ∃ p, m !! ns_parent n = Some p ∧ ns_level p < ns_level n).

Definition child_of (m : gmap Z user_namespace) (ns p : Z) : Prop :=
  ns ≠ init_user_ns ∧ ∃ n, m !! ns = Some n ∧ ns_parent n = p.

(** Authority of [cr] over [ns]: the namespace of [cr] is [ns] or an ancestor of it,
    and [cr] has the capability or owns the child of its namespace towards [ns]. *)
Definition authority (m : gmap Z user_namespace) (cr : kcred) (ns cap : Z) : Prop :=
  rtc (child_of m) ns (user_ns cr) ∧
  (cap ∈ cap_effective cr ∨
   ∃ c n, rtc (child_of m) ns c ∧ c ≠ init_user_ns ∧ m !! c = Some n ∧
          ns_parent n = user_ns cr ∧ ns_owner n = euid (ids cr)).

Section Walk.
Context (m : gmap Z user_namespace) (Ht : ns_tree m).

Lemma child_level ns p : child_of m ns p → ∃ a b, m !! ns = Some a ∧ m !! p = Some b ∧ ns_level b < ns_level a.
Proof.
  intros (Hne & n & Hn & <-). destruct Ht as [_ H]. destruct (H _ _ Hn) as [_ Hp].
  destruct (Hp Hne) as (p & Hl & ?). eauto.
Qed.

Lemma up_level ns p a : rtc (child_of m) ns p → m !! ns = Some a →
  ∃ b, m !! p = Some b ∧ ns_level b ≤ ns_level a ∧ (ns_level b = ns_level a → ns = p).
Proof.
  intros H. revert a. induction H as [ns|ns q p Hq _ IH]; intros a Ha; [exists a; split; [done|lia]|].
  destruct (child_level _ _ Hq) as (a' & b & Ha' & Hb & Hl). rewrite Ha in Ha'. simplify_eq.
  destruct (IH b Hb) as (c & Hc & Hle & _). exists c. split; [done|]. lia.
Qed.

(** The walk continues at the parent. *)
Lemma authority_step cr ns n cap : m !! ns = Some n → ns ≠ user_ns cr → ns ≠ init_user_ns →
  ¬ (ns_parent n = user_ns cr ∧ ns_owner n = euid (ids cr)) →
  authority m cr ns cap ↔ authority m cr (ns_parent n) cap.
Proof.
  intros Hn Hu Hi Hno. assert (child_of m ns (ns_parent n)) as Hc by (split; [done|eauto]).
  assert (∀ q, rtc (child_of m) ns q → q ≠ ns → rtc (child_of m) (ns_parent n) q) as Hinv.
  { intros q Hq Hne. inversion Hq as [|? r ? [_ (n' & Hn' & <-)] Hr]; simplify_eq; done. }
  unfold authority. split.
  - intros [Hr Ha]. split; [by apply Hinv|]. destruct Ha as [?|(c & k & Hck & ? & Hlk & Hp & Ho)]; [by left|].
    right. exists c, k. split; [|done]. apply Hinv; [done|]. intros ->. naive_solver.
  - intros [Hr Ha]. split; [by eapply rtc_l|]. destruct Ha as [?|(c & k & Hck & ?)]; [by left|].
    right. exists c, k. split; [by eapply rtc_l|done].
Qed.

Lemma authority_own cr cap : is_Some (m !! user_ns cr) →
  authority m cr (user_ns cr) cap ↔ cap ∈ cap_effective cr.
Proof.
  intros [a Ha]. unfold authority. split; [|intros; split; [done|by left]].
  intros [_ [?|(c & k & Hck & ? & Hlk & Hp & _)]]; [done|]. exfalso.
  destruct (up_level _ _ _ Hck Ha) as (b & Hb & Hle & _). rewrite Hlk in Hb. simplify_eq.
  destruct (child_level c (user_ns cr)) as (x & y & Hx & Hy & ?); [split; eauto|]. simplify_eq. lia.
Qed.

Lemma authority_init cr cap : init_user_ns ≠ user_ns cr → ¬ authority m cr init_user_ns cap.
Proof. intros Hne [Hr _]. inversion Hr as [|? r ? [? _] _]; simplify_eq; done. Qed.

End Walk.

(** The loop ends within the depth of the namespace and decides authority. *)
Lemma walk_ok s cr cap : ns_tree (namespaces s) → is_Some (namespaces s !! user_ns cr) → 0 ≤ cap < 64 →
  ∀ fuel ns n, namespaces s !! ns = Some n → (Z.to_nat (ns_level n) < fuel)%nat →
  ∃ r, cap_capable_walk fuel s cr ns cap = Some r ∧
    (r = 0 ∧ authority (namespaces s) cr ns cap ∨ r = - E_PERM ∧ ¬ authority (namespaces s) cr ns cap).
Proof.
  intros Ht Hu Hcap. induction fuel as [|fuel IH]; intros ns n Hn Hf; [lia|]. cbn [cap_capable_walk].
  destruct (Z.eqb_spec ns (user_ns cr)) as [->|Hne].
  { destruct (cap_raised_spec (cap_effective cr) cap Hcap) as (w & -> & Hw). cbn.
    pose proof (authority_own _ Ht cr cap Hu). rewrite Hw, negb_involutive.
    case_bool_decide; eexists; (split; [done|]); tauto. }
  destruct (Z.eqb_spec ns init_user_ns) as [->|Hi].
  { eexists. split; [done|]. right. split; [done|]. by apply authority_init. }
  rewrite Hn. cbn.
  destruct (Z.eqb_spec (ns_parent n) (user_ns cr)) as [Hp|Hp], (Z.eqb_spec (ns_owner n) (euid (ids cr)));
    cbn [andb].
  1: { eexists. split; [done|]. left. split; [done|]. split.
       - apply rtc_once. split; [done|by exists n].
       - right. exists ns, n. done. }
  all: destruct Ht as [Hti Htl]; destruct (Htl _ _ Hn) as [Hl Hpar];
    destruct (Hpar Hi) as (p & Hpl & Hlt); pose proof (proj1 (Htl _ _ Hpl));
    destruct (IH (ns_parent n) p Hpl ltac:(lia)) as (r & Hr & Hd);
    exists r; (split; [done|]); rewrite (authority_step _ cr ns n cap Hn Hne Hi) by tauto; done.
Qed.

(** ** The answer of cap_capable *)

(** The group list of the current task. *)
Definition group_list (s : ksys) (l : list Z) : Prop :=
  group_at (group_infos s) (cred_groups (ids (current_cred s))) l.

Definition in_egroup (s : ksys) (l : list Z) (g : Z) : Prop :=
  g = egid (ids (current_cred s)) ∨ g ∈ l.

#[export] Instance in_egroup_dec s l g : Decision (in_egroup s l g).
Proof. unfold in_egroup. apply _. Defined.

(** CONFIG_ANDROID_PARANOID_NETWORK: the two capabilities that groups stand for. *)
Definition paranoid (s : ksys) (l : list Z) (cap : Z) : Prop :=
  (cap = CAP_NET_RAW ∧ in_egroup s l AID_NET_RAW) ∨
  (cap = CAP_NET_ADMIN ∧ in_egroup s l AID_NET_ADMIN).

Lemma in_egroup_ok s l g : group_list s l →
  in_egroup_p (group_infos s) (ids (current_cred s)) g
  = Some (if bool_decide (in_egroup s l g) then 1 else 0).
Proof.
  intros (gi & Hg & Hh & Hs & Hl). unfold in_egroup_p.
  destruct (Z.eqb_spec g (egid (ids (current_cred s)))) as [->|Hne]; cbn [negb].
  - rewrite bool_decide_true; [done|by left].
  - rewrite Hg. cbn [mbind option_bind]. rewrite (groups_search_ok _ l) by done.
    f_equal. apply flag_ext. unfold in_egroup. split; [by right|]. by intros [?|?].
Qed.

Lemma paranoid_check s l cap c aid : group_list s l → 
  (if cap =? c then in_egroup_p (group_infos s) (ids (current_cred s)) aid else Some 0)
  = Some (if bool_decide (cap = c ∧ in_egroup s l aid) then 1 else 0).
Proof.
  intros Hl. destruct (Z.eqb_spec cap c) as [->|Hne].
  - rewrite (in_egroup_ok s l) by done. f_equal. apply flag_ext. tauto.
  - by rewrite bool_decide_false by tauto.
Qed.

Lemma cap_capable_ok s l cr ns cap audit : group_list s l → ns_tree (namespaces s) →
  is_Some (namespaces s !! user_ns cr) → is_Some (namespaces s !! ns) → 0 ≤ cap < 64 →
  ∃ r, cap_capable s cr ns cap audit = Some r ∧
    (r = 0 ∧ (paranoid s l cap ∨ authority (namespaces s) cr ns cap) ∨
     r = - E_PERM ∧ ¬ (paranoid s l cap ∨ authority (namespaces s) cr ns cap)).
Proof.
  intros Hl Ht Hu [n Hn] Hcap. unfold cap_capable. rewrite !(paranoid_check s l) by done. cbn [mbind option_bind].
  unfold paranoid. repeat case_bool_decide; cbn [negb Z.eqb]; try (exists 0; tauto).
  destruct (walk_ok s cr cap Ht Hu Hcap (S (ns_depth s ns)) ns n Hn) as (r & -> & Hr).
  { unfold ns_depth. rewrite Hn. lia. }
  exists r. split; [done|]. tauto.
Qed.

(** ** Asking for the current task *)

Definition with_superpriv (s : ksys) : ksys :=
  with_current s (with_flags (current s) (t_flags (current s) .| PF_SUPERPRIV)).

Lemma ns_capable_ok {E : cap_env} s l ns cap : group_list s l → ns_tree (namespaces s) →
  is_Some (namespaces s !! user_ns (current_cred s)) → is_Some (namespaces s !! ns) →
  cap_valid cap = true →
  ∃ b : bool, ns_capable ns cap s = Some (b, if b then with_superpriv s else s) ∧
    (b = true ↔ (paranoid s l cap ∨ authority (namespaces s) (current_cred s) ns cap) ∧
                cred_has_capability (current_cred s) cap true = 0).
Proof.
  intros Hl Ht Hu Hn Hv. pose proof Hv as Hr. apply andb_true_iff in Hr as [?%Z.leb_le ?%Z.leb_le].
  unfold CAP_LAST_CAP in *.
  destruct (cap_capable_ok s l (current_cred s) ns cap true Hl Ht Hu Hn ltac:(lia)) as (r & Hc & Hd).
  unfold ns_capable. rewrite Hv. cbn [negb]. unfold mbind, prog_bind, gets. cbn [id].
  unfold lift, security_capable, selinux_capable. rewrite Hc. cbn [mbind option_bind].
  destruct Hd as [[-> Ha]|[-> Ha]]; cbn [Z.eqb negb mbind option_bind].
  - destruct (Z.eqb_spec (cred_has_capability (current_cred s) cap true) 0) as [E0|E0].
    + exists true. split; [done|]. tauto.
    + exists false. split; [done|]. split; [done|]. tauto.
  - exists false. split; [done|]. split; [done|]. tauto.
Qed.

(** C7: the capability check.  For namespaces that form a tree and a sorted group list
    of the current task, cap_capable returns (its walk ends) 0 or -EPERM.  While the
    current task, the one that asks, is not in the Android network group of the
    capability, the answer depends on the nominated credentials alone and is 0
    exactly when they have authority over the namespace, that is they are in it or
    in an ancestor of it with the capability in effect, or own the namespace below
    their own on the way, which is the rule that the comment of cap_capable gives.
    When the current task is in that group the answer is 0 for its own credentials,
    as Android means it, but also for the credentials of every other task, which
    the comment does not allow.  has_ns_capability of another task and ns_capable
    of the current one grant exactly what SELinux grants of that, and ns_capable
    marks the task as having used privileges exactly when it grants. *)
Theorem cap_capable_exact {E : cap_env} s l t ns cap :
  group_list s l → ns_tree (namespaces s) →
  is_Some (namespaces s !! user_ns (t_cred t)) → is_Some (namespaces s !! user_ns (current_cred s)) →
  is_Some (namespaces s !! ns) → cap_valid cap = true →
  let current_in_network_group := paranoid s l cap in
  let has_authority c := authority (namespaces s) c ns cap in
  let selinux_grants c := cred_has_capability c cap true = 0 in
  (¬ current_in_network_group →
     (∃ r, cap_capable s (t_cred t) ns cap true = Some r ∧
           (r = 0 ∧ has_authority (t_cred t) ∨ r = - E_PERM ∧ ¬ has_authority (t_cred t))) ∧
     (∃ b, has_ns_capability s t ns cap = Some b ∧
           (b = true ↔ has_authority (t_cred t) ∧ selinux_grants (t_cred t)))) ∧
  (current_in_network_group →
     cap_capable s (t_cred t) ns cap true = Some 0 ∧
     (∃ b, has_ns_capability s t ns cap = Some b ∧ (b = true ↔ selinux_grants (t_cred t)))) ∧
  (∃ b : bool, ns_capable ns cap s = Some (b, if b then with_superpriv s else s) ∧
        (b = true ↔ (current_in_network_group ∨ has_authority (current_cred s)) ∧
                    selinux_grants (current_cred s))).
Proof.
  intros Hl Ht Hu Hc Hn Hv. cbv zeta.
  pose proof Hv as Hr. apply andb_true_iff in Hr as [?%Z.leb_le ?%Z.leb_le]. unfold CAP_LAST_CAP in *.
  destruct (cap_capable_ok s l (t_cred t) ns cap true Hl Ht Hu Hn ltac:(lia)) as (r & Er & Hd).
  assert (Hh : ∃ b, has_ns_capability s t ns cap = Some b ∧
    (b = true ↔ (paranoid s l cap ∨ authority (namespaces s) (t_cred t) ns cap) ∧
                cred_has_capability (t_cred t) cap true = 0)).
  { unfold has_ns_capability, security_capable, selinux_capable. rewrite Er. cbn [mbind option_bind].
    destruct Hd as [[-> Ha]|[-> Ha]]; cbn [Z.eqb negb mbind option_bind]; eexists; (split; [done|]).
    - rewrite Z.eqb_eq. split; [done|by intros [_ ?]].
    - split; [done|]. intros [Hg _]. by destruct Ha. }
  destruct Hh as (b & Eb & Hb). split_and!; [..|by apply ns_capable_ok].
  - intros Hp. split; [exists r|exists b]; (split; [done|]); tauto.
  - intros Hp. split; [|exists b; split; [done|tauto]]. rewrite Er.
    destruct Hd as [[-> _]|[_ Ha]]; [done|]. destruct Ha. by left.
Qed.

(** ** Concrete systems *)

Module CapDemo.
(** SELinux grants everything, memory does not run out. *)
Definition env : cap_env :=
  {| cred_has_capability := λ _ _ _, 0; cred_has_perm_setcap := λ _ _, 0;
     current_has_perm_getcap := λ _, 0; selinux_bprm_transition := λ _, (0, false);
     audit_log_bprm_fcaps := λ _ _, 0; file_caps_enabled := true; creds_alloc := true; security_prepare_creds := true;
     alloc_uid := λ _, Some false; suid_dumpable := 0 |}.

Definition user (u g : Z) : cred := Cred u g u g u g u g 1.
Definition root_cred : kcred :=
  KCred (user 0 0) 0 CAP_EMPTY_SET CAP_FULL_SET CAP_FULL_SET CAP_FULL_SET init_user_ns.
Definition user_cred (u g : Z) : kcred :=
  KCred (user u g) 0 CAP_EMPTY_SET CAP_EMPTY_SET CAP_EMPTY_SET CAP_FULL_SET init_user_ns.
Definition task_of (c : kcred) : task := Task c 0 false 0 (Some 1) 0 false.

Definition no_groups : group_info := GInfo 1 0 1 [replicate 32 0].
(** Namespace 2 is a child of the initial one, owned by user 1000; 3 a child of 2. *)
Definition system (t : task) : ksys :=
  KSys t 100 {[ 101 := task_of (user_cred 1000 1000) ]} {[ 1 := no_groups ]}
       (<[ 1 := UserNs 0 0 0 ]> (<[ 2 := UserNs 1 1 1000 ]> {[ 3 := UserNs 2 2 1001 ]})) 2 0.

Lemma system_groups t : cred_groups (ids (t_cred t)) = 1 → group_list (system t) [].
Proof.
  intros Hg. exists no_groups. unfold current_cred. cbn [current system]. rewrite Hg.
  split; [done|]. split_and!.
  - split; [right; by exists (replicate 32 0)|]. split; [done|by exists (replicate 32 0)].
  - intros i j x y Hij Hx. by apply rd_Some in Hx; cbn in Hx; lia.
  - cbn. unfold NGROUPS_MAX. lia.
Qed.

Lemma system_tree t : ns_tree (namespaces (system t)).
Proof.
  split; [by eexists|]. intros ns n Hn. cbn [namespaces system] in Hn.
  apply lookup_insert_Some in Hn as [[<- <-]|[? Hn]]; [done|].
  apply lookup_insert_Some in Hn as [[<- <-]|[? Hn]].
  { split; [done|]. intros _. by eexists. }
  apply lookup_singleton_Some in Hn as [<- <-]. split; [done|]. intros _. by eexists.
Qed.
End CapDemo.

(** The owner of namespace 2 has every capability over its child 3. *)
Example cap_capable_exact_witness :
  cap_capable (CapDemo.system (CapDemo.task_of CapDemo.root_cred)) (CapDemo.user_cred 1000 1000) 3
    CAP_SYS_ADMIN true = Some 0.
Proof.
  destruct (cap_capable_exact (E := CapDemo.env)
    (CapDemo.system (CapDemo.task_of CapDemo.root_cred)) []
    (CapDemo.task_of (CapDemo.user_cred 1000 1000)) 3 CAP_SYS_ADMIN
    (CapDemo.system_groups (CapDemo.task_of CapDemo.root_cred) eq_refl)
    (CapDemo.system_tree (CapDemo.task_of CapDemo.root_cred)))
    as [Hn _]; [by eexists|by eexists|by eexists|done|].
  destruct Hn as [(r & Hr & [[-> _]|[_ H]]) _]; [|exact Hr|].
  { intros [[? _]|[? _]]; discriminate. }
  exfalso. apply H. split.
  - apply (rtc_l _ _ 2); [split; [done|by eexists]|]. apply rtc_once. split; [done|by eexists].
  - right. exists 2, (UserNs 1 1 1000). split; [|done]. apply rtc_once. split; [done|by eexists].
Defined.

(** The network groups are those of the task that asks, not of the credentials in
    question: a task of group AID_NET_ADMIN is told that every other task has
    CAP_NET_ADMIN. *)
Example paranoid_network_asks_current :
  has_capability (E := CapDemo.env)
    (CapDemo.system (CapDemo.task_of (CapDemo.user_cred 1000 AID_NET_ADMIN)))
    (CapDemo.task_of (CapDemo.user_cred 2000 2000)) CAP_NET_ADMIN = Some true.
Proof. reflexivity. Qed.
