(* ===== verification/CredsysThm.v ===== *)
(** * CredsysThm: what a system call can do to credentials

    The well-formedness of credentials, the relation [cred_step] between the
    credentials before and after a call, and the lemmas that show it for every call
    of Credsys. *)

From stdpp Require Import relations sets.
From S2P Require Import Prelude Groups CapSet Capability Credsys CapabilityThm.

(** ** Well-formed credentials and systems *)

Record cred_ok (c : kcred) : Prop := {
  co_inh : cap_words (cap_inheritable c) ∧ cap_inheritable c ⊆ CAP_FULL_SET;
  co_perm : cap_words (cap_permitted c) ∧ cap_permitted c ⊆ CAP_FULL_SET;
  co_eff : cap_words (cap_effective c) ∧ cap_effective c ⊆ cap_permitted c;
  co_bset : cap_words (cap_bset c) ∧ cap_bset c ⊆ CAP_FULL_SET;
  co_secure : 0 ≤ securebits c < 64;
  co_ns : user_ns c = init_user_ns
}.

Record sys_ok (s : ksys) : Prop := {
  so_cred : cred_ok (current_cred s);
  so_groups : ∃ l, group_list s l;
  so_tree : ns_tree (namespaces s)
}.

Definition uids (c : kcred) : list Z := [uid (ids c); euid (ids c); suid (ids c); fsuid (ids c)].
Definition gids (c : kcred) : list Z := [gid (ids c); egid (ids c); sgid (ids c); fsgid (ids c)].

(** Everything the task has now or can still get. *)
Definition ceiling (c : kcred) : kernel_cap_t :=
  cap_combine (cap_permitted c) (cap_combine (cap_inheritable c) (cap_bset c)).

(** A locked bit stays locked and keeps its value; only exec clears KEEP_CAPS. *)
Definition locks_kept (a b : Z) : Prop :=
  ∀ i, i = SECURE_NOROOT ∨ i = SECURE_NO_SETUID_FIXUP ∨ i = SECURE_KEEP_CAPS →
  Z.testbit a (i + 1) = true →
  Z.testbit b (i + 1) = true ∧
  (Z.testbit b i = Z.testbit a i ∨ i = SECURE_KEEP_CAPS ∧ Z.testbit b i = false).

Record cred_step (st : bool) (o n : kcred) : Prop := {
  st_ok : cred_ok n;
  st_bset : cap_bset n ⊆ cap_bset o;
  st_inh : cap_inheritable n ⊆ cap_combine (cap_inheritable o) (cap_bset o);
  st_perm : cap_permitted n ⊆ ceiling o;
  st_locks : locks_kept (securebits o) (securebits n);
  st_nnp : st = true → cap_permitted n ⊆ cap_permitted o ∧
    (CAP_SETUID ∉ cap_permitted o → uids n ⊆ uids o) ∧
    (CAP_SETGID ∉ cap_permitted o →
     gids n ⊆ gids o ∧ cred_groups (ids n) = cred_groups (ids o))
}.

(** ** References *)

(** The references to the group list of the current task. *)
Definition group_usage (s : ksys) : Z :=
  default 0 (usage <$> group_infos s !! cred_groups (ids (current_cred s))).

(** The credentials are not overridden, the task holds its two references to them and
    its group list is held too, by a count that did not overflow. *)
Record refs_ok (s : ksys) : Prop := {
  ro_real : t_overridden (current s) = false;
  ro_cred : 2 ≤ cred_usage s;
  ro_groups : 0 < group_usage s < 2 ^ 31
}.

(** The list can take one more reference. *)
Definition refs_room (s : ksys) : Prop := group_usage s < 2 ^ 31 - 1.

(** After a call that started in [s0]; [st] says that privileges may not grow: for exec
    because of no_new_privs, for the other calls always. *)
Definition moved (st : bool) (s0 s : ksys) : Prop :=
  sys_ok s ∧ cred_step st (current_cred s0) (current_cred s) ∧
  (t_no_new_privs (current s0) = true → t_no_new_privs (current s) = true).
Definition fin (st : bool) (s0 s : ksys) : Prop := moved st s0 s ∧ refs_ok s.

(** The references inside a call: [g] of its own to the group list, and the
    credentials under construction when [b]. *)
Definition held (g : Z) (b : bool) (s0 s : ksys) : Prop :=
  refs_ok s0 ∧ refs_room s0 ∧ t_overridden (current s) = false ∧ cred_usage s = cred_usage s0 ∧
  group_usage s = group_usage s0 + g ∧ (b = true → new_usage s = 1).

(** Inside a call that started in [s0], before it commits; without [k] the references
    do not matter. *)
Definition mid (k : option (Z * bool)) (s0 s : ksys) : Prop :=
  current_cred s = current_cred s0 ∧ t_no_new_privs (current s) = t_no_new_privs (current s0) ∧
  namespaces s = namespaces s0 ∧ (∀ l, group_list s0 l → group_list s l) ∧
  match k with Some (g, b) => held g b s0 s | None => True end.

Notation unprepared := (Some (0, false)).
Notation prepared := (Some (1, true)).

Lemma mid_refl s : mid None s s.
Proof. done. Qed.

Lemma mid_start s : refs_ok s → refs_room s → mid unprepared s s.
Proof. intros Hr Hm. repeat split; try done; try apply Hr. lia. Qed.

Lemma locks_refl a : locks_kept a a.
Proof. intros i _ ?. auto. Qed.

Lemma cred_step_refl nnp c : cred_ok c → cred_step nnp c c.
Proof.
  intros Hc. split; [done|done|set_solver|unfold ceiling; set_solver|apply locks_refl|done].
Qed.

Lemma mid_sys_ok {k} s0 s : sys_ok s0 → mid k s0 s → sys_ok s.
Proof.
  intros [? [l ?] ?] (Hc & _ & Hn & Hg & _). split; [by rewrite Hc|eauto|by rewrite Hn].
Qed.

Lemma mid_fin st s0 s : sys_ok s0 → mid unprepared s0 s → fin st s0 s.
Proof.
  intros Hs Hm. split; [split; [by eapply mid_sys_ok|]|].
  - destruct Hm as (Hc & Hn & _). rewrite Hc, Hn. split; [apply cred_step_refl, Hs|done].
  - destruct Hm as (_ & _ & _ & _ & [? ? ?] & _ & ? & Hcu & Hu & _). split; [done|by rewrite Hcu|lia].
Qed.

(** A change of the flags of the task. *)
Lemma mid_flags {k} s0 s f : mid k s0 s → mid k s0 (with_current s (with_flags (current s) f)).
Proof. done. Qed.

(** Other objects in the store change. *)
Lemma mid_other {k} s0 s h : mid k s0 s →
  h !! cred_groups (ids (current_cred s0)) = group_infos s !! cred_groups (ids (current_cred s0)) →
  mid k s0 (with_group_infos s h).
Proof.
  intros (Hc & Hn & Hm & Hg & Hk) Hh. split; [done|]. split; [done|]. split; [done|]. split.
  - intros l (gi & Hgi & Hrest)%Hg. exists gi. split; [|done]. rewrite Hc in Hgi.
    rewrite <- Hh in Hgi. rewrite <- Hc in Hgi. exact Hgi.
  - destruct k as [[g b]|]; [|done]. destruct Hk as (? & ? & ? & ? & Hu & ?). split_and!; try done.
    rewrite <- Hu. unfold group_usage. change (current_cred (with_group_infos s h)) with (current_cred s).
    by rewrite Hc, <- Hh.
Qed.

(** ** Asking and preparing *)

(** The capabilities that no group stands for. *)
Definition plain_cap (cap : Z) : Prop :=
  cap_valid cap = true ∧ cap ≠ CAP_NET_RAW ∧ cap ≠ CAP_NET_ADMIN.

(** What the calls know of the ids they set, as equations. *)
Ltac id_facts := repeat match goal with
  | H : true = true → _ |- _ => specialize (H eq_refl)
  | H : _ ∨ _ |- _ => destruct H
  | H : _ || _ = true |- _ => apply orb_true_iff in H
  | H : (_ =? _) = true |- _ => apply Z.eqb_eq in H
  | H : ?c ∈ ?x, N : ?c ∉ ?x |- _ => by destruct N
  end.

Lemma four_subseteq (a b c d : Z) l : a ∈ l → b ∈ l → c ∈ l → d ∈ l → [a; b; c; d] ⊆ l.
Proof. intros Ha Hb Hc Hd x. rewrite !elem_of_cons, elem_of_nil. 
  by intros [-> | [-> | [-> | [-> | []]]]]. Qed.

Ltac ids_solve :=
  split; [done|split; intros Hnocap;
    (by intros ? ?) ||
    (id_facts; subst; apply four_subseteq; unfold uids, gids; cbn; rewrite !elem_of_cons; tauto)].

(** The ids of credentials under construction change, their group list does not. *)
Ltac same_groups :=
  repeat match goal with |- context [if ?b then _ else _] => destruct b end; reflexivity.

Section Calls.
Context {E : cap_env}.

Lemma wp_capable_exact cap s0 s (Q : bool → ksys → Prop) k : sys_ok s0 → mid k s0 s → plain_cap cap →
  (∀ (b : bool) s', mid k s0 s' → group_infos s' = group_infos s →
     (b = true ↔ cap ∈ cap_effective (current_cred s0) ∧
                 cred_has_capability (current_cred s0) cap true = 0) → Q b s') →
  wp (ns_capable init_user_ns cap) Q s.
Proof.
  intros Hs Hm (Hv & H1 & H2) HQ. pose proof (mid_sys_ok _ _ Hs Hm) as [Hc [l Hl] Ht].
  destruct (ns_capable_ok s l init_user_ns cap Hl Ht) as (b & Eb & Hb).
  - rewrite (co_ns _ Hc). apply Ht.
  - apply Ht.
  - done.
  - unfold wp. rewrite Eb. apply HQ.
    + destruct b; [by apply mid_flags|done].
    + by destruct b.
    + destruct Hm as (<- & _). rewrite Hb. pose proof (co_ns _ Hc) as Hns.
      rewrite <- Hns at 1. rewrite (authority_own _ Ht) by (rewrite Hns; apply Ht).
      unfold paranoid. naive_solver.
Qed.

Lemma wp_capable cap s0 s (Q : bool → ksys → Prop) k : sys_ok s0 → mid k s0 s → plain_cap cap →
  (∀ (b : bool) s', mid k s0 s' → (b = true → cap ∈ cap_effective (current_cred s0)) → Q b s') →
  wp (ns_capable init_user_ns cap) Q s.
Proof.
  intros Hs Hm Hp HQ. eapply (wp_capable_exact cap s0); [done..|]. intros b s' M _ Hb. apply HQ; [done|].
  intros H. by apply Hb in H as [? _].
Qed.

Lemma wp_on_groups {A} (m : prog gstore A) (Q : A → ksys → Prop) s :
  wp m (λ a h, Q a (with_group_infos s h)) (group_infos s) → wp (on_groups m) Q s.
Proof. unfold wp, on_groups. by destruct (m (group_infos s)) as [[a h]|]. Qed.

(** A list that loses a reference, and goes with its last one. *)
Definition counted (gi : group_info) (u : Z) : group_info := GInfo u (ngroups gi) (nblocks gi) (blocks gi).
Definition dropped (p : Z) (gi : group_info) (h : gstore) : gstore :=
  if usage gi =? 1 then delete p h else <[p := counted gi (usage gi - 1)]> h.

Lemma wp_put_group_info p gi (Q : unit → gstore → Prop) h : h !! p = Some gi → 0 < usage gi < 2 ^ 31 →
  Q tt (dropped p gi h) → wp (put_group_info p) Q h.
Proof.
  intros Hp Hu HQ. unfold put_group_info. apply wp_bind. eapply wp_on_obj; [exact Hp|].
  unfold wp at 1, set_usage. rewrite s32_small by lia. revert HQ. unfold dropped.
  destruct (Z.eqb_spec (usage gi) 1) as [->|Hne].
  - intros HQ. change (1 - 1 =? 0) with true. unfold groups_free, wp. rewrite lookup_insert_eq. by rewrite delete_insert_eq.
  - rewrite (proj2 (Z.eqb_neq _ _)) by lia. done.
Qed.

Lemma dropped_ne p q gi h : q ≠ p → dropped p gi h !! q = h !! q.
Proof. intros Hq. unfold dropped. destruct (_ =? _); [by rewrite lookup_delete_ne|by rewrite lookup_insert_ne]. Qed.

Lemma dropped_some p gi h : 1 < usage gi → dropped p gi h = <[p := counted gi (usage gi - 1)]> h.
Proof. intros Hu. unfold dropped. by rewrite (proj2 (Z.eqb_neq _ _)) by lia. Qed.

Lemma group_of s l : group_list s l →
  ∃ gi, group_infos s !! cred_groups (ids (current_cred s)) = Some gi ∧ group_usage s = usage gi.
Proof. intros (gi & Hg & _). exists gi. split; [done|]. unfold group_usage. by rewrite Hg. Qed.

Lemma mid_group {k} s0 s : sys_ok s0 → mid k s0 s →
  ∃ gi, group_infos s !! cred_groups (ids (current_cred s0)) = Some gi ∧ group_usage s = usage gi.
Proof.
  intros Hs Hm. pose proof (mid_sys_ok _ _ Hs Hm) as [_ [l Hl] _]. destruct Hm as (<- & _). by apply (group_of _ l).
Qed.

(** The count of the group list changes, and the credentials under construction. *)
Lemma mid_count g b g' b' n s0 s gi u : mid (Some (g, b)) s0 s →
  group_infos s !! cred_groups (ids (current_cred s0)) = Some gi → u = group_usage s0 + g' →
  (b' = true → n = 1) →
  mid (Some (g', b')) s0 (with_usages (with_group_infos s
    (<[cred_groups (ids (current_cred s0)) := counted gi u]> (group_infos s))) (cred_usage s) n).
Proof.
  intros (Hc & Hn & Hm & Hg & (Hr & Hro & Ho & Hcu & Hgu & _)) Hgi Hu Hb.
  split; [done|]. split; [done|]. split; [done|]. split.
  - intros l (gi' & Hgi' & Hh & Hrest)%Hg. rewrite Hc, Hgi in Hgi'. simplify_eq.
    exists (counted gi' (group_usage s0 + g')). split; [|split; [exact Hh|done]].
    cbn. change (current_cred (with_usages _ _ _)) with (current_cred s). rewrite Hc. apply lookup_insert_eq.
  - split_and!; try done. unfold group_usage at 1.
    change (current_cred (with_usages _ _ _)) with (current_cred s). rewrite Hc.
    cbn [group_infos with_usages with_group_infos]. by rewrite lookup_insert_eq.
Qed.

Lemma wp_put_cred c n (Q : Z → ksys → Prop) s : 1 < n → Q (n - 1) s → wp (put_cred c n) Q s.
Proof.
  intros Hn HQ. unfold put_cred. rewrite (proj2 (Z.ltb_ge _ _)), (proj2 (Z.eqb_neq _ _)) by lia. done.
Qed.

Lemma wp_put_last c gi (Q : Z → ksys → Prop) s :
  group_infos s !! cred_groups (ids c) = Some gi → 0 < usage gi < 2 ^ 31 →
  Q 0 (with_group_infos s (dropped (cred_groups (ids c)) gi (group_infos s))) → wp (put_cred c 1) Q s.
Proof.
  intros Hg Hu HQ. unfold put_cred. change (1 <? 1) with false. change (1 - 1 =? 0) with true. change (1 - 1) with 0.
  apply wp_bind, wp_on_groups. by eapply wp_put_group_info.
Qed.

(** No other group list than the task's changes. *)
Definition same_lists (s0 s s' : ksys) : Prop :=
  ∀ q, q ≠ cred_groups (ids (current_cred s0)) → group_infos s' !! q = group_infos s !! q.

(** abort_creds: the references are as before the call. *)
Lemma wp_abort_creds new s0 s (Q : unit → ksys → Prop) : sys_ok s0 → mid prepared s0 s →
  cred_groups (ids new) = cred_groups (ids (current_cred s0)) →
  (∀ s', mid unprepared s0 s' → same_lists s0 s s' → Q tt s') → wp (abort_creds new) Q s.
Proof.
  intros Hs Hm Hg HQ. pose proof Hm as (_ & _ & _ & _ & [_ _ Hru] & Hroom & _ & _ & Hu & Hn).
  destruct (mid_group _ _ Hs Hm) as (gi & Hgi & Hus). unfold refs_room in Hroom.
  unfold abort_creds. apply wp_bind, wp_gets. rewrite Hn by done. change (1 <? 1) with false. cbv iota.
  apply wp_bind. eapply wp_put_last; [by rewrite Hg|lia|]. apply wp_modify.
  rewrite Hg, dropped_some by lia. apply HQ.
  - by apply (mid_count 1 true 0 false 0 s0 s gi); [..|lia|].
  - intros q Hq. by apply lookup_insert_ne.
Qed.

Lemma wp_abort new z s0 s (Q : Z → ksys → Prop) : sys_ok s0 → mid prepared s0 s →
  cred_groups (ids new) = cred_groups (ids (current_cred s0)) →
  (∀ s', mid unprepared s0 s' → Q z s') → wp (abort_return new z) Q s.
Proof.
  intros Hs Hm Hg HQ. apply wp_bind, (wp_abort_creds _ s0); [done..|]. intros s' M _. by apply wp_ret, HQ.
Qed.

(** The ends of a call before it commits: without prepared credentials it may return,
    with them it aborts. *)
Lemma call_paths st s (Q : Z → ksys → Prop) : sys_ok s → (∀ z s', fin st s s' → Q z s') →
  (∀ s', mid unprepared s s' → ∀ z, Q z s') ∧
  (∀ s', mid prepared s s' → ∀ new z, cred_groups (ids new) = cred_groups (ids (current_cred s)) →
     wp (abort_return new z) Q s').
Proof.
  intros Hs HQ. assert (∀ s', mid unprepared s s' → ∀ z, Q z s') as Hmid by (intros; by apply HQ, mid_fin).
  split; [done|]. intros s' M new z Hg. by eapply wp_abort; [..|intros; by apply Hmid].
Qed.

(** prepare_creds finds memory. *)
Definition prepare_ok : bool := creds_alloc && security_prepare_creds.

Lemma wp_prepare_exact s0 s (Q : option kcred → ksys → Prop) : sys_ok s0 → mid unprepared s0 s →
  (∀ s', mid (if prepare_ok then prepared else unprepared) s0 s' → same_lists s0 s s' →
     Q (if prepare_ok then Some (current_cred s0) else None) s') →
  wp prepare_creds Q s.
Proof.
  intros Hs Hm HQ. unfold prepare_ok in HQ. unfold prepare_creds. destruct creds_alloc; [|by apply wp_ret, HQ].
  destruct (mid_group _ _ Hs Hm) as (gi & Hgi & Hus). pose proof Hm as (Hc & _ & _ & _ & [_ _ Hru] & Hroom & _ & _ & Hu & _).
  unfold refs_room in Hroom. apply wp_bind, wp_gets, wp_bind, wp_modify, wp_bind, wp_on_groups. rewrite Hc.
  unfold get_group_info. apply wp_bind. eapply wp_on_obj; [exact Hgi|].
  unfold wp at 1, set_usage. rewrite s32_small by lia. apply wp_ret.
  set (s' := with_group_infos _ _).
  assert (mid prepared s0 s') as M.
  { change s' with (with_usages (with_group_infos s (<[cred_groups (ids (current_cred s0)) :=
      counted gi (usage gi + 1)]> (group_infos s))) (cred_usage s) 1).
    by apply (mid_count 0 false 1 true 1 s0 s gi); [..|lia|]. }
  assert (same_lists s0 s s') as Hq' by (intros q Hq; by apply lookup_insert_ne).
  destruct security_prepare_creds; [by apply wp_ret, HQ|].
  apply wp_bind, (wp_abort_creds _ s0); [done..|]. intros s'' M'' Hq''. apply wp_ret, HQ; [done|].
  intros q Hq. by rewrite Hq'', Hq'.
Qed.

Lemma wp_prepare_creds s0 s (Q : option kcred → ksys → Prop) : sys_ok s0 → mid unprepared s0 s →
  (∀ s', mid unprepared s0 s' → Q None s') → (∀ s', mid prepared s0 s' → Q (Some (current_cred s0)) s') →
  wp prepare_creds Q s.
Proof.
  intros Hs Hm Hn Hp. apply (wp_prepare_exact s0); [done|done|]. intros s' M _. destruct prepare_ok; auto.
Qed.

(** The credentials under construction give up their reference to the group list. *)
Lemma mid_swap s0 s gi h : mid prepared s0 s →
  group_infos s !! cred_groups (ids (current_cred s0)) = Some gi →
  h !! cred_groups (ids (current_cred s0)) = Some (counted gi (group_usage s0)) →
  mid (Some (0, true)) s0 (with_group_infos s h).
Proof.
  intros (Hc & Hn & Hm & Hg & (Hr & Hro & Ho & Hcu & _ & Hb)) Hgi Hh.
  split; [done|]. split; [done|]. split; [done|]. split.
  - intros l (gi' & Hgi' & Hhl & Hrest)%Hg. rewrite Hc, Hgi in Hgi'. simplify_eq.
    exists (counted gi' (group_usage s0)). split; [|split; [exact Hhl|done]].
    cbn. change (current_cred (with_group_infos s h)) with (current_cred s). by rewrite Hc.
  - split_and!; try done. unfold group_usage at 1.
    change (current_cred (with_group_infos s h)) with (current_cred s). rewrite Hc.
    cbn [group_infos with_group_infos]. rewrite Hh. cbn. lia.
Qed.

(** The credentials [old] lose both references of the task. *)
Lemma wp_put_twice old u gi (Q : Z → ksys → Prop) s : 2 ≤ u →
  group_infos s !! cred_groups (ids old) = Some gi → 0 < usage gi < 2 ^ 31 →
  (∀ h, h = group_infos s ∨ h = dropped (cred_groups (ids old)) gi (group_infos s) →
     Q 0 (with_group_infos s h)) →
  wp (left ← put_cred old u; _ ← put_cred old left; mret 0) Q s.
Proof.
  intros Hu Hg Hgi HQ. apply wp_bind, wp_put_cred; [lia|]. apply wp_bind. destruct (decide (u = 2)) as [->|].
  - change (2 - 1) with 1. eapply wp_put_last; [exact Hg|done|]. apply wp_ret, HQ. by right.
  - apply wp_put_cred; [lia|]. apply wp_ret. destruct s. by apply (HQ _ (or_introl eq_refl)).
Qed.

(** A commit succeeds: the new credentials hold their group list, the old ones give
    theirs up, and no other list changes. *)
Lemma wp_commit_gen st new k s0 s (Q : Z → ksys → Prop) : sys_ok s0 → mid (Some (k, true)) s0 s → 0 ≤ k ≤ 1 →
  (∃ l, group_at (group_infos s) (cred_groups (ids new)) l) →
  (if decide (cred_groups (ids new) = cred_groups (ids (current_cred s0))) then k = 1
   else ∃ gi, group_infos s !! cred_groups (ids new) = Some gi ∧ 0 < usage gi < 2 ^ 31) →
  cred_step st (current_cred s0) new →
  (∀ s', fin st s0 s' → current_cred s' = new →
     (∀ q, q ≠ cred_groups (ids (current_cred s0)) → group_infos s' !! q = group_infos s !! q) → Q 0 s') →
  wp (commit_creds new) Q s.
Proof.
  intros Hs Hm Hk [l (gn & Hgn & Hhn & Hln)] Hnew Hst HQ. pose proof (mid_sys_ok _ _ Hs Hm) as [Hc _ Ht].
  destruct (mid_group _ _ Hs Hm) as (gi & Hgi & Hus).
  destruct Hm as (Hmc & Hmn & Hmm & _ & ([_ Hru Hrg] & Hroom & Ho & Hcu & Hu & Hnu)). unfold refs_room in Hroom.
  unfold commit_creds. apply wp_bind, wp_gets. cbn [id]. rewrite Ho, Hnu by done. change (1 <? 1) with false. cbv iota.
  apply wp_bind. change (t_cred (current s)) with (current_cred s).
  apply (wp_mono _ (λ _ s', s' = s)).
  { destruct (negb _ || _ || _ || _); [by apply wp_ret|]. apply wp_bind.
    eapply wp_lift; [|by apply wp_ret]. unfold cred_cap_issubset.
    rewrite (co_ns _ Hc), (co_ns _ (st_ok _ _ _ Hst)), Z.eqb_refl. reflexivity. }
  intros changed s' ->. apply wp_bind, wp_modify. rewrite Hnu by done. rewrite Hcu, Hmc.
  set (t := if changed then _ else current s).
  assert (t_no_new_privs t = t_no_new_privs (current s0) ∧ t_overridden t = false) as [Hnn Hov]
    by (unfold t; by destruct changed). clearbody t.
  eapply wp_put_twice; [done|exact Hgi|lia|]. intros h Hh.
  set (g := cred_groups (ids (current_cred s0))) in *. cbn [group_infos with_usages with_current] in Hh.
  assert (∀ q, q ≠ g → h !! q = group_infos s !! q) as Hq.
  { intros q Hne. destruct Hh as [-> | ->]; [done|by apply dropped_ne]. }
  assert (∃ gm, h !! cred_groups (ids new) = Some gm ∧ holds gm l ∧ 0 < usage gm < 2 ^ 31) as (gm & Hgm & Hhm & Hum).
  { destruct (decide (cred_groups (ids new) = g)) as [Eg|Ng].
    - rewrite Eg in *. rewrite Hgi in Hgn. simplify_eq. destruct Hh as [-> | ->]; [exists gn; split_and!; [done..|lia|lia]|].
      rewrite dropped_some by lia. exists (counted gn (usage gn - 1)).
      split; [apply lookup_insert_eq|]. split; [done|cbn; lia].
    - destruct Hnew as (gx & Hgx & Hux). rewrite Hgx in Hgn. simplify_eq.
      exists gn. rewrite Hq by done. done. }
  apply HQ; [|done|exact Hq]. split; [split; [split|split]|split].
  - exact (st_ok _ _ _ Hst).
  - by exists l, gm.
  - exact Ht.
  - exact Hst.
  - cbn. rewrite Hnn. done.
  - exact Hov.
  - cbn. lia.
  - unfold group_usage. change (current_cred _) with new. cbn [group_infos with_group_infos]. by rewrite Hgm.
Qed.

Lemma wp_commit_creds st new s0 s (Q : Z → ksys → Prop) : sys_ok s0 → mid prepared s0 s →
  cred_groups (ids new) = cred_groups (ids (current_cred s0)) →
  cred_step st (current_cred s0) new →
  (∀ s', fin st s0 s' → current_cred s' = new → Q 0 s') →
  wp (commit_creds new) Q s.
Proof.
  intros Hs Hm Hg Hst HQ. apply (wp_commit_gen st _ 1 s0); [done|done|lia| |by rewrite decide_True|done|auto].
  pose proof (mid_sys_ok _ _ Hs Hm) as [_ [l Hl] _]. exists l. destruct Hm as (Hc & _).
  unfold group_list in Hl. by rewrite Hg, <- Hc.
Qed.

(** ** The set-uid fix-up *)

(** [o] with the ids [x] and no more permitted capabilities. *)
Record fixed (o : kcred) (x : cred) (n : kcred) : Prop := {
  fx_ids : ids n = x;
  fx_sec : securebits n = securebits o;
  fx_inh : cap_inheritable n = cap_inheritable o;
  fx_bset : cap_bset n = cap_bset o;
  fx_ns : user_ns n = user_ns o;
  fx_perm : cap_words (cap_permitted n) ∧ cap_permitted n ⊆ cap_permitted o;
  fx_eff : cap_words (cap_effective n) ∧ cap_effective n ⊆ cap_permitted n
}.

Lemma fixed_ids o x : cred_ok o → fixed o x (with_ids o x).
Proof. intros []. split; try done. by split; [apply co_perm0|]. Qed.

Lemma fixed_effective o x n e : fixed o x n → cap_words e → e ⊆ cap_permitted n →
  fixed o x (with_effective n e).
Proof. intros [] ? ?. by split. Qed.

Lemma fixed_clear o x n : fixed o x n →
  fixed o x (with_effective (with_permitted n CAP_EMPTY_SET) CAP_EMPTY_SET).
Proof.
  intros []. split; try done; cbn; (split; [apply cap_words_empty|set_solver]).
Qed.

Lemma fixed_emulate s o x : cred_ok o → fixed o x (cap_emulate_setxuid s (with_ids o x) o).
Proof.
  intros Ho. unfold cap_emulate_setxuid. cbv zeta.
  assert (fixed o x (with_ids o x)) as F0 by by apply fixed_ids.
  set (n1 := if (_ : bool) then with_effective _ _ else with_ids o x).
  assert (fixed o x n1) as F1 by (unfold n1; destruct (_ && _ && _); [by apply fixed_clear|done]).
  clearbody n1. set (n2 := if (_ : bool) then with_effective n1 _ else n1).
  assert (fixed o x n2) as F2.
  { unfold n2. destruct (_ && _); [|done]. apply fixed_effective; [done|apply cap_words_empty|set_solver]. }
  clearbody n2. destruct (_ && _); [|done]. apply fixed_effective; [done|apply F2|done].
Qed.

Lemma fixed_fs s o x : cred_ok o → fixed o x (cap_task_fix_setuid s (with_ids o x) o LSM_SETID_FS).2.
Proof.
  intros Ho. unfold cap_task_fix_setuid. cbn [Z.eqb Pos.eqb orb LSM_SETID_FS LSM_SETID_RE LSM_SETID_ID LSM_SETID_RES].
  assert (fixed o x (with_ids o x)) as F0 by by apply fixed_ids.
  destruct (negb _); [|done]. cbv zeta. cbn [snd].
  set (n1 := if (_ : bool) then with_effective _ _ else with_ids o x).
  assert (fixed o x n1) as F1.
  { unfold n1. destruct (_ && _); [|done]. destruct F0 as [? ? ? ? ? ? [? ?]]. apply fixed_effective;
      [by apply fixed_ids|unfold cap_drop_fs_set; auto with caps|unfold cap_drop_fs_set; set_solver]. }
  clearbody n1. destruct (_ && _); [|done]. destruct F1 as [? ? ? ? ? [? ?] [? ?]].
  apply fixed_effective; [done|unfold cap_raise_fs_set; auto with caps|unfold cap_raise_fs_set; set_solver].
Qed.

Lemma fixed_setuid s o x flags : cred_ok o →
  flags = LSM_SETID_RE ∨ flags = LSM_SETID_ID ∨ flags = LSM_SETID_RES ∨ flags = LSM_SETID_FS →
  ∃ n, cap_task_fix_setuid s (with_ids o x) o flags = (0, n) ∧ fixed o x n.
Proof.
  intros Ho Hf. destruct Hf as [-> | [-> | [-> | ->]]].
  4: { eexists. split; [|by apply (fixed_fs s)]. unfold cap_task_fix_setuid.
       cbn [Z.eqb Pos.eqb orb LSM_SETID_FS LSM_SETID_RE LSM_SETID_ID LSM_SETID_RES].
       by destruct (negb (issecure s SECURE_NO_SETUID_FIXUP)). }
  all: eexists; (split; [reflexivity|]); destruct (negb _); [by apply fixed_emulate|by apply fixed_ids].
Qed.

(** The ids move among those the task has unless it may set them. *)
Definition ids_within (o : kcred) (x : cred) : Prop :=
  let n := with_ids o x in
  cred_groups x = cred_groups (ids o) ∧
  (CAP_SETUID ∉ cap_effective o → uids n ⊆ uids o) ∧ (CAP_SETGID ∉ cap_effective o → gids n ⊆ gids o).

Lemma fixed_step nnp o x n : cred_ok o → fixed o x n → ids_within o x → cred_step nnp o n.
Proof.
  intros Ho Hf (Hg & Hu & Hgi). pose proof (co_eff _ Ho) as [_ Hep].
  destruct Hf as [Hid Hsec Hinh Hbs Hns [Hpw Hps] [Hew Hes]]. destruct Ho. split.
  - split; rewrite ?Hinh, ?Hbs, ?Hsec, ?Hns; try done; (split; [done|]); set_solver.
  - by rewrite Hbs.
  - rewrite Hinh. set_solver.
  - unfold ceiling. set_solver.
  - rewrite Hsec. apply locks_refl.
  - intros _. split; [done|]. unfold uids, gids in *. rewrite Hid. split.
    + intros H. apply Hu. intros ?. by apply H, Hep.
    + intros H. split; [|by rewrite Hg]. apply Hgi. intros ?. by apply H, Hep.
Qed.

Lemma wp_fix_and_commit st x flags s0 s (Q : Z → ksys → Prop) : sys_ok s0 → mid prepared s0 s →
  flags = LSM_SETID_RE ∨ flags = LSM_SETID_ID ∨ flags = LSM_SETID_RES ∨ flags = LSM_SETID_FS →
  ids_within (current_cred s0) x →
  (∀ n s', cap_task_fix_setuid s (with_ids (current_cred s0) x) (current_cred s0) flags = (0, n) →
     fixed (current_cred s0) x n → fin st s0 s' → current_cred s' = n → Q 0 s') →
  wp (fix_and_commit (with_ids (current_cred s0) x) (current_cred s0) flags) Q s.
Proof.
  intros Hs Hm Hf Hi HQ. pose proof (so_cred _ Hs) as Ho.
  unfold fix_and_commit, security_task_fix_setuid. do 2 apply wp_bind. apply wp_gets. apply wp_ret. cbn [id].
  destruct (fixed_setuid s (current_cred s0) x flags Ho Hf) as (n & En & Hfx). rewrite En. cbn.
  eapply wp_commit_creds; [done|done| |by eapply fixed_step|].
  - rewrite (fx_ids _ _ _ Hfx). apply Hi.
  - intros s' Hfin Hc. by eapply HQ.
Qed.

(** An answer [true] means one of the conditions or the capability. *)
Lemma wp_or_nsown c cap s0 s (Q : bool → ksys → Prop) k : sys_ok s0 → mid k s0 s → plain_cap cap →
  (∀ (b : bool) s', mid k s0 s' → (b = true → c = true ∨ cap ∈ cap_effective (current_cred s0)) → Q b s') →
  wp (or_nsown_capable c cap) Q s.
Proof.
  intros Hs Hm Hp HQ. unfold or_nsown_capable. destruct c; [apply wp_ret, HQ; auto|].
  eapply wp_capable; [done..|]. intros b s' ? ?. apply HQ; auto.
Qed.

Lemma wp_set_user n s0 s (Q : Z → ksys → Prop) k : mid k s0 s →
  (∀ r s', mid k s0 s' → (r = 0 ∨ r = - E_AGAIN) → Q r s') → wp (set_user n) Q s.
Proof.
  intros Hm HQ. unfold set_user. destruct (alloc_uid _) as [over|]; [|apply wp_ret, HQ; auto].
  apply wp_bind, wp_modify, wp_ret, HQ; [by apply mid_flags|by left].
Qed.

Lemma plain_setuid : plain_cap CAP_SETUID.
Proof. done. Qed.
Lemma plain_setgid : plain_cap CAP_SETGID.
Proof. done. Qed.
Lemma plain_setpcap : plain_cap CAP_SETPCAP.
Proof. done. Qed.


(** *** The set*uid calls *)

Lemma wp_gets_cred s0 s (Q : kcred → ksys → Prop) k : mid k s0 s → Q (current_cred s0) s →
  wp (gets current_cred) Q s.
Proof. intros (Hc & _) HQ. apply wp_gets. by rewrite Hc. Qed.

(** prepare_creds and current_cred at the start of a call. *)
Lemma wp_start {A} s (f : kcred → kcred → prog ksys A) (g : prog ksys A) (Q : A → ksys → Prop) :
  sys_ok s → mid unprepared s s → (∀ s', mid unprepared s s' → wp g Q s') →
  (∀ s', mid prepared s s' → wp (f (current_cred s) (current_cred s)) Q s') →
  wp (r ← prepare_creds;
      match r with None => g | Some new => old ← gets current_cred; f new old end) Q s.
Proof.
  intros Hs Hm Hg Hf. apply wp_bind, (wp_prepare_creds s); [done|done|done|].
  intros s1 M1. apply wp_bind. eapply (wp_gets_cred s); [done|]. by apply Hf.
Qed.

(** Two optional steps of the calls. *)
Lemma wp_ask (c d : bool) cap s0 s (Q : bool → ksys → Prop) k : sys_ok s0 → mid k s0 s → plain_cap cap →
  (∀ (b : bool) s', mid k s0 s' →
     (b = true → c = true → d = true ∨ cap ∈ cap_effective (current_cred s0)) → Q b s') →
  wp (if c then or_nsown_capable d cap else mret true) Q s.
Proof.
  intros Hs Hm Hp HQ. destruct c; [|by apply wp_ret, HQ].
  eapply (wp_or_nsown d cap s0); [done..|]. intros b s' ? ?. apply HQ; auto.
Qed.

Lemma wp_maybe_user (c : bool) n s0 s (Q : Z → ksys → Prop) k : mid k s0 s →
  (∀ r s', mid k s0 s' → (r = 0 ∨ r = - E_AGAIN) → Q r s') →
  wp (if c then set_user n else mret 0) Q s.
Proof. intros Hm HQ. destruct c; [by eapply wp_set_user|apply wp_ret, HQ; auto]. Qed.

Lemma setreuid_ok st r e s (Q : Z → ksys → Prop) : sys_ok s → refs_ok s → refs_room s → (∀ z s', fin st s s' → Q z s') →
  wp (setreuid r e) Q s.
Proof.
  intros Hs Hr0 Hr1 HQ. pose proof (mid_start s Hr0 Hr1) as M0. unfold setreuid.
  destruct (call_paths st s Q Hs HQ) as [Hmid Hab].
  destruct (negb (r =? ID_NONE) && _); [by apply Hmid|].
  destruct (negb (e =? ID_NONE) && _); [by apply Hmid|].
  apply wp_start; [done|done|intros; by apply Hmid|]. intros s1 M1. unfold make_kuid.
  apply wp_bind; eapply (wp_ask _ _ _ s); [done|done|done|]. intros okr s2 M2 Hr.
  destruct okr; [|apply Hab; [done|same_groups]]. cbn [negb].
  apply wp_bind; eapply (wp_ask _ _ _ s); [done|done|done|]. intros oke s3 M3 He.
  destruct oke; [|apply Hab; [done|same_groups]]. cbn [negb].
  apply wp_bind; eapply (wp_maybe_user _ _ s); [done|]. intros z s4 M4 Hz.
  destruct (z <? 0); [apply Hab; [done|same_groups]|]. revert Hr He.
  destruct (r =? ID_NONE), (e =? ID_NONE), (e =? uid (ids (current_cred s)));
    cbn [negb orb andb]; intros Hr He;
    (eapply wp_fix_and_commit; [done|done|by left|ids_solve|intros; by apply HQ]).
Qed.

Lemma setuid_ok st u s (Q : Z → ksys → Prop) : sys_ok s → refs_ok s → refs_room s → (∀ z s', fin st s s' → Q z s') →
  wp (setuid u) Q s.
Proof.
  intros Hs Hr0 Hr1 HQ. pose proof (mid_start s Hr0 Hr1) as M0. unfold setuid, make_kuid.
  destruct (call_paths st s Q Hs HQ) as [Hmid Hab].
  destruct (negb (uid_valid u)); [by apply Hmid|].
  apply wp_start; [done|done|intros; by apply Hmid|]. intros s1 M1.
  apply wp_bind; eapply (wp_capable CAP_SETUID s); [done..|]. intros ok s2 M2 Hok. apply wp_bind.
  destruct ok.
  - apply wp_bind; eapply (wp_maybe_user _ _ s); [done|]. intros z s3 M3 Hz. apply wp_ret.
    destruct (z <? 0); [apply Hab; [done|same_groups]|].
    eapply wp_fix_and_commit; [done|done|by right; left|ids_solve|intros; by apply HQ].
  - destruct (negb (u =? uid (ids (current_cred s))) && negb (u =? suid (ids (current_cred s)))) eqn:Eu;
      apply wp_ret; [apply Hab; [done|same_groups]|]. cbn [Z.ltb Z.compare].
    apply andb_false_iff in Eu. rewrite !negb_false_iff in Eu.
    eapply wp_fix_and_commit; [done|done|by right; left|ids_solve|intros; by apply HQ].
Qed.

Lemma res_ok_alt x u e sv : res_ok x x u e sv = (x =? ID_NONE) || (x =? u) || (x =? e) || (x =? sv).
Proof. unfold res_ok. by rewrite !negb_andb, !negb_involutive. Qed.

(** The ids that setresuid or setresgid may set. *)
Lemma wp_res cap (c : bool) s0 s (g f : prog ksys Z) (Q : Z → ksys → Prop) :
  sys_ok s0 → mid prepared s0 s → plain_cap cap → (∀ s', mid prepared s0 s' → wp g Q s') →
  (∀ s', mid prepared s0 s' → c = true ∨ cap ∈ cap_effective (current_cred s0) → wp f Q s') →
  wp (ok ← nsown_capable cap; if negb ok && negb c then g else f) Q s.
Proof.
  intros Hs Hm Hp Hz Hf. apply wp_bind; eapply (wp_capable cap s0); [done..|]. intros ok s' M Hok.
  destruct ok; [apply Hf; auto|]. destruct c; [apply Hf; auto|]. by apply Hz.
Qed.

Lemma setresuid_ok st r e v s (Q : Z → ksys → Prop) : sys_ok s → refs_ok s → refs_room s → (∀ z s', fin st s s' → Q z s') →
  wp (setresuid r e v) Q s.
Proof.
  intros Hs Hr0 Hr1 HQ. pose proof (mid_start s Hr0 Hr1) as M0. unfold setresuid, make_kuid. cbv zeta.
  destruct (call_paths st s Q Hs HQ) as [Hmid Hab].
  do 3 (destruct (negb _ && negb _); [by apply Hmid|]).
  apply wp_start; [done|done|intros; by apply Hmid|]. intros s1 M1. rewrite !res_ok_alt.
  apply (wp_res _ _ s); [done|done|done|intros; apply Hab; [done|same_groups]|]. intros s2 M2 Hc.
  apply wp_bind; eapply (wp_maybe_user _ _ s); [done|]. intros z s4 M4 Hz.
  destruct (z <? 0); [apply Hab; [done|same_groups]|]. revert Hc. rewrite !andb_true_iff.
  destruct (r =? ID_NONE), (e =? ID_NONE), (v =? ID_NONE);
    cbn [negb orb andb]; intros [((Hr & He) & Hv)|Hc];
    (eapply wp_fix_and_commit; [done|done|by right; right; left| |intros; by apply HQ]);
    clear -Hr He Hv || clear -Hc; ids_solve.
Qed.

Lemma setfsuid_ok st ov u s (Q : Z → ksys → Prop) : sys_ok s → refs_ok s → refs_room s → (∀ z s', fin st s s' → Q z s') →
  wp (setfsuid ov u) Q s.
Proof.
  intros Hs Hr0 Hr1 HQ. pose proof (mid_start s Hr0 Hr1) as M0. unfold setfsuid, make_kuid.
  destruct (call_paths st s Q Hs HQ) as [Hmid Hab].
  apply wp_bind; eapply (wp_gets_cred s); [done|]. destruct (negb (uid_valid u)); [by apply Hmid|].
  apply wp_bind, (wp_prepare_creds s); [done|done|intros; by apply Hmid|]. intros s1 M1.
  apply wp_bind; eapply (wp_or_nsown _ _ s); [done..|]. intros ok s2 M2 Hok.
  destruct ok; cbn [andb]; [|apply Hab; [done|same_groups]]. destruct (negb _); [|apply Hab; [done|same_groups]].
  apply wp_bind. unfold security_task_fix_setuid. apply wp_bind, wp_gets, wp_ret. cbn [id].
  set (x := ids (set_fsuid_ (current_cred s) u)).
  change (set_fsuid_ (current_cred s) u) with (with_ids (current_cred s) x).
  destruct (fixed_setuid s2 (current_cred s) x LSM_SETID_FS) as (n & -> & Hn); [apply Hs|tauto|].
  cbn [Z.eqb]. assert (ids_within (current_cred s) x) as Hx by (unfold x; ids_solve).
  apply wp_bind, (wp_commit_creds st n s); [done|done| | |].
  - rewrite (fx_ids _ _ _ Hn). apply Hx.
  - by eapply fixed_step; [apply Hs|..].
  - intros s' Hf _. apply wp_ret. by apply HQ.
Qed.

End Calls.
