(* ===== verification/CredsysCalls.v ===== *)
(** * CredsysCalls: gids, groups, capset, prctl and exec

    The lemmas of CredsysThm continued for the other calls of Credsys. *)

From stdpp Require Import relations sets.
From S2P Require Import Prelude Groups CapSet Capability Credsys CapabilityThm CredsysThm.

Section Calls.
Context {E : cap_env}.

(** ** The set*gid calls *)

Lemma wp_commit_ids st x s0 s (Q : Z → ksys → Prop) : sys_ok s0 → mid prepared s0 s →
  ids_within (current_cred s0) x → (∀ s', fin st s0 s' → Q 0 s') →
  wp (commit_creds (with_ids (current_cred s0) x)) Q s.
Proof.
  intros Hs Hm Hx HQ. apply (wp_commit_creds st _ s0); [done|done|apply Hx| |intros; by apply HQ].
  eapply fixed_step; [apply Hs|apply fixed_ids, Hs|done].
Qed.

Lemma setregid_ok st r e s (Q : Z → ksys → Prop) : sys_ok s → refs_ok s → refs_room s → (∀ z s', fin st s s' → Q z s') →
  wp (setregid r e) Q s.
Proof.
  intros Hs Hr0 Hr1 HQ. pose proof (mid_start s Hr0 Hr1) as M0. unfold setregid, make_kgid. cbv zeta.
  destruct (call_paths st s Q Hs HQ) as [Hmid Hab].
  do 2 (destruct (negb _ && negb _); [by apply Hmid|]).
  apply wp_start; [done|done|intros; by apply Hmid|]. intros s1 M1.
  apply wp_bind; eapply (wp_ask _ _ _ s); [done|done|done|]. intros okr s2 M2 Hr.
  destruct okr; [|apply Hab; [done|same_groups]]. cbn [negb].
  apply wp_bind; eapply (wp_ask _ _ _ s); [done|done|done|]. intros oke s3 M3 He.
  destruct oke; [|apply Hab; [done|same_groups]]. cbn [negb]. revert Hr He.
  destruct (r =? ID_NONE), (e =? ID_NONE), (e =? gid (ids (current_cred s)));
    cbn [negb orb andb]; intros Hr He;
    (eapply wp_commit_ids; [done|done|ids_solve|intros; by apply HQ]).
Qed.

Lemma setgid_ok st g s (Q : Z → ksys → Prop) : sys_ok s → refs_ok s → refs_room s → (∀ z s', fin st s s' → Q z s') →
  wp (setgid g) Q s.
Proof.
  intros Hs Hr0 Hr1 HQ. pose proof (mid_start s Hr0 Hr1) as M0. unfold setgid, make_kgid.
  destruct (call_paths st s Q Hs HQ) as [Hmid Hab].
  destruct (negb (gid_valid g)); [by apply Hmid|].
  apply wp_start; [done|done|intros; by apply Hmid|]. intros s1 M1.
  apply wp_bind; eapply (wp_capable CAP_SETGID s); [done..|]. intros ok s2 M2 Hok. destruct ok.
  - eapply wp_commit_ids; [done|done|ids_solve|intros; by apply HQ].
  - destruct (_ || _) eqn:Eg; [|apply Hab; [done|same_groups]].
    eapply wp_commit_ids; [done|done|ids_solve|intros; by apply HQ].
Qed.

Lemma setresgid_ok st r e v s (Q : Z → ksys → Prop) : sys_ok s → refs_ok s → refs_room s → (∀ z s', fin st s s' → Q z s') →
  wp (setresgid r e v) Q s.
Proof.
  intros Hs Hr0 Hr1 HQ. pose proof (mid_start s Hr0 Hr1) as M0. unfold setresgid, make_kgid. cbv zeta.
  destruct (call_paths st s Q Hs HQ) as [Hmid Hab].
  do 3 (destruct (negb _ && negb _); [by apply Hmid|]).
  apply wp_start; [done|done|intros; by apply Hmid|]. intros s1 M1. rewrite !res_ok_alt.
  apply (wp_res _ _ s); [done|done|done|intros; apply Hab; [done|same_groups]|]. intros s2 M2 Hc.
  revert Hc. rewrite !andb_true_iff.
  destruct (r =? ID_NONE), (e =? ID_NONE), (v =? ID_NONE);
    cbn [negb orb andb]; intros [((Hr & He) & Hv)|Hc];
    (eapply wp_commit_ids; [done|done| |intros; by apply HQ]);
    clear -Hr He Hv || clear -Hc; ids_solve.
Qed.

Lemma setfsgid_ok st ov g s (Q : Z → ksys → Prop) : sys_ok s → refs_ok s → refs_room s → (∀ z s', fin st s s' → Q z s') →
  wp (setfsgid ov g) Q s.
Proof.
  intros Hs Hr0 Hr1 HQ. pose proof (mid_start s Hr0 Hr1) as M0. unfold setfsgid, make_kgid.
  destruct (call_paths st s Q Hs HQ) as [Hmid Hab].
  apply wp_bind; eapply (wp_gets_cred s); [done|]. destruct (negb (gid_valid g)); [by apply Hmid|].
  apply wp_bind, (wp_prepare_creds s); [done|done|intros; by apply Hmid|]. intros s1 M1.
  apply wp_bind; eapply (wp_or_nsown _ _ s); [done..|]. intros ok s2 M2 Hok.
  destruct ok; cbn [andb]; [|apply Hab; [done|same_groups]]. destruct (negb _); [|apply Hab; [done|same_groups]].
  apply wp_bind. eapply wp_commit_ids; [done|done|ids_solve|]. intros s' Hf. apply wp_ret. by apply HQ.
Qed.

(** ** capset *)

Lemma land_mask_u32 x : is_u32 x → is_u32 (x .& CAP_LAST_U32_VALID_MASK).
Proof. intros. apply land_u32; [lia|]. split; vm_compute; congruence. Qed.

(** The words of the user's array are 32 bits wide. *)
Definition ucap_ok (u : user_cap_data) : Prop :=
  is_u32 (u_effective u) ∧ is_u32 (u_permitted u) ∧ is_u32 (u_inheritable u).

Lemma masked_full p x : is_u32 p → KCap p (x .& CAP_LAST_U32_VALID_MASK) ⊆ CAP_FULL_SET.
Proof.
  intros Hp k. rewrite elem_of_full, elem_of_cap. cbn [cap_0 cap_1].
  change CAP_LAST_U32_VALID_MASK with (Z.ones 5). rewrite Z.land_spec, testbit_ones by lia.
  unfold CAP_LAST_CAP. rewrite !andb_true_iff, Z.leb_le, Z.ltb_lt. lia.
Qed.

Lemma default_u32 (f : user_cap_data → Z) (kdata : list user_cap_data) (i : nat) : (∀ u, u ∈ kdata → is_u32 (f u)) →
  is_u32 (default 0 (f <$> kdata !! i)).
Proof.
  intros Hf. destruct (kdata !! i) as [u|] eqn:Eu; [|cbn; lia]. apply Hf. by eapply list_elem_of_lookup_2.
Qed.

Lemma cap_from_user_ok (f : user_cap_data → Z) (kdata : list user_cap_data) : (∀ u, u ∈ kdata → is_u32 (f u)) →
  cap_words (cap_from_user f kdata) ∧ cap_from_user f kdata ⊆ CAP_FULL_SET.
Proof.
  intros Hf. split.
  - split; cbn; [|apply land_mask_u32]; by apply default_u32.
  - apply masked_full. by apply default_u32.
Qed.

(** The conditions under which a proposal of capset is taken. *)
Definition capset_allowed (o : kcred) (effective inheritable permitted : kernel_cap_t) : Prop :=
  permitted ⊆ cap_permitted o ∧ effective ⊆ permitted ∧
  inheritable ⊆ cap_combine (cap_inheritable o) (cap_bset o) ∧
  (CAP_SETPCAP ∈ cap_effective o ∨ inheritable ⊆ cap_combine (cap_inheritable o) (cap_permitted o)).

Definition with_caps (c : kcred) (effective inheritable permitted : kernel_cap_t) : kcred :=
  with_permitted (with_inheritable (with_effective c effective) inheritable) permitted.

(** cap_capable for the own namespace. *)
Lemma own_capable_ok s cap : sys_ok s → plain_cap cap →
  ∃ r, cap_capable s (current_cred s) (user_ns (current_cred s)) cap true = Some r ∧
    (r = 0 ∧ cap ∈ cap_effective (current_cred s) ∨ r = - E_PERM ∧ cap ∉ cap_effective (current_cred s)).
Proof.
  intros [Hc [l Hl] Ht] (Hv & H1 & H2).
  assert (is_Some (namespaces s !! user_ns (current_cred s))) as Hn by (rewrite (co_ns _ Hc); apply Ht).
  pose proof Hv as Hr. apply andb_true_iff in Hr as [?%Z.leb_le ?%Z.leb_le]. unfold CAP_LAST_CAP in *.
  destruct (cap_capable_ok s l (current_cred s) (user_ns (current_cred s)) cap true) as (r & Er & Hd);
    [done|done|done|done|lia|]. exists r. split; [done|].
  rewrite (authority_own _ Ht) in Hd by done. unfold paranoid in Hd. naive_solver.
Qed.

Lemma cap_capset_ok s new e i p : sys_ok s → cap_words e → cap_words i → cap_words p →
  cap_capset s new (current_cred s) e i p = Some (0, with_caps new e i p) ∧
    capset_allowed (current_cred s) e i p ∨
  cap_capset s new (current_cred s) e i p = Some (- E_PERM, new) ∧
    ¬ capset_allowed (current_cred s) e i p.
Proof.
  intros Hs He Hi Hp. unfold cap_capset, cap_inh_is_capped, capset_allowed.
  destruct (own_capable_ok s CAP_SETPCAP Hs plain_setpcap) as (r & -> & Hr). cbn [mbind option_bind].
  rewrite <- (cap_issubset_true _ _ Hp), <- (cap_issubset_true _ _ He), <- !(cap_issubset_true _ _ Hi).
  destruct Hr as [[-> Hr]|[-> Hr]]; cbn [Z.eqb Z.opp negb E_PERM andb];
    repeat match goal with |- context [cap_issubset ?a ?b] => destruct (cap_issubset a b) end;
    cbn [negb andb]; naive_solver.
Qed.

Lemma capset_step nnp o e i p : cred_ok o → capset_allowed o e i p →
  cap_words e → (cap_words i ∧ i ⊆ CAP_FULL_SET) → (cap_words p ∧ p ⊆ CAP_FULL_SET) →
  cred_step nnp o (with_caps o e i p).
Proof.
  intros Ho (Hp & He & Hi & _) ? ? ?. destruct Ho. split; try done.
  - unfold ceiling. cbn. set_solver.
  - apply locks_refl.
Qed.

Lemma capset_ok st h copy s (Q : Z → ksys → Prop) : sys_ok s → refs_ok s → refs_room s →
  (∀ n l u, copy n = Some l → u ∈ l → ucap_ok u) → (∀ z s', fin st s s' → Q z s') →
  wp (capset h copy) Q s.
Proof.
  intros Hs Hr0 Hr1 Hu HQ. pose proof (mid_start s Hr0 Hr1) as M0. unfold capset.
  destruct (call_paths st s Q Hs HQ) as [Hmid Hab].
  destruct (cap_validate_magic h) as [ret tocopy]. destruct (negb (ret =? 0)); [by apply Hmid|].
  destruct (h_pid h) as [pid|]; [|by apply Hmid]. apply wp_bind, wp_gets.
  destruct (_ && _); [by apply Hmid|]. destruct (copy tocopy) as [kdata|] eqn:Ek; [|by apply Hmid].
  apply wp_bind, (wp_prepare_creds s); [done|done|intros; by apply Hmid|]. intros s1 M1. apply wp_bind, wp_gets. cbn [id].
  pose proof (mid_sys_ok _ _ Hs M1) as Hs1. pose proof M1 as (Hc & _).
  destruct (cap_from_user_ok u_effective kdata) as [? _]; [intros; by apply (Hu _ _ _ Ek)|].
  destruct (cap_from_user_ok u_permitted kdata) as [? ?]; [intros; by apply (Hu _ _ _ Ek)|].
  destruct (cap_from_user_ok u_inheritable kdata) as [? ?]; [intros; by apply (Hu _ _ _ Ek)|].
  apply wp_bind. unfold selinux_capset.
  edestruct (cap_capset_ok s1 (current_cred s)) as [[Ec Ha]|[Ec _]]; [done| | | |rewrite Ec|rewrite Ec];
    [done|done|done| |apply Hab; [done|same_groups]].
  cbn [mbind option_bind Z.eqb negb]. eapply wp_lift; [reflexivity|]. cbv beta iota.
  destruct (cred_has_perm_setcap _ _ <? 0); [apply Hab; [done|same_groups]|].
  apply (wp_commit_creds st _ s); [done|done|done| |by intros; apply HQ].
  rewrite Hc in Ha. apply capset_step; [apply Hs|done..].
Qed.

(** ** prctl *)

Lemma zero_bit x i : x = 0 → Z.testbit x i = false.
Proof. intros ->. apply Z.bits_0. Qed.

(** The bits of an integer below 64. *)
Lemma small_bits x : 0 ≤ x → (∀ i, 6 ≤ i → Z.testbit x i = false) → x < 64.
Proof.
  intros Hx Hb. replace x with (wrap 6 x); [apply (wrap_range 6); lia|].
  apply Z.bits_inj'. intros i Hi. rewrite testbit_wrap by lia.
  destruct (Z.ltb_spec i 6); [done|]. by rewrite Hb.
Qed.

Lemma high_bits x i : 0 ≤ x < 64 → 6 ≤ i → Z.testbit x i = false.
Proof.
  intros Hx Hi. rewrite <- (wrap_small 6 x) by lia. rewrite testbit_wrap by lia.
  by rewrite (proj2 (Z.ltb_ge i 6)) by lia.
Qed.

Lemma set_securebits_ok bits arg2 : 0 ≤ arg2 → securebits_refused bits arg2 = false →
  0 ≤ arg2 < 64 ∧ locks_kept bits arg2.
Proof.
  intros H0. unfold securebits_refused. rewrite !orb_false_iff, !negb_false_iff, !Z.eqb_eq.
  intros [[H1 H2] H3]. split.
  - split; [done|]. apply small_bits; [done|]. intros i Hi.
    pose proof (zero_bit _ i H3) as Hb. change (SECURE_ALL_LOCKS .| SECURE_ALL_BITS) with 63 in Hb.
    rewrite Z.land_spec, Z.lnot_spec, (high_bits 63) in Hb by lia. by rewrite andb_true_r in Hb.
  - intros i Hi Hl.
    pose proof (zero_bit _ i H1) as Hb. pose proof (zero_bit _ (i + 1) H2) as Hc.
    assert (0 ≤ i ∧ Z.testbit SECURE_ALL_LOCKS (i + 1) = true) as [? HL]
      by (destruct Hi as [-> | [-> | ->]]; done).
    rewrite !Z.land_spec, Z.shiftr_spec, Z.land_spec, Z.lxor_spec, Hl, HL in Hb by lia.
    rewrite !Z.land_spec, Z.lnot_spec, Hl, HL in Hc by lia.
    split; [by destruct (Z.testbit arg2 (i + 1))|]. left.
    by destruct (Z.testbit bits i), (Z.testbit arg2 i).
Qed.

Definition KEEP : Z := issecure_mask SECURE_KEEP_CAPS.
Lemma keep_pow2 : KEEP = 2 ^ 4.
Proof. done. Qed.

Lemma clear_keep_bit b i : 0 ≤ b < 64 → 0 ≤ i →
  Z.testbit (b .& u32 (Z.lnot KEEP)) i = Z.testbit b i && negb (i =? 4).
Proof.
  intros Hb Hi. destruct (decide (i < 32)).
  - rewrite Z.land_spec, testbit_not32, keep_pow2, Z.pow2_bits_eqb by lia. by rewrite Z.eqb_sym.
  - rewrite Z.land_spec, (high_bits b) by lia. done.
Qed.

Lemma set_keep_bit b i : Z.testbit (b .| KEEP) i = Z.testbit b i || (i =? 4).
Proof. rewrite Z.lor_spec, keep_pow2, Z.pow2_bits_eqb by lia. by rewrite Z.eqb_sym. Qed.

Lemma clear_keep_range b : 0 ≤ b < 64 → 0 ≤ b .& u32 (Z.lnot KEEP) < 64.
Proof.
  intros Hb. assert (0 ≤ b .& u32 (Z.lnot KEEP)) by (apply Z.land_nonneg; lia). split; [done|].
  apply small_bits; [done|]. intros i Hi. rewrite clear_keep_bit, (high_bits b) by lia. done.
Qed.

Lemma set_keep_range b : 0 ≤ b < 64 → 0 ≤ b .| KEEP < 64.
Proof.
  intros Hb. assert (0 ≤ b .| KEEP) by (apply Z.lor_nonneg; split; [lia|done]). split; [done|].
  apply small_bits; [done|]. intros i Hi. rewrite set_keep_bit, (high_bits b) by lia.
  by rewrite (proj2 (Z.eqb_neq i 4)) by lia.
Qed.

Lemma clear_keep_locks b : 0 ≤ b < 64 → locks_kept b (b .& u32 (Z.lnot KEEP)).
Proof.
  intros Hb i Hi Hl.
  destruct Hi as [-> | [-> | ->]]; rewrite !clear_keep_bit, Hl by (done || lia);
    (split; [done|]); [left|left|right]; cbn; rewrite ?andb_true_r, ?andb_false_r; done.
Qed.

Lemma issecure_bit s x : 0 ≤ x → issecure s x = Z.testbit (securebits (current_cred s)) x.
Proof.
  intros. unfold issecure, issecure_mask. rewrite Z.land_comm, Z.shiftl_1_l, land_pow2_zero by done.
  apply negb_involutive.
Qed.

(** A change of KEEP_CAPS that is not locked. *)
Lemma keep_locks b b' : Z.testbit b 5 = false → (∀ i, 0 ≤ i → i ≠ 4 → Z.testbit b' i = Z.testbit b i) →
  locks_kept b b'.
Proof.
  intros Hb Hb' i Hi Hl. destruct Hi as [-> | [-> | ->]]; [| |by change (SECURE_KEEP_CAPS + 1) with 5 in Hl; rewrite Hb in Hl];
    rewrite !Hb' by done; auto.
Qed.

Lemma step_securebits nnp o x : cred_ok o → 0 ≤ x < 64 → locks_kept (securebits o) x →
  cred_step nnp o (with_securebits o x).
Proof.
  intros Ho Hx Hl. destruct Ho. split; [by split|done|cbn; set_solver|unfold ceiling; cbn; set_solver|done|].
  intros _. done.
Qed.

Lemma step_bset nnp o b : cred_ok o → cap_words b → b ⊆ cap_bset o → cred_step nnp o (with_bset o b).
Proof.
  intros Ho Hw Hb. destruct Ho as [? ? ? [? ?]]. split; try done; cbn.
  - split; try done. cbn. split; [done|]. by transitivity (cap_bset o).
  - set_solver.
  - unfold ceiling. set_solver.
  - apply locks_refl.
Qed.

Lemma cap_task_prctl_ok st op arg2 s (Q : Z → ksys → Prop) : sys_ok s → refs_ok s → refs_room s → 0 ≤ arg2 →
  (∀ z s', fin st s s' → Q z s') → wp (cap_task_prctl op arg2) Q s.
Proof.
  intros Hs Hr0 Hr1 Ha HQ. pose proof (mid_start s Hr0 Hr1) as M0. unfold cap_task_prctl.
  destruct (call_paths st s Q Hs HQ) as [Hmid Hab].
  assert (cred_ok (current_cred s)) as Ho by apply Hs. pose proof (co_secure _ Ho) as Hsec.
  apply wp_bind, (wp_prepare_creds s); [done|done|intros; by apply Hmid|]. intros s1 M1. apply wp_bind, wp_gets. cbn [id].
  pose proof (mid_sys_ok _ _ Hs M1) as Hs1. pose proof M1 as (Hc & _).
  assert (∀ x, 0 ≤ x < 64 → locks_kept (securebits (current_cred s)) x →
          wp (commit_creds (with_securebits (current_cred s) x)) Q s1) as Hcommit.
  { intros x Hx Hl. apply (wp_commit_creds st _ s); [done|done|done|by apply step_securebits|].
    intros; by apply HQ. }
  destruct (op =? PR_CAPBSET_READ).
  { destruct (negb (cap_valid arg2)) eqn:Ev; [apply Hab; [done|same_groups]|]. apply negb_false_iff in Ev.
    apply andb_true_iff in Ev as [?%Z.leb_le Hv%Z.leb_le]. unfold CAP_LAST_CAP in Hv.
    destruct (cap_raised_spec (cap_bset (current_cred s)) arg2) as (w & Ew & _); [lia|].
    apply wp_bind. eapply wp_lift; [exact Ew|]. apply Hab; [done|same_groups]. }
  destruct (op =? PR_CAPBSET_DROP).
  { apply wp_bind. unfold cap_prctl_drop. apply wp_bind; eapply (wp_capable CAP_SETPCAP s); [done..|].
    intros ok s2 M2 _. destruct ok; [|apply Hab; [done|same_groups]]. cbn [negb].
    destruct (negb (cap_valid arg2)) eqn:Ev; [apply Hab; [done|same_groups]|]. apply negb_false_iff in Ev.
    apply andb_true_iff in Ev as [?%Z.leb_le Hv%Z.leb_le]. unfold CAP_LAST_CAP in Hv.
    destruct (cap_lower_spec (cap_bset (current_cred s)) arg2) as (b & Eb & Hb & Hw); [lia|].
    apply wp_bind. eapply wp_lift; [exact Eb|]. apply wp_ret. cbn [Z.ltb Z.compare].
    apply (wp_commit_creds st _ s); [done|done|done| |intros; by apply HQ].
    apply step_bset; [done|apply Hw, Ho|]. intros k Hk. by apply Hb. }
  destruct (op =? PR_SET_SECUREBITS).
  { destruct (securebits_refused _ _) eqn:Er; [apply Hab; [done|same_groups]|].
    apply set_securebits_ok in Er as [Hr Hl]; [|done].
    destruct (own_capable_ok s1 CAP_SETPCAP Hs1 plain_setpcap) as (r & Er & _).
    apply wp_bind. eapply wp_lift; [exact Er|]. destruct (negb (r =? 0)); [apply Hab; [done|same_groups]|].
    rewrite u32_small by lia. by apply Hcommit. }
  do 2 (destruct (op =? _); [apply Hab; [done|same_groups]|]).
  destruct (op =? PR_SET_KEEPCAPS); [|apply Hab; [done|same_groups]].
  destruct (1 <? arg2); [apply Hab; [done|same_groups]|]. destruct (issecure _ _) eqn:El; [apply Hab; [done|same_groups]|].
  rewrite issecure_bit, Hc in El by done. fold KEEP. apply Hcommit.
  - destruct (negb _); [by apply set_keep_range|by apply clear_keep_range].
  - apply keep_locks; [done|]. intros i Hi Hne. destruct (negb _).
    + rewrite set_keep_bit. by rewrite (proj2 (Z.eqb_neq i 4)), orb_false_r by done.
    + rewrite clear_keep_bit by done. by rewrite (proj2 (Z.eqb_neq i 4)), andb_true_r by done.
Qed.

Lemma prctl_no_new_privs_ok st op a b c d s (Q : Z → ksys → Prop) : sys_ok s → refs_ok s → refs_room s →
  (∀ z s', fin st s s' → Q z s') → wp (prctl_no_new_privs op a b c d) Q s.
Proof.
  intros Hs Hr0 Hr1 HQ. pose proof (mid_start s Hr0 Hr1) as M0. unfold prctl_no_new_privs.
  destruct (call_paths st s Q Hs HQ) as [Hmid Hab].
  destruct (op =? PR_SET_NO_NEW_PRIVS).
  - destruct (_ || _); [by apply Hmid|]. apply wp_bind, wp_modify, wp_ret, HQ.
    split; [|by destruct Hr0]. split; [|split; [apply cred_step_refl, Hs|done]]. by destruct Hs.
  - destruct (op =? PR_GET_NO_NEW_PRIVS); [|by apply Hmid].
    destruct (_ || _); [by apply Hmid|]. apply wp_bind, wp_gets. by apply Hmid.
Qed.

End Calls.
