(* ===== verification/CredsysExec.v ===== *)
(** * CredsysExec: setgroups and exec

    The remaining lemmas of the kind of CredsysThm, and what exec computes. *)

From stdpp Require Import relations sets.
From S2P Require Import Prelude Groups CapSet Capability Credsys CapabilityThm CredsysThm CredsysCalls.

(** ** setgroups *)

Lemma from_user_safe get_user make_kgid : ∀ n i gi l, holds gi l → 0 ≤ i → i + Z.of_nat n ≤ zlen l →
  wp (from_user_loop n i get_user make_kgid) (λ _ gi', usage gi' = usage gi ∧
    ngroups gi' = ngroups gi ∧ ∃ l', holds gi' l') gi.
Proof.
  induction n as [|n IH]; intros i gi l Hh Hi Hn; cbn [from_user_loop]; [apply wp_ret; eauto|].
  destruct (get_user i) as [g|]; [|apply wp_ret; eauto].
  destruct (_ =? INVALID_GID); [apply wp_ret; eauto|].
  apply wp_bind. eapply wp_GROUP_SET; [done|lia|]. intros gi' Hh' Hn' Hu'.
  eapply wp_mono; [eapply IH; [exact Hh'|lia|rewrite length_insert; lia]|].
  intros _ gi'' (? & ? & ?). split; [congruence|]. split; [congruence|done].
Qed.

Section Calls.
Context {E : cap_env}.

(** A change of the groups by a task that may change them. *)
Lemma step_groups nnp o p : cred_ok o → CAP_SETGID ∈ cap_effective o →
  cred_step nnp o (with_ids o (Cred (uid (ids o)) (gid (ids o)) (suid (ids o)) (sgid (ids o))
    (euid (ids o)) (egid (ids o)) (fsuid (ids o)) (fsgid (ids o)) p)).
Proof.
  intros Ho Hcap. pose proof (co_eff _ Ho) as [_ He].
  destruct Ho. split; [by split|done|cbn; set_solver|unfold ceiling; cbn; set_solver|apply locks_refl|].
  intros _. split; [done|]. split; [by intros ? ?|]. intros []. by apply He.
Qed.

(** set_current_groups with a new list: the list is sorted and in use afterwards. *)
Lemma set_current_groups_ok st p gi l s0 s (Q : Z → ksys → Prop) : sys_ok s0 → mid unprepared s0 s →
  CAP_SETGID ∈ cap_effective (current_cred s0) → p ≠ cred_groups (ids (current_cred s0)) →
  group_infos s !! p = Some gi → holds gi l → ngroups gi ≤ NGROUPS_MAX → usage gi = 1 →
  (∀ s' gi', mid unprepared s0 s' → group_infos s' !! p = Some gi' → usage gi' = 1 → Q (- E_NOMEM) s') →
  (∀ s' gi', fin st s0 s' → group_infos s' !! p = Some gi' → usage gi' = 2 →
     cred_groups (ids (current_cred s')) = p → Q 0 s') →
  wp (set_current_groups p) Q s.
Proof.
  intros Hs Hm Hcap Hp Hgi Hh Hn Hu Hno Hok. unfold set_current_groups. apply wp_bind.
  apply (wp_prepare_exact s0 s); [done|done|]. intros s1 M1 Hq1. destruct prepare_ok.
  2: { apply wp_ret. eapply Hno; [done|by rewrite Hq1|done]. }
  apply wp_bind, wp_on_groups.
  destruct (mid_group _ _ Hs M1) as (old & Hold & Huo).
  pose proof M1 as (Hc & Hnn & Hns & Hgl & ([_ _ Hru] & Hroom & Ho & Hcu & Hgu & Hnu)). unfold refs_room in Hroom.
  set (g := cred_groups (ids (current_cred s0))) in *.
  eapply wp_mono; [eapply (set_groups_ok _ (ids (current_cred s0)) p old gi l);
    [exact Hold|by rewrite Hq1|done|done|done|lia|lia]|].
  intros [r c] h ([= -> ->] & (gi' & l' & Hgi' & Hh' & Hperm & Hsort & Hu') & Hold' & Hq).
  cbv beta iota. cbn [Z.ltb Z.compare]. rewrite (proj2 (Z.eqb_neq _ _)) in Hold' by lia.
  assert (zlen l' ≤ NGROUPS_MAX) by (pose proof (Permutation_length Hperm); pose proof Hh as (_ & ? & _); lia).
  apply (wp_commit_gen st _ 0 s0); [done| |lia| | | |].
  - apply (mid_swap s0 s1 old); [done|done|]. rewrite Hold'. unfold counted. f_equal. f_equal. lia.
  - exists l', gi'. done.
  - rewrite decide_False by done. exists gi'. split; [done|lia].
  - apply step_groups; [apply Hs|done].
  - intros s' Hf Hcs Hgs. eapply (Hok s' gi'); [done| |lia|by rewrite Hcs].
    rewrite Hgs by done. exact Hgi'.
Qed.

(** Giving the last reference to another list back. *)
Lemma wp_drop_list {k} p gi z s0 s (Q : Z → ksys → Prop) : mid k s0 s →
  p ≠ cred_groups (ids (current_cred s0)) → group_infos s !! p = Some gi → usage gi = 1 →
  (∀ s', mid k s0 s' → Q z s') →
  wp (_ ← on_groups (put_group_info p); mret z) Q s.
Proof.
  intros Hm Hp Hgi Hu HQ. apply wp_bind, wp_on_groups. eapply wp_put_group_info; [exact Hgi|lia|].
  apply wp_ret, HQ, mid_other; [done|]. by rewrite dropped_ne.
Qed.

(** The caller of set_current_groups gives its own reference to the new list back. *)
Lemma wp_drop_ref st p gi s0 s (Q : Z → ksys → Prop) : fin st s0 s →
  cred_groups (ids (current_cred s)) = p → group_infos s !! p = Some gi → usage gi = 2 →
  (∀ s', fin st s0 s' → Q 0 s') →
  wp (_ ← on_groups (put_group_info p); mret 0) Q s.
Proof.
  intros [(Hs & Hst & Hnn) [? ? _]] Hcg Hgi Hu HQ. apply wp_bind, wp_on_groups.
  eapply wp_put_group_info; [exact Hgi|lia|]. rewrite dropped_some by lia. apply wp_ret, HQ.
  destruct Hs as [? [l (g & Hg & Hh & Hrest)] ?]. rewrite Hcg, Hgi in Hg. simplify_eq.
  set (s' := with_group_infos s _).
  assert (group_infos s' !! cred_groups (ids (current_cred s')) = Some (counted g (usage g - 1))) as Hl
    by apply lookup_insert_eq.
  split; [split; [split; [done| |done]|done]|split; [done|done|]].
  - exists l, (counted g (usage g - 1)). split; [exact Hl|]. split; [exact Hh|done].
  - unfold group_usage. rewrite Hl. cbn. lia.
Qed.

Lemma setgroups_ok st n p kmalloc page get_user s (Q : Z → ksys → Prop) : sys_ok s → refs_ok s → refs_room s →
  group_infos s !! p = None → sizes_ok kmalloc page → - 2 ^ 31 ≤ n < 2 ^ 31 →
  (∀ z s', fin st s s' → Q z s') → wp (setgroups n p kmalloc page get_user) Q s.
Proof.
  intros Hs Hr0 Hr1 Hfresh Hsz Hn HQ. pose proof (mid_start s Hr0 Hr1) as M0. unfold setgroups, may_setgroups.
  destruct (call_paths st s Q Hs HQ) as [Hmid _].
  assert (p ≠ cred_groups (ids (current_cred s))) as Hp.
  { intros ->. destruct (mid_group _ _ Hs M0) as (? & ? & _). congruence. }
  do 2 apply wp_bind.
  eapply (wp_capable_exact CAP_SETGID s); [done..|].
  intros ok s1 M1 Hg1 Hok. apply wp_ret. unfold userns_may_setgroups. rewrite andb_true_r.
  destruct ok; [|by apply Hmid]. cbn [negb].
  destruct (NGROUPS_MAX <? u32 n) eqn:En; [by apply Hmid|]. apply Z.ltb_ge in En.
  assert (0 ≤ n ≤ NGROUPS_MAX) as Hrange.
  { unfold NGROUPS_MAX, u32, wrap in *. change (2 ^ 32) with 4294967296 in *. dlia. }
  destruct (groups_alloc n kmalloc page) as [gi|] eqn:Ea; [|by apply Hmid].
  destruct (groups_alloc_holds n kmalloc page gi) as (Hu & Hng & l0 & Hh); [lia|done|done|].
  pose proof Hh as (_ & Hl0 & _).
  apply wp_bind, wp_modify, wp_bind, wp_on_groups. cbn [group_infos with_group_infos].
  eapply wp_on_obj; [apply lookup_insert_eq|].
  unfold groups_from_user. apply wp_bind, wp_gets.
  eapply wp_mono; [eapply (from_user_safe get_user _ _ 0 gi l0); [done|lia|lia]|].
  intros r gi1 (Hu1 & Hn1 & l1 & Hh1). rewrite insert_insert_eq.
  set (s2 := with_group_infos _ (<[p := gi1]> (group_infos s1))).
  assert (mid unprepared s s2) as M2.
  { apply (mid_other s s1); [done|]. by rewrite lookup_insert_ne. }
  assert (group_infos s2 !! p = Some gi1) as Hp2 by apply lookup_insert_eq.
  destruct (negb (r =? 0)).
  { eapply wp_drop_list; [exact M2|done|exact Hp2|lia|intros; by apply Hmid]. }
  apply wp_bind. eapply (set_current_groups_ok st p gi1 l1 s s2);
    [done|done|by apply Hok|done|done|done|lia|lia| |].
  - intros s3 gi3 M3 Hp3 Hu3. eapply wp_drop_list; [exact M3|done|done|done|intros; by apply Hmid].
  - intros s3 gi3 Hf Hp3 Hu3 Hcg. by eapply wp_drop_ref; [..|intros; by apply HQ].
Qed.

(** ** File capabilities *)

(** What a file with the permitted set [fP] and the inheritable set [fI] grants. *)
Definition file_grant (c : kcred) (fP fI : kernel_cap_t) : kernel_cap_t :=
  cap_combine (cap_intersect (cap_bset c) fP) (cap_intersect (cap_inheritable c) fI).

Definition granted (b : linux_binprm) (fP fI : kernel_cap_t) : linux_binprm :=
  with_bcap_effective (with_bcred b (with_permitted (b_cred b) (file_grant (b_cred b) fP fI))) false.

Lemma granted_none b : granted b CAP_EMPTY_SET CAP_EMPTY_SET = bprm_clear_caps b.
Proof.
  unfold granted, file_grant, cap_combine, cap_intersect, CAP_BOP_ALL. cbn. by rewrite !Z.land_0_r.
Qed.

(** What getxattr leaves in the buffer: 20 bytes. *)
Definition xattr_ok (f : exec_file) : Prop :=
  ∀ size bs, x_caps f = Some (size, bs) → length bs = 20%nat ∧ Forall (λ x, is_u8 x) bs.

Definition word_set (fP : kernel_cap_t) : Prop := cap_words fP ∧ fP ⊆ CAP_FULL_SET.

Lemma mask_id c : word_set c → cap_1 c .& CAP_LAST_U32_VALID_MASK = cap_1 c.
Proof.
  intros [[_ H1] Hsub]. apply Z.bits_inj'. intros i Hi. rewrite Z.land_spec.
  change CAP_LAST_U32_VALID_MASK with (Z.ones 5). rewrite testbit_ones, (proj2 (Z.leb_le 0 i)) by lia. cbn [andb].
  destruct (Z.ltb_spec i 5); [by rewrite andb_true_r|]. rewrite andb_false_r. symmetry.
  destruct (decide (i < 32)) as [|Hge].
  - apply not_true_iff_false. intros Hb. assert (i + 32 ∈ c) as Hin.
    { apply elem_of_cap. right. replace (i + 32 - 32) with i by lia. split; [lia|done]. }
    apply Hsub in Hin. apply elem_of_full in Hin. unfold CAP_LAST_CAP in Hin. lia.
  - rewrite <- (u32_small _ H1), testbit_u32. by rewrite (proj2 (Z.ltb_ge i 32)) by lia.
Qed.

Lemma le32_at_ok bs off : length bs = 20%nat → Forall (λ x, is_u8 x) bs → 0 ≤ off ≤ 16 →
  ∃ w, le32_at bs off = Some w ∧ is_u32 w.
Proof.
  intros Hl Hb Ho. unfold le32_at.
  destruct (rd_in bs off) as [b0 E0]; [lia|]. destruct (rd_in bs (off + 1)) as [b1 E1]; [lia|].
  destruct (rd_in bs (off + 2)) as [b2 E2]; [lia|]. destruct (rd_in bs (off + 3)) as [b3 E3]; [lia|].
  rewrite E0, E1, E2, E3. cbn [mbind option_bind]. eexists. split; [done|].
  pose proof (rd_Forall _ _ _ _ Hb E0). pose proof (rd_Forall _ _ _ _ Hb E1).
  pose proof (rd_Forall _ _ _ _ Hb E2). pose proof (rd_Forall _ _ _ _ Hb E3). cbn in *. lia.
Qed.

Lemma vfs_caps_ok f : xattr_ok f →
  ∃ rc v, get_vfs_caps_from_disk (x_caps f) = Some (rc, v) ∧
    (rc < 0 ∨ rc = 0 ∧ word_set (f_permitted v) ∧ word_set (f_inheritable v)).
Proof.
  intros Hx. unfold get_vfs_caps_from_disk. destruct (x_caps f) as [[size bs]|] eqn:Ex.
  2: { eexists _, _. split; [done|]. by left. }
  destruct (Hx _ _ Ex) as [Hl Hb].
  destruct (_ || _); [eexists _, _; split; [done|by left]|].
  destruct (Z.ltb_spec size 0); [eexists _, _; split; [done|by left]|].
  destruct (size <? 4); [eexists _, _; split; [done|by left]|].
  assert (∀ off, 0 ≤ off ≤ 16 → ∃ w, le32_at bs off = Some w ∧ is_u32 w) as Hle
    by (intros; by apply le32_at_ok).
  destruct (Hle 0) as (m & Em & _); [lia|]. destruct (Hle 4) as (p0 & Ep0 & Hp0); [lia|].
  destruct (Hle 8) as (i0 & Ei0 & Hi0); [lia|]. destruct (Hle 12) as (p1 & Ep1 & Hp1); [lia|].
  destruct (Hle 16) as (i1 & Ei1 & Hi1); [lia|].
  rewrite Em, Ep0, Ei0, Ep1, Ei1. cbn [mbind option_bind].
  assert (∀ p x, is_u32 p → is_u32 x → word_set (KCap p (x .& CAP_LAST_U32_VALID_MASK))) as Hw.
  { intros p x Hp Hx'. split; [split; cbn; [done|by apply land_mask_u32]|by apply masked_full]. }
  repeat case_match; eexists _, _; (split; [done|]);
    first [by left | right; cbn; (split; [done|split; apply Hw; (done || lia)])].
Qed.

Lemma get_file_caps_ok f b : xattr_ok f →
  ∃ rc b' e h, get_file_caps f b false false = Some (rc, b', e, h) ∧ ids (b_cred b') = ids (b_cred b) ∧
    (rc < 0 ∨ rc = 0 ∧ ∃ fP fI, word_set fP ∧ word_set fI ∧ b' = granted b fP fI).
Proof.
  intros Hx. unfold get_file_caps.
  assert (word_set CAP_EMPTY_SET) as Hempty by (split; [apply cap_words_empty|set_solver]).
  assert (∃ fP fI, word_set fP ∧ word_set fI ∧ bprm_clear_caps b = granted b fP fI) as Hnone.
  { exists CAP_EMPTY_SET, CAP_EMPTY_SET. by rewrite granted_none. }
  destruct (negb file_caps_enabled); [do 4 eexists; split; [done|]; split; [done|by right]|].
  destruct (mnt_nosuid f); [do 4 eexists; split; [done|]; split; [done|by right]|].
  destruct (vfs_caps_ok f Hx) as (rc & v & -> & Hv). cbn [mbind option_bind].
  destruct (Z.ltb_spec rc 0) as [Hrc|Hrc].
  - destruct (rc =? - E_NODATA); cbn [Z.eqb negb]; do 4 eexists; (split; [done|]); (split; [by repeat case_match|]); [by right|by left].
  - destruct Hv as [?|(-> & Hp & Hi)]; [lia|]. unfold bprm_caps_from_vfs_caps.
    set (e := if negb _ then true else false). set (ret := if _ || _ then _ else _).
    assert (ret = 0 ∨ ret < 0) as Hret by (unfold ret; destruct (_ || _); [by right|by left]).
    destruct (if e then ret else 0) as [| |] eqn:Er; do 4 eexists; (split; [reflexivity|]); (split; [done|]).
    + right. split; [done|]. by exists (f_permitted v), (f_inheritable v).
    + destruct e; [|done]. lia.
    + by left.
Qed.

(** ** The new credentials *)

(** Credentials under construction: real ids, inheritable and bounding set are those
    of the task. *)
Record based (o c : kcred) : Prop := {
  ba_uid : uid (ids c) = uid (ids o);
  ba_gid : gid (ids c) = gid (ids o);
  ba_groups : cred_groups (ids c) = cred_groups (ids o);
  ba_inh : cap_inheritable c = cap_inheritable o;
  ba_bset : cap_bset c = cap_bset o;
  ba_ns : user_ns c = user_ns o;
  ba_sec : securebits c = securebits o ∨ securebits c = securebits o .& u32 (Z.lnot KEEP)
}.

(** Credentials that exec commits. *)
Record exec_cred (nnp : bool) (o c : kcred) : Prop := {
  ec_based : based o c;
  ec_sec : securebits c = securebits o .& u32 (Z.lnot KEEP);
  ec_perm : cap_words (cap_permitted c) ∧
            cap_permitted c ⊆ cap_combine (cap_inheritable o) (cap_bset o);
  ec_eff : cap_words (cap_effective c) ∧ cap_effective c ⊆ cap_permitted c;
  ec_saved : suid (ids c) = euid (ids c) ∧ fsuid (ids c) = euid (ids c) ∧
             sgid (ids c) = egid (ids c) ∧ fsgid (ids c) = egid (ids c);
  ec_nnp : nnp = true → cap_permitted c ⊆ cap_permitted o ∧
             euid (ids c) ∈ uids o ∧ egid (ids c) ∈ gids o
}.

Lemma based_refl o : based o o.
Proof. by split; try left. Qed.

Lemma exec_step nnp o c : cred_ok o → exec_cred nnp o c → cred_step nnp o c.
Proof.
  intros Ho [[] Hsec [Hpw Hps] [Hew Hes] (E1 & E2 & E3 & E4) Hnnp]. destruct Ho.
  assert (cap_permitted c ⊆ CAP_FULL_SET).
  { intros k Hk%Hps. apply elem_of_combine in Hk as [Hk|Hk]; [by apply co_inh|by apply co_bset]. }
  split.
  - split; rewrite ?ba_inh0, ?ba_bset0, ?ba_ns0, ?Hsec; try done. by apply clear_keep_range.
  - by rewrite ba_bset0.
  - rewrite ba_inh0. set_solver.
  - unfold ceiling. set_solver.
  - rewrite Hsec. by apply clear_keep_locks.
  - intros (? & ? & ?)%Hnnp. split; [done|]. split.
    + intros _. unfold uids at 1. rewrite E1, E2, ba_uid0. apply four_subseteq; try done.
      unfold uids. apply elem_of_cons. by left.
    + intros _. split; [|done]. unfold gids at 1. rewrite E3, E4, ba_gid0. apply four_subseteq; try done.
      unfold gids. apply elem_of_cons. by left.
Qed.

(** A binprm with the properties the code keeps between its steps. *)
Definition bprm_ok (nnp : bool) (o : kcred) (b : linux_binprm) : Prop :=
  based o (b_cred b) ∧ (nnp = true → unsafe b .& LSM_UNSAFE_NO_NEW_PRIVS ≠ 0).

(** After the file capabilities: the effective ids are [eu] and [eg]. *)
Definition bprm_caps (o : kcred) (eu eg : Z) (b : linux_binprm) : Prop :=
  euid (ids (b_cred b)) = eu ∧ egid (ids (b_cred b)) = eg ∧
  cap_words (cap_permitted (b_cred b)) ∧
  cap_permitted (b_cred b) ⊆ cap_combine (cap_inheritable o) (cap_bset o).

Lemma granted_ok nnp o b fP fI : cred_ok o → bprm_ok nnp o b → word_set fP → word_set fI →
  bprm_ok nnp o (granted b fP fI) ∧
  bprm_caps o (euid (ids (b_cred b))) (egid (ids (b_cred b))) (granted b fP fI).
Proof.
  intros Ho [[] Hu] [? ?] [? ?]. destruct Ho as [[? ?] ? ? [? ?]]. split; [split; [by split|done]|].
  split; [done|]. split; [done|]. unfold granted, file_grant. cbn. rewrite ba_inh0, ba_bset0.
  split; [auto with caps|set_solver].
Qed.

Lemma bprm_root_ok nnp o b e h s : cred_ok o → current_cred s = o → bprm_ok nnp o b →
  ∀ eu eg, bprm_caps o eu eg b →
  bprm_ok nnp o (bprm_root s b e h).1 ∧ bprm_caps o eu eg (bprm_root s b e h).1 ∧
  unsafe (bprm_root s b e h).1 = unsafe b.
Proof.
  intros Ho Hc Hb eu eg Hcaps. unfold bprm_root. rewrite Hc.
  destruct (negb (issecure _ _)); [|done]. destruct (_ && _ && _); [done|]. cbn [fst].
  destruct (_ || _); [|done]. destruct Hb as [[] ?], Hcaps as (? & ? & ? & ?). destruct Ho as [[? ?] ? ? [? ?]].
  split; [split; [by split|done]|]. split; [|done]. split; [done|]. split; [done|]. cbn.
  split; [auto with caps|set_solver].
Qed.

(** The downgrade: with no_new_privs nothing is gained. *)
Lemma bprm_downgrade_ok nnp s0 s b eu eg (Q : linux_binprm → ksys → Prop) k : sys_ok s0 → mid k s0 s →
  bprm_ok nnp (current_cred s0) b → bprm_caps (current_cred s0) eu eg b →
  (∀ b' s' eu' eg', mid k s0 s' → bprm_ok nnp (current_cred s0) b' → bprm_caps (current_cred s0) eu' eg' b' →
     unsafe b' = unsafe b →
     (nnp = true → cap_permitted (b_cred b') ⊆ cap_permitted (current_cred s0) ∧
        (eu' = eu ∨ eu' = uid (ids (current_cred s0))) ∧ (eg' = eg ∨ eg' = gid (ids (current_cred s0)))) →
     Q b' s') →
  wp (bprm_downgrade b) Q s.
Proof.
  intros Hs Hm Hb Hcaps HQ. unfold bprm_downgrade. apply wp_bind; eapply (wp_gets_cred s0); [done|].
  set (o := current_cred s0) in *. assert (cred_ok o) as Ho by apply Hs.
  pose proof Hb as [Hbase Hun]. pose proof Hcaps as (He & Hg & Hw & Hsub).
  assert (cap_words (cap_permitted o)) as Hpo by apply Ho.
  destruct (_ && negb (_ =? 0)) eqn:Ec.
  - apply wp_bind; eapply (wp_capable CAP_SETUID s0); [done..|]. intros ok s' M' _. apply wp_ret.
    assert (cap_words (cap_intersect (cap_permitted (b_cred b)) (cap_permitted o))) by auto with caps.
    destruct (negb ok || _).
    + eapply (HQ _ _ (uid (ids (b_cred b))) (gid (ids (b_cred b)))); [done| | |done|].
      * split; [|done]. by destruct Hbase.
      * split; [done|]. split; [done|]. cbn. split; [done|set_solver].
      * intros _. cbn. rewrite (ba_uid _ _ Hbase), (ba_gid _ _ Hbase). split; [set_solver|auto].
    + eapply (HQ _ _ eu eg); [done| | |done|].
      * split; [|done]. by destruct Hbase.
      * split; [done|]. split; [done|]. cbn. split; [done|set_solver].
      * intros _. cbn. split; [set_solver|auto].
  - apply wp_ret. eapply (HQ _ _ eu eg); [done|done|done|done|]. intros Hnnp. split; [|auto].
    apply andb_false_iff in Ec as [Ec|Ec].
    + apply orb_false_iff in Ec as [_ Ec%negb_false_iff]. by apply cap_issubset_true in Ec.
    + apply negb_false_iff, Z.eqb_eq in Ec. destruct (Hun Hnnp).
      replace (unsafe b .& LSM_UNSAFE_NO_NEW_PRIVS)
        with (unsafe b .& Z.lnot LSM_UNSAFE_PTRACE_CAP .& LSM_UNSAFE_NO_NEW_PRIVS); [by rewrite Ec|].
      by rewrite <- Z.land_assoc.
Qed.

Lemma cap_bprm_set_creds_ok nnp f b s0 s (Q : Z * linux_binprm → ksys → Prop) k : sys_ok s0 → mid k s0 s →
  xattr_ok f → bprm_ok nnp (current_cred s0) b →
  (nnp = true → euid (ids (b_cred b)) ∈ uids (current_cred s0) ∧ egid (ids (b_cred b)) ∈ gids (current_cred s0)) →
  (∀ r b' s', mid k s0 s' → cred_groups (ids (b_cred b')) = cred_groups (ids (current_cred s0)) →
     (r < 0 ∨ r = 0 ∧ exec_cred nnp (current_cred s0) (b_cred b') ∧ unsafe b' = unsafe b) → Q (r, b') s') →
  wp (cap_bprm_set_creds f b) Q s.
Proof.
  intros Hs Hm Hx Hb Hids HQ. unfold cap_bprm_set_creds. apply wp_bind, wp_gets. cbn [id].
  pose proof Hm as (Hc & _). assert (cred_ok (current_cred s0)) as Ho by apply Hs. rewrite Hc.
  set (o := current_cred s0) in *. apply wp_bind.
  destruct (get_file_caps_ok f b Hx) as (rc & b1 & e & h & Eg & Hid & Hg). eapply wp_lift; [exact Eg|].
  cbv beta iota. destruct (Z.ltb_spec rc 0).
  { apply wp_ret, HQ; [done|rewrite Hid; apply Hb|by left]. }
  destruct Hg as [?|(-> & fP & fI & HfP & HfI & ->)]; [lia|].
  destruct (granted_ok nnp o b fP fI Ho Hb HfP HfI) as [Hb1 Hcaps1].
  destruct (bprm_root_ok nnp o _ e h s Ho Hc Hb1 _ _ Hcaps1) as (Hb2 & Hcaps2 & Hun2).
  destruct (bprm_root s _ e h) as [b2 e2]. cbn [fst] in *.
  set (b3 := if _ : bool then or_per_clear b2 _ else b2).
  assert (bprm_ok nnp o b3 ∧ bprm_caps o (euid (ids (b_cred b))) (egid (ids (b_cred b))) b3 ∧
          unsafe b3 = unsafe b) as (Hb3 & Hcaps3 & Hun3) by (unfold b3; by destruct (negb _)).
  clearbody b3. apply wp_bind. apply (bprm_downgrade_ok nnp s0 s b3 _ _ _ k Hs Hm Hb3 Hcaps3).
  intros b4 s4 eu eg M4 [Hb4 _] (He4 & Hg4 & Hw4 & Hp4) Hun4 Hn4. clear Hb1 Hcaps1 Hb2 Hcaps2 Hb3 Hcaps3.
  set (new := with_effective _ _).
  assert (cap_words (cap_effective new) ∧ cap_effective new ⊆ cap_permitted new) as Heff.
  { unfold new. destruct e2; cbn; [by split|]. split; [apply cap_words_empty|set_solver]. }
  set (ret := if negb _ then _ else 0). destruct (ret <? 0) eqn:Er; [apply wp_ret, HQ; [done|apply Hb4|left; lia]|].
  apply wp_ret, HQ; [done|apply Hb4|]. right. split; [done|]. split; [|cbn; congruence]. fold KEEP.
  destruct (co_secure _ Ho). destruct Hb4. split; cbn.
  - split; try done. right. cbn. destruct ba_sec0 as [-> | ->]; [done|].
    by rewrite <- Z.land_assoc, Z.land_diag.
  - destruct ba_sec0 as [-> | ->]; [done|]. by rewrite <- Z.land_assoc, Z.land_diag.
  - by split.
  - exact Heff.
  - done.
  - intros Hnnp. destruct (Hn4 Hnnp) as (? & Heu & Heg). destruct (Hids Hnnp) as [Hu Hgi].
    split; [done|]. rewrite He4, Hg4. unfold o in *.
    split; [destruct Heu as [-> | ->]|destruct Heg as [-> | ->]]; try done;
      unfold uids, gids; rewrite elem_of_cons; by left.
Qed.

Lemma bprm_fill_uid_ok nnp o t f b : bprm_ok nnp o b → t_cred t = o → t_no_new_privs t = nnp →
  bprm_ok nnp o (bprm_fill_uid t f b) ∧ unsafe (bprm_fill_uid t f b) = unsafe b ∧
  (nnp = true → euid (ids (b_cred (bprm_fill_uid t f b))) ∈ uids o ∧
                egid (ids (b_cred (bprm_fill_uid t f b))) ∈ gids o).
Proof.
  intros [[] Hu] <- <-. unfold bprm_fill_uid. cbv zeta.
  set (b1 := with_bcred b _).
  assert (bprm_ok (t_no_new_privs t) (t_cred t) b1) as Hb1 by (split; [by split|done]).
  assert (euid (ids (b_cred b1)) ∈ uids (t_cred t) ∧ egid (ids (b_cred b1)) ∈ gids (t_cred t)) as Hids.
  { unfold uids, gids. rewrite !elem_of_cons. cbn. auto. }
  assert (unsafe b1 = unsafe b) as Hun by done. clearbody b1.
  destruct (mnt_nosuid f); [done|]. destruct (t_no_new_privs t); [done|].
  destruct (_ =? 0); [done|]. destruct (_ || _); [done|]. clear Hids.
  set (b2 := if _ : bool then or_per_clear _ _ else b1).
  assert (bprm_ok false (t_cred t) b2 ∧ unsafe b2 = unsafe b) as [Hb2 Hun2].
  { unfold b2. destruct (negb _); [|done]. destruct Hb1 as [[] ?]. by split; [split; [split|]|]. }
  clearbody b2. destruct (_ =? _); [|done]. destruct Hb2 as [[] ?]. by split; [split; [split|]|].
Qed.

Lemma prepare_binprm_ok nnp f read b s0 s (Q : Z * linux_binprm → ksys → Prop) k : sys_ok s0 → mid k s0 s →
  t_no_new_privs (current s0) = nnp → xattr_ok f → bprm_ok nnp (current_cred s0) b →
  (∀ r b' s', mid k s0 s' → cred_groups (ids (b_cred b')) = cred_groups (ids (current_cred s0)) →
     (r < 0 ∨ exec_cred nnp (current_cred s0) (b_cred b') ∧ unsafe b' = unsafe b) → Q (r, b') s') →
  wp (prepare_binprm f read b) Q s.
Proof.
  intros Hs Hm Hnn Hx Hb HQ. unfold prepare_binprm. destruct (negb _); [apply wp_ret, HQ; [done|apply Hb|by left]|].
  apply wp_bind, wp_gets. pose proof Hm as (Hc & Hn & _).
  destruct (bprm_fill_uid_ok nnp (current_cred s0) (current s) f b) as (Hb1 & Hu1 & Hids); [done|done|congruence|].
  apply wp_bind. unfold selinux_bprm_set_creds. apply wp_bind.
  eapply (cap_bprm_set_creds_ok nnp _ _ s0 s); [done..|]. intros r b' s' M' Hgr Hr. cbv beta iota.
  destruct (negb (r =? 0)) eqn:Er.
  { apply wp_ret. cbv beta iota. rewrite Er. apply wp_ret, HQ; [done|done|].
    apply negb_true_iff, Z.eqb_neq in Er. destruct Hr as [?|[? _]]; [by left|done]. }
  apply negb_false_iff, Z.eqb_eq in Er. destruct Hr as [?|(_ & Hec & Hun)]; [lia|].
  rewrite Hu1 in Hun.
  destruct (cred_prepared b'); [apply wp_ret; cbn; apply wp_ret, HQ; auto|].
  destruct (selinux_bprm_transition _) as [rc clear]. apply wp_ret. cbv beta iota.
  destruct (negb (rc =? 0)); apply wp_ret, HQ; [done|by destruct clear|right|done|by destruct clear|right]; by destruct clear.
Qed.

Lemma prepare_chain_ok nnp s0 k : sys_ok s0 → t_no_new_privs (current s0) = nnp → ∀ fs b s,
  mid k s0 s → Forall (λ f, xattr_ok f.1) fs → bprm_ok nnp (current_cred s0) b →
  ∀ Q : Z * linux_binprm → ksys → Prop,
  (∀ r b' s', mid k s0 s' → cred_groups (ids (b_cred b')) = cred_groups (ids (current_cred s0)) →
     (r < 0 ∨ exec_cred nnp (current_cred s0) (b_cred b') ∨ fs = [] ∧ b' = b) → Q (r, b') s') →
  wp (prepare_chain fs b) Q s.
Proof.
  intros Hs Hnn. induction fs as [|[f read] fs IH]; intros b s Hm Hf Hb Q HQ; cbn [prepare_chain].
  { apply wp_ret, HQ; [done|apply Hb|auto]. }
  inversion Hf as [|? ? Hxf Hfs]; subst. apply wp_bind.
  eapply (prepare_binprm_ok (t_no_new_privs (current s0)) f read b s0); [done|done|done|done|done|].
  intros r b1 s1 M1 Hgr Hr. cbv beta iota. destruct (Z.ltb_spec r 0); [apply wp_ret, HQ; auto|].
  destruct Hr as [?|[Hec Hun]]; [lia|].
  apply IH; [done|done| |].
  - split; [apply Hec|]. rewrite Hun. apply Hb.
  - intros r' b' s' M' Hgr' [?|[?|[-> ->]]]; apply HQ; auto.
Qed.

Lemma check_unsafe_nnp t fs : t_no_new_privs t = true →
  (check_unsafe_exec t fs 0).2 .& LSM_UNSAFE_NO_NEW_PRIVS ≠ 0.
Proof. intros H. unfold check_unsafe_exec. rewrite H. repeat case_match; vm_compute; congruence. Qed.

Lemma do_execve_ok over fs file interps load nondump s (Q : Z → ksys → Prop) : sys_ok s → refs_ok s → refs_room s →
  Forall (λ f, xattr_ok f.1) (file :: interps) → (∀ z s', fin (t_no_new_privs (current s)) s s' → Q z s') →
  wp (do_execve over fs file interps load nondump) Q s.
Proof.
  intros Hs Hr0 Hr1 Hf HQ. pose proof (mid_start s Hr0 Hr1) as M0. unfold do_execve. apply wp_bind, wp_gets.
  destruct (call_paths _ s Q Hs HQ) as [Hmid Hab].
  destruct (_ && over); [by apply Hmid|]. apply wp_bind, wp_modify.
  set (s1 := with_current s _). assert (mid unprepared s s1) as M1 by by apply mid_flags. clearbody s1.
  apply wp_bind, (wp_prepare_creds s); [done|done|intros; by apply Hmid|]. intros s2 M2.
  pose proof (check_unsafe_nnp (current s) fs) as Hun.
  destruct (check_unsafe_exec (current s) fs 0) as [rv un]. cbn [snd] in Hun.
  destruct (rv <? 0); [by apply Hab|]. apply wp_bind.
  eapply (prepare_chain_ok (t_no_new_privs (current s)) s); [done|done|exact M2|done| |].
  { split; [apply based_refl|exact Hun]. }
  intros r b s3 M3 Hg Hr. cbv beta iota. destruct (Z.ltb_spec r 0); [by apply Hab|].
  destruct Hr as [?|[Hec|[? _]]]; [lia| |done]. destruct (load <? 0); [by apply Hab|].
  apply wp_bind, wp_modify. set (s4 := with_current s3 _).
  assert (mid prepared s s4) as M4 by done.
  apply wp_bind, (wp_commit_creds (t_no_new_privs (current s)) _ s); [done|done|apply Hec| |].
  - apply exec_step; [apply Hs|done].
  - intros s' Hfin _. by apply wp_ret, HQ.
Qed.

End Calls.
