(* ===== verification/CredsysRun.v ===== *)
(** * CredsysRun: privileges over the life of a task

    The calls of Credsys as one type, sequences of calls interleaved with changes of
    the rest of the system, and the bounds on privileges that hold along every such
    sequence. *)

From stdpp Require Import relations sets.
From S2P Require Import Prelude Groups CapSet Capability Credsys CapabilityThm CredsysThm CredsysCalls CredsysExec.

(** ** Calls *)

Inductive call : Type :=
  | Setreuid (ruid euid_ : Z) | Setuid (uid_ : Z) | Setresuid (ruid euid_ suid_ : Z)
  | Setfsuid (overflowuid uid_ : Z)
  | Setregid (rgid egid_ : Z) | Setgid (gid_ : Z) | Setresgid (rgid egid_ sgid_ : Z)
  | Setfsgid (overflowgid gid_ : Z)
  | Setgroups (gidsetsize p : Z) (kmalloc : option (list Z)) (page : nat → option (list Z))
      (get_user : Z → option Z)
  | Capset (h : user_cap_header) (copy_from_user : nat → option (list user_cap_data))
  | PrctlCap (option arg2 : Z) | PrctlNnp (option arg2 arg3 arg4 arg5 : Z)
  | Execve (over : bool) (fs : fs_share) (file : exec_file * Z) (interps : list (exec_file * Z))
      (load : Z) (nondump : bool).

Definition run_call {E : cap_env} (c : call) : prog ksys Z :=
  match c with
  | Setreuid r e => setreuid r e
  | Setuid u => setuid u
  | Setresuid r e v => setresuid r e v
  | Setfsuid ov u => setfsuid ov u
  | Setregid r e => setregid r e
  | Setgid g => setgid g
  | Setresgid r e v => setresgid r e v
  | Setfsgid ov g => setfsgid ov g
  | Setgroups n p kmalloc page get_user => setgroups n p kmalloc page get_user
  | Capset h copy => capset h copy
  | PrctlCap op arg2 => cap_task_prctl op arg2
  | PrctlNnp op a b c d => prctl_no_new_privs op a b c d
  | Execve over fs file interps load nondump => do_execve over fs file interps load nondump
  end.

(** The types of the arguments, and what the allocator and getxattr promise: a new
    object for a new list, whole pages, a buffer of 20 bytes. *)
Definition call_ok (s : ksys) (c : call) : Prop :=
  match c with
  | Setgroups n p kmalloc page _ =>
      group_infos s !! p = None ∧ sizes_ok kmalloc page ∧ - 2 ^ 31 ≤ n < 2 ^ 31
  | Capset _ copy => ∀ n l u, copy n = Some l → u ∈ l → ucap_ok u
  | PrctlCap _ arg2 => is_u64 arg2
  | Execve _ _ file interps _ _ => Forall (λ f, xattr_ok f.1) (file :: interps)
  | _ => True
  end.

Definition is_exec (c : call) : bool := match c with Execve _ _ _ _ _ _ => true | _ => false end.

(** Every call ends without a fault; only exec can raise privileges, and only without
    no_new_privs. *)
Lemma run_call_ok {E : cap_env} c s : sys_ok s → refs_ok s → refs_room s → call_ok s c →
  wp (run_call c) (λ _ s', fin (negb (is_exec c) || t_no_new_privs (current s)) s s') s.
Proof.
  intros Hs Hr Hm Hc. destruct c; cbn [run_call call_ok is_exec negb orb] in *.
  - by apply (setreuid_ok true).
  - by apply (setuid_ok true).
  - by apply (setresuid_ok true).
  - by apply (setfsuid_ok true).
  - by apply (setregid_ok true).
  - by apply (setgid_ok true).
  - by apply (setresgid_ok true).
  - by apply (setfsgid_ok true).
  - destruct Hc as (? & ? & ?). by apply (setgroups_ok true).
  - by apply (capset_ok true).
  - apply (cap_task_prctl_ok true); [done|done|done|lia|done].
  - by apply (prctl_no_new_privs_ok true).
  - by apply do_execve_ok.
Qed.

(** ** Runs *)

(** One step: a call of the task, under any verdicts of SELinux and the allocators, or a
    change of the rest of the system: other tasks, references, namespaces.  With
    [exec] false the task does not exec. *)
Inductive step (exec : bool) (s s' : ksys) : Prop :=
  | step_call (E : cap_env) c r : refs_ok s → refs_room s → call_ok s c → (is_exec c = true → exec = true) →
      run_call c s = Some (r, s') → step exec s s'
  | step_other : current s' = current s → (∀ l, group_list s l → group_list s' l) →
      ns_tree (namespaces s') → step exec s s'.

Lemma cred_step_weaken st st' o n : (st' = true → st = true) → cred_step st o n → cred_step st' o n.
Proof. intros H []. split; auto. Qed.

Lemma step_fin exec s s' : sys_ok s → step exec s s' →
  moved (negb exec || t_no_new_privs (current s)) s s'.
Proof.
  intros Hs [E c r Hr Hm Hc Hx He|Hcur Hg Ht].
  - pose proof (run_call_ok c s Hs Hr Hm Hc) as W. unfold wp in W. rewrite He in W.
    destruct W as [(Hs' & Hst & Hn) _]. split; [done|]. split; [|done].
    eapply cred_step_weaken; [|exact Hst]. destruct (is_exec c); [by rewrite Hx|done].
  - pose proof Hs as [? [l ?] _]. unfold moved, current_cred. rewrite Hcur.
    split; [split; [unfold current_cred; by rewrite Hcur|eauto|done]|].
    split; [by apply cred_step_refl|done].
Qed.

Lemma locks_trans a b c : locks_kept a b → locks_kept b c → locks_kept a c.
Proof.
  intros Hab Hbc i Hi Ha. destruct (Hab i Hi Ha) as [Hb Hv]. destruct (Hbc i Hi Hb) as [Hc Hw].
  split; [done|]. destruct Hw as [-> | ?]; [done|by right].
Qed.

Lemma step_ceiling nnp o n : cred_step nnp o n → ceiling n ⊆ ceiling o.
Proof. intros []. unfold ceiling in *. set_solver. Qed.

(** C13: the system calls are safe.  In a system with well-formed credentials (the sets are
    words without unknown capabilities, the effective set within the permitted one,
    no unknown secure bits, not overridden), a sorted group list and a tree of
    namespaces, where the task holds its two references to the credentials and the
    references to the group list can be counted, one more than there are included,
    every call that changes credentials returns: it meets none of the BUG_ONs of
    commit_creds and abort_creds, gives up no reference that it does not hold, reads
    and writes within the objects, and its loops end.  The system is well-formed
    afterwards, the references included, whether the call succeeded or failed. *)
Theorem calls_type_safe {E : cap_env} c s : sys_ok s → refs_ok s → refs_room s → call_ok s c →
  ∃ r s', run_call c s = Some (r, s') ∧ sys_ok s' ∧ refs_ok s'.
Proof.
  intros Hs Hr Hm Hc.
  destruct (proj1 (wp_elim _ _ _) (run_call_ok c s Hs Hr Hm Hc)) as (r & s' & He & [Hf _] & Hr'). eauto.
Qed.

(** C3: the ceiling of privileges.  Along every sequence of set*id, setgroups, capset,
    prctl and exec calls of a task, whatever SELinux, the files executed and the rest
    of the system do in between: the bounding set only shrinks, a capability outside of
    the bounding, the inheritable and the permitted set is never gained again, the
    effective set stays within the permitted one, and locked secure bits keep their
    values, except that exec clears KEEP_CAPS. *)
Theorem capability_ceiling s s' : sys_ok s → rtc (step true) s s' →
  let o := current_cred s in let n := current_cred s' in
  cap_bset n ⊆ cap_bset o ∧
  (∀ k, k ∉ ceiling o → k ∉ cap_permitted n ∧ k ∉ cap_effective n ∧ k ∉ cap_inheritable n) ∧
  cap_effective n ⊆ cap_permitted n ∧ locks_kept (securebits o) (securebits n).
Proof.
  intros Hs Hr o n.
  assert (sys_ok s' ∧ cap_bset n ⊆ cap_bset o ∧ ceiling n ⊆ ceiling o ∧
          locks_kept (securebits o) (securebits n)) as (Hs' & Hb & Hc & Hl).
  { unfold o, n. clear o n. induction Hr as [s|s s1 s' H1 _ IH].
    { split; [done|]. split; [done|]. split; [done|apply locks_refl]. }
    destruct (step_fin _ _ _ Hs H1) as (Hs1 & Hst & _). destruct (IH Hs1) as (Hs' & Hb & Hc & Hl).
    pose proof (step_ceiling _ _ _ Hst) as Hce. destruct Hst.
    split; [done|]. split; [by etransitivity|]. split; [by etransitivity|by eapply locks_trans]. }
  pose proof (co_eff _ (so_cred _ Hs')) as [_ He]. fold n in He.
  split; [done|]. split; [|done]. intros k Hk. unfold ceiling in Hc, Hk. set_solver.
Qed.

(** What does not grow while the task may not raise its privileges. *)
Definition confined (o n : kcred) : Prop :=
  cap_permitted n ⊆ cap_permitted o ∧
  (CAP_SETUID ∉ cap_permitted o → uids n ⊆ uids o) ∧
  (CAP_SETGID ∉ cap_permitted o → gids n ⊆ gids o ∧ cred_groups (ids n) = cred_groups (ids o)).

#[export] Instance confined_preorder : PreOrder confined.
Proof.
  split; [by intros o|]. intros a b c (Hp & Hu & Hg) (Hp' & Hu' & Hg').
  split; [by etransitivity|]. split.
  - intros Hno. transitivity (uids b); [|by apply Hu]. apply Hu'. intros ?. by apply Hno, Hp.
  - intros Hno. destruct (Hg Hno). destruct (Hg' ltac:(intros ?; by apply Hno, Hp)).
    split; [by transitivity (gids b)|congruence].
Qed.

Lemma run_confined exec s s' : sys_ok s → rtc (step exec) s s' →
  exec = false ∨ t_no_new_privs (current s) = true →
  (t_no_new_privs (current s) = true → t_no_new_privs (current s') = true) ∧
  confined (current_cred s) (current_cred s').
Proof.
  intros Hs Hr. induction Hr as [s|s s1 s' H1 _ IH]; intros Hn; [done|].
  destruct (step_fin _ _ _ Hs H1) as (Hs1 & Hst & Hn1).
  destruct (IH Hs1) as [Hn' Hc]; [destruct Hn; auto|]. split; [auto|].
  transitivity (current_cred s1); [|done]. apply (st_nnp _ _ _ Hst). destruct Hn as [-> | ->]; [done|apply orb_true_r].
Qed.

(** C5: no_new_privs confines.  Once a task has set no_new_privs the flag stays, and
    along every sequence of calls, exec of set-uid programs and of files with
    capabilities included, the permitted set only shrinks; without CAP_SETUID the
    four user ids stay among those the task had, without CAP_SETGID its group ids do
    and the supplementary groups stay as they are. *)
Theorem no_new_privs_confines s s' : sys_ok s → rtc (step true) s s' →
  t_no_new_privs (current s) = true →
  t_no_new_privs (current s') = true ∧ confined (current_cred s) (current_cred s').
Proof. intros Hs Hr Hn. destruct (run_confined _ _ _ Hs Hr) as [? ?]; auto. Qed.

(** ** Witnesses *)

Module RunDemo.
Import CapDemo.

Lemma user_ok u g : cred_ok (user_cred u g).
Proof.
  split; cbn; repeat split; cbn; try (vm_compute; congruence); try done; try set_solver; lia.
Qed.

Lemma root_ok : cred_ok root_cred.
Proof.
  split; cbn; repeat split; cbn; try (vm_compute; congruence); try done; try set_solver; lia.
Qed.

Lemma system_ok t : cred_ok (t_cred t) → cred_groups (ids (t_cred t)) = 1 → sys_ok (system t).
Proof. intros ? ?. split; [done|exists []; by apply system_groups|apply system_tree]. Qed.

Lemma system_refs t : t_overridden t = false → cred_groups (ids (t_cred t)) = 1 → refs_ok (system t).
Proof.
  intros Ho Hg. split; [done|done|]. unfold group_usage, current_cred. cbn [current system]. by rewrite Hg.
Qed.
Lemma system_room t : cred_groups (ids (t_cred t)) = 1 → refs_room (system t).
Proof. intros Hg. unfold refs_room, group_usage, current_cred. cbn [current system]. by rewrite Hg. Qed.

(** A set-uid root program. *)
Definition su : exec_file := ExecFile true false 0x9ed 0 0 None.
Definition exec_su : call := Execve false (FsShare 1 1 false) (su, 128) [] 0 false.

(** An ordinary user that executes it after prctl(PR_SET_NO_NEW_PRIVS). *)
Definition locked : task := Task (user_cred 1000 1000) 0 true 0 (Some 1) 0 false.

Definition after (t : task) (c : call) : ksys :=
  match run_call (E := env) c (system t) with Some (_, s') => s' | None => system t end.

Lemma after_step t c : t_overridden t = false → cred_groups (ids (t_cred t)) = 1 → call_ok (system t) c →
  is_Some (run_call (E := env) c (system t)) → step true (system t) (after t c).
Proof.
  intros Ho Hg Hc Hr. unfold after. destruct (run_call c (system t)) as [[r s']|] eqn:He.
  - by apply (step_call _ _ _ env c r); [apply system_refs|apply system_room|..].
  - by destruct Hr.
Qed.
End RunDemo.

(** The set-uid program runs for user 1000 and makes it root. *)
Example calls_type_safe_witness :
  ∃ r s', run_call (E := CapDemo.env) RunDemo.exec_su
            (CapDemo.system (CapDemo.task_of (CapDemo.user_cred 1000 1000))) = Some (r, s') ∧ sys_ok s' ∧ refs_ok s'.
Proof.
  apply (calls_type_safe (E := CapDemo.env) RunDemo.exec_su).
  - apply RunDemo.system_ok; [apply RunDemo.user_ok|reflexivity].
  - by apply RunDemo.system_refs.
  - by apply RunDemo.system_room.
  - constructor; [intros sz bs Hx; discriminate Hx|constructor].
Defined.

(** Root sets its uid to 1000 and keeps no capability that it could not get back. *)
Example capability_ceiling_witness :
  cap_effective (current_cred (RunDemo.after (CapDemo.task_of CapDemo.root_cred) (Setuid 1000))) = CAP_EMPTY_SET ∧
  cap_bset (current_cred (RunDemo.after (CapDemo.task_of CapDemo.root_cred) (Setuid 1000))) ⊆ CAP_FULL_SET.
Proof.
  destruct (capability_ceiling (CapDemo.system (CapDemo.task_of CapDemo.root_cred))
    (RunDemo.after (CapDemo.task_of CapDemo.root_cred) (Setuid 1000))) as (Hb & _).
  - apply RunDemo.system_ok; [apply RunDemo.root_ok|reflexivity].
  - apply rtc_once, RunDemo.after_step; [done|done|done|]. vm_compute. by eexists.
  - split; [reflexivity|exact Hb].
Defined.

(** The set-uid program does not make a confined user root. *)
Example no_new_privs_confines_witness :
  euid (ids (current_cred (RunDemo.after RunDemo.locked RunDemo.exec_su))) = 1000 ∧
  uids (current_cred (RunDemo.after RunDemo.locked RunDemo.exec_su)) ⊆ [1000; 1000; 1000; 1000].
Proof.
  destruct (no_new_privs_confines (CapDemo.system RunDemo.locked)
    (RunDemo.after RunDemo.locked RunDemo.exec_su)) as (_ & _ & Hu & _).
  - apply RunDemo.system_ok; [apply RunDemo.user_ok|reflexivity].
  - apply rtc_once, RunDemo.after_step; [done|done| |vm_compute; by eexists].
    constructor; [intros sz bs Hx; discriminate Hx|constructor].
  - reflexivity.
  - split; [reflexivity|]. apply Hu. vm_compute. discriminate.
Defined.
