(* ===== verification/CredsysSpec.v ===== *)
(** * CredsysSpec: exact results of setuid, capset and exec *)

From stdpp Require Import relations sets.
From S2P Require Import Prelude Groups CapSet Capability Credsys CapabilityThm CredsysThm CredsysCalls CredsysExec CredsysRun.

(** ** setuid *)

Lemma nothing_confined o n : cred_ok n → cap_permitted o = CAP_EMPTY_SET → confined o n →
  cap_permitted n = CAP_EMPTY_SET ∧ cap_effective n = CAP_EMPTY_SET ∧ uids n ⊆ uids o.
Proof.
  intros Hn Ho (Hp & Hu & _). rewrite Ho in Hp. destruct Hn as [_ [Hw _] [Hew He] _ _ _].
  split; [|split].
  - apply cap_words_ext; [done|apply cap_words_empty|set_solver].
  - apply cap_words_ext; [done|apply cap_words_empty|set_solver].
  - apply Hu. rewrite Ho. set_solver.
Qed.

(** The fix-up of a task that stops being root. *)
Lemma fix_leaves_root s o x n : cred_ok o → current_cred s = o →
  Z.testbit (securebits o) SECURE_NO_SETUID_FIXUP = false → Z.testbit (securebits o) SECURE_KEEP_CAPS = false →
  uid (ids o) = 0 ∨ euid (ids o) = 0 ∨ suid (ids o) = 0 →
  uid x ≠ 0 → euid x ≠ 0 → suid x ≠ 0 →
  cap_task_fix_setuid s (with_ids o x) o LSM_SETID_ID = (0, n) →
  cap_permitted n = CAP_EMPTY_SET ∧ cap_effective n = CAP_EMPTY_SET.
Proof.
  intros Ho Hc Hf Hk Hroot Hu He Hs. unfold cap_task_fix_setuid. cbn [Z.eqb Pos.eqb orb LSM_SETID_RE LSM_SETID_ID].
  rewrite issecure_bit, Hc, Hf by done. cbn [negb]. intros [= <-].
  unfold cap_emulate_setxuid, make_kuid. rewrite issecure_bit, Hc, Hk by done. cbv zeta. cbn [ids with_ids].
  rewrite (proj2 (Z.eqb_neq (uid x) 0)), (proj2 (Z.eqb_neq (euid x) 0)), (proj2 (Z.eqb_neq (suid x) 0)) by done.
  assert ((uid (ids o) =? 0) || (euid (ids o) =? 0) || (suid (ids o) =? 0) = true) as ->.
  { rewrite !orb_true_iff, !Z.eqb_eq. tauto. }
  destruct (euid (ids o) =? 0); cbn [negb andb ids with_effective with_permitted with_ids];
    by rewrite (proj2 (Z.eqb_neq (euid x) 0)) by done.
Qed.

(** C8: dropping root for good.  When a task with CAP_SETUID (granted by SELinux too) one of
    whose real, effective and saved user ids is 0, and that has neither KEEP_CAPS nor
    NO_SETUID_FIXUP set, calls setuid(u) with a valid u other than 0, the call
    succeeds (memory permitting, the references counted as calls_type_safe keeps
    them) and leaves the task with u as all of its user ids
    and without capabilities.  No later sequence of set*id, setgroups, capset and
    prctl calls gives it another user id or a capability: only exec can. *)
Theorem setuid_drops_root {E : cap_env} s u over :
  sys_ok s → refs_ok s → refs_room s → prepare_ok = true → alloc_uid u = Some over → u ≠ 0 → u ≠ ID_NONE →
  let o := current_cred s in
  CAP_SETUID ∈ cap_effective o → cred_has_capability o CAP_SETUID true = 0 →
  uid (ids o) = 0 ∨ euid (ids o) = 0 ∨ suid (ids o) = 0 →
  Z.testbit (securebits o) SECURE_KEEP_CAPS = false →
  Z.testbit (securebits o) SECURE_NO_SETUID_FIXUP = false →
  ∃ s1, setuid u s = Some (0, s1) ∧ uids (current_cred s1) = [u; u; u; u] ∧
    ∀ s2, rtc (step false) s1 s2 →
      uids (current_cred s2) ⊆ [u; u; u; u] ∧
      cap_permitted (current_cred s2) = CAP_EMPTY_SET ∧ cap_effective (current_cred s2) = CAP_EMPTY_SET.
Proof.
  intros Hs Hr0 Hr1 Halloc Huid Hu0 Hun o Hcap Hav Hroot Hk Hf. assert (cred_ok o) as Ho by apply Hs.
  enough (wp (setuid u) (λ r s1, r = 0 ∧ fin true s s1 ∧ uids (current_cred s1) = [u; u; u; u] ∧
            cap_permitted (current_cred s1) = CAP_EMPTY_SET) s) as W.
  { apply wp_elim in W as (r & s1 & He & -> & [(Hs1 & _) _] & Hids & Hp). exists s1. split; [done|]. split; [done|].
    intros s2 Hr. destruct (run_confined false s1 s2 Hs1 Hr) as [_ Hc]; [by left|].
    assert (sys_ok s2) as Hs2.
    { clear -Hs1 Hr. induction Hr as [|? ? ? H1 _ IH]; [done|]. apply IH. by eapply step_fin. }
    destruct (nothing_confined _ _ (so_cred _ Hs2) Hp Hc) as (? & ? & Hu). by rewrite <- Hids. }
  unfold setuid, make_kuid, uid_valid. rewrite (proj2 (Z.eqb_neq u ID_NONE)) by done. cbn [negb].
  apply wp_bind, (wp_prepare_exact s); [done|by apply mid_start|]. intros s1 M1 _. rewrite Halloc in *.
  apply wp_bind; eapply (wp_gets_cred s); [done|]. fold o.
  apply wp_bind; eapply (wp_capable_exact CAP_SETUID s); [done..|]. intros b s2 M2 _ [_ Hb].
  rewrite Hb by done. do 2 apply wp_bind.
  apply wp_mono with (λ r s', r = 0 ∧ mid prepared s s').
  { destruct (negb _); [|by apply wp_ret]. unfold set_user. cbn [ids set_suid_ set_uid_ with_ids uid]. rewrite Huid.
    apply wp_bind, wp_modify, wp_ret. split; [done|by apply mid_flags]. }
  intros r s3 [-> M3]. apply wp_ret. cbn [Z.ltb Z.compare].
  set (x := Cred u (gid (ids o)) u (sgid (ids o)) u (egid (ids o)) u (fsgid (ids o)) (cred_groups (ids o))).
  change (set_fsuid_ _ u) with (with_ids o x).
  apply (wp_fix_and_commit true x LSM_SETID_ID s); [done|done|tauto| |].
  { split; [done|]. split; [intros []; done|]. by intros _ ? ?. }
  intros n s' En Hfx Hfin Hcs. split; [done|]. split; [done|]. rewrite Hcs.
  split; [unfold uids; by rewrite (fx_ids _ _ _ Hfx)|].
  destruct M3 as (Hc3 & _). eapply (fix_leaves_root s3 o x n); done.
Qed.

Example setuid_drops_root_witness :
  ∃ s1, setuid (E := CapDemo.env) 1000 (CapDemo.system (CapDemo.task_of CapDemo.root_cred)) = Some (0, s1) ∧
    uids (current_cred s1) = [1000; 1000; 1000; 1000].
Proof.
  destruct (setuid_drops_root (E := CapDemo.env) (CapDemo.system (CapDemo.task_of CapDemo.root_cred)) 1000 false)
    as (s1 & H & Hu & _); try reflexivity; try discriminate.
  - apply RunDemo.system_ok; [apply RunDemo.root_ok|reflexivity].
  - by apply RunDemo.system_refs.
  - by left.
  - by exists s1.
Defined.

(** ** capset *)

Lemma self_test pid me :
  negb (pid =? 0) && negb (pid =? me) = negb (bool_decide (pid = 0 ∨ pid = me)).
Proof.
  destruct (Z.eqb_spec pid 0), (Z.eqb_spec pid me); cbn;
    rewrite ?bool_decide_true by tauto; rewrite ?bool_decide_false by tauto; done.
Qed.

(** The call with a valid header and array. *)
Lemma capset_good {E : cap_env} s h n pid kdata copy : sys_ok s → refs_ok s → refs_room s → prepare_ok = true →
  (∀ new, cred_has_perm_setcap (current_cred s) new = 0) →
  cap_validate_magic h = (0, n) → h_pid h = Some pid → pid = 0 ∨ pid = current_pid s →
  copy n = Some kdata → (∀ u, u ∈ kdata → ucap_ok u) →
  let o := current_cred s in
  let e := cap_from_user u_effective kdata in
  let i := cap_from_user u_inheritable kdata in
  let p := cap_from_user u_permitted kdata in
  ∃ r s', capset h copy s = Some (r, s') ∧
    (capset_allowed o e i p ∧ r = 0 ∧ current_cred s' = with_caps o e i p ∨
     ¬ capset_allowed o e i p ∧ r = - E_PERM ∧ current_cred s' = o).
Proof.
  intros Hs Hr0 Hr1 Halloc Hav Hmagic Hpid Hself Ek Hu o e i p. apply wp_elim. unfold capset.
  rewrite Hmagic, Hpid. cbn [Z.eqb negb]. apply wp_bind, wp_gets.
  rewrite self_test, bool_decide_true by done. cbn [negb]. rewrite Ek.
  apply wp_bind, (wp_prepare_exact s); [done|by apply mid_start|]. intros s1 M1 _. rewrite Halloc in *.
  apply wp_bind, wp_gets. cbn [id].
  pose proof (mid_sys_ok _ _ Hs M1) as Hs1. pose proof M1 as (Hc & _).
  destruct (cap_from_user_ok u_effective kdata) as [? _]; [intros; by apply Hu|].
  destruct (cap_from_user_ok u_permitted kdata) as [? ?]; [intros; by apply Hu|].
  destruct (cap_from_user_ok u_inheritable kdata) as [? ?]; [intros; by apply Hu|].
  apply wp_bind. unfold selinux_capset.
  edestruct (cap_capset_ok s1 (current_cred s)) as [[Ec Ha]|[Ec Ha]]; [done| | | |rewrite Ec|rewrite Ec];
    [done|done|done| |]; cbn [mbind option_bind Z.eqb negb E_PERM Z.opp]; (eapply wp_lift; [reflexivity|]);
    cbv beta iota; rewrite Hc in Ha.
  - rewrite Hc, Hav. cbn [Z.ltb Z.compare]. apply (wp_commit_creds true _ s); [done|done|done| |].
    + apply capset_step; [apply Hs|done..].
    + intros s' _ Hcs. by left.
  - apply (wp_abort _ _ s); [done|done|done|]. intros s' M. right. by destruct M as (-> & _).
Qed.

(** C14: capset.  For a readable header with a known version that names the calling
    task, a readable array and a permission of SELinux, the proposed sets (words the
    version does not have are 0, unknown capabilities are dropped) are installed and
    the result is 0 exactly under the conditions that cap_capset checks: the new
    permitted set is within the old one, the new effective set within the new
    permitted one, and the new inheritable set within the old inheritable and the
    bounding set, and, without CAP_SETPCAP in effect, within the old inheritable and
    the permitted set; else the result is -EPERM and the credentials stay as they are.
    (The comment of the system call asks that raised inheritable capabilities be
    within the old permitted set; that is the case only without CAP_SETPCAP, and
    with it capset_beyond_permitted raises another one.)  The other errors: an
    unreadable header or array gives -EFAULT, an unknown version -EINVAL, another task
    -EPERM. *)
Theorem capset_exact {E : cap_env} s h copy :
  sys_ok s → refs_ok s → refs_room s → prepare_ok = true → (∀ n l u, copy n = Some l → u ∈ l → ucap_ok u) →
  let o := current_cred s in
  (∀ new, cred_has_perm_setcap o new = 0) →
  ∃ r s', capset h copy s = Some (r, s') ∧
    match cap_validate_magic h, h_pid h with
    | (0, n), Some pid =>
        if bool_decide (pid = 0 ∨ pid = current_pid s) then
          match copy n with
          | Some kdata =>
              let e := cap_from_user u_effective kdata in
              let i := cap_from_user u_inheritable kdata in
              let p := cap_from_user u_permitted kdata in
              capset_allowed o e i p ∧ r = 0 ∧ current_cred s' = with_caps o e i p ∨
              ¬ capset_allowed o e i p ∧ r = - E_PERM ∧ current_cred s' = o
          | None => r = - E_FAULT ∧ s' = s
          end
        else r = - E_PERM ∧ s' = s
    | (0, _), None => r = - E_FAULT ∧ s' = s
    | (err, _), _ => r = err ∧ s' = s
    end.
Proof.
  intros Hs Hr0 Hr1 Halloc Hu o Hav.
  destruct (cap_validate_magic h) as [[|z|z] n] eqn:Em.
  2, 3: eexists _, s; unfold capset; rewrite Em; by repeat split.
  destruct (h_pid h) as [pid|] eqn:Ep.
  2: { eexists _, s. unfold capset. rewrite Em, Ep. by repeat split. }
  case_bool_decide as Hself; [destruct (copy n) as [kdata|] eqn:Ek; [by eapply capset_good; eauto|]|].
  all: apply wp_elim; unfold capset; rewrite Em, Ep; cbn [Z.eqb negb]; apply wp_bind, wp_gets;
    rewrite self_test.
  - rewrite bool_decide_true by done. cbn [negb]. rewrite Ek. by apply wp_ret.
  - rewrite bool_decide_false by done. by apply wp_ret.
Qed.

(** The set that comes back through an array of [n] words. *)
Definition low_words (n : nat) (c : kernel_cap_t) : kernel_cap_t :=
  KCap (cap_0 c) (if decide (n = 2%nat) then cap_1 c else 0).

Lemma elem_of_low n c k : (n = 1 ∨ n = 2)%nat → k ∈ low_words n c ↔ k ∈ c ∧ k < 32 * Z.of_nat n.
Proof.
  intros Hn. rewrite !elem_of_cap. unfold low_words. cbn. destruct Hn as [-> | ->]; cbn.
  - rewrite Z.bits_0. naive_solver lia.
  - naive_solver lia.
Qed.

Lemma from_user_low n f (e p i : kernel_cap_t) c : word_set c → (n = 1 ∨ n = 2)%nat →
  f (UCap (cap_0 e) (cap_0 p) (cap_0 i)) = cap_0 c → f (UCap (cap_1 e) (cap_1 p) (cap_1 i)) = cap_1 c →
  cap_from_user f (take n [UCap (cap_0 e) (cap_0 p) (cap_0 i); UCap (cap_1 e) (cap_1 p) (cap_1 i)])
  = low_words n c.
Proof.
  intros Hc Hn H0 H1. unfold cap_from_user, low_words.
  destruct Hn as [-> | ->]; cbn; rewrite H0, ?H1; [done|]. by rewrite mask_id.
Qed.

(** Capget and capset.  The array that capget returns for the calling task is
    accepted by capset (memory and SELinux permitting) and leaves the task with the
    same sets; with the one-word array of version 1 it drops the capabilities from
    32 on and keeps the others. *)
Lemma capget_capset_roundtrip {E : cap_env} s h n :
  sys_ok s → refs_ok s → refs_room s → prepare_ok = true →
  let o := current_cred s in
  (∀ new, cred_has_perm_setcap o new = 0) → current_has_perm_getcap (current s) = 0 →
  cap_validate_magic h = (0, n) → h_pid h = Some 0 →
  ∃ kdata s', capget s h false true = (0, kdata) ∧ capset h (λ _, Some kdata) s = Some (0, s') ∧
    current_cred s' = with_caps o (low_words n (cap_effective o)) (low_words n (cap_inheritable o))
                                  (low_words n (cap_permitted o)) ∧
    (∀ c k, k ∈ low_words n c ↔ k ∈ c ∧ k < 32 * Z.of_nat n) ∧
    (n = 2%nat → current_cred s' = o).
Proof.
  intros Hs Hr0 Hr1 Halloc o Hav Hget Hmagic Hpid. pose proof (so_cred _ Hs) as Ho. fold o in Ho.
  assert (n = 1 ∨ n = 2)%nat as Hn.
  { unfold cap_validate_magic in Hmagic. repeat case_match; simplify_eq; auto. }
  set (kdata := take n [UCap (cap_0 (cap_effective o)) (cap_0 (cap_permitted o)) (cap_0 (cap_inheritable o));
                        UCap (cap_1 (cap_effective o)) (cap_1 (cap_permitted o)) (cap_1 (cap_inheritable o))]).
  assert (word_set (cap_effective o)) as We.
  { split; [apply Ho|]. transitivity (cap_permitted o); apply Ho. }
  assert (word_set (cap_permitted o)) as Wp by apply Ho. assert (word_set (cap_inheritable o)) as Wi by apply Ho.
  assert (∀ u, u ∈ kdata → ucap_ok u) as Hk.
  { intros u Hu%subseteq_take. rewrite !elem_of_cons in Hu.
    destruct We as [[] _], Wp as [[] _], Wi as [[] _]. destruct Hu as [-> | [-> | []%not_elem_of_nil]]; done. }
  destruct (capset_good s h n 0 kdata (λ _, Some kdata)) as (r & s' & Hcs & Hd); [done..|by left|done|done|].
  unfold kdata in Hd. rewrite (from_user_low n u_effective _ _ _ (cap_effective o)) in Hd by done.
  rewrite (from_user_low n u_inheritable _ _ _ (cap_inheritable o)) in Hd by done.
  rewrite (from_user_low n u_permitted _ _ _ (cap_permitted o)) in Hd by done.
  assert (capset_allowed o (low_words n (cap_effective o)) (low_words n (cap_inheritable o))
                           (low_words n (cap_permitted o))) as Ha.
  { pose proof (co_eff _ Ho) as [_ Hep].
    repeat split; try right; intros k; rewrite ?elem_of_combine, ?(elem_of_low n) by done; naive_solver. }
  exists kdata, s'. destruct Hd as [(_ & -> & Hcur)|[[] _]]; [|done].
  split; [|split; [done|split; [done|split; [intros; by apply elem_of_low|]]]].
  - unfold capget, cap_get_target_pid, security_capget. rewrite Hmagic, Hpid, Hget. reflexivity.
  - intros ->. rewrite Hcur. fold o. unfold low_words. cbn [decide].
    by destruct o as [? ? [] [] [] ? ?].
Qed.

(** The sets of root with one capability taken out of the effective set. *)
Example capset_exact_witness :
  let kdata := [UCap 0xfffffffe 0xffffffff 0; UCap 31 31 0] in
  let s := CapDemo.system (CapDemo.task_of CapDemo.root_cred) in
  ∃ s', capset (E := CapDemo.env) (UHdr (Some _LINUX_CAPABILITY_VERSION_3) true (Some 0)) (λ _, Some kdata) s
        = Some (0, s') ∧ CAP_CHOWN ∉ cap_effective (current_cred s').
Proof.
  intros kdata s.
  destruct (capset_exact (E := CapDemo.env) s
    (UHdr (Some _LINUX_CAPABILITY_VERSION_3) true (Some 0)) (λ _, Some kdata)) as (r & s' & Hr & Hd).
  - apply RunDemo.system_ok; [apply RunDemo.root_ok|reflexivity].
  - by apply RunDemo.system_refs.
  - by apply RunDemo.system_room.
  - reflexivity.
  - intros n l u [= <-] Hu. unfold kdata in Hu. rewrite !elem_of_cons in Hu.
    destruct Hu as [-> | [-> | []%not_elem_of_nil]]; repeat split; cbn; lia.
  - reflexivity.
  - cbn in Hd. destruct Hd as [(_ & -> & Hc)|[[] _]].
    + exists s'. split; [done|]. rewrite Hc. vm_compute. discriminate.
    + split; [|split; [|split; [|left; reflexivity]]]; apply cap_issubset_true; try reflexivity;
        repeat split; vm_compute; congruence.
Defined.

Example capget_capset_roundtrip_witness :
  ∃ kdata s', capget (E := CapDemo.env) (CapDemo.system (CapDemo.task_of CapDemo.root_cred))
                (UHdr (Some _LINUX_CAPABILITY_VERSION_3) true (Some 0)) false true = (0, kdata) ∧
    capset (E := CapDemo.env) (UHdr (Some _LINUX_CAPABILITY_VERSION_3) true (Some 0)) (λ _, Some kdata)
      (CapDemo.system (CapDemo.task_of CapDemo.root_cred)) = Some (0, s') ∧
    current_cred s' = CapDemo.root_cred.
Proof.
  destruct (capget_capset_roundtrip (E := CapDemo.env) (CapDemo.system (CapDemo.task_of CapDemo.root_cred))
    (UHdr (Some _LINUX_CAPABILITY_VERSION_3) true (Some 0)) 2) as (kdata & s' & Hg & Hc & _ & _ & Hr);
    try reflexivity.
  - apply RunDemo.system_ok; [apply RunDemo.root_ok|reflexivity].
  - by apply RunDemo.system_refs.
  - exists kdata, s'. split; [exact Hg|]. split; [exact Hc|]. by apply Hr.
Defined.

(** With CAP_SETPCAP in effect and nothing else permitted, capset raises CAP_CHOWN in the
    inheritable set. *)
Definition setpcap_task : task := CapDemo.task_of
  (with_effective (with_permitted CapDemo.root_cred (KCap 0x100 0)) (KCap 0x100 0)).

Example capset_beyond_permitted :
  let kdata := [UCap 0x100 0x100 1; UCap 0 0 0] in
  (λ '(r, s'), (r, cap_inheritable (current_cred s'))) <$>
    capset (E := CapDemo.env) (UHdr (Some _LINUX_CAPABILITY_VERSION_3) true (Some 0)) (λ _, Some kdata)
      (CapDemo.system setpcap_task) = Some (0, KCap 1 0) ∧
  CAP_CHOWN ∉ cap_permitted (current_cred (CapDemo.system setpcap_task)).
Proof. split; [reflexivity|]. vm_compute. discriminate. Qed.
