(* ===== verification/ExecSpec.v ===== *)
(** * ExecSpec: the credentials that exec computes *)

From stdpp Require Import relations sets.
From S2P Require Import Prelude Groups CapSet Capability Credsys CapabilityThm CredsysThm CredsysCalls CredsysExec CredsysRun.

(** ** The extended attribute *)





Section Exec.
Context {E : cap_env}.






(** ** The rules of exec *)


(** Root gets everything: the real or the effective user is 0, NOROOT is not set, and it
    is not a set-uid root file with capabilities of its own run by another user. *)
Definition root_exec (o : kcred) (eu : Z) (has : bool) : Prop :=
  Z.testbit (securebits o) SECURE_NOROOT = false ∧ (uid (ids o) = 0 ∨ eu = 0) ∧
  ¬ (has = true ∧ uid (ids o) ≠ 0 ∧ eu = 0).
#[local] Instance root_exec_dec o eu has : Decision (root_exec o eu has).
Proof. unfold root_exec. apply _. Defined.











End Exec.

(** A file with CAP_NET_RAW and the effective flag, executed by an ordinary user. *)
Module ExecDemo.
End ExecDemo.

