(* ===== verification/RbTree.v ===== *)
(** * RbTree: the red-black trees of the kernel

    [lib/rbtree.c] with [include/linux/rbtree.h] and [include/linux/rbtree_augmented.h],
    on a heap of [struct rb_node].  A pointer is its address; an access to an address
    that holds no node goes wrong.  The state also has the roots ([struct rb_root],
    by address) and the data of the user of the tree, which only the callbacks of
    augmented trees see.  Code that the source writes twice, for the left and for the
    right side, is one definition with the side as a parameter. *)

From S2P Require Import Prelude.

Notation NULL := 0 (only parsing).

Record rb_node : Type := RbNode { __rb_parent_color : Z; rb_right : Z; rb_left : Z }.
#[export] Instance rb_node_eq_dec : EqDecision rb_node.
Proof. solve_decision. Defined.

Record rb_state (A : Type) : Type := RbState {
  rb_nodes : gmap Z rb_node;
  rb_roots : gmap Z Z;   (* struct rb_root: the field rb_node *)
  rb_user : A
}.
Arguments RbState {A}.
Arguments rb_nodes {A}.
Arguments rb_roots {A}.
Arguments rb_user {A}.

Inductive side : Type := Lt | Rt.
#[export] Instance side_eq_dec : EqDecision side.
Proof. solve_decision. Defined.
Definition opp (d : side) : side := match d with Lt => Rt | Rt => Lt end.

Definition node_child (d : side) (n : rb_node) : Z :=
  match d with Lt => rb_left n | Rt => rb_right n end.
Definition node_with_child (d : side) (n : rb_node) (v : Z) : rb_node :=
  match d with
  | Lt => RbNode (__rb_parent_color n) (rb_right n) v
  | Rt => RbNode (__rb_parent_color n) v (rb_left n)
  end.
Definition node_with_word (n : rb_node) (w : Z) : rb_node := RbNode w (rb_right n) (rb_left n).

(** struct rb_augment_callbacks. *)
Record rb_augment_callbacks (A : Type) : Type := RbAugment {
  propagate : Z → Z → prog (rb_state A) unit;
  copy : Z → Z → prog (rb_state A) unit;
  rotate : Z → Z → prog (rb_state A) unit
}.
Arguments RbAugment {A}.
Arguments propagate {A}.
Arguments copy {A}.
Arguments rotate {A}.

Definition RB_RED : Z := 0.
Definition RB_BLACK : Z := 1.

Definition __rb_parent (pc : Z) : Z := pc .& (~64 3).
Definition __rb_color (pc : Z) : Z := pc .& 1.
Definition __rb_is_black (pc : Z) : bool := negb (__rb_color pc =? 0).
Definition __rb_is_red (pc : Z) : bool := __rb_color pc =? 0.

Section RbTree.
Context {A : Type}.
Notation M := (prog (rb_state A)).

(** ** Fields of nodes *)

Definition get_node (p : Z) : M rb_node := λ s, n ← rb_nodes s !! p; Some (n, s).
Definition upd_node (p : Z) (f : rb_node → rb_node) : M unit :=
  λ s, n ← rb_nodes s !! p; Some (tt, RbState (<[p := f n]> (rb_nodes s)) (rb_roots s) (rb_user s)).

Definition get_child (d : side) (p : Z) : M Z := n ← get_node p; mret (node_child d n).
Definition set_child (d : side) (p v : Z) : M unit := upd_node p (λ n, node_with_child d n v).
Definition get_word (p : Z) : M Z := n ← get_node p; mret (__rb_parent_color n).
Definition set_word (p w : Z) : M unit := upd_node p (λ n, node_with_word n w).

Definition get_root (root : Z) : M Z := λ s, n ← rb_roots s !! root; Some (n, s).
Definition set_root (root v : Z) : M unit :=
  λ s, _ ← rb_roots s !! root;
       Some (tt, RbState (rb_nodes s) (<[root := v]> (rb_roots s)) (rb_user s)).

Definition when (b : bool) (m : M unit) : M unit := if b then m else mret tt.

Definition rb_parent (r : Z) : M Z := w ← get_word r; mret (__rb_parent w).
Definition rb_color (rb : Z) : M Z := w ← get_word rb; mret (__rb_color w).
Definition rb_is_red (rb : Z) : M bool := w ← get_word rb; mret (__rb_is_red w).
Definition rb_is_black (rb : Z) : M bool := w ← get_word rb; mret (__rb_is_black w).

Definition RB_EMPTY_ROOT (root : Z) : M bool := n ← get_root root; mret (n =? NULL).
Definition RB_EMPTY_NODE (node : Z) : M bool := w ← get_word node; mret (w =? node).
Definition RB_CLEAR_NODE (node : Z) : M unit := set_word node node.

Definition rb_set_parent (rb p : Z) : M unit :=
  c ← rb_color rb; set_word rb (c .| p).
Definition rb_set_parent_color (rb p color : Z) : M unit := set_word rb (p .| color).
Definition rb_set_black (rb : Z) : M unit := w ← get_word rb; set_word rb (w .| RB_BLACK).
Definition rb_red_parent (red : Z) : M Z := get_word red.

(** The place a [struct rb_node **] points to. *)
Inductive rb_slot : Type := RootSlot (root : Z) | ChildSlot (d : side) (p : Z).
Definition read_slot (l : rb_slot) : M Z :=
  match l with RootSlot r => get_root r | ChildSlot d p => get_child d p end.
Definition write_slot (l : rb_slot) (v : Z) : M unit :=
  match l with RootSlot r => set_root r v | ChildSlot d p => set_child d p v end.

Definition rb_link_node (node parent : Z) (rb_link : rb_slot) : M unit :=
  _ ← set_word node parent;
  _ ← set_child Rt node NULL;
  _ ← set_child Lt node NULL;
  write_slot rb_link node.

Definition __rb_change_child (old new parent root : Z) : M unit :=
  if negb (parent =? NULL) then
    l ← get_child Lt parent;
    if l =? old then set_child Lt parent new else set_child Rt parent new
  else set_root root new.

Definition __rb_rotate_set_parents (old new root color : Z) : M unit :=
  parent ← rb_parent old;
  w ← get_word old;
  _ ← set_word new w;
  _ ← rb_set_parent_color old new color;
  __rb_change_child old new parent root.

(** The loops climb or descend one path, so the number of nodes bounds them. *)
Definition path_fuel : M nat := gets (λ s, S (size (rb_nodes s))).

(** ** Insertion *)

Section Insert.
Variable augment_rotate : Z → Z → M unit.

(** Case 1, color flips: [tmp] is the red uncle; the loop goes on at the
    grandparent. *)
Definition insert_case1 (parent gparent tmp : Z) : M (Z * Z) :=
  _ ← rb_set_parent_color tmp gparent RB_BLACK;
  _ ← rb_set_parent_color parent gparent RB_BLACK;
  p ← rb_parent gparent;
  _ ← rb_set_parent_color gparent p RB_RED;
  mret (gparent, p).

(** Case 2, rotation at the parent towards the side [d] it is on: returns the new
    parent and tmp. *)
Definition insert_case2 (d : side) (node parent : Z) : M (Z * Z) :=
  tmp ← get_child d node;
  _ ← set_child (opp d) parent tmp;
  _ ← set_child d node parent;
  _ ← when (negb (tmp =? NULL)) (rb_set_parent_color tmp parent RB_BLACK);
  _ ← rb_set_parent_color parent node RB_RED;
  _ ← augment_rotate parent node;
  tmp ← get_child (opp d) node;
  mret (node, tmp).

(** Case 3, rotation at the grandparent away from [d]. *)
Definition insert_case3 (d : side) (parent gparent tmp root : Z) : M unit :=
  _ ← set_child d gparent tmp;
  _ ← set_child (opp d) parent gparent;
  _ ← when (negb (tmp =? NULL)) (rb_set_parent_color tmp gparent RB_BLACK);
  _ ← __rb_rotate_set_parents gparent parent root RB_RED;
  augment_rotate gparent parent.

(** The body for a parent on side [d] of its parent, [tmp] being the uncle; the
    result is the next node and parent if the loop goes on. *)
Definition insert_side (d : side) (node parent gparent tmp root : Z) : M (option (Z * Z)) :=
  red ← (if tmp =? NULL then mret false else rb_is_red tmp);
  if (red : bool) then
    np ← insert_case1 parent gparent tmp; mret (Some np)
  else
    tmp ← get_child (opp d) parent;
    '(parent, tmp) ← (if node =? tmp then insert_case2 d node parent else mret (parent, tmp));
    _ ← insert_case3 d parent gparent tmp root;
    mret None.

Fixpoint insert_loop (fuel : nat) (node parent root : Z) : M unit :=
  match fuel with
  | O => wrong
  | S fuel =>
      if parent =? NULL then rb_set_parent_color node NULL RB_BLACK
      else
        black ← rb_is_black parent;
        if (black : bool) then mret tt
        else
          gparent ← rb_red_parent parent;
          tmp ← get_child Rt gparent;
          next ← (if negb (parent =? tmp) then insert_side Lt node parent gparent tmp root
                  else tmp ← get_child Lt gparent; insert_side Rt node parent gparent tmp root);
          match next with
          | Some (node, parent) => insert_loop fuel node parent root
          | None => mret tt
          end
  end.

Definition __rb_insert (node root : Z) : M unit :=
  parent ← rb_red_parent node;
  fuel ← path_fuel;
  insert_loop fuel node parent root.
End Insert.

Definition dummy_propagate (node stop : Z) : M unit := mret tt.
Definition dummy_copy (old new : Z) : M unit := mret tt.
Definition dummy_rotate (old new : Z) : M unit := mret tt.
Definition dummy_callbacks : rb_augment_callbacks A :=
  RbAugment dummy_propagate dummy_copy dummy_rotate.

Definition rb_insert_color (node root : Z) : M unit := __rb_insert dummy_rotate node root.
Definition __rb_insert_augmented (node root : Z) (augment_rotate : Z → Z → M unit) : M unit :=
  __rb_insert augment_rotate node root.
Definition rb_insert_augmented (node root : Z) (augment : rb_augment_callbacks A) : M unit :=
  __rb_insert_augmented node root (rotate augment).

(** ** Removal *)

Section EraseColor.
Variable augment_rotate : Z → Z → M unit.

(** Case 1, the sibling is red: rotation at the parent; returns the new sibling. *)
Definition erase_case1 (d : side) (parent sibling root : Z) : M Z :=
  tmp1 ← get_child d sibling;
  _ ← set_child (opp d) parent tmp1;
  _ ← set_child d sibling parent;
  _ ← rb_set_parent_color tmp1 parent RB_BLACK;
  _ ← __rb_rotate_set_parents parent sibling root RB_RED;
  _ ← augment_rotate parent sibling;
  mret tmp1.

(** Case 2, sibling color flip: the next node and parent if the loop goes on. *)
Definition erase_case2 (parent sibling : Z) : M (option (Z * Z)) :=
  _ ← rb_set_parent_color sibling parent RB_RED;
  red ← rb_is_red parent;
  if (red : bool) then
    _ ← rb_set_black parent; mret None
  else
    let node := parent in
    parent ← rb_parent node;
    mret (if negb (parent =? NULL) then Some (node, parent) else None).

(** Case 3, rotation at the sibling, [tmp2] being its red child on side [d]. *)
Definition erase_case3 (d : side) (parent sibling tmp2 : Z) : M unit :=
  tmp1 ← get_child (opp d) tmp2;
  _ ← set_child d sibling tmp1;
  _ ← set_child (opp d) tmp2 sibling;
  _ ← set_child (opp d) parent tmp2;
  _ ← when (negb (tmp1 =? NULL)) (rb_set_parent_color tmp1 sibling RB_BLACK);
  augment_rotate sibling tmp2.

(** Case 4, rotation at the parent and color flips. *)
Definition erase_case4 (d : side) (parent sibling tmp1 root : Z) : M unit :=
  tmp2 ← get_child d sibling;
  _ ← set_child (opp d) parent tmp2;
  _ ← set_child d sibling parent;
  _ ← rb_set_parent_color tmp1 sibling RB_BLACK;
  _ ← when (negb (tmp2 =? NULL)) (rb_set_parent tmp2 parent);
  _ ← __rb_rotate_set_parents parent sibling root RB_BLACK;
  augment_rotate parent sibling.

(** Cases 2 to 4, for a black sibling. *)
Definition erase_black (d : side) (parent sibling root : Z) : M (option (Z * Z)) :=
  tmp1 ← get_child (opp d) sibling;
  black1 ← (if tmp1 =? NULL then mret true else rb_is_black tmp1);
  if (black1 : bool) then
    tmp2 ← get_child d sibling;
    black2 ← (if tmp2 =? NULL then mret true else rb_is_black tmp2);
    if (black2 : bool) then erase_case2 parent sibling
    else
      _ ← erase_case3 d parent sibling tmp2;
      _ ← erase_case4 d parent tmp2 sibling root;
      mret None
  else
    _ ← erase_case4 d parent sibling tmp1 root;
    mret None.

(** The body for a node on side [d] of its parent. *)
Definition erase_side (d : side) (parent sibling root : Z) : M (option (Z * Z)) :=
  red ← rb_is_red sibling;
  sibling ← (if (red : bool) then erase_case1 d parent sibling root else mret sibling);
  erase_black d parent sibling root.

Fixpoint erase_loop (fuel : nat) (node parent root : Z) : M unit :=
  match fuel with
  | O => wrong
  | S fuel =>
      sibling ← get_child Rt parent;
      next ← (if negb (node =? sibling) then erase_side Lt parent sibling root
              else sibling ← get_child Lt parent; erase_side Rt parent sibling root);
      match next with
      | Some (node, parent) => erase_loop fuel node parent root
      | None => mret tt
      end
  end.

Definition ____rb_erase_color (parent root : Z) : M unit :=
  fuel ← path_fuel;
  erase_loop fuel NULL parent root.
End EraseColor.

Definition __rb_erase_color (parent root : Z) (augment_rotate : Z → Z → M unit) : M unit :=
  ____rb_erase_color augment_rotate parent root.

(** do { parent = successor; successor = tmp; tmp = tmp->rb_left; } while (tmp) *)
Fixpoint leftmost_loop (fuel : nat) (successor tmp : Z) : M (Z * Z) :=
  match fuel with
  | O => wrong
  | S fuel =>
      let parent := successor in
      let successor := tmp in
      tmp ← get_child Lt tmp;
      if negb (tmp =? NULL) then leftmost_loop fuel successor tmp else mret (parent, successor)
  end.

(** Cases 2 and 3 of the removal of a node with two children: the successor is taken
    out of the right subtree; returns it, the parent of its old place and the child
    that takes this place. *)
Definition erase_successor (augment : rb_augment_callbacks A) (node child : Z) : M (Z * Z * Z) :=
  tmp ← get_child Lt child;
  if tmp =? NULL then
    child2 ← get_child Rt child;
    _ ← copy augment node child;
    mret (child, child, child2)
  else
    fuel ← path_fuel;
    '(parent, successor) ← leftmost_loop fuel child tmp;
    child2 ← get_child Rt successor;
    _ ← set_child Lt parent child2;
    _ ← set_child Rt successor child;
    _ ← rb_set_parent child successor;
    _ ← copy augment node successor;
    _ ← propagate augment parent successor;
    mret (successor, parent, child2).

(** The successor takes the place of the node; returns where to rebalance. *)
Definition erase_splice (node root successor parent child2 : Z) : M Z :=
  tmp ← get_child Lt node;
  _ ← set_child Lt successor tmp;
  _ ← rb_set_parent tmp successor;
  pc ← get_word node;
  let tmp := __rb_parent pc in
  _ ← __rb_change_child node successor tmp root;
  if negb (child2 =? NULL) then
    _ ← set_word successor pc;
    _ ← rb_set_parent_color child2 parent RB_BLACK;
    mret NULL
  else
    pc2 ← get_word successor;
    _ ← set_word successor pc;
    mret (if __rb_is_black pc2 then parent else NULL).

Definition __rb_erase_augmented (node root : Z) (augment : rb_augment_callbacks A) : M Z :=
  child ← get_child Rt node;
  tmp ← get_child Lt node;
  if tmp =? NULL then
    pc ← get_word node;
    let parent := __rb_parent pc in
    _ ← __rb_change_child node child parent root;
    rebalance ← (if negb (child =? NULL) then _ ← set_word child pc; mret NULL
                 else mret (if __rb_is_black pc then parent else NULL));
    _ ← propagate augment parent NULL;
    mret rebalance
  else if child =? NULL then
    pc ← get_word node;
    _ ← set_word tmp pc;
    let parent := __rb_parent pc in
    _ ← __rb_change_child node tmp parent root;
    _ ← propagate augment parent NULL;
    mret NULL
  else
    '(successor, parent, child2) ← erase_successor augment node child;
    rebalance ← erase_splice node root successor parent child2;
    _ ← propagate augment successor NULL;
    mret rebalance.

Definition rb_erase (node root : Z) : M unit :=
  rebalance ← __rb_erase_augmented node root dummy_callbacks;
  when (negb (rebalance =? NULL)) (____rb_erase_color dummy_rotate rebalance root).

Definition rb_erase_augmented (node root : Z) (augment : rb_augment_callbacks A) : M unit :=
  rebalance ← __rb_erase_augmented node root augment;
  when (negb (rebalance =? NULL)) (__rb_erase_color rebalance root (rotate augment)).

(** ** Walks *)

(** while (n->child) n = n->child *)
Fixpoint descend (fuel : nat) (d : side) (n : Z) : M Z :=
  match fuel with
  | O => wrong
  | S fuel => c ← get_child d n; if negb (c =? NULL) then descend fuel d c else mret n
  end.

Definition rb_end (d : side) (root : Z) : M Z :=
  n ← get_root root;
  if n =? NULL then mret NULL else fuel ← path_fuel; descend fuel d n.
Definition rb_first (root : Z) : M Z := rb_end Lt root.
Definition rb_last (root : Z) : M Z := rb_end Rt root.

(** while ((parent = rb_parent(node)) && node == parent->child) node = parent *)
Fixpoint ascend (fuel : nat) (d : side) (node : Z) : M Z :=
  match fuel with
  | O => wrong
  | S fuel =>
      parent ← rb_parent node;
      if parent =? NULL then mret parent
      else c ← get_child d parent; if node =? c then ascend fuel d parent else mret parent
  end.

(** rb_next for [d = Rt], rb_prev for [d = Lt]. *)
Definition rb_walk (d : side) (node : Z) : M Z :=
  empty ← RB_EMPTY_NODE node;
  if (empty : bool) then mret NULL
  else
    fuel ← path_fuel;
    c ← get_child d node;
    if negb (c =? NULL) then descend fuel (opp d) c else ascend fuel d node.
Definition rb_next (node : Z) : M Z := rb_walk Rt node.
Definition rb_prev (node : Z) : M Z := rb_walk Lt node.

Definition rb_replace_node (victim new root : Z) : M unit :=
  parent ← rb_parent victim;
  _ ← __rb_change_child victim new parent root;
  l ← get_child Lt victim;
  _ ← when (negb (l =? NULL)) (rb_set_parent l new);
  r ← get_child Rt victim;
  _ ← when (negb (r =? NULL)) (rb_set_parent r new);
  v ← get_node victim;
  upd_node new (λ _, v).
End RbTree.
