(* ===== verification/RbTreeShape.v ===== *)
(** * RbTreeShape: red-black trees in the heap

    The logical tree, the places in it (a path of frames from a place to the root),
    when a heap holds a tree, and the red-black balance. *)

From S2P Require Import Prelude RbTree.

Inductive color : Type := Red | Black.
#[export] Instance color_eq_dec : EqDecision color.
Proof. solve_decision. Defined.
Definition cval (c : color) : Z := match c with Red => RB_RED | Black => RB_BLACK end.

Inductive tree : Type := Leaf | Node (c : color) (l : tree) (a : Z) (r : tree).

#[export] Instance tree_eq_dec : EqDecision tree.
Proof. solve_decision. Defined.

Definition ptr (t : tree) : Z := match t with Leaf => 0 | Node _ _ a _ => a end.
Fixpoint inorder (t : tree) : list Z :=
  match t with Leaf => [] | Node _ l a r => inorder l ++ a :: inorder r end.
Definition recolor (c : color) (t : tree) : tree :=
  match t with Leaf => Leaf | Node _ l a r => Node c l a r end.
Definition root_color (t : tree) : color := match t with Leaf => Black | Node c _ _ _ => c end.

(** [branch d c x a y]: the node [a] with [x] on side [d] and [y] on the other. *)
Definition branch (d : side) (c : color) (x : tree) (a : Z) (y : tree) : tree :=
  match d with Lt => Node c x a y | Rt => Node c y a x end.
Definition mk (d : side) (w x y : Z) : rb_node :=
  match d with Lt => RbNode w y x | Rt => RbNode w x y end.

(** A frame is a node on the path to the root with the side the path comes from and
    the subtree on the other side. *)
Record frame : Type := Frame { f_side : side; f_color : color; f_addr : Z; f_sib : tree }.
Notation place := (list frame).

Definition grow (f : frame) (t : tree) : tree := branch (f_side f) (f_color f) t (f_addr f) (f_sib f).
Fixpoint plug (k : place) (t : tree) : tree :=
  match k with [] => t | f :: k => plug k (grow f t) end.

(** The parent of a place, [top] above the root, and the pointer at the top when [p]
    is the one at the place. *)
Definition above (top : Z) (k : place) : Z := match k with [] => top | f :: _ => f_addr f end.
Fixpoint top_ptr (k : place) (p : Z) : Z :=
  match k with [] => p | f :: k => top_ptr k (f_addr f) end.
Fixpoint place_addrs (k : place) : list Z :=
  match k with [] => [] | f :: k => f_addr f :: inorder (f_sib f) ++ place_addrs k end.

(** ** Representation *)

Definition good_ptr (a : Z) : Prop := 0 < a < 2 ^ 64 ∧ a mod 4 = 0.
Definition good_or_null (a : Z) : Prop := 0 ≤ a < 2 ^ 64 ∧ a mod 4 = 0.
Definition word (p : Z) (c : color) : Z := p .| cval c.

Notation rb_heap := (gmap Z rb_node).

Fixpoint rep (h : rb_heap) (p : Z) (t : tree) : Prop :=
  match t with
  | Leaf => True
  | Node c l a r =>
      good_ptr a ∧ h !! a = Some (RbNode (word p c) (ptr r) (ptr l)) ∧ rep h a l ∧ rep h a r
  end.

(** The same for a node whose own parent and color word is arbitrary. *)
Definition rep_below (h : rb_heap) (t : tree) : Prop :=
  match t with
  | Leaf => True
  | Node _ l a r =>
      good_ptr a ∧ (∃ w, h !! a = Some (RbNode w (ptr r) (ptr l))) ∧ rep h a l ∧ rep h a r
  end.

Fixpoint rep_place (h : rb_heap) (top : Z) (k : place) (p : Z) : Prop :=
  match k with
  | [] => True
  | Frame d c a s :: k =>
      good_ptr a ∧ h !! a = Some (mk d (word (above top k) c) p (ptr s)) ∧ rep h a s ∧
      rep_place h top k a
  end.

(** ** Words *)

Lemma good_null a : good_ptr a → good_or_null a.
Proof. unfold good_ptr, good_or_null. lia. Qed.
Lemma good_zero : good_or_null 0.
Proof. by vm_compute. Qed.
#[export] Hint Resolve good_null good_zero : core.

Lemma word_add p c : good_or_null p → word p c = p + cval c.
Proof.
  intros [_ Hp]. unfold word. pose proof (Z.add_lor_land p (cval c)) as He. destruct c; cbn [cval] in *.

  - unfold RB_RED. by rewrite Z.lor_0_r, Z.add_0_r.
  - change (p .& RB_BLACK) with (p .& Z.ones 1) in He. rewrite Z.land_ones in He by lia. dlia.
Qed.

Lemma parent_of_word p c : good_or_null p → __rb_parent (word p c) = p.
Proof.
  intros [Hr Hm]. unfold __rb_parent. replace (~64 3) with (Z.shiftl (Z.ones 62) 2) by done.
  rewrite word_add by done.
  assert (Hd : (p + cval c) / 4 = p / 4) by (destruct c; cbv [cval RB_RED RB_BLACK]; dlia).
  apply Z.bits_inj'. intros i Hi. rewrite Z.land_spec, testbit_shiftl, testbit_ones by lia.
  replace p with (Z.shiftl (p / 4) 2) at 2 by (rewrite Z.shiftl_mul_pow2; dlia).
  rewrite testbit_shiftl, <- Hd. change 4 with (2 ^ 2). rewrite <- Z.shiftr_div_pow2 by lia.
  rewrite testbit_shiftr.
  destruct (Z.leb_spec 0 i), (Z.leb_spec 0 (i - 2)); cbn; rewrite ?andb_false_r; try lia || done.
  replace (i - 2 + 2) with i by lia.
  destruct (Z.ltb_spec (i - 2) 62); [by rewrite andb_true_r|]. rewrite andb_false_r. symmetry.
  apply (testbit_high 64); [|lia]. destruct c; cbv [cval RB_RED RB_BLACK]; dlia.
Qed.

Lemma color_of_word p c : good_or_null p → __rb_color (word p c) = cval c.
Proof.
  intros Hp. rewrite word_add by done. destruct Hp as [_ Hm]. unfold __rb_color.
  change 1 with (Z.ones 1). rewrite Z.land_ones by lia. destruct c; cbv [cval RB_RED RB_BLACK]; dlia.
Qed.
Lemma black_of_word p c : good_or_null p → __rb_is_black (word p c) = bool_decide (c = Black).
Proof. intros. unfold __rb_is_black. rewrite color_of_word by done. by destruct c. Qed.
Lemma red_of_word p c : good_or_null p → __rb_is_red (word p c) = bool_decide (c = Red).
Proof. intros. unfold __rb_is_red. rewrite color_of_word by done. by destruct c. Qed.
Lemma word_red p : word p Red = p.
Proof. apply Z.lor_0_r. Qed.
Lemma word_comm p c : cval c .| p = word p c.
Proof. apply Z.lor_comm. Qed.
Lemma word_blacken p c : word p c .| RB_BLACK = word p Black.
Proof. unfold word. rewrite <- Z.lor_assoc. by destruct c. Qed.
Lemma word_ne_self p c a : good_or_null p → good_ptr a → p ≠ a → word p c ≠ a.
Proof. intros Hp [_ Ha] Hne. rewrite word_add by done. destruct Hp as [_ Hp], c; cbv [cval RB_RED RB_BLACK]; dlia. Qed.

(** ** Sides *)

Section Sides.
Variables (d : side) (w x y v : Z).
Lemma child_mk : node_child d (mk d w x y) = x.
Proof. by destruct d. Qed.
Lemma child_opp_mk : node_child (opp d) (mk d w x y) = y.
Proof. by destruct d. Qed.
Lemma with_child_mk : node_with_child d (mk d w x y) v = mk d w v y.
Proof. by destruct d. Qed.
Lemma with_child_opp_mk : node_with_child (opp d) (mk d w x y) v = mk d w x v.
Proof. by destruct d. Qed.
Lemma with_word_mk : node_with_word (mk d w x y) v = mk d v x y.
Proof. by destruct d. Qed.
Lemma word_mk : __rb_parent_color (mk d w x y) = w.
Proof. by destruct d. Qed.
Lemma mk_opp : mk (opp d) w x y = mk d w y x.
Proof. by destruct d. Qed.
End Sides.
Lemma opp_opp d : opp (opp d) = d.
Proof. by destruct d. Qed.
Lemma branch_opp d c x a y : branch (opp d) c x a y = branch d c y a x.
Proof. by destruct d. Qed.

Create HintDb sides.
#[export] Hint Rewrite child_mk child_opp_mk with_child_mk with_child_opp_mk with_word_mk
  word_mk mk_opp opp_opp branch_opp : sides.

Lemma ptr_branch d c x a y : ptr (branch d c x a y) = a.
Proof. by destruct d. Qed.
Lemma root_color_branch d c x a y : root_color (branch d c x a y) = c.
Proof. by destruct d. Qed.
Lemma recolor_branch c d c' x a y : recolor c (branch d c' x a y) = branch d c x a y.
Proof. by destruct d. Qed.
Lemma ptr_recolor c t : ptr (recolor c t) = ptr t.
Proof. by destruct t. Qed.
Lemma recolor_same t : recolor (root_color t) t = t.
Proof. by destruct t. Qed.
Lemma inorder_recolor c t : inorder (recolor c t) = inorder t.
Proof. by destruct t. Qed.
#[export] Hint Rewrite ptr_branch root_color_branch recolor_branch ptr_recolor inorder_recolor : sides.

Lemma branch_cases t : t = Leaf ∨ ∀ d, ∃ c x a y, t = branch d c x a y.
Proof.
  destruct t as [|c l a r]; [by left|right]. intros [].
  - by exists c, l, a, r.
  - by exists c, r, a, l.
Qed.

Lemma place_addrs_app k k' : place_addrs (k ++ k') = place_addrs k ++ place_addrs k'.
Proof. induction k as [|f k IH]; simpl; [done|]. by rewrite IH, <- app_assoc. Qed.
Lemma above_app top k k' : above top (k ++ k') = above (above top k') k.
Proof. by destruct k. Qed.

Lemma ptr_plug k t : ptr (plug k t) = top_ptr k (ptr t).
Proof. revert t. induction k as [|f k IH]; intros; simpl; [done|]. rewrite IH. unfold grow. by rewrite ptr_branch. Qed.

Lemma plug_app k k' t : plug (k ++ k') t = plug k' (plug k t).
Proof. revert t. induction k; simpl; auto. Qed.

(** ** Orders *)

Lemma inorder_branch d c x a y : inorder (branch d c x a y) ≡ₚ a :: inorder x ++ inorder y.
Proof. destruct d; simpl; [|rewrite (Permutation_app_comm (inorder x))]; by rewrite Permutation_middle. Qed.

Lemma inorder_plug_perm k t : inorder (plug k t) ≡ₚ inorder t ++ place_addrs k.
Proof.
  revert t. induction k as [|[d c a s] k IH]; intros t; simpl; [by rewrite app_nil_r|].
  rewrite IH. unfold grow. simpl. rewrite inorder_branch. simpl. rewrite <- app_assoc.
  by rewrite Permutation_middle.
Qed.

#[export] Instance set_unfold_branch x d c l a r P Q :
  SetUnfoldElemOf x (inorder l) P → SetUnfoldElemOf x (inorder r) Q →
  SetUnfoldElemOf x (inorder (branch d c l a r)) (x = a ∨ P ∨ Q).
Proof.
  intros [HP] [HQ]. constructor. by rewrite inorder_branch, elem_of_cons, elem_of_app, HP, HQ.
Qed.
#[export] Instance set_unfold_recolor x c t P :
  SetUnfoldElemOf x (inorder t) P → SetUnfoldElemOf x (inorder (recolor c t)) P.
Proof. intros [HP]. constructor. by rewrite inorder_recolor. Qed.
#[export] Instance set_unfold_plug x k t P Q :
  SetUnfoldElemOf x (inorder t) P → SetUnfoldElemOf x (place_addrs k) Q →
  SetUnfoldElemOf x (inorder (plug k t)) (P ∨ Q).
Proof. intros [HP] [HQ]. constructor. by rewrite inorder_plug_perm, elem_of_app, HP, HQ. Qed.

#[export] Instance set_unfold_place_app x k k' P Q :
  SetUnfoldElemOf x (place_addrs k) P → SetUnfoldElemOf x (place_addrs k') Q →
  SetUnfoldElemOf x (place_addrs (k ++ k')) (P ∨ Q).
Proof. intros [HP] [HQ]. constructor. by rewrite place_addrs_app, elem_of_app, HP, HQ. Qed.
#[export] Instance set_unfold_place_cons x d c a s k P Q :
  SetUnfoldElemOf x (inorder s) P → SetUnfoldElemOf x (place_addrs k) Q →
  SetUnfoldElemOf x (place_addrs (Frame d c a s :: k)) (x = a ∨ P ∨ Q).
Proof. intros [HP] [HQ]. constructor. simpl. by rewrite elem_of_cons, elem_of_app, HP, HQ. Qed.

(** The nodes before and after a place. *)
Fixpoint before (k : place) : list Z :=
  match k with
  | [] => []
  | Frame Lt _ _ _ :: k => before k
  | Frame Rt _ a s :: k => before k ++ inorder s ++ [a]
  end.
Fixpoint after (k : place) : list Z :=
  match k with
  | [] => []
  | Frame Lt _ a s :: k => a :: inorder s ++ after k
  | Frame Rt _ _ _ :: k => after k
  end.

Lemma inorder_plug k t : inorder (plug k t) = before k ++ inorder t ++ after k.
Proof.
  revert t. induction k as [|[[] c a s] k IH]; intros t; simpl; [by rewrite app_nil_r|..];
    rewrite IH; unfold grow; simpl; rewrite <- ?app_assoc; done.
Qed.

Lemma inorder_plug_eq k t t' : inorder t = inorder t' → inorder (plug k t) = inorder (plug k t').
Proof. intros H. by rewrite !inorder_plug, H. Qed.

Lemma elem_place x k : x ∈ place_addrs k ↔ x ∈ before k ++ after k.
Proof.
  pose proof (inorder_plug_perm k Leaf) as Hp. rewrite inorder_plug in Hp. simpl in Hp.
  by rewrite Hp.
Qed.

(** ** Representation of parts *)

Section Rep.
Implicit Types (h : rb_heap).

Lemma rep_branch h p d c x a y :
  rep h p (branch d c x a y) ↔
  good_ptr a ∧ h !! a = Some (mk d (word p c) (ptr x) (ptr y)) ∧ rep h a x ∧ rep h a y.
Proof. destruct d; simpl; naive_solver. Qed.

Lemma rep_below_branch h d c x a y :
  rep_below h (branch d c x a y) ↔
  good_ptr a ∧ (∃ w, h !! a = Some (mk d w (ptr x) (ptr y))) ∧ rep h a x ∧ rep h a y.
Proof. destruct d; simpl; naive_solver. Qed.

Lemma rep_rep_below h p t : rep h p t → rep_below h t.
Proof. destruct t; simpl; naive_solver. Qed.

Lemma rep_plug h top k t :
  rep h top (plug k t) ↔ rep_place h top k (ptr t) ∧ rep h (above top k) t.
Proof.
  revert t. induction k as [|[d c a s] k IH]; intros t; simpl; [naive_solver|].
  rewrite IH. unfold grow. simpl. rewrite rep_branch, ptr_branch. naive_solver.
Qed.

Lemma rep_place_app h top k k' p :
  rep_place h top (k ++ k') p ↔ rep_place h (above top k') k p ∧ rep_place h top k' (top_ptr k p).
Proof.
  revert p. induction k as [|[d c a s] k IH]; intros p; simpl; [naive_solver|].
  rewrite above_app, IH. naive_solver.
Qed.

Lemma rep_frame h h' p t : (∀ x, x ∈ inorder t → h' !! x = h !! x) → rep h p t → rep h' p t.
Proof.
  revert p. induction t as [|c l IHl a r IHr]; intros p Hf; simpl; [done|].
  intros (Hg & Ha & Hl & Hr). simpl in Hf. split; [done|]. split; [rewrite Hf; set_solver|].
  split; [apply IHl|apply IHr]; set_solver.
Qed.

Lemma rep_place_frame h h' top k p :
  (∀ x, x ∈ place_addrs k → h' !! x = h !! x) → rep_place h top k p → rep_place h' top k p.
Proof.
  revert p. induction k as [|[d c a s] k IH]; intros p Hf; simpl; [done|]. simpl in Hf.
  intros (Hg & Ha & Hs & Hk). split; [done|]. split; [rewrite Hf; set_solver|].
  split; [eapply rep_frame; [|done]|apply IH]; set_solver.
Qed.

Lemma rep_same h h' l p t :
  (∀ x, x ∉ l → h' !! x = h !! x) → inorder t ## l → rep h p t → rep h' p t.
Proof. intros Hs Hd. apply rep_frame. intros x Hx. apply Hs. intros Hl. by apply (Hd x). Qed.
Lemma rep_place_same h h' l top k p :
  (∀ x, x ∉ l → h' !! x = h !! x) → place_addrs k ## l → rep_place h top k p → rep_place h' top k p.
Proof. intros Hs Hd. apply rep_place_frame. intros x Hx. apply Hs. intros Hl. by apply (Hd x). Qed.

Lemma rep_insert h p t a n : a ∉ inorder t → rep h p t → rep (<[a := n]> h) p t.
Proof. intros Ha. apply rep_frame. intros x Hx. apply lookup_insert_ne. set_solver. Qed.
Lemma rep_place_insert h top k p a n :
  a ∉ place_addrs k → rep_place h top k p → rep_place (<[a := n]> h) top k p.
Proof. intros Ha. apply rep_place_frame. intros x Hx. apply lookup_insert_ne. set_solver. Qed.
Lemma rep_below_insert h t a n : a ∉ inorder t → rep_below h t → rep_below (<[a := n]> h) t.
Proof.
  destruct t as [|c l b r]; simpl; [done|]. intros Ha (Hg & (w & Hb) & Hl & Hr).
  split; [done|]. split; [exists w; by rewrite lookup_insert_ne by set_solver|].
  split; apply rep_insert; set_solver.
Qed.

(** The heap after the parent and the color of the root of [t] are set. *)
Definition reparent h (t : tree) (p : Z) (c : color) : rb_heap :=
  match t with Leaf => h | Node _ l a r => <[a := RbNode (word p c) (ptr r) (ptr l)]> h end.

Lemma lookup_reparent_ne h t p c x : x ∉ inorder t → reparent h t p c !! x = h !! x.
Proof. destruct t as [|? l a r]; simpl; [done|]. intros. apply lookup_insert_ne. set_solver. Qed.

Lemma rep_reparent h t p c : NoDup (inorder t) → rep_below h t → rep (reparent h t p c) p (recolor c t).
Proof.
  destruct t as [|c' l a r]; simpl; [done|]. intros Hn (Hg & _ & Hl & Hr).
  apply NoDup_app in Hn as (_ & Hd & [Hn _]%NoDup_cons).
  split; [done|]. split; [by rewrite lookup_insert_eq|].
  split; apply rep_insert; set_solver.
Qed.
Lemma rep_reparent_same h t p c :
  root_color t = c → NoDup (inorder t) → rep_below h t → rep (reparent h t p c) p t.
Proof. intros Hc Hn Hr. rewrite <- (recolor_same t) at 2. rewrite Hc. by apply rep_reparent. Qed.
Lemma rep_reparent_ne h t p c q t' :
  inorder t ## inorder t' → rep h q t' → rep (reparent h t p c) q t'.
Proof. intros Hd. apply rep_frame. intros x Hx. apply lookup_reparent_ne. set_solver. Qed.
Lemma rep_place_reparent h t p c top k q :
  inorder t ## place_addrs k → rep_place h top k q → rep_place (reparent h t p c) top k q.
Proof. intros Hd. apply rep_place_frame. intros x Hx. apply lookup_reparent_ne. set_solver. Qed.
Lemma rep_below_reparent_ne h t p c t' :
  inorder t ## inorder t' → rep_below h t' → rep_below (reparent h t p c) t'.
Proof. destruct t; [done|]. simpl. intros. apply rep_below_insert; set_solver. Qed.

Lemma rep_good h p t : rep h p t → good_or_null (ptr t).
Proof. destruct t; simpl; [auto|]. intros (? & _); auto. Qed.
Lemma rep_below_good h t : rep_below h t → good_or_null (ptr t).
Proof. destruct t; simpl; [auto|]. intros (? & _); auto. Qed.
Lemma rep_place_good h top k p : good_or_null top → rep_place h top k p → good_or_null (above top k).
Proof. destruct k as [|[]]; simpl; [auto|]. intros ? (? & _); auto. Qed.
Lemma rep_elem h p t a : rep h p t → a ∈ inorder t → good_ptr a ∧ is_Some (h !! a).
Proof.
  revert p. induction t as [|c l IHl b r IHr]; intros p; simpl; [set_solver|].
  intros (Hg & Hb & Hl & Hr). rewrite elem_of_app, elem_of_cons. intros [H|[->|H]]; eauto.
Qed.
End Rep.
