(* ===== verification/RbTreeHeap.v ===== *)
(** * RbTreeHeap: reasoning about the fields of nodes

    Disjointness of the parts of a tree, the weakest preconditions of the field
    accesses and of the shared helpers of [lib/rbtree.c], and the tactics that run
    straight-line code on a tree of which a few nodes are exposed. *)

From S2P Require Import Prelude RbTree RbTreeShape.

(** ** Parts that are pairwise disjoint *)

Inductive part : Type := PNode (a : Z) | PTree (t : tree) | PPlace (k : place).

Definition part_addrs (x : part) : list Z :=
  match x with PNode a => [a] | PTree t => inorder t | PPlace k => place_addrs k end.
Fixpoint flat (l : list part) : list Z :=
  match l with
  | [] => []
  | [x] => part_addrs x
  | PNode a :: l => a :: flat l
  | x :: l => part_addrs x ++ flat l
  end.

Definition sep (x y : part) : Prop :=
  match x, y with
  | PNode a, PNode b => a ≠ b
  | PNode a, _ => a ∉ part_addrs y
  | _, PNode b => b ∉ part_addrs x
  | _, _ => part_addrs x ## part_addrs y
  end.
Fixpoint apart (l : list part) : Prop :=
  match l with
  | [] => True
  | x :: l => NoDup (part_addrs x) ∧ foldr (λ y P, sep x y ∧ P) True l ∧ apart l
  end.

Lemma flat_parts_cons x l : flat (x :: l) = part_addrs x ++ flat l.
Proof. destruct l, x; simpl; by rewrite ?app_nil_r. Qed.

Lemma sep_disjoint x y : part_addrs x ## part_addrs y → sep x y.
Proof. destruct x, y; simpl; set_solver. Qed.

Lemma NoDup_apart l : NoDup (flat l) → apart l.
Proof.
  induction l as [|x l IH]; [done|]. rewrite flat_parts_cons. intros (Hx & Hd & Hl)%NoDup_app. cbn [apart].
  split; [done|]. split; [|by apply IH].
  assert (Hd' : ∀ y, y ∈ l → sep x y).
  { intros y Hy. apply sep_disjoint. intros z Hzx Hzy. apply (Hd z Hzx). clear -Hy Hzy.
    induction Hy; rewrite flat_parts_cons, elem_of_app; auto. }
  clear -Hd'. induction l as [|y l IH]; simpl; [done|]. split; [apply Hd'|apply IH; intros; apply Hd']; set_solver.
Qed.

(** ** Field accesses *)

Section Fields.
Context {A : Type}.
Implicit Types (h : rb_heap) (R : gmap Z Z) (u : A).

Lemma wp_get_child d p n (Q : Z → rb_state A → Prop) h R u :
  h !! p = Some n → Q (node_child d n) (RbState h R u) → wp (get_child d p) Q (RbState h R u).
Proof. intros Hp HQ. unfold wp, get_child, get_node, mbind, prog_bind. simpl. by rewrite Hp. Qed.

Lemma wp_set_child d p v n (Q : unit → rb_state A → Prop) h R u :
  h !! p = Some n → Q tt (RbState (<[p := node_with_child d n v]> h) R u) →
  wp (set_child d p v) Q (RbState h R u).
Proof. intros Hp HQ. unfold wp, set_child, upd_node. simpl. by rewrite Hp. Qed.

Lemma wp_get_word p n (Q : Z → rb_state A → Prop) h R u :
  h !! p = Some n → Q (__rb_parent_color n) (RbState h R u) → wp (get_word p) Q (RbState h R u).
Proof. intros Hp HQ. unfold wp, get_word, get_node, mbind, prog_bind. simpl. by rewrite Hp. Qed.

Lemma wp_set_word p w n (Q : unit → rb_state A → Prop) h R u :
  h !! p = Some n → Q tt (RbState (<[p := node_with_word n w]> h) R u) →
  wp (set_word p w) Q (RbState h R u).
Proof. intros Hp HQ. unfold wp, set_word, upd_node. simpl. by rewrite Hp. Qed.

Lemma wp_get_root r n (Q : Z → rb_state A → Prop) h R u :
  R !! r = Some n → Q n (RbState h R u) → wp (get_root r) Q (RbState h R u).
Proof. intros Hp HQ. unfold wp, get_root. simpl. by rewrite Hp. Qed.

Lemma wp_set_root r v n (Q : unit → rb_state A → Prop) h R u :
  R !! r = Some n → Q tt (RbState h (<[r := v]> R) u) → wp (set_root r v) Q (RbState h R u).
Proof. intros Hp HQ. unfold wp, set_root. simpl. by rewrite Hp. Qed.

(** if (tmp) rb_set_parent_color(tmp, p, RB_BLACK), tmp being the root of [t] *)
Lemma wp_reparent t p c (Q : unit → rb_state A → Prop) h R u :
  rep_below h t → Q tt (RbState (reparent h t p c) R u) →
  wp (when (negb (ptr t =? NULL)) (rb_set_parent_color (ptr t) p (cval c))) Q (RbState h R u).
Proof.
  destruct t as [|c' l a r]; simpl; [done|]. intros (Hg & (w & Ha) & _) HQ.
  replace (a =? 0) with false by (unfold good_ptr in Hg; lia). simpl.
  eapply wp_set_word; [done|]. exact HQ.
Qed.

Lemma wp_reparent_node t p c (Q : unit → rb_state A → Prop) h R u :
  t ≠ Leaf → rep_below h t → Q tt (RbState (reparent h t p c) R u) →
  wp (rb_set_parent_color (ptr t) p (cval c)) Q (RbState h R u).
Proof.
  destruct t as [|c' l a r]; simpl; [done|]. intros _ (Hg & (w & Ha) & _) HQ.
  eapply wp_set_word; [done|]. exact HQ.
Qed.

(** if (tmp) rb_set_parent(tmp, p) *)
Lemma wp_reparent_keep t q p (Q : unit → rb_state A → Prop) h R u :
  rep h q t → good_or_null q → Q tt (RbState (reparent h t p (root_color t)) R u) →
  wp (when (negb (ptr t =? NULL)) (rb_set_parent (ptr t) p)) Q (RbState h R u).
Proof.
  destruct t as [|c' l a r]; simpl; [done|]. intros (Hg & Ha & _) Hq HQ.
  replace (a =? 0) with false by (unfold good_ptr in Hg; lia). simpl.
  unfold rb_set_parent, rb_color. apply wp_bind, wp_bind. eapply wp_get_word; [done|]. apply wp_ret.
  eapply wp_set_word; [done|]. simpl. rewrite color_of_word, word_comm by done. exact HQ.
Qed.

Lemma wp_reparent_keep_node t q p (Q : unit → rb_state A → Prop) h R u :
  t ≠ Leaf → rep h q t → good_or_null q → Q tt (RbState (reparent h t p (root_color t)) R u) →
  wp (rb_set_parent (ptr t) p) Q (RbState h R u).
Proof.
  intros Hne Hr Hq HQ. pose proof (wp_reparent_keep t q p Q h R u Hr Hq HQ) as Hw.
  destruct t; [done|]. destruct Hr as [[] _]. simpl in Hw.
  by replace (a =? 0) with false in Hw by lia.
Qed.

(** if (!tmp || rb_is_black(tmp)) and if (tmp && rb_is_red(tmp)) *)
Lemma wp_black_or_null t q (Q : bool → rb_state A → Prop) h R u :
  rep h q t → good_or_null q → Q (bool_decide (root_color t = Black)) (RbState h R u) →
  wp (if ptr t =? NULL then mret true else rb_is_black (ptr t)) Q (RbState h R u).
Proof.
  destruct t as [|c' l a r]; simpl; [done|]. intros (Hg & Ha & _) Hq HQ.
  replace (a =? 0) with false by (unfold good_ptr in Hg; lia). unfold rb_is_black.
  apply wp_bind. eapply wp_get_word; [done|]. apply wp_ret. simpl. by rewrite black_of_word.
Qed.
Lemma wp_red_not_null t q (Q : bool → rb_state A → Prop) h R u :
  rep h q t → good_or_null q → Q (bool_decide (root_color t = Red)) (RbState h R u) →
  wp (if ptr t =? NULL then mret false else rb_is_red (ptr t)) Q (RbState h R u).
Proof.
  destruct t as [|c' l a r]; simpl; [done|]. intros (Hg & Ha & _) Hq HQ.
  replace (a =? 0) with false by (unfold good_ptr in Hg; lia). unfold rb_is_red.
  apply wp_bind. eapply wp_get_word; [done|]. apply wp_ret. simpl. by rewrite red_of_word.
Qed.
End Fields.

(** ** A tree with its root *)

(** The heap and the root pointer hold the tree [T]. *)
Record tree_at {A} (s : rb_state A) (root : Z) (T : tree) : Prop := {
  ta_rep : rep (rb_nodes s) 0 T;
  ta_root : rb_roots s !! root = Some (ptr T);
  ta_nodup : NoDup (inorder T)
}.

(** Nothing but the nodes of [l] and the root has changed. *)
Definition only {A} (l : list Z) (root : Z) (s s' : rb_state A) : Prop :=
  (∀ x, x ∉ l → rb_nodes s' !! x = rb_nodes s !! x) ∧
  dom (rb_nodes s') = dom (rb_nodes s) ∧
  (∀ r, r ≠ root → rb_roots s' !! r = rb_roots s !! r) ∧
  dom (rb_roots s') = dom (rb_roots s).

Section Only.
Context {A : Type}.
Implicit Types (s : rb_state A).

Lemma only_refl l root s : only l root s s.
Proof. done. Qed.
Lemma only_trans l root s s1 s2 : only l root s s1 → only l root s1 s2 → only l root s s2.
Proof.
  intros (H1 & H2 & H3 & H4) (G1 & G2 & G3 & G4).
  split; [intros x Hx; rewrite G1, H1; done|]. split; [congruence|].
  split; [intros r Hr; rewrite G3, H3; done|congruence].
Qed.
Lemma only_weaken l l' root s s' : (∀ x, x ∈ l → x ∈ l') → only l root s s' → only l' root s s'.
Proof. intros Hl (H1 & H2 & H3). split; [|done]. intros x Hx. apply H1. auto. Qed.
Lemma only_user l root h R (u v : A) : only l root (RbState h R u) (RbState h R v).
Proof. done. Qed.

Lemma only_insert l root s h R u a n :
  a ∈ l → is_Some (h !! a) → only l root s (RbState h R u) → only l root s (RbState (<[a := n]> h) R u).
Proof.
  intros Ha [m Hm] (H1 & H2 & H3). split; [|split; [|done]].
  - intros x Hx. simpl. rewrite lookup_insert_ne by congruence. by apply H1.
  - simpl in *. apply elem_of_dom_2 in Hm. set_solver.
Qed.
Lemma only_reparent l root s h R u t p c :
  (∀ x, x ∈ inorder t → x ∈ l) → rep_below h t →
  only l root s (RbState h R u) → only l root s (RbState (reparent h t p c) R u).
Proof.
  destruct t as [|c' x a y]; simpl; [done|]. intros Hl (_ & [w Ha] & _).
  apply only_insert; [apply Hl; set_solver|eauto].
Qed.
Lemma only_root l root s h R u v :
  is_Some (R !! root) → only l root s (RbState h R u) → only l root s (RbState h (<[root := v]> R) u).
Proof.
  intros [m Hm] (H1 & H2 & H3 & H4). split; [done|]. split; [done|]. simpl in *.
  split; [intros r Hr; rewrite lookup_insert_ne by done; by apply H3|].
  apply elem_of_dom_2 in Hm. set_solver.
Qed.
End Only.
#[export] Hint Resolve only_refl : core.

(** ** Tactics *)

Lemma disjoint_list_sym (l l' : list Z) : l ## l' → l' ## l.
Proof. intros H x Hx Hy. by apply (H x). Qed.

(** The facts about disjointness that a list of parts gives. *)
Ltac expose H :=
  apply NoDup_apart in H; cbn [apart foldr sep part_addrs] in H; destruct_and? H.

(** The same for the parts [l], in order, of the tree of [H : NoDup (inorder _)]. *)
Ltac expose_tree H l :=
  let H' := fresh in
  pose proof H as H';
  repeat progress (rewrite ?inorder_plug_perm, ?inorder_branch, ?inorder_recolor, ?place_addrs_app in H';
    cbn [place_addrs inorder f_addr f_sib app] in H'; rewrite <- ?app_assoc in H'; cbn [app] in H');
  change (NoDup (flat l)) in H'; expose H'.

Ltac apart_tac :=
  rewrite ?inorder_recolor; first [ assumption | congruence | apply not_eq_sym; assumption | apply disjoint_list_sym; assumption
        | match goal with H : good_ptr ?a |- _ ≠ _ => unfold good_ptr in H; lia end ].

Ltac look :=
  repeat first [ rewrite lookup_insert_eq | rewrite lookup_insert_ne by apart_tac
               | rewrite lookup_reparent_ne by apart_tac
               | match goal with Hs : ∀ x, x ∉ _ → ?h !! x = _ |- ?h !! _ = _ => rewrite Hs by apart_tac end ];
  first [eassumption | reflexivity].

Ltac node_rep := autorewrite with sides;
  repeat first
    [ assumption
    | apply rep_branch; split; [assumption|]; split; [autorewrite with sides; look|]; split
    | apply rep_insert; [apart_tac|]
    | apply rep_place_insert; [apart_tac|]
    | apply rep_below_insert; [apart_tac|]
    | apply rep_reparent_same; [first [assumption | reflexivity]|assumption|]
    | apply rep_reparent; [assumption|]
    | apply rep_reparent_ne; [apart_tac|]
    | apply rep_below_reparent_ne; [apart_tac|]
    | apply rep_place_reparent; [apart_tac|]
    | match goal with
      | Hs : ∀ x, x ∉ _ → ?h !! x = _ |- rep ?h _ _ => eapply (rep_same _ _ _ _ _ Hs); [apart_tac|]
      | Hs : ∀ x, x ∉ _ → ?h !! x = _ |- rep_place ?h _ _ _ => eapply (rep_place_same _ _ _ _ _ _ Hs); [apart_tac|]
      end
    | eapply rep_rep_below; eassumption
    | exact I
    | progress autorewrite with sides ].

Ltac rb_step :=
  lazymatch goal with
  | |- wp (_ ≫= _) _ _ => apply wp_bind
  | |- wp (mret _) _ _ => apply wp_ret
  | |- wp (get_child _ _) _ _ => eapply wp_get_child; [look|]; autorewrite with sides
  | |- wp (set_child _ _ _) _ _ => eapply wp_set_child; [look|]; autorewrite with sides
  | |- wp (get_word _) _ _ => eapply wp_get_word; [look|]; autorewrite with sides
  | |- wp (set_word _ _) _ _ => eapply wp_set_word; [look|]; autorewrite with sides
  | |- wp (rb_parent _) _ _ => unfold rb_parent
  | |- wp (rb_color _) _ _ => unfold rb_color
  | |- wp (rb_is_red _) _ _ => unfold rb_is_red
  | |- wp (rb_is_black _) _ _ => unfold rb_is_black
  | |- wp (rb_set_parent _ _) _ _ => unfold rb_set_parent
  | |- wp (rb_set_black _) _ _ => unfold rb_set_black
  | |- wp (rb_set_parent_color _ _ _) _ _ => unfold rb_set_parent_color
  | |- wp (rb_red_parent _) _ _ => unfold rb_red_parent
  end.

Ltac only_tac :=
  repeat first
    [ apply only_refl
    | apply only_user
    | apply only_insert; [clear; solve [set_solver] | eexists; look | ]
    | apply only_reparent; [clear; solve [set_solver] | node_rep | ]
    | assumption ].

Section Helpers.
Context {A : Type}.
Implicit Types (h : rb_heap) (R : gmap Z Z) (u : A).

(** A callback that only changes the data of the user. *)
Definition benign (m : prog (rb_state A) unit) : Prop :=
  ∀ h R u, ∃ u', m (RbState h R u) = Some (tt, RbState h R u').

Lemma wp_benign m (Q : unit → rb_state A → Prop) h R u :
  benign m → (∀ u', Q tt (RbState h R u')) → wp m Q (RbState h R u).
Proof. intros Hm HQ. destruct (Hm h R u) as [u' Hu]. unfold wp. by rewrite Hu. Qed.

Lemma wp_seq {B} (m1 : prog (rb_state A) unit) (m2 : prog (rb_state A) B) Q s :
  wp (_ ← m1; m2) Q s → wp m1 (λ _, wp m2 Q) s.
Proof. unfold wp, mbind, prog_bind. by destruct (m1 s) as [[]|]. Qed.

Lemma wp_change_child k old new root (Q : unit → rb_state A → Prop) h R u :
  rep_place h 0 k old → R !! root = Some (top_ptr k old) → good_ptr old →
  old ∉ place_addrs k → NoDup (place_addrs k) →
  (∀ h' R', rep_place h' 0 k new → R' !! root = Some (top_ptr k new) →
     (∀ x, x ∉ place_addrs k → h' !! x = h !! x) →
     only (place_addrs k) root (RbState h R u) (RbState h' R' u) → Q tt (RbState h' R' u)) →
  wp (__rb_change_child old new (above 0 k) root) Q (RbState h R u).
Proof.
  intros Hk Hr Hg Ho Hn HQ. destruct k as [|[d c a s] k]; simpl.
  { eapply wp_set_root; [done|]. apply HQ; [done|by rewrite lookup_insert_eq|done|].
    apply only_root; [by exists old|apply only_refl]. }
  simpl in Hk. destruct Hk as (Hga & Ha & Hs & Hk). unfold __rb_change_child.
  replace (a =? 0) with false by (unfold good_ptr in Hga; lia).
  change (NoDup (flat [PNode a; PTree s; PPlace k])) in Hn. expose Hn. cbn [negb]. do 1 rb_step. eapply wp_get_child; [done|].
  assert (∀ n', n' = mk d (word (above 0 k) c) new (ptr s) →
    Q tt (RbState (<[a := n']> h) R u)) as HQ'.
  { intros n' ->. apply HQ; simpl.
    - split; [done|]. split; [look|]. split; node_rep.
    - done.
    - intros x Hx. apply lookup_insert_ne. set_solver.
    - only_tac. }
  destruct d; simpl.
  - rewrite Z.eqb_refl. eapply wp_set_child; [done|]. by apply HQ'.
  - replace (ptr s =? old) with false.
    2:{ symmetry. apply Z.eqb_neq. intros <-. destruct s; simpl in *; [unfold good_ptr in Hg; lia|set_solver]. }
    eapply wp_set_child; [done|]. by apply HQ'.
Qed.

(** __rb_rotate_set_parents: [new] takes the place of [old], which becomes its child. *)
Lemma wp_rotate_set_parents k old new c c' no nn root (Q : unit → rb_state A → Prop) h R u :
  rep_place h 0 k old → R !! root = Some (top_ptr k old) → good_ptr old → old ≠ new →
  h !! old = Some no → __rb_parent_color no = word (above 0 k) c → h !! new = Some nn →
  old ∉ place_addrs k → new ∉ place_addrs k → NoDup (place_addrs k) →
  (let h1 := <[old := node_with_word no (word new c')]>
               (<[new := node_with_word nn (word (above 0 k) c)]> h) in
   ∀ h' R', rep_place h' 0 k new → R' !! root = Some (top_ptr k new) →
     (∀ x, x ∉ place_addrs k → h' !! x = h1 !! x) →
     only (place_addrs k) root (RbState h1 R u) (RbState h' R' u) → Q tt (RbState h' R' u)) →
  wp (__rb_rotate_set_parents old new root (cval c')) Q (RbState h R u).
Proof.
  intros Hk Hr Ho Hne Hold Hw Hnew Hok Hnk Hnd HQ. unfold __rb_rotate_set_parents.
  assert (Hgp : good_or_null (above 0 k)) by (eapply rep_place_good; eauto).
  repeat rb_step. rewrite Hw, parent_of_word by done.
  eapply wp_change_child; eauto. node_rep.
Qed.

(** A subtree that is in order except for the place it hangs at, before and after
    this place is updated. *)
Lemma tree_at_plug k t root h1 h R u :
  rep_place h 0 k (ptr t) → R !! root = Some (top_ptr k (ptr t)) →
  (∀ x, x ∉ place_addrs k → h !! x = h1 !! x) →
  rep h1 (above 0 k) t → NoDup (inorder (plug k t)) → tree_at (RbState h R u) root (plug k t).
Proof.
  intros Hk Hr Hs Ht Hn. split; simpl; [|by rewrite ptr_plug|done].
  apply rep_plug. split; [done|]. eapply rep_frame; [|done]. intros x Hx. apply Hs.
  rewrite inorder_plug_perm in Hn. apply NoDup_app in Hn as (_ & Hn & _). auto.
Qed.

Lemma only_plug k t root (s s1 s2 : rb_state A) :
  only (inorder (plug k t)) root s s1 → only (place_addrs k) root s1 s2 →
  only (inorder (plug k t)) root s s2.
Proof. intros H1 H2. eapply only_trans; [done|]. eapply only_weaken; [|done]. set_solver. Qed.

(** ** Fuel: a path is not longer than the heap has nodes *)

Lemma rep_size h p t : rep h p t → NoDup (inorder t) → (length (inorder t) ≤ size h)%nat.
Proof.
  intros Hr Hn. rewrite <- size_dom, <- (size_list_to_set (C := gset Z)) by done.
  apply subseteq_size. intros a Ha%elem_of_list_to_set.
  apply elem_of_dom. by eapply rep_elem.
Qed.

Lemma place_length k : (length k ≤ length (place_addrs k))%nat.
Proof. induction k; simpl; rewrite ?length_app; lia. Qed.

Lemma path_length h p k t :
  rep h p (plug k t) → NoDup (inorder (plug k t)) → (length k + length (inorder t) ≤ size h)%nat.
Proof.
  intros Hr Hn. apply rep_size in Hr; [|done]. rewrite inorder_plug_perm, length_app in Hr.
  pose proof (place_length k). lia.
Qed.

Lemma wp_path_fuel (Q : nat → rb_state A → Prop) s : Q (S (size (rb_nodes s))) s → wp path_fuel Q s.
Proof. done. Qed.
End Helpers.
