(* ===== verification/RbTreeBalance.v ===== *)
(** * RbTreeBalance: the red-black balance

    The properties 1 to 5 in the comment of [lib/rbtree.c], for trees and for the
    places in them, and the bound on the height they give. *)

From S2P Require Import Prelude RbTree RbTreeShape.

(** [balanced t c n]: [t] has a root of color [c] (leaves are black), no red node has
    a red child and every path to a leaf has [n] black nodes. *)
Inductive balanced : tree → color → nat → Prop :=
  | balanced_leaf : balanced Leaf Black 0
  | balanced_red l a r n :
      balanced l Black n → balanced r Black n → balanced (Node Red l a r) Red n
  | balanced_black l a r cl cr n :
      balanced l cl n → balanced r cr n → balanced (Node Black l a r) Black (S n).

(** A tree as the interface gives it back: balanced with a black root. *)
Definition rb_tree (t : tree) : Prop := ∃ n, balanced t Black n.

(** [balanced_place k c n]: a subtree of black height [n] fits here; it may be red
    only if [c], the color above, is black.  Above the root is red. *)
Inductive balanced_place : place → color → nat → Prop :=
  | bplace_root n : balanced_place [] Red n
  | bplace_red d a s k n :
      balanced s Black n → balanced_place k Black n → balanced_place (Frame d Red a s :: k) Red n
  | bplace_black d a s cs c k n :
      balanced s cs n → balanced_place k c (S n) → balanced_place (Frame d Black a s :: k) Black n.

Lemma balanced_branch_red d x a y n :
  balanced (branch d Red x a y) Red n ↔ balanced x Black n ∧ balanced y Black n.
Proof. destruct d; simpl; (split; [inversion 1; subst; auto|intros []; by constructor]). Qed.
Lemma balanced_branch_black d x a y n :
  balanced (branch d Black x a y) Black (S n) ↔ ∃ c c', balanced x c n ∧ balanced y c' n.
Proof. destruct d; simpl; (split; [inversion 1; subst; eauto|intros (? & ? & []); by econstructor]). Qed.
Lemma balanced_color t c n : balanced t c n → root_color t = c.
Proof. by destruct 1. Qed.

Lemma balanced_branch_inv d c x a y c' n :
  balanced (branch d c x a y) c' n →
  c = Red ∧ c' = Red ∧ balanced x Black n ∧ balanced y Black n ∨
  c = Black ∧ c' = Black ∧ ∃ m c1 c2, n = S m ∧ balanced x c1 m ∧ balanced y c2 m.
Proof. destruct d; simpl; inversion 1; subst; eauto 15. Qed.

(** A tree that fits can be put there. *)
Lemma balanced_plug k t c ct n :
  balanced t ct n → balanced_place k c n → (c = Red → ct = Black) → rb_tree (plug k t).
Proof.
  intros Ht Hk. revert t ct Ht. induction Hk as [n|d a s k n Hs Hk IH|d a s cs c k n Hs Hk IH];
    intros t ct Ht Hc; simpl.
  - exists n. by rewrite Hc in Ht by done.
  - eapply (IH _ Red); [|done]. unfold grow. apply balanced_branch_red. split; [|done].
    by rewrite Hc in Ht by done.
  - eapply (IH _ Black); [|done]. unfold grow. apply balanced_branch_black. eauto.
Qed.

(** And every subtree of a balanced tree fits its place. *)
Lemma balanced_unplug k t :
  rb_tree (plug k t) →
  ∃ c ct n, balanced t ct n ∧ balanced_place k c n ∧ (c = Red → ct = Black).
Proof.
  revert t. induction k as [|[d cf a s] k IH]; intros t H; simpl in H.
  { destruct H as [n H]. exists Red, Black, n. by repeat constructor. }
  destruct (IH _ H) as (c & ct & n & Ht & Hk & Hc). unfold grow in Ht. simpl in Ht.
  apply balanced_branch_inv in Ht as [(-> & -> & Hx & Hs)|(-> & -> & m & c1 & c2 & -> & Hx & Hs)].
  - exists Red, Black, n. split; [done|]. split; [|done]. constructor; [done|].
    destruct c; [naive_solver|done].
  - exists Black, c1, m. split; [done|]. split; [|done]. by econstructor.
Qed.

(** A balanced tree in the place of a node and its children. *)
Lemma balanced_replug d c P s k n t :
  balanced_place (Frame d c P s :: k) c n → balanced t c (match c with Red => n | Black => S n end) →
  rb_tree (plug k t).
Proof. inversion 1; subst; intros; eapply balanced_plug; eauto; discriminate. Qed.

Lemma balanced_recolor_black t c n :
  balanced t c n → t ≠ Leaf → balanced (recolor Black t) Black (match c with Red => S n | Black => n end).
Proof. destruct 1; simpl; intros; [done|by econstructor..]. Qed.
Lemma balanced_recolor_red d x a y n :
  balanced x Black n → balanced y Black n → balanced (recolor Red (branch d Black x a y)) Red n.
Proof. intros. rewrite recolor_branch. by apply balanced_branch_red. Qed.

(** ** Height *)

Fixpoint height (t : tree) : nat :=
  match t with Leaf => 0 | Node _ l _ r => S (height l `max` height r) end.

Lemma balanced_height t c n :
  balanced t c n → (height t ≤ 2 * n + match c with Red => 1 | Black => 0 end)%nat.
Proof. induction 1; simpl in *; [lia|lia|]. destruct cl, cr; lia. Qed.

Lemma balanced_length t c n : balanced t c n → 2 ^ Z.of_nat n ≤ zlen (inorder t) + 1.
Proof.
  induction 1; simpl; [lia| |]; rewrite length_app; simpl.
  - lia.
  - rewrite Nat2Z.inj_succ, Z.pow_succ_r by lia. lia.
Qed.

Lemma rb_tree_height t : rb_tree t → Z.of_nat (height t) ≤ 2 * Z.log2 (zlen (inorder t) + 1).
Proof.
  intros [n H]. pose proof (balanced_height _ _ _ H) as Hh. simpl in Hh. apply balanced_length in H.
  apply Z.log2_le_mono in H. rewrite Z.log2_pow2 in H by lia. lia.
Qed.
