(* ===== verification/RbTreeInsert.v ===== *)
(** * RbTreeInsert: insertion into red-black trees

    The three cases of [__rb_insert] as changes of a tree in the heap, the loop by
    induction on the path to the root, and [rb_link_node] with [rb_insert_color]. *)

From S2P Require Import Prelude RbTree RbTreeShape RbTreeHeap RbTreeBalance.

Section Insert.
Context {A : Type}.
Implicit Types (h : rb_heap) (R : gmap Z Z) (u : A).
Variable rot : Z → Z → prog (rb_state A) unit.
Hypothesis rot_ok : ∀ old new, benign (rot old new).

Lemma insert_case3_ok d P w x y g t k q root (Q : unit → rb_state A → Prop) h R u :
  good_ptr P → h !! P = Some (mk d w (ptr x) (ptr y)) → rep h P x → rep h P y → root_color y = Black →
  good_ptr g → h !! g = Some (mk d (word (above 0 k) Black) q (ptr t)) → rep h g t → rep_place h 0 k g →
  R !! root = Some (top_ptr k g) →
  let T := plug k (branch d Black x P (branch d Red y g t)) in
  NoDup (inorder T) →
  (∀ s', tree_at s' root T → only (inorder T) root (RbState h R u) s' → Q tt s') →
  wp (insert_case3 rot d P g (ptr y) root) Q (RbState h R u).
Proof.
  intros HgP HP Hx Hy Hc Hg Hlg Ht Hk Hr T HT HQ. unfold insert_case3.
  unfold T in HT. expose_tree HT [PNode P; PTree x; PNode g; PTree y; PTree t; PPlace k].
  do 4 rb_step. rb_step. apply (wp_reparent y g Black); [node_rep|].
  rb_step. eapply (wp_rotate_set_parents k g P Black Red).
  all: try solve [look | node_rep | autorewrite with sides; done].
  intros h1 h' R' Hk' Hr' Hs' Ho'. apply wp_benign; [apply rot_ok|]. intros u'. apply HQ.
  - eapply tree_at_plug; autorewrite with sides; try done. unfold h1. node_rep.
  - eapply only_plug; [|done]. unfold h1. only_tac.
Qed.


(** The uncle is black and the node on the outer side. *)
Lemma insert_outer_ok d P s0 g t N k root (Q : option (Z * Z) → rb_state A → Prop) h R u :
  rep h 0 (plug (Frame d Red P s0 :: Frame d Black g t :: k) N) → R !! root = Some (top_ptr k g) →
  root_color t = Black → root_color s0 = Black → N ≠ Leaf →
  let T := plug k (branch d Black N P (branch d Red s0 g t)) in
  NoDup (inorder T) →
  (∀ s', tree_at s' root T → only (inorder T) root (RbState h R u) s' → Q None s') →
  wp (insert_side rot d (ptr N) P g (ptr t) root) Q (RbState h R u).
Proof.
  intros Hrep Hr Ht Hs HN T HT HQ. unfold T in HT.
  apply rep_plug in Hrep as [(HgP & HP & HsP & Hgg & Hg & Htg & Hk) HNP]. simpl in *.
  expose_tree HT [PNode P; PTree N; PNode g; PTree s0; PTree t; PPlace k].
  unfold insert_side. rb_step. eapply wp_red_not_null; eauto. rewrite Ht. simpl.
  repeat rb_step.
  replace (ptr N =? ptr s0) with false.
  2:{ symmetry. apply Z.eqb_neq. destruct N as [|? ? n ?], s0; simpl in *; [done..|destruct HNP as [[] _]; lia|].
      intros ->. set_solver. }
  repeat rb_step. eapply insert_case3_ok; eauto.
Qed.

(** The uncle is black and the node on the inner side. *)
Lemma insert_inner_ok d P s0 g t x n y k root (Q : option (Z * Z) → rb_state A → Prop) h R u :
  rep h 0 (plug (Frame (opp d) Red P s0 :: Frame d Black g t :: k) (branch d Red x n y)) →
  R !! root = Some (top_ptr k g) →
  root_color t = Black → root_color x = Black → root_color y = Black →
  let T := plug k (branch d Black (branch d Red s0 P x) n (branch d Red y g t)) in
  NoDup (inorder T) →
  (∀ s', tree_at s' root T → only (inorder T) root (RbState h R u) s' → Q None s') →
  wp (insert_side rot d n P g (ptr t) root) Q (RbState h R u).
Proof.
  intros Hrep Hr Ht Hx Hy T HT HQ. unfold T in HT.
  apply rep_plug in Hrep as [(HgP & HP & HsP & Hgg & Hg & Htg & Hk) HN]. simpl in *.
  apply rep_branch in HN as (Hgn & Hn & HNx & HNy). autorewrite with sides in HP.
  expose_tree HT [PNode n; PNode P; PTree s0; PTree x; PNode g; PTree y; PTree t; PPlace k].
  unfold insert_side. rb_step. eapply wp_red_not_null; eauto. rewrite Ht. simpl.
  repeat rb_step. rewrite Z.eqb_refl. unfold insert_case2.
  do 7 rb_step. apply (wp_reparent x P Black); [node_rep|]. repeat rb_step.
  apply wp_benign; [apply rot_ok|]. intros u'. repeat rb_step.
  eapply (insert_case3_ok d n _ (branch d Red s0 P x)); autorewrite with sides.
  all: try solve [look | node_rep | done].
  intros s' Ht' Ho'. apply HQ; [done|]. eapply only_trans; [|exact Ho']. only_tac.
Qed.

(** The uncle is red. *)
Lemma insert_flip_ok d d' P s0 g t N k root (Q : option (Z * Z) → rb_state A → Prop) h R u :
  rep h 0 (plug (Frame d' Red P s0 :: Frame d Black g t :: k) N) → R !! root = Some (top_ptr k g) →
  root_color t = Red →
  let T := plug k (branch d Red (branch d' Black N P s0) g (recolor Black t)) in
  NoDup (inorder T) →
  (∀ h', tree_at (RbState h' R u) root T → only (inorder T) root (RbState h R u) (RbState h' R u) →
     Q (Some (g, above 0 k)) (RbState h' R u)) →
  wp (insert_side rot d (ptr N) P g (ptr t) root) Q (RbState h R u).
Proof.
  intros Hrep Hr Ht T HT HQ. unfold T in HT.
  apply rep_plug in Hrep as [(HgP & HP & HsP & Hgg & Hg & Htg & Hk) HNP]. simpl in *.
  assert (Hgp : good_or_null (above 0 k)) by (eapply rep_place_good; eauto).
  expose_tree HT [PNode g; PNode P; PTree N; PTree s0; PTree t; PPlace k].
  unfold insert_side. rb_step. eapply wp_red_not_null; eauto. rewrite Ht. simpl. unfold insert_case1.
  do 2 rb_step. apply (wp_reparent_node t g Black); [by destruct t|node_rep|]. repeat rb_step.
  rewrite parent_of_word by done. repeat rb_step. apply HQ.
  - eapply tree_at_plug; autorewrite with sides; try done; node_rep.
  - only_tac.
Qed.

(** Which side the parent is on. *)
Lemma insert_which d P t g w (Q : option (Z * Z) → rb_state A → Prop) n root h R u :
  h !! g = Some (mk d w P (ptr t)) → good_ptr P → P ∉ inorder t →
  wp (insert_side rot d n P g (ptr t) root) Q (RbState h R u) →
  wp (get_child Rt g) (λ tmp,
    wp (if negb (P =? tmp) then insert_side rot Lt n P g tmp root
        else tmp ← get_child Lt g; insert_side rot Rt n P g tmp root) Q) (RbState h R u).
Proof.
  intros Hg HgP HPt HQ. rb_step. destruct d; simpl.
  - replace (P =? ptr t) with false; [done|]. symmetry. apply Z.eqb_neq. intros ->.
    destruct t; simpl in *; [unfold good_ptr in HgP; lia|set_solver].
  - rewrite Z.eqb_refl. simpl. by repeat rb_step.
Qed.

(** One round of the loop below a red parent: either a balanced tree, or the same
    situation two levels up. *)
Lemma insert_round d d' P s0 g t l n r k c m root (Q : option (Z * Z) → rb_state A → Prop) h R u :
  let k0 := Frame d' Red P s0 :: Frame d Black g t :: k in
  let N := Node Red l n r in
  balanced N Red m → balanced s0 Black m → root_color t = c → balanced t c m →
  tree_at (RbState h R u) root (plug k0 N) →
  (∀ s' t', balanced t' Black (S m) → inorder (plug k t') = inorder (plug k0 N) →
     tree_at s' root (plug k t') → only (inorder (plug k t')) root (RbState h R u) s' → Q None s') →
  (∀ h' l' r', balanced (Node Red l' g r') Red (S m) →
     inorder (plug k (Node Red l' g r')) = inorder (plug k0 N) →
     tree_at (RbState h' R u) root (plug k (Node Red l' g r')) →
     only (inorder (plug k (Node Red l' g r'))) root (RbState h R u) (RbState h' R u) →
     Q (Some (g, above 0 k)) (RbState h' R u)) →
  wp (insert_side rot d n P g (ptr t) root) Q (RbState h R u).
Proof.
  intros k0 N Hb Hs Hct Ht [Hrep Hr Hn] Hdone Hup. cbn [rb_nodes rb_roots] in Hrep, Hr. rewrite ptr_plug in Hr. simpl in Hr.
  unfold k0, N in Hn. simpl in Hn. inversion Hb as [|? ? ? ? Hl Hrr|]; subst. destruct (root_color t) eqn:Hct.
  - (* red uncle *)
    assert (Hio : inorder (plug k (branch d Red (branch d' Black N P s0) g (recolor Black t))) = inorder (plug k0 N)).
    { unfold k0. simpl. apply inorder_plug_eq. unfold grow. by destruct d, d'; simpl; rewrite ?inorder_recolor. }
    eapply (insert_flip_ok d d' P s0 g t N); [done..|by rewrite Hio|]. intros h' Hta Hon.
    assert (Hb' : balanced (branch d Red (branch d' Black N P s0) g (recolor Black t)) Red (S m)).
    { apply balanced_branch_red. split; [apply balanced_branch_black; eauto|].
      inversion Ht; subst; simpl in *; try done. by econstructor. }
    destruct d; eapply Hup; eauto.
  - destruct (decide (d' = d)) as [->|Hd].
    + (* outer *)
      assert (Hio : inorder (plug k (branch d Black N P (branch d Red s0 g t))) = inorder (plug k0 N)).
      { unfold k0. simpl. apply inorder_plug_eq. unfold grow. by destruct d; simpl; rewrite <- ?app_assoc. }
      eapply (insert_outer_ok d P s0 g t N); [done|done|done|by apply (balanced_color _ _ m)|done|by rewrite Hio|].
      intros s' Hta Hon. refine (Hdone _ _ _ Hio Hta Hon).
      apply balanced_branch_black. exists Red, Red. split; [done|]. by apply balanced_branch_red.
    + (* inner *)
      assert (d' = opp d) as -> by by destruct d, d'.
      destruct (branch_cases N) as [|Hbr]; [done|]. destruct (Hbr d) as (cN & x & a & y & HN).
      assert (cN = Red ∧ a = n ∧ balanced x Black m ∧ balanced y Black m) as (-> & -> & Hx & Hy).
      { destruct d; injection HN as <- <- <- <-; auto. }
      assert (Hio : inorder (plug k (branch d Black (branch d Red s0 P x) n (branch d Red y g t))) = inorder (plug k0 N)).
      { unfold k0. simpl. apply inorder_plug_eq. unfold grow. rewrite HN. destruct d; simpl; by repeat (rewrite <- ?app_assoc; simpl). }
      eapply (insert_inner_ok d P s0 g t x n y); [by rewrite <- HN|done|done|by apply (balanced_color _ _ m)..|by rewrite Hio|].
      intros s' Hta Hon. refine (Hdone _ _ _ Hio Hta Hon).
      apply balanced_branch_black. exists Red, Red. by split; apply balanced_branch_red.
Qed.

Lemma insert_loop_ok fuel : ∀ k l n r ck m root (Q : unit → rb_state A → Prop) h R u,
  balanced (Node Red l n r) Red m → balanced_place k ck m →
  tree_at (RbState h R u) root (plug k (Node Red l n r)) → (length k < fuel)%nat →
  (∀ s' T', tree_at s' root T' → rb_tree T' → inorder T' = inorder (plug k (Node Red l n r)) →
     only (inorder T') root (RbState h R u) s' → Q tt s') →
  wp (insert_loop rot fuel n (above 0 k) root) Q (RbState h R u).
Proof.
  induction fuel as [|fuel IH]; intros k l n r ck m root Q h R u Hb Hk [Hrep Hr Hn] Hf HQ; [lia|].
  cbn [rb_nodes rb_roots] in Hrep, Hr. cbn [insert_loop]. rewrite ptr_plug in Hr. simpl in Hr.
  destruct Hk as [m|d' P s0 k m Hs Hk|d' P s0 cs c k m Hs Hk].
  - (* the root *)
    simpl in *. destruct Hrep as (Hg & Hnn & Hl & Hrr). repeat rb_step.
    apply (HQ _ (Node Black l n r)); [split; simpl; try done|by inversion Hb; subst; eexists; econstructor|done|].
    + change (NoDup (inorder (branch Lt Black l n r))) in Hn.
      expose_tree Hn [PNode n; PTree l; PTree r].
      split; [done|]. split; [by rewrite lookup_insert_eq|]. split; node_rep.
    + apply only_insert; [set_solver|by eexists|done].
  - (* a red parent *)
    inversion Hk as [| |d g t cs c k2 m' Ht Hk2]; subst.
    pose proof Hrep as Hrep'. apply rep_plug in Hrep' as [(HgP & HP & HsP & Hgg & Hg & Htg & Hk') HN].
    simpl in HP, Hg, Hr. simpl above. replace (P =? 0) with false by (unfold good_ptr in HgP; lia).
    repeat rb_step. rewrite black_of_word by auto. simpl. do 2 rb_step. eapply wp_get_word; [done|].
    rewrite word_mk, word_red. apply wp_bind. eapply wp_mono; [|intros tmp s' H; apply wp_bind, H].
    eapply insert_which; [done..| |].
    { intros HPt. expose_tree Hn [PTree l; PNode n; PTree r; PNode P; PTree s0; PNode g; PTree t; PPlace k2]. done. }
    eapply insert_round; [done|done|by eapply balanced_color|done|by split; rewrite ?ptr_plug| |].
    + intros s' t' Hb' Hio Hta Hon. apply wp_ret. eapply HQ; eauto. by eapply balanced_plug.
    + intros h' l' r' Hb' Hio Hta Hon. eapply IH; [done|done|done|simpl in Hf; lia|].
      intros s' T' Hta' Hrb Hio' Hon'. eapply HQ; eauto; [congruence|].
      eapply only_trans; [|done]. by rewrite Hio'.
  - (* a black parent *)
    pose proof Hrep as Hrep'. apply rep_plug in Hrep' as [(HgP & HP & _ & HK) _].
    simpl above. replace (P =? 0) with false by (unfold good_ptr in HgP; lia).
    repeat rb_step. rewrite black_of_word by (eapply rep_place_good; eauto). simpl. apply wp_ret.
    apply (HQ _ (plug (Frame d' Black P s0 :: k) (Node Red l n r))); [split; by rewrite ?ptr_plug| |done|done].
    eapply balanced_plug; [done|by econstructor|done].
Qed.

Definition slot_of (root : Z) (k : place) : rb_slot :=
  match k with [] => RootSlot root | Frame d _ a _ :: _ => ChildSlot d a end.

(** Linking a node at an empty place. *)
Lemma rb_link_node_ok k n root (Q : unit → rb_state A → Prop) h R u :
  tree_at (RbState h R u) root (plug k Leaf) → good_ptr n → n ∉ inorder (plug k Leaf) → is_Some (h !! n) →
  (∀ h' R', tree_at (RbState h' R' u) root (plug k (Node Red Leaf n Leaf)) →
     only (inorder (plug k (Node Red Leaf n Leaf))) root (RbState h R u) (RbState h' R' u) →
     Q tt (RbState h' R' u)) →
  wp (rb_link_node n (above 0 k) (slot_of root k)) Q (RbState h R u).
Proof.
  intros [Hrep Hr Hn] Hg Hnn [[w0 r0 l0] Hnode] HQ. simpl in Hrep, Hr. rewrite ptr_plug in Hr.
  assert (Hn' : NoDup (inorder (plug k (Node Red Leaf n Leaf)))).
  { rewrite inorder_plug_perm in Hn, Hnn |- *. simpl in *. by apply NoDup_cons. }
  apply rep_plug in Hrep as [Hk _]. simpl in Hk. expose_tree Hn' [PNode n; PPlace k].
  unfold rb_link_node. repeat rb_step. simpl.
  set (h1 := <[n := _]> (<[n := _]> (<[n := _]> h))).
  assert (Hh1 : h1 !! n = Some (RbNode (word (above 0 k) Red) 0 0)).
  { unfold h1. by rewrite lookup_insert_eq, word_red. }
  assert (Hk1 : rep_place h1 0 k 0) by (unfold h1; node_rep).
  assert (Ho1 : only (inorder (plug k (Node Red Leaf n Leaf))) root (RbState h R u) (RbState h1 R u)).
  { unfold h1. only_tac. }
  clearbody h1. clear Hk Hnode. destruct k as [|[d c a s] k]; simpl.
  - eapply wp_set_root; [done|]. apply HQ.
    + split; simpl; [done|by rewrite lookup_insert_eq|done].
    + apply only_root; [by eexists|done].
  - destruct Hk1 as (Hga & Ha & Hs & Hk). expose_tree Hn' [PNode n; PNode a; PTree s; PPlace k].
    eapply wp_set_child; [done|]. rewrite with_child_mk. apply HQ.
    + eapply (tree_at_plug (Frame d c a s :: k)); simpl; [|done|done| |done].
      * split; [done|]. split; [look|]. split; node_rep.
      * split; [done|]. split; [look|done].
    + apply only_insert; [clear; set_solver|by eexists|done].
Qed.

Lemma rb_insert_ok k n root (Q : unit → rb_state A → Prop) s :
  tree_at s root (plug k Leaf) → rb_tree (plug k Leaf) →
  good_ptr n → n ∉ inorder (plug k Leaf) → is_Some (rb_nodes s !! n) →
  (∀ s' T', tree_at s' root T' → rb_tree T' → inorder T' = before k ++ n :: after k →
     only (inorder T') root s s' → Q tt s') →
  wp (_ ← rb_link_node n (above 0 k) (slot_of root k); __rb_insert rot n root) Q s.
Proof.
  destruct s as [h R u]. intros Hta Hrb Hg Hnn Hnode HQ. apply wp_bind.
  eapply rb_link_node_ok; [done..|]. intros h' R' Hta' Ho'.
  destruct (balanced_unplug _ _ Hrb) as (c & ct & m & Hm & Hk & _). inversion Hm; subst.
  pose proof Hta' as [Hrep _ Hn']. simpl in Hrep. pose proof (path_length _ _ _ _ Hrep Hn') as Hlen.
  apply rep_plug in Hrep as [_ (_ & Hw & _)]. unfold __rb_insert. rb_step. rb_step.
  eapply wp_get_word; [done|]. simpl. rewrite word_red. rb_step. apply wp_path_fuel.
  eapply insert_loop_ok; [by repeat constructor|done|done|simpl in Hlen |- *; lia|].
  intros s' T' HT' Hrb' Hio Hon. apply (HQ _ T'); [done..| |].
  - by rewrite Hio, inorder_plug.
  - eapply only_trans; [|done]. by rewrite Hio.
Qed.
End Insert.
