(* ===== verification/RbTreeErase.v ===== *)
(** * RbTreeErase: rebalancing after a removal

    The four cases of [____rb_erase_color] as changes of a tree in the heap, and the
    loop by induction on the path to the root. *)

From S2P Require Import Prelude RbTree RbTreeShape RbTreeHeap RbTreeBalance.

(** ** The trees the cases lead to *)

Section Trees.
Variables (d : side) (P : Z) (c : color) (x sl : tree) (S : Z) (sr : tree) (k : place) (m : nat).
Let k0 := Frame d c P (branch d Black sl S sr) :: k.
Hypothesis Hx : balanced x Black m.
Hypothesis Hk : balanced_place k0 c (Datatypes.S m).

Lemma case_children : ∃ c1 c2, balanced sl c1 m ∧ balanced sr c2 m.
Proof.
  clear Hx. assert (∃ cs, balanced (branch d Black sl S sr) cs (Datatypes.S m)) as [cs Hs] by (inversion Hk; eauto).
  apply balanced_branch_inv in Hs as [[]|(_ & _ & m' & c1 & c2 & [= ->] & H)]; [done|eauto].
Qed.

Lemma case4_tree c1 : balanced sl c1 m → balanced sr Red m →
  let T := plug k (branch d c (branch d Black x P sl) S (recolor Black sr)) in
  rb_tree T ∧ inorder T = inorder (plug k0 x).
Proof.
  intros Hl Hr. split.
  - eapply balanced_replug; [exact Hk|]. apply balanced_recolor_black in Hr; [|by inversion Hr].
    destruct c; [apply balanced_branch_red|apply balanced_branch_black; do 2 eexists];
      (split; [|done]); apply balanced_branch_black; eauto.
  - unfold k0. cbn [plug]. apply inorder_plug_eq. unfold grow.
    destruct d; simpl; rewrite inorder_recolor; by repeat (rewrite <- ?app_assoc; simpl).
Qed.

Lemma case34_tree a N b : sl = branch d Red a N b → balanced sl Red m → balanced sr Black m →
  let T := plug k (branch d c (branch d Black x P a) N (branch d Black b S sr)) in
  rb_tree T ∧ inorder T = inorder (plug k0 x) ∧ root_color b = Black.
Proof.
  intros -> Hl Hr. apply balanced_branch_red in Hl as [Ha Hb]. split; [|split].
  - eapply balanced_replug; [exact Hk|].
    destruct c; [apply balanced_branch_red|apply balanced_branch_black; do 2 eexists];
      (split; apply balanced_branch_black; eauto).
  - unfold k0. cbn [plug]. apply inorder_plug_eq. unfold grow. destruct d; simpl; by repeat (rewrite <- ?app_assoc; simpl).
  - by eapply balanced_color.
Qed.

Lemma case2_tree : balanced sl Black m → balanced sr Black m →
  let t := branch d Black x P (recolor Red (branch d Black sl S sr)) in
  balanced t Black (Datatypes.S m) ∧ inorder (plug k t) = inorder (plug k0 x) ∧
  (c = Red ∨ k = [] → rb_tree (plug k t)).
Proof.
  intros Hl Hr t. assert (balanced t Black (Datatypes.S m)) as Hb.
  { apply balanced_branch_black. eauto using balanced_recolor_red. }
  split; [done|]. split; [unfold k0; cbn [plug]; apply inorder_plug_eq; unfold grow, t; by destruct d|].
  intros [-> | ->]; [|by eexists]. inversion Hk; subst. by eapply balanced_plug.
Qed.
End Trees.

Section EraseColor.
Context {A : Type}.
Implicit Types (h : rb_heap) (R : gmap Z Z) (u : A).
Variable rot : Z → Z → prog (rb_state A) unit.
Hypothesis rot_ok : ∀ old new, benign (rot old new).

Lemma erase_case4_ok d P cp x S sl sr wS k root (Q : unit → rb_state A → Prop) h R u :
  good_ptr P → h !! P = Some (mk d (word (above 0 k) cp) (ptr x) S) → rep h P x →
  good_ptr S → h !! S = Some (mk d wS (ptr sl) (ptr sr)) → rep h S sl →
  sr ≠ Leaf → rep_below h sr → rep_place h 0 k P → R !! root = Some (top_ptr k P) →
  let T := plug k (branch d cp (branch d Black x P sl) S (recolor Black sr)) in
  NoDup (inorder T) →
  (∀ s', tree_at s' root T → only (inorder T) root (RbState h R u) s' → Q tt s') →
  wp (erase_case4 rot d P S (ptr sr) root) Q (RbState h R u).
Proof.
  intros HgP HP Hx HgS HS Hsl Hne Hsr Hk Hr T HT HQ. unfold T in HT.
  expose_tree HT [PNode S; PNode P; PTree x; PTree sl; PTree sr; PPlace k].
  unfold erase_case4. do 7 rb_step. apply (wp_reparent_node sr S Black); [done|node_rep|].
  rb_step. eapply (wp_reparent_keep sl S P); [node_rep|by auto|].
  rb_step. eapply (wp_rotate_set_parents k P S cp Black).
  all: try solve [look | node_rep | autorewrite with sides; done].
  intros h1 h' R' Hk' Hr' Hs' Ho'. apply wp_benign; [apply rot_ok|]. intros u'. apply HQ.
  - eapply tree_at_plug; autorewrite with sides; try done. unfold h1. node_rep.
  - eapply only_plug; [|done]. unfold h1. only_tac.
Qed.

(** Case 3 and then case 4: the near child [N] of the sibling is red, the far one
    black. *)
Lemma erase_case34_ok d P cp x a N b S sr wS k root (Q : unit → rb_state A → Prop) h R u :
  good_ptr P → h !! P = Some (mk d (word (above 0 k) cp) (ptr x) S) → rep h P x →
  good_ptr S → h !! S = Some (mk d wS N (ptr sr)) → rep h S (branch d Red a N b) → rep h S sr →
  root_color b = Black → rep_place h 0 k P → R !! root = Some (top_ptr k P) →
  let T := plug k (branch d cp (branch d Black x P a) N (branch d Black b S sr)) in
  NoDup (inorder T) →
  (∀ s', tree_at s' root T → only (inorder T) root (RbState h R u) s' → Q tt s') →
  wp (_ ← erase_case3 rot d P S N; erase_case4 rot d P N S root) Q (RbState h R u).
Proof.
  intros HgP HP Hx HgS HS HN Hsr Hb Hk Hr T HT HQ. unfold T in HT.
  apply rep_branch in HN as (HgN & HN & Ha & Hrb).
  expose_tree HT [PNode N; PNode P; PTree x; PTree a; PNode S; PTree b; PTree sr; PPlace k].
  unfold erase_case3. do 10 rb_step. apply (wp_reparent b S Black); [node_rep|].
  apply wp_benign; [apply rot_ok|]. intros u'.
  replace (erase_case4 rot d P N S root) with (erase_case4 rot d P N (ptr (branch d Black b S sr)) root)
    by by rewrite ptr_branch.
  eapply (erase_case4_ok d P cp x N a (branch d Black b S sr)); autorewrite with sides.
  all: try solve [look | node_rep | done | by destruct d].
  - apply rep_below_branch. split; [done|]. split; [eexists; look|]. split; node_rep.
  - intros s' Ht' Ho'. apply HQ; [done|]. eapply only_trans; [|exact Ho']. only_tac.
Qed.

Lemma erase_case1_ok d P x S sl sr k root (Q : Z → rb_state A → Prop) h R u :
  rep h 0 (plug (Frame d Black P (branch d Red sl S sr) :: k) x) → R !! root = Some (top_ptr k P) →
  sl ≠ Leaf → root_color sl = Black →
  let T := plug (Frame d Red P sl :: Frame d Black S sr :: k) x in
  NoDup (inorder T) →
  (∀ h' R' u', tree_at (RbState h' R' u') root T →
     only (inorder T) root (RbState h R u) (RbState h' R' u') → Q (ptr sl) (RbState h' R' u')) →
  wp (erase_case1 rot d P S root) Q (RbState h R u).
Proof.
  intros Hrep Hr Hne Hsl T HT HQ. unfold T in HT.
  apply rep_plug in Hrep as [(HgP & HP & Hs & Hk) Hx]. simpl in *.
  apply rep_branch in Hs as (HgS & HS & HSl & HSr). rewrite ptr_branch in HP.
  change (NoDup (inorder (plug k (branch d Black (branch d Red x P sl) S sr)))) in HT.
  expose_tree HT [PNode S; PNode P; PTree x; PTree sl; PTree sr; PPlace k].
  unfold erase_case1. do 7 rb_step. apply (wp_reparent_node sl P Black); [done|node_rep|].
  rb_step. eapply (wp_rotate_set_parents k P S Black Red).
  all: try solve [look | node_rep | autorewrite with sides; done].
  intros h1 h' R' Hk' Hr' Hs' Ho'. rb_step. apply wp_benign; [apply rot_ok|]. intros u'. apply wp_ret.
  change T with (plug k (branch d Black (branch d Red x P sl) S sr)) in HQ. apply HQ.
  - eapply tree_at_plug; autorewrite with sides; try done. unfold h1. node_rep.
  - eapply only_plug; [|done]. unfold h1. only_tac.
Qed.

Lemma erase_case2_ok d P cp x s k root (Q : option (Z * Z) → rb_state A → Prop) h R u :
  rep h 0 (plug (Frame d cp P s :: k) x) → R !! root = Some (top_ptr k P) → s ≠ Leaf →
  let T := plug k (branch d Black x P (recolor Red s)) in
  NoDup (inorder T) →
  (∀ h', tree_at (RbState h' R u) root T → only (inorder T) root (RbState h R u) (RbState h' R u) →
     Q (match cp, k with Black, f :: _ => Some (P, f_addr f) | _, _ => None end) (RbState h' R u)) →
  wp (erase_case2 P (ptr s)) Q (RbState h R u).
Proof.
  intros Hrep Hr Hne T HT HQ. unfold T in HT.
  apply rep_plug in Hrep as [(HgP & HP & Hs & Hk) Hx]. simpl in *.
  assert (Hgp : good_or_null (above 0 k)) by (eapply rep_place_good; eauto).
  expose_tree HT [PNode P; PTree x; PTree s; PPlace k].
  unfold erase_case2. rb_step. apply (wp_reparent_node s P Red); [done|node_rep|]. repeat rb_step.
  rewrite red_of_word by done. destruct cp; simpl; repeat rb_step.
  - rewrite word_blacken. apply HQ; [|only_tac].
    eapply tree_at_plug; autorewrite with sides; try done; node_rep.
  - rewrite parent_of_word by done.
    replace (if negb (above 0 k =? 0) then Some (P, above 0 k) else None)
      with (match k with [] => None | f :: _ => Some (P, f_addr f) end).
    2:{ destruct k as [|[d' c' a' s'] k]; simpl in *; [done|]. destruct Hk as [[] _].
        by replace (a' =? 0) with false by lia. }
    apply HQ; [|only_tac]. eapply tree_at_plug; autorewrite with sides; try done; node_rep.
Qed.

(** The cases of a black sibling [branch d Black sl S sr]: a balanced tree, or the
    deficit one level up. *)
Lemma erase_black_ok d P c x sl S sr k m root (Q : option (Z * Z) → rb_state A → Prop) h R u :
  let k0 := Frame d c P (branch d Black sl S sr) :: k in
  balanced x Black m → balanced_place k0 c (Datatypes.S m) →
  tree_at (RbState h R u) root (plug k0 x) →
  (∀ s' T', tree_at s' root T' → rb_tree T' → inorder T' = inorder (plug k0 x) →
     only (inorder T') root (RbState h R u) s' → Q None s') →
  (∀ h' t', c = Black → k ≠ [] → ptr t' = P → balanced t' Black (Datatypes.S m) →
     tree_at (RbState h' R u) root (plug k t') → inorder (plug k t') = inorder (plug k0 x) →
     only (inorder (plug k t')) root (RbState h R u) (RbState h' R u) →
     Q (Some (P, above 0 k)) (RbState h' R u)) →
  wp (erase_black rot d P S root) Q (RbState h R u).
Proof.
  intros k0 Hx Hk [Hrep Hr Hn] Hdone Hup. cbn [rb_nodes rb_roots] in Hrep, Hr.
  rewrite ptr_plug in Hr. simpl in Hr. edestruct case_children as (c1 & c2 & Hl & Hrr); [exact Hk|].
  pose proof Hrep as Hrep'. apply rep_plug in Hrep' as [(HgP & HP & Hs & Hrk) HxP].
  rewrite ptr_branch in HP. apply rep_branch in Hs as (HgS & HS & HSl & HSr).
  unfold erase_black. do 2 rb_step. rb_step. eapply wp_black_or_null; [done|auto|].
  rewrite (balanced_color _ _ _ Hrr). destruct c2; simpl.
  { edestruct case4_tree as [Hrb Hio]; [exact Hx|exact Hk|done..|].
    rb_step. eapply (erase_case4_ok d P c x S sl sr); eauto using rep_rep_below.
    { by inversion Hrr. } { by rewrite Hio. }
    intros s' Hta Hon. by eapply Hdone. }
  do 2 rb_step. rb_step. eapply wp_black_or_null; [done|auto|].
  rewrite (balanced_color _ _ _ Hl). destruct c1; simpl.
  - destruct (branch_cases sl) as [->|Hbr]; [by inversion Hl|]. destruct (Hbr d) as (c' & a & N & b & Hsl).
    assert (c' = Red) as -> by (rewrite Hsl in Hl; by destruct d; inversion Hl).
    edestruct case34_tree as (Hrb & Hio & Hb); [exact Hx|exact Hk|done..|].
    rewrite Hsl, ptr_branch in HS |- *. rb_step. eapply wp_mono; [|intros ? ? H; apply wp_bind, H].
    apply wp_seq. eapply (erase_case34_ok d P c x a N b S sr); eauto; [by rewrite <- Hsl|by rewrite Hio|].
    intros s' Hta Hon. by eapply Hdone.
  - edestruct case2_tree as (Hb & Hio & Hrb); [exact Hx|exact Hk|done..|].
    rewrite <- (ptr_branch d Black sl S sr).
    eapply (erase_case2_ok d P c x (branch d Black sl S sr) k); [done|done|by destruct d|by rewrite Hio|].
    intros h' Hta Hon. destruct c; [|destruct k as [|f k]]; [eapply Hdone; eauto..|].
    eapply Hup; eauto. by rewrite ptr_branch.
Qed.

Lemma erase_side_ok d P c x s k m root (Q : option (Z * Z) → rb_state A → Prop) h R u :
  let k0 := Frame d c P s :: k in
  balanced x Black m → balanced_place k0 c (Datatypes.S m) →
  tree_at (RbState h R u) root (plug k0 x) →
  (∀ s' T', tree_at s' root T' → rb_tree T' → inorder T' = inorder (plug k0 x) →
     only (inorder T') root (RbState h R u) s' → Q None s') →
  (∀ h' t', c = Black → k ≠ [] → ptr t' = P → balanced t' Black (Datatypes.S m) →
     tree_at (RbState h' R u) root (plug k t') → inorder (plug k t') = inorder (plug k0 x) →
     only (inorder (plug k t')) root (RbState h R u) (RbState h' R u) →
     Q (Some (P, above 0 k)) (RbState h' R u)) →
  wp (erase_side rot d P (ptr s) root) Q (RbState h R u).
Proof.
  intros k0 Hx Hk Hta Hdone Hup. destruct Hta as [Hrep Hr Hn] eqn:E. clear E. cbn [rb_nodes rb_roots] in Hrep, Hr.
  rewrite ptr_plug in Hr. simpl in Hr.
  assert (∃ cs, balanced s cs (Datatypes.S m)) as [cs Hs] by (inversion Hk; eauto).
  destruct (branch_cases s) as [->|Hbr]; [by inversion Hs|]. destruct (Hbr d) as (c' & sl & S & sr & ->).
  pose proof Hrep as Hrep'. apply rep_plug in Hrep' as [(HgP & HP & HrS & Hrk) HxP].
  pose proof HrS as (HgS & HS & HSl & HSr)%rep_branch. rewrite ptr_branch.
  unfold erase_side. do 2 rb_step. rb_step. rb_step. rewrite red_of_word by auto.
  destruct c'; simpl.
  - (* a red sibling *)
    apply balanced_branch_inv in Hs as [(_ & -> & Hbl & Hbr')|([=] & _)].
    assert (c = Black) as -> by (inversion Hk; subst; [|done]; match goal with H : balanced _ Black _ |- _ => apply balanced_color in H; by rewrite root_color_branch in H end).
    assert (Hio : inorder (plug (Frame d Red P sl :: Frame d Black S sr :: k) x) = inorder (plug k0 x)).
    { unfold k0. simpl. apply inorder_plug_eq. unfold grow. destruct d; simpl; by rewrite <- ?app_assoc. }
    repeat rb_step.
    eapply (erase_case1_ok d P x S sl sr k); [done|done|by inversion Hbl|by eapply balanced_color|by rewrite Hio|].
    intros h' R' u' Hta' Hon'. destruct (branch_cases sl) as [->|Hbr2]; [by inversion Hbl|].
    destruct (Hbr2 d) as (c2 & a & S2 & b & ->).
    assert (c2 = Black) as -> by (apply balanced_color in Hbl; by rewrite root_color_branch in Hbl).
    rewrite ptr_branch. eapply (erase_black_ok d P Red x a S2 b (Frame d Black S sr :: k)); [done| |done| |done].
    + constructor; [done|]. inversion Hk; subst. by econstructor.
    + intros s' T' HT' Hrb Hio' Hon2. eapply Hdone; [done|done|congruence|].
      eapply only_trans; [|done]. by rewrite Hio'.
  - repeat rb_step. eapply erase_black_ok; eauto.
Qed.

(** Which side the node is on: the sibling is never a leaf. *)
Lemma erase_which d P x s w (Q : option (Z * Z) → rb_state A → Prop) root h R u :
  h !! P = Some (mk d w (ptr x) (ptr s)) → s ≠ Leaf → rep h P s → inorder x ## inorder s →
  wp (erase_side rot d P (ptr s) root) Q (RbState h R u) →
  wp (get_child Rt P) (λ sibling,
    wp (if negb (ptr x =? sibling) then erase_side rot Lt P sibling root
        else sibling ← get_child Lt P; erase_side rot Rt P sibling root) Q) (RbState h R u).
Proof.
  intros HP Hne Hs Hd HQ. rb_step. destruct d; simpl.
  - replace (ptr x =? ptr s) with false; [done|]. symmetry. apply Z.eqb_neq.
    destruct s as [|c l a r]; [done|]. destruct Hs as ([] & _). destruct x as [|c' l' a' r']; simpl; [lia|].
    intros ->. apply (Hd a); simpl; set_solver.
  - rewrite Z.eqb_refl. simpl. by repeat rb_step.
Qed.

Lemma erase_loop_ok fuel : ∀ k x c m root (Q : unit → rb_state A → Prop) h R u,
  balanced x Black m → balanced_place k c (S m) → k ≠ [] →
  tree_at (RbState h R u) root (plug k x) → (length k ≤ fuel)%nat →
  (∀ s' T', tree_at s' root T' → rb_tree T' → inorder T' = inorder (plug k x) →
     only (inorder T') root (RbState h R u) s' → Q tt s') →
  wp (erase_loop rot fuel (ptr x) (above 0 k) root) Q (RbState h R u).
Proof.
  induction fuel as [|fuel IH]; intros k x c m root Q h R u Hx Hk Hne Hta Hf HQ;
    [by destruct k; simpl in Hf; [|lia]|].
  destruct k as [|[d cf P s] k]; [done|]. cbn [erase_loop]. simpl above.
  assert (c = cf) as -> by by inversion Hk.
  pose proof (ta_rep _ _ _ Hta) as [(HgP & HP & Hs & Hrk) HxP]%rep_plug.
  pose proof (ta_nodup _ _ _ Hta) as Hn. expose_tree Hn [PTree x; PNode P; PTree s; PPlace k].
  apply wp_bind. eapply wp_mono; [|intros sib s' H'; apply wp_bind, H'].
  eapply (erase_which d P x s); [done| |done|done|].
  { intros ->. inversion Hk; subst; match goal with H : balanced Leaf _ _ |- _ => inversion H end. }
  eapply erase_side_ok; [done|done|done| |].
  - intros s' T' HT' Hrb Hio Hon. apply wp_ret. by eapply HQ.
  - intros h' t' -> Hk' <- Hb Hta' Hio Hon. inversion Hk; subst.
    eapply IH; [done|done|done|done|simpl in Hf; lia|].
    intros s' T' HT' Hrb Hio' Hon'. eapply HQ; [done|done|congruence|].
    eapply only_trans; [|done]. by rewrite Hio'.
Qed.

Lemma erase_color_ok k c root (Q : unit → rb_state A → Prop) s :
  balanced_place k c 1 → k ≠ [] → tree_at s root (plug k Leaf) →
  (∀ s' T', tree_at s' root T' → rb_tree T' → inorder T' = inorder (plug k Leaf) →
     only (inorder T') root s s' → Q tt s') →
  wp (____rb_erase_color rot (above 0 k) root) Q s.
Proof.
  destruct s as [h R u]. intros Hk Hne Hta HQ. unfold ____rb_erase_color. apply wp_bind, wp_path_fuel.
  eapply (erase_loop_ok _ k Leaf); [constructor|done|done|done| |done].
  pose proof (path_length _ _ _ _ (ta_rep _ _ _ Hta) (ta_nodup _ _ _ Hta)). simpl in *. lia.
Qed.
End EraseColor.
