(* ===== verification/RbTreeRemove.v ===== *)
(** * RbTreeRemove: removal from red-black trees

    [__rb_erase_augmented] takes a node out of the tree, possibly by moving its
    successor to its place, and says where the black height is one too low;
    [rb_erase] rebalances there. *)

From S2P Require Import Prelude RbTree RbTreeShape RbTreeHeap RbTreeBalance RbTreeErase.

(** ** Balance after a node with at most one child is taken out *)

(** What is left to do: nothing, or to rebalance at the place [K]. *)
Definition pending (reb : Z) (K : place) (t : tree) : Prop :=
  reb = 0 ∧ rb_tree (plug K t) ∨ reb = above 0 K ∧ K ≠ [] ∧ t = Leaf ∧ ∃ c, balanced_place K c 1.

Lemma remove_balanced d c n t k ct ck m :
  balanced (branch d c Leaf n t) ct m → balanced_place k ck m → (ck = Red → ct = Black) →
  (t ≠ Leaf → c = Black ∧ pending 0 k (recolor c t)) ∧
  (t = Leaf → pending (if bool_decide (c = Black) then above 0 k else 0) k t).
Proof.
  intros Hb Hk Hc. apply balanced_branch_inv in Hb
    as [(-> & -> & Hl & Ht)|(-> & -> & m' & c1 & c2 & -> & Hl & Ht)]; inversion Hl; subst.
  - split; [by intros []; inversion Ht|]. intros ->. left. split; [done|]. by eapply balanced_plug.
  - split.
    + intros Hne. split; [done|]. left. split; [done|]. eapply balanced_plug; [|done|done].
      pose proof (balanced_recolor_black _ _ _ Ht Hne) as Hb. inversion Ht; subst; done.
    + intros ->. simpl. destruct k as [|f k]; [left|right]; [|eauto].
      split; [done|]. exists 0%nat. constructor.
Qed.

Lemma balanced_place_rename kl d c n n' l k ck m :
  balanced_place (kl ++ Frame d c n l :: k) ck m → balanced_place (kl ++ Frame d c n' l :: k) ck m.
Proof.
  revert ck m. induction kl as [|f kl IH]; simpl; intros ck m H; inversion H; subst; by econstructor; eauto.
Qed.

Section Remove.
Context {A : Type}.
Implicit Types (h : rb_heap) (R : gmap Z Z) (u : A).
Variable aug : rb_augment_callbacks A.
Hypothesis propagate_ok : ∀ n stop, benign (propagate aug n stop).
Hypothesis copy_ok : ∀ old new, benign (copy aug old new).
Hypothesis rotate_ok : ∀ old new, benign (rotate aug old new).

(** ** The successor *)

Lemma leftmost_ok t : ∀ fuel a h R u, rep h a t → t ≠ Leaf → (length (inorder t) ≤ fuel)%nat →
  ∃ kl cs s c2, t = plug kl (Node cs Leaf s c2) ∧ Forall (λ f, f_side f = Lt) kl ∧
  leftmost_loop fuel a (ptr t) (RbState h R u) = Some ((above a kl, s), RbState h R u).
Proof.
  induction t as [|c l IHl b r _]; intros fuel a h R u Hrep Hne Hf; [done|].
  simpl in Hrep, Hf |- *. destruct Hrep as (Hg & Hb & Hl & Hr).
  rewrite length_app in Hf. simpl in Hf. destruct fuel as [|fuel]; [lia|]. simpl.
  unfold get_child, get_node, mbind, prog_bind, mret, prog_ret. simpl. rewrite Hb. simpl.
  destruct l as [|cl ll bl rl]; simpl.
  { by exists [], c, b, r. }
  simpl in Hl. destruct Hl as (Hgl & Hl). replace (bl =? 0) with false by (unfold good_ptr in Hgl; lia).
  edestruct (IHl fuel b h R u) as (kl & cs & s & c2 & He & Hall & Hw); [by simpl; eauto|done|lia|].
  exists (kl ++ [Frame Lt c b r]), cs, s, c2. simpl. rewrite plug_app, <- He, above_app.
  split; [done|]. split; [|done]. apply Forall_app. eauto.
Qed.

(** parent->rb_child = v at the end of a path, and the parent of its start. *)
Lemma set_hole_ok d c a s k top q v (Q : unit → rb_state A → Prop) h R u :
  rep_place h top (Frame d c a s :: k) q → NoDup (place_addrs (Frame d c a s :: k)) →
  (∀ h', rep_place h' top (Frame d c a s :: k) v → (∀ x, x ≠ a → h' !! x = h !! x) →
     (∀ root, only [a] root (RbState h R u) (RbState h' R u)) → Q tt (RbState h' R u)) →
  wp (set_child d a v) Q (RbState h R u).
Proof.
  intros (Hg & Ha & Hs & Hk) Hn HQ. change (NoDup (flat [PNode a; PTree s; PPlace k])) in Hn. expose Hn.
  eapply wp_set_child; [done|]. rewrite with_child_mk. apply HQ; simpl.
  - split; [done|]. split; [look|]. split; node_rep.
  - intros x Hx. by apply lookup_insert_ne.
  - intros root. apply only_insert; [set_solver|by eexists|done].
Qed.

Lemma set_top_ok k c d a s top top' q (Q : unit → rb_state A → Prop) h R u :
  rep_place h top (k ++ [Frame d c a s]) q → good_or_null top → NoDup (place_addrs (k ++ [Frame d c a s])) →
  (∀ h', rep_place h' top' (k ++ [Frame d c a s]) q → (∀ x, x ≠ a → h' !! x = h !! x) →
     (∀ root, only [a] root (RbState h R u) (RbState h' R u)) → Q tt (RbState h' R u)) →
  wp (rb_set_parent a top') Q (RbState h R u).
Proof.
  rewrite rep_place_app, place_addrs_app. intros [Hk (Hg & Ha & Hs & _)] Hgt Hn HQ.
  simpl in Hn, Hk. rewrite app_nil_r in Hn.
  assert (NoDup (flat [PPlace k; PNode a; PTree s])) as Hn' by done. expose Hn'.
  unfold rb_set_parent. repeat rb_step. simpl. rewrite color_of_word, word_comm by done. apply HQ.
  - rewrite rep_place_app. simpl. split; [node_rep|]. split; [done|]. split; [look|]. split; [node_rep|done].
  - intros x Hx. by apply lookup_insert_ne.
  - intros root. apply only_insert; [set_solver|by eexists|done].
Qed.

(** What the caller of [erase_successor] sees: the successor [s] was the leftmost
    node of the right subtree [r], its right child [c2] has its place, and the rest of
    [r] hangs below [s]. *)
Record taken (r : tree) kl cs s c2 h R u h' u' : Prop := {
  tk_split : r = plug kl (Node cs Leaf s c2);
  tk_left : Forall (λ f, f_side f = Lt) kl;
  tk_good : good_ptr s;
  tk_node : ∃ ps, good_or_null ps ∧ h' !! s = Some (RbNode (word ps cs) (top_ptr kl (ptr c2)) 0);
  tk_path : rep_place h' s kl (ptr c2);
  tk_child : rep h' s c2;
  tk_same : ∀ x, x ∉ inorder r → h' !! x = h !! x;
  tk_only : ∀ root, only (inorder r) root (RbState h R u) (RbState h' R u')
}.

Lemma take_successor_ok kl cr b rr c1 p sp k1 cs s c2 n (Q : Z * Z * Z → rb_state A → Prop) h R u :
  let kl1 := kl ++ [Frame Lt cr b rr] in
  kl1 = Frame Lt c1 p sp :: k1 → Forall (λ f, f_side f = Lt) kl1 →
  rep h n (plug kl1 (Node cs Leaf s c2)) → NoDup (inorder (plug kl1 (Node cs Leaf s c2))) → good_ptr n →
  (∀ h' u', taken (plug kl1 (Node cs Leaf s c2)) kl1 cs s c2 h R u h' u' →
     Q (s, p, ptr c2) (RbState h' R u')) →
  wp (child2 ← get_child Rt s; _ ← set_child Lt p child2; _ ← set_child Rt s b;
      _ ← rb_set_parent b s; _ ← copy aug n s; _ ← propagate aug p s; mret (s, p, child2))
     Q (RbState h R u).
Proof.
  intros kl1 Hk1 Hall Hrep Hn Hgn HQ. expose_tree Hn [PNode s; PTree c2; PPlace kl1].
  apply rep_plug in Hrep as [Hk (Hgs & Hs & _ & Hc2)]. cbn [ptr] in Hk.
  assert (Hgp : good_or_null (above n kl1)) by (eapply rep_place_good; eauto).
  assert (Hb : b ∈ place_addrs kl1) by (unfold kl1; rewrite place_addrs_app; simpl; set_solver).
  assert (Hp : p ∈ place_addrs kl1) by (rewrite Hk1; simpl; set_solver).
  assert (s ≠ b ∧ s ≠ p) as [Hsb Hsp] by (split; intros ->; done).
  do 3 rb_step. simpl. rewrite Hk1 in Hk. eapply set_hole_ok; [exact Hk|by rewrite <- Hk1|].
  rewrite <- Hk1. clear Hk. intros h1 Hk Hs1 Ho1.
  rb_step. eapply wp_set_child; [rewrite Hs1 by done; done|]. simpl.
  rb_step. eapply (set_top_ok kl cr Lt b rr n s); [apply rep_place_insert; [done|exact Hk]|by auto|done|].
  intros h3 Hk3 Hs3 Ho3. rb_step. apply wp_benign; [apply copy_ok|]. intros u1.
  rb_step. apply wp_benign; [apply propagate_ok|]. intros u2. rb_step. apply HQ.
  assert (Htop : top_ptr kl1 (ptr c2) = b).
  { unfold kl1. clear. generalize (ptr c2). by induction kl as [|f kl IH]; simpl; intros; [|apply IH]. }
  assert (Hsame : ∀ x, x ∉ s :: place_addrs kl1 → h3 !! x = h !! x).
  { intros x [Hxs Hxk]%not_elem_of_cons. rewrite Hs3, lookup_insert_ne, Hs1; congruence. }
  split; auto.
  - eexists. split; [exact Hgp|]. rewrite Htop. rewrite Hs3, lookup_insert_eq by done. done.
  - apply (rep_frame h); [|done]. intros x Hx. apply Hsame. set_solver.
  - intros x Hx. apply Hsame. set_solver.
  - intros root. eapply only_trans; [eapply only_weaken; [|apply Ho1]; set_solver|].
    eapply only_trans; [|eapply only_weaken; [|apply Ho3]; set_solver].
    apply only_insert; [set_solver|rewrite Hs1 by done; by eexists|done].
Qed.

Lemma erase_successor_ok n r (Q : Z * Z * Z → rb_state A → Prop) h R u :
  rep h n r → r ≠ Leaf → NoDup (inorder r) → good_ptr n →
  (∀ kl cs s c2 h' u', taken r kl cs s c2 h R u h' u' → Q (s, above s kl, ptr c2) (RbState h' R u')) →
  wp (erase_successor aug n (ptr r)) Q (RbState h R u).
Proof.
  intros Hrep Hne Hn Hgn HQ. destruct r as [|cr rl b rr]; [done|].
  pose proof Hrep as (Hgb & Hb & Hrl & Hrr). simpl ptr.
  unfold erase_successor. do 2 rb_step. simpl. destruct (decide (rl = Leaf)) as [->|Hrne].
  { simpl. repeat rb_step. apply wp_benign; [apply copy_ok|]. intros u'. repeat rb_step. simpl.
    apply (HQ [] cr b rr h u'). split; try done; [by exists n; split; auto]. }
  replace (ptr rl =? 0) with false.
  2:{ destruct rl; [done|]. destruct Hrl as [[] _]. simpl. symmetry. apply Z.eqb_neq. lia. }
  rb_step. apply wp_path_fuel. cbn [rb_nodes].
  pose proof (rep_size _ _ _ Hrep Hn) as Hsz. simpl in Hsz. rewrite length_app in Hsz.
  edestruct (leftmost_ok rl (S (size h)) b h R u) as (kl & cs & s & c2 & He & Hall & Hlm); [done|done|lia|].
  apply wp_bind. unfold wp at 1. rewrite Hlm. clear Hlm.
  assert (Hr1 : Node cr rl b rr = plug (kl ++ [Frame Lt cr b rr]) (Node cs Leaf s c2)).
  { by rewrite plug_app, <- He. }
  assert (∃ p c1 sp k1, kl ++ [Frame Lt cr b rr] = Frame Lt c1 p sp :: k1 ∧ above b kl = p)
    as (p & c1 & sp & k1 & Hk1 & ->).
  { destruct kl as [|[d c1 p sp] kl]; simpl; [eauto 10|].
    apply Forall_cons in Hall as [Hd _]. simpl in Hd. subst. eauto 10. }
  rewrite Hr1 in Hrep, Hn, HQ.
  eapply take_successor_ok; [exact Hk1|apply Forall_app; eauto|done..|].
  intros h' u' Ht. specialize (HQ _ _ _ _ _ _ Ht). by rewrite Hk1 in HQ.
Qed.

(** ** Taking a node out *)

(** The outcome of [__rb_erase_augmented] for the nodes [l] that stay. *)
Definition erased (l : list Z) root (s : rb_state A) (reb : Z) (s' : rb_state A) : Prop :=
  ∃ K t, tree_at s' root (plug K t) ∧ inorder (plug K t) = l ∧ pending reb K t ∧
         only (inorder (plug K t)) root s s'.

Lemma erased_intro l root s reb s' T K t :
  tree_at s' root T → T = plug K t → inorder T = l → pending reb K t → only l root s s' →
  erased l root s reb s'.
Proof. intros H1 -> H2 H3 H4. exists K, t. by rewrite H2. Qed.

Lemma NoDup_erase k t a t' :
  inorder t ≡ₚ a :: inorder t' → NoDup (inorder (plug k t)) → NoDup (inorder (plug k t')).
Proof. rewrite !inorder_plug_perm. intros ->. simpl. by intros [_ H]%NoDup_cons. Qed.

Lemma erase_no_left_ok k c n r root h R u :
  tree_at (RbState h R u) root (plug k (Node c Leaf n r)) → rb_tree (plug k (Node c Leaf n r)) →
  wp (__rb_erase_augmented n root aug) (erased (before k ++ inorder r ++ after k) root (RbState h R u))
     (RbState h R u).
Proof.
  intros [Hrep Hr Hn] Hrb. cbn [rb_nodes rb_roots] in Hrep, Hr. rewrite ptr_plug in Hr. simpl in Hr.
  destruct (balanced_unplug _ _ Hrb) as (ck & ct & m & Hb & Hbk & Hcc).
  destruct (remove_balanced Lt _ _ _ _ _ _ _ Hb Hbk Hcc) as [Hne Hleaf].
  pose proof (NoDup_erase k (Node c Leaf n r) n r ltac:(done) Hn) as Hn'.
  expose_tree Hn [PNode n; PTree r; PPlace k].
  apply rep_plug in Hrep as [Hk (Hgn & Hnn & _ & Hrr)]. cbn [ptr] in *.
  assert (Hgp : good_or_null (above 0 k)) by (eapply rep_place_good; eauto).
  unfold __rb_erase_augmented. do 4 rb_step. simpl. repeat rb_step. simpl. rewrite parent_of_word by done.
  eapply wp_change_child; [done..|]. intros h' R' Hk' Hr' Hs' Ho'.
  assert (Hr2 : rep h' n r) by node_rep. simpl. destruct (decide (r = Leaf)) as [->|Hrne].
  - specialize (Hleaf eq_refl). simpl. repeat rb_step. rewrite black_of_word by done.
    apply wp_benign; [apply propagate_ok|]. intros u'. apply wp_ret.
    eapply (erased_intro _ _ _ _ _ _ k Leaf); [|done|by rewrite inorder_plug|exact Hleaf|].
    + by eapply tree_at_plug.
    + eapply only_weaken; [|exact Ho']. intros x. by rewrite elem_place.
  - destruct (Hne Hrne) as [_ Hp].
    replace (ptr r =? 0) with false by (destruct r; [done|]; destruct Hrr as [[] _]; simpl; lia).
    simpl. rb_step. rb_step. apply (wp_reparent_node r (above 0 k) c); [done|by eapply rep_rep_below|].
    apply wp_ret. rb_step. apply wp_benign; [apply propagate_ok|]. intros u'. apply wp_ret.
    eapply (erased_intro _ _ _ _ _ _ k (recolor c r)); [|done|by rewrite inorder_plug, inorder_recolor|exact Hp|].
    + eapply tree_at_plug; autorewrite with sides; try done; [node_rep..|].
      by rewrite (inorder_plug_eq k _ r) by apply inorder_recolor.
    + apply only_reparent; [intros x Hx; rewrite !elem_of_app; auto|by eapply rep_rep_below|].
      eapply only_weaken; [|exact Ho']. intros x. rewrite elem_place, !elem_of_app. tauto.
Qed.

Lemma erase_no_right_ok k c l n root h R u :
  tree_at (RbState h R u) root (plug k (Node c l n Leaf)) → rb_tree (plug k (Node c l n Leaf)) → l ≠ Leaf →
  wp (__rb_erase_augmented n root aug) (erased (before k ++ inorder l ++ after k) root (RbState h R u))
     (RbState h R u).
Proof.
  intros [Hrep Hr Hn] Hrb Hlne. cbn [rb_nodes rb_roots] in Hrep, Hr. rewrite ptr_plug in Hr. simpl in Hr.
  destruct (balanced_unplug _ _ Hrb) as (ck & ct & m & Hb & Hbk & Hcc).
  destruct (remove_balanced Rt _ _ _ _ _ _ _ Hb Hbk Hcc) as [Hne _]. destruct (Hne Hlne) as [_ Hp].
  pose proof (NoDup_erase k (Node c l n Leaf) n l (Permutation_app_comm _ _) Hn) as Hn'.
  expose_tree Hn [PTree l; PNode n; PPlace k].
  apply rep_plug in Hrep as [Hk (Hgn & Hnn & Hl & _)]. cbn [ptr] in *.
  assert (Hgp : good_or_null (above 0 k)) by (eapply rep_place_good; eauto).
  unfold __rb_erase_augmented. do 4 rb_step. simpl.
  replace (ptr l =? 0) with false by (destruct l; [done|]; destruct Hl as [[] _]; simpl; lia).
  do 2 rb_step. simpl. rb_step. apply (wp_reparent_node l (above 0 k) c); [done|node_rep|].
  rewrite parent_of_word by done. rb_step. eapply wp_change_child; [node_rep|done..|].
  intros h' R' Hk' Hr' Hs' Ho'. rb_step. apply wp_benign; [apply propagate_ok|]. intros u'. apply wp_ret.
  eapply (erased_intro _ _ _ _ _ _ k (recolor c l)); [|done|by rewrite inorder_plug, inorder_recolor|exact Hp|].
  - eapply tree_at_plug; autorewrite with sides; try done; [node_rep|].
    by rewrite (inorder_plug_eq k _ l) by apply inorder_recolor.
  - eapply only_trans; [|eapply only_weaken; [|exact Ho']]; [|intros x; rewrite elem_place, !elem_of_app; tauto].
    apply only_reparent; [intros x Hx; rewrite !elem_of_app; auto|node_rep|done].
Qed.

(** The successor takes the place of the node. *)
Lemma erase_splice_ok k c l n kl cs s c2 x0 ps root (Q : Z → rb_state A → Prop) h R u :
  let K := kl ++ Frame Rt c s l :: k in
  rep_place h 0 k n → R !! root = Some (top_ptr k n) → good_ptr n →
  h !! n = Some (RbNode (word (above 0 k) c) x0 (ptr l)) → rep h n l → l ≠ Leaf →
  good_ptr s → good_or_null ps → h !! s = Some (RbNode (word ps cs) (top_ptr kl (ptr c2)) 0) →
  rep_place h s kl (ptr c2) → rep h s c2 → n ∉ inorder (plug K c2) → NoDup (inorder (plug K c2)) →
  (∀ h' R', tree_at (RbState h' R' u) root (plug K (recolor Black c2)) →
     only (inorder (plug K c2)) root (RbState h R u) (RbState h' R' u) →
     Q (if decide (c2 = Leaf) then if bool_decide (cs = Black) then above 0 K else 0 else 0) (RbState h' R' u)) →
  wp (erase_splice n root s (above s kl) (ptr c2)) Q (RbState h R u).
Proof.
  intros K Hk Hr Hgn Hnn Hl Hlne Hgs Hgps Hs Hkl Hc2 HnK Hnd HQ.
  assert (Hgp : good_or_null (above 0 k)) by (eapply rep_place_good; eauto).
  assert (Hn : NoDup (n :: inorder (plug K c2))) by by apply NoDup_cons. unfold K in Hn.
  expose_tree Hn [PNode n; PTree c2; PPlace kl; PNode s; PTree l; PPlace k].
  unfold erase_splice. do 4 rb_step. simpl. rb_step. apply (wp_reparent_keep_node l n s); [done|node_rep|auto|].
  do 2 rb_step. simpl. rewrite parent_of_word by done. rb_step. eapply wp_change_child; [node_rep|done..|].
  intros h4 R4 Hk4 Hr4 Hs4 Ho4.
  set (h6 := reparent (<[s := RbNode (word (above 0 k) c) (top_ptr kl (ptr c2)) (ptr l)]> h4) c2 (above s kl) Black).
  assert (Hs4s : h4 !! s = Some (RbNode (word ps cs) (top_ptr kl (ptr c2)) (ptr l))) by look.
  assert (Hc4 : rep h4 s c2) by node_rep.
  assert (Hfin : tree_at (RbState h6 R4 u) root (plug K (recolor Black c2))).
  { split; simpl; [| |by rewrite (inorder_plug_eq K _ c2) by apply inorder_recolor].
    - apply rep_plug. unfold K. rewrite rep_place_app, above_app, ptr_recolor. simpl. unfold h6.
      split; [split; [node_rep|]|node_rep]. split; [done|]. split; [look|]. split; node_rep.
    - rewrite ptr_plug, ptr_recolor. unfold K. rewrite Hr4. f_equal. clear.
      generalize (ptr c2). induction kl as [|f kl IH]; simpl; intros p; [done|apply IH]. }
  assert (Hon : only (inorder (plug K c2)) root (RbState h R u) (RbState h6 R4 u)).
  { unfold h6, K. apply only_reparent; [clear; set_solver|node_rep|].
    apply only_insert; [clear; set_solver|by eexists|].
    eapply only_trans; [|eapply only_weaken; [|exact Ho4]]; [|clear; set_solver].
    apply only_reparent; [clear; set_solver|node_rep|].
    apply only_insert; [clear; set_solver|by eexists|done]. }
  specialize (HQ _ _ Hfin Hon). unfold K in HQ. rewrite above_app in HQ. simpl in HQ.
  destruct (decide (c2 = Leaf)) as [->|Hcne]; simpl.
  - repeat rb_step. simpl. rewrite black_of_word by done. exact HQ.
  - replace (ptr c2 =? 0) with false by (destruct c2; [done|]; destruct Hc2 as [[] _]; simpl; lia).
    simpl. do 3 rb_step. apply (wp_reparent_node c2 (above s kl) Black); [done|node_rep|]. rb_step. exact HQ.
Qed.

Lemma perm_splice (L C P K : list Z) n s :
  (L ++ n :: (s :: C) ++ P) ++ K ≡ₚ n :: C ++ P ++ s :: L ++ K.
Proof.
  rewrite <- app_assoc. simpl. rewrite <- Permutation_middle. apply perm_skip.
  rewrite <- Permutation_middle, (app_assoc C P), <- Permutation_middle. apply perm_skip.
  by rewrite !(app_assoc _ _ K), (Permutation_app_comm L).
Qed.

Lemma splice_order k c l n kl cs s c2 :
  let K := kl ++ Frame Rt c s l :: k in
  Forall (λ f, f_side f = Lt) kl → NoDup (inorder (plug k (Node c l n (plug kl (Node cs Leaf s c2))))) →
  inorder (plug K c2) = before k ++ (inorder l ++ inorder (plug kl (Node cs Leaf s c2))) ++ after k ∧
  n ∉ inorder (plug K c2) ∧ NoDup (inorder (plug K c2)).
Proof.
  intros K Hall Hn.
  assert (Hp : inorder (plug k (Node c l n (plug kl (Node cs Leaf s c2)))) ≡ₚ n :: inorder (plug K c2)).
  { unfold K. rewrite (inorder_plug_perm (kl ++ _)), place_addrs_app, inorder_plug_perm. simpl.
    rewrite inorder_plug_perm. apply perm_splice. }
  rewrite Hp in Hn. apply NoDup_cons in Hn. split; [|done].
  assert (before kl = []) as Hb.
  { clear -Hall. induction Hall as [|[] kl H _ IH]; [done|]. simpl in *. by subst. }
  unfold K. rewrite plug_app. simpl. rewrite inorder_plug. unfold grow. simpl. rewrite !inorder_plug, Hb.
  simpl. by rewrite <- !app_assoc.
Qed.

(** Both children: the successor takes the place of the node. *)
Lemma erase_both_ok k c l n r root h R u :
  tree_at (RbState h R u) root (plug k (Node c l n r)) → rb_tree (plug k (Node c l n r)) →
  l ≠ Leaf → r ≠ Leaf →
  wp (__rb_erase_augmented n root aug)
     (erased (before k ++ (inorder l ++ inorder r) ++ after k) root (RbState h R u)) (RbState h R u).
Proof.
  intros [Hrep Hr Hn] Hrb Hlne Hrne. cbn [rb_nodes rb_roots] in Hrep, Hr. rewrite ptr_plug in Hr. simpl in Hr.
  expose_tree Hn [PTree l; PNode n; PTree r; PPlace k].
  apply rep_plug in Hrep as [Hk (Hgn & Hnn & Hl & Hrr)]. cbn [ptr] in *.
  unfold __rb_erase_augmented. do 4 rb_step. simpl.
  replace (ptr l =? 0) with false by (destruct l; [done|]; destruct Hl as [[] _]; simpl; lia).
  replace (ptr r =? 0) with false by (destruct r; [done|]; destruct Hrr as [[] _]; simpl; lia).
  rb_step. apply erase_successor_ok; [done..|].
  intros kl cs s c2 h1 u1 [Hr1 Hall Hgs [ps [Hgps Hs]] Hkl Hc2 Hsame Honly].
  assert (Hk1 : rep_place h1 0 k n) by node_rep. assert (Hl1 : rep h1 n l) by node_rep.
  assert (Hn1 : h1 !! n = Some (RbNode (word (above 0 k) c) (ptr r) (ptr l))) by look.
  rewrite Hr1 in Hn, Hrb, Honly |- *.
  destruct (splice_order k c l n kl cs s c2 Hall Hn) as (Hio & HnK & HndK).
  change (plug k (Node c l n (plug kl (Node cs Leaf s c2))))
    with (plug (Frame Rt c n l :: k) (plug kl (Node cs Leaf s c2))) in Hrb.
  rewrite <- plug_app in Hrb. destruct (balanced_unplug _ _ Hrb) as (ck & ct & m & Hb & Hbk & Hcc).
  apply (balanced_place_rename _ _ _ _ s) in Hbk.
  destruct (remove_balanced Lt cs s c2 _ _ _ _ Hb Hbk Hcc) as [Hne Hleaf].
  rb_step. eapply erase_splice_ok; [done..|]. intros h' R' Hta Hon.
  rb_step. apply wp_benign; [apply propagate_ok|]. intros u'. apply wp_ret.
  eapply (erased_intro _ _ _ _ _ _ (kl ++ Frame Rt c s l :: k) (recolor Black c2)); [by destruct Hta|done| | |].
  - rewrite <- Hio. apply inorder_plug_eq, inorder_recolor.
  - destruct (decide (c2 = Leaf)) as [->|Hcne]; [by apply Hleaf|]. by destruct (Hne Hcne) as [-> ?].
  - rewrite <- Hio. eapply only_trans; [eapply only_weaken; [|apply Honly]|exact Hon]. clear. set_solver.
Qed.

Lemma erase_augmented_ok k c l n r root s :
  tree_at s root (plug k (Node c l n r)) → rb_tree (plug k (Node c l n r)) →
  wp (__rb_erase_augmented n root aug)
     (erased (before k ++ (inorder l ++ inorder r) ++ after k) root s) s.
Proof.
  destruct s as [h R u]. intros Hta Hrb.
  destruct (decide (l = Leaf)) as [->|Hl]; [by eapply erase_no_left_ok|].
  destruct (decide (r = Leaf)) as [->|Hr]; [|by eapply erase_both_ok].
  simpl. rewrite app_nil_r. by eapply erase_no_right_ok.
Qed.

(** rb_erase_augmented: the node is gone, the rest is in order and balanced. *)
Lemma rb_erase_ok k c l n r root (Q : unit → rb_state A → Prop) s :
  tree_at s root (plug k (Node c l n r)) → rb_tree (plug k (Node c l n r)) →
  (∀ s' T', tree_at s' root T' → rb_tree T' → inorder T' = before k ++ (inorder l ++ inorder r) ++ after k →
     only (inorder T') root s s' → Q tt s') →
  wp (rb_erase_augmented n root aug) Q s.
Proof.
  intros Hta Hrb HQ. unfold rb_erase_augmented, __rb_erase_color. apply wp_bind. eapply wp_mono; [by eapply erase_augmented_ok|].
  intros reb s1 (K & t & Hta1 & Hio & Hp & Hon). destruct Hp as [[-> Hrb1]|(-> & HK & -> & ck & Hbk)]; simpl.
  - by eapply HQ.
  - replace (above 0 K =? 0) with false.
    2:{ destruct K as [|[d cf a sf] K]; [done|]. apply ta_rep in Hta1. apply rep_plug in Hta1 as [[[] _] _].
        simpl. symmetry. apply Z.eqb_neq. lia. }
    eapply erase_color_ok; [done..|]. intros s' T' HT' Hrb' Hio' Hon'. eapply HQ; [done|done|congruence|].
    eapply only_trans; [|done]. by rewrite Hio'.
Qed.
End Remove.
