(* ===== verification/RbTreeWalk.v ===== *)
(** * RbTreeWalk: first, last, next and previous node, and replacement *)

From S2P Require Import Prelude RbTree RbTreeShape RbTreeHeap RbTreeBalance.

(** The end of a list on a side, NULL if there is none. *)
Definition end_of (d : side) (l : list Z) : Z :=
  default 0 (match d with Lt => head l | Rt => last l end).

(** The nodes beyond a place on a side. *)
Definition beyond (d : side) (k : place) : list Z := match d with Lt => before k | Rt => after k end.

(** ** Lists without duplicates *)

Lemma NoDup_split_unique (l1 l2 m1 m2 : list Z) n :
  NoDup (l1 ++ n :: l2) → l1 ++ n :: l2 = m1 ++ n :: m2 → l1 = m1 ∧ l2 = m2.
Proof.
  revert m1. induction l1 as [|x l1 IH]; intros [|y m1] Hn He; simpl in *; simplify_eq; [done|..].
  - apply NoDup_cons in Hn as [Hn _]. set_solver.
  - apply NoDup_cons in Hn as [Hn _]. set_solver.
  - apply NoDup_cons in Hn as [_ Hn]. by destruct (IH m1 Hn) as [-> ->].
Qed.

Lemma inorder_nil t : inorder t = [] → t = Leaf.
Proof. destruct t as [|? l ? ?]; [done|]. simpl. by destruct (inorder l). Qed.

Lemma find_place n T : n ∈ inorder T → ∃ k c l r, T = plug k (Node c l n r).
Proof.
  induction T as [|c l IHl a r IHr]; simpl; [set_solver|].
  rewrite elem_of_app, elem_of_cons. intros [H|[->|H]].
  - destruct (IHl H) as (k & c' & l' & r' & ->). exists (k ++ [Frame Lt c a r]), c', l', r'. by rewrite plug_app.
  - by exists [], c, l, r.
  - destruct (IHr H) as (k & c' & l' & r' & ->). exists (k ++ [Frame Rt c a l]), c', l', r'. by rewrite plug_app.
Qed.

Lemma find_split n T l1 l2 : NoDup (inorder T) → inorder T = l1 ++ n :: l2 →
  ∃ k c l r, T = plug k (Node c l n r) ∧ l1 = before k ++ inorder l ∧ l2 = inorder r ++ after k.
Proof.
  intros Hn He. destruct (find_place n T) as (k & c & l & r & ->); [rewrite He; set_solver|].
  exists k, c, l, r. split; [done|]. rewrite inorder_plug in He, Hn. simpl in He, Hn.
  rewrite <- app_assoc, app_assoc in He, Hn. simpl in He, Hn.
  destruct (NoDup_split_unique _ _ _ _ _ Hn He); auto.
Qed.

Lemma tree_ptr_ne h p t a : rep h p t → good_ptr a → a ∉ inorder t → (a =? ptr t) = false.
Proof.
  intros Hr Ha Hn. apply Z.eqb_neq. intros ->. destruct t; simpl in *; [unfold good_ptr in Ha; lia|set_solver].
Qed.

Lemma rep_ptr_null h p t : rep h p t → (ptr t =? 0) = bool_decide (t = Leaf).
Proof. destruct t; simpl; [done|]. intros [[] _]. apply Z.eqb_neq. lia. Qed.

Section Walk.
Context {A : Type}.
Implicit Types (h : rb_heap) (R : gmap Z Z) (u : A).

Lemma descend_ok d : ∀ t fuel p h R u, rep h p t → t ≠ Leaf → (length (inorder t) ≤ fuel)%nat →
  descend fuel d (ptr t) (RbState h R u) = Some (end_of d (inorder t), RbState h R u).
Proof.
  intros t. induction t as [|c l IHl a r IHr]; intros fuel p h R u Hrep Hne Hf; [done|].
  simpl in Hrep, Hf. destruct Hrep as (Hg & Ha & Hl & Hr). rewrite length_app in Hf. simpl in Hf.
  destruct fuel as [|fuel]; [lia|]. simpl.
  unfold get_child, get_node, mbind, prog_bind, mret, prog_ret. simpl. rewrite Ha. simpl.
  destruct d; simpl.
  - rewrite (rep_ptr_null _ _ _ Hl). case_bool_decide as Hl0; simpl; [by subst|].
    erewrite IHl by (done || lia). by destruct (inorder l) eqn:E; [apply inorder_nil in E|].
  - rewrite (rep_ptr_null _ _ _ Hr). case_bool_decide as Hr0; simpl.
    { subst. unfold end_of. simpl. by rewrite last_snoc. }
    erewrite IHr by (done || lia). unfold end_of. rewrite last_app_cons.
    by destruct (inorder r) eqn:E; [apply inorder_nil in E|].
Qed.

Lemma rb_end_ok d T root (s : rb_state A) :
  tree_at s root T → rb_end d root s = Some (end_of d (inorder T), s).
Proof.
  destruct s as [h R u]. intros [Hrep Hr Hn]. simpl in Hrep, Hr.
  unfold rb_end, mbind, prog_bind, get_root. simpl. rewrite Hr. simpl.
  rewrite (rep_ptr_null _ _ _ Hrep). case_bool_decide as HT; [subst; by destruct d|].
  unfold path_fuel, gets. apply (descend_ok d T (S (size h)) 0 h R u); [done..|]. pose proof (rep_size _ _ _ Hrep Hn). lia.
Qed.

Lemma ascend_ok d : ∀ k t fuel h R u, rep h 0 (plug k t) → t ≠ Leaf → NoDup (inorder (plug k t)) →
  (length k < fuel)%nat →
  ascend fuel d (ptr t) (RbState h R u) = Some (end_of (opp d) (beyond d k), RbState h R u).
Proof.
  intros k. induction k as [|[d' c a s] k IH]; intros t fuel h R u Hrep Hne Hn Hf;
    (destruct fuel as [|fuel]; [simpl in Hf; lia|]); pose proof Hrep as Hrep'.
  all: apply rep_plug in Hrep' as [Hk Ht]; destruct (branch_cases t) as [->|Hb]; [done|];
    destruct (Hb Lt) as (ct & x & n & y & ->); pose proof Ht as (Hgn & Hnn & _)%rep_branch; rewrite ptr_branch in *.
  all: cbn [ascend]; unfold rb_parent, get_child, get_word, get_node, mbind, prog_bind, mret, prog_ret;
    cbn [rb_nodes]; rewrite Hnn; cbn [mbind option_bind]; rewrite word_mk.
  { rewrite parent_of_word by auto. simpl. by destruct d. }
  destruct Hk as (Hga & Ha & Hs & Hk). cbn [above]. rewrite parent_of_word by auto.
  replace (f_addr (Frame d' c a s) =? 0) with false by (simpl; unfold good_ptr in Hga; lia).
  cbn [f_addr rb_nodes]. rewrite Ha. cbn [mbind option_bind].
  expose_tree Hn [PNode n; PTree x; PTree y; PNode a; PTree s; PPlace k].
  destruct (decide (d' = d)) as [->|Hd].
  - rewrite child_mk, Z.eqb_refl. rewrite <- (ptr_branch d c (branch Lt ct x n y) a s) at 1.
    rewrite (IH (branch d c (branch Lt ct x n y) a s)); [|done|by destruct d|done|simpl in Hf; lia].
    by destruct d.
  - assert (d' = opp d) as -> by by destruct d, d'. rewrite mk_opp, child_mk.
    rewrite (tree_ptr_ne _ _ _ _ Hs) by done. f_equal. f_equal.
    destruct d; simpl; [unfold end_of; simpl; by rewrite app_assoc, last_snoc|done].
Qed.

Lemma rb_walk_ok d T n l1 l2 root (s : rb_state A) :
  tree_at s root T → inorder T = l1 ++ n :: l2 →
  rb_walk d n s = Some (end_of (opp d) (match d with Lt => l1 | Rt => l2 end), s).
Proof.
  destruct s as [h R u]. intros [Hrep _ Hn] He. simpl in Hrep.
  destruct (find_split _ _ _ _ Hn He) as (k & c & l & r & -> & -> & ->).
  pose proof Hrep as [Hk (Hgn & Hnn & Hl & Hr)]%rep_plug.
  pose proof (path_length _ _ _ _ Hrep Hn) as Hlen. simpl in Hlen. rewrite length_app in Hlen. simpl in Hlen.
  assert (Hgp : good_or_null (above 0 k)) by (eapply rep_place_good; eauto).
  assert (Hpn : above 0 k ≠ n).
  { expose_tree Hn [PTree l; PNode n; PTree r; PPlace k]. destruct k as [|[] k]; simpl in *; [|set_solver].
    unfold good_ptr in Hgn. lia. }
  unfold rb_walk, RB_EMPTY_NODE, get_word, get_child, get_node, path_fuel, gets, mbind, prog_bind, mret, prog_ret.
  cbn [rb_nodes]. rewrite Hnn. cbn [mbind option_bind __rb_parent_color].
  replace (word (above 0 k) c =? n) with false by (symmetry; apply Z.eqb_neq; by apply word_ne_self).
  cbn [rb_nodes]. rewrite Hnn. cbn [mbind option_bind].
  assert (Hch : node_child d (RbNode (word (above 0 k) c) (ptr r) (ptr l)) = ptr (match d with Lt => l | Rt => r end))
    by by destruct d. rewrite Hch.
  assert (Ht : rep h n (match d with Lt => l | Rt => r end)) by by destruct d.
  rewrite (rep_ptr_null _ _ _ Ht). case_bool_decide as Hz; simpl negb; cbv iota.
  - etransitivity; [apply (ascend_ok d k (Node c l n r) (S (size h))); [done..|lia]|]. f_equal. f_equal. f_equal.
    destruct d; simpl in *; subst; by rewrite ?app_nil_r.
  - etransitivity; [apply (descend_ok (opp d) (match d with Lt => l | Rt => r end) (S (size h)) n); [done..|destruct d; lia]|]. f_equal. f_equal. unfold end_of.
    destruct d; simpl in *; [rewrite last_app|]; [destruct (last (inorder l)) eqn:E|destruct (inorder r) eqn:E]; try done.
    + apply last_None, inorder_nil in E. done.
    + by apply inorder_nil in E.
Qed.

(** ** Replacement *)

Lemma rb_tree_rename k c l v n r : rb_tree (plug k (Node c l v r)) → rb_tree (plug k (Node c l n r)).
Proof.
  intros H. destruct (balanced_unplug _ _ H) as (ck & ct & m & Hb & Hk & Hc).
  eapply balanced_plug; [|done|done]. inversion Hb; subst; by econstructor.
Qed.

Lemma rb_replace_ok k c l v r n root (Q : unit → rb_state A → Prop) s :
  tree_at s root (plug k (Node c l v r)) →
  good_ptr n → n ∉ inorder (plug k (Node c l v r)) → is_Some (rb_nodes s !! n) →
  (∀ s', tree_at s' root (plug k (Node c l n r)) → only (inorder (plug k (Node c l n r))) root s s' → Q tt s') →
  wp (rb_replace_node v n root) Q s.
Proof.
  destruct s as [h R u]. intros [Hrep Hr Hn] Hgn Hnn [nn Hnode] HQ. cbn [rb_nodes rb_roots] in *.
  rewrite ptr_plug in Hr. apply rep_plug in Hrep as [Hk (Hgv & Hv & Hl & Hrr)]. cbn [ptr] in *.
  assert (Hgp : good_or_null (above 0 k)) by (eapply rep_place_good; eauto).
  assert (Hn2 : NoDup (n :: inorder (plug k (Node c l v r)))) by by apply NoDup_cons.
  assert (Hn3 : NoDup (inorder (plug k (Node c l n r)))).
  { rewrite inorder_plug_perm in Hn2 |- *. simpl in *. rewrite <- Permutation_middle in Hn2 |- *. simpl in *.
    apply NoDup_cons in Hn2 as [Hx [_ Hy]%NoDup_cons]. apply NoDup_cons. set_solver. }
  expose_tree Hn2 [PNode n; PTree l; PNode v; PTree r; PPlace k].
  unfold rb_replace_node. repeat rb_step. simpl. rewrite parent_of_word by done.
  eapply wp_change_child; [done..|]. intros h1 R1 Hk1 Hr1 Hs1 Ho1.
  assert (Hl1 : rep h1 v l) by node_rep. assert (Hrr1 : rep h1 v r) by node_rep.
  assert (Hv1 : h1 !! v = Some (RbNode (word (above 0 k) c) (ptr r) (ptr l))) by look.
  assert (Hn1 : h1 !! n = Some nn) by look.
  do 2 rb_step. simpl. rb_step. apply (wp_reparent_keep l v n); [done|auto|].
  do 2 rb_step. simpl. rb_step. apply (wp_reparent_keep r v n); [node_rep|auto|].
  rb_step. set (h3 := reparent (reparent h1 l n (root_color l)) r n (root_color r)).
  assert (Hv3 : h3 !! v = Some (RbNode (word (above 0 k) c) (ptr r) (ptr l))) by (unfold h3; look).
  assert (Hn4 : h3 !! n = Some nn) by (unfold h3; look).
  unfold wp, get_node, upd_node. simpl. rewrite Hv3. simpl. rewrite Hn4. simpl. apply HQ.
  - eapply tree_at_plug; simpl; [|done|done| |done]; [unfold h3; node_rep|].
    split; [done|]. split; [look|]. unfold h3. split; node_rep.
  - apply only_insert; [clear; set_solver|by eexists|]. unfold h3.
    apply only_reparent; [clear; set_solver|node_rep|]. apply only_reparent; [clear; set_solver|node_rep|].
    eapply only_weaken; [|exact Ho1]. clear. set_solver.
Qed.
End Walk.

(** ** The heap determines the tree *)

Lemma word_inj p c c' : good_or_null p → word p c = word p c' → c = c'.
Proof. intros Hp H. apply (f_equal __rb_color) in H. rewrite !color_of_word in H by done. by destruct c, c'. Qed.

Lemma rep_unique h t : ∀ p t', good_or_null p → rep h p t → rep h p t' → ptr t = ptr t' → t = t'.
Proof.
  induction t as [|c l IHl a r IHr]; intros p [|c' l' a' r'] Hp; simpl; [done|..].
  - intros _ ([] & _) ?. lia.
  - intros ([] & _) _ ?. lia.
  - intros (Hg & Ha & Hl & Hr) (_ & Ha' & Hl' & Hr') <-. rewrite Ha in Ha'. injection Ha' as Hw Hpr Hpl.
    apply word_inj in Hw as ->; [|done]. rewrite (IHl a l'), (IHr a r'); auto.
Qed.

Lemma tree_at_unique {A} (s : rb_state A) root T T' : tree_at s root T → tree_at s root T' → T = T'.
Proof. intros [H1 H2 _] [H1' H2' _]. eapply rep_unique; [|done..|congruence]. auto. Qed.
