(* ===== verification/RbTreeThm.v ===== *)
(** * RbTreeThm: the red-black trees of the kernel are correct

    Insertion, removal and replacement as operations on the sequence of nodes, the
    walks, and the balance of every tree that is built with these operations. *)

From S2P Require Import Prelude RbTree RbTreeShape RbTreeHeap RbTreeBalance.
From S2P Require Import RbTreeInsert RbTreeErase RbTreeRemove RbTreeWalk.

(** A node that can be added: allocated, aligned, and not in the tree. *)
Definition fresh {A} (s : rb_state A) (T : tree) (n : Z) : Prop :=
  good_ptr n ∧ n ∉ inorder T ∧ is_Some (rb_nodes s !! n).

(** Everything a change of the tree promises: the new nodes in order, the balance,
    and nothing else touched. *)
Definition changed {A} (root : Z) (s : rb_state A) (l : list Z) (s' : rb_state A) : Prop :=
  ∃ T', tree_at s' root T' ∧ rb_tree T' ∧ inorder T' = l ∧ only l root s s'.

Section Dummy.
Context {A : Type}.

Lemma dummy_benign (m : prog (rb_state A) unit) : m = mret tt → benign m.
Proof. intros -> h R u. by exists u. Qed.

Lemma rb_erase_dummy n root (s : rb_state A) : rb_erase n root s = rb_erase_augmented n root dummy_callbacks s.
Proof. done. Qed.

(** ** Operations *)

Inductive rb_op : Type :=
  | RbInsert (k : place) (n : Z)   (* rb_link_node at an empty place, rb_insert_color *)
  | RbErase (n : Z)
  | RbReplace (v n : Z).

Definition run_op (root : Z) (op : rb_op) : prog (rb_state A) unit :=
  match op with
  | RbInsert k n => _ ← rb_link_node n (above 0 k) (slot_of root k); rb_insert_color n root
  | RbErase n => rb_erase n root
  | RbReplace v n => rb_replace_node v n root
  end.

Definition op_ok (s : rb_state A) (T : tree) (op : rb_op) : Prop :=
  match op with
  | RbInsert k n => T = plug k Leaf ∧ fresh s T n
  | RbErase n => n ∈ inorder T
  | RbReplace v n => v ∈ inorder T ∧ fresh s T n
  end.

(** What an operation does to the sequence of nodes. *)
Definition op_order (l : list Z) (op : rb_op) (l' : list Z) : Prop :=
  match op with
  | RbInsert k n => l = before k ++ after k ∧ l' = before k ++ n :: after k
  | RbErase n => ∃ l1 l2, l = l1 ++ n :: l2 ∧ l' = l1 ++ l2
  | RbReplace v n => ∃ l1 l2, l = l1 ++ v :: l2 ∧ l' = l1 ++ n :: l2
  end.

Lemma insert_op root k n (s : rb_state A) :
  tree_at s root (plug k Leaf) → rb_tree (plug k Leaf) → fresh s (plug k Leaf) n →
  wp (run_op root (RbInsert k n)) (λ _, changed root s (before k ++ n :: after k)) s.
Proof.
  intros Ht Hb (Hg & Hn & Hs). apply rb_insert_ok; [by intros; apply dummy_benign|done..|].
  intros s' T' H1 H2 H3 H4. exists T'. by rewrite <- H3.
Qed.

Lemma erase_op root T n l1 l2 (s : rb_state A) :
  tree_at s root T → rb_tree T → inorder T = l1 ++ n :: l2 →
  wp (run_op root (RbErase n)) (λ _, changed root s (l1 ++ l2)) s.
Proof.
  intros Ht Hb He. destruct (find_split _ _ _ _ (ta_nodup _ _ _ Ht) He) as (k & c & l & r & -> & -> & ->).
  change (run_op root (RbErase n)) with (rb_erase_augmented n root (dummy_callbacks (A := A))).
  eapply rb_erase_ok; [by intros; apply dummy_benign..|done|done|].
  intros s' T' H1 H2 H3 H4. exists T'.
  assert ((before k ++ inorder l) ++ inorder r ++ after k = inorder T') as -> by by rewrite H3, <- !app_assoc.
  done.
Qed.

Lemma replace_op root T v n l1 l2 (s : rb_state A) :
  tree_at s root T → rb_tree T → inorder T = l1 ++ v :: l2 → fresh s T n →
  wp (run_op root (RbReplace v n)) (λ _, changed root s (l1 ++ n :: l2)) s.
Proof.
  intros Ht Hb He (Hg & Hn & Hs).
  destruct (find_split _ _ _ _ (ta_nodup _ _ _ Ht) He) as (k & c & l & r & -> & -> & ->).
  eapply rb_replace_ok; [done..|]. intros s' H1 H2. exists (plug k (Node c l n r)).
  assert (inorder (plug k (Node c l n r)) = (before k ++ inorder l) ++ n :: inorder r ++ after k) as H3.
  { rewrite inorder_plug. simpl. by rewrite <- !app_assoc. }
  rewrite <- H3. split; [done|]. split; [by eapply rb_tree_rename|done].
Qed.

Lemma op_changes root op T (s : rb_state A) :
  tree_at s root T → rb_tree T → op_ok s T op →
  wp (run_op root op) (λ _ s', ∃ l, op_order (inorder T) op l ∧ changed root s l s') s.
Proof.
  intros Ht Hb Hop. destruct op as [k n|n|v n].
  - destruct Hop as [-> Hf]. eapply wp_mono; [by apply insert_op|]. intros [] s' H.
    eexists. split; [|done]. split; [by rewrite inorder_plug|done].
  - apply list_elem_of_split in Hop as (l1 & l2 & He).
    eapply wp_mono; [by eapply erase_op|]. simpl. eauto 10.
  - destruct Hop as [Hv Hf]. apply list_elem_of_split in Hv as (l1 & l2 & He).
    eapply wp_mono; [by eapply replace_op|]. simpl. eauto 10.
Qed.

(** Steps of a user of the tree. *)
Inductive op_step (root : Z) : rb_state A → rb_state A → Prop :=
  | do_op s s' T op : tree_at s root T → op_ok s T op → run_op root op s = Some (tt, s') → op_step root s s'.

Lemma op_step_inv root s s' T :
  tree_at s root T → rb_tree T → op_step root s s' → ∃ T', tree_at s' root T' ∧ rb_tree T'.
Proof.
  intros Ht Hb Hs. destruct Hs as [s s' T' op Ht' Hop Hrun].
  rewrite (tree_at_unique _ _ _ _ Ht' Ht) in Hop.
  destruct (proj1 (wp_elim _ _ _) (op_changes root op T s Ht Hb Hop)) as (a & s2 & Hrun' & l & _ & T2 & H1 & H2 & _).
  rewrite Hrun in Hrun'. injection Hrun' as <- <-. eauto.
Qed.

Lemma op_steps_inv root s s' :
  rb_roots s !! root = Some 0 → rtc (op_step root) s s' → ∃ T', tree_at s' root T' ∧ rb_tree T'.
Proof.
  intros Hr Hs. assert (∃ T, tree_at s root T ∧ rb_tree T) as (T & Ht & Hb).
  { exists Leaf. split; [split; try done; constructor|exists 0%nat; constructor]. }
  clear Hr. revert T Ht Hb. induction Hs as [s|s s1 s2 H1 _ IH]; intros T Ht Hb; [eauto|].
  destruct (op_step_inv _ _ _ _ Ht Hb H1) as (T1 & Ht1 & Hb1). by eapply IH.
Qed.

(** ** Theorems *)

(** C16: insertion.  Linking an allocated node that is not in the tree at an empty
    place of a red-black tree and calling rb_insert_color never goes wrong; the result
    is again a red-black tree (black root, no red node with a red child, equal black
    height on all paths, parent pointers in order) with the nodes in the old order and
    the new one where the place is, and no other node and no other root is touched. *)
Theorem rb_insert_color_correct root k n (s : rb_state A) :
  tree_at s root (plug k Leaf) → rb_tree (plug k Leaf) → fresh s (plug k Leaf) n →
  ∃ s' T', (_ ← rb_link_node n (above 0 k) (slot_of root k); rb_insert_color n root) s = Some (tt, s') ∧
    tree_at s' root T' ∧ rb_tree T' ∧ inorder T' = before k ++ n :: after k ∧
    only (before k ++ n :: after k) root s s'.
Proof.
  intros Ht Hb Hf. destruct (proj1 (wp_elim _ _ _) (insert_op root k n s Ht Hb Hf)) as ([] & s' & Hrun & T' & H).
  by exists s', T'.
Qed.

(** C15: removal.  rb_erase of a node of a red-black tree never goes wrong; the result
    is a red-black tree with the other nodes in the old order, and neither the node
    that is removed nor anything outside of the tree is touched. *)
Theorem rb_erase_correct root T n l1 l2 (s : rb_state A) :
  tree_at s root T → rb_tree T → inorder T = l1 ++ n :: l2 →
  ∃ s' T', rb_erase n root s = Some (tt, s') ∧
    tree_at s' root T' ∧ rb_tree T' ∧ inorder T' = l1 ++ l2 ∧ only (l1 ++ l2) root s s'.
Proof.
  intros Ht Hb He. destruct (proj1 (wp_elim _ _ _) (erase_op root T n l1 l2 s Ht Hb He)) as ([] & s' & Hrun & T' & H).
  by exists s', T'.
Qed.

(** C37: iteration.  rb_first and rb_last return the ends of the order, NULL for an
    empty tree, and rb_next and rb_prev the neighbours of a node, NULL at the ends;
    rb_replace_node puts a node in the place of another one in the order.  None of
    them goes wrong, and the walks change nothing. *)
Theorem rb_iteration_correct root T (s : rb_state A) : tree_at s root T → rb_tree T →
  rb_first root s = Some (default 0 (head (inorder T)), s) ∧
  rb_last root s = Some (default 0 (last (inorder T)), s) ∧
  (∀ n l1 l2, inorder T = l1 ++ n :: l2 →
     rb_next n s = Some (default 0 (head l2), s) ∧ rb_prev n s = Some (default 0 (last l1), s) ∧
     ∀ n', fresh s T n' → ∃ s' T', rb_replace_node n n' root s = Some (tt, s') ∧
       tree_at s' root T' ∧ rb_tree T' ∧ inorder T' = l1 ++ n' :: l2 ∧ only (l1 ++ n' :: l2) root s s').
Proof.
  intros Ht Hb. split; [by apply (rb_end_ok Lt)|]. split; [by apply (rb_end_ok Rt)|].
  intros n l1 l2 He. split; [by apply (rb_walk_ok Rt T n l1 l2 root)|].
  split; [by apply (rb_walk_ok Lt T n l1 l2 root)|]. intros n' Hf.
  destruct (proj1 (wp_elim _ _ _) (replace_op root T n n' l1 l2 s Ht Hb He Hf)) as ([] & s' & Hrun & T' & H).
  by exists s', T'.
Qed.

(** C38: the logarithmic bound.  Whatever insertions, removals and replacements are
    made from an empty root, the tree stays a red-black tree, its height is at most
    twice the logarithm of the number of nodes plus one, and every further operation
    on it runs to its end. *)
Theorem rb_height_bound root (s s' : rb_state A) :
  rb_roots s !! root = Some 0 → rtc (op_step root) s s' →
  ∃ T, tree_at s' root T ∧ rb_tree T ∧
    Z.of_nat (height T) ≤ 2 * Z.log2 (zlen (inorder T) + 1) ∧
    ∀ op, op_ok s' T op → ∃ s2, run_op root op s' = Some (tt, s2).
Proof.
  intros Hr Hs. destruct (op_steps_inv _ _ _ Hr Hs) as (T & Ht & Hb). exists T.
  split; [done|]. split; [done|]. split; [by apply rb_tree_height|]. intros op Hop.
  destruct (proj1 (wp_elim _ _ _) (op_changes root op T s' Ht Hb Hop)) as ([] & s2 & Hrun & _). eauto.
Qed.
End Dummy.

(** ** Examples *)

Module RbDemo.
(** Eight nodes, an empty root at 1, and the state after three insertions. *)
Definition heap0 : rb_heap :=
  list_to_map (map (λ a, (a, RbNode a 0 0)) [8; 16; 24; 32; 40; 48; 56; 64]).
Definition s0 : rb_state unit := RbState heap0 {[1 := 0]} tt.
Definition T3 : tree := Node Black (Node Red Leaf 8 Leaf) 16 (Node Red Leaf 24 Leaf).
Definition k3 : place := [Frame Rt Red 24 Leaf; Frame Rt Black 16 (Node Red Leaf 8 Leaf)].
Definition heap3 : rb_heap :=
  <[8 := RbNode 16 0 0]> (<[24 := RbNode 16 0 0]> (<[16 := RbNode 1 24 8]> heap0)).
Definition s3 : rb_state unit := RbState heap3 {[1 := 16]} tt.

Lemma T3_at : tree_at s3 1 T3.
Proof. split; [|done|]; [by vm_compute|]. apply (bool_decide_unpack _). by vm_compute. Qed.
Lemma T3_rb : rb_tree T3.
Proof. exists 1%nat. repeat econstructor. Qed.
Lemma fresh32 : fresh s3 T3 32.
Proof. split; [by vm_compute|]. split; [|by eexists]. simpl. set_solver. Qed.

(** Building the tree by running the code, and reading it with the walks. *)
Example build : (_ ← run_op 1 (RbInsert [] 8); _ ← run_op 1 (RbInsert [Frame Rt Black 8 Leaf] 16);
                 run_op 1 (RbInsert [Frame Rt Red 16 Leaf; Frame Rt Black 8 Leaf] 24)) s0 = Some (tt, s3).
Proof. by vm_compute. Qed.
Example walk : (a ← rb_first 1; b ← rb_next a; c ← rb_next b; d ← rb_next c; mret [a; b; c; d]) s3
               = Some ([8; 16; 24; 0], s3).
Proof. by vm_compute. Qed.

Lemma rb_insert_color_correct_witness :
  ∃ s' T', (_ ← rb_link_node 32 (above 0 k3) (slot_of 1 k3); rb_insert_color 32 1) s3 = Some (tt, s') ∧
    tree_at s' 1 T' ∧ rb_tree T' ∧ inorder T' = before k3 ++ 32 :: after k3 ∧
    only (before k3 ++ 32 :: after k3) 1 s3 s'.
Proof. exact (rb_insert_color_correct 1 k3 32 s3 T3_at T3_rb fresh32). Defined.

Lemma rb_erase_correct_witness :
  ∃ s' T', rb_erase 16 1 s3 = Some (tt, s') ∧ tree_at s' 1 T' ∧ rb_tree T' ∧
    inorder T' = [8; 24] ∧ only [8; 24] 1 s3 s'.
Proof. exact (rb_erase_correct 1 T3 16 [8] [24] s3 T3_at T3_rb eq_refl). Defined.

Lemma rb_iteration_correct_witness : rb_last 1 s3 = Some (24, s3).
Proof. exact (proj1 (proj2 (rb_iteration_correct 1 T3 s3 T3_at T3_rb))). Defined.

Definition s1 : rb_state unit := RbState (<[8 := RbNode 1 0 0]> heap0) {[1 := 8]} tt.
Lemma first_step : op_step 1 s0 s1.
Proof.
  apply (do_op 1 s0 s1 Leaf (RbInsert [] 8)); [by split; try done; constructor| |by vm_compute].
  split; [done|]. split; [by vm_compute|]. split; [|by eexists]. simpl. set_solver.
Qed.

Lemma rb_height_bound_witness :
  ∃ T, tree_at s1 1 T ∧ rb_tree T ∧ Z.of_nat (height T) ≤ 2 * Z.log2 (zlen (inorder T) + 1) ∧
    ∀ op, op_ok s1 T op → ∃ s2, run_op 1 op s1 = Some (tt, s2).
Proof. apply (rb_height_bound 1 s0 s1); [reflexivity|exact (rtc_once _ _ first_step)]. Defined.
End RbDemo.
