(* ===== verification/TimerQueue.v ===== *)
(** * TimerQueue: queues of timers ordered by expiration time

    [lib/timerqueue.c] and [include/linux/timerqueue.h], on the red-black trees of
    RbTree.  The rb_node is the first member of struct timerqueue_node and the
    rb_root the first one of struct timerqueue_head, so that rb_entry and container_of
    keep the address; the other members are the user data of the tree state. *)

From S2P Require Import Prelude RbTree.

Record timers : Type := Timers {
  expires : gmap Z Z;   (* struct timerqueue_node: expires.tv64, by node *)
  queue_next : gmap Z Z (* struct timerqueue_head: next, by head *)
}.
Notation tq_state := (rb_state timers).
Notation M := (prog tq_state).

Definition get_expires (node : Z) : M Z := λ s, e ← expires (rb_user s) !! node; Some (e, s).
Definition get_next (head : Z) : M Z := λ s, n ← queue_next (rb_user s) !! head; Some (n, s).
Definition set_next (head v : Z) : M unit :=
  λ s, _ ← queue_next (rb_user s) !! head;
       Some (tt, RbState (rb_nodes s) (rb_roots s)
                   (Timers (expires (rb_user s)) (<[head := v]> (queue_next (rb_user s))))).

(** while ( *p ) ...: the place for the node and its parent. *)
Fixpoint add_search (fuel : nat) (node : Z) (p : rb_slot) (parent : Z) : M (rb_slot * Z) :=
  match fuel with
  | O => wrong
  | S fuel =>
      c ← read_slot p;
      if c =? NULL then mret (p, parent)
      else
        let parent := c in
        e ← get_expires node;
        e' ← get_expires parent;
        add_search fuel node (if e <? e' then ChildSlot Lt c else ChildSlot Rt c) parent
  end.

(** WARN_ON_ONCE only prints. *)
Definition timerqueue_add (head node : Z) : M unit :=
  warn ← RB_EMPTY_NODE node;
  fuel ← path_fuel;
  '(p, parent) ← add_search fuel node (RootSlot head) NULL;
  _ ← rb_link_node node parent p;
  _ ← rb_insert_color node head;
  next ← get_next head;
  if next =? NULL then set_next head node
  else
    e ← get_expires node;
    e' ← get_expires next;
    if e <? e' then set_next head node else mret tt.

Definition timerqueue_del (head node : Z) : M unit :=
  warn ← RB_EMPTY_NODE node;
  next ← get_next head;
  _ ← (if next =? node then rbn ← rb_next node; set_next head rbn else mret tt);
  _ ← rb_erase node head;
  RB_CLEAR_NODE node.

Definition timerqueue_iterate_next (node : Z) : M Z :=
  if node =? NULL then mret NULL
  else
    next ← rb_next node;
    if next =? NULL then mret NULL else mret next.

Definition timerqueue_getnext (head : Z) : M Z := get_next head.
Definition timerqueue_init (node : Z) : M unit := RB_CLEAR_NODE node.
Definition timerqueue_init_head (head : Z) : M unit :=
  _ ← set_root head NULL;
  set_next head NULL.
