(* ===== verification/TimerQueueThm.v ===== *)
(** * TimerQueueThm: the timer queue is a stable priority queue *)

From stdpp Require Import sorting.
From S2P Require Import Prelude RbTree RbTreeShape RbTreeHeap RbTreeBalance.
From S2P Require Import RbTreeInsert RbTreeErase RbTreeRemove RbTreeWalk RbTreeThm TimerQueue.

(** ** Tree operations keep the data of their user *)

Class KeepsUser {A B} (m : prog (rb_state A) B) : Prop :=
  keeps_user : ∀ s b s', m s = Some (b, s') → rb_user s' = rb_user s.

Section Keeps.
Context {A : Type}.

#[export] Instance keeps_ret {B} (b : B) : KeepsUser (A := A) (mret b).
Proof. intros s b' s' H. by injection H as _ <-. Qed.
#[export] Instance keeps_bind {B C} (m : prog (rb_state A) B) (f : B → prog (rb_state A) C) :
  KeepsUser m → (∀ b, KeepsUser (f b)) → KeepsUser (m ≫= f).
Proof.
  intros Hm Hf s c s'. unfold mbind, prog_bind. destruct (m s) as [[b s1]|] eqn:E; [|done].
  intros H. rewrite (Hf b s1 c s' H). by eapply Hm.
Qed.
#[export] Instance keeps_if {B} (c : bool) (m1 m2 : prog (rb_state A) B) :
  KeepsUser m1 → KeepsUser m2 → KeepsUser (if c then m1 else m2).
Proof. by destruct c. Qed.
#[export] Instance keeps_when c (m : prog (rb_state A) unit) : KeepsUser m → KeepsUser (when c m).
Proof. destruct c; [done|]. intros _. apply keeps_ret. Qed.
#[export] Instance keeps_match {B C D} (o : option (C * D)) (f : C → D → prog (rb_state A) B) m :
  (∀ c d, KeepsUser (f c d)) → KeepsUser m →
  KeepsUser (match o with Some (c, d) => f c d | None => m end).
Proof. by destruct o as [[]|]. Qed.
#[export] Instance keeps_let {B C D} (p : C * D) (f : C → D → prog (rb_state A) B) :
  (∀ c d, KeepsUser (f c d)) → KeepsUser (let '(c, d) := p in f c d).
Proof. by destruct p. Qed.
#[export] Instance keeps_wrong {B} : KeepsUser (A := A) (B := B) wrong.
Proof. by intros s b s'. Qed.
#[export] Instance keeps_gets {B} (f : rb_state A → B) : KeepsUser (gets f).
Proof. intros s b s' H. by injection H as _ <-. Qed.
#[export] Instance keeps_get_node p : KeepsUser (A := A) (get_node p).
Proof. intros s b s' H. unfold get_node in H. destruct (rb_nodes s !! p); by simplify_eq/=. Qed.
#[export] Instance keeps_upd_node p f : KeepsUser (A := A) (upd_node p f).
Proof. intros s b s' H. unfold upd_node in H. destruct (rb_nodes s !! p); by simplify_eq/=. Qed.
#[export] Instance keeps_get_root r : KeepsUser (A := A) (get_root r).
Proof. intros s b s' H. unfold get_root in H. destruct (rb_roots s !! r); by simplify_eq/=. Qed.
#[export] Instance keeps_set_root r v : KeepsUser (A := A) (set_root r v).
Proof. intros s b s' H. unfold set_root in H. destruct (rb_roots s !! r); by simplify_eq/=. Qed.

Hint Unfold rb_parent rb_color rb_is_red rb_is_black rb_set_parent rb_set_parent_color rb_set_black
  rb_red_parent get_child set_child get_word set_word __rb_change_child __rb_rotate_set_parents path_fuel
  RB_EMPTY_NODE RB_CLEAR_NODE rb_link_node write_slot : keeps.

#[export] Instance keeps_link n p l : KeepsUser (A := A) (rb_link_node n p l).
Proof. destruct l; autounfold with keeps; apply _. Qed.

#[export] Instance keeps_insert_loop fuel n p root : KeepsUser (A := A) (insert_loop dummy_rotate fuel n p root).
Proof.
  revert n p. induction fuel; intros; cbn [insert_loop]; [apply _|].
  unfold insert_side, insert_case1, insert_case2, insert_case3, dummy_rotate. autounfold with keeps. apply _.
Qed.
#[export] Instance keeps_insert n root : KeepsUser (A := A) (rb_insert_color n root).
Proof. unfold rb_insert_color, __rb_insert. autounfold with keeps. apply _. Qed.

#[export] Instance keeps_erase_loop fuel n p root : KeepsUser (A := A) (erase_loop dummy_rotate fuel n p root).
Proof.
  revert n p. induction fuel; intros; cbn [erase_loop]; [apply _|].
  unfold erase_side, erase_black, erase_case1, erase_case2, erase_case3, erase_case4, dummy_rotate.
  autounfold with keeps. apply _.
Qed.
#[export] Instance keeps_leftmost fuel a b : KeepsUser (A := A) (leftmost_loop fuel a b).
Proof. revert a b. induction fuel; intros; cbn [leftmost_loop]; autounfold with keeps; apply _. Qed.
#[export] Instance keeps_erase_augmented n root : KeepsUser (A := A) (__rb_erase_augmented n root dummy_callbacks).
Proof.
  unfold __rb_erase_augmented, erase_successor, erase_splice, dummy_callbacks. cbn [propagate copy rotate].
  unfold dummy_propagate, dummy_copy. autounfold with keeps. apply _.
Qed.
#[export] Instance keeps_erase n root : KeepsUser (A := A) (rb_erase n root).
Proof. unfold rb_erase, ____rb_erase_color. autounfold with keeps. apply _. Qed.
End Keeps.

(** ** The abstract queue *)

(** Expiration times; every node of a queue has one. *)
Definition expiry (s : tq_state) (n : Z) : Z := default 0 (expires (rb_user s) !! n).

(** A timer goes behind all timers that do not expire later. *)
Definition enqueue (e : Z → Z) (n : Z) (l : list Z) : list Z :=
  filter (λ x, e x ≤ e n) l ++ n :: filter (λ x, e n < e x) l.

Record queue_at (s : tq_state) (hd : Z) (l : list Z) : Prop := {
  qa_tree : ∃ T, tree_at s hd T ∧ rb_tree T ∧ inorder T = l;
  qa_expires : ∀ n, n ∈ l → is_Some (expires (rb_user s) !! n);
  qa_sorted : StronglySorted (λ x y, expiry s x ≤ expiry s y) l;
  qa_next : queue_next (rb_user s) !! hd = Some (default 0 (head l))
}.

Section Search.
Context (s : tq_state) (hd node : Z).
Context (Hnode : is_Some (expires (rb_user s) !! node)).

Lemma get_expires_ok n : is_Some (expires (rb_user s) !! n) → get_expires n s = Some (expiry s n, s).
Proof. intros [e He]. unfold get_expires, expiry. by rewrite He. Qed.

Lemma read_slot_ok k t : tree_at s hd (plug k t) → read_slot (slot_of hd k) s = Some (ptr t, s).
Proof.
  intros [Hrep Hr _]. destruct s as [h R u]. simpl in Hrep, Hr. rewrite ptr_plug in Hr.
  destruct k as [|[d c a t'] k]; simpl.
  - unfold get_root. simpl in *. by rewrite Hr.
  - apply rep_plug in Hrep as [(_ & Ha & _) _]. unfold get_child, get_node, mbind, prog_bind. simpl.
    rewrite Ha. simpl. by rewrite child_mk.
Qed.

(** The search ends at an empty place behind the timers that do not expire later. *)
Lemma add_search_ok t : ∀ fuel k, tree_at s hd (plug k t) → (height t < fuel)%nat →
  (∀ n, n ∈ inorder (plug k t) → is_Some (expires (rb_user s) !! n)) →
  StronglySorted (λ x y, expiry s x ≤ expiry s y) (inorder (plug k t)) →
  Forall (λ x, expiry s x ≤ expiry s node) (before k) → Forall (λ x, expiry s node < expiry s x) (after k) →
  ∃ k', add_search fuel node (slot_of hd k) (above 0 k) s = Some ((slot_of hd k', above 0 k'), s) ∧
    plug k' Leaf = plug k t ∧
    Forall (λ x, expiry s x ≤ expiry s node) (before k') ∧ Forall (λ x, expiry s node < expiry s x) (after k').
Proof.
  induction t as [|c l IHl a r IHr]; intros fuel k Ht Hf He Hs Hb Ha; (destruct fuel as [|fuel]; [lia|]);
    cbn [add_search]; unfold mbind, prog_bind; rewrite (read_slot_ok _ _ Ht); cbn [ptr].
  { by exists k. }
  assert (good_ptr a) as Hga.
  { destruct (rep_elem _ _ _ a (ta_rep _ _ _ Ht)) as [H _]; [|done]. rewrite inorder_plug_perm. set_solver. }
  replace (a =? 0) with false by (unfold good_ptr in Hga; lia).
  rewrite get_expires_ok by done. rewrite get_expires_ok by (apply He; set_solver).
  simpl in Hf. assert (Hs' := Hs). rewrite inorder_plug in Hs'. simpl in Hs'.
  rewrite <- app_assoc, app_assoc in Hs'. apply StronglySorted_app in Hs' as (Hba & _ & [Har _]%StronglySorted_cons).
  rewrite Forall_forall in Har. destruct (Z.ltb_spec (expiry s node) (expiry s a)).
  - destruct (IHl fuel (Frame Lt c a r :: k)) as (k' & Hk'); [done|lia|done|done|done| |by exists k'].
    simpl. apply Forall_cons. split; [done|]. apply Forall_app. split; [|done].
    apply Forall_forall. intros x Hx. specialize (Har x). simpl in Har. enough (expiry s a ≤ expiry s x) by lia.
    apply Har. set_solver.
  - destruct (IHr fuel (Frame Rt c a l :: k)) as (k' & Hk'); [done|lia|done|done| |done|by exists k'].
    simpl. apply Forall_app. split; [done|]. apply Forall_app. split; [|by apply Forall_singleton].
    apply Forall_forall. intros x Hx. enough (expiry s x ≤ expiry s a) by lia. apply Hba; set_solver.
Qed.
End Search.

Lemma filter_all (P : Z → Prop) `{∀ x, Decision (P x)} l : Forall P l → filter P l = l.
Proof. induction 1; [done|]. rewrite filter_cons_True by done. by f_equal. Qed.
Lemma filter_none (P : Z → Prop) `{∀ x, Decision (P x)} l : Forall (λ x, ¬ P x) l → filter P l = [].
Proof. induction 1; [done|]. by rewrite filter_cons_False. Qed.

Lemma enqueue_split (e : Z → Z) n l1 l2 :
  Forall (λ x, e x ≤ e n) l1 → Forall (λ x, e n < e x) l2 → enqueue e n (l1 ++ l2) = l1 ++ n :: l2.
Proof.
  intros H1 H2. unfold enqueue. rewrite !filter_app.
  rewrite (filter_all _ l1), (filter_none _ l2), app_nil_r;
    [|by eapply Forall_impl; [done|]; simpl; lia..|done].
  rewrite (filter_none _ l1), (filter_all _ l2); [done|done|].
  by eapply Forall_impl; [done|]; simpl; lia.
Qed.

Lemma height_length t : (height t ≤ length (inorder t))%nat.
Proof. induction t; simpl; [done|]. rewrite length_app. simpl. lia. Qed.

(** Equal expiration times make the same queue. *)
Lemma sorted_expiry s s' l :
  expires (rb_user s') = expires (rb_user s) →
  StronglySorted (λ x y, expiry s x ≤ expiry s y) l → StronglySorted (λ x y, expiry s' x ≤ expiry s' y) l.
Proof. intros He. unfold expiry. by rewrite He. Qed.

Lemma sorted_enqueue (e : Z → Z) n l1 l2 :
  StronglySorted (λ x y, e x ≤ e y) (l1 ++ l2) →
  Forall (λ x, e x ≤ e n) l1 → Forall (λ x, e n < e x) l2 →
  StronglySorted (λ x y, e x ≤ e y) (l1 ++ n :: l2).
Proof.
  intros (Hx & H1 & H2)%StronglySorted_app Hl1 Hl2. rewrite !Forall_forall in *.
  apply StronglySorted_app. split; [|split; [done|]].
  - intros x y Hin [->|Hy]%elem_of_cons; auto.
  - apply StronglySorted_cons. split; [|done]. apply Forall_forall. intros y Hy. specialize (Hl2 y Hy). lia.
Qed.

(** A timer that can be started: allocated, with an expiration time, not queued. *)
Record startable (s : tq_state) (n : Z) (l : list Z) : Prop := {
  sa_good : good_ptr n;
  sa_fresh : n ∉ l;
  sa_node : is_Some (rb_nodes s !! n);
  sa_expires : is_Some (expires (rb_user s) !! n)
}.

(** What the operations leave alone. *)
Definition tq_only (l : list Z) (hd : Z) (s s' : tq_state) : Prop :=
  only l hd s s' ∧ expires (rb_user s') = expires (rb_user s) ∧
  ∀ h, h ≠ hd → queue_next (rb_user s') !! h = queue_next (rb_user s) !! h.

Lemma wp_run {S B} (m : prog S B) (Q : B → S → Prop) s b s' : m s = Some (b, s') → Q b s' → wp m Q s.
Proof. unfold wp. by intros ->. Qed.

Lemma wp_bind_assoc {S B C D} (m1 : prog S B) (m2 : B → prog S C) (f : C → prog S D) Q s :
  wp (m1 ≫= m2) (λ c, wp (f c) Q) s → wp (b ← m1; c ← m2 b; f c) Q s.
Proof. unfold wp, mbind, prog_bind. destruct (m1 s) as [[b s1]|]; [|done]. by destruct (m2 b s1) as [[]|]. Qed.

Lemma wp_keeps {A B} (m : prog (rb_state A) B) `{!KeepsUser m} (Q : B → rb_state A → Prop) s :
  wp m Q s → wp m (λ b s', rb_user s' = rb_user s ∧ Q b s') s.
Proof. unfold wp. destruct (m s) as [[b s']|] eqn:E; [|done]. intros. split; [by eapply keeps_user|done]. Qed.

Lemma RB_EMPTY_NODE_ok {A} n (s : rb_state A) nn :
  rb_nodes s !! n = Some nn → RB_EMPTY_NODE n s = Some (__rb_parent_color nn =? n, s).
Proof. intros H. unfold RB_EMPTY_NODE, get_word, get_node, mbind, prog_bind. by rewrite H. Qed.

Lemma set_next_ok hd v s n :
  queue_next (rb_user s) !! hd = Some n →
  set_next hd v s = Some (tt, RbState (rb_nodes s) (rb_roots s)
    (Timers (expires (rb_user s)) (<[hd := v]> (queue_next (rb_user s))))).
Proof. intros H. unfold set_next. by rewrite H. Qed.

(** The queue after a change of the tree, once the next pointer is right. *)
Lemma queue_changed s s1 u2 hd l :
  changed hd s l s1 → expires u2 = expires (rb_user s) →
  (∀ n, n ∈ l → is_Some (expires (rb_user s) !! n)) →
  StronglySorted (λ x y, expiry s x ≤ expiry s y) l →
  queue_next u2 !! hd = Some (default 0 (head l)) →
  (∀ h, h ≠ hd → queue_next u2 !! h = queue_next (rb_user s) !! h) →
  let s2 := RbState (rb_nodes s1) (rb_roots s1) u2 in queue_at s2 hd l ∧ tq_only l hd s s2.
Proof.
  intros (T & [Hr Hro Hn] & Hb & Hio & Hon) He Hl Hs Hnx Hfr s2. split; [|by split].
  split; simpl; [exists T; split; [by split|done]|by rewrite He| |done].
  by eapply sorted_expiry.
Qed.

(** The comparison with head->next finds the new first timer. *)
Lemma next_head (e : Z → Z) n l1 l2 :
  StronglySorted (λ x y, e x ≤ e y) (l1 ++ l2) → Forall (λ x, e x ≤ e n) l1 → Forall (λ x, e n < e x) l2 →
  match head (l1 ++ l2) with Some x => if e n <? e x then n else x | None => n end = default 0 (head (l1 ++ n :: l2)).
Proof.
  intros _ H1 H2. destruct l1 as [|x l1]; simpl.
  - destruct l2 as [|x l2]; simpl; [done|]. apply Forall_cons in H2 as [H2 _].
    by replace (e n <? e x) with true by lia.
  - apply Forall_cons in H1 as [H1 _]. by replace (e n <? e x) with false by lia.
Qed.

(** The update of head->next in timerqueue_add. *)
Lemma add_next_ok hd n o s (Q : unit → tq_state → Prop) :
  queue_next (rb_user s) !! hd = Some (default 0 o) → is_Some (expires (rb_user s) !! n) →
  (∀ x, o = Some x → good_ptr x ∧ is_Some (expires (rb_user s) !! x)) →
  (∀ qn, qn !! hd = Some (match o with Some x => if expiry s n <? expiry s x then n else x | None => n end) →
     (∀ h, h ≠ hd → qn !! h = queue_next (rb_user s) !! h) →
     Q tt (RbState (rb_nodes s) (rb_roots s) (Timers (expires (rb_user s)) qn))) →
  wp (next ← get_next hd;
      if next =? NULL then set_next hd n
      else e ← get_expires n; e' ← get_expires next; if e <? e' then set_next hd n else mret tt) Q s.
Proof.
  intros Hq Hn Ho HQ. assert (Hset : ∀ v, wp (set_next hd v) (λ _ s',
    s' = RbState (rb_nodes s) (rb_roots s) (Timers (expires (rb_user s)) (<[hd := v]> (queue_next (rb_user s))))) s).
  { intros v. eapply wp_run; [by eapply set_next_ok|done]. }
  apply wp_bind. eapply wp_run; [unfold get_next; by rewrite Hq|].
  destruct o as [x|]; simpl in *.
  - destruct (Ho x eq_refl) as [[] Hx]. replace (x =? 0) with false by lia.
    apply wp_bind. eapply wp_run; [by apply get_expires_ok|]. apply wp_bind.
    eapply wp_run; [by apply get_expires_ok|]. destruct (expiry s n <? expiry s x).
    + eapply wp_mono; [apply Hset|]. intros [] ? ->. apply HQ; [apply lookup_insert_eq|].
      intros h Hh. by apply lookup_insert_ne.
    + apply wp_ret. destruct s as [h R [ex qn]]. by apply (HQ qn).
  - eapply wp_mono; [apply Hset|]. intros [] ? ->. apply HQ; [apply lookup_insert_eq|].
    intros h Hh. by apply lookup_insert_ne.
Qed.

Lemma timerqueue_add_ok s hd n l :
  queue_at s hd l → startable s n l →
  wp (timerqueue_add hd n) (λ _ s',
    queue_at s' hd (enqueue (expiry s) n l) ∧ tq_only (enqueue (expiry s) n l) hd s s') s.
Proof.
  intros [(T & Ht & Hb & <-) He Hs Hnx] [Hg Hf [nn Hnode] Hen].
  pose proof (rep_size _ _ _ (ta_rep _ _ _ Ht) (ta_nodup _ _ _ Ht)) as Hsz. pose proof (height_length T) as Hh.
  destruct (add_search_ok s hd n Hen T (S (size (rb_nodes s))) []) as (k & Hsrch & Hk & Hbk & Hak); try done; [lia|].
  simpl in Hk. subst T. rewrite inorder_plug in He, Hs, Hnx, Hf |- *. simpl in He, Hs, Hnx, Hf |- *.
  rewrite enqueue_split by done. unfold timerqueue_add.
  apply wp_bind. eapply wp_run; [by apply RB_EMPTY_NODE_ok|]. apply wp_bind, wp_path_fuel.
  apply wp_bind. eapply wp_run; [exact Hsrch|]. apply wp_bind_assoc.
  eapply wp_mono; [apply wp_keeps; [apply _|]; apply (insert_op hd k n s Ht Hb)|].
  { split; [done|]. split; [by rewrite inorder_plug|by eexists]. }
  intros [] s1 [Hu Hch]. assert (Hne : ∀ x, x ∈ before k ++ n :: after k → is_Some (expires (rb_user s) !! x)).
  { intros x. rewrite elem_of_app, elem_of_cons. intros [H|[->|H]]; [apply He|done|apply He]; set_solver. }
  pose proof (sorted_enqueue _ _ _ _ Hs Hbk Hak) as Hs2. pose proof (next_head _ _ _ _ Hs Hbk Hak) as Hhd.
  eapply (add_next_ok hd n (head (before k ++ after k))); [by rewrite Hu|by rewrite Hu| |].
  { intros x Hx. assert (x ∈ before k ++ after k) by (destruct (before k ++ after k); simplify_eq/=; set_solver).
    rewrite Hu. split; [|by apply He]. apply (rep_elem _ _ _ x (ta_rep _ _ _ Ht)). by rewrite inorder_plug. }
  intros qn Hqn Hfr. eapply (queue_changed s s1 (Timers _ qn)); [done|by rewrite Hu|done|done| |by rewrite Hu in Hfr].
  rewrite <- Hhd. simpl. rewrite Hqn. unfold expiry. by rewrite Hu.
Qed.

Lemma sorted_remove (e : Z → Z) l1 n l2 :
  StronglySorted (λ x y, e x ≤ e y) (l1 ++ n :: l2) → StronglySorted (λ x y, e x ≤ e y) (l1 ++ l2).
Proof.
  intros (Hx & H1 & [_ H2]%StronglySorted_cons)%StronglySorted_app. apply StronglySorted_app.
  split; [|done]. intros x y Hx1 Hy. apply Hx; set_solver.
Qed.

(** The update of head->next in timerqueue_del. *)
Lemma del_next_ok s hd n l1 l2 T :
  tree_at s hd T → inorder T = l1 ++ n :: l2 →
  queue_next (rb_user s) !! hd = Some (default 0 (head (l1 ++ n :: l2))) →
  wp (if default 0 (head (l1 ++ n :: l2)) =? n then rbn ← rb_next n; set_next hd rbn else mret tt)
     (λ _ s', ∃ qn, s' = RbState (rb_nodes s) (rb_roots s) (Timers (expires (rb_user s)) qn) ∧
        qn !! hd = Some (default 0 (head (l1 ++ l2))) ∧
        ∀ h, h ≠ hd → qn !! h = queue_next (rb_user s) !! h) s.
Proof.
  intros Ht Hio Hq. pose proof (ta_nodup _ _ _ Ht) as Hnd. rewrite Hio in Hnd. destruct l1 as [|x l1]; simpl.
  - rewrite Z.eqb_refl. apply wp_bind.
    eapply wp_run; [by apply (rb_walk_ok Rt T n [] l2 hd)|].
    eapply wp_run; [by eapply set_next_ok|]. eexists. split; [done|].
    split; [apply lookup_insert_eq|]. intros h Hh. by apply lookup_insert_ne.
  - apply NoDup_cons in Hnd as [Hx _]. replace (x =? n) with false by (symmetry; apply Z.eqb_neq; set_solver).
    apply wp_ret. exists (queue_next (rb_user s)). by destruct s as [? ? []].
Qed.

Lemma tree_at_user {A} h R (u v : A) root T : tree_at (RbState h R u) root T → tree_at (RbState h R v) root T.
Proof. by intros []. Qed.

Lemma timerqueue_del_ok s hd n l1 l2 :
  queue_at s hd (l1 ++ n :: l2) →
  wp (timerqueue_del hd n) (λ _ s',
    queue_at s' hd (l1 ++ l2) ∧ RB_EMPTY_NODE n s' = Some (true, s') ∧
    tq_only (l1 ++ n :: l2) hd s s') s.
Proof.
  intros [(T & Ht & Hb & Hio) He Hs Hnx].
  destruct (rep_elem _ _ _ n (ta_rep _ _ _ Ht)) as [Hg [nn Hnode]]; [rewrite Hio; set_solver|].
  pose proof (ta_nodup _ _ _ Ht) as Hnd. rewrite Hio in Hnd.
  unfold timerqueue_del. apply wp_bind. eapply wp_run; [by apply RB_EMPTY_NODE_ok|].
  apply wp_bind. eapply wp_run; [unfold get_next; by rewrite Hnx|]. cbv beta.
  apply wp_bind. eapply wp_mono; [by eapply del_next_ok|]. intros [] s1 (qn & -> & Hqn & Hfr).
  destruct s as [h R [ex q0]]. cbn [rb_nodes rb_roots rb_user expires queue_next] in *.
  apply wp_bind. eapply wp_mono; [apply wp_keeps; [apply _|]; eapply (erase_op hd T n l1 l2); [by eapply tree_at_user|done..]|].
  intros [] [h2 R2 u2] [Hu (T2 & Ht2 & Hb2 & Hio2 & Hon)]. simpl in Hu. subst u2.
  assert (Hn2 : n ∉ l1 ++ l2).
  { rewrite <- Permutation_middle in Hnd. by apply NoDup_cons in Hnd as [? _]. }
  assert (Hn3 : h2 !! n = Some nn) by (destruct Hon as (Ho & _); simpl in Ho; by rewrite Ho).
  eapply wp_set_word; [done|]. set (h3 := <[n := _]> h2).
  assert (Ht3 : tree_at (RbState h3 R2 (Timers ex qn)) hd T2).
  { destruct Ht2 as [H1 H2 H3]. split; [|done|done]. apply rep_insert; [by rewrite Hio2|done]. }
  split; [|split; [|split; [|done]]].
  - split; simpl; [by exists T2| | |done].
    + intros x Hx. apply He. set_solver.
    + by eapply (sorted_remove _ _ n).
  - erewrite RB_EMPTY_NODE_ok by apply lookup_insert_eq. simpl. by rewrite Z.eqb_refl.
  - apply only_insert; [set_solver|by eexists|]. eapply (only_weaken (l1 ++ l2)); [set_solver|done].
Qed.

Lemma timerqueue_init_head_ok s hd :
  is_Some (rb_roots s !! hd) → is_Some (queue_next (rb_user s) !! hd) →
  wp (timerqueue_init_head hd) (λ _ s', queue_at s' hd [] ∧ tq_only [] hd s s') s.
Proof.
  destruct s as [h R u]. intros [r Hr] [q Hq]. unfold timerqueue_init_head. apply wp_bind.
  eapply wp_set_root; [done|]. eapply wp_run; [by eapply set_next_ok|]. split.
  - split; simpl; [|set_solver|constructor|apply lookup_insert_eq]. exists Leaf.
    split; [split; simpl; [done|apply lookup_insert_eq|constructor]|]. split; [by exists 0%nat; constructor|done].
  - split; [|split; [done|]]; [apply only_root; [by eexists|done]|].
    intros h' Hh. simpl. by apply lookup_insert_ne.
Qed.

Lemma timerqueue_iterate_ok s hd n l1 l2 :
  queue_at s hd (l1 ++ n :: l2) → timerqueue_iterate_next n s = Some (default 0 (head l2), s).
Proof.
  intros [(T & Ht & _ & Hio) _ _ _]. unfold timerqueue_iterate_next.
  destruct (rep_elem _ _ _ n (ta_rep _ _ _ Ht)) as [[] _]; [rewrite Hio; set_solver|].
  replace (n =? 0) with false by lia. unfold mbind, prog_bind, rb_next.
  rewrite (rb_walk_ok Rt T n l1 l2 hd s Ht Hio). unfold end_of. simpl.
  by destruct (Z.eqb_spec (default 0 (head l2)) 0) as [->|].
Qed.

(** ** Theorem *)

(** C18: the timer queue refines a stable priority queue.  For a queue that holds the
    timers [l] in order of expiration: timerqueue_getnext returns the first of them,
    NULL when there is none, and no timer expires before it; timerqueue_add puts a
    timer behind all timers that do not expire later; timerqueue_del takes a timer out
    and marks it as not queued; timerqueue_iterate_next returns the following timer;
    timerqueue_init_head makes an empty queue.  All of them run to their end, keep the
    tree balanced and touch no other queue and no expiration time. *)
Theorem timerqueue_refines hd l s :
  queue_at s hd l →
  (timerqueue_getnext hd s = Some (default 0 (head l), s) ∧
   ∀ x y, head l = Some x → y ∈ l → expiry s x ≤ expiry s y) ∧
  (∀ n, startable s n l → ∃ s', timerqueue_add hd n s = Some (tt, s') ∧
     queue_at s' hd (enqueue (expiry s) n l) ∧ tq_only (enqueue (expiry s) n l) hd s s') ∧
  (∀ n l1 l2, l = l1 ++ n :: l2 →
     timerqueue_iterate_next n s = Some (default 0 (head l2), s) ∧
     ∃ s', timerqueue_del hd n s = Some (tt, s') ∧ queue_at s' hd (l1 ++ l2) ∧
       RB_EMPTY_NODE n s' = Some (true, s') ∧ tq_only l hd s s') ∧
  (∃ s', timerqueue_init_head hd s = Some (tt, s') ∧ queue_at s' hd [] ∧ tq_only [] hd s s').
Proof.
  intros Hq. pose proof (qa_next _ _ _ Hq) as Hnx. split; [|split; [|split]].
  - split; [unfold timerqueue_getnext, get_next; by rewrite Hnx|]. intros x y Hx Hy.
    destruct l as [|z l]; simplify_eq/=. apply elem_of_cons in Hy as [->|Hy]; [done|].
    pose proof (qa_sorted _ _ _ Hq) as [Hall _]%StronglySorted_cons. rewrite Forall_forall in Hall. by apply Hall.
  - intros n Hst. destruct (proj1 (wp_elim _ _ _) (timerqueue_add_ok s hd n l Hq Hst)) as ([] & s' & H). eauto.
  - intros n l1 l2 ->. split; [by eapply timerqueue_iterate_ok|].
    destruct (proj1 (wp_elim _ _ _) (timerqueue_del_ok s hd n l1 l2 Hq)) as ([] & s' & H). eauto.
  - destruct (qa_tree _ _ _ Hq) as (T & Ht & _). pose proof (ta_root _ _ _ Ht) as Hr.
    destruct (proj1 (wp_elim _ _ _) (timerqueue_init_head_ok s hd ltac:(by eexists) ltac:(by eexists)))
      as ([] & s' & H). eauto.
Qed.

(** ** Example *)

Module TimerDemo.
Definition heap0 : rb_heap := list_to_map (map (λ a, (a, RbNode a 0 0)) [8; 16; 24; 32]).
Definition s0 : tq_state :=
  RbState heap0 {[100 := 0]} (Timers (list_to_map [(8, 50); (16, 20); (24, 50); (32, 70)]) {[100 := 0]}).

(** Timers with equal times leave in the order they came. *)
Example fifo :
  fst <$> (_ ← timerqueue_add 100 8; _ ← timerqueue_add 100 32; _ ← timerqueue_add 100 24;
           _ ← timerqueue_add 100 16; a ← timerqueue_getnext 100; _ ← timerqueue_del 100 a;
           b ← timerqueue_getnext 100; c ← timerqueue_iterate_next b; d ← timerqueue_iterate_next c;
           mret [a; b; c; d]) s0 = Some [16; 8; 24; 32].
Proof. by vm_compute. Qed.

Lemma empty_queue : queue_at s0 100 [].
Proof.
  split; [|set_solver|constructor|done]. exists Leaf.
  split; [by split; try done; constructor|]. split; [by exists 0%nat; constructor|done].
Qed.

Lemma timerqueue_refines_witness : ∃ s', timerqueue_add 100 8 s0 = Some (tt, s') ∧ queue_at s' 100 [8].
Proof.
  destruct (proj1 (proj2 (timerqueue_refines 100 [] s0 empty_queue)) 8) as (s' & H1 & H2 & _).
  - split; [by vm_compute|set_solver|by eexists|by eexists].
  - exists s'. exact (conj H1 H2).
Defined.
End TimerDemo.
