(* ===== verification/Cmdline.v ===== *)
(** * Cmdline: options of the kernel command line

    [lib/cmdline.c] with the pointers of Kstrtox: a pointer into a string is the list
    of bytes from it on.  [ints] is the array of the caller; a write outside of it goes
    wrong.  The kernel is compiled with -fno-strict-overflow, so that [int] wraps. *)

From S2P Require Import Prelude Strings Kstrtox.

Notation M := (prog (list Z)).

Definition rd_int (i : Z) : M Z := λ a, x ← rd a i; Some (x, a).
Definition wr_int (i x : Z) : M unit := λ a, a' ← wr a i x; Some (tt, a').

(** get_option: the result, the new *str, and the value stored in *pint, if any; a
    NULL string is [None]. *)
Definition get_option (str : option cptr) : option (Z * option cptr * option Z) :=
  match str with
  | None => Some (0, str, None)
  | Some cur =>
      c ← at_ cur 0;
      if c =? 0 then Some (0, str, None)
      else
        '(v, e) ← simple_strtol cur 0;
        let pint := Some (s32 v) in
        if bool_decide (cur = e) then Some (0, Some e, pint)
        else
          c ← at_ e 0;
          if c =? 44 then Some (2, Some (drop 1 e), pint)
          else if c =? 45 then Some (3, Some e, pint)
          else Some (1, Some e, pint)
  end.

(** for (x = *pint; x < upper_range; x++) *pint++ = x; [pint] is an index. *)
Definition range_loop (lo upper_range pint : Z) : M unit :=
  for_up (Z.to_nat (upper_range - lo)) 0 (λ k, wr_int (pint + k) (lo + k)).

(** get_range: the new *str and the number of values. *)
Definition get_range (str : cptr) (pint : Z) : M (cptr * Z) :=
  let str := drop 1 str in
  '(v, _) ← lift (simple_strtol str 0);
  let upper_range := s32 v in
  p ← rd_int pint;
  let inc_counter := s32 (upper_range - p) in
  _ ← range_loop p upper_range pint;
  mret (str, inc_counter).

(** The loop of get_options: the end of the string and [i].  Every round but the
    last one consumes a character. *)
Fixpoint options_loop (fuel : nat) (str : option cptr) (nints i : Z) : M (option cptr * Z) :=
  match fuel with
  | O => wrong
  | S fuel =>
      if i <? nints then
        '(res, str, pint) ← lift (get_option str);
        _ ← (match pint with Some v => wr_int i v | None => mret tt end);
        if res =? 0 then mret (str, i)
        else if res =? 3 then
          '(str', range_nums) ← get_range (default [] str) i;
          if range_nums <? 0 then mret (Some str', i)
          else options_loop fuel (Some str') nints (s32 (s32 (i + s32 (range_nums - 1)) + 1))
        else
          let i := s32 (i + 1) in
          if res =? 1 then mret (str, i) else options_loop fuel str nints i
      else mret (str, i)
  end.

Definition get_options (str : option cptr) (nints : Z) : M (option cptr) :=
  '(str', i) ← options_loop (S (length (default [] str))) str nints 1;
  _ ← wr_int 0 (s32 (i - 1));
  mret str'.

(** memparse: the value and the end pointer. *)
Definition memparse (ptr : cptr) : option (Z * cptr) :=
  '(ret, endptr) ← simple_strtoull ptr 0;
  c ← at_ endptr 0;
  let g := (c =? 71) || (c =? 103) in
  let m := g || (c =? 77) || (c =? 109) in
  let k := m || (c =? 75) || (c =? 107) in
  let ret := if g then ret <<64 10 else ret in
  let ret := if m then ret <<64 10 else ret in
  let ret := if k then ret <<64 10 else ret in
  let endptr := if k then drop 1 endptr else endptr in
  Some (ret, endptr).

(** ** The obsolete integer parsers *)

(** The number at the head of a string, unbounded, and what follows it. *)
Definition scan (base : Z) (s : list Z) : Z * list Z :=
  let '(ds, rest) := span_digits (radix s base) (after_prefix s base) in
  (value (radix s base) ds, rest).

Lemma simple_strtoull_ok s base : base = 0 ∨ 2 ≤ base ≤ 16 → text s → zlen s < 2 ^ 31 →
  simple_strtoull (s ++ [0]) base = Some (u64 (fst (scan base s)), snd (scan base s) ++ [0]).
Proof.
  intros Hb Ht Hl. unfold simple_strtoull. rewrite fixup_ok. cbn [mbind option_bind].
  pose proof (radix_range s base Hb) as Hr. pose proof (after_prefix_text s base Ht) as Ht'.
  pose proof (after_prefix_len s base) as Hl'. unfold scan.
  set (s1 := after_prefix s base) in *. set (b := radix s base) in *. unfold _parse_integer.
  pose proof (parse_loop_ok b s1 Hr Ht' 0 0 ltac:(lia) ltac:(lia) ltac:(lia)) as Hp.
  change (u64 0) with 0 in Hp. change (ULONG_MAX <? 0) with false in Hp. rewrite Hp.
  cbn [mbind option_bind]. rewrite Z.add_0_l.
  destruct (span_digits b s1) as [ds rest] eqn:Es. cbn [fst snd] in *. fold (value b ds).
  destruct (span_digits_app _ _ _ _ Es) as [Hd Hdl].
  destruct (overflow_bit (zlen ds) ltac:(lia)) as (_ & _ & Hm).
  assert (∀ o : bool, (if o then zlen ds .| KSTRTOX_OVERFLOW else zlen ds) .& u32 (Z.lnot KSTRTOX_OVERFLOW) = zlen ds) as Ho.
  { intros []; [|done]. rewrite Z.land_lor_distr_l, Hm. by rewrite Z.lor_0_r. }
  rewrite Ho, Nat2Z.id, drop_app_tail, Hd by lia. done.
Qed.

Lemma scan_text base s : text s → text (snd (scan base s)) ∧ (length (snd (scan base s)) ≤ length s)%nat.
Proof.
  intros Ht. unfold scan. destruct (span_digits _ _) as [ds rest] eqn:Es. simpl.
  destruct (span_digits_app _ _ _ _ Es) as [<- _].
  split; [apply text_drop, after_prefix_text, Ht|]. rewrite length_drop. pose proof (after_prefix_len s base). lia.
Qed.
