(* ===== verification/CmdlineThm.v ===== *)
(** * CmdlineThm: the option parsers are correct *)

From S2P Require Import Prelude Strings Kstrtox Vsprintf VsprintfThm Cmdline.

(** ** memparse *)

(** The power of two a suffix stands for, and what follows it. *)
Definition suffix (s : list Z) : Z * list Z :=
  match s with
  | c :: r =>
      if (c =? 71) || (c =? 103) then (30, r) else if (c =? 77) || (c =? 109) then (20, r)
      else if (c =? 75) || (c =? 107) then (10, r) else (0, s)
  | [] => (0, s)
  end.

Lemma u64_shiftl x n : 0 ≤ n → u64 (Z.shiftl (u64 x) n) = u64 (x * 2 ^ n).
Proof.
  intros Hn. rewrite Z.shiftl_mul_pow2 by done. unfold u64, wrap. by rewrite Zmult_mod_idemp_l.
Qed.

(** Memparse.  For every string memparse returns the number it starts with, in
    decimal, octal or hexadecimal by its prefix, times 2^10, 2^20 or 2^30 for a suffix
    K, M or G in either case, modulo 2^64, and the pointer behind what it has read. *)
Lemma memparse_correct s : text s → zlen s < 2 ^ 31 →
  let '(v, rest) := scan 0 s in let '(k, rest') := suffix rest in
  memparse (s ++ [0]) = Some (u64 (v * 2 ^ k), rest' ++ [0]).
Proof.
  intros Ht Hl. pose proof (simple_strtoull_ok s 0 ltac:(by left) Ht Hl) as Hs.
  destruct (scan_text 0 s Ht) as [Htr _]. destruct (scan 0 s) as [v rest]. cbn [fst snd] in *.
  unfold memparse. rewrite Hs. cbn [mbind option_bind]. destruct rest as [|c r]; simpl.
  { by rewrite Z.mul_1_r. }
  assert (Hsh : ∀ x, 0 ≤ x → u64 (Z.shiftl (u64 (v * 2 ^ x)) 10) = u64 (v * 2 ^ (x + 10))).
  { intros x Hx. rewrite u64_shiftl by lia. f_equal. rewrite Z.pow_add_r by lia. lia. }
  replace (u64 v) with (u64 (v * 2 ^ 0)) by (f_equal; lia).
  destruct ((c =? 71) || (c =? 103)); [|destruct (c =? 77), (c =? 109), (c =? 75), (c =? 107)]; cbn [orb];
    rewrite ?(Hsh 0), ?(Hsh (0 + 10)), ?(Hsh (0 + 10 + 10)) by lia; done.
Qed.

(** "64M," *)
Example memparse_demo : memparse ([54; 52; 77; 44] ++ [0]) = Some (2 ^ 26, [44; 0]).
Proof. apply (memparse_correct [54; 52; 77; 44]); [repeat constructor; lia|simpl; lia]. Defined.

(** ** Numbers in decimal *)

Definition is_dec (n : Z) (str : list Z) : Prop := ∃ ds, canon 10 n ds ∧ str = dec (reverse ds).

(** The characters that end a number. *)
Definition stops (rest : list Z) : Prop :=
  match rest with [] => True | c :: _ => c = 44 ∨ c = 45 end.

Lemma dec_text ds : Forall (λ d, 0 ≤ d < 10) ds → text (dec ds).
Proof. intros H. apply Forall_map. eapply Forall_impl; [exact H|]. simpl. lia. Qed.

Lemma is_dec_text n str : is_dec n str → text str ∧ str ≠ [].
Proof.
  intros (ds & (Hne & Hf & _) & ->). split; [by apply dec_text, Forall_reverse|].
  intros H%fmap_nil_inv%(f_equal reverse). by rewrite reverse_involutive in H.
Qed.

Lemma is_dec_nonneg n str : is_dec n str → 0 ≤ n.
Proof. intros (ds & (_ & Hf & <- & _) & _). induction Hf; simpl; lia. Qed.

Lemma span_dec b ds rest : 10 ≤ b ∨ ds = [0] ∧ b = 8 → Forall (λ d, 0 ≤ d < 10) ds → stops rest →
  span_digits b (dec ds ++ rest) = (ds, rest).
Proof.
  intros Hb Hf Hs. assert (Hr : span_digits b rest = ([], rest)).
  { destruct rest as [|c r]; [done|]. destruct Hs as [-> | ->]; done. }
  assert (Hlt : Forall (λ d, d < b) ds) by (destruct Hb as [?|[-> ->]]; [eapply Forall_impl; [exact Hf|]; simpl; lia|by repeat constructor]).
  clear Hb. induction Hf as [|d ds Hd _ IH]; [done|]. apply Forall_cons in Hlt as [Hdb Hlt].
  cbn [map app span_digits]. unfold digit_val. replace ((48 <=? d + 48) && (d + 48 <=? 57)) with true by lia.
  rewrite IH by done. replace (d + 48 - 48) with d by lia. by replace (d <? b) with true by lia.
Qed.

Lemma scan_dec n str rest : is_dec n str → stops rest → scan 0 (str ++ rest) = (n, rest).
Proof.
  intros (ds & (Hne & Hf & Hv & Hz) & ->) Hs. unfold scan.
  assert (Hrev : Forall (λ d, 0 ≤ d < 10) (reverse ds)) by by apply Forall_reverse.
  assert (Hpre : hex_prefix (dec (reverse ds) ++ rest) = false).
  { destruct (reverse ds) as [|d0 [|d1 l]]; [destruct rest as [|c [|]]; [done|done|]; by destruct Hs as [-> | ->]| |].
    - destruct rest as [|c r]; [done|]. simpl. destruct Hs as [-> | ->]; by rewrite andb_false_r.
    - simpl. apply Forall_cons in Hrev as [_ [Hd _]%Forall_cons].
      assert (_tolower (d1 + 48) ≠ 120); [|by rewrite (proj2 (Z.eqb_neq _ 120)), andb_false_r].
      revert d1 Hd. apply (small_cases (λ d, _tolower (d + 48) ≠ 120) 10). by repeat constructor. }
  assert (Hcase : ds = [0] ∨ ∃ d l, reverse ds = d :: l ∧ 0 < d).
  { destruct (reverse ds) as [|d l] eqn:E; [by apply (f_equal reverse) in E; rewrite reverse_involutive in E|].
    assert (last ds = Some d) as Hla by (by rewrite <- (reverse_involutive ds), E, last_reverse).
    destruct (decide (d = 0)) as [->|]; [left; auto|right]. exists d, l. split; [done|].
    apply Forall_cons in Hrev as [? _]. lia. }
  unfold after_prefix. rewrite Hpre, andb_false_r. unfold radix. rewrite Hpre. cbn [Z.eqb andb].
  destruct Hcase as [-> |(d & l & E & Hd)].
  - simpl in Hv. subst n. change (reverse [0]) with [0] in *. cbn [map app]. change (0 + 48 =? 48) with true. cbv iota.
    change (0 + 48 :: rest) with (dec [0] ++ rest). rewrite (span_dec 8 [0] rest) by auto. done.
  - rewrite E. cbn [map app]. replace (d + 48 =? 48) with false by lia.
    change (d + 48 :: dec l ++ rest) with (dec (d :: l) ++ rest). rewrite <- E, span_dec by (done || lia).
    by rewrite value_reverse, Hv.
Qed.

(** ** get_option and get_options *)

Lemma simple_strtol_dec n str rest : is_dec n str → stops rest → text rest → n < 2 ^ 31 → zlen (str ++ rest) < 2 ^ 31 →
  simple_strtol (str ++ rest ++ [0]) 0 = Some (n, rest ++ [0]).
Proof.
  intros Hd Hs Ht Hn Hl. destruct (is_dec_text _ _ Hd) as [Hts Hne].
  pose proof (scan_dec _ _ _ Hd Hs) as Hsc. pose proof (is_dec_nonneg _ _ Hd) as Hn0.
  unfold simple_strtol, simple_strtoll. destruct str as [|c str]; [done|]. cbn [app at_ mbind option_bind lookup list_lookup].
  replace (c =? 45) with false.
  2:{ destruct Hd as (ds & (_ & Hf & _) & He). symmetry. apply Z.eqb_neq. intros ->.
      destruct (reverse ds) as [|d l] eqn:E; [done|]. injection He as He _.
      apply Forall_reverse in Hf. rewrite E in Hf. apply Forall_cons in Hf as [? _]. lia. }
  change (c :: str ++ rest ++ [0]) with (((c :: str) ++ rest ++ [0])). rewrite (app_assoc (c :: str)).
  rewrite simple_strtoull_ok; [|by left|by apply Forall_app|done]. rewrite Hsc. cbn [fst snd mbind option_bind].
  rewrite u64_small by lia. unfold s64. rewrite wrap_small by lia. do 2 f_equal. lia.
Qed.

(** What a number is followed by decides the result of get_option. *)
Lemma get_option_dec n str rest : is_dec n str → stops rest → text rest → n < 2 ^ 31 → zlen (str ++ rest) < 2 ^ 31 →
  get_option (Some (str ++ rest ++ [0])) =
  Some (match rest with
        | [] => (1, Some [0], Some n)
        | c :: r => if c =? 44 then (2, Some (r ++ [0]), Some n) else (3, Some (rest ++ [0]), Some n)
        end).
Proof.
  intros Hd Hs Ht Hn Hl. unfold get_option. destruct (is_dec_text _ _ Hd) as [Hts Hne].
  assert (at_ (str ++ rest ++ [0]) 0 = head str) as -> by by destruct str.
  destruct str as [|c str]; [done|]. cbn [head mbind option_bind]. apply Forall_cons in Hts as [[_ Hc] _].
  rewrite (proj2 (Z.eqb_neq c 0)) by done. rewrite (simple_strtol_dec n) by done. cbn [mbind option_bind].
  rewrite bool_decide_false.
  2:{ intros He%(f_equal length). rewrite !length_app in He. simpl in He. lia. }
  pose proof (is_dec_nonneg _ _ Hd) as Hn0.
  rewrite s32_small by lia. destruct rest as [|x r]; [done|]. simpl.
  destruct Hs as [-> | ->]; done.
Qed.

(** The lists get_options reads. *)
Inductive item : Type := One (n : Z) | Range (a b : Z).
Definition values (x : item) : list Z := match x with One n => [n] | Range a b => seqZ a (b - a + 1) end.
Definition expand (l : list item) : list Z := concat (map values l).

(** [shows l str]: [str] is the text of [l], items separated by commas. *)
Inductive shows : list item → list Z → Prop :=
  | shows_one n s : is_dec n s → n < 2 ^ 31 → shows [One n] s
  | shows_more n s l str : is_dec n s → n < 2 ^ 31 → shows l str → shows (One n :: l) (s ++ 44 :: str)
  | shows_range a b s l str : is_dec a s → a ≤ b → shows (One b :: l) str → shows (Range a b :: l) (s ++ 45 :: str).

Lemma shows_text l str : shows l str → text str.
Proof.
  induction 1 as [n s Hd _|n s l str Hd _ _ IH|a b s l str Hd _ _ IH]; destruct (is_dec_text _ _ Hd); [done|..].
  all: apply Forall_app; split; [done|]; apply Forall_cons; split; [lia|done].
Qed.

Lemma expand_range a b l : a ≤ b → expand (Range a b :: l) = seqZ a (b - a) ++ expand (One b :: l).
Proof.
  intros H. unfold expand. cbn [map concat values]. rewrite (app_assoc _ [b]). f_equal.
  rewrite (seqZ_app a (b - a) 1) by lia. f_equal. replace (a + (b - a)) with b by lia. done.
Qed.

Lemma wr_int_ok pre x y post i (Q : unit → list Z → Prop) : i = zlen pre →
  Q tt (pre ++ y :: post) → wp (wr_int i y) Q (pre ++ x :: post).
Proof. intros -> HQ. unfold wp, wr_int. by rewrite wr_mid. Qed.

Lemma range_writes n : ∀ k lo pint pre old post (Q : unit → list Z → Prop),
  length old = n → zlen pre = pint + k → Q tt (pre ++ seqZ (lo + k) (Z.of_nat n) ++ post) →
  wp (for_up n k (λ k, wr_int (pint + k) (lo + k))) Q (pre ++ old ++ post).
Proof.
  induction n as [|n IH]; intros k lo pint pre old post Q Hlen Hpre HQ; simpl.
  { destruct old; [|done]. by apply wp_ret. }
  destruct old as [|x old]; [done|]. apply wp_bind. simpl. apply wr_int_ok; [lia|].
  rewrite (cons_middle (lo + k) pre), app_assoc. eapply IH; [simpl in Hlen; lia|rewrite length_app; simpl; lia|].
  rewrite <- app_assoc. simpl. rewrite Nat2Z.inj_succ, seqZ_cons in HQ by lia. rewrite Z.pred_succ in HQ.
  by replace (lo + (k + 1)) with (Z.succ (lo + k)) by lia.
Qed.

Lemma shows_stops n l str : shows (One n :: l) str → ∃ s rest, is_dec n s ∧ n < 2 ^ 31 ∧ str = s ++ rest ∧
  stops rest ∧ text rest.
Proof.
  inversion 1 as [? ? Hd Hn|? ? ? str' Hd Hn Hs|]; subst.
  - exists str, []. rewrite app_nil_r. split; [done|]. split; [done|]. split; [done|]. split; [done|constructor].
  - eexists _, (44 :: str'). split; [done|]. split; [done|]. split; [done|]. split; [by left|].
    apply Forall_cons. split; [lia|]. by eapply shows_text.
Qed.

(** get_range writes all values of the range but the last one. *)
Lemma get_range_ok a b l str pre old post (Q : list Z * Z → list Z → Prop) :
  shows (One b :: l) str → zlen str < 2 ^ 31 → 0 ≤ a ≤ b → zlen old = b - a →
  (∀ a', a' = pre ++ seqZ a (b - a) ++ post → Q (str ++ [0], b - a) a') →
  rd (pre ++ old ++ post) (zlen pre) = Some a →
  wp (get_range (45 :: str ++ [0]) (zlen pre)) Q (pre ++ old ++ post).
Proof.
  intros Hs Hl Hab Hold HQ Hrd. destruct (shows_stops _ _ _ Hs) as (s' & rest & Hd & Hn & -> & Hst & Ht).
  unfold get_range. cbn [drop]. apply wp_bind. eapply wp_lift.
  { rewrite <- app_assoc. by apply (simple_strtol_dec b). }
  apply wp_bind. unfold wp at 1, rd_int. rewrite Hrd. simpl. rewrite (s32_small b), s32_small by lia.
  apply wp_bind. unfold range_loop.
  eapply range_writes; [lia|lia|]. rewrite Z.add_0_r, Z2Nat.id by lia. apply wp_ret. by apply HQ.
Qed.

Lemma wp_exact {S B} (m : prog S B) s b s' : wp m (λ b' s'', b' = b ∧ s'' = s') s → m s = Some (b, s').
Proof. unfold wp. destruct (m s) as [[]|]; [|done]. by intros [-> ->]. Qed.

(** The state of the loop: [i] values of the array are final, the next [length old]
    will be written. *)
Lemma options_loop_ok l str : shows l str → ∀ fuel pre old post nints,
  (length str < fuel)%nat → zlen str < 2 ^ 31 → length old = length (expand l) →
  zlen (pre ++ old) ≤ nints < 2 ^ 31 →
  wp (options_loop fuel (Some (str ++ [0])) nints (zlen pre))
     (λ r a, r = (Some [0], zlen (pre ++ old)) ∧ a = pre ++ expand l ++ post) (pre ++ old ++ post).
Proof.
  induction 1 as [n s Hd Hn|n s l str Hd Hn Hs IH|a b s l str Hd Hab Hs IH];
    intros fuel pre old post nints Hf Hl Hlen Hni; rewrite length_app in Hni; (destruct fuel as [|fuel]; [lia|]); cbn [options_loop].
  - destruct old as [|x [|]]; [done| |done]. simpl in Hni. replace (zlen pre <? nints) with true by lia.
    pose proof (get_option_dec n s [] Hd I ltac:(constructor) Hn ltac:(by rewrite app_nil_r)) as Hg.
    cbn [app] in Hg. apply wp_bind. eapply wp_lift; [exact Hg|]. apply wp_bind. apply wr_int_ok; [done|]. simpl.
    apply wp_ret. split; [|done]. rewrite length_app, s32_small by lia. simpl. f_equal. lia.
  - destruct old as [|x old]; [by unfold expand in Hlen|]. simpl in Hni. replace (zlen pre <? nints) with true by lia.
    assert (Ht : text (44 :: str)) by (apply Forall_cons; split; [lia|by eapply shows_text]).
    pose proof (get_option_dec n s (44 :: str) Hd ltac:(by left) Ht Hn Hl) as Hg.
    rewrite <- app_assoc. apply wp_bind. eapply wp_lift; [exact Hg|]. apply wp_bind.
    change ((x :: old) ++ post) with (x :: old ++ post). apply wr_int_ok; [done|].
    rewrite length_app in Hf, Hl. simpl in Hf, Hl. cbn [Z.eqb Pos.eqb].
    rewrite s32_small by lia. rewrite (cons_middle n pre (old ++ post)), (app_assoc pre [n]).
    replace (zlen pre + 1) with (zlen (pre ++ [n])) by (rewrite length_app; simpl; lia).
    eapply wp_mono; [eapply IH; [lia|lia|by unfold expand in *; simpl in Hlen; lia|rewrite !length_app in *; simpl; lia]|].
    intros r a [-> ->]. split; [f_equal; rewrite !length_app; simpl; lia|]. unfold expand. simpl. by rewrite <- app_assoc.
  - rewrite expand_range, length_app, length_seqZ in Hlen by done.
    destruct old as [|x old]; [unfold expand in Hlen; simpl in Hlen; lia|].
    replace (zlen pre <? nints) with true by (simpl in Hni; lia).
    destruct (shows_stops _ _ _ Hs) as (s' & rest & Hd' & Hn & _).
    assert (Ht : text (45 :: str)) by (apply Forall_cons; split; [lia|by eapply shows_text]).
    pose proof (get_option_dec a s (45 :: str) Hd ltac:(by right) Ht ltac:(lia) Hl) as Hg. cbn [Z.eqb Pos.eqb] in Hg.
    rewrite <- app_assoc. apply wp_bind. eapply wp_lift; [exact Hg|]. apply wp_bind.
    change ((x :: old) ++ post) with (x :: old ++ post). apply wr_int_ok; [done|]. simpl default.
    rewrite length_app in Hf, Hl. simpl in Hf, Hl. pose proof (is_dec_nonneg _ _ Hd) as Ha0.
    pose (o1 := take (Z.to_nat (b - a)) (a :: old)). pose (o2 := drop (Z.to_nat (b - a)) (a :: old)).
    assert (Ho : a :: old ++ post = o1 ++ o2 ++ post) by (unfold o1, o2; by rewrite app_assoc, take_drop).
    assert (Hl1 : zlen o1 = b - a) by (unfold o1; rewrite length_take; simpl in Hlen |- *; lia).
    assert (Hl2 : zlen o1 + zlen o2 = zlen (x :: old)).
    { rewrite <- Nat2Z.inj_add, <- length_app. unfold o1, o2. rewrite take_drop. done. }
    cbn [Z.eqb Pos.eqb]. apply wp_bind. rewrite Ho.
    apply (get_range_ok a b l str); [done|lia|lia|done| |].
    2:{ rewrite <- Ho. apply rd_mid. }
    intros a' ->. replace (b - a <? 0) with false by lia.
    simpl in Hni, Hl2.
    rewrite (s32_small (b - a - 1)), (s32_small (zlen pre + _)), s32_small by lia.
    rewrite (app_assoc pre (seqZ a (b - a))).
    replace (zlen pre + (b - a - 1) + 1) with (zlen (pre ++ seqZ a (b - a))) by (rewrite length_app, length_seqZ; lia).
    eapply wp_mono; [apply (IH fuel (pre ++ seqZ a (b - a)) o2 post); [lia|lia|cbn [length] in Hlen; lia|rewrite !length_app, length_seqZ; lia]|].
    intros r a' [-> ->]. split; [f_equal; rewrite !length_app, length_seqZ; simpl; lia|].
    by rewrite expand_range, <- !app_assoc by done.
Qed.

(** Get_options reads back what a list of options shows.  For the text of a
    non-empty list of numbers and ranges, in decimal and separated by commas, whose
    expansion fits the array, get_options stores the number of values at index 0 and
    the values, every range from its first to its last number, from index 1 on, leaves
    the rest of the array alone and returns a pointer to the end of the string. *)
Lemma get_options_roundtrip l str nints x0 old post :
  shows l str → zlen str < 2 ^ 31 → length old = length (expand l) → zlen (x0 :: old) ≤ nints < 2 ^ 31 →
  get_options (Some (str ++ [0])) nints (x0 :: old ++ post) =
  Some (Some [0], zlen (expand l) :: expand l ++ post).
Proof.
  intros Hs Hl Hlen Hn. apply (wp_exact _ _ _ _). unfold get_options. apply wp_bind.
  eapply wp_mono; [apply (options_loop_ok l str Hs (S (length (str ++ [0]))) [x0] old post nints);
    [rewrite length_app; lia|done|done|done]|].
  intros r a [-> ->]. cbv iota beta. apply wp_bind. apply (wr_int_ok []); [done|]. simpl in Hn |- *.
  rewrite s32_small by lia. apply wp_ret. split; [done|]. f_equal. lia.
Qed.

(** "3,5-8,2" into an array of eight. *)
Lemma dec1 d : 0 ≤ d < 10 → is_dec d [d + 48].
Proof. intros Hd. exists [d]. split; [by apply canon_one|done]. Qed.
Example shows_demo : shows [One 3; Range 5 8; One 2] [51; 44; 53; 45; 56; 44; 50].
Proof.
  apply (shows_more 3 [51]); [by apply (dec1 3)|done|]. apply (shows_range 5 8 [53]); [by apply (dec1 5)|done|].
  apply (shows_more 8 [56]); [by apply (dec1 8)|done|]. apply (shows_one 2 [50]); [by apply (dec1 2)|done].
Qed.
Example get_options_roundtrip_witness :
  get_options (Some ([51; 44; 53; 45; 56; 44; 50] ++ [0])) 8 (9 :: [9; 9; 9; 9; 9; 9] ++ [9])
  = Some (Some [0], 6 :: [3; 5; 6; 7; 8; 2] ++ [9]).
Proof.
  apply (get_options_roundtrip [One 3; Range 5 8; One 2]); [exact shows_demo|simpl; lia|reflexivity|simpl; lia].
Defined.

(** ** Strings without ranges *)

Lemma drop_sub n (l : list Z) x : x ∈ drop n l → x ∈ l.
Proof. intros H. rewrite <- (take_drop n l). apply elem_of_app. by right. Qed.

Lemma span_sub base s x : x ∉ s → x ∉ snd (span_digits base s).
Proof.
  destruct (span_digits base s) as [ds r] eqn:E. destruct (span_digits_app _ _ _ _ E) as [<- _]. simpl.
  intros H Hin. apply H. by eapply drop_sub.
Qed.

Lemma get_option_plain str : text str → 45 ∉ str → zlen str < 2 ^ 31 →
  ∃ res e pint, get_option (Some (str ++ [0])) = Some (res, e, pint) ∧
    (res = 0 ∨ res = 1 ∨
     res = 2 ∧ ∃ r, e = Some (r ++ [0]) ∧ text r ∧ 45 ∉ r ∧ (length r < length str)%nat).
Proof.
  intros Ht Hm Hl. unfold get_option. destruct str as [|c str]; [eexists _, _, _; split; [reflexivity|by left]|].
  pose proof Ht as [[_ Hc] _]%Forall_cons. cbn [app at_ lookup list_lookup mbind option_bind].
  rewrite (proj2 (Z.eqb_neq c 0)) by done. unfold simple_strtol, simple_strtoll.
  cbn [at_ lookup list_lookup mbind option_bind]. replace (c =? 45) with false by (symmetry; apply Z.eqb_neq; set_solver).
  change (c :: str ++ [0]) with ((c :: str) ++ [0]).
  rewrite simple_strtoull_ok by (by left || done). cbn [mbind option_bind].
  destruct (scan_text 0 _ Ht) as [Htr Hlr].
  assert (Hms : 45 ∉ snd (scan 0 (c :: str))).
  { unfold scan. pose proof (span_sub (radix (c :: str) 0) (after_prefix (c :: str) 0) 45) as Hsp.
    destruct (span_digits _ _) as [ds r]. simpl in Hsp |- *. apply Hsp. unfold after_prefix.
    destruct (_ && _); [|done]. intros Hin. apply Hm. by eapply drop_sub. }
  destruct (snd (scan 0 (c :: str))) as [|x r].
  - case_bool_decide; eauto 10.
  - case_bool_decide as He; [eauto 10|]. cbn [app at_ lookup list_lookup mbind option_bind].
    destruct (x =? 44); [|replace (x =? 45) with false by (symmetry; apply Z.eqb_neq; set_solver); eauto 10].
    eexists _, _, _. split; [done|]. right. right. split; [done|]. exists r. apply Forall_cons in Htr as [_ Htr].
    simpl in Hlr. split; [done|]. split; [done|]. split; [set_solver|]. simpl. lia.
Qed.

Lemma wr_int_any i x (a : list Z) (Q : unit → list Z → Prop) :
  0 ≤ i < zlen a → Q tt (<[Z.to_nat i := x]> a) → wp (wr_int i x) Q a.
Proof. intros Hi HQ. unfold wp, wr_int. by rewrite wr_Some. Qed.

(** The loop writes below [nints] only. *)
Lemma options_loop_plain nints (ints : list Z) : nints ≤ zlen ints → nints < 2 ^ 31 →
  ∀ fuel str i a, text str → 45 ∉ str → zlen str < 2 ^ 31 → (length str < fuel)%nat →
  1 ≤ i ≤ nints → length a = length ints → drop (Z.to_nat nints) a = drop (Z.to_nat nints) ints →
  wp (options_loop fuel (Some (str ++ [0])) nints i) (λ r a', 1 ≤ snd r ≤ nints ∧ length a' = length ints ∧
    drop (Z.to_nat nints) a' = drop (Z.to_nat nints) ints) a.
Proof.
  intros Hn Hn31. induction fuel as [|fuel IH]; intros str i a Ht Hm Hl Hf Hi Ha Hd; [lia|]. cbn [options_loop].
  destruct (Z.ltb_spec i nints); [|by apply wp_ret].
  destruct (get_option_plain str Ht Hm Hl) as (res & e & pint & Hg & Hres).
  apply wp_bind. eapply wp_lift; [exact Hg|]. apply wp_bind.
  eapply (wp_mono _ (λ _ a', length a' = length ints ∧ drop (Z.to_nat nints) a' = drop (Z.to_nat nints) ints)).
  { destruct pint; [|by apply wp_ret]. apply wr_int_any; [lia|]. rewrite length_insert. split; [done|].
    by rewrite drop_insert_lt by lia. }
  intros [] a' [Ha' Hd']. destruct Hres as [-> |[-> |(-> & r & -> & Htr & Hmr & Hlr)]].
  - by apply wp_ret.
  - cbn [Z.eqb Pos.eqb]. apply wp_ret. rewrite s32_small by lia. split; [simpl; lia|done].
  - cbn [Z.eqb Pos.eqb]. rewrite s32_small by lia. apply IH; (done || lia).
Qed.

(** Without a hyphen get_options stays within the array it was given. *)
Lemma get_options_no_range_safe str nints ints : text str → 45 ∉ str → zlen str < 2 ^ 31 →
  1 ≤ nints ≤ zlen ints → nints < 2 ^ 31 →
  ∃ e ints', get_options (Some (str ++ [0])) nints ints = Some (e, ints') ∧ length ints' = length ints ∧
    drop (Z.to_nat nints) ints' = drop (Z.to_nat nints) ints ∧ ∃ n, head ints' = Some n ∧ 0 ≤ n < nints.
Proof.
  intros Ht Hm Hl Hn Hn31.
  assert (Hw : wp (get_options (Some (str ++ [0])) nints) (λ _ a', length a' = length ints ∧
    drop (Z.to_nat nints) a' = drop (Z.to_nat nints) ints ∧ ∃ n, head a' = Some n ∧ 0 ≤ n < nints) ints).
  { unfold get_options. apply wp_bind. eapply wp_mono; [apply (options_loop_plain nints ints); try done; [lia|simpl; rewrite length_app; lia|lia]|].
    intros [e i] a (Hi & Ha & Hd). simpl in Hi. apply wp_bind, wr_int_any; [lia|]. apply wp_ret.
    rewrite length_insert, drop_insert_lt by lia. split; [done|]. split; [done|].
    destruct a as [|x a]; [simpl in Ha; lia|]. rewrite s32_small by lia. exists (i - 1). split; [done|lia]. }
  apply wp_elim in Hw as (e & a & H1 & H2). eauto.
Qed.

(** A range is written without a look at the size of the array: "0-9" into an array of
    four writes behind its end. *)
Lemma get_options_range_overflow : get_options (Some [48; 45; 57; 0]) 4 [0; 0; 0; 0] = None.
Proof. reflexivity. Qed.
