(* ===== verification/Parser.v ===== *)
(** * Parser: mount options (lib/parser.c)

    The strings lie in the byte memory of Strings and pointers are addresses.  The
    integer parsers of Kstrtox read the string a pointer points to, up to and
    including its terminator; [at_mem] gives them to this file.  The array [args] of
    the caller is the state of match_one and match_token.  kmalloc is a parameter: it
    fails, or returns an address and what the new block holds. *)

From S2P Require Import Prelude Strings StringsThm Kstrtox.

Definition pa_ENOMEM : Z := 12.
Definition pa_EINVAL : Z := 22.
Definition pa_ERANGE : Z := 34.
Definition MAX_OPT_ARGS : Z := 3.

Record substring_t : Type := Substring { from : Z; to : Z }.
Record match_entry : Type := MatchToken { token : Z; pattern : option Z }.

(** What a pointer into a string points to: an unmapped byte ends it, too. *)
Fixpoint string_loop (fuel : nat) (M : mem) (p : Z) : list Z :=
  match fuel with
  | O => []
  | S fuel =>
      match M !! p with
      | Some c => c :: (if c =? 0 then [] else string_loop fuel M (p + 1))
      | None => []
      end
  end.
Definition string_at (M : mem) (p : Z) : list Z := string_loop (steps M) M p.

(** An integer parser on memory: the value and the end pointer. *)
Definition at_mem (parse : list Z → Z → option (Z * list Z)) (M : mem) (p base : Z) : option (Z * Z) :=
  '(v, e) ← parse (string_at M p) base;
  Some (v, p + (zlen (string_at M p) - zlen e)).

(** ** Matching *)

Notation A := (prog (list substring_t)).

Definition set_from (argc s : Z) : A unit :=
  λ args, x ← rd args argc; args' ← wr args argc (Substring s (to x)); Some (tt, args').
Definition set_to (argc s : Z) : A unit :=
  λ args, x ← rd args argc; args' ← wr args argc (Substring (from x) s); Some (tt, args').

(** From the test of argc on: the argument at [s], whose conversion is at [p].  [None]
    is the return of 0, [Some (s, p)] the start of the next round. *)
Definition match_arg (M : mem) (s p len argc : Z) : A (option (Z * Z)) :=
  if MAX_OPT_ARGS <=? argc then mret None
  else
    _ ← set_from argc s;
    c ← lift (M !! p);
    let p := p + 1 in
    let num parse base :=
      '(_, e) ← lift (at_mem parse M s base);
      _ ← set_to argc e;
      mret (if e =? s then None else Some (e, p)) in
    if c =? 115 then
      str_len ← lift (strlen M s);
      if str_len =? 0 then mret None
      else
        let len := if (len =? -1) || (str_len <? u64 len) then s32 str_len else len in
        _ ← set_to argc (s + len);
        mret (Some (s + len, p))
    else if c =? 100 then num simple_strtol 0
    else if c =? 117 then num simple_strtoul 0
    else if c =? 111 then num simple_strtoul 8
    else if c =? 120 then num simple_strtoul 16
    else mret None.

(** The loop of match_one; every round consumes a '%' of the pattern. *)
Fixpoint match_loop (fuel : nat) (M : mem) (s p argc : Z) : A Z :=
  match fuel with
  | O => wrong
  | S fuel =>
      meta ← lift (strchr M p 37);
      match meta with
      | None => r ← lift (strcmp M p s); mret (if r =? 0 then 1 else 0)
      | Some meta =>
          r ← lift (strncmp M p s (meta - p));
          if negb (r =? 0) then mret 0
          else
            let s := s + (meta - p) in
            let p := meta + 1 in
            let continue len p :=
              o ← match_arg M s p len argc;
              match o with
              | None => mret 0
              | Some (s, p) => match_loop fuel M s p (argc + 1)
              end in
            c ← lift (M !! p);
            if isdigit c then
              '(len, p) ← lift (at_mem simple_strtoul M p 10);
              continue (s32 len) p
            else if c =? 37 then
              x ← lift (M !! s);
              if negb (x =? 37) then mret 0 else match_loop fuel M (s + 1) (p + 1) argc
            else continue (-1) p
      end
  end.

Definition match_one (M : mem) (s : Z) (p : option Z) : A Z :=
  match p with
  | None => mret 1
  | Some p => match_loop (steps M) M s p 0
  end.

(** A table without a NULL pattern that no entry matches is read behind its end. *)
Fixpoint match_token (M : mem) (s : Z) (table : list match_entry) : A Z :=
  match table with
  | [] => wrong
  | p :: table =>
      r ← match_one M s (pattern p);
      if r =? 0 then match_token M s table else mret (token p)
  end.

(** ** Arguments *)

Class kmem : Type := { kmalloc : mem → Z → option (Z * list Z) }.

(** A new block has the size asked for and lies where nothing is mapped. *)
Class kmem_ok (K : kmem) : Prop :=
  kmalloc_fresh M n a l : kmalloc M n = Some (a, l) →
    zlen l = n ∧ ∀ i, a ≤ i < a + n → M !! i = None.

Fixpoint kfree (M : mem) (p : Z) (n : nat) : mem :=
  match n with O => M | S n => delete p (kfree M (p + 1) n) end.

Section alloc.
Context `{K : kmem}.

(** match_number: the result, *result where it is set, and the memory after kfree. *)
Definition match_number (M : mem) (s : substring_t) (base : Z) : option (Z * option Z * mem) :=
  let len := u64 (to s - from s) in
  match kmalloc M (u64 (len + 1)) with
  | None => Some (- pa_ENOMEM, None, M)
  | Some (buf, l) =>
      M ← memcpy (put M buf l) buf (from s) len;
      M ← poke M (buf + len) 0;
      '(val, endp) ← at_mem simple_strtol M buf base;
      let r :=
        if endp =? buf then (- pa_EINVAL, None)
        else if (val <? - INT_MAX - 1) || (INT_MAX <? val) then (- pa_ERANGE, None)
        else (0, Some (s32 val)) in
      Some (r, kfree M buf (length l))
  end.

Definition match_int (M : mem) (s : substring_t) := match_number M s 0.
Definition match_octal (M : mem) (s : substring_t) := match_number M s 8.
Definition match_hex (M : mem) (s : substring_t) := match_number M s 16.

Definition match_strlcpy (M : mem) (dest : Z) (src : substring_t) (size : Z) : option (Z * mem) :=
  let ret := u64 (to src - from src) in
  if negb (size =? 0) then
    let len := if size <=? ret then size - 1 else ret in
    M ← memcpy M dest (from src) len;
    M ← poke M (dest + len) 0;
    Some (ret, M)
  else Some (ret, M).

Definition match_strdup (M : mem) (s : substring_t) : option (option Z * mem) :=
  let sz := u64 (to s - from s + 1) in
  match kmalloc M sz with
  | None => Some (None, M)
  | Some (p, l) => '(_, M) ← match_strlcpy (put M p l) p s sz; Some (Some p, M)
  end.
End alloc.
