(* ===== verification/ParserThm.v ===== *)
(** * ParserThm: option patterns match what they describe *)

From S2P Require Import Prelude Strings StringsThm StringsCopy Kstrtox Vsprintf VsprintfThm Cmdline CmdlineThm Parser.

(** ** Integer parsers on memory *)

Lemma string_at_ok M p s : cstr M p s → string_at M p = s ++ [0].
Proof.
  intros Hs. unfold string_at. pose proof (cstr_fuel _ _ _ Hs) as Hf. revert Hf. generalize (steps M) as fuel.
  revert p Hs. induction s as [|c s IH]; intros p Hs [|fuel] Hf; cbn [string_loop length app] in *; try lia.
  - apply cstr_nil in Hs. by rewrite Hs.
  - apply cstr_cons in Hs as (Hc & Hp & Hs). rewrite Hp, (proj2 (Z.eqb_neq c 0)) by done. by rewrite IH by (done || lia).
Qed.

Lemma at_mem_ok parse M p s base v rest : cstr M p s → parse (s ++ [0]) base = Some (v, rest ++ [0]) →
  at_mem parse M p base = Some (v, p + (zlen s - zlen rest)).
Proof.
  intros Hs Hp. unfold at_mem. rewrite (string_at_ok _ _ _ Hs), Hp. cbn [mbind option_bind].
  do 2 f_equal. rewrite !length_app. simpl. lia.
Qed.

(** The signed number at the head of a string, unbounded, and what follows it. *)
Definition scan_signed (base : Z) (s : list Z) : Z * list Z :=
  match s with
  | c :: s' => if c =? 45 then let '(v, r) := scan base s' in (- v, r) else scan base s
  | [] => scan base s
  end.

Lemma s64_u64 x : s64 (u64 x) = s64 x.
Proof. unfold s64, u64, wrap. by rewrite Zplus_mod_idemp_l. Qed.
Lemma s64_opp_u64 x : s64 (- u64 x) = s64 (- x).
Proof.
  unfold s64, u64, wrap. f_equal. rewrite !Z.add_opp_l, Zminus_mod_idemp_r. done.
Qed.

Lemma simple_strtol_ok s base : base = 0 ∨ 2 ≤ base ≤ 16 → text s → zlen s < 2 ^ 31 →
  simple_strtol (s ++ [0]) base = Some (s64 (fst (scan_signed base s)), snd (scan_signed base s) ++ [0]).
Proof.
  intros Hb Ht Hl. unfold simple_strtol, simple_strtoll, scan_signed.
  destruct s as [|c s]; cbn [app at_ lookup list_lookup mbind option_bind].
  - cbn [Z.eqb]. pose proof (simple_strtoull_ok [] base Hb Ht Hl) as H. cbn [app] in H. rewrite H.
    cbn [mbind option_bind]. by rewrite s64_u64.
  - destruct (c =? 45).
    + apply Forall_cons in Ht as [_ Ht]. simpl in Hl. change (drop 1 (c :: s ++ [0])) with (s ++ [0]). rewrite simple_strtoull_ok by (done || lia).
      cbn [mbind option_bind]. rewrite s64_opp_u64. by destruct (scan base s).
    + change (c :: s ++ [0]) with ((c :: s) ++ [0]). rewrite simple_strtoull_ok by done.
      cbn [mbind option_bind]. by rewrite s64_u64.
Qed.

Lemma scan_signed_text base s : text s →
  text (snd (scan_signed base s)) ∧ (length (snd (scan_signed base s)) ≤ length s)%nat.
Proof.
  intros Ht. unfold scan_signed. destruct s as [|c s]; [by apply scan_text|].
  destruct (c =? 45); [|by apply scan_text]. apply Forall_cons in Ht as [_ Ht].
  destruct (scan_text base s Ht) as [? ?]. destruct (scan base s). simpl in *. split; [done|lia].
Qed.

(** ** Patterns *)

Inductive conv : Type := Cs | Cd | Cu | Co | Cx.
Definition conv_char (k : conv) : Z := match k with Cs => 115 | Cd => 100 | Cu => 117 | Co => 111 | Cx => 120 end.

(** A character, a conversion with its width in decimal, or a '%' that starts none. *)
Inductive piece : Type := Lit (c : Z) | Arg (ds : list Z) (k : conv) | Bad (ds rest : list Z).

Fixpoint ptext (ps : list piece) : list Z :=
  match ps with
  | [] => []
  | Lit c :: ps => (if c =? 37 then [37; 37] else [c]) ++ ptext ps
  | Arg ds k :: ps => 37 :: dec ds ++ conv_char k :: ptext ps
  | Bad ds rest :: ps => 37 :: dec ds ++ rest ++ ptext ps
  end.

Definition digits (ds : list Z) : Prop := Forall (λ d, 0 ≤ d < 10) ds.
Definition no_conv (ds : list Z) (c : Z) : Prop :=
  (∀ k, c ≠ conv_char k) ∧ ¬ (48 ≤ c ≤ 57) ∧ (ds = [] → c ≠ 37).
Fixpoint pattern_wf (ps : list piece) : Prop :=
  match ps with
  | [] => True
  | Lit c :: ps => is_u8 c ∧ c ≠ 0 ∧ pattern_wf ps
  | Arg ds _ :: ps => digits ds ∧ pattern_wf ps
  | Bad ds rest :: ps => digits ds ∧ text rest ∧ no_conv ds (default 0 (head rest)) ∧ ps = []
  end.

(** The width; -1 where there is none. *)
Definition width (ds : list Z) : Z := if bool_decide (ds = []) then -1 else s32 (u64 (value 10 ds)).

Definition number_tail (k : conv) (s : list Z) : list Z :=
  match k with
  | Cd => snd (scan_signed 0 s)
  | Cu => snd (scan 0 s)
  | Co => snd (scan 8 s)
  | _ => snd (scan 16 s)
  end.

(** How many characters of [s] a conversion takes, if it matches. *)
Definition arg_len (ds : list Z) (k : conv) (s : list Z) : option Z :=
  match k with
  | Cs => if bool_decide (s = []) then None
          else Some (if (0 <=? width ds) && (width ds <=? zlen s) then width ds else zlen s)
  | _ => let n := zlen s - zlen (number_tail k s) in if n =? 0 then None else Some n
  end.

(** The arguments, where the pattern matches the string [s] at address [a]. *)
Fixpoint matches (ps : list piece) (s : list Z) (a argc : Z) : option (list substring_t) :=
  match ps with
  | [] => if bool_decide (s = []) then Some [] else None
  | Lit c :: ps =>
      match s with
      | x :: s => if c =? x then matches ps s (a + 1) argc else None
      | [] => None
      end
  | Arg ds k :: ps =>
      if MAX_OPT_ARGS <=? argc then None
      else
        n ← arg_len ds k s;
        l ← matches ps (drop (Z.to_nat n) s) (a + n) (argc + 1);
        Some (Substring a (a + n) :: l)
  | Bad _ _ :: _ => None
  end.

(** Every string is a pattern. *)
Lemma span_digits_dec s : ∀ ds rest, span_digits 10 s = (ds, rest) →
  s = dec ds ++ rest ∧ digits ds ∧ ¬ (48 ≤ default 0 (head rest) ≤ 57).
Proof.
  induction s as [|c s IH]; intros ds rest; cbn [span_digits]; [intros [= <- <-]; simpl; split; [done|split; [constructor|lia]]|].
  unfold digit_val. destruct (Z.leb_spec 48 c), (Z.leb_spec c 57); cbn [andb].
  2-4: destruct (_ && _) eqn:E; [replace (_ <? 10) with false by lia|]; intros [= <- <-]; simpl; split_and!; (done || lia || constructor).
  replace (c - 48 <? 10) with true by lia. destruct (span_digits 10 s) as [ds' r]. intros [= <- <-].
  destruct (IH ds' r eq_refl) as (-> & Hd & Hr). split; [simpl; f_equal; lia|]. split; [constructor; [lia|done]|done].
Qed.

Lemma conv_char_dec c : (∃ k, c = conv_char k) ∨ ∀ k, c ≠ conv_char k.
Proof.
  destruct (decide (c ∈ map conv_char [Cs; Cd; Cu; Co; Cx])) as [H|H].
  - left. apply list_elem_of_fmap in H as (k & -> & _). eauto.
  - right. intros k ->. apply H. destruct k; vm_compute; set_solver.
Qed.

Lemma pattern_total p : text p → ∃ ps, pattern_wf ps ∧ ptext ps = p.
Proof.
  induction p as [p IH] using (induction_ltof1 _ (@length Z)). unfold ltof in IH. intros Ht.
  destruct p as [|c p]; [by exists []|]. apply Forall_cons in Ht as [[Hc Hc0] Ht].
  destruct (decide (c = 37)) as [-> |Hn].
  2:{ destruct (IH p ltac:(simpl; lia) Ht) as (ps & Hw & <-). exists (Lit c :: ps).
      split; [done|]. simpl. by rewrite (proj2 (Z.eqb_neq c 37)). }
  destruct (span_digits 10 p) as [ds rest] eqn:E. destruct (span_digits_dec _ _ _ E) as (-> & Hd & Hr).
  apply Forall_app in Ht as [_ Ht].
  assert (Hbad : no_conv ds (default 0 (head rest)) → ∃ ps, pattern_wf ps ∧ ptext ps = 37 :: dec ds ++ rest).
  { intros Hno. exists [Bad ds rest]. simpl. by rewrite app_nil_r. }
  destruct rest as [|x rest]; [apply Hbad; split_and!; [by intros []|done|done]|].
  apply Forall_cons in Ht as [Hx Ht]. simpl in Hbad, Hr.
  assert (Hrest : ∃ ps, pattern_wf ps ∧ ptext ps = rest).
  { apply IH; [simpl; rewrite length_app; simpl; lia|done]. }
  destruct Hrest as (ps & Hw & <-).
  destruct (conv_char_dec x) as [[k ->]|Hk].
  - by exists (Arg ds k :: ps).
  - destruct (decide (ds = [] ∧ x = 37)) as [[-> ->]|Hp]; [by exists (Lit 37 :: ps)|].
    apply Hbad. split_and!; [done|done|by intros -> ->; apply Hp].
Qed.

(** ** match_one *)

Lemma isdigit_range c : is_u8 c → isdigit c = bool_decide (48 ≤ c ≤ 57).
Proof.
  intros Hc. apply eqb_prop. revert c Hc.
  apply (u8_forall (λ c, Bool.eqb (isdigit c) (bool_decide (48 ≤ c ≤ 57)))). vm_compute. reflexivity.
Qed.

Lemma ptext_text ps : pattern_wf ps → text (ptext ps).
Proof.
  assert (Hdec : ∀ ds, digits ds → text (dec ds)) by (intros; by apply dec_text).
  induction ps as [|[c|ds k|ds rest] ps IH]; simpl; [constructor|..].
  - intros (Hc & Hc0 & Hw). destruct (c =? 37); repeat (apply Forall_cons; split; [done|]); by apply IH.
  - intros [Hd Hw]. constructor; [lia|]. apply Forall_app. split; [by apply Hdec|].
    constructor; [by destruct k|by apply IH].
  - intros (Hd & Hr & _ & ->). constructor; [lia|]. simpl. rewrite app_nil_r. apply Forall_app. split; [by apply Hdec|done].
Qed.

(** A pattern is a run of characters before its first '%'. *)
Definition special (ps : list piece) : Prop := match ps with Lit c :: _ => c = 37 | _ => True end.

Lemma lits_split ps : pattern_wf ps → ∃ run rest, ps = map Lit run ++ rest ∧ 37 ∉ run ∧ pattern_wf rest ∧ special rest.
Proof.
  assert (Hnil : ∀ ps, pattern_wf ps → special ps → ∃ run rest, ps = map Lit run ++ rest ∧ 37 ∉ run ∧ pattern_wf rest ∧ special rest).
  { intros ps' Hw Hs. exists [], ps'. split_and!; (done || apply not_elem_of_nil). }
  induction ps as [|[c|ds k|ds rest] ps IH]; intros Hw; [by apply Hnil| |by apply Hnil|by apply Hnil].
  destruct (decide (c = 37)) as [-> |Hn]; [by apply Hnil|]. destruct Hw as (Hc & Hc0 & Hw).
  destruct (IH Hw) as (run & rest & -> & Hr & Hwr & Hs). exists (c :: run), rest. split_and!; [done|set_solver|done|done].
Qed.

Lemma ptext_lits run rest : 37 ∉ run → ptext (map Lit run ++ rest) = run ++ ptext rest.
Proof.
  induction run as [|c run IH]; intros H; [done|]. simpl. rewrite (proj2 (Z.eqb_neq c 37)) by set_solver.
  simpl. f_equal. apply IH. set_solver.
Qed.

Lemma matches_lits run rest : ∀ s a argc, matches (map Lit run ++ rest) s a argc =
  if bool_decide (run = take (length run) s) then matches rest (drop (length run) s) (a + zlen run) argc else None.
Proof.
  induction run as [|c run IH]; intros s a argc; simpl.
  - by rewrite Z.add_0_r.
  - destruct s as [|x s]; [done|]. cbn [take firstn drop skipn]. destruct (Z.eqb_spec c x) as [-> |Hn].
    + rewrite IH. replace (a + 1 + zlen run) with (a + Z.pos (Pos.of_succ_nat (length run))) by lia.
      repeat case_bool_decide; done || congruence.
    + case_bool_decide; [congruence|done].
Qed.

Lemma ptext_special rest : special rest → pattern_wf rest → ptext rest = [] ∧ rest = [] ∨ ∃ q, ptext rest = 37 :: q.
Proof. destruct rest as [|[c|ds k|ds r] ps]; simpl; intros Hs Hw; [by left|right; try rewrite Hs; by eexists..]. Qed.

Lemma find_meta run q : 37 ∉ run → find_idx (λ x, x =? u8 37) (run ++ 37 :: q) = Some (zlen run).
Proof.
  intros H. change (u8 37) with 37. induction run as [|c run IH]; [done|]. cbn [app find_idx].
  rewrite (proj2 (Z.eqb_neq c 37)) by set_solver. rewrite IH by set_solver. simpl. f_equal. lia.
Qed.

Lemma no_meta run : 37 ∉ run → find_idx (λ x, x =? u8 37) (run ++ [0]) = None.
Proof. intros H. apply find_idx_None. intros x Hx. change (u8 37) with 37. apply Z.eqb_neq. set_solver. Qed.

Lemma arg_len_range ds k s n : text s → arg_len ds k s = Some n → 0 ≤ n ≤ zlen s.
Proof.
  intros Ht. unfold arg_len, number_tail. pose proof (scan_signed_text 0 s Ht) as [_ H1].
  pose proof (λ b, proj2 (scan_text b s Ht)) as H2. pose proof (H2 0). pose proof (H2 8). pose proof (H2 16).
  destruct k; [case_bool_decide; [done|]|..]; repeat case_match; intros [= <-]; lia.
Qed.

(** The writes of a round at slot [i]; earlier slots stay. *)
Definition keeps (i : Z) (args args' : list substring_t) : Prop :=
  length args' = length args ∧ take (Z.to_nat i) args' = take (Z.to_nat i) args.

Lemma keeps_insert i args x : keeps i args (<[Z.to_nat i := x]> args).
Proof. split; [by rewrite length_insert|]. by rewrite take_insert_ge by lia. Qed.

Lemma keeps_trans i j args args' args'' : 0 ≤ i ≤ j → keeps i args args' → keeps j args' args'' → keeps i args args''.
Proof.
  intros Hij [Hl Ht] [Hl' Ht']. split; [congruence|]. rewrite <- Ht.
  apply (f_equal (take (Z.to_nat i))) in Ht'. by rewrite !take_take, !Nat.min_l in Ht' by lia.
Qed.

Lemma set_from_ok args i s (Q : unit → list substring_t → Prop) : 0 ≤ i < zlen args →
  (∀ t, Q tt (<[Z.to_nat i := Substring s t]> args)) → wp (set_from i s) Q args.
Proof.
  intros Hi HQ. unfold wp, set_from. destruct (rd_in args i Hi) as [x ->]. cbn [mbind option_bind].
  rewrite wr_Some by done. apply HQ.
Qed.

Lemma set_to_ok args i f s (Q : unit → list substring_t → Prop) : 0 ≤ i < zlen args →
  Q tt (<[Z.to_nat i := Substring f s]> args) → ∀ t, wp (set_to i s) Q (<[Z.to_nat i := Substring f t]> args).
Proof.
  intros Hi HQ t. unfold wp, set_to. rewrite rd_insert, Z.eqb_refl by done.
  cbn [mbind option_bind]. rewrite wr_Some by (rewrite length_insert; lia). by rewrite list_insert_insert_eq.
Qed.

Lemma width_range ds : - 2 ^ 31 ≤ width ds < 2 ^ 31.
Proof. unfold width. case_bool_decide; [lia|]. unfold s32. pose proof (wrap_range 32 (u64 (value 10 ds) + 2 ^ 31) ltac:(lia)). lia. Qed.

Section matching.
Variable M : mem.

(** What a conversion leaves: [None] for no match, or the next position. *)
Definition arg_post (a p argc : Z) (args : list substring_t) (m : option Z) (o : option (Z * Z)) (args' : list substring_t) : Prop :=
  keeps argc args args' ∧
  match m with
  | None => o = None
  | Some n => o = Some (a + n, p) ∧ args' !! Z.to_nat argc = Some (Substring a (a + n))
  end.

Lemma match_arg_ok ds k s a p argc args : cstr M a s → text s → zlen s < 2 ^ 31 → M !! p = Some (conv_char k) →
  0 ≤ argc → zlen args = MAX_OPT_ARGS →
  wp (match_arg M a p (width ds) argc)
     (arg_post a (p + 1) argc args (if MAX_OPT_ARGS <=? argc then None else arg_len ds k s)) args.
Proof.
  intros Hs Ht Hl Hp Ha Hargs. unfold match_arg. destruct (Z.leb_spec MAX_OPT_ARGS argc); [by apply wp_ret|].
  assert (Hin : 0 ≤ argc < zlen args) by lia. apply wp_bind, set_from_ok; [done|]. intros t.
  apply wp_bind. eapply wp_lift; [exact Hp|]. cbv zeta.
  assert (Hset : ∀ n, arg_post a (p + 1) argc args (Some n) (Some (a + n, p + 1)) (<[Z.to_nat argc := Substring a (a + n)]> args)).
  { intros n. split; [apply keeps_insert|]. split; [done|]. rewrite list_lookup_insert_eq by lia. done. }
  assert (Hnum : ∀ parse base v tail, parse (s ++ [0]) base = Some (v, tail ++ [0]) →
    wp ('(_, e) ← lift (at_mem parse M a base); _ ← set_to argc e; mret (if e =? a then None else Some (e, p + 1)))
      (arg_post a (p + 1) argc args (let n := zlen s - zlen tail in if n =? 0 then None else Some n))
      (<[Z.to_nat argc := Substring a t]> args)).
  { intros parse base v tail Hparse. apply wp_bind. eapply wp_lift; [by apply (at_mem_ok _ _ _ _ _ _ _ Hs Hparse)|].
    apply wp_bind, set_to_ok; [done|]. apply wp_ret. cbv zeta. set (n := zlen s - zlen tail).
    replace (a + n =? a) with (n =? 0) by (destruct (Z.eqb_spec n 0), (Z.eqb_spec (a + n) a); lia).
    destruct (n =? 0); [split; [apply keeps_insert|done]|apply Hset]. }
  destruct k; cbn [conv_char Z.eqb Pos.eqb arg_len number_tail].
  - apply wp_bind. eapply wp_lift; [by apply strlen_ok|]. destruct s as [|c s]; [apply wp_ret; split; [apply keeps_insert|done]|].
    replace (zlen (c :: s) =? 0) with false by (simpl; lia). set (n := zlen (c :: s)) in *.
    pose proof (width_range ds) as Hw. unfold u64. rewrite s32_small by lia.
    replace (if (width ds =? -1) || (n <? wrap 64 (width ds)) then n else width ds)
      with (if (0 <=? width ds) && (width ds <=? n) then width ds else n).
    2:{ unfold wrap. destruct (Z.leb_spec 0 (width ds)).
        - rewrite Z.mod_small by lia. destruct (Z.leb_spec (width ds) n), (Z.ltb_spec n (width ds)), (Z.eqb_spec (width ds) (-1)); simpl; lia.
        - replace (n <? width ds mod 2 ^ 64) with true; [by rewrite orb_true_r|]. symmetry. apply Z.ltb_lt.
          rewrite <- (Z_mod_plus_full _ 1), Z.mod_small by lia. lia. }
    apply wp_bind, set_to_ok; [done|]. apply wp_ret. apply Hset.
  - by eapply Hnum, simple_strtol_ok; [left|..].
  - by eapply Hnum, (simple_strtoull_ok s 0); [left|..].
  - by eapply Hnum, (simple_strtoull_ok s 8); [right|..].
  - by eapply Hnum, (simple_strtoull_ok s 16); [right|..].
Qed.

Lemma match_arg_bad len c s a p argc args : (∀ k, c ≠ conv_char k) → M !! p = Some c → 0 ≤ argc → zlen args = MAX_OPT_ARGS →
  wp (match_arg M a p len argc) (arg_post a s argc args None) args.
Proof.
  intros Hc Hp Ha Hargs. unfold match_arg. destruct (Z.leb_spec MAX_OPT_ARGS argc); [by apply wp_ret|].
  apply wp_bind, set_from_ok; [lia|]. intros t. apply wp_bind. eapply wp_lift; [exact Hp|]. cbv zeta.
  pose proof (Hc Cs) as H1. pose proof (Hc Cd) as H2. pose proof (Hc Cu) as H3. pose proof (Hc Co) as H4. pose proof (Hc Cx) as H5.
  simpl in H1, H2, H3, H4, H5. rewrite (proj2 (Z.eqb_neq c 115)), (proj2 (Z.eqb_neq c 100)), (proj2 (Z.eqb_neq c 117)),
    (proj2 (Z.eqb_neq c 111)), (proj2 (Z.eqb_neq c 120)) by done.
  apply wp_ret. split; [apply keeps_insert|done].
Qed.

Lemma cstr_head p s : cstr M p s → M !! p = Some (default 0 (head s)).
Proof. destruct s as [|c s]; [by intros H%cstr_nil|by intros (_ & H & _)%cstr_cons]. Qed.

Lemma cstr_tail p s1 s2 : cstr M p (s1 ++ s2) → cstr M (p + zlen s1) s2.
Proof. intros H. apply (cstr_drop _ _ _ (length s1)) in H; [|rewrite length_app; lia]. by rewrite drop_app_length in H. Qed.

Lemma scan_width ds tl : digits ds → ¬ (48 ≤ default 0 (head tl) ≤ 57) → scan 10 (dec ds ++ tl) = (value 10 ds, tl).
Proof.
  intros Hd Htl. unfold scan, after_prefix, radix. cbn [Z.eqb Pos.eqb andb].
  assert (span_digits 10 (dec ds ++ tl) = (ds, tl)) as ->; [|done]. induction Hd as [|d ds Hd _ IH].
  - destruct tl as [|c tl]; [done|]. simpl in Htl |- *. unfold digit_val.
    replace ((48 <=? c) && (c <=? 57)) with false by lia. destruct (_ && _) eqn:E; [|done].
    by replace (_ <? 10) with false by lia.
  - cbn [map app span_digits]. unfold digit_val. replace ((48 <=? d + 48) && (d + 48 <=? 57)) with true by lia.
    rewrite IH. replace (d + 48 - 48) with d by lia. by replace (d <? 10) with true by lia.
Qed.

(** A width is read up to the first character that is not a digit. *)
Lemma width_ok p ds tl (cont : Z → Z → A Z) (other : A Z) Q args :
  cstr M p (dec ds ++ tl) → text tl → digits ds → zlen (dec ds ++ tl) < 2 ^ 31 →
  ¬ (48 ≤ default 0 (head tl) ≤ 57) → (ds = [] → default 0 (head tl) ≠ 37) →
  wp (cont (width ds) (p + zlen ds)) Q args →
  wp (c ← lift (M !! p);
      if isdigit c then '(len, p) ← lift (at_mem simple_strtoul M p 10); cont (s32 len) p
      else if c =? 37 then other else cont (-1) p) Q args.
Proof.
  intros Hs Ht Hd Hl Hnd Hnp HQ. apply wp_bind. eapply wp_lift; [by apply cstr_head|].
  assert (Htd : text (dec ds ++ tl)) by (apply Forall_app; split; [by apply dec_text|done]).
  pose proof (simple_strtoull_ok _ 10 ltac:(lia) Htd Hl) as Hp. rewrite scan_width in Hp by done. cbn [fst snd] in Hp.
  pose proof (at_mem_ok simple_strtoul M p _ 10 _ _ Hs Hp) as Hat. unfold width in HQ.
  rewrite isdigit_range.
  2:{ destruct (dec ds ++ tl); simpl; [lia|]. by apply Forall_cons in Htd as [[? _] _]. }
  destruct ds as [|d ds]; cbn [map app head default].
  - rewrite bool_decide_false by done. rewrite (proj2 (Z.eqb_neq _ 37)) by auto.
    simpl in HQ. by rewrite Z.add_0_r in HQ.
  - apply Forall_cons in Hd as [Hd _]. rewrite bool_decide_true by (simpl; lia). apply wp_bind.
    eapply wp_lift; [exact Hat|]. rewrite bool_decide_false in HQ by done.
    rewrite length_app, length_map, Nat2Z.inj_add, Z.add_simpl_r. done.
Qed.

(** [loop_post]: the result of a match from slot [argc] on. *)
Definition loop_post (argc : Z) (args : list substring_t) (m : option (list substring_t)) (r : Z) (args' : list substring_t) : Prop :=
  keeps argc args args' ∧
  match m with
  | None => r = 0
  | Some l => r = 1 ∧ take (length l) (drop (Z.to_nat argc) args') = l
  end.

Lemma loop_post_arg a n argc args args1 m r args' : 0 ≤ argc → keeps argc args args1 →
  args1 !! Z.to_nat argc = Some (Substring a (a + n)) → loop_post (argc + 1) args1 m r args' →
  loop_post argc args (l ← m; Some (Substring a (a + n) :: l)) r args'.
Proof.
  intros Ha Hk Hat [Hk' Hm]. split; [eapply keeps_trans; [|exact Hk|exact Hk']; lia|].
  destruct m as [l|]; [|done]. destruct Hm as [-> Hm]. cbn [mbind option_bind length]. split; [done|].
  assert (Hx : args' !! Z.to_nat argc = Some (Substring a (a + n))).
  { destruct Hk' as [_ Hk']. rewrite <- Hat, <- (lookup_take_lt args' (Z.to_nat (argc + 1))), Hk' by lia.
    by rewrite lookup_take_lt by lia. }
  rewrite (drop_S _ _ _ Hx). replace (S (Z.to_nat argc)) with (Z.to_nat (argc + 1)) by lia. simpl. by rewrite Hm.
Qed.

Lemma keeps_refl i args : keeps i args args.
Proof. done. Qed.

Lemma no_match argc args args' : keeps argc args args' → wp (mret 0 : A Z) (loop_post argc args None) args'.
Proof. intros H. by apply wp_ret. Qed.

Lemma text_pos s : text s → pos s.
Proof. intros H. eapply Forall_impl; [exact H|]. simpl. lia. Qed.

(** The pattern up to the first '%'. *)
Lemma match_run fuel run q s a p argc args Q : 37 ∉ run → cstr M p (run ++ 37 :: q) → text (run ++ 37 :: q) → cstr M a s → text s →
  (run ≠ take (length run) s → Q 0 args) →
  (run = take (length run) s → wp (
    let s := a + zlen run in
    let p := p + zlen run + 1 in
    let continue len p :=
      o ← match_arg M s p len argc;
      match o with None => mret 0 | Some (s, p) => match_loop fuel M s p (argc + 1) end in
    c ← lift (M !! p);
    if isdigit c then '(len, p) ← lift (at_mem simple_strtoul M p 10); continue (s32 len) p
    else if c =? 37 then x ← lift (M !! s); if negb (x =? 37) then mret 0 else match_loop fuel M (s + 1) (p + 1) argc
    else continue (-1) p) Q args) →
  wp (match_loop (S fuel) M a p argc) Q args.
Proof.
  intros Hr Hp Htp Hs Ht Hno Hyes. cbn [match_loop]. apply wp_bind. eapply wp_lift; [by apply strchr_ok|].
  rewrite <- app_assoc. cbn [app]. rewrite find_meta by done. cbn [fmap option_fmap option_map].
  replace (p + zlen run - p) with (zlen run) by lia. apply wp_bind.
  eapply wp_lift; [apply (strncmp_ok M p (run ++ 37 :: q) a s); [done|done|by apply text_pos|by apply text_pos|lia]|].
  rewrite Nat2Z.id, take_app_length. destruct (decide (run = take (length run) s)) as [He|He].
  - rewrite (proj2 (lex_zero run _) He). cbn [Z.eqb negb]. by apply Hyes.
  - destruct (Z.eqb_spec (lex run (take (length run) s)) 0) as [E|E]; [by apply lex_zero in E|].
    apply wp_ret. by apply Hno.
Qed.

(** What [match_loop_ok] shows of the rest of the loop. *)
Definition loop_ok (fuel : nat) : Prop := ∀ ps s a p argc args, pattern_wf ps → cstr M p (ptext ps) →
  zlen (ptext ps) < 2 ^ 31 → (length (ptext ps) < fuel)%nat → cstr M a s → text s → zlen s < 2 ^ 31 →
  0 ≤ argc → zlen args = MAX_OPT_ARGS →
  wp (match_loop fuel M a p argc) (loop_post argc args (matches ps s a argc)) args.

(** A round from its width on, on a conversion and on what is none. *)
Definition conversion (fuel : nat) (a argc len p : Z) : A Z :=
  o ← match_arg M a p len argc;
  match o with None => mret 0 | Some (s, p) => match_loop fuel M s p (argc + 1) end.

Lemma conversion_ok fuel ds k ps s a p argc args : loop_ok fuel → pattern_wf ps → cstr M p (conv_char k :: ptext ps) →
  zlen (ptext ps) < 2 ^ 31 → (length (ptext ps) < fuel)%nat → cstr M a s → text s → zlen s < 2 ^ 31 →
  0 ≤ argc → zlen args = MAX_OPT_ARGS →
  wp (conversion fuel a argc (width ds) p) (loop_post argc args (matches (Arg ds k :: ps) s a argc)) args.
Proof.
  intros IH Hw Hp Hpl Hf Hs Ht Hl Ha Hargs. pose proof (cstr_head _ _ Hp) as Hk. apply cstr_cons in Hp as (_ & _ & Hp).
  apply wp_bind. eapply wp_mono; [by apply (match_arg_ok ds k s a _ argc args)|].
  intros o args1 [Hkp Ho]. cbn [matches]. destruct (MAX_OPT_ARGS <=? argc); [rewrite Ho; by apply no_match|].
  destruct (arg_len ds k s) as [n|] eqn:En; [|rewrite Ho; by apply no_match].
  destruct Ho as [-> Hat]. cbn [mbind option_bind]. destruct (arg_len_range _ _ _ _ Ht En) as [Hn0 Hn].
  pose proof Hkp as [Hlen _].
  eapply wp_mono; [|intros r args'; by apply (loop_post_arg a n argc args args1)].
  apply (cstr_drop _ _ _ (Z.to_nat n)) in Hs; [|lia]. rewrite Z2Nat.id in Hs by lia.
  apply IH; try done; try (rewrite ?length_drop; lia). by apply text_drop.
Qed.

Lemma conversion_bad fuel len a p r argc args : (∀ k, default 0 (head r) ≠ conv_char k) → cstr M p r →
  0 ≤ argc → zlen args = MAX_OPT_ARGS → wp (conversion fuel a argc len p) (loop_post argc args None) args.
Proof.
  intros Hno Hp Ha Hargs. pose proof (cstr_head _ _ Hp) as Hk. apply wp_bind.
  eapply wp_mono; [by apply (match_arg_bad len (default 0 (head r)) 0)|]. intros o args1 [Hkp ->]. by apply no_match.
Qed.

Lemma match_end fuel run s a p argc args : 37 ∉ run → cstr M p run → text run → cstr M a s → text s →
  wp (match_loop (S fuel) M a p argc) (loop_post argc args (matches (map Lit run) s a argc)) args.
Proof.
  intros Hr Hp Htp Hs Ht. cbn [match_loop]. apply wp_bind. eapply wp_lift; [by apply strchr_ok|].
  rewrite no_meta by done. cbn [fmap option_fmap option_map]. apply wp_bind.
  eapply wp_lift; [apply (strcmp_ok M p run a s); [done|done|by apply text_pos|by apply text_pos]|].
  apply wp_ret. split; [apply keeps_refl|]. rewrite <- (app_nil_r (map Lit run)), matches_lits. cbn [matches].
  destruct (Z.eqb_spec (lex run s) 0) as [E|E].
  - apply lex_zero in E as ->. by rewrite firstn_all, skipn_all, !bool_decide_true.
  - case_bool_decide as H1; [|done]. case_bool_decide as H2; [|done]. destruct E. apply lex_zero.
    rewrite <- (take_drop (length run) s), H2, app_nil_r. done.
Qed.

Lemma match_loop_ok fuel : loop_ok fuel.
Proof.
  induction fuel as [|fuel IH]; intros ps s a p argc args Hw Hp Hpl Hf Hs Ht Hl Ha Hargs; [lia|].
  pose proof (ptext_text ps Hw) as Htp. destruct (lits_split ps Hw) as (run & rest & -> & Hr & Hwr & Hsp).
  rewrite ptext_lits in Hp, Hpl, Hf, Htp by done.
  destruct (ptext_special rest Hsp Hwr) as [[He ->]|[q Hq]].
  { rewrite He, app_nil_r in *. by apply match_end. }
  rewrite matches_lits. rewrite Hq in Hp, Hpl, Hf, Htp. eapply match_run; [done..| |].
  { intros Hne. rewrite bool_decide_false by done. by split. }
  intros He. rewrite bool_decide_true by done. cbv zeta. rewrite length_app in Hpl, Hf. cbn [length] in Hpl, Hf.
  assert (Hrl : (length run ≤ length s)%nat) by (rewrite He, length_take; lia).
  apply Forall_app in Htp as [_ [_ Htq]%Forall_cons]. apply cstr_tail in Hp. apply cstr_cons in Hp as (_ & _ & Hp).
  pose proof (cstr_drop _ _ _ _ Hrl Hs) as Hs'. pose proof (text_drop (length run) s Ht) as Ht'.
  assert (Hl' : zlen (drop (length run) s) < 2 ^ 31) by (rewrite length_drop; lia).
  destruct rest as [|[c|ds k|ds r] ps]; cbn [ptext] in Hq; [done|..].
  - cbn [special] in Hsp. subst c. injection Hq as <-. apply cstr_cons in Hp as (_ & Hp & Hpt).
    apply wp_bind. eapply wp_lift; [exact Hp|]. change (isdigit 37) with false. cbn [Z.eqb Pos.eqb].
    apply wp_bind. eapply wp_lift; [by apply cstr_head|]. cbn [matches].
    destruct (drop (length run) s) as [|x s']; [by apply no_match|]. change (default 0 (head (x :: s'))) with x.
    rewrite (Z.eqb_sym 37 x). destruct (Z.eqb_spec x 37) as [-> |]; cbn [negb]; [|by apply no_match].
    apply cstr_cons in Hs' as (_ & _ & Hs'). apply Forall_cons in Ht' as [_ Ht']. destruct Hwr as (_ & _ & Hwr).
    cbn [length] in *. apply IH; (done || lia).
  - injection Hq as <-. destruct Hwr as [Hd Hwr]. rewrite length_app, length_map in Hpl, Hf. cbn [length] in Hpl, Hf.
    eapply (width_ok _ ds (conv_char k :: ptext ps) (conversion fuel (a + zlen run) argc)); [done| |done| | | |].
    { by apply Forall_app in Htq as [_ ?]. } { rewrite length_app, length_map. simpl. lia. }
    { destruct k; simpl; lia. } { by destruct k. }
    apply cstr_tail in Hp. rewrite length_map in Hp. apply conversion_ok; (done || lia).
  - injection Hq as <-. destruct Hwr as (Hd & Hrt & (Hnc & Hnd & Hn37) & ->). cbn [ptext] in Hp, Htq. rewrite app_nil_r in *.
    eapply (width_ok _ ds r (conversion fuel (a + zlen run) argc)); try done; [lia|].
    apply cstr_tail in Hp. rewrite length_map in Hp. by apply (conversion_bad _ _ _ _ r).
Qed.
End matching.

(** ** match_token *)

(** A table: tokens with their patterns; the NULL pattern matches everything. *)
Fixpoint token_spec (tbl : list (Z * option (list piece))) (s : list Z) (a : Z) : option (Z * list substring_t) :=
  match tbl with
  | [] => None
  | (t, None) :: _ => Some (t, [])
  | (t, Some ps) :: tbl =>
      match matches ps s a 0 with Some l => Some (t, l) | None => token_spec tbl s a end
  end.

Definition entry_at (M : mem) (e : match_entry) (x : Z * option (list piece)) : Prop :=
  token e = fst x ∧
  match snd x with
  | None => pattern e = None
  | Some ps => pattern_wf ps ∧ zlen (ptext ps) < 2 ^ 31 ∧ ∃ p, pattern e = Some p ∧ cstr M p (ptext ps)
  end.

Lemma match_one_ok M ps s a p args : pattern_wf ps → cstr M p (ptext ps) → zlen (ptext ps) < 2 ^ 31 →
  cstr M a s → text s → zlen s < 2 ^ 31 → zlen args = MAX_OPT_ARGS →
  wp (match_one M a (Some p)) (loop_post 0 args (matches ps s a 0)) args.
Proof. intros. apply match_loop_ok; try done. by eapply cstr_fuel. Qed.

Lemma match_token_ok M s a table tbl : cstr M a s → text s → zlen s < 2 ^ 31 → Forall2 (entry_at M) table tbl →
  ∀ t l args, token_spec tbl s a = Some (t, l) → zlen args = MAX_OPT_ARGS →
  wp (match_token M a table) (λ r args', r = t ∧ length args' = length args ∧ take (length l) args' = l) args.
Proof.
  intros Hs Ht Hl. induction 1 as [|e [t0 [ps|]] table tbl [Htok He] _ IH]; intros t l args Hsp Hargs; [done|..];
    cbn [fst snd token_spec match_token] in *; apply wp_bind.
  - destruct He as (Hw & Hpl & p & -> & Hp).
    eapply wp_mono; [by apply (match_one_ok M ps s)|]. intros r args1 [[Hlen _] Hm].
    destruct (matches ps s a 0) as [l'|].
    + destruct Hm as [-> Hm]. injection Hsp as -> ->. apply wp_ret. done.
    + rewrite Hm. cbn [Z.eqb]. eapply wp_mono; [apply (IH t l args1); [done|congruence]|].
      intros r' args' (-> & Hlen' & Hta). split_and!; [done|congruence|done].
  - injection Hsp as -> <-. rewrite He. apply wp_ret. cbn [Z.eqb]. by apply wp_ret.
Qed.

Lemma token_spec_total tbl s a : Exists (λ x, snd x = None) tbl → is_Some (token_spec tbl s a).
Proof.
  induction 1 as [[t o] tbl Ho|[t o] tbl _ IH]; cbn [token_spec snd] in *; [by rewrite Ho|].
  destruct o as [ps|]; [|done]. by destruct (matches ps s a 0).
Qed.

(** Arguments are parts of the string. *)
Lemma matches_within ps : ∀ s a argc l, text s → matches ps s a argc = Some l →
  Forall (λ x, a ≤ from x ≤ to x ∧ to x ≤ a + zlen s) l.
Proof.
  induction ps as [|[c|ds k|ds r] ps IH]; intros s a argc l Ht; cbn [matches]; [| | |done].
  - case_bool_decide; [intros [= <-]; constructor|done].
  - destruct s as [|x s]; [done|]. destruct (c =? x); [|done]. intros H. apply Forall_cons in Ht as [_ Ht].
    eapply Forall_impl; [by apply (IH s (a + 1) argc)|]. intros y Hy. simpl in Hy |- *. lia.
  - destruct (_ <=? _); [done|]. destruct (arg_len ds k s) as [n|] eqn:En; [|done]. cbn [mbind option_bind].
    destruct (matches ps _ _ _) as [l'|] eqn:El; [|done]. intros [= <-].
    destruct (arg_len_range _ _ _ _ Ht En) as [Hn0 Hn]. constructor; [simpl; lia|].
    eapply Forall_impl; [by eapply IH, El; apply text_drop|]. intros y. rewrite length_drop. lia.
Qed.

Lemma token_spec_within tbl s a t l : text s → token_spec tbl s a = Some (t, l) →
  Forall (λ x, a ≤ from x ≤ to x ∧ to x ≤ a + zlen s) l.
Proof.
  intros Ht. induction tbl as [|[t0 [ps|]] tbl IH]; cbn [token_spec]; [done| |intros [= _ <-]; constructor].
  destruct (matches ps s a 0) eqn:E; [|done]. intros [= _ <-]. by eapply matches_within.
Qed.

(** C39: match_token.  On a table that ends in a NULL pattern match_token returns for
    every string: the token of the first entry whose pattern matches the whole string,
    where a conversion takes the longest number in its base, or the rest of the string
    up to its width.  args holds the arguments of that match in their order, as parts
    of the string, and no more than MAX_OPT_ARGS of them are ever written. *)
Theorem match_token_correct M s a table tbl args :
  cstr M a s → text s → zlen s < 2 ^ 31 → Forall2 (entry_at M) table tbl → Exists (λ x, snd x = None) tbl →
  zlen args = MAX_OPT_ARGS →
  ∃ t l args', token_spec tbl s a = Some (t, l) ∧ match_token M a table args = Some (t, args') ∧
    zlen args' = MAX_OPT_ARGS ∧ take (length l) args' = l ∧
    Forall (λ x, a ≤ from x ≤ to x ∧ to x ≤ a + zlen s) l.
Proof.
  intros Hs Ht Hl Htab Hnull Hargs. destruct (token_spec_total tbl s a Hnull) as [[t l] Hsp].
  pose proof (match_token_ok M s a table tbl Hs Ht Hl Htab t l args Hsp Hargs) as Hw.
  apply wp_elim in Hw as (r & args' & Hrun & -> & Hlen & Hta). exists t, l, args'.
  split_and!; [done|done|congruence|done|by eapply token_spec_within].
Qed.

(** ** The arguments as numbers *)

Lemma kfree_lookup n : ∀ M p i, kfree M p n !! i = if bool_decide (p ≤ i < p + Z.of_nat n) then None else M !! i.
Proof.
  induction n as [|n IH]; intros M p i; cbn [kfree].
  - rewrite bool_decide_false by lia. done.
  - destruct (decide (i = p)) as [-> |Hn]; [rewrite lookup_delete_eq, bool_decide_true by lia; done|].
    rewrite lookup_delete_ne, IH by done. by repeat case_bool_decide; try lia.
Qed.

Lemma copy_block M dest src l : bytes_at M src l → mapped M dest (zlen l + 1) → dest ≤ src ∨ src + zlen l ≤ dest →
  (M' ← memcpy M dest src (zlen l); poke M' (dest + zlen l) 0) = Some (put M dest (l ++ [0])).
Proof.
  intros Hb Hm Hd. rewrite memcpy_ok; [|done| |done].
  2:{ intros i Hi. apply Hm. lia. }
  cbn [mbind option_bind]. rewrite put_app. apply poke_mapped. rewrite put_lookup.
  replace ((dest <=? dest + zlen l) && (dest + zlen l <? dest + zlen l)) with false by lia. apply Hm. lia.
Qed.

Section numbers.
Context {K : kmem} {Kok : kmem_ok K}.

(** A new block does not disturb the bytes that were there. *)
Lemma fresh_bytes M n a b src l : kmalloc M n = Some (a, b) → 0 < n → bytes_at M src l →
  bytes_at (put M a b) src l ∧ (a ≤ src ∨ src + zlen l ≤ a) ∧ mapped (put M a b) a n ∧ zlen b = n.
Proof.
  intros Hk Hn Hb. destruct (kmalloc_fresh _ _ _ _ Hk) as [Hlen Hf]. rewrite bytes_at_lookup in Hb. split_and!.
  - apply bytes_at_lookup. intros i x Hx. rewrite put_lookup. pose proof (Hb i x Hx) as HM.
    destruct ((a <=? _) && _) eqn:E; [|done]. rewrite Hf in HM by lia. done.
  - destruct (decide (a ≤ src)); [by left|]. destruct (decide (src + zlen l ≤ a)); [by right|].
    destruct (lookup_lt_is_Some_2 l (Z.to_nat (a - src))) as [x Hx]; [lia|]. apply Hb in Hx.
    replace (src + Z.of_nat (Z.to_nat (a - src))) with a in Hx by lia. by rewrite Hf in Hx by lia.
  - rewrite <- Hlen. apply bytes_mapped, bytes_at_put.
  - done.
Qed.

(** The block is gone again after kfree. *)
Lemma kfree_put M n a b l : kmalloc M n = Some (a, b) → zlen l = n → kfree (put (put M a b) a l) a (length b) = M.
Proof.
  intros Hk Hl. destruct (kmalloc_fresh _ _ _ _ Hk) as [Hlen Hf]. apply map_eq. intros i.
  rewrite kfree_lookup. case_bool_decide; [symmetry; apply Hf; lia|]. rewrite !put_lookup.
  replace ((a <=? i) && (i <? a + zlen l)) with false by lia.
  by replace ((a <=? i) && (i <? a + zlen b)) with false by lia.
Qed.

(** The outcome of match_number on a text. *)
Definition number_spec (base : Z) (l : list Z) : Z * option Z :=
  let '(v, rest) := scan_signed base l in
  if bool_decide (length rest = length l) then (- pa_EINVAL, None)
  else if bool_decide (- 2 ^ 31 ≤ s64 v < 2 ^ 31) then (0, Some (s64 v)) else (- pa_ERANGE, None).

Definition holds (M : mem) (x : substring_t) (l : list Z) : Prop := bytes_at M (from x) l ∧ to x = from x + zlen l.

(** The memory is as before the call, the buffer freed. *)
Lemma match_number_ok M x l base : holds M x l → text l → zlen l + 1 < 2 ^ 31 → base = 0 ∨ 2 ≤ base ≤ 16 →
  match_number M x base =
  Some (if kmalloc M (zlen l + 1) then number_spec base l else (- pa_ENOMEM, None), M).
Proof.
  intros [Hb Hto] Ht Hl Hbase. unfold match_number. rewrite Hto. replace (from x + zlen l - from x) with (zlen l) by lia.
  rewrite (u64_small (zlen l)), (u64_small (zlen l + 1)) by lia.
  destruct (kmalloc M (zlen l + 1)) as [[buf b]|] eqn:Hk; [|done].
  destruct (fresh_bytes _ _ _ _ _ _ Hk ltac:(lia) Hb) as (Hb' & Hd & Hm & Hlen).
  pose proof (copy_block _ _ _ _ Hb' Hm Hd) as Hc.
  destruct (memcpy _ _ _ _) as [M1|]; [|done]. cbn [mbind option_bind] in Hc |- *. rewrite Hc. cbn [mbind option_bind].
  assert (Hs : cstr (put (put M buf b) buf (l ++ [0])) buf l).
  { split; [eapply Forall_impl; [exact Ht|]; simpl; tauto|apply bytes_at_put]. }
  rewrite (at_mem_ok _ _ _ _ _ _ _ Hs (simple_strtol_ok l base Hbase Ht ltac:(lia))). cbn [mbind option_bind].
  rewrite (kfree_put _ _ _ _ _ Hk) by (rewrite length_app; simpl; lia). do 2 f_equal. unfold number_spec.
  destruct (scan_signed_text base l Ht) as [_ Hle]. destruct (scan_signed base l) as [v rest]. cbn [fst snd] in *.
  rewrite (bool_decide_ext _ (buf + (zlen l - zlen rest) = buf)) by lia.
  destruct (Z.eqb_spec (buf + (zlen l - zlen rest)) buf); [by rewrite bool_decide_true|rewrite bool_decide_false by done].
  unfold INT_MAX. case_bool_decide.
  - replace ((s64 v <? - (2 ^ 31 - 1) - 1) || (2 ^ 31 - 1 <? s64 v)) with false by lia. by rewrite s32_small by lia.
  - by replace ((s64 v <? - (2 ^ 31 - 1) - 1) || (2 ^ 31 - 1 <? s64 v)) with true by lia.
Qed.

(** match_int, match_octal and match_hex return -ENOMEM where kmalloc fails,
    -EINVAL where no character belongs to a number in the base, -ERANGE where the value
    modulo 2^64 does not fit an int, and 0 with that value otherwise; in every case the
    memory is as before the call, with the buffer freed. *)
Lemma match_numbers_correct M x l : holds M x l → text l → zlen l + 1 < 2 ^ 31 →
  let spec base := Some (if kmalloc M (zlen l + 1) then number_spec base l else (- pa_ENOMEM, None), M) in
  match_int M x = spec 0 ∧ match_octal M x = spec 8 ∧ match_hex M x = spec 16.
Proof. intros Hx Ht Hl spec. split_and!; apply match_number_ok; auto; right; lia. Qed.

(** ** The arguments as strings *)

Lemma match_strlcpy_ok M dest x l size : holds M x l → zlen l < 2 ^ 64 → 0 ≤ size → mapped M dest size →
  dest + size ≤ from x ∨ to x ≤ dest →
  match_strlcpy M dest x size =
  Some (zlen l, if size =? 0 then M else put M dest (take (Z.to_nat (size - 1)) l ++ [0])).
Proof.
  intros [Hb Hto] Hl Hsz Hm Hd. unfold match_strlcpy. rewrite Hto in *. replace (from x + zlen l - from x) with (zlen l) by lia.
  rewrite u64_small by lia. destruct (Z.eqb_spec size 0); cbn [negb]; [done|].
  assert (Hlen : (if size <=? zlen l then size - 1 else zlen l) = zlen (take (Z.to_nat (size - 1)) l)).
  { rewrite length_take. destruct (Z.leb_spec size (zlen l)); lia. }
  set (l' := take (Z.to_nat (size - 1)) l) in *. rewrite Hlen.
  assert (Hle : zlen l' ≤ size - 1 ∧ zlen l' ≤ zlen l) by (unfold l'; rewrite length_take; lia).
  assert (Hc := copy_block M dest (from x) l' ltac:(by apply bytes_take) ltac:(intros i Hi; apply Hm; lia) ltac:(lia)).
  destruct (memcpy _ _ _ _); [|done]. cbn [mbind option_bind] in Hc |- *. by rewrite Hc.
Qed.

(** match_strdup returns a new copy of the argument, or NULL and leaves the memory. *)
Lemma match_strdup_correct M x l : holds M x l → text l → zlen l + 1 < 2 ^ 64 →
  match kmalloc M (zlen l + 1) with
  | None => match_strdup M x = Some (None, M)
  | Some (p, _) => ∃ M', match_strdup M x = Some (Some p, M') ∧ cstr M' p l ∧
      ∀ i, is_Some (M !! i) → M' !! i = M !! i
  end.
Proof.
  intros [Hb Hto] Ht Hl. unfold match_strdup. rewrite Hto. replace (from x + zlen l - from x + 1) with (zlen l + 1) by lia.
  rewrite u64_small by lia. destruct (kmalloc M (zlen l + 1)) as [[p b]|] eqn:Hk; [|done].
  destruct (fresh_bytes _ _ _ _ _ _ Hk ltac:(lia) Hb) as (Hb' & Hd & Hm & Hlen).
  destruct (kmalloc_fresh _ _ _ _ Hk) as [_ Hf].
  assert (Hc := copy_block _ _ _ _ Hb' Hm Hd). unfold match_strlcpy. rewrite Hto.
  replace (from x + zlen l - from x) with (zlen l) by lia. rewrite u64_small by lia.
  replace (zlen l + 1 =? 0) with false by lia. replace (zlen l + 1 <=? zlen l) with false by lia. cbn [negb].
  destruct (memcpy _ _ _ _) as [M1|]; [|done]. cbn [mbind option_bind] in Hc |- *. rewrite Hc. cbn [mbind option_bind].
  eexists. split; [done|]. split; [split; [eapply Forall_impl; [exact Ht|]; simpl; tauto|apply bytes_at_put]|].
  intros i [y Hy]. rewrite !put_lookup, length_app, Hlen. cbn [length].
  destruct ((p <=? i) && (i <? p + (zlen l + 1))) eqn:E; [by rewrite Hf in Hy by lia|].
  replace (p + Z.of_nat (length l + 1)) with (p + (zlen l + 1)) by lia. by rewrite E.
Qed.

(** ** Options read back *)

Definition shows_int (n : Z) (z : list Z) : Prop := is_dec n z ∨ ∃ z', z = 45 :: z' ∧ is_dec (- n) z'.

Lemma scan_shows n z : shows_int n z → scan_signed 0 z = (n, []) ∧ text z ∧ z ≠ [].
Proof.
  intros [Hd|(z' & -> & Hd)]; destruct (is_dec_text _ _ Hd) as [Ht Hne]; pose proof (scan_dec _ _ [] Hd I) as Hsc;
    rewrite app_nil_r in Hsc.
  - split; [|done]. destruct Hd as (ds & (Hds & Hf & _) & ->). unfold scan_signed. apply Forall_reverse in Hf.
    destruct (reverse ds) as [|d l]; [done|]. apply Forall_cons in Hf as [Hd _]. cbn [map] in *.
    by replace (d + 48 =? 45) with false by lia.
  - split; [cbn [scan_signed Z.eqb Pos.eqb]; rewrite Hsc; f_equal; lia|]. split; [constructor; [lia|done]|done].
Qed.

Lemma token_spec_skip pre tbl s a : Forall (λ x, ∃ ps, snd x = Some ps ∧ matches ps s a 0 = None) pre →
  token_spec (pre ++ tbl) s a = token_spec tbl s a.
Proof. induction 1 as [|[t o] pre (ps & Ho & Hm) _ IH]; [done|]. cbn [app token_spec snd] in *. by rewrite Ho, Hm. Qed.

Lemma matches_option name n z a : shows_int n z →
  matches (map Lit name ++ [Arg [] Cd]) (name ++ z) a 0 = Some [Substring (a + zlen name) (a + zlen name + zlen z)].
Proof.
  intros Hz. destruct (scan_shows _ _ Hz) as (Hsc & _ & Hne). rewrite matches_lits, take_app_length, drop_app_length.
  rewrite bool_decide_true by done. cbn [matches arg_len number_tail]. change (MAX_OPT_ARGS <=? 0) with false. cbv iota.
  rewrite Hsc. cbn [snd length]. cbv zeta. replace (zlen z - Z.of_nat 0) with (zlen z) by lia.
  replace (zlen z =? 0) with false by (destruct z; [done|simpl; lia]). cbn [mbind option_bind].
  by rewrite Nat2Z.id, skipn_all.
Qed.

(** Mount options round trip.  An option "name" followed by an int in decimal, with
    a sign or without, in a table with the pattern "name%d" that no earlier entry
    matches: match_token returns the token of that pattern, args[0] is the text of the
    number, and match_int reads the number back, unless it is out of memory. *)
Lemma match_option_roundtrip M name n z a table pre t post args :
  shows_int n z → - 2 ^ 31 ≤ n < 2 ^ 31 → text name → zlen (name ++ z) + 1 < 2 ^ 31 → cstr M a (name ++ z) →
  Forall2 (entry_at M) table (pre ++ (t, Some (map Lit name ++ [Arg [] Cd])) :: post) →
  Forall (λ x, ∃ ps, snd x = Some ps ∧ matches ps (name ++ z) a 0 = None) pre →
  zlen args = MAX_OPT_ARGS →
  ∃ x args', match_token M a table args = Some (t, x :: args') ∧ holds M x z ∧
    match_int M x = Some (if kmalloc M (zlen z + 1) then (0, Some n) else (- pa_ENOMEM, None), M).
Proof.
  intros Hz Hn Htn Hl Hs Htab Hpre Hargs. destruct (scan_shows _ _ Hz) as (Hsc & Htz & Hne). rewrite length_app in Hl.
  assert (Hsp := token_spec_skip pre ((t, Some (map Lit name ++ [Arg [] Cd])) :: post) (name ++ z) a Hpre).
  cbn [token_spec] in Hsp. rewrite (matches_option name n z a Hz) in Hsp.
  pose proof (match_token_ok M _ a table _ Hs ltac:(by apply Forall_app) ltac:(rewrite length_app; lia) Htab _ _ args Hsp Hargs) as Hw.
  apply wp_elim in Hw as (r & args' & Hrun & -> & _ & Hta). destruct args' as [|x args']; [done|].
  injection Hta as ->. eexists _, _. split; [exact Hrun|].
  assert (Hx : holds M (Substring (a + zlen name) (a + zlen name + zlen z)) z).
  { split; [|done]. destruct (cstr_tail M _ _ _ Hs) as [_ Hb]. by apply bytes_at_app in Hb as [Hb _]. }
  split; [exact Hx|]. unfold match_int. rewrite (match_number_ok _ _ z 0) by (done || lia || by left).
  unfold number_spec. rewrite Hsc. rewrite bool_decide_false by (destruct z; done).
  assert (s64 n = n) as ->; [unfold s64; rewrite wrap_small by lia; lia|]. by rewrite bool_decide_true.
Qed.
End numbers.

Module ParserDemo.
(** A kmalloc that uses one place. *)
#[export] Instance one_block : kmem :=
  {| kmalloc M n := if bool_decide (0 ≤ n) && forallb (λ i, bool_decide (M !! i = None)) (seqZ 1000 n)
                    then Some (1000, replicate (Z.to_nat n) 170) else None |}.
#[export] Instance one_block_ok : kmem_ok one_block.
Proof.
  intros M n a l. simpl. case_bool_decide; [|done]. cbn [andb]. destruct (forallb _ _) eqn:E; [|done].
  intros [= <- <-]. rewrite length_replicate. split; [lia|]. intros i Hi. rewrite forallb_forall in E.
  specialize (E i ltac:(apply list_elem_of_In, elem_of_seqZ; lia)). by apply bool_decide_eq_true in E.
Qed.

(** "uid=-5", "mode=%o" and "uid=%d". *)
Definition uid : list Z := [117; 105; 100; 61].
Definition mode : list Z := [109; 111; 100; 101; 61].
Definition M0 : mem := put (put (put ∅ 100 (uid ++ [45; 53; 0])) 200 (mode ++ [37; 111; 0])) 300 (uid ++ [37; 100; 0]).
Definition table : list match_entry := [MatchToken 1 (Some 200); MatchToken 2 (Some 300); MatchToken 3 None].
Definition tbl : list (Z * option (list piece)) :=
  [(1, Some (map Lit mode ++ [Arg [] Co])); (2, Some (map Lit uid ++ [Arg [] Cd])); (3, None)].
Definition args : list substring_t := replicate 3 (Substring 0 0).

Ltac in_memory := split; [repeat constructor; discriminate|vm_compute; repeat split].
Lemma option_at : cstr M0 100 (uid ++ [45; 53]).
Proof. in_memory. Qed.
Lemma table_at : Forall2 (entry_at M0) table tbl.
Proof.
  constructor; [|constructor; [|constructor; [|constructor]]]; split; try done.
  - split; [repeat split; (done || lia || constructor)|]. split; [done|]. exists 200. split; [done|]. in_memory.
  - split; [repeat split; (done || lia || constructor)|]. split; [done|]. exists 300. split; [done|]. in_memory.
Qed.

Example match_token_correct_witness : ∃ t l args', token_spec tbl (uid ++ [45; 53]) 100 = Some (t, l) ∧
  match_token M0 100 table args = Some (t, args') ∧ zlen args' = MAX_OPT_ARGS ∧ take (length l) args' = l ∧
  Forall (λ x, 100 ≤ from x ≤ to x ∧ to x ≤ 100 + 6) l.
Proof.
  apply (match_token_correct M0 (uid ++ [45; 53]) 100 table tbl args);
    [exact option_at|repeat constructor; lia|reflexivity|exact table_at|do 2 apply Exists_cons_tl; by apply Exists_cons_hd|reflexivity].
Defined.

Example match_numbers_demo :
  match_int M0 (Substring 104 106) = Some (0, Some (-5), M0) ∧
  match_octal M0 (Substring 104 106) = Some (0, Some (-5), M0) ∧ match_hex M0 (Substring 104 106) = Some (0, Some (-5), M0).
Proof.
  destruct (match_numbers_correct M0 (Substring 104 106) [45; 53]) as (H1 & H2 & H3);
    [split; [vm_compute; repeat split|reflexivity]|repeat constructor; lia|reflexivity|].
  split_and!; [rewrite H1|rewrite H2|rewrite H3]; do 2 f_equal; vm_compute; reflexivity.
Defined.

Lemma not_earlier : Forall (λ x : Z * option (list piece), ∃ ps, snd x = Some ps ∧ matches ps (uid ++ [45; 53]) 100 0 = None)
  [(1, Some (map Lit mode ++ [Arg [] Co]))].
Proof. constructor; [|constructor]. eexists. split; [reflexivity|]. reflexivity. Qed.

Example match_option_roundtrip_witness : ∃ x args', match_token M0 100 table args = Some (2, x :: args') ∧
  holds M0 x [45; 53] ∧ match_int M0 x = Some (0, Some (-5), M0).
Proof.
  destruct (match_option_roundtrip M0 uid (-5) [45; 53] 100 table [(1, Some (map Lit mode ++ [Arg [] Co]))] 2 [(3, None)] args)
    as (x & args' & H1 & H2 & H3);
    [right; exists [53]; split; [reflexivity|apply (dec1 5); lia]|lia|repeat constructor; lia|reflexivity|exact option_at
    |exact table_at|exact not_earlier|reflexivity|].
  exists x, args'. split; [exact H1|]. split; [exact H2|]. rewrite H3. do 2 f_equal; vm_compute; reflexivity.
Defined.
End ParserDemo.

(** ** What match_int accepts *)

(** A sign alone is read as 0, the prefix of a hexadecimal number too, and a value is
    reduced modulo 2^64 before its range is tested: "18446744073709551617" is 1. *)
Lemma match_number_accepts :
  number_spec 0 [45] = (0, Some 0) ∧ number_spec 16 [48; 120] = (0, Some 0) ∧
  number_spec 0 [49; 56; 52; 52; 54; 55; 52; 52; 48; 55; 51; 55; 48; 57; 53; 53; 49; 54; 49; 55] = (0, Some 1).
Proof. split_and!; vm_compute; reflexivity. Qed.

(** match_int reads "010" as 8 and "0x10" as 16. *)
Lemma match_int_not_decimal :
  number_spec 0 [48; 49; 48] = (0, Some 8) ∧ number_spec 0 [48; 120; 49; 48] = (0, Some 16).
Proof. split; vm_compute; reflexivity. Qed.
