(* ===== verification/SecureBoot.v ===== *)
(** * SecureBoot: authentication of images (ufbl-features secure_boot)

    image_verify.c and image_verify_ltc.c.  A signed image is followed by an X.509
    certificate, signed by the production or the engineering root, that names the
    product and holds the hash of the image.  libtomcrypt is not part of the sources:
    its functions and the allocator are the class [ltc], the platform functions the
    class [target].

    A decoded certificate is the tree of ltc_asn1_list nodes, a first child and a next
    sibling each; [NIL] is the null pointer.  A parent pointer, where it is set, points
    to the enclosing node, so a node is reached together with the nodes above it.
    Data are the bytes the library has put there, and a read behind them goes wrong; the
    data of a sequence are the items der_rescan_tree collects.  Releasing memory and
    printing have no effect on the results and are left out; the string that is printed
    has to be terminated all the same.  UFBL_SUPPORTS_WCSTOMBS is not defined. *)

From S2P Require Import Prelude Idme.

(** ** Certificates *)

Inductive asn1_type : Type :=
  | LTC_ASN1_SEQUENCE | LTC_ASN1_SET | LTC_ASN1_CONSTRUCTED | LTC_ASN1_CONTEXT_SPECIFIC
  | LTC_ASN1_INTEGER | LTC_ASN1_OBJECT_IDENTIFIER | LTC_ASN1_PRINTABLE_STRING | LTC_ASN1_UTF8_STRING
  | LTC_ASN1_UTCTIME | LTC_ASN1_NULL | LTC_ASN1_BIT_STRING | LTC_ASN1_OCTET_STRING | LTC_ASN1_OTHER (n : Z).
#[global] Instance asn1_type_eq_dec : EqDecision asn1_type.
Proof. solve_decision. Defined.

Inductive asn1_data : Type := NODATA | BYTES (b : list Z) | ITEMS (l : list asn1_item)
with asn1_item : Type := ITEM (t : asn1_type) (d : asn1_data) (size used : Z).

Record asn1_node : Type := Asn1
  { a_type : asn1_type; a_data : asn1_data; a_size : Z; a_used : Z; a_parent : bool }.
Inductive ltc_asn1_list : Type := NIL | NODE (n : asn1_node) (child next : ltc_asn1_list).

Definition child (l : ltc_asn1_list) : ltc_asn1_list := match l with NIL => NIL | NODE _ c _ => c end.
Definition next (l : ltc_asn1_list) : ltc_asn1_list := match l with NIL => NIL | NODE _ _ x => x end.

(** ** Bytes *)

(** memcmp with a constant: it stops at the first difference. *)
Fixpoint memcmp_eq (p q : list Z) : option bool :=
  match q with
  | [] => Some true
  | y :: q => match p with [] => None | x :: p => if x =? y then memcmp_eq p q else Some false end
  end.

(** The string at a pointer, without its terminator. *)
Fixpoint c_string (p : list Z) : option (list Z) :=
  match p with
  | [] => None
  | c :: p => if c =? 0 then Some [] else s ← c_string p; Some (c :: s)
  end.

(** An array of unsigned long in memory: the boot loader is 32-bit code. *)
Definition ulongs (l : list Z) : list Z := concat (map le32 l).

Definition bytes_of (d : asn1_data) : option (list Z) := match d with BYTES b => Some b | _ => None end.

(** ** The library and the platform *)

Definition AMZN_ENGINEERING_DEVICE : Z := 0.
Definition AMZN_PRODUCTION_DEVICE : Z := 1.
Definition AMZN_INVALID_DEVICE : Z := 2.
Definition AMZN_ENGINEERING_CERT : Z := 0.
Definition AMZN_PRODUCTION_CERT : Z := 1.
Definition hashsize : Z := 32.
Definition NUMBER_OF_SECTIONS_IN_CERTIFICATE : Z := 93.

Class ltc : Type :=
  { lw : Type;
    rsa_key : Type;
    (** an allocation of a size succeeds or not *)
    XMALLOC : Z → lw → bool * lw;
    mp_init : lw → bool * lw;
    (** the tree of a buffer and its length, where it decodes *)
    der_decode_sequence_flexi : list Z → Z → option ltc_asn1_list;
    der_length_sequence : asn1_data → Z → option Z;
    der_encode_sequence_ex : asn1_data → Z → Z → option (list Z);
    rsa_import : list Z → option rsa_key;
    (** signature, hash, key and the old *stat; the return code and *stat *)
    rsa_verify_hash : list Z → list Z → rsa_key → Z → Z * Z;
    sha256 : list Z → list Z;
    (** numbers of any size, from a string in hexadecimal and to bytes *)
    mp_read_radix : list Z → option Z;
    mp_unsigned_bin_size : Z → Z;
    mp_to_unsigned_bin : Z → option (list Z) }.

Class target : Type :=
  { amzn_target_device_name : list Z;
    amzn_target_device_type : Z }.

(** meta_data_handler: null, or a function of a string. *)
Notation meta_data_handler := (option (list Z → Z)).

Definition production_cacert : list Z :=
  [48; 130; 4; 43; 48; 130; 2; 227; 160; 3; 2; 1; 2; 2; 9; 0; 132; 167; 194; 174; 82; 240; 196;
   251; 48; 61; 6; 9; 42; 134; 72; 134; 247; 13; 1; 1; 10; 48; 48; 160; 13; 48; 11; 6; 9; 96;
   134; 72; 1; 101; 3; 4; 2; 1; 161; 26; 48; 24; 6; 9; 42; 134; 72; 134; 247; 13; 1; 1; 8; 48;
   11; 6; 9; 96; 134; 72; 1; 101; 3; 4; 2; 1; 162; 3; 2; 1; 32; 48; 124; 49; 11; 48; 9; 6; 3; 85;
   4; 6; 19; 2; 85; 83; 49; 19; 48; 17; 6; 3; 85; 4; 8; 12; 10; 67; 97; 108; 105; 102; 111; 114;
   110; 105; 97; 49; 18; 48; 16; 6; 3; 85; 4; 7; 12; 9; 83; 117; 110; 110; 121; 118; 97; 108;
   101; 49; 22; 48; 20; 6; 3; 85; 4; 10; 12; 13; 65; 109; 97; 122; 111; 110; 32; 76; 97; 98; 49;
   50; 54; 49; 44; 48; 42; 6; 3; 85; 4; 11; 12; 35; 67; 111; 109; 109; 111; 110; 32; 75; 101;
   114; 110; 101; 108; 32; 83; 105; 103; 110; 105; 110; 103; 32; 80; 114; 111; 100; 117; 99; 116;
   105; 111; 110; 32; 67; 65; 48; 30; 23; 13; 49; 53; 48; 52; 49; 54; 50; 51; 51; 48; 49; 48; 90;
   23; 13; 50; 53; 48; 50; 50; 50; 50; 51; 51; 48; 49; 48; 90; 48; 124; 49; 11; 48; 9; 6; 3; 85;
   4; 6; 19; 2; 85; 83; 49; 19; 48; 17; 6; 3; 85; 4; 8; 12; 10; 67; 97; 108; 105; 102; 111; 114;
   110; 105; 97; 49; 18; 48; 16; 6; 3; 85; 4; 7; 12; 9; 83; 117; 110; 110; 121; 118; 97; 108;
   101; 49; 22; 48; 20; 6; 3; 85; 4; 10; 12; 13; 65; 109; 97; 122; 111; 110; 32; 76; 97; 98; 49;
   50; 54; 49; 44; 48; 42; 6; 3; 85; 4; 11; 12; 35; 67; 111; 109; 109; 111; 110; 32; 75; 101;
   114; 110; 101; 108; 32; 83; 105; 103; 110; 105; 110; 103; 32; 80; 114; 111; 100; 117; 99; 116;
   105; 111; 110; 32; 67; 65; 48; 130; 1; 34; 48; 13; 6; 9; 42; 134; 72; 134; 247; 13; 1; 1; 1;
   5; 0; 3; 130; 1; 15; 0; 48; 130; 1; 10; 2; 130; 1; 1; 0; 157; 205; 180; 239; 169; 24; 2; 197;
   234; 120; 85; 151; 76; 17; 14; 228; 143; 224; 245; 207; 11; 50; 62; 138; 245; 64; 158; 109;
   247; 249; 250; 188; 27; 143; 46; 207; 10; 120; 0; 150; 221; 48; 38; 226; 15; 80; 162; 76; 44;
   38; 35; 197; 55; 239; 82; 196; 203; 15; 145; 191; 21; 158; 9; 250; 193; 127; 103; 214; 69; 76;
   61; 19; 52; 72; 205; 188; 251; 174; 21; 228; 20; 31; 105; 68; 21; 25; 49; 98; 214; 73; 233;
   13; 16; 38; 226; 17; 169; 132; 21; 185; 229; 74; 180; 69; 200; 146; 2; 108; 128; 164; 187;
   236; 148; 239; 4; 56; 126; 146; 142; 2; 31; 241; 132; 129; 5; 218; 244; 72; 246; 170; 231;
   168; 243; 53; 149; 205; 153; 133; 83; 143; 129; 231; 67; 166; 47; 75; 36; 159; 241; 119; 79;
   240; 22; 162; 48; 63; 84; 225; 77; 35; 153; 183; 133; 241; 40; 10; 216; 164; 165; 243; 192;
   228; 18; 43; 179; 105; 96; 40; 69; 129; 138; 68; 107; 245; 104; 207; 81; 147; 4; 163; 77; 53;
   92; 159; 138; 111; 40; 105; 173; 207; 122; 35; 75; 73; 241; 79; 37; 151; 80; 205; 24; 164; 93;
   162; 212; 254; 254; 157; 245; 98; 72; 149; 46; 152; 164; 165; 13; 183; 249; 247; 12; 219; 55;
   114; 151; 250; 123; 43; 183; 229; 40; 67; 241; 119; 172; 34; 25; 91; 106; 181; 34; 154; 161;
   46; 224; 103; 2; 3; 1; 0; 1; 163; 80; 48; 78; 48; 29; 6; 3; 85; 29; 14; 4; 22; 4; 20; 201;
   142; 206; 129; 64; 34; 197; 152; 152; 180; 204; 49; 92; 214; 130; 14; 103; 195; 250; 73; 48;
   31; 6; 3; 85; 29; 35; 4; 24; 48; 22; 128; 20; 201; 142; 206; 129; 64; 34; 197; 152; 152; 180;
   204; 49; 92; 214; 130; 14; 103; 195; 250; 73; 48; 12; 6; 3; 85; 29; 19; 4; 5; 48; 3; 1; 1;
   255; 48; 61; 6; 9; 42; 134; 72; 134; 247; 13; 1; 1; 10; 48; 48; 160; 13; 48; 11; 6; 9; 96;
   134; 72; 1; 101; 3; 4; 2; 1; 161; 26; 48; 24; 6; 9; 42; 134; 72; 134; 247; 13; 1; 1; 8; 48;
   11; 6; 9; 96; 134; 72; 1; 101; 3; 4; 2; 1; 162; 3; 2; 1; 32; 3; 130; 1; 1; 0; 7; 159; 5; 0;
   142; 225; 196; 97; 23; 0; 234; 206; 235; 185; 24; 83; 106; 203; 149; 54; 35; 43; 252; 46; 70;
   169; 196; 48; 160; 47; 28; 132; 36; 221; 0; 82; 43; 18; 73; 228; 212; 176; 181; 52; 32; 35;
   192; 172; 117; 41; 147; 174; 174; 141; 91; 193; 10; 30; 165; 84; 129; 244; 199; 71; 148; 130;
   128; 237; 1; 97; 107; 169; 59; 127; 64; 38; 151; 5; 216; 0; 243; 31; 9; 199; 119; 121; 197;
   56; 246; 113; 168; 59; 52; 156; 226; 208; 94; 171; 118; 255; 31; 202; 181; 129; 220; 81; 127;
   25; 14; 139; 173; 49; 71; 189; 69; 253; 251; 176; 141; 235; 234; 198; 71; 163; 5; 176; 41;
   104; 214; 150; 58; 131; 9; 191; 251; 173; 100; 97; 191; 222; 207; 165; 101; 74; 53; 137; 177;
   160; 178; 190; 165; 241; 60; 152; 0; 198; 154; 101; 215; 74; 62; 49; 241; 1; 37; 63; 178; 26;
   46; 161; 244; 219; 53; 98; 82; 109; 225; 243; 224; 134; 128; 228; 118; 193; 48; 148; 3; 15;
   28; 193; 234; 174; 29; 140; 179; 54; 126; 191; 70; 68; 76; 211; 235; 54; 235; 113; 144; 246;
   208; 8; 154; 147; 47; 103; 221; 151; 178; 9; 93; 26; 235; 113; 197; 29; 171; 42; 125; 180;
   253; 254; 50; 49; 11; 225; 0; 196; 209; 64; 179; 112; 49; 98; 181; 234; 36; 66; 54; 138; 141;
   137; 38; 173; 72; 175; 103; 80].

Definition engineering_cacert : list Z :=
  [48; 130; 4; 45; 48; 130; 2; 229; 160; 3; 2; 1; 2; 2; 9; 0; 253; 82; 145; 11; 47; 190; 60; 130;
   48; 61; 6; 9; 42; 134; 72; 134; 247; 13; 1; 1; 10; 48; 48; 160; 13; 48; 11; 6; 9; 96; 134; 72;
   1; 101; 3; 4; 2; 1; 161; 26; 48; 24; 6; 9; 42; 134; 72; 134; 247; 13; 1; 1; 8; 48; 11; 6; 9;
   96; 134; 72; 1; 101; 3; 4; 2; 1; 162; 3; 2; 1; 32; 48; 125; 49; 11; 48; 9; 6; 3; 85; 4; 6; 19;
   2; 85; 83; 49; 19; 48; 17; 6; 3; 85; 4; 8; 12; 10; 67; 97; 108; 105; 102; 111; 114; 110; 105;
   97; 49; 18; 48; 16; 6; 3; 85; 4; 7; 12; 9; 83; 117; 110; 110; 121; 118; 97; 108; 101; 49; 22;
   48; 20; 6; 3; 85; 4; 10; 12; 13; 65; 109; 97; 122; 111; 110; 32; 76; 97; 98; 49; 50; 54; 49;
   45; 48; 43; 6; 3; 85; 4; 11; 12; 36; 67; 111; 109; 109; 111; 110; 32; 75; 101; 114; 110; 101;
   108; 32; 83; 105; 103; 110; 105; 110; 103; 32; 69; 110; 103; 105; 110; 101; 101; 114; 105;
   110; 103; 32; 67; 65; 48; 30; 23; 13; 49; 53; 48; 50; 48; 49; 49; 56; 51; 50; 49; 48; 90; 23;
   13; 50; 52; 49; 50; 49; 48; 49; 56; 51; 50; 49; 48; 90; 48; 125; 49; 11; 48; 9; 6; 3; 85; 4;
   6; 19; 2; 85; 83; 49; 19; 48; 17; 6; 3; 85; 4; 8; 12; 10; 67; 97; 108; 105; 102; 111; 114;
   110; 105; 97; 49; 18; 48; 16; 6; 3; 85; 4; 7; 12; 9; 83; 117; 110; 110; 121; 118; 97; 108;
   101; 49; 22; 48; 20; 6; 3; 85; 4; 10; 12; 13; 65; 109; 97; 122; 111; 110; 32; 76; 97; 98; 49;
   50; 54; 49; 45; 48; 43; 6; 3; 85; 4; 11; 12; 36; 67; 111; 109; 109; 111; 110; 32; 75; 101;
   114; 110; 101; 108; 32; 83; 105; 103; 110; 105; 110; 103; 32; 69; 110; 103; 105; 110; 101;
   101; 114; 105; 110; 103; 32; 67; 65; 48; 130; 1; 34; 48; 13; 6; 9; 42; 134; 72; 134; 247; 13;
   1; 1; 1; 5; 0; 3; 130; 1; 15; 0; 48; 130; 1; 10; 2; 130; 1; 1; 0; 179; 35; 204; 125; 49; 86;
   252; 92; 198; 255; 250; 222; 193; 210; 241; 2; 182; 99; 98; 66; 254; 96; 99; 115; 201; 163;
   141; 220; 126; 68; 213; 58; 104; 201; 84; 152; 251; 24; 35; 246; 154; 174; 195; 143; 82; 167;
   122; 168; 58; 235; 150; 151; 128; 2; 137; 86; 199; 209; 227; 194; 57; 0; 41; 117; 239; 206;
   54; 143; 206; 143; 162; 127; 214; 157; 38; 146; 240; 245; 235; 125; 59; 101; 41; 30; 177; 96;
   18; 87; 114; 216; 121; 50; 40; 193; 185; 155; 197; 184; 219; 86; 227; 94; 190; 170; 160; 239;
   185; 121; 12; 20; 123; 93; 113; 153; 220; 180; 198; 236; 54; 128; 170; 62; 118; 97; 220; 56;
   98; 159; 111; 141; 106; 93; 1; 9; 197; 169; 9; 72; 13; 29; 11; 93; 80; 181; 165; 232; 218; 67;
   216; 169; 20; 217; 130; 93; 98; 202; 234; 19; 96; 115; 117; 21; 51; 156; 169; 36; 38; 94; 230;
   35; 52; 59; 26; 184; 119; 127; 2; 168; 206; 109; 227; 65; 119; 158; 213; 45; 97; 113; 109;
   197; 46; 86; 6; 155; 208; 228; 26; 104; 250; 168; 128; 73; 60; 77; 8; 34; 154; 51; 0; 87; 97;
   93; 226; 127; 87; 61; 24; 104; 219; 14; 87; 194; 118; 34; 84; 102; 45; 50; 108; 222; 219; 43;
   77; 247; 13; 3; 178; 41; 195; 150; 203; 229; 105; 249; 17; 23; 28; 11; 209; 238; 102; 111; 48;
   56; 244; 219; 2; 3; 1; 0; 1; 163; 80; 48; 78; 48; 29; 6; 3; 85; 29; 14; 4; 22; 4; 20; 218;
   250; 158; 76; 72; 69; 84; 114; 224; 162; 74; 85; 248; 168; 23; 66; 62; 5; 55; 140; 48; 31; 6;
   3; 85; 29; 35; 4; 24; 48; 22; 128; 20; 218; 250; 158; 76; 72; 69; 84; 114; 224; 162; 74; 85;
   248; 168; 23; 66; 62; 5; 55; 140; 48; 12; 6; 3; 85; 29; 19; 4; 5; 48; 3; 1; 1; 255; 48; 61; 6;
   9; 42; 134; 72; 134; 247; 13; 1; 1; 10; 48; 48; 160; 13; 48; 11; 6; 9; 96; 134; 72; 1; 101; 3;
   4; 2; 1; 161; 26; 48; 24; 6; 9; 42; 134; 72; 134; 247; 13; 1; 1; 8; 48; 11; 6; 9; 96; 134; 72;
   1; 101; 3; 4; 2; 1; 162; 3; 2; 1; 32; 3; 130; 1; 1; 0; 139; 32; 99; 72; 77; 236; 165; 2; 75;
   197; 237; 141; 75; 153; 45; 205; 214; 207; 61; 88; 224; 79; 220; 170; 183; 81; 69; 255; 89;
   35; 69; 87; 121; 6; 38; 201; 165; 192; 202; 239; 191; 246; 47; 34; 170; 202; 30; 138; 37; 221;
   250; 90; 166; 121; 164; 59; 147; 243; 42; 246; 44; 128; 217; 118; 51; 211; 99; 169; 170; 78;
   102; 110; 104; 97; 4; 181; 47; 53; 223; 117; 59; 8; 180; 72; 158; 127; 24; 243; 46; 221; 169;
   181; 253; 217; 18; 22; 70; 32; 121; 249; 206; 16; 106; 62; 163; 113; 76; 121; 127; 85; 46; 42;
   231; 130; 195; 163; 104; 181; 73; 193; 16; 229; 32; 61; 192; 39; 255; 138; 69; 52; 116; 52;
   121; 201; 38; 179; 10; 183; 126; 121; 33; 111; 230; 230; 177; 18; 66; 173; 96; 41; 207; 108;
   158; 254; 218; 150; 239; 80; 139; 32; 1; 83; 215; 9; 86; 44; 225; 139; 201; 145; 215; 242; 78;
   162; 73; 218; 144; 147; 136; 9; 184; 27; 15; 121; 115; 54; 11; 57; 177; 184; 26; 164; 147; 11;
   10; 160; 145; 186; 99; 195; 109; 203; 118; 147; 130; 19; 194; 20; 190; 124; 67; 31; 63; 72;
   211; 25; 109; 62; 173; 12; 125; 82; 58; 119; 49; 83; 62; 9; 149; 93; 251; 101; 88; 141; 65;
   46; 160; 67; 80; 93; 249; 77; 9; 192; 15; 182; 135; 130; 238; 139; 96; 19; 191; 1; 114; 248].

Definition signature_sequence : list asn1_type :=
  [LTC_ASN1_SEQUENCE; LTC_ASN1_SEQUENCE; LTC_ASN1_CONSTRUCTED; LTC_ASN1_INTEGER;
   LTC_ASN1_INTEGER; LTC_ASN1_SEQUENCE; LTC_ASN1_OBJECT_IDENTIFIER; LTC_ASN1_SEQUENCE;
   LTC_ASN1_CONSTRUCTED; LTC_ASN1_SEQUENCE; LTC_ASN1_OBJECT_IDENTIFIER; LTC_ASN1_CONSTRUCTED;
   LTC_ASN1_SEQUENCE; LTC_ASN1_OBJECT_IDENTIFIER; LTC_ASN1_SEQUENCE; LTC_ASN1_OBJECT_IDENTIFIER;
   LTC_ASN1_CONSTRUCTED; LTC_ASN1_INTEGER; LTC_ASN1_SEQUENCE; LTC_ASN1_SET; LTC_ASN1_SEQUENCE;
   LTC_ASN1_OBJECT_IDENTIFIER; LTC_ASN1_PRINTABLE_STRING; LTC_ASN1_SET; LTC_ASN1_SEQUENCE;
   LTC_ASN1_OBJECT_IDENTIFIER; LTC_ASN1_UTF8_STRING; LTC_ASN1_SET; LTC_ASN1_SEQUENCE;
   LTC_ASN1_OBJECT_IDENTIFIER; LTC_ASN1_UTF8_STRING; LTC_ASN1_SET; LTC_ASN1_SEQUENCE;
   LTC_ASN1_OBJECT_IDENTIFIER; LTC_ASN1_UTF8_STRING; LTC_ASN1_SET; LTC_ASN1_SEQUENCE;
   LTC_ASN1_OBJECT_IDENTIFIER; LTC_ASN1_UTF8_STRING; LTC_ASN1_SEQUENCE; LTC_ASN1_UTCTIME;
   LTC_ASN1_UTCTIME; LTC_ASN1_SEQUENCE; LTC_ASN1_SET; LTC_ASN1_SEQUENCE;
   LTC_ASN1_OBJECT_IDENTIFIER; LTC_ASN1_PRINTABLE_STRING; LTC_ASN1_SET; LTC_ASN1_SEQUENCE;
   LTC_ASN1_OBJECT_IDENTIFIER; LTC_ASN1_PRINTABLE_STRING; LTC_ASN1_SET; LTC_ASN1_SEQUENCE;
   LTC_ASN1_OBJECT_IDENTIFIER; LTC_ASN1_PRINTABLE_STRING; LTC_ASN1_SET; LTC_ASN1_SEQUENCE;
   LTC_ASN1_OBJECT_IDENTIFIER; LTC_ASN1_PRINTABLE_STRING; LTC_ASN1_SET; LTC_ASN1_SEQUENCE;
   LTC_ASN1_OBJECT_IDENTIFIER; LTC_ASN1_PRINTABLE_STRING; LTC_ASN1_SEQUENCE; LTC_ASN1_SEQUENCE;
   LTC_ASN1_OBJECT_IDENTIFIER; LTC_ASN1_NULL; LTC_ASN1_BIT_STRING; LTC_ASN1_CONSTRUCTED;
   LTC_ASN1_SEQUENCE; LTC_ASN1_SEQUENCE; LTC_ASN1_OBJECT_IDENTIFIER; LTC_ASN1_OCTET_STRING;
   LTC_ASN1_SEQUENCE; LTC_ASN1_OBJECT_IDENTIFIER; LTC_ASN1_OCTET_STRING; LTC_ASN1_SEQUENCE;
   LTC_ASN1_OBJECT_IDENTIFIER; LTC_ASN1_OCTET_STRING; LTC_ASN1_SEQUENCE;
   LTC_ASN1_OBJECT_IDENTIFIER; LTC_ASN1_SEQUENCE; LTC_ASN1_CONSTRUCTED; LTC_ASN1_SEQUENCE;
   LTC_ASN1_OBJECT_IDENTIFIER; LTC_ASN1_CONSTRUCTED; LTC_ASN1_SEQUENCE;
   LTC_ASN1_OBJECT_IDENTIFIER; LTC_ASN1_SEQUENCE; LTC_ASN1_OBJECT_IDENTIFIER;
   LTC_ASN1_CONSTRUCTED; LTC_ASN1_INTEGER; LTC_ASN1_BIT_STRING].

Definition signature_depth : list Z :=
  [0; 1; 2; 3; 3; 3; 4; 4; 5; 6; 7; 6; 7; 8; 8; 9; 7; 8; 4; 5; 6; 7; 7; 6; 7; 8; 8; 7; 8; 9; 9;
   8; 9; 10; 10; 9; 10; 11; 11; 5; 6; 6; 6; 7; 8; 9; 9; 8; 9; 10; 10; 9; 10; 11; 11; 10; 11; 12;
   12; 11; 12; 13; 13; 7; 8; 9; 9; 9; 8; 9; 10; 11; 11; 11; 12; 12; 12; 13; 13; 2; 3; 3; 4; 5; 6;
   5; 6; 7; 7; 8; 6; 7; 3].

(** The bytes and their length; both arrays are longer by a terminator. *)
Definition amzn_get_kernel_cert (cert_type : Z) : list Z * Z :=
  if cert_type =? AMZN_ENGINEERING_CERT then (engineering_cacert, 1073) else (production_cacert, 1071).

(** ** The tree *)

(** The first node for which [func] holds, in the order child, node, next, and the
    nodes above it, inner ones first. *)
Fixpoint find_node (func : asn1_node → option bool) (l : ltc_asn1_list) (up : list ltc_asn1_list)
    (p : option (ltc_asn1_list * list ltc_asn1_list)) : option (option (ltc_asn1_list * list ltc_asn1_list)) :=
  match l with
  | NIL => Some p
  | NODE n c x =>
      p ← find_node func c (l :: up) p;
      b ← func n;
      let p := if (b : bool) then match p with None => Some (l, up) | Some _ => p end else p in
      find_node func x up p
  end.

Definition check_oid (oid : list Z) (p : asn1_node) : option bool :=
  if decide (a_type p = LTC_ASN1_OBJECT_IDENTIFIER)
  then b ← bytes_of (a_data p); memcmp_eq b (ulongs oid) else Some false.
Definition check_rsa_node : asn1_node → option bool := check_oid [1; 2; 840; 113549; 1; 1; 1].
Definition check_san_node : asn1_node → option bool := check_oid [2; 5; 29; 17].

(** node->parent, given the nodes above. *)
Definition parent (l : ltc_asn1_list) (up : list ltc_asn1_list) : option (ltc_asn1_list * list ltc_asn1_list) :=
  match l, up with
  | NODE n _ _, q :: up => if a_parent n then Some (q, up) else None
  | _, _ => None
  end.

(** scan_signature: the arrays as they grow, in reverse. *)
Fixpoint scan_signature (l : ltc_asn1_list) (acc : list (asn1_type * Z)) (depth : Z) : option (list (asn1_type * Z)) :=
  match l with
  | NIL => Some acc
  | NODE n c x =>
      if NUMBER_OF_SECTIONS_IN_CERTIFICATE <=? zlen acc then None
      else
        let acc := (a_type n, depth) :: acc in
        match c with
        | NIL => scan_signature x acc depth
        | _ => acc ← scan_signature c acc (depth + 1); scan_signature x acc (depth + 1)
        end
  end.

(** One entry of the comparison; [true] is continue. *)
Definition structure_entry (i : Z) (e : asn1_type * Z) (t : asn1_type) (d : Z) : bool :=
  bool_decide (fst e = t) || (snd e =? d)
  || (((i =? 46) || (i =? 50) || (i =? 54) || (i =? 58) || (i =? 62))
      && bool_decide (fst e = LTC_ASN1_UTF8_STRING) && (snd e =? d)).
Fixpoint structure_loop (i : Z) (es : list (asn1_type * Z)) : option Z :=
  match es with
  | [] => Some 0
  | e :: es =>
      t ← rd signature_sequence i; d ← rd signature_depth i;
      if structure_entry i e t d then structure_loop (i + 1) es else Some (-1)
  end.
Definition verify_certificate_structure (l : ltc_asn1_list) : option Z :=
  es ← scan_signature l [] 0; structure_loop 0 (reverse es).

Section SecureBoot.
Context {L : ltc} {T : target}.

Notation sb A := (prog lw A).

Definition on_lw {A} (f : lw → A * lw) : sb A := λ w, let '(a, w) := f w in Some (a, w).
Definition malloc_ (n : Z) : sb bool := on_lw (XMALLOC n).

Definition sizeof_asn1_list : Z := 32.
Fixpoint siblings (l : ltc_asn1_list) : list asn1_node :=
  match l with NIL => [] | NODE n _ x => n :: siblings x end.
Definition item_of (n : asn1_node) : asn1_item := ITEM (a_type n) (a_data n) (a_size n) (a_used n).
Definition has_items (t : asn1_type) : bool :=
  match t with LTC_ASN1_SEQUENCE | LTC_ASN1_SET | LTC_ASN1_CONSTRUCTED => true | _ => false end.
Definition with_items (n : asn1_node) (l : list asn1_item) : asn1_node :=
  Asn1 (a_type n) (ITEMS l) (zlen l) (a_used n) (a_parent n).

Fixpoint der_rescan_tree (l : ltc_asn1_list) : sb ltc_asn1_list :=
  match l with
  | NIL => mret NIL
  | NODE n c x =>
      '(n, c) ← match c with
                | NIL => mret (n, c)
                | _ =>
                    c ← der_rescan_tree c;
                    if has_items (a_type n) then
                      let s := map item_of (siblings c) in
                      ok ← malloc_ (sizeof_asn1_list * zlen s);
                      mret (if (ok : bool) then with_items n s else n, c)
                    else mret (n, c)
                end;
      x ← der_rescan_tree x;
      mret (NODE n c x)
  end.

(** extract_cert_key_pub: the key where it returns 0. *)
Definition extract_cert_key_pub (l : ltc_asn1_list) : sb (option rsa_key) :=
  node ← lift (find_node check_rsa_node l [] None);
  match ('(node, up) ← node; '(node, up) ← parent node up; parent node up) with
  | Some (NODE n _ _, _) =>
      match der_length_sequence (a_data n) (a_size n) with
      | None => mret None
      | Some len =>
          ok ← malloc_ len;
          if negb ok then mret None
          else
            match der_encode_sequence_ex (a_data n) (a_size n) len with
            | None => mret None
            | Some key_seq => mret (rsa_import key_seq)
            end
      end
  | _ => mret None
  end.

(** The bits of a string, one per byte, packed with the first one on top: [y] counts,
    [buf] is the byte under construction. *)
Fixpoint pack_loop (count : nat) (data : list Z) (y buf : Z) (out : list Z) : option (list Z * Z) :=
  match count with
  | O => Some (out, buf)
  | S count =>
      c ← rd data y;
      let buf := buf .| Z.shiftl (if c =? 0 then 0 else 1) (7 - (y .& 7)) in
      if (y .& 7) =? 7 then pack_loop count data (y + 1) 0 (out ++ [u8 buf])
      else pack_loop count data (y + 1) buf out
  end.

(** decode_signature: the signature where it returns 0. *)
Definition decode_signature (n : asn1_node) : sb (option (list Z)) :=
  if negb (bool_decide (a_type n = LTC_ASN1_BIT_STRING)) then mret None
  else
    match a_data n with
    | NODATA => mret None
    | d =>
        let size := u32 (a_size n) in
        ok ← malloc_ (Z.shiftr size 3 + (if size .& 7 =? 0 then 0 else 1) + 1);
        if negb ok then mret None
        else
          data ← lift (bytes_of d);
          '(out, buf) ← lift (pack_loop (Z.to_nat size) data 0 0 []);
          mret (Some (if size .& 7 =? 0 then out else out ++ [u8 buf]))
    end.

(** verify_certificate on a certificate that has been scanned. *)
Definition verify_certificate (l : ltc_asn1_list) (root_ca_key : rsa_key) : sb Z :=
  match child l with
  | NIL => mret (-1)
  | NODE n _ x =>
      match der_length_sequence (a_data n) (a_size n) with
      | None => mret (-1)
      | Some len =>
          ok ← malloc_ len;
          if negb ok then mret (-1)
          else
            match der_encode_sequence_ex (a_data n) (a_size n) len with
            | None => mret (-1)
            | Some tbs =>
                match next x with
                | NODE s _ _ =>
                    if negb (bool_decide (a_type s = LTC_ASN1_BIT_STRING)) then mret (-1)
                    else
                      signature ← decode_signature s;
                      match signature with
                      | None => mret (-1)
                      | Some signature =>
                          let '(rc, status) := rsa_verify_hash signature (sha256 tbs) root_ca_key 0 in
                          mret (if (rc =? 0) && (status =? 1) then 0 else -1)
                      end
                | NIL => mret (-1)
                end
            end
      end
  end.

(** find_hash_string: the string with its terminator where it returns 0. *)
Fixpoint hash_loop (p : ltc_asn1_list) : sb (option (list Z)) :=
  match p with
  | NIL => mret None
  | NODE n _ x =>
      if negb (bool_decide (a_type n = LTC_ASN1_CONTEXT_SPECIFIC)) || negb (a_used n =? 0x86) then hash_loop x
      else
        ok ← malloc_ (a_size n + 1);
        if negb ok then mret None
        else
          b ← lift (bytes_of (a_data n));
          s ← lift (blob_get b 0 (a_size n));
          mret (Some (s ++ [0]))
  end.
Definition find_hash_string (data : list Z) (data_len : Z) : sb (option (list Z)) :=
  match der_decode_sequence_flexi data data_len with
  | None => mret None
  | Some NIL => wrong
  | Some san_data => hash_loop (child san_data)
  end.

Definition product_ : list Z := [112; 114; 111; 100; 117; 99; 116; 58].
Definition ou_oid : list Z := [2; 5; 4; 11].
Definition MAX (x y : Z) : Z := if y <? x then x else y.

(** The loop over the names of the subject: [None] is the exit with -1, [Some ret] the
    end of the loop. *)
Fixpoint metadata_loop (handler : meta_data_handler) (p : ltc_asn1_list) (ret : Z) : option (option Z) :=
  match p with
  | NIL => Some (Some ret)
  | NODE _ c x =>
      match child c, next (child c) with
      | NODE o _ _, NODE v _ _ =>
          d ← bytes_of (a_data o);
          ou ← memcmp_eq d (ulongs ou_oid);
          if negb ou then metadata_loop handler x ret
          else if negb (bool_decide (a_type v = LTC_ASN1_PRINTABLE_STRING))
                  && negb (bool_decide (a_type v = LTC_ASN1_UTF8_STRING)) then metadata_loop handler x ret
          else
            match a_data v with
            | NODATA => metadata_loop handler x ret
            | dv =>
                b ← bytes_of dv;
                str ← c_string b;
                if match handler with Some h => negb (h str =? 0) | None => false end then Some None
                else
                  r ← idme_strncmp (str ++ [0]) (product_ ++ [0]) 8;
                  if negb (r =? 0) then metadata_loop handler x ret
                  else
                    let str := drop 8 str in
                    r ← idme_strncmp (str ++ [0]) (amzn_target_device_name ++ [0])
                          (Z.to_nat (MAX (zlen str) (zlen amzn_target_device_name)));
                    metadata_loop handler x (if r =? 0 then 0 else ret)
            end
      | _, _ => metadata_loop handler x ret
      end
  end.

(** From the location of the subject to the end: the node of the subject is [l]. *)
Definition check_hash (l : ltc_asn1_list) (computed_hash : list Z) : sb Z :=
  san_node ← lift (find_node check_san_node l [] None);
  match (λ p : ltc_asn1_list * list ltc_asn1_list, next (fst p)) <$> san_node with
  | Some (NODE v _ _) =>
      match a_data v with
      | NODATA => mret (-1)
      | d =>
          data ← lift (bytes_of d);
          hash_string ← find_hash_string data (a_size v);
          match hash_string with
          | None => mret (-1)
          | Some hash_string =>
              let ptr := drop 9 hash_string in
              ok ← on_lw mp_init;
              if negb ok then mret (-1)
              else if bool_decide (ptr = []) then wrong
              else
                match mp_read_radix ptr with
                | None => mret (-1)
                | Some mp_hash =>
                    if hashsize <? mp_unsigned_bin_size mp_hash then mret (-1)
                    else
                      match mp_to_unsigned_bin mp_hash with
                      | None => mret (-1)
                      | Some bin =>
                          cert_hash ← lift (blob_put (replicate 32 0) (hashsize - mp_unsigned_bin_size mp_hash) bin);
                          mret (if bool_decide (computed_hash = cert_hash) then 0 else -1)
                      end
                end
          end
      end
  | _ => mret (-1)
  end.

(** The subject is the sixth child of the first child. *)
Definition subject (l : ltc_asn1_list) : ltc_asn1_list := next (next (next (next (next (child (child l)))))).

Definition amzn_verify_image (cert_type : Z) (computed_hash usercert : list Z) (handler : meta_data_handler) : sb Z :=
  let '(root_cert, root_cert_len) := amzn_get_kernel_cert cert_type in
  match der_decode_sequence_flexi root_cert root_cert_len with
  | None => wrong (* the exit reads decoded_root_cert, which is not set *)
  | Some NIL => wrong
  | Some decoded_root_cert =>
      decoded_root_cert ← der_rescan_tree decoded_root_cert;
      match der_decode_sequence_flexi usercert 2048 with
      | None => mret (-1)
      | Some NIL => wrong
      | Some decoded_user_cert =>
          r ← lift (verify_certificate_structure decoded_user_cert);
          if negb (r =? 0) then mret (-1)
          else
            l ← der_rescan_tree decoded_user_cert;
            key ← extract_cert_key_pub decoded_root_cert;
            match key with
            | None => mret (-1)
            | Some root_ca_key =>
                r ← verify_certificate l root_ca_key;
                if negb (r =? 0) then mret (-1)
                else
                  match subject l with
                  | NIL => mret (-1)
                  | NODE n c x =>
                      if negb (bool_decide (a_type n = LTC_ASN1_SEQUENCE)) then mret (-1)
                      else
                        ret ← lift (metadata_loop handler c (-1));
                        match ret with
                        | Some 0 => check_hash (NODE n c x) computed_hash
                        | _ => mret (-1)
                        end
                  end
            end
      end
  end.

(** amzn_target_sha256 of image_verify_ltc.c. *)
Definition amzn_target_sha256 (data : list Z) : list Z := sha256 data.
End SecureBoot.
