(* ===== verification/SecureBootThm.v ===== *)
(** * SecureBootThm: an image is accepted only with an authentic certificate *)

From S2P Require Import Prelude Idme IdmeThm SecureBoot.

(** ** Partial correctness

    [post m Q w]: if [m] returns from [w], then with [Q]. *)

Definition post {S A} (m : prog S A) (Q : A → S → Prop) (s : S) : Prop := ∀ a s', m s = Some (a, s') → Q a s'.

Section rules.
Context {S : Type}.

Lemma post_ret {A} (a : A) (Q : A → S → Prop) s : Q a s → post (mret a) Q s.
Proof. by intros H ? ? [= <- <-]. Qed.

Lemma post_bind {A B} (m : prog S A) (f : A → prog S B) Q s :
  post m (λ a s', post (f a) Q s') s → post (m ≫= f) Q s.
Proof.
  intros H b s2. unfold mbind, prog_bind. destruct (m s) as [[a s1]|] eqn:E; [|done]. by apply H.
Qed.

Lemma post_lift {A} (o : option A) (Q : A → S → Prop) s : (∀ a, o = Some a → Q a s) → post (lift o) Q s.
Proof. intros H a s'. unfold lift. destruct o; [|done]. intros [= <- <-]. by apply H. Qed.

Lemma post_wrong {A} (Q : A → S → Prop) s : post wrong Q s.
Proof. done. Qed.

Lemma post_mono {A} (m : prog S A) (Q R : A → S → Prop) s :
  post m Q s → (∀ a s', Q a s' → R a s') → post m R s.
Proof. intros H HQ a s' E. apply HQ, H, E. Qed.

Lemma post_true {A} (m : prog S A) (Q : A → S → Prop) s : (∀ a s', Q a s') → post m Q s.
Proof. intros H a s' _. apply H. Qed.

Lemma post_of_wp {A} (m : prog S A) (Q : A → S → Prop) s : wp m Q s → post m Q s.
Proof. unfold wp. intros H a s' E. by rewrite E in H. Qed.
End rules.

(** ** Strings *)

Lemma c_string_chars b s : Forall (λ c, is_u8 c) b → c_string b = Some s → chars s.
Proof.
  intros Hb. revert s. induction Hb as [|c b Hc _ IH]; intros s; cbn; [done|].
  destruct (Z.eqb_spec c 0); [by intros [= <-]; constructor|]. destruct (c_string b); [|done].
  intros [= <-]. constructor; [done|]. by apply IH.
Qed.

(** A limit that covers both strings makes strncmp an exact comparison. *)
Lemma strncmp_whole s t n : chars s → chars t → (length s ≤ n)%nat → (length t ≤ n)%nat →
  ∃ r, idme_strncmp (s ++ [0]) (t ++ [0]) n = Some r ∧ (r =? 0) = bool_decide (s = t).
Proof.
  destruct (decide (length s < n)%nat); [intros; by apply strncmp_chars|].
  intros Hs. revert t n n0. induction Hs as [|c s [Hc Hc0] _ IH]; intros t n Hn Ht Hsn Htn.
  - destruct n; [|simpl in Hn; lia]. destruct t; [|simpl in Htn; lia]. by exists 0.
  - destruct n as [|n]; [simpl in Hsn; lia|]. cbn [app]. apply (proj2 (Z.eqb_neq _ _)) in Hc0.
    destruct Ht as [|d t [Hd Hd0] Ht]; cbn [app].
    + rewrite strncmp_step, Hc0 by (done || lia). eexists; split; [done|].
      unfold char_sub. by rewrite char_diff, Hc0 by (done || lia).
    + rewrite strncmp_step, Hc0 by done. destruct (Z.eqb_spec c d) as [->|Hne]; cbn [negb orb].
      * destruct (IH t n) as (r & E & Er); [simpl in *; lia|done|simpl in *; lia|simpl in *; lia|].
        exists r. rewrite E, Er. split; [done|]. apply bool_decide_ext. naive_solver.
      * eexists; split; [done|]. unfold char_sub. rewrite char_diff, (proj2 (Z.eqb_neq _ _) Hne) by done.
        by rewrite bool_decide_false by congruence.
Qed.

(** With the length of the second string it compares prefixes. *)
Lemma strncmp_prefix s t : chars s → chars t →
  ∃ r, idme_strncmp (s ++ [0]) (t ++ [0]) (length t) = Some r ∧ (r =? 0) = bool_decide (t `prefix_of` s).
Proof.
  intros Hs Ht. revert s Hs. induction Ht as [|d t [Hd Hd0] _ IH]; intros s Hs.
  - exists 0. split; [done|]. symmetry. apply bool_decide_eq_true. by exists s.
  - apply (proj2 (Z.eqb_neq _ _)) in Hd0. destruct Hs as [|c s [Hc Hc0] Hs]; cbn [app length].
    + rewrite strncmp_step, orb_true_r by (done || lia). eexists; split; [done|]. unfold char_sub.
      rewrite char_diff, Z.eqb_sym, Hd0 by (done || lia). symmetry. apply bool_decide_eq_false. by intros [? [=]].
    + apply (proj2 (Z.eqb_neq _ _)) in Hc0. rewrite strncmp_step, Hc0 by done.
      destruct (Z.eqb_spec c d) as [->|Hne]; cbn [negb orb].
      * destruct (IH s Hs) as (r & E & Er). exists r. rewrite E, Er. split; [done|].
        apply bool_decide_ext. split; [apply prefix_cons|apply prefix_cons_inv_2].
      * eexists; split; [done|]. unfold char_sub. rewrite char_diff, (proj2 (Z.eqb_neq _ _) Hne) by done.
        symmetry. apply bool_decide_eq_false. intros H%prefix_cons_inv_1. congruence.
Qed.

(** ** Bit strings *)

(** The bits of a decoded bit string are one byte each. *)
Definition data_bit (data : list Z) (i : Z) : bool :=
  match rd data i with Some c => negb (c =? 0) | None => false end.
Definition sig_bit (sig : list Z) (i : Z) : bool :=
  match rd sig (i / 8) with Some b => Z.testbit b (7 - i `mod` 8) | None => false end.

(** The bytes [sig] hold the first [size] bits, the first one on top, padded by zeros. *)
Definition packed (data : list Z) (size : Z) (sig : list Z) : Prop :=
  0 ≤ size ≤ zlen data ∧ zlen sig = (size + 7) / 8 ∧ Forall (λ b, is_u8 b) sig ∧
  ∀ i, 0 ≤ i < 8 * zlen sig → sig_bit sig i = (i <? size) && data_bit data i.

Lemma packed_unique data size s1 s2 : packed data size s1 → packed data size s2 → s1 = s2.
Proof.
  intros (_ & Hl1 & Hb1 & H1) (_ & Hl2 & Hb2 & H2). apply rd_ext; [lia|]. intros k Hk.
  destruct (rd_in s1 k) as [x Ex]; [lia|]. destruct (rd_in s2 k) as [y Ey]; [lia|]. rewrite Ex, Ey. f_equal.
  pose proof (rd_Forall _ _ _ _ Hb1 Ex) as Hx. pose proof (rd_Forall _ _ _ _ Hb2 Ey) as Hy. simpl in Hx, Hy.
  apply Z.bits_inj'. intros j Hj. destruct (decide (j < 8)); [|rewrite !(testbit_high 8) by lia; done].
  specialize (H1 (8 * k + (7 - j)) ltac:(lia)). specialize (H2 (8 * k + (7 - j)) ltac:(lia)).
  unfold sig_bit in H1, H2. replace ((8 * k + (7 - j)) / 8) with k in H1, H2 by dlia. rewrite Ex in H1. rewrite Ey in H2.
  replace (7 - (8 * k + (7 - j)) `mod` 8) with j in H1, H2 by dlia. congruence.
Qed.

(** The loop: full bytes are in [out], the bits of the next one in [buf]. *)
Definition packing (data : list Z) (y buf : Z) (out : list Z) : Prop :=
  0 ≤ y ∧ zlen out = y / 8 ∧ Forall (λ b, is_u8 b) out ∧ is_u8 buf ∧
  (∀ i, 0 ≤ i < 8 * zlen out → sig_bit out i = data_bit data i) ∧
  ∀ j, 0 ≤ j < 8 → Z.testbit buf (7 - j) = (j <? y `mod` 8) && data_bit data (8 * zlen out + j).

Lemma sig_bit_app out b i : 0 ≤ i → sig_bit (out ++ [b]) i =
  if i / 8 <? zlen out then sig_bit out i
  else if i / 8 =? zlen out then Z.testbit b (7 - i `mod` 8) else false.
Proof.
  intros Hi. unfold sig_bit. destruct (Z.ltb_spec (i / 8) (zlen out)); [by rewrite rd_app_l|].
  destruct (Z.eqb_spec (i / 8) (zlen out)) as [->|]; [by rewrite rd_mid|].
  rewrite (proj2 (rd_None _ _)); [done|]. rewrite length_app. simpl. lia.
Qed.

Lemma land_7 y : y .& 7 = y `mod` 8.
Proof. by apply (Z.land_ones y 3). Qed.

Lemma packing_bit data y buf out c : packing data y buf out → rd data y = Some c →
  let buf' := buf .| Z.shiftl (if c =? 0 then 0 else 1) (7 - (y .& 7)) in
  is_u8 buf' ∧ ∀ j, 0 ≤ j < 8 → Z.testbit buf' (7 - j) = (j <? y `mod` 8 + 1) && data_bit data (8 * zlen out + j).
Proof.
  intros (Hy & Hl & _ & Hb & _ & Hbuf) Hc buf'. unfold buf'. rewrite land_7. split.
  - apply bits_bound; [lia|]. intros i Hi. rewrite Z.lor_spec, testbit_shiftl, (testbit_high 8 buf i) by lia.
    destruct (c =? 0); rewrite ?Z.bits_0, ?testbit_1; [btauto|].
    destruct (Z.eqb_spec (i - (7 - y `mod` 8)) 0); [dlia|btauto].
  - intros j Hj. rewrite Z.lor_spec, testbit_shiftl, Hbuf by lia.
    assert (Hd : y = 8 * zlen out + y `mod` 8) by (rewrite Hl; dlia).
    destruct (Z.ltb_spec j (y `mod` 8)).
    + destruct (Z.ltb_spec j (y `mod` 8 + 1)); [|lia]. cbn [andb].
      destruct (c =? 0); rewrite ?Z.bits_0, ?testbit_1; [btauto|].
      destruct (Z.eqb_spec (7 - j - (7 - y `mod` 8)) 0); [lia|btauto].
    + cbn [andb orb]. destruct (Z.leb_spec 0 (7 - j)); [|lia]. destruct (Z.ltb_spec j (y `mod` 8 + 1)); cbn [andb].
      * assert (Ej : j = y `mod` 8) by lia. unfold data_bit. rewrite Ej, <- Hd, Hc.
        replace (7 - y `mod` 8 - (7 - y `mod` 8)) with 0 by lia. by destruct (c =? 0).
      * destruct (c =? 0); rewrite ?Z.bits_0, ?testbit_1; [done|]. by apply Z.eqb_neq; lia.
Qed.

Lemma pack_loop_ok count : ∀ data y buf out, packing data y buf out →
  if y + Z.of_nat count <=? zlen data
  then ∃ out' buf', pack_loop count data y buf out = Some (out', buf') ∧ packing data (y + Z.of_nat count) buf' out'
  else y ≤ zlen data → pack_loop count data y buf out = None.
Proof.
  induction count as [|count IH]; intros data y buf out Hp; cbn [pack_loop].
  { destruct (Z.leb_spec (y + Z.of_nat 0) (zlen data)); [|lia]. exists out, buf. by rewrite Z.add_0_r. }
  pose proof Hp as (Hy & Hl & Hu & Hb & Ho & Hbuf).
  destruct (decide (y < zlen data)) as [Hin|Hin].
  2:{ destruct (Z.leb_spec (y + Z.of_nat (S count)) (zlen data)); [lia|]. intros _.
      by rewrite (proj2 (rd_None _ _)) by lia. }
  destruct (rd_in data y) as [c Hc]; [lia|]. rewrite Hc. cbn [mbind option_bind].
  pose proof (packing_bit data y buf out c Hp Hc) as [Hb' Hbits]. cbn zeta in Hb', Hbits.
  set (buf' := buf .| _) in *. replace (y + Z.of_nat (S count)) with (y + 1 + Z.of_nat count) by lia.
  rewrite land_7. destruct (Z.eqb_spec (y `mod` 8) 7) as [E|E].
  - specialize (IH data (y + 1) 0 (out ++ [u8 buf'])). rewrite u8_small in * by done.
    destruct (y + 1 + Z.of_nat count <=? zlen data); [apply IH|intros; apply IH; [|lia]].
    all: unfold packing; rewrite length_app; cbn [length]; split_and!; try dlia; try (by apply Forall_app_2; [done|constructor]).
    all: try (intros j Hj; rewrite Z.bits_0; symmetry; destruct (Z.ltb_spec j ((y + 1) `mod` 8)); [dlia|done]).
    all: intros i Hi; rewrite sig_bit_app by lia; destruct (Z.ltb_spec (i / 8) (zlen out)); [apply Ho; dlia|].
    all: replace (i / 8) with (zlen out) by dlia; rewrite Z.eqb_refl, Hbits by dlia; destruct (Z.ltb_spec (i `mod` 8) (y `mod` 8 + 1)); [|dlia];
      cbn [andb]; f_equal; dlia.
  - specialize (IH data (y + 1) buf' out).
    assert (Hn : packing data (y + 1) buf' out).
    { unfold packing. split_and!; try done; try dlia. intros j Hj. rewrite Hbits by done.
      by replace ((y + 1) `mod` 8) with (y `mod` 8 + 1) by dlia. }
    destruct (y + 1 + Z.of_nat count <=? zlen data); [by apply IH|]. intros. apply IH; [done|lia].
Qed.

Lemma packed_end data size buf out : packing data size buf out → size ≤ zlen data →
  packed data size (if size .& 7 =? 0 then out else out ++ [u8 buf]).
Proof.
  intros (Hy & Hl & Hu & Hb & Ho & Hbuf) Hs. rewrite land_7. unfold packed. destruct (Z.eqb_spec (size `mod` 8) 0).
  - split_and!; [lia|lia|dlia|done|]. intros i Hi. rewrite Ho by lia. destruct (Z.ltb_spec i size); [done|dlia].
  - rewrite length_app, u8_small by done. cbn [length].
    split_and!; [lia|lia|dlia|by apply Forall_app_2; [done|constructor]|].
    intros i Hi. rewrite sig_bit_app by lia. destruct (Z.ltb_spec (i / 8) (zlen out)).
    + rewrite Ho by dlia. destruct (Z.ltb_spec i size); [done|dlia].
    + replace (i / 8) with (zlen out) by dlia. rewrite Z.eqb_refl, Hbuf by dlia.
      replace (8 * zlen out + i `mod` 8) with i by dlia. f_equal.
      destruct (Z.ltb_spec (i `mod` 8) (size `mod` 8)), (Z.ltb_spec i size); dlia.
Qed.

(** ** The tree *)

(** All nodes in the order of find_node, with the nodes above them. *)
Fixpoint traversal (l : ltc_asn1_list) (up : list ltc_asn1_list) : list (ltc_asn1_list * list ltc_asn1_list) :=
  match l with
  | NIL => []
  | NODE n c x => traversal c (l :: up) ++ (l, up) :: traversal x up
  end.

Definition sat (func : asn1_node → option bool) (p : ltc_asn1_list * list ltc_asn1_list) : bool :=
  match fst p with NODE n _ _ => bool_decide (func n = Some true) | NIL => false end.

Lemma find_app {A} (f : A → bool) l1 l2 :
  List.find f (l1 ++ l2) = match List.find f l1 with Some x => Some x | None => List.find f l2 end.
Proof. induction l1 as [|a l1 IH]; [done|]. cbn. by destruct (f a). Qed.

Lemma find_node_ok func l : ∀ up p r, find_node func l up p = Some r →
  r = match p with Some _ => p | None => List.find (sat func) (traversal l up) end.
Proof.
  induction l as [|n c IHc x IHx]; intros up p r; cbn [find_node traversal]; [intros [= <-]; by destruct p|].
  destruct (find_node func c _ p) as [p1|] eqn:Ec; [|done]. cbn [mbind option_bind]. apply IHc in Ec as ->.
  destruct (func n) as [b|] eqn:Eb; [|done]. cbn [mbind option_bind]. intros ->%IHx.
  destruct p as [p|]; [by destruct b|]. rewrite find_app. cbn [List.find].
  replace (sat func (NODE n c x, up)) with b.
  2:{ unfold sat. cbn [fst]. rewrite Eb. destruct b; [by rewrite bool_decide_true|by rewrite bool_decide_false]. }
  destruct (List.find _ (traversal c _)) eqn:E; [by destruct b|]. by destruct b.
Qed.

(** What der_rescan_tree makes of a tree, when some allocations fail. *)
Inductive rescanned : ltc_asn1_list → ltc_asn1_list → Prop :=
  | rescanned_nil : rescanned NIL NIL
  | rescanned_node n n' c c' x x' : rescanned c c' → rescanned x x' →
      n' = n ∨ c ≠ NIL ∧ has_items (a_type n) = true ∧ n' = with_items n (map item_of (siblings c')) →
      rescanned (NODE n c x) (NODE n' c' x').

(** And when all succeed. *)
Fixpoint rescan (l : ltc_asn1_list) : ltc_asn1_list :=
  match l with
  | NIL => NIL
  | NODE n c x =>
      NODE (match c with
            | NIL => n
            | _ => if has_items (a_type n) then with_items n (map item_of (siblings (rescan c))) else n
            end) (rescan c) (rescan x)
  end.

Section spec.
Context {L : ltc} {T : target}.

Definition mallocs : Prop := (∀ n w, fst (XMALLOC n w) = true) ∧ ∀ w, fst (mp_init w) = true.

Lemma wp_malloc n (Q : bool → lw → Prop) w : (∀ b w', (mallocs → b = true) → Q b w') → wp (malloc_ n) Q w.
Proof.
  intros HQ. unfold wp, malloc_, on_lw. destruct (XMALLOC n w) as [b w'] eqn:E. apply HQ.
  intros [Hm _]. specialize (Hm n w). by rewrite E in Hm.
Qed.

Lemma rescan_ok l : ∀ w, wp (der_rescan_tree l) (λ l' _, rescanned l l' ∧ (mallocs → l' = rescan l)) w.
Proof.
  induction l as [|n c IHc x IHx]; intros w; cbn [der_rescan_tree]; [apply wp_ret; split; [constructor|done]|].
  apply wp_bind.
  eapply (wp_mono _ (λ nc _, rescanned c (snd nc) ∧ (mallocs → snd nc = rescan c) ∧
    (fst nc = n ∨ c ≠ NIL ∧ has_items (a_type n) = true ∧ fst nc = with_items n (map item_of (siblings (snd nc)))) ∧
    (mallocs → c ≠ NIL → has_items (a_type n) = true → fst nc = with_items n (map item_of (siblings (snd nc)))) ∧
    (c = NIL ∨ has_items (a_type n) = false → fst nc = n))).
  - destruct c as [|nc cc xc]; [apply wp_ret; cbn; split_and!; try done; [constructor|auto]|].
    apply wp_bind. eapply wp_mono; [apply IHc|]. intros c' w' [Hc Hr].
    destruct (has_items (a_type n)) eqn:Eh; [|apply wp_ret; cbn; split_and!; auto; done].
    apply wp_bind, wp_malloc. intros b w'' Hb. apply wp_ret. cbn. split_and!; try done.
    + destruct b; [right; done|by left].
    + intros Hm _ _. by rewrite Hb.
    + by intros [|].
  - intros [n' c'] w' (Hc & Hrc & Hn & Hm & H0). cbn [fst snd] in *. apply wp_bind.
    eapply wp_mono; [apply IHx|]. intros x' w'' [Hx Hrx]. apply wp_ret. split; [by constructor|].
    intros Hms. cbn [rescan]. rewrite <- Hrx, <- Hrc by done. f_equal.
    destruct c as [|nc cc xc]; [by apply H0; left|]. destruct (has_items (a_type n)) eqn:Eh; [by apply Hm|by apply H0; right].
Qed.

Lemma post_malloc n (Q : bool → lw → Prop) w : (∀ b w', Q b w') → post (malloc_ n) Q w.
Proof. intros HQ b w' _. apply HQ. Qed.

Lemma wp_malloc_ok n (Q : bool → lw → Prop) w : mallocs → (∀ w', Q true w') → wp (malloc_ n) Q w.
Proof. intros Hm HQ. apply wp_malloc. intros b w' Hb. by rewrite Hb. Qed.

Lemma wp_mp_init (Q : bool → lw → Prop) w : mallocs → (∀ w', Q true w') → wp (on_lw mp_init) Q w.
Proof.
  intros [_ Hi] HQ. specialize (Hi w). unfold wp, on_lw. destruct (mp_init w) as [b w']. cbn in Hi. by rewrite Hi.
Qed.

(** ** The key, the signature *)

(** The DER encoding of the items of a node. *)
Definition encoded (n : asn1_node) (b : list Z) : Prop :=
  ∃ len, der_length_sequence (a_data n) (a_size n) = Some len ∧ der_encode_sequence_ex (a_data n) (a_size n) len = Some b.

(** The key of a certificate: two levels above the first RSA identifier. *)
Definition has_key (l : ltc_asn1_list) (k : rsa_key) : Prop :=
  ∃ o co xo q cq xq n cn xn up b,
    List.find (sat check_rsa_node) (traversal l []) = Some (NODE o co xo, NODE q cq xq :: NODE n cn xn :: up) ∧
    a_parent o = true ∧ a_parent q = true ∧ encoded n b ∧ rsa_import b = Some k.

Lemma parent_inv l up l' up' : parent l up = Some (l', up') →
  ∃ n c x, l = NODE n c x ∧ up = l' :: up' ∧ a_parent n = true.
Proof.
  destruct l as [|n c x], up as [|q up]; cbn; try done. destruct (a_parent n) eqn:E; [|done].
  intros [= <- <-]. by exists n, c, x.
Qed.

Lemma extract_sound l w : post (extract_cert_key_pub l) (λ r _, ∀ k, r = Some k → has_key l k) w.
Proof.
  unfold extract_cert_key_pub. apply post_bind, post_lift. intros p Hp. apply find_node_ok in Hp. subst p.
  destruct (_ ≫= _) as [[[|n cn xn] up]|] eqn:E; [by apply post_ret| |by apply post_ret].
  apply bind_Some in E as ([l1 up1] & Hf & E). apply bind_Some in E as ([l2 up2] & Hp1 & Hp2).
  apply parent_inv in Hp1 as (o & co & xo & -> & -> & Ho). apply parent_inv in Hp2 as (q & cq & xq & -> & -> & Hq).
  destruct (der_length_sequence _ _) as [len|] eqn:El; [|by apply post_ret].
  apply post_bind, post_malloc. intros [] w'; cbn [negb]; [|by apply post_ret].
  destruct (der_encode_sequence_ex _ _ _) as [b|] eqn:Ee; [|by apply post_ret].
  apply post_ret. intros k Hk. exists o, co, xo, q, cq, xq, n, cn, xn, up, b. split_and!; try done. by exists len.
Qed.

Lemma extract_complete l k w : mallocs → is_Some (find_node check_rsa_node l [] None) → has_key l k →
  wp (extract_cert_key_pub l) (λ r _, r = Some k) w.
Proof.
  intros Hm [p Hp] (o & co & xo & q & cq & xq & n & cn & xn & up & b & Hf & Ho & Hq & (len & Hl & He) & Hk).
  unfold extract_cert_key_pub. apply wp_bind. eapply wp_lift; [done|]. apply find_node_ok in Hp. subst p. rewrite Hf.
  cbn [mbind option_bind parent]. rewrite Ho. cbn [mbind option_bind parent]. rewrite Hq, Hl.
  apply wp_bind, wp_malloc_ok; [done|]. intros w'. cbn [negb]. rewrite He. by apply wp_ret.
Qed.

Definition signature_of (n : asn1_node) (sig : list Z) : Prop :=
  a_type n = LTC_ASN1_BIT_STRING ∧ ∃ data, a_data n = BYTES data ∧ packed data (u32 (a_size n)) sig.

Lemma packing_start data : packing data 0 0 [].
Proof. unfold packing. split_and!; try done; try lia; [simpl; lia|]. intros j Hj. rewrite Z.bits_0. by destruct (Z.ltb_spec j (0 `mod` 8)); [dlia|]. Qed.

Lemma decode_sound n w : post (decode_signature n) (λ r _, ∀ sig, r = Some sig → signature_of n sig) w.
Proof.
  unfold decode_signature. case_bool_decide as Ht; cbn [negb]; [|by apply post_ret].
  destruct (a_data n) as [|data|its] eqn:Ed; [by apply post_ret| |].
  all: apply post_bind, post_malloc; intros [] w'; cbn [negb]; [|by apply post_ret].
  all: apply post_bind, post_lift; cbn [bytes_of]; intros ? [= <-].
  pose proof (u32_range (a_size n)) as Hu. set (size := u32 (a_size n)) in *.
  pose proof (pack_loop_ok (Z.to_nat size) data 0 0 [] (packing_start _)) as Hp. rewrite Z2Nat.id in Hp by lia.
  apply post_bind, post_lift. intros [out buf] E. apply post_ret. intros sig [= <-]. split; [done|].
  exists data. split; [done|]. destruct (Z.leb_spec (0 + size) (zlen data)); [|rewrite Hp in E by lia; done].
  destruct Hp as (out' & buf' & E' & Hp). rewrite E in E'. injection E' as <- <-. apply packed_end; [done|lia].
Qed.

Lemma decode_complete n sig w : mallocs → signature_of n sig → wp (decode_signature n) (λ r _, r = Some sig) w.
Proof.
  intros Hm (Ht & data & Hd & Hp). unfold decode_signature. rewrite Ht, Hd. cbn [negb].
  rewrite bool_decide_true by done. cbn [negb]. apply wp_bind, wp_malloc_ok; [done|]. intros w'. cbn [negb].
  apply wp_bind. eapply wp_lift; [done|]. pose proof Hp as (Hs & _).
  pose proof (pack_loop_ok (Z.to_nat (u32 (a_size n))) data 0 0 [] (packing_start _)) as Hk. rewrite Z2Nat.id in Hk by lia.
  destruct (Z.leb_spec (0 + u32 (a_size n)) (zlen data)); [|lia]. destruct Hk as (out & buf & E & Hk).
  apply wp_bind. eapply wp_lift; [done|]. apply wp_ret. f_equal. eapply packed_unique; [|done]. apply packed_end; [done|lia].
Qed.

(** The first child is signed with the key: the third child is the signature. *)
Definition cert_signed (l : ltc_asn1_list) (k : rsa_key) : Prop :=
  ∃ n c n2 c2 s cs x tbs sig, child l = NODE n c (NODE n2 c2 (NODE s cs x)) ∧ encoded n tbs ∧
    signature_of s sig ∧ rsa_verify_hash sig (sha256 tbs) k 0 = (0, 1).

Lemma certificate_sound l k w : post (verify_certificate l k) (λ r _, r = 0 → cert_signed l k) w.
Proof.
  unfold verify_certificate. destruct (child l) as [|n c x] eqn:Ec; [by apply post_ret|].
  destruct (der_length_sequence _ _) as [len|] eqn:El; [|by apply post_ret].
  apply post_bind, post_malloc. intros [] w'; cbn [negb]; [|by apply post_ret].
  destruct (der_encode_sequence_ex _ _ _) as [tbs|] eqn:Ee; [|by apply post_ret].
  destruct x as [|n2 c2 [|s cs x]]; cbn [next]; [by apply post_ret..|].
  case_bool_decide; cbn [negb]; [|by apply post_ret]. apply post_bind. eapply post_mono; [apply decode_sound|].
  intros [sig|] w2 Hs; [|by apply post_ret]. destruct (rsa_verify_hash _ _ _ _) as [rc st] eqn:Ev. apply post_ret.
  destruct (Z.eqb_spec rc 0) as [->|], (Z.eqb_spec st 1) as [->|]; try done. intros _.
  exists n, c, n2, c2, s, cs, x, tbs, sig. split_and!; try done; [by exists len|by apply Hs].
Qed.

Lemma certificate_complete l k w : mallocs → cert_signed l k → wp (verify_certificate l k) (λ r _, r = 0) w.
Proof.
  intros Hm (n & c & n2 & c2 & s & cs & x & tbs & sig & Hl & (len & El & Ee) & Hs & Hv).
  unfold verify_certificate. rewrite Hl, El. apply wp_bind, wp_malloc_ok; [done|]. intros w'. cbn [negb next].
  rewrite Ee, bool_decide_true by apply Hs. cbn [negb]. apply wp_bind. eapply wp_mono; [by apply decode_complete|].
  intros ? w2 ->. rewrite Hv. by apply wp_ret.
Qed.

(** ** The names of the subject *)

(** The bytes of a tree are bytes. *)
Definition data_ok (n : asn1_node) : Prop :=
  match a_data n with BYTES b => Forall (λ c, is_u8 c) b | _ => True end.
Fixpoint tree_bytes (l : ltc_asn1_list) : Prop :=
  match l with NIL => True | NODE n c x => data_ok n ∧ tree_bytes c ∧ tree_bytes x end.

Lemma rescanned_bytes l l' : rescanned l l' → tree_bytes l → tree_bytes l'.
Proof.
  induction 1 as [|n n' c c' x x' _ IHc _ IHx Hn]; [done|]. intros (Hd & Hc & Hx). split_and!; [|by auto..].
  by destruct Hn as [->|(_ & _ & ->)].
Qed.
Lemma child_bytes l : tree_bytes l → tree_bytes (child l).
Proof. destruct l; [done|]. by intros (? & ? & ?). Qed.
Lemma next_bytes l : tree_bytes l → tree_bytes (next l).
Proof. destruct l; [done|]. by intros (? & ? & ?). Qed.

Fixpoint kids (l : ltc_asn1_list) : list ltc_asn1_list :=
  match l with NIL => [] | NODE _ c x => c :: kids x end.

(** The organizational unit a relative name holds, if it does; [None] is a read behind
    the data. *)
Definition ou_name (c : ltc_asn1_list) : option (option (list Z)) :=
  match child c, next (child c) with
  | NODE o _ _, NODE v _ _ =>
      d ← bytes_of (a_data o);
      ou ← memcmp_eq d (ulongs ou_oid);
      if (ou : bool) && (bool_decide (a_type v = LTC_ASN1_PRINTABLE_STRING) || bool_decide (a_type v = LTC_ASN1_UTF8_STRING))
      then match a_data v with
           | NODATA => Some None
           | dv => b ← bytes_of dv; Some <$> c_string b
           end
      else Some None
  | _, _ => Some None
  end.

Definition accepts (handler : meta_data_handler) (s : list Z) : Prop :=
  match handler with Some h => h s = 0 | None => True end.

(** One round of the loop. *)
Lemma metadata_step handler n c x ret : metadata_loop handler (NODE n c x) ret =
  (o ← ou_name c;
   match o with
   | None => metadata_loop handler x ret
   | Some str =>
       if match handler with Some h => negb (h str =? 0) | None => false end then Some None
       else
         r ← idme_strncmp (str ++ [0]) (product_ ++ [0]) 8;
         if negb (r =? 0) then metadata_loop handler x ret
         else
           r ← idme_strncmp (drop 8 str ++ [0]) (amzn_target_device_name ++ [0])
                 (Z.to_nat (MAX (zlen (drop 8 str)) (zlen amzn_target_device_name)));
           metadata_loop handler x (if r =? 0 then 0 else ret)
   end).
Proof.
  cbn [metadata_loop]. unfold ou_name. destruct (child c) as [|o co xo]; [done|]. cbn [next]. destruct xo as [|v cv xv]; [done|].
  destruct (bytes_of (a_data o)) as [d|]; [|done]. cbn [mbind option_bind].
  destruct (memcmp_eq d (ulongs ou_oid)) as [[]|]; [|done..]. cbn [mbind option_bind negb andb].
  destruct (bool_decide (a_type v = LTC_ASN1_PRINTABLE_STRING)), (bool_decide (a_type v = LTC_ASN1_UTF8_STRING)); cbn [negb andb orb]; try done.
  all: destruct (a_data v); [done| |done]; cbn [bytes_of mbind option_bind]; by destruct (c_string b).
Qed.

Lemma ou_name_chars c str : tree_bytes c → ou_name c = Some (Some str) → chars str.
Proof.
  intros Hc%child_bytes. pose proof (next_bytes _ Hc) as Hx. unfold ou_name.
  destruct (child c) as [|o co xo]; [done|]. destruct (next _) as [|v cv xv]; [done|]. destruct Hx as (Hv & _).
  destruct (bytes_of (a_data o)) as [d|]; [|done]. cbn [mbind option_bind].
  destruct (memcmp_eq d (ulongs ou_oid)) as [[]|]; [|done..]. cbn [mbind option_bind andb].
  destruct (_ || _); [|done]. unfold data_ok in Hv. destruct (a_data v) as [|b|]; [done| |done].
  cbn [bytes_of mbind option_bind]. destruct (c_string b) eqn:E; [|done]. intros [= <-]. by eapply c_string_chars.
Qed.

(** What the code relies on of the library: decoded data are bytes, the unsigned
    bytes of a number are its magnitude, and a digest has 32 bytes. *)
Fixpoint be_num (acc : Z) (b : list Z) : Z := match b with [] => acc | c :: b => be_num (acc * 256 + c) b end.

Class ltc_laws : Prop :=
  { decoded_bytes b len l : der_decode_sequence_flexi b len = Some l → tree_bytes l;
    bin_laws m : ∃ b, mp_to_unsigned_bin m = Some b ∧ zlen b = mp_unsigned_bin_size m ∧
      Forall (λ c, is_u8 c) b ∧ be_num 0 b = Z.abs m;
    bin_small m k : 0 ≤ k → Z.abs m < 2 ^ (8 * k) → mp_unsigned_bin_size m ≤ k;
    sha_bytes b : zlen (sha256 b) = 32 ∧ Forall (λ c, is_u8 c) (sha256 b);
    name_chars : chars amzn_target_device_name }.

Definition this_product : list Z := product_ ++ amzn_target_device_name.

Lemma product_test {HL : ltc_laws} str : chars str →
  ∃ r, idme_strncmp (str ++ [0]) (product_ ++ [0]) 8 = Some r ∧
    if r =? 0 then
      ∃ r', idme_strncmp (drop 8 str ++ [0]) (amzn_target_device_name ++ [0])
              (Z.to_nat (MAX (zlen (drop 8 str)) (zlen amzn_target_device_name))) = Some r' ∧
            (r' =? 0) = bool_decide (str = this_product)
    else str ≠ this_product.
Proof.
  intros Hs. destruct (strncmp_prefix str product_) as (r & E & Er); [done|by repeat constructor|].
  exists r. split; [done|]. rewrite Er. case_bool_decide as Hp.
  - destruct Hp as [s ->]. rewrite drop_app_length' by done. apply Forall_app in Hs as [_ Hs].
    destruct (strncmp_whole s amzn_target_device_name (Z.to_nat (MAX (zlen s) (zlen amzn_target_device_name)))) as (r' & E' & Er');
      [done|apply name_chars|unfold MAX; destruct (Z.ltb_spec (zlen amzn_target_device_name) (zlen s)); lia..|].
    exists r'. split; [done|]. rewrite Er'. apply bool_decide_ext. unfold this_product. split; [by intros ->|by intros ?%app_inv_head].
  - intros ->. apply Hp. by eexists.
Qed.

(** The loop succeeds if all names can be read and are accepted, and the product is
    among them. *)
Definition reads (ks : list ltc_asn1_list) (os : list (option (list Z))) : Prop :=
  Forall2 (λ c o, ou_name c = Some o) ks os.
Definition names_verdict (handler : meta_data_handler) (ks : list ltc_asn1_list) (ret r : Z) : Prop :=
  ∃ os, reads ks os ∧ Forall (accepts handler) (omap id os) ∧
        r = if bool_decide (this_product ∈ omap id os) then 0 else ret.

Lemma verdict_cons handler c o ks ret r : ou_name c = Some o → Forall (accepts handler) (omap id [o]) →
  names_verdict handler (c :: ks) ret r ↔
  names_verdict handler ks (if bool_decide (this_product ∈ omap id [o]) then 0 else ret) r.
Proof.
  intros Ho Ha. split.
  - intros (os' & Hos & Hacc & ->). inversion Hos as [|? o' ? os Ho' Hos']; subst. assert (o' = o) as -> by congruence.
    change (o :: os) with ([o] ++ os) in *. rewrite omap_app in Hacc |- *. apply Forall_app in Hacc as [_ Hacc].
    exists os. split_and!; [done..|]. repeat case_bool_decide; set_solver.
  - intros (os & Hos & Hacc & ->). exists (o :: os). split; [by constructor|].
    change (o :: os) with ([o] ++ os). rewrite omap_app. split; [by apply Forall_app_2|].
    repeat case_bool_decide; set_solver.
Qed.

Lemma verdict_reject handler c o ks ret r : ou_name c = Some (Some o) → ¬ accepts handler o →
  ¬ names_verdict handler (c :: ks) ret r.
Proof.
  intros Ho Ha (os & Hos & Hacc & _). inversion Hos as [|? o' ? os' Ho']; subst.
  assert (o' = Some o) as -> by congruence. cbn in Hacc. by apply Forall_cons in Hacc as [? _].
Qed.

Lemma metadata_ok {HL : ltc_laws} handler p : tree_bytes p → ∀ ret r,
  metadata_loop handler p ret = Some (Some r) ↔ names_verdict handler (kids p) ret r.
Proof.
  induction p as [|n c _ x IH]; intros Hp ret r.
  { cbn. split.
    - intros [= <-]. exists []. split_and!; [constructor..|]. by rewrite bool_decide_false by set_solver.
    - intros (os & Hos & _ & ->). inversion Hos. by rewrite bool_decide_false by set_solver. }
  destruct Hp as (_ & Hc & Hx). rewrite metadata_step. cbn [kids].
  destruct (ou_name c) as [[str|]|] eqn:Eo; cbn [mbind option_bind].
  - assert (Hrej : (match handler with Some h => negb (h str =? 0) | None => false end) = false ↔ accepts handler str).
    { unfold accepts. destruct handler as [h|]; [|done]. by destruct (Z.eqb_spec (h str) 0). }
    destruct (match handler with Some h => _ | None => _ end).
    { split; [done|]. intros Hv. exfalso. revert Hv. eapply verdict_reject; [done|]. by rewrite <- Hrej. }
    rewrite (verdict_cons _ _ _ _ _ _ Eo) by (repeat constructor; by apply Hrej).
    destruct (product_test str (ou_name_chars _ _ Hc Eo)) as (r1 & -> & Hr). cbn [mbind option_bind].
    assert (Hin : this_product ∈ omap id [Some str] ↔ str = this_product) by set_solver.
    destruct (r1 =? 0); cbn [negb].
    + destruct Hr as (r2 & -> & Hr). cbn [mbind option_bind]. rewrite Hr.
      rewrite (bool_decide_ext _ _ Hin). by apply IH.
    + rewrite bool_decide_false by (by rewrite Hin). by apply IH.
  - rewrite (verdict_cons _ _ _ _ _ _ Eo) by constructor. rewrite bool_decide_false by set_solver. by apply IH.
  - split; [done|]. intros (os & Hos & _). inversion Hos; congruence.
Qed.

(** ** The hash *)

Definition is_hash (n : asn1_node) : bool :=
  bool_decide (a_type n = LTC_ASN1_CONTEXT_SPECIFIC) && (a_used n =? 0x86).

(** The text of the first entry with the tag, and its terminator. *)
Definition hash_text (p : ltc_asn1_list) (s : list Z) : Prop :=
  ∃ n b, List.find is_hash (siblings p) = Some n ∧ a_data n = BYTES b ∧ 0 ≤ a_size n ≤ zlen b ∧
    s = take (Z.to_nat (a_size n)) b ++ [0].

Lemma hash_sound p : ∀ w, post (hash_loop p) (λ r _, ∀ s, r = Some s → hash_text p s) w.
Proof.
  induction p as [|n c _ x IH]; intros w; cbn [hash_loop]; [by apply post_ret|].
  unfold hash_text. cbn [siblings List.find]. replace (_ || _) with (negb (is_hash n)).
  2:{ unfold is_hash. by rewrite negb_andb. }
  destruct (is_hash n); cbn [negb]; [|apply IH].
  apply post_bind, post_malloc. intros [] w'; cbn [negb]; [|by apply post_ret].
  apply post_bind, post_lift. intros b Hb. apply post_bind, post_lift. intros s Hs. apply post_ret. intros ? [= <-].
  exists n, b. split; [done|]. destruct (a_data n); try done. injection Hb as ->. split; [done|].
  revert Hs. unfold blob_get, blob_in, blob_at. destruct (Z.leb_spec 0 (a_size n)), (Z.leb_spec (0 + a_size n) (zlen b)); try done.
  intros [= <-]. split; [lia|done].
Qed.

Lemma hash_complete p s : mallocs → hash_text p s → ∀ w, wp (hash_loop p) (λ r _, r = Some s) w.
Proof.
  intros Hm (n & b & Hf & Hd & Hz & ->). induction p as [|n' c _ x IH]; [done|]. intros w. cbn [hash_loop].
  cbn [siblings List.find] in Hf. replace (_ || _) with (negb (is_hash n')).
  2:{ unfold is_hash. by rewrite negb_andb. }
  destruct (is_hash n'); cbn [negb]; [|by apply IH]. injection Hf as ->.
  apply wp_bind, wp_malloc_ok; [done|]. intros w'. cbn [negb]. rewrite Hd.
  apply wp_bind. eapply wp_lift; [done|]. apply wp_bind.
  eapply wp_lift; [apply (blob_get_mid b [] (take (Z.to_nat (a_size n)) b) (drop (Z.to_nat (a_size n)) b))|].
  - cbn [app]. by rewrite take_drop.
  - done.
  - rewrite length_take. lia.
  - by apply wp_ret.
Qed.

(** The number in the certificate: of the alternative name, behind sha256://. *)
Definition cert_hash (l : ltc_asn1_list) (m : Z) : Prop :=
  ∃ o co v cv xv up d t s,
    List.find (sat check_san_node) (traversal l []) = Some (NODE o co (NODE v cv xv), up) ∧ a_data v = BYTES d ∧
    der_decode_sequence_flexi d (a_size v) = Some t ∧ t ≠ NIL ∧ hash_text (child t) s ∧
    drop 9 s ≠ [] ∧ mp_read_radix (drop 9 s) = Some m.

Lemma be_num_app b : ∀ acc c, be_num acc (b ++ c) = be_num (be_num acc b) c.
Proof. induction b as [|x b IH]; intros acc c; [done|]. apply IH. Qed.
Lemma be_num_zeros k : be_num 0 (replicate k 0) = 0.
Proof. induction k as [|k IH]; [done|]. apply IH. Qed.

Lemma be_num_inj b1 b2 : Forall (λ c, is_u8 c) b1 → Forall (λ c, is_u8 c) b2 → length b1 = length b2 → ∀ a1 a2,
  be_num a1 b1 = be_num a2 b2 → a1 = a2 ∧ b1 = b2.
Proof.
  intros H1. revert b2. induction H1 as [|x b1 Hx _ IH]; intros b2 H2 Hl a1 a2; destruct H2 as [|y b2 Hy H2]; try done.
  cbn [be_num]. intros E. apply IH in E as [E ->]; [|done|by injection Hl]. split; [lia|]. f_equal. lia.
Qed.

(** The code pads the bytes of the number to a digest. *)
Lemma padded_num {HL : ltc_laws} m bin digest : mp_to_unsigned_bin m = Some bin → mp_unsigned_bin_size m ≤ 32 →
  zlen digest = 32 → Forall (λ c, is_u8 c) digest →
  ∃ h, blob_put (replicate 32 0) (hashsize - mp_unsigned_bin_size m) bin = Some h ∧
       (digest = h ↔ be_num 0 digest = Z.abs m).
Proof.
  intros Hb Hs Hl Hd. destruct (bin_laws m) as (b & Eb & Lb & Fb & Nb). rewrite Hb in Eb. injection Eb as <-.
  set (k := Z.to_nat (32 - zlen bin)). exists (replicate k 0 ++ bin). split.
  - rewrite (blob_put_mid _ (replicate k 0) (replicate (length bin) 0) []); [by rewrite app_nil_r| | |by rewrite length_replicate].
    + rewrite app_nil_r, <- replicate_add. f_equal. lia.
    + rewrite length_replicate. unfold hashsize. lia.
  - assert (Hn : be_num 0 (replicate k 0 ++ bin) = Z.abs m) by (rewrite be_num_app, be_num_zeros; done).
    split; [by intros ->|]. intros E. apply (be_num_inj digest (replicate k 0 ++ bin)) with (a1 := 0) (a2 := 0).
    + done.
    + apply Forall_app_2; [by apply Forall_replicate|done].
    + rewrite length_app, length_replicate. lia.
    + congruence.
Qed.
End spec.
