(* ===== verification/SecureBootVerify.v ===== *)
(** * SecureBootVerify: an image is accepted exactly with an authentic certificate

    The parts of SecureBootThm put together for check_hash and amzn_verify_image. *)

From S2P Require Import Prelude Idme IdmeThm SecureBoot SecureBootThm.

Section verify.
Context {L : ltc} {T : target} {HL : ltc_laws}.

Definition digest_ok (digest : list Z) : Prop := zlen digest = 32 ∧ Forall (λ c, is_u8 c) digest.

(** The digest, as a number, is the one in the certificate. *)
Definition names_digest (l : ltc_asn1_list) (digest : list Z) : Prop :=
  ∃ m, cert_hash l m ∧ be_num 0 digest = Z.abs m.

Lemma check_hash_sound l digest w : digest_ok digest → post (check_hash l digest) (λ r _, r = 0 → names_digest l digest) w.
Proof.
  intros [Hl Hd]. unfold check_hash. apply post_bind, post_lift. intros p Hp. apply find_node_ok in Hp. subst p.
  destruct (List.find _ _) as [[lo up]|] eqn:Hf; [|by apply post_ret]. cbn [fmap option_fmap option_map fst].
  destruct (next lo) as [|v cv xv] eqn:Hn; [by apply post_ret|]. destruct (a_data v) as [|d|its] eqn:Ed; [by apply post_ret| |].
  all: apply post_bind, post_lift; cbn [bytes_of]; intros ? [= <-].
  unfold find_hash_string. destruct (der_decode_sequence_flexi d _) as [t|] eqn:Et; [|by apply post_bind, post_ret, post_ret].
  destruct t as [|nt ct xt]; [by apply post_bind, post_wrong|]. apply post_bind.
  eapply post_mono; [apply hash_sound|]. intros [s|] w' Hs; [|by apply post_ret]. specialize (Hs s eq_refl).
  apply post_bind. intros ok w2 _. destruct ok; cbn [negb]; [|by apply post_ret]. case_bool_decide as H9; [apply post_wrong|].
  destruct (mp_read_radix _) as [m|] eqn:Em; [|by apply post_ret].
  destruct (Z.ltb_spec hashsize (mp_unsigned_bin_size m)) as [|H32]; [by apply post_ret|].
  destruct (mp_to_unsigned_bin m) as [bin|] eqn:Eb; [|by apply post_ret].
  destruct (padded_num m bin digest) as (h & Eh & Hh); [done..|]. apply post_bind, post_lift. intros h' Eh'.
  rewrite Eh in Eh'. injection Eh' as <-. apply post_ret. case_bool_decide as Hc; [|done]. intros _.
  exists m. split; [|by apply Hh]. destruct lo as [|o co xo]; [done|]. cbn [next] in Hn. subst xo.
  exists o, co, v, cv, xv, up, d, (NODE nt ct xt), s. by split_and!.
Qed.

Lemma digest_small b : Forall (λ c, is_u8 c) b → ∀ acc, 0 ≤ acc →
  0 ≤ be_num acc b < (acc + 1) * 2 ^ (8 * zlen b).
Proof.
  induction 1 as [|x b Hx _ IH]; intros acc Ha; cbn [be_num].
  - change (zlen []) with 0. lia.
  - specialize (IH (acc * 256 + x) ltac:(lia)). cbn [length]. rewrite Nat2Z.inj_succ.
    replace (8 * Z.succ (zlen b)) with (8 + 8 * zlen b) by lia. rewrite Z.pow_add_r by lia. nia.
Qed.

Lemma check_hash_complete l digest w : mallocs → digest_ok digest → is_Some (find_node check_san_node l [] None) →
  names_digest l digest → wp (check_hash l digest) (λ r _, r = 0) w.
Proof.
  intros Hm [Hl Hd] [p Hp] (m & (o & co & v & cv & xv & up & d & t & s & Hf & Ed & Et & Ht & Hs & H9 & Em) & Hb).
  unfold check_hash. apply wp_bind. eapply wp_lift; [done|]. apply find_node_ok in Hp. subst p. rewrite Hf.
  cbn [fmap option_fmap option_map fst next]. rewrite Ed. apply wp_bind. eapply wp_lift; [done|].
  unfold find_hash_string. rewrite Et. destruct t as [|nt ct xt]; [done|]. apply wp_bind.
  eapply wp_mono; [by apply hash_complete|]. intros ? w' ->. apply wp_bind, wp_mp_init; [done|].
  intros w2. cbn [negb]. rewrite bool_decide_false by done. rewrite Em.
  assert (H32 : mp_unsigned_bin_size m ≤ 32).
  { apply bin_small; [lia|]. rewrite <- Hb, <- Hl. pose proof (digest_small digest Hd 0). lia. }
  destruct (Z.ltb_spec hashsize (mp_unsigned_bin_size m)); [unfold hashsize in *; lia|].
  destruct (bin_laws m) as (bin & Eb & _). rewrite Eb. destruct (padded_num m bin digest) as (h & Eh & Hh); [done..|].
  apply wp_bind. eapply wp_lift; [done|]. apply wp_ret. by rewrite bool_decide_true by (by apply Hh).
Qed.

(** ** The whole check *)

(** A certificate that is signed with the key of the root, names this product and no
    name the handler refuses, and holds the digest. *)
Definition authentic (root user : ltc_asn1_list) (digest : list Z) (handler : meta_data_handler) : Prop :=
  ∃ k n c x os, has_key root k ∧ cert_signed user k ∧ subject user = NODE n c x ∧ a_type n = LTC_ASN1_SEQUENCE ∧
    reads (kids c) os ∧ Forall (accepts handler) (omap id os) ∧ this_product ∈ omap id os ∧
    names_digest (NODE n c x) digest.

Lemma subject_bytes l : tree_bytes l → tree_bytes (subject l).
Proof. intros H. unfold subject. do 5 apply next_bytes. by do 2 apply child_bytes. Qed.

(** What the check of a certificate establishes; allocations of the scan may have failed. *)
Definition accepted (cert_type : Z) (digest usercert : list Z) (handler : meta_data_handler) : Prop :=
  ∃ r0 u0 root user,
    der_decode_sequence_flexi (fst (amzn_get_kernel_cert cert_type)) (snd (amzn_get_kernel_cert cert_type)) = Some r0 ∧
    der_decode_sequence_flexi usercert 2048 = Some u0 ∧ verify_certificate_structure u0 = Some 0 ∧
    rescanned r0 root ∧ rescanned u0 user ∧ authentic root user digest handler.

Lemma verify_image_post cert_type digest usercert handler w : digest_ok digest →
  post (amzn_verify_image cert_type digest usercert handler) (λ r _, r = 0 → accepted cert_type digest usercert handler) w.
Proof.
  intros Hd. unfold accepted, amzn_verify_image. destruct (amzn_get_kernel_cert cert_type) as [rc rl]. cbn [fst snd].
  destruct (der_decode_sequence_flexi rc rl) as [r0|] eqn:Er; [|apply post_wrong]. destruct r0 as [|nr cr xr]; [apply post_wrong|].
  apply post_bind. eapply post_mono; [apply post_of_wp, rescan_ok|]. intros root w1 [Hroot _].
  destruct (der_decode_sequence_flexi usercert 2048) as [u0|] eqn:Eu; [|by apply post_ret].
  destruct u0 as [|nu cu xu] eqn:Eu0; [apply post_wrong|]. rewrite <- Eu0 in *. clear Eu0 nu cu xu.
  apply post_bind, post_lift. intros r Hr. destruct (Z.eqb_spec r 0) as [->|]; cbn [negb]; [|by apply post_ret].
  apply post_bind. eapply post_mono; [apply post_of_wp, rescan_ok|]. intros user w2 [Huser _].
  apply post_bind. eapply post_mono; [apply extract_sound|]. intros [k|] w3 Hk; [|by apply post_ret].
  apply post_bind. eapply post_mono; [apply certificate_sound|]. intros r w4 Hc.
  destruct (Z.eqb_spec r 0) as [->|]; cbn [negb]; [|by apply post_ret].
  pose proof (subject_bytes user (rescanned_bytes _ _ Huser (decoded_bytes _ _ _ Eu))) as Hb.
  destruct (subject user) as [|n c x] eqn:Es; [by apply post_ret|]. destruct Hb as (_ & Hb & _).
  case_bool_decide as Ht; cbn [negb]; [|by apply post_ret].
  apply post_bind, post_lift. intros [r|] Hr1; [|by apply post_ret]. apply metadata_ok in Hr1 as (os & Ho & Ha & Ep); [|done].
  case_bool_decide as Hp; [subst r|by destruct r; [| |apply post_ret]].
  eapply post_mono; [by apply check_hash_sound|]. intros r w5 Hh E.
  exists (NODE nr cr xr), u0, root, user. split_and!; [done..|].
  exists k, n, c, x, os. split_and!; try done; [by apply Hk|by apply Hc|by apply Hh].
Qed.

(** C2: amzn_verify_image returns 0, for whatever allocations fail, only for a certificate that
    decodes, is signed (RSA over the SHA-256 of its first part) with the public key of the root
    certificate asked for, has only accepted organizational units, this product among them, and
    holds the digest of the image in its subject alternative name. *)
Theorem verify_image_sound cert_type digest usercert handler w w' : digest_ok digest →
  amzn_verify_image cert_type digest usercert handler w = Some (0, w') →
  ∃ r0 u0 root user,
    der_decode_sequence_flexi (fst (amzn_get_kernel_cert cert_type)) (snd (amzn_get_kernel_cert cert_type)) = Some r0 ∧
    der_decode_sequence_flexi usercert 2048 = Some u0 ∧ verify_certificate_structure u0 = Some 0 ∧
    rescanned r0 root ∧ rescanned u0 user ∧ authentic root user digest handler.
Proof. intros Hd E. by apply (verify_image_post cert_type digest usercert handler w Hd 0 w'). Qed.

(** Every object identifier of the certificate has in memory at least the bytes of
    [oid], with which it is compared. *)
Definition identifier_readable (oid : list Z) (n : asn1_node) : Prop :=
  a_type n = LTC_ASN1_OBJECT_IDENTIFIER →
  ∃ b, bytes_of (a_data n) = Some b ∧ (length (ulongs oid) ≤ length b)%nat.
Fixpoint readable (oid : list Z) (l : ltc_asn1_list) : Prop :=
  match l with NIL => True | NODE n c x => identifier_readable oid n ∧ readable oid c ∧ readable oid x end.

Lemma memcmp_eq_total q : ∀ p, (length q ≤ length p)%nat → is_Some (memcmp_eq p q).
Proof.
  induction q as [|y q IH]; intros [|x p]; cbn; [by eexists..|lia|]. intros Hl.
  destruct (x =? y); [apply IH; lia|by eexists].
Qed.

Lemma check_oid_total oid n : identifier_readable oid n → is_Some (check_oid oid n).
Proof.
  unfold check_oid. intros H. destruct (decide _) as [Et|]; [|by eexists].
  destruct (H Et) as (b & -> & Hl). by apply memcmp_eq_total.
Qed.

Lemma find_node_total oid l : readable oid l → ∀ up p, is_Some (find_node (check_oid oid) l up p).
Proof.
  induction l as [|n c IHc x IHx]; intros H up p; [by eexists|].
  destruct H as ([b Hb]%check_oid_total & Hc & Hx). cbn [find_node].
  destruct (IHc Hc (NODE n c x :: up) p) as [p1 ->]. cbn [mbind option_bind]. rewrite Hb. apply IHx, Hx.
Qed.

Lemma readable_rescan oid l : readable oid l → readable oid (rescan l).
Proof.
  induction l as [|n c IHc x IHx]; [done|]. intros (Hn & Hc & Hx). cbn [rescan readable]. split_and!; [|by auto..].
  destruct c; [done|]. destruct (has_items (a_type n)) eqn:E; [|done].
  unfold identifier_readable, with_items. cbn [a_type]. intros Et. by rewrite Et in E.
Qed.

Lemma readable_child oid l : readable oid l → readable oid (child l).
Proof. destruct l; [done|]. by intros (? & ? & ?). Qed.
Lemma readable_next oid l : readable oid l → readable oid (next l).
Proof. destruct l; [done|]. by intros (? & ? & ?). Qed.
Lemma readable_subject oid l : readable oid l → readable oid (subject l).
Proof. intros H. unfold subject. do 5 apply readable_next. by do 2 apply readable_child. Qed.

(** The nodes of a certificate in the order of the scan, with the depth it gives
    them: the siblings behind a node with children count as one level deeper. *)
Fixpoint layout (l : ltc_asn1_list) (depth : Z) : list (asn1_type * Z) :=
  match l with
  | NIL => []
  | NODE n c x => (a_type n, depth) ::
      match c with NIL => layout x depth | _ => layout c (depth + 1) ++ layout x (depth + 1) end
  end.

(** No more nodes than the tables have entries, each of the type or at the depth
    that they give for its place. *)
Definition expected_layout (l : ltc_asn1_list) : Prop :=
  ∀ i e, layout l 0 !! i = Some e → ∃ t d,
    signature_sequence !! i = Some t ∧ signature_depth !! i = Some d ∧ (fst e = t ∨ snd e = d).

Lemma scan_layout l : ∀ acc d, zlen acc + zlen (layout l d) ≤ NUMBER_OF_SECTIONS_IN_CERTIFICATE →
  scan_signature l acc d = Some (reverse (layout l d) ++ acc).
Proof.
  induction l as [|n c IHc x IHx]; intros acc d; [done|]. cbn [scan_signature layout].
  intros Hl. cbn [length] in Hl.
  destruct (Z.leb_spec NUMBER_OF_SECTIONS_IN_CERTIFICATE (zlen acc)) as [?|_]; [lia|].
  rewrite reverse_cons, <-app_assoc. cbn [app].
  destruct c as [|nc cc xc]; [apply IHx; cbn [length]; lia|].
  rewrite length_app in Hl. rewrite IHc by (cbn [length]; lia). cbn [mbind option_bind]. rewrite IHx.
  - by rewrite reverse_app, <-app_assoc.
  - rewrite length_app, length_reverse. cbn [length]. lia.
Qed.

Lemma structure_loop_accepts es : ∀ i, (∀ k e, es !! k = Some e → ∃ t d,
    signature_sequence !! (i + k)%nat = Some t ∧ signature_depth !! (i + k)%nat = Some d ∧
    (fst e = t ∨ snd e = d)) →
  structure_loop (Z.of_nat i) es = Some 0.
Proof.
  induction es as [|e es IH]; intros i H; [done|]. cbn [structure_loop].
  destruct (H 0%nat e eq_refl) as (t & d & Ht & Hd & He). rewrite Nat.add_0_r in Ht, Hd.
  unfold rd. destruct (Z.leb_spec 0 (Z.of_nat i)); [|lia]. rewrite Nat2Z.id, Ht. cbn [mbind option_bind].
  rewrite Hd. cbn [mbind option_bind].
  replace (structure_entry (Z.of_nat i) e t d) with true.
  - replace (Z.of_nat i + 1) with (Z.of_nat (S i)) by lia. apply IH. intros k e' Hk.
    replace (S i + k)%nat with (i + S k)%nat by lia. by apply H.
  - unfold structure_entry. destruct He as [-> | ->]; [by rewrite bool_decide_true|].
    by rewrite Z.eqb_refl, orb_true_r.
Qed.

Lemma structure_accepts l : expected_layout l → verify_certificate_structure l = Some 0.
Proof.
  intros H. unfold verify_certificate_structure. rewrite scan_layout.
  - cbn [mbind option_bind]. rewrite app_nil_r, reverse_involutive. by apply (structure_loop_accepts _ 0).
  - change NUMBER_OF_SECTIONS_IN_CERTIFICATE with (zlen signature_sequence).
    cut (length (layout l 0) ≤ length signature_sequence)%nat; [change (zlen []) with 0; lia|].
    destruct (Nat.le_gt_cases (length (layout l 0)) (length signature_sequence)) as [|Hl]; [done|].
    destruct (lookup_lt_is_Some_2 _ _ Hl) as [e He]. destruct (H _ _ He) as (t & _ & Ht & _).
    apply lookup_lt_Some in Ht. lia.
Qed.

(** C11: a genuine image is accepted: when the allocations succeed, the root certificate and the
    user's certificate decode, the user's certificate has at most as many nodes as the tables of
    the expected structure, each of the type or at the depth they give for it, the object
    identifiers of both are in memory at least as long as those they are compared with, and the
    certificate is authentic (its key, signature, product names and hash string can be read, the
    signature is one of the root key, one of the product names is this
    device's and none is refused, and the hash is that of the image), then amzn_verify_image runs to its end and
    returns 0.  That the certificate decodes and that what it holds can be read is an
    assumption, not a result. *)
Theorem verify_image_complete cert_type digest usercert handler r0 u0 w : mallocs → digest_ok digest →
  der_decode_sequence_flexi (fst (amzn_get_kernel_cert cert_type)) (snd (amzn_get_kernel_cert cert_type)) = Some r0 →
  der_decode_sequence_flexi usercert 2048 = Some u0 → r0 ≠ NIL → expected_layout u0 →
  readable [1; 2; 840; 113549; 1; 1; 1] r0 → readable [2; 5; 29; 17] u0 →
  authentic (rescan r0) (rescan u0) digest handler →
  ∃ w', amzn_verify_image cert_type digest usercert handler w = Some (0, w').
Proof.
  intros Hm Hd Er Eu Hr0 Hst%structure_accepts Hrr Hru (k & n & c & x & os & Hk & Hs & Hsub & Ht & Ho & Ha & Hp & Hh).
  cut (wp (amzn_verify_image cert_type digest usercert handler) (λ r _, r = 0) w).
  { rewrite wp_elim. intros (r & w' & E & ->). by exists w'. }
  unfold amzn_verify_image. destruct (amzn_get_kernel_cert cert_type) as [rc rl]. cbn [fst snd] in Er. rewrite Er.
  destruct r0 as [|nr cr xr] eqn:Er0; [done|]. rewrite <- Er0 in *. clear Hr0 Er0 nr cr xr.
  apply wp_bind. eapply wp_mono; [apply rescan_ok|]. intros root w1 [_ Hroot]. rewrite Hroot by done. rewrite Eu.
  destruct u0 as [|nu cu xu] eqn:Eu0; [by destruct Hs as (? & ? & ? & ? & ? & ? & ? & ? & ? & [=] & _)|].
  rewrite <- Eu0 in *. clear Eu0 nu cu xu. apply wp_bind. eapply wp_lift; [done|]. cbn [Z.eqb negb].
  apply wp_bind. eapply wp_mono; [apply rescan_ok|]. intros user w2 [Hre Huser]. rewrite Huser in * by done.
  apply wp_bind. eapply wp_mono; [apply extract_complete; [done|by apply find_node_total, readable_rescan|done]|].
  intros ? w3 ->. apply wp_bind. eapply wp_mono; [by apply certificate_complete|]. intros ? w4 ->. cbn [Z.eqb negb].
  pose proof (subject_bytes _ (rescanned_bytes _ _ Hre (decoded_bytes _ _ _ Eu))) as Hb.
  pose proof (readable_subject _ _ (readable_rescan _ _ Hru)) as Hrs.
  rewrite Hsub in *. destruct Hb as (_ & Hb & _). rewrite bool_decide_true by done. cbn [negb].
  apply wp_bind. eapply wp_lift; [apply metadata_ok; [done|]; by exists os|]. rewrite bool_decide_true by done.
  apply check_hash_complete; [done|done|by apply find_node_total|done].
Qed.
End verify.

(** ** A small library and a certificate

    Nodes of the expected types in a row, the ones that matter in between. *)

Definition leaf (t : asn1_type) (d : asn1_data) (size used : Z) : asn1_node := Asn1 t d size used true.
Fixpoint leaf_row (ts : list asn1_type) (l : ltc_asn1_list) : ltc_asn1_list :=
  match ts with [] => l | t :: ts => NODE (leaf t (BYTES (ulongs [1; 2; 3; 4; 5; 6; 7])) 7 0) NIL (leaf_row ts l) end.
Definition expected (i n : nat) : list asn1_type := take n (drop i signature_sequence).

Definition sample_root : ltc_asn1_list :=
  NODE (Asn1 LTC_ASN1_SEQUENCE NODATA 0 0 false)
    (NODE (leaf LTC_ASN1_SEQUENCE NODATA 0 0)
       (NODE (leaf LTC_ASN1_OBJECT_IDENTIFIER (BYTES (ulongs [1; 2; 840; 113549; 1; 1; 1])) 7 0) NIL NIL) NIL) NIL.

Definition sample_name : list Z := [109; 97; 114; 103; 111].
Definition sample_user : ltc_asn1_list :=
  let string := leaf LTC_ASN1_PRINTABLE_STRING (BYTES (product_ ++ sample_name ++ [0])) 13 0 in
  let name := NODE (leaf LTC_ASN1_SET NODATA 0 0)
                (NODE (leaf LTC_ASN1_SEQUENCE NODATA 0 0)
                   (NODE (leaf LTC_ASN1_OBJECT_IDENTIFIER (BYTES (ulongs ou_oid)) 4 0) NIL (NODE string NIL NIL)) NIL) NIL in
  let san := leaf_row [LTC_ASN1_SEQUENCE]
               (NODE (leaf LTC_ASN1_OBJECT_IDENTIFIER (BYTES (ulongs [2; 5; 29; 17])) 4 0) NIL
                  (NODE (leaf LTC_ASN1_UTF8_STRING (BYTES [8]) 1 0) NIL (leaf_row (expected 27 39) NIL))) in
  let subject := NODE (leaf LTC_ASN1_SEQUENCE NODATA 0 0) name (NODE (leaf LTC_ASN1_SET NODATA 0 0) san NIL) in
  let fields := leaf_row (expected 2 3)
                  (NODE (leaf LTC_ASN1_SEQUENCE NODATA 0 0) (leaf_row (expected 6 11) NIL) (leaf_row (expected 17 1) subject)) in
  let signature := NODE (leaf LTC_ASN1_BIT_STRING (BYTES [0; 0; 0; 0; 0; 1; 1; 1]) 8 0) NIL NIL in
  NODE (Asn1 LTC_ASN1_SEQUENCE NODATA 0 0 false)
    (NODE (leaf LTC_ASN1_SEQUENCE NODATA 0 0) fields (leaf_row (expected 66 1) signature)) NIL.

(** sha256://1f *)
Definition sample_san : ltc_asn1_list :=
  NODE (Asn1 LTC_ASN1_SEQUENCE NODATA 0 0 false)
    (NODE (leaf LTC_ASN1_CONTEXT_SPECIFIC (BYTES [115; 104; 97; 50; 53; 54; 58; 47; 47; 49; 102]) 11 0x86) NIL NIL) NIL.
Definition sample_digest : list Z := replicate 31 0 ++ [31].

Definition hex_digit (c : Z) : Z := if c <? 58 then c - 48 else c - 87.
Fixpoint hex_num (acc : Z) (s : list Z) : Z :=
  match s with [] => acc | c :: s => if c =? 0 then acc else hex_num (acc * 16 + hex_digit c) s end.
Fixpoint be_bytes (n : nat) (m : Z) : list Z := match n with O => [] | S n => be_bytes n (m / 256) ++ [m `mod` 256] end.
Definition bin_len (m : Z) : Z := if m =? 0 then 0 else Z.log2 (Z.abs m) / 8 + 1.

#[export] Instance sample_ltc : ltc :=
  {| lw := unit; rsa_key := list Z; XMALLOC _ w := (true, w); mp_init w := (true, w);
     der_decode_sequence_flexi b len :=
       if bool_decide (b = production_cacert) then Some sample_root
       else if bool_decide (b = [7]) then Some sample_user
       else if bool_decide (b = [8]) then Some sample_san else None;
     der_length_sequence d size := Some size;
     der_encode_sequence_ex d size len := Some [size];
     rsa_import b := Some b;
     rsa_verify_hash sig h k st := (0, if bool_decide (last sig = last h) then 1 else 0);
     sha256 b := replicate 31 0 ++ [u8 (foldr Z.add 0 b)];
     mp_read_radix s := Some (hex_num 0 s);
     mp_unsigned_bin_size := bin_len;
     mp_to_unsigned_bin m := Some (be_bytes (Z.to_nat (bin_len m)) (Z.abs m)) |}.
#[export] Instance sample_target : target :=
  {| amzn_target_device_name := sample_name; amzn_target_device_type := AMZN_PRODUCTION_DEVICE |}.

Lemma be_bytes_length n : ∀ m, length (be_bytes n m) = n.
Proof. induction n as [|n IH]; intros m; [done|]. cbn [be_bytes]. rewrite length_app, IH. simpl. lia. Qed.

Lemma be_bytes_ok n : ∀ m, 0 ≤ m < 2 ^ (8 * Z.of_nat n) →
  Forall (λ c, is_u8 c) (be_bytes n m) ∧ be_num 0 (be_bytes n m) = m.
Proof.
  induction n as [|n IH]; intros m Hm; cbn [be_bytes]; [split; [constructor|]; cbn in *; lia|].
  replace (8 * Z.of_nat (S n)) with (8 + 8 * Z.of_nat n) in Hm by lia. rewrite Z.pow_add_r in Hm by lia.
  destruct (IH (m / 256)) as [Hf Hn].
  { split; [dlia|]. apply Z.div_lt_upper_bound; lia. }
  split; [apply Forall_app_2; [done|constructor; [|constructor]]; change (2 ^ 8) with 256; dlia|].
  rewrite be_num_app, Hn. cbn [be_num]. dlia.
Qed.

Lemma bin_len_bound m : 0 ≤ bin_len m ∧ Z.abs m < 2 ^ (8 * bin_len m).
Proof.
  unfold bin_len. destruct (Z.eqb_spec m 0) as [->|Hm]; [done|]. pose proof (Z.log2_nonneg (Z.abs m)).
  split; [dlia|]. destruct (Z.log2_spec (Z.abs m)) as [_ H2]; [lia|]. eapply Z.lt_le_trans; [exact H2|].
  apply Z.pow_le_mono_r; [lia|]. dlia.
Qed.

Fixpoint tree_check (l : ltc_asn1_list) : bool :=
  match l with
  | NIL => true
  | NODE n c x =>
      match a_data n with BYTES b => forallb (λ c, (0 <=? c) && (c <? 256)) b | _ => true end && tree_check c && tree_check x
  end.
Lemma tree_check_ok l : tree_check l = true → tree_bytes l.
Proof.
  induction l as [|n c IHc x IHx]; [done|]. cbn [tree_check tree_bytes]. intros [[Hn Hc]%andb_true_iff Hx]%andb_true_iff.
  split_and!; [|by auto..]. unfold data_ok. destruct (a_data n) as [|b|]; [done| |done].
  apply Forall_forall. intros y Hy. apply list_elem_of_In in Hy. eapply forallb_forall in Hn; [|done]. simpl in Hn. lia.
Qed.

#[export] Instance sample_laws : ltc_laws.
Proof.
  split.
  - intros b len l. cbn [der_decode_sequence_flexi sample_ltc].
    repeat case_bool_decide; [..|done]; intros [= <-]; apply tree_check_ok; by vm_compute.
  - intros m. destruct (bin_len_bound m) as [H0 H1]. eexists. split; [done|]. cbn. rewrite be_bytes_length.
    split; [lia|]. apply be_bytes_ok. rewrite Z2Nat.id by done. lia.
  - intros m k Hk Hm. cbn. unfold bin_len. destruct (Z.eqb_spec m 0); [done|].
    assert (Z.log2 (Z.abs m) < 8 * k) by (apply Z.log2_lt_pow2; lia). dlia.
  - intros b. split; [done|]. apply Forall_app_2; [by apply Forall_replicate|]. constructor; [apply u8_range|constructor].
  - by repeat constructor.
Qed.

Example sample_verifies : amzn_verify_image AMZN_PRODUCTION_CERT sample_digest [7] None tt = Some (0, tt).
Proof. vm_compute. reflexivity. Qed.

Lemma verify_image_sound_witness : ∃ r0 u0 root user : ltc_asn1_list,
  der_decode_sequence_flexi [7] 2048 = Some u0 ∧ rescanned r0 root ∧ rescanned u0 user ∧
  authentic root user sample_digest None.
Proof.
  destruct (verify_image_sound (L := sample_ltc) AMZN_PRODUCTION_CERT sample_digest [7] None tt tt)
    as (r0 & u0 & root & user & _ & Hu & _ & Hr & Hs & Ha).
  - split; [done|]. apply Forall_app_2; [by apply Forall_replicate|by constructor].
  - vm_compute. reflexivity.
  - by exists r0, u0, root, user.
Defined.

Lemma sample_packed : packed [0; 0; 0; 0; 0; 1; 1; 1] 8 [7].
Proof.
  unfold packed. split_and!; [done..|by repeat constructor|]. intros i Hi. change (8 * zlen [7]) with 8 in Hi.
  assert (Hc : i = 0 ∨ i = 1 ∨ i = 2 ∨ i = 3 ∨ i = 4 ∨ i = 5 ∨ i = 6 ∨ i = 7) by lia. naive_solver.
Qed.

Lemma sample_authentic : authentic (rescan sample_root) (rescan sample_user) sample_digest None.
Proof.
  eexists [1], _, _, _, [Some (product_ ++ sample_name)]. split_and!.
  - do 11 eexists. split; [vm_compute; reflexivity|]. split_and!; [done|done| |reflexivity]. by eexists.
  - eexists _, _, _, _, _, _, _, [7], [7]. split; [vm_compute; reflexivity|].
    split_and!; [by exists 7| |done]. split; [done|]. eexists. split; [done|]. apply sample_packed.
  - vm_compute. reflexivity.
  - reflexivity.
  - constructor; [|constructor]. vm_compute. reflexivity.
  - by repeat constructor.
  - by left.
  - exists 31. split; [|by vm_compute]. do 7 eexists. exists sample_san, [115; 104; 97; 50; 53; 54; 58; 47; 47; 49; 102; 0].
    split; [vm_compute; reflexivity|]. split_and!; [reflexivity|by vm_compute|done| |done|by vm_compute].
    eexists _, _. split; [vm_compute; reflexivity|]. split_and!; done.
Qed.

Lemma readable_check oid l : (fix go l := match l with NIL => true | NODE n c x =>
  match bytes_of (a_data n) with
  | Some b => negb (bool_decide (a_type n = LTC_ASN1_OBJECT_IDENTIFIER)) || (length (ulongs oid) <=? length b)%nat
  | None => negb (bool_decide (a_type n = LTC_ASN1_OBJECT_IDENTIFIER)) end && go c && go x end) l = true →
  readable oid l.
Proof.
  induction l as [|n c IHc x IHx]; [done|]. cbn [readable]. intros [[Hn Hc]%andb_true_iff Hx]%andb_true_iff.
  split_and!; [|by auto..]. intros Et. rewrite bool_decide_true in Hn by done.
  destruct (bytes_of (a_data n)) as [b|]; [|done]. exists b. split; [done|]. by apply Nat.leb_le.
Qed.

Lemma expected_layout_check l :
  (length (layout l 0) <=? length signature_sequence)%nat &&
  forallb (λ '(e, (t, d)), bool_decide (fst e = t) || (snd e =? d))
    (zip (layout l 0) (zip signature_sequence signature_depth)) = true → expected_layout l.
Proof.
  intros [Hl%Nat.leb_le H]%andb_true_iff i e He. rewrite forallb_forall in H.
  pose proof (lookup_lt_Some _ _ _ He) as Hi.
  destruct (lookup_lt_is_Some_2 signature_sequence i) as [t Ht]; [lia|].
  destruct (lookup_lt_is_Some_2 signature_depth i) as [d Hd].
  { change (length signature_depth) with (length signature_sequence). lia. }
  exists t, d. split_and!; [done..|]. specialize (H (e, (t, d))). cbv beta iota in H.
  rewrite orb_true_iff, bool_decide_eq_true, Z.eqb_eq in H. apply H, list_elem_of_In.
  apply list_elem_of_lookup. exists i. apply lookup_zip_with_Some. exists e, (t, d). split_and!; [done..|].
  apply lookup_zip_with_Some. by exists t, d.
Qed.

Lemma verify_image_complete_witness : ∃ w', amzn_verify_image AMZN_PRODUCTION_CERT sample_digest [7] None tt = Some (0, w').
Proof.
  apply (verify_image_complete (L := sample_ltc) _ _ _ _ sample_root sample_user).
  - split; [by intros ? []|by intros []].
  - split; [done|]. apply Forall_app_2; [by apply Forall_replicate|by constructor].
  - vm_compute. reflexivity.
  - vm_compute. reflexivity.
  - done.
  - apply expected_layout_check. vm_compute. reflexivity.
  - apply readable_check. vm_compute. reflexivity.
  - apply readable_check. vm_compute. reflexivity.
  - apply sample_authentic.
Defined.

(** ** The check of the structure

    An entry passes with the right type or the right depth, and a certificate may end early: one
    node of any type, at depth 0, has the expected structure. *)
Lemma structure_accepts_any n : a_type n = LTC_ASN1_NULL → verify_certificate_structure (NODE n NIL NIL) = Some 0.
Proof. intros Ht. unfold verify_certificate_structure. cbn. rewrite Ht. done. Qed.

(** It also overruns its arrays: a certificate of more than 93 nodes writes behind them. *)
Lemma structure_overrun : verify_certificate_structure (leaf_row (replicate 94 LTC_ASN1_NULL) NIL) = None.
Proof. vm_compute. reflexivity. Qed.
