(* ===== verification/Unlock.v ===== *)
(** * Unlock: unlocking, lockdown and the decision to boot

    unlock.c, unlock_ltc.c and amzn_fastboot_lockdown.c of ufbl-features, the policy of
    image_verify.c, and what the boot loader of the product makes of them: the board
    (secure_boot_cfg.c, setup.c), the check of bootm, is_lockdown and the console, and the
    commands of fastboot.  The state is the identity table with its device and the state of
    the library.  UFBL_FEATURE_UNLOCK and BOARD_AMAZON_KERNEL_SIGNING are set. *)

From stdpp Require Import strings.
From S2P Require Import Prelude Idme IdmeCmd SecureBoot.

Definition txt (s : String.string) : list Z :=
  map (λ a, Z.of_N (Ascii.N_of_ascii a)) (String.list_ascii_of_string s).
Arguments txt s%_string_scope.

Definition UNLOCK_CODE_LEN : Z := 32.
Definition SIGNED_UNLOCK_CODE_LEN : Z := 256.
Definition SHA256_DIGEST_LENGTH : Z := 32.
Definition unlock_code_name : list Z :=
  [117; 110; 108; 111; 99; 107; 95; 99; 111; 100; 101; 0].

(** enum safe_verify_response *)
Definition AMZN_IMAGE_BAD : Z := 0.
Definition AMZN_IMAGE_SIGNED : Z := 1.
Definition AMZN_IMAGE_DEVSIGNED : Z := 2.
Definition AMZN_IMAGE_DEVSIGNED_UNLOCKED : Z := 4.
Definition AMZN_IMAGE_DEVSIGNED_ENG : Z := 8.
Definition AMZN_IMAGE_UNSIGNED_UNLOCKED : Z := 16.
Definition AMZN_IMAGE_UNSIGNED_ENG : Z := 32.

(** What a product provides for unlocking: the functions that unlock.c declares weak, and the
    allocator.  The code functions get the size of the buffer and return a result, the code
    and its length; the key is a pointer, or null, and a length. *)
Class unlock_target {L : ltc} : Type :=
  { amzn_plat_alloc : Z → lw → bool * lw;
    amzn_get_unlock_code : Z → lw → (Z * (list Z * Z)) * lw;
    amzn_get_limited_unlock_code : Z → Z → lw → (Z * (list Z * Z)) * lw;
    amzn_get_unlock_key : option (list Z * Z) }.

(** ** The weak functions of unlock.c *)

Definition weak_get_unlock_code {W} (len : Z) (w : W) : (Z * (list Z * Z)) * W := ((-1, ([], len)), w).
Definition weak_get_limited_unlock_code {W} (get_unlock_code : Z → W → (Z * (list Z * Z)) * W)
    (len ctr : Z) (w : W) : (Z * (list Z * Z)) * W := get_unlock_code len w.
Definition weak_get_unlock_key : option (list Z * Z) := None.

(** ** The board (board/margo/secure_boot_cfg.c, setup.c) *)

(** %04x of a 16-bit number *)
Definition hex_asc (d : Z) : Z := if d <? 10 then 48 + d else 87 + d.
Definition hex4 (x : Z) : list Z :=
  [hex_asc ((x >>u 12) .& 15); hex_asc ((x >>u 8) .& 15); hex_asc ((x >>u 4) .& 15); hex_asc (x .& 15)].

(** The system driver: whether it starts, and the words of the chip's number. *)
Class mstar_sys {L : ltc} : Type :=
  { mdrv_gpio_get_level : Z → Z;
    MDrv_SYS_Init : lw → bool * lw;
    MDrv_SYS_GetEfuseDid : lw → option (Z * Z * Z * Z) * lw;
    plat_alloc : Z → lw → bool * lw }.

Definition DEVICE_TYPE_GPIO : Z := 45.

Definition margo_device_type {L : ltc} {D : mstar_sys} : Z :=
  let type_gpio_level := mdrv_gpio_get_level (DEVICE_TYPE_GPIO + 1) in
  if type_gpio_level =? 1 then AMZN_ENGINEERING_DEVICE else AMZN_PRODUCTION_DEVICE.

Definition margo_device_name : list Z := [109; 97; 114; 103; 111].

Definition margo_get_unlock_code {L : ltc} {D : mstar_sys} (len : Z) (w : lw) : (Z * (list Z * Z)) * lw :=
  if len <? 16 + 1 then ((-1, ([], len)), w)
  else
    let '(ok, w) := MDrv_SYS_Init w in
    if negb ok then ((-1, ([], len)), w)
    else
      let '(did, w) := MDrv_SYS_GetEfuseDid w in
      match did with
      | None => ((-1, ([], len)), w)
      | Some (id0, id1, id2, _) =>
          let code := hex4 0 ++ hex4 id2 ++ hex4 id1 ++ hex4 id0 in
          ((0, (code, zlen code)), w)
      end.

(** The key of the unlock codes; sizeof counts the terminator of the literal. *)
Definition unlock_key : list Z :=
  [48; 130; 1; 34; 48; 13; 6; 9; 42; 134; 72; 134; 247; 13; 1; 1; 1; 5; 0; 3; 130; 1; 15; 0;
   48; 130; 1; 10; 2; 130; 1; 1; 0; 211; 80; 231; 88; 37; 121; 18; 155; 7; 220; 201; 208; 234;
   168; 149; 125; 32; 199; 94; 67; 225; 116; 74; 45; 255; 226; 222; 120; 103; 110; 73; 87; 79;
   205; 222; 118; 82; 187; 221; 45; 187; 14; 70; 201; 66; 28; 193; 191; 34; 61; 99; 133; 101;
   181; 101; 238; 123; 118; 122; 19; 194; 204; 113; 230; 231; 121; 63; 121; 111; 209; 121; 139;
   192; 127; 94; 21; 237; 151; 166; 203; 76; 154; 199; 198; 73; 33; 65; 58; 108; 61; 207; 24;
   114; 40; 134; 31; 134; 228; 116; 144; 237; 211; 6; 153; 74; 138; 34; 140; 112; 167; 172; 98;
   111; 216; 118; 114; 30; 184; 96; 174; 93; 235; 144; 42; 34; 136; 104; 185; 31; 40; 56; 43;
   194; 47; 120; 76; 176; 125; 141; 23; 166; 58; 113; 122; 16; 243; 205; 102; 64; 211; 166;
   179; 61; 67; 72; 43; 159; 221; 164; 77; 104; 12; 57; 48; 107; 108; 97; 7; 185; 175; 116; 5;
   48; 165; 227; 22; 55; 195; 229; 17; 141; 7; 241; 121; 226; 180; 22; 117; 36; 205; 217; 25;
   153; 46; 193; 170; 171; 227; 245; 200; 67; 236; 182; 133; 6; 239; 251; 248; 207; 71; 236;
   104; 21; 93; 49; 69; 82; 232; 82; 148; 233; 126; 201; 181; 173; 24; 125; 196; 40; 11; 39;
   65; 46; 14; 19; 18; 36; 176; 174; 21; 143; 50; 159; 242; 196; 228; 128; 14; 16; 13; 84; 229;
   52; 88; 129; 31; 2; 3; 1; 0; 1; 0].
Definition margo_get_unlock_key : option (list Z * Z) := Some (unlock_key, 295).

#[export] Instance margo_target {L : ltc} {D : mstar_sys} : target :=
  {| amzn_target_device_name := margo_device_name; amzn_target_device_type := margo_device_type |}.
#[export] Instance margo_unlock {L : ltc} {D : mstar_sys} : unlock_target :=
  {| amzn_plat_alloc := plat_alloc;
     amzn_get_unlock_code := margo_get_unlock_code;
     amzn_get_limited_unlock_code := weak_get_limited_unlock_code margo_get_unlock_code;
     amzn_get_unlock_key := margo_get_unlock_key |}.

Definition target_is_production {T : target} : Z :=
  if AMZN_PRODUCTION_DEVICE =? amzn_target_device_type then 1 else 0.

(** ** The identity table and the library together *)

Section Unlock.
Context {L : ltc} {T : target} {U : unlock_target} {C : idme_config} {P : emmc_platform}.

Definition us : Type := idme_state * lw.
Notation um A := (prog us A).

Definition on_idme {A} (m : prog idme_state A) : um A := λ sw,
  match m (fst sw) with Some (a, s) => Some (a, (s, snd sw)) | None => None end.
Definition on_lib {A} (m : prog lw A) : um A := λ sw,
  match m (snd sw) with Some (a, w) => Some (a, (fst sw, w)) | None => None end.

(** ** unlock_ltc.c *)

(** The loop over the counters: [None] is the exit when there is no code.  [code_len] is what
    the last call left. *)
Fixpoint verify_loop (fuel : nat) (data : list Z) (unlock_key : rsa_key) (ctr_min ctr_max ctr ret status code_len : Z)
    : prog lw (option (Z * Z)) :=
  match fuel with
  | O => wrong
  | S fuel =>
      if (ctr <=? ctr_max) && (status <? 1) then
        '(ret, (code, code_len)) ← on_lw (if negb (ctr_min =? ctr_max) then amzn_get_limited_unlock_code code_len ctr
                                          else amzn_get_unlock_code code_len);
        if negb (ret =? 0) then mret None
        else
          code ← lift (blob_get code 0 code_len);
          let digest := sha256 code in
          let '(ret, status) := rsa_verify_hash data digest unlock_key status in
          verify_loop fuel data unlock_key ctr_min ctr_max (u32 (ctr + 1)) ret status code_len
      else mret (Some (ret, status))
  end.

Definition verify_code (data : list Z) (unlock_key : rsa_key) (ctr_min ctr_max : Z) : prog lw Z :=
  r ← verify_loop (Z.to_nat (ctr_max - ctr_min) + 2) data unlock_key ctr_min ctr_max ctr_min (-1) (-1) UNLOCK_CODE_LEN;
  mret (match r with
        | Some (ret, status) => if (ret =? 0) && (status =? 1) then 0 else -1
        | None => -1
        end).

(** rsa_key is an enumeration and eight pointers. *)
Definition sizeof_rsa_key : Z := 36.

(** [data] is not null: its bytes. *)
Definition amzn_verify_limited_unlock (data : list Z) (ctr_min ctr_max : Z) : prog lw Z :=
  match amzn_get_unlock_key with
  | None => mret (-1)
  | Some (key, key_len) =>
      if key_len =? 0 then mret (-1)
      else
        ok ← on_lw (amzn_plat_alloc sizeof_rsa_key);
        if negb ok then mret (-1)
        else
          key ← lift (blob_get key 0 key_len);
          match rsa_import key with
          | None => mret (-1)
          | Some unlock_key => verify_code data unlock_key ctr_min ctr_max
          end
  end.

Definition amzn_verify_unlock (data : list Z) : prog lw Z := amzn_verify_limited_unlock data 0 0.

(** ** unlock.c and secure_boot_cfg.c *)

Definition amzn_target_is_unlocked : um Z :=
  let signed_code := replicate 256 0 in
  '(r, bytes) ← on_idme (idme_get_var_external unlock_code_name SIGNED_UNLOCK_CODE_LEN);
  if r =? 0 then
    r ← on_lib (amzn_verify_unlock (over signed_code (default [] bytes)));
    mret (if r =? 0 then 1 else 0)
  else mret 0.

Definition amzn_device_is_unlocked : um Z :=
  let signed_code := replicate 256 0 in
  '(r, bytes) ← on_idme (idme_get_var_external unlock_code_name SIGNED_UNLOCK_CODE_LEN);
  if r =? 0 then
    r ← on_lib (amzn_verify_unlock (over signed_code (default [] bytes)));
    mret (if r =? 0 then 1 else 0)
  else mret 0.

(** ** image_verify.c *)

(** The bits the device adds to an image: one if it is an engineering device, one if it is
    unlocked. *)
Definition device_bits (auth eng unlocked : Z) : um Z :=
  let auth := if amzn_target_device_type =? AMZN_ENGINEERING_DEVICE then auth .| eng else auth in
  u ← amzn_target_is_unlocked;
  mret (if negb (u =? 0) then auth .| unlocked else auth).

Definition amzn_image_verify_safe (image signature : list Z) (image_size : Z) (handler : meta_data_handler) : um Z :=
  ok ← on_lib (on_lw (amzn_plat_alloc SHA256_DIGEST_LENGTH));
  if negb ok then mret AMZN_IMAGE_BAD
  else
    image ← lift (blob_get image 0 image_size);
    let digest := amzn_target_sha256 image in
    r ← on_lib (amzn_verify_image AMZN_PRODUCTION_CERT digest signature handler);
    if negb (r =? 0) then
      r ← on_lib (amzn_verify_image AMZN_ENGINEERING_CERT digest signature handler);
      if negb (r =? 0) then device_bits AMZN_IMAGE_BAD AMZN_IMAGE_UNSIGNED_ENG AMZN_IMAGE_UNSIGNED_UNLOCKED
      else device_bits (AMZN_IMAGE_BAD .| AMZN_IMAGE_DEVSIGNED) AMZN_IMAGE_DEVSIGNED_ENG AMZN_IMAGE_DEVSIGNED_UNLOCKED
    else mret AMZN_IMAGE_SIGNED.

Definition amzn_image_verify (image signature : list Z) (image_size : Z) (handler : meta_data_handler) : um Z :=
  resp ← amzn_image_verify_safe image signature image_size handler;
  mret (if negb (resp .& (AMZN_IMAGE_SIGNED .| AMZN_IMAGE_DEVSIGNED_ENG) =? 0) then 1 else 0).

(** ** bootm (common/cmd_bootm.c), the case of an Android image

    The memory from the start of the image on; the signature is at its end.  1 is the
    failure of bootm, 0 goes on to boot. *)
Definition bootm_verify (mem : list Z) (image_size : Z) : um Z :=
  unlocked ← amzn_device_is_unlocked;
  if unlocked =? 0 then
    r ← amzn_image_verify mem (drop (Z.to_nat image_size) mem) image_size None;
    mret (if r =? 0 then 1 else 0)
  else mret 0.

(** ** Lockdown (MstarApp/src/MsUtility.c) *)

Definition is_lockdown (bootmode : option (list Z)) : um Z :=
  ibootmode ← lift (ub_atoi bootmode);
  u ← amzn_device_is_unlocked;
  mret (if (u =? 0) && negb (target_is_production =? 0) && (ibootmode =? 1) then 1 else 0).

(** strncmp(s, command, strlen(s)): whether the command begins with it; the terminator of the
    command ends the comparison. *)
Definition starts (s command : list Z) : option bool :=
  r ← idme_strncmp (s ++ [0]) command (length s); Some (r =? 0).
Fixpoint starts_any (l : list (list Z)) (command : list Z) : option bool :=
  match l with
  | [] => Some false
  | s :: l => b ← starts s command; if (b : bool) then Some true else starts_any l command
  end.

Definition console_commands : list (list Z) := [txt "fastboot"; txt "reset"; txt "usb"; txt "estar"].
Definition chk_cmd_lockdown (bootmode : option (list Z)) (command : list Z) : um Z :=
  r ← is_lockdown bootmode;
  if negb (r =? 0) then
    b ← lift (starts_any console_commands command);
    mret (if (b : bool) then 1 else 0)
  else mret 1.

(** ** amzn_fastboot_lockdown.c *)

(** The lists a product may add are arguments. *)
Definition lockdown_whitelist : list (list Z) := [txt "oem relock"; txt "oem flags"; txt "flash:unlock"].
Definition lockdown_blacklist : list (list Z) :=
  [txt "verify"; txt "dump"; txt "erase"; txt "boot"; txt "env"; txt "signature"; txt "oem"; txt "flash"].

Definition is_locked_production_device : um Z :=
  if AMZN_PRODUCTION_DEVICE =? amzn_target_device_type then
    u ← amzn_target_is_unlocked; mret (if u =? 0 then 1 else 0)
  else mret 0.

Fixpoint memcmp_any (l : list (list Z)) (buffer : list Z) : option bool :=
  match l with
  | [] => Some false
  | s :: l => b ← memcmp_eq buffer s; if (b : bool) then Some true else memcmp_any l buffer
  end.

Definition is_restricted_command_on_locked_hw (more_white more_black : list (list Z)) (buffer : list Z) : um Z :=
  locked ← is_locked_production_device;
  if locked =? 0 then mret 0
  else
    b ← lift (memcmp_any lockdown_whitelist buffer);
    if (b : bool) then mret 0
    else
      b ← lift (memcmp_any more_white buffer);
      if (b : bool) then mret 0
      else
        b ← lift (memcmp_any lockdown_blacklist buffer);
        if (b : bool) then mret 1
        else
          b ← lift (memcmp_any more_black buffer);
          mret (if (b : bool) then 1 else 0).

(** ** fastboot (common/cmd_fastboot.c) *)

(** cmd_dispatch_info *)
Inductive fb_cb : Type :=
  | cmd_reboot_bootloader | cmd_reboot | cmd_getvar | cmd_download_start | cmd_flash_cb | cmd_erase
  | cmd_oem_idme | cmd_oem_bootmode_cb | cmd_oem_flags_cb | cmd_oem_relock_cb.
#[global] Instance fb_cb_eq_dec : EqDecision fb_cb.
Proof. solve_decision. Defined.

Definition cmd_dispatch_info : list (list Z * fb_cb) :=
  [(txt "reboot-bootloader", cmd_reboot_bootloader); (txt "reboot", cmd_reboot); (txt "getvar:", cmd_getvar);
   (txt "download:", cmd_download_start); (txt "flash:", cmd_flash_cb); (txt "erase:", cmd_erase);
   (txt "oem idme", cmd_oem_idme); (txt "oem bootmode", cmd_oem_bootmode_cb); (txt "oem flags", cmd_oem_flags_cb);
   (txt "oem relock", cmd_oem_relock_cb)].

Fixpoint fb_lookup (l : list (list Z * fb_cb)) (cmdbuf : list Z) : option (option (list Z * fb_cb)) :=
  match l with
  | [] => Some None
  | (cmd, cb) :: l => b ← starts cmd cmdbuf; if (b : bool) then Some (Some (cmd, cb)) else fb_lookup l cmdbuf
  end.

(** What the handler of a command does: an error of its own, or a call with the rest of the
    command. *)
Inductive fb_action : Type :=
  | FbTooLong | FbLockdown | FbUnknown | FbCall (cb : fb_cb) (arg : list Z) (len : Z).

Definition lockdown_allows (cb : option fb_cb) : bool :=
  bool_decide (cb = Some cmd_reboot_bootloader) || bool_decide (cb = Some cmd_reboot) ||
  bool_decide (cb = Some cmd_getvar) || bool_decide (cb = Some cmd_flash_cb) || bool_decide (cb = Some cmd_download_start).

(** strncpy stops at a terminator; another one is added. *)
Fixpoint until_nul (s : list Z) : list Z :=
  match s with [] => [] | c :: s => if c =? 0 then [] else c :: until_nul s end.
Definition fb_cmdbuf (buffer : list Z) (buffer_len : Z) : option (list Z) :=
  b ← blob_get buffer 0 buffer_len; Some (until_nul b ++ [0]).

Definition fb_handler_command (bootmode : option (list Z)) (buffer : list Z) (buffer_len : Z) : um fb_action :=
  if 1024 <=? buffer_len then mret FbTooLong
  else
    cmdbuf ← lift (fb_cmdbuf buffer buffer_len);
    found ← lift (fb_lookup cmd_dispatch_info cmdbuf);
    r ← is_lockdown bootmode;
    if negb (r =? 0) && negb (lockdown_allows (snd <$> found)) then mret FbLockdown
    else
      match found with
      | None => mret FbUnknown
      | Some (cmd, cb) => mret (FbCall cb (drop (length cmd) cmdbuf) (buffer_len - zlen cmd))
      end.

(** cmd_flash up to the partitions: the download, and what it ends with; [FlashOther] goes on. *)
Inductive flash_result : Type :=
  | FlashMissing | FlashCodeError | FlashUnlockFailed | FlashUnlocked | FlashLockdown | FlashOther.

Definition cmd_flash (bootmode : option (list Z)) (buffer : list Z) (buffer_len : Z) (download : list Z) (received : Z)
    : um flash_result :=
  if buffer_len =? 0 then mret FlashMissing
  else
    b ← lift (starts (txt "unlock") buffer);
    if (b : bool) then
      code ← lift (blob_get download 0 received);
      r ← on_lib (amzn_verify_unlock code);
      if negb (r =? 0) then mret FlashCodeError
      else
        r ← on_idme (idme_update_var_ex unlock_code_name download SIGNED_UNLOCK_CODE_LEN);
        mret (if negb (r =? 0) then FlashUnlockFailed else FlashUnlocked)
    else
      r ← is_lockdown bootmode;
      mret (if negb (r =? 0) then FlashLockdown else FlashOther).

(** Whether the relock succeeds. *)
Definition cmd_oem_relock : um bool :=
  let buf_1 := replicate 256 0 in
  r ← on_idme (idme_update_var_ex unlock_code_name buf_1 SIGNED_UNLOCK_CODE_LEN);
  mret (r =? 0).
End Unlock.
