(* ===== verification/UnlockThm.v ===== *)
(** * UnlockThm: what boots, what unlocks, and what lockdown lets through *)

From stdpp Require Import strings.
From S2P Require Import Prelude Idme IdmeThm IdmeCmd IdmeLife SecureBoot SecureBootThm SecureBootVerify Unlock.

(** Without the terminator. *)
Definition unlock_item : list Z := [117; 110; 108; 111; 99; 107; 95; 99; 111; 100; 101].

Section unlock.
Context {L : ltc} {T : target} {U : unlock_target} {C : idme_config} {P : emmc_platform} {EL : emmc_laws P}.
Implicit Types (s : idme_state) (w : lw) (its : list item).

Lemma post_on_lib {A} (m : prog lw A) (Q : A → us → Prop) s w :
  post m (λ a w', Q a (s, w')) w → post (on_lib m) Q (s, w).
Proof. intros H a sw. unfold on_lib. cbn. destruct (m w) as [[a' w']|] eqn:E; [|done]. intros [= <- <-]. by apply H. Qed.
Lemma wp_on_lib {A} (m : prog lw A) (Q : A → us → Prop) s w :
  wp m (λ a w', Q a (s, w')) w → wp (on_lib m) Q (s, w).
Proof. unfold wp, on_lib. cbn. by destruct (m w) as [[a' w']|]. Qed.
Lemma wp_on_idme {A} (m : prog idme_state A) (Q : A → us → Prop) s w :
  wp m (λ a s', Q a (s', w)) s → wp (on_idme m) Q (s, w).
Proof. unfold wp, on_idme. cbn. by destruct (m s) as [[a' s']|]. Qed.
Lemma post_on_lw {A} (f : lw → A * lw) (Q : A → lw → Prop) w : (∀ a w', f w = (a, w') → Q a w') → post (on_lw f) Q w.
Proof. intros H a w'. unfold on_lw. destruct (f w). intros [= <- <-]. by apply H. Qed.
Lemma wp_on_lw {A} (f : lw → A * lw) (Q : A → lw → Prop) w a w' : f w = (a, w') → Q a w' → wp (on_lw f) Q w.
Proof. intros E HQ. unfold wp, on_lw. by rewrite E. Qed.

(** ** Unlock codes *)

(** The key the codes are signed with, and a code the device has given. *)
Definition unlock_pubkey : option rsa_key :=
  '(key, len) ← amzn_get_unlock_key; b ← blob_get key 0 len; rsa_import b.
Definition device_code (code : list Z) : Prop :=
  ∃ len w w' c n, amzn_get_unlock_code len w = ((0, (c, n)), w') ∧ blob_get c 0 n = Some code.
Definition code_signed (data : list Z) : Prop :=
  ∃ k code, unlock_pubkey = Some k ∧ device_code code ∧ rsa_verify_hash data (sha256 code) k (-1) = (0, 1).

Lemma verify_unlock_sound data w : post (amzn_verify_unlock data) (λ r _, r = 0 → code_signed data) w.
Proof.
  unfold amzn_verify_unlock, amzn_verify_limited_unlock.
  destruct amzn_get_unlock_key as [[key len]|] eqn:Ek; [|by apply post_ret].
  destruct (len =? 0); [by apply post_ret|]. apply post_bind, post_on_lw. intros ok w1 _.
  destruct ok; cbn [negb]; [|by apply post_ret]. apply post_bind, post_lift. intros kb Hkb.
  destruct (rsa_import kb) as [k|] eqn:Ei; [|by apply post_ret].
  assert (Hk : unlock_pubkey = Some k) by (unfold unlock_pubkey; rewrite Ek; cbn; by rewrite Hkb).
  unfold verify_code. cbn [Z.sub Z.to_nat Nat.add verify_loop Z.leb Z.ltb Z.compare andb Z.eqb negb Z.opp Z.add].
  apply post_bind, post_bind, post_on_lw. intros [ret [c n]] w2 Ec.
  destruct (Z.eqb_spec ret 0) as [->|]; cbn [negb]; [|by apply post_ret, post_ret].
  apply post_bind, post_lift. intros code Hc. destruct (rsa_verify_hash _ _ _ _) as [ret st] eqn:Ev.
  change (u32 (0 + 1) <=? 0) with false. cbn [andb]. apply post_ret, post_ret.
  destruct (Z.eqb_spec ret 0) as [->|], (Z.eqb_spec st 1) as [->|]; try done. intros _.
  exists k, code. split_and!; try done. by exists UNLOCK_CODE_LEN, w1, w2, c, n.
Qed.

(** The device with its number and memory: the code, the key. *)
Class unlock_laws : Type :=
  { the_code : list Z;
    the_key : rsa_key;
    code_law len w : 17 ≤ len → ∃ c n w', amzn_get_unlock_code len w = ((0, (c, n)), w') ∧ blob_get c 0 n = Some the_code;
    key_law : unlock_pubkey = Some the_key;
    key_len_law key len : amzn_get_unlock_key = Some (key, len) → len ≠ 0;
    alloc_law n w : fst (amzn_plat_alloc n w) = true }.

Definition valid_code {UL : unlock_laws} (data : list Z) : bool :=
  bool_decide (rsa_verify_hash data (sha256 the_code) the_key (-1) = (0, 1)).

Lemma wp_verify_unlock {UL : unlock_laws} data (Q : Z → lw → Prop) w :
  (∀ w', Q (if valid_code data then 0 else -1) w') → wp (amzn_verify_unlock data) Q w.
Proof.
  intros HQ. unfold amzn_verify_unlock, amzn_verify_limited_unlock. pose proof key_law as Hk. unfold unlock_pubkey in Hk.
  destruct amzn_get_unlock_key as [[key len]|] eqn:Ek; [|done]. cbn in Hk. apply key_len_law in Ek as Hl.
  rewrite (proj2 (Z.eqb_neq _ _) Hl). destruct (blob_get key 0 len) as [kb|] eqn:Hkb; [|done]. cbn in Hk.
  pose proof (alloc_law sizeof_rsa_key w) as Ha. destruct (amzn_plat_alloc sizeof_rsa_key w) as [ok w1] eqn:Ea.
  cbn in Ha. subst ok. apply wp_bind. eapply wp_on_lw; [done|]. cbn [negb].
  apply wp_bind. eapply wp_lift; [done|]. rewrite Hk.
  unfold verify_code. cbn [Z.sub Z.to_nat Nat.add verify_loop Z.leb Z.ltb Z.compare andb Z.eqb negb Z.opp Z.add].
  apply wp_bind, wp_bind. destruct (code_law UNLOCK_CODE_LEN w1) as (c & n & w2 & Ec & Hc); [done|].
  eapply wp_on_lw; [done|]. cbn [Z.eqb negb]. apply wp_bind. eapply wp_lift; [done|].
  specialize (HQ w2). unfold valid_code in HQ. destruct (rsa_verify_hash _ _ _ _) as [ret st] eqn:Ev.
  change (u32 (0 + 1) <=? 0) with false. cbn [andb]. apply wp_ret, wp_ret.
  destruct (Z.eqb_spec ret 0) as [->|], (Z.eqb_spec st 1) as [->|]; cbn [andb].
  - by rewrite bool_decide_true in HQ.
  - by rewrite bool_decide_false in HQ by congruence.
  - by rewrite bool_decide_false in HQ by congruence.
  - by rewrite bool_decide_false in HQ by congruence.
Qed.

(** ** The device *)

(** The code in the table, as the device reads it. *)
Definition stored_code its : option (list Z) := (λ v, over (replicate 256 0) (take 256 v)) <$> find_value unlock_item its.

Lemma wp_get_code version its rest (Q : Z * option (list Z) → idme_state → Prop) s : loaded s version its rest →
  Q (match find_value unlock_item its with Some v => (0, Some (take 256 v)) | None => (-1, None) end) s →
  wp (idme_get_var_external unlock_code_name SIGNED_UNLOCK_CODE_LEN) Q s.
Proof.
  intros Hs HQ. unfold idme_get_var_external. apply wp_bind, wp_gets. pose proof Hs as (_ & -> & _). cbn [negb].
  eapply (wp_get_var unlock_item 256); [done|by repeat constructor|simpl; lia|done|done].
Qed.

Lemma target_is_device : amzn_target_is_unlocked = amzn_device_is_unlocked.
Proof. done. Qed.

(** Reading the lock leaves the table alone, and says open only for a signed code. *)
Lemma is_unlocked_sound version its rest s w : loaded s version its rest →
  post amzn_device_is_unlocked
    (λ r sw, fst sw = s ∧ (r ≠ 0 → ∃ c, stored_code its = Some c ∧ code_signed c)) (s, w).
Proof.
  intros Hs. unfold amzn_device_is_unlocked. apply post_bind, post_of_wp, wp_on_idme. eapply wp_get_code; [done|].
  unfold stored_code. destruct (find_value unlock_item its) as [v|]; cbn [Z.eqb]; [|by apply post_ret].
  apply post_bind, post_on_lib. eapply post_mono; [apply verify_unlock_sound|]. intros r w' Hr. apply post_ret.
  split; [done|]. destruct (Z.eqb_spec r 0) as [->|]; [|done]. intros _. eexists. split; [done|]. by apply Hr.
Qed.

Lemma wp_is_unlocked {UL : unlock_laws} version its rest s w (Q : Z → us → Prop) : loaded s version its rest →
  (∀ w', Q (match stored_code its with Some c => if valid_code c then 1 else 0 | None => 0 end) (s, w')) →
  wp amzn_device_is_unlocked Q (s, w).
Proof.
  intros Hs HQ. unfold amzn_device_is_unlocked. apply wp_bind, wp_on_idme. eapply wp_get_code; [done|].
  unfold stored_code in HQ. destruct (find_value unlock_item its) as [v|]; cbn [Z.eqb]; [|by apply wp_ret].
  apply wp_bind, wp_on_lib, wp_verify_unlock. intros w'. apply wp_ret. cbn in HQ. specialize (HQ w').
  by destruct (valid_code _).
Qed.

(** ** Images *)

Lemma device_bits_sound version its rest auth eng unl s w : loaded s version its rest →
  post (device_bits auth eng unl) (λ r sw, fst sw = s ∧
    ∃ b : bool, let a := if amzn_target_device_type =? AMZN_ENGINEERING_DEVICE then auth .| eng else auth in
      r = if b then a .| unl else a) (s, w).
Proof.
  intros Hs. unfold device_bits. apply post_bind. rewrite target_is_device. eapply post_mono; [by eapply is_unlocked_sound|].
  intros u [s' w'] [Es _]. cbn in Es. subst s'. apply post_ret. split; [done|]. by exists (negb (u =? 0)).
Qed.

(** An image that is authentic for this device. *)
Definition trusted (image cert : list Z) (handler : meta_data_handler) : Prop :=
  accepted AMZN_PRODUCTION_CERT (sha256 image) cert handler ∨
  amzn_target_device_type = AMZN_ENGINEERING_DEVICE ∧ accepted AMZN_ENGINEERING_CERT (sha256 image) cert handler.

Lemma image_verify_sound {HL : ltc_laws} version its rest image sig n handler s w : loaded s version its rest →
  post (amzn_image_verify image sig n handler)
    (λ r _, r ≠ 0 → ∃ b, blob_get image 0 n = Some b ∧ trusted b sig handler) (s, w).
Proof.
  intros Hs. unfold amzn_image_verify, amzn_image_verify_safe. apply post_bind, post_bind, post_on_lib.
  intros ok w1 _. destruct ok; cbn [negb]; [|by apply post_ret, post_ret].
  apply post_bind, post_lift. intros b Hb. unfold amzn_target_sha256, trusted.
  apply post_bind, post_on_lib. eapply post_mono; [apply verify_image_post, sha_bytes|]. intros r w2 Hp.
  destruct (Z.eqb_spec r 0) as [->|]; cbn [negb].
  { apply post_ret, post_ret. intros _. exists b. split; [done|]. left. by apply Hp. }
  apply post_bind, post_on_lib. eapply post_mono; [apply verify_image_post, sha_bytes|]. intros r2 w3 He.
  destruct (Z.eqb_spec r2 0) as [->|]; cbn [negb].
  all: eapply post_mono; [by eapply device_bits_sound|]; intros resp [s' w4] (_ & u & ->); apply post_ret.
  all: destruct (Z.eqb_spec amzn_target_device_type AMZN_ENGINEERING_DEVICE); destruct u; cbn; try done.
  all: intros _; exists b; split; [done|]; right; split; [done|]; by apply He.
Qed.

(** C1: bootm boots an Android image only if the code stored in the identity table is a signature
    of a code of the device under the unlock key, or the image is trusted: the certificate behind
    it is authentic for its digest under the production root, or under the engineering root on an
    engineering device. *)
Theorem bootm_boots_only_trusted {HL : ltc_laws} version its rest mem n s w sw : loaded s version its rest →
  bootm_verify mem n (s, w) = Some (0, sw) →
  (∃ c, stored_code its = Some c ∧ code_signed c) ∨
  (∃ image, blob_get mem 0 n = Some image ∧ trusted image (drop (Z.to_nat n) mem) None).
Proof.
  intros Hs. cut (post (bootm_verify mem n) (λ r _, r = 0 → (∃ c, stored_code its = Some c ∧ code_signed c) ∨
    (∃ image, blob_get mem 0 n = Some image ∧ trusted image (drop (Z.to_nat n) mem) None)) (s, w)).
  { intros H E. by eapply H. }
  unfold bootm_verify. apply post_bind. eapply post_mono; [by eapply is_unlocked_sound|]. intros u [s' w'] [Es Hu].
  cbn in Es. subst s'. destruct (Z.eqb_spec u 0) as [->|Hn]; [|apply post_ret; intros _; left; by apply Hu].
  apply post_bind. eapply post_mono; [by eapply image_verify_sound|]. intros r sw' Hr. apply post_ret.
  destruct (Z.eqb_spec r 0); [done|]. intros _. right. by apply Hr.
Qed.

(** ** Unlock and relock *)

Definition zero_code : list Z := replicate 256 0.

Lemma take_fill (n k : nat) (v : list Z) : (length v = k)%nat → (k ≤ n)%nat → take k (fill n v) = v.
Proof. intros <- Hn. unfold fill. rewrite (take_ge v) by done. apply take_app_length. Qed.

Lemma stored_set its v data : find_value unlock_item its = Some v → 256 ≤ zlen v → zlen data = 256 →
  stored_code (set_value unlock_item data <$> its) = Some data.
Proof.
  intros Hf Hv Hd. unfold stored_code. rewrite find_value_set, decide_True, Hf by done. cbn [fmap option_fmap option_map]. f_equal.
  rewrite take_fill by lia. unfold over. rewrite drop_ge; [by rewrite app_nil_r|]. rewrite length_replicate. lia.
Qed.

Lemma wp_update_code (Hw : emmc_works) version its rest v data s w (Q : Z → us → Prop) : loaded s version its rest →
  find_value unlock_item its = Some v → 256 ≤ zlen v → 256 ≤ zlen data → Forall (λ c, is_u8 c) data →
  (∀ s', loaded s' version (set_value unlock_item (take 256 data) <$> its) rest → Q 0 (s', w)) →
  wp (on_idme (idme_update_var_ex unlock_code_name data SIGNED_UNLOCK_CODE_LEN)) Q (s, w).
Proof.
  intros Hs Hf Hv Hd Hb HQ. apply wp_on_idme.
  eapply wp_mono; [eapply (wp_update_var_ex Hw unlock_item data 256); try done; [by repeat constructor|simpl; lia|]|].
  - intros v' Hv'. rewrite Hf in Hv'. injection Hv' as <-. unfold MIN. case_match; lia.
  - intros r s' [-> Hl]. destruct (decide _) as [_|Hn]; [by apply HQ|].
    apply find_value_None in Hn. congruence.
Qed.

(** Setting the item again overwrites it. *)
Lemma set_value_twice name a b its : set_value name b <$> (set_value name a <$> its) = set_value name b <$> its.
Proof.
  rewrite <- list_fmap_compose. apply list_fmap_ext. intros i it _. cbn. unfold set_value.
  destruct (decide (it_name it = name)) as [E|E]; cbn; [|by rewrite decide_False].
  rewrite decide_True by done. cbn. by rewrite length_value_fill.
Qed.

Definition unlock_then_relock (bootmode : option (list Z)) (download : list Z) : prog us (flash_result * Z * bool * Z) :=
  r ← cmd_flash bootmode (txt "unlock" ++ [0]) 6 download 256;
  u1 ← amzn_device_is_unlocked;
  ok ← cmd_oem_relock;
  u2 ← amzn_device_is_unlocked;
  mret (r, u1, ok, u2).

(** C10: unlocking works and can be undone: flashing a signed code as the partition unlock succeeds
    and the device is unlocked afterwards, whatever the boot mode; oem relock then succeeds and
    the device is locked again, with nothing but the item of the code changed. *)
Theorem unlock_relock {UL : unlock_laws} (Hw : emmc_works) version its rest v bootmode download s w :
  loaded s version its rest → find_value unlock_item its = Some v → 256 ≤ zlen v →
  zlen download = 256 → Forall (λ c, is_u8 c) download →
  valid_code download = true → valid_code zero_code = false →
  wp (unlock_then_relock bootmode download) (λ r sw,
    r = (FlashUnlocked, 1, true, 0) ∧ loaded (fst sw) version (set_value unlock_item zero_code <$> its) rest) (s, w).
Proof.
  intros Hs Hf Hv Hd Hb Hok Hz. unfold unlock_then_relock, cmd_flash. cbn [Z.eqb].
  apply wp_bind, wp_bind. eapply wp_lift; [reflexivity|]. apply wp_bind. eapply wp_lift.
  { apply (blob_get_mid download [] download []); rewrite ?app_nil_r; done. }
  apply wp_bind, wp_on_lib, wp_verify_unlock. intros w1. rewrite Hok. cbn [Z.eqb negb].
  apply wp_bind. eapply (wp_update_code Hw); try done; [lia|]. intros s1 Hs1. rewrite take_ge in Hs1 by lia. apply wp_ret. cbn [Z.eqb negb].
  apply wp_bind. eapply wp_is_unlocked; [done|]. intros w2. rewrite (stored_set _ _ _ Hf) by done. rewrite Hok.
  assert (Hf1 : find_value unlock_item (set_value unlock_item download <$> its) = Some (fill (length v) download))
    by (by rewrite find_value_set, decide_True, Hf).
  assert (Hl1 : 256 ≤ zlen (fill (length v) download)) by (by rewrite length_value_fill).
  unfold cmd_oem_relock. apply wp_bind, wp_bind. eapply (wp_update_code Hw); try done.
  { by apply Forall_replicate. }
  intros s2 Hs2. rewrite take_ge in Hs2 by done. apply wp_ret. apply wp_bind. eapply wp_is_unlocked; [done|]. intros w3.
  rewrite (stored_set _ _ _ Hf1) by done. unfold zero_code in Hz. rewrite Hz. apply wp_ret. split; [done|].
  rewrite set_value_twice in Hs2. done.
Qed.

(** ** Lockdown *)

Definition locked {UL : unlock_laws} its : bool :=
  match stored_code its with Some c => negb (valid_code c) | None => true end.

Lemma wp_is_lockdown {UL : unlock_laws} version its rest bootmode m s w (Q : Z → us → Prop) : loaded s version its rest →
  ub_atoi bootmode = Some m →
  (∀ w', Q (if locked its && negb (target_is_production =? 0) && (m =? 1) then 1 else 0) (s, w')) →
  wp (is_lockdown bootmode) Q (s, w).
Proof.
  intros Hs Hm HQ. unfold is_lockdown. apply wp_bind. eapply wp_lift; [done|]. apply wp_bind.
  eapply wp_is_unlocked; [done|]. intros w'. apply wp_ret. specialize (HQ w'). unfold locked in HQ.
  destruct (stored_code its) as [c|]; [|done]. by destruct (valid_code c).
Qed.

Lemma starts_ok p c : chars p → chars c → starts p (c ++ [0]) = Some (bool_decide (p `prefix_of` c)).
Proof.
  intros Hp. unfold starts. revert c. induction Hp as [|x p [Hx Hx0] _ IH]; intros c Hc.
  { cbn. by rewrite bool_decide_true by apply prefix_nil. }
  apply (proj2 (Z.eqb_neq _ _)) in Hx0. cbn [app length]. destruct Hc as [|y c [Hy Hy0] Hc]; cbn [app].
  - rewrite strncmp_step, Hx0 by (done || lia). cbn. unfold char_sub. rewrite char_diff, Hx0 by (done || lia).
    rewrite bool_decide_false; [done|]. by intros [? [=]].
  - rewrite strncmp_step, Hx0 by done. destruct (Z.eqb_spec x y) as [->|Hne]; cbn [negb orb].
    + rewrite IH by done. f_equal. apply bool_decide_ext. split; [apply prefix_cons|apply prefix_cons_inv_2].
    + cbn. unfold char_sub. rewrite char_diff, (proj2 (Z.eqb_neq _ _) Hne) by done.
      rewrite bool_decide_false; [done|]. intros H%prefix_cons_inv_1. congruence.
Qed.

Lemma until_nul_chars b : Forall (λ c, is_u8 c) b → chars (until_nul b).
Proof.
  induction 1 as [|c b Hc _ IH]; [constructor|]. cbn. destruct (Z.eqb_spec c 0); [constructor|]. by constructor.
Qed.

(** The entry of a command: the first whose name it begins with. *)
Fixpoint fb_entry (l : list (list Z * fb_cb)) (c : list Z) : option (list Z * fb_cb) :=
  match l with [] => None | (cmd, cb) :: l => if bool_decide (cmd `prefix_of` c) then Some (cmd, cb) else fb_entry l c end.

Lemma fb_lookup_ok l c : Forall (λ e, chars (fst e)) l → chars c → fb_lookup l (c ++ [0]) = Some (fb_entry l c).
Proof.
  intros Hl Hc. induction Hl as [|[cmd cb] l Hcmd _ IH]; [done|]. cbn [fb_lookup fb_entry].
  rewrite starts_ok by done. cbn [mbind option_bind]. by destruct (bool_decide _).
Qed.

Lemma dispatch_chars : Forall (λ e, chars (fst e)) cmd_dispatch_info.
Proof. by repeat constructor. Qed.

(** What fastboot answers in lockdown to a command line [c] of [len] bytes. *)
Definition lockdown_verdict (c : list Z) (len : Z) : fb_action :=
  if 1024 <=? len then FbTooLong
  else match fb_entry (take 5 cmd_dispatch_info) c with
       | Some (cmd, cb) => FbCall cb (drop (length cmd) c ++ [0]) (len - zlen cmd)
       | None => FbLockdown
       end.

Lemma lockdown_entry c : fb_entry cmd_dispatch_info c =
  match fb_entry (take 5 cmd_dispatch_info) c with Some e => Some e | None => fb_entry (drop 5 cmd_dispatch_info) c end.
Proof. cbn. by repeat case_match. Qed.
Lemma fb_entry_in l c e : fb_entry l c = Some e → e ∈ l ∧ fst e `prefix_of` c.
Proof.
  induction l as [|[cmd cb] l IH]; [done|]. cbn. case_bool_decide; [intros [= <-]; split; [by left|done]|].
  intros [? ?]%IH. split; [by right|done].
Qed.
Lemma entry_allowed c e : fb_entry (take 5 cmd_dispatch_info) c = Some e → lockdown_allows (Some (snd e)) = true.
Proof. intros [He _]%fb_entry_in. cbn in He. by repeat (apply elem_of_cons in He as [->|He]; [done|]); apply elem_of_nil in He. Qed.
Lemma entry_refused c : fb_entry (take 5 cmd_dispatch_info) c = None →
  lockdown_allows (snd <$> fb_entry (drop 5 cmd_dispatch_info) c) = false.
Proof.
  intros _. destruct (fb_entry (drop 5 _) c) as [e|] eqn:E; [|done].
  apply fb_entry_in in E as [He _]. cbn in He.
  by repeat (apply elem_of_cons in He as [->|He]; [done|]); apply elem_of_nil in He.
Qed.

(** A command and, where it is flash, its handler. *)
Definition fb_run (bootmode : option (list Z)) (buffer : list Z) (len : Z) (download : list Z) (received : Z)
    : prog us (fb_action * option flash_result) :=
  a ← fb_handler_command bootmode buffer len;
  match a with
  | FbCall cmd_flash_cb arg n => r ← cmd_flash bootmode arg n download received; mret (a, Some r)
  | _ => mret (a, None)
  end.

Section lockdown.
Context {UL : unlock_laws} (Hw : emmc_works) (version : list Z) its (rest : list Z) (bootmode : option (list Z)) s.
Context (Hs : loaded s version its rest) (Hprod : target_is_production = 1) (Hboot : ub_atoi bootmode = Some 1)
        (Hlock : locked its = true).

Lemma blob_get_take (b : list Z) n : 0 ≤ n ≤ zlen b → blob_get b 0 n = Some (take (Z.to_nat n) b).
Proof.
  intros Hn. apply (blob_get_mid b [] _ (drop (Z.to_nat n) b)); [cbn; by rewrite take_drop|done|]. rewrite length_take. lia.
Qed.

Lemma wp_handler_lockdown buffer len w : Forall (λ c, is_u8 c) buffer → 0 ≤ len ≤ zlen buffer →
  wp (fb_handler_command bootmode buffer len)
    (λ a sw, fst sw = s ∧ a = lockdown_verdict (until_nul (take (Z.to_nat len) buffer)) len) (s, w).
Proof.
  intros Hb Hlen. unfold fb_handler_command, lockdown_verdict. destruct (1024 <=? len); [by apply wp_ret|].
  set (c := until_nul (take (Z.to_nat len) buffer)).
  assert (Hc : chars c) by (apply until_nul_chars; by apply Forall_take).
  apply wp_bind. eapply (wp_lift _ (c ++ [0])); [unfold fb_cmdbuf; by rewrite blob_get_take|].
  apply wp_bind. eapply wp_lift; [apply fb_lookup_ok; [apply dispatch_chars|done]|].
  apply wp_bind. eapply wp_is_lockdown; [done|done|]. intros w'. rewrite Hlock, Hprod. cbn [Z.eqb negb andb].
  rewrite lockdown_entry. destruct (fb_entry (take 5 cmd_dispatch_info) c) as [[cmd cb]|] eqn:E.
  - apply entry_allowed in E as Ha. cbn [snd] in Ha. cbn [fmap option_fmap option_map snd]. rewrite Ha. cbn [negb].
    apply wp_ret. split; [done|]. f_equal. apply fb_entry_in in E as [_ Hp%prefix_length]. by rewrite drop_app_le.
  - rewrite entry_refused by done. by apply wp_ret.
Qed.

Lemma wp_flash_lockdown v a n download received w : chars a → find_value unlock_item its = Some v → 256 ≤ zlen v →
  Forall (λ c, is_u8 c) download → 256 ≤ zlen download → 0 ≤ received ≤ zlen download →
  wp (cmd_flash bootmode (a ++ [0]) n download received) (λ r sw, r ≠ FlashOther ∧
    (fst sw = s ∨ r = FlashUnlocked ∧ valid_code (take (Z.to_nat received) download) = true ∧
       loaded (fst sw) version (set_value unlock_item (take 256 download) <$> its) rest)) (s, w).
Proof.
  intros Ha Hf Hv Hd H256 Hr. unfold cmd_flash. destruct (n =? 0); [apply wp_ret; auto|].
  apply wp_bind. eapply wp_lift; [apply starts_ok; [by repeat constructor|done]|].
  destruct (bool_decide _).
  - apply wp_bind. eapply wp_lift; [by apply blob_get_take|].
    apply wp_bind, wp_on_lib, wp_verify_unlock. intros w'. destruct (valid_code _) eqn:Ev; cbn [Z.eqb negb]; [|apply wp_ret; auto].
    apply wp_bind. eapply (wp_update_code Hw); try done. intros s' Hs'. apply wp_ret. split; [done|]. by right.
  - apply wp_bind. eapply wp_is_lockdown; [done|done|]. intros w'. rewrite Hlock, Hprod. cbn. auto.
Qed.

(** C9: in lockdown, on a locked production device in the normal boot mode, fastboot answers every
    command: it runs reboot, getvar, download and flash and refuses all others; flash refuses every
    partition but unlock, and the identity table changes only when a signed code is flashed. *)
Theorem lockdown_commands v buffer len download received w :
  find_value unlock_item its = Some v → 256 ≤ zlen v →
  Forall (λ c, is_u8 c) buffer → 0 ≤ len ≤ zlen buffer →
  Forall (λ c, is_u8 c) download → 256 ≤ zlen download → 0 ≤ received ≤ zlen download →
  wp (fb_run bootmode buffer len download received) (λ '(a, r) sw,
    a = lockdown_verdict (until_nul (take (Z.to_nat len) buffer)) len ∧ r ≠ Some FlashOther ∧
    (fst sw = s ∨ r = Some FlashUnlocked ∧ valid_code (take (Z.to_nat received) download) = true ∧
       loaded (fst sw) version (set_value unlock_item (take 256 download) <$> its) rest)) (s, w).
Proof.
  intros Hf Hv Hb Hlen Hd H256 Hr. unfold fb_run. apply wp_bind. eapply wp_mono; [by apply wp_handler_lockdown|].
  intros a [s' w'] [Es Ea]. cbn in Es. subst s'.
  destruct a as [| | |cb arg n]; [by apply wp_ret; auto..|]. destruct cb; try by (apply wp_ret; auto).
  assert (Harg : ∃ a, arg = a ++ [0] ∧ chars a).
  { unfold lockdown_verdict in Ea. destruct (1024 <=? len); [done|]. destruct (fb_entry _ _) as [[cmd cb]|]; [|done].
    injection Ea as _ -> _. eexists. split; [done|]. apply Forall_drop, until_nul_chars. by apply Forall_take. }
  destruct Harg as (a & -> & Ha). apply wp_bind. eapply wp_mono; [by eapply wp_flash_lockdown|].
  intros r [s2 w2] [Hr1 Hr2]. apply wp_ret. split_and!; [done|congruence|]. destruct Hr2 as [|(-> & ?)]; auto.
Qed.
End lockdown.
End unlock.

(** ** The lists of amzn_fastboot_lockdown.c *)

Lemma memcmp_any_ok l buffer : Forall (λ s, (length s ≤ length buffer)%nat) l →
  memcmp_any l buffer = Some (bool_decide (Exists (λ s, s `prefix_of` buffer) l)).
Proof.
  assert (Hm : ∀ p q : list Z, (length q ≤ length p)%nat → memcmp_eq p q = Some (bool_decide (q `prefix_of` p))).
  { intros p q. revert p. induction q as [|y q IH]; intros p Hl.
    { rewrite (bool_decide_true ([] `prefix_of` p)) by apply prefix_nil. by destruct p. }
    destruct p as [|x p]; [simpl in Hl; lia|]. cbn. destruct (Z.eqb_spec x y) as [->|Hne].
    - rewrite IH by (simpl in Hl; lia). f_equal. apply bool_decide_ext. split; [apply prefix_cons|apply prefix_cons_inv_2].
    - rewrite bool_decide_false; [done|]. intros H%prefix_cons_inv_1. congruence. }
  induction 1 as [|s l Hs _ IH]; cbn [memcmp_any]; [by rewrite bool_decide_false by (rewrite Exists_nil; tauto)|]. rewrite Hm by done. cbn [mbind option_bind].
  destruct (bool_decide_reflect (s `prefix_of` buffer)); [by rewrite bool_decide_true by (by constructor)|].
  rewrite IH. f_equal. apply bool_decide_ext. rewrite Exists_cons. naive_solver.
Qed.

Section restricted.
Context {L : ltc} {T : target} {U : unlock_target} {C : idme_config} {P : emmc_platform} {EL : emmc_laws P}.

(** The filter of fastboot commands decides exactly as its lists say: on a locked production
    device a command is restricted if it begins with no entry of the white lists and with one of
    the black lists; on any other device nothing is. *)
Lemma restricted_exact {UL : unlock_laws} version its rest more_white more_black buffer s w : loaded s version its rest →
  Forall (λ p, (length p ≤ length buffer)%nat) (lockdown_whitelist ++ more_white ++ lockdown_blacklist ++ more_black) →
  wp (is_restricted_command_on_locked_hw more_white more_black buffer) (λ r sw, fst sw = s ∧
    (r = 0 ∨ r = 1) ∧
    (r = 1 ↔ locked its = true ∧ amzn_target_device_type = AMZN_PRODUCTION_DEVICE ∧
       ¬ Exists (λ p, p `prefix_of` buffer) (lockdown_whitelist ++ more_white) ∧
       Exists (λ p, p `prefix_of` buffer) (lockdown_blacklist ++ more_black))) (s, w).
Proof.
  intros Hs Hl. apply Forall_app in Hl as [Hl1 Hl]. apply Forall_app in Hl as [Hl2 Hl]. apply Forall_app in Hl as [Hl3 Hl4].
  unfold is_restricted_command_on_locked_hw. apply wp_bind.
  eapply (wp_mono _ (λ r sw, fst sw = s ∧ r = if locked its && (amzn_target_device_type =? AMZN_PRODUCTION_DEVICE) then 1 else 0)).
  { unfold is_locked_production_device. rewrite Z.eqb_sym. destruct (_ =? _); [|apply wp_ret; by rewrite andb_false_r].
    apply wp_bind. rewrite target_is_device. eapply wp_is_unlocked; [done|]. intros w'. apply wp_ret. split; [done|].
    rewrite andb_true_r. unfold locked. destruct (stored_code its) as [c|]; [|done]. by destruct (valid_code c). }
  intros r [s' w'] [Es ->]. cbn in Es. subst s'.
  destruct (locked its) eqn:El; cbn [andb Z.eqb]; [|apply wp_ret; split_and!; auto; split; [done|naive_solver]].
  destruct (Z.eqb_spec amzn_target_device_type AMZN_PRODUCTION_DEVICE); cbn [Z.eqb];
    [|apply wp_ret; split_and!; auto; split; [done|naive_solver]].
  do 2 (apply wp_bind; eapply wp_lift; [by apply memcmp_any_ok|]; case_bool_decide;
    [apply wp_ret; split_and!; auto; rewrite !Exists_app; split; [done|tauto]|]).
  apply wp_bind; eapply wp_lift; [by apply memcmp_any_ok|]; case_bool_decide;
    [apply wp_ret; split_and!; auto; rewrite !Exists_app; split; [tauto|done]|].
  apply wp_bind; eapply wp_lift; [by apply memcmp_any_ok|]; apply wp_ret; case_bool_decide; split_and!; auto;
    rewrite !Exists_app; split; first [done|tauto].
Qed.
End restricted.

(** ** The board

    A chip whose driver works keeps the promises: the code is its number in hexadecimal. *)

Section board.
Context {L : ltc} {D : mstar_sys}.

Definition chip_code (id : Z * Z * Z * Z) : list Z :=
  let '(id0, id1, id2, _) := id in hex4 0 ++ hex4 id2 ++ hex4 id1 ++ hex4 id0.

Definition margo_laws id k (Hinit : ∀ w, fst (MDrv_SYS_Init w) = true) (Hid : ∀ w, fst (MDrv_SYS_GetEfuseDid w) = Some id)
  (Halloc : ∀ n w, fst (plat_alloc n w) = true) (Hkey : rsa_import unlock_key = Some k) : unlock_laws.
Proof.
  refine {| the_code := chip_code id; the_key := k |}.
  - intros len w Hlen. cbn. unfold margo_get_unlock_code. destruct (Z.ltb_spec len (16 + 1)); [lia|].
    specialize (Hinit w). destruct (MDrv_SYS_Init w) as [ok w1]. cbn in Hinit. subst ok. cbn [negb].
    specialize (Hid w1). destruct (MDrv_SYS_GetEfuseDid w1) as [did w2]. cbn in Hid. subst did.
    destruct id as [[[id0 id1] id2] id3]. by eexists _, _, w2.
  - unfold unlock_pubkey. cbn [amzn_get_unlock_key margo_unlock margo_get_unlock_key mbind option_bind].
    replace (blob_get unlock_key 0 295) with (Some unlock_key) by (by vm_compute). done.
  - by intros key len [= <- <-].
  - done.
Defined.

(** A range of counters is not searched here: verify_code does not reset the length of its
    buffer, which the first call sets to 16, and the second call refuses it. *)
Lemma limited_unlock_stops id k data w c max : (∀ w, fst (MDrv_SYS_Init w) = true) →
  (∀ w, fst (MDrv_SYS_GetEfuseDid w) = Some id) → 0 ≤ c < max → max < 2 ^ 32 - 1 →
  rsa_verify_hash data (sha256 (chip_code id)) k (-1) = (0, 0) →
  wp (verify_code data k c max) (λ r _, r = -1) w.
Proof.
  intros Hinit Hid Hc Hmax Hv. unfold verify_code.
  replace (Z.to_nat (max - c) + 2)%nat with (S (S (Z.to_nat (max - c)))) by lia. cbn [verify_loop].
  rewrite (proj2 (Z.leb_le c max)), (proj2 (Z.eqb_neq c max)) by lia. cbn [Z.ltb Z.compare andb negb].
  apply wp_bind, wp_bind. unfold amzn_get_limited_unlock_code, margo_unlock, weak_get_limited_unlock_code, margo_get_unlock_code.
  change (UNLOCK_CODE_LEN <? 16 + 1) with false. cbn iota. unfold wp at 1, on_lw.
  specialize (Hinit w). destruct (MDrv_SYS_Init w) as [ok w1]. cbn in Hinit. subst ok. cbn [negb].
  specialize (Hid w1). destruct (MDrv_SYS_GetEfuseDid w1) as [did w2]. cbn in Hid. subst did.
  destruct id as [[[id0 id1] id2] id3]. cbn [Z.eqb negb]. apply wp_bind. eapply wp_lift; [reflexivity|].
  change (rsa_verify_hash data (sha256 _) k (-1)) with (rsa_verify_hash data (sha256 (chip_code (id0, id1, id2, id3))) k (-1)).
  rewrite Hv. unfold u32. rewrite wrap_small by lia. rewrite (proj2 (Z.leb_le (c + 1) max)) by lia.
  cbn [Z.ltb Z.compare andb]. apply wp_bind. unfold wp, on_lw. done.
Qed.
End board.

(** ** A device *)

#[local] Instance demo_config : idme_config :=
  {| CONFIG_IDME_SIZE := 400; IDME_UPDATE_TABLE := true; idme_default_values := [] |}.

Record chip : Type := Chip { chip_bytes : list Z; chip_ok : (zlen chip_bytes =? 400) = true }.
Definition chip_write (bs : list Z) (f : chip) : bool * chip :=
  match bool_dec (zlen bs =? 400) true with left E => (true, Chip bs E) | right _ => (true, f) end.
#[local] Instance demo_emmc : emmc_platform :=
  {| ew := chip; eMMC_Init := λ w, (true, w); eMMC_ReadBootPart := λ _ w, (Some (chip_bytes w), w);
     eMMC_WriteBootPart := chip_write; memalign := λ w, (true, w); malloc := λ _, true;
     fastboot_info := λ _ w, w; fastboot_fail := λ _ w, w |}.
#[local] Instance demo_emmc_laws : emmc_laws demo_emmc.
Proof.
  refine {| stored := (chip_bytes : @ew demo_emmc → _) |}; simpl.
  - intros w. apply Z.eqb_eq, chip_ok.
  - by intros w r w' [= _ <-].
  - intros n w r w' [= <- <-]. naive_solver.
  - intros bs w w'. unfold chip_write. destruct (bool_dec _ _) as [E|E]; intros [= <-] Hl; [done|].
    destruct E. apply Z.eqb_eq, Hl.
  - by intros w r w' [= _ <-].
  - done.
  - done.
Defined.

Lemma demo_emmc_works : emmc_works.
Proof. split_and!; try done. intros bs w. simpl. unfold chip_write. by destruct (bool_dec _ _). Qed.

#[local] Instance demo_sys : @mstar_sys sample_ltc :=
  {| mdrv_gpio_get_level := λ _, 0; MDrv_SYS_Init := λ w, (true, w);
     MDrv_SYS_GetEfuseDid := λ w, (Some (1, 2, 3, 0), w); plat_alloc := λ _ w, (true, w) |}.
#[local] Instance demo_laws : @unlock_laws sample_ltc margo_unlock :=
   margo_laws (1, 2, 3, 0) unlock_key (λ _, eq_refl) (λ _, eq_refl) (λ _ _, eq_refl) eq_refl.

Definition lock_items : list item := [Item unlock_item 1 292 zero_code].
Definition lock_rest : list Z := replicate (400 - length (header version_2p1 1 ++ enc_items lock_items)) 0.
Definition lock_blob : list Z := header version_2p1 1 ++ enc_items lock_items ++ lock_rest.
Definition lock_state : @idme_state demo_emmc :=
  IdmeState lock_blob true true true (replicate 16 0) (Chip lock_blob eq_refl).

Lemma lock_loaded : loaded lock_state version_2p1 lock_items lock_rest.
Proof.
  unfold loaded. split_and!; try done. unfold table. split_and!; [done|done| | |done|by apply Forall_replicate].
  - apply Forall_cons_2; [|constructor]. split_and!; try done; [by repeat constructor|simpl; lia|by apply Forall_replicate].
  - apply (bool_decide_unpack _). vm_compute. exact I.
Qed.

Definition good_code : list Z := replicate 255 0 ++ [6].

Lemma good_code_bytes : Forall (λ c, is_u8 c) good_code.
Proof. apply Forall_app_2; [by apply Forall_replicate|by constructor]. Qed.

Lemma bootm_boots_only_trusted_witness :
  (∃ c, stored_code lock_items = Some c ∧ code_signed c) ∨
  (∃ image, blob_get [31; 7] 0 1 = Some image ∧ trusted image [7] None).
Proof.
  apply (bootm_boots_only_trusted (L := sample_ltc) (T := @margo_target sample_ltc demo_sys) (HL := sample_laws)
    version_2p1 lock_items lock_rest [31; 7] 1 lock_state tt (lock_state, tt) lock_loaded).
  vm_compute. reflexivity.
Defined.

Lemma unlock_relock_witness :
  wp (unlock_then_relock None good_code) (λ r sw,
    r = (FlashUnlocked, 1, true, 0) ∧
    loaded (fst sw) version_2p1 (set_value unlock_item zero_code <$> lock_items) lock_rest) (lock_state, tt).
Proof.
  eapply (unlock_relock (L := sample_ltc) (UL := demo_laws) demo_emmc_works);
    [apply lock_loaded|reflexivity|done|done|apply good_code_bytes|by vm_compute|by vm_compute].
Defined.

Definition flash_line : list Z := txt "flash:unlock".

Lemma lockdown_commands_witness :
  wp (fb_run (Some (txt "1" ++ [0])) flash_line 12 good_code 256) (λ '(a, r) sw,
    a = FbCall cmd_flash_cb (txt "unlock" ++ [0]) 6 ∧ r ≠ Some FlashOther ∧
    (fst sw = lock_state ∨ r = Some FlashUnlocked ∧ valid_code (UL := demo_laws) good_code = true ∧
       loaded (fst sw) version_2p1 (set_value unlock_item good_code <$> lock_items) lock_rest)) (lock_state, tt).
Proof.
  eapply wp_mono; [eapply (lockdown_commands (L := sample_ltc) (UL := demo_laws) demo_emmc_works version_2p1 lock_items lock_rest);
    [apply lock_loaded|reflexivity|reflexivity|by vm_compute|reflexivity|done|by repeat constructor|done|
     apply good_code_bytes|done|done]|].
  intros [a r] sw (-> & Hr & H). split_and!; [by vm_compute|done|done].
Defined.

Example restricted_exact_sample :
  wp (is_restricted_command_on_locked_hw [] [] (txt "oem idme bootmode")) (λ r sw, fst sw = lock_state ∧
    (r = 0 ∨ r = 1) ∧
    (r = 1 ↔ locked (UL := demo_laws) lock_items = true ∧ margo_device_type = AMZN_PRODUCTION_DEVICE ∧
       ¬ Exists (λ p, p `prefix_of` txt "oem idme bootmode") (lockdown_whitelist ++ []) ∧
       Exists (λ p, p `prefix_of` txt "oem idme bootmode") (lockdown_blacklist ++ []))) (lock_state, tt).
Proof.
  apply (restricted_exact (L := sample_ltc) (T := @margo_target sample_ltc demo_sys) (UL := demo_laws) version_2p1 lock_items lock_rest [] []);
    [apply lock_loaded|]. repeat (constructor; [simpl; lia|]). constructor.
Defined.
