(* ===== verification/FosFlags.v ===== *)
(** * FosFlags: the flags and the boot mode in the identity table (cmd_fastboot.c)

    fastboot oem flags reads and changes the items fos_flags, dev_flags and usr_flags, which
    hold a number in hexadecimal; fastboot oem bootmode sets the boot mode.  A command line is
    the bytes from a pointer on, with the terminator, and a read behind them goes wrong. *)

From stdpp Require Import strings.
From S2P Require Import Prelude Idme IdmeCmd Unlock.

Inductive flags_cmd_t : Type := FLAGS_CMD_HELP | FLAGS_CMD_PRINT | FLAGS_CMD_SET.
Inductive flags_type_t : Type := FLAGS_TYPE_NONE | FLAGS_TYPE_FOS | FLAGS_TYPE_DEV | FLAGS_TYPE_USR.
Inductive flags_modifier_t : Type := FLAGS_MOD_NONE | FLAGS_MOD_SET | FLAGS_MOD_ADD | FLAGS_MOD_REMOVE.
#[global] Instance flags_cmd_eq_dec : EqDecision flags_cmd_t.
Proof. solve_decision. Defined.
#[global] Instance flags_type_eq_dec : EqDecision flags_type_t.
Proof. solve_decision. Defined.

(** ** Characters and numbers *)

Definition isblank (c : Z) : bool := (c =? 32) || (c =? 9).

(** The loops that move arg over blanks, and over blanks and bars. *)
Fixpoint skip_blanks (arg : list Z) : option (list Z) :=
  match arg with
  | [] => None
  | c :: rest => if isblank c then skip_blanks rest else Some arg
  end.
Fixpoint skip_bars (arg : list Z) : option (list Z) :=
  match arg with
  | [] => None
  | c :: rest => if isblank c || (c =? 124) then skip_bars rest else Some arg
  end.

(** !strncmp(arg, p, n) for a literal of length n *)
Definition at_prefix (p arg : list Z) : option bool :=
  r ← idme_strncmp arg (p ++ [0]) (length p); Some (r =? 0).

Definition ishexprefix (s : list Z) : option bool :=
  c ← head s;
  if c =? 48 then d ← head (tail s); Some ((d =? 120) || (d =? 88)) else Some false.

Definition issymprefix (s : list Z) : option bool :=
  c ← head s;
  if c =? 0 then Some false
  else
    a ← at_prefix (txt "FOS_FLAGS_") s;
    if (a : bool) then Some true
    else
      b ← at_prefix (txt "DEV_FLAGS_") s;
      if (b : bool) then Some true else at_prefix (txt "USR_FLAGS_") s.

Definition hexval (c : Z) : Z :=
  if (48 <=? c) && (c <=? 57) then c - 48
  else if (97 <=? c) && (c <=? 102) then c - 97 + 10
  else if (65 <=? c) && (c <=? 70) then c - 65 + 10
  else 0.

Fixpoint hex_loop (value : Z) (num : list Z) : option Z :=
  match num with
  | [] => None
  | c :: num => if ub_isxdigit c then hex_loop (u64 (value * 16 + hexval c)) num else Some value
  end.
Fixpoint dec_loop (value : Z) (num : list Z) : option Z :=
  match num with
  | [] => None
  | c :: num => if ub_isdigit c then dec_loop (u64 (value * 10 + c - 48)) num else Some value
  end.

Definition atoull (num : list Z) : option Z :=
  c ← head num;
  hex ← (if c =? 48 then d ← head (tail num); Some (d =? 120) else Some false);
  if (hex : bool) then hex_loop 0 (drop 2 num) else dec_loop 0 num.

(** tolower of the letter behind the zero *)
Definition lower_x (s : list Z) : list Z := match s with a :: _ :: s => a :: 120 :: s | _ => s end.

Definition getnumval (s : list Z) : option Z :=
  c ← head s;
  if c =? 0 then Some 0
  else
    h ← ishexprefix s;
    atoull (if (h : bool) then lower_x s else s).

(** Not done yet in the source. *)
Definition getsymval (s : list Z) : Z := 0.
Definition bootloader_is_locked : Z := 0.

(** ** oem flags *)

(** The prefixes of the types, in the order of the code. *)
Definition type_prefixes : list (list Z * flags_type_t) :=
  [(txt "f:", FLAGS_TYPE_FOS); (txt "fos:", FLAGS_TYPE_FOS); (txt "fos_flags:", FLAGS_TYPE_FOS);
   (txt "d:", FLAGS_TYPE_DEV); (txt "dev:", FLAGS_TYPE_DEV); (txt "dev_flags:", FLAGS_TYPE_DEV);
   (txt "u:", FLAGS_TYPE_USR); (txt "usr:", FLAGS_TYPE_USR); (txt "usr_flags:", FLAGS_TYPE_USR)].

Fixpoint scan_type (l : list (list Z * flags_type_t)) (arg : list Z) : option (flags_type_t * list Z) :=
  match l with
  | [] => Some (FLAGS_TYPE_NONE, arg)
  | (p, t) :: l => b ← at_prefix p arg; if (b : bool) then Some (t, drop (length p) arg) else scan_type l arg
  end.

Definition scan_modifier (arg : list Z) : option (flags_modifier_t * list Z) :=
  c ← head arg;
  Some (if c =? 43 then (FLAGS_MOD_ADD, tail arg)
        else if c =? 45 then (FLAGS_MOD_REMOVE, tail arg)
        else if c =? 61 then (FLAGS_MOD_SET, tail arg)
        else (FLAGS_MOD_SET, arg)).

(** The characters up to the end, a bar or a blank, and the rest from there. *)
Fixpoint scan_token (arg : list Z) : option (list Z * list Z) :=
  match arg with
  | [] => None
  | c :: rest =>
      if (c =? 0) || (c =? 124) || isblank c then Some ([], arg)
      else '(tok, rest) ← scan_token rest; Some (c :: tok, rest)
  end.

(** The loop over the values; each token is cut off by a terminator. *)
Fixpoint value_loop (fuel : nat) (arg : list Z) (cmd : flags_cmd_t) (value : Z) : option (flags_cmd_t * Z) :=
  match fuel with
  | O => None
  | S fuel =>
      c ← head arg;
      if c =? 0 then Some (cmd, value)
      else
        arg ← skip_blanks arg;
        '(cur, arg) ← scan_token arg;
        c ← head arg;
        arg ← (if negb (c =? 0) then skip_bars (tail arg) else Some arg);
        sym ← issymprefix (cur ++ [0]);
        v ← (if (sym : bool) then Some (getsymval (cur ++ [0])) else getnumval (cur ++ [0]));
        value_loop fuel arg FLAGS_CMD_SET (Z.lor value v)
  end.

Record flags_request : Type := FlagsRequest
  { f_cmd : flags_cmd_t; f_type : flags_type_t; f_modifier : flags_modifier_t; f_value : Z }.

Definition is_letter (a b c : Z) : bool := (c =? a) || (c =? b).

(** From the beginning to parse_done. *)
Definition parse_flags (arg : list Z) : option flags_request :=
  c ← head arg;
  if c =? 0 then
    Some (FlagsRequest FLAGS_CMD_PRINT (if negb (bootloader_is_locked =? 0) then FLAGS_TYPE_USR else FLAGS_TYPE_FOS) FLAGS_MOD_NONE 0)
  else
    arg ← skip_blanks arg; c ← head arg;
    if c =? 0 then Some (FlagsRequest FLAGS_CMD_PRINT FLAGS_TYPE_NONE FLAGS_MOD_SET 0) else
    '(ty, arg) ← scan_type type_prefixes arg;
    arg ← skip_blanks arg; c ← head arg;
    if c =? 0 then Some (FlagsRequest FLAGS_CMD_PRINT ty FLAGS_MOD_SET 0) else
    '(md, arg) ← scan_modifier arg;
    arg ← skip_blanks arg; c ← head arg;
    if c =? 0 then Some (FlagsRequest FLAGS_CMD_PRINT ty md 0) else
    p1 ← at_prefix (txt "print") arg;
    p2 ← (if (p1 : bool) then Some true else at_prefix (txt "PRINT") arg);
    if (p2 : bool) then
      arg ← skip_blanks (drop 5 arg); c ← head arg;
      let ty := if decide (ty = FLAGS_TYPE_NONE) then FLAGS_TYPE_FOS else ty in
      let ty := if negb (bootloader_is_locked =? 0) || is_letter 117 85 c then FLAGS_TYPE_USR
                else if is_letter 102 70 c then FLAGS_TYPE_FOS
                else if is_letter 100 68 c then FLAGS_TYPE_DEV else ty in
      Some (FlagsRequest FLAGS_CMD_PRINT ty FLAGS_MOD_NONE 0)
    else
      h1 ← idme_strcmp arg (txt "help" ++ [0]);
      h2 ← (if h1 =? 0 then Some 0 else idme_strcmp arg (txt "HELP" ++ [0]));
      h3 ← (if h2 =? 0 then Some 0 else idme_strcmp arg (txt "?" ++ [0]));
      if h3 =? 0 then Some (FlagsRequest FLAGS_CMD_HELP FLAGS_TYPE_NONE FLAGS_MOD_NONE 0)
      else
        '(cmd, value) ← value_loop (S (length arg)) arg FLAGS_CMD_PRINT 0;
        Some (FlagsRequest cmd ty md value).

Definition name_fos_flags : list Z := txt "fos_flags" ++ [0].
Definition name_dev_flags : list Z := txt "dev_flags" ++ [0].
Definition name_usr_flags : list Z := txt "usr_flags" ++ [0].
Definition target_flags (ty : flags_type_t) : list Z :=
  match ty with FLAGS_TYPE_DEV => name_dev_flags | FLAGS_TYPE_USR => name_usr_flags | _ => name_fos_flags end.

(** %llx *)
Fixpoint llx_digits (fuel : nat) (n : Z) (acc : list Z) : list Z :=
  match fuel with
  | O => acc
  | S fuel =>
      let acc := hex_asc (n `mod` 16) :: acc in
      if n / 16 =? 0 then acc else llx_digits fuel (n / 16) acc
  end.
Definition print_llx (n : Z) : list Z := llx_digits 16 n [].

Definition new_flags (md : flags_modifier_t) (cur_flags value : Z) : Z :=
  match md with
  | FLAGS_MOD_ADD => cur_flags .| value
  | FLAGS_MOD_REMOVE => cur_flags .& ~64 value
  | _ => value
  end.

(** What the command ends with.  Printing decodes the flags on the console as well. *)
Inductive flags_result : Type :=
  | FlagsRestricted | FlagsPrinted (name : list Z) (cur : Z) | FlagsFailed (name : list Z) (ret : Z)
  | FlagsDone (name str : list Z) | FlagsUnhandled.

Section flags.
Context {C : idme_config} {P : emmc_platform}.

Definition cmd_oem_flags (arg : list Z) : prog idme_state flags_result :=
  req ← lift (parse_flags arg);
  if negb (bootloader_is_locked =? 0) && bool_decide (f_cmd req = FLAGS_CMD_SET) then mret FlagsRestricted
  else
    let ty := if decide (f_cmd req = FLAGS_CMD_SET ∧ f_type req = FLAGS_TYPE_NONE) then FLAGS_TYPE_FOS else f_type req in
    let name := target_flags ty in
    '(_, bytes) ← idme_get_var_external name 16;
    cur_flags ← lift (atoull ([48; 120] ++ over (replicate 17 0) (default [] bytes)));
    match f_cmd req with
    | FLAGS_CMD_PRINT => mret (FlagsPrinted name cur_flags)
    | FLAGS_CMD_SET =>
        let new := new_flags (f_modifier req) cur_flags (f_value req) in
        let new_flags_str := over (replicate 19 0) (print_llx new ++ [0]) in
        ret ← idme_update_var_ex name new_flags_str 18;
        mret (if negb (ret =? 0) then FlagsFailed name ret else FlagsDone name new_flags_str)
    | FLAGS_CMD_HELP => mret FlagsUnhandled
    end.

(** ** oem bootmode *)

Definition IDME_BOOTMODE_MAX : Z := 7.
Inductive bootmode_result : Type := BootmodeMissing | BootmodeInvalid | BootmodeFailed (ret : Z) | BootmodeSet (c : Z).

Definition cmd_oem_bootmode (arg : list Z) : prog idme_state bootmode_result :=
  c ← lift (head arg);
  if c =? 0 then mret BootmodeMissing
  else
    arg ← lift (skip_blanks arg);
    c ← lift (head arg);
    let bootmode_int := u32 (c - 48) in
    if IDME_BOOTMODE_MAX <? bootmode_int then mret BootmodeInvalid
    else
      ret ← idme_update_var_ex name_bootmode arg 1;
      mret (if negb (ret =? 0) then BootmodeFailed ret else BootmodeSet c).
End flags.
