(* ===== verification/FosFlagsThm.v ===== *)
(** * FosFlagsThm: setting flags and reading them back *)

From stdpp Require Import strings.
From S2P Require Import Prelude Idme IdmeThm IdmeCmd IdmeLife Unlock FosFlags.

(** ** Hexadecimal numbers *)





(** ** The flags in the table *)






(** ** Command lines *)







(** The names without terminators. *)
Definition flags_name (ty : flags_type_t) : list Z := removelast (target_flags ty).

Section flags.
Context {C : idme_config} {P : emmc_platform} {EL : emmc_laws P} (Hw : emmc_works).
Implicit Types (s : idme_state) (its : list item).











End flags.

(** ** oem bootmode *)

Section bootmode.
Context {C : idme_config} {P : emmc_platform} {EL : emmc_laws P} (Hw : emmc_works).

Definition bootmode : list Z := removelast name_bootmode.

(** A digit up to 7 behind the blanks is stored, anything else is refused and changes nothing. *)
Lemma oem_bootmode_ok version its rest blanks c t d s : loaded s version its rest →
  find_value bootmode its = Some d → d ≠ [] → Forall (λ b, isblank b = true) blanks → blanks ≠ [] →
  is_u8 c → Forall (λ c, is_u8 c) t → isblank c = false →
  wp (cmd_oem_bootmode (blanks ++ c :: t)) (λ r s',
    if (48 <=? c) && (c <=? 55)
    then r = BootmodeSet c ∧ ∃ its', loaded s' version its' rest ∧ find_value bootmode its' = Some (fill (length d) [c])
    else r = BootmodeInvalid ∧ s' = s) s.
Proof.
  intros Hs Hd Hne Hb Hbn Hc Ht Hcb. unfold cmd_oem_bootmode.
  assert (Hskip : skip_blanks (blanks ++ c :: t) = Some (c :: t)).
  { clear Hbn. induction Hb as [|b bs Hb _ IH]; cbn; [by rewrite Hcb|]. by rewrite Hb. }
  destruct blanks as [|b bs]; [done|]. apply Forall_cons in Hb as [Hb _].
  apply wp_bind. eapply wp_lift; [done|]. destruct (Z.eqb_spec b 0) as [->|]; [done|].
  apply wp_bind. eapply wp_lift; [done|]. apply wp_bind. eapply wp_lift; [done|].
  assert (Hcmp : (IDME_BOOTMODE_MAX <? u32 (c - 48)) = negb ((48 <=? c) && (c <=? 55))).
  { unfold IDME_BOOTMODE_MAX, u32, wrap. destruct (Z.leb_spec 48 c), (Z.leb_spec c 55); cbn;
      [apply Z.ltb_ge|apply Z.ltb_lt..]; try (rewrite Z.mod_small; lia).
    all: replace (c - 48) with (c - 48 + 2 ^ 32 + (-1) * 2 ^ 32) by lia; rewrite Z.mod_add, Z.mod_small; lia. }
  rewrite Hcmp. destruct ((48 <=? c) && (c <=? 55)) eqn:E; cbn [negb]; [|by apply wp_ret].
  apply wp_bind. eapply wp_mono.
  { eapply (wp_update_var_ex Hw bootmode (c :: t) 1); [done|by repeat constructor|simpl; lia|by constructor|lia|].
    intros v _. unfold MIN. simpl. case_match; lia. }
  intros r s' [-> Hs']. rewrite decide_True.
  2:{ destruct (decide (bootmode ∈ it_name <$> its)) as [|Hni]; [done|]. apply find_value_None in Hni. congruence. }
  apply wp_ret. split; [done|]. eexists. split; [done|]. by rewrite find_value_set, decide_True, Hd.
Qed.
End bootmode.

(** ** A device, and what the commands do to it *)

Definition flag_items : list item := [Item (flags_name FLAGS_TYPE_FOS) 1 292 (fill 8 (txt "21"))].
Definition flag_blob : list Z := header version_2p1 1 ++ enc_items flag_items ++ replicate 76 0.
Definition flag_state : @idme_state good_emmc :=
  @IdmeState good_emmc flag_blob true true true (replicate 16 0) (Flash flag_blob eq_refl).



(** Symbolic names are announced, but stand for 0: setting a flag by its name clears all. *)
Lemma symbolic_name_clears :
  parse_flags (txt " FOS_FLAGS_ADB_ON" ++ [0]) = Some (FlagsRequest FLAGS_CMD_SET FLAGS_TYPE_NONE FLAGS_MOD_SET 0).
Proof. vm_compute. reflexivity. Qed.

(** The items have eight bytes: a number of more digits is reported as set and cut. *)
Lemma long_flags_cut :
  match cmd_oem_flags (C := dev_config) (P := good_emmc) (txt " 0x123456789" ++ [0]) flag_state with
  | Some (FlagsDone name str, s') =>
      name = name_fos_flags ∧ str = over (replicate 19 0) (txt "123456789") ∧
      match cmd_oem_flags (C := dev_config) (P := good_emmc) (txt " print" ++ [0]) s' with
      | Some (FlagsPrinted _ cur, _) => cur = 0x12345678
      | _ => False
      end
  | _ => False
  end.
Proof. vm_compute. auto. Qed.
