(* ===== verification/Crc.v ===== *)
(** * Crc: cyclic redundancy checks and bit reversal (lib/crc32.c, gen_crc32table.c, crc16.c,
    crc-ccitt.c, bitrev.c)

    The product is configured for slicing by four (CONFIG_CRC32_SLICEBY4): crc32.c works on words
    with four tables, which gen_crc32table.c computes when the kernel is built.  The bitwise variant
    of the same source (CRC_LE_BITS == 1) is the reference.  A buffer is the list of its bytes and
    the address of the first one, which decides how many bytes come before the first word. *)

From S2P Require Import Prelude Idme.

(** ** Bit by bit *)

Definition CRCPOLY_LE : Z := 0xedb88320.
Definition CRCPOLY_BE : Z := 0x04c11db7.
Definition CRC32C_POLY_LE : Z := 0x82F63B78.

Definition le_step (polynomial crc : Z) : Z := (crc >>u 1) .^ (if crc .& 1 =? 0 then 0 else polynomial).
Definition be_step (polynomial crc : Z) : Z :=
  u32 (Z.shiftl crc 1) .^ (if crc .& 0x80000000 =? 0 then 0 else polynomial).

(** crc32_le_generic and crc32_be_generic, the bitwise variants. *)
Definition crc32_le_bits (polynomial crc : Z) (p : list Z) : Z :=
  foldl (λ crc x, Nat.iter 8 (le_step polynomial) (crc .^ x)) crc p.
Definition crc32_be_bits (polynomial crc : Z) (p : list Z) : Z :=
  foldl (λ crc x, Nat.iter 8 (be_step polynomial) (crc .^ u32 (Z.shiftl x 24))) crc p.

(** ** The tables (gen_crc32table.c) *)

Definition tget (t : list Z) (i : Z) : Z := t !!! Z.to_nat i.
Definition tset (t : list Z) (i x : Z) : list Z := <[Z.to_nat i := x]> t.

(** The inner loop: [j] from 0 in steps of [2 * i]. *)
Fixpoint le_fill (fuel : nat) (t : list Z) (i j crc : Z) : list Z :=
  match fuel with
  | O => t
  | S fuel => if j <? 256 then le_fill fuel (tset t (i + j) (crc .^ tget t j)) i (j + 2 * i) crc else t
  end.
Fixpoint le_row0 (fuel : nat) (polynomial : Z) (t : list Z) (i crc : Z) : list Z :=
  match fuel with
  | O => t
  | S fuel =>
      if i =? 0 then t
      else
        let crc := le_step polynomial crc in
        le_row0 fuel polynomial (le_fill 256 t i 0 crc) (i >>u 1) crc
  end.

(** The next row holds what one more byte of zeros makes of an entry. *)
Definition le_next (t0 : list Z) (crc : Z) : Z := tget t0 (crc .& 0xff) .^ (crc >>u 8).
Definition crc32init_le_generic (polynomial : Z) : list (list Z) :=
  let t0 := le_row0 9 polynomial (replicate 256 0) (256 >>u 1) 1 in
  let t1 := map (le_next t0) t0 in
  let t2 := map (le_next t0) t1 in
  let t3 := map (le_next t0) t2 in
  [t0; t1; t2; t3].

Fixpoint be_fill (fuel : nat) (t : list Z) (i j crc : Z) : list Z :=
  match fuel with
  | O => t
  | S fuel => if j <? i then be_fill fuel (tset t (i + j) (crc .^ tget t j)) i (j + 1) crc else t
  end.
Fixpoint be_row0 (fuel : nat) (t : list Z) (i crc : Z) : list Z :=
  match fuel with
  | O => t
  | S fuel =>
      if i <? 256 then
        let crc := be_step CRCPOLY_BE crc in
        be_row0 fuel (be_fill 256 t i 0 crc) (Z.shiftl i 1) crc
      else t
  end.

Definition be_next (t0 : list Z) (crc : Z) : Z := tget t0 ((crc >>u 24) .& 0xff) .^ u32 (Z.shiftl crc 8).
Definition crc32init_be : list (list Z) :=
  let t0 := be_row0 9 (replicate 256 0) 1 0x80000000 in
  let t1 := map (be_next t0) t0 in
  let t2 := map (be_next t0) t1 in
  let t3 := map (be_next t0) t2 in
  [t0; t1; t2; t3].

(** __constant_cpu_to_be32 on a little-endian machine; cpu_to_le32 changes nothing there. *)
Definition swab32 (x : Z) : Z :=
  Z.shiftl (x .& 0xff) 24 .| Z.shiftl (x .& 0xff00) 8 .| ((x .& 0xff0000) >>u 8) .| ((x .& 0xff000000) >>u 24).

Definition crc32table_le : list (list Z) := crc32init_le_generic CRCPOLY_LE.
Definition crc32ctable_le : list (list Z) := crc32init_le_generic CRC32C_POLY_LE.
Definition crc32table_be : list (list Z) := map (map swab32) crc32init_be.

(** ** crc32.c *)

Definition DO_CRC (t0 : list Z) (crc x : Z) : Z := tget t0 ((crc .^ x) .& 255) .^ (crc >>u 8).
Definition DO_CRC4 (tab : list (list Z)) (q : Z) : Z :=
  tget (tab !!! 3%nat) (q .& 255) .^ tget (tab !!! 2%nat) ((q >>u 8) .& 255)
  .^ tget (tab !!! 1%nat) ((q >>u 16) .& 255) .^ tget (tab !!! 0%nat) ((q >>u 24) .& 255).

(** Bytes until the address is a multiple of four or the buffer ends. *)
Fixpoint crc_align (t0 : list Z) (addr crc : Z) (buf : list Z) : Z * list Z :=
  match buf with
  | [] => (crc, [])
  | x :: rest => if addr .& 3 =? 0 then (crc, buf) else crc_align t0 (addr + 1) (DO_CRC t0 crc x) rest
  end.

Definition le_word (b0 b1 b2 b3 : Z) : Z := b0 .| Z.shiftl b1 8 .| Z.shiftl b2 16 .| Z.shiftl b3 24.

Fixpoint crc_words (len : nat) (tab : list (list Z)) (crc : Z) (b : list Z) : option (Z * list Z) :=
  match len with
  | O => Some (crc, b)
  | S len =>
      match b with
      | b0 :: b1 :: b2 :: b3 :: b => crc_words len tab (DO_CRC4 tab (crc .^ le_word b0 b1 b2 b3)) b
      | _ => None
      end
  end.

Fixpoint crc_bytes (len : nat) (t0 : list Z) (crc : Z) (p : list Z) : option Z :=
  match len with
  | O => Some crc
  | S len => match p with [] => None | x :: p => crc_bytes len t0 (DO_CRC t0 crc x) p end
  end.

(** [buf] are the [len] bytes of the buffer. *)
Definition crc32_body (crc addr : Z) (buf : list Z) (tab : list (list Z)) : option Z :=
  let t0 := tab !!! 0%nat in
  let '(crc, buf) := crc_align t0 addr crc buf in
  let len := zlen buf in
  let rem_len := len .& 3 in
  '(crc, b) ← crc_words (Z.to_nat (len >>u 2)) tab crc buf;
  crc_bytes (Z.to_nat rem_len) t0 crc b.

Definition crc32_le (crc addr : Z) (p : list Z) : option Z := crc32_body crc addr p crc32table_le.
Definition __crc32c_le (crc addr : Z) (p : list Z) : option Z := crc32_body crc addr p crc32ctable_le.
Definition crc32_be (crc addr : Z) (p : list Z) : option Z :=
  crc ← crc32_body (swab32 crc) addr p crc32table_be; Some (swab32 crc).

(** gzip_crc32_le: the static shift register, and a buffer or null; the new register and the
    result. *)
Definition gzip_byte (tab : list Z) (c x : Z) : Z := tget tab ((u32 c .^ x) .& 0xff) .^ (c >>u 8).
Definition gzip_crc32_le (crc : Z) (p : option (list Z)) : Z * Z :=
  let c := match p with
           | None => 0xffffffff
           | Some p => foldl (gzip_byte (crc32table_le !!! 0%nat)) crc p
           end in
  (c, c .^ 0xffffffff).

(** ** crc16.c, crc-ccitt.c *)

Definition crc16_table : list Z :=
  [0; 49345; 49537; 320; 49921; 960; 640; 49729; 50689; 1728; 1920; 51009; 1280; 50625; 50305;
   1088; 52225; 3264; 3456; 52545; 3840; 53185; 52865; 3648; 2560; 51905; 52097; 2880; 51457;
   2496; 2176; 51265; 55297; 6336; 6528; 55617; 6912; 56257; 55937; 6720; 7680; 57025; 57217;
   8000; 56577; 7616; 7296; 56385; 5120; 54465; 54657; 5440; 55041; 6080; 5760; 54849; 53761;
   4800; 4992; 54081; 4352; 53697; 53377; 4160; 61441; 12480; 12672; 61761; 13056; 62401;
   62081; 12864; 13824; 63169; 63361; 14144; 62721; 13760; 13440; 62529; 15360; 64705; 64897;
   15680; 65281; 16320; 16000; 65089; 64001; 15040; 15232; 64321; 14592; 63937; 63617; 14400;
   10240; 59585; 59777; 10560; 60161; 11200; 10880; 59969; 60929; 11968; 12160; 61249; 11520;
   60865; 60545; 11328; 58369; 9408; 9600; 58689; 9984; 59329; 59009; 9792; 8704; 58049; 58241;
   9024; 57601; 8640; 8320; 57409; 40961; 24768; 24960; 41281; 25344; 41921; 41601; 25152;
   26112; 42689; 42881; 26432; 42241; 26048; 25728; 42049; 27648; 44225; 44417; 27968; 44801;
   28608; 28288; 44609; 43521; 27328; 27520; 43841; 26880; 43457; 43137; 26688; 30720; 47297;
   47489; 31040; 47873; 31680; 31360; 47681; 48641; 32448; 32640; 48961; 32000; 48577; 48257;
   31808; 46081; 29888; 30080; 46401; 30464; 47041; 46721; 30272; 29184; 45761; 45953; 29504;
   45313; 29120; 28800; 45121; 20480; 37057; 37249; 20800; 37633; 21440; 21120; 37441; 38401;
   22208; 22400; 38721; 21760; 38337; 38017; 21568; 39937; 23744; 23936; 40257; 24320; 40897;
   40577; 24128; 23040; 39617; 39809; 23360; 39169; 22976; 22656; 38977; 34817; 18624; 18816;
   35137; 19200; 35777; 35457; 19008; 19968; 36545; 36737; 20288; 36097; 19904; 19584; 35905;
   17408; 33985; 34177; 17728; 34561; 18368; 18048; 34369; 33281; 17088; 17280; 33601; 16640;
   33217; 32897; 16448].

Definition crc_ccitt_table : list Z :=
  [0; 4489; 8978; 12955; 17956; 22445; 25910; 29887; 35912; 40385; 44890; 48851; 51820; 56293;
   59774; 63735; 4225; 264; 13203; 8730; 22181; 18220; 30135; 25662; 40137; 36160; 49115;
   44626; 56045; 52068; 63999; 59510; 8450; 12427; 528; 5017; 26406; 30383; 17460; 21949;
   44362; 48323; 36440; 40913; 60270; 64231; 51324; 55797; 12675; 8202; 4753; 792; 30631;
   26158; 21685; 17724; 48587; 44098; 40665; 36688; 64495; 60006; 55549; 51572; 16900; 21389;
   24854; 28831; 1056; 5545; 10034; 14011; 52812; 57285; 60766; 64727; 34920; 39393; 43898;
   47859; 21125; 17164; 29079; 24606; 5281; 1320; 14259; 9786; 57037; 53060; 64991; 60502;
   39145; 35168; 48123; 43634; 25350; 29327; 16404; 20893; 9506; 13483; 1584; 6073; 61262;
   65223; 52316; 56789; 43370; 47331; 35448; 39921; 29575; 25102; 20629; 16668; 13731; 9258;
   5809; 1848; 65487; 60998; 56541; 52564; 47595; 43106; 39673; 35696; 33800; 38273; 42778;
   46739; 49708; 54181; 57662; 61623; 2112; 6601; 11090; 15067; 20068; 24557; 28022; 31999;
   38025; 34048; 47003; 42514; 53933; 49956; 61887; 57398; 6337; 2376; 15315; 10842; 24293;
   20332; 32247; 27774; 42250; 46211; 34328; 38801; 58158; 62119; 49212; 53685; 10562; 14539;
   2640; 7129; 28518; 32495; 19572; 24061; 46475; 41986; 38553; 34576; 62383; 57894; 53437;
   49460; 14787; 10314; 6865; 2904; 32743; 28270; 23797; 19836; 50700; 55173; 58654; 62615;
   32808; 37281; 41786; 45747; 19012; 23501; 26966; 30943; 3168; 7657; 12146; 16123; 54925;
   50948; 62879; 58390; 37033; 33056; 46011; 41522; 23237; 19276; 31191; 26718; 7393; 3432;
   16371; 11898; 59150; 63111; 50204; 54677; 41258; 45219; 33336; 37809; 27462; 31439; 18516;
   23005; 11618; 15595; 3696; 8185; 63375; 58886; 54429; 50452; 45483; 40994; 37561; 33584;
   31687; 27214; 22741; 18780; 15843; 11370; 7921; 3960].

Definition byte_rev_table : list Z :=
  [0; 128; 64; 192; 32; 160; 96; 224; 16; 144; 80; 208; 48; 176; 112; 240; 8; 136; 72; 200; 40;
   168; 104; 232; 24; 152; 88; 216; 56; 184; 120; 248; 4; 132; 68; 196; 36; 164; 100; 228; 20;
   148; 84; 212; 52; 180; 116; 244; 12; 140; 76; 204; 44; 172; 108; 236; 28; 156; 92; 220; 60;
   188; 124; 252; 2; 130; 66; 194; 34; 162; 98; 226; 18; 146; 82; 210; 50; 178; 114; 242; 10;
   138; 74; 202; 42; 170; 106; 234; 26; 154; 90; 218; 58; 186; 122; 250; 6; 134; 70; 198; 38;
   166; 102; 230; 22; 150; 86; 214; 54; 182; 118; 246; 14; 142; 78; 206; 46; 174; 110; 238; 30;
   158; 94; 222; 62; 190; 126; 254; 1; 129; 65; 193; 33; 161; 97; 225; 17; 145; 81; 209; 49;
   177; 113; 241; 9; 137; 73; 201; 41; 169; 105; 233; 25; 153; 89; 217; 57; 185; 121; 249; 5;
   133; 69; 197; 37; 165; 101; 229; 21; 149; 85; 213; 53; 181; 117; 245; 13; 141; 77; 205; 45;
   173; 109; 237; 29; 157; 93; 221; 61; 189; 125; 253; 3; 131; 67; 195; 35; 163; 99; 227; 19;
   147; 83; 211; 51; 179; 115; 243; 11; 139; 75; 203; 43; 171; 107; 235; 27; 155; 91; 219; 59;
   187; 123; 251; 7; 135; 71; 199; 39; 167; 103; 231; 23; 151; 87; 215; 55; 183; 119; 247; 15;
   143; 79; 207; 47; 175; 111; 239; 31; 159; 95; 223; 63; 191; 127; 255].

Definition crc16_byte (crc data : Z) : Z := (crc >>u 8) .^ tget crc16_table ((crc .^ data) .& 0xff).
Definition crc16 (crc : Z) (buffer : list Z) : Z := foldl crc16_byte (u16 crc) buffer.

Definition crc_ccitt_byte (crc c : Z) : Z := (crc >>u 8) .^ tget crc_ccitt_table ((crc .^ c) .& 0xff).
Definition crc_ccitt (crc : Z) (buffer : list Z) : Z := foldl crc_ccitt_byte (u16 crc) buffer.

(** ** bitrev.c *)

Definition bitrev8 (byte : Z) : Z := tget byte_rev_table byte.
Definition bitrev16 (x : Z) : Z := Z.shiftl (bitrev8 (x .& 0xff)) 8 .| bitrev8 (x >>u 8).
Definition bitrev32 (x : Z) : Z := Z.shiftl (bitrev16 (x .& 0xffff)) 16 .| bitrev16 (x >>u 16).
