(* ===== verification/CrcThm.v ===== *)
(** * CrcThm: the table-driven checks compute the bitwise ones

    A table whose first row is linear and whose other rows continue it makes a word four bytes at
    a time ([slicing]); the tables of the generator are such tables, and their first rows hold
    what eight bitwise steps make of a byte. *)

From S2P Require Import Prelude Idme Crc.

Notation byte_ x := (0 ≤ x < 256).
Definition bytes (l : list Z) : Prop := Forall (λ x, byte_ x) l.

(** ** Bits *)

Lemma lxor_byte a b : byte_ a → byte_ b → byte_ (a .^ b).
Proof.
  intros Ha Hb. change 256 with (2 ^ 8). apply bits_bound; [lia|]. intros i Hi.
  rewrite Z.lxor_spec, !(testbit_high 8); [done|by change (2 ^ 8) with 256|lia|by change (2 ^ 8) with 256|lia].
Qed.

Lemma xor_width w a b : 0 ≤ w → 0 ≤ a < 2 ^ w → 0 ≤ b < 2 ^ w → 0 ≤ a .^ b < 2 ^ w.
Proof. intros. apply bits_bound; [done|]. intros i Hi. by rewrite Z.lxor_spec, !(testbit_high w). Qed.

Lemma land_255 c : c .& 255 = c `mod` 256.
Proof. apply (Z.land_ones c 8). lia. Qed.
Lemma byte_land c : byte_ (c .& 255).
Proof. rewrite land_255. apply Z.mod_pos_bound. lia. Qed.

Lemma land_lxor a b m : (a .^ b) .& m = (a .& m) .^ (b .& m).
Proof. apply Z.bits_inj'. intros i _. rewrite !Z.land_spec, !Z.lxor_spec, !Z.land_spec. btauto. Qed.
Lemma shiftr_lxor a b n : (a .^ b) >>u n = (a >>u n) .^ (b >>u n).
Proof. apply Z.shiftr_lxor. Qed.
Lemma lxor_4 a b c d : (a .^ b) .^ (c .^ d) = (a .^ c) .^ (b .^ d).
Proof. rewrite !Z.lxor_assoc. f_equal. rewrite <- !Z.lxor_assoc. f_equal. apply Z.lxor_comm. Qed.

(** The low byte and the rest. *)
Lemma low_byte c : c = (c .& 255) .^ Z.shiftl (c >>u 8) 8.
Proof.
  apply Z.bits_inj'. intros i Hi. change 255 with (Z.ones 8). autorewrite with bits. replace (i - 8 + 8) with i by lia.
  bool_compare; simpl; rewrite ?andb_false_r, ?andb_true_r, ?xorb_false_r, ?xorb_false_l; done.
Qed.

Lemma shiftl_shiftr x n : 0 ≤ n → Z.shiftl x n >>u n = x.
Proof. intros. rewrite Z.shiftr_shiftl_l by lia. by rewrite Z.sub_diag. Qed.

(** ** Slicing *)

Section slicing.
Context (t0 : list Z) (Hlin : ∀ a b, byte_ a → byte_ b → tget t0 (a .^ b) = tget t0 a .^ tget t0 b)
        (Hrange : ∀ i, byte_ i → is_u32 (tget t0 i)).

(** What one byte of zeros does. *)
Definition advance (c : Z) : Z := tget t0 (c .& 255) .^ (c >>u 8).

Lemma table_zero : tget t0 0 = 0.
Proof. pose proof (Hlin 0 0). rewrite Z.lxor_0_l, Z.lxor_nilpotent in H. by apply H. Qed.

Lemma advance_lin a b : advance (a .^ b) = advance a .^ advance b.
Proof. unfold advance. rewrite land_lxor, shiftr_lxor, Hlin by apply byte_land. apply lxor_4. Qed.

Lemma advance_shift x : advance (Z.shiftl x 8) = x.
Proof.
  unfold advance. rewrite shiftl_shiftr by lia. rewrite land_255, Z.shiftl_mul_pow2, Z.mod_mul by lia.
  by rewrite table_zero, Z.lxor_0_l.
Qed.

Lemma advance_u32 c : is_u32 c → is_u32 (advance c).
Proof.
  intros Hc. apply xor_width; [lia|apply Hrange, byte_land|]. rewrite Z.shiftr_div_pow2 by lia. dlia.
Qed.

Lemma do_crc c x : byte_ x → DO_CRC t0 c x = advance (c .^ x).
Proof.
  intros Hx. unfold DO_CRC, advance. rewrite (shiftr_lxor c x).
  replace (x >>u 8) with 0 by (rewrite Z.shiftr_div_pow2 by lia; symmetry; apply Z.div_small; lia).
  by rewrite Z.lxor_0_r.
Qed.

Lemma foldl_u32 p : bytes p → ∀ c, is_u32 c → is_u32 (foldl (DO_CRC t0) c p).
Proof.
  induction 1 as [|x p Hx _ IH]; intros c Hc; [done|]. cbn. apply IH. rewrite do_crc by done.
  apply advance_u32, xor_width; [lia|done|lia].
Qed.

End slicing.

Lemma lor_byte b x : byte_ b → b .| Z.shiftl x 8 = b .^ Z.shiftl x 8.
Proof.
  intros Hb. apply Z.bits_inj'. intros i Hi. rewrite Z.lor_spec, Z.lxor_spec, testbit_shiftl.
  destruct (decide (i < 8)).
  - rewrite (Z.testbit_neg_r x) by lia. by rewrite andb_false_r, orb_false_r, xorb_false_r.
  - rewrite (testbit_high 8 b) by (change (2 ^ 8) with 256; lia). by rewrite xorb_false_l.
Qed.

Lemma le_word_nest b0 b1 b2 b3 : le_word b0 b1 b2 b3 = b0 .| Z.shiftl (b1 .| Z.shiftl (b2 .| Z.shiftl b3 8) 8) 8.
Proof. unfold le_word. rewrite !Z.shiftl_lor, !Z.shiftl_shiftl by lia. by rewrite !Z.lor_assoc. Qed.

Lemma le_word_xor b0 b1 b2 b3 : byte_ b0 → byte_ b1 → byte_ b2 → byte_ b3 →
  le_word b0 b1 b2 b3 = b0 .^ Z.shiftl (b1 .^ Z.shiftl (b2 .^ Z.shiftl b3 8) 8) 8.
Proof. intros. rewrite le_word_nest. by rewrite !lor_byte. Qed.

Lemma le_word_u32 b0 b1 b2 b3 : byte_ b0 → byte_ b1 → byte_ b2 → byte_ b3 → is_u32 (le_word b0 b1 b2 b3).
Proof.
  intros H0 H1 H2 H3. assert (Hs : ∀ b x w, byte_ b → 0 ≤ w → 0 ≤ x < 2 ^ w → 0 ≤ b .^ Z.shiftl x 8 < 2 ^ (w + 8)).
  { intros b x w Hb Hw Hx. rewrite Z.shiftl_mul_pow2 by lia. apply (xor_width (w + 8)); [lia| |].
    all: rewrite Z.pow_add_r by lia; nia. }
  rewrite le_word_xor by done. apply (Hs _ _ 24); [done|lia|]. apply (Hs _ _ 16); [done|lia|]. apply (Hs _ _ 8); [done|lia|done].
Qed.

Section body.
Context (tab : list (list Z)).
Notation t0 := (tab !!! 0%nat).
Context (Hlin : ∀ a b, byte_ a → byte_ b → tget t0 (a .^ b) = tget t0 a .^ tget t0 b)
        (Hrange : ∀ i, byte_ i → is_u32 (tget t0 i))
        (Hrow : ∀ k i, (k < 3)%nat → byte_ i → tget (tab !!! S k) i = advance t0 (tget (tab !!! k) i)).

(** A word is four bytes. *)
Lemma do_crc4 q : is_u32 q → DO_CRC4 tab q = Nat.iter 4 (advance t0) q.
Proof.
  intros Hq. assert (Hs : ∀ k, (q >>u k) >>u 8 = q >>u (k + 8)) by (intros; apply Z.shiftr_shiftr; lia).
  change (Nat.iter 4 (advance t0) q) with (advance t0 (advance t0 (advance t0 (advance t0 q)))).
  pose proof (advance_lin t0 Hlin) as Hadd.
  assert (E : ∀ k k', k' = k + 8 → advance t0 (q >>u k) = tget t0 ((q >>u k) .& 255) .^ (q >>u k')).
  { intros k k' ->. unfold advance. by rewrite Hs. }
  assert (E0 : advance t0 q = tget t0 (q .& 255) .^ (q >>u 8)) by done.
  rewrite E0, Hadd, (E 8 16), !Hadd, (E 16 24), !Hadd, (E 24 32) by done.
  replace (q >>u 32) with 0 by (rewrite Z.shiftr_div_pow2 by lia; symmetry; apply Z.div_small; lia).
  rewrite Z.lxor_0_r. unfold DO_CRC4. rewrite (Hrow 2), (Hrow 1), (Hrow 0) by (lia || apply byte_land).
  rewrite (Hrow 1), (Hrow 0), (Hrow 0) by (lia || apply byte_land). rewrite !Z.lxor_assoc. done.
Qed.

Lemma word_step c b0 b1 b2 b3 : is_u32 c → byte_ b0 → byte_ b1 → byte_ b2 → byte_ b3 →
  DO_CRC4 tab (c .^ le_word b0 b1 b2 b3) = foldl (DO_CRC t0) c [b0; b1; b2; b3].
Proof.
  intros Hc H0 H1 H2 H3. rewrite do_crc4 by (apply xor_width; [lia|done|by apply le_word_u32]).
  rewrite le_word_xor by done. cbn [foldl]. change (Nat.iter 4 (advance t0) ?q) with (advance t0 (advance t0 (advance t0 (advance t0 q)))).
  rewrite !do_crc by done.
  pose proof (advance_lin t0 Hlin) as Hadd. pose proof (advance_shift t0 Hlin) as Hsh.
  rewrite <- Z.lxor_assoc, (Hadd (c .^ b0)), Hsh. rewrite <- Z.lxor_assoc, (Hadd (_ .^ b1)), Hsh.
  by rewrite <- Z.lxor_assoc, (Hadd (_ .^ b2)), Hsh.
Qed.

Lemma crc_align_ok buf : ∀ addr c c' rest, crc_align t0 addr c buf = (c', rest) →
  foldl (DO_CRC t0) c buf = foldl (DO_CRC t0) c' rest ∧ (bytes buf → bytes rest ∧ (is_u32 c → is_u32 c')).
Proof.
  induction buf as [|x buf IH]; intros addr c c' rest; cbn; [by intros [= <- <-]|].
  destruct (addr .& 3 =? 0); [by intros [= <- <-]|]. intros [E Hb]%IH. split; [done|].
  intros [Hx Hbuf]%Forall_cons. destruct (Hb Hbuf) as [Hr Hu]. split; [done|]. intros Hc. apply Hu.
  rewrite do_crc by done. apply advance_u32, xor_width; [done|lia|done|lia].
Qed.

Lemma crc_words_ok n : ∀ c b, is_u32 c → bytes b → (4 * n ≤ length b)%nat →
  ∃ c', crc_words n tab c b = Some (c', drop (4 * n) b) ∧ c' = foldl (DO_CRC t0) c (take (4 * n) b).
Proof.
  induction n as [|n IH]; intros c b Hc Hb Hl; [by exists c|].
  destruct b as [|b0 [|b1 [|b2 [|b3 b]]]]; try (simpl in Hl; lia).
  repeat apply Forall_cons in Hb as [? Hb]. cbn [crc_words]. rewrite word_step by done.
  replace (4 * S n)%nat with (4 + 4 * n)%nat by lia. cbn [take drop Nat.add].
  change (foldl (DO_CRC t0) c (b0 :: b1 :: b2 :: b3 :: take (4 * n) b))
    with (foldl (DO_CRC t0) (foldl (DO_CRC t0) c [b0; b1; b2; b3]) (take (4 * n) b)).
  apply IH; [|done|simpl in Hl; lia]. apply foldl_u32; [done| |done]. do 4 (apply Forall_cons_2; [done|]). constructor.
Qed.

Lemma crc_bytes_ok p : ∀ c, crc_bytes (length p) t0 c p = Some (foldl (DO_CRC t0) c p).
Proof. induction p as [|x p IH]; intros c; [done|]. apply IH. Qed.

Lemma crc32_body_ok c addr buf : is_u32 c → bytes buf → crc32_body c addr buf tab = Some (foldl (DO_CRC t0) c buf).
Proof.
  intros Hc Hb. unfold crc32_body. destruct (crc_align t0 addr c buf) as [c' rest] eqn:E.
  apply crc_align_ok in E as [-> Hr]. destruct (Hr Hb) as [Hbr Hu]. specialize (Hu Hc).
  assert (E4 : Z.to_nat (zlen rest >>u 2) = (length rest / 4)%nat).
  { rewrite Z.shiftr_div_pow2 by lia. change (2 ^ 2) with (Z.of_nat 4). by rewrite <- Nat2Z.inj_div, Nat2Z.id. }
  destruct (crc_words_ok (length rest / 4) c' rest) as (c2 & Ew & E2); [done|done|pose proof (Nat.div_mod_eq (length rest) 4); lia|].
  rewrite E4, Ew. cbn [mbind option_bind].
  replace (Z.to_nat (zlen rest .& 3)) with (length (drop (4 * (length rest / 4)) rest)).
  2:{ rewrite length_drop. change 3 with (Z.ones 2). rewrite Z.land_ones by lia.
      pose proof (Nat.div_mod_eq (length rest) 4). change (2 ^ 2) with (Z.of_nat 4). rewrite <- Nat2Z.inj_mod, Nat2Z.id. lia. }
  rewrite crc_bytes_ok, E2, <- foldl_app, take_drop. done.
Qed.
End body.

(** ** Linear steps *)

(** A step adds a polynomial if a bit is set. *)
Lemma choose_lin (p : Z) (x y : bool) : (if negb (xorb x y) then 0 else p) = (if negb x then 0 else p) .^ (if negb y then 0 else p).
Proof. destruct x, y; cbn; by rewrite ?Z.lxor_0_l, ?Z.lxor_0_r, ?Z.lxor_nilpotent. Qed.

Lemma le_step_lin p a b : le_step p (a .^ b) = le_step p a .^ le_step p b.
Proof.
  unfold le_step. change 1 with (2 ^ 0) at 2 4 6. rewrite !test_mask, Z.lxor_spec, choose_lin, shiftr_lxor by done. apply lxor_4.
Qed.
Lemma be_step_lin p a b : be_step p (a .^ b) = be_step p a .^ be_step p b.
Proof.
  unfold be_step. change 0x80000000 with (2 ^ 31). rewrite !test_mask, Z.lxor_spec, choose_lin by done.
  replace (u32 (Z.shiftl (a .^ b) 1)) with (u32 (Z.shiftl a 1) .^ u32 (Z.shiftl b 1)); [apply lxor_4|].
  apply Z.bits_inj'. intros i Hi. autorewrite with bits. btauto.
Qed.

Lemma iter_lin (f : Z → Z) : (∀ a b, f (a .^ b) = f a .^ f b) → ∀ n a b, Nat.iter n f (a .^ b) = Nat.iter n f a .^ Nat.iter n f b.
Proof.
  intros Hf n. induction n as [|n IH]; intros a b; [done|].
  change (Nat.iter (S n) f ?x) with (f (Nat.iter n f x)). by rewrite IH, Hf.
Qed.

(** Zeros at the low end are shifted out. *)
Lemma le_step_shift p x n : 0 < n → le_step p (Z.shiftl x n) = Z.shiftl x (n - 1).
Proof.
  intros Hn. unfold le_step. change 1 with (2 ^ 0) at 2. rewrite test_mask, testbit_shiftl, (Z.testbit_neg_r x) by lia.
  cbn [andb negb]. rewrite Z.lxor_0_r, Z.shiftr_shiftl_l by lia. done.
Qed.
Lemma le_iter_shift p x n : Nat.iter n (le_step p) (Z.shiftl x (Z.of_nat n)) = x.
Proof.
  induction n as [|n IH]; [by rewrite Z.shiftl_0_r|]. rewrite Nat.iter_succ_r, le_step_shift by lia.
  by replace (Z.of_nat (S n) - 1) with (Z.of_nat n) by lia.
Qed.

(** ** Tables of the bitwise steps *)

Definition all_bytes (f : Z → bool) : bool := forallb (λ n, f (Z.of_nat n)) (seq 0 256).
Lemma all_bytes_ok f : all_bytes f = true → ∀ i, byte_ i → f i = true.
Proof.
  intros H i Hi. unfold all_bytes in H. rewrite forallb_forall in H. specialize (H (Z.to_nat i)).
  rewrite Z2Nat.id in H by lia. apply H, in_seq. lia.
Qed.

Section le.
Context (p : Z) (t0 : list Z) (Htab : ∀ i, byte_ i → tget t0 i = Nat.iter 8 (le_step p) i).

Lemma le_table_lin a b : byte_ a → byte_ b → tget t0 (a .^ b) = tget t0 a .^ tget t0 b.
Proof. intros. rewrite !Htab by (done || by apply lxor_byte). apply iter_lin, le_step_lin. Qed.

Lemma le_advance c : advance t0 c = Nat.iter 8 (le_step p) c.
Proof.
  unfold advance. rewrite Htab by apply byte_land. rewrite (low_byte c) at 3.
  rewrite (iter_lin _ (le_step_lin p)). f_equal. symmetry. apply (le_iter_shift p _ 8).
Qed.

Lemma le_fold buf : bytes buf → ∀ c, foldl (DO_CRC t0) c buf = crc32_le_bits p c buf.
Proof.
  unfold crc32_le_bits. induction 1 as [|x buf Hx _ IH]; intros c; [done|]. cbn [foldl]. rewrite IH, do_crc, le_advance by done. done.
Qed.
End le.

Lemma row_of t p : all_bytes (λ i, tget t i =? Nat.iter 8 (le_step p) i) = true →
  ∀ i, byte_ i → tget t i = Nat.iter 8 (le_step p) i.
Proof. intros H i Hi. by apply Z.eqb_eq, (all_bytes_ok _ H). Qed.

(** What the slicing needs of a table, as a check. *)
Definition table_ok (tab : list (list Z)) : bool :=
  all_bytes (λ i, (0 <=? tget (tab !!! 0%nat) i) && (tget (tab !!! 0%nat) i <? 2 ^ 32)) &&
  forallb (λ k, all_bytes (λ i, tget (tab !!! S k) i =? advance (tab !!! 0%nat) (tget (tab !!! k) i))) [0%nat; 1%nat; 2%nat].

Lemma table_ok_range tab : table_ok tab = true → ∀ i, byte_ i → is_u32 (tget (tab !!! 0%nat) i).
Proof. intros [H _]%andb_true_iff i Hi. pose proof (all_bytes_ok _ H i Hi). cbn in *. lia. Qed.
Lemma table_ok_row tab : table_ok tab = true → ∀ k i, (k < 3)%nat → byte_ i →
  tget (tab !!! S k) i = advance (tab !!! 0%nat) (tget (tab !!! k) i).
Proof.
  intros [_ H]%andb_true_iff k i Hk Hi. rewrite forallb_forall in H. specialize (H k ltac:(simpl; lia)).
  by apply Z.eqb_eq, (all_bytes_ok _ H).
Qed.

Lemma le_table_ok : table_ok crc32table_le = true ∧ table_ok crc32ctable_le = true ∧ table_ok crc32table_be = true.
Proof. split_and!; by vm_compute. Qed.

Lemma slice_le tab p c addr buf : table_ok tab = true →
  all_bytes (λ i, tget (tab !!! 0%nat) i =? Nat.iter 8 (le_step p) i) = true →
  is_u32 c → bytes buf → crc32_body c addr buf tab = Some (crc32_le_bits p c buf).
Proof.
  intros Hok Hc0 Hc Hb. pose proof (row_of _ p Hc0) as Htab.
  rewrite crc32_body_ok; [by rewrite (le_fold p)|by apply (le_table_lin p)|by apply table_ok_range|by apply table_ok_row|done|done].
Qed.

(** ** Big-endian *)

(** A word as a number. *)
Lemma xor_add b x : byte_ b → b .^ Z.shiftl x 8 = b + 256 * x.
Proof.
  intros Hb. assert (E : b .& Z.shiftl x 8 = 0).
  { apply zero_of_bits. intros i Hi. rewrite Z.land_spec, testbit_shiftl. destruct (decide (i < 8)).
    - by rewrite (Z.testbit_neg_r x), !andb_false_r by lia.
    - by rewrite (testbit_high 8 b) by (change (2 ^ 8) with 256; lia). }
  rewrite <- Z.add_nocarry_lxor by done. rewrite Z.shiftl_mul_pow2 by lia. lia.
Qed.

Lemma le_word_sum b0 b1 b2 b3 : byte_ b0 → byte_ b1 → byte_ b2 → byte_ b3 →
  le_word b0 b1 b2 b3 = b0 + 256 * (b1 + 256 * (b2 + 256 * b3)).
Proof. intros. rewrite le_word_xor by done. by rewrite !xor_add. Qed.

Lemma word_of c : is_u32 c → ∃ b0 b1 b2 b3, byte_ b0 ∧ byte_ b1 ∧ byte_ b2 ∧ byte_ b3 ∧ c = le_word b0 b1 b2 b3.
Proof.
  intros Hc. exists (c `mod` 256), ((c / 256) `mod` 256), ((c / 256 / 256) `mod` 256), (c / 256 / 256 / 256).
  pose proof (Z.mod_pos_bound c 256 eq_refl). pose proof (Z.mod_pos_bound (c / 256) 256 eq_refl). pose proof (Z.mod_pos_bound (c / 256 / 256) 256 eq_refl).
  assert (byte_ (c / 256 / 256 / 256)) by dlia.
  do 4 (split; [lia|]). rewrite le_word_sum by lia. dlia.
Qed.

Lemma word_parts b0 b1 b2 b3 : byte_ b0 → byte_ b1 → byte_ b2 → byte_ b3 →
  let c := le_word b0 b1 b2 b3 in
  c .& 255 = b0 ∧ (c >>u 8) .& 255 = b1 ∧ (c >>u 16) .& 255 = b2 ∧ (c >>u 24) .& 255 = b3 ∧
  c >>u 8 = le_word b1 b2 b3 0 ∧ u32 (Z.shiftl c 8) = le_word 0 b0 b1 b2.
Proof.
  intros H0 H1 H2 H3 c. unfold c, u32, wrap. rewrite !land_255, !Z.shiftr_div_pow2, Z.shiftl_mul_pow2, !le_word_sum by lia.
  change (2 ^ 8) with 256. change (2 ^ 16) with (256 * 256). change (2 ^ 24) with (256 * 256 * 256). change (2 ^ 32) with (256 * 256 * 256 * 256).
  split_and!; dlia.
Qed.

Lemma land_shifted x m k : 0 ≤ k → x .& Z.shiftl m k = Z.shiftl ((x >>u k) .& m) k.
Proof.
  intros Hk. apply Z.bits_inj'. intros i Hi. rewrite !Z.land_spec, !testbit_shiftl, Z.land_spec, testbit_shiftr.
  rewrite (proj2 (Z.leb_le 0 i) Hi). cbn [andb]. destruct (Z.leb_spec 0 (i - k)); cbn [andb].
  - by replace (i - k + k) with i by lia.
  - by rewrite (Z.testbit_neg_r m), andb_false_r by lia.
Qed.

Lemma swab_word b0 b1 b2 b3 : byte_ b0 → byte_ b1 → byte_ b2 → byte_ b3 →
  swab32 (le_word b0 b1 b2 b3) = le_word b3 b2 b1 b0.
Proof.
  intros H0 H1 H2 H3. destruct (word_parts b0 b1 b2 b3 H0 H1 H2 H3) as (E0 & E1 & E2 & E3 & _). unfold swab32.
  change 0xff00 with (Z.shiftl 255 8). change 0xff0000 with (Z.shiftl 255 16). change 0xff000000 with (Z.shiftl 255 24).
  change 0xff with 255. rewrite !land_shifted, E0, E1, E2, E3 by lia.
  rewrite !Z.shiftl_shiftl, !Z.shiftr_shiftl_l by lia. cbn [Z.sub Z.add Z.opp Pos.add Z.pos_sub].
  change (16 - 8) with 8. change (24 - 24) with 0. change (8 + 8) with 16. rewrite Z.shiftl_0_r. unfold le_word.
  apply Z.bits_inj'. intros i Hi. rewrite !Z.lor_spec. btauto.
Qed.

Lemma swab_u32 c : is_u32 c → is_u32 (swab32 c).
Proof. intros (b0 & b1 & b2 & b3 & ? & ? & ? & ? & ->)%word_of. rewrite swab_word by done. by apply le_word_u32. Qed.
Lemma swab_swab c : is_u32 c → swab32 (swab32 c) = c.
Proof. intros (b0 & b1 & b2 & b3 & ? & ? & ? & ? & ->)%word_of. by rewrite !swab_word. Qed.
Lemma le_word_lxor a0 a1 a2 a3 b0 b1 b2 b3 : byte_ a0 → byte_ a1 → byte_ a2 → byte_ a3 → byte_ b0 → byte_ b1 → byte_ b2 → byte_ b3 →
  le_word a0 a1 a2 a3 .^ le_word b0 b1 b2 b3 = le_word (a0 .^ b0) (a1 .^ b1) (a2 .^ b2) (a3 .^ b3).
Proof.
  intros. rewrite !le_word_xor by (done || by apply lxor_byte). rewrite lxor_4. f_equal.
  rewrite <- Z.shiftl_lxor, lxor_4. do 2 f_equal. rewrite <- Z.shiftl_lxor, lxor_4. do 2 f_equal. by rewrite Z.shiftl_lxor.
Qed.

Lemma swab_lin a b : is_u32 a → is_u32 b → swab32 (a .^ b) = swab32 a .^ swab32 b.
Proof.
  intros (a0 & a1 & a2 & a3 & ? & ? & ? & ? & ->)%word_of (b0 & b1 & b2 & b3 & ? & ? & ? & ? & ->)%word_of.
  rewrite le_word_lxor by done. rewrite !swab_word by (done || by apply lxor_byte). by rewrite le_word_lxor.
Qed.

(** Zeros at the high end are shifted out. *)
Lemma be_iter_shift p n : (n ≤ 31)%nat → ∀ x, 0 ≤ x < 2 ^ (32 - Z.of_nat n) → Nat.iter n (be_step p) x = x * 2 ^ Z.of_nat n.
Proof.
  induction n as [|n IH]; intros Hn x Hx; [cbn; lia|].
  assert (H31 : 2 ^ (32 - Z.of_nat (S n)) ≤ 2 ^ 31) by (apply Z.pow_le_mono_r; lia).
  assert (Hd : 2 ^ (32 - Z.of_nat n) = 2 * 2 ^ (32 - Z.of_nat (S n))).
  { replace (32 - Z.of_nat n) with (Z.succ (32 - Z.of_nat (S n))) by lia. apply Z.pow_succ_r. lia. }
  assert (E : be_step p x = x * 2).
  { unfold be_step. change 0x80000000 with (2 ^ 31). rewrite test_mask, (testbit_high 31) by lia. cbn [negb].
    rewrite Z.lxor_0_r, Z.shiftl_mul_pow2 by lia. unfold u32, wrap. apply Z.mod_small. lia. }
  rewrite Nat.iter_succ_r, E, IH by lia. rewrite Nat2Z.inj_succ, Z.pow_succ_r by lia. lia.
Qed.

Lemma be_row_check : all_bytes (λ i, swab32 (tget (crc32table_be !!! 0%nat) i) =? Nat.iter 8 (be_step CRCPOLY_BE) (le_word 0 0 0 i)) = true.
Proof. by vm_compute. Qed.

Section be.
Notation t0 := (crc32table_be !!! 0%nat).
Notation step8 := (Nat.iter 8 (be_step CRCPOLY_BE)).

Lemma be_range i : byte_ i → is_u32 (tget t0 i).
Proof. apply table_ok_range, le_table_ok. Qed.
Lemma be_row i : byte_ i → swab32 (tget t0 i) = step8 (le_word 0 0 0 i).
Proof. intros Hi. by apply Z.eqb_eq, (all_bytes_ok _ be_row_check). Qed.

Lemma be_table_lin a b : byte_ a → byte_ b → tget t0 (a .^ b) = tget t0 a .^ tget t0 b.
Proof.
  intros Ha Hb. assert (byte_ (a .^ b)) by by apply lxor_byte. pose proof be_range as Hr.
  rewrite <- (swab_swab (tget t0 (a .^ b))), <- (swab_swab (tget t0 a)), <- (swab_swab (tget t0 b)) by auto.
  rewrite <- swab_lin by (apply swab_u32; auto). f_equal. rewrite !be_row by done.
  rewrite <- (iter_lin _ (be_step_lin CRCPOLY_BE)). f_equal. by rewrite le_word_lxor.
Qed.

(** One byte, in the two byte orders. *)
Lemma be_byte c x : is_u32 c → byte_ x → swab32 (DO_CRC t0 (swab32 c) x) = step8 (c .^ u32 (Z.shiftl x 24)).
Proof.
  intros (c0 & c1 & c2 & c3 & H0 & H1 & H2 & H3 & ->)%word_of Hx. rewrite do_crc by done.
  assert (Hz : byte_ 0) by lia. assert (Hcx : byte_ (c3 .^ x)) by by apply lxor_byte.
  assert (Ex : x = le_word x 0 0 0) by (rewrite le_word_sum by done; lia).
  assert (Es : u32 (Z.shiftl x 24) = le_word 0 0 0 x).
  { rewrite le_word_sum, Z.shiftl_mul_pow2 by lia. unfold u32, wrap. rewrite Z.mod_small by lia. lia. }
  rewrite Es, swab_word by done. rewrite Ex at 1. rewrite !le_word_lxor by done. rewrite !Z.lxor_0_r.
  replace (le_word c0 c1 c2 (c3 .^ x)) with (le_word 0 0 0 (c3 .^ x) .^ le_word c0 c1 c2 0)
    by (by rewrite le_word_lxor, !Z.lxor_0_l, Z.lxor_0_r by done).
  rewrite (iter_lin _ (be_step_lin CRCPOLY_BE)), <- be_row by done.
  unfold advance. destruct (word_parts (c3 .^ x) c2 c1 c0) as (E0 & _ & _ & _ & E8 & _); [done..|].
  rewrite E0, E8, (swab_lin _ _ (be_range _ Hcx) (le_word_u32 c2 c1 c0 0 H2 H1 H0 Hz)).
  rewrite swab_word by lia. f_equal.
  rewrite be_iter_shift by (try rewrite !le_word_sum by done; lia). rewrite !le_word_sum by done. lia.
Qed.

Lemma be_fold buf : bytes buf → ∀ c, is_u32 c →
  swab32 (foldl (DO_CRC t0) (swab32 c) buf) = crc32_be_bits CRCPOLY_BE c buf.
Proof.
  unfold crc32_be_bits. induction 1 as [|x buf Hx _ IH]; intros c Hc; [by apply swab_swab|]. cbn [foldl].
  rewrite <- be_byte by done. rewrite <- IH.
  2:{ apply swab_u32. rewrite do_crc by done. apply advance_u32, xor_width; [apply be_range|lia|by apply swab_u32|lia]. }
  rewrite swab_swab; [done|]. rewrite do_crc by done. apply advance_u32, xor_width; [apply be_range|lia|by apply swab_u32|lia].
Qed.
End be.

Lemma slice_be c addr buf : is_u32 c → bytes buf → crc32_be c addr buf = Some (crc32_be_bits CRCPOLY_BE c buf).
Proof.
  intros Hc Hb. unfold crc32_be.
  rewrite crc32_body_ok; [cbn [mbind option_bind]; by rewrite be_fold|apply be_table_lin|apply be_range|apply table_ok_row, le_table_ok|by apply swab_u32|done].
Qed.

(** ** The other checks *)

Lemma small_rows :
  all_bytes (λ i, tget crc16_table i =? Nat.iter 8 (le_step 0xA001) i) = true ∧
  all_bytes (λ i, tget crc_ccitt_table i =? Nat.iter 8 (le_step 0x8408) i) = true ∧
  all_bytes (λ i, tget (crc32table_le !!! 0%nat) i =? Nat.iter 8 (le_step CRCPOLY_LE) i) = true ∧
  all_bytes (λ i, tget (crc32ctable_le !!! 0%nat) i =? Nat.iter 8 (le_step CRC32C_POLY_LE) i) = true.
Proof. split_and!; by vm_compute. Qed.

Lemma foldl_same {A B} (f g : A → B → A) : (∀ a x, f a x = g a x) → ∀ l a, foldl f a l = foldl g a l.
Proof. intros H l. induction l as [|x l IH]; intros a; [done|]. cbn. by rewrite H, IH. Qed.

Lemma crc16_ok c buf : bytes buf → crc16 c buf = crc32_le_bits 0xA001 (u16 c) buf.
Proof.
  intros Hb. rewrite <- (le_fold _ crc16_table (row_of _ _ (proj1 small_rows)) buf Hb).
  apply foldl_same. intros a x. unfold crc16_byte, DO_CRC. apply Z.lxor_comm.
Qed.
Lemma crc_ccitt_ok c buf : bytes buf → crc_ccitt c buf = crc32_le_bits 0x8408 (u16 c) buf.
Proof.
  intros Hb. rewrite <- (le_fold _ crc_ccitt_table (row_of _ _ (proj1 (proj2 small_rows))) buf Hb).
  apply foldl_same. intros a x. unfold crc_ccitt_byte, DO_CRC. apply Z.lxor_comm.
Qed.

(** The register of a compressed core dump: a reset, then the pieces in order. *)
Fixpoint gzip_stream (crc : Z) (chunks : list (list Z)) : Z :=
  match chunks with [] => crc | p :: chunks => gzip_stream (gzip_crc32_le crc (Some p)).1 chunks end.

Lemma gzip_fold p : bytes p → ∀ c, is_u32 c →
  foldl (gzip_byte (crc32table_le !!! 0%nat)) c p = crc32_le_bits CRCPOLY_LE c p ∧ is_u32 (crc32_le_bits CRCPOLY_LE c p).
Proof.
  pose proof (row_of _ _ (proj1 (proj2 (proj2 small_rows)))) as Hrow.
  pose proof (table_ok_range _ (proj1 le_table_ok)) as Hr. intros Hp c Hc. split.
  - rewrite <- (le_fold _ _ Hrow p Hp). revert c Hc. induction Hp as [|x p Hx _ IH]; intros c Hc; [done|]. cbn [foldl].
    assert (E : gzip_byte (crc32table_le !!! 0%nat) c x = DO_CRC (crc32table_le !!! 0%nat) c x).
    { unfold gzip_byte, DO_CRC, u32, wrap. rewrite (Z.mod_small c) by lia. done. }
    rewrite E. apply IH. rewrite do_crc by done. apply advance_u32, xor_width; [done|lia|done|lia].
  - rewrite <- (le_fold _ _ Hrow p Hp). by apply foldl_u32.
Qed.

Lemma gzip_stream_ok chunks : Forall bytes chunks → ∀ c, is_u32 c →
  gzip_stream c chunks = crc32_le_bits CRCPOLY_LE c (concat chunks).
Proof.
  induction 1 as [|p chunks Hp _ IH]; intros c Hc; [done|]. destruct (gzip_fold p Hp c Hc) as [E Hu].
  cbn [gzip_stream gzip_crc32_le fst concat]. rewrite E, IH by done. unfold crc32_le_bits. by rewrite foldl_app.
Qed.

(** ** Bit reversal *)

Definition reverses (w : Z) (f : Z → Z) : Prop :=
  ∀ x i, 0 ≤ x < 2 ^ w → Z.testbit (f x) i = (0 <=? i) && (i <? w) && Z.testbit x (w - 1 - i).

Lemma bitrev8_check :
  all_bytes (λ x, (0 <=? bitrev8 x) && (bitrev8 x <? 2 ^ 8) &&
                  forallb (λ n, Bool.eqb (Z.testbit (bitrev8 x) (Z.of_nat n)) (Z.testbit x (7 - Z.of_nat n))) (seq 0 8)) = true.
Proof. by vm_compute. Qed.

Lemma bitrev8_reverses : reverses 8 bitrev8.
Proof.
  intros x i Hx. pose proof (all_bytes_ok _ bitrev8_check x Hx) as H. cbv beta in H.
  rewrite !andb_true_iff, forallb_forall in H. destruct H as [[Hl Hu] H].
  destruct (Z.leb_spec 0 i); [|by apply Z.testbit_neg_r]. destruct (Z.ltb_spec i 8); cbn [andb].
  - specialize (H (Z.to_nat i)). rewrite Z2Nat.id in H by lia. apply eqb_prop, H, in_seq. lia.
  - apply (testbit_high 8); lia.
Qed.

(** The halves swapped and reversed. *)
Lemma reverses_double w f : 0 < w → reverses w f → reverses (2 * w) (λ x, Z.shiftl (f (x .& Z.ones w)) w .| f (x >>u w)).
Proof.
  intros Hw Hf x i Hx. assert (Hp : 2 ^ (2 * w) = 2 ^ w * 2 ^ w) by (rewrite <- Z.pow_add_r by lia; f_equal; lia).
  assert (Hlow : 0 ≤ x .& Z.ones w < 2 ^ w) by (rewrite Z.land_ones by lia; apply Z.mod_pos_bound; lia).
  assert (Hhigh : 0 ≤ x >>u w < 2 ^ w).
  { rewrite Z.shiftr_div_pow2 by lia. split; [apply Z.div_pos; lia|apply Z.div_lt_upper_bound; lia]. }
  rewrite Z.lor_spec, testbit_shiftl, !Hf, Z.land_spec, testbit_ones by done || lia.
  rewrite testbit_shiftr. 
  bool_compare; cbn [andb orb]; rewrite ?andb_true_r, ?andb_false_r, ?orb_false_r; try done.
  all: try (f_equal; lia).
Qed.

Lemma bitrev16_reverses : reverses 16 bitrev16.
Proof. exact (reverses_double 8 bitrev8 eq_refl bitrev8_reverses). Qed.
Lemma bitrev32_reverses : reverses 32 bitrev32.
Proof. exact (reverses_double 16 bitrev16 eq_refl bitrev16_reverses). Qed.

Lemma reverses_range w f x : 0 ≤ w → reverses w f → 0 ≤ x < 2 ^ w → 0 ≤ f x < 2 ^ w.
Proof.
  intros Hw Hf Hx. apply bits_bound; [done|]. intros i Hi. rewrite Hf by done. bool_compare.
Qed.

Lemma reverses_twice w f x : 0 ≤ w → reverses w f → 0 ≤ x < 2 ^ w → f (f x) = x.
Proof.
  intros Hw Hf Hx. apply Z.bits_inj'. intros i Hi. rewrite !Hf by (done || by eapply reverses_range).
  bool_compare; cbn [andb]; [by replace (w - 1 - (w - 1 - i)) with i by lia|symmetry; by apply (testbit_high w)].
Qed.

Lemma le_step_test p c : le_step p c = (c >>u 1) .^ (if negb (Z.testbit c 0) then 0 else p).
Proof. unfold le_step. change 1 with (2 ^ 0) at 2. by rewrite test_mask. Qed.

Lemma le_step_u32 p c : is_u32 p → is_u32 c → is_u32 (le_step p c).
Proof.
  intros Hp Hc. apply xor_width; [lia| |destruct (_ =? 0); lia]. rewrite Z.shiftr_div_pow2 by lia. dlia.
Qed.

(** The big-endian step is the little-endian one read from the other end. *)
Lemma step_mirror p c : is_u32 p → is_u32 c → be_step (bitrev32 p) (bitrev32 c) = bitrev32 (le_step p c).
Proof.
  intros Hp Hc. pose proof bitrev32_reverses as Hr. rewrite le_step_test. unfold be_step.
  change 0x80000000 with (2 ^ 31). rewrite !test_mask, Hr by (done || lia).
  change ((0 <=? 31) && (31 <? 32)) with true. change (32 - 1 - 31) with 0. cbn [andb].
  pose proof (le_step_u32 p c Hp Hc) as Hle. rewrite le_step_test in Hle.
  apply Z.bits_inj'. intros i Hi. rewrite Hr by done. rewrite !Z.lxor_spec, testbit_u32, testbit_shiftl, testbit_shiftr, Hr by done.
  destruct (Z.testbit c 0); cbn [negb]; rewrite ?Hr, ?Z.bits_0 by done.
  all: bool_compare; cbn [andb xorb]; rewrite ?xorb_false_r; try done.
  all: try (do 2 f_equal; lia).
  all: try (replace (32 - 1 - i + 1) with 32 by lia; rewrite (testbit_high 32 c) by lia; done).
Qed.

Lemma iter_mirror p n : is_u32 p → ∀ c, is_u32 c →
  Nat.iter n (be_step (bitrev32 p)) (bitrev32 c) = bitrev32 (Nat.iter n (le_step p) c) ∧ is_u32 (Nat.iter n (le_step p) c).
Proof.
  intros Hp. induction n as [|n IH]; intros c Hc; [done|]. rewrite !Nat.iter_succ_r, step_mirror by done.
  by apply IH, le_step_u32.
Qed.

Lemma byte_mirror c x : is_u32 c → byte_ x → bitrev32 c .^ u32 (Z.shiftl (bitrev8 x) 24) = bitrev32 (c .^ x).
Proof.
  intros Hc Hx. apply Z.bits_inj'. intros i Hi.
  rewrite bitrev32_reverses by (apply xor_width; lia). rewrite !Z.lxor_spec, testbit_u32, testbit_shiftl.
  rewrite bitrev32_reverses, bitrev8_reverses by done.
  bool_compare; cbn [andb]; try done.
  - by replace (8 - 1 - (i - 24)) with (32 - 1 - i) by lia.
  - rewrite (testbit_high 8 x) by (change (2 ^ 8) with 256; lia). done.
Qed.

Lemma bits_mirror p buf : is_u32 p → bytes buf → ∀ c, is_u32 c →
  crc32_be_bits (bitrev32 p) (bitrev32 c) (map bitrev8 buf) = bitrev32 (crc32_le_bits p c buf).
Proof.
  intros Hp. unfold crc32_be_bits, crc32_le_bits. induction 1 as [|x buf Hx _ IH]; intros c Hc; [done|]. cbn [foldl map].
  rewrite byte_mirror by done. destruct (iter_mirror p 8 Hp (c .^ x)) as [-> Hu]; [apply xor_width; lia|]. by apply IH.
Qed.

Lemma poly_mirror : bitrev32 CRCPOLY_LE = CRCPOLY_BE.
Proof. by vm_compute. Qed.

(** ** The claim *)

(** C34: The table-driven checks compute what the bitwise definition of the same source computes,
    for every seed, buffer and alignment: crc32_le and __crc32c_le four bytes at a time with the
    tables of the generator, crc32_be through a byte-swapped register and tables, crc16 and
    crc_ccitt, whose seeds have 16 bits, with the tables written in the source.  The register of the core dump, reset and fed
    in pieces, holds the check of the whole; and the two bit orders agree: crc32_be of the reversed
    bytes from the reversed seed is the reverse of crc32_le. *)
Theorem crc_correct c addr buf : is_u32 c → bytes buf →
  crc32_le c addr buf = Some (crc32_le_bits CRCPOLY_LE c buf) ∧
  __crc32c_le c addr buf = Some (crc32_le_bits CRC32C_POLY_LE c buf) ∧
  crc32_be c addr buf = Some (crc32_be_bits CRCPOLY_BE c buf) ∧
  crc16 c buf = crc32_le_bits 0xA001 (u16 c) buf ∧
  crc_ccitt c buf = crc32_le_bits 0x8408 (u16 c) buf ∧
  (∀ chunks, concat chunks = buf →
     gzip_stream (gzip_crc32_le c None).1 chunks = crc32_le_bits CRCPOLY_LE 0xffffffff buf) ∧
  crc32_be (bitrev32 c) addr (map bitrev8 buf) = bitrev32 <$> crc32_le c addr buf.
Proof.
  intros Hc Hb. assert (Hp : is_u32 CRCPOLY_LE) by (unfold CRCPOLY_LE; lia). destruct small_rows as (_ & _ & Hle & Hcle). destruct le_table_ok as (Tle & Tc & _).
  assert (Ele : crc32_le c addr buf = Some (crc32_le_bits CRCPOLY_LE c buf)) 
    by exact (slice_le crc32table_le _ _ _ _ Tle Hle Hc Hb).
  split; [done|]. split; [exact (slice_le crc32ctable_le _ _ _ _ Tc Hcle Hc Hb)|]. split; [by apply slice_be|].
  split; [by apply crc16_ok|]. split; [by apply crc_ccitt_ok|]. split.
  - intros chunks <-. cbn [gzip_crc32_le fst]. apply gzip_stream_ok; [|lia]. unfold bytes in *. by apply Forall_concat.
  - rewrite Ele, slice_be; cbn [fmap option_fmap option_map].
    + rewrite <- poly_mirror. apply f_equal. rewrite (bits_mirror CRCPOLY_LE buf Hp Hb c Hc). reflexivity.
    + apply (reverses_range 32 bitrev32); [lia|apply bitrev32_reverses|exact Hc].
    + apply Forall_map. eapply Forall_impl; [exact Hb|]. intros x Hx. apply (reverses_range 8 bitrev8); [lia|apply bitrev8_reverses|exact Hx].
Qed.

(** The check value of the digits 1 to 9, at an odd address. *)
Lemma crc_correct_witness :
  crc32_le 0xffffffff 3 [49; 50; 51; 52; 53; 54; 55; 56; 57] = Some (0xCBF43926 .^ 0xffffffff) ∧
  crc32_le 0xffffffff 3 [49; 50; 51; 52; 53; 54; 55; 56; 57]
    = Some (crc32_le_bits CRCPOLY_LE 0xffffffff [49; 50; 51; 52; 53; 54; 55; 56; 57]).
Proof.
  split; [by vm_compute|]. apply (crc_correct 0xffffffff 3 [49; 50; 51; 52; 53; 54; 55; 56; 57]); [lia|].
  unfold bytes. repeat (apply Forall_cons_2; [lia|]). apply Forall_nil_2.
Defined.
