(* ===== verification/Radix.v ===== *)
(** * Radix: radix trees (lib/radix-tree.c, include/linux/radix-tree.h)

    One tree ([rt_root]) over a heap of nodes by address, with the node cache ([rt_cache], the
    free objects of the slab), the pool of preloaded nodes of the cpu and the queue of call_rcu.
    The product is configured with CONFIG_BASE_SMALL=0: a node has 64 slots and one word for each
    of the three tags.  A slot holds the address of a node or an item; the low bit of a pointer
    tells a node from an item at the root.  The slab and call_rcu are parameters: which free
    object an allocation returns, if any, and what the queue writes into a node. *)

From S2P Require Import Prelude Bitops.

Definition RADIX_TREE_MAP_SHIFT : Z := 6.
Definition RADIX_TREE_MAP_SIZE : Z := 2 ^ 6.
Definition RADIX_TREE_MAP_MASK : Z := RADIX_TREE_MAP_SIZE - 1.
Definition RADIX_TREE_TAG_LONGS : Z := (RADIX_TREE_MAP_SIZE + BITS_PER_LONG - 1) / BITS_PER_LONG.
Definition RADIX_TREE_MAX_TAGS : Z := 3.
Definition RADIX_TREE_INDEX_BITS : Z := 8 * 8.
Definition RADIX_TREE_MAX_PATH : Z := (RADIX_TREE_INDEX_BITS + RADIX_TREE_MAP_SHIFT - 1) / RADIX_TREE_MAP_SHIFT.
Definition RADIX_TREE_PRELOAD_SIZE : Z := RADIX_TREE_MAX_PATH * 2 - 1.
Definition RADIX_TREE_INDIRECT_PTR : Z := 1.
Definition __GFP_WAIT : Z := 0x10.
Definition __GFP_BITS_SHIFT : Z := 25.
Definition __GFP_BITS_MASK : Z := 2 ^ __GFP_BITS_SHIFT - 1.
Definition rt_ENOMEM : Z := 12.
Definition rt_EEXIST : Z := 17.

Record radix_tree_node : Type := RtNode {
  rn_height : Z;
  rn_count : Z;
  rn_parent : Z;              (* shared with the rcu_head *)
  rn_slots : list Z;
  rn_tags : list (list Z)     (* tags[RADIX_TREE_MAX_TAGS][RADIX_TREE_TAG_LONGS] *)
}.
Record radix_tree_root : Type := RtRoot { rr_height : Z; rr_gfp_mask : Z; rr_rnode : Z }.
Record radix_tree_preload_t : Type := RtPreload { rtp_nr : Z; rtp_nodes : list Z }.

Record rt_state : Type := RtState {
  rt_nodes : gmap Z radix_tree_node;
  rt_root : radix_tree_root;
  rt_preload : radix_tree_preload_t;
  rt_cache : list Z;
  rt_rcu : list Z
}.

(** The slab as one operation finds it: an object of the free ones, or a failure, which ends the
    operation; and the word call_rcu puts in the place of the parent, given the queue.  A client's
    operations run each in an environment of its own (rt_execs), so that the answer of the slab may
    change while its free list stays the same. *)
Class rt_env : Type := {
  slab_pick : list Z → Z → option Z;
  rcu_link : list Z → Z
}.
Class rt_env_ok (E : rt_env) : Prop := slab_pick_in : ∀ l gfp a, slab_pick l gfp = Some a → a ∈ l.

(** radix_tree_node_ctor. *)
Definition radix_tree_node_ctor : radix_tree_node := RtNode 0 0 0 (replicate 64 0) (replicate 3 [0]).

(** ** Pointers *)

Definition radix_tree_is_indirect_ptr (ptr : Z) : bool := negb (ptr .& RADIX_TREE_INDIRECT_PTR =? 0).
Definition ptr_to_indirect (ptr : Z) : Z := ptr .| RADIX_TREE_INDIRECT_PTR.
Definition indirect_to_ptr (ptr : Z) : Z := ptr .& (~64 RADIX_TREE_INDIRECT_PTR).

(** ** The largest index of each height *)

Definition __maxindex (height : Z) : Z :=
  let width := u32 (height * RADIX_TREE_MAP_SHIFT) in
  let shift := s32 (RADIX_TREE_INDEX_BITS - width) in
  if shift <? 0 then ULONG_MAX else if BITS_PER_LONG <=? shift then 0 else ULONG_MAX >>u shift.
Definition height_to_maxindex : list Z := map (λ i, __maxindex (Z.of_nat i)) (seq 0 12).
Definition radix_tree_maxindex (height : Z) : option Z := rd height_to_maxindex height.

(** ** Access *)

Notation RM := (prog rt_state).

Definition rt_get (a : Z) : RM radix_tree_node := λ s, n ← rt_nodes s !! a; Some (n, s).
Definition rt_put (a : Z) (n : radix_tree_node) : RM unit :=
  λ s, _ ← rt_nodes s !! a;
       Some (tt, RtState (<[a := n]> (rt_nodes s)) (rt_root s) (rt_preload s) (rt_cache s) (rt_rcu s)).
Definition rt_root_get : RM radix_tree_root := gets rt_root.
Definition rt_root_put (r : radix_tree_root) : RM unit :=
  modify (λ s, RtState (rt_nodes s) r (rt_preload s) (rt_cache s) (rt_rcu s)).
Definition rt_preload_put (p : radix_tree_preload_t) : RM unit :=
  modify (λ s, RtState (rt_nodes s) (rt_root s) p (rt_cache s) (rt_rcu s)).
Definition rt_cache_put (c : list Z) : RM unit :=
  modify (λ s, RtState (rt_nodes s) (rt_root s) (rt_preload s) c (rt_rcu s)).
Definition rt_rcu_put (q : list Z) : RM unit :=
  modify (λ s, RtState (rt_nodes s) (rt_root s) (rt_preload s) (rt_cache s) q).

Definition rn_with_height (n : radix_tree_node) (h : Z) := RtNode h (rn_count n) (rn_parent n) (rn_slots n) (rn_tags n).
Definition rn_with_count (n : radix_tree_node) (c : Z) := RtNode (rn_height n) c (rn_parent n) (rn_slots n) (rn_tags n).
Definition rn_with_parent (n : radix_tree_node) (p : Z) := RtNode (rn_height n) (rn_count n) p (rn_slots n) (rn_tags n).
Definition rn_with_slots (n : radix_tree_node) (l : list Z) := RtNode (rn_height n) (rn_count n) (rn_parent n) l (rn_tags n).
Definition rn_with_tags (n : radix_tree_node) (t : list (list Z)) := RtNode (rn_height n) (rn_count n) (rn_parent n) (rn_slots n) t.

Definition rt_slot (a i : Z) : RM Z := n ← rt_get a; lift (rd (rn_slots n) i).
Definition rt_set_slot (a i v : Z) : RM unit :=
  n ← rt_get a; l ← lift (wr (rn_slots n) i v); rt_put a (rn_with_slots n l).
Definition rt_set_parent (a p : Z) : RM unit := n ← rt_get a; rt_put a (rn_with_parent n p).
Definition rt_set_height (a h : Z) : RM unit := n ← rt_get a; rt_put a (rn_with_height n h).
Definition rt_set_count (a c : Z) : RM unit := n ← rt_get a; rt_put a (rn_with_count n c).
Definition rt_add_count (a d : Z) : RM unit := n ← rt_get a; rt_put a (rn_with_count n (u32 (rn_count n + d))).
Definition rt_set_rnode (v : Z) : RM unit := r ← rt_root_get; rt_root_put (RtRoot (rr_height r) (rr_gfp_mask r) v).
Definition rt_set_rheight (h : Z) : RM unit := r ← rt_root_get; rt_root_put (RtRoot h (rr_gfp_mask r) (rr_rnode r)).

Definition root_gfp_mask (root : radix_tree_root) : Z := rr_gfp_mask root .& __GFP_BITS_MASK.

(** ** Tags *)

Definition tag_set (node tag offset : Z) : RM unit :=
  n ← rt_get node; w ← lift (rd (rn_tags n) tag); w ← lift (set_bit offset w);
  t ← lift (wr (rn_tags n) tag w); rt_put node (rn_with_tags n t).
Definition tag_clear (node tag offset : Z) : RM unit :=
  n ← rt_get node; w ← lift (rd (rn_tags n) tag); w ← lift (clear_bit offset w);
  t ← lift (wr (rn_tags n) tag w); rt_put node (rn_with_tags n t).
Definition tag_get (node tag offset : Z) : RM bool :=
  n ← rt_get node; w ← lift (rd (rn_tags n) tag); lift (test_bit offset w).

Definition root_tag_bit (tag : Z) : Z := Z.shiftl 1 (tag + __GFP_BITS_SHIFT).
Definition root_tag_set (tag : Z) : RM unit :=
  r ← rt_root_get; rt_root_put (RtRoot (rr_height r) (rr_gfp_mask r .| root_tag_bit tag) (rr_rnode r)).
Definition root_tag_clear (tag : Z) : RM unit :=
  r ← rt_root_get; rt_root_put (RtRoot (rr_height r) (rr_gfp_mask r .& u32 (Z.lnot (root_tag_bit tag))) (rr_rnode r)).
Definition root_tag_clear_all : RM unit :=
  r ← rt_root_get; rt_root_put (RtRoot (rr_height r) (rr_gfp_mask r .& __GFP_BITS_MASK) (rr_rnode r)).
Definition root_tag_get (root : radix_tree_root) (tag : Z) : bool := negb (rr_gfp_mask root .& root_tag_bit tag =? 0).

Definition any_tag_set (node tag : Z) : RM bool :=
  n ← rt_get node; w ← lift (rd (rn_tags n) tag);
  mret (existsb (λ x, negb (x =? 0)) (take (Z.to_nat RADIX_TREE_TAG_LONGS) w)).

Section Radix.
Context {E : rt_env}.

(** ** Allocation *)

Definition rt_remove (a : Z) (l : list Z) : list Z := filter (λ x, x ≠ a) l.

Definition kmem_cache_alloc (gfp_mask : Z) : RM Z :=
  c ← gets rt_cache;
  match slab_pick c gfp_mask with
  | Some a => _ ← rt_cache_put (rt_remove a c); mret a
  | None => mret 0
  end.
Definition kmem_cache_free (node : Z) : RM unit := c ← gets rt_cache; rt_cache_put (node :: c).

Definition radix_tree_node_alloc : RM Z :=
  root ← rt_root_get;
  let gfp_mask := root_gfp_mask root in
  ret ← (if gfp_mask .& __GFP_WAIT =? 0 then
           rtp ← gets rt_preload;
           if negb (rtp_nr rtp =? 0) then
             ret ← lift (rd (rtp_nodes rtp) (rtp_nr rtp - 1));
             l ← lift (wr (rtp_nodes rtp) (rtp_nr rtp - 1) 0);
             _ ← rt_preload_put (RtPreload (rtp_nr rtp - 1) l);
             mret ret
           else mret 0
         else mret 0);
  ret ← (if ret =? 0 then kmem_cache_alloc gfp_mask else mret ret);
  if radix_tree_is_indirect_ptr ret then wrong else mret ret.

(** The callback of call_rcu. *)
Definition radix_tree_node_rcu_free (node : Z) : RM unit :=
  _ ← for_up 3 0 (λ i, tag_clear node i 0);
  _ ← rt_set_slot node 0 0;
  _ ← rt_set_count node 0;
  kmem_cache_free node.

Definition radix_tree_node_free (node : Z) : RM unit :=
  q ← gets rt_rcu;
  _ ← rt_set_parent node (rcu_link q);
  rt_rcu_put (q ++ [node]).

(** The end of a grace period: the callbacks of the queue in order. *)
Fixpoint rcu_run (q : list Z) : RM unit :=
  match q with [] => mret tt | node :: q => _ ← radix_tree_node_rcu_free node; rcu_run q end.
Definition rcu_barrier : RM unit := q ← gets rt_rcu; _ ← rt_rcu_put []; rcu_run q.

(** radix_tree_preload, for a cpu that runs nothing else meanwhile. *)
Fixpoint preload_loop (fuel : nat) (gfp_mask : Z) : RM Z :=
  match fuel with
  | O => wrong
  | S fuel =>
      rtp ← gets rt_preload;
      if rtp_nr rtp <? RADIX_TREE_PRELOAD_SIZE then
        node ← kmem_cache_alloc gfp_mask;
        if node =? 0 then mret (- rt_ENOMEM)
        else
          rtp ← gets rt_preload;
          _ ← (if rtp_nr rtp <? RADIX_TREE_PRELOAD_SIZE then
                 l ← lift (wr (rtp_nodes rtp) (rtp_nr rtp) node);
                 rt_preload_put (RtPreload (rtp_nr rtp + 1) l)
               else kmem_cache_free node);
          preload_loop fuel gfp_mask
      else mret 0
  end.
Definition radix_tree_preload (gfp_mask : Z) : RM Z := preload_loop 22 gfp_mask.

(** ** Insertion *)

Fixpoint extend_height (fuel : nat) (index height : Z) : option Z :=
  match fuel with
  | O => None
  | S fuel => m ← radix_tree_maxindex height; if m <? index then extend_height fuel index (height + 1) else Some height
  end.

Fixpoint extend_loop (fuel : nat) (height : Z) : RM Z :=
  match fuel with
  | O => wrong
  | S fuel =>
      node ← radix_tree_node_alloc;
      if node =? 0 then mret (- rt_ENOMEM)
      else
        root ← rt_root_get;
        _ ← for_up 3 0 (λ tag, if root_tag_get root tag then tag_set node tag 0 else mret tt);
        let newheight := rr_height root + 1 in
        _ ← rt_set_height node newheight;
        _ ← rt_set_count node 1;
        _ ← rt_set_parent node 0;
        slot ← (if 1 <? newheight then
                  let slot := indirect_to_ptr (rr_rnode root) in
                  _ ← rt_set_parent slot node; mret slot
                else mret (rr_rnode root));
        _ ← rt_set_slot node 0 slot;
        _ ← rt_set_rnode (ptr_to_indirect node);
        _ ← rt_set_rheight newheight;
        if newheight <? height then extend_loop fuel height else mret 0
  end.

Definition radix_tree_extend (index : Z) : RM Z :=
  root ← rt_root_get;
  height ← lift (extend_height 12 index (rr_height root + 1));
  if rr_rnode root =? 0 then _ ← rt_set_rheight height; mret 0
  else extend_loop 12 height.

(** What the descent ends with: no memory, or the node, the offset in it and the slot. *)
Fixpoint rt_insert_loop (height : nat) (index shift node slot offset : Z) : RM (option (Z * Z * Z)) :=
  match height with
  | O => mret (Some (node, offset, slot))
  | S height' =>
      slot ← (if slot =? 0 then
                slot ← radix_tree_node_alloc;
                if slot =? 0 then mret 0
                else
                  _ ← rt_set_height slot (Z.of_nat height);
                  _ ← rt_set_parent slot node;
                  _ ← (if negb (node =? 0) then _ ← rt_set_slot node offset slot; rt_add_count node 1
                       else rt_set_rnode (ptr_to_indirect slot));
                  mret slot
              else mret slot);
      if slot =? 0 then mret None
      else
        let offset := (index >>u shift) .& RADIX_TREE_MAP_MASK in
        let node := slot in
        slot ← rt_slot node offset;
        rt_insert_loop height' index (u32 (shift - RADIX_TREE_MAP_SHIFT)) node slot offset
  end.

Definition radix_tree_insert (index item : Z) : RM Z :=
  if radix_tree_is_indirect_ptr item then wrong
  else
    root ← rt_root_get;
    m ← lift (radix_tree_maxindex (rr_height root));
    error ← (if m <? index then radix_tree_extend index else mret 0);
    if negb (error =? 0) then mret error
    else
      root ← rt_root_get;
      let height := rr_height root in
      r ← rt_insert_loop (Z.to_nat height) index (u32 ((height - 1) * RADIX_TREE_MAP_SHIFT)) 0 (indirect_to_ptr (rr_rnode root)) 0;
      match r with
      | None => mret (- rt_ENOMEM)
      | Some (node, offset, slot) =>
          if negb (slot =? 0) then mret (- rt_EEXIST)
          else if negb (node =? 0) then
            _ ← rt_add_count node 1;
            _ ← rt_set_slot node offset item;
            t0 ← tag_get node 0 offset;
            t1 ← tag_get node 1 offset;
            if t0 || t1 then wrong else mret 0
          else
            _ ← rt_set_rnode item;
            root ← rt_root_get;
            if root_tag_get root 0 || root_tag_get root 1 then wrong else mret 0
      end.

(** ** Lookup *)

(** The address of a slot. *)
Inductive rt_place : Type := RootPlace | SlotPlace (node offset : Z).

(** The loop of radix_tree_lookup_element: the slot and its value, which is not null. *)
Fixpoint lookup_loop (height : nat) (index shift node : Z) : RM (option (rt_place * Z)) :=
  match height with
  | O => wrong
  | S height' =>
      let offset := (index >>u shift) .& RADIX_TREE_MAP_MASK in
      v ← rt_slot node offset;
      if v =? 0 then mret None
      else match height' with
           | O => mret (Some (SlotPlace node offset, v))
           | S _ => lookup_loop height' index (u32 (shift - RADIX_TREE_MAP_SHIFT)) v
           end
  end.

Definition radix_tree_lookup_element (index : Z) : RM (option (rt_place * Z)) :=
  root ← rt_root_get;
  let node := rr_rnode root in
  if node =? 0 then mret None
  else if negb (radix_tree_is_indirect_ptr node) then
    mret (if 0 <? index then None else Some (RootPlace, node))
  else
    let node := indirect_to_ptr node in
    n ← rt_get node;
    let height := rn_height n in
    m ← lift (radix_tree_maxindex height);
    if m <? index then mret None
    else
      r ← lookup_loop (Z.to_nat height) index (u32 ((height - 1) * RADIX_TREE_MAP_SHIFT)) node;
      mret (match r with Some (place, v) => Some (place, indirect_to_ptr v) | None => None end).

Definition radix_tree_lookup_slot (index : Z) : RM (option rt_place) :=
  r ← radix_tree_lookup_element index; mret (fst <$> r).
Definition radix_tree_lookup (index : Z) : RM Z :=
  r ← radix_tree_lookup_element index; mret (match r with Some (_, v) => v | None => 0 end).

Definition radix_tree_replace_slot (pslot : rt_place) (item : Z) : RM unit :=
  if radix_tree_is_indirect_ptr item then wrong
  else match pslot with RootPlace => rt_set_rnode item | SlotPlace node offset => rt_set_slot node offset item end.

(** ** Tags of items *)

Fixpoint tag_set_loop (height : nat) (index tag shift slot : Z) : RM Z :=
  match height with
  | O => mret slot
  | S height =>
      let offset := (index >>u shift) .& RADIX_TREE_MAP_MASK in
      t ← tag_get slot tag offset;
      _ ← (if negb (t : bool) then tag_set slot tag offset else mret tt);
      slot ← rt_slot slot offset;
      if slot =? 0 then wrong
      else tag_set_loop height index tag (u32 (shift - RADIX_TREE_MAP_SHIFT)) slot
  end.

Definition radix_tree_tag_set (index tag : Z) : RM Z :=
  root ← rt_root_get;
  let height := rr_height root in
  m ← lift (radix_tree_maxindex height);
  if m <? index then wrong
  else
    slot ← tag_set_loop (Z.to_nat height) index tag (u32 ((height - 1) * RADIX_TREE_MAP_SHIFT)) (indirect_to_ptr (rr_rnode root));
    root ← rt_root_get;
    _ ← (if negb (slot =? 0) && negb (root_tag_get root tag) then root_tag_set tag else mret tt);
    mret slot.

(** The descent of radix_tree_tag_clear and radix_tree_delete: the last node, the offset in it and
    the slot, or nothing if the path ends early. *)
Fixpoint walk_loop (height : nat) (index shift node slot offset : Z) : RM (option (Z * Z * Z)) :=
  match height with
  | O => mret (Some (node, offset, slot))
  | S height =>
      if slot =? 0 then mret None
      else
        let shift := shift - RADIX_TREE_MAP_SHIFT in
        let offset := (index >>u shift) .& RADIX_TREE_MAP_MASK in
        let node := slot in
        slot ← rt_slot slot offset;
        walk_loop height index shift node slot offset
  end.

(** The way up; whether it reaches the root. *)
Fixpoint tag_clear_up (fuel : nat) (index tag node offset : Z) : RM bool :=
  match fuel with
  | O => wrong
  | S fuel =>
      if node =? 0 then mret true
      else
        t ← tag_get node tag offset;
        if negb (t : bool) then mret false
        else
          _ ← tag_clear node tag offset;
          any ← any_tag_set node tag;
          if (any : bool) then mret false
          else
            let index := index >>u RADIX_TREE_MAP_SHIFT in
            n ← rt_get node;
            tag_clear_up fuel index tag (rn_parent n) (index .& RADIX_TREE_MAP_MASK)
  end.

Definition radix_tree_tag_clear (index tag : Z) : RM Z :=
  root ← rt_root_get;
  let height := rr_height root in
  m ← lift (radix_tree_maxindex height);
  if m <? index then mret 0
  else
    r ← walk_loop (Z.to_nat height) index (height * RADIX_TREE_MAP_SHIFT) 0 (indirect_to_ptr (rr_rnode root)) 0;
    match r with
    | None => mret 0
    | Some (node, offset, slot) =>
        if slot =? 0 then mret 0
        else
          up ← tag_clear_up 12 index tag node offset;
          root ← rt_root_get;
          _ ← (if (up : bool) && root_tag_get root tag then root_tag_clear tag else mret tt);
          mret slot
    end.

Fixpoint tag_get_loop (height : nat) (index tag shift node : Z) : RM Z :=
  match height with
  | O => wrong
  | S height' =>
      if node =? 0 then mret 0
      else
        let offset := (index >>u shift) .& RADIX_TREE_MAP_MASK in
        t ← tag_get node tag offset;
        if negb (t : bool) then mret 0
        else match height' with
             | O => mret 1
             | S _ => node ← rt_slot node offset; tag_get_loop height' index tag (u32 (shift - RADIX_TREE_MAP_SHIFT)) node
             end
  end.

Definition radix_tree_tag_get (index tag : Z) : RM Z :=
  root ← rt_root_get;
  if negb (root_tag_get root tag) then mret 0
  else
    let node := rr_rnode root in
    if node =? 0 then mret 0
    else if negb (radix_tree_is_indirect_ptr node) then mret (Z.b2z (index =? 0))
    else
      let node := indirect_to_ptr node in
      n ← rt_get node;
      let height := rn_height n in
      m ← lift (radix_tree_maxindex height);
      if m <? index then mret 0
      else tag_get_loop (Z.to_nat height) index tag (u32 ((height - 1) * RADIX_TREE_MAP_SHIFT)) node.

Definition radix_tree_tagged (tag : Z) : RM bool := root ← rt_root_get; mret (root_tag_get root tag).

(** ** Deletion *)

Fixpoint radix_tree_shrink (fuel : nat) : RM unit :=
  match fuel with
  | O => wrong
  | S fuel =>
      root ← rt_root_get;
      if 0 <? rr_height root then
        if negb (radix_tree_is_indirect_ptr (rr_rnode root)) then wrong
        else
          let to_free := indirect_to_ptr (rr_rnode root) in
          n ← rt_get to_free;
          if negb (rn_count n =? 1) then mret tt
          else
            slot ← rt_slot to_free 0;
            if slot =? 0 then mret tt
            else
              slot ← (if 1 <? rr_height root then _ ← rt_set_parent slot 0; mret (ptr_to_indirect slot) else mret slot);
              _ ← rt_set_rnode slot;
              _ ← rt_set_rheight (rr_height root - 1);
              _ ← (if rr_height root - 1 =? 0 then
                     v ← rt_slot to_free 0; rt_set_slot to_free 0 (v .| RADIX_TREE_INDIRECT_PTR)
                   else mret tt);
              _ ← radix_tree_node_free to_free;
              radix_tree_shrink fuel
      else mret tt
  end.

Definition free_if (to_free : Z) : RM unit := if negb (to_free =? 0) then radix_tree_node_free to_free else mret tt.

(** The way up frees the nodes that have become empty. *)
Fixpoint delete_up (fuel : nat) (index node offset to_free : Z) : RM unit :=
  match fuel with
  | O => wrong
  | S fuel =>
      if node =? 0 then
        _ ← root_tag_clear_all;
        _ ← rt_set_rheight 0;
        _ ← rt_set_rnode 0;
        free_if to_free
      else
        _ ← rt_set_slot node offset 0;
        _ ← rt_add_count node (-1);
        _ ← free_if to_free;
        n ← rt_get node;
        if negb (rn_count n =? 0) then
          root ← rt_root_get;
          if node =? indirect_to_ptr (rr_rnode root) then radix_tree_shrink 12 else mret tt
        else
          let index := index >>u RADIX_TREE_MAP_SHIFT in
          delete_up fuel index (rn_parent n) (index .& RADIX_TREE_MAP_MASK) node
  end.

Definition radix_tree_delete (index : Z) : RM Z :=
  root ← rt_root_get;
  let height := rr_height root in
  m ← lift (radix_tree_maxindex height);
  if m <? index then mret 0
  else if height =? 0 then
    _ ← root_tag_clear_all;
    _ ← rt_set_rnode 0;
    mret (rr_rnode root)
  else
    r ← walk_loop (Z.to_nat height) index (height * RADIX_TREE_MAP_SHIFT) 0 (indirect_to_ptr (rr_rnode root)) 0;
    match r with
    | None => mret 0
    | Some (node, offset, slot) =>
        if slot =? 0 then mret 0
        else
          _ ← for_up 3 0 (λ tag, t ← tag_get node tag offset;
                                 if (t : bool) then _ ← radix_tree_tag_clear index tag; mret tt else mret tt);
          _ ← delete_up 12 index node offset 0;
          mret slot
    end.

(** ** Holes *)

Fixpoint next_hole_loop (max_scan : nat) (index : Z) : RM Z :=
  match max_scan with
  | O => mret index
  | S max_scan =>
      v ← radix_tree_lookup index;
      if v =? 0 then mret index
      else let index := index +64 1 in if index =? 0 then mret index else next_hole_loop max_scan index
  end.
Definition radix_tree_next_hole (index max_scan : Z) : RM Z := next_hole_loop (Z.to_nat max_scan) index.

Fixpoint prev_hole_loop (max_scan : nat) (index : Z) : RM Z :=
  match max_scan with
  | O => mret index
  | S max_scan =>
      v ← radix_tree_lookup index;
      if v =? 0 then mret index
      else let index := index -64 1 in if index =? ULONG_MAX then mret index else prev_hole_loop max_scan index
  end.
Definition radix_tree_prev_hole (index max_scan : Z) : RM Z := prev_hole_loop (Z.to_nat max_scan) index.
End Radix.
