(* ===== verification/RadixPath.v ===== *)
(** * RadixPath: paths in a radix tree

    A path is a list of digits of six bits, from the root down; [reach] follows it through the
    slots of the nodes.  An index of a tree of height [h] is its [digits].  The lemmas say what an
    update of one slot, a new root and the removal of the root do to all paths. *)

From S2P Require Import Prelude Bitops Radix.

Notation digit d := (0 ≤ d < 64).
Definition path (π : list Z) : Prop := Forall (λ d, digit d) π.

(** ** Digits of an index *)

Fixpoint digits (h : nat) (idx : Z) : list Z :=
  match h with O => [] | S h => digits h (idx / 64) ++ [idx `mod` 64] end.

Lemma digits_length h : ∀ idx, length (digits h idx) = h.
Proof. induction h as [|h IH]; intros idx; [done|]. cbn. rewrite length_app, IH. simpl. lia. Qed.

Lemma digits_path h : ∀ idx, path (digits h idx).
Proof.
  induction h as [|h IH]; intros idx; [constructor|]. apply Forall_app. split; [apply IH|].
  apply Forall_singleton, Z.mod_pos_bound. lia.
Qed.

Lemma pow64_S h : 64 ^ Z.of_nat (S h) = 64 * 64 ^ Z.of_nat h.
Proof. rewrite Nat2Z.inj_succ. apply Z.pow_succ_r. lia. Qed.
Lemma pow64_pos h : 0 < 64 ^ Z.of_nat h.
Proof. apply Z.pow_pos_nonneg; lia. Qed.

Lemma digits_cons h : ∀ idx, digits (S h) idx = (idx / 64 ^ Z.of_nat h) `mod` 64 :: digits h idx.
Proof.
  induction h as [|h IH]; intros idx; [cbn; by rewrite Z.div_1_r|].
  change (digits (S (S h)) idx) with (digits (S h) (idx / 64) ++ [idx `mod` 64]). rewrite IH.
  rewrite Z.div_div, <- pow64_S by (pose proof (pow64_pos h); lia). done.
Qed.

Lemma digits_inj h : ∀ i j, 0 ≤ i < 64 ^ Z.of_nat h → 0 ≤ j < 64 ^ Z.of_nat h → digits h i = digits h j → i = j.
Proof.
  induction h as [|h IH]; intros i j Hi Hj; [cbn in *; lia|]. rewrite pow64_S in *. cbn [digits].
  intros [E1 E2]%app_inj_tail. apply IH in E1; [|dlia..].
  rewrite (Z.div_mod i 64), (Z.div_mod j 64) by lia. by rewrite E1, E2.
Qed.

Lemma digits_small h idx : 0 ≤ idx < 64 ^ Z.of_nat h → digits (S h) idx = 0 :: digits h idx.
Proof. intros H. rewrite digits_cons, Z.div_small by lia. done. Qed.

Lemma digits_large h idx : 64 ^ Z.of_nat h ≤ idx < 64 ^ Z.of_nat (S h) → ∃ d π, digits (S h) idx = d :: π ∧ d ≠ 0.
Proof.
  intros H. rewrite pow64_S in H. rewrite digits_cons. do 2 eexists. split; [done|]. pose proof (pow64_pos h).
  assert (1 ≤ idx / 64 ^ Z.of_nat h < 64).
  { split; [apply Z.div_le_lower_bound; lia|apply Z.div_lt_upper_bound; lia]. }
  rewrite Z.mod_small; lia.
Qed.

Lemma path_digits π : path π → ∃ idx, 0 ≤ idx < 64 ^ zlen π ∧ digits (length π) idx = π.
Proof.
  induction π as [|d π IH] using rev_ind; [by exists 0|]. intros [Hπ Hd]%Forall_app.
  destruct (IH Hπ) as (idx & Hi & E). apply Forall_cons in Hd as [Hd _]. exists (64 * idx + d).
  rewrite length_app, Nat.add_1_r, pow64_S. split; [lia|]. cbn [digits].
  replace ((64 * idx + d) / 64) with idx by dlia. replace ((64 * idx + d) `mod` 64) with d by dlia. by rewrite E.
Qed.

(** The digit that the code takes out of the index. *)
Lemma digit_of idx k : 0 ≤ k → (idx >>u (6 * k)) .& RADIX_TREE_MAP_MASK = (idx / 64 ^ k) `mod` 64.
Proof.
  intros Hk. change RADIX_TREE_MAP_MASK with (Z.ones 6). rewrite Z.land_ones, Z.shiftr_div_pow2 by lia.
  by rewrite Z.pow_mul_r by lia.
Qed.

(** ** Following a path *)

Definition slot_at (ns : gmap Z radix_tree_node) (a i : Z) : Z :=
  match ns !! a with Some n => default 0 (rd (rn_slots n) i) | None => 0 end.
Definition reach (ns : gmap Z radix_tree_node) (r : Z) (π : list Z) : Z :=
  foldl (λ a d, if a =? 0 then 0 else slot_at ns a d) r π.

Section reach.
Context (ns : gmap Z radix_tree_node).

Lemma reach_app r π ρ : reach ns r (π ++ ρ) = reach ns (reach ns r π) ρ.
Proof. apply foldl_app. Qed.
Lemma reach_snoc r π d : reach ns r (π ++ [d]) = if reach ns r π =? 0 then 0 else slot_at ns (reach ns r π) d.
Proof. by rewrite reach_app. Qed.
Lemma reach_zero π : reach ns 0 π = 0.
Proof. induction π as [|d π IH]; [done|]. apply IH. Qed.
Lemma reach_cons r d π : r ≠ 0 → reach ns r (d :: π) = reach ns (slot_at ns r d) π.
Proof. intros. cbn. by rewrite (proj2 (Z.eqb_neq r 0)). Qed.
Lemma reach_prefix r π ρ : reach ns r (π ++ ρ) ≠ 0 → reach ns r π ≠ 0.
Proof. rewrite reach_app. intros H E. apply H. rewrite E. apply reach_zero. Qed.
Lemma reach_below r π ρ : reach ns r π = 0 → reach ns r (π ++ ρ) = 0.
Proof. intros E. rewrite reach_app, E. apply reach_zero. Qed.
End reach.

Lemma reach_ext ns ns' r π : (∀ a d, slot_at ns' a d = slot_at ns a d) → reach ns' r π = reach ns r π.
Proof.
  intros H. induction π as [|d π IH] using rev_ind; [done|]. by rewrite !reach_snoc, IH, H.
Qed.

(** ** Nodes *)

Definition aligned (v : Z) : Prop := 0 ≤ v < 2 ^ 64 ∧ Z.even v = true.

Definition nonnull (l : list Z) : Z := zlen (filter (λ x, x ≠ 0) l).

Lemma nonnull_insert l i x v : l !! i = Some x → nonnull (<[i := v]> l) = nonnull l - Z.b2z (negb (x =? 0)) + Z.b2z (negb (v =? 0)).
Proof.
  unfold nonnull. intros Hx. rewrite insert_take_drop by (by eapply lookup_lt_Some).
  assert (E : filter (λ x, x ≠ 0) l = filter (λ x, x ≠ 0) (take i l ++ x :: drop (S i) l)) by (by rewrite take_drop_middle).
  rewrite E, !filter_app, !filter_cons, !length_app.
  destruct (Z.eqb_spec x 0), (Z.eqb_spec v 0); repeat case_decide; try tauto; cbn [length negb Z.b2z]; lia.
Qed.
Lemma nonnull_range l : 0 ≤ nonnull l ≤ zlen l.
Proof. unfold nonnull. pose proof (length_filter (λ x, x ≠ 0) l). lia. Qed.
Lemma nonnull_zero l : nonnull l = 0 ↔ Forall (λ x, x = 0) l.
Proof.
  unfold nonnull. induction l as [|x l IH]; [done|]. rewrite filter_cons, Forall_cons. case_decide; cbn [length].
  - split; [lia|]. naive_solver.
  - rewrite IH. split; [|naive_solver]. intros. split; [|done]. lia.
Qed.

(** The tags of a node are three words. *)
Definition tag_word (n : radix_tree_node) (t : Z) : Z := match rd (rn_tags n) t with Some (w :: _) => w | _ => 0 end.
Definition tags_ok (n : radix_tree_node) : Prop := ∃ w0 w1 w2, rn_tags n = [[w0]; [w1]; [w2]] ∧ is_u64 w0 ∧ is_u64 w1 ∧ is_u64 w2.
Definition node_ok (n : radix_tree_node) : Prop := length (rn_slots n) = 64%nat ∧ tags_ok n.

(** ** The tree in the heap *)

Definition parent_of (ns : gmap Z radix_tree_node) (r : Z) (π : list Z) : Z :=
  match π with [] => 0 | _ => reach ns r (removelast π) end.

Lemma parent_of_snoc ns r π d : parent_of ns r (π ++ [d]) = reach ns r π.
Proof. unfold parent_of. rewrite removelast_last. by destruct π. Qed.

(** What a node of height [h] below [p] looks like. *)
Definition node_in (ns : gmap Z radix_tree_node) (a : Z) (h : nat) (p : Z) : Prop :=
  ∃ n, ns !! a = Some n ∧ node_ok n ∧ rn_height n = Z.of_nat h ∧ rn_count n = nonnull (rn_slots n) ∧ rn_parent n = p.

Record tree_ok (ns : gmap Z radix_tree_node) (r : Z) (H : nat) : Prop := TreeOk {
  tk_node : ∀ π, path π → (length π < H)%nat → reach ns r π ≠ 0 → node_in ns (reach ns r π) (H - length π) (parent_of ns r π);
  tk_inj : ∀ π ρ, path π → path ρ → (length π < H)%nat → (length ρ < H)%nat → reach ns r π ≠ 0 → reach ns r π = reach ns r ρ → π = ρ;
  tk_aligned : ∀ π, path π → (length π ≤ H)%nat → aligned (reach ns r π)
}.

(** An address that is not a node of the tree. *)
Definition not_in (ns : gmap Z radix_tree_node) (r : Z) (H : nat) (a : Z) : Prop :=
  ∀ π, path π → (length π < H)%nat → reach ns r π ≠ a.

Lemma slot_at_upd ns a n n' b d :
  ns !! a = Some n → rn_slots n' = rn_slots n → slot_at (<[a := n']> ns) b d = slot_at ns b d.
Proof.
  intros Ha Hs. unfold slot_at. destruct (decide (a = b)) as [<-|]; [|by rewrite lookup_insert_ne].
  by rewrite lookup_insert_eq, Ha, Hs.
Qed.
Lemma slot_at_ne ns a n' b d : b ≠ a → slot_at (<[a := n']> ns) b d = slot_at ns b d.
Proof. intros. unfold slot_at. by rewrite lookup_insert_ne. Qed.
Lemma slot_at_set ns a n n' i v d :
  length (rn_slots n) = 64%nat → digit i → rn_slots n' = <[Z.to_nat i := v]> (rn_slots n) → ns !! a = Some n →
  slot_at (<[a := n']> ns) a d = if d =? i then v else slot_at ns a d.
Proof.
  intros Hl Hi Hs Ha. unfold slot_at. rewrite lookup_insert_eq, Ha, Hs, rd_insert by lia. by destruct (d =? i).
Qed.

Lemma reach_frame ns r H a n' : not_in ns r H a →
  ∀ ρ, path ρ → (length ρ ≤ H)%nat → reach (<[a := n']> ns) r ρ = reach ns r ρ.
Proof.
  intros Hn ρ. induction ρ as [|d ρ IH] using rev_ind; [done|]. rewrite length_app. cbn [length].
  intros [Hρ Hd]%Forall_app Hl. rewrite !reach_snoc, IH by (done || lia). destruct (_ =? 0); [done|].
  apply slot_at_ne. apply Hn; [done|lia].
Qed.

Section set.
Context (ns : gmap Z radix_tree_node) (r : Z) (H : nat) (T : tree_ok ns r H).
Context (π : list Z) (i v : Z) (n n' : radix_tree_node).
Notation a := (reach ns r π).
Context (Hπ : path π) (Hlen : (length π < H)%nat) (Hi : digit i) (Ha : a ≠ 0) (Hn : ns !! a = Some n).
Context (Hs : rn_slots n' = <[Z.to_nat i := v]> (rn_slots n)).
Notation ns' := (<[a := n']> ns).
Context (Hv : (length π + 1 < H)%nat → v ≠ 0 → ∀ d, digit d → slot_at ns' v d = 0).
Context (Ho : (length π + 1 < H)%nat → slot_at ns a i ≠ 0 → ∀ d, digit d → slot_at ns (slot_at ns a i) d = 0).

Lemma set_len : length (rn_slots n) = 64%nat.
Proof. destruct (tk_node _ _ _ T π Hπ Hlen Ha) as (n0 & E & [Hl _] & _). by rewrite Hn in E; simplify_eq. Qed.

Lemma reach_set ρ : path ρ → (length ρ ≤ H)%nat →
  reach ns' r ρ = if decide (ρ = π ++ [i]) then v else reach ns r ρ.
Proof.
  induction ρ as [|d ρ IH] using rev_ind; intros Hρ Hl.
  { rewrite decide_False; [done|]. intros E. by destruct π. }
  rewrite length_app in Hl. cbn [length] in Hl. apply Forall_app in Hρ as [Hρ Hd]. apply Forall_cons in Hd as [Hd _].
  rewrite !reach_snoc, IH by (done || lia). clear IH. destruct (decide (ρ = π ++ [i])) as [->|Hne].
  - rewrite length_app in Hl. cbn [length] in Hl. rewrite decide_False by (intros E; apply (f_equal length) in E; rewrite !length_app in E; simpl in E; lia).
    rewrite reach_snoc, (proj2 (Z.eqb_neq a 0)) by done.
    destruct (Z.eqb_spec v 0); [|rewrite Hv by (done || lia)].
    all: destruct (Z.eqb_spec (slot_at ns a i) 0); [done|]; by rewrite Ho by (done || lia).
  - destruct (Z.eqb_spec (reach ns r ρ) 0) as [E0|E0].
    { rewrite decide_False; [done|]. intros [-> _]%app_inj_tail. done. }
    destruct (decide (reach ns r ρ = a)) as [E|E].
    + apply (tk_inj _ _ _ T) in E as ->; [|done|done|lia|done|done].
      rewrite (slot_at_set ns a n n' i v d set_len Hi Hs Hn). destruct (Z.eqb_spec d i) as [->|].
      * by rewrite decide_True.
      * rewrite decide_False; [done|]. by intros [_ ?]%app_inj_tail.
    + rewrite slot_at_ne by done. rewrite decide_False; [done|]. intros [-> _]%app_inj_tail. done.
Qed.

Context (Hok : node_ok n') (Hh : rn_height n' = rn_height n) (Hc : rn_count n' = nonnull (rn_slots n')) (Hp : rn_parent n' = rn_parent n).
Context (Hva : aligned v) (Hvn : (length π + 1 < H)%nat → v ≠ 0 → not_in ns r H v ∧ node_in ns v (H - (length π + 1)) a).

Lemma tree_set : tree_ok ns' r H.
Proof.
  assert (Hother : ∀ ρ, path ρ → (length ρ < H)%nat → ρ ≠ π ++ [i] → reach ns r ρ ≠ 0 → node_in ns' (reach ns r ρ) (H - length ρ) (parent_of ns' r ρ)).
  { intros ρ Hρ Hl Hne Hr. destruct (tk_node _ _ _ T ρ Hρ Hl Hr) as (m & Hm & Hmo & Hmh & Hmc & Hmp).
    assert (Epar : parent_of ns' r ρ = parent_of ns r ρ).
    { destruct ρ as [|d ρ _] using rev_ind; [done|]. rewrite !parent_of_snoc. apply Forall_app in Hρ as [Hρ Hd].
      apply Forall_cons in Hd as [Hd _]. rewrite length_app in Hl. cbn [length] in Hl. rewrite reach_set by (done || lia).
      rewrite decide_False; [done|]. intros ->. rewrite length_app in Hl. cbn [length] in Hl. apply Hr. rewrite !reach_snoc.
      rewrite (proj2 (Z.eqb_neq a 0)) by done. destruct (Z.eqb_spec (slot_at ns a i) 0); [done|]. apply Ho; [lia|done|done]. }
    rewrite Epar. destruct (decide (reach ns r ρ = a)) as [E|E].
    - exists n'. rewrite E, lookup_insert_eq. rewrite E in Hm. rewrite Hn in Hm. simplify_eq. split_and!; congruence || done.
    - exists m. by rewrite lookup_insert_ne by done. }
  split.
  - intros ρ Hρ Hl. rewrite reach_set by (done || lia). destruct (decide (ρ = π ++ [i])) as [->|Hne]; [|by apply Hother].
    intros Hv0. rewrite length_app in *. cbn [length] in *. destruct Hvn as [Hvf (m & Hm & Hrest)]; [lia|done|].
    exists m. rewrite lookup_insert_ne by (intros E; by apply (Hvf π)). split; [done|].
    rewrite parent_of_snoc, reach_set by (done || lia). rewrite decide_False; [done|].
    intros E. apply (f_equal length) in E. rewrite length_app in E. simpl in E. lia.
  - intros ρ1 ρ2 H1 H2 L1 L2. rewrite !reach_set by (done || lia).
    destruct (decide (ρ1 = π ++ [i])) as [->|], (decide (ρ2 = π ++ [i])) as [->|]; [done| | |by apply (tk_inj _ _ _ T)].
    + rewrite length_app in L1. cbn [length] in L1. intros Hv0 E. destruct Hvn as [Hvf _]; [lia|done|]. by destruct (Hvf ρ2 H2 L2).
    + rewrite length_app in L2. cbn [length] in L2. intros Hv0 E. destruct Hvn as [Hvf _]; [lia|congruence|]. by destruct (Hvf ρ1 H1 L1).
  - intros ρ Hρ Hl. rewrite reach_set by done. destruct (decide _); [done|]. by apply (tk_aligned _ _ _ T).
Qed.
End set.

(** ** Updates that keep the slots *)

Lemma tree_upd ns r H b n n' : tree_ok ns r H → ns !! b = Some n → rn_slots n' = rn_slots n → node_ok n' →
  rn_height n' = rn_height n → rn_count n' = rn_count n → rn_parent n' = rn_parent n → tree_ok (<[b := n']> ns) r H.
Proof.
  intros T Hb Hs Hok Hh Hc Hp. assert (E : ∀ π, reach (<[b := n']> ns) r π = reach ns r π).
  { intros π. apply reach_ext. intros. by eapply slot_at_upd. }
  split; intros *; rewrite ?E; [|apply (tk_inj _ _ _ T)|apply (tk_aligned _ _ _ T)].
  intros Hπ Hl Hr. destruct (tk_node _ _ _ T π Hπ Hl Hr) as (m & Hm & Hmo & Hmh & Hmc & Hmp).
  replace (parent_of (<[b := n']> ns) r π) with (parent_of ns r π) by (unfold parent_of; destruct π; [done|by rewrite E]).
  destruct (decide (b = reach ns r π)) as [->|].
  - exists n'. rewrite lookup_insert_eq. rewrite Hb in Hm. simplify_eq. split_and!; congruence || done.
  - exists m. by rewrite lookup_insert_ne.
Qed.

Lemma tree_frame ns r H b n' : tree_ok ns r H → not_in ns r H b → tree_ok (<[b := n']> ns) r H.
Proof.
  intros T Hb. pose proof (reach_frame ns r H b n' Hb) as E. split.
  - intros π Hπ Hl. rewrite E by (done || lia). intros Hr.
    destruct (tk_node _ _ _ T π Hπ Hl Hr) as (m & Hm & Hmo & Hmh & Hmc & Hmp).
    exists m. rewrite lookup_insert_ne by (intros Eb; by apply (Hb π)). split_and!; try done.
    rewrite Hmp. destruct π as [|d π _] using rev_ind; [done|]. apply Forall_app in Hπ as [Hπ _]. rewrite length_app in Hl. cbn [length] in Hl.
    rewrite !parent_of_snoc. symmetry. apply E; [done|lia].
  - intros π ρ Hπ Hρ Lπ Lρ. rewrite !E by (done || lia). by apply (tk_inj _ _ _ T).
  - intros π Hπ Hl. rewrite E by done. by apply (tk_aligned _ _ _ T).
Qed.

Lemma not_in_upd ns r H b n n' a : ns !! b = Some n → rn_slots n' = rn_slots n → not_in ns r H a → not_in (<[b := n']> ns) r H a.
Proof.
  intros Hb Hs Ha π Hπ Hl. rewrite (reach_ext ns) by (intros; by eapply slot_at_upd). by apply Ha.
Qed.

(** ** A new root *)

Section grow.
Context (ns ns' : gmap Z radix_tree_node) (r b : Z) (H : nat) (T : tree_ok ns r H).
Context (Hr : r ≠ 0) (Hb : b ≠ 0) (Hba : aligned b) (Hfresh : not_in ns r H b).
Context (Hslot : ∀ a d, a ≠ b → slot_at ns' a d = slot_at ns a d).
Context (Hkeep : ∀ a, a ≠ b → a ≠ r → ns' !! a = ns !! a).
Context (Hroot : (0 < H)%nat → node_in ns' r H b).
Context (Hnew : node_in ns' b (S H) 0) (Hb0 : ∀ d, digit d → slot_at ns' b d = if d =? 0 then r else 0).

Lemma grow_below ρ : path ρ → (length ρ ≤ H)%nat → reach ns' r ρ = reach ns r ρ.
Proof.
  induction ρ as [|d ρ IH] using rev_ind; [done|]. rewrite length_app. cbn [length]. intros [Hρ _]%Forall_app Hl.
  rewrite !reach_snoc, IH by (done || lia). destruct (_ =? 0); [done|]. apply Hslot, Hfresh; [done|lia].
Qed.

Lemma grow_reach d ρ : path (d :: ρ) → (length ρ ≤ H)%nat → reach ns' b (d :: ρ) = if d =? 0 then reach ns r ρ else 0.
Proof.
  intros [Hd Hρ]%Forall_cons Hl. rewrite reach_cons, Hb0 by done.
  destruct (d =? 0); [by apply grow_below|apply reach_zero].
Qed.

Lemma tree_grow : tree_ok ns' b (S H).
Proof.
  assert (Hbr : ∀ ρ, path ρ → (length ρ < H)%nat → b ≠ reach ns r ρ) by (intros ρ Hρ Hl E; by apply (Hfresh ρ Hρ Hl)).
  split.
  - intros [|d π] Hπ Hl; [done|]. cbn [length] in *. rewrite grow_reach by (done || lia). destruct (Z.eqb_spec d 0) as [->|]; [|done].
    intros Hr0. apply Forall_cons in Hπ as [_ Hπ]. replace (S H - S (length π))%nat with (H - length π)%nat by lia.
    destruct π as [|e π _] using rev_ind.
    + cbn [length]. rewrite Nat.sub_0_r. apply Hroot. cbn in Hl. lia.
    + pose proof Hπ as [Hπ' _]%Forall_app. rewrite app_comm_cons, parent_of_snoc. rewrite length_app in *. cbn [length] in *.
      rewrite grow_reach by (lia || (constructor; [lia|done])).
      change (0 =? 0) with true. cbv iota. destruct (tk_node _ _ _ T (π ++ [e])) as (m & Hm & Hmo & Hmh & Hmc & Hmp); [done|rewrite length_app; simpl; lia|done|].
      rewrite parent_of_snoc in Hmp. rewrite length_app in Hmh. cbn [length] in Hmh. exists m. split; [|done].
      rewrite Hkeep; [done| |].
      * intros E. eapply Hbr; [exact Hπ|rewrite length_app; simpl; lia|done].
      * intros E. destruct π; [|]; pose proof (tk_inj _ _ _ T _ [] Hπ (Forall_nil_2 _)) as Hi.
        -- specialize (Hi ltac:(simpl in *; lia) ltac:(simpl in *; lia) Hr0 E). done.
        -- rewrite length_app in Hi. specialize (Hi ltac:(simpl in *; lia) ltac:(simpl in *; lia) Hr0 E). done.
  - intros [|d π] [|e ρ] Hπ Hρ Lπ Lρ; cbn [length] in *; [done| | |].
    + rewrite grow_reach by (done || lia). destruct (e =? 0); [|done]. intros _ E. apply Forall_cons in Hρ as [_ Hρ].
      by destruct (Hbr ρ Hρ ltac:(lia)).
    + rewrite grow_reach by (done || lia). destruct (d =? 0); [|done]. intros _ E. apply Forall_cons in Hπ as [_ Hπ].
      by destruct (Hbr π Hπ ltac:(lia)).
    + rewrite !grow_reach by (done || lia). apply Forall_cons in Hπ as [_ Hπ]. apply Forall_cons in Hρ as [_ Hρ].
      destruct (Z.eqb_spec d 0) as [->|], (Z.eqb_spec e 0) as [->|]; try done.
      intros Hr0 E. f_equal. apply (tk_inj _ _ _ T); [done..|lia|lia|done|done].
  - intros [|d π] Hπ Hl; [done|]. cbn [length] in *. rewrite grow_reach by (done || lia). apply Forall_cons in Hπ as [_ Hπ].
    destruct (d =? 0); [apply (tk_aligned _ _ _ T); [done|lia]|]. by split.
Qed.
End grow.

(** ** The root removed *)

Section drop.
Context (ns ns' : gmap Z radix_tree_node) (r : Z) (H : nat) (T : tree_ok ns r (S H)).
Notation c := (slot_at ns r 0).
Context (Hr : r ≠ 0) (Hc : c ≠ 0) (Hslot : ∀ a d, slot_at ns' a d = slot_at ns a d).
Context (Hkeep : ∀ a, a ≠ c → ns' !! a = ns !! a) (Hroot : (0 < H)%nat → node_in ns' c H 0).

Lemma drop_reach ρ : reach ns' c ρ = reach ns r (0 :: ρ).
Proof. rewrite reach_cons by done. by apply reach_ext. Qed.

Lemma tree_drop : tree_ok ns' c H.
Proof.
  assert (Hp0 : ∀ π, path π → path (0 :: π)) by (intros; by constructor). split.
  - intros π Hπ Hl. rewrite drop_reach. intros Hr0.
    destruct π as [|d π _] using rev_ind.
    { rewrite reach_cons by done. cbn [length]. rewrite Nat.sub_0_r. apply Hroot. simpl in Hl. lia. }
    destruct (tk_node _ _ _ T (0 :: (π ++ [d]))) as (m & Hm & Hmo & Hmh & Hmc & Hmp); [by apply Hp0|simpl; lia|done|].
    exists m. rewrite app_comm_cons, parent_of_snoc in Hmp. rewrite parent_of_snoc, drop_reach.
    split_and!; [|done|rewrite Hmh; cbn [length]; f_equal; lia|done|done].
    rewrite Hkeep; [done|]. intros E.
    assert (E0 : reach ns r [0] = c) by (rewrite reach_cons by done; done).
    rewrite <- E0 in E. apply (tk_inj _ _ _ T) in E; [|by apply Hp0|by constructor|simpl; lia|simpl in *; rewrite length_app in Hl; simpl in Hl; lia|done].
    by destruct π.
  - intros π ρ Hπ Hρ Lπ Lρ. rewrite !drop_reach. intros Hr0 E.
    apply (tk_inj _ _ _ T) in E; [|by apply Hp0|by apply Hp0|simpl; lia|simpl; lia|done]. by simplify_eq.
  - intros π Hπ Hl. rewrite drop_reach. apply (tk_aligned _ _ _ T); [by apply Hp0|simpl; lia].
Qed.

Lemma drop_old : not_in ns' c H r.
Proof.
  intros π Hπ Hl. rewrite drop_reach. intros E.
  apply (tk_inj _ _ _ T _ []) in E; [done|by constructor|constructor|simpl; lia|simpl; lia|]. by rewrite E.
Qed.
End drop.
