(* ===== verification/RadixInv.v ===== *)
(** * RadixInv: the invariant of a radix tree and the single steps

    [rt_ok s r H m tg]: the heap holds a tree of height [H] below [r] that stores the map [m] from
    indices to items, a bit of a node is set for a tag exactly if an index below it is in the set
    of that tag, and the objects of the slab, of the pool and of the queue of call_rcu are outside
    of the tree and clean.  Then the weakest preconditions of the accesses the code is made of. *)

From S2P Require Import Prelude Bitops Radix RadixPath.

(** ** Nodes outside of the tree *)

Definition clean (n : radix_tree_node) : Prop :=
  rn_count n = 0 ∧ rn_slots n = replicate 64 0 ∧ rn_tags n = [[0]; [0]; [0]].
(** Freed, before the callback has run. *)
Definition rcu_clean (n : radix_tree_node) : Prop :=
  (∃ x, rn_slots n = <[0%nat := x]> (replicate 64 0)) ∧
  ∃ b0 b1 b2, rn_tags n = [[Z.b2z b0]; [Z.b2z b1]; [Z.b2z b2]].

Definition pool (p : radix_tree_preload_t) : list Z := take (Z.to_nat (rtp_nr p)) (rtp_nodes p).

Record mem_ok (ns : gmap Z radix_tree_node) (r : Z) (H : nat) (pre : radix_tree_preload_t) (c q : list Z) : Prop := MemOk {
  mo_nr : 0 ≤ rtp_nr pre ≤ 21;
  mo_len : length (rtp_nodes pre) = 21%nat;
  mo_nodup : NoDup (c ++ pool pre ++ q);
  mo_addr : ∀ a, a ∈ c ++ pool pre ++ q → a ≠ 0 ∧ aligned a ∧ not_in ns r H a;
  mo_clean : ∀ a, a ∈ c ++ pool pre → ∃ n, ns !! a = Some n ∧ clean n;
  mo_rcu : ∀ a, a ∈ q → ∃ n, ns !! a = Some n ∧ rcu_clean n
}.

(** ** The root, the items and the tags *)

Record root_ok (root : radix_tree_root) (r : Z) (H : nat) : Prop := RootOk {
  ro_height : rr_height root = Z.of_nat H;
  ro_max : (H ≤ 11)%nat;
  ro_rnode : rr_rnode root = match H with O => r | S _ => if r =? 0 then 0 else ptr_to_indirect r end;
  ro_gfp : is_u32 (rr_gfp_mask root)
}.

Record items_ok (ns : gmap Z radix_tree_node) (r : Z) (H : nat) (m : gmap Z Z) : Prop := ItemsOk {
  io_some : ∀ idx v, m !! idx = Some v → is_u64 idx ∧ idx < 64 ^ Z.of_nat H ∧ reach ns r (digits H idx) = v ∧ v ≠ 0;
  io_all : ∀ ρ, path ρ → length ρ = H → reach ns r ρ ≠ 0 → ∃ idx, is_Some (m !! idx) ∧ digits H idx = ρ
}.

Definition below (H : nat) (π : list Z) (S : gset Z) : Prop := ∃ idx, idx ∈ S ∧ π `prefix_of` digits H idx.

Record tags_inv (ns : gmap Z radix_tree_node) (root : radix_tree_root) (r : Z) (H : nat) (m : gmap Z Z) (tg : Z → gset Z) : Prop := TagsInv {
  ti_root : ∀ t, 0 ≤ t < 3 → root_tag_get root t = true ↔ below H [] (tg t);
  ti_node : ∀ t π i n, 0 ≤ t < 3 → path π → digit i → (length π < H)%nat → reach ns r π ≠ 0 → ns !! reach ns r π = Some n →
    Z.testbit (tag_word n t) i = true ↔ below H (π ++ [i]) (tg t);
  ti_dom : ∀ t, 0 ≤ t < 3 → tg t ⊆ dom m
}.

Record rt_ok (s : rt_state) (r : Z) (H : nat) (m : gmap Z Z) (tg : Z → gset Z) : Prop := RtOk {
  ok_tree : tree_ok (rt_nodes s) r H;
  ok_root : root_ok (rt_root s) r H;
  ok_items : items_ok (rt_nodes s) r H m;
  ok_tags : tags_inv (rt_nodes s) (rt_root s) r H m tg;
  ok_mem : mem_ok (rt_nodes s) r H (rt_preload s) (rt_cache s) (rt_rcu s)
}.

(** ** Pointers and indices *)

Lemma aligned_land v : aligned v → v .& 1 = 0.
Proof.
  intros [Hv He]. change 1 with (Z.ones 1). rewrite Z.land_ones by lia. change (2 ^ 1) with 2. rewrite Zmod_even, He. done.
Qed.

Lemma aligned_direct v : aligned v → radix_tree_is_indirect_ptr v = false.
Proof. intros Hv. unfold radix_tree_is_indirect_ptr, RADIX_TREE_INDIRECT_PTR. by rewrite aligned_land. Qed.
Lemma indirect_test v : radix_tree_is_indirect_ptr (ptr_to_indirect v) = true.
Proof.
  unfold radix_tree_is_indirect_ptr, ptr_to_indirect, RADIX_TREE_INDIRECT_PTR. apply negb_true_iff, Z.eqb_neq. intros E.
  apply (f_equal (λ x, Z.testbit x 0)) in E. rewrite Z.land_spec, Z.lor_spec in E. by rewrite orb_true_r in E.
Qed.

Lemma indirect_mask v : is_u64 v → indirect_to_ptr v = Z.ldiff v 1.
Proof.
  intros Hv. apply Z.bits_inj'. intros i Hi. unfold indirect_to_ptr, RADIX_TREE_INDIRECT_PTR.
  rewrite Z.land_spec, Z.ldiff_spec, testbit_u64, testbit_lnot. bool_compare; [done|].
  by rewrite (testbit_high 64 v) by lia.
Qed.

Lemma aligned_ptr v : aligned v → indirect_to_ptr v = v.
Proof.
  intros Hv. rewrite indirect_mask by apply Hv. apply Z.bits_inj'. intros i Hi. rewrite Z.ldiff_spec, testbit_1.
  destruct (Z.eqb_spec i 0) as [->|]; [|by rewrite andb_true_r]. rewrite andb_false_r. symmetry.
  destruct Hv as [_ He]. by rewrite Z.bit0_odd, <- Z.negb_even, He.
Qed.

Lemma ptr_back v : aligned v → indirect_to_ptr (ptr_to_indirect v) = v.
Proof.
  intros Hv. assert (is_u64 (ptr_to_indirect v)).
  { unfold ptr_to_indirect, RADIX_TREE_INDIRECT_PTR. split; [apply Z.lor_nonneg; split; [apply Hv|lia]|].
    apply bits_bound; [lia|]. intros i Hi. rewrite Z.lor_spec, testbit_1, (testbit_high 64 v) by (apply Hv || lia). bool_compare. }
  rewrite indirect_mask by done. rewrite <- (aligned_ptr v Hv) at 2. rewrite indirect_mask by apply Hv.
  apply Z.bits_inj'. intros i Hi. unfold ptr_to_indirect, RADIX_TREE_INDIRECT_PTR. rewrite !Z.ldiff_spec, Z.lor_spec, testbit_1.
  destruct (i =? 0); cbn; by rewrite ?andb_false_r, ?orb_false_r.
Qed.

Lemma maxindex_ok H : (H ≤ 11)%nat → radix_tree_maxindex (Z.of_nat H) = Some (Z.min (64 ^ Z.of_nat H) (2 ^ 64) - 1).
Proof. intros HH. do 12 (destruct H as [|H]; [by vm_compute|]). lia. Qed.

(** ** Bits of tags *)

(** [n'] is [n] with bit [i] of tag [t] set to [b]. *)
Definition tag_upd (n n' : radix_tree_node) (t i : Z) (b : bool) : Prop :=
  rn_height n' = rn_height n ∧ rn_count n' = rn_count n ∧ rn_parent n' = rn_parent n ∧ rn_slots n' = rn_slots n ∧
  tags_ok n' ∧
  ∀ t' j, 0 ≤ t' < 3 → digit j → Z.testbit (tag_word n' t') j = if (t' =? t) && (j =? i) then b else Z.testbit (tag_word n t') j.

Lemma tag_word_u64 n t : tags_ok n → is_u64 (tag_word n t).
Proof.
  intros (w0 & w1 & w2 & E & H0 & H1 & H2). unfold tag_word, rd. rewrite E. destruct (0 <=? t); [|lia].
  destruct (Z.to_nat t) as [|[|[|k]]]; cbn; done || lia.
Qed.

Lemma tag_word_rd n t : tags_ok n → 0 ≤ t < 3 → rd (rn_tags n) t = Some [tag_word n t].
Proof.
  intros (w0 & w1 & w2 & E & _) Ht. unfold tag_word, rd. rewrite E, (proj2 (Z.leb_le 0 t)) by lia.
  assert (Z.to_nat t < 3)%nat as Hn by lia. destruct (Z.to_nat t) as [|[|[|k]]]; [done..|lia].
Qed.

Lemma tags_set n t w : tags_ok n → 0 ≤ t < 3 → is_u64 w →
  let n' := rn_with_tags n (<[Z.to_nat t := [w]]> (rn_tags n)) in
  tags_ok n' ∧ ∀ t', 0 ≤ t' < 3 → tag_word n' t' = if t' =? t then w else tag_word n t'.
Proof.
  intros (w0 & w1 & w2 & E & H0 & H1 & H2) Ht Hw n'. unfold tags_ok, tag_word, rd, n', rn_with_tags. cbn [rn_tags]. rewrite E.
  assert (t = 0 ∨ t = 1 ∨ t = 2) as [-> | [-> | ->]] by lia.
  all: split; [do 3 eexists; split; [reflexivity|done]|].
  all: intros t' Ht'; assert (t' = 0 ∨ t' = 1 ∨ t' = 2) as [-> | [-> | ->]] by lia; done.
Qed.

Lemma tag_word_zero n t : tags_ok n → tag_word n t = 0 ↔ ∀ j, digit j → Z.testbit (tag_word n t) j = false.
Proof.
  intros Hok. split; [intros ->; intros; apply Z.bits_0|]. intros Hb. apply zero_of_bits. intros i Hi.
  destruct (decide (i < 64)); [by apply Hb|]. apply (testbit_high 64); [by apply tag_word_u64|lia].
Qed.

(** ** Accesses *)

Section wp.
Context (ns : gmap Z radix_tree_node) (root : radix_tree_root) (pre : radix_tree_preload_t) (c q : list Z).
Notation st := (RtState ns root pre c q).
Notation st_nodes ns' := (RtState ns' root pre c q).

Lemma wp_rt_get a n (Q : radix_tree_node → rt_state → Prop) : ns !! a = Some n → Q n st → wp (rt_get a) Q st.
Proof. intros Ha HQ. unfold wp, rt_get. cbn. by rewrite Ha. Qed.

Lemma wp_rt_put a n n' (Q : unit → rt_state → Prop) : ns !! a = Some n → Q tt (st_nodes (<[a := n']> ns)) → wp (rt_put a n') Q st.
Proof. intros Ha HQ. unfold wp, rt_put. cbn. by rewrite Ha. Qed.

Lemma wp_rt_slot a n i (Q : Z → rt_state → Prop) : ns !! a = Some n → length (rn_slots n) = 64%nat → digit i →
  Q (slot_at ns a i) st → wp (rt_slot a i) Q st.
Proof.
  intros Ha Hl Hi HQ. apply wp_bind. eapply wp_rt_get; [done|]. destruct (rd_in (rn_slots n) i) as [x Hx]; [lia|].
  eapply wp_lift; [done|]. unfold slot_at in HQ. by rewrite Ha, Hx in HQ.
Qed.

Lemma wp_rt_set_slot a n i v (Q : unit → rt_state → Prop) : ns !! a = Some n → length (rn_slots n) = 64%nat → digit i →
  Q tt (st_nodes (<[a := rn_with_slots n (<[Z.to_nat i := v]> (rn_slots n))]> ns)) → wp (rt_set_slot a i v) Q st.
Proof.
  intros Ha Hl Hi HQ. apply wp_bind. eapply wp_rt_get; [done|]. apply wp_bind. eapply wp_lift; [apply wr_Some; lia|].
  by eapply wp_rt_put.
Qed.

(** An update of one node computed from its content. *)
Lemma wp_rt_upd a n (f : radix_tree_node → radix_tree_node) (Q : unit → rt_state → Prop) :
  ns !! a = Some n → Q tt (st_nodes (<[a := f n]> ns)) → wp (n ← rt_get a; rt_put a (f n)) Q st.
Proof. intros Ha HQ. apply wp_bind. eapply wp_rt_get; [done|]. by eapply wp_rt_put. Qed.

Lemma wp_tag_get a n t i (Q : bool → rt_state → Prop) : ns !! a = Some n → tags_ok n → 0 ≤ t < 3 → digit i →
  Q (Z.testbit (tag_word n t) i) st → wp (tag_get a t i) Q st.
Proof.
  intros Ha Ht Hr Hi HQ. apply wp_bind. eapply wp_rt_get; [done|]. apply wp_bind. eapply wp_lift; [by apply tag_word_rd|].
  eapply wp_lift; [apply test_bit_spec; cbn; lia|]. erewrite bm_bit_rd by (rewrite Z.div_small by lia; done).
  by rewrite Z.mod_small by lia.
Qed.

(** [tag_set] and [tag_clear]. *)
Lemma wp_tag_write a n t i b op (Q : unit → rt_state → Prop) : ns !! a = Some n → tags_ok n → 0 ≤ t < 3 → digit i →
  (∃ p', op [tag_word n t] = Some p' ∧ wf_words p' ∧ length p' = 1%nat ∧ ∀ j, 0 ≤ j → bm_bit p' j = if j =? i then b else bm_bit [tag_word n t] j) →
  (∀ n', tag_upd n n' t i b → Q tt (st_nodes (<[a := n']> ns))) →
  wp (n ← rt_get a; w ← lift (rd (rn_tags n) t); w ← lift (op w); l ← lift (wr (rn_tags n) t w); rt_put a (rn_with_tags n l)) Q st.
Proof.
  intros Ha Ht Hr Hi (p' & Hp & Hwf & Hl & Hb) HQ. destruct p' as [|w [|]]; [done| |done].
  apply Forall_cons in Hwf as [Hw _]. destruct (tags_set n t w Ht Hr Hw) as [Hok Hword].
  apply wp_bind. eapply wp_rt_get; [done|]. apply wp_bind. eapply wp_lift; [by apply tag_word_rd|].
  apply wp_bind. eapply wp_lift; [done|]. apply wp_bind. eapply wp_lift.
  { apply wr_Some. destruct Ht as (? & ? & ? & -> & _). cbn. lia. }
  eapply wp_rt_put; [done|]. apply HQ. repeat (split; [done|]). intros t' j Ht' Hj. rewrite Hword by done.
  destruct (Z.eqb_spec t' t) as [->|]; [|done]. cbn [andb]. specialize (Hb j ltac:(lia)).
  erewrite !bm_bit_rd in Hb by (rewrite Z.div_small by lia; done). by rewrite Z.mod_small in Hb by lia.
Qed.

Lemma wp_tag_set a n t i (Q : unit → rt_state → Prop) : ns !! a = Some n → tags_ok n → 0 ≤ t < 3 → digit i →
  (∀ n', tag_upd n n' t i true → Q tt (st_nodes (<[a := n']> ns))) → wp (tag_set a t i) Q st.
Proof.
  intros Ha Ht Hr Hi HQ. eapply (wp_tag_write a n); try done.
  destruct (set_bit_spec [tag_word n t] i) as (p' & ? & ? & ? & Hb); [by apply Forall_singleton, tag_word_u64|cbn; lia|].
  exists p'. split_and!; try done. all: intros j Hj; rewrite Hb by done; by destruct (j =? i).
Qed.
Lemma wp_tag_clear a n t i (Q : unit → rt_state → Prop) : ns !! a = Some n → tags_ok n → 0 ≤ t < 3 → digit i →
  (∀ n', tag_upd n n' t i false → Q tt (st_nodes (<[a := n']> ns))) → wp (tag_clear a t i) Q st.
Proof.
  intros Ha Ht Hr Hi HQ. eapply (wp_tag_write a n); try done.
  destruct (clear_bit_spec [tag_word n t] i) as (p' & ? & ? & ? & Hb); [by apply Forall_singleton, tag_word_u64|cbn; lia|].
  exists p'. split_and!; try done. all: intros j Hj; rewrite Hb by done; by destruct (j =? i).
Qed.

Lemma wp_any_tag_set a n t (Q : bool → rt_state → Prop) : ns !! a = Some n → tags_ok n → 0 ≤ t < 3 →
  Q (negb (tag_word n t =? 0)) st → wp (any_tag_set a t) Q st.
Proof.
  intros Ha Ht Hr HQ. apply wp_bind. eapply wp_rt_get; [done|]. apply wp_bind. eapply wp_lift; [by apply tag_word_rd|].
  apply wp_ret. change (take (Z.to_nat RADIX_TREE_TAG_LONGS) [tag_word n t]) with [tag_word n t]. cbn [existsb]. by rewrite orb_false_r.
Qed.
End wp.
