(* ===== verification/RadixOps.v ===== *)
(** * RadixOps: lookup and tags of radix trees

    Every descent follows the digits of the index ([wp_step]); the results are stated for a state
    that satisfies [rt_ok]. *)

From S2P Require Import Prelude Bitops Radix RadixPath RadixInv.

Definition next_digit (h : nat) (idx : Z) : Z := (idx / 64 ^ Z.of_nat h) `mod` 64.

Lemma next_digit_digit h idx : digit (next_digit h idx).
Proof. apply Z.mod_pos_bound. lia. Qed.
Lemma offset_ok h idx shift : shift = 6 * Z.of_nat h → (idx >>u shift) .& RADIX_TREE_MAP_MASK = next_digit h idx.
Proof. intros ->. apply digit_of. lia. Qed.
Lemma shift_start h : (h ≤ 11)%nat → u32 ((Z.of_nat (S h) - 1) * RADIX_TREE_MAP_SHIFT) = 6 * Z.of_nat h.
Proof. intros. unfold u32, wrap, RADIX_TREE_MAP_SHIFT. rewrite Z.mod_small; lia. Qed.
Lemma shift_next h shift : (S h ≤ 11)%nat → shift = 6 * Z.of_nat (S h) → u32 (shift - RADIX_TREE_MAP_SHIFT) = 6 * Z.of_nat h.
Proof. intros Hh ->. unfold u32, wrap, RADIX_TREE_MAP_SHIFT. rewrite Z.mod_small; lia. Qed.

Lemma path_snoc π d : path π → digit d → path (π ++ [d]).
Proof. intros. apply Forall_app. split; [done|]. by apply Forall_singleton. Qed.
Lemma length_snoc {A} (π : list A) d : length (π ++ [d]) = S (length π).
Proof. rewrite length_app. simpl. lia. Qed.

(** The rest of the digits. *)
Lemma digits_step h idx π : π ++ digits (S h) idx = (π ++ [next_digit h idx]) ++ digits h idx.
Proof. rewrite digits_cons, <- app_assoc. done. Qed.

Section descent.
Context (ns : gmap Z radix_tree_node) (root : radix_tree_root) (pre : radix_tree_preload_t) (c q : list Z).
Notation st := (RtState ns root pre c q).
Context (r : Z) (H : nat) (T : tree_ok ns r H).

Lemma wp_step π d (Q : Z → rt_state → Prop) : path π → (length π < H)%nat → reach ns r π ≠ 0 → digit d →
  Q (reach ns r (π ++ [d])) st → wp (rt_slot (reach ns r π) d) Q st.
Proof.
  intros Hπ Hl Hr Hd HQ. destruct (tk_node _ _ _ T π Hπ Hl Hr) as (n & Hn & [Hs _] & _).
  eapply wp_rt_slot; [done..|]. by rewrite reach_snoc, (proj2 (Z.eqb_neq _ 0) Hr) in HQ.
Qed.

Lemma lookup_loop_ok h : ∀ idx shift π, (S h ≤ 11)%nat → shift = 6 * Z.of_nat h → path π → (length π + S h = H)%nat → reach ns r π ≠ 0 →
  wp (lookup_loop (S h) idx shift (reach ns r π)) (λ res s', s' = st ∧
    match res with
    | None => reach ns r (π ++ digits (S h) idx) = 0
    | Some (place, v) => v = reach ns r (π ++ digits (S h) idx) ∧ v ≠ 0 ∧ reach ns r (π ++ digits h (idx / 64)) ≠ 0 ∧
        place = SlotPlace (reach ns r (π ++ digits h (idx / 64))) (idx `mod` 64)
    end) st.
Proof.
  induction h as [|h IH]; intros idx shift π Hh Hsh Hπ Hl Hr.
  - cbn [lookup_loop]. rewrite (offset_ok 0) by done. apply wp_bind. apply wp_step; [done|lia|done|apply next_digit_digit|].
    assert (Ed : digits 1 idx = [next_digit 0 idx]) by (rewrite digits_cons; done). rewrite Ed.
    assert (Em : idx `mod` 64 = next_digit 0 idx) by (unfold next_digit; cbn; by rewrite Z.div_1_r).
    destruct (Z.eqb_spec (reach ns r (π ++ [next_digit 0 idx])) 0) as [E|E]; apply wp_ret; [done|].
    split; [done|]. cbn [digits]. rewrite app_nil_r, Em. done.
  - change (lookup_loop (S (S h)) idx shift (reach ns r π)) with
      (v ← rt_slot (reach ns r π) ((idx >>u shift) .& RADIX_TREE_MAP_MASK);
       if v =? 0 then mret None else lookup_loop (S h) idx (u32 (shift - RADIX_TREE_MAP_SHIFT)) v).
    rewrite (offset_ok (S h)) by done. apply wp_bind. apply wp_step; [done|lia|done|apply next_digit_digit|].
    destruct (Z.eqb_spec (reach ns r (π ++ [next_digit (S h) idx])) 0) as [E|E].
    + apply wp_ret. split; [done|]. rewrite digits_step. by apply reach_below.
    + eapply wp_mono; [apply IH; [lia|apply shift_next; [lia|done]|by apply path_snoc, next_digit_digit|rewrite length_snoc; lia|done]|].
      intros res s' [-> Hres]. split; [done|]. rewrite digits_step.
      assert (Ed : π ++ digits (S h) (idx / 64) = (π ++ [next_digit (S h) idx]) ++ digits h (idx / 64)).
      { rewrite digits_step. do 3 f_equal. unfold next_digit. by rewrite Z.div_div, <- pow64_S by (pose proof (pow64_pos h); lia). }
      rewrite Ed. done.
Qed.

Lemma digits_shift h idx π : π ++ digits (S h) (idx / 64) = (π ++ [next_digit (S h) idx]) ++ digits h (idx / 64).
Proof.
  rewrite digits_step. do 3 f_equal. unfold next_digit. by rewrite Z.div_div, <- pow64_S by (pose proof (pow64_pos h); lia).
Qed.

(** The last node on the path of an index, if the path does not end before. *)
Lemma walk_loop_ok h : ∀ idx shift π node off, shift = 6 * Z.of_nat (S h) → path π → (length π + S h = H)%nat →
  wp (walk_loop (S h) idx shift node (reach ns r π) off) (λ res s', s' = st ∧
    match res with
    | None => reach ns r (π ++ digits (S h) idx) = 0
    | Some (node, off, slot) => slot = reach ns r (π ++ digits (S h) idx) ∧
        node = reach ns r (π ++ digits h (idx / 64)) ∧ node ≠ 0 ∧ off = idx `mod` 64
    end) st.
Proof.
  induction h as [|h IH]; intros idx shift π node off Hsh Hπ Hl.
  - cbn [walk_loop]. destruct (Z.eqb_spec (reach ns r π) 0) as [E|E]; [apply wp_ret; split; [done|by apply reach_below]|].
    rewrite (offset_ok 0) by (unfold RADIX_TREE_MAP_SHIFT; lia). apply wp_bind. apply wp_step; [done|lia|done|apply next_digit_digit|].
    apply wp_ret. assert (Ed : digits 1 idx = [next_digit 0 idx]) by (rewrite digits_cons; done). rewrite Ed.
    cbn [digits]. rewrite app_nil_r. split_and!; [done..|]. unfold next_digit. cbn. by rewrite Z.div_1_r.
  - change (walk_loop (S (S h)) idx shift node (reach ns r π) off) with
      (if reach ns r π =? 0 then mret None else
       slot ← rt_slot (reach ns r π) ((idx >>u (shift - RADIX_TREE_MAP_SHIFT)) .& RADIX_TREE_MAP_MASK);
       walk_loop (S h) idx (shift - RADIX_TREE_MAP_SHIFT) (reach ns r π) slot ((idx >>u (shift - RADIX_TREE_MAP_SHIFT)) .& RADIX_TREE_MAP_MASK)).
    destruct (Z.eqb_spec (reach ns r π) 0) as [E|E]; [apply wp_ret; split; [done|by apply reach_below]|].
    rewrite (offset_ok (S h)) by (unfold RADIX_TREE_MAP_SHIFT; lia). apply wp_bind. apply wp_step; [done|lia|done|apply next_digit_digit|].
    eapply wp_mono; [apply IH; [unfold RADIX_TREE_MAP_SHIFT; lia|by apply path_snoc, next_digit_digit|rewrite length_snoc; lia]|].
    intros res s' [-> Hres]. split; [done|]. by rewrite digits_step, digits_shift.
Qed.
End descent.

(** ** Lookup *)

Section lookup.
Context (s : rt_state) (r : Z) (H : nat) (m : gmap Z Z) (tg : Z → gset Z) (K : rt_ok s r H m tg).
Notation ns := (rt_nodes s).

(** The map, read off the tree. *)
Lemma items_lookup idx : is_u64 idx →
  default 0 (m !! idx) = if idx <? 64 ^ Z.of_nat H then reach ns r (digits H idx) else 0.
Proof.
  intros Hi. destruct (ok_items _ _ _ _ _ K) as [Hsome Hall]. destruct (m !! idx) as [v|] eqn:E.
  - destruct (Hsome _ _ E) as (_ & Hb & Hv & _). cbn. by rewrite (proj2 (Z.ltb_lt _ _) Hb).
  - cbn. destruct (Z.ltb_spec idx (64 ^ Z.of_nat H)); [|done].
    destruct (decide (reach ns r (digits H idx) = 0)) as [E0|E0]; [done|].
    destruct (Hall (digits H idx) (digits_path _ _) (digits_length _ _) E0) as (idx' & [v Hv] & Ed).
    destruct (Hsome _ _ Hv) as (Hi' & Hb' & _). apply digits_inj in Ed; [|lia..]. congruence.
Qed.

Lemma item_nonzero idx v : m !! idx = Some v → v ≠ 0.
Proof. intros E. by destruct (io_some _ _ _ _ (ok_items _ _ _ _ _ K) _ _ E) as (_ & _ & _ & ?). Qed.

Lemma index_test idx : is_u64 idx → (Z.min (64 ^ Z.of_nat H) (2 ^ 64) - 1 <? idx) = negb (idx <? 64 ^ Z.of_nat H).
Proof. intros Hi. destruct (Z.ltb_spec idx (64 ^ Z.of_nat H)); cbn; [apply Z.ltb_ge|apply Z.ltb_lt]; lia. Qed.

Lemma root_aligned : aligned r.
Proof. apply (tk_aligned _ _ _ (ok_tree _ _ _ _ _ K) []); [constructor|simpl; lia]. Qed.

Lemma root_ptr : indirect_to_ptr (rr_rnode (rt_root s)) = r.
Proof.
  rewrite (ro_rnode _ _ _ (ok_root _ _ _ _ _ K)). pose proof root_aligned. destruct H; [by apply aligned_ptr|].
  destruct (Z.eqb_spec r 0) as [->|]; [done|by apply ptr_back].
Qed.

(** What radix_tree_lookup_element finds. *)
Lemma lookup_element_ok idx : is_u64 idx →
  wp (radix_tree_lookup_element idx) (λ res s', s' = s ∧
    match res with
    | None => m !! idx = None
    | Some (place, v) => m !! idx = Some v ∧
        place = match H with O => RootPlace | S h => SlotPlace (reach ns r (digits h (idx / 64))) (idx `mod` 64) end
    end) s.
Proof.
  intros Hi. pose proof (items_lookup idx Hi) as Hm. pose proof (index_test idx Hi) as Ht.
  assert (Hnone : default 0 (m !! idx) = 0 → m !! idx = None).
  { destruct (m !! idx) eqn:E; [|done]. cbn. intros ->. by apply item_nonzero in E. }
  assert (Hsome : default 0 (m !! idx) ≠ 0 → m !! idx = Some (default 0 (m !! idx))) by (by destruct (m !! idx)).
  pose proof root_ptr as Hptr. pose proof root_aligned as Hra.
  destruct (ok_root _ _ _ _ _ K) as [Hh Hmax Hrn _]. unfold radix_tree_lookup_element. apply wp_bind, wp_gets.
  destruct H as [|h].
  - rewrite Hrn. cbn [digits] in Hm. change (64 ^ Z.of_nat 0) with 1 in Hm.
    destruct (Z.eqb_spec r 0) as [->|Hr]; [apply wp_ret; split; [done|]; apply Hnone; rewrite Hm; by destruct (idx <? 1)|].
    rewrite aligned_direct by done. cbn [negb]. apply wp_ret. split; [done|].
    destruct (Z.ltb_spec 0 idx), (Z.ltb_spec idx 1); try lia; [by apply Hnone|].
    cbn [reach foldl] in Hm. split; [|done]. rewrite <- Hm. apply Hsome. by rewrite Hm.
  - rewrite Hptr. rewrite Hrn. destruct (Z.eqb_spec r 0) as [->|Hr].
    { apply wp_ret. split; [done|]. apply Hnone. rewrite Hm, reach_zero. by destruct (_ <? _). }
    rewrite (proj2 (Z.eqb_neq _ 0)) by (intros E; apply (f_equal radix_tree_is_indirect_ptr) in E; by rewrite indirect_test in E).
    rewrite indirect_test. cbn [negb]. destruct (tk_node _ _ _ (ok_tree _ _ _ _ _ K) []) as (n & Hn & _ & Hnh & _); [constructor|simpl; lia|done|].
    cbn [reach foldl length] in Hn, Hnh. destruct s as [ns0 root0 pre0 c0 q0]. cbn [rt_nodes] in *. apply wp_bind. eapply wp_rt_get; [done|].
    rewrite Hnh, Nat.sub_0_r. apply wp_bind. eapply wp_lift; [by apply maxindex_ok|].
    rewrite Ht. revert Hm. destruct (Z.ltb_spec idx (64 ^ Z.of_nat (S h))) as [Hlt|Hge]; cbn [negb]; intros Hm; [|apply wp_ret; split; [done|by apply Hnone]].
    apply wp_bind. rewrite Nat2Z.id. rewrite shift_start by lia.
    eapply wp_mono; [apply (lookup_loop_ok _ _ _ _ _ r (S h) (ok_tree _ _ _ _ _ K) h idx _ []); [lia|done|constructor|done|done]|].
    intros res s' [-> Hres]. apply wp_ret. split; [done|]. destruct res as [[place v]|]; cbn [app rt_nodes] in Hres.
    + destruct Hres as (-> & Hv & _ & ->). rewrite Hsome by congruence. rewrite Hm.
      rewrite aligned_ptr; [done|]. apply (tk_aligned _ _ _ (ok_tree _ _ _ _ _ K)); [apply digits_path|by rewrite digits_length].
    + apply Hnone. congruence.
Qed.

Lemma lookup_ok idx : is_u64 idx → wp (radix_tree_lookup idx) (λ v s', s' = s ∧ v = default 0 (m !! idx)) s.
Proof.
  intros Hi. apply wp_bind. eapply wp_mono; [by apply lookup_element_ok|]. intros res s' [-> Hres]. apply wp_ret. split; [done|].
  destruct res as [[place v]|]; [by destruct Hres as [-> _]|by rewrite Hres].
Qed.
End lookup.

(** ** Tags *)

(** The bits of the nodes, as a property of the tag and the path below them. *)
Definition node_bits (ns : gmap Z radix_tree_node) (r : Z) (H : nat) (B : Z → list Z → Prop) : Prop :=
  ∀ t π i n, 0 ≤ t < 3 → path π → digit i → (length π < H)%nat → reach ns r π ≠ 0 → ns !! reach ns r π = Some n →
    Z.testbit (tag_word n t) i = true ↔ B t (π ++ [i]).

(** All but the tags. *)
Record core (ns : gmap Z radix_tree_node) (r : Z) (H : nat) (m : gmap Z Z) (pre : radix_tree_preload_t) (c q : list Z) : Prop := Core {
  co_tree : tree_ok ns r H;
  co_items : items_ok ns r H m;
  co_mem : mem_ok ns r H pre c q
}.

Section tag_step.
Context (ns : gmap Z radix_tree_node) (r : Z) (H : nat) (m : gmap Z Z) (pre : radix_tree_preload_t) (c q : list Z).
Context (C : core ns r H m pre c q) (π : list Z) (n n' : radix_tree_node) (t i : Z) (b : bool).
Notation a := (reach ns r π).
Notation ns' := (<[a := n']> ns).
Context (Hπ : path π) (Hlen : (length π < H)%nat) (Ha : a ≠ 0) (Hn : ns !! a = Some n) (Hi : digit i) (Hu : tag_upd n n' t i b).

Lemma tag_reach ρ : reach ns' r ρ = reach ns r ρ.
Proof. apply reach_ext. intros. eapply slot_at_upd; [done|]. apply Hu. Qed.

Lemma tag_core : core ns' r H m pre c q.
Proof.
  destruct C as [T [I1 I2] [M1 M2 M3 M4 M5 M6]]. destruct Hu as (Hh & Hc & Hp & Hs & Hok & _).
  assert (Hne : ∀ x, x ∈ c ++ pool pre ++ q → x ≠ a).
  { intros x Hx ->. destruct (M4 _ Hx) as (_ & _ & Hx'). by apply (Hx' π). }
  split.
  - destruct (tk_node _ _ _ T π Hπ Hlen Ha) as (n0 & E & [Hl _] & _). rewrite Hn in E. injection E as <-.
    eapply tree_upd; try done. split; [by rewrite Hs|done].
  - split; [intros idx v Hv|intros ρ Hρ Hl]; rewrite tag_reach; [by apply I1|by apply I2].
  - split; try done.
    + intros x Hx. destruct (M4 x Hx) as (? & ? & ?). split_and!; [done..|]. by eapply not_in_upd.
    + intros x Hx. rewrite lookup_insert_ne; [by apply M5|]. intros E. apply (Hne x); [|done]. rewrite !elem_of_app in *. tauto.
    + intros x Hx. rewrite lookup_insert_ne; [by apply M6|]. intros E. apply (Hne x); [|done]. rewrite !elem_of_app in *. tauto.
Qed.

Lemma tag_bits B B' : node_bits ns r H B →
  (∀ t' ρ, 0 ≤ t' < 3 → (t' ≠ t ∨ ρ ≠ π ++ [i]) → B t' ρ ↔ B' t' ρ) → (b = true ↔ B' t (π ++ [i])) → node_bits ns' r H B'.
Proof.
  intros HB Hsame Hnew t' ρ j m' Ht' Hρ Hj Hl. rewrite tag_reach. intros Hr Hm.
  destruct (decide (reach ns r ρ = a)) as [E|E].
  - apply (tk_inj _ _ _ (co_tree _ _ _ _ _ _ _ C)) in E; [|done..]. subst ρ. rewrite lookup_insert_eq in Hm. injection Hm as <-.
    destruct Hu as (_ & _ & _ & _ & _ & Hb). rewrite Hb by done. destruct (Z.eqb_spec t' t) as [->|], (Z.eqb_spec j i) as [->|]; cbn [andb]; [done|..].
    all: rewrite (HB _ _ _ n) by done; apply Hsame; [done|]; first [by left|right; intros [_ ?]%app_inj_tail; done].
  - rewrite lookup_insert_ne in Hm by done. rewrite (HB t' ρ j m') by done. apply Hsame; [done|].
    right. intros [-> _]%app_inj_tail. done.
Qed.
End tag_step.

Lemma tags_of_bits ns root r H m tg : tags_inv ns root r H m tg → node_bits ns r H (λ t ρ, below H ρ (tg t)).
Proof. intros HT t π i n. apply (ti_node _ _ _ _ _ _ HT). Qed.

(** A member of a tag set is an index of the tree. *)
Lemma member_reach ns root r H m tg t idx : items_ok ns r H m → tags_inv ns root r H m tg → 0 ≤ t < 3 → idx ∈ tg t →
  is_u64 idx ∧ idx < 64 ^ Z.of_nat H ∧ reach ns r (digits H idx) ≠ 0.
Proof.
  intros I HT Ht Hm. apply (ti_dom _ _ _ _ _ _ HT t Ht) in Hm. apply elem_of_dom in Hm as [v Hv].
  destruct (io_some _ _ _ _ I _ _ Hv) as (? & ? & -> & ?). done.
Qed.

Lemma below_digits H S idx : 0 ≤ idx < 64 ^ Z.of_nat H → (∀ j, j ∈ S → 0 ≤ j < 64 ^ Z.of_nat H) → below H (digits H idx) S ↔ idx ∈ S.
Proof.
  intros Hi HS. split; [|intros Hin; by exists idx]. intros (j & Hj & Hp).
  assert (E : digits H idx = digits H j).
  { destruct Hp as [k E]. assert (k = []) as ->; [|by rewrite app_nil_r in E].
    apply (f_equal length) in E. rewrite length_app, !digits_length in E. destruct k; [done|simpl in E; lia]. }
  apply digits_inj in E as ->; [done|lia|by apply HS].
Qed.

(** The path ends early: no member of a set of tags is below it. *)
Lemma below_reach ns root r H m tg t π : items_ok ns r H m → tags_inv ns root r H m tg → 0 ≤ t < 3 → below H π (tg t) → reach ns r π ≠ 0.
Proof.
  intros I HT Ht (idx & Hin & k & E). destruct (member_reach _ _ _ _ _ _ _ _ I HT Ht Hin) as (_ & _ & Hr).
  rewrite E in Hr. by eapply reach_prefix.
Qed.

Section tag_get.
Context (ns : gmap Z radix_tree_node) (root : radix_tree_root) (pre : radix_tree_preload_t) (c q : list Z).
Notation st := (RtState ns root pre c q).
Context (r : Z) (H : nat) (m : gmap Z Z) (tg : Z → gset Z) (K : rt_ok st r H m tg).
Notation T := (ok_tree _ _ _ _ _ K).
Notation I := (ok_items _ _ _ _ _ K).
Notation G := (ok_tags _ _ _ _ _ K).

Lemma tag_get_loop_ok h : ∀ idx t shift π, (S h ≤ 11)%nat → shift = 6 * Z.of_nat h → path π → 0 ≤ t < 3 →
  0 ≤ idx < 64 ^ Z.of_nat H → π ++ digits (S h) idx = digits H idx →
  wp (tag_get_loop (S h) idx t shift (reach ns r π)) (λ v s', s' = st ∧ v = Z.b2z (bool_decide (idx ∈ tg t))) st.
Proof.
  assert (Hmem : ∀ t, 0 ≤ t < 3 → ∀ j, j ∈ tg t → 0 ≤ j < 64 ^ Z.of_nat H).
  { intros t Ht j Hj. destruct (member_reach _ _ _ _ _ _ _ _ I G Ht Hj) as (? & ? & ?). lia. }
  assert (Hno : ∀ t idx π ρ, 0 ≤ t < 3 → π ++ ρ = digits H idx → ¬ below H π (tg t) → Z.b2z (bool_decide (idx ∈ tg t)) = 0).
  { intros t idx π ρ Ht E Hb. rewrite bool_decide_eq_false_2; [done|]. intros Hin. apply Hb. exists idx. split; [done|]. by exists ρ. }
  induction h as [|h IH]; intros idx t shift π Hh Hsh Hπ Ht Hi E.
  all: assert (Hlen : (length π + S _ = H)%nat) by (apply (f_equal length) in E; rewrite length_app, !digits_length in E; exact E).
  all: cbn [tag_get_loop]; destruct (Z.eqb_spec (reach ns r π) 0) as [E0|E0];
    [apply wp_ret; split; [done|]; symmetry; eapply Hno; [done|exact E|]; intros Hb; by eapply (below_reach ns root) in Hb; [|exact I|exact G|]|].
  all: destruct (tk_node _ _ _ T π Hπ ltac:(lia) E0) as (n & Hn & [Hs Hto] & _).
  all: rewrite (offset_ok _ _ _ Hsh); apply wp_bind; eapply wp_tag_get; [exact Hn|done|done|apply next_digit_digit|].
  all: pose proof (λ k, ti_node _ _ _ _ _ _ G t π (next_digit k idx) n Ht Hπ (next_digit_digit _ _) ltac:(lia) E0 Hn) as Hbit.
  all: match goal with |- context [Z.testbit _ (next_digit ?k _)] => specialize (Hbit k) end.
  all: rewrite digits_step in E; destruct (Z.testbit _ _); cbn [negb].
  2,4: apply wp_ret; split; [done|]; symmetry; eapply Hno; [done|exact E|]; intros Hb; by apply Hbit in Hb.
  - apply wp_ret. split; [done|]. cbn [digits] in E. rewrite app_nil_r in E. rewrite E in Hbit.
    rewrite bool_decide_eq_true_2; [done|]. apply (below_digits H); [done|by apply Hmem|by apply Hbit].
  - apply wp_bind. apply (wp_step _ _ _ _ _ r H T); [done|lia|done|apply next_digit_digit|].
    apply IH; [lia|apply shift_next; [lia|done]|by apply path_snoc, next_digit_digit|done|done|done].
Qed.
End tag_get.

Section tag_get_all.
Context (ns : gmap Z radix_tree_node) (root : radix_tree_root) (pre : radix_tree_preload_t) (c q : list Z).
Notation st := (RtState ns root pre c q).
Context (r : Z) (H : nat) (m : gmap Z Z) (tg : Z → gset Z) (K : rt_ok st r H m tg).
Notation T := (ok_tree _ _ _ _ _ K).
Notation I := (ok_items _ _ _ _ _ K).
Notation G := (ok_tags _ _ _ _ _ K).

Lemma tag_get_ok idx t : is_u64 idx → 0 ≤ t < 3 →
  wp (radix_tree_tag_get idx t) (λ v s', s' = st ∧ v = Z.b2z (bool_decide (idx ∈ tg t))) st.
Proof.
  intros Hi Ht. pose proof (root_ptr _ _ _ _ _ K) as Hptr. pose proof (root_aligned _ _ _ _ _ K) as Hra.
  pose proof (index_test H idx Hi) as Htest. cbn [rt_root] in Hptr.
  assert (Hmem : ∀ j, j ∈ tg t → 0 ≤ j < 64 ^ Z.of_nat H ∧ reach ns r (digits H j) ≠ 0).
  { intros j Hj. destruct (member_reach _ _ _ _ _ _ _ _ I G Ht Hj) as (? & ? & ?). split; [lia|done]. }
  assert (Hno : ¬ (0 ≤ idx < 64 ^ Z.of_nat H ∧ reach ns r (digits H idx) ≠ 0) → Z.b2z (bool_decide (idx ∈ tg t)) = 0).
  { intros Hn. rewrite bool_decide_eq_false_2; [done|]. intros Hin. by apply Hn, Hmem. }
  pose proof (ti_root _ _ _ _ _ _ G t Ht) as Hroot. cbn [rt_root] in Hroot.
  destruct (ok_root _ _ _ _ _ K) as [Hh Hmax Hrn _]. cbn [rt_root] in *. unfold radix_tree_tag_get. apply wp_bind, wp_gets. cbn [rt_root].
  destruct (root_tag_get root t); cbn [negb].
  2:{ apply wp_ret. split; [done|]. rewrite bool_decide_eq_false_2; [done|]. intros Hin. enough (false = true) by done.
      apply Hroot. exists idx. split; [done|]. apply prefix_nil. }
  destruct H as [|h].
  - rewrite Hrn. destruct (Z.eqb_spec r 0) as [->|Hr]; [apply wp_ret; split; [done|]; symmetry; apply Hno; rewrite reach_zero; tauto|].
    rewrite aligned_direct by done. cbn [negb]. apply wp_ret. split; [done|]. f_equal. apply Bool.eq_iff_eq_true.
    rewrite bool_decide_eq_true. destruct (proj1 Hroot eq_refl) as (j & Hj & _). pose proof (proj1 (Hmem j Hj)) as Hj0.
    change (64 ^ Z.of_nat 0) with 1 in *. rewrite Z.eqb_eq. split; [intros ->; by replace 0 with j by lia|].
    intros Hin. destruct (Hmem _ Hin). lia.
  - rewrite Hptr. rewrite Hrn. destruct (Z.eqb_spec r 0) as [->|Hr].
    { apply wp_ret. split; [done|]. symmetry. apply Hno. rewrite reach_zero. tauto. }
    rewrite (proj2 (Z.eqb_neq _ 0)) by (intros E; apply (f_equal radix_tree_is_indirect_ptr) in E; by rewrite indirect_test in E).
    rewrite indirect_test. cbn [negb]. destruct (tk_node _ _ _ T []) as (n & Hn & _ & Hnh & _); [constructor|simpl; lia|done|].
    cbn [reach foldl length] in Hn, Hnh. apply wp_bind. eapply wp_rt_get; [done|].
    rewrite Hnh, Nat.sub_0_r. apply wp_bind. eapply wp_lift; [by apply maxindex_ok|].
    rewrite Htest. destruct (Z.ltb_spec idx (64 ^ Z.of_nat (S h))) as [Hlt|Hge]; cbn [negb].
    2:{ apply wp_ret. split; [done|]. symmetry. apply Hno. lia. }
    rewrite Nat2Z.id. apply (tag_get_loop_ok _ _ _ _ _ _ _ _ _ K h idx t _ []); [lia|apply shift_start; lia|constructor|done|lia|done].
Qed.
End tag_get_all.
