(* ===== verification/RadixTags.v ===== *)
(** * RadixTags: setting and clearing tags *)

From S2P Require Import Prelude Bitops Radix RadixPath RadixInv RadixOps.

Definition tag_add (tg : Z → gset Z) (t idx : Z) : Z → gset Z := λ t', if t' =? t then {[idx]} ∪ tg t' else tg t'.
Definition tag_del (tg : Z → gset Z) (t idx : Z) : Z → gset Z := λ t', if t' =? t then tg t' ∖ {[idx]} else tg t'.

(** ** Paths and members *)

Lemma prefix_snoc_iff (ρ π : list Z) d : ρ `prefix_of` π ++ [d] ↔ ρ `prefix_of` π ∨ ρ = π ++ [d].
Proof.
  split.
  - intros [k E]. destruct k as [|e k _] using rev_ind; [right; by rewrite app_nil_r in E|].
    rewrite app_assoc in E. apply app_inj_tail in E as [-> _]. left. by eexists.
  - intros [[k ->]| ->]; [|done]. exists (k ++ [d]). by rewrite app_assoc.
Qed.

Lemma below_union H ρ S idx : below H ρ ({[idx]} ∪ S) ↔ below H ρ S ∨ ρ `prefix_of` digits H idx.
Proof. unfold below. split; [intros (j & Hj & Hp); set_solver|]. intros [(j & Hj & Hp)|Hp]; [exists j|exists idx]; set_solver. Qed.

Lemma node_bits_ext ns r H B B' : (∀ t ρ, 0 ≤ t < 3 → B t ρ ↔ B' t ρ) → node_bits ns r H B → node_bits ns r H B'.
Proof. intros E HB t π i n Ht Hπ Hi Hl Hr Hn. by rewrite (HB t π i n), E. Qed.

(** ** The tags of the root *)

Lemma root_tag_test root t : 0 ≤ t < 3 → root_tag_get root t = Z.testbit (rr_gfp_mask root) (t + 25).
Proof.
  intros Ht. unfold root_tag_get, root_tag_bit, __GFP_BITS_SHIFT. rewrite Z.shiftl_1_l, test_mask by lia. apply negb_involutive.
Qed.

Lemma testbit_root_bit t i : 0 ≤ t < 3 → Z.testbit (root_tag_bit t) i = (i =? t + 25).
Proof. intros. unfold root_tag_bit, __GFP_BITS_SHIFT. rewrite Z.shiftl_1_l, Z.pow2_bits_eqb by lia. apply Z.eqb_sym. Qed.

Lemma root_set_test h g v t t' : 0 ≤ t < 3 → 0 ≤ t' < 3 → is_u32 g →
  root_tag_get (RtRoot h (g .| root_tag_bit t) v) t' = (t' =? t) || root_tag_get (RtRoot h g v) t' ∧ is_u32 (g .| root_tag_bit t).
Proof.
  intros Ht Ht' Hg. split.
  - rewrite !root_tag_test by done. cbn [rr_gfp_mask]. rewrite Z.lor_spec, testbit_root_bit by done.
    replace (t' + 25 =? t + 25) with (t' =? t) by (apply Bool.eq_iff_eq_true; rewrite !Z.eqb_eq; lia). apply orb_comm.
  - apply bits_bound; [lia|]. intros i Hi. rewrite Z.lor_spec, testbit_root_bit, (testbit_high 32 g) by lia. bool_compare.
Qed.

Lemma root_clear_test h g v t t' : 0 ≤ t < 3 → 0 ≤ t' < 3 → is_u32 g →
  root_tag_get (RtRoot h (g .& u32 (Z.lnot (root_tag_bit t))) v) t' = negb (t' =? t) && root_tag_get (RtRoot h g v) t' ∧
  is_u32 (g .& u32 (Z.lnot (root_tag_bit t))).
Proof.
  intros Ht Ht' Hg. split.
  - rewrite !root_tag_test by done. cbn [rr_gfp_mask]. rewrite Z.land_spec, testbit_u32, testbit_lnot, testbit_root_bit by done.
    replace (t' + 25 =? t + 25) with (t' =? t) by (apply Bool.eq_iff_eq_true; rewrite !Z.eqb_eq; lia).
    rewrite (proj2 (Z.ltb_lt _ _)), (proj2 (Z.leb_le _ _)) by lia. apply andb_comm.
  - apply bits_bound; [lia|]. intros i Hi. by rewrite Z.land_spec, (testbit_high 32 g) by lia.
Qed.

(** ** radix_tree_tag_set *)

Definition set_bits (H : nat) (tg : Z → gset Z) (t : Z) (π : list Z) (t' : Z) (ρ : list Z) : Prop :=
  below H ρ (tg t') ∨ (t' = t ∧ ρ `prefix_of` π ∧ ρ ≠ []).

Section tag_set.
Context (root : radix_tree_root) (pre : radix_tree_preload_t) (c q : list Z) (r : Z) (H : nat) (m : gmap Z Z) (tg : Z → gset Z).
Notation st ns := (RtState ns root pre c q).

Lemma tag_set_loop_ok h : ∀ ns idx t shift π, core ns r H m pre c q → node_bits ns r H (set_bits H tg t π) →
  (h ≤ 11)%nat → (h ≠ 0%nat → shift = 6 * (Z.of_nat h - 1)) → path π → 0 ≤ t < 3 → π ++ digits h idx = digits H idx → reach ns r (digits H idx) ≠ 0 →
  wp (tag_set_loop h idx t shift (reach ns r π)) (λ v s', ∃ ns', s' = st ns' ∧ core ns' r H m pre c q ∧
    node_bits ns' r H (set_bits H tg t (digits H idx)) ∧ v = reach ns r (digits H idx)) (st ns).
Proof.
  induction h as [|h IH]; intros ns idx t shift π C HB Hh Hsh Hπ Ht E Hr.
  { cbn [tag_set_loop digits] in *. rewrite app_nil_r in E. subst π. apply wp_ret. by exists ns. }
  rewrite digits_step in E. set (d := next_digit h idx) in *. assert (Hd : digit d) by apply next_digit_digit.
  assert (Hlen : (length π < H)%nat).
  { apply (f_equal length) in E. rewrite !length_app, !digits_length in E. simpl in E. lia. }
  assert (Hr2 : reach ns r (π ++ [d]) ≠ 0) by (rewrite <- E in Hr; by eapply reach_prefix).
  assert (Hr1 : reach ns r π ≠ 0) by (by eapply reach_prefix).
  destruct (tk_node _ _ _ (co_tree _ _ _ _ _ _ _ C) π Hπ Hlen Hr1) as (n & Hn & [Hs Hto] & _).
  cbn [tag_set_loop]. rewrite (offset_ok h) by lia. fold d. apply wp_bind. eapply wp_tag_get; [done..|].
  assert (Hnext : ∀ ns', core ns' r H m pre c q → node_bits ns' r H (set_bits H tg t (π ++ [d])) → (∀ ρ, reach ns' r ρ = reach ns r ρ) →
    wp (slot ← rt_slot (reach ns r π) d; if slot =? 0 then wrong else tag_set_loop h idx t (u32 (shift - RADIX_TREE_MAP_SHIFT)) slot)
      (λ v s', ∃ ns', s' = st ns' ∧ core ns' r H m pre c q ∧ node_bits ns' r H (set_bits H tg t (digits H idx)) ∧ v = reach ns r (digits H idx)) (st ns')).
  { intros ns' C' HB' Er. rewrite <- Er. apply wp_bind.
    apply (wp_step _ _ _ _ _ r H (co_tree _ _ _ _ _ _ _ C')); [done|done|by rewrite Er|done|].
    rewrite (proj2 (Z.eqb_neq _ 0)) by (by rewrite Er). rewrite <- (Er (digits H idx)).
    apply IH; [done|done|lia| |by apply path_snoc|done|done|by rewrite Er].
    destruct h; [done|]. intros _. rewrite (shift_next h) by lia. lia. }
  pose proof (HB t π d n Ht Hπ Hd Hlen Hr1 Hn) as Hbit.
  assert (Hext : ∀ t' ρ, 0 ≤ t' < 3 → t' ≠ t ∨ ρ ≠ π ++ [d] → set_bits H tg t π t' ρ ↔ set_bits H tg t (π ++ [d]) t' ρ).
  { intros t' ρ _ Hne. unfold set_bits. rewrite prefix_snoc_iff. tauto. }
  assert (Hin : set_bits H tg t (π ++ [d]) t (π ++ [d])) by (right; split_and!; [done|done|by destruct π]).
  destruct (Z.testbit (tag_word n t) d) eqn:Eb; cbn [negb]; apply wp_bind.
  - apply wp_ret. apply Hnext; [done| |done]. eapply node_bits_ext; [|done]. intros t' ρ Ht'.
    destruct (decide (t' = t ∧ ρ = π ++ [d])) as [[-> ->]|Hne]; [|apply Hext; [done|]; destruct (decide (t' = t)); tauto].
    split; [done|]. intros _. by apply Hbit.
  - eapply wp_tag_set; [done..|]. intros n' Hu. apply Hnext.
    + by eapply tag_core.
    + eapply tag_bits; [exact C|done..|exact HB|exact Hext|]. done.
    + intros ρ. by eapply tag_reach.
Qed.
End tag_set.

(** The root with a tag set or not. *)
Lemma root_ok_gfp root r H g : root_ok root r H → is_u32 g → root_ok (RtRoot (rr_height root) g (rr_rnode root)) r H.
Proof. intros [Hh Hm Hr _] Hg. by split. Qed.

Lemma tag_set_ok s r H m tg idx t v : rt_ok s r H m tg → is_u64 idx → 0 ≤ t < 3 → m !! idx = Some v →
  wp (radix_tree_tag_set idx t) (λ x s', x = v ∧ rt_ok s' r H m (tag_add tg t idx)) s.
Proof.
  intros K Hi Ht Hv. pose proof (root_ptr _ _ _ _ _ K) as Hptr. pose proof (index_test H idx Hi) as Htest.
  destruct (io_some _ _ _ _ (ok_items _ _ _ _ _ K) _ _ Hv) as (_ & Hlt & Hreach & Hv0).
  destruct K as [T R I G M]. destruct s as [ns root pre c q]. cbn [rt_nodes rt_root rt_preload rt_cache rt_rcu] in *.
  unfold radix_tree_tag_set. apply wp_bind, wp_gets. cbn [rt_root]. rewrite (ro_height _ _ _ R), Hptr.
  apply wp_bind. eapply wp_lift; [apply maxindex_ok, R|]. rewrite Htest, (proj2 (Z.ltb_lt _ _) Hlt). cbn [negb].
  rewrite Nat2Z.id. apply wp_bind. eapply wp_mono.
  { apply (tag_set_loop_ok root pre c q r H m tg H ns idx t _ []); [by split| |apply R| |constructor|done|done|by rewrite Hreach].
    - eapply node_bits_ext; [|by eapply tags_of_bits]. intros t' ρ _. unfold set_bits. split; [by left|]. intros [?|(_ & ?%prefix_nil_inv & ?)]; done.
    - pose proof (ro_max _ _ _ R). destruct H; [done|]. intros _. rewrite shift_start by lia. lia. }
  intros x s' (ns' & -> & [T' I' M'] & HB & ->). rewrite Hreach. apply wp_bind, wp_gets. cbn [rt_root].
  assert (Hg : ∀ root', root_ok root' r H → (∀ t', 0 ≤ t' < 3 → root_tag_get root' t' = (t' =? t) || root_tag_get root t') →
    rt_ok (RtState ns' root' pre c q) r H m (tag_add tg t idx)).
  { intros root' R' Hrt. split; cbn [rt_nodes rt_root rt_preload rt_cache rt_rcu]; [done..| |done]. split.
    - intros t' Ht'. rewrite Hrt by done. unfold tag_add. destruct (Z.eqb_spec t' t) as [->|]; cbn [orb]; [|by apply (ti_root _ _ _ _ _ _ G)].
      split; [|done]. intros _. apply below_union. right. apply prefix_nil.
    - intros t' π i n Ht' Hπ Hd Hl Hr Hn. rewrite (HB t' π i n) by done. unfold set_bits, tag_add.
      destruct (Z.eqb_spec t' t) as [->|]; [|tauto]. rewrite below_union. split; [tauto|]. intros [?|?]; [tauto|]. right. split_and!; [done|done|by destruct π].
    - intros t' Ht'. unfold tag_add. pose proof (ti_dom _ _ _ _ _ _ G t' Ht'). destruct (t' =? t); [|done].
      apply union_subseteq. split; [|done]. apply singleton_subseteq_l, elem_of_dom. by eexists. }
  rewrite (proj2 (Z.eqb_neq v 0)) by done. cbn [negb andb]. destruct root as [h g rn]. apply wp_bind.
  destruct (root_tag_get (RtRoot h g rn) t) eqn:Et; cbn [negb].
  - apply wp_ret, wp_ret. split; [done|]. apply Hg; [done|]. intros t' Ht'. destruct (Z.eqb_spec t' t) as [->|]; [by rewrite Et|done].
  - apply wp_bind, wp_gets, wp_modify, wp_ret. cbn [rt_nodes rt_root rt_preload rt_cache rt_rcu rr_height rr_gfp_mask rr_rnode].
    split; [done|]. apply Hg.
    + apply (root_ok_gfp (RtRoot h g rn)); [done|]. apply (root_set_test h g rn t t Ht Ht (ro_gfp _ _ _ R)).
    + intros t' Ht'. apply (root_set_test h g rn t t' Ht Ht' (ro_gfp _ _ _ R)).
Qed.

(** ** radix_tree_tag_clear *)

(** Above the length [k] the bits are not cleared yet. *)
Definition clear_bits (H : nat) (tg : Z → gset Z) (t idx : Z) (k : nat) (t' : Z) (ρ : list Z) : Prop :=
  below H ρ (if decide (k < length ρ)%nat then tag_del tg t idx t' else tg t').

Lemma prefix_digits k j idx : digits k (idx / 64 ^ Z.of_nat j) `prefix_of` digits (k + j) idx.
Proof.
  revert idx. induction j as [|j IH]; intros idx.
  { by rewrite Nat.add_0_r, Z.div_1_r. }
  rewrite Nat.add_succ_r. cbn [digits]. apply prefix_app_r. rewrite pow64_S, <- Z.div_div by (pose proof (pow64_pos j); lia). apply IH.
Qed.

Lemma below_mono H ρ S S' : S ⊆ S' → below H ρ S → below H ρ S'.
Proof. intros HS (j & Hj & Hp). exists j. split; [by apply HS|done]. Qed.

Lemma below_del H ρ S idx : ¬ ρ `prefix_of` digits H idx → below H ρ S ↔ below H ρ (S ∖ {[idx]}).
Proof.
  intros Hn. split; [|apply below_mono; set_solver]. intros (j & Hj & Hp). exists j. split; [|done].
  apply elem_of_difference. split; [done|]. intros ->%elem_of_singleton. done.
Qed.

Lemma prefix_same_length (ρ π δ : list Z) : length ρ = length π → ρ `prefix_of` δ → π `prefix_of` δ → ρ = π.
Proof.
  intros Hl [k1 ->] [k2 E]. by apply app_inj_1 in E as [-> _].
Qed.

Section tag_clear.
Context (root : radix_tree_root) (pre : radix_tree_preload_t) (c q : list Z) (r : Z) (H : nat) (m : gmap Z Z) (tg : Z → gset Z).
Context (t idx : Z) (Ht : 0 ≤ t < 3).
Notation st ns := (RtState ns root pre c q).
Notation S' := (tag_del tg t idx).

Lemma del_self : S' t = tg t ∖ {[idx]}.
Proof. unfold tag_del. by rewrite Z.eqb_refl. Qed.
Lemma del_other t' : t' ≠ t → S' t' = tg t'.
Proof. intros. unfold tag_del. by rewrite (proj2 (Z.eqb_neq t' t)). Qed.

(** The bit has been cleared at [ρ0]: the bits of its length are exact. *)
Lemma clear_level ρ0 : ρ0 `prefix_of` digits H idx → ∀ t' ρ, t' ≠ t ∨ ρ ≠ ρ0 →
  clear_bits H tg t idx (length ρ0) t' ρ ↔ clear_bits H tg t idx (pred (length ρ0)) t' ρ.
Proof.
  intros Hp t' ρ Hne. unfold clear_bits. destruct (decide (length ρ0 < length ρ)%nat), (decide (pred (length ρ0) < length ρ)%nat); try done; [lia|].
  destruct (decide (t' = t)) as [->|]; [|by rewrite del_other]. destruct Hne as [|Hne]; [done|]. rewrite del_self. apply below_del.
  intros Hp'. apply Hne. eapply prefix_same_length; [lia|done|done].
Qed.

(** Once a bit remains at [π], the bits above it are exact as they are. *)
Lemma clear_done π j : π `prefix_of` digits H idx → below H (π ++ [j]) (S' t) →
  (∀ t' ρ, clear_bits H tg t idx (length π) t' ρ ↔ below H ρ (S' t')) ∧ (below H [] (tg t) ↔ below H [] (S' t)).
Proof.
  intros Hp (i & Hi & Hpi). assert (Hup : ∀ ρ, ρ `prefix_of` π → below H ρ (S' t)).
  { intros ρ Hρ. exists i. split; [done|]. etrans; [exact Hρ|]. etrans; [|exact Hpi]. by apply prefix_app_r. }
  assert (Hsub : S' t ⊆ tg t) by (rewrite del_self; set_solver). split.
  - intros t' ρ. unfold clear_bits. destruct (decide (length π < length ρ)%nat); [done|].
    destruct (decide (t' = t)) as [->|]; [|by rewrite del_other].
    destruct (decide (ρ `prefix_of` digits H idx)) as [Hρ|Hρ]; [|rewrite del_self; by apply below_del].
    assert (ρ `prefix_of` π).
    { destruct (prefix_weak_total _ _ _ Hρ Hp) as [|Hπ]; [done|]. rewrite (prefix_length_eq _ _ Hπ) by lia. done. }
    split; [|by apply below_mono]. intros _. by apply Hup.
  - split; [|by apply below_mono]. intros _. apply Hup, prefix_nil.
Qed.

Definition cleared (ns : gmap Z radix_tree_node) (up : bool) (s' : rt_state) : Prop :=
  ∃ ns', s' = st ns' ∧ core ns' r H m pre c q ∧ (∀ ρ, reach ns' r ρ = reach ns r ρ) ∧ node_bits ns' r H (λ t' ρ, below H ρ (S' t')) ∧
    if up then ¬ below H [] (S' t) else below H [] (tg t) ↔ below H [] (S' t).

(** A node without bits has no member below it. *)
Lemma no_bits ns π n : node_bits ns r H (clear_bits H tg t idx (length π)) → path π → (length π < H)%nat → reach ns r π ≠ 0 →
  ns !! reach ns r π = Some n → tag_word n t = 0 → ¬ below H π (S' t).
Proof.
  intros HB Hπ Hlen Hr Hn Hw (i & Hi & k & E). destruct k as [|j k].
  { apply (f_equal length) in E. rewrite app_nil_r, digits_length in E. lia. }
  assert (Hj : digit j).
  { pose proof (digits_path H i) as Hd. rewrite E in Hd. apply Forall_app in Hd as [_ Hd]. by apply Forall_cons in Hd as [? _]. }
  pose proof (HB t π j n Ht Hπ Hj Hlen Hr Hn) as Hbit. rewrite Hw, Z.bits_0 in Hbit.
  enough (false = true) by done. apply Hbit. unfold clear_bits. rewrite decide_True by (rewrite length_snoc; lia).
  exists i. split; [done|]. exists k. by rewrite <- app_assoc.
Qed.

Lemma tag_clear_step ns fuel idxk π d : core ns r H m pre c q → node_bits ns r H (clear_bits H tg t idx (S (length π))) →
  path π → digit d → (length π < H)%nat → π ++ [d] `prefix_of` digits H idx → ¬ below H (π ++ [d]) (S' t) → reach ns r π ≠ 0 →
  (∀ ns', core ns' r H m pre c q → node_bits ns' r H (clear_bits H tg t idx (length π)) → (∀ ρ, reach ns' r ρ = reach ns r ρ) → ¬ below H π (S' t) →
    wp (tag_clear_up fuel (idxk / 64) t (parent_of ns r π) ((idxk / 64) `mod` 64)) (cleared ns) (st ns')) →
  wp (tag_clear_up (S fuel) idxk t (reach ns r π) d) (cleared ns) (st ns).
Proof.
  intros C HB Hπ Hd Hlen Hp Hnb Hr Hup.
  destruct (tk_node _ _ _ (co_tree _ _ _ _ _ _ _ C) π Hπ Hlen Hr) as (n & Hn & [Hs Hto] & _ & _ & Hpar).
  cbn [tag_clear_up]. rewrite (proj2 (Z.eqb_neq _ 0) Hr). apply wp_bind. eapply wp_tag_get; [done..|].
  pose proof (HB t π d n Ht Hπ Hd Hlen Hr Hn) as Hbit. unfold clear_bits in Hbit. rewrite decide_False in Hbit by (rewrite length_snoc; lia).
  destruct (Z.testbit (tag_word n t) d) eqn:Eb; cbn [negb].
  2:{ assert (Hni : idx ∉ tg t) by (intros Hin; enough (false = true) by done; apply Hbit; by exists idx).
      assert (Es : ∀ t', S' t' = tg t').
      { intros t'. destruct (decide (t' = t)) as [->|]; [|by apply del_other]. rewrite del_self. set_solver. }
      apply wp_ret. exists ns. split_and!; [done..| |by rewrite Es]. eapply node_bits_ext; [|exact HB].
      intros t' ρ _. unfold clear_bits. rewrite Es. by destruct (decide _). }
  apply wp_bind. eapply wp_tag_clear; [done..|]. intros n' Hu.
  pose proof (tag_core _ _ _ _ _ _ _ C π n n' t d false Hπ Hlen Hr Hn Hd Hu) as C1.
  pose proof (tag_reach ns r π n n' t d false Hn Hu) as Er. pose proof Hu as (_ & _ & Hpar' & _ & Hto' & _).
  assert (HB1 : node_bits (<[reach ns r π := n']> ns) r H (clear_bits H tg t idx (length π))).
  { eapply tag_bits; [exact C|done..|exact HB| |].
    - intros t' ρ _ Hne. pose proof (clear_level (π ++ [d]) Hp t' ρ Hne) as E. by rewrite length_snoc in E.
    - split; [done|]. intros Hb. destruct Hnb. unfold clear_bits in Hb. by rewrite decide_True in Hb by (rewrite length_snoc; lia). }
  apply wp_bind. eapply wp_any_tag_set; [apply lookup_insert_eq|done|done|].
  destruct (Z.eqb_spec (tag_word n' t) 0) as [Hw|Hw]; cbn [negb].
  - apply wp_bind. eapply wp_rt_get; [apply lookup_insert_eq|].
    change (idxk >>u RADIX_TREE_MAP_SHIFT) with (idxk >>u 6). rewrite Z.shiftr_div_pow2 by lia. change (2 ^ 6) with 64.
    change RADIX_TREE_MAP_MASK with (Z.ones 6). rewrite Z.land_ones by lia. change (2 ^ 6) with 64.
    rewrite Hpar', Hpar. apply Hup; [done..|]. eapply no_bits; [exact HB1|done|done|by rewrite Er|rewrite Er; apply lookup_insert_eq|done].
  - apply wp_ret. exists (<[reach ns r π := n']> ns). pose proof (tag_word_u64 n' t Hto') as Hwu.
    assert (Hj : digit (Z.log2 (tag_word n' t))) by (split; [apply Z.log2_nonneg|apply Z.log2_lt_pow2; lia]).
    assert (Hb : below H (π ++ [Z.log2 (tag_word n' t)]) (S' t)).
    { pose proof (HB1 t π _ n' Ht Hπ Hj Hlen ltac:(by rewrite Er) ltac:(rewrite Er; apply lookup_insert_eq)) as [Hb _].
      rewrite Z.bit_log2 in Hb by lia. specialize (Hb eq_refl). unfold clear_bits in Hb. by rewrite decide_True in Hb by (rewrite length_snoc; lia). }
    apply clear_done in Hb as [Hall Hroot]; [|etrans; [|exact Hp]; by apply prefix_app_r].
    split_and!; [done..| |done]. eapply node_bits_ext; [|exact HB1]. intros t' ρ _. apply Hall.
Qed.

Lemma tag_clear_up_ok k : ∀ ns fuel idxk, core ns r H m pre c q → node_bits ns r H (clear_bits H tg t idx (S k)) →
  (S k ≤ H)%nat → (k + 1 < fuel)%nat → digits (S k) idxk `prefix_of` digits H idx → ¬ below H (digits (S k) idxk) (S' t) →
  reach ns r (digits k (idxk / 64)) ≠ 0 →
  wp (tag_clear_up fuel idxk t (reach ns r (digits k (idxk / 64))) (idxk `mod` 64)) (cleared ns) (st ns).
Proof.
  induction k as [|k IH]; intros ns fuel idxk C HB Hk Hf Hp Hnb Hr; (destruct fuel as [|fuel]; [lia|]).
  all: apply tag_clear_step; rewrite ?digits_length; try done; [apply digits_path|apply Z.mod_pos_bound; lia|].
  - intros ns' C' HB' Er Hno. destruct fuel as [|fuel]; [lia|]. cbn [digits parent_of tag_clear_up]. rewrite Z.eqb_refl. apply wp_ret.
    exists ns'. split_and!; [done..| |done]. intros t' π i n Ht' Hπ Hd Hl Hr' Hn. rewrite (HB' t' π i n) by done. unfold clear_bits.
    by rewrite decide_True by (rewrite length_snoc; lia).
  - intros ns' C' HB' Er Hno. cbn [digits]. rewrite parent_of_snoc, <- Er. eapply wp_mono.
    + apply IH; [done|done|lia|lia| |done|].
      * etrans; [|exact Hp]. apply prefix_app_r. done.
      * rewrite Er. cbn [digits] in Hr. by eapply reach_prefix.
    + intros up s' (ns2 & -> & C2 & Er2 & Hrest). exists ns2. split_and!; [done..| |apply Hrest|apply Hrest]. intros ρ. by rewrite Er2, Er.
Qed.
End tag_clear.

Lemma rt_ok_ext s r H m tg tg' : (∀ t, 0 ≤ t < 3 → tg t = tg' t) → rt_ok s r H m tg → rt_ok s r H m tg'.
Proof.
  intros E [T R I [G1 G2 G3] M]. split; [done..| |done]. split.
  - intros t Ht. rewrite <- E by done. by apply G1.
  - intros t π i n Ht. rewrite <- E by done. by apply G2.
  - intros t Ht. rewrite <- E by done. by apply G3.
Qed.

(** The state keeps all but the tags. *)
Definition same_tree (r : Z) (s s' : rt_state) : Prop :=
  (∀ ρ, reach (rt_nodes s') r ρ = reach (rt_nodes s) r ρ) ∧ rr_height (rt_root s') = rr_height (rt_root s) ∧
  rr_rnode (rt_root s') = rr_rnode (rt_root s) ∧ rr_gfp_mask (rt_root s') .& __GFP_BITS_MASK = rr_gfp_mask (rt_root s) .& __GFP_BITS_MASK ∧
  rt_preload s' = rt_preload s ∧ rt_cache s' = rt_cache s ∧ rt_rcu s' = rt_rcu s.

Lemma not_member s r H m tg idx t : rt_ok s r H m tg → 0 ≤ t < 3 → m !! idx = None → ∀ t', 0 ≤ t' < 3 → tg t' = tag_del tg t idx t'.
Proof.
  intros K Ht Hm t' Ht'. unfold tag_del. destruct (Z.eqb_spec t' t) as [->|]; [|done].
  pose proof (ti_dom _ _ _ _ _ _ (ok_tags _ _ _ _ _ K) t Ht). apply not_elem_of_dom in Hm. set_solver.
Qed.

Lemma clear_keeps_gfp g t : 0 ≤ t < 3 → is_u32 g → (g .& u32 (Z.lnot (root_tag_bit t))) .& __GFP_BITS_MASK = g .& __GFP_BITS_MASK.
Proof.
  intros Ht Hg. apply Z.bits_inj'. intros i Hi. change __GFP_BITS_MASK with (Z.ones 25).
  rewrite !Z.land_spec, testbit_u32, testbit_lnot, testbit_root_bit, testbit_ones by lia.
  bool_compare; cbn; by rewrite ?andb_false_r, ?andb_true_r.
Qed.

Lemma tag_clear_ok s r H m tg idx t : rt_ok s r H m tg → is_u64 idx → 0 ≤ t < 3 →
  wp (radix_tree_tag_clear idx t) (λ v s', v = default 0 (m !! idx) ∧ rt_ok s' r H m (tag_del tg t idx) ∧ same_tree r s s') s.
Proof.
  intros K Hi Ht. pose proof (root_ptr _ _ _ _ _ K) as Hptr. pose proof (index_test H idx Hi) as Htest. pose proof (items_lookup _ _ _ _ _ K idx Hi) as Hlook.
  assert (Hnone : default 0 (m !! idx) = 0 → rt_ok s r H m (tag_del tg t idx) ∧ same_tree r s s).
  { intros E. assert (Em : m !! idx = None).
    { destruct (m !! idx) eqn:Em; [|done]. cbn in E. subst. by apply (item_nonzero _ _ _ _ _ K) in Em. }
    split; [|by split_and!]. eapply rt_ok_ext; [|exact K]. by apply (not_member s r H m). }
  pose proof K as [T R I G M]. destruct s as [ns root pre c q]. cbn [rt_nodes rt_root rt_preload rt_cache rt_rcu] in *.
  assert (Hfin : ∀ ns' root', core ns' r H m pre c q → (∀ ρ, reach ns' r ρ = reach ns r ρ) →
    node_bits ns' r H (λ t' ρ, below H ρ (tag_del tg t idx t')) → root_ok root' r H → rr_rnode root' = rr_rnode root →
    rr_gfp_mask root' .& __GFP_BITS_MASK = rr_gfp_mask root .& __GFP_BITS_MASK →
    (∀ t', 0 ≤ t' < 3 → root_tag_get root' t' = true ↔ below H [] (tag_del tg t idx t')) →
    rt_ok (RtState ns' root' pre c q) r H m (tag_del tg t idx) ∧ same_tree r (RtState ns root pre c q) (RtState ns' root' pre c q)).
  { intros ns' root' [T' I' M'] Er HB R' Hn Hgf Hrt. split; [|split_and!; cbn; [done|by rewrite (ro_height _ _ _ R), (ro_height _ _ _ R')|done..]].
    split; cbn [rt_nodes rt_root rt_preload rt_cache rt_rcu]; [done..| |done]. split; [done|done|].
    intros t' Ht'. pose proof (ti_dom _ _ _ _ _ _ G t' Ht'). unfold tag_del. destruct (t' =? t); set_solver. }
  (* the end of the way up *)
  assert (Hend : ∀ up ns' x, x = default 0 (m !! idx) → cleared root pre c q r H m tg t idx ns up (RtState ns' root pre c q) →
    wp (root ← rt_root_get; _ ← (if (up : bool) && root_tag_get root t then root_tag_clear t else mret tt); mret x)
      (λ v s', v = default 0 (m !! idx) ∧ rt_ok s' r H m (tag_del tg t idx) ∧ same_tree r (RtState ns root pre c q) s') (RtState ns' root pre c q)).
  { intros up ns' x Hx (ns2 & [= <-] & C' & Er & HB & Hup). apply wp_bind, wp_gets. cbn [rt_root].
    assert (Hother : ∀ t', 0 ≤ t' < 3 → t' ≠ t → root_tag_get root t' = true ↔ below H [] (tag_del tg t idx t')).
    { intros t' Ht' Hne. rewrite del_other by done. by apply (ti_root _ _ _ _ _ _ G). }
    apply wp_bind. destruct (up && root_tag_get root t) eqn:Eu.
    - apply andb_true_iff in Eu as [-> Eg]. destruct root as [h g rn]. apply wp_bind, wp_gets, wp_modify, wp_ret. split; [done|].
      cbn [rt_nodes rt_root rt_preload rt_cache rt_rcu rr_height rr_gfp_mask rr_rnode]. pose proof (ro_gfp _ _ _ R) as Hg. cbn [rr_gfp_mask] in Hg.
      apply Hfin; [done..|apply (root_ok_gfp (RtRoot h g rn)); [done|apply (root_clear_test h g rn t t Ht Ht Hg)]|done|by apply clear_keeps_gfp|].
      intros t' Ht'. rewrite (proj1 (root_clear_test h g rn t t' Ht Ht' Hg)). destruct (Z.eqb_spec t' t) as [->|]; cbn [negb andb]; [done|by apply Hother].
    - apply wp_ret, wp_ret. split; [done|]. apply Hfin; [done..|]. intros t' Ht'. destruct (decide (t' = t)) as [->|]; [|by apply Hother].
      rewrite (ti_root _ _ _ _ _ _ G t Ht). destruct up; [|done]. cbn [andb] in Eu. pose proof (ti_root _ _ _ _ _ _ G t Ht) as Hg. rewrite Eu in Hg.
      split; [intros Hb; by apply Hg in Hb|done]. }
  unfold radix_tree_tag_clear. apply wp_bind, wp_gets. cbn [rt_root]. rewrite (ro_height _ _ _ R), Hptr.
  apply wp_bind. eapply wp_lift; [apply maxindex_ok, R|]. rewrite Htest. revert Hlook. destruct (Z.ltb_spec idx (64 ^ Z.of_nat H)) as [Hlt|Hge]; cbn [negb]; intros Hlook.
  2:{ apply wp_ret. split; [done|]. by apply Hnone. }
  rewrite Nat2Z.id. destruct H as [|h].
  - cbn [walk_loop]. apply wp_bind, wp_ret. cbn [digits reach foldl] in Hlook. destruct (Z.eqb_spec r 0) as [->|Hr].
    { apply wp_ret. split; [done|]. by apply Hnone. }
    cbn [tag_clear_up]. rewrite Z.eqb_refl. apply wp_bind, wp_ret, Hend; [done|]. exists ns. split_and!; [done|by split|done| |].
    + intros t' π i n _ _ _ Hl. simpl in Hl. lia.
    + intros (j & Hj & _). rewrite del_self in Hj. apply elem_of_difference in Hj as [Hj Hne].
      destruct (member_reach _ _ _ _ _ _ _ _ I G Ht Hj) as (? & Hj1 & _). change (64 ^ Z.of_nat 0) with 1 in *. apply Hne, elem_of_singleton. lia.
  - apply wp_bind. eapply wp_mono; [apply (walk_loop_ok _ _ _ _ _ r (S h) T h idx _ []); [unfold RADIX_TREE_MAP_SHIFT; lia|constructor|done]|].
    intros res s' [-> Hres]. destruct res as [[[node off] slot]|]; cbn [app] in Hres.
    2:{ rewrite Hres in Hlook. apply wp_ret. split; [done|]. by apply Hnone. }
    destruct Hres as (-> & -> & Hnode & ->). destruct (Z.eqb_spec (reach ns r (digits (S h) idx)) 0) as [E0|E0].
    { rewrite E0 in Hlook. apply wp_ret. split; [done|]. by apply Hnone. }
    apply wp_bind. eapply wp_mono.
    + apply (tag_clear_up_ok root pre c q r (S h) m tg t idx Ht h); [by split| |lia| |done| |done].
      * intros t' π i n Ht' Hπ Hd Hl Hr Hn. rewrite (ti_node _ _ _ _ _ _ G t' π i n) by done. unfold clear_bits. rewrite decide_False; [done|]. rewrite length_snoc. lia.
      * pose proof (ro_max _ _ _ R). lia.
      * intros Hb. apply below_digits in Hb; [|lia|].
        -- rewrite del_self in Hb. set_solver.
        -- intros j Hj. rewrite del_self in Hj. apply elem_of_difference in Hj as [Hj _].
           destruct (member_reach _ _ _ _ _ _ _ _ I G Ht Hj) as (? & ? & _). lia.
    + intros up s' Hcl. pose proof Hcl as (ns' & -> & _). by apply Hend.
Qed.
