(* ===== verification/RadixInsert.v ===== *)
(** * RadixInsert: allocation of nodes and insertion *)

From S2P Require Import Prelude Bitops Radix RadixPath RadixInv RadixOps RadixTags.

(** ** Memory *)

(** An object that has left the lists and is not linked yet. *)
Definition fresh (ns : gmap Z radix_tree_node) (r : Z) (H : nat) (pre : radix_tree_preload_t) (c q : list Z) (a : Z) : Prop :=
  a ≠ 0 ∧ aligned a ∧ not_in ns r H a ∧ a ∉ c ++ pool pre ++ q ∧ ∃ n, ns !! a = Some n ∧ clean n.

(** The lists stay as they are when their nodes do and stay outside of the tree. *)
Lemma mem_move ns r H ns' r' H' pre c q : mem_ok ns r H pre c q →
  (∀ x, x ∈ c ++ pool pre ++ q → ns' !! x = ns !! x ∧ not_in ns' r' H' x) → mem_ok ns' r' H' pre c q.
Proof.
  intros [M1 M2 M3 M4 M5 M6] Hx. split; try done.
  - intros a Ha. destruct (M4 a Ha) as (? & ? & _). split_and!; [done..|]. by apply Hx.
  - intros a Ha. destruct (Hx a) as [-> _]; [rewrite !elem_of_app in *; tauto|]. by apply M5.
  - intros a Ha. destruct (Hx a) as [-> _]; [rewrite !elem_of_app in *; tauto|]. by apply M6.
Qed.

Lemma rt_remove_id a c : a ∉ c → rt_remove a c = c.
Proof.
  unfold rt_remove. induction c as [|x c IH]; [done|]. rewrite not_elem_of_cons, filter_cons. intros [? ?].
  rewrite decide_True by done. by rewrite IH.
Qed.

Definition nowait (root : radix_tree_root) : Prop := root_gfp_mask root .& __GFP_WAIT = 0.

Section alloc.
Context {E : rt_env} {EO : rt_env_ok E}.
Context (ns : gmap Z radix_tree_node) (root : radix_tree_root) (q : list Z) (r : Z) (H : nat).

Lemma fresh_of pre c pre' c' a : mem_ok ns r H pre c q → a ∈ c ++ pool pre → c ++ pool pre ++ q ≡ₚ a :: c' ++ pool pre' ++ q →
  length (rtp_nodes pre') = 21%nat → 0 ≤ rtp_nr pre' ≤ 21 → c' ++ pool pre' ⊆ c ++ pool pre →
  mem_ok ns r H pre' c' q ∧ fresh ns r H pre' c' q a.
Proof.
  intros [M1 M2 M3 M4 M5 M6] Ha Hperm Hlen Hnr Hsub. assert (Hnd : NoDup (a :: c' ++ pool pre' ++ q)) by (by rewrite <- Hperm).
  apply NoDup_cons in Hnd as [Hni Hnd]. split.
  - split; try done.
    + intros x Hx. apply M4. rewrite Hperm. by right.
    + intros x Hx. by apply M5, Hsub.
  - destruct (M4 a) as (? & ? & ?); [rewrite !elem_of_app in *; tauto|]. split_and!; [done..|]. by apply M5.
Qed.

Lemma kmem_cache_alloc_ok gfp pre c : mem_ok ns r H pre c q →
  wp (kmem_cache_alloc gfp) (λ a s', ∃ c', s' = RtState ns root pre c' q ∧ mem_ok ns r H pre c' q ∧ (a ≠ 0 → fresh ns r H pre c' q a)) (RtState ns root pre c q).
Proof.
  intros M. apply wp_bind, wp_gets. cbn [rt_cache]. destruct (slab_pick c gfp) as [a|] eqn:Ep.
  - apply EO in Ep. apply wp_bind, wp_modify, wp_ret. exists (rt_remove a c). split; [done|].
    assert (Hperm : c ≡ₚ a :: rt_remove a c).
    { pose proof (mo_nodup _ _ _ _ _ _ M) as Hnd. apply NoDup_app in Hnd as [Hnd _]. clear M. induction c as [|x c IH]; [by apply elem_of_nil in Ep|].
      apply NoDup_cons in Hnd as [Hx Hnd]. unfold rt_remove at 1. rewrite filter_cons. fold (rt_remove a c). destruct (decide (x = a)) as [->|Hne].
      - rewrite decide_False by tauto. f_equiv. by rewrite (rt_remove_id a c).
      - rewrite decide_True by done. apply elem_of_cons in Ep as [->|Ep]; [done|]. rewrite (IH Ep Hnd) at 1. apply Permutation_swap. }
    destruct (fresh_of pre c pre (rt_remove a c) a M) as [? ?]; [..|done].
    + apply elem_of_app. by left.
    + by rewrite Hperm at 1.
    + apply M.
    + apply M.
    + intros x Hx. rewrite !elem_of_app in *. destruct Hx as [Hx|Hx]; [left|by right]. by apply list_elem_of_filter in Hx as [_ ?].
  - apply wp_ret. exists c. done.
Qed.

Lemma node_alloc_ok pre c : mem_ok ns r H pre c q →
  wp radix_tree_node_alloc (λ a s', ∃ pre' c', s' = RtState ns root pre' c' q ∧ mem_ok ns r H pre' c' q ∧
    (a = 0 → nowait root → rtp_nr pre = 0) ∧ rtp_nr pre - 1 ≤ rtp_nr pre' ∧ (a ≠ 0 → fresh ns r H pre' c' q a)) (RtState ns root pre c q).
Proof.
  intros M. apply wp_bind, wp_gets. cbn [rt_root]. apply wp_bind.
  assert (Hslab : (nowait root → rtp_nr pre = 0) →
    wp (ret ← (if 0 =? 0 then kmem_cache_alloc (root_gfp_mask root) else mret 0); if radix_tree_is_indirect_ptr ret then wrong else mret ret)
      (λ a s', ∃ pre' c', s' = RtState ns root pre' c' q ∧ mem_ok ns r H pre' c' q ∧ (a = 0 → nowait root → rtp_nr pre = 0) ∧ rtp_nr pre - 1 ≤ rtp_nr pre' ∧ (a ≠ 0 → fresh ns r H pre' c' q a)) (RtState ns root pre c q)).
  { intros Hnr. rewrite Z.eqb_refl. apply wp_bind. eapply wp_mono; [by apply kmem_cache_alloc_ok|]. intros a s' (c' & -> & M' & Hf).
    destruct (decide (a = 0)) as [->|Ha].
    - cbn. apply wp_ret. exists pre, c'. split_and!; [done..|lia|done].
    - destruct (Hf Ha) as (_ & Hal & _). rewrite aligned_direct by done. apply wp_ret. exists pre, c'. split_and!; [done..|lia|done]. }
  destruct (Z.eqb_spec (root_gfp_mask root .& __GFP_WAIT) 0) as [Hw|Hw]; [|apply wp_ret, Hslab; by intros ?].
  apply wp_bind, wp_gets. cbn [rt_preload]. destruct (Z.eqb_spec (rtp_nr pre) 0) as [E0|E0]; cbn [negb]; [apply wp_ret; by apply Hslab|].
  pose proof M as [Hnr Hlen _ _ _ _]. destruct (rd_in (rtp_nodes pre) (rtp_nr pre - 1)) as [a Hrd]; [lia|].
  apply wp_bind. eapply wp_lift; [done|]. apply wp_bind. eapply wp_lift; [apply wr_Some; lia|]. apply wp_bind, wp_modify, wp_ret.
  cbn [rt_nodes rt_root rt_preload rt_cache rt_rcu]. set (pre' := RtPreload _ _).
  assert (Hpool : pool pre = pool pre' ++ [a]).
  { unfold pool, pre'. cbn [rtp_nr rtp_nodes]. rewrite take_insert_ge by lia. replace (Z.to_nat (rtp_nr pre)) with (S (Z.to_nat (rtp_nr pre - 1))) by lia.
    apply take_S_r. unfold rd in Hrd. by rewrite (proj2 (Z.leb_le _ _)) in Hrd by lia. }
  destruct (fresh_of pre c pre' c a M) as [M' Hf].
  { rewrite Hpool, !elem_of_app. right. right. by apply list_elem_of_singleton. }
  { rewrite Hpool. solve_Permutation. }
  { unfold pre'. cbn. by rewrite length_insert. }
  { unfold pre'. cbn. lia. }
  { rewrite Hpool. set_solver. }
  pose proof Hf as (Ha & Hal & _). apply wp_bind. rewrite (proj2 (Z.eqb_neq a 0)) by done. apply wp_ret. rewrite aligned_direct by done. apply wp_ret.
  exists pre', c. split_and!; [done..|unfold pre'; cbn; lia|done].
Qed.
End alloc.

(** ** Linking a new node *)

Lemma clean_slots n d : clean n → default 0 (rd (rn_slots n) d) = 0.
Proof.
  intros (_ & Hs & _). rewrite Hs. unfold rd. destruct (0 <=? d); [|done].
  destruct (replicate 64 0 !! Z.to_nat d) eqn:E; [|done]. by apply lookup_replicate in E as [-> _].
Qed.
Lemma clean_ok n : clean n → node_ok n ∧ nonnull (rn_slots n) = 0 ∧ ∀ t, tag_word n t = 0.
Proof.
  intros (_ & Hs & Ht). split; [|split].
  - split; [rewrite Hs; apply length_replicate|]. exists 0, 0, 0. by rewrite Ht.
  - rewrite Hs. by vm_compute.
  - intros t. unfold tag_word, rd. rewrite Ht. destruct (0 <=? t); [|done]. by destruct (Z.to_nat t) as [|[|[|]]].
Qed.

(** The new node, before its slots are used. *)
Definition born (n : radix_tree_node) (h p : Z) : radix_tree_node := rn_with_parent (rn_with_height n h) p.

(** An empty tree holds nothing. *)
Lemma empty_tree s H m tg : rt_ok s 0 H m tg → m = ∅ ∧ ∀ t, 0 ≤ t < 3 → tg t = ∅.
Proof.
  intros [T R I G M]. assert (Hm : m = ∅).
  { apply map_empty. intros idx. apply eq_None_not_Some. intros [v Hv]. destruct (io_some _ _ _ _ I _ _ Hv) as (_ & _ & Hr & Hv0). by rewrite reach_zero in Hr. }
  split; [done|]. intros t Ht. pose proof (ti_dom _ _ _ _ _ _ G t Ht) as Hd. rewrite Hm, dom_empty_L in Hd. set_solver.
Qed.

(** A state without items, whatever the nodes. *)
Lemma empty_ok ns root pre c q r H tg : tree_ok ns r H → root_ok root r H → mem_ok ns r H pre c q → (∀ t, 0 ≤ t < 3 → tg t = ∅) →
  (∀ t, 0 ≤ t < 3 → root_tag_get root t = false) → (∀ ρ, path ρ → length ρ = H → reach ns r ρ = 0) →
  (∀ π n t, path π → (length π < H)%nat → reach ns r π ≠ 0 → ns !! reach ns r π = Some n → tag_word n t = 0) →
  rt_ok (RtState ns root pre c q) r H ∅ tg.
Proof.
  intros T R M Htg Hrt Hempty Hw. assert (Hb : ∀ t ρ, 0 ≤ t < 3 → ¬ below H ρ (tg t)).
  { intros t ρ Ht (i & Hi & _). rewrite Htg in Hi by done. set_solver. }
  split; cbn [rt_nodes rt_root rt_preload rt_cache rt_rcu]; [done..| | |done].
  - split; [intros idx v Hv; by rewrite lookup_empty in Hv|]. intros ρ Hρ Hl Hr. by rewrite Hempty in Hr.
  - split.
    + intros t Ht. rewrite Hrt by done. split; [done|]. intros Hx. by apply Hb in Hx.
    + intros t π i n Ht Hπ Hi Hl Hr Hn. rewrite (Hw π n t) by done. rewrite Z.bits_0. split; [done|]. intros Hx. by apply Hb in Hx.
    + intros t Ht. rewrite Htg by done. set_solver.
Qed.

Lemma root_tags_empty s H m tg : rt_ok s 0 H m tg → ∀ t, 0 ≤ t < 3 → root_tag_get (rt_root s) t = false.
Proof.
  intros K t Ht. destruct (empty_tree _ _ _ _ K) as [_ Htg]. apply not_true_iff_false. intros Hg.
  apply (ti_root _ _ _ _ _ _ (ok_tags _ _ _ _ _ K) t Ht) in Hg as (i & Hi & _). rewrite Htg in Hi by done. set_solver.
Qed.

(** The height of an empty tree is free. *)
Lemma empty_height ns root pre c q H m tg H' : rt_ok (RtState ns root pre c q) 0 H m tg → (H' ≤ 11)%nat →
  rt_ok (RtState ns (RtRoot (Z.of_nat H') (rr_gfp_mask root) (rr_rnode root)) pre c q) 0 H' m tg.
Proof.
  intros K HH. destruct (empty_tree _ _ _ _ K) as [-> Htg]. pose proof (root_tags_empty _ _ _ _ K) as Hrt. pose proof K as [T R I G M].
  cbn [rt_nodes rt_root rt_preload rt_cache rt_rcu] in *.
  assert (Hz : rr_rnode root = 0) by (rewrite (ro_rnode _ _ _ R); by destruct H).
  apply empty_ok; try done.
  - split; [intros π _ _ Hr; by rewrite reach_zero in Hr|intros π ρ _ _ _ _ Hr; by rewrite reach_zero in Hr|].
    intros π _ _. rewrite reach_zero. by split.
  - split; cbn; [done..| |apply R]. rewrite Hz. by destruct H'.
  - eapply mem_move; [done|]. intros x Hx. split; [done|]. intros π _ _ E. rewrite reach_zero in E. subst. by apply (mo_addr _ _ _ _ _ _ M) in Hx as [? _].
  - intros ρ _ _. apply reach_zero.
  - intros π n t _ _ Hr. by rewrite reach_zero in Hr.
Qed.

Lemma link_root ns root pre c q H m tg b n : rt_ok (RtState ns root pre c q) 0 (S H) m tg → fresh ns 0 (S H) pre c q b → ns !! b = Some n → clean n →
  rt_ok (RtState (<[b := born n (Z.of_nat (S H)) 0]> ns) (RtRoot (rr_height root) (rr_gfp_mask root) (ptr_to_indirect b)) pre c q) b (S H) m tg.
Proof.
  intros K (Hb & Hal & Hnin & Hnl & _) Hn Hcl. destruct (empty_tree _ _ _ _ K) as [-> Htg]. pose proof (root_tags_empty _ _ _ _ K) as Hrt.
  pose proof K as [T R I G M]. cbn [rt_nodes rt_root rt_preload rt_cache rt_rcu] in *. destruct (clean_ok n Hcl) as ([Hs Ht] & Hnn & Hw).
  set (ns' := <[b := _]> ns). assert (Hslot : ∀ d, slot_at ns' b d = 0).
  { intros d. unfold slot_at, ns'. rewrite lookup_insert_eq. by apply clean_slots. }
  assert (Hreach : ∀ d π, reach ns' b (d :: π) = 0) by (intros; rewrite reach_cons, Hslot by done; apply reach_zero).
  apply empty_ok; try done.
  - split.
    + intros [|d π] Hπ Hl Hr; [|by rewrite Hreach in Hr]. exists (born n (Z.of_nat (S H)) 0). cbn [reach foldl length]. rewrite Nat.sub_0_r.
      unfold ns'. rewrite lookup_insert_eq. split_and!; [done|by split|done|cbn; rewrite Hnn; apply Hcl|done].
    + intros [|d π] [|e ρ] _ _ _ _; rewrite ?Hreach; done.
    + intros [|d π] _ _; rewrite ?Hreach; [done|by split].
  - split; cbn; [apply R|apply R| |apply R]. by rewrite (proj2 (Z.eqb_neq b 0)).
  - eapply mem_move; [done|]. intros x Hx. split; [apply lookup_insert_ne; congruence|].
    pose proof (mo_addr _ _ _ _ _ _ M x Hx) as (Hx0 & _). intros [|d π] _ _; rewrite ?Hreach; [cbn; congruence|done].
  - intros [|d ρ] _ Hl; [done|apply Hreach].
  - intros [|d π] n' t _ _ Hr; rewrite ?Hreach in *; [|done]. cbn [reach foldl]. unfold ns'. rewrite lookup_insert_eq. intros [= <-]. apply Hw.
Qed.

(** A slot of a node that is filled, with the count. *)
Definition filled (n : radix_tree_node) (d v : Z) : radix_tree_node :=
  rn_with_count (rn_with_slots n (<[Z.to_nat d := v]> (rn_slots n))) (rn_count n + 1).

Lemma filled_ok n d v : node_ok n → rn_count n = nonnull (rn_slots n) → digit d → rd (rn_slots n) d = Some 0 → v ≠ 0 →
  node_ok (filled n d v) ∧ rn_count (filled n d v) = nonnull (rn_slots (filled n d v)).
Proof.
  intros [Hl Ht] Hc Hd Hr Hv. split; [split; [cbn; by rewrite length_insert|done]|]. cbn.
  unfold rd in Hr. rewrite (proj2 (Z.leb_le 0 d)) in Hr by lia. rewrite (nonnull_insert _ _ 0) by done.
  rewrite (proj2 (Z.eqb_neq v 0)) by done. cbn [Z.eqb negb Z.b2z]. lia.
Qed.

Lemma slot_rd ns a n d : ns !! a = Some n → length (rn_slots n) = 64%nat → digit d → rd (rn_slots n) d = Some (slot_at ns a d).
Proof. intros Hn Hl Hd. unfold slot_at. rewrite Hn. destruct (rd_in (rn_slots n) d) as [x ->]; [lia|done]. Qed.

Section link.
Context (ns : gmap Z radix_tree_node) (root : radix_tree_root) (pre : radix_tree_preload_t) (c q : list Z).
Context (r : Z) (H : nat) (m : gmap Z Z) (tg : Z → gset Z) (K : rt_ok (RtState ns root pre c q) r H m tg).
Context (π : list Z) (d b : Z) (n na : radix_tree_node).
Notation a := (reach ns r π).
Context (Hπ : path π) (Hd : digit d) (Hlen : (length π + 1 < H)%nat) (Ha : a ≠ 0) (Hfree : reach ns r (π ++ [d]) = 0).
Context (Hf : fresh ns r H pre c q b) (Hn : ns !! b = Some n) (Hcl : clean n) (Hna : ns !! a = Some na).
Notation ns1 := (<[b := born n (Z.of_nat (H - (length π + 1))) a]> ns).
Notation ns' := (<[a := filled na d b]> ns1).

Lemma link_ab : a ≠ b.
Proof. destruct Hf as (_ & _ & Hnin & _). apply Hnin; [done|lia]. Qed.
Lemma link_reach1 ρ : path ρ → (length ρ ≤ H)%nat → reach ns1 r ρ = reach ns r ρ.
Proof. apply reach_frame, Hf. Qed.
Lemma link_na1 : ns1 !! a = Some na.
Proof. rewrite lookup_insert_ne; [done|]. intros E. by apply link_ab. Qed.

Lemma link_node_ok : node_ok na ∧ rn_count na = nonnull (rn_slots na) ∧ slot_at ns a d = 0.
Proof.
  destruct (tk_node _ _ _ (ok_tree _ _ _ _ _ K) π Hπ ltac:(lia) Ha) as (n0 & E & Hok & _ & Hc & _). cbn [rt_nodes] in E. rewrite Hna in E. injection E as <-.
  split_and!; [done..|]. by rewrite reach_snoc, (proj2 (Z.eqb_neq a 0)) in Hfree.
Qed.

Lemma link_slot_b e : slot_at ns' b e = 0.
Proof.
  rewrite slot_at_ne by (intros E; by apply link_ab). unfold slot_at. rewrite lookup_insert_eq. by apply clean_slots.
Qed.

(** The heap with the new node below [a]. *)
Lemma link_reach ρ : path ρ → (length ρ ≤ H)%nat → reach ns' r ρ = if decide (ρ = π ++ [d]) then b else reach ns r ρ.
Proof.
  intros Hρ Hl. pose proof (link_reach1 π Hπ ltac:(lia)) as Ea. destruct link_node_ok as ([Hs _] & _ & H0).
  rewrite <- Ea at 1. rewrite (reach_set ns1 r H) with (π := π) (i := d) (v := b) (n := na); try done.
  - by rewrite link_reach1.
  - apply tree_frame; [apply K|apply Hf].
  - lia.
  - by rewrite Ea.
  - rewrite Ea. apply link_na1.
  - intros _ _ e _. rewrite Ea. apply link_slot_b.
  - intros _ Hne. destruct Hne. rewrite Ea, slot_at_ne by apply link_ab. done.
Qed.

Lemma link_tree : tree_ok ns' r H.
Proof.
  pose proof (link_reach1 π Hπ ltac:(lia)) as Ea. destruct link_node_ok as (Hok & Hc & H0). pose proof Hf as (Hb & Hal & Hnin & _).
  destruct (filled_ok na d b Hok Hc Hd) as [Hok' Hc']; [|done|].
  { rewrite (slot_rd ns a), H0; [done|done|apply Hok|done]. }
  rewrite <- Ea at 1. apply (tree_set ns1 r H) with (i := d) (v := b) (n := na); try done.
  - apply tree_frame; [apply K|done].
  - lia.
  - by rewrite Ea.
  - rewrite Ea. apply link_na1.
  - intros _ _ e _. rewrite Ea. apply link_slot_b.
  - intros _ Hne. destruct Hne. rewrite Ea, slot_at_ne by apply link_ab. done.
  - intros _ _. split.
    + intros ρ Hρ Hl. rewrite link_reach1 by (done || lia). by apply Hnin.
    + exists (born n (Z.of_nat (H - (length π + 1))) a). rewrite lookup_insert_eq. destruct (clean_ok n Hcl) as ([? ?] & Hnn & _).
      split_and!; [done|done|done|cbn; rewrite Hnn; apply Hcl|by rewrite Ea].
Qed.

Lemma link_node : rt_ok (RtState ns' root pre c q) r H m tg.
Proof.
  pose proof K as [T R I G M]. cbn [rt_nodes rt_root rt_preload rt_cache rt_rcu] in *. pose proof link_reach as Hr.
  assert (Hfull : ∀ ρ, path ρ → length ρ = H → reach ns' r ρ = reach ns r ρ).
  { intros ρ Hρ Hl. rewrite Hr by (done || lia). rewrite decide_False; [done|]. intros ->. rewrite length_snoc in Hl. lia. }
  split; cbn [rt_nodes rt_root rt_preload rt_cache rt_rcu].
  - apply link_tree.
  - done.
  - split.
    + intros idx v Hv. rewrite Hfull by (apply digits_path || apply digits_length). by apply I.
    + intros ρ Hρ Hl. rewrite Hfull by done. by apply I.
  - split; [apply G| |apply G]. intros t ρ i n' Ht Hρ Hi Hl. rewrite Hr by (done || lia). destruct (decide (ρ = π ++ [d])) as [->|Hne].
    + intros _. rewrite lookup_insert_ne by apply link_ab. rewrite lookup_insert_eq. intros [= <-].
      destruct (clean_ok n Hcl) as (_ & _ & Hw). rewrite (Hw t : tag_word (born _ _ _) t = 0), Z.bits_0. split; [done|].
      intros Hb. eapply (below_reach ns root) in Hb; [|exact I|exact G|done]. by rewrite (reach_below _ _ _ [i] Hfree) in Hb.
    + intros Hr0 Hn'. destruct (decide (reach ns r ρ = a)) as [Ea|Ea].
      * rewrite Ea, lookup_insert_eq in Hn'. injection Hn' as <-. apply (ti_node _ _ _ _ _ _ G t ρ i na); try done. by rewrite Ea.
      * rewrite lookup_insert_ne in Hn' by done. rewrite lookup_insert_ne in Hn'.
        2:{ intros Eb. destruct Hf as (_ & _ & Hnin & _). by apply (Hnin ρ). }
        by apply (ti_node _ _ _ _ _ _ G t ρ i n').
  - eapply mem_move; [done|]. intros x Hx. destruct (mo_addr _ _ _ _ _ _ M x Hx) as (Hx0 & _ & Hxn). destruct Hf as (_ & _ & _ & Hnl & _). split.
    + rewrite !lookup_insert_ne; [done|congruence|]. apply Hxn; [done|lia].
    + intros ρ Hρ Hl. rewrite Hr by (done || lia). destruct (decide _); [congruence|]. by apply Hxn.
Qed.
End link.

(** ** Storing an item *)

Section put.
Context (ns : gmap Z radix_tree_node) (root : radix_tree_root) (pre : radix_tree_preload_t) (c q : list Z).
Context (r : Z) (H : nat) (m : gmap Z Z) (tg : Z → gset Z) (K : rt_ok (RtState ns root pre c q) r H m tg).
Context (π : list Z) (d idx v : Z) (na n' : radix_tree_node).
Notation a := (reach ns r π).
Context (Hidx : is_u64 idx) (Hlt : idx < 64 ^ Z.of_nat H) (Hdig : π ++ [d] = digits H idx) (Hd : digit d) (Ha : a ≠ 0).
Context (Hv : v ≠ 0) (Hal : aligned v) (Hna : ns !! a = Some na).
Context (Hslots : rn_slots n' = <[Z.to_nat d := v]> (rn_slots na)) (Hok' : node_ok n') (Hc' : rn_count n' = nonnull (rn_slots n')).
Context (Hh' : rn_height n' = rn_height na) (Hp' : rn_parent n' = rn_parent na) (Ht' : rn_tags n' = rn_tags na).
Notation ns' := (<[a := n']> ns).

Lemma put_path : path π ∧ S (length π) = H.
Proof.
  pose proof (digits_path H idx) as Hp. pose proof (digits_length H idx) as Hl. rewrite <- Hdig in Hp, Hl. rewrite length_snoc in Hl.
  split; [|done]. by apply Forall_app in Hp as [? _].
Qed.

Lemma put_reach ρ : path ρ → (length ρ ≤ H)%nat → reach ns' r ρ = if decide (ρ = digits H idx) then v else reach ns r ρ.
Proof.
  intros Hρ Hl. destruct put_path as [Hπ Hl']. rewrite <- Hdig. apply (reach_set ns r H) with (n := na); try done; try lia. apply K.
Qed.

Lemma put_slot : rt_ok (RtState ns' root pre c q) r H (<[idx := v]> m) tg.
Proof.
  pose proof K as [T R I G M]. cbn [rt_nodes rt_root rt_preload rt_cache rt_rcu] in *. pose proof put_reach as Hr.
  destruct put_path as [Hπ Hl].
  assert (Hnode : ∀ ρ, path ρ → (length ρ < H)%nat → reach ns' r ρ = reach ns r ρ).
  { intros ρ Hρ Hlρ. rewrite Hr by (done || lia). rewrite decide_False; [done|]. intros ->. rewrite digits_length in Hlρ. lia. }
  split; cbn [rt_nodes rt_root rt_preload rt_cache rt_rcu].
  - apply (tree_set ns r H) with (i := d) (v := v) (n := na); try done; lia.
  - done.
  - split.
    + intros j x Hj. rewrite Hr by (apply digits_path || by rewrite digits_length). destruct (decide (j = idx)) as [->|Hne].
      * rewrite lookup_insert_eq in Hj. injection Hj as <-. by rewrite decide_True.
      * rewrite lookup_insert_ne in Hj by done. destruct (io_some _ _ _ _ I _ _ Hj) as (Hj1 & Hj2 & Hj3 & Hj4).
        rewrite decide_False; [done|]. intros E. apply digits_inj in E; [done|lia|lia].
    + intros ρ Hρ Hlρ. rewrite Hr by (done || lia). destruct (decide (ρ = digits H idx)) as [->|].
      * intros _. exists idx. rewrite lookup_insert_eq. split; [by eexists|done].
      * intros Hr0. destruct (io_all _ _ _ _ I ρ Hρ Hlρ Hr0) as (j & Hj & Ej). exists j. split; [|done].
        rewrite lookup_insert_ne; [done|]. intros ->. congruence.
  - split; [apply G| |].
    + intros t ρ i n2 Ht Hρ Hi Hlρ. rewrite Hnode by done. intros Hr0 Hn2. destruct (decide (reach ns r ρ = a)) as [Ea|Ea].
      * rewrite Ea, lookup_insert_eq in Hn2. injection Hn2 as <-. unfold tag_word. rewrite Ht'. apply (ti_node _ _ _ _ _ _ G t ρ i na); try done. by rewrite Ea.
      * rewrite lookup_insert_ne in Hn2 by done. by apply (ti_node _ _ _ _ _ _ G t ρ i n2).
    + intros t Ht. pose proof (ti_dom _ _ _ _ _ _ G t Ht). rewrite dom_insert. set_solver.
  - eapply mem_move; [done|]. intros x Hx. destruct (mo_addr _ _ _ _ _ _ M x Hx) as (_ & _ & Hxn). split.
    + rewrite lookup_insert_ne; [done|]. apply Hxn; [done|lia].
    + intros ρ Hρ Hlρ. rewrite Hnode by done. by apply Hxn.
Qed.
End put.

(** A new item. *)
Lemma put_item ns root pre c q r H m tg π d idx v na : rt_ok (RtState ns root pre c q) r H m tg → is_u64 idx → idx < 64 ^ Z.of_nat H → π ++ [d] = digits H idx → digit d →
  reach ns r π ≠ 0 → reach ns r (π ++ [d]) = 0 → v ≠ 0 → aligned v → ns !! reach ns r π = Some na →
  rt_ok (RtState (<[reach ns r π := filled na d v]> ns) root pre c q) r H (<[idx := v]> m) tg.
Proof.
  intros K Hi Hlt Hdig Hd Ha Hfree Hv Hal Hna. destruct (put_path H π d idx Hdig) as [Hπ Hl].
  destruct (tk_node _ _ _ (ok_tree _ _ _ _ _ K) π Hπ ltac:(lia) Ha) as (n0 & E & Hok & _ & Hc & _). cbn [rt_nodes] in E. rewrite Hna in E. injection E as <-.
  rewrite reach_snoc, (proj2 (Z.eqb_neq _ 0) Ha) in Hfree.
  destruct (filled_ok na d v Hok Hc Hd) as [Hok' Hc']; [by rewrite (slot_rd ns (reach ns r π)), Hfree by (done || apply Hok)|done|].
  by apply (put_slot ns root pre c q r H m tg K π d idx v na).
Qed.

(** An item as the whole tree. *)
Lemma put_root ns root pre c q m tg v : rt_ok (RtState ns root pre c q) 0 0 m tg → v ≠ 0 → aligned v →
  rt_ok (RtState ns (RtRoot (rr_height root) (rr_gfp_mask root) v) pre c q) v 0 (<[0 := v]> m) tg.
Proof.
  intros K Hv Hal. destruct (empty_tree _ _ _ _ K) as [-> Htg]. pose proof (root_tags_empty _ _ _ _ K) as Hrt. pose proof K as [T R I G M].
  cbn [rt_nodes rt_root rt_preload rt_cache rt_rcu] in *. split; cbn [rt_nodes rt_root rt_preload rt_cache rt_rcu].
  - split; [intros π _ Hl; simpl in Hl; lia|intros π ρ _ _ Hl; simpl in Hl; lia|]. intros [|? ?] _ Hl; [done|simpl in Hl; lia].
  - split; cbn; [apply R..|done|apply R].
  - split.
    + intros idx x Hx. apply lookup_insert_Some in Hx as [[<- <-]|[_ Hx]]; [by split_and!|by rewrite lookup_empty in Hx].
    + intros ρ _ Hl _. exists 0. rewrite lookup_insert_eq. split; [by eexists|]. by destruct ρ.
  - split.
    + intros t Ht. apply (ti_root _ _ _ _ _ _ G t Ht).
    + intros t π i n _ _ _ Hl. simpl in Hl. lia.
    + intros t Ht. rewrite Htg by done. set_solver.
  - eapply mem_move; [done|]. intros x Hx. split; [done|]. intros π _ Hl. simpl in Hl. lia.
Qed.

(** ** A higher tree *)

Section grow.
Context (ns : gmap Z radix_tree_node) (root : radix_tree_root) (pre : radix_tree_preload_t) (c q : list Z).
Context (r : Z) (H : nat) (m : gmap Z Z) (tg : Z → gset Z) (K : rt_ok (RtState ns root pre c q) r H m tg).
Context (b : Z) (n' : radix_tree_node) (ns2 : gmap Z radix_tree_node).
Context (Hr : r ≠ 0) (Hmax : (S H ≤ 11)%nat) (Hf : fresh ns r H pre c q b).
Context (Hslots : rn_slots n' = <[0%nat := r]> (replicate 64 0)) (Hh : rn_height n' = Z.of_nat (S H)) (Hc : rn_count n' = 1) (Hp : rn_parent n' = 0).
Context (Hto : tags_ok n') (Hbits : ∀ t j, 0 ≤ t < 3 → digit j → Z.testbit (tag_word n' t) j = root_tag_get root t && (j =? 0)).
Context (H2 : ∀ x, x ≠ r → ns2 !! x = ns !! x) (H0 : H = 0%nat → ns2 = ns).
Context (Hroot : (0 < H)%nat → ∃ nr, ns !! r = Some nr ∧ ns2 !! r = Some (rn_with_parent nr b)).
Notation ns' := (<[b := n']> ns2).

Lemma grow_slot2 x e : slot_at ns2 x e = slot_at ns x e.
Proof.
  destruct (decide (x = r)) as [->|Hx]; [|unfold slot_at; by rewrite H2]. destruct (decide (H = 0%nat)) as [E|E]; [by rewrite H0|].
  destruct Hroot as (nr & E1 & E2); [lia|]. unfold slot_at. by rewrite E1, E2.
Qed.

Lemma grow_b e : digit e → slot_at ns' b e = if e =? 0 then r else 0.
Proof.
  intros He. unfold slot_at. rewrite lookup_insert_eq, Hslots. change 0%nat with (Z.to_nat 0).
  rewrite rd_insert by (rewrite length_replicate; lia). destruct (e =? 0); [done|].
  unfold rd. rewrite (proj2 (Z.leb_le 0 e)) by lia. by rewrite lookup_replicate_2 by lia.
Qed.

Lemma grow_node_in : node_in ns' b (S H) 0.
Proof.
  exists n'. rewrite lookup_insert_eq. split; [done|]. split; [split; [by rewrite Hslots, length_insert, length_replicate|done]|].
  split_and!; [done| |done]. rewrite Hc, Hslots. rewrite (nonnull_insert _ _ 0) by done. rewrite (proj2 (Z.eqb_neq r 0)) by done. by vm_compute.
Qed.

Lemma grow_r : (0 < H)%nat → r ≠ b.
Proof. intros HH. destruct Hf as (_ & _ & Hnin & _). by apply (Hnin [] (Forall_nil_2 _)). Qed.

Lemma grow_root_in : (0 < H)%nat → node_in ns' r H b.
Proof.
  intros HH. destruct Hroot as (nr & E1 & E2); [done|].
  destruct (tk_node _ _ _ (ok_tree _ _ _ _ _ K) [] (Forall_nil_2 _) HH Hr) as (n0 & E & Hok & Hh0 & Hc0 & _).
  cbn [rt_nodes reach foldl length] in *. rewrite E1 in E. injection E as <-. rewrite Nat.sub_0_r in Hh0.
  exists (rn_with_parent nr b). rewrite lookup_insert_ne by (intros E; by apply grow_r). done.
Qed.

Lemma grow_tree_ok : tree_ok ns' b (S H).
Proof.
  pose proof Hf as (Hb & Hal & Hnin & _). apply (tree_grow ns ns' r b H); try done.
  - apply K.
  - intros x e Hx. rewrite slot_at_ne by done. apply grow_slot2.
  - intros x Hx Hxr. rewrite lookup_insert_ne by done. by apply H2.
  - apply grow_root_in.
  - apply grow_node_in.
  - apply grow_b.
Qed.

Lemma grow_reach_ok e ρ : path (e :: ρ) → (length ρ ≤ H)%nat → reach ns' b (e :: ρ) = if e =? 0 then reach ns r ρ else 0.
Proof.
  pose proof Hf as (Hb & Hal & Hnin & _). eapply (grow_reach ns ns' r b H); try done; [|apply grow_root_in|apply grow_b].
  intros x e' Hx. rewrite slot_at_ne by done. apply grow_slot2.
Qed.

Lemma grow_below_iff t ρ : 0 ≤ t < 3 → below (S H) (0 :: ρ) (tg t) ↔ below H ρ (tg t).
Proof.
  intros Ht. unfold below. assert (Hm : ∀ j, j ∈ tg t → digits (S H) j = 0 :: digits H j).
  { intros j Hj. destruct (member_reach _ _ _ _ _ _ _ _ (ok_items _ _ _ _ _ K) (ok_tags _ _ _ _ _ K) Ht Hj) as (? & ? & _). apply digits_small. lia. }
  split; intros (j & Hj & Hpf); exists j; (split; [done|]); rewrite (Hm j Hj) in *; [by apply prefix_cons_inv_2 in Hpf|by apply prefix_cons].
Qed.

Lemma grow_ok : rt_ok (RtState ns' (RtRoot (Z.of_nat (S H)) (rr_gfp_mask root) (ptr_to_indirect b)) pre c q) b (S H) m tg.
Proof.
  pose proof K as [T R I G M]. cbn [rt_nodes rt_root rt_preload rt_cache rt_rcu] in *. pose proof Hf as (Hb & Hal & Hnin & Hnl & _).
  pose proof grow_reach_ok as Hre. split; cbn [rt_nodes rt_root rt_preload rt_cache rt_rcu].
  - apply grow_tree_ok.
  - split; [done|done| |apply R]. cbn. by rewrite (proj2 (Z.eqb_neq b 0)).
  - split.
    + intros idx v Hv. destruct (io_some _ _ _ _ I _ _ Hv) as (Hi & Hlt & Hrv & Hv0). rewrite digits_small by lia.
      rewrite Hre by (lia || (constructor; [lia|apply digits_path]) || (rewrite digits_length; lia)). rewrite pow64_S. pose proof (pow64_pos H). split_and!; try done || lia.
    + intros [|e ρ] Hρ Hl; [done|]. cbn [length] in Hl. rewrite Hre by (done || lia). destruct (Z.eqb_spec e 0) as [->|]; [|done].
      intros Hr0. apply Forall_cons in Hρ as [_ Hρ]. destruct (io_all _ _ _ _ I ρ Hρ ltac:(lia) Hr0) as (idx & Hidx & E). exists idx. split; [done|].
      destruct Hidx as [v Hv]. destruct (io_some _ _ _ _ I _ _ Hv) as (? & ? & _). rewrite digits_small by lia. by rewrite E.
  - split; [| |apply G].
    + intros t Ht. rewrite root_tag_test by done. cbn [rr_gfp_mask]. rewrite <- (root_tag_test root t Ht), (ti_root _ _ _ _ _ _ G t Ht).
      unfold below. split; intros (j & Hj & _); exists j; (split; [done|apply prefix_nil]).
    + intros t [|e ρ] i n Ht Hρ Hi Hl; cbn [length app] in *.
      * cbn [reach foldl]. intros _. rewrite lookup_insert_eq. intros [= <-]. rewrite Hbits by done. destruct (Z.eqb_spec i 0) as [->|Hi0].
        -- rewrite andb_true_r, (ti_root _ _ _ _ _ _ G t Ht). symmetry. by apply grow_below_iff.
        -- rewrite andb_false_r. split; [done|]. intros (j & Hj & Hpf).
           destruct (member_reach _ _ _ _ _ _ _ _ I G Ht Hj) as (? & ? & _). rewrite digits_small in Hpf by lia. by apply prefix_cons_inv_1 in Hpf.
      * rewrite Hre by (done || lia). destruct (Z.eqb_spec e 0) as [->|]; [|done]. intros Hr0. apply Forall_cons in Hρ as [_ Hρ].
        rewrite lookup_insert_ne by (intros E; apply (Hnin ρ); [done|lia|done]). intros Hn. rewrite grow_below_iff by done.
        destruct (decide (reach ns r ρ = r)) as [Er|Er].
        -- destruct Hroot as (nr & E1 & E2); [lia|]. rewrite Er, E2 in Hn. injection Hn as <-. apply (ti_node _ _ _ _ _ _ G t ρ i nr); try done; [lia|by rewrite Er].
        -- rewrite H2 in Hn by done. apply (ti_node _ _ _ _ _ _ G t ρ i n); try done. lia.
  - eapply mem_move; [done|]. intros x Hx. destruct (mo_addr _ _ _ _ _ _ M x Hx) as (Hx0 & _ & Hxn). split.
    + rewrite lookup_insert_ne by congruence. destruct (decide (x = r)) as [->|]; [|by apply H2].
      destruct (decide (H = 0%nat)) as [E|E]; [by rewrite H0|]. destruct (Hxn [] (Forall_nil_2 _)); [simpl; lia|done].
    + intros [|e ρ] Hρ Hl; [cbn; congruence|]. cbn [length] in Hl. rewrite Hre by (done || lia). apply Forall_cons in Hρ as [_ Hρ].
      destruct (e =? 0); [apply Hxn; [done|lia]|done].
Qed.
End grow.

(** The loop that copies the tags of the root. *)
Lemma wp_copy_tags ns root0 pre c q root b n (Q : unit → rt_state → Prop) : ns !! b = Some n → clean n →
  (∀ n', rn_height n' = rn_height n → rn_count n' = rn_count n → rn_parent n' = rn_parent n → rn_slots n' = rn_slots n → tags_ok n' →
     (∀ t j, 0 ≤ t < 3 → digit j → Z.testbit (tag_word n' t) j = root_tag_get root t && (j =? 0)) → Q tt (RtState (<[b := n']> ns) root0 pre c q)) →
  wp (for_up 3 0 (λ tag, if root_tag_get root tag then tag_set b tag 0 else mret tt)) Q (RtState ns root0 pre c q).
Proof.
  intros Hn Hcl HQ. destruct (clean_ok n Hcl) as ([_ Hto] & _ & Hw).
  apply (wp_for_up (λ k s, ∃ n', s = RtState (<[b := n']> ns) root0 pre c q ∧ rn_height n' = rn_height n ∧ rn_count n' = rn_count n ∧
    rn_parent n' = rn_parent n ∧ rn_slots n' = rn_slots n ∧ tags_ok n' ∧
    ∀ t j, 0 ≤ t < 3 → digit j → Z.testbit (tag_word n' t) j = (t <? k) && (root_tag_get root t && (j =? 0)))).
  - exists n. rewrite insert_id by done. split_and!; try done. intros t j Ht Hj. rewrite Hw, Z.bits_0, (proj2 (Z.ltb_ge t 0)) by lia. done.
  - intros k s' Hk (n' & -> & Hh & Hc & Hp & Hs & Ht' & Hb). destruct (root_tag_get root k) eqn:Ek.
    + eapply wp_tag_set; [apply lookup_insert_eq|done|lia|lia|]. intros n2 (E1 & E2 & E3 & E4 & Hok2 & Hb2). rewrite insert_insert_eq. exists n2.
      split_and!; try congruence; try done. intros t j Ht Hj. rewrite Hb2, Hb by done.
      destruct (Z.eqb_spec t k) as [->|]; cbn [andb].
      * rewrite (proj2 (Z.ltb_lt k (k + 1))), (proj2 (Z.ltb_ge k k)), Ek by lia. by destruct (j =? 0).
      * replace (t <? k + 1) with (t <? k) by (apply Bool.eq_iff_eq_true; rewrite !Z.ltb_lt; lia). done.
    + apply wp_ret. exists n'. split_and!; try done. intros t j Ht Hj. rewrite Hb by done. destruct (Z.eqb_spec t k) as [->|].
      * rewrite Ek. by rewrite !andb_false_r.
      * replace (t <? k + 1) with (t <? k) by (apply Bool.eq_iff_eq_true; rewrite !Z.ltb_lt; lia). done.
  - intros s' (n' & -> & Hh & Hc & Hp & Hs & Ht' & Hb). apply HQ; try done. intros t j Ht Hj. rewrite Hb by done.
    change (0 + Z.of_nat 3) with 3. by rewrite (proj2 (Z.ltb_lt t 3)) by lia.
Qed.

Lemma fresh_insert ns r H pre c q b n n' : fresh ns r H pre c q b → ns !! b = Some n → rn_slots n' = rn_slots n →
  not_in (<[b := n']> ns) r H b.
Proof. intros (_ & _ & Hnin & _) Hn Hs. by eapply not_in_upd. Qed.

(** ** radix_tree_extend *)

Lemma nowait_gfp root root' : rr_gfp_mask root' = rr_gfp_mask root → nowait root' → nowait root.
Proof. unfold nowait, root_gfp_mask. by intros ->. Qed.

Section insert.
Context {E : rt_env} {EO : rt_env_ok E}.

Definition extended (root : radix_tree_root) (pre : radix_tree_preload_t) (q : list Z) (H H' : nat) (m : gmap Z Z) (tg : Z → gset Z) (e : Z) (s' : rt_state) : Prop :=
  ∃ ns' root' pre' c' r' H2, s' = RtState ns' root' pre' c' q ∧ rt_ok s' r' H2 m tg ∧ r' ≠ 0 ∧ rr_gfp_mask root' = rr_gfp_mask root ∧
  ((e = 0 ∧ H2 = H' ∧ rtp_nr pre - Z.of_nat (H' - H) ≤ rtp_nr pre') ∨ (e = - rt_ENOMEM ∧ (nowait root → rtp_nr pre < Z.of_nat (H' - H)))).

Lemma extend_loop_ok fuel : ∀ ns root pre c q r H m tg H', rt_ok (RtState ns root pre c q) r H m tg → r ≠ 0 → (H < H' ≤ 11)%nat → (H' - H ≤ fuel)%nat →
  wp (extend_loop fuel (Z.of_nat H')) (extended root pre q H H' m tg) (RtState ns root pre c q).
Proof.
  induction fuel as [|fuel IH]; intros ns root pre c q r H m tg H' K Hr HH Hfuel; [lia|].
  pose proof (root_ptr _ _ _ _ _ K) as Hptr. pose proof (ok_root _ _ _ _ _ K) as R. cbn [rt_root] in Hptr, R.
  cbn [extend_loop]. apply wp_bind. eapply wp_mono; [apply (node_alloc_ok ns root q r H), K|].
  intros b s' (pre1 & c1 & -> & M1 & Hfail & Hnr & Hfr). cbn [rt_nodes rt_root rt_preload rt_cache rt_rcu] in *.
  assert (K1 : rt_ok (RtState ns root pre1 c1 q) r H m tg) by (destruct K as [T R' I G M]; by split).
  destruct (Z.eqb_spec b 0) as [->|Hb].
  { apply wp_ret. exists ns, root, pre1, c1, r, H. split_and!; try done. right. split; [done|]. intros Hw. rewrite (Hfail eq_refl Hw). lia. }
  specialize (Hfr Hb). pose proof Hfr as (_ & Hal & Hnin & Hnl & n & Hn & Hcl).
  apply wp_bind, wp_gets. cbn [rt_root]. apply wp_bind. eapply wp_copy_tags; [done..|]. intros n1 Eh Ec Ep Es Hto Hbits.
  rewrite (ro_height _ _ _ R). replace (Z.of_nat H + 1) with (Z.of_nat (S H)) by lia.
  apply wp_bind. eapply wp_rt_upd; [apply lookup_insert_eq|]. rewrite insert_insert_eq.
  apply wp_bind. eapply wp_rt_upd; [apply lookup_insert_eq|]. rewrite insert_insert_eq.
  apply wp_bind. eapply wp_rt_upd; [apply lookup_insert_eq|]. rewrite insert_insert_eq.
  set (n2 := rn_with_parent _ 0).
  assert (Hns2 : ∃ ns2, (∀ x, x ≠ r → ns2 !! x = ns !! x) ∧ (H = 0%nat → ns2 = ns) ∧
      ((0 < H)%nat → ∃ nr, ns !! r = Some nr ∧ ns2 !! r = Some (rn_with_parent nr b)) ∧ (r = b → H = 0%nat) ∧
      ∀ Q, Q r (RtState (<[b := n2]> ns2) root pre1 c1 q) →
        wp (if 1 <? Z.of_nat (S H) then let slot := indirect_to_ptr (rr_rnode root) in _ ← rt_set_parent slot b; mret slot else mret (rr_rnode root))
           Q (RtState (<[b := n2]> ns) root pre1 c1 q)).
  { destruct H as [|H].
    - exists ns. split_and!; [done|done|intros ?; lia|done|]. intros Q HQ. cbn. apply wp_ret. by rewrite (ro_rnode _ _ _ R).
    - destruct (tk_node _ _ _ (ok_tree _ _ _ _ _ K1) [] (Forall_nil_2 _) ltac:(simpl; lia) Hr) as (nr & Hnr' & _). cbn [rt_nodes reach foldl] in Hnr'.
      assert (Hrb : r ≠ b) by (apply (Hnin [] (Forall_nil_2 _)); simpl; lia).
      exists (<[r := rn_with_parent nr b]> ns). split_and!; [intros x Hx; by rewrite lookup_insert_ne|done| |done|].
      + intros _. exists nr. by rewrite lookup_insert_eq.
      + intros Q HQ. rewrite (proj2 (Z.ltb_lt 1 _)) by lia. cbv zeta. rewrite Hptr. apply wp_bind.
        eapply wp_rt_upd; [rewrite lookup_insert_ne by done; exact Hnr'|]. apply wp_ret. by rewrite insert_insert_ne by done. }
  destruct Hns2 as (ns2 & H2 & H0 & Hroot & Hrb & Hwp). apply wp_bind. apply Hwp. clear Hwp.
  apply wp_bind. eapply wp_rt_set_slot; [apply lookup_insert_eq| |lia|].
  { cbn. rewrite Es. apply (clean_ok n Hcl). }
  rewrite insert_insert_eq. apply wp_bind, wp_bind, wp_gets, wp_modify. apply wp_bind, wp_bind, wp_gets, wp_modify.
  cbn [rt_nodes rt_root rt_preload rt_cache rt_rcu rr_height rr_gfp_mask rr_rnode]. set (n3 := rn_with_slots _ _).
  assert (Kg : rt_ok (RtState (<[b := n3]> ns2) (RtRoot (Z.of_nat (S H)) (rr_gfp_mask root) (ptr_to_indirect b)) pre1 c1 q) b (S H) m tg).
  { apply (grow_ok ns root pre1 c1 q r H m tg K1 b n3 ns2); try done; [lia|]. cbn. rewrite Es. by destruct Hcl as (_ & -> & _). }
  destruct (Z.ltb_spec (Z.of_nat (S H)) (Z.of_nat H')) as [Hlt|Hge].
  - eapply wp_mono; [apply (IH _ _ _ _ _ _ (S H) m tg H' Kg Hb); lia|].
    intros e s' (ns3 & root3 & pre3 & c3 & r3 & H3 & -> & K3 & Hr3 & Hg3 & Hres). exists ns3, root3, pre3, c3, r3, H3. split_and!; [done..|].
    destruct Hres as [(-> & -> & Hle)|(-> & Hlt')]; [left|right].
    + split_and!; [done|done|lia].
    + split; [done|]. intros Hw. specialize (Hlt' Hw). lia.
  - apply wp_ret. do 6 eexists. split; [done|]. split; [exact Kg|]. split_and!; [done|done|]. left. split_and!; [done|lia|lia].
Qed.

Lemma extend_height_ok fuel : ∀ H idx, (H ≤ 11)%nat → (12 - H ≤ fuel)%nat → is_u64 idx →
  ∃ H', extend_height fuel idx (Z.of_nat H) = Some (Z.of_nat H') ∧ (H ≤ H' ≤ 11)%nat ∧ idx < 64 ^ Z.of_nat H'.
Proof.
  induction fuel as [|fuel IH]; intros H idx HH Hf Hi; [lia|]. cbn [extend_height]. rewrite maxindex_ok by done. cbn [mbind option_bind].
  rewrite index_test by done. destruct (Z.ltb_spec idx (64 ^ Z.of_nat H)) as [Hlt|Hge]; cbn [negb]; [by exists H|].
  destruct (decide (H = 11%nat)) as [->|]; [change (64 ^ Z.of_nat 11) with (2 ^ 66) in Hge; lia|].
  replace (Z.of_nat H + 1) with (Z.of_nat (S H)) by lia. destruct (IH (S H) idx) as (H' & ? & ? & ?); [lia|lia|done|]. exists H'. split_and!; [done|lia|lia|done].
Qed.

Lemma extend_ok ns root pre c q r H m tg idx : rt_ok (RtState ns root pre c q) r H m tg → is_u64 idx → 64 ^ Z.of_nat H ≤ idx →
  wp (radix_tree_extend idx) (λ e s', ∃ ns' root' pre' c' r' H', s' = RtState ns' root' pre' c' q ∧ rt_ok s' r' H' m tg ∧ rr_gfp_mask root' = rr_gfp_mask root ∧
    ((e = 0 ∧ idx < 64 ^ Z.of_nat H' ∧ rtp_nr pre ≤ rtp_nr pre' + (if r' =? 0 then 0 else 11)) ∨ (e = - rt_ENOMEM ∧ (nowait root → rtp_nr pre < 11)))) (RtState ns root pre c q).
Proof.
  intros K Hi Hge. pose proof (ok_root _ _ _ _ _ K) as R. cbn [rt_root] in R. pose proof (ro_max _ _ _ R) as Hmax.
  assert (H ≠ 11%nat) by (intros ->; change (64 ^ Z.of_nat 11) with (2 ^ 66) in Hge; lia).
  unfold radix_tree_extend. apply wp_bind, wp_gets. cbn [rt_root]. rewrite (ro_height _ _ _ R). replace (Z.of_nat H + 1) with (Z.of_nat (S H)) by lia.
  destruct (extend_height_ok 12 (S H) idx) as (H' & Eh & HH' & Hlt); [lia|lia|done|]. apply wp_bind. eapply wp_lift; [exact Eh|].
  destruct (Z.eqb_spec (rr_rnode root) 0) as [E0|E0].
  - assert (r = 0) as ->.
    { rewrite (ro_rnode _ _ _ R) in E0. destruct H; [done|]. destruct (Z.eqb_spec r 0); [done|].
      apply (f_equal radix_tree_is_indirect_ptr) in E0. by rewrite indirect_test in E0. }
    apply wp_bind, wp_bind, wp_gets, wp_modify, wp_ret. cbn [rt_nodes rt_root rt_preload rt_cache rt_rcu]. do 6 eexists. split; [done|]. split; [|split; [done|]].
    + apply (empty_height ns root pre c q H m tg H'); [done|lia].
    + left. split_and!; [done|done|cbn; lia].
  - assert (r ≠ 0) by (intros ->; apply E0; rewrite (ro_rnode _ _ _ R); by destruct H).
    eapply wp_mono; [apply (extend_loop_ok 12 ns root pre c q r H m tg H'); [done|done|lia|lia]|].
    intros e s' (ns' & root' & pre' & c' & r' & H2 & -> & K' & Hr' & Hg & Hres). exists ns', root', pre', c', r', H2. split_and!; [done..|].
    destruct Hres as [(-> & -> & Hle)|(-> & Hlt')]; [left|right].
    + split_and!; [done|done|]. rewrite (proj2 (Z.eqb_neq r' 0)) by done. lia.
    + split; [done|]. intros Hw. specialize (Hlt' Hw). lia.
Qed.

(** ** The descent of radix_tree_insert *)

(** [node] and [off] say where the path ends. *)
Definition at_node (ns : gmap Z radix_tree_node) (r : Z) (π : list Z) (node off : Z) : Prop :=
  match π with [] => node = 0 | _ => node = reach ns r (removelast π) ∧ node ≠ 0 ∧ off = List.last π 0 end.

Lemma at_node_snoc ns r π d node off : at_node ns r (π ++ [d]) node off ↔ node = reach ns r π ∧ node ≠ 0 ∧ off = d.
Proof. unfold at_node. rewrite removelast_last, List.last_last. by destruct π. Qed.

Definition descended (root : radix_tree_root) (q : list Z) (H : nat) (m : gmap Z Z) (tg : Z → gset Z) (idx nr bound : Z) (res : option (Z * Z * Z)) (s' : rt_state) : Prop :=
  ∃ ns' root' pre' c' r', s' = RtState ns' root' pre' c' q ∧ rt_ok s' r' H m tg ∧ rr_gfp_mask root' = rr_gfp_mask root ∧
    match res with
    | None => reach ns' r' (digits H idx) = 0 ∧ (nowait root → nr < bound)
    | Some (node, off, slot) => slot = reach ns' r' (digits H idx) ∧ at_node ns' r' (digits H idx) node off
    end.

Lemma rt_insert_loop_ok h : ∀ ns root pre c q r H m tg idx shift π node off, rt_ok (RtState ns root pre c q) r H m tg → path π → π ++ digits h idx = digits H idx →
  (h ≤ 11)%nat → (h ≠ 0%nat → shift = 6 * (Z.of_nat h - 1)) → at_node ns r π node off →
  wp (rt_insert_loop h idx shift node (reach ns r π) off)
    (descended root q H m tg idx (rtp_nr pre) (if reach ns r π =? 0 then Z.of_nat h else Z.of_nat h - 1)) (RtState ns root pre c q).
Proof.
  induction h as [|h IH]; intros ns root pre c q r H m tg idx shift π node off K Hπ Hdig Hh Hsh Hat.
  { cbn [digits] in Hdig. rewrite app_nil_r in Hdig. subst π. apply wp_ret. by exists ns, root, pre, c, r. }
  rewrite digits_step in Hdig. set (d := next_digit h idx) in *. assert (Hd : digit d) by apply next_digit_digit.
  assert (Hlen : (length π + S h = H)%nat).
  { apply (f_equal length) in Hdig. rewrite !length_app, !digits_length in Hdig. simpl in Hdig. lia. }
  assert (Hnext : ∀ ns1 root1 pre1 c1 r1 bound, rt_ok (RtState ns1 root1 pre1 c1 q) r1 H m tg → reach ns1 r1 π ≠ 0 → rr_gfp_mask root1 = rr_gfp_mask root →
    rtp_nr pre + Z.of_nat h ≤ rtp_nr pre1 + bound →
    wp (slot ← rt_slot (reach ns1 r1 π) d; rt_insert_loop h idx (u32 (shift - RADIX_TREE_MAP_SHIFT)) (reach ns1 r1 π) slot d)
      (descended root q H m tg idx (rtp_nr pre) bound) (RtState ns1 root1 pre1 c1 q)).
  { intros ns1 root1 pre1 c1 r1 bound K1 Hr1 Hg Hb. apply wp_bind.
    apply (wp_step _ _ _ _ _ r1 H (ok_tree _ _ _ _ _ K1)); [done|lia|done|done|].
    eapply wp_mono; [apply (IH ns1 root1 pre1 c1 q r1 H m tg idx); [done|by apply path_snoc|done|lia| |by apply at_node_snoc]|].
    - destruct h; [done|]. intros _. rewrite (shift_next h) by lia. lia.
    - intros res s' (ns2 & root2 & pre2 & c2 & r2 & -> & K2 & Hg2 & Hres). exists ns2, root2, pre2, c2, r2. split_and!; [done|done|congruence|].
      destruct res as [[[? ?] ?]|]; [done|]. destruct Hres as [Hz Hres]. split; [done|]. intros Hw. assert (Hw1 : nowait root1) by (by eapply nowait_gfp; [symmetry; exact Hg|]). specialize (Hres Hw1). destruct (_ =? 0); lia. }
  cbn [rt_insert_loop]. rewrite (offset_ok h) by lia. fold d. destruct (Z.eqb_spec (reach ns r π) 0) as [E0|E0].
  2:{ apply wp_bind, wp_ret. rewrite (proj2 (Z.eqb_neq _ 0) E0). apply Hnext; [done..|lia]. }
  apply wp_bind, wp_bind. eapply wp_mono; [apply (node_alloc_ok ns root q r H), K|].
  intros b s' (pre1 & c1 & -> & M1 & Hfail & Hnr & Hfr). cbn [rt_nodes rt_root rt_preload rt_cache rt_rcu] in *.
  assert (K1 : rt_ok (RtState ns root pre1 c1 q) r H m tg) by (destruct K as [T R' I G M]; by split).
  destruct (Z.eqb_spec b 0) as [->|Hb].
  { apply wp_ret. rewrite Z.eqb_refl. apply wp_ret. exists ns, root, pre1, c1, r. split_and!; [done..|rewrite <- Hdig, <- app_assoc; by apply reach_below|]. intros Hw. rewrite (Hfail eq_refl Hw). lia. }
  specialize (Hfr Hb). pose proof Hfr as (_ & Hal & Hnin & Hnl & n & Hn & Hcl). cbv beta iota.
  apply wp_bind. eapply wp_rt_upd; [done|]. apply wp_bind. eapply wp_rt_upd; [apply lookup_insert_eq|]. rewrite insert_insert_eq. fold (born n (Z.of_nat (S h)) node).
  destruct π as [|d0 π0 _] using rev_ind.
  - cbn [at_node] in Hat. subst node. cbn [reach foldl] in E0. subst r. cbn [length] in Hlen. rewrite Z.eqb_refl. cbn [negb]. apply wp_bind, wp_bind, wp_gets, wp_modify, wp_ret.
    cbn [rt_nodes rt_root rt_preload rt_cache rt_rcu]. rewrite (proj2 (Z.eqb_neq b 0) Hb). replace H with (S h) in * by lia.
    apply (Hnext _ _ pre1 c1 b (Z.of_nat (S h))); [by eapply link_root|done|done|lia].
  - apply at_node_snoc in Hat as (-> & Hr0 & ->). pose proof Hπ as [Hπ0 Hd0]%Forall_app. apply Forall_cons in Hd0 as [Hd0 _]. rewrite length_snoc in Hlen.
    destruct (tk_node _ _ _ (ok_tree _ _ _ _ _ K1) π0 Hπ0 ltac:(lia) Hr0) as (na & Hna & Hok & _ & Hc & _). cbn [rt_nodes] in Hna, Hc.
    assert (Hne : reach ns r π0 ≠ b) by (apply Hnin; [done|lia]). pose proof (nonnull_range (rn_slots na)) as Hnn. rewrite (proj1 Hok) in Hnn.
    rewrite (proj2 (Z.eqb_neq _ 0) Hr0). cbn [negb]. apply wp_bind, wp_bind. eapply wp_rt_set_slot; [rewrite lookup_insert_ne by done; exact Hna|apply Hok|done|].
    eapply wp_rt_upd; [apply lookup_insert_eq|]. rewrite insert_insert_eq. apply wp_ret. rewrite (proj2 (Z.eqb_neq b 0) Hb).
    cbn [rn_with_slots rn_count]. replace (u32 (rn_count na + 1)) with (rn_count na + 1) by (symmetry; apply Z.mod_small; lia).
    fold (filled na d0 b). replace (S h) with (H - (length π0 + 1))%nat at 2 by lia.
    set (ns3 := <[reach ns r π0 := filled na d0 b]> _).
    assert (K3 : rt_ok (RtState ns3 root pre1 c1 q) r H m tg) by (eapply link_node; try done; lia).
    assert (E3 : reach ns3 r (π0 ++ [d0]) = b).
    { unfold ns3. rewrite (link_reach ns root pre1 c1 q r H m tg K1 π0 d0 b n na); try done; [by rewrite decide_True|lia|rewrite length_snoc; lia]. }
    rewrite <- E3. apply (Hnext ns3 root pre1 c1 r); [done|by rewrite E3|done|lia].
Qed.
End insert.
