(* ===== verification/RadixStore.v ===== *)
(** * RadixStore: insertion, replacement, preloading and deferred freeing of nodes

    [insert_ok] puts the parts of RadixInsert together; the second half is about the nodes outside
    of the tree, from call_rcu over the callback to the pool of preloaded nodes. *)

From S2P Require Import Prelude Bitops Radix RadixPath RadixInv RadixOps RadixTags RadixInsert.

Section insert.
Context {E : rt_env} {EO : rt_env_ok E}.

(** What an insertion does: the item is stored, or there was one, or memory ran out; then the map
    is as it was.  Memory does not run out with a full pool. *)
Definition inserted (m : gmap Z Z) (tg : Z → gset Z) (idx item : Z) (s : rt_state) (e : Z) (s' : rt_state) : Prop :=
  ∃ r H m', rt_ok s' r H m' tg ∧
    ((e = 0 ∧ m !! idx = None ∧ m' = <[idx := item]> m) ∨
     (e = - rt_EEXIST ∧ is_Some (m !! idx) ∧ m' = m) ∨
     (e = - rt_ENOMEM ∧ m !! idx = None ∧ m' = m ∧ (nowait (rt_root s) → rtp_nr (rt_preload s) < RADIX_TREE_PRELOAD_SIZE))).

Lemma no_item s r H m tg idx : rt_ok s r H m tg → reach (rt_nodes s) r (digits H idx) = 0 → m !! idx = None.
Proof. intros K Hz. destruct (m !! idx) eqn:Em; [|done]. by destruct (io_some _ _ _ _ (ok_items _ _ _ _ _ K) _ _ Em) as (_ & _ & Hr & ?); rewrite Hz in Hr. Qed.

Lemma insert_end ns root pre c q r H m tg idx item node off : rt_ok (RtState ns root pre c q) r H m tg → is_u64 idx → idx < 64 ^ Z.of_nat H →
  item ≠ 0 → aligned item → reach ns r (digits H idx) = 0 → at_node ns r (digits H idx) node off →
  wp (if negb (node =? 0) then
        _ ← rt_add_count node 1; _ ← rt_set_slot node off item;
        t0 ← tag_get node 0 off; t1 ← tag_get node 1 off; if t0 || t1 then wrong else mret 0
      else _ ← rt_set_rnode item; root ← rt_root_get; if root_tag_get root 0 || root_tag_get root 1 then wrong else mret 0)
    (λ e s', e = 0 ∧ ∃ r', rt_ok s' r' H (<[idx := item]> m) tg) (RtState ns root pre c q).
Proof.
  intros K Hi Hlt Hitem Hal Hfree Hat. destruct H as [|h].
  - cbn [digits at_node] in Hat. subst node. cbn [digits reach foldl] in Hfree. subst r. change (64 ^ Z.of_nat 0) with 1 in Hlt. replace idx with 0 by lia.
    cbn [Z.eqb negb]. apply wp_bind, wp_bind, wp_gets, wp_modify. apply wp_bind, wp_gets. cbn [rt_nodes rt_root rt_preload rt_cache rt_rcu].
    pose proof (put_root _ _ _ _ _ _ _ item K Hitem Hal) as K'. pose proof (root_tags_empty _ _ _ _ K) as Hrt. cbn [rt_root] in Hrt.
    assert (Hsame : ∀ t, 0 ≤ t < 3 → root_tag_get (RtRoot (rr_height root) (rr_gfp_mask root) item) t = false).
    { intros t Ht. rewrite <- (Hrt t Ht), !root_tag_test by done. done. }
    rewrite !Hsame by lia. apply wp_ret. split; [done|]. by exists item.
  - cbn [digits] in Hat, Hfree. set (π := digits h (idx / 64)) in *. set (d := idx `mod` 64) in *. apply at_node_snoc in Hat as (-> & Hr & ->).
    assert (Hπ : path π) by apply digits_path. assert (Hd : digit d) by (apply Z.mod_pos_bound; lia). assert (Hl : (length π < S h)%nat) by (unfold π; rewrite digits_length; lia).
    destruct (tk_node _ _ _ (ok_tree _ _ _ _ _ K) π Hπ Hl Hr) as (na & Hna & Hok & _ & Hc & _). cbn [rt_nodes] in Hna.
    pose proof (nonnull_range (rn_slots na)) as Hnn. rewrite (proj1 Hok) in Hnn.
    rewrite (proj2 (Z.eqb_neq _ 0) Hr). cbn [negb]. apply wp_bind. eapply wp_rt_upd; [done|]. apply wp_bind. eapply wp_rt_set_slot; [apply lookup_insert_eq|apply Hok|done|].
    rewrite insert_insert_eq. replace (u32 (rn_count na + 1)) with (rn_count na + 1) by (symmetry; apply Z.mod_small; lia).
    change (rn_with_slots _ _) with (filled na d item).
    pose proof (put_item ns root pre c q r (S h) m tg π d idx item na K Hi Hlt eq_refl Hd Hr Hfree Hitem Hal Hna) as K'.
    assert (Hbit : ∀ t, 0 ≤ t < 3 → Z.testbit (tag_word (filled na d item) t) d = false).
    { intros t Ht. apply not_true_iff_false. intros Hb. apply (ti_node _ _ _ _ _ _ (ok_tags _ _ _ _ _ K) t π d na) in Hb; [|done..].
      eapply (below_reach ns root) in Hb; [done|apply K|apply K|done]. }
    do 2 (apply wp_bind; eapply wp_tag_get; [apply lookup_insert_eq|apply Hok|lia|done|]). rewrite !Hbit by lia. apply wp_ret. split; [done|]. by exists r.
Qed.

Lemma insert_ok s r H m tg idx item : rt_ok s r H m tg → is_u64 idx → item ≠ 0 → aligned item →
  wp (radix_tree_insert idx item) (inserted m tg idx item s) s.
Proof.
  intros K Hi Hitem Hal. pose proof (ok_root _ _ _ _ _ K) as R. destruct s as [ns root pre c q]. cbn [rt_root] in R.
  assert (Hmain : ∀ ns1 root1 pre1 c1 r1 H1, rt_ok (RtState ns1 root1 pre1 c1 q) r1 H1 m tg → idx < 64 ^ Z.of_nat H1 → rr_gfp_mask root1 = rr_gfp_mask root →
    rtp_nr pre ≤ rtp_nr pre1 + (if r1 =? 0 then 0 else 11) →
    wp (root ← rt_root_get; let height := rr_height root in
        r ← rt_insert_loop (Z.to_nat height) idx (u32 ((height - 1) * RADIX_TREE_MAP_SHIFT)) 0 (indirect_to_ptr (rr_rnode root)) 0;
        match r with
        | None => mret (- rt_ENOMEM)
        | Some (node, offset, slot) =>
            if negb (slot =? 0) then mret (- rt_EEXIST)
            else if negb (node =? 0) then
              _ ← rt_add_count node 1; _ ← rt_set_slot node offset item;
              t0 ← tag_get node 0 offset; t1 ← tag_get node 1 offset; if t0 || t1 then wrong else mret 0
            else _ ← rt_set_rnode item; root ← rt_root_get; if root_tag_get root 0 || root_tag_get root 1 then wrong else mret 0
        end) (inserted m tg idx item (RtState ns root pre c q)) (RtState ns1 root1 pre1 c1 q)).
  { intros ns1 root1 pre1 c1 r1 H1 K1 Hlt Hg Hnr. pose proof (root_ptr _ _ _ _ _ K1) as Hptr. pose proof (ok_root _ _ _ _ _ K1) as R1. cbn [rt_root] in *.
    pose proof (ro_max _ _ _ R1) as Hmax. apply wp_bind, wp_gets. cbn [rt_root]. cbv zeta. rewrite (ro_height _ _ _ R1), Hptr, Nat2Z.id. apply wp_bind.
    eapply wp_mono; [apply (rt_insert_loop_ok H1 ns1 root1 pre1 c1 q r1 H1 m tg idx _ []); [done|constructor|done|done| |done]|].
    { destruct H1; [done|]. intros _. rewrite shift_start by lia. lia. }
    intros res s' (ns2 & root2 & pre2 & c2 & r2 & -> & K2 & Hg2 & Hres). cbn [reach foldl] in Hres. destruct res as [[[node off] slot]|].
    - destruct Hres as [-> Hat]. pose proof (items_lookup _ _ _ _ _ K2 idx Hi) as Hlook. cbn [rt_nodes] in Hlook. rewrite (proj2 (Z.ltb_lt _ _) Hlt) in Hlook.
      destruct (Z.eqb_spec (reach ns2 r2 (digits H1 idx)) 0) as [E0|E0]; cbn [negb].
      + eapply wp_mono; [by apply (insert_end ns2 root2 pre2 c2 q r2 H1 m tg)|]. intros e s' [-> [r' K']]. exists r', H1, (<[idx := item]> m). split; [done|]. left.
        split_and!; [done| |done]. destruct (m !! idx) eqn:Em; [|done]. apply (item_nonzero _ _ _ _ _ K2) in Em as Hz. cbn in Hlook. congruence.
      + apply wp_ret. exists r2, H1, m. split; [done|]. right. left. split_and!; [done| |done]. destruct (m !! idx); [by eexists|]. cbn in Hlook. congruence.
    - apply wp_ret. exists r2, H1, m. split; [done|]. right. right. destruct Hres as [Hz Hres]. split_and!; [done|by apply (no_item _ _ _ _ _ _ K2)|done|]. cbn [rt_root rt_preload]. intros Hw.
      assert (Hw1 : nowait root1) by (by eapply nowait_gfp; [symmetry; exact Hg|]). specialize (Hres Hw1). unfold RADIX_TREE_PRELOAD_SIZE. change (RADIX_TREE_MAX_PATH) with 11.
      destruct (r1 =? 0); lia. }
  unfold radix_tree_insert. rewrite aligned_direct by done. apply wp_bind, wp_gets. cbn [rt_root]. rewrite (ro_height _ _ _ R).
  apply wp_bind. eapply wp_lift; [apply maxindex_ok, R|]. rewrite index_test by done. destruct (Z.ltb_spec idx (64 ^ Z.of_nat H)) as [Hlt|Hge]; cbn [negb]; apply wp_bind.
  - apply wp_ret. cbn [Z.eqb negb]. apply (Hmain ns root pre c r H); [done..|]. destruct (r =? 0); lia.
  - eapply wp_mono; [by apply (extend_ok ns root pre c q r H m tg)|]. intros e s' (ns1 & root1 & pre1 & c1 & r1 & H1 & -> & K1 & Hg & Hres).
    destruct Hres as [(-> & Hlt & Hnr)|(-> & Hw)].
    + cbn [Z.eqb negb]. by apply (Hmain ns1 root1 pre1 c1 r1 H1).
    + cbn. apply wp_ret. exists r1, H1, m. split; [done|]. right. right. split_and!; [done| |done|].
      { destruct (m !! idx) eqn:Em; [|done]. destruct (io_some _ _ _ _ (ok_items _ _ _ _ _ K) _ _ Em) as (_ & ? & _). lia. }
      cbn [rt_root rt_preload]. intros Hnw. specialize (Hw Hnw).
      unfold RADIX_TREE_PRELOAD_SIZE. change (RADIX_TREE_MAX_PATH) with 11. lia.
Qed.

(** ** radix_tree_replace_slot *)

Lemma replace_root ns root pre c q r m tg v : rt_ok (RtState ns root pre c q) r 0 m tg → r ≠ 0 → v ≠ 0 → aligned v →
  rt_ok (RtState ns (RtRoot (rr_height root) (rr_gfp_mask root) v) pre c q) v 0 (<[0 := v]> m) tg.
Proof.
  intros [T R I G M] Hr Hv Hal. cbn [rt_nodes rt_root rt_preload rt_cache rt_rcu] in *. split; cbn [rt_nodes rt_root rt_preload rt_cache rt_rcu].
  - split; [intros π _ Hl; lia|intros π ρ _ _ Hl; lia|]. intros [|? ?] _ Hl; [done|simpl in Hl; lia].
  - split; cbn; [apply R..|done|apply R].
  - split.
    + intros idx x Hx. apply lookup_insert_Some in Hx as [[<- <-]|[Hne Hx]]; [by split_and!|].
      destruct (io_some _ _ _ _ I _ _ Hx) as (Hi & Hlt & _). change (64 ^ Z.of_nat 0) with 1 in Hlt. lia.
    + intros ρ _ Hl _. exists 0. rewrite lookup_insert_eq. split; [by eexists|]. by destruct ρ.
  - split.
    + intros t Ht. rewrite <- (ti_root _ _ _ _ _ _ G t Ht), !root_tag_test by done. done.
    + intros t π i n _ _ _ Hl. lia.
    + intros t Ht. pose proof (ti_dom _ _ _ _ _ _ G t Ht). rewrite dom_insert. set_solver.
  - eapply mem_move; [done|]. intros x Hx. split; [done|]. intros π _ Hl. lia.
Qed.

(** An item found with radix_tree_lookup_slot is replaced; its tags stay. *)
Lemma replace_ok s r H m tg idx item : rt_ok s r H m tg → is_u64 idx → item ≠ 0 → aligned item →
  wp (p ← radix_tree_lookup_slot idx; match p with Some p => _ ← radix_tree_replace_slot p item; mret 1 | None => mret 0 end)
    (λ v s', ∃ r', match m !! idx with Some _ => v = 1 ∧ rt_ok s' r' H (<[idx := item]> m) tg | None => v = 0 ∧ rt_ok s' r' H m tg end) s.
Proof.
  intros K Hi Hn Hal. apply wp_bind, wp_bind. eapply wp_mono; [by apply (lookup_element_ok s r H m tg K)|]. intros res s' [-> Hres]. apply wp_ret.
  destruct res as [[place v]|]; cbn [fmap option_fmap option_map fst]; [|apply wp_ret; exists r; by rewrite Hres]. destruct Hres as [Hv ->]. rewrite Hv. unfold radix_tree_replace_slot.
  rewrite aligned_direct by done. destruct (io_some _ _ _ _ (ok_items _ _ _ _ _ K) _ _ Hv) as (_ & Hlt & Hrv & Hv0). destruct s as [ns root pre c q]. cbn [rt_nodes] in Hrv.
  destruct H as [|h].
  - cbn [digits reach foldl] in Hrv. subst v. change (64 ^ Z.of_nat 0) with 1 in Hlt. replace idx with 0 by lia.
    apply wp_bind, wp_bind, wp_gets, wp_modify, wp_ret. exists item. split; [done|]. by apply (replace_root ns root pre c q r).
  - cbn [rt_nodes]. set (π := digits h (idx / 64)) in *. set (d := idx `mod` 64) in *. change (digits (S h) idx) with (π ++ [d]) in Hrv.
    assert (Hπ : path π) by apply digits_path. assert (Hd : digit d) by (apply Z.mod_pos_bound; lia). assert (Hl : (length π < S h)%nat) by (unfold π; rewrite digits_length; lia).
    assert (Hr : reach ns r π ≠ 0) by (eapply reach_prefix; by rewrite Hrv).
    destruct (tk_node _ _ _ (ok_tree _ _ _ _ _ K) π Hπ Hl Hr) as (na & Hna & Hok & _ & Hc & _). cbn [rt_nodes] in Hna.
    apply wp_bind. eapply wp_rt_set_slot; [done|apply Hok|done|]. apply wp_ret. exists r. split; [done|].
    apply (put_slot ns root pre c q r (S h) m tg K π d idx item na); try done; [by split; [cbn; rewrite length_insert; apply Hok|apply Hok]|].
    assert (Hrd : rd (rn_slots na) d = Some v) by (rewrite (slot_rd ns (reach ns r π)) by (done || apply Hok); by rewrite reach_snoc, (proj2 (Z.eqb_neq _ 0) Hr) in Hrv; rewrite Hrv).
    unfold rd in Hrd. rewrite (proj2 (Z.leb_le 0 d)) in Hrd by lia. cbn [rn_with_slots rn_count rn_slots]. rewrite (nonnull_insert _ _ v) by done.
    rewrite (proj2 (Z.eqb_neq v 0)), (proj2 (Z.eqb_neq item 0)) by done. cbn [negb Z.b2z]. lia.
Qed.
End insert.

(** ** Nodes outside of the tree *)

(** A node that is not in the tree may change, and the lists with it. *)
Lemma frame_ok ns root pre c q r H m tg a n' pre' c' q' : rt_ok (RtState ns root pre c q) r H m tg → not_in ns r H a →
  mem_ok (<[a := n']> ns) r H pre' c' q' → rt_ok (RtState (<[a := n']> ns) root pre' c' q') r H m tg.
Proof.
  intros [T R I G M] Ha M'. cbn [rt_nodes rt_root rt_preload rt_cache rt_rcu] in *. pose proof (reach_frame ns r H a n' Ha) as Er.
  split; cbn [rt_nodes rt_root rt_preload rt_cache rt_rcu]; [by apply tree_frame|done| | |done].
  - split.
    + intros idx v Hv. rewrite Er by (apply digits_path || by rewrite digits_length). by apply I.
    + intros ρ Hρ Hl. rewrite Er by (done || lia). by apply I.
  - split; [apply G| |apply G]. intros t ρ i n Ht Hρ Hi Hl. rewrite Er by (done || lia). intros Hr.
    rewrite lookup_insert_ne by (intros Ea; by apply (Ha ρ)). intros Hn. by apply (ti_node _ _ _ _ _ _ G t ρ i n).
Qed.

Section memory.
Context {E : rt_env} {EO : rt_env_ok E}.

(** call_rcu. *)
Lemma node_free_ok ns root pre c q r H m tg a n : rt_ok (RtState ns root pre c q) r H m tg → ns !! a = Some n → rcu_clean n → a ≠ 0 → aligned a →
  not_in ns r H a → a ∉ c ++ pool pre ++ q →
  wp (radix_tree_node_free a) (λ _ s', ∃ ns' q', s' = RtState ns' root pre c q' ∧ rt_ok s' r H m tg ∧ (∀ x d, slot_at ns' x d = slot_at ns x d) ∧ ∀ x, x ≠ a → ns' !! x = ns !! x)
    (RtState ns root pre c q).
Proof.
  intros K Hn Hcl Ha Hal Hnin Hnl. apply wp_bind, wp_gets. cbn [rt_rcu]. apply wp_bind. eapply wp_rt_upd; [done|]. apply wp_modify.
  cbn [rt_nodes rt_root rt_preload rt_cache rt_rcu]. set (n' := rn_with_parent n _).
  exists (<[a := n']> ns), (q ++ [a]). split; [done|]. split; [|split; [intros; by eapply slot_at_upd|intros x Hx; by rewrite lookup_insert_ne]].
  pose proof (ok_mem _ _ _ _ _ K) as [M1 M2 M3 M4 M5 M6]. cbn [rt_nodes rt_root rt_preload rt_cache rt_rcu] in *.
  eapply frame_ok; [done..|]. split; try done.
  - rewrite !app_assoc. apply NoDup_app. rewrite <- app_assoc. split_and!; [done| |apply NoDup_singleton].
    intros x Hx ->%list_elem_of_singleton. done.
  - intros x Hx. assert (x = a ∨ x ∈ c ++ pool pre ++ q) as [->|Hx'] by set_solver.
    + split_and!; [done..|]. by eapply not_in_upd.
    + destruct (M4 x Hx') as (? & ? & ?). split_and!; [done..|]. by eapply not_in_upd.
  - intros x Hx. rewrite lookup_insert_ne; [by apply M5|]. intros <-. set_solver.
  - intros x Hx. apply elem_of_app in Hx as [Hx| ->%list_elem_of_singleton].
    + rewrite lookup_insert_ne; [by apply M6|]. intros <-. set_solver.
    + exists n'. by rewrite lookup_insert_eq.
Qed.

(** The callback makes a node clean again and gives it back. *)
Lemma rcu_free_ok ns root pre c q q0 r H m tg a : rt_ok (RtState ns root pre c (a :: q)) r H m tg →
  wp (radix_tree_node_rcu_free a) (λ _ s', ∃ ns', s' = RtState ns' root pre (a :: c) q0 ∧ rt_ok (RtState ns' root pre (a :: c) q) r H m tg) (RtState ns root pre c q0).
Proof.
  intros K. pose proof (ok_mem _ _ _ _ _ K) as [M1 M2 M3 M4 M5 M6]. cbn [rt_nodes rt_root rt_preload rt_cache rt_rcu] in *.
  destruct (M6 a) as (n & Hn & (x & Hx) & b0 & b1 & b2 & Hb); [by left|]. destruct (M4 a) as (Ha & Hal & Hnin); [set_solver|].
  assert (Hperm : c ++ pool pre ++ a :: q ≡ₚ a :: c ++ pool pre ++ q) by solve_Permutation.
  assert (Hnl : a ∉ c ++ pool pre ++ q).
  { rewrite Hperm in M3. by apply NoDup_cons in M3 as [? _]. }
  apply wp_bind. apply (wp_for_up (λ k s, ∃ n', s = RtState (<[a := n']> ns) root pre c q0 ∧ rn_slots n' = rn_slots n ∧ tags_ok n' ∧
    ∀ t j, 0 ≤ t < 3 → digit j → Z.testbit (tag_word n' t) j = negb ((t <? k) && (j =? 0)) && Z.testbit (tag_word n t) j)).
  - exists n. rewrite insert_id by done. split_and!; [done|done| |].
    + exists (Z.b2z b0), (Z.b2z b1), (Z.b2z b2). split; [done|]. destruct b0, b1, b2; cbn; lia.
    + intros t j Ht Hj. by rewrite (proj2 (Z.ltb_ge t 0)) by lia.
  - intros k s' Hk (n' & -> & Hs & Hto & Hbits). eapply wp_tag_clear; [apply lookup_insert_eq|done|lia|lia|].
    intros n2 (_ & _ & _ & E4 & Hok2 & Hb2). rewrite insert_insert_eq. exists n2. split_and!; [done|congruence|done|].
    intros t j Ht Hj. rewrite Hb2, Hbits by done. destruct (Z.eqb_spec t k) as [->|]; cbn [andb].
    + rewrite (proj2 (Z.ltb_lt k (k + 1))), (proj2 (Z.ltb_ge k k)) by lia. by destruct (j =? 0).
    + replace (t <? k + 1) with (t <? k) by (apply Bool.eq_iff_eq_true; rewrite !Z.ltb_lt; lia). done.
  - intros s' (n' & -> & Hs & Hto & Hbits). change (0 + Z.of_nat 3) with 3 in Hbits.
    assert (Hw : ∀ t, 0 ≤ t < 3 → tag_word n' t = 0).
    { intros t Ht. apply tag_word_zero; [done|]. intros j Hj. rewrite Hbits, (proj2 (Z.ltb_lt t 3)) by (done || lia). cbn [andb].
      destruct (Z.eqb_spec j 0); cbn [negb andb]; [done|]. assert (Hbt : ∃ b, tag_word n t = Z.b2z b).
      { unfold tag_word, rd. rewrite Hb, (proj2 (Z.leb_le 0 t)) by lia. assert (Z.to_nat t < 3)%nat as Hlt by lia.
        destruct (Z.to_nat t) as [|[|[|]]]; [eexists; reflexivity..|lia]. }
      destruct Hbt as [b ->]. destruct b; [|apply Z.bits_0]. rewrite testbit_1. by apply Z.eqb_neq. }
    assert (Htags : rn_tags n' = [[0]; [0]; [0]]).
    { destruct Hto as (w0 & w1 & w2 & Ew & _). pose proof (Hw 0 ltac:(lia)) as E0. pose proof (Hw 1 ltac:(lia)) as E1. pose proof (Hw 2 ltac:(lia)) as E2.
      unfold tag_word in E0, E1, E2. rewrite Ew in E0, E1, E2.
      change (w0 = 0) in E0. change (w1 = 0) in E1. change (w2 = 0) in E2. by subst. }
    apply wp_bind. eapply wp_rt_set_slot; [apply lookup_insert_eq|by rewrite Hs, Hx, length_insert, length_replicate|lia|]. rewrite insert_insert_eq.
    apply wp_bind. eapply wp_rt_upd; [apply lookup_insert_eq|]. rewrite insert_insert_eq. apply wp_bind, wp_gets, wp_modify. cbn [rt_nodes rt_root rt_preload rt_cache rt_rcu].
    set (n2 := rn_with_count _ 0). assert (Hcl : clean n2).
    { split_and!; [done| |done]. cbn. rewrite Hs, Hx. by rewrite list_insert_insert_eq. }
    exists (<[a := n2]> ns). split; [done|]. eapply frame_ok; [done..|]. split; try done.
    + by rewrite Hperm in M3.
    + intros y Hy. destruct (M4 y) as (? & ? & Hyn); [set_solver|]. split_and!; [done..|]. intros ρ Hρ Hl. rewrite (reach_frame _ _ _ _ _ Hnin) by (done || lia). by apply Hyn.
    + intros y Hy. destruct (decide (y = a)) as [->|]; [exists n2; by rewrite lookup_insert_eq|]. rewrite lookup_insert_ne by done. apply M5. set_solver.
    + intros y Hy. rewrite lookup_insert_ne by set_solver. apply M6. set_solver.
Qed.

Lemma rcu_run_ok q : ∀ ns root pre c r H m tg, rt_ok (RtState ns root pre c q) r H m tg →
  wp (rcu_run q) (λ _ s', rt_ok s' r H m tg ∧ rt_root s' = root ∧ rt_preload s' = pre ∧ rt_rcu s' = []) (RtState ns root pre c []).
Proof.
  induction q as [|a q IH]; intros ns root pre c r H m tg K; [by apply wp_ret|]. cbn [rcu_run]. apply wp_bind.
  eapply wp_mono; [by eapply (rcu_free_ok _ _ _ _ q [])|]. intros _ s' (ns' & -> & K'). by apply IH.
Qed.

(** After a grace period nothing waits. *)
Lemma rcu_barrier_ok s r H m tg : rt_ok s r H m tg → wp rcu_barrier (λ _ s', rt_ok s' r H m tg ∧ rt_root s' = rt_root s ∧ rt_preload s' = rt_preload s ∧ rt_rcu s' = []) s.
Proof. intros K. destruct s as [ns root pre c q]. apply wp_bind, wp_gets, wp_bind, wp_modify. by eapply rcu_run_ok. Qed.

Lemma preload_loop_ok gfp fuel : ∀ s r H m tg, rt_ok s r H m tg → (Z.to_nat (22 - rtp_nr (rt_preload s)) ≤ fuel)%nat →
  wp (preload_loop fuel gfp) (λ e s', rt_ok s' r H m tg ∧ rt_root s' = rt_root s ∧ ((e = 0 ∧ rtp_nr (rt_preload s') = RADIX_TREE_PRELOAD_SIZE) ∨ e = - rt_ENOMEM)) s.
Proof.
  induction fuel as [|fuel IH]; intros s r H m tg K Hf; pose proof (mo_nr _ _ _ _ _ _ (ok_mem _ _ _ _ _ K)) as Hnr; [lia|].
  destruct s as [ns root pre c q]. cbn [rt_preload] in *. cbn [preload_loop]. apply wp_bind, wp_gets. cbn [rt_preload]. change RADIX_TREE_PRELOAD_SIZE with 21.
  destruct (Z.ltb_spec (rtp_nr pre) 21) as [Hlt|Hge]; [|apply wp_ret; split_and!; [done|done|left; split; [done|cbn; lia]]].
  apply wp_bind. eapply wp_mono; [apply (kmem_cache_alloc_ok ns root q r H gfp), K|]. intros a s' (c' & -> & M' & Hfr).
  assert (K' : rt_ok (RtState ns root pre c' q) r H m tg) by (destruct K as [T R I G M]; by split).
  destruct (Z.eqb_spec a 0) as [->|Ha]; [apply wp_ret; split_and!; [done|done|by right]|]. destruct (Hfr Ha) as (_ & Hal & Hnin & Hnl & Hcl).
  apply wp_bind, wp_gets. cbn [rt_preload]. rewrite (proj2 (Z.ltb_lt _ 21) Hlt). pose proof M' as [M1 M2 M3 M4 M5 M6].
  apply wp_bind, wp_bind. eapply wp_lift; [apply wr_Some; lia|]. apply wp_modify. cbn [rt_nodes rt_root rt_preload rt_cache rt_rcu]. set (pre' := RtPreload _ _).
  assert (Hpool : pool pre' = pool pre ++ [a]).
  { unfold pool, pre'. cbn [rtp_nr rtp_nodes]. replace (Z.to_nat (rtp_nr pre + 1)) with (S (Z.to_nat (rtp_nr pre))) by lia.
    rewrite (take_S_r _ _ a) by (apply list_lookup_insert_eq; lia). by rewrite take_insert_ge by lia. }
  apply IH; [|unfold pre'; cbn; lia]. destruct K' as [T R I G M]. split; try done. cbn [rt_nodes rt_root rt_preload rt_cache rt_rcu].
  assert (Hperm : c' ++ pool pre' ++ q ≡ₚ a :: c' ++ pool pre ++ q) by (rewrite Hpool; solve_Permutation). split.
  - unfold pre'. cbn. lia.
  - unfold pre'. cbn. by rewrite length_insert.
  - rewrite Hperm. by apply NoDup_cons.
  - intros x Hx. rewrite Hperm in Hx. apply elem_of_cons in Hx as [->|Hx]; [done|by apply M4].
  - intros x Hx. rewrite Hpool in Hx. assert (x = a ∨ x ∈ c' ++ pool pre) as [->|Hx'] by set_solver; [done|by apply M5].
  - done.
Qed.
End memory.
