(* ===== verification/RadixDelete.v ===== *)
(** * RadixDelete: deletion

    A slot that is emptied ([unlink_ok]), a node that has become empty ([empty_clean]) and a root
    that gives way to its only child ([drop_ok]) keep the invariant.  [shrink_ok] and
    [delete_up_ok] follow the loops of radix_tree_delete, [delete_tags_ok] the clearing
    of the tags before it; [delete_ok] is the whole. *)

From S2P Require Import Prelude Bitops Radix RadixPath RadixInv RadixOps RadixTags RadixInsert RadixStore.

(** ** Emptying a slot *)

Definition emptied (n : radix_tree_node) (d : Z) : radix_tree_node :=
  rn_with_count (rn_with_slots n (<[Z.to_nat d := 0]> (rn_slots n))) (rn_count n - 1).

Lemma emptied_ok n d v : node_ok n → rn_count n = nonnull (rn_slots n) → digit d → rd (rn_slots n) d = Some v → v ≠ 0 →
  node_ok (emptied n d) ∧ rn_count (emptied n d) = nonnull (rn_slots (emptied n d)) ∧ 1 ≤ rn_count n.
Proof.
  intros [Hl Ht] Hc Hd Hr Hv. split; [split; [cbn; by rewrite length_insert|done]|]. cbn.
  unfold rd in Hr. rewrite (proj2 (Z.leb_le 0 d)) in Hr by lia. rewrite (nonnull_insert _ _ v) by done.
  rewrite (proj2 (Z.eqb_neq v 0)) by done. cbn [Z.eqb negb Z.b2z]. split; [lia|].
  pose proof (nonnull_range (<[Z.to_nat d := 0]> (rn_slots n))) as Hn. rewrite (nonnull_insert _ _ v), (proj2 (Z.eqb_neq v 0)) in Hn by done. cbn [Z.eqb negb Z.b2z] in Hn. lia.
Qed.

Section unlink.
Context (ns : gmap Z radix_tree_node) (root : radix_tree_root) (pre : radix_tree_preload_t) (c q : list Z).
Context (r : Z) (H : nat) (m m' : gmap Z Z) (tg : Z → gset Z) (K : rt_ok (RtState ns root pre c q) r H m tg).
Context (π : list Z) (d : Z) (na : radix_tree_node).
Notation a := (reach ns r π).
Notation v := (reach ns r (π ++ [d])).
Context (Hπ : path π) (Hd : digit d) (Hlen : (length π < H)%nat) (Hv : v ≠ 0) (Hna : ns !! a = Some na).
(* below a node that is unlinked there is nothing *)
Context (Hempty : (length π + 1 < H)%nat → (∀ e, digit e → slot_at ns v e = 0) ∧ m' = m).
Context (Hitem : (length π + 1 = H)%nat → ∃ idx, is_u64 idx ∧ idx < 64 ^ Z.of_nat H ∧ digits H idx = π ++ [d] ∧ m' = delete idx m ∧ ∀ t, 0 ≤ t < 3 → idx ∉ tg t).
Notation ns' := (<[a := emptied na d]> ns).

Lemma unlink_a : a ≠ 0.
Proof. by eapply reach_prefix. Qed.

Lemma unlink_node : node_ok na ∧ rn_count na = nonnull (rn_slots na) ∧ slot_at ns a d = v.
Proof.
  pose proof unlink_a as Ha.
  destruct (tk_node _ _ _ (ok_tree _ _ _ _ _ K) π Hπ Hlen Ha) as (n0 & E & Hok & _ & Hc & _). cbn [rt_nodes] in E. rewrite Hna in E. injection E as <-.
  split_and!; [done..|]. by rewrite reach_snoc, (proj2 (Z.eqb_neq a 0)).
Qed.

Lemma unlink_reach ρ : path ρ → (length ρ ≤ H)%nat → reach ns' r ρ = if decide (ρ = π ++ [d]) then 0 else reach ns r ρ.
Proof.
  intros Hρ Hl. destruct unlink_node as (Hok & _ & Hs). apply (reach_set ns r H) with (n := na); try done.
  - apply K.
  - apply unlink_a.
  - intros Hl' _. rewrite Hs. by apply Hempty.
Qed.

Lemma unlink_ok : rt_ok (RtState ns' root pre c q) r H m' tg.
Proof.
  pose proof K as [T R I G M]. cbn [rt_nodes rt_root rt_preload rt_cache rt_rcu] in *. pose proof unlink_reach as Hr. pose proof unlink_a as Ha.
  destruct unlink_node as (Hok & Hc & Hs). destruct (emptied_ok na d v Hok Hc Hd) as (Hok' & Hc' & _); [rewrite (slot_rd ns a), Hs; [done|done|apply Hok|done]|done|].
  split; cbn [rt_nodes rt_root rt_preload rt_cache rt_rcu].
  - apply (tree_set ns r H) with (i := d) (v := 0) (n := na); try done. intros Hl' _. rewrite Hs. by apply Hempty.
  - done.
  - destruct (decide (length π + 1 < H)%nat) as [Hlt|Hge].
    + destruct (Hempty Hlt) as [_ ->]. assert (Hfull : ∀ ρ, path ρ → length ρ = H → reach ns' r ρ = reach ns r ρ).
      { intros ρ Hρ Hl. rewrite Hr by (done || lia). rewrite decide_False; [done|]. intros ->. rewrite length_snoc in Hl. lia. }
      split; [intros idx x Hx|intros ρ Hρ Hl]; rewrite Hfull by (done || apply digits_path || apply digits_length); by apply I.
    + destruct Hitem as (idx & Hi & Hlt & Edig & -> & _); [lia|]. rewrite <- Edig in Hr. split.
      * intros j x Hj. apply lookup_delete_Some in Hj as [Hne Hj]. destruct (io_some _ _ _ _ I _ _ Hj) as (Hj1 & Hj2 & Hj3 & Hj4).
        rewrite Hr by (apply digits_path || by rewrite digits_length). rewrite decide_False; [done|]. intros Ej. apply digits_inj in Ej; [congruence|lia|lia].
      * intros ρ Hρ Hl. rewrite Hr by (done || lia). destruct (decide (ρ = digits H idx)) as [|Hne]; [done|]. intros Hr0.
        destruct (io_all _ _ _ _ I ρ Hρ Hl Hr0) as (j & Hj & Ej). exists j. split; [|done]. rewrite lookup_delete_ne; [done|]. intros ->. congruence.
  - split; [apply G| |].
    + intros t ρ i n' Ht Hρ Hi Hl. rewrite Hr by (done || lia). destruct (decide (ρ = π ++ [d])) as [|Hne]; [done|]. intros Hr0 Hn'.
      destruct (decide (reach ns r ρ = a)) as [Ea|Ea].
      * rewrite Ea, lookup_insert_eq in Hn'. injection Hn' as <-. apply (ti_node _ _ _ _ _ _ G t ρ i na); try done. by rewrite Ea.
      * rewrite lookup_insert_ne in Hn' by done. by apply (ti_node _ _ _ _ _ _ G t ρ i n').
    + intros t Ht. pose proof (ti_dom _ _ _ _ _ _ G t Ht) as Hdom. destruct (decide (length π + 1 < H)%nat) as [Hlt|Hge].
      * by destruct (Hempty Hlt) as [_ ->].
      * destruct Hitem as (idx & _ & _ & _ & -> & Hni); [lia|]. specialize (Hni t Ht). rewrite dom_delete. set_solver.
  - eapply mem_move; [done|]. intros x Hx. destruct (mo_addr _ _ _ _ _ _ M x Hx) as (Hx0 & _ & Hxn). split.
    + rewrite lookup_insert_ne; [done|]. by apply Hxn.
    + intros ρ Hρ Hl. rewrite Hr by (done || lia). destruct (decide _); [done|]. by apply Hxn.
Qed.

(** The node that has been unlinked is out of the tree. *)
Lemma unlink_out : (length π + 1 < H)%nat → not_in ns' r H v.
Proof.
  intros Hl ρ Hρ Hlρ. rewrite unlink_reach by (done || lia). destruct (decide (ρ = π ++ [d])) as [|Hne]; [done|]. intros E0. apply Hne.
  apply (tk_inj _ _ _ (ok_tree _ _ _ _ _ K)); [done|by apply path_snoc|done|rewrite length_snoc; lia|cbn; congruence|done].
Qed.
End unlink.

(** An empty node is clean but for its parent. *)
Lemma empty_clean ns root pre c q r H m tg π n : rt_ok (RtState ns root pre c q) r H m tg → path π → (length π < H)%nat → reach ns r π ≠ 0 →
  ns !! reach ns r π = Some n → rn_count n = 0 → rcu_clean n ∧ ∀ e, digit e → slot_at ns (reach ns r π) e = 0.
Proof.
  intros K Hπ Hl Hr Hn Hc. destruct (tk_node _ _ _ (ok_tree _ _ _ _ _ K) π Hπ Hl Hr) as (n0 & E & [Hlen Hto] & _ & Hcount & _). cbn [rt_nodes] in E. rewrite Hn in E. injection E as <-.
  rewrite Hc in Hcount. symmetry in Hcount. apply nonnull_zero in Hcount.
  assert (Hs : rn_slots n = replicate 64 0) by (rewrite <- Hlen; clear -Hcount; induction Hcount; cbn; congruence).
  assert (Hslot : ∀ e, digit e → slot_at ns (reach ns r π) e = 0).
  { intros e He. unfold slot_at. rewrite Hn, Hs. unfold rd. rewrite (proj2 (Z.leb_le 0 e)) by lia. by rewrite lookup_replicate_2 by lia. }
  split; [|done]. split; [exists 0; rewrite Hs; by vm_compute|].
  assert (Hw : ∀ t, 0 ≤ t < 3 → tag_word n t = 0).
  { intros t Ht. apply tag_word_zero; [done|]. intros e He. apply not_true_iff_false. intros Hb.
    apply (ti_node _ _ _ _ _ _ (ok_tags _ _ _ _ _ K) t π e n) in Hb; [|done..].
    eapply (below_reach ns root) in Hb; [|apply K|apply K|done]. by rewrite reach_snoc, (proj2 (Z.eqb_neq _ 0)), Hslot in Hb by done. }
  destruct Hto as (w0 & w1 & w2 & Ew & _). pose proof (Hw 0 ltac:(lia)) as E0. pose proof (Hw 1 ltac:(lia)) as E1. pose proof (Hw 2 ltac:(lia)) as E2.
  unfold tag_word in E0, E1, E2. rewrite Ew in E0, E1, E2. change (w0 = 0) in E0. change (w1 = 0) in E1. change (w2 = 0) in E2. subst. by exists false, false, false.
Qed.

(** ** radix_tree_shrink *)

(** One slot in use, and it is the first. *)
Lemma single_slot l : nonnull l = 1 → ∀ x, l !! 0%nat = Some x → x ≠ 0 → ∃ k, l = x :: replicate k 0.
Proof.
  intros Hn x Hx Hx0. destruct l as [|y l]; [done|]. injection Hx as ->. exists (length l). f_equal.
  assert (Hz : nonnull l = 0). { unfold nonnull in *. rewrite filter_cons, decide_True in Hn by done. cbn [length] in Hn. lia. }
  apply nonnull_zero in Hz. clear -Hz. induction Hz; cbn; congruence.
Qed.

Section drop.
Context (ns : gmap Z radix_tree_node) (root : radix_tree_root) (pre : radix_tree_preload_t) (c q : list Z).
Context (r : Z) (H : nat) (m : gmap Z Z) (tg : Z → gset Z) (K : rt_ok (RtState ns root pre c q) r (S H) m tg).
Context (Hr : r ≠ 0) (nr : radix_tree_node) (Hnr : ns !! r = Some nr) (Hcount : rn_count nr = 1).
Notation x := (slot_at ns r 0).
Context (Hx : x ≠ 0) (ns2 : gmap Z radix_tree_node).
Context (H2 : ∀ y, y ≠ x → ns2 !! y = ns !! y) (H0 : H = 0%nat → ns2 = ns).
Context (Hroot : (0 < H)%nat → ∃ nx, ns !! x = Some nx ∧ ns2 !! x = Some (rn_with_parent nx 0)).

Lemma drop_nr : node_ok nr ∧ rn_slots nr = <[0%nat := x]> (replicate 64 0).
Proof.
  destruct (tk_node _ _ _ (ok_tree _ _ _ _ _ K) [] (Forall_nil_2 _) ltac:(simpl; lia) Hr) as (n0 & E & Hok & _ & Hc & _). cbn [rt_nodes reach foldl] in E. rewrite Hnr in E. injection E as <-.
  split; [done|]. rewrite Hcount in Hc. symmetry in Hc. destruct (single_slot _ Hc x) as [k Ek]; [|done|].
  - pose proof (slot_rd ns r nr 0 Hnr (proj1 Hok) ltac:(lia)) as E0. unfold rd in E0. by cbn in E0.
  - rewrite Ek. pose proof (proj1 Hok) as Hl. rewrite Ek in Hl. cbn in Hl. rewrite length_replicate in Hl. injection Hl as ->. done.
Qed.

Lemma drop_other e : digit e → e ≠ 0 → slot_at ns r e = 0.
Proof.
  intros He Hne. destruct drop_nr as [_ Hs]. unfold slot_at. rewrite Hnr, Hs. change 0%nat with (Z.to_nat 0).
  rewrite rd_insert by (rewrite length_replicate; lia). rewrite (proj2 (Z.eqb_neq e 0)) by done.
  unfold rd. rewrite (proj2 (Z.leb_le 0 e)) by lia. by rewrite lookup_replicate_2 by lia.
Qed.

Lemma drop_slot2 y e : slot_at ns2 y e = slot_at ns y e.
Proof.
  destruct (decide (y = x)) as [->|Hy]; [|unfold slot_at; by rewrite H2]. destruct (decide (H = 0%nat)) as [E|E]; [by rewrite H0|].
  destruct Hroot as (nx & E1 & E2); [lia|]. unfold slot_at at 1 3. by rewrite E1, E2.
Qed.

Lemma drop_first ρ : path ρ → reach ns r ρ ≠ 0 → match ρ with [] => True | e :: _ => e = 0 end.
Proof.
  destruct ρ as [|e ρ]; [done|]. intros [He _]%Forall_cons Hr0. destruct (decide (e = 0)) as [->|Hne]; [done|].
  rewrite reach_cons, drop_other, reach_zero in Hr0 by done. done.
Qed.

Lemma drop_root_in : (0 < H)%nat → node_in ns2 x H 0.
Proof.
  intros HH. destruct Hroot as (nx & E1 & E2); [done|].
  assert (Ex : reach ns r [0] = x) by (rewrite reach_cons by done; done).
  destruct (tk_node _ _ _ (ok_tree _ _ _ _ _ K) [0]) as (n0 & E & Hok & Hh & Hc & _); [by constructor|simpl; lia|cbn [rt_nodes]; by rewrite Ex|].
  cbn [rt_nodes length] in *. rewrite Ex, E1 in E. injection E as <-. exists (rn_with_parent nx 0). split_and!; [done|done| |done|done]. cbn. rewrite Hh. f_equal. lia.
Qed.

(** An index of the tree fits the lower tree. *)
Lemma drop_digits idx : is_Some (m !! idx) → 0 ≤ idx < 64 ^ Z.of_nat H ∧ digits (S H) idx = 0 :: digits H idx.
Proof.
  intros [v Hv]. destruct (io_some _ _ _ _ (ok_items _ _ _ _ _ K) _ _ Hv) as (Hi & Hlt & Hrv & Hv0). cbn [rt_nodes] in Hrv.
  destruct (decide (idx < 64 ^ Z.of_nat H)) as [Hs|Hs]; [split; [lia|apply digits_small; lia]|].
  destruct (digits_large H idx) as (e & π & E & He); [lia|]. pose proof (digits_path (S H) idx) as Hp.
  rewrite <- Hrv in Hv0. apply drop_first in Hv0; [|done]. rewrite E in Hv0. done.
Qed.

Lemma drop_below t ρ : 0 ≤ t < 3 → below (S H) (0 :: ρ) (tg t) ↔ below H ρ (tg t).
Proof.
  intros Ht. unfold below. assert (Hm : ∀ j, j ∈ tg t → digits (S H) j = 0 :: digits H j).
  { intros j Hj. apply drop_digits. apply elem_of_dom. by apply (ti_dom _ _ _ _ _ _ (ok_tags _ _ _ _ _ K) t Ht). }
  split; intros (j & Hj & Hpf); exists j; (split; [done|]); rewrite (Hm j Hj) in *; [by apply prefix_cons_inv_2 in Hpf|by apply prefix_cons].
Qed.

Lemma drop_reach2 ρ : reach ns2 x ρ = reach ns r (0 :: ρ).
Proof. apply drop_reach; [done|apply drop_slot2]. Qed.

Lemma drop_ok g : (∀ t, 0 ≤ t < 3 → root_tag_get g t = root_tag_get root t) → root_ok g x H →
  rt_ok (RtState ns2 g pre c q) x H m tg ∧ not_in ns2 x H r ∧ r ∉ c ++ pool pre ++ q ∧ rcu_clean nr ∧ aligned r.
Proof.
  intros Hg Rg. pose proof K as [T R I G M]. cbn [rt_nodes rt_root rt_preload rt_cache rt_rcu] in *. pose proof drop_reach2 as Hre.
  assert (Hp0 : ∀ π, path π → path (0 :: π)) by (intros; by constructor).
  assert (Hold : not_in ns2 x H r) by (apply (drop_old ns ns2 r H T Hr drop_slot2 drop_root_in)).
  assert (Hrl : r ∉ c ++ pool pre ++ q).
  { intros Hin. destruct (mo_addr _ _ _ _ _ _ M r Hin) as (_ & _ & Hn). by apply (Hn [] (Forall_nil_2 _) ltac:(simpl; lia)). }
  assert (Hclean : rcu_clean nr).
  { destruct drop_nr as [[_ Hto] Hs]. split; [by eexists|].
    assert (Hw : ∀ t, 0 ≤ t < 3 → ∃ b, tag_word nr t = Z.b2z b).
    { intros t Ht. exists (Z.testbit (tag_word nr t) 0). apply Z.bits_inj'. intros i Hi. destruct (decide (i = 0)) as [->|Hne]; [by destruct (Z.testbit (tag_word nr t) 0)|].
      replace (Z.testbit (Z.b2z _) i) with false.
      2:{ destruct (Z.testbit _ 0); [|by rewrite Z.bits_0]. symmetry. cbn [Z.b2z]. rewrite testbit_1. by apply Z.eqb_neq. }
      destruct (decide (i < 64)); [|apply (testbit_high 64); [by apply tag_word_u64|lia]]. apply not_true_iff_false. intros Hb.
      apply (ti_node _ _ _ _ _ _ G t [] i nr) in Hb as (j & Hj & Hpf); [|done|constructor|lia|simpl; lia|done|done].
      destruct (drop_digits j) as [_ Ej]; [apply elem_of_dom; by apply (ti_dom _ _ _ _ _ _ G t Ht)|]. rewrite Ej in Hpf. by apply prefix_cons_inv_1 in Hpf. }
    destruct Hto as (w0 & w1 & w2 & Ew & _). destruct (Hw 0 ltac:(lia)) as [b0 E0]. destruct (Hw 1 ltac:(lia)) as [b1 E1]. destruct (Hw 2 ltac:(lia)) as [b2 E2].
    unfold tag_word in E0, E1, E2. rewrite Ew in E0, E1, E2. change (w0 = Z.b2z b0) in E0. change (w1 = Z.b2z b1) in E1. change (w2 = Z.b2z b2) in E2. subst. by exists b0, b1, b2. }
  assert (Hra : aligned r) by (apply (tk_aligned _ _ _ T []); [constructor|simpl; lia]).
  split_and!; try done. split; cbn [rt_nodes rt_root rt_preload rt_cache rt_rcu].
  - apply (tree_drop ns ns2 r H T Hr drop_slot2 H2 drop_root_in).
  - done.
  - split.
    + intros idx v Hv. destruct (drop_digits idx) as [Hlt Ed]; [by eexists|]. destruct (io_some _ _ _ _ I _ _ Hv) as (Hi & _ & Hrv & Hv0). rewrite Hre, <- Ed. split_and!; [lia|lia|lia|done|done].
    + intros ρ Hρ Hl. rewrite Hre. intros Hr0. destruct (io_all _ _ _ _ I (0 :: ρ)) as (idx & Hidx & Ed); [by apply Hp0|simpl; lia|done|].
      exists idx. split; [done|]. destruct (drop_digits idx Hidx) as [_ Ed']. rewrite Ed' in Ed. by simplify_eq.
  - split; [| |apply G].
    + intros t Ht. rewrite Hg, (ti_root _ _ _ _ _ _ G t Ht) by done. unfold below. split; intros (j & Hj & _); exists j; (split; [done|apply prefix_nil]).
    + intros t ρ i n Ht Hρ Hi Hl. rewrite Hre. intros Hr0 Hn. rewrite <- drop_below by done. change (0 :: ρ ++ [i]) with ((0 :: ρ) ++ [i]).
      destruct (decide (reach ns r (0 :: ρ) = x)) as [Ex|Ex].
      * destruct Hroot as (nx & E1 & E2); [lia|]. rewrite Ex, E2 in Hn. injection Hn as <-. apply (ti_node _ _ _ _ _ _ G t (0 :: ρ) i nx); try done; [by apply Hp0|simpl; lia|by rewrite Ex].
      * rewrite H2 in Hn by done. apply (ti_node _ _ _ _ _ _ G t (0 :: ρ) i n); try done; [by apply Hp0|simpl; lia].
  - eapply mem_move; [done|]. intros y Hy. destruct (mo_addr _ _ _ _ _ _ M y Hy) as (Hy0 & _ & Hyn). split.
    + destruct (decide (y = x)) as [->|]; [|by apply H2]. destruct (decide (H = 0%nat)) as [E|E]; [by rewrite H0|].
      destruct (Hyn [0]); [by constructor|simpl; lia|]. rewrite reach_cons by done. done.
    + intros ρ Hρ Hl. rewrite Hre. apply Hyn; [by apply Hp0|simpl; lia].
Qed.
End drop.

Section delete.
Context {E : rt_env} {EO : rt_env_ok E}.

(** ** radix_tree_shrink *)

(** The pool and the free objects stay as they are. *)
Definition kept (m : gmap Z Z) (tg : Z → gset Z) (pre : radix_tree_preload_t) (c : list Z) (s' : rt_state) : Prop :=
  ∃ r' H', rt_ok s' r' H' m tg ∧ rt_preload s' = pre ∧ rt_cache s' = c.

Lemma shrink_ok fuel : ∀ ns root pre c q r H m tg, rt_ok (RtState ns root pre c q) r H m tg → (H = 0%nat ∨ r ≠ 0) → (H < fuel)%nat →
  wp (radix_tree_shrink fuel) (λ _, kept m tg pre c) (RtState ns root pre c q).
Proof.
  induction fuel as [|fuel IH]; intros ns root pre c q r H m tg K Hr Hf; [lia|].
  pose proof (root_ptr _ _ _ _ _ K) as Hptr. pose proof (ok_root _ _ _ _ _ K) as R. cbn [rt_root] in Hptr, R.
  assert (Hdone : wp (mret tt) (λ _ : unit, kept m tg pre c) (RtState ns root pre c q)) by (apply wp_ret; by exists r, H).
  cbn [radix_tree_shrink]. apply wp_bind, wp_gets. cbn [rt_root]. rewrite (ro_height _ _ _ R).
  destruct H as [|H]; [done|]. destruct Hr as [?|Hr]; [done|]. rewrite (proj2 (Z.ltb_lt 0 _)) by lia.
  replace (radix_tree_is_indirect_ptr (rr_rnode root)) with true by (rewrite (ro_rnode _ _ _ R), (proj2 (Z.eqb_neq r 0) Hr); by rewrite indirect_test).
  cbn [negb]. rewrite Hptr.
  destruct (tk_node _ _ _ (ok_tree _ _ _ _ _ K) [] (Forall_nil_2 _) ltac:(simpl; lia) Hr) as (nr & Hnr & Hok & _). cbn [rt_nodes reach foldl] in Hnr.
  apply wp_bind. eapply wp_rt_get; [done|]. destruct (Z.eqb_spec (rn_count nr) 1) as [Hc|Hc]; cbn [negb]; [|done].
  apply wp_bind. eapply wp_rt_slot; [done|apply Hok|lia|]. destruct (Z.eqb_spec (slot_at ns r 0) 0) as [Ex|Hx]; [done|].
  set (x := slot_at ns r 0) in *. replace (Z.of_nat (S H) - 1) with (Z.of_nat H) by lia. pose proof (ro_max _ _ _ R) as Hmax.
  assert (Hns2 : ∃ ns2, (∀ y, y ≠ x → ns2 !! y = ns !! y) ∧ (H = 0%nat → ns2 = ns) ∧
      ((0 < H)%nat → ∃ nx, ns !! x = Some nx ∧ ns2 !! x = Some (rn_with_parent nx 0)) ∧
      ∀ Q, Q (match H with O => x | S _ => ptr_to_indirect x end) (RtState ns2 root pre c q) →
        wp (if 1 <? Z.of_nat (S H) then _ ← rt_set_parent x 0; mret (ptr_to_indirect x) else mret x) Q (RtState ns root pre c q)).
  { destruct H as [|H].
    - exists ns. split_and!; [done|done|intros ?; lia|]. intros Q HQ. by apply wp_ret.
    - destruct (tk_node _ _ _ (ok_tree _ _ _ _ _ K) [0]) as (nx & Hnx & _); [by constructor|simpl; lia|cbn [rt_nodes]; by rewrite reach_cons|].
      cbn [rt_nodes] in Hnx. rewrite reach_cons in Hnx by done. change (ns !! x = Some nx) in Hnx.
      exists (<[x := rn_with_parent nx 0]> ns). split_and!; [intros y Hy; by rewrite lookup_insert_ne|done| |].
      + intros _. exists nx. by rewrite lookup_insert_eq.
      + intros Q HQ. rewrite (proj2 (Z.ltb_lt 1 _)) by lia. apply wp_bind. eapply wp_rt_upd; [done|]. by apply wp_ret. }
  destruct Hns2 as (ns2 & H2 & H0 & Hroot & Hwp). apply wp_bind, Hwp. clear Hwp.
  apply wp_bind, wp_bind, wp_gets, wp_modify. apply wp_bind, wp_bind, wp_gets, wp_modify. cbn [rt_nodes rt_root rt_preload rt_cache rt_rcu rr_height rr_gfp_mask rr_rnode].
  set (g := RtRoot _ _ _). destruct (drop_ok ns root pre c q r H m tg K Hr nr Hnr Hc Hx ns2 H2 H0 Hroot g) as (K2 & Hnin & Hnl & Hcl & Hal).
  { intros t Ht. by rewrite !root_tag_test. }
  { split; [done|lia| |apply R]. unfold g. destruct H; [done|]. by rewrite (proj2 (Z.eqb_neq (slot_at ns r 0) 0) Hx). }
  assert (Hn2 : ns2 !! r = Some nr).
  { destruct (decide (H = 0%nat)) as [E0|]; [by rewrite H0|]. rewrite H2; [done|]. intros Exr. apply (Hnin [] (Forall_nil_2 _)); [simpl; lia|done]. }
  apply wp_bind. apply (wp_mono _ (λ _ s', ∃ ns3 nr3, s' = RtState ns3 g pre c q ∧ rt_ok s' x H m tg ∧ ns3 !! r = Some nr3 ∧ rcu_clean nr3 ∧ not_in ns3 x H r)).
  { destruct (Z.eqb_spec (Z.of_nat H) 0); [|apply wp_ret; by exists ns2, nr].
    apply wp_bind. eapply wp_rt_slot; [done|apply Hok|lia|]. eapply wp_rt_set_slot; [done|apply Hok|lia|]. set (n3 := rn_with_slots _ _).
    exists (<[r := n3]> ns2), n3. split_and!; [done| |apply lookup_insert_eq| |].
    - eapply frame_ok; [done..|]. eapply mem_move; [apply K2|]. cbn [rt_nodes rt_root rt_preload rt_cache rt_rcu]. intros y Hy. split.
      + rewrite lookup_insert_ne; [done|]. by intros <-.
      + intros π _ Hl. lia.
    - destruct Hcl as [(y & Hy) Ht]. split; [|done]. unfold n3. cbn [rn_with_slots rn_slots]. rewrite Hy. change (Z.to_nat 0) with 0%nat. rewrite list_insert_insert_eq. by eexists.
    - intros π _ Hl. lia. }
  intros _ s' (ns3 & nr3 & -> & K3 & Hn3 & Hcl3 & Hnin3). apply wp_bind. eapply wp_mono; [by apply (node_free_ok ns3 g pre c q x H m tg r nr3)|].
  intros _ s' (ns4 & q4 & -> & K4 & _). apply (IH ns4 g pre c q4 x H m tg); [done|by right|lia].
Qed.

(** ** The way up *)

(** What is at [ρ] is to be removed: the item of an index, or a node without children, to be freed. *)
Definition pending (ns : gmap Z radix_tree_node) (r : Z) (H : nat) (m m' : gmap Z Z) (tg : Z → gset Z) (ρ : list Z) (to_free : Z) : Prop :=
  (length ρ = H ∧ to_free = 0 ∧ ∃ idx, is_u64 idx ∧ idx < 64 ^ Z.of_nat H ∧ digits H idx = ρ ∧ m' = delete idx m ∧ ∀ t, 0 ≤ t < 3 → idx ∉ tg t) ∨
  ((length ρ < H)%nat ∧ to_free = reach ns r ρ ∧ m' = m ∧ ∃ n, ns !! to_free = Some n ∧ rn_count n = 0).

(** A node of the tree is in none of the lists. *)
Lemma node_outside ns root pre c q r H m tg π : rt_ok (RtState ns root pre c q) r H m tg → path π → (length π < H)%nat → reach ns r π ∉ c ++ pool pre ++ q.
Proof. intros K Hπ Hl Hin. destruct (mo_addr _ _ _ _ _ _ (ok_mem _ _ _ _ _ K) _ Hin) as (_ & _ & Hn). by apply (Hn π). Qed.

(** A root without items. *)
Lemma cleared_ok ns root pre c q r H m tg tg' : rt_ok (RtState ns root pre c q) r H m tg → (∀ t, 0 ≤ t < 3 → tg' t = ∅) →
  rt_ok (RtState ns (RtRoot 0 (rr_gfp_mask root .& __GFP_BITS_MASK) 0) pre c q) 0 0 ∅ tg'.
Proof.
  intros [T R I G M] Htg. cbn [rt_nodes rt_root rt_preload rt_cache rt_rcu] in *. apply empty_ok.
  - split; [intros π _ Hl; lia|intros π ρ _ _ Hl; lia|]. intros π _ Hl. destruct π; [by split|simpl in Hl; lia].
  - split; [done|lia|done|]. cbn [rr_gfp_mask]. pose proof (ro_gfp _ _ _ R) as Hg. split; [apply Z.land_nonneg; lia|].
    change __GFP_BITS_MASK with (Z.ones 25). rewrite Z.land_ones by lia. pose proof (Z.mod_pos_bound (rr_gfp_mask root) (2 ^ 25) ltac:(lia)). lia.
  - eapply mem_move; [done|]. intros x _. split; [done|]. intros π _ Hl. lia.
  - done.
  - intros t Ht. rewrite root_tag_test by done. cbn [rr_gfp_mask]. change __GFP_BITS_MASK with (Z.ones 25). rewrite Z.land_spec, Z.ones_spec_high by lia. apply andb_false_r.
  - intros ρ _ Hl. by destruct ρ.
  - intros π n' t _ Hl. lia.
Qed.

(** The last node: the tree is empty. *)
Lemma delete_root_ok ns root pre c q r H m tg n : rt_ok (RtState ns root pre c q) r H m tg → (0 < H)%nat → r ≠ 0 → ns !! r = Some n → rn_count n = 0 →
  rcu_clean n ∧ rt_ok (RtState ns (RtRoot 0 (rr_gfp_mask root .& __GFP_BITS_MASK) 0) pre c q) 0 0 m tg.
Proof.
  intros K HH Hr Hn Hc. destruct (empty_clean ns root pre c q r H m tg [] n K (Forall_nil_2 _) HH Hr Hn Hc) as [Hcl Hslots]. cbn [reach foldl] in Hslots.
  assert (Hm : m = ∅).
  { apply map_empty. intros idx. apply eq_None_not_Some. intros [v Hv]. destruct (io_some _ _ _ _ (ok_items _ _ _ _ _ K) _ _ Hv) as (_ & _ & Hrv & Hv0). cbn [rt_nodes] in Hrv. apply Hv0. rewrite <- Hrv.
    destruct H as [|H]; [lia|]. pose proof (digits_path (S H) idx) as Hp. rewrite digits_cons in *. apply Forall_cons in Hp as [Hd _].
    by rewrite reach_cons, Hslots, reach_zero. }
  split; [done|]. pose proof K as K0. rewrite Hm. eapply cleared_ok; [exact K0|]. intros t Ht.
  pose proof (ti_dom _ _ _ _ _ _ (ok_tags _ _ _ _ _ K) t Ht) as Hd. rewrite Hm, dom_empty_L in Hd. set_solver.
Qed.

(** One level: the slot is emptied and the node below it freed. *)
Lemma delete_step_ok ns root pre c q r H m m' tg π d na tf (k : RM unit) Q : rt_ok (RtState ns root pre c q) r H m tg → path π → digit d → (length π < H)%nat →
  reach ns r (π ++ [d]) ≠ 0 → pending ns r H m m' tg (π ++ [d]) tf → ns !! reach ns r π = Some na →
  (∀ ns' q', let s' := RtState ns' root pre c q' in
    rt_ok s' r H m' tg → reach ns' r π = reach ns r π → ns' !! reach ns r π = Some (emptied na d) → wp k Q s') →
  wp (_ ← rt_set_slot (reach ns r π) d 0; _ ← rt_add_count (reach ns r π) (-1); _ ← free_if tf; k) Q (RtState ns root pre c q).
Proof.
  intros K Hπ Hd Hlen Hv P Hna HQ. pose proof (ok_tree _ _ _ _ _ K) as T. cbn [rt_nodes] in T. unfold pending in P. rewrite length_snoc in P.
  assert (Hempty : (length π + 1 < H)%nat → (∀ e, digit e → slot_at ns (reach ns r (π ++ [d])) e = 0) ∧ m' = m).
  { intros Hl. destruct P as [(? & _)|(_ & -> & -> & n & Hn & Hc)]; [lia|]. split; [|done]. apply (empty_clean ns root pre c q r H m tg (π ++ [d]) n K); [by apply path_snoc|rewrite length_snoc; lia|done..]. }
  assert (Hitem : (length π + 1 = H)%nat → ∃ idx, is_u64 idx ∧ idx < 64 ^ Z.of_nat H ∧ digits H idx = π ++ [d] ∧ m' = delete idx m ∧ ∀ t, 0 ≤ t < 3 → idx ∉ tg t).
  { intros Hl. destruct P as [(_ & _ & P)|(? & _)]; [done|lia]. }
  destruct (unlink_node ns root pre c q r H m tg K π d na Hπ Hlen Hv Hna) as (Hok & Hc & Hs).
  destruct (emptied_ok na d (reach ns r (π ++ [d])) Hok Hc Hd) as (_ & _ & Hc1); [by rewrite (slot_rd ns (reach ns r π)), Hs by (done || apply Hok)|done|].
  pose proof (nonnull_range (rn_slots na)) as Hnn. rewrite (proj1 Hok) in Hnn.
  pose proof (unlink_ok ns root pre c q r H m m' tg K π d na Hπ Hd Hlen Hv Hna Hempty Hitem) as K1.
  assert (Hre : reach (<[reach ns r π := emptied na d]> ns) r π = reach ns r π).
  { rewrite (unlink_reach ns root pre c q r H m m' tg K π d na Hπ Hd Hlen Hv Hna Hempty) by (done || lia). rewrite decide_False; [done|].
    intros E0. apply (f_equal length) in E0. rewrite length_snoc in E0. lia. }
  apply wp_bind. eapply wp_rt_set_slot; [done|apply Hok|done|]. apply wp_bind. eapply wp_rt_upd; [apply lookup_insert_eq|]. rewrite insert_insert_eq.
  cbn [rn_with_slots rn_count]. replace (u32 (rn_count na + -1)) with (rn_count na - 1) by (symmetry; apply Z.mod_small; lia). fold (emptied na d).
  unfold free_if. destruct P as [(_ & -> & _)|(Hl & -> & -> & n & Hn & Hcn)].
  { rewrite Z.eqb_refl. cbn [negb]. apply wp_bind, wp_ret. apply HQ; [done|done|apply lookup_insert_eq]. }
  rewrite (proj2 (Z.eqb_neq _ 0) Hv). cbn [negb]. set (v := reach ns r (π ++ [d])) in *. assert (Hπd : path (π ++ [d])) by (by apply path_snoc).
  pose proof (unlink_out ns root pre c q r H m m tg K π d na Hπ Hd Hlen Hv Hna Hempty ltac:(lia)) as Hout. fold v in Hout. specialize (Hout ltac:(lia)).
  assert (Hva : v ≠ reach ns r π) by (intros E0; apply (Hout π Hπ Hlen); by rewrite Hre).
  destruct (empty_clean ns root pre c q r H m tg (π ++ [d]) n K Hπd) as [Hcl _]; [rewrite length_snoc; lia|done..|].
  apply wp_bind. eapply wp_mono; [apply (node_free_ok _ root pre c q r H m tg v n K1); [by rewrite lookup_insert_ne|done|done| |done|]|].
  - apply (tk_aligned _ _ _ T); [done|rewrite length_snoc; lia].
  - eapply (node_outside ns root); [exact K|done|rewrite length_snoc; lia].
  - intros _ s' (ns' & q' & -> & K' & Hsl & Hkeep). apply HQ; [done| |].
    + by rewrite (reach_ext _ _ _ _ Hsl).
    + rewrite Hkeep by done. apply lookup_insert_eq.
Qed.

Lemma delete_up_ok fuel : ∀ ns root pre c q r H m m' tg ρ node idx off tf, rt_ok (RtState ns root pre c q) r H m tg → (0 < H)%nat → reach ns r ρ ≠ 0 →
  digits (length ρ) idx = ρ → (length ρ ≤ H)%nat → pending ns r H m m' tg ρ tf → at_node ns r ρ node off → (length ρ < fuel)%nat →
  wp (delete_up fuel idx node off tf) (λ _, kept m' tg pre c) (RtState ns root pre c q).
Proof.
  induction fuel as [|fuel IH]; intros ns root pre c q r H m m' tg ρ node idx off tf K HH Hv Hdig Hlen P Hat Hf; [lia|]. cbn [delete_up].
  pose proof (digits_path (length ρ) idx) as Hρ. rewrite Hdig in Hρ. destruct ρ as [|d π _] using rev_ind.
  - cbn [at_node] in Hat. subst node. cbn [Z.eqb]. destruct P as [(? & _)|(_ & -> & -> & n & Hn & Hc)]; [cbn in *; lia|]. cbn [reach foldl] in *.
    destruct (delete_root_ok _ _ _ _ _ _ _ _ _ n K HH Hv Hn Hc) as (Hcl & K').
    apply wp_bind, wp_bind, wp_gets, wp_modify. apply wp_bind, wp_bind, wp_gets, wp_modify. apply wp_bind, wp_bind, wp_gets, wp_modify.
    cbn [rt_nodes rt_root rt_preload rt_cache rt_rcu rr_height rr_gfp_mask rr_rnode]. unfold free_if. rewrite (proj2 (Z.eqb_neq r 0) Hv). cbn [negb].
    eapply wp_mono; [apply (node_free_ok _ _ _ _ _ _ _ _ _ r n K'); [done|done|done|by apply (root_aligned _ _ _ _ _ K)| |by apply (node_outside _ _ _ _ _ _ _ _ _ [] K)]|].
    + intros π _ Hl. lia.
    + intros _ s' (ns' & q' & -> & K2 & _). by exists 0, 0%nat.
  - apply at_node_snoc in Hat as (-> & Hr & ->). apply Forall_app in Hρ as [Hπ Hd]. apply Forall_cons in Hd as [Hd _]. rewrite length_snoc in *.
    cbn [digits] in Hdig. apply app_inj_tail in Hdig as [Hdig _]. rewrite (proj2 (Z.eqb_neq _ 0) Hr).
    destruct (tk_node _ _ _ (ok_tree _ _ _ _ _ K) π Hπ ltac:(lia) Hr) as (na & Hna & _). cbn [rt_nodes] in Hna. set (a := reach ns r π) in *.
    apply (delete_step_ok ns root pre c q r H m m' tg π d na tf); [done..|lia|done|done|done|]. fold a. intros ns1 q1 s1 K1 Ha Hna1. unfold s1 in *. clear s1.
    apply wp_bind. eapply wp_rt_get; [done|]. destruct (Z.eqb_spec (rn_count (emptied na d)) 0) as [Hc|Hc]; cbn [negb].
    + destruct (tk_node _ _ _ (ok_tree _ _ _ _ _ K1) π Hπ ltac:(lia)) as (n1 & Hn1 & _ & _ & _ & Hpar); [cbn [rt_nodes]; by rewrite Ha|]. cbn [rt_nodes] in Hn1, Hpar. rewrite Ha, Hna1 in Hn1. injection Hn1 as <-.
      apply (IH ns1 root pre c q1 r H m' m' tg π); [done|done|by rewrite Ha| |lia| | |lia].
      * by rewrite Z.shiftr_div_pow2 by done.
      * right. split_and!; [lia|done|done|by eexists].
      * rewrite Hpar. clear Hpar. destruct π as [|d0 π0 _] using rev_ind; [done|]. apply at_node_snoc. rewrite parent_of_snoc. split_and!; [done| |].
        -- apply (reach_prefix ns1 r π0 [d0]). by rewrite Ha.
        -- rewrite length_snoc in Hdig. cbn [digits] in Hdig. apply app_inj_tail in Hdig as [_ <-]. change RADIX_TREE_MAP_MASK with (Z.ones 6). by rewrite Z.land_ones, Z.shiftr_div_pow2 by done.
    + apply wp_bind, wp_gets. cbn [rt_root]. destruct (_ =? _); [|apply wp_ret; by exists r, H].
      pose proof (ro_max _ _ _ (ok_root _ _ _ _ _ K)). eapply shrink_ok; [done| |lia]. right. eapply (reach_prefix ns r []). exact Hv.
Qed.

(** ** radix_tree_delete *)

Definition tag_drop (tg : Z → gset Z) (idx : Z) : Z → gset Z := λ t, tg t ∖ {[idx]}.
Definition tags_from (tg : Z → gset Z) (idx k : Z) : Z → gset Z := λ t, if t <? k then tg t ∖ {[idx]} else tg t.

(** The tags of an item are cleared before it goes. *)
Lemma delete_tags_ok s r h m tg idx v : rt_ok s r (S h) m tg → is_u64 idx → m !! idx = Some v →
  wp (for_up 3 0 (λ tag, t ← tag_get (reach (rt_nodes s) r (digits h (idx / 64))) tag (idx `mod` 64);
                         if (t : bool) then _ ← radix_tree_tag_clear idx tag; mret tt else mret tt))
    (λ _ s', rt_ok s' r (S h) m (tag_drop tg idx) ∧ (∀ ρ, reach (rt_nodes s') r ρ = reach (rt_nodes s) r ρ) ∧ rt_preload s' = rt_preload s ∧ rt_cache s' = rt_cache s) s.
Proof.
  intros K Hi Hv. destruct (io_some _ _ _ _ (ok_items _ _ _ _ _ K) _ _ Hv) as (_ & Hlt & Hrv & Hv0).
  set (π := digits h (idx / 64)) in *. set (d := idx `mod` 64) in *. change (digits (S h) idx) with (π ++ [d]) in Hrv.
  assert (Hπ : path π) by apply digits_path. assert (Hd : digit d) by (apply Z.mod_pos_bound; lia). assert (Hl : length π = h) by apply digits_length.
  assert (Hr : reach (rt_nodes s) r π ≠ 0) by (eapply reach_prefix; by rewrite Hrv).
  apply (wp_for_up (λ k s', rt_ok s' r (S h) m (tags_from tg idx k) ∧ (∀ ρ, reach (rt_nodes s') r ρ = reach (rt_nodes s) r ρ) ∧ rt_preload s' = rt_preload s ∧ rt_cache s' = rt_cache s)).
  - split_and!; try done. eapply rt_ok_ext; [|exact K]. intros t Ht. unfold tags_from. by rewrite (proj2 (Z.ltb_ge t 0)) by lia.
  - intros k s' Hk (K' & Hre & Hpre & Hca).
    assert (Hnext : ∀ tg' s2, rt_ok s2 r (S h) m tg' → (∀ t, 0 ≤ t < 3 → tg' t = tags_from tg idx (k + 1) t) → rt_ok s2 r (S h) m (tags_from tg idx (k + 1))) by (intros; by eapply rt_ok_ext).
    assert (Hks : ∀ t, (t <? k + 1) = (t =? k) || (t <? k)) by (intros t; apply Bool.eq_iff_eq_true; rewrite orb_true_iff, Z.eqb_eq, !Z.ltb_lt; lia).
    destruct (tk_node _ _ _ (ok_tree _ _ _ _ _ K') π Hπ ltac:(lia)) as (n & Hn & Hok & _); [by rewrite Hre|]. rewrite Hre in Hn.
    pose proof (ti_node _ _ _ _ _ _ (ok_tags _ _ _ _ _ K') k π d n ltac:(lia) Hπ Hd ltac:(lia)) as Hb. rewrite Hre in Hb. specialize (Hb Hr Hn).
    change (π ++ [d]) with (digits (S h) idx) in Hb. rewrite below_digits in Hb; [|lia|].
    2:{ intros j Hj. destruct (member_reach _ _ _ _ _ _ k j (ok_items _ _ _ _ _ K') (ok_tags _ _ _ _ _ K') ltac:(lia) Hj) as (? & ? & _). lia. }
    apply wp_bind. destruct s' as [ns' root' pre' c' q']. eapply wp_tag_get; [exact Hn|apply Hok|lia|done|]. destruct (Z.testbit (tag_word n k) d) eqn:Et.
    + apply wp_bind. eapply wp_mono; [apply (tag_clear_ok _ r (S h) m _ idx k K' Hi); lia|]. intros x s2 (_ & K2 & Hre2 & _ & _ & _ & Hpre2 & Hca2 & _). apply wp_ret.
      split_and!; [|intros ρ; by rewrite Hre2|congruence|congruence]. eapply Hnext; [exact K2|]. intros t Ht. unfold tag_del, tags_from. rewrite Hks.
      destruct (Z.eqb_spec t k) as [->|]; cbn [orb]; [|done]. by rewrite (proj2 (Z.ltb_ge k k)) by lia.
    + apply wp_ret. split_and!; [|done..]. eapply Hnext; [exact K'|]. intros t Ht. unfold tags_from. rewrite Hks. destruct (Z.eqb_spec t k) as [->|]; cbn [orb]; [|done].
      assert (Hni : idx ∉ tg k) by (intros Hin; assert (Hin' : idx ∈ tags_from tg idx k k) by (unfold tags_from; by rewrite (proj2 (Z.ltb_ge k k)) by lia); by apply Hb in Hin').
      rewrite (proj2 (Z.ltb_ge k k)) by lia. set_solver.
  - intros s' (K' & Hre & Hpre & Hca). split_and!; [|done..]. eapply rt_ok_ext; [|exact K']. intros t Ht. unfold tags_from, tag_drop.
    by rewrite (proj2 (Z.ltb_lt t _)) by (cbn; lia).
Qed.

Lemma delete_ok s r H m tg idx : rt_ok s r H m tg → is_u64 idx →
  wp (radix_tree_delete idx) (λ v s', v = default 0 (m !! idx) ∧ kept (delete idx m) (tag_drop tg idx) (rt_preload s) (rt_cache s) s') s.
Proof.
  intros K Hi. pose proof (root_ptr _ _ _ _ _ K) as Hptr. pose proof (index_test H idx Hi) as Htest. pose proof (items_lookup _ _ _ _ _ K idx Hi) as Hlook.
  pose proof (ok_root _ _ _ _ _ K) as R. pose proof (ro_max _ _ _ R) as Hmax.
  assert (Hnone : default 0 (m !! idx) = 0 → wp (mret 0) (λ v s', v = default 0 (m !! idx) ∧ kept (delete idx m) (tag_drop tg idx) (rt_preload s) (rt_cache s) s') s).
  { intros E0. assert (Em : m !! idx = None).
    { destruct (m !! idx) eqn:Em; [|done]. cbn in E0. subst. by apply (item_nonzero _ _ _ _ _ K) in Em. }
    apply wp_ret. split; [done|]. exists r, H. split_and!; [|done..]. rewrite delete_id by done. eapply rt_ok_ext; [|exact K]. intros t Ht.
    pose proof (ti_dom _ _ _ _ _ _ (ok_tags _ _ _ _ _ K) t Ht). apply not_elem_of_dom in Em. unfold tag_drop. set_solver. }
  unfold radix_tree_delete. apply wp_bind, wp_gets. rewrite (ro_height _ _ _ R), Hptr.
  apply wp_bind. eapply wp_lift; [by apply maxindex_ok|]. rewrite Htest. revert Hlook. destruct (Z.ltb_spec idx (64 ^ Z.of_nat H)) as [Hlt|Hge]; cbn [negb]; intros Hlook; [|by apply Hnone].
  destruct H as [|h]; cbn [Z.of_nat Z.eqb].
  - cbn [digits reach foldl] in Hlook. change (64 ^ Z.of_nat 0) with 1 in *. replace idx with 0 in * by lia. destruct s as [ns root pre c q]. cbn [rt_root rt_nodes rt_preload rt_cache] in *.
    apply wp_bind, wp_bind, wp_gets, wp_modify. apply wp_bind, wp_bind, wp_gets, wp_modify. apply wp_ret.
    cbn [rt_nodes rt_root rt_preload rt_cache rt_rcu rr_height rr_gfp_mask rr_rnode]. rewrite (ro_rnode _ _ _ R), (ro_height _ _ _ R). split; [done|].
    assert (Hkey : ∀ j, j ∈ dom m → j = 0).
    { intros j Hj. apply elem_of_dom in Hj as [v Hv]. destruct (io_some _ _ _ _ (ok_items _ _ _ _ _ K) _ _ Hv) as (Hj1 & Hj2 & _). change (64 ^ Z.of_nat 0) with 1 in Hj2. lia. }
    assert (Hm : delete 0 m = ∅).
    { apply map_empty. intros j. destruct (decide (j = 0)) as [->|]; [apply lookup_delete_eq|]. rewrite lookup_delete_ne by done. apply not_elem_of_dom. intros Hj%Hkey. done. }
    rewrite Hm. exists 0, 0%nat. split_and!; [|done..]. eapply cleared_ok; [exact K|]. intros t Ht.
    pose proof (ti_dom _ _ _ _ _ _ (ok_tags _ _ _ _ _ K) t Ht). unfold tag_drop. set_solver.
  - destruct s as [ns root pre c q]. cbn [rt_root rt_nodes rt_preload rt_cache] in *. rewrite Nat2Z.id. apply wp_bind.
    eapply wp_mono; [apply (walk_loop_ok _ _ _ _ _ r (S h) (ok_tree _ _ _ _ _ K) h idx _ []); [unfold RADIX_TREE_MAP_SHIFT; lia|constructor|done]|].
    intros res s' [-> Hres]. destruct res as [[[node off] slot]|]; cbn [app rt_nodes] in Hres; [|apply Hnone; congruence].
    destruct Hres as (Hslot & Hnode & Hn0 & ->). rewrite <- Hslot in Hlook. destruct (Z.eqb_spec slot 0) as [E0|E0]; [apply Hnone; congruence|].
    assert (Hv : m !! idx = Some slot) by (destruct (m !! idx); cbn in Hlook; congruence). rewrite Hnode. apply wp_bind.
    eapply wp_mono; [by apply (delete_tags_ok _ r h m tg idx slot K)|]. intros _ s' (K' & Hre & Hpre & Hca). destruct s' as [ns' root' pre' c' q'].
    cbn [rt_root rt_nodes rt_preload rt_cache] in *. subst pre' c'. apply wp_bind.
    eapply wp_mono; [eapply (delete_up_ok 12 ns' root' pre c q' r (S h) m (delete idx m) (tag_drop tg idx) (digits (S h) idx))|].
    + done.
    + lia.
    + rewrite Hre. congruence.
    + by rewrite digits_length.
    + by rewrite digits_length.
    + left. split_and!; [apply digits_length|done|]. exists idx. split_and!; [lia|lia|done|done|done|]. intros t Ht. unfold tag_drop. set_solver.
    + cbn [digits]. apply at_node_snoc. rewrite Hre. split_and!; [done|congruence|done].
    + rewrite digits_length. lia.
    + intros u s2 Hk. apply wp_ret. rewrite Hv. by split.
Qed.
End delete.
