(* ===== verification/RadixThm.v ===== *)
(** * RadixThm: a radix tree is a map with tags

    The abstract state is a map from indices to items and a set of indices for each tag.
    [rt_spec] says what each operation may return and do to it; [rt_step_ok] shows that the code
    does nothing else, whatever the slab and call_rcu do. *)

From S2P Require Import Prelude Bitops Radix RadixPath RadixInv RadixOps RadixTags RadixInsert RadixStore RadixDelete.

(** ** The operations of a client *)

Inductive rt_op : Type :=
  | OpInsert (index item : Z)
  | OpDelete (index : Z)
  | OpLookup (index : Z)
  | OpReplace (index item : Z)
  | OpTagSet (index tag : Z)
  | OpTagClear (index tag : Z)
  | OpTagGet (index tag : Z)
  | OpTagged (tag : Z)
  | OpNextHole (index max_scan : Z)
  | OpPrevHole (index max_scan : Z)
  | OpPreload (gfp_mask : Z)
  | OpGrace.

Record rt_abs : Type := RtAbs { am : gmap Z Z; atg : Z → gset Z }.

(** What the caller has to see to; radix_tree_tag_set must be given the index of an item. *)
Definition rt_pre (op : rt_op) (a : rt_abs) : Prop :=
  match op with
  | OpInsert index item | OpReplace index item => is_u64 index ∧ item ≠ 0 ∧ aligned item
  | OpDelete index | OpLookup index => is_u64 index
  | OpTagSet index tag => is_u64 index ∧ 0 ≤ tag < 3 ∧ is_Some (am a !! index)
  | OpTagClear index tag | OpTagGet index tag => is_u64 index ∧ 0 ≤ tag < 3
  | OpTagged tag => 0 ≤ tag < 3
  | OpNextHole index max_scan | OpPrevHole index max_scan => is_u64 index ∧ 0 ≤ max_scan
  | OpPreload _ | OpGrace => True
  end.

(** [v] comes [k] indices after (or before) [index], all of them taken, and is the first that is
    not, unless the scan or the indices end. *)
Definition hole (m : gmap Z Z) (index max_scan dir v : Z) : Prop :=
  ∃ k, 0 ≤ k ≤ max_scan ∧ v = u64 (index + dir * k) ∧ (∀ j, 0 ≤ j < k → is_Some (m !! (index + dir * j))) ∧
    (k = max_scan ∨ index + dir * k = 2 ^ 64 ∨ index + dir * k = - 1 ∨ m !! v = None).

Definition rt_spec (op : rt_op) (a : rt_abs) (v : Z) (a' : rt_abs) : Prop :=
  let m := am a in let tg := atg a in
  match op with
  | OpInsert index item =>
      (v = 0 ∧ m !! index = None ∧ a' = RtAbs (<[index := item]> m) tg) ∨
      (v = - rt_EEXIST ∧ is_Some (m !! index) ∧ a' = a) ∨ (v = - rt_ENOMEM ∧ m !! index = None ∧ a' = a)
  | OpDelete index => v = default 0 (m !! index) ∧ a' = RtAbs (delete index m) (λ t, tg t ∖ {[index]})
  | OpLookup index => v = default 0 (m !! index) ∧ a' = a
  | OpReplace index item => match m !! index with Some _ => v = 1 ∧ a' = RtAbs (<[index := item]> m) tg | None => v = 0 ∧ a' = a end
  | OpTagSet index tag => v = default 0 (m !! index) ∧ a' = RtAbs m (λ t, if t =? tag then {[index]} ∪ tg t else tg t)
  | OpTagClear index tag => v = default 0 (m !! index) ∧ a' = RtAbs m (λ t, if t =? tag then tg t ∖ {[index]} else tg t)
  | OpTagGet index tag => v = Z.b2z (bool_decide (index ∈ tg tag)) ∧ a' = a
  | OpTagged tag => v = Z.b2z (bool_decide (tg tag ≠ ∅)) ∧ a' = a
  | OpNextHole index max_scan => hole m index max_scan 1 v ∧ a' = a
  | OpPrevHole index max_scan => hole m index max_scan (- 1) v ∧ a' = a
  | OpPreload _ => (v = 0 ∨ v = - rt_ENOMEM) ∧ a' = a
  | OpGrace => v = 0 ∧ a' = a
  end.

(** A client goes on according to what an operation returned. *)
Inductive rt_client : Type := RtDone | RtDo (op : rt_op) (k : Z → rt_client).

(** It keeps to [rt_pre] on every run that the specification allows. *)
Fixpoint rt_safe (c : rt_client) (a : rt_abs) : Prop :=
  match c with RtDone => True | RtDo op k => rt_pre op a ∧ ∀ v a', rt_spec op a v a' → rt_safe (k v) a' end.
Fixpoint rt_runs (c : rt_client) (a : rt_abs) (vs : list Z) (a' : rt_abs) : Prop :=
  match c, vs with
  | RtDone, [] => a' = a
  | RtDo op k, v :: vs => ∃ a1, rt_spec op a v a1 ∧ rt_runs (k v) a1 vs a'
  | _, _ => False
  end.

(** The tree in the state stands for the abstract one. *)
Definition represents (s : rt_state) (a : rt_abs) : Prop := ∃ r H, rt_ok s r H (am a) (atg a).

(** ** The state at the start *)

(** An empty tree, with the objects of the slab constructed. *)
Definition rt_init (gfp_mask : Z) (objects : list Z) : rt_state :=
  RtState (list_to_map ((λ a, (a, radix_tree_node_ctor)) <$> objects)) (RtRoot 0 gfp_mask 0) (RtPreload 0 (replicate 21 0)) objects [].

Lemma rt_init_ok gfp objects : 0 ≤ gfp < 2 ^ 25 → NoDup objects → Forall (λ a, a ≠ 0 ∧ aligned a) objects → represents (rt_init gfp objects) (RtAbs ∅ (λ _, ∅)).
Proof.
  intros Hg Hnd Hall. exists 0, 0%nat. apply empty_ok.
  - split; [intros π _ Hl; lia|intros π ρ _ _ Hl; lia|]. intros π _ Hl. destruct π; [by split|simpl in Hl; lia].
  - split; [done|lia|done|]. cbn [rr_gfp_mask]. lia.
  - split; cbn [rtp_nr rtp_nodes]; [lia|done|unfold pool; cbn; by rewrite app_nil_r| | |set_solver].
    + intros a Ha. unfold pool in Ha. cbn in Ha. rewrite app_nil_r in Ha. rewrite Forall_forall in Hall. destruct (Hall a Ha). split_and!; [done..|]. intros π _ Hl. lia.
    + intros a Ha. unfold pool in Ha. cbn in Ha. rewrite app_nil_r in Ha. exists radix_tree_node_ctor. split; [|done].
      apply elem_of_list_to_map_1; [|by apply list_elem_of_fmap_2 with (f := λ a, (a, radix_tree_node_ctor))]. rewrite <- list_fmap_compose. cbn. by rewrite list_fmap_id.
  - done.
  - intros t Ht. rewrite root_tag_test by done. cbn [rr_gfp_mask]. apply (testbit_high 25); [done|lia].
  - intros ρ _ Hl. by destruct ρ.
  - intros π n t _ Hl. lia.
Qed.

Section thm.
Context {E : rt_env} {EO : rt_env_ok E}.

Definition rt_exec (op : rt_op) : RM Z :=
  match op with
  | OpInsert index item => radix_tree_insert index item
  | OpDelete index => radix_tree_delete index
  | OpLookup index => radix_tree_lookup index
  | OpReplace index item =>
      p ← radix_tree_lookup_slot index; match p with Some p => _ ← radix_tree_replace_slot p item; mret 1 | None => mret 0 end
  | OpTagSet index tag => radix_tree_tag_set index tag
  | OpTagClear index tag => radix_tree_tag_clear index tag
  | OpTagGet index tag => radix_tree_tag_get index tag
  | OpTagged tag => b ← radix_tree_tagged tag; mret (Z.b2z b)
  | OpNextHole index max_scan => radix_tree_next_hole index max_scan
  | OpPrevHole index max_scan => radix_tree_prev_hole index max_scan
  | OpPreload gfp_mask => radix_tree_preload gfp_mask
  | OpGrace => _ ← rcu_barrier; mret 0
  end.
(** ** Holes *)

Section holes.
Context (s : rt_state) (r : Z) (H : nat) (m : gmap Z Z) (tg : Z → gset Z) (K : rt_ok s r H m tg).

Lemma lookup_hole idx v : is_u64 idx → v = default 0 (m !! idx) → if v =? 0 then m !! idx = None else is_Some (m !! idx).
Proof.
  intros Hi ->. destruct (m !! idx) as [x|] eqn:Em; [|done]. apply (item_nonzero _ _ _ _ _ K) in Em. cbn. by rewrite (proj2 (Z.eqb_neq x 0)).
Qed.

Lemma hole_step idx n dir v : is_Some (m !! idx) → hole m (idx + dir) n dir v → 0 ≤ n → hole m idx (n + 1) dir v.
Proof.
  intros Hs (k & Hk & Hv & Hall & Hend) Hn. exists (k + 1). replace (idx + dir * (k + 1)) with (idx + dir + dir * k) by lia. split_and!; [lia|lia|done| |].
  - intros j Hj. destruct (decide (j = 0)) as [->|]; [by rewrite Z.mul_0_r, Z.add_0_r|].
    replace (idx + dir * j) with (idx + dir + dir * (j - 1)) by lia. apply Hall. lia.
  - destruct Hend as [->|Hend]; [by left|by right].
Qed.

Lemma hole_here idx n dir : is_u64 idx → 0 ≤ n → (n = 0 ∨ m !! idx = None) → hole m idx n dir idx.
Proof.
  intros Hi Hn Hend. exists 0. rewrite Z.mul_0_r, Z.add_0_r. split_and!; [lia|lia|symmetry; apply Z.mod_small; lia|intros j Hj; lia|].
  destruct Hend as [->|]; [by left|auto].
Qed.

Lemma next_hole_ok n : ∀ idx, is_u64 idx → wp (next_hole_loop n idx) (λ v s', s' = s ∧ hole m idx (Z.of_nat n) 1 v) s.
Proof.
  induction n as [|n IH]; intros idx Hi; cbn [next_hole_loop]; [apply wp_ret; split; [done|]; by apply hole_here; auto|].
  apply wp_bind. eapply wp_mono; [by apply (lookup_ok s r H m tg K)|]. intros v s' [-> Hv]. pose proof (lookup_hole idx v Hi Hv) as Hh.
  destruct (v =? 0); [apply wp_ret; split; [done|]; apply hole_here; auto; lia|]. replace (Z.of_nat (S n)) with (Z.of_nat n + 1) by lia.
  destruct (decide (idx + 1 = 2 ^ 64)) as [Ew|Ew].
  - unfold u64. replace (wrap 64 (idx + 1)) with 0 by (rewrite Ew; done). cbn [Z.eqb]. apply wp_ret. split; [done|].
    exists 1. split_and!; [lia|lia|by rewrite Z.mul_1_r, Ew| |right; left; lia]. intros j Hj. by replace (idx + 1 * j) with idx by lia.
  - replace (idx +64 1) with (idx + 1) by (symmetry; apply Z.mod_small; lia). rewrite (proj2 (Z.eqb_neq _ 0)) by lia.
    eapply wp_mono; [apply IH; lia|]. intros v' s' [-> Hv']. split; [done|]. apply hole_step; [done|done|lia].
Qed.

Lemma prev_hole_ok n : ∀ idx, is_u64 idx → wp (prev_hole_loop n idx) (λ v s', s' = s ∧ hole m idx (Z.of_nat n) (- 1) v) s.
Proof.
  induction n as [|n IH]; intros idx Hi; cbn [prev_hole_loop]; [apply wp_ret; split; [done|]; by apply hole_here; auto|].
  apply wp_bind. eapply wp_mono; [by apply (lookup_ok s r H m tg K)|]. intros v s' [-> Hv]. pose proof (lookup_hole idx v Hi Hv) as Hh.
  destruct (v =? 0); [apply wp_ret; split; [done|]; apply hole_here; auto; lia|]. replace (Z.of_nat (S n)) with (Z.of_nat n + 1) by lia.
  destruct (decide (idx = 0)) as [->|Ew].
  - change (0 -64 1) with ULONG_MAX. rewrite Z.eqb_refl. apply wp_ret. split; [done|].
    exists 1. split_and!; [lia|lia|done| |right; right; left; lia]. intros j Hj. by replace (0 + - 1 * j) with 0 by lia.
  - replace (idx -64 1) with (idx + - 1) by (symmetry; apply Z.mod_small; lia). rewrite (proj2 (Z.eqb_neq _ ULONG_MAX)) by (unfold ULONG_MAX; lia).
    eapply wp_mono; [apply IH; lia|]. intros v' s' [-> Hv']. split; [done|]. apply hole_step; [done|done|lia].
Qed.
End holes.

(** ** One operation *)

Lemma tagged_ok s r H m tg t : rt_ok s r H m tg → 0 ≤ t < 3 → root_tag_get (rt_root s) t = bool_decide (tg t ≠ ∅).
Proof.
  intros K Ht. apply Bool.eq_iff_eq_true. rewrite bool_decide_eq_true, (ti_root _ _ _ _ _ _ (ok_tags _ _ _ _ _ K) t Ht). split.
  - intros (j & Hj & _) E0. rewrite E0 in Hj. set_solver.
  - intros Hne. apply set_choose_L in Hne as [j Hj]. exists j. split; [done|apply prefix_nil].
Qed.

Lemma rt_step_ok op s a : represents s a → rt_pre op a → wp (rt_exec op) (λ v s', ∃ a', rt_spec op a v a' ∧ represents s' a') s.
Proof.
  intros (r & H & K) Hpre. destruct a as [m tg]. cbn [am atg] in *.
  assert (Hsame : ∀ s', s' = s → represents s' (RtAbs m tg)) by (intros ? ->; by exists r, H).
  destruct op; cbn [rt_exec rt_pre rt_spec am atg] in *.
  - destruct Hpre as (Hi & Hn & Ha). eapply wp_mono; [by eapply insert_ok|]. intros v s' (r' & H' & m' & K' & [(-> & Hm & ->)|[(-> & Hm & ->)|(-> & Hm & -> & _)]]).
    + exists (RtAbs (<[index := item]> m) tg). split; [by left|by exists r', H'].
    + exists (RtAbs m tg). split; [right; by left|by exists r', H'].
    + exists (RtAbs m tg). split; [right; by right|by exists r', H'].
  - eapply wp_mono; [by eapply delete_ok|]. intros v s' (-> & r' & H' & K' & _). eexists. split; [done|by exists r', H'].
  - eapply wp_mono; [by eapply lookup_ok|]. intros v s' [? ->]. eexists. split; [done|by apply Hsame].
  - destruct Hpre as (Hi & Hn & Ha). eapply wp_mono; [by eapply replace_ok|]. intros v s' (r' & Hres). destruct (m !! index); destruct Hres as [-> K'].
    + exists (RtAbs (<[index := item]> m) tg). split; [done|by exists r', H].
    + exists (RtAbs m tg). split; [done|by exists r', H].
  - destruct Hpre as (Hi & Ht & [v Hv]). eapply wp_mono; [by eapply tag_set_ok|]. intros x s' [-> K']. eexists. rewrite Hv. split; [done|by exists r, H].
  - destruct Hpre as (Hi & Ht). eapply wp_mono; [by eapply tag_clear_ok|]. intros x s' (-> & K' & _). eexists. split; [done|by exists r, H].
  - destruct Hpre as (Hi & Ht). destruct s as [ns root pre c q]. eapply wp_mono; [by eapply tag_get_ok|]. intros x s' (? & ->). eexists. split; [done|by apply Hsame].
  - apply wp_bind, wp_bind, wp_gets, wp_ret, wp_ret. rewrite (tagged_ok s r H m tg) by done. eexists. split; [done|by apply Hsame].
  - destruct Hpre as (Hi & Hn). eapply wp_mono; [by apply (next_hole_ok s r H m tg K)|]. intros v s' [? Hh]. rewrite Z2Nat.id in Hh by done. eexists. split; [done|by apply Hsame].
  - destruct Hpre as (Hi & Hn). eapply wp_mono; [by apply (prev_hole_ok s r H m tg K)|]. intros v s' [? Hh]. rewrite Z2Nat.id in Hh by done. eexists. split; [done|by apply Hsame].
  - pose proof (mo_nr _ _ _ _ _ _ (ok_mem _ _ _ _ _ K)). eapply wp_mono; [eapply preload_loop_ok; [done|lia]|]. intros v s' (K' & _ & Hv).
    eexists. split; [split; [|done]|by exists r, H]. destruct Hv as [[-> _]| ->]; auto.
  - apply wp_bind. eapply wp_mono; [by eapply rcu_barrier_ok|]. intros _ s' (K' & _). apply wp_ret. eexists. split; [done|by exists r, H].
Qed.

End thm.

(** The operations of a client, each with the slab as it then is: one that failed for
    a free list may succeed for the same list later. *)
Fixpoint rt_execs (Es : nat → rt_env) (c : rt_client) : RM (list Z) :=
  match c with
  | RtDone => mret []
  | RtDo op k => v ← rt_exec (E := Es O) op; vs ← rt_execs (λ n, Es (S n)) (k v); mret (v :: vs)
  end.

Lemma rt_execs_ok cl : ∀ (Es : nat → rt_env) s a, (∀ n, rt_env_ok (Es n)) → represents s a → rt_safe cl a →
  wp (rt_execs Es cl) (λ vs s', ∃ a', rt_runs cl a vs a' ∧ represents s' a') s.
Proof.
  induction cl as [|op k IH]; intros Es s a HE Hr Hs; cbn [rt_execs rt_safe] in *; [apply wp_ret; by exists a|].
  destruct Hs as [Hpre Hs]. apply wp_bind. eapply wp_mono; [by eapply (rt_step_ok (EO := HE O))|]. intros v s1 (a1 & Hsp & Hr1).
  apply wp_bind. eapply wp_mono; [apply (IH v (λ n, Es (S n)) s1 a1); [by intros n; apply HE|done|by eapply Hs]|]. intros vs s2 (a2 & Hruns & Hr2). apply wp_ret.
  exists a2. split; [by exists a1|done].
Qed.

(** ** The theorems *)

(** C17: whatever objects the slab hands out and whenever it fails, from operation to operation, and whatever call_rcu writes into
    a freed node, a client of a radix tree that stores pointers with a clear low bit and sets tags
    on present items only never meets a BUG or an access outside a node, and every value it is
    returned is one that a map with three sets of tagged indices allows: insertion stores the item
    or fails with -EEXIST exactly if there is one, or with -ENOMEM and no change of the map; lookup,
    the tag queries and the scans for holes read the map; a slot that was looked
    up can be given another item; deletion removes the item and its tags;
    preloading and the end of a grace period change nothing of it. *)
Theorem radix_tree_refines (Es : nat → rt_env) cl s a : (∀ n, rt_env_ok (Es n)) → represents s a → rt_safe cl a →
  ∃ vs s' a', rt_execs Es cl s = Some (vs, s') ∧ rt_runs cl a vs a' ∧ represents s' a'.
Proof.
  intros HE Hr Hs. destruct (proj1 (wp_elim _ _ _) (rt_execs_ok cl Es s a HE Hr Hs)) as (vs & s' & Hrun & a' & Hruns & Hr'). by exists vs, s', a'.
Qed.

(** C19: after a radix_tree_preload that returned 0, an insertion into a tree whose mask does not
    allow it to wait does not fail for lack of memory, even if the slab ([E2] at the insertion) has nothing left: the
    21 preloaded nodes are enough for any index. *)
Theorem radix_tree_preload_covers {E1 E2 : rt_env} {O1 : rt_env_ok E1} {O2 : rt_env_ok E2} s a gfp s1 idx item : represents s a → nowait (rt_root s) → is_u64 idx → item ≠ 0 → aligned item →
  radix_tree_preload (E := E1) gfp s = Some (0, s1) →
  ∃ v s2, radix_tree_insert (E := E2) idx item s1 = Some (v, s2) ∧
    if decide (am a !! idx = None) then v = 0 ∧ represents s2 (RtAbs (<[idx := item]> (am a)) (atg a)) else v = - rt_EEXIST ∧ represents s2 a.
Proof.
  intros (r & H & K) Hw Hi Hn Ha Hpre. pose proof (mo_nr _ _ _ _ _ _ (ok_mem _ _ _ _ _ K)) as Hnr.
  pose proof (preload_loop_ok (EO := O1) gfp 22 s r H (am a) (atg a) K ltac:(lia)) as Hp. apply wp_elim in Hp as (v & s' & Hp & K1 & Hroot & Hres).
  change (radix_tree_preload (E := E1) gfp s = Some (v, s')) in Hp. rewrite Hp in Hpre. injection Hpre as -> ->. destruct Hres as [[_ Hfull]|]; [|done].
  destruct (proj1 (wp_elim _ _ _) (insert_ok (EO := O2) s1 r H (am a) (atg a) idx item K1 Hi Hn Ha)) as (v & s2 & Hins & r2 & H2 & m2 & K2 & Hres). exists v, s2. split; [done|].
  destruct Hres as [(-> & Hm & ->)|[(-> & [x Hx] & ->)|(_ & _ & _ & Hlow)]].
  - rewrite decide_True by done. split; [done|]. by exists r2, H2.
  - rewrite decide_False by congruence. split; [done|]. by exists r2, H2.
  - rewrite Hroot in Hlow. specialize (Hlow Hw). lia.
Qed.

(** ** A slab of forty objects *)

Definition ex_env : rt_env := {| slab_pick := λ l _, head l; rcu_link := λ q, zlen q |}.
#[local] Existing Instance ex_env.

(** A slab that has nothing, at the second operation of the client. *)
Definition dry_env : rt_env := {| slab_pick := λ _ _, None; rcu_link := λ q, zlen q |}.
Definition ex_envs (n : nat) : rt_env := if bool_decide (n = 1%nat) then dry_env else ex_env.

Definition ex_objects : list Z := map (λ i, 16 * (Z.of_nat i + 1)) (seq 0 40).
Definition ex_tree : rt_state := rt_init 0 ex_objects.

Lemma ex_env_ok : rt_env_ok ex_env.
Proof. intros [|x l] gfp a Ha; [done|]. injection Ha as ->. by left. Qed.
Lemma dry_env_ok : rt_env_ok dry_env.
Proof. by intros l gfp a. Qed.
Lemma ex_envs_ok n : rt_env_ok (ex_envs n).
Proof. unfold ex_envs. case_bool_decide; [apply dry_env_ok|apply ex_env_ok]. Qed.
Lemma ex_tree_ok : represents ex_tree (RtAbs ∅ (λ _, ∅)).
Proof.
  apply rt_init_ok; [lia|by apply (bool_decide_unpack _); vm_compute|].
  unfold ex_objects. apply Forall_map, Forall_seq. intros i Hi. split; [lia|]. split; [lia|]. by rewrite Z.even_mul.
Qed.

(** Insert, which fails the second time and is tried again, tag if the item is there,
    look, delete and wait for a grace period. *)
Definition ex_rest (v : Z) : rt_client :=
  if v =? 0 then RtDo (OpTagSet 70000 1) (λ _, RtDo (OpTagGet 70000 1) (λ _, RtDo (OpNextHole 7 9) (λ _,
    RtDo (OpDelete 70000) (λ _, RtDo (OpTagged 1) (λ _, RtDo OpGrace (λ _, RtDo (OpLookup 7) (λ _, RtDone)))))))
  else RtDone.
Definition ex_client : rt_client :=
  RtDo (OpInsert 7 1024) (λ _, RtDo (OpInsert 70000 2048) (λ v,
    if v =? - rt_ENOMEM then RtDo (OpInsert 70000 2048) ex_rest else RtDone)).

Example ex_client_run :
  fst <$> rt_execs ex_envs ex_client ex_tree = Some [0; - rt_ENOMEM; 0; 2048; 1; 8; 2048; 0; 0; 1024].
Proof. by vm_compute. Qed.

Lemma ex_client_safe : rt_safe ex_client (RtAbs ∅ (λ _, ∅)).
Proof.
  cbn [ex_client rt_safe rt_pre]. split; [split_and!; [lia|lia|done|by split]|]. intros v1 a1 _. split; [split_and!; [lia|lia|done|by split]|]. intros v a _.
  destruct (v =? - rt_ENOMEM); [|done]. cbn [rt_safe rt_pre]. split; [split_and!; [lia|lia|done|by split]|]. intros v2 a2 H2. unfold ex_rest.
  destruct (Z.eqb_spec v2 0) as [->|]; [|done]. cbn [rt_safe rt_pre]. destruct H2 as [(_ & _ & ->)|[(? & _)|(? & _)]]; [|done..].
  split; [split_and!; [lia|lia|lia|lia|cbn [am]; rewrite lookup_insert_eq; by eexists]|]. intros v3 a3 _.
  repeat (first [split; [first [done | lia | split_and!; lia]|] | intros ? ? _]). done.
Qed.

Lemma radix_tree_refines_witness :
  ∃ vs s' a', rt_execs ex_envs ex_client ex_tree = Some (vs, s') ∧ rt_runs ex_client (RtAbs ∅ (λ _, ∅)) vs a' ∧ represents s' a'.
Proof. apply (radix_tree_refines ex_envs ex_client ex_tree (RtAbs ∅ (λ _, ∅)) ex_envs_ok ex_tree_ok ex_client_safe). Defined.

Definition ex_preloaded : rt_state := default ex_tree (snd <$> radix_tree_preload 16 ex_tree).

Lemma radix_tree_preload_covers_witness :
  ∃ v s2, radix_tree_insert (E := dry_env) (2 ^ 64 - 1) 1024 ex_preloaded = Some (v, s2) ∧ v = 0 ∧
  represents s2 (RtAbs (<[2 ^ 64 - 1 := 1024]> ∅) (λ _, ∅)).
Proof.
  apply (radix_tree_preload_covers (O1 := ex_env_ok) (O2 := dry_env_ok) ex_tree (RtAbs ∅ (λ _, ∅)) 16 ex_preloaded (2 ^ 64 - 1) 1024 ex_tree_ok);
    [by vm_compute|lia|done|by split|by vm_compute].
Defined.
